(* ===== verification/_CoqProject ===== *)
-Q . S2P
Prelude.v
Words.v
Queue.v
Pool.v
Array.v
Bits.v
LockState.v
Access.v
Combiner.v
Dispatcher.v
Configurator.v
Lifecycle.v
Supervisor.v
MainThread.v
Runner.v
JobGraph.v
JobGraphSpec.v
JobGraphLists.v
JobGraphTurns.v
JobGraphFeeds.v
JobGraphInv.v
JobGraphStep.v
JobGraphLink.v
JobGraphFinish.v
JobGraphHistory.v
JobGraphPlay.v
Entity.v
IndexTable.v
Mask.v
EntityTable.v
EntityLedger.v
EntityTableSpec.v
EntitySim.v
EntityRefines.v
EntityHistory.v
Store.v
StoreRepr.v
StoreSwap.v
StoreSpec.v
StoreRefines.v
StoreWindow.v
StoreHistory.v
World.v
Refs.v
RefsSpec.v
RefsRefines.v
RefsRelease.v
RefsReset.v
RefsDelta.v
RefsHistory.v
KeyedRefs.v
Commands.v
CommandsLane.v
RefsLanes.v
RefsLanesHistory.v
WorldSpec.v
WorldCoherent.v
WorldRefines.v
WorldSteps.v
WorldHistory.v
CommandsCommit.v
Query.v
QueryFrame.v
QueryMatch.v
QueryHistory.v
DeltaQuery.v
DeltaQueryExact.v
Track.v
TrackRun.v
TrackPacing.v
PublishedTick.v
ManualClock.v
Metronome.v
MetronomeHistory.v
WindowManager.v
InputState.v
EventProcessor.v
PumpSteps.v
Pump.v
GfxTable.v
