(* ===== verification/Prelude.v ===== *)
(** * Cog: a verification development

    Cog is a Go engine: a kernel that runs the tasks of plugins in parallel
    under declared locks, on it an entity-component system whose worlds the
    tasks read and change, and a metronome that paces them.  This library
    models the three as executable Rocq functions, states what each part
    promises, and proves that the code keeps the promise.

    ** How the code is modelled

    A Go function is a function of the same name on an explicit state; a
    function that may panic (an index out of range, a nil dereference, an
    explicit panic) answers in the option monad, [None] being the panic, and
    one that returns an error answers a [result].  A proof that an operation
    answers [Some] is a proof that it does not panic.  [uint32], [uint64],
    [int32] and [int64] are [N] or [Z] with the wrap-around written out
    ([u32], [u64], [i32], [i64]); [int] as a slice position is a [nat].
    Slices are lists, a slice past its end is [None]; pointers into chunked
    storage are indexes, and a write through a pointer is a function of its
    own.  Goroutines are step relations, one atomic access a step.  A generic
    type is a section over its parameter and the parameter's zero value.

    ** The parts, and where they are

    The kernel (src/kernel, src/kernel/container):
    - [Prelude]: words, slices and loops; [Words]: bit masks as words.
    - [Queue] (container/queue.go), [Pool] (pool.go), [Array] (array.go),
      [Bits] (array of bits, bits.go): containers, each against the list or
      set it stands for.
    - [LockState] (lockstate.go, the masks of task.go): lock tables and the
      operations of the combiner on them; [Access] (access.go): how a task's
      constructor declares its locks; [Combiner] (combiner.go): jobs asking
      for and giving back locks, interleaved.
    - [Dispatcher] (dispatcher.go): subscriptions and the order of handlers;
      [Configurator] (configurator.go, socket.go): what plugins register;
      [Lifecycle] (lifecycle.go, plugin.go): the init and destroy of plugins,
      every rollback included; [Supervisor] (supervisor.go): the kernels of a
      program; [MainThread] (supervisor.go): its queue of pinned jobs and the
      main thread's loop; [Runner] (runner.go): workers, publications and drain.
    - [Pool] has the class of what container/pool.go promises to those who keep
      data in slots; [JobGraph] (job.go, executor.go, the runJob of task.go and
      Notify of kernel.go): jobs that wait for and feed one another, over three
      such pools, without a lock.  [JobGraphSpec] is its contract; the parts of
      its invariant are in [JobGraphLists], [JobGraphTurns] and
      [JobGraphFeeds], the invariant in [JobGraphInv]; [JobGraphStep],
      [JobGraphLink], [JobGraphFinish] and [JobGraphHistory] prove that each
      step of a goroutine, and so the system, keeps it; [JobGraphPlay] has the theorems and an execution.

    The entity-component system (src/ecs):
    - [Entity] (entity.go), [IndexTable] (indextable.go),
      [Mask] (mask.go), [EntityTable] (entitytable.go): entities as an index and
      a generation, reserved, spawned, despawned and given back.
      [EntityLedger], [EntityTableSpec], [EntitySim], [EntityRefines] and
      [EntityHistory] hold the table's contract and its refinement.
    - [Store] (store.go): the sparse set of one component with its observation
      window; [StoreRepr], [StoreSwap], [StoreSpec],
      [StoreRefines], [StoreWindow], [StoreHistory] its proofs.
    - [World] (world.go, component.go): the table and the stores together;
      [WorldSpec], [WorldCoherent], [WorldRefines], [WorldSteps],
      [WorldHistory] its contract and proofs.  A world reaches refs and
      command buffers through the classes [Windowed] and [Shrinker], whose laws
      ([WindowedLaws], [ShrinkerLaws]) its theorems use; [RefsLanesHistory]
      proves them of refs and [CommandsLane] of buffers.
    - [Refs] (refs.go): values behind generational handles, with
      [RefsSpec], [RefsRefines], [RefsRelease], [RefsReset],
      [RefsDelta] and [RefsHistory]; [KeyedRefs] (keyedrefs.go).
    - [Commands] (commands.go): buffers of recorded changes; [CommandsLane]
      and [CommandsCommit] prove them; a buffer reaches the lanes of refs
      through the class [RefsLane] and its laws [RefsLaneLaws]; [RefsLanes]
      (commands.go, refs.go) implements it, and [RefsLanesHistory] proves the
      laws.
    - [Query] (query.go, query_gen.go) and [DeltaQuery] (delta.go,
      deltaquery_gen.go): walks over the entities of a world; [QueryFrame],
      [QueryMatch], [QueryHistory] and [DeltaQueryExact] prove them.

    The metronome (src/metronome):
    - [Track] (track.go, beat.go): how a track is declared, the beat due on a
      reading of the clock, its Alpha, the ring of signals; [TrackRun] (run of
      track.go, kernel/signal.go): its goroutine on any clock; [TrackPacing]:
      what the beats add up to, and the rounding of Alpha.
    - [PublishedTick] (publishedTick of track.go): a seqlock, access by access.
    - [ManualClock] (manualclock.go): timers, moves, stopwatches; [Metronome]
      (plugin.go, run and publishDue of track.go, Advance): the goroutines of
      all tracks, the publications that finish and whoever moves the clock,
      interleaved; [MetronomeHistory] proves it.

    The platform and its graphics (src/platform, src/gfx):
    - [WindowManager] (windowmanager.go), [InputState] (inputstate.go, key.go),
      [EventProcessor] (eventprocessor.go, inputchange.go): the windows
      requested, the levels of keys and pointers, and one run of the pump over
      both; [PumpSteps] proves a run, [Pump] histories of runs over a scripted
      window implementation.
    - [GfxTable] (gfx/table.go): the handles of a graphics backend.

    ** What the theorems show

    - Containers: [Queue], [Array], [Bits] refine a list or set for every
      operation; [Pool] hands out every index once.
    - Locks: two jobs whose locks conflict never run together, nothing waits
      that could run once no goroutine is inside the combiner, and every call
      returns; which orders are kept and which are not.
    - Jobs: however goroutines interleave inside the job graph, a job is handed
      on once, when its batch is submitted and what it waits for has finished,
      with the arg or result it is to have; nothing panics; and once no
      goroutine is inside and no job is left to run, every job has finished
      and every signal armed was sent.
    - Starting and ending: which plugin steps run, in which order, on every
      branch; what registration accepts; the handlers' order; no wake-up of a
      worker is lost; where [drain] is exact and where it returns early; each
      pinned job runs once, in order, and the main thread misses none.
    - Entities, stores, worlds, refs: every reachable state implements its
      contract and no operation panics in one; a world's stores read what its
      contract has, and its refs and buffers are told of each window.  A
      contract is a record of finite maps and sets ([tableSpec], [storeSpec], [worldSpec], [refsSpec])
      with a step for each operation; the refinement theorems run the code
      and the contract side by side from registration on.  From them: an
      entity or a ref that ended never reads again, masks and stores agree,
      values keep their component's size, deltas are the differences between
      two resets, what is spawned from bytes reads back.  Of refs, deltas report
      a write whether or not it changed the value.
    - Commands: what a producer records is what a commit reads, and a commit
      is the commands done one at a time by the world's operations, in the
      documented order, then those of the lanes of refs by the operations of
      the refs; it never panics, a commit to refs included.
    - Queries: a walk visits exactly the entities that matched when it began,
      once, whatever its consumer does to the entity it is at; a delta query
      yields exactly the entities with a delta.
    - Beats: on any clock the beats of a track are numbered one after another
      and TimeFromStart is the sum of Delta and Lost; a fixed-step track is
      never early, drops whole steps past its debt cap only, and owes no more
      than the cap; Alpha is in [0,1) after every rounding; no finish of a beat
      is lost; a load of the shared tick is never torn; and on a clock moved by
      Advance alone each step is published at its deadline and none is dropped,
      where no fixed-step track has a MinInterval: one moves the first deadline
      off the steps.
    - The pump: the windows known, those with a pointer and those applied are
      one list, which is what the window implementation has been told; the
      events of a run give the key levels to whoever folds them; a run panics
      on the changes that [change_valid] refuses only, which are not quite
      those the docs say, and the pump goes on.
    - Handles: a table of gfx implements its contract, so a handle retired is
      stale for good, whatever its index is reused for.

    ** Bounds and fuel

    Generations and rows are 32-bit words that wrap.  Theorems on histories
    count what an operation may use up ([cost] for a world, two a ref
    operation) and hold while the count is below 2^32 (2^31 for refs), so no
    generation wraps.  Theorems on one store give the entities of an index
    values one at a time and in generation order ([in_generation_order]), so
    several of an index may have rows in a window; a world has one entity per
    index and window of its table's.
    The job graph's theorems hold for histories in which the pools have room
    (2^24 - 1 chunks), a job waits for fewer than 2^31 - 1 others and a slot has
    fewer than 2^32 - 1 jobs ([bounded]).  A ManualClock's time and a fixed step
    stay below 2^62 nanoseconds in [Metronome], so no duration wraps; the beats
    of one track add up on any int64 readings, wraps included.  A table of
    handles is proved for fewer than 2^32 - 2 operations, a window manager for
    fewer than 2^64 - 1 windows.
    Loops that are not structural take fuel that the proofs show enough: 65
    turns for the bits of a word, the length of a value for its words, the
    size for chunks to add, the number of handlers for the sort.  A query has
    at most eight terms.  A component's value is its bytes, a command's words
    are little-endian.

    ** What is not modelled

    - Mutexes and atomics are the atomicity of a step; the memory model of Go
      below sequential consistency is not modelled.
    - Reflection, type parameters and names: a component, resource, socket or
      event type is an identifier.
    - ecs: schema.go and serialization.go (reflection over component types
      and an encoding of whole worlds), systems.go and plugin.go (wiring).
    - kernel: logger.go.
    - metronome: wallclock.go, a timer of the operating system; a track is
      proved on any clock's readings.
    - platform: filesystem.go, values.go, filesystems/ (files and JSON) and
      the implementations of its sockets, of which [Pump] has a scripted one.
    - gfx: all but table.go, calls of a graphics backend; src/_legacy, the code
      the rest replaced. *)

From stdpp Require Export base tactics list numbers option gmap.
From stdpp Require Export options.

(** ** Machine words

    Go's [uint32] and [uint64] are [N] with the wrap-around written out;
    [int32] and [int64] are [Z].  Go's [int] indexes slices, whose lengths
    memory bounds far below 2^63, so a slice position or length is a [nat]. *)

#[global] Arguments Nat.div : simpl never.
#[global] Arguments Nat.modulo : simpl never.

Declare Scope cog_scope.
Delimit Scope cog_scope with cog.

Definition u32 (x : N) : N := (x mod 2 ^ 32)%N.
Definition u64 (x : N) : N := (x mod 2 ^ 64)%N.
Definition i32 (z : Z) : Z := ((z + 2 ^ 31) mod 2 ^ 32 - 2 ^ 31)%Z.
Definition i64 (z : Z) : Z := ((z + 2 ^ 63) mod 2 ^ 64 - 2 ^ 63)%Z.

Lemma u32_small x : (x < 2 ^ 32)%N → u32 x = x.
Proof. intros H. unfold u32. by apply N.mod_small. Qed.

Lemma u32_bound x : (u32 x < 2 ^ 32)%N.
Proof. unfold u32. apply N.mod_lt. lia. Qed.

Lemma i32_small z : (-2 ^ 31 <= z < 2 ^ 31)%Z → i32 z = z.
Proof. intros H. unfold i32. rewrite Z.mod_small; lia. Qed.

Lemma i64_small z : (-2 ^ 63 <= z < 2 ^ 63)%Z → i64 z = z.
Proof. intros H. unfold i64. rewrite Z.mod_small; lia. Qed.

(** ** Slices

    A Go slice is a [list].  Indexing past its end panics, which is [None] in
    the option monad the operations run in; [list_set] is the assignment
    [l[i] = x]. *)

Definition list_set {A} (l : list A) (i : nat) (x : A) : option (list A) :=
  if decide (i < length l) then Some (<[i:=x]> l) else None.

(** [list_modify l i f] is [l[i] = f(l[i])]. *)
Definition list_modify {A} (l : list A) (i : nat) (f : A → A) : option (list A) :=
  x ← l !! i; list_set l i (f x).

Lemma list_set_Some {A} (l : list A) i x :
  i < length l → list_set l i x = Some (<[i:=x]> l).
Proof. intros H. unfold list_set. by rewrite decide_True. Qed.

Lemma list_set_inv {A} (l l' : list A) i x :
  list_set l i x = Some l' → i < length l ∧ l' = <[i:=x]> l.
Proof. unfold list_set. case_decide; naive_solver. Qed.

Lemma list_modify_Some {A} (l : list A) i x f :
  l !! i = Some x → list_modify l i f = Some (<[i:=f x]> l).
Proof.
  intros H. unfold list_modify. rewrite H. simpl.
  apply list_set_Some. by eapply lookup_lt_Some.
Qed.

Lemma forallb_false {A} (f : A → bool) (l : list A) : forallb f l = false ↔ ∃ x, x ∈ l ∧ f x = false.
Proof.
  induction l as [|y l IH]; cbn.
  - split; [done|]. by intros (x & ?%not_elem_of_nil & _).
  - rewrite andb_false_iff, IH. setoid_rewrite elem_of_cons. naive_solver.
Qed.

(** [slice l a b] is [l[a:b]] of a slice whose capacity is its length. *)
Definition slice {A} (l : list A) (a b : nat) : option (list A) :=
  if decide (a ≤ b ∧ b ≤ length l) then Some (take (b - a) (drop a l)) else None.

Lemma slice_Some {A} (l : list A) a b :
  a ≤ b → b ≤ length l → slice l a b = Some (take (b - a) (drop a l)).
Proof. intros. unfold slice. by rewrite decide_True. Qed.

(** Every Go type has a zero value. *)
Class Zero (A : Type) := zero_value : A.

#[export] Instance zero_N : Zero N := 0%N.
#[export] Instance zero_Z : Zero Z := 0%Z.
#[export] Instance zero_nat : Zero nat := 0.
#[export] Instance zero_bool : Zero bool := false.
#[export] Instance zero_unit : Zero unit := tt.
#[export] Instance zero_prod {A B} `{Zero A, Zero B} : Zero (A * B) := (zero_value, zero_value).

(** [clear_range l a b] is [clear(l[a:b])]. *)
Definition clear_range {A} `{Zero A} (l : list A) (a b : nat) : list A :=
  take a l ++ replicate (b - a) zero_value ++ drop b l.

Lemma lookup_clear_range {A} `{Zero A} (l : list A) a b i :
  a ≤ b → b ≤ length l →
  clear_range l a b !! i = if decide (a ≤ i ∧ i < b) then Some zero_value else l !! i.
Proof.
  intros Hab Hb. unfold clear_range.
  destruct (decide (i < a)).
  - rewrite lookup_app_l by (rewrite length_take; lia).
    rewrite lookup_take_lt by lia. rewrite decide_False; [done|lia].
  - rewrite lookup_app_r by (rewrite length_take; lia). rewrite length_take.
    rewrite Nat.min_l by lia. case_decide as Hi.
    + rewrite lookup_app_l by (rewrite length_replicate; lia).
      apply lookup_replicate_2. lia.
    + rewrite lookup_app_r by (rewrite length_replicate; lia).
      rewrite length_replicate, lookup_drop. f_equal. lia.
Qed.

Lemma length_clear_range {A} `{Zero A} (l : list A) a b :
  a ≤ b → b ≤ length l → length (clear_range l a b) = length l.
Proof.
  intros. unfold clear_range.
  rewrite !length_app, length_take, length_replicate, length_drop. lia.
Qed.

(** ** Loops

    [for i := range n { ... }] over a state, in the option monad. *)

Fixpoint for_from {St} (i n : nat) (body : nat → St → option St) (s : St) : option St :=
  match n with
  | O => Some s
  | S n' => s' ← body i s; for_from (S i) n' body s'
  end.

Definition for_range {St} (n : nat) (body : nat → St → option St) (s : St) : option St :=
  for_from 0 n body s.

Lemma for_from_invariant {St} (Inv : nat → St → Prop) body i n s :
  Inv i s →
  (∀ j s, i ≤ j < i + n → Inv j s → ∃ s', body j s = Some s' ∧ Inv (S j) s') →
  ∃ s', for_from i n body s = Some s' ∧ Inv (i + n) s'.
Proof.
  revert i s. induction n as [|n IH]; intros i s Hi Hstep; simpl.
  - exists s. by rewrite Nat.add_0_r.
  - destruct (Hstep i s) as (s' & -> & Hs'); [lia|done|]. simpl.
    destruct (IH (S i) s') as (s'' & -> & ?); [done| |].
    + intros. apply Hstep; [lia|done].
    + exists s''. by rewrite Nat.add_succ_r.
Qed.

Lemma for_range_invariant {St} (Inv : nat → St → Prop) body n s :
  Inv 0 s →
  (∀ j s, j < n → Inv j s → ∃ s', body j s = Some s' ∧ Inv (S j) s') →
  ∃ s', for_range n body s = Some s' ∧ Inv n s'.
Proof.
  intros H0 Hstep. unfold for_range.
  destruct (for_from_invariant Inv body 0 n s) as (s' & ? & ?); eauto with lia.
Qed.

(** [for _, x := range l { ... }]. *)

Fixpoint for_each {A St} (l : list A) (body : A → St → option St) (s : St) : option St :=
  match l with
  | [] => Some s
  | x :: l' => s' ← body x s; for_each l' body s'
  end.

Lemma for_each_invariant_from {A St} (Inv : list A → St → Prop) (body : A → St → option St) d l s :
  Inv d s →
  (∀ d' x rest s, d ++ l = d' ++ x :: rest → Inv d' s →
     ∃ s', body x s = Some s' ∧ Inv (d' ++ [x]) s') →
  ∃ s', for_each l body s = Some s' ∧ Inv (d ++ l) s'.
Proof.
  revert d s. induction l as [|x l IH]; intros d s Hs Hstep; simpl.
  { exists s. by rewrite app_nil_r. }
  destruct (Hstep d x l s) as (s' & -> & Hs'); [done..|]. simpl.
  destruct (IH (d ++ [x]) s') as (s'' & -> & Hs''); [done| |].
  - intros d' y rest. rewrite <- app_assoc. apply Hstep.
  - exists s''. by rewrite <- app_assoc in Hs''.
Qed.

Lemma for_each_invariant {A St} (Inv : list A → St → Prop) (body : A → St → option St) l s :
  Inv [] s →
  (∀ d x rest s, l = d ++ x :: rest → Inv d s → ∃ s', body x s = Some s' ∧ Inv (d ++ [x]) s') →
  ∃ s', for_each l body s = Some s' ∧ Inv l s'.
Proof. intros Hs Hstep. by apply (for_each_invariant_from Inv body [] l). Qed.

(** ** Errors

    [result E A] is a computation that answers or stops with an error of [E],
    as a Go function that returns an error or panics with a message does. *)

Inductive result (E A : Type) :=
  | Ok (a : A)
  | Err (e : E).
Arguments Ok {E A} _.
Arguments Err {E A} _.

#[export] Instance result_ret {E} : MRet (result E) := λ A, Ok.
#[export] Instance result_bind {E} : MBind (result E) := λ A B f m,
  match m with Ok a => f a | Err e => Err e end.

(** An operation that cannot go out of range, or the error [e]. *)
Definition or_err {E A} (e : E) (m : option A) : result E A :=
  match m with Some a => Ok a | None => Err e end.

(** ** Lists *)

Lemma filter_ext_in {A} (P Q : A → Prop) `{∀ x, Decision (P x), ∀ x, Decision (Q x)} (l : list A) :
  (∀ x, x ∈ l → P x ↔ Q x) → filter P l = filter Q l.
Proof.
  induction l as [|x l IH]; intros HPQ; [done|]. rewrite !filter_cons.
  assert (P x ↔ Q x) by (apply HPQ; by left).
  rewrite IH by (intros; apply HPQ; by right).
  repeat case_decide; tauto.
Qed.

Lemma filter_of_fmap {A B} (f : A → B) (P : B → Prop) `{∀ y, Decision (P y)} (l : list A) :
  filter P (f <$> l) = f <$> filter (λ x, P (f x)) l.
Proof.
  induction l as [|x l IH]; [done|]. rewrite fmap_cons, !filter_cons.
  destruct (decide (P (f x))); by rewrite ?fmap_cons, IH.
Qed.

Lemma lookup_insert_decide {A} (l : list A) i j x :
  i < length l → <[i:=x]> l !! j = if decide (i = j) then Some x else l !! j.
Proof.
  intros H. case_decide as E; [subst; by apply list_lookup_insert_eq|].
  by apply list_lookup_insert_ne.
Qed.

Lemma replicate_lookup {A} n (x : A) i :
  replicate n x !! i = if decide (i < n) then Some x else None.
Proof.
  case_decide; [by apply lookup_replicate_2|].
  apply lookup_ge_None_2. rewrite length_replicate. lia.
Qed.

(** ** Automation

    [bind_option] runs one step of a computation in the option monad whose
    outcome a hypothesis gives; [inv_option] takes a successful computation
    apart into its steps. *)

Ltac inv_option :=
  repeat match goal with
  | H : mbind _ ?m = Some _ |- _ =>
      let E := fresh "E" in destruct m eqn:E; simpl in H; [|discriminate H]
  | H : Some _ = Some _ |- _ => injection H as H; try subst
  | H : None = Some _ |- _ => discriminate H
  | H : list_set _ _ _ = Some _ |- _ => apply list_set_inv in H as [? H]; try subst
  | H : (_, _) = (_, _) |- _ => injection H as ? ?; try subst
  end.

(** ** Schedules

    A run of a transition system under a list of scheduling choices, [mv]
    making one move; what every move preserves, the run does. *)

Fixpoint run_moves {S M} (mv : S → M → option S) (s : S) (ms : list M) : option S :=
  match ms with
  | [] => Some s
  | m :: ms => s' ← mv s m; run_moves mv s' ms
  end.

Lemma run_moves_invariant {S M} (P : S → Prop) (mv : S → M → option S) s ms s' :
  (∀ s m s', P s → mv s m = Some s' → P s') → P s → run_moves mv s ms = Some s' → P s'.
Proof.
  intros Hmv. revert s. induction ms as [|m ms IH]; intros s Hs; simpl; [by intros [= <-]|].
  destruct (mv s m) as [s1|] eqn:E; [|done]. simpl. apply IH. by eapply Hmv.
Qed.

(** ** Lexicographic measures *)

Definition lex {A B} (ra : relation A) (rb : relation B) : relation (A * B) :=
  λ p q, ra p.1 q.1 ∨ p.1 = q.1 ∧ rb p.2 q.2.

Lemma lex_wf {A B} (ra : relation A) (rb : relation B) :
  well_founded ra → well_founded rb → well_founded (lex ra rb).
Proof.
  intros Ha Hb [a b]. revert b. induction (Ha a) as [a _ IHa]. intros b.
  induction (Hb b) as [b _ IHb]. constructor. intros [a' b'] [H|[E H]]; simpl in *.
  - by apply IHa.
  - subst a'. by apply IHb.
Qed.

Create HintDb cog.
#[export] Hint Resolve u32_bound list_set_Some list_modify_Some : cog.
#[export] Hint Rewrite @length_insert @length_app @length_replicate @length_take
  @length_drop : cog.
