(* ===== verification/Words.v ===== *)
(** * 64-bit words as sets of bits

    [bit_loop] is the idiom [for w := word; w != 0; w &= w-1 { ... TrailingZeros64(w) ... }]
    of kernel/lockstate.go and ecs/mask.go, with fuel; a mask is a slice of
    words, where bit [r mod 64] of word [r / 64] is element [r]. *)

From S2P Require Import Prelude.

(** [bits.TrailingZeros64], for a word that is not zero. *)
Fixpoint pos_trailing_zeros (p : positive) : N :=
  match p with
  | xO p' => N.succ (pos_trailing_zeros p')
  | _ => 0%N
  end.

Definition trailing_zeros (w : N) : N :=
  match w with N0 => 64%N | Npos p => pos_trailing_zeros p end.

(** [w & (w-1)] clears the lowest bit set. *)
Definition clear_lowest (w : N) : N := N.land w (N.pred w).

Fixpoint bit_loop {St} (fuel : nat) (w : N) (body : N → St → option St) (s : St) : option St :=
  match fuel with
  | O => None
  | S fuel' =>
      if decide (w = 0%N) then Some s
      else s' ← body (trailing_zeros w) s; bit_loop fuel' (clear_lowest w) body s'
  end.

(** A 64-bit word has at most 64 bits to visit. *)
Definition for_bits {St} (w : N) (body : N → St → option St) (s : St) : option St :=
  bit_loop 65 w body s.

(** Membership in a mask; a word past its end holds nothing. *)
Definition mask_has (m : list N) (r : nat) : bool :=
  match m !! (r / 64) with
  | Some w => N.testbit w (N.of_nat (r mod 64))
  | None => false
  end.

Definition word_bound (w : N) : Prop := (w < 2 ^ 64)%N.

(** ** Single words *)

Lemma testbit_double n k : N.testbit (2 * n) (N.succ k) = N.testbit n k.
Proof. apply N.testbit_even_succ. lia. Qed.

Lemma testbit_succ_double n k : N.testbit (2 * n + 1) (N.succ k) = N.testbit n k.
Proof. apply N.testbit_odd_succ. lia. Qed.

Lemma trailing_zeros_spec p :
  N.testbit (Npos p) (pos_trailing_zeros p) = true ∧
  ∀ j, (j < pos_trailing_zeros p)%N → N.testbit (Npos p) j = false.
Proof.
  induction p as [p _|p [IH1 IH2]|]; simpl pos_trailing_zeros; [split; [done|lia]| |split; [done|lia]].
  change (Npos p~0) with (2 * Npos p)%N. split.
  - by rewrite testbit_double.
  - intros j Hj. destruct (decide (j = 0%N)) as [->|].
    + apply N.testbit_even_0.
    + replace j with (N.succ (N.pred j)) by lia. rewrite testbit_double. apply IH2. lia.
Qed.

Lemma testbit_clear_lowest_pos p k :
  N.testbit (clear_lowest (Npos p)) k =
  N.testbit (Npos p) k && negb (bool_decide (k = pos_trailing_zeros p)).
Proof.
  unfold clear_lowest. rewrite N.land_spec.
  revert k. induction p as [p _|p IH|]; intros k.
  - change (N.pos p~1) with (2 * Npos p + 1)%N. simpl pos_trailing_zeros.
    replace (N.pred (2 * Npos p + 1)) with (2 * Npos p)%N by lia.
    destruct (decide (k = 0%N)) as [->|Hk].
    + by rewrite N.testbit_even_0, N.testbit_odd_0.
    + replace k with (N.succ (N.pred k)) at 1 2 3 by lia.
      rewrite testbit_double, testbit_succ_double.
      rewrite bool_decide_false by done. simpl. by rewrite andb_diag, andb_true_r.
  - change (N.pos p~0) with (2 * Npos p)%N. simpl pos_trailing_zeros.
    replace (N.pred (2 * Npos p)) with (2 * N.pred (Npos p) + 1)%N by lia.
    destruct (decide (k = 0%N)) as [->|Hk].
    + by rewrite N.testbit_even_0.
    + replace k with (N.succ (N.pred k)) at 1 2 3 by lia.
      rewrite testbit_double, testbit_succ_double, IH. f_equal. f_equal.
      apply bool_decide_ext. lia.
  - simpl. destruct k; [done|]. by destruct p.
Qed.

Lemma testbit_clear_lowest w k :
  w ≠ 0%N →
  N.testbit (clear_lowest w) k = N.testbit w k && negb (bool_decide (k = trailing_zeros w)).
Proof. destruct w; [done|]. intros _. apply testbit_clear_lowest_pos. Qed.

Lemma trailing_zeros_testbit w : w ≠ 0%N → N.testbit w (trailing_zeros w) = true.
Proof. destruct w; [done|]. intros _. apply trailing_zeros_spec. Qed.

Lemma trailing_zeros_least w j : w ≠ 0%N → (j < trailing_zeros w)%N → N.testbit w j = false.
Proof. destruct w; [done|]. intros _. apply trailing_zeros_spec. Qed.

Lemma testbit_above w k : word_bound w → (64 <= k)%N → N.testbit w k = false.
Proof.
  intros Hw Hk. destruct (decide (w = 0%N)) as [->|]; [apply N.bits_0|].
  apply N.bits_above_log2. apply N.log2_lt_pow2; [lia|].
  eapply N.lt_le_trans; [apply Hw|]. by apply N.pow_le_mono_r.
Qed.

Lemma word_bound_bits w : (∀ k, (64 <= k)%N → N.testbit w k = false) → word_bound w.
Proof.
  intros H. destruct (decide (w = 0%N)) as [->|Hw]; [done|]. unfold word_bound.
  apply N.log2_lt_pow2; [lia|]. destruct (decide (64 <= N.log2 w)%N) as [Hl|]; [|lia].
  apply H in Hl. by rewrite N.bit_log2 in Hl.
Qed.

Lemma word_bound_lor a b : word_bound a → word_bound b → word_bound (N.lor a b).
Proof.
  intros Ha Hb. apply word_bound_bits. intros k Hk.
  by rewrite N.lor_spec, (testbit_above a), (testbit_above b).
Qed.

Lemma word_bound_ldiff a b : word_bound a → word_bound (N.ldiff a b).
Proof.
  intros Ha. apply word_bound_bits. intros k Hk. by rewrite N.ldiff_spec, (testbit_above a).
Qed.

Lemma word_bound_clear_lowest w : word_bound w → word_bound (clear_lowest w).
Proof.
  intros Hw. apply word_bound_bits. intros k Hk.
  unfold clear_lowest. by rewrite N.land_spec, testbit_above.
Qed.

Lemma word_bound_pow2 k : (k < 64)%N → word_bound (2 ^ k).
Proof. intros. unfold word_bound. by apply N.pow_lt_mono_r. Qed.

Lemma testbit_pow2 k j : N.testbit (2 ^ k) j = bool_decide (k = j).
Proof.
  case_bool_decide as E; [subst; apply N.pow2_bits_true|by apply N.pow2_bits_false].
Qed.

(** The usual test of one bit. *)
Lemma land_bit_test w k : negb (N.land w (2 ^ k) =? 0)%N = N.testbit w k.
Proof.
  destruct (N.eqb_spec (N.land w (2 ^ k)) 0) as [E|E].
  - apply (f_equal (λ x, N.testbit x k)) in E.
    rewrite N.land_spec, N.pow2_bits_true, andb_true_r, N.bits_0 in E. by rewrite E.
  - symmetry. apply not_false_iff_true. intros Hk. apply E, N.bits_inj. intros j.
    rewrite N.land_spec, testbit_pow2, N.bits_0. case_bool_decide as Ej; [by rewrite <- Ej, Hk|apply andb_false_r].
Qed.

Lemma word_zero_iff w : w = 0%N ↔ ∀ k, N.testbit w k = false.
Proof.
  split; [intros ->; apply N.bits_0|]. intros H. apply N.bits_inj. intros k.
  by rewrite H, N.bits_0.
Qed.

(** ** The loop over a word's bits

    [bit_list w] is the positions the loop visits, in order. *)

Definition bit_list (w : N) : list N :=
  filter (λ k, N.testbit w k = true) (N.of_nat <$> seq 0 64).

(** The bits at or above [k], as the loop has still to visit them. *)
Lemma bit_loop_from {St} n k fuel w (body : N → St → option St) s :
  k + n = 64 → n < fuel → word_bound w →
  (∀ j, (j < N.of_nat k)%N → N.testbit w j = false) →
  bit_loop fuel w body s =
  for_each (filter (λ k, N.testbit w k = true) (N.of_nat <$> seq k n)) body s.
Proof.
  revert k fuel w s. induction n as [|n IH]; intros k fuel w s Hk Hf Hw Hlow.
  - destruct fuel as [|fuel]; [lia|]. simpl. rewrite decide_True; [done|].
    apply word_zero_iff. intros j. destruct (decide (64 <= j)%N).
    + by apply testbit_above.
    + apply Hlow. lia.
  - simpl seq. simpl fmap. rewrite filter_cons. destruct (N.testbit w (N.of_nat k)) eqn:Ebit.
    + rewrite decide_True by done. destruct fuel as [|fuel]; [lia|]. simpl.
      assert (Hnz : w ≠ 0%N) by (intros ->; by rewrite N.bits_0 in Ebit).
      rewrite decide_False by done.
      assert (Etz : trailing_zeros w = N.of_nat k).
      { destruct (N.lt_trichotomy (trailing_zeros w) (N.of_nat k)) as [Hlt|[|Hgt]]; [|done|].
        - apply Hlow in Hlt. by rewrite trailing_zeros_testbit in Hlt.
        - apply trailing_zeros_least in Hgt; [congruence|done]. }
      rewrite Etz. destruct (body (N.of_nat k) s) as [s'|]; [|done]. simpl.
      rewrite (IH (S k)); [|lia|lia|by apply word_bound_clear_lowest|].
      * f_equal. apply filter_ext_in. intros x (y & -> & Hy)%list_elem_of_fmap.
        rewrite elem_of_seq in Hy. rewrite testbit_clear_lowest by done.
        rewrite Etz, bool_decide_false by lia. by rewrite andb_true_r.
      * intros j Hj. rewrite testbit_clear_lowest by done. rewrite Etz.
        case_bool_decide; [by rewrite andb_false_r|]. rewrite Hlow by lia. done.
    + rewrite decide_False by congruence. apply IH; [lia..|done|].
      intros j Hj. destruct (decide (j = N.of_nat k)) as [->|]; [done|]. apply Hlow. lia.
Qed.

Lemma for_bits_each {St} w (body : N → St → option St) s :
  word_bound w → for_bits w body s = for_each (bit_list w) body s.
Proof. intros Hw. apply (bit_loop_from 64 0); [done|lia|done|lia]. Qed.

Lemma elem_of_bit_list w k : word_bound w → k ∈ bit_list w ↔ N.testbit w k = true.
Proof.
  intros Hw. unfold bit_list. rewrite list_elem_of_filter, list_elem_of_fmap. split; [by intros []|].
  intros Hk. split; [done|]. exists (N.to_nat k). rewrite elem_of_seq. split; [lia|].
  destruct (decide (64 <= k)%N); [|lia]. rewrite testbit_above in Hk; done.
Qed.

Lemma bit_list_NoDup w : NoDup (bit_list w).
Proof. apply NoDup_filter, NoDup_fmap_2; [apply _|apply NoDup_seq]. Qed.

(** ** Masks *)

Definition mask_bound (m : list N) : Prop := Forall word_bound m.

Lemma mask_has_beyond m r : length m * 64 ≤ r → mask_has m r = false.
Proof.
  intros H. unfold mask_has. rewrite lookup_ge_None_2; [done|].
  apply Nat.div_le_lower_bound; lia.
Qed.

Lemma mask_word_of i b : b < 64 → (i * 64 + b) / 64 = i.
Proof. intros. rewrite Nat.add_comm, Nat.div_add, Nat.div_small by done. done. Qed.

Lemma mask_bit_of i b : b < 64 → (i * 64 + b) mod 64 = b.
Proof. intros. rewrite Nat.add_comm, Nat.Div0.mod_add. by apply Nat.mod_small. Qed.

Lemma mask_has_word m i b w :
  m !! i = Some w → b < 64 → mask_has m (i * 64 + b) = N.testbit w (N.of_nat b).
Proof.
  intros Hi Hb. unfold mask_has. by rewrite mask_word_of, mask_bit_of, Hi.
Qed.

Lemma mask_index r : r = r / 64 * 64 + r mod 64.
Proof. pose proof (Nat.div_mod_eq r 64). lia. Qed.

Lemma mask_has_insert m i w r :
  i < length m →
  mask_has (<[i:=w]> m) r =
  if decide (r / 64 = i) then N.testbit w (N.of_nat (r mod 64)) else mask_has m r.
Proof.
  intros Hi. unfold mask_has. rewrite lookup_insert_decide by done.
  repeat case_decide; congruence.
Qed.

Lemma mask_has_app_zero m n r : mask_has (m ++ replicate n 0%N) r = mask_has m r.
Proof.
  unfold mask_has. destruct (decide (r / 64 < length m)).
  - by rewrite lookup_app_l.
  - rewrite lookup_app_r, (lookup_ge_None_2 m) by lia.
    rewrite replicate_lookup. case_decide; [apply N.bits_0|done].
Qed.

Lemma mask_has_replicate n r : mask_has (replicate n 0%N) r = false.
Proof. unfold mask_has. rewrite replicate_lookup. case_decide; [apply N.bits_0|done]. Qed.

Lemma mask_bound_lookup m i w : mask_bound m → m !! i = Some w → word_bound w.
Proof. intros H Hi. by eapply Forall_lookup_1. Qed.

Lemma mask_bound_insert m i w : mask_bound m → word_bound w → mask_bound (<[i:=w]> m).
Proof. intros. by apply Forall_insert. Qed.

Lemma mask_bound_replicate n : mask_bound (replicate n 0%N).
Proof. by apply Forall_replicate. Qed.

#[export] Hint Resolve word_bound_lor word_bound_ldiff word_bound_pow2 mask_bound_insert
  mask_bound_replicate mask_bound_lookup : cog.

(** The loop over [w]'s bits, the bits below [b] visited. *)
Lemma for_bits_invariant {St} (Inv : list N → St → Prop) w (body : N → St → option St) s :
  word_bound w → Inv [] s →
  (∀ d b s, b ∉ d → N.testbit w b = true → (b < 64)%N → Inv d s →
     ∃ s', body b s = Some s' ∧ Inv (d ++ [b]) s') →
  ∃ s', for_bits w body s = Some s' ∧ Inv (bit_list w) s'.
Proof.
  intros Hw Hs Hstep. rewrite for_bits_each by done.
  apply (for_each_invariant Inv); [done|]. intros d b rest s' El Hinv.
  assert (Hb : b ∈ bit_list w) by (rewrite El; apply elem_of_app; right; by left).
  apply elem_of_bit_list in Hb; [|done]. apply Hstep; [|done| |done].
  - pose proof (bit_list_NoDup w) as Hnd. rewrite El in Hnd.
    apply NoDup_app in Hnd as (_ & Hd & _). intros Hin. apply (Hd b Hin). by left.
  - destruct (decide (64 <= b)%N); [|lia]. by rewrite testbit_above in Hb.
Qed.

(** Element [r] of a mask is one of the bits [d] of word [i]. *)
Definition in_word (i : nat) (d : list N) (r : nat) : Prop :=
  r / 64 = i ∧ N.of_nat (r mod 64) ∈ d.

#[export] Instance in_word_dec i d r : Decision (in_word i d r).
Proof. unfold in_word. apply _. Defined.

Lemma in_word_snoc i d b r :
  (b < 64)%N → in_word i (d ++ [b]) r ↔ in_word i d r ∨ r = i * 64 + N.to_nat b.
Proof.
  intros Hb. unfold in_word. rewrite elem_of_app, list_elem_of_singleton. split.
  - intros [<- [Hd| <-]]; [by left|right]. rewrite Nat2N.id. apply mask_index.
  - intros [[? ?]| ->]; [by eauto|]. rewrite mask_word_of, mask_bit_of by lia.
    split; [done|right; lia].
Qed.

Lemma in_word_fresh i d b : (b < 64)%N → b ∉ d → ¬ in_word i d (i * 64 + N.to_nat b).
Proof.
  intros Hb Hd [_ Hin]. rewrite mask_bit_of in Hin by lia. by rewrite N2Nat.id in Hin.
Qed.

Lemma in_word_bits i w r m :
  m !! i = Some w → word_bound w →
  in_word i (bit_list w) r ↔ r / 64 = i ∧ mask_has m r = true.
Proof.
  intros Hm Hw. unfold in_word. rewrite elem_of_bit_list by done. unfold mask_has.
  split; intros [E H]; (split; [done|]); by rewrite E, Hm in *.
Qed.
