(* ===== verification/Queue.v ===== *)
(** * The ring-buffer queue of kernel/container/queue.go

    [Queue] is the state of a Go [Queue[T]]; every method runs under the
    queue's mutex, so each is one atomic step here.  [None] is a run-time
    panic.  [fifo_step] is the abstract queue the ring implements, and the
    class [Fifo] is what the kernel's combiner and runner rely on. *)

From S2P Require Import Prelude.

Record Queue (T : Type) := mkQueue {
  ring : list T;
  head : nat;    (* index in ring of the oldest *)
  qlength : nat; (* the source's length *)
  closed : bool
}.
Arguments mkQueue {T} _ _ _ _.
Arguments ring {T} _.
Arguments head {T} _.
Arguments qlength {T} _.
Arguments closed {T} _.

(** The zero Queue is empty and open. *)
Definition emptyQueue {T} : Queue T := mkQueue [] 0 0 false.

Section queue.
Context {T : Type} `{Zero T}.
Implicit Types q : Queue T.

Definition take_ q (into : list T) : option (Queue T * list T) :=
  if decide (qlength q = 0) then Some (q, into)
  else
    let len := length (ring q) in
    let end_ := head q + qlength q in
    if decide (end_ ≤ len) then
      part ← slice (ring q) (head q) end_;
      Some (mkQueue (clear_range (ring q) (head q) end_) 0 0 (closed q), into ++ part)
    else
      part1 ← slice (ring q) (head q) len;
      part2 ← slice (ring q) 0 (end_ - len);
      Some (mkQueue (clear_range (clear_range (ring q) (head q) len) 0 (end_ - len))
              0 0 (closed q),
            into ++ part1 ++ part2).

(** [ring[:cap(ring)]] is the items taken, then zeros up to the capacity made. *)
Definition grow q : option (Queue T) :=
  let len := qlength q in
  let capacity := Nat.max (2 * length (ring q)) 16 in
  '(q', items) ← take_ q [];
  Some (mkQueue (items ++ replicate (capacity - length items) zero_value) 0 len (closed q')).

Definition Push q (item : T) : option (Queue T * bool) :=
  if closed q then Some (q, false)
  else
    q1 ← (if decide (qlength q = length (ring q)) then grow q else Some q);
    if decide (length (ring q1) = 0) then None (* modulo by zero *)
    else
      r ← list_set (ring q1) ((head q1 + qlength q1) mod length (ring q1)) item;
      Some (mkQueue r (head q1) (qlength q1 + 1) (closed q1), true).

Definition Pop q : option (Queue T * option T) :=
  if decide (qlength q = 0) then Some (q, None)
  else
    item ← ring q !! head q;
    r ← list_set (ring q) (head q) zero_value;
    Some (mkQueue r ((head q + 1) mod length r) (qlength q - 1) (closed q), Some item).

Definition Drain q (into : list T) : option (Queue T * list T) := take_ q into.

Definition Close q (into : list T) : option (Queue T * list T) :=
  take_ (mkQueue (ring q) (head q) (qlength q) true) into.

Definition Len q : nat := qlength q.

Definition Closed q : bool := closed q.

Definition Reset q : Queue T := mkQueue (ring q) 0 0 false.

(** ** The abstract queue

    [contents] is what is queued, oldest first. *)

Inductive op :=
  | OpPush (item : T)
  | OpPop
  | OpDrain (into : list T)
  | OpClose (into : list T)
  | OpLen
  | OpClosed
  | OpReset.

Inductive answer :=
  | ABool (b : bool)
  | AItem (item : option T)
  | AItems (items : list T)
  | ALen (n : nat)
  | ANone.

Definition step q (o : op) : option (Queue T * answer) :=
  match o with
  | OpPush x => '(q', b) ← Push q x; Some (q', ABool b)
  | OpPop => '(q', x) ← Pop q; Some (q', AItem x)
  | OpDrain into => '(q', l) ← Drain q into; Some (q', AItems l)
  | OpClose into => '(q', l) ← Close q into; Some (q', AItems l)
  | OpLen => Some (q, ALen (Len q))
  | OpClosed => Some (q, ABool (Closed q))
  | OpReset => Some (Reset q, ANone)
  end.

Fixpoint run q (ops : list op) : option (Queue T * list answer) :=
  match ops with
  | [] => Some (q, [])
  | o :: ops' =>
      '(q1, a) ← step q o;
      '(q2, l) ← run q1 ops';
      Some (q2, a :: l)
  end.

(** A FIFO is the list of its items and whether it is closed. *)
Definition fifo_step (f : list T * bool) (o : op) : (list T * bool) * answer :=
  let '(l, c) := f in
  match o with
  | OpPush x => if c then (f, ABool false) else ((l ++ [x], c), ABool true)
  | OpPop => match l with [] => (f, AItem None) | x :: l' => ((l', c), AItem (Some x)) end
  | OpDrain into => (([], c), AItems (into ++ l))
  | OpClose into => (([], true), AItems (into ++ l))
  | OpLen => (f, ALen (length l))
  | OpClosed => (f, ABool c)
  | OpReset => (([], false), ANone)
  end.

Fixpoint fifo_run (f : list T * bool) (ops : list op) : (list T * bool) * list answer :=
  match ops with
  | [] => (f, [])
  | o :: ops' =>
      let '(f1, a) := fifo_step f o in
      let '(f2, l) := fifo_run f1 ops' in
      (f2, a :: l)
  end.

(** ** Representation *)

Definition slot_of q (i : nat) : nat := (head q + i) mod length (ring q).

Definition well_formed q : Prop :=
  qlength q ≤ length (ring q) ∧ (ring q = [] ∨ head q < length (ring q)) ∧
  (ring q = [] → head q = 0).

Definition repr q (l : list T) : Prop :=
  well_formed q ∧ length l = qlength q ∧
  ∀ i, i < qlength q → ring q !! slot_of q i = l !! i.

(** No slot outside the queued ones holds an item. *)
Definition clean q : Prop :=
  ∀ j, j < length (ring q) → (∀ i, i < qlength q → slot_of q i ≠ j) →
  ring q !! j = Some zero_value.
End queue.

Arguments op T : clear implicits.
Arguments answer T : clear implicits.

(** ** The ring's arithmetic *)

Lemma ring_slot h i n :
  h < n → i ≤ n → (h + i) mod n = if decide (h + i < n) then h + i else h + i - n.
Proof.
  intros. case_decide; [by apply Nat.mod_small|].
  replace (h + i) with (h + i - n + 1 * n) at 1 by lia.
  rewrite Nat.Div0.mod_add. apply Nat.mod_small. lia.
Qed.

Lemma ring_slot_inj h i j n :
  h < n → i < n → j < n → (h + i) mod n = (h + j) mod n → i = j.
Proof. intros ???. rewrite !ring_slot by lia. repeat case_decide; lia. Qed.

Section queue_facts.
Context {T : Type} `{Zero T}.
Implicit Types q : Queue T.

Lemma queue_repr_functional q l1 l2 : repr q l1 → repr q l2 → l1 = l2.
Proof.
  intros (_ & Hl1 & H1) (_ & Hl2 & H2). apply list_eq. intros i.
  destruct (decide (i < qlength q)).
  - by rewrite <- H1, <- H2.
  - rewrite !lookup_ge_None_2; [done|lia|lia].
Qed.

Lemma queue_repr_empty : repr (emptyQueue : Queue T) [].
Proof. split; [split_and!; simpl; [lia|by left|done]|split; [done|simpl; lia]]. Qed.

Lemma queue_take_repr q l into :
  repr q l →
  ∃ r, take_ q into = Some (mkQueue r (if decide (l = []) then head q else 0) 0 (closed q), into ++ l) ∧
       length r = length (ring q) ∧
       (clean q → ∀ j, j < length r → r !! j = Some zero_value).
Proof.
  intros ((Hcap & Hhead & Hnil) & Hlen & Hl). unfold take_.
  destruct q as [rg h n c]; simpl in *.
  destruct (decide (n = 0)) as [->|Hn].
  { destruct l; [|done]. exists rg. rewrite app_nil_r. split_and!; [done..|].
    intros Hclean j Hj. apply Hclean; simpl; [done|lia]. }
  assert (Hh : h < length rg) by (destruct Hhead as [->|]; simpl in *; lia).
  rewrite (decide_False (P := l = [])) by (intros ->; simpl in *; lia).
  unfold slot_of in Hl; simpl in Hl.
  case_decide as Hend.
  - rewrite slice_Some by lia. simpl.
    exists (clear_range rg h (h + n)). split_and!; [|by apply length_clear_range; lia|].
    + do 3 f_equal. apply list_eq. intros i. destruct (decide (i < n)).
      * rewrite <- Hl by done. rewrite lookup_take_lt by lia.
        rewrite lookup_drop, ring_slot by lia. by rewrite decide_True by lia.
      * rewrite !lookup_ge_None_2; [done|lia|]. rewrite length_take. lia.
    + rewrite length_clear_range by lia. intros Hclean j Hj.
      rewrite lookup_clear_range by lia. case_decide; [done|].
      apply Hclean; simpl; [done|]. intros i Hi. unfold slot_of; simpl.
      rewrite ring_slot by lia. case_decide; lia.
  - rewrite !slice_Some by lia. simpl.
    exists (clear_range (clear_range rg h (length rg)) 0 (h + n - length rg)). split_and!.
    + do 3 f_equal. rewrite drop_0. apply list_eq. intros i. destruct (decide (i < n)).
      * rewrite <- Hl by done. rewrite ring_slot by lia. case_decide.
        -- rewrite lookup_app_l by (rewrite length_take, length_drop; lia).
           rewrite lookup_take_lt by lia. by rewrite lookup_drop.
        -- rewrite lookup_app_r by (rewrite length_take, length_drop; lia).
           rewrite length_take, length_drop, lookup_take_lt by lia. f_equal. lia.
      * rewrite !lookup_ge_None_2; [done|lia|].
        rewrite length_app, !length_take, length_drop. lia.
    + rewrite !length_clear_range; rewrite ?length_clear_range; lia.
    + rewrite !length_clear_range by (rewrite ?length_clear_range; lia).
      intros Hclean j Hj. rewrite lookup_clear_range by (rewrite ?length_clear_range; lia).
      case_decide; [done|]. rewrite lookup_clear_range by lia. case_decide; [done|].
      apply Hclean; simpl; [done|]. intros i Hi. unfold slot_of; simpl.
      rewrite ring_slot by lia. case_decide; lia.
Qed.

Lemma queue_grow_repr q l :
  repr q l → qlength q = length (ring q) →
  ∃ q', grow q = Some q' ∧ repr q' l ∧ qlength q' < length (ring q') ∧
        closed q' = closed q ∧ clean q'.
Proof.
  intros Hr Hfull. unfold grow.
  remember (Nat.max (2 * length (ring q)) 16) as cap eqn:Ecap.
  destruct (queue_take_repr q l [] Hr) as (r & -> & _ & _).
  destruct Hr as (_ & Hlen & Hl). simpl.
  eexists. split; [done|]. unfold repr, well_formed, clean, slot_of; simpl.
  assert (Hcap : length (l ++ replicate (cap - length l) zero_value) = cap)
    by (rewrite length_app, length_replicate; lia).
  rewrite Hcap. split_and!; [lia|right; lia|lia|done| |lia|done|].
  - intros i Hi. rewrite Nat.mod_small by lia. by apply lookup_app_l; lia.
  - intros j Hj Hout. destruct (decide (j < qlength q)) as [Hq|Hq].
    + exfalso. apply (Hout j Hq). apply Nat.mod_small. lia.
    + rewrite lookup_app_r by lia. apply lookup_replicate_2. lia.
Qed.

Lemma queue_push_repr q l item :
  repr q l → closed q = false →
  ∃ q', Push q item = Some (q', true) ∧ repr q' (l ++ [item]) ∧ closed q' = false ∧
        (clean q → clean q').
Proof.
  intros Hr Hopen. unfold Push. rewrite Hopen.
  assert (∃ q1, (if decide (qlength q = length (ring q)) then grow q else Some q) = Some q1 ∧
            repr q1 l ∧ qlength q1 < length (ring q1) ∧ closed q1 = false ∧
            (clean q → clean q1)) as (q1 & -> & (Hwf & Hlen & Hl) & Hroom & Hopen1 & Hclean).
  { case_decide as Hfull.
    - destruct (queue_grow_repr q l Hr Hfull) as (q' & ? & ? & ? & Hc & ?).
      exists q'. rewrite Hc. auto.
    - exists q. split_and!; auto. destruct Hr as ((? & _) & _). lia. }
  simpl. rewrite decide_False by lia.
  assert (Hh : head q1 < length (ring q1)) by (destruct Hwf as (_ & [Hnil|] & _);
    [rewrite Hnil in Hroom; simpl in Hroom; lia|done]).
  assert (Hp : (head q1 + qlength q1) mod length (ring q1) < length (ring q1))
    by (apply Nat.mod_upper_bound; lia).
  rewrite list_set_Some by done. simpl. eexists. split; [done|].
  unfold repr, well_formed, clean, slot_of in *; simpl. rewrite length_insert.
  split_and!; [lia|by right|intros Hnil; apply (f_equal length) in Hnil;
    rewrite length_insert in Hnil; simpl in Hnil; lia|rewrite length_app; simpl; lia| |done|].
  - intros i Hi. rewrite lookup_insert_decide by done. case_decide as E.
    + apply ring_slot_inj in E; [|lia..]. subst i. rewrite <- Hlen.
      by rewrite lookup_app_r, Nat.sub_diag by lia.
    + assert (i ≠ qlength q1) by congruence.
      rewrite lookup_app_l by lia. apply Hl. lia.
  - intros Hc j Hj Hout. rewrite list_lookup_insert_ne by (apply Hout; lia).
    apply Hclean; [done..|]. intros i Hi. apply Hout. lia.
Qed.

Lemma queue_pop_nil q : repr q [] → Pop q = Some (q, None).
Proof. intros (_ & Hlen & _). unfold Pop. by rewrite decide_True. Qed.

Lemma queue_pop_cons q x l :
  repr q (x :: l) →
  ∃ q', Pop q = Some (q', Some x) ∧ repr q' l ∧ closed q' = closed q ∧ (clean q → clean q').
Proof.
  intros (Hwf & Hlen & Hl). simpl in Hlen. unfold Pop. rewrite decide_False by lia.
  destruct Hwf as (Hcap & Hhead & Hnil).
  assert (Hh : head q < length (ring q)) by (destruct Hhead as [E|]; [|done];
    rewrite E in Hcap; simpl in Hcap; lia).
  pose proof (Hl 0 ltac:(lia)) as H0. unfold slot_of in H0.
  rewrite Nat.add_0_r, Nat.mod_small in H0 by done. rewrite H0. simpl.
  rewrite list_set_Some by done. simpl. eexists. split; [done|].
  assert (Hslot : ∀ i, i < length (ring q) - 1 →
    ((head q + 1) mod length (ring q) + i) mod length (ring q) =
    (head q + S i) mod length (ring q)).
  { intros i Hi. rewrite Nat.Div0.add_mod_idemp_l. f_equal. lia. }
  unfold repr, well_formed, clean, slot_of in *; simpl. rewrite length_insert.
  split_and!; [lia|right; apply Nat.mod_upper_bound; lia| |lia| |done|].
  - intros E. apply (f_equal length) in E. rewrite length_insert in E. simpl in E. lia.
  - intros i Hi. rewrite Hslot by lia. rewrite list_lookup_insert_ne; [by apply (Hl (S i)); lia|].
    intros E. rewrite ring_slot in E by lia. case_decide; lia.
  - intros Hc j Hj Hout. rewrite lookup_insert_decide by done. case_decide as E; [done|].
    apply Hc; [done|]. intros [|i] Hi.
    + by rewrite Nat.add_0_r, Nat.mod_small.
    + rewrite <- Hslot by lia. apply Hout. lia.
Qed.

Lemma queue_drain_repr q l into :
  repr q l →
  ∃ q', Drain q into = Some (q', into ++ l) ∧ repr q' [] ∧ closed q' = closed q ∧
        (clean q → clean q').
Proof.
  intros Hr. destruct (queue_take_repr q l into Hr) as (r & Ht & Hlen & Hclean).
  unfold Drain. rewrite Ht. eexists. split; [done|].
  destruct Hr as ((Hcap & Hhead & Hnil) & Hl & _).
  unfold repr, well_formed, clean; simpl. split_and!; [lia| | |done|lia|done|].
  - destruct (decide (r = [])) as [|Hr]; [by left|right].
    assert (length r ≠ 0) by (by destruct r). case_decide; [|lia].
    destruct Hhead as [E|]; [rewrite E in Hlen; simpl in Hlen; lia|lia].
  - intros ->. case_decide; [|done]. apply Hnil. by destruct (ring q).
  - intros Hc j Hj _. by apply Hclean.
Qed.

Lemma queue_close_repr q l into :
  repr q l →
  ∃ q', Close q into = Some (q', into ++ l) ∧ repr q' [] ∧ closed q' = true ∧
        (clean q → clean q').
Proof. exact (queue_drain_repr (mkQueue (ring q) (head q) (qlength q) true) l into). Qed.

Lemma queue_reset_repr q : well_formed q → repr (Reset q) [].
Proof.
  intros (Hcap & Hhead & Hnil). unfold repr, well_formed; simpl. split_and!; [lia| |done|done|lia].
  destruct (ring q); [by left|right; simpl; lia].
Qed.

Lemma queue_step_repr q f o :
  repr q f.1 → closed q = f.2 →
  ∃ q', step q o = Some (q', (fifo_step f o).2) ∧
        repr q' (fifo_step f o).1.1 ∧ closed q' = (fifo_step f o).1.2 ∧
        (o ≠ OpReset → clean q → clean q').
Proof.
  destruct f as [l c]. simpl. intros Hr Hc.
  destruct o as [x| |into|into| | |]; simpl.
  - destruct c; simpl.
    + exists q. unfold Push. rewrite Hc. auto.
    + destruct (queue_push_repr q l x Hr Hc) as (q' & -> & ? & ? & ?). exists q'. simpl. auto.
  - destruct l as [|x l]; simpl.
    + rewrite queue_pop_nil by done. exists q. auto.
    + destruct (queue_pop_cons q x l Hr) as (q' & -> & ? & ? & ?). exists q'. simpl.
      split_and!; [done..|congruence|auto].
  - destruct (queue_drain_repr q l into Hr) as (q' & -> & ? & ? & ?). exists q'. simpl.
    split_and!; [done..|congruence|auto].
  - destruct (queue_close_repr q l into Hr) as (q' & -> & ? & ? & ?). exists q'. simpl. auto.
  - exists q. unfold Len. rewrite (proj1 (proj2 Hr)). auto.
  - exists q. unfold Closed. rewrite Hc. auto.
  - exists (Reset q). split_and!; [done| |done|done]. destruct Hr as (? & _). by apply queue_reset_repr.
Qed.

Lemma queue_run_repr q f ops :
  repr q f.1 → closed q = f.2 →
  ∃ q', run q ops = Some (q', (fifo_run f ops).2) ∧ repr q' (fifo_run f ops).1.1 ∧
        closed q' = (fifo_run f ops).1.2 ∧
        (OpReset ∉ ops → clean q → clean q').
Proof.
  revert q f. induction ops as [|o ops IH]; intros q f Hr Hc; simpl.
  { exists q. auto. }
  destruct (queue_step_repr q f o Hr Hc) as (q1 & -> & Hr1 & Hc1 & Hclean1). simpl.
  destruct (fifo_step f o) as [f1 a]; simpl in *.
  destruct (IH q1 f1 Hr1 Hc1) as (q2 & -> & Hr2 & Hc2 & Hclean2). simpl.
  destruct (fifo_run f1 ops) as [f2 l]; simpl in *.
  exists q2. split_and!; [done..|].
    intros [Ho Hops]%not_elem_of_cons Hclean. apply Hclean2; [done|]. by apply Hclean1.
Qed.
End queue_facts.

(** C32: whatever sequence of operations runs on a new queue, the ring never
    panics and answers exactly what a FIFO list with a closed flag answers:
    pushes append unless it is closed, pops take the oldest, drains and closes
    take everything, oldest first; and as long as nothing resets it, every
    ring slot that holds no queued item is zero. *)
Theorem queue_refines_fifo {T} `{Zero T} (ops : list (op T)) :
  ∃ q, run emptyQueue ops = Some (q, (fifo_run ([], false) ops).2) ∧
       repr q (fifo_run ([], false) ops).1.1 ∧
       closed q = (fifo_run ([], false) ops).1.2 ∧
       (OpReset ∉ ops → clean q).
Proof.
  destruct (queue_run_repr emptyQueue ([], false) ops queue_repr_empty eq_refl)
    as (q & ? & ? & ? & Hc).
  exists q. split_and!; [done..|]. intros Hn. apply Hc; [done|].
  intros j Hj. simpl in Hj. lia.
Qed.

(** [Reset] empties the queue but clears no slot, so unlike [Pop], [Drain]
    and [Close] it keeps the items that were queued alive in the ring. *)
Theorem queue_reset_keeps_items {T} `{Zero T} (x : T) (q : Queue T) l :
  repr q l → x ∈ l → x ≠ zero_value → ¬ clean (Reset q).
Proof.
  intros (Hwf & Hlen & Hl) [i Hi]%list_elem_of_lookup_1 Hx Hclean.
  pose proof (lookup_lt_Some _ _ _ Hi) as Hlt.
  assert (Hq : i < qlength q) by lia. pose proof (Hl i Hq) as Hslot. rewrite Hi in Hslot.
  pose proof (lookup_lt_Some _ _ _ Hslot) as Hs.
  assert (ring (Reset q) !! slot_of q i = Some zero_value) as E.
  { apply Hclean; [done|]. simpl. lia. }
  simpl in E. congruence.
Qed.

Lemma queue_reset_keeps_items_witness :
  ∃ q : Queue nat, repr q [7] ∧ ¬ clean (Reset q).
Proof.
  exists (mkQueue (7 :: replicate 15 0) 0 1 false).
  assert (repr (mkQueue (7 :: replicate 15 0) 0 1 false) [7]) as Hr.
  { split_and!; [split_and!; simpl; [lia|right; lia|done]|done|].
    intros i Hi. simpl in Hi. by assert (i = 0) as -> by lia. }
  split; [done|].
  apply (queue_reset_keeps_items 7 _ [7]); [done|by apply list_elem_of_singleton|done].
Defined.

(** ** What clients rely on *)

(** A [Fifo Q T]: a queue whose representation relation to the list of its
    items makes push append and drain take everything, oldest first. *)
Class Fifo (Q T : Type) := {
  fifo_repr : Q → list T → Prop;
  fifo_empty : Q;
  fifo_push : Q → T → option Q;
  fifo_drain : Q → option (Q * list T);
  fifo_pop : Q → option (Q * option T);
  fifo_len : Q → nat
}.

Class FifoLaws Q T `{Fifo Q T} := {
  fifo_repr_empty : fifo_repr fifo_empty [];
  fifo_repr_push q l x : fifo_repr q l → ∃ q', fifo_push q x = Some q' ∧ fifo_repr q' (l ++ [x]);
  fifo_repr_drain q l : fifo_repr q l → ∃ q', fifo_drain q = Some (q', l) ∧ fifo_repr q' [];
  fifo_repr_pop_nil q : fifo_repr q [] → fifo_pop q = Some (q, None);
  fifo_repr_pop q x l :
    fifo_repr q (x :: l) → ∃ q', fifo_pop q = Some (q', Some x) ∧ fifo_repr q' l;
  fifo_repr_len q l : fifo_repr q l → fifo_len q = length l
}.

#[export] Instance queue_fifo {T} `{Zero T} : Fifo (Queue T) T := {
  fifo_repr q l := repr q l ∧ closed q = false;
  fifo_empty := emptyQueue;
  fifo_push q x := '(q', _) ← Push q x; Some q';
  fifo_drain q := Drain q [];
  fifo_pop := Pop;
  fifo_len := Len
}.

#[export] Instance queue_fifo_laws {T} `{Zero T} : FifoLaws (Queue T) T.
Proof.
  split; simpl.
  - split; [apply queue_repr_empty|done].
  - intros q l x [Hr Hc]. destruct (queue_push_repr q l x Hr Hc) as (q' & -> & ? & ? & _).
    by exists q'.
  - intros q l [Hr Hc]. destruct (queue_drain_repr q l [] Hr) as (q' & -> & ? & E & _).
    exists q'. rewrite E. auto.
  - intros q [Hr _]. by apply queue_pop_nil.
  - intros q x l [Hr Hc]. destruct (queue_pop_cons q x l Hr) as (q' & -> & ? & E & _).
    exists q'. rewrite E. auto.
  - by intros q l [(_ & -> & _) _].
Qed.
