(* ===== verification/Pool.v ===== *)
(** * The slot pool of kernel/container/pool.go

    Slots in fixed-size chunks, addressed by index, and the free list that
    hands indexes out again.  [pool_repr p out] says that [out] is the indexes
    acquired and not released: with the free ones they are every index of the
    chunks but [None].  The mutex makes each operation one step; [At] only
    reads chunks, which growing never replaces.  [SlotPool] is what a client
    relies on. *)

From S2P Require Import Prelude.

Definition chunkShift : N := 8.
Definition chunkSize : nat := 256.
Definition chunkMask : N := 255.

(** The index of no slot, [None] in the source. *)
Definition NoSlot : N := 0.

Record Pool (T : Type) := mkPool {
  pchunks : list (list T);
  free : list N
}.
Arguments mkPool {T} _ _.
Arguments pchunks {T} _.
Arguments free {T} _.

Section pool.
Context {T : Type} `{Zero T}.
Implicit Types p : Pool T.

Definition emptyPool : Pool T := mkPool [] [].

(** [for i := hi; i > first; i--] of grow, with fuel. *)
Fixpoint push_down (fuel : nat) (i first : N) (fr : list N) : list N :=
  match fuel with
  | O => fr
  | S fuel => if (first <? i)%N then push_down fuel (i - 1) first (fr ++ [i]) else fr
  end.

Definition pool_grow p : Pool T * N :=
  let base := u32 (N.shiftl (u32 (N.of_nat (length (pchunks p)))) chunkShift) in
  let chunks := pchunks p ++ [replicate chunkSize zero_value] in
  let first := if (base =? NoSlot)%N then u32 (base + 1) else base in
  (mkPool chunks (push_down chunkSize (u32 (base + 255)) first (free p)), first).

Definition pool_take p : Pool T * N :=
  match last (free p) with
  | None => pool_grow p
  | Some i => (mkPool (pchunks p) (take (length (free p) - 1) (free p)), i)
  end.

Definition Acquire p : Pool T * N := pool_take p.

Fixpoint AcquireMany p (into : list N) (n : nat) : Pool T * list N :=
  match n with
  | O => (p, into)
  | S n => let '(p', i) := pool_take p in AcquireMany p' (into ++ [i]) n
  end.

Definition Release p (i : N) : Pool T := mkPool (pchunks p) (free p ++ [i]).

Definition ReleaseMany p (indexes : list N) : Pool T := mkPool (pchunks p) (free p ++ indexes).

Definition capacity p : Z :=
  match pchunks p with
  | [] => 0
  | chunks => Z.of_nat (length chunks * chunkSize) - 1
  end.

(** NewPool's loop, with fuel: every turn adds 255 slots or more. *)
Fixpoint new_pool_loop (fuel : nat) (p : Pool T) (wanted : nat) : Pool T :=
  match fuel with
  | O => p
  | S fuel =>
      if (capacity p <? Z.of_nat wanted)%Z then
        let '(p', i) := pool_grow p in
        new_pool_loop fuel (mkPool (pchunks p') (free p' ++ [i])) wanted
      else p
  end.

Definition NewPool (wanted : nat) : Pool T := new_pool_loop (S wanted) emptyPool wanted.

(** The slot at an index: what [At] points to, read and written. *)
Definition At p (i : N) : option T :=
  chunk ← pchunks p !! N.to_nat (N.shiftr i chunkShift);
  chunk !! N.to_nat (N.land i chunkMask).

Definition At_set p (i : N) (x : T) : option (Pool T) :=
  chunk ← pchunks p !! N.to_nat (N.shiftr i chunkShift);
  chunk' ← list_set chunk (N.to_nat (N.land i chunkMask)) x;
  chunks' ← list_set (pchunks p) (N.to_nat (N.shiftr i chunkShift)) chunk';
  Some (mkPool chunks' (free p)).

(** ** Representation *)

Definition indexes (chunks : nat) : list N := N.of_nat <$> seq 1 (chunks * chunkSize - 1).

Record pool_repr p (out : list N) : Prop := {
  pool_chunks : Forall (λ c, length c = chunkSize) (pchunks p);
  pool_few : (Z.of_nat (length (pchunks p)) ≤ 2 ^ 24)%Z;
  pool_indexes : free p ++ out ≡ₚ indexes (length (pchunks p))
}.

(** Room to grow: a pool of [2^24] chunks has every [uint32]. *)
Definition roomy p : Prop := (Z.of_nat (length (pchunks p)) < 2 ^ 24)%Z.

Lemma elem_of_indexes k i : i ∈ indexes k ↔ (0 < i)%N ∧ (i < N.of_nat (k * chunkSize))%N.
Proof using Type.
  unfold indexes. rewrite list_elem_of_fmap. split.
  - intros (j & -> & Hj%elem_of_seq). lia.
  - intros. exists (N.to_nat i). rewrite elem_of_seq. lia.
Qed.

Lemma indexes_NoDup k : NoDup (indexes k).
Proof using Type. apply NoDup_fmap_2; [apply _|apply NoDup_seq]. Qed.

Lemma push_down_spec fuel n first (fr : list N) :
  n ≤ fuel →
  push_down fuel (N.of_nat (first + n)) (N.of_nat first) fr =
  fr ++ (N.of_nat <$> reverse (seq (S first) n)).
Proof using Type.
  revert fuel fr. induction n as [|n IH]; intros fuel fr Hle.
  - rewrite Nat.add_0_r, app_nil_r. destruct fuel; simpl; [done|]. by rewrite N.ltb_irrefl.
  - destruct fuel as [|fuel]; [lia|]. simpl push_down.
    replace (N.of_nat first <? N.of_nat (first + S n))%N with true by (symmetry; apply N.ltb_lt; lia).
    replace (N.of_nat (first + S n) - 1)%N with (N.of_nat (first + n)) by lia.
    rewrite IH by lia. rewrite seq_S, reverse_snoc, fmap_cons, <- app_assoc. simpl.
    repeat f_equal. lia.
Qed.

Lemma pool_grow_eq p :
  roomy p →
  let k := length (pchunks p) in
  let first := Nat.max 1 (k * chunkSize) in
  pool_grow p = (mkPool (pchunks p ++ [replicate chunkSize zero_value])
    (free p ++ (N.of_nat <$> reverse (seq (S first) (S k * chunkSize - 1 - first)))), N.of_nat first).
Proof.
  intros Hroom k first. unfold roomy in Hroom. fold k in Hroom. unfold pool_grow. fold k.
  unfold chunkShift, chunkSize, NoSlot in *. rewrite N.shiftl_mul_pow2. change (2 ^ 8)%N with 256%N.
  assert (Hb : u32 (u32 (N.of_nat k) * 256) = N.of_nat (k * 256)).
  { rewrite (u32_small (N.of_nat k)) by lia. rewrite u32_small; lia. }
  rewrite Hb. destruct (decide (k = 0)) as [E|E].
  - assert (Ef : first = 1) by (unfold first; rewrite E; done).
    rewrite Ef, E. change (N.of_nat (0 * 256) =? 0)%N with true. cbv iota.
    change (u32 (N.of_nat (0 * 256) + 255)) with (N.of_nat (1 + 254)).
    change (u32 (N.of_nat (0 * 256) + 1)) with (N.of_nat 1).
    rewrite push_down_spec by lia. done.
  - replace (N.of_nat (k * 256) =? 0)%N with false by (symmetry; apply N.eqb_neq; lia).
    assert (Ef : first = k * 256) by (unfold first; lia).
    rewrite (u32_small (N.of_nat (k * 256) + 255)) by lia.
    replace (N.of_nat (k * 256) + 255)%N with (N.of_nat (first + 255)) by (rewrite Ef; lia).
    rewrite <- Ef, push_down_spec by lia. do 6 f_equal. rewrite Ef. lia.
Qed.

Lemma indexes_grow k :
  indexes (S k) ≡ₚ N.of_nat (Nat.max 1 (k * chunkSize)) ::
    (N.of_nat <$> reverse (seq (S (Nat.max 1 (k * chunkSize)))
                               (S k * chunkSize - 1 - Nat.max 1 (k * chunkSize)))) ++ indexes k.
Proof using Type.
  unfold indexes. set (first := Nat.max 1 (k * chunkSize)).
  rewrite reverse_Permutation, <- fmap_app, <- fmap_cons. f_equiv.
  set (m := S k * chunkSize - 1 - first).
  replace (S k * chunkSize - 1) with ((first - 1) + S m) by (unfold m, first, chunkSize; lia).
  rewrite seq_app. replace (1 + (first - 1)) with first by (unfold first; lia).
  replace (k * chunkSize - 1) with (first - 1) by (unfold first; lia).
  by rewrite (Permutation_app_comm _ (seq _ _)).
Qed.

Lemma pool_empty_repr : pool_repr emptyPool [].
Proof using Type. split; [by constructor|simpl; lia|done]. Qed.

(** [At] on a pool with more chunks is the same. *)
Lemma At_grow p q fr i x : At p i = Some x → At (mkPool (pchunks p ++ q) fr) i = Some x.
Proof using Type.
  unfold At. simpl. destruct (pchunks p !! _) eqn:E; [|done]. by rewrite (lookup_app_l_Some _ _ _ _ E).
Qed.

Lemma pool_grow_repr p out :
  pool_repr p out → roomy p →
  ∃ p' i, pool_grow p = (p', i) ∧ pool_repr p' (i :: out) ∧
    length (pchunks p') = S (length (pchunks p)) ∧ ∀ j x, At p j = Some x → At p' j = Some x.
Proof.
  intros [Hc Hf Hi] Hroom. rewrite (pool_grow_eq p Hroom). cbv zeta. do 2 eexists. split; [done|].
  split; [|split; [cbn [pchunks]; rewrite length_app, Nat.add_comm; done|intros; by apply At_grow]].
  split; cbn [pchunks free].
  - apply Forall_app. split; [done|]. constructor; [apply length_replicate|done].
  - unfold roomy in Hroom. rewrite length_app, Nat.add_comm. cbn [length Nat.add]. lia.
  - rewrite length_app, Nat.add_comm. cbn [length Nat.add]. rewrite indexes_grow, <- Hi. solve_Permutation.
Qed.

Lemma pool_take_repr p out :
  pool_repr p out → roomy p →
  ∃ p' i, pool_take p = (p', i) ∧ pool_repr p' (i :: out) ∧
    (free p ≠ [] → pchunks p' = pchunks p ∧ free p = free p' ++ [i]) ∧
    ∀ j x, At p j = Some x → At p' j = Some x.
Proof.
  intros Hr Hroom. unfold pool_take. destruct (last (free p)) as [i|] eqn:El.
  - apply last_Some in El as (fr & El). do 2 eexists. split; [done|].
    rewrite El, length_app. simpl. rewrite Nat.add_sub, take_app_length.
    split; [|split; [done|by intros]]. destruct Hr as [Hc Hf Hi]. split; [done|done|].
    simpl. rewrite <- Hi, El. solve_Permutation.
  - apply last_None in El. destruct (pool_grow_repr p out Hr Hroom) as (p' & i & -> & ? & ? & ?).
    by exists p', i.
Qed.

(** An index that [pool_repr] holds apart. *)
Lemma pool_repr_fresh p i out :
  pool_repr p (i :: out) → (i ∉ out) ∧ i ≠ NoSlot ∧ (i < 2 ^ 32)%N ∧ is_Some (At p i).
Proof using Type.
  intros [Hc Hf Hi].
  assert (Hnd : NoDup (free p ++ i :: out)) by (rewrite Hi; apply indexes_NoDup).
  apply NoDup_app in Hnd as (_ & _ & Hnd). apply NoDup_cons in Hnd as [Hout _].
  assert (Hin : i ∈ indexes (length (pchunks p))) by (rewrite <- Hi; apply elem_of_app; right; by left).
  apply elem_of_indexes in Hin as [H0 Hlt]. unfold NoSlot, chunkSize in *.
  split_and!; [done|lia|lia|]. unfold At, chunkShift, chunkMask.
  rewrite N.shiftr_div_pow2. change 255%N with (N.ones 8). rewrite N.land_ones. change (2 ^ 8)%N with 256%N.
  pose proof (N.Div0.div_lt_upper_bound i 256 (N.of_nat (length (pchunks p)))).
  destruct (lookup_lt_is_Some_2 (pchunks p) (N.to_nat (i / 256))) as [c Ec]; [lia|]. rewrite Ec. simpl.
  apply lookup_lt_is_Some_2. rewrite Forall_forall in Hc.
  rewrite (Hc c) by (by eapply list_elem_of_lookup_2). unfold chunkSize.
  pose proof (N.mod_lt i 256). lia.
Qed.

Lemma pool_repr_perm p out out' : out ≡ₚ out' → pool_repr p out → pool_repr p out'.
Proof using Type. intros Hp [? ? Hi]. split; [done|done|]. by rewrite <- Hp. Qed.

Lemma pool_release_repr p out i : pool_repr p (i :: out) → pool_repr (Release p i) out.
Proof using Type. intros [? ? Hi]. split; [done|done|]. simpl. rewrite <- Hi. solve_Permutation. Qed.

Lemma pool_release_many_repr p out l : pool_repr p (l ++ out) → pool_repr (ReleaseMany p l) out.
Proof using Type. intros [? ? Hi]. split; [done|done|]. simpl. by rewrite <- Hi, (assoc (++)). Qed.

(** ** Batches and capacity *)

(** Room for [n] more acquisitions, whatever is free. *)
Definition roomy_for p (n : nat) : Prop := (Z.of_nat (length (pchunks p) + n) < 2 ^ 24)%Z.

Lemma pool_take_chunks p : length (pchunks (pool_take p).1) ≤ S (length (pchunks p)).
Proof using Type.
  unfold pool_take. destruct (last (free p)); [simpl; lia|].
  unfold pool_grow. cbn [fst pchunks]. rewrite length_app. cbn [length]. lia.
Qed.

Lemma pool_acquire_many_repr p out into n :
  pool_repr p out → roomy_for p n →
  ∃ p' taken, AcquireMany p into n = (p', into ++ taken) ∧ length taken = n ∧
    pool_repr p' (taken ++ out) ∧ ∀ j x, At p j = Some x → At p' j = Some x.
Proof.
  revert p out into. induction n as [|n IH]; intros p out into Hr Hroom.
  { exists p, []. by rewrite app_nil_r. }
  simpl. destruct (pool_take_repr p out Hr) as (p1 & i & E & Hr1 & _ & Hk).
  { unfold roomy, roomy_for in *. lia. }
  rewrite E. pose proof (pool_take_chunks p) as Hc. rewrite E in Hc. simpl in Hc.
  destruct (IH p1 (i :: out) (into ++ [i])) as (p2 & taken & E2 & Hlen & Hr2 & Hk2); [done| |].
  { unfold roomy_for in *. lia. }
  exists p2, (i :: taken). rewrite E2, <- app_assoc. split_and!; [done|simpl; lia| |eauto].
  eapply pool_repr_perm, Hr2. solve_Permutation.
Qed.

Lemma pool_acquire_many_free p into n :
  n ≤ length (free p) → pchunks (AcquireMany p into n).1 = pchunks p.
Proof using Type.
  revert p into. induction n as [|n IH]; intros p into Hn; [done|]. cbn [AcquireMany].
  unfold pool_take. destruct (last (free p)) as [i|] eqn:El.
  - apply (IH (mkPool (pchunks p) (take (length (free p) - 1) (free p)))). cbn [free].
    rewrite length_take. lia.
  - apply last_None in El. rewrite El in Hn. simpl in Hn. lia.
Qed.

Lemma pool_free_length p out : pool_repr p out →
  length (free p) + length out = length (pchunks p) * chunkSize - 1.
Proof using Type.
  intros [_ _ Hi]. apply Permutation_length in Hi. unfold indexes in Hi.
  by rewrite length_app, length_fmap, length_seq in Hi.
Qed.

Lemma new_pool_loop_repr fuel p wanted :
  pool_repr p [] → (Z.of_nat (length (pchunks p) + fuel) < 2 ^ 24)%Z →
  pool_repr (new_pool_loop fuel p wanted) [] ∧
  (wanted < length (pchunks p) * chunkSize + fuel → wanted ≤ length (free (new_pool_loop fuel p wanted))).
Proof.
  revert p. induction fuel as [|fuel IH]; intros p Hr Hroom; cbn [new_pool_loop].
  - split; [done|]. pose proof (pool_free_length p [] Hr). simpl in *. lia.
  - destruct (Z.ltb_spec (capacity p) (Z.of_nat wanted)) as [Hlt|Hge].
    + destruct (pool_grow_repr p [] Hr) as (p' & i & E & Hr' & Hlen & _); [unfold roomy; lia|].
      rewrite E. destruct (IH (mkPool (pchunks p') (free p' ++ [i]))) as [H1 H2].
      * by apply (pool_release_repr p' [] i).
      * cbn [pchunks]. lia.
      * split; [done|]. intros Hw. apply H2. cbn [pchunks]. rewrite Hlen. unfold chunkSize in *. lia.
    + split; [done|]. intros _. pose proof (pool_free_length p [] Hr) as Hf. simpl in Hf.
      unfold capacity in Hge. destruct (pchunks p); simpl in *; lia.
Qed.

Lemma At_At_set p i j x p' :
  At_set p i x = Some p' →
  At p' j = if decide (j = i) then Some x else At p j.
Proof using Type.
  unfold At_set, At. set (c i := N.to_nat (N.shiftr i chunkShift)). set (o i := N.to_nat (N.land i chunkMask)).
  fold (c i) (c j) (o i) (o j).
  assert (Hij : c j = c i → o j = o i → j = i).
  { unfold c, o, chunkShift, chunkMask. rewrite !N.shiftr_div_pow2. change 255%N with (N.ones 8).
    rewrite !N.land_ones. change (2 ^ 8)%N with 256%N. intros E1%N2Nat.inj E2%N2Nat.inj.
    rewrite (N.div_mod j 256), (N.div_mod i 256) by lia. congruence. }
  destruct (pchunks p !! c i) as [chunk|] eqn:Ec; [|done]. cbn [mbind option_bind].
  destruct (list_set chunk (o i) x) as [chunk'|] eqn:E1; [|done]. apply list_set_inv in E1 as [Ho ->].
  cbn [mbind option_bind]. destruct (list_set (pchunks p) (c i) _) as [chunks'|] eqn:E2; [|done].
  apply list_set_inv in E2 as [Hci ->]. intros [= <-]. cbn [pchunks].
  rewrite lookup_insert_decide by done. destruct (decide (c i = c j)) as [E|E].
  - cbn [mbind option_bind]. rewrite lookup_insert_decide by done. rewrite <- E, Ec. cbn [mbind option_bind].
    destruct (decide (o i = o j)) as [E'|E'], (decide (j = i)) as [->|]; try done.
    by destruct n; apply Hij.
  - destruct (decide (j = i)) as [->|]; done.
Qed.

Lemma At_set_repr p out i x :
  pool_repr p out → is_Some (At p i) → ∃ p', At_set p i x = Some p' ∧ pool_repr p' out.
Proof using Type.
  intros [Hc Hf Hi] [y Hy]. unfold At, At_set in *.
  destruct (pchunks p !! N.to_nat (N.shiftr i chunkShift)) as [chunk|] eqn:Ec; [|done].
  cbn [mbind option_bind] in *. rewrite list_set_Some by (by eapply lookup_lt_Some). cbn [mbind option_bind].
  rewrite list_set_Some by (by eapply lookup_lt_Some). cbn [mbind option_bind]. eexists. split; [done|].
  split; cbn [pchunks free]; [|by rewrite length_insert|by rewrite length_insert].
  apply Forall_insert; [done|]. rewrite length_insert. rewrite Forall_forall in Hc. apply Hc.
  by eapply list_elem_of_lookup_2.
Qed.

(** Whatever was acquired and released before, Acquire answers an index
    that is not [None], that nobody holds and whose slot exists; AcquireMany
    answers that many such; Release and ReleaseMany give indexes back; no slot
    already there moves or changes, and a write through At changes its slot
    only. *)
Theorem pool_operations p out n :
  pool_repr p out → roomy_for p (S n) →
  (∃ p' i, Acquire p = (p', i) ∧ i ≠ NoSlot ∧ (i ∉ out) ∧ is_Some (At p' i) ∧ pool_repr p' (i :: out) ∧
     ∀ j x, At p j = Some x → At p' j = Some x) ∧
  (∃ p' taken, AcquireMany p [] n = (p', taken) ∧ length taken = n ∧ NoDup (taken ++ out) ∧
     pool_repr p' (taken ++ out) ∧ ∀ j x, At p j = Some x → At p' j = Some x) ∧
  (∀ i out', out ≡ₚ i :: out' → pool_repr (Release p i) out' ∧ ∀ j, At (Release p i) j = At p j) ∧
  (∀ l out', out ≡ₚ l ++ out' → pool_repr (ReleaseMany p l) out') ∧
  (∀ i x, i ∈ out → ∃ p', At_set p i x = Some p' ∧ pool_repr p' out ∧
     ∀ j, At p' j = if decide (j = i) then Some x else At p j).
Proof.
  intros Hr Hroom. split_and!.
  - destruct (pool_take_repr p out Hr) as (p' & i & E & Hr' & _ & Hk).
    { unfold roomy, roomy_for in *. lia. }
    exists p', i. destruct (pool_repr_fresh p' i out Hr') as (? & ? & ? & ?). done.
  - destruct (pool_acquire_many_repr p out [] n Hr) as (p' & taken & E & Hlen & Hr' & Hk).
    { unfold roomy_for in *. lia. }
    exists p', taken. split_and!; try done.
    assert (Hnd : NoDup (free p' ++ taken ++ out)) by (rewrite (pool_indexes _ _ Hr'); apply indexes_NoDup).
    by apply NoDup_app in Hnd as (_ & _ & ?).
  - intros i out' Hp. split; [|done]. apply pool_release_repr. by eapply pool_repr_perm.
  - intros l out' Hp. apply pool_release_many_repr. by eapply pool_repr_perm.
  - intros i x Hin. apply list_elem_of_split in Hin as (l1 & l2 & ->).
    destruct (pool_repr_fresh p i (l1 ++ l2)) as (_ & _ & _ & Hat).
    { eapply pool_repr_perm, Hr. solve_Permutation. }
    destruct (At_set_repr p _ i x Hr Hat) as (p' & E & Hr'). exists p'. split_and!; [done|done|].
    intros j. by eapply At_At_set.
Qed.
End pool.

Lemma pool_operations_witness :
  ∃ p' i, Acquire (T := nat) emptyPool = (p', i) ∧ i ≠ NoSlot ∧ is_Some (At p' i).
Proof.
  destruct (pool_operations (T := nat) emptyPool [] 1) as [(p' & i & ? & ? & _ & ? & _) _];
    [apply pool_empty_repr|done|by exists p', i].
Defined.

(** A NewPool of [wanted] slots holds that many free ones, so that the
    first [wanted] acquisitions do not grow it. *)
Theorem newPool_capacity {T} `{Zero T} (wanted : nat) :
  (Z.of_nat wanted < 2 ^ 23)%Z →
  pool_repr (NewPool (T := T) wanted) [] ∧
  pchunks (AcquireMany (NewPool (T := T) wanted) [] wanted).1 = pchunks (NewPool (T := T) wanted).
Proof.
  intros Hw. destruct (new_pool_loop_repr (T := T) (S wanted) emptyPool wanted) as [H1 H2].
  - apply pool_empty_repr.
  - simpl. lia.
  - split; [done|]. apply pool_acquire_many_free, H2. simpl. lia.
Qed.

Lemma newPool_capacity_witness :
  pchunks (AcquireMany (NewPool (T := N) 300) [] 300).1 = pchunks (NewPool (T := N) 300) ∧
  length (pchunks (NewPool (T := N) 300)) = 2.
Proof. split; [by apply (newPool_capacity (T := N) 300)|by vm_compute]. Defined.

(** ** What kernel/container/pool.go promises those who keep data in slots

    [SlotPool] is what a client uses of a pool: indexes are acquired and
    released, and what an index holds is read and written.  [SlotPoolLaws] is
    the promise: nobody holds an index that is handed out, and what a slot
    holds changes by a write to it only, so it stays while the slot is free.
    [pool_slots_laws] is the promise kept. *)

Class SlotPool (P T : Type) := {
  slots_empty : P;
  slots_acquire : P → P * N;
  slots_release : P → N → P;
  slots_at : P → N → option T;
  slots_set : P → N → T → option P;
  slots_repr : P → list N → Prop;
  slots_room : P → Prop
}.

Class SlotPoolLaws P T `{SlotPool P T, Zero T} := {
  slots_repr_empty : slots_repr slots_empty [];
  slots_empty_at i : slots_at slots_empty i = None;
  slots_repr_perm p out out' : out ≡ₚ out' → slots_repr p out → slots_repr p out';
  slots_repr_NoDup p out : slots_repr p out → NoDup out;
  slots_repr_at p out i :
    slots_repr p out → i ∈ out → i ≠ NoSlot ∧ (i < 2 ^ 32 - 1)%N ∧ is_Some (slots_at p i);
  slots_acquire_repr p out :
    slots_repr p out → slots_room p →
    ∃ p' i, slots_acquire p = (p', i) ∧ slots_repr p' (i :: out) ∧
      (∀ j x, slots_at p j = Some x → slots_at p' j = Some x) ∧
      (∀ j x, slots_at p' j = Some x → slots_at p j = Some x ∨ slots_at p j = None ∧ x = zero_value);
  slots_release_repr p out i : slots_repr p (i :: out) → slots_repr (slots_release p i) out;
  slots_release_at p i j : slots_at (slots_release p i) j = slots_at p j;
  slots_set_repr p out i x :
    slots_repr p out → is_Some (slots_at p i) → ∃ p', slots_set p i x = Some p' ∧ slots_repr p' out;
  slots_set_at p i x p' j :
    slots_set p i x = Some p' → slots_at p' j = if decide (j = i) then Some x else slots_at p j
}.

(** [uint32] has room for fewer than [2^24] chunks: the last index would be
    [closedList], the head no list has. *)
#[export] Instance pool_slots {T} `{Zero T} : SlotPool (Pool T) T := {
  slots_empty := emptyPool;
  slots_acquire := Acquire;
  slots_release := Release;
  slots_at := At;
  slots_set := At_set;
  slots_repr p out := pool_repr p out ∧ (Z.of_nat (length (pchunks p)) < 2 ^ 24)%Z;
  slots_room p := (Z.of_nat (length (pchunks p)) < 2 ^ 24 - 1)%Z
}.

Section pool.
Context {T : Type} `{Zero T}.
Implicit Types p : Pool T.

Lemma pool_index_bound p out i :
  pool_repr p out → (Z.of_nat (length (pchunks p)) < 2 ^ 24)%Z → i ∈ out → (i < 2 ^ 32 - 1)%N.
Proof using Type.
  intros Hr Hlt Hin. assert (Hi : i ∈ indexes (length (pchunks p))).
  { rewrite <- (pool_indexes _ _ Hr). apply elem_of_app. by right. }
  apply elem_of_indexes in Hi as [_ Hi]. unfold chunkSize in Hi. lia.
Qed.

Lemma pool_take_at p out :
  pool_repr p out → roomy p →
  ∀ j x, At (pool_take p).1 j = Some x → At p j = Some x ∨ At p j = None ∧ x = zero_value.
Proof.
  intros Hr Hroom j x. unfold pool_take. destruct (last (free p)); [by left|].
  rewrite pool_grow_eq by done. unfold At. cbn [fst pchunks].
  set (c := N.to_nat (N.shiftr j chunkShift)).
  destruct (decide (c < length (pchunks p))) as [Hc|Hc].
  - rewrite lookup_app_l by done. by left.
  - rewrite (lookup_ge_None_2 (pchunks p)) by lia. rewrite lookup_app_r by lia. cbn [mbind option_bind].
    destruct (c - length (pchunks p)) as [|?]; [|done]. cbn [lookup list_lookup mbind option_bind].
    intros [-> _]%lookup_replicate. by right.
Qed.

#[export] Instance pool_slots_laws : SlotPoolLaws (Pool T) T.
Proof.
  split; cbn [slots_repr slots_empty slots_at slots_acquire slots_release slots_set slots_room pool_slots].
  - split; [apply pool_empty_repr|done].
  - done.
  - intros p out out' Hp [? ?]. split; [by eapply pool_repr_perm|done].
  - intros p out [Hr _]. assert (Hnd : NoDup (free p ++ out)) by (rewrite (pool_indexes _ _ Hr); apply indexes_NoDup).
    by apply NoDup_app in Hnd as (_ & _ & ?).
  - intros p out i [Hr Hlt] Hin. pose proof (pool_index_bound p out i Hr Hlt Hin).
    apply list_elem_of_split in Hin as (l1 & l2 & ->).
    destruct (pool_repr_fresh p i (l1 ++ l2)) as (_ & ? & _ & ?); [|done].
    eapply pool_repr_perm, Hr. solve_Permutation.
  - intros p out [Hr Hlt] Hroom. assert (Hr0 : roomy p) by (unfold roomy; lia).
    pose proof (pool_take_at p out Hr Hr0) as Hback. pose proof (pool_take_chunks p) as Hc.
    destruct (pool_take_repr p out Hr Hr0) as (p' & i & E & Hr' & _ & Hk).
    rewrite E in Hback, Hc. exists p', i. unfold Acquire. cbn [fst] in *. split_and!; [done|done|lia|done|done].
  - intros p out i [Hr ?]. split; [by apply pool_release_repr|done].
  - done.
  - intros p out i x [Hr Hlt] Hat. destruct (At_set_repr p out i x Hr Hat) as (p' & E & Hr').
    exists p'. split_and!; [done|done|]. unfold At_set in E.
    destruct (pchunks p !! _) as [chunk|]; [|done]. cbn [mbind option_bind] in E.
    destruct (list_set chunk _ _) as [chunk'|]; [|done]. cbn [mbind option_bind] in E.
    destruct (list_set (pchunks p) _ _) as [chunks'|] eqn:E2; [|done]. apply list_set_inv in E2 as [_ ->].
    injection E as <-. cbn [pchunks]. by rewrite length_insert.
  - intros p i x p' j E. by eapply At_At_set.
Qed.
End pool.

(** ** Slots that are acquired, written and given back *)

Section client.
Context {P T : Type} `{Zero T} `{!SlotPool P T} `{!SlotPoolLaws P T}.
Implicit Types p : P.

#[local] Set Default Proof Using "All".

(** A slot acquired and filled is new; what the slots in use hold stays. *)
Lemma slots_take p out x :
  slots_repr p out → slots_room p →
  ∃ p1 p2 i, slots_acquire p = (p1, i) ∧ slots_set p1 i x = Some p2 ∧ slots_repr p2 (i :: out) ∧
    slots_at p2 i = Some x ∧ ∀ j, j ∈ out → slots_at p2 j = slots_at p j.
Proof.
  intros Hr Hroom. destruct (slots_acquire_repr p out Hr Hroom) as (p1 & i & E1 & Hr1 & Hup & _).
  destruct (slots_repr_at p1 (i :: out) i Hr1) as (_ & _ & Hat); [by left|].
  destruct (slots_set_repr p1 (i :: out) i x Hr1 Hat) as (p2 & E2 & Hr2).
  exists p1, p2, i. split_and!; [done|done|done| |].
  - by rewrite (slots_set_at _ _ _ _ _ E2), decide_True.
  - intros j Hj. rewrite (slots_set_at _ _ _ _ _ E2), decide_False.
    + destruct (slots_repr_at p out j Hr Hj) as (_ & _ & [y Hy]). by rewrite Hy, (Hup _ _ Hy).
    + intros ->. pose proof (slots_repr_NoDup _ _ Hr1) as Hn. by apply NoDup_cons in Hn as [? _].
Qed.

(** A slot in use is written: the other slots in use hold what they held. *)
Lemma slots_put p out i x :
  slots_repr p (i :: out) →
  ∃ p', slots_set p i x = Some p' ∧ slots_repr p' (i :: out) ∧ slots_at p' i = Some x ∧
    ∀ j, j ∈ out → slots_at p' j = slots_at p j.
Proof.
  intros Hr. destruct (slots_repr_at p (i :: out) i Hr) as (_ & _ & Hat); [by left|].
  destruct (slots_set_repr p (i :: out) i x Hr Hat) as (p' & E & Hr'). exists p'.
  split_and!; [done|done| |].
  - by rewrite (slots_set_at _ _ _ _ _ E), decide_True.
  - intros j Hj. rewrite (slots_set_at _ _ _ _ _ E), decide_False; [done|].
    intros ->. pose proof (slots_repr_NoDup _ _ Hr) as Hn. by apply NoDup_cons in Hn as [? _].
Qed.
End client.
