(* ===== verification/Array.v ===== *)
(** * Chunked arrays and bit sets of kernel/container/array.go and bits.go

    An [Array] is a list of items kept in chunks of 256 ([array_repr]); a
    [Bits] is a set of indexes kept in an Array of words.  Positions are
    non-negative, so [i >> 8] and [i & 255] are [i / 256] and [i mod 256]. *)

From S2P Require Import Prelude Words Pool.

Record Array (T : Type) := mkArray {
  achunks : list (list T);
  alength : nat
}.
Arguments mkArray {T} _ _.
Arguments achunks {T} _.
Arguments alength {T} _.

Section array.
Context {T : Type} `{Zero T}.
Implicit Types a : Array T.

Definition emptyArray : Array T := mkArray [] 0.

Definition ALen a : nat := alength a.

(** The item [At] points to, read and written; nothing checks [Len]. *)
Definition AAt a (i : nat) : option T :=
  chunk ← achunks a !! (i / chunkSize);
  chunk !! (i mod chunkSize).

Definition ASet a (i : nat) (x : T) : option (Array T) :=
  chunk ← achunks a !! (i / chunkSize);
  chunk' ← list_set chunk (i mod chunkSize) x;
  chunks' ← list_set (achunks a) (i / chunkSize) chunk';
  Some (mkArray chunks' (alength a)).

Definition add_chunk a : Array T := mkArray (achunks a ++ [replicate chunkSize zero_value]) (alength a).

Definition AAppend a (item : T) : option (Array T * nat) :=
  let i := alength a in
  let a := if decide (i = length (achunks a) * chunkSize) then add_chunk a else a in
  a' ← ASet a i item;
  Some (mkArray (achunks a') (alength a' + 1), i).

(** Resize's first loop, with fuel: every turn adds a chunk. *)
Fixpoint add_chunks (fuel : nat) a (size : nat) : Array T :=
  match fuel with
  | O => a
  | S fuel =>
      if decide (length (achunks a) * chunkSize < size) then add_chunks fuel (add_chunk a) size else a
  end.

Definition AResize a (size : nat) : option (Array T) :=
  let a := add_chunks size a size in
  a' ← for_from (alength a) (size - alength a) (λ i a, ASet a i zero_value) a;
  Some (mkArray (achunks a') size).

Definition AChunks a : nat := (alength a + (chunkSize - 1)) / chunkSize.

Definition AShrink a : option (Array T) :=
  chunks ← slice (achunks a) 0 (AChunks a);
  Some (mkArray chunks (alength a)).

Definition ASwapRemove a (i : nat) : option (Array T * nat) :=
  if decide (alength a = 0) then None else
  let last := alength a - 1 in
  x ← AAt a last;
  a' ← ASet a i x;
  Some (mkArray (achunks a') last, last).

Definition AChunk a (c : nat) : option (list T) :=
  let start := c * chunkSize in
  chunk ← achunks a !! c;
  if decide (start ≤ alength a) then slice chunk 0 (Nat.min (alength a - start) chunkSize) else None.

(** ** Representation *)

Record array_repr a (l : list T) : Prop := {
  array_chunks : Forall (λ c, length c = chunkSize) (achunks a);
  array_length : alength a = length l;
  array_fits : length l ≤ length (achunks a) * chunkSize;
  array_items : ∀ i, i < length l → AAt a i = l !! i
}.

Lemma array_in_range a i :
  Forall (λ c, length c = chunkSize) (achunks a) → i < length (achunks a) * chunkSize →
  ∃ c, achunks a !! (i / chunkSize) = Some c ∧ length c = chunkSize ∧ i mod chunkSize < length c.
Proof using Type.
  intros Hc Hi. destruct (lookup_lt_is_Some_2 (achunks a) (i / chunkSize)) as [c Ec].
  { apply Nat.Div0.div_lt_upper_bound. lia. }
  exists c. rewrite Forall_forall in Hc. rewrite (Hc c) by (by eapply list_elem_of_lookup_2).
  split_and!; [done|done|]. apply Nat.mod_upper_bound. unfold chunkSize. lia.
Qed.

Lemma position_inj i j :
  i / chunkSize = j / chunkSize → i mod chunkSize = j mod chunkSize → i = j.
Proof using Type.
  intros E1 E2. rewrite (Nat.div_mod_eq i chunkSize), (Nat.div_mod_eq j chunkSize). congruence.
Qed.

(** Writing in range changes that position only. *)
Lemma ASet_spec a i x :
  Forall (λ c, length c = chunkSize) (achunks a) → i < length (achunks a) * chunkSize →
  ∃ a', ASet a i x = Some a' ∧ Forall (λ c, length c = chunkSize) (achunks a') ∧
    length (achunks a') = length (achunks a) ∧ alength a' = alength a ∧
    ∀ j, AAt a' j = if decide (j = i) then Some x else AAt a j.
Proof using Type.
  intros Hc Hi. destruct (array_in_range a i Hc Hi) as (c & Ec & Hlen & Hlt).
  pose proof (lookup_lt_Some _ _ _ Ec) as Hci.
  unfold ASet. rewrite Ec. cbn [mbind option_bind]. rewrite list_set_Some by done.
  cbn [mbind option_bind]. rewrite list_set_Some by done. cbn [mbind option_bind].
  eexists. split; [done|]. cbn [achunks alength]. rewrite length_insert.
  split_and!; [apply Forall_insert; [done|by rewrite length_insert]|done|done|].
  intros j. unfold AAt. cbn [achunks]. rewrite lookup_insert_decide by done.
  destruct (decide (i / chunkSize = j / chunkSize)) as [E|E].
  - cbn [mbind option_bind]. rewrite lookup_insert_decide by done. rewrite <- E, Ec. cbn [mbind option_bind].
    destruct (decide (i mod chunkSize = j mod chunkSize)) as [E'|E'], (decide (j = i)) as [->|Hn]; try done.
    destruct Hn. by apply position_inj.
  - by destruct (decide (j = i)) as [->|].
Qed.

Lemma AAt_add_chunk a i : i < length (achunks a) * chunkSize → AAt (add_chunk a) i = AAt a i.
Proof.
  intros Hi. unfold AAt, add_chunk. cbn [achunks]. rewrite lookup_app_l; [done|].
  apply Nat.Div0.div_lt_upper_bound. lia.
Qed.

Lemma add_chunk_repr a l : array_repr a l → array_repr (add_chunk a) l.
Proof.
  intros [Hc Hl Hf Hi]. split.
  - apply Forall_app. split; [done|]. constructor; [apply length_replicate|done].
  - done.
  - unfold add_chunk. cbn [achunks]. rewrite length_app. cbn [length]. lia.
  - intros i Hlt. rewrite AAt_add_chunk by lia. by apply Hi.
Qed.

Lemma add_chunks_repr fuel a l size :
  array_repr a l → array_repr (add_chunks fuel a size) l ∧
  (size ≤ length (achunks a) * chunkSize + fuel → size ≤ length (achunks (add_chunks fuel a size)) * chunkSize).
Proof.
  revert a. induction fuel as [|fuel IH]; intros a Hr; cbn [add_chunks]; [split; [done|lia]|].
  destruct (decide _) as [Hlt|Hge]; [|split; [done|lia]].
  destruct (IH _ (add_chunk_repr a l Hr)) as [H1 H2]. split; [done|]. intros Hs. apply H2.
  unfold add_chunk. cbn [achunks]. rewrite length_app. cbn [length]. unfold chunkSize in *. lia.
Qed.

Lemma array_append_repr a l x :
  array_repr a l → ∃ a', AAppend a x = Some (a', length l) ∧ array_repr a' (l ++ [x]).
Proof.
  intros Hr. unfold AAppend. set (a1 := if decide _ then _ else _).
  assert (Hr1 : array_repr a1 l ∧ length l < length (achunks a1) * chunkSize).
  { subst a1. pose proof (array_fits _ _ Hr) as Hf. pose proof (array_length _ _ Hr) as Hl.
    destruct (decide _) as [E|E].
    - split; [by apply add_chunk_repr|]. unfold add_chunk. cbn [achunks]. rewrite length_app. cbn [length].
      unfold chunkSize in *. lia.
    - split; [done|]. lia. }
  destruct Hr1 as [[Hc Hl Hf Hi] Hlt]. rewrite (array_length _ _ Hr).
  destruct (ASet_spec a1 (length l) x Hc Hlt) as (a' & -> & Hc' & Hn & Hl' & Hat).
  cbn [mbind option_bind]. eexists. split; [done|]. split; cbn [achunks alength].
  - done.
  - rewrite length_app. cbn [length]. lia.
  - rewrite length_app, Hn. cbn [length]. lia.
  - intros i Hi'. rewrite length_app in Hi'. cbn [length] in Hi'.
    transitivity (AAt a' i); [done|]. rewrite Hat. destruct (decide (i = length l)) as [->|].
    + by rewrite lookup_app_r, Nat.sub_diag by lia.
    + rewrite lookup_app_l by lia. apply Hi. lia.
Qed.

(** The list Resize leaves: cut at the end, or padded with zeros. *)
Definition resized (l : list T) (size : nat) : list T :=
  take size l ++ replicate (size - length l) zero_value.

Lemma length_resized l size : length (resized l size) = size.
Proof. unfold resized. rewrite length_app, length_take, length_replicate. lia. Qed.

Lemma array_resize_repr a l size :
  array_repr a l → ∃ a', AResize a size = Some a' ∧ array_repr a' (resized l size).
Proof.
  intros Hr. unfold AResize. destruct (add_chunks_repr size a l size Hr) as [Hr1 Hs].
  specialize (Hs ltac:(lia)). set (a1 := add_chunks size a size) in *.
  pose proof (array_length _ _ Hr1) as Hl1.
  pose (Inv := λ (j : nat) b, Forall (λ c, length c = chunkSize) (achunks b) ∧
    length (achunks b) = length (achunks a1) ∧
    ∀ i, AAt b i = if decide (length l ≤ i ∧ i < j) then Some zero_value else AAt a1 i).
  destruct (for_from_invariant Inv (λ i b, ASet b i zero_value) (alength a1) (size - alength a1) a1)
    as (a2 & -> & Hc2 & Hn2 & Hat2).
  - split_and!; [apply Hr1|done|]. intros i. rewrite decide_False; [done|lia].
  - intros j b Hj (Hc & Hn & Hat). destruct (ASet_spec b j zero_value) as (b' & E & Hc' & Hn' & _ & Hat').
    + done.
    + rewrite Hn. lia.
    + exists b'. split; [done|]. split_and!; [done|congruence|]. intros i. rewrite Hat', Hat.
      destruct (decide (i = j)) as [->|]; [by rewrite decide_True by lia|].
      destruct (decide (_ ∧ _)), (decide (_ ∧ _)); try done; lia.
  - cbn [mbind option_bind]. eexists. split; [done|]. split; cbn [achunks alength].
    + done.
    + by rewrite length_resized.
    + rewrite length_resized. lia.
    + rewrite length_resized. intros i Hi. transitivity (AAt a2 i); [done|]. rewrite Hat2. unfold resized.
      destruct (decide (i < length l)).
      * rewrite decide_False by lia. rewrite lookup_app_l by (rewrite length_take; lia).
        rewrite lookup_take_lt by lia. apply Hr1. lia.
      * rewrite decide_True by lia. rewrite lookup_app_r by (rewrite length_take; lia).
        rewrite length_take. rewrite lookup_replicate_2; [done|lia].
Qed.

Lemma AChunks_bounds a l : array_repr a l →
  AChunks a ≤ length (achunks a) ∧ length l ≤ AChunks a * chunkSize.
Proof using Type.
  intros [_ Hl Hf _]. unfold AChunks. rewrite Hl. unfold chunkSize in *.
  pose proof (Nat.div_mod_eq (length l + (256 - 1)) 256).
  pose proof (Nat.mod_upper_bound (length l + (256 - 1)) 256). split; [|lia].
  apply Nat.lt_succ_r, Nat.Div0.div_lt_upper_bound. lia.
Qed.

Lemma array_shrink_repr a l :
  array_repr a l → ∃ a', AShrink a = Some a' ∧ array_repr a' l ∧ length (achunks a') = AChunks a.
Proof using Type.
  intros Hr. destruct (AChunks_bounds a l Hr) as [Hle Hfit]. destruct Hr as [Hc Hl Hf Hi].
  unfold AShrink. rewrite slice_Some by lia. cbn [mbind option_bind]. rewrite Nat.sub_0_r, drop_0.
  eexists. split; [done|]. assert (Hlen : length (take (AChunks a) (achunks a)) = AChunks a)
    by (rewrite length_take; lia).
  split; [|by cbn [achunks]]. split; cbn [achunks alength].
  - by apply Forall_take.
  - done.
  - by rewrite Hlen.
  - intros i Hlt. rewrite <- Hi by done. unfold AAt. cbn [achunks]. rewrite lookup_take_lt; [done|].
    apply Nat.Div0.div_lt_upper_bound. lia.
Qed.

Lemma array_swap_remove_repr a l i y :
  array_repr a (l ++ [y]) → i ≤ length l →
  ∃ a', ASwapRemove a i = Some (a', length l) ∧ array_repr a' (take (length l) (<[i:=y]> (l ++ [y]))).
Proof using Type.
  intros [Hc Hl Hf Hi] Hle. rewrite length_app in *. cbn [length] in *.
  unfold ASwapRemove. rewrite decide_False by lia. rewrite Hl.
  replace (length l + 1 - 1) with (length l) by lia.
  rewrite Hi by lia. rewrite lookup_app_r, Nat.sub_diag by lia. cbn [lookup list_lookup mbind option_bind].
  destruct (ASet_spec a i y Hc) as (a' & -> & Hc' & Hn & Hl' & Hat); [lia|].
  cbn [mbind option_bind]. eexists. split; [done|].
  assert (Hlen : length (take (length l) (<[i:=y]> (l ++ [y]))) = length l)
    by (rewrite length_take, length_insert, length_app; lia).
  split; cbn [achunks alength]; [done|by rewrite Hlen|rewrite Hlen, Hn; lia|].
  rewrite Hlen. intros j Hj. transitivity (AAt a' j); [done|]. rewrite Hat, lookup_take_lt by done.
  rewrite lookup_insert_decide by (rewrite length_app; simpl; lia).
  destruct (decide (j = i)) as [->|]; [by rewrite decide_True|].
  rewrite decide_False by done. apply Hi. lia.
Qed.

Lemma array_set_repr a l i x :
  array_repr a l → i < length l → ∃ a', ASet a i x = Some a' ∧ array_repr a' (<[i:=x]> l).
Proof using Type.
  intros [Hc Hl Hf Hat] Hi.
  destruct (ASet_spec a i x Hc) as (a' & E & Hc' & Hn & Hl' & Hat'); [lia|]. exists a'. split; [done|].
  split; [done|by rewrite length_insert, Hl'|by rewrite length_insert, Hn|].
  rewrite length_insert. intros j Hj. rewrite Hat', lookup_insert_decide by done.
  destruct (decide (j = i)) as [->|]; [by rewrite decide_True|]. rewrite decide_False by done. by apply Hat.
Qed.

Lemma array_read a l i x : array_repr a l → l !! i = Some x → AAt a i = Some x.
Proof using Type. intros Hr Hi. rewrite <- Hi. apply Hr. by eapply lookup_lt_Some. Qed.

Lemma array_chunk_repr a l c :
  array_repr a l → c < AChunks a →
  AChunk a c = Some (take chunkSize (drop (c * chunkSize) l)).
Proof using Type.
  intros Hr Hc. destruct (AChunks_bounds a l Hr) as [Hle _]. destruct Hr as [Hch Hl Hf Hi].
  unfold AChunk. destruct (lookup_lt_is_Some_2 (achunks a) c) as [chunk Ec]; [lia|]. rewrite Ec.
  cbn [mbind option_bind]. assert (Hcl : length chunk = chunkSize).
  { rewrite Forall_forall in Hch. apply Hch. by eapply list_elem_of_lookup_2. }
  assert (Hstart : c * chunkSize < length l).
  { unfold AChunks in Hc. rewrite Hl in Hc. unfold chunkSize in *.
    pose proof (Nat.div_mod_eq (length l + (256 - 1)) 256). lia. }
  rewrite decide_True by lia. rewrite slice_Some by lia. f_equal. rewrite Nat.sub_0_r, drop_0, Hl.
  apply list_eq. intros j. destruct (decide (j < Nat.min (length l - c * chunkSize) chunkSize)) as [Hj|Hj].
  - rewrite !lookup_take_lt, lookup_drop by lia. rewrite <- Hi by lia. unfold AAt.
    rewrite Nat.add_comm, Nat.div_add by (unfold chunkSize; lia). rewrite Nat.div_small by lia.
    rewrite Nat.Div0.mod_add, Nat.mod_small by lia. simpl. by rewrite Ec.
  - rewrite !lookup_ge_None_2; [done| |]; rewrite length_take, ?length_drop; lia.
Qed.

(** An Array is a list: Len, At, a write through At, Append, Resize,
    Shrink, SwapRemove, Chunk and Chunks do to the array what the same
    operations do to the list it represents, without a panic. *)
Theorem array_refines_list a l :
  array_repr a l →
  ALen a = length l ∧
  (∀ i, i < length l → AAt a i = l !! i) ∧
  (∀ i x, i < length l → ∃ a', ASet a i x = Some a' ∧ array_repr a' (<[i:=x]> l)) ∧
  (∀ x, ∃ a', AAppend a x = Some (a', length l) ∧ array_repr a' (l ++ [x])) ∧
  (∀ size, ∃ a', AResize a size = Some a' ∧ array_repr a' (resized l size)) ∧
  (∃ a', AShrink a = Some a' ∧ array_repr a' l ∧ length (achunks a') = AChunks a) ∧
  (∀ i l' y, l = l' ++ [y] → i < length l →
     ∃ a', ASwapRemove a i = Some (a', length l') ∧ array_repr a' (take (length l') (<[i:=y]> l))) ∧
  (∀ c, c < AChunks a → AChunk a c = Some (take chunkSize (drop (c * chunkSize) l))).
Proof.
  intros Hr. split_and!.
  - apply Hr.
  - apply Hr.
  - intros i x. by apply array_set_repr.
  - intros x. by apply array_append_repr.
  - intros size. by apply array_resize_repr.
  - by apply array_shrink_repr.
  - intros i l' y -> Hi. rewrite length_app in Hi. cbn [length] in Hi. apply array_swap_remove_repr; [done|lia].
  - intros c Hc. by apply array_chunk_repr.
Qed.
End array.

Lemma array_empty_repr {T} `{Zero T} : array_repr (T := T) emptyArray [].
Proof. split; [by constructor|done|done|]. intros i Hi. simpl in Hi. lia. Qed.

Lemma array_refines_list_witness :
  ∃ a', AAppend (T := N) emptyArray 7%N = Some (a', 0) ∧ array_repr a' [7%N].
Proof.
  destruct (array_refines_list (T := N) emptyArray [] array_empty_repr) as (_ & _ & _ & H & _). apply H.
Defined.
