(* ===== verification/Bits.v ===== *)
(** * Bit sets of kernel/container/bits.go

    A [Bits] is a growing set of indexes, one bit each, in an Array of 64-bit
    words.  [bits_repr b m] gives the words; the set is [mask_has m]. *)

From S2P Require Import Prelude Words Pool Array.

Record Bits := mkBits { bwords : Array N }.

Definition emptyBits : Bits := mkBits emptyArray.

Definition bit_word (i : nat) : N := N.shiftl 1 (N.of_nat (i mod 64)).

Definition BSet (b : Bits) (i : nat) : option Bits :=
  let word := i / 64 in
  words ← (if decide (ALen (bwords b) ≤ word) then AResize (bwords b) (word + 1) else Some (bwords b));
  w ← AAt words word;
  words' ← ASet words word (N.lor w (bit_word i));
  Some (mkBits words').

Definition BUnset (b : Bits) (i : nat) : option Bits :=
  let word := i / 64 in
  if decide (word < ALen (bwords b)) then
    w ← AAt (bwords b) word;
    words' ← ASet (bwords b) word (N.ldiff w (bit_word i));
    Some (mkBits words')
  else Some b.

Definition BHas (b : Bits) (i : nat) : option bool :=
  let word := i / 64 in
  if decide (word < ALen (bwords b)) then
    w ← AAt (bwords b) word;
    Some (negb (N.land w (bit_word i) =? 0)%N)
  else Some false.

(** Next's loop over the words past [word], with fuel. *)
Fixpoint next_word (fuel : nat) (b : Bits) (word : nat) (bitsLeft : N) : option (option nat) :=
  match fuel with
  | O => None
  | S fuel =>
      if (bitsLeft =? 0)%N then
        let word := word + 1 in
        if decide (ALen (bwords b) ≤ word) then Some None
        else w ← AAt (bwords b) word; next_word fuel b word w
      else Some (Some (word * 64 + N.to_nat (trailing_zeros bitsLeft)))
  end.

Definition BNext (b : Bits) (i : nat) : option (option nat) :=
  let word := i / 64 in
  if decide (ALen (bwords b) ≤ word) then Some None
  else
    w ← AAt (bwords b) word;
    let k := N.of_nat (i mod 64) in
    next_word (S (ALen (bwords b))) b word (u64 (N.shiftl (N.shiftr w k) k)).

(** [clear(b.words.Chunk(c))] for every chunk holding words. *)
Definition clear_chunk (c : nat) (a : Array N) : option (Array N) :=
  chunk ← AChunk a c;
  chunks' ← list_modify (achunks a) c (λ whole, clear_range whole 0 (length chunk));
  Some (mkArray chunks' (alength a)).

Definition BClear (b : Bits) : option Bits :=
  words ← for_range (AChunks (bwords b)) clear_chunk (bwords b);
  Some (mkBits words).

(** ** Representation *)

Definition bits_repr (b : Bits) (m : list N) : Prop := array_repr (bwords b) m ∧ mask_bound m.

Lemma word_bound_bit_word i : word_bound (bit_word i).
Proof.
  unfold bit_word. rewrite N.shiftl_1_l. apply word_bound_pow2.
  pose proof (Nat.mod_upper_bound i 64). lia.
Qed.

Lemma testbit_bit_word i k : N.testbit (bit_word i) k = bool_decide (k = N.of_nat (i mod 64)).
Proof. unfold bit_word. rewrite N.shiftl_1_l, testbit_pow2. by apply bool_decide_ext. Qed.

Lemma resized_mask m size : mask_bound m → mask_bound (resized m size) ∧
  (length m ≤ size → ∀ r, mask_has (resized m size) r = mask_has m r).
Proof.
  intros Hm. unfold resized. split.
  - apply Forall_app. split; [by apply Forall_take|apply mask_bound_replicate].
  - intros Hle r. rewrite take_ge by done. apply mask_has_app_zero.
Qed.

Lemma bits_word (b : Bits) m i : bits_repr b m → i < length m → ∃ w, AAt (bwords b) i = Some w ∧ m !! i = Some w ∧ word_bound w.
Proof.
  intros [Hr Hm] Hi. destruct (lookup_lt_is_Some_2 m i Hi) as [w Hw]. exists w.
  rewrite (array_items _ _ Hr) by done. split_and!; [done|done|by eapply mask_bound_lookup].
Qed.

Lemma bits_write (b : Bits) m i w : bits_repr b m → i < length m → word_bound w →
  ∃ a', ASet (bwords b) i w = Some a' ∧ bits_repr (mkBits a') (<[i:=w]> m).
Proof.
  intros [[Hc Hl Hf Hat] Hm] Hi Hw. destruct (ASet_spec (bwords b) i w Hc) as (a' & E & Hc' & Hn & Hl' & Hat'); [lia|].
  exists a'. split; [done|]. split; [|by apply mask_bound_insert].
  split; cbn [bwords]; [done|by rewrite length_insert, Hl'|by rewrite length_insert, Hn|].
  rewrite length_insert. intros j Hj. rewrite Hat', lookup_insert_decide by done.
  destruct (decide (j = i)) as [->|]; [by rewrite decide_True|]. rewrite decide_False by done. by apply Hat.
Qed.

Lemma same_bit i j : j / 64 = i / 64 → N.of_nat (j mod 64) = N.of_nat (i mod 64) → j = i.
Proof. intros E1 E2%Nat2N.inj. rewrite (mask_index i), (mask_index j). congruence. Qed.

Lemma bits_set_repr b m i :
  bits_repr b m → ∃ b' m', BSet b i = Some b' ∧ bits_repr b' m' ∧
    ∀ j, mask_has m' j = bool_decide (j = i) || mask_has m j.
Proof.
  intros Hb. unfold BSet. pose proof (array_length _ _ (proj1 Hb)) as Hl. unfold ALen. rewrite Hl.
  assert (∃ a' m1, (if decide (length m ≤ i / 64) then AResize (bwords b) (i / 64 + 1) else Some (bwords b)) = Some a' ∧
    bits_repr (mkBits a') m1 ∧ i / 64 < length m1 ∧ ∀ r, mask_has m1 r = mask_has m r) as (a' & m1 & -> & Hb1 & Hlt & Hsame).
  { destruct Hb as [Hr Hm]. destruct (decide _) as [Hle|Hgt].
    - destruct (array_resize_repr (bwords b) m (i / 64 + 1) Hr) as (a' & E & Hr').
      destruct (resized_mask m (i / 64 + 1) Hm) as [Hm1 Hsame].
      exists a', (resized m (i / 64 + 1)). split_and!; [done|by split| |apply Hsame; lia].
      rewrite length_resized. lia.
    - exists (bwords b), m. split_and!; [done| |lia|done]. by split; destruct b. }
  cbn [mbind option_bind]. destruct (bits_word _ _ (i / 64) Hb1 Hlt) as (w & Ew & Hw & Hwb).
  cbn [bwords] in Ew. rewrite Ew. cbn [mbind option_bind].
  destruct (bits_write _ m1 (i / 64) (N.lor w (bit_word i)) Hb1 Hlt) as (a2 & E2 & Hb2).
  { apply word_bound_lor; [done|apply word_bound_bit_word]. }
  cbn [bwords] in E2. rewrite E2. cbn [mbind option_bind]. do 2 eexists. split_and!; [done|done|].
  intros j. rewrite mask_has_insert by done. rewrite <- Hsame. destruct (decide (j / 64 = i / 64)) as [E|E].
  - rewrite N.lor_spec, testbit_bit_word. unfold mask_has. rewrite E, Hw, orb_comm. f_equal.
    apply bool_decide_ext. split; [by apply same_bit|by intros ->].
  - rewrite bool_decide_false; [done|by intros ->].
Qed.

Lemma bits_unset_repr b m i :
  bits_repr b m → ∃ b' m', BUnset b i = Some b' ∧ bits_repr b' m' ∧
    ∀ j, mask_has m' j = negb (bool_decide (j = i)) && mask_has m j.
Proof.
  intros Hb. unfold BUnset. pose proof (array_length _ _ (proj1 Hb)) as Hl. unfold ALen. rewrite Hl.
  destruct (decide (i / 64 < length m)) as [Hlt|Hge].
  - destruct (bits_word _ _ (i / 64) Hb Hlt) as (w & -> & Hw & Hwb). cbn [mbind option_bind].
    destruct (bits_write _ m (i / 64) (N.ldiff w (bit_word i)) Hb Hlt) as (a2 & -> & Hb2).
    { by apply word_bound_ldiff. }
    cbn [mbind option_bind]. do 2 eexists. split_and!; [done|done|].
    intros j. rewrite mask_has_insert by done. destruct (decide (j / 64 = i / 64)) as [E|E].
    + rewrite N.ldiff_spec, testbit_bit_word. unfold mask_has. rewrite E, Hw, andb_comm. do 2 f_equal.
      apply bool_decide_ext. split; [by apply same_bit|by intros ->].
    + rewrite bool_decide_false; [done|by intros ->].
  - exists b, m. split_and!; [done|done|]. intros j. destruct (decide (j = i)) as [->|].
    + rewrite bool_decide_true by done. apply mask_has_beyond. pose proof (mask_index i). lia.
    + by rewrite bool_decide_false.
Qed.

Lemma bits_has_repr b m i : bits_repr b m → BHas b i = Some (mask_has m i).
Proof.
  intros Hb. unfold BHas. pose proof (array_length _ _ (proj1 Hb)) as Hl. unfold ALen. rewrite Hl.
  destruct (decide (i / 64 < length m)) as [Hlt|Hge].
  - destruct (bits_word _ _ (i / 64) Hb Hlt) as (w & -> & Hw & Hwb). cbn [mbind option_bind]. f_equal.
    unfold mask_has, bit_word. rewrite Hw, N.shiftl_1_l. apply land_bit_test.
  - f_equal. symmetry. apply mask_has_beyond. pose proof (mask_index i). lia.
Qed.

(** *** Next *)

(** The answer of Next: the least element at or above [i]. *)
Definition least_from (m : list N) (i : nat) (answer : option nat) : Prop :=
  match answer with
  | Some k => i ≤ k ∧ mask_has m k = true ∧ ∀ j, i ≤ j < k → mask_has m j = false
  | None => ∀ j, i ≤ j → mask_has m j = false
  end.

Lemma least_from_skip m i i' answer :
  i ≤ i' → (∀ j, i ≤ j < i' → mask_has m j = false) → least_from m i' answer → least_from m i answer.
Proof.
  intros Hle Hskip. destruct answer as [k|]; simpl.
  - intros (? & ? & Hno). split_and!; [lia|done|]. intros j Hj. destruct (decide (j < i')); [apply Hskip|apply Hno]; lia.
  - intros Hno j Hj. destruct (decide (j < i')); [apply Hskip|apply Hno]; lia.
Qed.

(** The bits of [bitsLeft] are those of word [word] at or above [i]. *)
Lemma next_word_spec fuel b m i word w bitsLeft :
  bits_repr b m → m !! word = Some w → word * 64 ≤ i < word * 64 + 64 → word_bound bitsLeft →
  (∀ k, N.testbit bitsLeft k = bool_decide (N.of_nat (i - word * 64) ≤ k)%N && N.testbit w k) →
  length m < word + fuel →
  ∃ answer, next_word fuel b word bitsLeft = Some answer ∧ least_from m i answer.
Proof.
  intros Hb. revert i word w bitsLeft.
  induction fuel as [|fuel IH]; intros i word w bitsLeft Hw Hi Hbound Hbits Hfuel.
  { apply lookup_lt_Some in Hw. lia. }
  pose proof (lookup_lt_Some _ _ _ Hw) as Hlt. cbn [next_word].
  destruct (N.eqb_spec bitsLeft 0) as [->|Hnz].
  - assert (Hskip : ∀ j, i ≤ j < (word + 1) * 64 → mask_has m j = false).
    { intros j Hj. replace j with (word * 64 + (j - word * 64)) by lia. rewrite (mask_has_word _ _ _ w) by (done || lia).
      specialize (Hbits (N.of_nat (j - word * 64))). rewrite N.bits_0, bool_decide_true in Hbits by lia. done. }
    unfold ALen. rewrite (array_length _ _ (proj1 Hb)). destruct (decide (length m ≤ word + 1)) as [Hend|Hmore].
    + exists None. split; [done|]. intros j Hj. destruct (decide (j < (word + 1) * 64)); [by apply Hskip|].
      apply mask_has_beyond. lia.
    + destruct (bits_word _ _ (word + 1) Hb) as (w' & -> & Hw' & Hwb'); [lia|]. cbn [mbind option_bind].
      destruct (IH ((word + 1) * 64) (word + 1) w' w') as (answer & E & Hl); [done|lia|done| |lia|].
      * intros k. rewrite bool_decide_true; [done|lia].
      * exists answer. split; [done|]. eapply least_from_skip, Hl; [lia|done].
  - eexists. split; [done|]. set (z := trailing_zeros bitsLeft).
    assert (Hz : N.testbit bitsLeft z = true) by by apply trailing_zeros_testbit.
    assert (Hz64 : (z < 64)%N).
    { destruct (decide (64 <= z)%N); [|lia]. by rewrite testbit_above in Hz. }
    rewrite Hbits in Hz. apply andb_true_iff in Hz as [Hge Hz]. apply bool_decide_eq_true in Hge.
    split_and!.
    + lia.
    + rewrite (mask_has_word _ _ _ w) by (done || lia). by rewrite N2Nat.id.
    + intros j Hj. replace j with (word * 64 + (j - word * 64)) by lia.
      rewrite (mask_has_word _ _ _ w) by (done || lia).
      pose proof (trailing_zeros_least bitsLeft (N.of_nat (j - word * 64)) Hnz ltac:(lia)) as Hno.
      rewrite Hbits, bool_decide_true in Hno by lia. done.
Qed.

Lemma bits_next_repr b m i :
  bits_repr b m → ∃ answer, BNext b i = Some answer ∧ least_from m i answer.
Proof.
  intros Hb. unfold BNext, ALen. rewrite (array_length _ _ (proj1 Hb)).
  pose proof (mask_index i) as Hi. pose proof (Nat.mod_upper_bound i 64).
  destruct (decide _) as [Hend|Hlt].
  - exists None. split; [done|]. intros j Hj. apply mask_has_beyond. lia.
  - destruct (bits_word _ _ (i / 64) Hb) as (w & -> & Hw & Hwb); [lia|]. cbn [mbind option_bind].
    set (k := N.of_nat (i mod 64)).
    assert (Hbits : ∀ j, N.testbit (u64 (N.shiftl (N.shiftr w k) k)) j = bool_decide (k ≤ j)%N && N.testbit w j).
    { intros j. unfold u64. destruct (decide (j < 64)%N).
      - rewrite N.mod_pow2_bits_low by done. case_bool_decide.
        + rewrite N.shiftl_spec_high' by done. rewrite N.shiftr_spec'. simpl. f_equal. clearbody k. lia.
        + apply N.shiftl_spec_low. lia.
      - rewrite N.mod_pow2_bits_high by lia. rewrite (testbit_above w) by (done || lia). by rewrite andb_false_r. }
    destruct (next_word_spec (S (length m)) b m i (i / 64) w (u64 (N.shiftl (N.shiftr w k) k)))
      as (answer & E & Hl); [done|done|lia| | |lia|by exists answer].
    + unfold word_bound, u64. by apply N.mod_lt.
    + intros j. rewrite Hbits. f_equal. apply bool_decide_ext. unfold k. rewrite (mask_index i) at 2.
      by rewrite Nat.add_comm, Nat.add_sub.
Qed.

(** *** Clear *)

Lemma clear_chunk_step a m c :
  array_repr a m → c < AChunks a →
  (∀ i, i < c * chunkSize → i < length m → m !! i = Some 0%N) →
  ∃ a' m', clear_chunk c a = Some a' ∧ array_repr a' m' ∧ length m' = length m ∧ AChunks a' = AChunks a ∧
    ∀ i, i < (c + 1) * chunkSize → i < length m' → m' !! i = Some 0%N.
Proof.
  intros Hr Hc Hzero. destruct (AChunks_bounds a m Hr) as [Hle _].
  unfold clear_chunk. rewrite (array_chunk_repr a m c Hr Hc). cbn [mbind option_bind].
  destruct Hr as [Hch Hl Hf Hat]. destruct (lookup_lt_is_Some_2 (achunks a) c) as [whole Ec]; [lia|].
  assert (Hw : length whole = chunkSize) by (rewrite Forall_forall in Hch; apply Hch; by eapply list_elem_of_lookup_2).
  rewrite (list_modify_Some _ _ whole) by done. cbn [mbind option_bind].
  set (len := length (take chunkSize (drop (c * chunkSize) m))).
  assert (Hlen : len = Nat.min chunkSize (length m - c * chunkSize)) by (unfold len; by rewrite length_take, length_drop).
  assert (Hlw : len ≤ length whole) by (rewrite Hw; lia).
  set (a' := mkArray _ _).
  exists a', ((λ i, if decide (i < (c + 1) * chunkSize) then 0%N else default 0%N (m !! i)) <$> seq 0 (length m)).
  split; [done|]. split_and!.
  - split.
    + apply Forall_insert; [done|]. by rewrite length_clear_range by lia.
    + unfold a'. cbn [alength]. by rewrite length_fmap, length_seq.
    + unfold a'. cbn [achunks]. by rewrite length_fmap, length_seq, length_insert.
    + rewrite length_fmap, length_seq. intros i Hi. rewrite list_lookup_fmap, lookup_seq_lt by done. cbn [fmap option_fmap option_map].
      rewrite Nat.add_0_l. unfold AAt, a'. cbn [achunks]. rewrite lookup_insert_decide by lia.
      pose proof (Nat.div_mod_eq i chunkSize) as Ei. pose proof (Nat.mod_upper_bound i chunkSize) as Em.
      destruct (decide (c = i / chunkSize)) as [->|Hne].
      * cbn [mbind option_bind]. rewrite lookup_clear_range by lia.
        rewrite decide_True by (unfold chunkSize in *; lia).
        rewrite decide_True by (unfold chunkSize in *; lia). done.
      * destruct (lookup_lt_is_Some_2 m i Hi) as [w Hiw]. specialize (Hat i Hi). unfold AAt in Hat.
        rewrite Hat, Hiw. destruct (decide _) as [Hlt|]; [|done]. simpl.
        rewrite Hzero in Hiw; [by injection Hiw as <-| |done]. unfold chunkSize in *. nia.
  - by rewrite length_fmap, length_seq.
  - done.
  - rewrite length_fmap, length_seq. intros i Hi Hlt. rewrite list_lookup_fmap, lookup_seq_lt by done.
    simpl. by rewrite decide_True.
Qed.

Lemma bits_clear_repr b m :
  bits_repr b m → ∃ b' m', BClear b = Some b' ∧ bits_repr b' m' ∧ ∀ j, mask_has m' j = false.
Proof.
  intros [Hr Hm]. unfold BClear.
  pose (Inv := λ c a, ∃ m', array_repr a m' ∧ length m' = length m ∧ AChunks a = AChunks (bwords b) ∧
    ∀ i, i < c * chunkSize → i < length m' → m' !! i = Some 0%N).
  destruct (for_range_invariant Inv clear_chunk (AChunks (bwords b)) (bwords b)) as (a' & -> & m' & Hr' & Hl & _ & Hz).
  - exists m. split_and!; [done|done|done|]. intros i Hi. lia.
  - intros c a Hc (m' & Hr' & Hl & Hn & Hz).
    destruct (clear_chunk_step a m' c Hr') as (a2 & m2 & E & Hr2 & Hl2 & Hn2 & Hz2); [lia|done|].
    exists a2. split; [done|]. exists m2. split_and!; [done|congruence|congruence|].
    replace (S c) with (c + 1) by lia. done.
  - cbn [mbind option_bind]. exists (mkBits a'), m'. destruct (AChunks_bounds (bwords b) m Hr) as [_ Hfit].
    assert (Hall : ∀ i w, m' !! i = Some w → w = 0%N).
    { intros i w Hi. pose proof (lookup_lt_Some _ _ _ Hi). rewrite Hz in Hi; [by injection Hi|lia|done]. }
    split; [done|]. split; [split; [done|]|].
    + apply Forall_forall. intros w (i & Hi)%list_elem_of_lookup_1. by rewrite (Hall i w Hi).
    + intros j. unfold mask_has. destruct (m' !! (j / 64)) eqn:E; [|done]. apply Hall in E as ->. apply N.bits_0.
Qed.

(** A Bits is a set of indexes: Set adds one, Unset removes one, Has
    tells, Next answers the least element at or above an index and ends, Clear
    empties the set, and none of them panics. *)
Theorem bits_refines_set b m :
  bits_repr b m →
  (∀ i, ∃ b' m', BSet b i = Some b' ∧ bits_repr b' m' ∧
     ∀ j, mask_has m' j = bool_decide (j = i) || mask_has m j) ∧
  (∀ i, ∃ b' m', BUnset b i = Some b' ∧ bits_repr b' m' ∧
     ∀ j, mask_has m' j = negb (bool_decide (j = i)) && mask_has m j) ∧
  (∀ i, BHas b i = Some (mask_has m i)) ∧
  (∀ i, ∃ answer, BNext b i = Some answer ∧ least_from m i answer) ∧
  (∃ b' m', BClear b = Some b' ∧ bits_repr b' m' ∧ ∀ j, mask_has m' j = false).
Proof.
  intros Hb. split_and!; intros; [by apply bits_set_repr|by apply bits_unset_repr|by apply bits_has_repr|
    by apply bits_next_repr|by eapply bits_clear_repr].
Qed.

Lemma bits_empty_repr : bits_repr emptyBits [].
Proof. split; [apply array_empty_repr|by constructor]. Qed.

Lemma bits_refines_set_witness :
  ∃ b' m', BSet emptyBits 70 = Some b' ∧ bits_repr b' m' ∧
    ∀ j, mask_has m' j = bool_decide (j = 70) || mask_has [] j.
Proof. apply (bits_refines_set emptyBits [] bits_empty_repr). Defined.
