(* ===== verification/LockState.v ===== *)
(** * The lock state of kernel/lockstate.go

    Which of a kernel's resources are locked right now, one bit per resource,
    and the test, lock, unlock and reserve operations on it.  [None] is an
    index out of range.  [Holds n s ls] says that [s] is the lock state of [n]
    resources on which exactly the lock sets [ls] are held; every operation is
    specified against it. *)

From S2P Require Import Prelude Words.

(** taskLocks of kernel/task.go: a task's lock masks and where its jobs run. *)
Record taskLocks := mkLocks {
  reads : list N;
  writes : list N;
  pinnedToMainThread : bool
}.

Definition locksNothing (l : taskLocks) : bool := bool_decide (length (writes l) = 0).

Record lockState := mkLockState {
  writeHeld : list N;
  readHeld : list N;
  readers : list Z;
  reserved : list N
}.

Definition words_for (resources : nat) : nat := (resources + 63) / 64.

Definition makeLockState (resources : nat) : lockState :=
  let words := words_for resources in
  mkLockState (replicate words 0%N) (replicate words 0%N)
    (replicate resources 0%Z) (replicate words 0%N).

Definition canLock (s : lockState) (locks : taskLocks) : option bool :=
  conflict ← for_range (length (writes locks)) (λ i conflict,
    wh ← writeHeld s !! i;
    rs ← reserved s !! i;
    r ← reads locks !! i;
    w ← writes locks !! i;
    rh ← readHeld s !! i;
    let conflict := N.lor conflict (N.land (N.lor wh rs) (N.lor r w)) in
    Some (N.lor conflict (N.land rh w))) 0%N;
  Some (bool_decide (conflict = 0%N)).

(** One word of [lock]'s loop. *)
Definition lock_word (locks : taskLocks) (i : nat) (s : lockState) : option lockState :=
  w ← writes locks !! i;
  r ← reads locks !! i;
  wh ← list_modify (writeHeld s) i (λ x, N.lor x w);
  rh ← list_modify (readHeld s) i (λ x, N.lor x r);
  rd ← for_bits r (λ bit rd,
         list_modify rd (i * 64 + N.to_nat bit) (λ c, i32 (c + 1))) (readers s);
  Some (mkLockState wh rh rd (reserved s)).

Definition lock (s : lockState) (locks : taskLocks) : option lockState :=
  for_range (length (writes locks)) (lock_word locks) s.

(** One read bit of [unlock]'s inner loop, on [readHeld] and [readers]. *)
Definition unlock_read_bit (i : nat) (bit : N) (st : list N * list Z) : option (list N * list Z) :=
  let '(rh, rd) := st in
  let index := i * 64 + N.to_nat bit in
  rd' ← list_modify rd index (λ c, i32 (c - 1));
  c ← rd' !! index;
  if decide (c = 0%Z) then
    rh' ← list_modify rh i (λ x, N.ldiff x (2 ^ bit));
    Some (rh', rd')
  else Some (rh, rd').

(** One word of [unlock]'s loop. *)
Definition unlock_word (locks : taskLocks) (i : nat) (s : lockState) : option lockState :=
  w ← writes locks !! i;
  r ← reads locks !! i;
  wh ← list_modify (writeHeld s) i (λ x, N.ldiff x w);
  '(rh, rd) ← for_bits r (unlock_read_bit i) (readHeld s, readers s);
  Some (mkLockState wh rh rd (reserved s)).

Definition unlock (s : lockState) (locks : taskLocks) : option lockState :=
  for_range (length (writes locks)) (unlock_word locks) s.

Definition reserve (s : lockState) (locks : taskLocks) : option lockState :=
  for_range (length (writes locks)) (λ i s,
    w ← writes locks !! i;
    rs ← list_modify (reserved s) i (λ x, N.lor x w);
    Some (mkLockState (writeHeld s) (readHeld s) (readers s) rs)) s.

Definition clearReservations (s : lockState) : lockState :=
  mkLockState (writeHeld s) (readHeld s) (readers s) (replicate (length (reserved s)) 0%N).

(** ** The abstract view *)

Definition reads_res (l : taskLocks) (r : nat) : bool := mask_has (reads l) r.
Definition writes_res (l : taskLocks) (r : nat) : bool := mask_has (writes l) r.
Definition touches (l : taskLocks) (r : nat) : bool := reads_res l r || writes_res l r.

(** Two lock sets may be held together: neither writes what the other
    touches. *)
Definition compatible (l1 l2 : taskLocks) : Prop :=
  ∀ r, (writes_res l1 r = true → touches l2 r = false) ∧
       (writes_res l2 r = true → touches l1 r = false).

(** A task's compiled masks, in a kernel of [n] resources. *)
Record wf_locks (n : nat) (l : taskLocks) : Prop := {
  wf_length : length (reads l) = length (writes l);
  wf_words : length (writes l) ≤ words_for n;
  wf_reads_bound : mask_bound (reads l);
  wf_writes_bound : mask_bound (writes l);
  wf_resources : ∀ r, touches l r = true → r < n
}.

Definition count_readers (ls : list taskLocks) (r : nat) : nat :=
  length (filter (λ l, reads_res l r = true) ls).

Record shape (n : nat) (s : lockState) : Prop := {
  shape_writeHeld : length (writeHeld s) = words_for n;
  shape_readHeld : length (readHeld s) = words_for n;
  shape_reserved : length (reserved s) = words_for n;
  shape_readers : length (readers s) = n;
  shape_bounds : mask_bound (writeHeld s) ∧ mask_bound (readHeld s) ∧ mask_bound (reserved s)
}.

Record Holds (n : nat) (s : lockState) (ls : list taskLocks) : Prop := {
  holds_shape : shape n s;
  holds_writes : ∀ r, mask_has (writeHeld s) r = existsb (λ l, writes_res l r) ls;
  holds_readers : ∀ r, r < n → readers s !! r = Some (Z.of_nat (count_readers ls r));
  holds_reads : ∀ r, mask_has (readHeld s) r = existsb (λ l, reads_res l r) ls
}.

Definition conflicts (s : lockState) (l : taskLocks) (r : nat) : bool :=
  ((mask_has (writeHeld s) r || mask_has (reserved s) r) && touches l r)
  || (mask_has (readHeld s) r && writes_res l r).

(** ** Lookups in well-formed states and locks *)

Lemma words_for_bound n r : r < n → r / 64 < words_for n.
Proof.
  intros. unfold words_for. apply Nat.Div0.div_lt_upper_bound.
  pose proof (Nat.div_mod_eq (n + 63) 64). pose proof (Nat.mod_upper_bound (n + 63) 64). lia.
Qed.

Lemma lookup_word (m : list N) i : i < length m → ∃ w, m !! i = Some w.
Proof. apply lookup_lt_is_Some. Qed.

Lemma wf_reads_word n l i :
  wf_locks n l → i < length (writes l) → ∃ w, reads l !! i = Some w ∧ word_bound w.
Proof.
  intros Hwf Hi. destruct (lookup_word (reads l) i) as [w Hw].
  { by rewrite (wf_length _ _ Hwf). }
  exists w. split; [done|]. eapply mask_bound_lookup; [apply (wf_reads_bound _ _ Hwf)|done].
Qed.

Lemma wf_writes_word n l i :
  wf_locks n l → i < length (writes l) → ∃ w, writes l !! i = Some w ∧ word_bound w.
Proof.
  intros Hwf Hi. destruct (lookup_word (writes l) i Hi) as [w Hw].
  exists w. split; [done|]. eapply mask_bound_lookup; [apply (wf_writes_bound _ _ Hwf)|done].
Qed.

(** A resource of the first [length (writes l)] words, or none of [l]'s. *)
Lemma wf_beyond n l r :
  wf_locks n l → length (writes l) ≤ r / 64 → reads_res l r = false ∧ writes_res l r = false.
Proof.
  intros Hwf Hr. unfold reads_res, writes_res. pose proof (mask_index r).
  split; apply mask_has_beyond; rewrite ?(wf_length _ _ Hwf); lia.
Qed.

Lemma wf_bit_resource n l i w b :
  wf_locks n l → reads l !! i = Some w → N.testbit w b = true →
  i * 64 + N.to_nat b < n ∧ (b < 64)%N.
Proof.
  intros Hwf Hi Hb. assert (Hb64 : (b < 64)%N).
  { destruct (decide (64 <= b)%N) as [Hge|]; [|lia].
    rewrite testbit_above in Hb; [done| |done].
    by eapply mask_bound_lookup; [apply (wf_reads_bound _ _ Hwf)|]. }
  split; [|done]. apply (wf_resources _ _ Hwf). unfold touches, reads_res.
  rewrite (mask_has_word _ _ _ w) by (done || lia). by rewrite N2Nat.id, Hb.
Qed.

(** ** canLock *)

Definition word_conflict (wh rs rh r w : N) : N :=
  N.lor (N.land (N.lor wh rs) (N.lor r w)) (N.land rh w).

Lemma word_conflict_testbit n s l i wh rs rh r w b :
  shape n s → wf_locks n l → b < 64 →
  writeHeld s !! i = Some wh → reserved s !! i = Some rs → readHeld s !! i = Some rh →
  reads l !! i = Some r → writes l !! i = Some w →
  N.testbit (word_conflict wh rs rh r w) (N.of_nat b) = conflicts s l (i * 64 + b).
Proof.
  intros _ _ Hb Ewh Ers Erh Er Ew. unfold word_conflict, conflicts, touches, reads_res, writes_res.
  rewrite !N.lor_spec, !N.land_spec, !N.lor_spec.
  rewrite (mask_has_word (writeHeld s) i b wh), (mask_has_word (reserved s) i b rs),
    (mask_has_word (readHeld s) i b rh), (mask_has_word (reads l) i b r),
    (mask_has_word (writes l) i b w) by done. done.
Qed.

Lemma word_zero_bits w :
  word_bound w → w = 0%N ↔ ∀ b, b < 64 → N.testbit w (N.of_nat b) = false.
Proof.
  intros Hw. rewrite word_zero_iff. split; [auto|]. intros H k.
  destruct (decide (64 <= k)%N); [by apply testbit_above|].
  rewrite <- (N2Nat.id k). apply H. lia.
Qed.

Lemma word_bound_land a b : word_bound a → word_bound (N.land a b).
Proof.
  intros Ha. apply word_bound_bits. intros k Hk. by rewrite N.land_spec, (testbit_above a).
Qed.

Lemma canLock_spec n s l :
  shape n s → wf_locks n l →
  ∃ b, canLock s l = Some b ∧ (b = true ↔ ∀ r, conflicts s l r = false).
Proof.
  intros Hs Hwf. unfold canLock.
  match goal with |- context [for_range _ ?f _] => destruct (for_range_invariant
    (λ i c, c = 0%N ↔ ∀ r, r / 64 < i → conflicts s l r = false) f
    (length (writes l)) 0%N) as (c & -> & Hc) end.
  - split; [lia|done].
  - intros i c Hi Hinv.
    assert (i < words_for n) by (pose proof (wf_words _ _ Hwf); lia).
    destruct (lookup_word (writeHeld s) i) as [wh Ewh]; [by rewrite (shape_writeHeld _ _ Hs)|].
    destruct (lookup_word (reserved s) i) as [rs Ers]; [by rewrite (shape_reserved _ _ Hs)|].
    destruct (lookup_word (readHeld s) i) as [rh Erh]; [by rewrite (shape_readHeld _ _ Hs)|].
    destruct (wf_reads_word n l i) as (r & Er & _); [done..|].
    destruct (wf_writes_word n l i) as (w & Ew & _); [done..|].
    rewrite Ewh, Ers, Er, Ew, Erh. simpl. eexists. split; [done|].
    assert (Hzero : word_conflict wh rs rh r w = 0%N ↔
      ∀ b, b < 64 → conflicts s l (i * 64 + b) = false).
    { destruct (shape_bounds _ _ Hs) as (? & ? & ?). rewrite word_zero_bits.
      - split; intros Hall b Hb.
        + rewrite <- (word_conflict_testbit n s l i wh rs rh r w); auto.
        + rewrite (word_conflict_testbit n s l i); auto.
      - unfold word_conflict. apply word_bound_lor; apply word_bound_land; eauto with cog. }
    rewrite !N.lor_eq_0_iff. unfold word_conflict in Hzero. rewrite N.lor_eq_0_iff in Hzero.
    rewrite <- (assoc and), Hzero, Hinv. split.
    + intros [Hlow Hi'] r' Hr'. destruct (decide (r' / 64 = i)) as [E|]; [|apply Hlow; lia].
      rewrite (mask_index r'), E. apply Hi', Nat.mod_upper_bound. done.
    + intros Hall. split; [intros; apply Hall; lia|]. intros b Hb. apply Hall.
      rewrite mask_word_of by done. lia.
  - simpl. eexists. split; [done|]. rewrite bool_decide_eq_true, Hc. split; [|auto].
    intros Hall r. destruct (decide (r / 64 < length (writes l))) as [|Hr]; [by apply Hall|].
    destruct (wf_beyond n l r Hwf) as [E1 E2]; [lia|].
    unfold conflicts, touches. by rewrite E1, E2, !andb_false_r.
Qed.

(** ** lock, unlock and reserve *)

Lemma list_modify_lookup {A} (l : list A) j f x :
  l !! j = Some x →
  ∃ l', list_modify l j f = Some l' ∧ length l' = length l ∧
    ∀ r, l' !! r = if decide (r = j) then Some (f x) else l !! r.
Proof.
  intros Hj. exists (<[j:=f x]> l). split; [by apply list_modify_Some|].
  split; [apply length_insert|]. intros r.
  pose proof (lookup_lt_Some _ _ _ Hj). rewrite lookup_insert_decide by done.
  repeat case_decide; congruence.
Qed.

(** [l[i*64+b] = f(l[i*64+b])] for every bit [b] of a word. *)
Lemma modify_bits_spec i w (f : Z → Z) (rd : list Z) :
  word_bound w →
  (∀ b, N.testbit w b = true → i * 64 + N.to_nat b < length rd) →
  ∃ rd', for_bits w (λ bit rd, list_modify rd (i * 64 + N.to_nat bit) f) rd = Some rd' ∧
    length rd' = length rd ∧
    ∀ r, rd' !! r = if decide (in_word i (bit_list w) r) then f <$> rd !! r else rd !! r.
Proof.
  intros Hw Hrange.
  pose (Inv := λ d (rd' : list Z), length rd' = length rd ∧
    ∀ r, rd' !! r = if decide (in_word i d r) then f <$> rd !! r else rd !! r).
  apply (for_bits_invariant Inv); [done| |]; unfold Inv; clear Inv.
  - split; [done|]. intros r. rewrite decide_False; [done|]. by intros [_ ?%elem_of_nil].
  - intros d b rd' Hfresh Hb Hb64 [Hlen Hrd].
    destruct (lookup_lt_is_Some_2 rd (i * 64 + N.to_nat b)) as [c Hc]; [by apply Hrange|].
    destruct (list_modify_lookup rd' (i * 64 + N.to_nat b) f c) as (rd'' & -> & Hlen' & Hrd').
    { rewrite Hrd, decide_False by (by apply in_word_fresh). done. }
    exists rd''. split; [done|]. split; [congruence|]. intros r. rewrite Hrd', Hrd.
    pose proof (in_word_snoc i d b r Hb64) as Hsnoc.
    destruct (decide (r = i * 64 + N.to_nat b)) as [->|].
    + rewrite Hc. rewrite decide_True by tauto. done.
    + destruct (decide (in_word i d r)); [rewrite decide_True by tauto|rewrite decide_False by tauto];
        done.
Qed.

(** What [lock] leaves, resource by resource, after the first [i] words. *)
Record locked_upto n s l (i : nat) (s' : lockState) : Prop := {
  lu_shape : shape n s';
  lu_reserved : reserved s' = reserved s;
  lu_writes r : mask_has (writeHeld s') r =
    mask_has (writeHeld s) r || bool_decide (r / 64 < i) && writes_res l r;
  lu_reads r : mask_has (readHeld s') r =
    mask_has (readHeld s) r || bool_decide (r / 64 < i) && reads_res l r;
  lu_readers r : readers s' !! r =
    if bool_decide (r / 64 < i) && reads_res l r then (λ c, i32 (c + 1)) <$> readers s !! r
    else readers s !! r
}.

Lemma word_lookup (m : list N) r w :
  m !! (r / 64) = Some w → mask_has m r = N.testbit w (N.of_nat (r mod 64)).
Proof. intros E. unfold mask_has. by rewrite E. Qed.

Lemma bool_decide_lt_succ (a i : nat) :
  bool_decide (a < S i) = bool_decide (a < i) || bool_decide (a = i).
Proof. repeat case_bool_decide; simpl; try done; lia. Qed.

Lemma modify_word_spec (m : list N) i w (f : N → N → N) (fb : bool → bool → bool) :
  i < length m → mask_bound m → word_bound w →
  (∀ a, word_bound a → word_bound (f a w)) →
  (∀ a k, N.testbit (f a w) k = fb (N.testbit a k) (N.testbit w k)) →
  ∃ m', list_modify m i (λ x, f x w) = Some m' ∧ length m' = length m ∧ mask_bound m' ∧
    ∀ r, mask_has m' r =
      if decide (r / 64 = i) then fb (mask_has m r) (N.testbit w (N.of_nat (r mod 64)))
      else mask_has m r.
Proof.
  intros Hi Hm Hw Hf Hfb. destruct (lookup_word m i Hi) as [x Hx].
  exists (<[i:=f x w]> m). split; [by apply (list_modify_Some m i x (λ x, f x w))|].
  split; [apply length_insert|]. split; [eauto with cog|].
  intros r. rewrite mask_has_insert by done. case_decide as E; [|done].
  rewrite Hfb. f_equal. symmetry. apply word_lookup. by rewrite E.
Qed.

Lemma lock_step n s l i s' :
  wf_locks n l → i < length (writes l) → locked_upto n s l i s' →
  ∃ s'', lock_word l i s' = Some s'' ∧ locked_upto n s l (S i) s''.
Proof.
  intros Hwf Hi [[Hwh Hrh Hrs Hrd (Bwh & Brh & Brs)] Hres Hw Hr Hc]. unfold lock_word.
  assert (Hiw : i < words_for n) by (pose proof (wf_words _ _ Hwf); lia).
  destruct (wf_writes_word n l i) as (w & Ew & Bw); [done..|].
  destruct (wf_reads_word n l i) as (r & Er & Br); [done..|].
  rewrite Ew, Er. simpl.
  destruct (modify_word_spec (writeHeld s') i w N.lor orb) as (wh & -> & Lwh & Bwh' & Hwh');
    [lia|done..|auto with cog|intros; apply N.lor_spec|]. simpl.
  destruct (modify_word_spec (readHeld s') i r N.lor orb) as (rh & -> & Lrh & Brh' & Hrh');
    [lia|done..|auto with cog|intros; apply N.lor_spec|]. simpl.
  destruct (modify_bits_spec i r (λ c, i32 (c + 1)) (readers s')) as (rd & -> & Lrd & Hrd');
    [done|intros b Hb; rewrite Hrd; by eapply wf_bit_resource|]. simpl.
  eexists. split; [done|]. split; simpl.
  - split; simpl; [congruence..|done].
  - done.
  - intros k. rewrite Hwh', bool_decide_lt_succ, Hw. case_decide as E.
    + rewrite (bool_decide_true (_ = i)), (bool_decide_false (_ < i)) by lia. simpl.
      rewrite orb_false_r. f_equal. symmetry. apply word_lookup. by rewrite E.
    + by rewrite (bool_decide_false (_ = i)), orb_false_r by done.
  - intros k. rewrite Hrh', bool_decide_lt_succ, Hr. case_decide as E.
    + rewrite (bool_decide_true (_ = i)), (bool_decide_false (_ < i)) by lia. simpl.
      rewrite orb_false_r. f_equal. symmetry. apply word_lookup. by rewrite E.
    + by rewrite (bool_decide_false (_ = i)), orb_false_r by done.
  - intros k. rewrite Hrd', bool_decide_lt_succ, Hc.
    pose proof (in_word_bits i r k (reads l) Er Br) as Hin.
    destruct (decide (in_word i (bit_list r) k)) as [Hk|Hk].
    + apply Hin in Hk as [<- Hk]. unfold reads_res. rewrite Hk.
      by rewrite (bool_decide_false (_ < _)), (bool_decide_true (_ = _)) by lia.
    + destruct (decide (k / 64 = i)) as [E|E].
      * unfold reads_res. destruct (mask_has (reads l) k); [tauto|]. by rewrite !andb_false_r.
      * by rewrite (bool_decide_false (_ = i)), orb_false_r by done.
Qed.

Lemma lock_spec n s l :
  shape n s → wf_locks n l →
  ∃ s', lock s l = Some s' ∧ locked_upto n s l (length (writes l)) s'.
Proof.
  intros Hs Hwf. unfold lock.
  apply (for_range_invariant (locked_upto n s l)); [|intros; by apply lock_step].
  split; [done|done|intros r..]; rewrite bool_decide_false by lia; simpl; by rewrite ?orb_false_r.
Qed.

(** Whether one more unlock of read resource [r] brings its readers to 0. *)
Definition last_reader (rd : list Z) (r : nat) : bool :=
  match rd !! r with Some c => bool_decide (i32 (c - 1) = 0%Z) | None => false end.

Record unlocked_bits i (rh : list N) (rd : list Z) (d : list N) (st : list N * list Z) : Prop := {
  ub_rh_length : length st.1 = length rh;
  ub_rh_bound : mask_bound st.1;
  ub_rd_length : length st.2 = length rd;
  ub_rd r : st.2 !! r = if decide (in_word i d r) then (λ c, i32 (c - 1)) <$> rd !! r else rd !! r;
  ub_rh r : mask_has st.1 r = mask_has rh r && negb (bool_decide (in_word i d r) && last_reader rd r)
}.

Lemma unlock_read_bit_spec i rh rd d b st :
  i < length rh → i * 64 + N.to_nat b < length rd → (b < 64)%N → b ∉ d →
  unlocked_bits i rh rd d st →
  ∃ st', unlock_read_bit i b st = Some st' ∧ unlocked_bits i rh rd (d ++ [b]) st'.
Proof.
  intros Hi Hr Hb Hfresh [Lrh Brh Lrd Hrd Hrh]. destruct st as [rh1 rd1]; simpl in *.
  destruct (lookup_lt_is_Some_2 rd _ Hr) as [c Hc].
  destruct (list_modify_lookup rd1 (i * 64 + N.to_nat b) (λ c, i32 (c - 1)) c)
    as (rd2 & -> & Lrd2 & Hrd2).
  { rewrite Hrd, decide_False by (by apply in_word_fresh). done. }
  simpl. rewrite (Hrd2 (i * 64 + N.to_nat b)), decide_True by done. simpl.
  pose proof (λ r, in_word_snoc i d b r Hb) as Hsnoc.
  assert (Hrd' : ∀ r, rd2 !! r = if decide (in_word i (d ++ [b]) r)
    then (λ c, i32 (c - 1)) <$> rd !! r else rd !! r).
  { intros r. rewrite Hrd2, Hrd. specialize (Hsnoc r).
    destruct (decide (r = i * 64 + N.to_nat b)) as [->|].
    - rewrite Hc, decide_True by tauto. done.
    - destruct (decide (in_word i d r)); [rewrite decide_True by tauto|rewrite decide_False by tauto];
        done. }
  assert (Hlast : last_reader rd (i * 64 + N.to_nat b) = bool_decide (i32 (c - 1) = 0%Z))
    by (unfold last_reader; by rewrite Hc).
  assert (Hsnocb : ∀ r, bool_decide (in_word i (d ++ [b]) r) =
    bool_decide (in_word i d r) || bool_decide (r = i * 64 + N.to_nat b)).
  { intros r. specialize (Hsnoc r). repeat case_bool_decide; simpl; tauto. }
  destruct (decide (i32 (c - 1) = 0%Z)) as [Ez|Ez].
  - destruct (modify_word_spec rh1 i (2 ^ b) N.ldiff (λ x y, x && negb y))
      as (rh2 & -> & Lrh2 & Brh2 & Hrh2);
      [lia|done|auto with cog|auto with cog|intros; apply N.ldiff_spec|]. simpl.
    eexists. split; [done|]. split; simpl; [congruence|done|congruence|done|].
    intros r. rewrite Hrh2, Hsnocb, Hrh. destruct (decide (r / 64 = i)) as [E|E].
    + rewrite testbit_pow2. destruct (decide (r = i * 64 + N.to_nat b)) as [->|Hne].
      * rewrite mask_bit_of by lia.
        rewrite (bool_decide_true (b = _)), (bool_decide_true (_ = i * 64 + _)) by lia.
        rewrite Hlast, (bool_decide_true (i32 _ = _)), orb_true_r by done. simpl.
        by rewrite !andb_false_r.
      * rewrite (bool_decide_false (_ = N.of_nat _)), (bool_decide_false (r = _)); [|done|].
        -- by rewrite orb_false_r, andb_true_r.
        -- intros ->. rewrite Nat2N.id, <- E in Hne. by rewrite <- mask_index in Hne.
    + rewrite (bool_decide_false (r = _)); [by rewrite orb_false_r|].
      intros ->. by rewrite mask_word_of in E by lia.
  - eexists. split; [done|]. split; simpl; [done|done|congruence|done|].
    intros r. rewrite Hsnocb, Hrh. destruct (decide (r = i * 64 + N.to_nat b)) as [->|].
    + rewrite Hlast, (bool_decide_false (_ = 0%Z)) by done. by rewrite !andb_false_r.
    + by rewrite (bool_decide_false (r = _)), orb_false_r by done.
Qed.

Lemma unlock_bits_spec i w rh rd :
  word_bound w → i < length rh → mask_bound rh →
  (∀ b, N.testbit w b = true → i * 64 + N.to_nat b < length rd) →
  ∃ st, for_bits w (unlock_read_bit i) (rh, rd) = Some st ∧
    unlocked_bits i rh rd (bit_list w) st.
Proof.
  intros Hw Hi Hbound Hrange. apply for_bits_invariant; [done| |].
  - split; simpl; [done..| |]; intros r.
    + rewrite decide_False; [done|]. by intros [_ ?%elem_of_nil].
    + rewrite bool_decide_false; [by rewrite andb_true_r|]. by intros [_ ?%elem_of_nil].
  - intros. apply unlock_read_bit_spec; auto.
Qed.

Record unlocked_upto n s l (i : nat) (s' : lockState) : Prop := {
  uu_shape : shape n s';
  uu_reserved : reserved s' = reserved s;
  uu_writes r : mask_has (writeHeld s') r =
    mask_has (writeHeld s) r && negb (bool_decide (r / 64 < i) && writes_res l r);
  uu_reads r : mask_has (readHeld s') r =
    mask_has (readHeld s) r &&
      negb (bool_decide (r / 64 < i) && reads_res l r && last_reader (readers s) r);
  uu_readers r : readers s' !! r =
    if bool_decide (r / 64 < i) && reads_res l r then (λ c, i32 (c - 1)) <$> readers s !! r
    else readers s !! r
}.

Lemma in_word_reads i r k l :
  reads l !! i = Some r → word_bound r →
  bool_decide (in_word i (bit_list r) k) = bool_decide (k / 64 = i) && reads_res l k.
Proof.
  intros Er Br. pose proof (in_word_bits i r k (reads l) Er Br) as Hin.
  unfold reads_res. by rewrite eq_iff_eq_true, andb_true_iff, !bool_decide_eq_true.
Qed.

Lemma unlock_step n s l i s' :
  wf_locks n l → i < length (writes l) → unlocked_upto n s l i s' →
  ∃ s'', unlock_word l i s' = Some s'' ∧ unlocked_upto n s l (S i) s''.
Proof.
  intros Hwf Hi [[Hwh Hrh Hrs Hrd (Bwh & Brh & Brs)] Hres Hw Hr Hc]. unfold unlock_word.
  assert (Hiw : i < words_for n) by (pose proof (wf_words _ _ Hwf); lia).
  destruct (wf_writes_word n l i) as (w & Ew & Bw); [done..|].
  destruct (wf_reads_word n l i) as (r & Er & Br); [done..|].
  rewrite Ew, Er. simpl.
  destruct (modify_word_spec (writeHeld s') i w N.ldiff (λ x y, x && negb y))
    as (wh & -> & Lwh & Bwh' & Hwh'); [lia|done..|auto with cog|intros; apply N.ldiff_spec|]. simpl.
  destruct (unlock_bits_spec i r (readHeld s') (readers s'))
    as ([rh rd] & -> & [Lrh Brh' Lrd Hrd' Hrh']);
    [done|lia|done|intros b Hb; rewrite Hrd; by eapply wf_bit_resource|]. simpl in *.
  assert (Hdec : ∀ k, k / 64 = i → last_reader (readers s') k = last_reader (readers s) k).
  { intros k <-. unfold last_reader. by rewrite Hc, bool_decide_false by lia. }
  eexists. split; [done|]. split; simpl.
  - split; simpl; [congruence..|done].
  - done.
  - intros k. rewrite Hwh', bool_decide_lt_succ, Hw. case_decide as E.
    + rewrite (bool_decide_true (_ = i)), (bool_decide_false (_ < i)) by lia. simpl.
      rewrite andb_true_r. do 2 f_equal. symmetry. apply word_lookup. by rewrite E.
    + by rewrite (bool_decide_false (_ = i)), orb_false_r by done.
  - intros k. rewrite Hrh', (in_word_reads _ _ _ l), bool_decide_lt_succ, Hr by done.
    destruct (decide (k / 64 = i)) as [E|E].
    + rewrite (bool_decide_true (_ = i)), (bool_decide_false (_ < i)) by lia. simpl.
      by rewrite andb_true_r, Hdec by done.
    + by rewrite (bool_decide_false (_ = i)), orb_false_r, andb_true_r by done.
  - intros k. rewrite Hrd', bool_decide_lt_succ, Hc.
    pose proof (in_word_bits i r k (reads l) Er Br) as Hin.
    destruct (decide (in_word i (bit_list r) k)) as [Hk|Hk].
    + apply Hin in Hk as [<- Hk]. unfold reads_res. rewrite Hk.
      by rewrite (bool_decide_false (_ < _)), (bool_decide_true (_ = _)) by lia.
    + destruct (decide (k / 64 = i)) as [E|E].
      * unfold reads_res. destruct (mask_has (reads l) k); [tauto|]. by rewrite !andb_false_r.
      * by rewrite (bool_decide_false (_ = i)), orb_false_r by done.
Qed.

Lemma unlock_spec n s l :
  shape n s → wf_locks n l →
  ∃ s', unlock s l = Some s' ∧ unlocked_upto n s l (length (writes l)) s'.
Proof.
  intros Hs Hwf. unfold unlock.
  apply (for_range_invariant (unlocked_upto n s l)); [|intros; by apply unlock_step].
  split; [done|done|intros r..]; rewrite bool_decide_false by lia; simpl; by rewrite ?andb_true_r.
Qed.

Lemma reserve_spec n s l :
  shape n s → wf_locks n l →
  ∃ s', reserve s l = Some s' ∧ shape n s' ∧ writeHeld s' = writeHeld s ∧
    readHeld s' = readHeld s ∧ readers s' = readers s ∧
    ∀ r, mask_has (reserved s') r = mask_has (reserved s) r || writes_res l r.
Proof.
  intros Hs Hwf. unfold reserve.
  match goal with |- context [for_range _ ?f _] => destruct (for_range_invariant
    (λ i s', shape n s' ∧ writeHeld s' = writeHeld s ∧ readHeld s' = readHeld s ∧
       readers s' = readers s ∧
       ∀ r, mask_has (reserved s') r =
         mask_has (reserved s) r || bool_decide (r / 64 < i) && writes_res l r) f
    (length (writes l)) s) as (s' & -> & Hs' & ? & ? & ? & Hres) end.
  - split_and!; [done..|]. intros r. by rewrite bool_decide_false, orb_false_r by lia.
  - intros i s' Hi ([Hwh Hrh Hrs Hrd (Bwh & Brh & Brs)] & ? & ? & ? & Hres).
    assert (Hiw : i < words_for n) by (pose proof (wf_words _ _ Hwf); lia).
    destruct (wf_writes_word n l i) as (w & Ew & Bw); [done..|]. rewrite Ew. simpl.
    destruct (modify_word_spec (reserved s') i w N.lor orb) as (rs & -> & Lrs & Brs' & Hrs');
      [lia|done..|auto with cog|intros; apply N.lor_spec|]. simpl.
    eexists. split; [done|]. simpl. split_and!; [split; simpl; [done..|congruence|done|done]|done..|].
    intros k. rewrite Hrs', bool_decide_lt_succ, Hres. case_decide as E.
    + rewrite (bool_decide_true (_ = i)), (bool_decide_false (_ < i)) by lia. simpl.
      rewrite orb_false_r. f_equal. symmetry. apply word_lookup. by rewrite E.
    + by rewrite (bool_decide_false (_ = i)), orb_false_r by done.
  - exists s'. split_and!; [done..|]. intros r. rewrite Hres. f_equal. case_bool_decide; [done|].
    symmetry. apply (wf_beyond n l r Hwf). lia.
Qed.

(** ** Holding a list of lock sets *)

#[export] Instance compatible_symm : Symmetric compatible.
Proof. intros l1 l2 H r. destruct (H r). auto. Qed.

(** Any two of [ls] may be held together. *)
Fixpoint all_compatible (ls : list taskLocks) : Prop :=
  match ls with
  | [] => True
  | l :: ls' => Forall (compatible l) ls' ∧ all_compatible ls'
  end.

#[export] Instance all_compatible_perm : Proper ((≡ₚ) ==> iff) all_compatible.
Proof.
  intros l1 l2 Hp. induction Hp as [|l l1 l2 Hp IH|a b l|l1 l2 l3 H1 IH1 H2 IH2]; simpl.
  - done.
  - by rewrite IH, Hp.
  - rewrite !Forall_cons. split; intros ([] & ? & ?); split_and!; (done || by symmetry).
  - by rewrite IH1.
Qed.

Lemma all_compatible_app ls1 ls2 :
  all_compatible (ls1 ++ ls2) ↔
  all_compatible ls1 ∧ all_compatible ls2 ∧ Forall (λ l, Forall (compatible l) ls2) ls1.
Proof.
  induction ls1 as [|l ls1 IH]; simpl; [rewrite Forall_nil; tauto|].
  rewrite Forall_app, Forall_cons, IH. tauto.
Qed.

Lemma existsb_perm {A} (f : A → bool) l1 l2 : l1 ≡ₚ l2 → existsb f l1 = existsb f l2.
Proof.
  induction 1 as [|x l1 l2 _ IH|x y l|l1 l2 l3 _ IH1 _ IH2]; simpl; [done|by rewrite IH| |congruence].
  by rewrite !orb_assoc, (orb_comm (f y)).
Qed.

#[export] Instance Holds_perm n s : Proper ((≡ₚ) ==> iff) (Holds n s).
Proof.
  assert (∀ l1 l2, l1 ≡ₚ l2 → Holds n s l1 → Holds n s l2) as Himp.
  { intros l1 l2 Hp [Hs Hw Hc Hr]. split; [done| | |]; intros r.
    - by rewrite Hw, (existsb_perm _ l1 l2).
    - intros Hrn. rewrite Hc by done. unfold count_readers. by rewrite Hp.
    - by rewrite Hr, (existsb_perm _ l1 l2). }
  intros l1 l2 Hp. split; by apply Himp.
Qed.

Lemma count_readers_cons l ls r :
  count_readers (l :: ls) r = (if reads_res l r then 1 else 0) + count_readers ls r.
Proof. unfold count_readers. rewrite filter_cons. by destruct (reads_res l r). Qed.

Lemma count_readers_le ls r : count_readers ls r ≤ length ls.
Proof. unfold count_readers. apply length_filter. Qed.

Lemma count_readers_zero ls r : count_readers ls r = 0 ↔ existsb (λ l, reads_res l r) ls = false.
Proof.
  induction ls as [|l ls IH]; [done|]. rewrite count_readers_cons. simpl.
  destruct (reads_res l r); simpl; [split; [lia|done]|done].
Qed.

Lemma compatible_conflict l1 l2 r :
  compatible l1 l2 → writes_res l1 r = true → writes_res l2 r = false ∧ reads_res l2 r = false.
Proof.
  intros Hc Hw. destruct (Hc r) as [H _]. specialize (H Hw). unfold touches in H.
  apply orb_false_iff in H. tauto.
Qed.

Lemma wf_beyond_resources n l r : wf_locks n l → n ≤ r → reads_res l r = false ∧ writes_res l r = false.
Proof.
  intros Hwf Hr. pose proof (wf_resources _ _ Hwf r) as H. unfold touches in H.
  destruct (reads_res l r), (writes_res l r); simpl in H; try done; specialize (H eq_refl); lia.
Qed.

Lemma makeLockState_holds n : Holds n (makeLockState n) [].
Proof.
  split; simpl.
  - split; simpl; [by rewrite length_replicate..|eauto with cog].
  - intros r. apply mask_has_replicate.
  - intros r Hr. by apply lookup_replicate_2.
  - intros r. apply mask_has_replicate.
Qed.

(** The readers of a resource that fit an [int32]. *)
Definition max_holders : nat := Z.to_nat (2 ^ 31 - 1).

Lemma max_holders_lt k : (Z.of_nat k < 2 ^ 31 - 1)%Z → k < max_holders.
Proof. unfold max_holders. lia. Qed.

Lemma holds_lock n s ls l :
  Holds n s ls → wf_locks n l → length ls < max_holders →
  ∃ s', lock s l = Some s' ∧ Holds n s' (l :: ls) ∧ reserved s' = reserved s.
Proof.
  intros [Hs Hw Hc Hr] Hwf Hmax.
  destruct (lock_spec n s l Hs Hwf) as (s' & Hlock & [Hs' Hres Hw' Hr' Hc']).
  exists s'. split; [done|]. split; [|done].
  assert (Hupto : ∀ r, bool_decide (r / 64 < length (writes l)) && writes_res l r = writes_res l r ∧
    bool_decide (r / 64 < length (writes l)) && reads_res l r = reads_res l r).
  { intros r. case_bool_decide; [done|]. destruct (wf_beyond n l r Hwf) as [-> ->]; [lia|done]. }
  split; [done| | |]; intros r.
  - rewrite Hw', Hw, (proj1 (Hupto r)). simpl. apply orb_comm.
  - intros Hrn. rewrite Hc', (proj2 (Hupto r)), Hc, count_readers_cons by done.
    pose proof (count_readers_le ls r). unfold max_holders in Hmax.
    destruct (reads_res l r); [|done]. simpl. f_equal. rewrite i32_small; lia.
  - rewrite Hr', Hr, (proj2 (Hupto r)). simpl. apply orb_comm.
Qed.

Lemma holds_unlock n s ls l :
  Holds n s (l :: ls) → wf_locks n l → Forall (compatible l) ls → length ls < max_holders →
  ∃ s', unlock s l = Some s' ∧ Holds n s' ls ∧ reserved s' = reserved s.
Proof.
  intros [Hs Hw Hc Hr] Hwf Hcompat Hmax.
  destruct (unlock_spec n s l Hs Hwf) as (s' & Hunlock & [Hs' Hres Hw' Hr' Hc']).
  exists s'. split; [done|]. split; [|done].
  assert (Hupto : ∀ r, bool_decide (r / 64 < length (writes l)) && writes_res l r = writes_res l r ∧
    bool_decide (r / 64 < length (writes l)) && reads_res l r = reads_res l r).
  { intros r. case_bool_decide; [done|]. destruct (wf_beyond n l r Hwf) as [-> ->]; [lia|done]. }
  assert (Hdec : ∀ r, i32 (Z.of_nat (count_readers (l :: ls) r) - 1) =
    (Z.of_nat (count_readers (l :: ls) r) - 1)%Z).
  { intros r. pose proof (count_readers_le (l :: ls) r). simpl in *. unfold max_holders in Hmax.
    apply i32_small. lia. }
  split; [done| | |]; intros r.
  - rewrite Hw', Hw, (proj1 (Hupto r)). simpl.
    destruct (writes_res l r) eqn:E; [|by rewrite andb_true_r]. simpl. symmetry.
    apply not_true_iff_false. intros (l' & Hin & Hl')%existsb_exists.
    apply list_elem_of_In in Hin. rewrite Forall_forall in Hcompat.
    apply Hcompat in Hin. by destruct (compatible_conflict l l' r) as [? _]; [| |congruence].
  - intros Hrn. rewrite Hc', (proj2 (Hupto r)), Hc by done. simpl. rewrite Hdec, count_readers_cons.
    destruct (reads_res l r); simpl; f_equal; lia.
  - rewrite Hr', Hr, (proj2 (Hupto r)). simpl.
    destruct (reads_res l r) eqn:E; [|by rewrite andb_true_r]. simpl.
    destruct (decide (r < n)) as [Hrn|Hrn];
      [|destruct (wf_beyond_resources n l r Hwf); [lia|congruence]].
    unfold last_reader. rewrite Hc by done. rewrite Hdec, count_readers_cons, E.
    pose proof (count_readers_zero ls r). case_bool_decide; simpl.
    + symmetry. apply count_readers_zero. lia.
    + destruct (existsb _ ls); [done|]. lia.
Qed.

Lemma holds_reserve n s ls l :
  Holds n s ls → wf_locks n l →
  ∃ s', reserve s l = Some s' ∧ Holds n s' ls ∧
    ∀ r, mask_has (reserved s') r = mask_has (reserved s) r || writes_res l r.
Proof.
  intros [Hs Hw Hc Hr] Hwf.
  destruct (reserve_spec n s l Hs Hwf) as (s' & ? & ? & E1 & E2 & E3 & ?).
  exists s'. split; [done|]. split; [|done].
  split; [done|..]; by rewrite ?E1, ?E2, ?E3.
Qed.

Lemma holds_clearReservations n s ls :
  Holds n s ls → Holds n (clearReservations s) ls ∧
  ∀ r, mask_has (reserved (clearReservations s)) r = false.
Proof.
  intros [[] Hw Hc Hr]. split; [|intros r; apply mask_has_replicate].
  split; [split; simpl; [done..|by rewrite length_replicate|done|]|done..].
  destruct shape_bounds0 as (? & ? & ?). eauto with cog.
Qed.

(** What stands in the way of [l]: a holder it is not compatible with, or a
    resource reserved for another. *)
Lemma holds_canLock n s ls l :
  Holds n s ls → wf_locks n l →
  ∃ b, canLock s l = Some b ∧
    (b = true ↔ Forall (compatible l) ls ∧
       ∀ r, mask_has (reserved s) r = true → touches l r = false).
Proof.
  intros [Hs Hw Hc Hr] Hwf. destruct (canLock_spec n s l Hs Hwf) as (b & -> & Hb).
  exists b. split; [done|]. rewrite Hb. clear b Hb. unfold conflicts. split.
  - intros Hno. split.
    + apply Forall_forall. intros l' Hin%list_elem_of_In r. specialize (Hno r).
      rewrite Hw, Hr in Hno. split; intros Hwr.
      * apply not_true_iff_false. intros Ht. unfold touches in Ht.
        apply orb_true_iff in Ht as [Ht|Ht].
        -- assert (existsb (λ l, reads_res l r) ls = true) as E by (apply existsb_exists; eauto).
           by rewrite E, Hwr, orb_true_r in Hno.
        -- assert (existsb (λ l, writes_res l r) ls = true) as E by (apply existsb_exists; eauto).
           unfold touches in Hno. by rewrite E, Hwr, orb_true_r in Hno.
      * assert (existsb (λ l, writes_res l r) ls = true) as E by (apply existsb_exists; eauto).
        rewrite E in Hno. simpl in Hno. by apply orb_false_iff in Hno as [? _].
    + intros r Hres. specialize (Hno r). rewrite Hres, orb_true_r in Hno. simpl in Hno.
      by apply orb_false_iff in Hno as [? _].
  - intros [Hcompat Hres] r. rewrite Forall_forall in Hcompat.
    destruct (mask_has (reserved s) r) eqn:Er.
    + rewrite (Hres r Er), andb_false_r. specialize (Hres r Er). unfold touches in Hres.
      apply orb_false_iff in Hres as [_ ->]. by rewrite andb_false_r.
    + rewrite orb_false_r, Hw, Hr. apply orb_false_iff. split; apply not_true_iff_false.
      * intros [(l' & Hin%list_elem_of_In & Hl')%existsb_exists Ht]%andb_true_iff.
        destruct (Hcompat l' Hin r) as [_ H2]. by rewrite H2 in Ht.
      * intros [(l' & Hin%list_elem_of_In & Hl')%existsb_exists Ht]%andb_true_iff.
        destruct (Hcompat l' Hin r) as [H1 _]. specialize (H1 Ht). unfold touches in H1.
        by rewrite Hl' in H1.
Qed.

(** A refused lock set has a culprit. *)
Lemma holds_canLock_refused n s ls l :
  Holds n s ls → wf_locks n l → canLock s l = Some false →
  (∃ h, h ∈ ls ∧ ¬ compatible l h) ∨
  (∃ r, mask_has (reserved s) r = true ∧ touches l r = true).
Proof.
  intros [Hs Hw Hc Hr] Hwf Hno. destruct (canLock_spec n s l Hs Hwf) as (b & Hb & Hiff).
  assert (b = false) as -> by congruence.
  destruct (decide (Exists (λ r, conflicts s l r = true) (seq 0 (length (writes l) * 64)))) as [Hex|Hex].
  - apply Exists_exists in Hex as (r & _ & Hcf). unfold conflicts in Hcf. rewrite Hw, Hr in Hcf.
    apply orb_true_iff in Hcf as [Hcf|Hcf].
    + apply andb_true_iff in Hcf as [Hcf Ht]. apply orb_true_iff in Hcf as [Hcf|Hcf]; [left|by eauto].
      apply existsb_exists in Hcf as (h & Hin%list_elem_of_In & Hh). exists h. split; [done|].
      intros Hcompat. destruct (Hcompat r) as [_ H2]. rewrite H2 in Ht; done.
    + apply andb_true_iff in Hcf as [Hcf Ht]. left.
      apply existsb_exists in Hcf as (h & Hin%list_elem_of_In & Hh). exists h. split; [done|].
      intros Hcompat. destruct (compatible_conflict l h r) as [_ E]; [done..|congruence].
  - exfalso. assert (false = true); [|done]. apply Hiff. intros r.
    destruct (decide (r < length (writes l) * 64)) as [Hlt|Hge].
    + apply not_true_iff_false. intros Hcf. apply Hex, Exists_exists. exists r.
      split; [apply elem_of_seq; lia|done].
    + destruct (wf_beyond n l r Hwf) as [E1 E2]; [apply Nat.div_le_lower_bound; lia|].
      unfold conflicts, touches. by rewrite E1, E2, !andb_false_r.
Qed.

(** On a lock state where exactly [ls] is held, compatible sets all, no
    operation panics; canLock answers true exactly when the asked set is
    compatible with every held one and touches nothing reserved; lock then
    adds it to what is held; unlock of any held set takes exactly that one
    away, a resource read by several staying read until its last reader. *)
Theorem lockState_operations n s ls l :
  Holds n s ls → all_compatible ls → wf_locks n l → length ls < max_holders →
  (∃ b, canLock s l = Some b ∧
     (b = true ↔ Forall (compatible l) ls ∧ ∀ r, mask_has (reserved s) r = true → touches l r = false)) ∧
  (∃ s', lock s l = Some s' ∧ Holds n s' (l :: ls)) ∧
  (∀ ls', ls ≡ₚ l :: ls' → ∃ s', unlock s l = Some s' ∧ Holds n s' ls') ∧
  (∃ s', reserve s l = Some s' ∧ Holds n s' ls ∧
     ∀ r, mask_has (reserved s') r = mask_has (reserved s) r || writes_res l r).
Proof.
  intros Hh Hall Hwf Hmax. split_and!.
  - by apply (holds_canLock n s ls l).
  - destruct (holds_lock n s ls l) as (s' & ? & ? & _); eauto.
  - intros ls' Hp. rewrite Hp in Hh, Hall. destruct Hall as [Hall _].
    apply Permutation_length in Hp. simpl in Hp.
    destruct (holds_unlock n s ls' l Hh Hwf Hall) as (s' & ? & ? & _); [lia|eauto].
  - by apply holds_reserve.
Qed.

(** A decision procedure for concrete lock sets. *)
Definition wf_locksb (n : nat) (l : taskLocks) : bool :=
  (length (reads l) =? length (writes l)) && (length (writes l) <=? words_for n) &&
  forallb (λ w, (w <? 2 ^ 64)%N) (reads l ++ writes l) &&
  forallb (λ r, negb (touches l r)) (seq n (length (writes l) * 64 - n)).

Lemma wf_locksb_sound n l : wf_locksb n l = true → wf_locks n l.
Proof.
  unfold wf_locksb. rewrite !andb_true_iff, Nat.eqb_eq, Nat.leb_le.
  intros [[[Hlen Hwords] Hbound] Hres]. rewrite forallb_app, andb_true_iff, !forallb_forall in Hbound.
  destruct Hbound as [Hr Hw]. rewrite forallb_forall in Hres.
  split; [done|done| | |].
  - apply Forall_forall. intros w Hin%list_elem_of_In%Hr. by apply N.ltb_lt.
  - apply Forall_forall. intros w Hin%list_elem_of_In%Hw. by apply N.ltb_lt.
  - intros r Ht. destruct (decide (r < n)) as [|Hge]; [done|]. exfalso.
    destruct (decide (r < length (writes l) * 64)) as [Hlt|Hbeyond].
    + specialize (Hres r). rewrite Ht in Hres. by discriminate Hres; apply in_seq; lia.
    + unfold touches, reads_res, writes_res in Ht. rewrite !mask_has_beyond in Ht by lia. done.
Qed.

(** A writer of resource 65 and a reader of it, in a kernel of 70. *)
Definition example_writer : taskLocks := mkLocks [0%N; 0%N] [0%N; 2%N] false.
Definition example_reader : taskLocks := mkLocks [0%N; 2%N] [0%N; 0%N] false.

Lemma lockState_operations_witness :
  ∃ s', lock (makeLockState 70) example_writer = Some s' ∧ Holds 70 s' [example_writer].
Proof.
  assert (wf_locks 70 example_writer) as Hwf by by apply wf_locksb_sound.
  destruct (lockState_operations 70 (makeLockState 70) [] example_writer) as (_ & H & _);
    [apply makeLockState_holds|done|done|apply max_holders_lt; simpl; lia|exact H].
Defined.
