(* ===== verification/Access.v ===== *)
(** * Lock declarations of kernel/access.go

    While a task's constructor runs it requests handles from its [Access], and
    each request adds to the lock masks the task is registered with.  A
    resource's type is an element of [Ty], the value a handle reaches is named
    by that type. *)

From S2P Require Import Prelude Words LockState.

Section access.
Context {Ty : Type} `{Countable Ty}.

(** What Access reads of its kernel: which kernel it is, and the index of
    every resource initialized so far. *)
Record kernelView := mkView {
  view_id : N;
  view_resources : gmap Ty nat
}.

Record Access := mkAccess {
  akernel : option kernelView; (* nil once the constructor returned *)
  areads : list N;
  awrites : list N
}.

(** The composition errors Access panics with; [OutOfRange] is a run-time
    one. *)
Inductive panic :=
  | AccessAfterReturn
  | NotInitialized (t : Ty)
  | ForeignTask
  | OutOfRange.

(** A handle reaches the value of the resource of its type. *)
Inductive handle :=
  | ReadHandle (t : Ty)
  | WriteHandle (t : Ty).

(** A task, as Use sees it: its kernel and its lock masks. *)
Record taskView := mkTaskView {
  task_kernel : N;
  task_locks : taskLocks
}.

Definition maskPosition (index : nat) : nat * N :=
  (index / 64, N.shiftl 1 (N.of_nat (index mod 64))).

Definition growMasks (a : Access) (words : nat) : Access :=
  mkAccess (akernel a)
    (areads a ++ replicate (words - length (awrites a)) 0%N)
    (awrites a ++ replicate (words - length (awrites a)) 0%N).

Definition resource (a : Access) (t : Ty) : result panic nat :=
  match akernel a with
  | None => Err AccessAfterReturn
  | Some k =>
      match view_resources k !! t with
      | Some r => Ok r
      | None => Err (NotInitialized t)
      end
  end.

Definition Read (a : Access) (t : Ty) : result panic (Access * handle) :=
  r ← resource a t;
  let '(word, bit) := maskPosition r in
  let a := growMasks a (word + 1) in
  w ← or_err OutOfRange (awrites a !! word);
  rs ← (if decide (N.land w bit = 0%N)
        then or_err OutOfRange (list_modify (areads a) word (λ x, N.lor x bit))
        else Ok (areads a));
  Ok (mkAccess (akernel a) rs (awrites a), ReadHandle t).

Definition Write (a : Access) (t : Ty) : result panic (Access * handle) :=
  r ← resource a t;
  let '(word, bit) := maskPosition r in
  let a := growMasks a (word + 1) in
  ws ← or_err OutOfRange (list_modify (awrites a) word (λ x, N.lor x bit));
  rs ← or_err OutOfRange (list_modify (areads a) word (λ x, N.ldiff x bit));
  Ok (mkAccess (akernel a) rs ws, WriteHandle t).

(** One word of Use's loop. *)
Definition use_word (used : taskLocks) (i : nat) (a : Access) : option Access :=
  uw ← writes used !! i;
  ur ← reads used !! i;
  ws ← list_modify (awrites a) i (λ x, N.lor x uw);
  rs ← list_modify (areads a) i (λ x, N.lor x ur);
  w ← ws !! i;
  rs' ← list_modify rs i (λ x, N.ldiff x w);
  Some (mkAccess (akernel a) rs' ws).

Definition Use (a : Access) (task : option taskView) : result panic Access :=
  match akernel a, task with
  | None, _ => Err AccessAfterReturn
  | Some _, None => Err ForeignTask
  | Some k, Some t =>
      if decide (task_kernel t = view_id k) then
        let a := growMasks a (length (writes (task_locks t))) in
        or_err OutOfRange
          (for_range (length (writes (task_locks t))) (use_word (task_locks t)) a)
      else Err ForeignTask
  end.

(** A constructor's requests, in order. *)
Inductive request :=
  | RRead (t : Ty)
  | RWrite (t : Ty)
  | RUse (task : option taskView).

Definition run_request (a : Access) (q : request) : result panic Access :=
  match q with
  | RRead t => '(a', _) ← Read a t; Ok a'
  | RWrite t => '(a', _) ← Write a t; Ok a'
  | RUse task => Use a task
  end.

Fixpoint run_requests (a : Access) (qs : list request) : result panic Access :=
  match qs with
  | [] => Ok a
  | q :: qs' => a' ← run_request a q; run_requests a' qs'
  end.

(** The masks a task is registered with, its constructor having run. *)
Definition declare (k : kernelView) (qs : list request) : result panic taskLocks :=
  a ← run_requests (mkAccess (Some k) [] []) qs;
  Ok (mkLocks (areads a) (awrites a) false).

(** ** What a request asks for *)

Definition wants_write (k : kernelView) (q : request) (r : nat) : bool :=
  match q with
  | RRead _ => false
  | RWrite t => bool_decide (view_resources k !! t = Some r)
  | RUse (Some t) => writes_res (task_locks t) r
  | RUse None => false
  end.

Definition wants_read (k : kernelView) (q : request) (r : nat) : bool :=
  match q with
  | RRead t => bool_decide (view_resources k !! t = Some r)
  | RWrite _ => false
  | RUse (Some t) => reads_res (task_locks t) r
  | RUse None => false
  end.

(** The panic a request raises, if any. *)
Definition request_panic (k : kernelView) (q : request) : option panic :=
  match q with
  | RRead t | RWrite t =>
      match view_resources k !! t with Some _ => None | None => Some (NotInitialized t) end
  | RUse (Some t) => if decide (task_kernel t = view_id k) then None else Some ForeignTask
  | RUse None => Some ForeignTask
  end.

(** A mask is tight when its last word locks something, so that a task that
    locks nothing has an empty one. *)
Definition tight (m : list N) (has : nat → bool) : Prop :=
  m = [] ∨ ∃ r, r / 64 = length m - 1 ∧ has r = true.

(** [a] is the access of kernel [k] of [n] resources, with [R] and [W]
    requested so far. *)
Record declares (n : nat) (k : kernelView) (R W : nat → bool) (a : Access) : Prop := {
  dc_kernel : akernel a = Some k;
  dc_length : length (areads a) = length (awrites a);
  dc_words : length (awrites a) ≤ words_for n;
  dc_bound : mask_bound (areads a) ∧ mask_bound (awrites a);
  dc_writes r : mask_has (awrites a) r = W r;
  dc_reads r : mask_has (areads a) r = R r && negb (W r);
  dc_tight : tight (awrites a) (λ r, R r || W r)
}.

(** A task of a kernel of [n] resources was itself declared. *)
Definition well_declared (n : nat) (l : taskLocks) : Prop :=
  wf_locks n l ∧ (∀ r, writes_res l r = true → reads_res l r = false) ∧
  tight (writes l) (touches l).

Definition wf_request (n : nat) (q : request) : Prop :=
  match q with RUse (Some t) => well_declared n (task_locks t) | _ => True end.

Definition wf_view (n : nat) (k : kernelView) : Prop :=
  ∀ t r, view_resources k !! t = Some r → r < n.
End access.

Arguments kernelView Ty {_ _}.
Arguments Access Ty {_ _}.
Arguments request : clear implicits.
Arguments panic : clear implicits.
Arguments handle : clear implicits.
#[global] Arguments maskPosition : simpl never.
#[global] Arguments growMasks : simpl never.

Section access_facts.
Context {Ty : Type} `{Countable Ty}.
Implicit Types (k : kernelView Ty) (a : Access Ty) (q : request Ty).

Lemma maskPosition_bit r : maskPosition r = (r / 64, (2 ^ N.of_nat (r mod 64))%N).
Proof. unfold maskPosition. by rewrite N.shiftl_1_l. Qed.

Lemma word_bound_bit r : word_bound (2 ^ N.of_nat (r mod 64)).
Proof. apply word_bound_pow2. pose proof (Nat.mod_upper_bound r 64). lia. Qed.

Lemma land_bit_zero m r w :
  m !! (r / 64) = Some w → N.land w (2 ^ N.of_nat (r mod 64)) = 0%N ↔ mask_has m r = false.
Proof.
  intros Hw. rewrite (word_lookup m r w Hw), word_zero_iff. split.
  - intros Hz. specialize (Hz (N.of_nat (r mod 64))).
    by rewrite N.land_spec, testbit_pow2, bool_decide_true, andb_true_r in Hz.
  - intros Hz j. rewrite N.land_spec, testbit_pow2. case_bool_decide; [|apply andb_false_r].
    subst j. by rewrite Hz.
Qed.

(** Setting or clearing the bit of resource [r] of a mask. *)
Lemma modify_bit_spec (m : list N) r (f : N → N → N) (fb : bool → bool → bool) :
  r / 64 < length m → mask_bound m → (∀ b, fb b false = b) →
  (∀ x w, word_bound x → word_bound w → word_bound (f x w)) →
  (∀ x w j, N.testbit (f x w) j = fb (N.testbit x j) (N.testbit w j)) →
  ∃ m', list_modify m (r / 64) (λ x, f x (2 ^ N.of_nat (r mod 64))%N) = Some m' ∧
    length m' = length m ∧ mask_bound m' ∧
    ∀ j, mask_has m' j = fb (mask_has m j) (bool_decide (j = r)).
Proof.
  intros Hr Hm Hfb Hf Hbit. pose proof (word_bound_bit r) as Hb.
  destruct (modify_word_spec m (r / 64) (2 ^ N.of_nat (r mod 64)) f fb) as (m' & ? & ? & ? & Hm');
    [done..|auto|auto|].
  exists m'. split_and!; [done..|]. intros j. rewrite Hm'. case_decide as E.
  - rewrite testbit_pow2. f_equal. apply bool_decide_ext. split; [|by intros ->].
    intros Ebit. rewrite (mask_index j), (mask_index r). lia.
  - rewrite bool_decide_false by (by intros ->). by rewrite Hfb.
Qed.

Lemma growMasks_spec a words :
  length (areads a) = length (awrites a) → mask_bound (areads a) ∧ mask_bound (awrites a) →
  akernel (growMasks a words) = akernel a ∧
  length (awrites (growMasks a words)) = length (awrites a) `max` words ∧
  length (areads (growMasks a words)) = length (awrites (growMasks a words)) ∧
  mask_bound (areads (growMasks a words)) ∧ mask_bound (awrites (growMasks a words)) ∧
  (∀ r, mask_has (areads (growMasks a words)) r = mask_has (areads a) r) ∧
  (∀ r, mask_has (awrites (growMasks a words)) r = mask_has (awrites a) r).
Proof.
  intros Hlen [Hr Hw]. unfold growMasks. simpl. rewrite !length_app, !length_replicate.
  split_and!; [done|lia|lia| | |intros; apply mask_has_app_zero..];
    apply Forall_app; split; [done|apply mask_bound_replicate|done|apply mask_bound_replicate].
Qed.

(** Masks that grew to [words] are still tight if the last word grown to
    locks something. *)
Lemma tight_grow {A} (m m' : list A) words (has has' : nat → bool) :
  (m = [] ∨ ∃ r, r / 64 = length m - 1 ∧ has r = true) →
  length m' = length m `max` words → (∀ r, has r = true → has' r = true) →
  (words ≠ 0 → ∃ r, r / 64 = words - 1 ∧ has' r = true) →
  m' = [] ∨ ∃ r, r / 64 = length m' - 1 ∧ has' r = true.
Proof.
  intros Ht Hlen Hmono Hlast. destruct (decide (length m < words)).
  - right. destruct Hlast as (r & ? & ?); [lia|]. exists r. split; [lia|done].
  - destruct Ht as [->|(r & ? & ?)].
    + left. apply nil_length_inv. simpl in *. lia.
    + right. exists r. split; [lia|auto].
Qed.

Lemma resource_spec n k R W a t :
  declares n k R W a →
  resource a t = match view_resources k !! t with Some r => Ok r | None => Err (NotInitialized t) end.
Proof. intros Ha. unfold resource. by rewrite (dc_kernel _ _ _ _ _ Ha). Qed.

Lemma Read_spec n k R W a t r :
  declares n k R W a → wf_view n k → view_resources k !! t = Some r →
  ∃ a', Read a t = Ok (a', ReadHandle t) ∧
    declares n k (λ j, R j || bool_decide (Some r = Some j)) W a'.
Proof.
  intros Ha Hk Ht. unfold Read. rewrite (resource_spec n k R W), Ht by done.
  cbn [mbind result_bind]. rewrite maskPosition_bit. destruct Ha as [Hker Hlen Hwords Hb Hw Hr Htight].
  destruct (growMasks_spec a (r / 64 + 1) Hlen Hb) as (Eg & Lw & Lr & Br & Bw & Er & Ew).
  remember (growMasks a (r / 64 + 1)) as g eqn:Eg0. clear Eg0.
  destruct (lookup_word (awrites g) (r / 64)) as [w Hwd]; [lia|]. rewrite Hwd. simpl.
  pose proof (land_bit_zero _ r w Hwd) as Hzero. rewrite Ew, Hw in Hzero.
  assert (Htight' : tight (awrites g) (λ j, R j || bool_decide (Some r = Some j) || W j)).
  { apply (tight_grow (awrites a) _ (r / 64 + 1) (λ j, R j || W j)); [done|done| |].
    - intros j. destruct (R j), (W j), (bool_decide _); done.
    - intros _. exists r. rewrite bool_decide_true, orb_true_r by done. split; [lia|done]. }
  pose proof (words_for_bound n r (Hk t r Ht)).
  case_decide as Hfree.
  - apply Hzero in Hfree.
    destruct (modify_bit_spec (areads g) r N.lor orb) as (rs & -> & Lrs & Brs & Hrs);
      [lia|done|apply orb_false_r|auto with cog|intros; apply N.lor_spec|]. simpl.
    eexists. split; [done|]. split; simpl; [congruence..|lia|done|by intros; rewrite Ew, Hw| |done].
    intros j. rewrite Hrs, Er, Hr. destruct (decide (j = r)) as [->|].
    + rewrite !bool_decide_true, Hfree by done. by rewrite !orb_true_r.
    + rewrite (bool_decide_false (j = r)), (bool_decide_false (Some r = Some j)) by congruence.
      by rewrite !orb_false_r.
  - assert (W r = true) as Hwr by (destruct (W r); [done|tauto]).
    eexists. split; [done|]. split; simpl; [congruence..|lia|done|by intros; rewrite Ew, Hw| |done].
    intros j. rewrite Er, Hr. destruct (decide (r = j)) as [->|].
    + by rewrite Hwr, !andb_false_r.
    + rewrite bool_decide_false by congruence. by rewrite orb_false_r.
Qed.

Lemma Write_spec n k R W a t r :
  declares n k R W a → wf_view n k → view_resources k !! t = Some r →
  ∃ a', Write a t = Ok (a', WriteHandle t) ∧
    declares n k R (λ j, W j || bool_decide (Some r = Some j)) a'.
Proof.
  intros Ha Hk Ht. unfold Write. rewrite (resource_spec n k R W), Ht by done.
  cbn [mbind result_bind]. rewrite maskPosition_bit. destruct Ha as [Hker Hlen Hwords Hb Hw Hr Htight].
  destruct (growMasks_spec a (r / 64 + 1) Hlen Hb) as (Eg & Lw & Lr & Br & Bw & Er & Ew).
  remember (growMasks a (r / 64 + 1)) as g eqn:Eg0. clear Eg0.
  pose proof (words_for_bound n r (Hk t r Ht)).
  destruct (modify_bit_spec (awrites g) r N.lor orb) as (ws & -> & Lws & Bws & Hws);
    [lia|done|apply orb_false_r|auto with cog|intros; apply N.lor_spec|]. simpl.
  destruct (modify_bit_spec (areads g) r N.ldiff (λ x y, x && negb y)) as (rs & -> & Lrs & Brs & Hrs);
    [lia|done|apply andb_true_r|auto with cog|intros; apply N.ldiff_spec|]. simpl.
  eexists. split; [done|]. split; simpl; [congruence|congruence|lia|done| | |].
  - intros j. rewrite Hws, Ew, Hw. f_equal. apply bool_decide_ext. split; [by intros ->|by intros [= ->]].
  - intros j. rewrite Hrs, Er, Hr. rewrite negb_orb, andb_assoc. do 2 f_equal.
    apply bool_decide_ext. split; [by intros ->|by intros [= ->]].
  - apply (tight_grow (awrites a) _ (r / 64 + 1) (λ j, R j || W j)); [done|congruence| |].
    + intros j. destruct (R j), (W j), (bool_decide _); done.
    + intros _. exists r. rewrite bool_decide_true, !orb_true_r by done. split; [lia|done].
Qed.

Lemma use_word_spec n k R W l i a :
  wf_locks n l → i < length (writes l) → length (writes l) ≤ length (awrites a) →
  length (areads a) = length (awrites a) → mask_bound (areads a) ∧ mask_bound (awrites a) →
  akernel a = Some k →
  (∀ j, mask_has (awrites a) j = W j || bool_decide (j / 64 < i) && writes_res l j) →
  (∀ j, mask_has (areads a) j = (R j || bool_decide (j / 64 < i) && reads_res l j) &&
     negb (W j || bool_decide (j / 64 < i) && writes_res l j)) →
  ∃ a', use_word l i a = Some a' ∧ akernel a' = Some k ∧
    length (awrites a') = length (awrites a) ∧ length (areads a') = length (awrites a') ∧
    (mask_bound (areads a') ∧ mask_bound (awrites a')) ∧
    (∀ j, mask_has (awrites a') j = W j || bool_decide (j / 64 < S i) && writes_res l j) ∧
    (∀ j, mask_has (areads a') j = (R j || bool_decide (j / 64 < S i) && reads_res l j) &&
       negb (W j || bool_decide (j / 64 < S i) && writes_res l j)).
Proof.
  intros Hwf Hi Hlen Hlr [Br Bw] Hker Hw Hr. unfold use_word.
  destruct (wf_writes_word n l i) as (uw & Euw & Buw); [done..|].
  destruct (wf_reads_word n l i) as (ur & Eur & Bur); [done..|].
  rewrite Euw, Eur. simpl.
  destruct (modify_word_spec (awrites a) i uw N.lor orb) as (ws & -> & Lws & Bws & Hws);
    [lia|done..|auto with cog|intros; apply N.lor_spec|]. simpl.
  destruct (modify_word_spec (areads a) i ur N.lor orb) as (rs & -> & Lrs & Brs & Hrs);
    [lia|done..|auto with cog|intros; apply N.lor_spec|]. simpl.
  destruct (lookup_word ws i) as [w Ew]; [lia|]. rewrite Ew. simpl.
  destruct (modify_word_spec rs i w N.ldiff (λ x y, x && negb y)) as (rs' & -> & Lrs' & Brs' & Hrs');
    [lia|done|exact (mask_bound_lookup ws i w Bws Ew)|auto with cog|intros; apply N.ldiff_spec|]. simpl.
  eexists. split; [done|]. simpl. split_and!; [done|congruence|congruence|done|done| |].
  - intros j. rewrite Hws, bool_decide_lt_succ, Hw. case_decide as E.
    + rewrite (bool_decide_true (_ = i)), (bool_decide_false (_ < i)) by lia. simpl.
      rewrite orb_false_r. f_equal. symmetry. apply word_lookup. by rewrite E.
    + by rewrite (bool_decide_false (_ = i)), orb_false_r by done.
  - intros j. rewrite Hrs', bool_decide_lt_succ. case_decide as E.
    + rewrite (bool_decide_true (_ = i)), (bool_decide_false (_ < i)) by lia. simpl.
      rewrite <- (word_lookup ws j w) by (by rewrite E).
      rewrite Hrs, Hws, Hw, Hr, (decide_True _ _ E), (bool_decide_false (_ < i)) by lia.
      rewrite <- (word_lookup (reads l) j ur), <- (word_lookup (writes l) j uw) by (by rewrite E).
      unfold reads_res, writes_res. simpl. rewrite (decide_True _ _ E).
      by destruct (R j), (W j), (mask_has (reads l) j), (mask_has (writes l) j).
    + rewrite Hrs, decide_False, Hr by done.
      by rewrite (bool_decide_false (_ = i)), orb_false_r by done.
Qed.

Lemma Use_spec n k R W a t :
  declares n k R W a → well_declared n (task_locks t) → task_kernel t = view_id k →
  ∃ a', Use a (Some t) = Ok a' ∧
    declares n k (λ j, R j || reads_res (task_locks t) j) (λ j, W j || writes_res (task_locks t) j) a'.
Proof.
  intros [Hker Hlen Hwords Hb Hw Hr Htight] (Hwf & Hdisj & Hlt) Hk. unfold Use. rewrite Hker.
  rewrite decide_True by done. set (l := task_locks t) in *.
  destruct (growMasks_spec a (length (writes l)) Hlen Hb) as (Eg & Lw & Lr & Br & Bw & Er & Ew).
  remember (growMasks a (length (writes l))) as g eqn:Eg0. clear Eg0.
  destruct (for_range_invariant (λ i a', akernel a' = Some k ∧
      length (awrites a') = length (awrites g) ∧ length (areads a') = length (awrites a') ∧
      (mask_bound (areads a') ∧ mask_bound (awrites a')) ∧
      (∀ j, mask_has (awrites a') j = W j || bool_decide (j / 64 < i) && writes_res l j) ∧
      (∀ j, mask_has (areads a') j = (R j || bool_decide (j / 64 < i) && reads_res l j) &&
         negb (W j || bool_decide (j / 64 < i) && writes_res l j)))
    (use_word l) (length (writes l)) g) as (a' & -> & ? & Lw' & Lr' & Hb' & Hw' & Hr').
  - split_and!; [congruence|done|done|done|done|intros j..];
      rewrite (bool_decide_false (_ < 0)) by lia; simpl; rewrite !orb_false_r; [by rewrite Ew, Hw|].
    by rewrite Er, Hr.
  - intros i s Hi (? & Hls & ? & ? & ? & ?).
    assert (length (writes l) ≤ length (awrites s)) by lia.
    destruct (use_word_spec n k R W l i s) as (s' & -> & ? & ? & ? & ? & ? & ?); [done..|].
    exists s'. split_and!; (tauto || congruence).
  - simpl. exists a'. split; [done|].
    assert (Hupto : ∀ r, bool_decide (r / 64 < length (writes l)) && writes_res l r = writes_res l r ∧
      bool_decide (r / 64 < length (writes l)) && reads_res l r = reads_res l r).
    { intros r. case_bool_decide; [done|]. destruct (wf_beyond n l r Hwf) as [-> ->]; [lia|done]. }
    split; [done|done| |done| | |].
    + pose proof (wf_words _ _ Hwf). lia.
    + intros j. by rewrite Hw', (proj1 (Hupto j)).
    + intros j. by rewrite Hr', (proj1 (Hupto j)), (proj2 (Hupto j)).
    + apply (tight_grow (awrites a) _ (length (writes l)) (λ j, R j || W j)); [done|congruence| |].
      * intros j. destruct (R j), (W j), (reads_res l j), (writes_res l j); done.
      * intros Hnz. destruct Hlt as [E|(r & ? & Hr0)]; [by rewrite E in Hnz|].
        exists r. split; [done|]. unfold touches in Hr0.
        destruct (R r), (W r), (reads_res l r), (writes_res l r); done.
Qed.

Lemma request_spec n k R W a q :
  declares n k R W a → wf_view n k → wf_request n q →
  match request_panic k q with
  | Some e => run_request a q = Err e
  | None => ∃ a', run_request a q = Ok a' ∧
      declares n k (λ j, R j || wants_read k q j) (λ j, W j || wants_write k q j) a'
  end.
Proof.
  intros Ha Hk Hq. destruct q as [t|t|[t|]]; simpl.
  - destruct (view_resources k !! t) as [r|] eqn:Ht.
    + destruct (Read_spec n k R W a t r) as (a' & -> & Ha'); [done..|].
      exists a'. split; [done|]. destruct Ha' as [? ? ? ? Hw Hr Htight].
      split; [done..| | |]; [intros j; by rewrite Hw, orb_false_r|intros j; by rewrite Hr, orb_false_r|].
      destruct Htight as [?|(j & ? & ?)]; [by left|right; exists j]. by rewrite orb_false_r.
    + unfold Read. by rewrite (resource_spec n k R W), Ht.
  - destruct (view_resources k !! t) as [r|] eqn:Ht.
    + destruct (Write_spec n k R W a t r) as (a' & -> & Ha'); [done..|].
      exists a'. split; [done|]. destruct Ha' as [? ? ? ? Hw Hr Htight].
      split; [done..| |]; [intros j; by rewrite Hr, orb_false_r|].
      destruct Htight as [?|(j & ? & ?)]; [by left|right; exists j]. by rewrite orb_false_r.
    + unfold Write. by rewrite (resource_spec n k R W), Ht.
  - case_decide as E.
    + by apply Use_spec.
    + unfold Use. rewrite (dc_kernel _ _ _ _ _ Ha). by rewrite decide_False.
  - unfold Use. by rewrite (dc_kernel _ _ _ _ _ Ha).
Qed.

Lemma requests_spec n k R W a qs :
  declares n k R W a → wf_view n k → Forall (wf_request n) qs →
  match head (omap (request_panic k) qs) with
  | Some e => run_requests a qs = Err e
  | None => ∃ a', run_requests a qs = Ok a' ∧
      declares n k (λ j, R j || existsb (λ q, wants_read k q j) qs)
        (λ j, W j || existsb (λ q, wants_write k q j) qs) a'
  end.
Proof.
  intros Ha Hk Hqs. revert R W a Ha. induction Hqs as [|q qs Hq _ IH]; intros R W a Ha; simpl.
  - exists a. split; [done|]. destruct Ha as [? ? ? ? Hw Hr Ht].
    split; [done..| | |]; [intros j; by rewrite orb_false_r|intros j; by rewrite !orb_false_r|].
    destruct Ht as [?|(j & ? & ?)]; [by left|right; exists j]. by rewrite !orb_false_r.
  - pose proof (request_spec n k R W a q Ha Hk Hq) as Hstep.
    destruct (request_panic k q) as [e|] eqn:Epanic; simpl; [by rewrite Hstep|].
    destruct Hstep as (a1 & -> & Ha1). simpl. specialize (IH _ _ a1 Ha1).
    destruct (head _) as [e|]; [done|]. destruct IH as (a2 & -> & Ha2).
    exists a2. split; [done|]. destruct Ha2 as [? ? ? ? Hw Hr Ht].
    split; [done..| | |].
    + intros j. by rewrite Hw, orb_assoc.
    + intros j. by rewrite Hr, !orb_assoc.
    + destruct Ht as [?|(j & ? & ?)]; [by left|right; exists j]. by rewrite !orb_assoc in *.
Qed.

Lemma declares_empty n k : declares n k (λ _, false) (λ _, false) (mkAccess (Some k) [] []).
Proof. split; simpl; [done..|lia|by split; constructor|done|done|by left]. Qed.

(** What a request asks for is one of the kernel's resources. *)
Lemma request_in_range n k q r :
  wf_view n k → wf_request n q → wants_read k q r = true ∨ wants_write k q r = true → r < n.
Proof.
  intros Hk Hq Hor. destruct q as [t|t|[t|]]; simpl in *; destruct Hor as [Hor|Hor]; try done.
  - by apply bool_decide_eq_true in Hor as ?%Hk.
  - by apply bool_decide_eq_true in Hor as ?%Hk.
  - destruct Hq as (Hwf & _). apply (wf_resources _ _ Hwf). unfold touches. by rewrite Hor.
  - destruct Hq as (Hwf & _). apply (wf_resources _ _ Hwf). unfold touches. by rewrite Hor, orb_true_r.
Qed.

Lemma existsb_elem {A} (f : A → bool) l : existsb f l = true → ∃ x, x ∈ l ∧ f x = true.
Proof. intros (x & Hx%list_elem_of_In & ?)%existsb_exists. eauto. Qed.

Lemma requests_in_range n k qs r :
  wf_view n k → Forall (wf_request n) qs →
  existsb (λ q, wants_read k q r) qs = true ∨ existsb (λ q, wants_write k q r) qs = true → r < n.
Proof.
  intros Hk Hqs Hor. rewrite Forall_forall in Hqs.
  destruct Hor as [(q & Hq & Hr)%existsb_elem|(q & Hq & Hr)%existsb_elem];
    apply (request_in_range n k q r); auto.
Qed.

(** The masks of an access are those of a well-declared task. *)
Lemma declares_well_declared n k R W a :
  declares n k R W a → (∀ r, R r = true ∨ W r = true → r < n) →
  well_declared n (mkLocks (areads a) (awrites a) false).
Proof.
  intros [_ Hlen Hwords Hb Hw Hr Ht] Hin. unfold well_declared, writes_res, reads_res, touches. simpl. split_and!.
  - split; simpl; [done|done|apply Hb..|]. unfold touches, reads_res, writes_res. simpl.
    intros r Hr'. rewrite Hw, Hr in Hr'. apply Hin. destruct (R r), (W r); simpl in *; auto.
  - intros r Hwr. rewrite Hr, <- Hw, Hwr. apply andb_false_r.
  - destruct Ht as [->|(r & ? & Ht)]; [by left|right]. exists r. split; [done|].
    unfold reads_res, writes_res. simpl. rewrite Hw, Hr. by destruct (R r), (W r).
Qed.

Lemma declare_well_declared n k qs l :
  wf_view n k → Forall (wf_request n) qs → declare k qs = Ok l → well_declared n l.
Proof.
  intros Hk Hqs. unfold declare. pose proof (requests_spec n k _ _ _ qs (declares_empty n k) Hk Hqs) as Hrun.
  destruct (head _); [by rewrite Hrun|]. destruct Hrun as (a & -> & Ha). intros [= <-].
  eapply declares_well_declared; [exact Ha|]. intros r. by apply requests_in_range.
Qed.
End access_facts.

(** C30: a task constructor's requests compile to exactly the locks they ask
    for, or raise the panic of the first request that is a composition
    error.  Compiled, a resource is in the write mask when some request or
    used task writes it, and in the read mask when some reads it and none
    writes it; the masks have one length, fit the kernel's lock state, never
    hold a resource twice; and the task locks nothing exactly when nothing was
    asked for. *)
Theorem declare_compiles {Ty} `{Countable Ty} n (k : kernelView Ty) (qs : list (request Ty)) :
  wf_view n k → Forall (wf_request n) qs →
  match head (omap (request_panic k) qs) with
  | Some e => declare k qs = Err e
  | None => ∃ l, declare k qs = Ok l ∧ well_declared n l ∧
      (∀ r, writes_res l r = existsb (λ q, wants_write k q r) qs) ∧
      (∀ r, reads_res l r = existsb (λ q, wants_read k q r) qs &&
                            negb (existsb (λ q, wants_write k q r) qs)) ∧
      (locksNothing l = true ↔
         ∀ r, existsb (λ q, wants_read k q r) qs = false ∧ existsb (λ q, wants_write k q r) qs = false)
  end.
Proof.
  intros Hk Hqs. unfold declare.
  pose proof (requests_spec n k _ _ _ qs (declares_empty n k) Hk Hqs) as Hrun.
  destruct (head (omap (request_panic k) qs)) as [e|]; [by rewrite Hrun|].
  destruct Hrun as (a & -> & Ha). eexists. split; [done|].
  split; [eapply declares_well_declared; [exact Ha|intros r; by apply requests_in_range]|].
  destruct Ha as [_ Hlen _ _ Hw Hr Ht]. unfold writes_res, reads_res. simpl in *. split_and!; [done|done|].
  unfold locksNothing. simpl. rewrite bool_decide_eq_true, length_zero_iff_nil. split.
  - intros E r. specialize (Hw r). specialize (Hr r).
    assert (Ea : areads a = []) by (apply nil_length_inv; by rewrite Hlen, E).
    rewrite E in Hw. rewrite Ea in Hr. change (mask_has [] r) with false in *.
    rewrite <- Hw in *. split; [|done]. by rewrite andb_true_r in Hr.
  - intros Hno. destruct Ht as [|(r & _ & Ht)]; [done|]. destruct (Hno r) as [E1 E2].
    by rewrite E1, E2 in Ht.
Qed.

(** Read [5], use a task writing resource 65, then read 65 and write 3. *)
Definition example_view : kernelView nat :=
  mkView 1 (list_to_map ((λ r, (r, r)) <$> seq 0 70)).
Definition example_requests : list (request nat) :=
  [RRead 5; RUse (Some (mkTaskView 1 example_writer)); RRead 65; RWrite 3].

Lemma declare_compiles_witness :
  wf_view 70 example_view ∧
  ∃ l, declare example_view example_requests = Ok l ∧
       writes_res l 65 = true ∧ reads_res l 65 = false ∧ locksNothing l = false.
Proof.
  assert (wf_view 70 example_view) as Hv.
  { intros t r Hr. apply elem_of_list_to_map_2 in Hr.
    apply list_elem_of_fmap in Hr as (x & [= -> ->] & Hx). apply elem_of_seq in Hx. lia. }
  split; [done|].
  assert (Forall (wf_request 70) example_requests) as Hqs.
  { unfold example_requests. rewrite !Forall_cons. split_and!; [done| |done..|by apply Forall_nil].
    split_and!; [by apply wf_locksb_sound|intros r _; apply (mask_has_replicate 2)|].
    right. exists 65. by split. }
  pose proof (declare_compiles 70 example_view example_requests Hv Hqs) as H.
  assert (head (omap (request_panic example_view) example_requests) = None) as E by (vm_compute; reflexivity).
  rewrite E in H. destruct H as (l & Hl & _ & Hw & Hr & Hn). exists l.
  split; [exact Hl|]. rewrite Hw, Hr.
  split; [vm_compute; reflexivity|]. split; [vm_compute; reflexivity|].
  apply not_true_iff_false. intros Hnothing. destruct (proj1 Hn Hnothing 3) as [_ Hbad].
  vm_compute in Hbad. discriminate Hbad.
Defined.
