(* ===== verification/Combiner.v ===== *)
(** * The lock combiner of kernel/combiner.go

    A job whose dependencies have finished arrives and is granted its task's
    locks, at once or later; a job that finishes releases them.  Whichever
    goroutine arrives or releases becomes the combiner unless another is:
    [combine] only ever tries the mutex.

    [exec] is what one goroutine inside arrive or release does next: a push,
    the TryLock, one step of the pass that only the mutex holder runs, the
    unlock, or one of the two looks at the queues before returning.  [step]
    interleaves any number of such goroutines with jobs that arrive and
    finish.  The combiner's queues are any [Fifo]. *)

From S2P Require Import Prelude Words Queue LockState.

Record lockRequest := mkRequest {
  slot : N;
  task : N
}.

Record combiner (Q1 Q2 : Type) := mkCombiner {
  arrivals : Q1;
  releases : Q2;
  locks : lockState;
  waiting : list lockRequest
}.
Arguments mkCombiner {Q1 Q2} _ _ _ _.
Arguments arrivals {Q1 Q2} _.
Arguments releases {Q1 Q2} _.
Arguments locks {Q1 Q2} _.
Arguments waiting {Q1 Q2} _.

Section combiner.
Context {Q1 Q2 : Type} `{!Fifo Q1 lockRequest} `{!Fifo Q2 N}.

(** The kernel's lock table: every task's locks, by task index. *)
Context (taskTable : list taskLocks).
Abbreviation combiner := (combiner Q1 Q2).
Implicit Types c : combiner.

Definition lookup_locks (t : N) : option taskLocks := taskTable !! N.to_nat t.

Definition set_locks c (s : lockState) : combiner :=
  mkCombiner (arrivals c) (releases c) s (waiting c).
Definition set_waiting c (w : list lockRequest) : combiner :=
  mkCombiner (arrivals c) (releases c) (locks c) w.

(** One request of the pass over the waiting ones: its locks are taken, or
    what it writes is reserved. *)
Definition consider (s : lockState) (request : lockRequest) : option (lockState * bool) :=
  l ← lookup_locks (task request);
  free ← canLock s l;
  if free : bool then s' ← lock s l; Some (s', true)
  else s' ← reserve s l; Some (s', false).

(** Where a goroutine inside arrive or release is. *)
Inductive pc :=
  | ArrivePush (request : lockRequest) (* about to push its arrival *)
  | ReleasePush (task : N)             (* about to push its release *)
  | TryLock                            (* about to try the mutex *)
  | DrainReleases                      (* the combiner, from here on *)
  | Unlocking (tasks : list N)
  | DrainArrivals
  | Granting (i j : nat) (* request i is next; the first j still wait *)
  | UnlockMutex                        (* to here *)
  | RecheckReleases
  | RecheckArrivals.

(** What goroutines share: the combiner, its mutex, and the jobs whose locks
    are held, in the order they were handed to the runner. *)
Record shared := mkShared {
  cmb : combiner;
  mutex : bool;
  running : list lockRequest
}.

Definition with_cmb (sh : shared) c : shared := mkShared c (mutex sh) (running sh).

(** One step of a goroutine: what it leaves shared, and where it is next, or
    [None] once it has returned.  The whole is [None] on a panic. *)
Definition exec (sh : shared) (p : pc) : option (shared * option pc) :=
  let c := cmb sh in
  match p with
  | ArrivePush request =>
      q ← fifo_push (arrivals c) request;
      Some (with_cmb sh (mkCombiner q (releases c) (locks c) (waiting c)), Some TryLock)
  | ReleasePush t =>
      q ← fifo_push (releases c) t;
      Some (with_cmb sh (mkCombiner (arrivals c) q (locks c) (waiting c)), Some TryLock)
  | TryLock =>
      if mutex sh then Some (sh, None)
      else Some (mkShared c true (running sh), Some DrainReleases)
  | DrainReleases =>
      '(q, released) ← fifo_drain (releases c);
      Some (with_cmb sh (mkCombiner (arrivals c) q (locks c) (waiting c)), Some (Unlocking released))
  | Unlocking [] => Some (sh, Some DrainArrivals)
  | Unlocking (t :: released) =>
      l ← lookup_locks t;
      s ← unlock (locks c) l;
      Some (with_cmb sh (set_locks c s), Some (Unlocking released))
  | DrainArrivals =>
      '(q, arrived) ← fifo_drain (arrivals c);
      Some (with_cmb sh (mkCombiner q (releases c) (clearReservations (locks c))
              (waiting c ++ arrived)), Some (Granting 0 0))
  | Granting i j =>
      match waiting c !! i with
      | None => Some (with_cmb sh (set_waiting c (take j (waiting c))), Some UnlockMutex)
      | Some request =>
          '(s, granted) ← consider (locks c) request;
          if granted : bool then
            Some (mkShared (set_locks c s) (mutex sh) (running sh ++ [request]),
                  Some (Granting (i + 1) j))
          else
            (* stillWaiting shares the array of waiting *)
            w ← list_set (waiting c) j request;
            Some (with_cmb sh (set_waiting (set_locks c s) w), Some (Granting (i + 1) (j + 1)))
      end
  | UnlockMutex => Some (mkShared c false (running sh), Some RecheckReleases)
  | RecheckReleases =>
      if decide (fifo_len (releases c) = 0) then Some (sh, Some RecheckArrivals)
      else Some (sh, Some TryLock)
  | RecheckArrivals =>
      if decide (fifo_len (arrivals c) = 0) then Some (sh, None)
      else Some (sh, Some TryLock)
  end.

(** Where arrive and release start, or [None] for a task that locks nothing:
    its job is handed to the runner at once, and its release does nothing. *)
Definition arrive (request : lockRequest) : option (option pc) :=
  l ← lookup_locks (task request);
  Some (if locksNothing l then None else Some (ArrivePush request)).

Definition release (t : N) : option (option pc) :=
  l ← lookup_locks t;
  Some (if locksNothing l then None else Some (ReleasePush t)).

(** ** The system *)

Record sys := mkSys {
  sh : shared;
  threads : list pc (* the goroutines inside arrive or release, in no order *)
}.

Definition initial (resources : nat) : sys :=
  mkSys (mkShared (mkCombiner fifo_empty fifo_empty (makeLockState resources) []) false []) [].

Inductive step : sys → sys → Prop :=
  | step_exec s p rest sh' next :
      threads s ≡ₚ p :: rest →
      exec (sh s) p = Some (sh', next) →
      step s (mkSys sh' (option_list next ++ rest))
  | step_arrive s request p :
      arrive request = Some (Some p) →
      step s (mkSys (sh s) (p :: threads s))
  | step_finish s request p before after :
      running (sh s) = before ++ request :: after →
      release (task request) = Some (Some p) →
      step s (mkSys (mkShared (cmb (sh s)) (mutex (sh s)) (before ++ after)) (p :: threads s)).
End combiner.

Arguments pc : clear implicits.

(** ** Invariant *)

Section invariant.
Context {Q1 Q2 : Type} `{!Fifo Q1 lockRequest, !FifoLaws Q1 lockRequest}.
Context `{!Fifo Q2 N, !FifoLaws Q2 N}.
Context (n : nat) (taskTable : list taskLocks).
Hypothesis table_wf : Forall (wf_locks n) taskTable.
Implicit Types (s : sys (Q1 := Q1) (Q2 := Q2)).

(** A task's locks, for a task of the table. *)
Definition locks_of (t : N) : taskLocks :=
  default (mkLocks [] [] false) (lookup_locks taskTable t).

Definition valid (t : N) : Prop := is_Some (lookup_locks taskTable t).

Lemma valid_lookup t : valid t → lookup_locks taskTable t = Some (locks_of t) ∧ wf_locks n (locks_of t).
Proof using table_wf.
  intros [l Hl]. unfold locks_of. rewrite Hl. split; [done|].
  rewrite Forall_forall in table_wf. apply table_wf. by eapply list_elem_of_lookup_2.
Qed.

(** The tasks of finished jobs whose locks a goroutine still has to unlock. *)
Definition thread_tasks (p : pc) : list N :=
  match p with ReleasePush t => [t] | Unlocking ts => ts | _ => [] end.

Definition thread_requests (p : pc) : list N :=
  match p with ArrivePush request => [task request] | _ => [] end.

(** The tasks whose locks are held: those of running jobs, and of finished
    ones not unlocked yet; [lr] is what the releases queue holds. *)
Definition held_tasks s (lr : list N) : list N :=
  (task <$> running (sh s)) ++ lr ++ (threads s ≫= thread_tasks).

Definition held s (lr : list N) : list taskLocks := locks_of <$> held_tasks s lr.

Definition is_combiner (p : pc) : bool :=
  match p with
  | DrainReleases | Unlocking _ | DrainArrivals | Granting _ _ | UnlockMutex => true
  | _ => false
  end.

(** Who will still look at the releases, and at the arrivals. *)
Definition serves_releases (p : pc) : bool :=
  match p with TryLock | RecheckReleases => true | _ => is_combiner p end.
Definition serves_arrivals (p : pc) : bool :=
  match p with RecheckArrivals => true | _ => serves_releases p end.

(** A request waits for a held lock set, or for an older waiting writer. *)
Definition blocked (hs : list taskLocks) (older : list lockRequest) (request : lockRequest) : Prop :=
  (∃ h, h ∈ hs ∧ ¬ compatible (locks_of (task request)) h) ∨
  (∃ o r, o ∈ older ∧ writes_res (locks_of (task o)) r = true ∧
          touches (locks_of (task request)) r = true).

Definition all_blocked (hs : list taskLocks) (w : list lockRequest) : Prop :=
  ∀ k request, w !! k = Some request → blocked hs (take k w) request.

(** What holds of the waiting requests where the combiner is. *)
Definition phase s (lr : list N) (p : pc) : Prop :=
  let w := waiting (cmb (sh s)) in
  match p with
  | Granting i j =>
      j ≤ i ∧ i ≤ length w ∧ all_blocked (held s lr) (take j w) ∧
      ∀ r, mask_has (reserved (locks (cmb (sh s)))) r =
           existsb (λ q, writes_res (locks_of (task q)) r) (take j w)
  | UnlockMutex => all_blocked (held s lr) w
  | _ => True
  end.

Record inv s (la : list lockRequest) (lr : list N) : Prop := {
  inv_arrivals : fifo_repr (arrivals (cmb (sh s))) la;
  inv_releases : fifo_repr (releases (cmb (sh s))) lr;
  inv_valid : Forall valid (held_tasks s lr ++ (task <$> la ++ waiting (cmb (sh s))) ++
                            (threads s ≫= thread_requests));
  inv_holds : Holds n (locks (cmb (sh s))) (held s lr);
  inv_compatible : all_compatible (held s lr);
  inv_mutex : length (filter is_combiner (threads s)) = if mutex (sh s) then 1 else 0;
  inv_serves_releases : lr ≠ [] → ∃ p, p ∈ threads s ∧ serves_releases p = true;
  inv_serves_arrivals : la ≠ [] → ∃ p, p ∈ threads s ∧ serves_arrivals p = true;
  inv_blocked : mutex (sh s) = false → all_blocked (held s lr) (waiting (cmb (sh s)));
  inv_phase : Forall (phase s lr) (threads s)
}.

(** Fewer lock sets held than an [int32] counts. *)
Definition bounded s : Prop := ∀ lr, fifo_repr (releases (cmb (sh s))) lr →
  length (held_tasks s lr) < max_holders.

(** The states an execution reaches, from [resources] resources free. *)
Inductive reachable : sys → Prop :=
  | reach_initial : reachable (initial n)
  | reach_step s s' : reachable s → bounded s → step taskTable s s' → reachable s'.

(** *** Blocking *)

Lemma blocked_mono hs hs' older request :
  hs ⊆ hs' → blocked hs older request → blocked hs' older request.
Proof. intros Hsub [(h & Hin & ?)|?]; [left|by right]. exists h. split; [by apply Hsub|done]. Qed.

Lemma all_blocked_mono hs hs' w : hs ⊆ hs' → all_blocked hs w → all_blocked hs' w.
Proof. intros Hsub Hall k request Hk. eapply blocked_mono; [done|by apply Hall]. Qed.

Lemma all_blocked_nil hs : all_blocked hs [].
Proof. done. Qed.

Lemma all_blocked_snoc hs w request :
  all_blocked hs w → blocked hs w request → all_blocked hs (w ++ [request]).
Proof.
  intros Hall Hb k q Hk. destruct (decide (k < length w)).
  - rewrite lookup_app_l in Hk by done. rewrite take_app_le by lia. by apply Hall.
  - pose proof (lookup_lt_Some _ _ _ Hk) as Hlt. rewrite length_app in Hlt. simpl in Hlt.
    assert (k = length w) as -> by lia. rewrite lookup_app_r, Nat.sub_diag in Hk by lia.
    injection Hk as <-. by rewrite take_app_length.
Qed.

(** *** Threads in any order *)

Lemma bind_perm {A B} (f : A → list B) l1 l2 : l1 ≡ₚ l2 → l1 ≫= f ≡ₚ l2 ≫= f.
Proof. intros ->. done. Qed.

Lemma held_tasks_perm sh1 t1 t2 lr : t1 ≡ₚ t2 → held_tasks (mkSys sh1 t1) lr ≡ₚ held_tasks (mkSys sh1 t2) lr.
Proof. intros Hp. unfold held_tasks. simpl. by rewrite (bind_perm _ t1 t2). Qed.

Lemma held_perm sh1 t1 t2 lr : t1 ≡ₚ t2 → held (mkSys sh1 t1) lr ≡ₚ held (mkSys sh1 t2) lr.
Proof. intros Hp. unfold held. by rewrite (held_tasks_perm sh1 t1 t2). Qed.

Lemma combiner_inv_perm sh1 t1 t2 la lr : t1 ≡ₚ t2 → inv (mkSys sh1 t1) la lr → inv (mkSys sh1 t2) la lr.
Proof.
  intros Hp [Ha Hr Hv Hh Hc Hm Hsr Hsa Hb Hph]. pose proof (held_perm sh1 t1 t2 lr Hp) as Hheld.
  assert (Hsub : held (mkSys sh1 t1) lr ⊆ held (mkSys sh1 t2) lr) by (intros x; by rewrite Hheld).
  split; simpl in *; [done|done| | | | | | | |].
  - rewrite <- (held_tasks_perm sh1 t1 t2), <- (bind_perm _ t1 t2); done.
  - by rewrite <- Hheld.
  - by rewrite <- Hheld.
  - by rewrite <- Hp.
  - intros H. destruct (Hsr H) as (p & ? & ?). exists p. by rewrite <- Hp.
  - intros H. destruct (Hsa H) as (p & ? & ?). exists p. by rewrite <- Hp.
  - intros H. by eapply all_blocked_mono, Hb.
  - apply Forall_forall. intros p Hin. assert (p ∈ t1) as Hin1 by by rewrite Hp.
    rewrite Forall_forall in Hph. specialize (Hph p Hin1). unfold phase in *. simpl in *.
    destruct p; try done; [|by eapply all_blocked_mono].
    destruct Hph as (? & ? & ? & ?). split_and!; try done. by eapply all_blocked_mono.
Qed.

(** *** Combiners and servers *)

Lemma phase_of_non_combiner s lr p : is_combiner p = false → phase s lr p.
Proof. by destruct p. Qed.

Lemma sole_combiner p rest b :
  length (filter is_combiner (p :: rest)) = (if b : bool then 1 else 0) → is_combiner p = true →
  b = true ∧ Forall (λ q, is_combiner q = false) rest.
Proof.
  intros Hlen Hp. rewrite filter_cons, decide_True in Hlen by (by rewrite Hp).
  destruct b; simpl in Hlen; [|done]. split; [done|].
  assert (filter is_combiner rest = []) as E by (apply nil_length_inv; lia).
  apply Forall_forall. intros q Hq. apply not_true_iff_false. intros Hc.
  assert (q ∈ filter is_combiner rest) as Hin by (apply list_elem_of_filter; by rewrite Hc).
  rewrite E in Hin. by apply not_elem_of_nil in Hin.
Qed.

Lemma count_same p p' rest k :
  is_combiner p = is_combiner p' →
  length (filter is_combiner (p :: rest)) = k → length (filter is_combiner (p' :: rest)) = k.
Proof. intros E <-. rewrite !filter_cons. rewrite E. by destruct (decide (is_combiner p')). Qed.

Ltac keep_count Hm := first [exact Hm | eapply count_same, Hm; reflexivity].

Lemma phases_of_non_combiners s lr ts : Forall (λ q, is_combiner q = false) ts → Forall (phase s lr) ts.
Proof. intros H. eapply Forall_impl; [done|]. intros p. apply phase_of_non_combiner. Qed.

Lemma phases_mono s s' lr lr' ts :
  held s lr ⊆ held s' lr' → waiting (cmb (sh s')) = waiting (cmb (sh s)) →
  locks (cmb (sh s')) = locks (cmb (sh s)) →
  Forall (phase s lr) ts → Forall (phase s' lr') ts.
Proof.
  intros Hsub Ew El H. eapply Forall_impl; [done|]. intros p. unfold phase. rewrite Ew, El.
  destruct p; try done; [|by apply all_blocked_mono].
  intros (? & ? & ? & ?). split_and!; try done. by eapply all_blocked_mono.
Qed.

Lemma server_stays (f : pc → bool) p next rest :
  (f p = true → ∃ q, next = Some q ∧ f q = true) →
  (∃ q, q ∈ p :: rest ∧ f q = true) → ∃ q, q ∈ option_list next ++ rest ∧ f q = true.
Proof.
  intros Hp (q & Hin & Hq). apply elem_of_cons in Hin as [->|Hin].
  - destruct (Hp Hq) as (q' & -> & ?). exists q'. split; [by left|done].
  - exists q. split; [|done]. apply elem_of_app. by right.
Qed.

Lemma combiner_serves ts (b : bool) :
  length (filter is_combiner ts) = (if b then 1 else 0) → b = true →
  ∃ q, q ∈ ts ∧ is_combiner q = true.
Proof.
  intros Hlen ->. destruct (filter is_combiner ts) as [|q l] eqn:E; [done|].
  assert (q ∈ filter is_combiner ts) as Hin by (rewrite E; by left).
  apply list_elem_of_filter in Hin as [Hq ?]. exists q. split; [done|by apply Is_true_true in Hq].
Qed.

Lemma serves_both q : is_combiner q = true → serves_releases q = true ∧ serves_arrivals q = true.
Proof. destruct q; simpl; try done. Qed.

(** Every goroutine's next step succeeds and keeps the invariant. *)
Definition preserves (sh1 : shared) (p : pc) (rest : list pc) : Prop :=
  ∃ sh' next, exec taskTable sh1 p = Some (sh', next) ∧
    ∃ la lr, inv (mkSys sh' (option_list next ++ rest)) la lr.

Implicit Types sh : shared (Q1 := Q1) (Q2 := Q2).

Lemma preserves_arrive_push sh1 rest la lr request :
  inv (mkSys sh1 (ArrivePush request :: rest)) la lr → preserves sh1 (ArrivePush request) rest.
Proof using FifoLaws0.
  intros [Ha Hr Hv Hh Hc Hm Hsr Hsa Hb Hph]. simpl in *.
  destruct (fifo_repr_push _ la request Ha) as (q & Eq & Hq).
  unfold preserves. simpl. rewrite Eq. simpl. do 2 eexists. split; [done|].
  exists (la ++ [request]), lr. apply Forall_cons in Hph as [_ Hph].
  split; simpl; [done|done| |done|done| | | |done|].
  - revert Hv. unfold held_tasks. simpl. rewrite !fmap_app, !Forall_app. simpl.
    rewrite Forall_cons. rewrite Forall_singleton. tauto.
  - keep_count Hm.
  - intros _. exists TryLock. split; [by left|done].
  - intros _. exists TryLock. split; [by left|done].
  - constructor; [done|]. by eapply phases_mono, Hph.
Qed.

Lemma preserves_release_push sh1 rest la lr t :
  inv (mkSys sh1 (ReleasePush t :: rest)) la lr → preserves sh1 (ReleasePush t) rest.
Proof using FifoLaws1.
  intros [Ha Hr Hv Hh Hc Hm Hsr Hsa Hb Hph]. simpl in *.
  destruct (fifo_repr_push _ lr t Hr) as (q & Eq & Hq).
  unfold preserves. simpl. rewrite Eq. simpl. do 2 eexists. split; [done|].
  set (sh' := with_cmb sh1 _).
  assert (Hp : held_tasks (mkSys sh1 (ReleasePush t :: rest)) lr =
    held_tasks (mkSys sh' (TryLock :: rest)) (lr ++ [t])).
  { unfold held_tasks. simpl. by rewrite <- !(assoc (++)). }
  assert (Hheld : held (mkSys sh1 (ReleasePush t :: rest)) lr =
    held (mkSys sh' (TryLock :: rest)) (lr ++ [t])) by (unfold held; by rewrite Hp).
  rewrite Hp in Hv. rewrite Hheld in *.
  exists la, (lr ++ [t]). apply Forall_cons in Hph as [_ Hph].
  split; simpl; [done..| | | |done|].
  - keep_count Hm.
  - intros _. exists TryLock. split; [by left|done].
  - intros _. exists TryLock. split; [by left|done].
  - constructor; [done|]. eapply phases_mono, Hph; [by rewrite <- Hheld|done|done].
Qed.

Lemma preserves_try_lock sh1 rest la lr :
  inv (mkSys sh1 (TryLock :: rest)) la lr → preserves sh1 TryLock rest.
Proof.
  intros [Ha Hr Hv Hh Hc Hm Hsr Hsa Hb Hph]. simpl in *. apply Forall_cons in Hph as [_ Hph].
  unfold preserves. simpl. destruct (mutex sh1) eqn:Em; do 2 eexists; (split; [done|]); exists la, lr.
  - destruct (combiner_serves rest true) as (q & Hin & Hq); [|done|].
    { by rewrite filter_cons in Hm. }
    destruct (serves_both q Hq).
    split; simpl; [done..| |intros _; by exists q|intros _; by exists q|congruence|done].
    by rewrite Em, filter_cons in *.
  - split; simpl; [done..| | | |done|].
    + rewrite filter_cons in *. simpl in *. lia.
    + intros _. exists DrainReleases. split; [by left|done].
    + intros _. exists DrainReleases. split; [by left|done].
    + constructor; [done|]. by eapply phases_mono, Hph.
Qed.

Lemma preserves_drain_releases sh1 rest la lr :
  inv (mkSys sh1 (DrainReleases :: rest)) la lr → preserves sh1 DrainReleases rest.
Proof using FifoLaws1.
  intros [Ha Hr Hv Hh Hc Hm Hsr Hsa Hb Hph]. simpl in *.
  destruct (sole_combiner (DrainReleases) rest (mutex sh1) Hm eq_refl) as [Em Hrest].
  destruct (fifo_repr_drain _ lr Hr) as (q & Eq & Hq).
  unfold preserves. simpl. rewrite Eq. simpl. do 2 eexists. split; [done|].
  exists la, []. split; simpl; [done|done|done|done|done| |done| |congruence|].
  - keep_count Hm.
  - intros _. exists (Unlocking lr). split; [by left|done].
  - constructor; [done|by apply phases_of_non_combiners].
Qed.

Lemma preserves_unlocking_done sh1 rest la lr :
  inv (mkSys sh1 (Unlocking [] :: rest)) la lr → preserves sh1 (Unlocking []) rest.
Proof.
  intros [Ha Hr Hv Hh Hc Hm Hsr Hsa Hb Hph]. simpl in *.
  destruct (sole_combiner (Unlocking []) rest (mutex sh1) Hm eq_refl) as [Em Hrest].
  do 2 eexists. split; [done|]. exists la, lr.
  split; simpl; [done..| | | |congruence|].
  - keep_count Hm.
  - intros _. exists DrainArrivals. split; [by left|done].
  - intros _. exists DrainArrivals. split; [by left|done].
  - constructor; [done|by apply phases_of_non_combiners].
Qed.

Lemma preserves_unlocking sh1 rest la lr t ts :
  length (held_tasks (mkSys sh1 (Unlocking (t :: ts) :: rest)) lr) < max_holders →
  inv (mkSys sh1 (Unlocking (t :: ts) :: rest)) la lr → preserves sh1 (Unlocking (t :: ts)) rest.
Proof using table_wf.
  intros Hmax [Ha Hr Hv Hh Hc Hm Hsr Hsa Hb Hph]. simpl in *.
  destruct (sole_combiner (Unlocking (t :: ts)) rest (mutex sh1) Hm eq_refl) as [Em Hrest].
  set (s0 := mkSys sh1 (Unlocking (t :: ts) :: rest)) in *.
  assert (Hp : ∀ sh', running sh' = running sh1 →
    held_tasks s0 lr ≡ₚ t :: held_tasks (mkSys sh' (Unlocking ts :: rest)) lr).
  { intros sh' E. unfold held_tasks. simpl. rewrite E, !Permutation_middle. done. }
  rewrite (Hp sh1) in Hv by done. simpl in Hv. apply Forall_cons in Hv as [Ht Hv].
  destruct (valid_lookup t Ht) as [El Hwf].
  assert (Hheld : held s0 lr ≡ₚ locks_of t :: held (mkSys sh1 (Unlocking ts :: rest)) lr)
    by (unfold held; by rewrite (Hp sh1)).
  rewrite Hheld in Hh, Hc. destruct Hc as [Hct Hc].
  destruct (holds_unlock _ _ _ _ Hh Hwf Hct) as (s' & Hs' & Hh' & _).
  { rewrite (Hp sh1) in Hmax by done. unfold held. rewrite length_fmap. simpl in Hmax. lia. }
  unfold preserves. simpl. rewrite El. simpl. rewrite Hs'. simpl. do 2 eexists. split; [done|].
  exists la, lr. split; simpl; [done..| | | |congruence|].
  - keep_count Hm.
  - intros _. exists (Unlocking ts). split; [by left|done].
  - intros _. exists (Unlocking ts). split; [by left|done].
  - constructor; [done|by apply phases_of_non_combiners].
Qed.

Lemma preserves_drain_arrivals sh1 rest la lr :
  inv (mkSys sh1 (DrainArrivals :: rest)) la lr → preserves sh1 DrainArrivals rest.
Proof using FifoLaws0.
  intros [Ha Hr Hv Hh Hc Hm Hsr Hsa Hb Hph]. simpl in *.
  destruct (sole_combiner (DrainArrivals) rest (mutex sh1) Hm eq_refl) as [Em Hrest].
  destruct (fifo_repr_drain _ la Ha) as (q & Eq & Hq).
  unfold preserves. simpl. rewrite Eq. simpl. do 2 eexists. split; [done|].
  destruct (holds_clearReservations _ _ _ Hh) as [Hh' Hres].
  exists [], lr. split; simpl; [done|done| |done|done| | |done|congruence|].
  - revert Hv. unfold held_tasks. simpl. rewrite !fmap_app, !Forall_app. tauto.
  - keep_count Hm.
  - intros _. exists (Granting 0 0). split; [by left|done].
  - constructor; [|by apply phases_of_non_combiners]. simpl.
    split_and!; [lia|lia|apply all_blocked_nil|exact Hres].
Qed.

Lemma preserves_unlock_mutex sh1 rest la lr :
  inv (mkSys sh1 (UnlockMutex :: rest)) la lr → preserves sh1 UnlockMutex rest.
Proof.
  intros [Ha Hr Hv Hh Hc Hm Hsr Hsa Hb Hph]. simpl in *.
  destruct (sole_combiner (UnlockMutex) rest (mutex sh1) Hm eq_refl) as [Em Hrest]. apply Forall_cons in Hph as [Hw _].
  do 2 eexists. split; [done|]. exists la, lr.
  split; simpl; [done..| | | |done|].
  - rewrite Em in Hm. injection Hm as Hm. exact Hm.
  - intros _. exists RecheckReleases. split; [by left|done].
  - intros _. exists RecheckReleases. split; [by left|done].
  - constructor; [done|by apply phases_of_non_combiners].
Qed.

Lemma preserves_recheck_releases sh1 rest la lr :
  inv (mkSys sh1 (RecheckReleases :: rest)) la lr → preserves sh1 RecheckReleases rest.
Proof using FifoLaws1.
  intros [Ha Hr Hv Hh Hc Hm Hsr Hsa Hb Hph]. simpl in *. apply Forall_cons in Hph as [_ Hph].
  unfold preserves. simpl. rewrite (fifo_repr_len _ _ Hr).
  destruct (decide (length lr = 0)) as [E|E]; do 2 eexists; (split; [done|]); exists la, lr.
  - apply nil_length_inv in E as ->. split; simpl; [done..| |done| |done|].
    + keep_count Hm.
    + intros _. exists RecheckArrivals. split; [by left|done].
    + constructor; [done|]. by eapply phases_mono, Hph.
  - split; simpl; [done..| | | |done|].
    + keep_count Hm.
    + intros _. exists TryLock. split; [by left|done].
    + intros _. exists TryLock. split; [by left|done].
    + constructor; [done|]. by eapply phases_mono, Hph.
Qed.

Lemma preserves_recheck_arrivals sh1 rest la lr :
  inv (mkSys sh1 (RecheckArrivals :: rest)) la lr → preserves sh1 RecheckArrivals rest.
Proof using FifoLaws0.
  intros [Ha Hr Hv Hh Hc Hm Hsr Hsa Hb Hph]. simpl in *. apply Forall_cons in Hph as [_ Hph].
  unfold preserves. simpl. rewrite (fifo_repr_len _ _ Ha).
  destruct (decide (length la = 0)) as [E|E]; do 2 eexists; (split; [done|]); exists la, lr.
  - apply nil_length_inv in E as ->. split; simpl; [done..| | |done|done|].
    + by rewrite filter_cons in Hm.
    + intros H. by apply (server_stays _ RecheckArrivals None), Hsr.
    + by eapply phases_mono, Hph.
  - split; simpl; [done..| | | |done|].
    + keep_count Hm.
    + intros _. exists TryLock. split; [by left|done].
    + intros _. exists TryLock. split; [by left|done].
    + constructor; [done|]. by eapply phases_mono, Hph.
Qed.

(** *** The pass over the waiting requests *)

Lemma waiting_valid s la lr request :
  inv s la lr → request ∈ waiting (cmb (sh s)) → valid (task request).
Proof.
  intros [_ _ Hv _ _ _ _ _ _ _] Hin. rewrite !Forall_app, fmap_app, Forall_app in Hv.
  destruct Hv as (_ & (_ & Hv) & _). rewrite Forall_fmap, Forall_forall in Hv. by apply Hv.
Qed.

Lemma preserves_granting_end sh rest la lr i j :
  waiting (cmb sh) !! i = None →
  inv (mkSys sh (Granting i j :: rest)) la lr → preserves sh (Granting i j) rest.
Proof.
  intros Hi [Ha Hr Hv Hh Hc Hm Hsr Hsa Hb Hph]. cbn [Combiner.sh threads] in *.
  destruct (sole_combiner (Granting i j) rest (mutex sh) Hm eq_refl) as [Em Hrest].
  apply Forall_cons in Hph as [(Hji & Hiw & Hblk & _) _]. simpl in Hblk.
  unfold preserves. simpl. rewrite Hi. do 2 eexists. split; [done|]. exists la, lr.
  split; simpl; [done|done| |done|done| | | |congruence|].
  - revert Hv. unfold held_tasks. simpl. rewrite !fmap_app, !Forall_app, fmap_take.
    intros (? & (? & ?) & ?). split_and!; try tauto. by apply Forall_take.
  - keep_count Hm.
  - intros _. exists UnlockMutex. split; [by left|done].
  - intros _. exists UnlockMutex. split; [by left|done].
  - constructor; [exact Hblk|by apply phases_of_non_combiners].
Qed.

Lemma preserves_granted sh rest la lr i j request ls' :
  waiting (cmb sh) !! i = Some request →
  length (held_tasks (mkSys sh (Granting i j :: rest)) lr) < max_holders →
  consider taskTable (locks (cmb sh)) request = Some (ls', true) →
  inv (mkSys sh (Granting i j :: rest)) la lr → preserves sh (Granting i j) rest.
Proof using table_wf.
  intros Hi Hmax Hcons Hinv.
  pose proof (waiting_valid _ _ _ request Hinv (list_elem_of_lookup_2 _ _ _ Hi)) as Hval.
  destruct Hinv as [Ha Hr Hv Hh Hc Hm Hsr Hsa Hb Hph]. cbn [Combiner.sh threads] in *.
  destruct (sole_combiner (Granting i j) rest (mutex sh) Hm eq_refl) as [Em Hrest].
  apply Forall_cons in Hph as [(Hji & Hiw & Hblk & Hres) _]. cbn [Combiner.sh threads] in *.
  unfold preserves. simpl. rewrite Hi. rewrite Hcons. simpl. do 2 eexists. split; [done|].
  set (s0 := mkSys sh (Granting i j :: rest)) in *.
  set (s1 := mkSys _ _). assert (Hp : held_tasks s1 lr ≡ₚ task request :: held_tasks s0 lr).
  { unfold held_tasks. simpl. rewrite fmap_app, <- (assoc (++)). simpl. by rewrite <- Permutation_middle. }
  assert (Hheld : held s1 lr ≡ₚ locks_of (task request) :: held s0 lr) by (unfold held; by rewrite Hp).
  destruct (valid_lookup _ Hval) as [El Hwf].
  unfold consider in Hcons. rewrite El in Hcons. simpl in Hcons.
  destruct (holds_canLock n _ _ _ Hh Hwf) as (b & Eb & Hbt). rewrite Eb in Hcons. simpl in Hcons.
  destruct (holds_lock n _ _ _ Hh Hwf) as (s2 & E2 & Hh2 & Er2).
  { unfold held. by rewrite length_fmap. }
  destruct b; [|by destruct (reserve (locks (cmb sh)) (locks_of (task request)))].
  rewrite E2 in Hcons. simpl in Hcons. injection Hcons as ->.
  destruct Hbt as [[Hcompat _] _]; [done|].
  exists la, lr. split; [done|done| | | | | | |simpl; congruence|].
  - rewrite Hp. simpl. constructor; [done|exact Hv].
  - rewrite Hheld. exact Hh2.
  - rewrite Hheld. by split.
  - simpl. keep_count Hm.
  - intros _. exists (Granting (i + 1) j). split; [by left|done].
  - intros _. exists (Granting (i + 1) j). split; [by left|done].
  - constructor; [|by apply phases_of_non_combiners]. unfold phase. simpl.
    pose proof (lookup_lt_Some _ _ _ Hi). split_and!; [lia|lia| |by rewrite Er2].
    eapply all_blocked_mono, Hblk. intros x Hx. rewrite Hheld. by right.
Qed.

Lemma preserves_refused sh rest la lr i j request ls' :
  waiting (cmb sh) !! i = Some request →
  consider taskTable (locks (cmb sh)) request = Some (ls', false) →
  inv (mkSys sh (Granting i j :: rest)) la lr → preserves sh (Granting i j) rest.
Proof using table_wf.
  intros Hi Hcons Hinv.
  pose proof (waiting_valid _ _ _ request Hinv (list_elem_of_lookup_2 _ _ _ Hi)) as Hval.
  pose proof (lookup_lt_Some _ _ _ Hi) as Hlt.
  destruct Hinv as [Ha Hr Hv Hh Hc Hm Hsr Hsa Hb Hph]. cbn [Combiner.sh threads] in *.
  destruct (sole_combiner (Granting i j) rest (mutex sh) Hm eq_refl) as [Em Hrest].
  apply Forall_cons in Hph as [(Hji & Hiw & Hblk & Hres) _]. cbn [Combiner.sh threads] in *.
  set (w := waiting (cmb sh)) in *.
  unfold preserves. simpl. fold w. rewrite Hi. rewrite Hcons. cbn [mbind option_bind].
  rewrite list_set_Some by lia. cbn [mbind option_bind]. do 2 eexists. split; [done|].
  set (s0 := mkSys sh (Granting i j :: rest)) in *. set (s1 := mkSys _ _).
  destruct (valid_lookup _ Hval) as [El Hwf].
  unfold consider in Hcons. rewrite El in Hcons. cbn [mbind option_bind] in Hcons.
  destruct (canLock (locks (cmb sh)) (locks_of (task request))) as [b|] eqn:Eb; [|done].
  cbn [mbind option_bind] in Hcons.
  destruct b; [by destruct (lock (locks (cmb sh)) (locks_of (task request)))|].
  destruct (holds_reserve n _ _ _ Hh Hwf) as (s2 & E2 & Hh2 & Er2).
  rewrite E2 in Hcons. injection Hcons as ->.
  assert (Ht : take (j + 1) (<[j:=request]> w) = take j w ++ [request]).
  { rewrite Nat.add_1_r, (take_S_r _ _ request) by (rewrite list_lookup_insert_eq; [done|lia]).
    by rewrite take_insert_ge by lia. }
  assert (Hblocked : blocked (held s0 lr) (take j w) request).
  { destruct (holds_canLock_refused n _ _ _ Hh Hwf Eb) as [|(r & Hr1 & Hr2)]; [by left|right].
    rewrite Hres in Hr1. apply existsb_exists in Hr1 as (o & Hin%list_elem_of_In & Ho). by exists o, r. }
  exists la, lr. split; [done|done| |exact Hh2|exact Hc| | | |simpl; congruence|].
  - revert Hv. subst s1. unfold held_tasks. simpl. fold w. rewrite !fmap_app, !Forall_app, list_fmap_insert.
    intros (? & (? & ?) & ?). split_and!; try tauto. by apply Forall_insert.
  - simpl. keep_count Hm.
  - intros _. exists (Granting (i + 1) (j + 1)). split; [by left|done].
  - intros _. exists (Granting (i + 1) (j + 1)). split; [by left|done].
  - constructor; [|by apply phases_of_non_combiners]. unfold phase. simpl. rewrite Ht.
    split_and!; [lia|rewrite length_insert; lia|by apply all_blocked_snoc|].
    intros r. rewrite Er2, Hres, existsb_app. simpl. by rewrite orb_false_r.
Qed.

(** *** Every step *)

Lemma preserves_exec sh p rest la lr :
  length (held_tasks (mkSys sh (p :: rest)) lr) < max_holders →
  inv (mkSys sh (p :: rest)) la lr → preserves sh p rest.
Proof using table_wf FifoLaws0 FifoLaws1.
  intros Hmax Hinv. destruct p.
  - by eapply preserves_arrive_push.
  - by eapply preserves_release_push.
  - by eapply preserves_try_lock.
  - by eapply preserves_drain_releases.
  - destruct tasks; [by eapply preserves_unlocking_done|by eapply preserves_unlocking].
  - by eapply preserves_drain_arrivals.
  - destruct (waiting (cmb sh) !! i) as [request|] eqn:Hi; [|by eapply preserves_granting_end].
    pose proof (waiting_valid _ _ _ request Hinv (list_elem_of_lookup_2 _ _ _ Hi)) as Hval.
    destruct (consider taskTable (locks (cmb sh)) request) as [[s' [|]]|] eqn:Hc.
    + by eapply preserves_granted.
    + by eapply preserves_refused.
    + exfalso. destruct (valid_lookup _ Hval) as [El Hwf]. unfold consider in Hc. rewrite El in Hc.
      destruct (holds_canLock n _ _ _ (inv_holds _ _ _ Hinv) Hwf) as (b & Eb & _).
      destruct (holds_lock n _ _ _ (inv_holds _ _ _ Hinv) Hwf) as (s1 & E1 & _).
      { unfold held. by rewrite length_fmap. }
      destruct (holds_reserve n _ _ _ (inv_holds _ _ _ Hinv) Hwf) as (s2 & E2 & _).
      cbn [mbind option_bind Combiner.sh] in *. rewrite Eb in Hc. cbn [mbind option_bind] in Hc.
      destruct b; [by rewrite E1 in Hc|by rewrite E2 in Hc].
  - by eapply preserves_unlock_mutex.
  - by eapply preserves_recheck_releases.
  - by eapply preserves_recheck_arrivals.
Qed.

Lemma preserves_arrive s la lr request p :
  arrive taskTable request = Some (Some p) →
  inv s la lr → inv (mkSys (sh s) (p :: threads s)) la lr.
Proof.
  unfold arrive. intros Harr [Ha Hr Hv Hh Hc Hm Hsr Hsa Hb Hph].
  destruct (lookup_locks taskTable (task request)) as [l|] eqn:El; [|done]. simpl in Harr.
  destruct (locksNothing l); [done|]. injection Harr as <-.
  split; simpl; [done|done| |done|done|done| | |done|].
  - revert Hv. unfold held_tasks. simpl. rewrite !Forall_app, Forall_cons.
    intros (? & ? & ?). split_and!; try tauto. by exists l.
  - intros H. destruct (Hsr H) as (q & ? & ?). exists q. split; [by right|done].
  - intros H. destruct (Hsa H) as (q & ? & ?). exists q. split; [by right|done].
  - constructor; [done|]. by eapply phases_mono, Hph.
Qed.

Lemma preserves_finish s la lr request p before after :
  running (sh s) = before ++ request :: after →
  release taskTable (task request) = Some (Some p) →
  inv s la lr →
  inv (mkSys (mkShared (cmb (sh s)) (mutex (sh s)) (before ++ after)) (p :: threads s)) la lr.
Proof.
  unfold release. intros Hrun Hrel [Ha Hr Hv Hh Hc Hm Hsr Hsa Hb Hph].
  destruct (lookup_locks taskTable (task request)) as [l|] eqn:El; [|done]. simpl in Hrel.
  destruct (locksNothing l); [done|]. injection Hrel as <-. set (s1 := mkSys _ _).
  assert (Hp : held_tasks s lr ≡ₚ held_tasks s1 lr).
  { unfold held_tasks. simpl. rewrite Hrun, !fmap_app, fmap_cons. solve_Permutation. }
  assert (Hheld : held s lr ≡ₚ held s1 lr) by (unfold held; by rewrite Hp).
  assert (Hsub : held s lr ⊆ held s1 lr) by (intros x; by rewrite Hheld).
  split; [done|done| | | |done| | | |].
  - revert Hv. by rewrite Hp.
  - by rewrite <- Hheld.
  - by rewrite <- Hheld.
  - intros H. destruct (Hsr H) as (q & ? & ?). exists q. split; [by right|done].
  - intros H. destruct (Hsa H) as (q & ? & ?). exists q. split; [by right|done].
  - intros H. by eapply all_blocked_mono, Hb.
  - constructor; [done|]. by eapply phases_mono, Hph.
Qed.

Lemma combiner_inv_initial : inv (initial n) [] [].
Proof using FifoLaws0 FifoLaws1.
  split; simpl; try done; [apply fifo_repr_empty..|]. apply makeLockState_holds.
Qed.

Lemma combiner_reachable_inv s : reachable s → ∃ la lr, inv s la lr.
Proof using table_wf FifoLaws0 FifoLaws1.
  induction 1 as [|s s' _ (la & lr & Hinv) Hbound Hstep]; [exists [], []; apply combiner_inv_initial|].
  destruct Hstep as [s p rest sh' next Hthreads Hexec|s request p Harr|s request p before after Hrun Hrel].
  - destruct s as [sh1 ts]. simpl in *.
    pose proof (Hbound lr (inv_releases _ _ _ Hinv)) as Hmax.
    rewrite (held_tasks_perm _ _ _ lr Hthreads) in Hmax.
    destruct (preserves_exec sh1 p rest la lr Hmax) as (sh2 & next2 & E & Hinv').
    { by eapply combiner_inv_perm. }
    rewrite Hexec in E. injection E as <- <-. done.
  - exists la, lr. by eapply preserves_arrive.
  - exists la, lr. by eapply preserves_finish.
Qed.

(** ** Termination *)

(** A step of a goroutine already inside arrive or release: no job arrives
    and none finishes. *)
Definition thread_step s s' : Prop :=
  ∃ p rest sh' next, threads s ≡ₚ p :: rest ∧ exec taskTable (sh s) p = Some (sh', next) ∧
    s' = mkSys sh' (option_list next ++ rest).

Definition pushes (p : pc) : nat :=
  match p with ArrivePush _ | ReleasePush _ => 1 | _ => 0 end.

(** How far a goroutine is from draining the releases, when there are any;
    from draining the arrivals, when there are only those; or else from
    returning.  [w] is how many requests wait. *)
Definition rank (has_releases has_arrivals : bool) (w : nat) (p : pc) : nat :=
  match has_releases, has_arrivals, p with
  | _, _, (ArrivePush _ | ReleasePush _) => 0
  | true, _, DrainReleases => 1
  | true, _, TryLock => 2
  | true, _, RecheckArrivals => 3
  | true, _, RecheckReleases => 4
  | true, _, UnlockMutex => 5
  | true, _, Granting i _ => 6 + (w - i)
  | true, _, DrainArrivals => 7 + w
  | true, _, Unlocking ts => 8 + w + length ts
  | false, true, DrainArrivals => 1
  | false, true, Unlocking ts => 2 + length ts
  | false, true, DrainReleases => 3
  | false, true, TryLock => 4
  | false, true, RecheckArrivals => 5
  | false, true, RecheckReleases => 6
  | false, true, UnlockMutex => 7
  | false, true, Granting i _ => 8 + (w - i)
  | false, false, RecheckArrivals => 1
  | false, false, RecheckReleases => 2
  | false, false, UnlockMutex => 3
  | false, false, Granting i _ => 4 + (w - i)
  | false, false, DrainArrivals => 5 + w
  | false, false, Unlocking ts => 6 + w + length ts
  | false, false, DrainReleases => 7 + w
  | false, false, TryLock => 8 + w
  end.

Definition pending (k : nat) : bool := negb (k =? 0).

Lemma pending_positive k : k ≠ 0 → pending k = true.
Proof. intros H%Nat.eqb_neq. unfold pending. by rewrite H. Qed.

Definition measure_of s : nat * (nat * (nat * nat)) :=
  let c := cmb (sh s) in
  let r := pending (fifo_len (releases c)) in
  let a := pending (fifo_len (arrivals c)) in
  (sum_list_with pushes (threads s),
   (Nat.b2n r, (Nat.b2n a, sum_list_with (rank r a (length (waiting c))) (threads s)))).

Definition queued s : Prop :=
  ∃ la lr, fifo_repr (arrivals (cmb (sh s))) la ∧ fifo_repr (releases (cmb (sh s))) lr.

Lemma rank_mono r a w w' ts : w' ≤ w →
  sum_list_with (rank r a w') ts ≤ sum_list_with (rank r a w) ts.
Proof.
  intros Hw. induction ts as [|p ts IH]; simpl; [done|].
  assert (rank r a w' p ≤ rank r a w p); [|lia]. destruct r, a, p; simpl; lia.
Qed.

Lemma rank_pos r a w p : pushes p = 0 → 1 ≤ rank r a w p.
Proof. destruct r, a, p; simpl; lia. Qed.

Lemma consider_waiting sh i j sh' next :
  exec taskTable sh (Granting i j) = Some (sh', next) →
  arrivals (cmb sh') = arrivals (cmb sh) ∧ releases (cmb sh') = releases (cmb sh) ∧
  length (waiting (cmb sh')) ≤ length (waiting (cmb sh)) ∧
  (waiting (cmb sh) !! i = None ∧ next = Some UnlockMutex ∨
   i < length (waiting (cmb sh)) ∧ ∃ j', next = Some (Granting (i + 1) j')).
Proof.
  simpl. destruct (waiting (cmb sh) !! i) as [request|] eqn:Hi.
  - pose proof (lookup_lt_Some _ _ _ Hi).
    destruct (consider _ _ _) as [[s' [|]]|]; simpl; [|destruct (list_set _ _ _) as [w|] eqn:Ew; [|done]|done].
    + intros [= <- <-]. simpl. split_and!; eauto.
    + intros [= <- <-]. apply list_set_inv in Ew as [_ ->]. simpl.
      rewrite length_insert. split_and!; eauto.
  - intros [= <- <-]. simpl. rewrite length_take. split_and!; eauto. lia.
Qed.

Definition smaller : relation (nat * (nat * (nat * nat))) := lex lt (lex lt (lex lt lt)).

Lemma smaller_wf : well_founded smaller.
Proof. repeat apply lex_wf; apply lt_wf. Qed.

Lemma sum_list_with_app_option {A} (f : A → nat) o ts :
  sum_list_with f (option_list o ++ ts) = sum_list_with f (option_list o) + sum_list_with f ts.
Proof. by rewrite sum_list_with_app. Qed.

(** One goroutine's step, seen from the two queues, the waiting requests and
    the goroutine. *)
Lemma smaller_step sh rest p sh' next :
  let r sh := pending (fifo_len (releases (cmb sh))) in
  let a sh := pending (fifo_len (arrivals (cmb sh))) in
  let w sh := length (waiting (cmb sh)) in
  sum_list_with pushes (option_list next) < pushes p ∨
  pushes p = 0 ∧ sum_list_with pushes (option_list next) = 0 ∧
  (r sh = true ∧ r sh' = false ∨
   r sh' = r sh ∧ a sh = true ∧ a sh' = false ∨
   r sh' = r sh ∧ a sh' = a sh ∧ w sh' ≤ w sh ∧
     sum_list_with (rank (r sh) (a sh) (w sh')) (option_list next) < rank (r sh) (a sh) (w sh) p) →
  smaller (measure_of (mkSys sh' (option_list next ++ rest))) (measure_of (mkSys sh (p :: rest))).
Proof.
  intros r a w H. unfold measure_of, smaller, lex. cbn [Combiner.sh threads fst snd].
  fold (r sh) (a sh) (w sh) (r sh') (a sh') (w sh').
  rewrite !sum_list_with_app_option. cbn [sum_list_with].
  destruct H as [H|(-> & -> & H)]; [left; lia|right]. split; [done|].
  destruct H as [[-> ->]|[(-> & -> & ->)|(-> & -> & Hw & H)]]; [left; simpl; lia|right; split; [done|left; simpl; lia]|].
  do 2 (right; split; [done|]). pose proof (rank_mono (r sh) (a sh) _ _ rest Hw). lia.
Qed.

Lemma exec_queued sh p sh' next rest rest' :
  queued (mkSys sh rest) → exec taskTable sh p = Some (sh', next) → queued (mkSys sh' rest').
Proof using FifoLaws0 FifoLaws1.
  intros (la & lr & Ha & Hr) He. unfold queued in *. cbn [Combiner.sh] in *.
  destruct p; cbn [exec] in He.
  - destruct (fifo_repr_push _ la request Ha) as (q & Eq & Hq). rewrite Eq in He. injection He as <- <-.
    by exists (la ++ [request]), lr.
  - destruct (fifo_repr_push _ lr task0 Hr) as (q & Eq & Hq). rewrite Eq in He. injection He as <- <-.
    by exists la, (lr ++ [task0]).
  - destruct (mutex sh); injection He as <- <-; by exists la, lr.
  - destruct (fifo_repr_drain _ lr Hr) as (q & Eq & Hq). rewrite Eq in He. injection He as <- <-. by exists la, [].
  - destruct tasks; [injection He as <- <-; by exists la, lr|].
    destruct (lookup_locks _ _); [|done]. simpl in He. destruct (unlock _ _); [|done].
    injection He as <- <-. by exists la, lr.
  - destruct (fifo_repr_drain _ la Ha) as (q & Eq & Hq). rewrite Eq in He. injection He as <- <-. by exists [], lr.
  - destruct (consider_waiting sh i j sh' next He) as (-> & -> & _). by exists la, lr.
  - injection He as <- <-. by exists la, lr.
  - destruct (decide _); injection He as <- <-; by exists la, lr.
  - destruct (decide _); injection He as <- <-; by exists la, lr.
Qed.

Lemma exec_smaller sh p rest sh' next :
  queued (mkSys sh (p :: rest)) → exec taskTable sh p = Some (sh', next) →
  smaller (measure_of (mkSys sh' (option_list next ++ rest))) (measure_of (mkSys sh (p :: rest))).
Proof using FifoLaws0 FifoLaws1.
  intros (la & lr & Ha & Hr) He. cbn [Combiner.sh] in *. apply smaller_step. cbv zeta.
  pose proof (fifo_repr_len _ _ Ha) as La. pose proof (fifo_repr_len _ _ Hr) as Lr.
  destruct p; cbn [exec] in He.
  - left. destruct (fifo_push _ _); [|done]. injection He as <- <-. simpl. lia.
  - left. destruct (fifo_push _ _); [|done]. injection He as <- <-. simpl. lia.
  - right. do 2 (split; [by destruct (mutex sh); injection He as <- <-|]). right. right.
    destruct (mutex sh); injection He as <- <-; simpl; (split_and!; [done..|]);
      destruct (pending _), (pending _); simpl; lia.
  - right. destruct (fifo_repr_drain _ lr Hr) as (q & Eq & Hq). rewrite Eq in He. injection He as <- <-.
    split; [done|]. split; [done|]. cbn [cmb with_cmb releases arrivals waiting].
    rewrite (fifo_repr_len _ _ Hq), Lr. destruct lr as [|x lr]; [right; right|by left].
    split_and!; [done..|]. simpl. destruct (pending _); simpl; lia.
  - right. destruct tasks.
    + injection He as <- <-. do 2 (split; [done|]). right. right. split_and!; [done..|].
      simpl. destruct (pending _), (pending _); simpl; lia.
    + destruct (lookup_locks _ _); [|done]. simpl in He. destruct (unlock _ _); [|done].
      injection He as <- <-. do 2 (split; [done|]). right. right. split_and!; [done..|].
      simpl. destruct (pending _), (pending _); simpl; lia.
  - right. destruct (fifo_repr_drain _ la Ha) as (q & Eq & Hq). rewrite Eq in He. injection He as <- <-.
    do 2 (split; [done|]). right. cbn [cmb with_cmb releases arrivals waiting].
    rewrite (fifo_repr_len _ _ Hq), La. destruct la as [|x la]; [right|by left].
    rewrite app_nil_r. split_and!; [done..|]. simpl. destruct (pending _); simpl; lia.
  - destruct (consider_waiting sh i j sh' next He) as (-> & -> & Hw & Hnext).
    right. split; [done|]. split; [destruct Hnext as [[_ ->]|(_ & j' & ->)]; done|].
    right. right. split_and!; [done..|].
    destruct Hnext as [[_ ->]|(Hi & j' & ->)]; simpl; destruct (pending _), (pending _); simpl; lia.
  - right. injection He as <- <-. do 2 (split; [done|]). right. right. split_and!; [done..|].
    simpl. destruct (pending _), (pending _); simpl; lia.
  - right. destruct (decide _) as [E|E]; injection He as <- <-; do 2 (split; [done|]); right; right;
      (split_and!; [done..|]); [rewrite E|rewrite (pending_positive (fifo_len (releases (cmb sh)))) by done];
      simpl; try destruct (pending _); simpl; lia.
  - right. destruct (decide _) as [E|E]; injection He as <- <-; do 2 (split; [done|]); right; right;
      (split_and!; [done..|]); [rewrite E|rewrite (pending_positive (fifo_len (arrivals (cmb sh)))) by done];
      simpl; try destruct (pending _); simpl; lia.
Qed.

Lemma measure_of_perm sh t1 t2 : t1 ≡ₚ t2 → measure_of (mkSys sh t1) = measure_of (mkSys sh t2).
Proof. intros Hp. unfold measure_of. cbn [Combiner.sh threads]. by rewrite Hp. Qed.

Lemma thread_step_smaller s s' :
  queued s → thread_step s s' → queued s' ∧ smaller (measure_of s') (measure_of s).
Proof using FifoLaws0 FifoLaws1.
  destruct s as [sh1 ts]. intros Hq (p & rest & sh' & next & Hp & He & ->). simpl in *.
  split; [by eapply exec_queued|]. rewrite (measure_of_perm _ _ _ Hp). by apply exec_smaller.
Qed.

Lemma queued_terminates s : queued s → Acc (flip thread_step) s.
Proof using FifoLaws0 FifoLaws1.
  remember (measure_of s) as m eqn:Em. revert s Em.
  induction m as [m IH] using (well_founded_induction smaller_wf). intros s -> Hq.
  constructor. intros s' Hstep. destruct (thread_step_smaller s s' Hq Hstep) as [Hq' Hlt].
  by eapply IH.
Qed.

(** ** What the combiner promises *)

(** C3: in every reachable state the locks of any two jobs handed to the
    runner and not finished are compatible: none writes what another reads or
    writes, whatever the interleaving of the goroutines. *)
Theorem combiner_mutual_exclusion s :
  reachable s → all_compatible (locks_of <$> (task <$> running (sh s))).
Proof using table_wf FifoLaws0 FifoLaws1.
  intros Hs. destruct (combiner_reachable_inv s Hs) as (la & lr & Hinv).
  pose proof (inv_compatible _ _ _ Hinv) as Hc. unfold held, held_tasks in Hc.
  rewrite fmap_app in Hc. by apply all_compatible_app in Hc as [? _].
Qed.

(** C5: in every reachable state every goroutine inside arrive or release can
    take its next step without a panic, and however their steps interleave
    they all return: no execution of those goroutines alone is infinite. *)
Theorem combiner_returns s :
  reachable s → bounded s →
  (∀ p, p ∈ threads s → is_Some (exec taskTable (sh s) p)) ∧ Acc (flip thread_step) s.
Proof using table_wf FifoLaws0 FifoLaws1.
  intros Hs Hb. destruct (combiner_reachable_inv s Hs) as (la & lr & Hinv). split.
  - intros p Hin. destruct s as [sh1 ts]. simpl in *.
    apply list_elem_of_split in Hin as (l1 & l2 & ->).
    assert (Hp : l1 ++ p :: l2 ≡ₚ p :: l1 ++ l2) by solve_Permutation.
    pose proof (Hb lr (inv_releases _ _ _ Hinv)) as Hmax. rewrite (held_tasks_perm _ _ _ lr Hp) in Hmax.
    destruct (preserves_exec sh1 p (l1 ++ l2) la lr Hmax) as (sh2 & next2 & E & _); [|by rewrite E].
    by eapply combiner_inv_perm.
  - apply queued_terminates. exists la, lr. split; [apply Hinv|apply Hinv].
Qed.

(** C4: once every goroutine inside arrive or release has returned, nothing is
    stranded: both queues are empty, the oldest waiting request waits for a
    job still running, every other for one or for an older waiting writer, and
    with no job running none waits. *)
Theorem combiner_strands_nothing s :
  reachable s → threads s = [] →
  fifo_len (arrivals (cmb (sh s))) = 0 ∧ fifo_len (releases (cmb (sh s))) = 0 ∧
  (∀ k request, waiting (cmb (sh s)) !! k = Some request →
     (∃ job, job ∈ running (sh s) ∧ ¬ compatible (locks_of (task request)) (locks_of (task job))) ∨
     (∃ o r, o ∈ take k (waiting (cmb (sh s))) ∧ writes_res (locks_of (task o)) r = true ∧
        touches (locks_of (task request)) r = true)) ∧
  (running (sh s) = [] → waiting (cmb (sh s)) = []).
Proof using table_wf FifoLaws0 FifoLaws1.
  intros Hs Ht. destruct (combiner_reachable_inv s Hs) as (la & lr & Hinv).
  destruct Hinv as [Ha Hr _ _ _ Hm Hsr Hsa Hb _]. rewrite Ht in *.
  assert (lr = []) as ->.
  { destruct lr; [done|]. destruct Hsr as (p & Hin & _); [done|]. by apply not_elem_of_nil in Hin. }
  assert (la = []) as ->.
  { destruct la; [done|]. destruct Hsa as (p & Hin & _); [done|]. by apply not_elem_of_nil in Hin. }
  assert (Em : mutex (sh s) = false) by by destruct (mutex (sh s)).
  specialize (Hb Em). unfold held, held_tasks in Hb. rewrite Ht in Hb. simpl in Hb. rewrite app_nil_r in Hb.
  split_and!; [apply (fifo_repr_len _ _ Ha)|apply (fifo_repr_len _ _ Hr)| |].
  - intros k request Hk. destruct (Hb k request Hk) as [(h & Hin & Hn)|Ho]; [left|by right].
    apply list_elem_of_fmap in Hin as (t & -> & Hin). apply list_elem_of_fmap in Hin as (job & -> & Hin).
    by exists job.
  - intros Hrun. rewrite Hrun in Hb. destruct (waiting (cmb (sh s))) as [|request w]; [done|].
    destruct (Hb 0 request eq_refl) as [(h & Hin & _)|(o & r & Hin & _)]; by apply not_elem_of_nil in Hin.
Qed.

(** A request is handed to the runner only past older requests that write
    nothing it touches, and only if it is compatible with every running job. *)
Theorem combiner_keeps_writer_order s i j request sh' j' :
  reachable s → Granting i j ∈ threads s → waiting (cmb (sh s)) !! i = Some request →
  exec taskTable (sh s) (Granting i j) = Some (sh', Some (Granting (i + 1) j')) →
  running sh' ≠ running (sh s) →
  running sh' = running (sh s) ++ [request] ∧
  Forall (λ job, compatible (locks_of (task request)) (locks_of (task job))) (running (sh s)) ∧
  ∀ o r, o ∈ take j (waiting (cmb (sh s))) → writes_res (locks_of (task o)) r = true →
    touches (locks_of (task request)) r = false.
Proof using table_wf FifoLaws0 FifoLaws1.
  intros Hs Hin Hi He Hne. destruct (combiner_reachable_inv s Hs) as (la & lr & Hinv).
  pose proof (waiting_valid _ _ _ request Hinv (list_elem_of_lookup_2 _ _ _ Hi)) as Hval.
  destruct (valid_lookup _ Hval) as [El Hwf].
  pose proof (inv_phase _ _ _ Hinv) as Hph. rewrite Forall_forall in Hph. apply Hph in Hin as (_ & _ & _ & Hres).
  cbn [exec] in He. rewrite Hi in He. unfold consider in He. rewrite El in He. cbn [mbind option_bind] in He.
  destruct (holds_canLock n _ _ _ (inv_holds _ _ _ Hinv) Hwf) as (b & Eb & Hb). rewrite Eb in He.
  destruct b; cbn [mbind option_bind] in He.
  - destruct (lock _ _) as [s2|]; [|done]. simpl in He. injection He as <- _.
    destruct Hb as [[Hcompat Hfree] _]; [done|]. split; [done|]. split.
    + unfold held, held_tasks in Hcompat. rewrite Forall_fmap, Forall_app, Forall_fmap in Hcompat.
      apply Hcompat.
    + intros o r Ho Hw. apply Hfree. rewrite Hres. apply existsb_exists. exists o. by rewrite <- list_elem_of_In.
  - destruct (reserve _ _); [|done]. simpl in He. destruct (list_set _ _ _); [|done]. injection He as <- _. done.
Qed.
End invariant.

(** ** Schedules *)

Section schedule.
Context {Q1 Q2 : Type} `{!Fifo Q1 lockRequest, !FifoLaws Q1 lockRequest}.
Context `{!Fifo Q2 N, !FifoLaws Q2 N}.
Context (n : nat) (taskTable : list taskLocks).
Implicit Types (s : sys (Q1 := Q1) (Q2 := Q2)).

(** One choice of the scheduler: the [k]-th goroutine goes on, a job arrives,
    or the [k]-th running job finishes. *)
Inductive move := Go (k : nat) | Arrives (request : lockRequest) | Finishes (k : nat).

Definition boundedb s : bool :=
  bool_decide (Z.of_nat (length (running (sh s)) + fifo_len (releases (cmb (sh s))) +
                         length (threads s ≫= thread_tasks)) < 2 ^ 31 - 1)%Z.

Definition make_move s (m : move) : option sys :=
  if negb (boundedb s) then None else
  match m with
  | Go k =>
      p ← threads s !! k;
      '(sh', next) ← exec taskTable (sh s) p;
      Some (mkSys sh' (option_list next ++ delete k (threads s)))
  | Arrives request =>
      p ← arrive taskTable request;
      p ← p;
      Some (mkSys (sh s) (p :: threads s))
  | Finishes k =>
      request ← running (sh s) !! k;
      p ← release taskTable (task request);
      p ← p;
      Some (mkSys (mkShared (cmb (sh s)) (mutex (sh s)) (delete k (running (sh s)))) (p :: threads s))
  end.

Lemma boundedb_sound s : boundedb s = true → bounded s.
Proof using FifoLaws1.
  unfold boundedb. rewrite bool_decide_eq_true. intros H lr Hr. apply max_holders_lt.
  unfold held_tasks. rewrite !length_app, length_fmap. rewrite (fifo_repr_len _ _ Hr) in H. lia.
Qed.

Lemma combiner_make_move_step s s' m : make_move s m = Some s' → bounded s ∧ step taskTable s s'.
Proof using FifoLaws1.
  unfold make_move. destruct (boundedb s) eqn:Hb; [|done]. intros Hm.
  split; [by apply boundedb_sound|]. revert Hm.
  destruct m as [k|request|k]; simpl.
  - destruct (threads s !! k) as [p|] eqn:Hk; [|done]. simpl.
    destruct (exec taskTable (sh s) p) as [[sh' next]|] eqn:He; [|done]. intros [= <-].
    eapply step_exec; [|done]. by apply delete_Permutation.
  - destruct (arrive taskTable request) as [[p|]|] eqn:He; [|done..]. intros [= <-].
    by eapply step_arrive.
  - destruct (running (sh s) !! k) as [request|] eqn:Hk; [|done]. simpl.
    destruct (release taskTable (task request)) as [[p|]|] eqn:He; [|done..]. intros [= <-].
    rewrite delete_take_drop. eapply step_finish; [|done]. symmetry. by apply take_drop_middle.
Qed.

Lemma combiner_run_moves_reachable s s' ms :
  reachable n taskTable s → run_moves make_move s ms = Some s' → reachable n taskTable s'.
Proof using FifoLaws1.
  apply run_moves_invariant. intros s1 m s2 Hs [Hb Hstep]%combiner_make_move_step. by eapply reach_step.
Qed.
End schedule.

(** A kernel of two resources and three tasks: one writes 0, one reads both,
    one writes 1.  Its queues are the kernel's. *)
Module Example.
#[export] Instance zero_request : Zero lockRequest := mkRequest 0 0.
Definition tasks : list taskLocks :=
  [mkLocks [0%N] [1%N] false; mkLocks [3%N] [0%N] false; mkLocks [0%N] [2%N] false].
Definition start : sys (Q1 := Queue lockRequest) (Q2 := Queue N) := initial 2.
Definition arrives_and_returns (request : lockRequest) : list move :=
  Arrives request :: replicate 10 (Go 0).
Definition w0 := mkRequest 0 0.
Definition r01 := mkRequest 1 1.
Definition w1 := mkRequest 2 2.

Lemma combiner_example_tasks_wf : Forall (wf_locks 2) tasks.
Proof. do 3 (apply Forall_cons; split; [by apply wf_locksb_sound|]). by apply Forall_nil. Qed.

Lemma combiner_example_reaches ms s : run_moves (make_move tasks) start ms = Some s → reachable 2 tasks s.
Proof. intros H. eapply combiner_run_moves_reachable; [apply reach_initial|exact H]. Qed.

(** The writer of 0 runs, and a reader of both waits for it. *)
Definition one_waits : list move := arrives_and_returns w0 ++ arrives_and_returns r01.

(** A third goroutine, with the writer of 1, is about to consider it. *)
Definition considering : list move := one_waits ++ Arrives w1 :: replicate 6 (Go 0).
End Example.

Import Example.

Lemma combiner_mutual_exclusion_witness :
  ∃ s, run_moves (make_move tasks) start one_waits = Some s ∧ task <$> running (sh s) = [0%N] ∧
    all_compatible (locks_of tasks <$> (task <$> running (sh s))).
Proof.
  destruct (run_moves (make_move tasks) start one_waits) as [s|] eqn:E; [|vm_compute in E; discriminate].
  exists s. split; [done|]. split; [vm_compute in E; by injection E as <-|].
  exact (combiner_mutual_exclusion 2 tasks combiner_example_tasks_wf s (combiner_example_reaches _ _ E)).
Defined.

Lemma combiner_returns_witness :
  ∃ s, run_moves (make_move tasks) start considering = Some s ∧ threads s = [Granting 1 1] ∧
    (∀ p, p ∈ threads s → is_Some (exec tasks (sh s) p)) ∧ Acc (flip (thread_step tasks)) s.
Proof.
  destruct (run_moves (make_move tasks) start considering) as [s|] eqn:E; [|vm_compute in E; discriminate].
  exists s. split; [done|]. split; [vm_compute in E; by injection E as <-|].
  apply (combiner_returns 2 tasks combiner_example_tasks_wf s (combiner_example_reaches _ _ E)).
  apply boundedb_sound. vm_compute in E. by injection E as <-.
Defined.

Lemma combiner_strands_nothing_witness :
  ∃ s, run_moves (make_move tasks) start one_waits = Some s ∧ waiting (cmb (sh s)) = [r01] ∧
    (∀ k request, waiting (cmb (sh s)) !! k = Some request →
     (∃ job, job ∈ running (sh s) ∧
        ¬ compatible (locks_of tasks (task request)) (locks_of tasks (task job))) ∨
     (∃ o r, o ∈ take k (waiting (cmb (sh s))) ∧ writes_res (locks_of tasks (task o)) r = true ∧
        touches (locks_of tasks (task request)) r = true)).
Proof.
  destruct (run_moves (make_move tasks) start one_waits) as [s|] eqn:E; [|vm_compute in E; discriminate].
  exists s. split; [done|]. split; [vm_compute in E; by injection E as <-|].
  apply (combiner_strands_nothing 2 tasks combiner_example_tasks_wf s (combiner_example_reaches _ _ E)).
  vm_compute in E. by injection E as <-.
Defined.

Lemma combiner_keeps_writer_order_witness :
  ∃ s sh', run_moves (make_move tasks) start considering = Some s ∧
    exec tasks (sh s) (Granting 1 1) = Some (sh', Some (Granting 2 1)) ∧
    running sh' = running (sh s) ++ [w1].
Proof.
  destruct (run_moves (make_move tasks) start considering) as [s|] eqn:E; [|vm_compute in E; discriminate].
  destruct (exec tasks (sh s) (Granting 1 1)) as [[sh' next]|] eqn:X;
    [|vm_compute in E; injection E as <-; vm_compute in X; discriminate].
  assert (next = Some (Granting 2 1)) as ->.
  { vm_compute in E. injection E as <-. vm_compute in X. by injection X. }
  exists s, sh'. split; [done|]. split; [done|].
  refine (proj1 (combiner_keeps_writer_order 2 tasks combiner_example_tasks_wf s 1 1 w1 sh' 1
    (combiner_example_reaches _ _ E) _ _ X _)).
  - vm_compute in E. injection E as <-. by left.
  - vm_compute in E. by injection E as <-.
  - vm_compute in E. injection E as <-. vm_compute in X. by injection X as <-.
Defined.

(** A waiting reader reserves nothing: a job that writes what it reads,
    and that arrived after it, is granted while it still waits for another
    resource. *)
Theorem combiner_writer_overtakes_reader :
  ∃ s, run_moves (make_move tasks) start (considering ++ replicate 5 (Go 0)) = Some s ∧
    threads s = [] ∧ running (sh s) = [w0; w1] ∧ waiting (cmb (sh s)) = [r01] ∧
    ¬ compatible (locks_of tasks (task r01)) (locks_of tasks (task w1)).
Proof.
  destruct (run_moves (make_move tasks) start (considering ++ replicate 5 (Go 0))) as [s|] eqn:E;
    [|vm_compute in E; discriminate].
  exists s. vm_compute in E. injection E as <-. split_and!; [done..|].
  intros Hc. destruct (Hc 1) as [_ H]. by specialize (H eq_refl).
Qed.
