(* ===== verification/Dispatcher.v ===== *)
(** * Event handlers of kernel/dispatcher.go and their order

    A dispatcher holds the handlers of one event type.  Init subscribes
    handlers and declares orders between them (kernel/configurator.go);
    [sortHandlers] then sorts them once, and every publication runs them in
    that order.  A handler is an element of [H]; what it does to the event, to
    the out dependency and to the kernel is a parameter of [publish]. *)

From stdpp Require Import strings.
From S2P Require Import Prelude.

Record dispatcher (H : Type) := mkDispatcher {
  handlers : list H;
  orders : list (nat * nat)
}.
Arguments mkDispatcher {H} _ _.
Arguments handlers {H} _.
Arguments orders {H} _.

(** What registration panics with. *)
Inductive registration_error :=
  | NotPointerFree
  | NilHandler
  | ForeignSubscription
  | OrderCycle
  | IndexOutOfRange.

Section dispatcher.
Context {H : Type}.
Implicit Types d : dispatcher H.

(** [Subscribe], for an event that is pointer-free or not and a handler that
    may be nil; a Sub is its index, counted from 1. *)
Definition Subscribe (pointerFree : bool) d (fn : option H) : result registration_error (dispatcher H * nat) :=
  if pointerFree then
    match fn with
    | None => Err NilHandler
    | Some fn =>
        let hs := handlers d ++ [fn] in
        Ok (mkDispatcher hs (orders d), length hs)
    end
  else Err NotPointerFree.

Definition valid_sub d (sub : nat) : bool := (1 <=? sub) && (sub <=? length (handlers d)).

Definition OrderSubscriptions d (before after : nat) : result registration_error (dispatcher H) :=
  if valid_sub d before && valid_sub d after
  then Ok (mkDispatcher (handlers d) (orders d ++ [(before - 1, after - 1)]))
  else Err ForeignSubscription.

(** ** Sorting *)

(** The loop over the declarations: who follows each handler, and how many
    each waits for. *)
Definition count_order (order : nat * nat) (st : list (list nat) * list Z) : option (list (list nat) * list Z) :=
  followers ← list_modify st.1 order.1 (λ l, l ++ [order.2]);
  waiting ← list_modify st.2 order.2 (λ n, (n + 1)%Z);
  Some (followers, waiting).

(** [next]: the first handler not placed that waits for none, with fuel. *)
Fixpoint find_next (fuel i : nat) (placed : list bool) (waiting : list Z) : option (option nat) :=
  match fuel with
  | O => Some None
  | S fuel =>
      p ← placed !! i;
      w ← waiting !! i;
      if negb p && (w =? 0)%Z then Some (Some i) else find_next fuel (i + 1) placed waiting
  end.

(** One turn of the outer loop, handler [next] found. *)
Definition place (followers : list (list nat)) (next : nat) (placed : list bool) (waiting : list Z) :
    option (list bool * list Z) :=
  placed ← list_set placed next true;
  fs ← followers !! next;
  waiting ← for_each fs (λ after w, list_modify w after (λ n, (n - 1)%Z)) waiting;
  Some (placed, waiting).

(** The outer loop, in handler indexes: a turn per handler. *)
Fixpoint sort_loop (turns count : nat) (followers : list (list nat)) (placed : list bool)
    (waiting : list Z) (sorted : list nat) : result registration_error (list nat) :=
  match turns with
  | O => Ok sorted
  | S turns =>
      next ← or_err IndexOutOfRange (find_next count 0 placed waiting);
      match next with
      | None => Err OrderCycle
      | Some next =>
          '(placed, waiting) ← or_err IndexOutOfRange (place followers next placed waiting);
          sort_loop turns count followers placed waiting (sorted ++ [next])
      end
  end.

Definition sort_indexes (count : nat) (ords : list (nat * nat)) : result registration_error (list nat) :=
  '(followers, waiting) ← or_err IndexOutOfRange
    (for_each ords count_order (replicate count [], replicate count 0%Z));
  sort_loop count count followers (replicate count false) waiting [].

Definition sortHandlers d : result registration_error (dispatcher H) :=
  sorted ← sort_indexes (length (handlers d)) (orders d);
  hs ← or_err IndexOutOfRange (mapM (λ i, handlers d !! i) sorted);
  Ok (mkDispatcher hs []).

(** [publish]: the handlers in turn, each on what the one before answered. *)
Definition publish {E J St} (run : H → St → J → E → St * (E * J)) d (s : St) (into : J) (event : E) : St * (E * J) :=
  foldl (λ '(s, (event, into)) h, run h s into event) (s, (event, into)) (handlers d).
End dispatcher.

(** ** What an order means *)

Section order.
Context (count : nat) (ords : list (nat * nat)).

Definition before (a b : nat) : Prop := (a, b) ∈ ords.

#[export] Instance before_dec a b : Decision (before a b).
Proof. unfold before. apply _. Defined.

Definition in_range : Prop := ∀ a b, before a b → a < count ∧ b < count.

(** [π] puts the first of every declaration before the second. *)
Definition respects (π : list nat) : Prop :=
  ∀ l1 b l2, π = l1 ++ b :: l2 → ∀ a, before a b → a ∈ l1.

Definition cyclic : Prop := ∃ a, tc before a a.

(** Not placed, and every handler that must come before it is. *)
Definition ready (s : list nat) (i : nat) : Prop :=
  i < count ∧ (i ∉ s) ∧ ∀ a, before a i → a ∈ s.

(** [l1] comes first in the lexicographic order, or they are equal. *)
Fixpoint lex_le (l1 l2 : list nat) : Prop :=
  match l1, l2 with
  | x :: l1, y :: l2 => x < y ∨ x = y ∧ lex_le l1 l2
  | [], _ => True
  | _, [] => False
  end.

Lemma respects_tc π : respects π → ∀ a b, tc before a b → ∀ l1 l2, π = l1 ++ b :: l2 → a ∈ l1.
Proof using Type.
  intros Hr a b Htc. induction Htc as [a b Hab|a c b Hac Hcb IH]; intros l1 l2 E; [by eapply Hr|].
  destruct (list_elem_of_split _ _ (IH l1 l2 E)) as (m1 & m2 & ->).
  apply elem_of_app. left. eapply (Hr m1 c); [|done]. rewrite E, <- (assoc (++)). done.
Qed.

Lemma tc_last {A} (R : relation A) a b : tc R a b → ∃ c, R c b.
Proof using Type. induction 1; eauto. Qed.

Lemma respects_acyclic π : NoDup π → respects π → (∀ a b, before a b → b ∈ π) → ¬ cyclic.
Proof using Type.
  intros Hnd Hr Hin [a Ha].
  assert (a ∈ π) as (l1 & l2 & E)%list_elem_of_split.
  { destruct (tc_last _ _ _ Ha) as [c Hc]. by eapply Hin. }
  pose proof (respects_tc π Hr a a Ha l1 l2 E) as Ha1. rewrite E in Hnd.
  apply NoDup_app in Hnd as (_ & Hd & _). apply (Hd a Ha1). by left.
Qed.
End order.

(** A finite set each of whose elements has a predecessor in it has a cycle. *)
Lemma predecessors_cycle {A} `{EqDecision A} (l : list A) : ∀ (R : A → A → Prop),
  (∀ x y, Decision (R x y)) → l ≠ [] → (∀ y, y ∈ l → ∃ x, x ∈ l ∧ R x y) → ∃ x, tc R x x.
Proof.
  induction l as [|u l IH]; intros R Hdec Hne Hpred; [done|].
  destruct (decide (R u u)) as [Huu|Huu]; [exists u; by apply tc_once|].
  destruct (decide (l = [])) as [->|Hl].
  { destruct (Hpred u) as (x & Hx & Hxu); [by left|]. apply list_elem_of_singleton in Hx as ->. done. }
  destruct (IH (λ x y, R x y ∨ R x u ∧ R u y)) as (x & Hx); [apply _|done| |].
  - intros y Hy. destruct (Hpred y) as (x & Hx & Hxy); [by right|].
    apply elem_of_cons in Hx as [->|Hx]; [|by eauto].
    destruct (Hpred u) as (z & Hz & Hzu); [by left|].
    apply elem_of_cons in Hz as [->|Hz]; [done|by eauto].
  - exists x. revert Hx. generalize x at 2 4. intros x' Hx.
    induction Hx as [x y [?|[? ?]]|x y z [?|[? ?]] _ IH'].
    + by apply tc_once.
    + eapply tc_l; [done|by apply tc_once].
    + by eapply tc_l.
    + eapply tc_l; [done|by eapply tc_l].
Qed.

(** ** The sort *)

Section sort.
Context (count : nat) (ords : list (nat * nat)).
Hypothesis ords_in_range : in_range count ords.

(** How many declarations make [i] wait for a handler not in [s]. *)
Definition waits (s : list nat) (i : nat) : nat :=
  length (filter (λ o, o.2 = i ∧ o.1 ∉ s) ords).

(** The followers of [i], one per declaration, in declaration order. *)
Definition followers_of (i : nat) : list nat := (filter (λ o, o.1 = i) ords).*2.

Record placed_upto (s : list nat) (placed : list bool) (waiting : list Z) : Prop := {
  upto_placed : ∀ i, i < count → placed !! i = Some (bool_decide (i ∈ s));
  upto_waiting : ∀ i, i < count → waiting !! i = Some (Z.of_nat (waits s i));
  upto_lengths : length placed = count ∧ length waiting = count
}.

Lemma waits_zero s i : waits s i = 0 ↔ ∀ a, before ords a i → a ∈ s.
Proof using Type.
  unfold waits, before. split.
  - intros H%nil_length_inv a Ha. destruct (decide (a ∈ s)); [done|].
    assert ((a, i) ∈ filter (λ o, o.2 = i ∧ o.1 ∉ s) ords) as Hin by (by apply list_elem_of_filter).
    rewrite H in Hin. by apply not_elem_of_nil in Hin.
  - intros H. destruct (filter _ _) as [|[a b] l] eqn:E; [done|].
    assert ((a, b) ∈ filter (λ o, o.2 = i ∧ o.1 ∉ s) ords) as Hin by (rewrite E; by left).
    apply list_elem_of_filter in Hin as [[<- Hns] Hin]. by apply H in Hin.
Qed.

Lemma count_orders_spec :
  ∃ followers waiting,
    for_each ords count_order (replicate count [], replicate count 0%Z) = Some (followers, waiting) ∧
    (∀ i, i < count → followers !! i = Some (followers_of i)) ∧
    placed_upto [] (replicate count false) waiting.
Proof using ords_in_range.
  pose (Inv := λ (done : list (nat * nat)) (st : list (list nat) * list Z),
    (∀ i, i < count → st.1 !! i = Some ((filter (λ o, o.1 = i) done).*2)) ∧
    (∀ i, i < count → st.2 !! i = Some (Z.of_nat (length (filter (λ o, o.2 = i ∧ o.1 ∉ []) done)))) ∧
    length st.1 = count ∧ length st.2 = count).
  destruct (for_each_invariant Inv count_order ords (replicate count [], replicate count 0%Z))
    as ([followers waiting] & -> & Hf & Hw & Hl1 & Hl2).
  - split_and!; simpl; [| |by rewrite length_replicate|by rewrite length_replicate];
      intros i Hi; by apply lookup_replicate_2.
  - intros d [a b] rest [fs ws] E (Hf & Hw & Hl1 & Hl2). simpl in *.
    destruct (ords_in_range a b) as [Ha Hb]; [unfold before; rewrite E; apply elem_of_app; right; by left|].
    unfold count_order. cbn [fst snd]. rewrite (list_modify_Some fs a _ _ (Hf a Ha)). cbn [mbind option_bind].
    rewrite (list_modify_Some ws b _ _ (Hw b Hb)). cbn [mbind option_bind]. eexists. split; [done|].
    split_and!; cbn [fst snd]; [| |by rewrite length_insert|by rewrite length_insert]; intros i Hi;
      rewrite lookup_insert_decide by lia; rewrite filter_app, filter_cons, filter_nil; cbn [fst snd].
    + destruct (decide (a = i)) as [->|]; [by rewrite fmap_app|]. rewrite app_nil_r. by apply Hf.
    + destruct (decide (b = i)) as [->|].
      * rewrite decide_True by (split; [done|by apply not_elem_of_nil]). rewrite length_app. simpl. f_equal. lia.
      * rewrite decide_False by (by intros []). rewrite app_nil_r. by apply Hw.
  - exists followers, waiting. split_and!; [done|done|]. split; [|done|by rewrite length_replicate].
    intros i Hi. by apply lookup_replicate_2.
Qed.

(** *** Finding the next *)

Lemma find_next_spec s placed waiting n i :
  placed_upto s placed waiting → i + n = count → (∀ j, j < i → ¬ ready count ords s j) →
  match find_next n i placed waiting with
  | Some (Some k) => ready count ords s k ∧ ∀ j, j < k → ¬ ready count ords s j
  | Some None => ∀ j, ¬ ready count ords s j
  | None => False
  end.
Proof using Type.
  intros Hu. revert i. induction n as [|n IH]; intros i Hin Hno; cbn [find_next].
  - intros j Hj. destruct (decide (j < i)) as [Hlt|]; [by apply (Hno j)|]. destruct Hj. lia.
  - rewrite (upto_placed _ _ _ Hu) by lia. cbn [mbind option_bind].
    rewrite (upto_waiting _ _ _ Hu) by lia. cbn [mbind option_bind].
    assert (Hready : negb (bool_decide (i ∈ s)) && (Z.of_nat (waits s i) =? 0)%Z = true ↔ ready count ords s i).
    { rewrite andb_true_iff, negb_true_iff, bool_decide_eq_false, Z.eqb_eq. unfold ready.
      rewrite <- waits_zero. split; [intros []; split_and!; [lia|done|lia]|intros (? & ? & ?); split; [done|lia]]. }
    destruct (_ && _).
    + split; [by apply Hready|done].
    + apply (IH (i + 1)); [lia|]. intros j Hj Hr. destruct (decide (j < i)); [by apply (Hno j)|].
      assert (j = i) as -> by lia. apply Hready in Hr. done.
Qed.

(** *** Placing it *)

Lemma waits_snoc s next i : next ∉ s →
  waits s i = waits (s ++ [next]) i + length (filter (λ b, b = i) (followers_of next)).
Proof using Type.
  intros Hns. unfold waits, followers_of. clear ords_in_range. induction ords as [|[a b] l IH]; [done|].
  rewrite !filter_cons. cbn [fst snd] in *.
  destruct (decide (b = i ∧ a ∉ s)) as [[-> Ha]|Hn1], (decide (a = next)) as [->|Hn2].
  - rewrite decide_False by (intros [_ H]; apply H, elem_of_app; right; by left).
    rewrite fmap_cons, filter_cons, decide_True by done. simpl. rewrite IH. lia.
  - rewrite decide_True; [simpl; rewrite IH; lia|]. split; [done|]. rewrite elem_of_app, list_elem_of_singleton. tauto.
  - rewrite decide_False by (intros [_ H]; apply H, elem_of_app; right; by left).
    rewrite fmap_cons, filter_cons. cbn [snd]. rewrite decide_False by (intros ->; by apply Hn1). by rewrite IH.
  - rewrite decide_False; [by rewrite IH|]. intros [-> H]. apply Hn1. split; [done|].
    intros Ha. apply H, elem_of_app. by left.
Qed.

Lemma lower_waiting (fs : list nat) waiting (f : nat → Z) :
  length waiting = count → Forall (λ b, b < count) fs →
  (∀ i, i < count → waiting !! i = Some (f i + Z.of_nat (length (filter (λ b, b = i) fs)))%Z) →
  ∃ waiting', for_each fs (λ after w, list_modify w after (λ n, (n - 1)%Z)) waiting = Some waiting' ∧
    length waiting' = count ∧ ∀ i, i < count → waiting' !! i = Some (f i).
Proof using Type.
  revert waiting. induction fs as [|b fs IH]; intros waiting Hl Hfs Hw; cbn [for_each].
  - exists waiting. split_and!; [done|done|]. intros i Hi. rewrite Hw by done. simpl. f_equal. lia.
  - apply Forall_cons in Hfs as [Hb Hfs]. rewrite (list_modify_Some _ _ _ _ (Hw b Hb)). cbn [mbind option_bind].
    apply IH; [by rewrite length_insert|done|]. intros i Hi. rewrite lookup_insert_decide by lia.
    destruct (decide (b = i)) as [->|].
    + rewrite filter_cons, decide_True by done. simpl. f_equal. lia.
    + rewrite Hw by done. by rewrite filter_cons, decide_False.
Qed.

Lemma place_spec s placed waiting followers next :
  placed_upto s placed waiting → next < count → next ∉ s →
  (∀ i, i < count → followers !! i = Some (followers_of i)) →
  ∃ placed' waiting', place followers next placed waiting = Some (placed', waiting') ∧
    placed_upto (s ++ [next]) placed' waiting'.
Proof using ords_in_range.
  intros [Hp Hw [Hl1 Hl2]] Hn Hns Hf. unfold place. rewrite list_set_Some by lia. cbn [mbind option_bind].
  rewrite Hf by done. cbn [mbind option_bind].
  destruct (lower_waiting (followers_of next) waiting (λ i, Z.of_nat (waits (s ++ [next]) i))) as (w' & -> & Hl' & Hw');
    [done| | |].
  - apply Forall_forall. intros b Hb. unfold followers_of in Hb. apply list_elem_of_fmap in Hb as ([a b'] & -> & Hb).
    apply list_elem_of_filter in Hb as [_ Hb]. by eapply ords_in_range.
  - intros i Hi. rewrite Hw by done. f_equal. rewrite (waits_snoc s next i Hns). lia.
  - cbn [mbind option_bind]. do 2 eexists. split; [done|]. split; [|done|by rewrite length_insert].
    intros i Hi. rewrite lookup_insert_decide by lia. destruct (decide (next = i)) as [->|Hne].
    + rewrite bool_decide_true; [done|]. apply elem_of_app. right. by left.
    + rewrite Hp by done. f_equal. apply bool_decide_ext. rewrite elem_of_app, list_elem_of_singleton.
      split; [intros ?; by left|intros [?| ->]; done].
Qed.

(** *** The whole loop *)

Definition sorting (π : list nat) : Prop := π ≡ₚ seq 0 count ∧ respects ords π.

Lemma full_permutation (s : list nat) :
  NoDup s → Forall (λ i, i < count) s → length s = count → s ≡ₚ seq 0 count.
Proof using Type.
  intros Hnd Hall Hlen. apply submseteq_length_Permutation; [|by rewrite length_seq, Hlen].
  apply NoDup_submseteq; [done|]. intros i Hi. rewrite Forall_forall in Hall. apply elem_of_seq.
  specialize (Hall i Hi). lia.
Qed.

Lemma not_ready_predecessor s i : i < count → i ∉ s → ¬ ready count ords s i →
  ∃ a, a < count ∧ (a ∉ s) ∧ before ords a i.
Proof using ords_in_range.
  intros Hi Hs Hn. destruct (filter (λ o, o.2 = i ∧ o.1 ∉ s) ords) as [|[a b] l] eqn:E.
  - destruct Hn. split_and!; [done|done|]. apply waits_zero. unfold waits. by rewrite E.
  - assert ((a, b) ∈ filter (λ o, o.2 = i ∧ o.1 ∉ s) ords) as Hin by (rewrite E; by left).
    apply list_elem_of_filter in Hin as [[<- Ha] Hin]. exists a.
    destruct (ords_in_range a b Hin). done.
Qed.

Lemma none_ready_cyclic s :
  length s < count → NoDup s → (∀ j, ¬ ready count ords s j) → cyclic ords.
Proof using ords_in_range.
  intros Hlen Hnd Hno. apply (predecessors_cycle (filter (λ i, i ∉ s) (seq 0 count)) (before ords)); [apply _| |].
  - intros E. assert (Hsub : seq 0 count ⊆+ s).
    { apply NoDup_submseteq; [apply NoDup_seq|]. intros i Hi. destruct (decide (i ∈ s)); [done|].
      assert (i ∈ filter (λ i, i ∉ s) (seq 0 count)) as Hin by (by apply list_elem_of_filter).
      rewrite E in Hin. by apply not_elem_of_nil in Hin. }
    apply submseteq_length in Hsub. rewrite length_seq in Hsub. lia.
  - intros y [Hys Hy%elem_of_seq]%list_elem_of_filter.
    destruct (not_ready_predecessor s y) as (a & Ha & Has & Hay); [lia|done|apply Hno|].
    exists a. split; [|done]. apply list_elem_of_filter. split; [done|]. apply elem_of_seq. lia.
Qed.

Lemma NoDup_snoc {A} (l : list A) x : NoDup l → x ∉ l → NoDup (l ++ [x]).
Proof using Type.
  intros Hl Hx. apply NoDup_app. split_and!; [done| |apply NoDup_singleton].
  by intros y Hy ->%list_elem_of_singleton.
Qed.

Lemma respects_snoc s next : respects ords s → (∀ a, before ords a next → a ∈ s) → respects ords (s ++ [next]).
Proof using Type.
  intros Hresp Hpred l1 b l2 E a Ha. destruct l2 as [|z l2 _] using rev_ind.
  - apply app_inj_tail in E as [-> ->]. by apply Hpred.
  - rewrite app_comm_cons, (assoc (++)) in E. apply app_inj_tail in E as [E _]. by eapply Hresp.
Qed.

Lemma sort_loop_spec followers turns s placed waiting :
  (∀ i, i < count → followers !! i = Some (followers_of i)) →
  placed_upto s placed waiting → NoDup s → Forall (λ i, i < count) s →
  length s + turns = count → respects ords s →
  match sort_loop turns count followers placed waiting s with
  | Ok π => sorting π ∧ ∃ t, π = s ++ t ∧ ∀ t', sorting (s ++ t') → lex_le t t'
  | Err e => e = OrderCycle ∧ cyclic ords
  end.
Proof using ords_in_range.
  intros Hf. revert s placed waiting.
  induction turns as [|turns IH]; intros s placed waiting Hu Hnd Hall Hlen Hresp; cbn [sort_loop].
  - rewrite Nat.add_0_r in Hlen. split; [split; [by apply full_permutation|done]|].
    exists []. split; [by rewrite app_nil_r|done].
  - pose proof (find_next_spec s placed waiting count 0 Hu eq_refl ltac:(lia)) as Hnext.
    destruct (find_next count 0 placed waiting) as [[next|]|]; cbn [or_err mbind result_bind]; [| |done].
    + destruct Hnext as [Hready Hleast]. destruct Hready as (Hn & Hns & Hpred).
      destruct (place_spec s placed waiting followers next Hu Hn Hns Hf) as (p' & w' & -> & Hu').
      cbn [or_err mbind result_bind].
      specialize (IH (s ++ [next]) p' w' Hu' (NoDup_snoc s next Hnd Hns) ltac:(apply Forall_app; by split; [|constructor])
        ltac:(rewrite length_app; simpl; lia) (respects_snoc s next Hresp Hpred)). destruct (sort_loop _ _ _ _ _ _) as [π|e].
      * destruct IH as (Hsort & t & -> & Hlex).
        split; [done|]. exists (next :: t). split; [by rewrite <- (assoc (++))|].
        intros t' [Hperm Hr]. destruct t' as [|x t'].
        { apply Permutation_length in Hperm. rewrite length_app, length_seq in Hperm. simpl in Hperm. lia. }
        assert (Hx : ready count ords s x).
        { split_and!.
          - assert (x ∈ seq 0 count) as Hx%elem_of_seq; [|lia]. rewrite <- Hperm. apply elem_of_app. right. by left.
          - assert (NoDup (s ++ x :: t')) as Hnd' by (rewrite Hperm; apply NoDup_seq).
            apply NoDup_app in Hnd' as (_ & Hd & _). intros Hx. apply (Hd x Hx). by left.
          - by eapply Hr. }
        destruct (decide (next = x)) as [->|Hne].
        -- right. split; [done|]. apply Hlex. by rewrite <- (assoc (++)).
        -- left. destruct (decide (next < x)); [done|]. destruct (Hleast x); [lia|done].
      * done.
    + split; [done|]. apply (none_ready_cyclic s); [lia|done|done].
Qed.

Lemma sort_indexes_spec :
  match sort_indexes count ords with
  | Ok π => sorting π ∧ ∀ π', sorting π' → lex_le π π'
  | Err e => e = OrderCycle ∧ cyclic ords
  end.
Proof using ords_in_range.
  unfold sort_indexes. destruct count_orders_spec as (followers & waiting & -> & Hf & Hu).
  cbn [or_err mbind result_bind].
  pose proof (sort_loop_spec followers count [] (replicate count false) waiting Hf Hu) as H.
  destruct (sort_loop _ _ _ _ _ _) as [π|e].
  - destruct H as (Hs & t & -> & Hlex); [constructor|constructor|done|by intros []|]. done.
  - apply H; [constructor|constructor|done|by intros []].
Qed.
End sort.

(** ** Registration and sorting together *)

Section registered.
Context {H : Type}.

(** The dispatchers Init can build. *)
Inductive registered : dispatcher H → Prop :=
  | reg_empty : registered (mkDispatcher [] [])
  | reg_subscribe d d' pointerFree fn sub :
      registered d → Subscribe pointerFree d fn = Ok (d', sub) → registered d'
  | reg_order d d' first second :
      registered d → OrderSubscriptions d first second = Ok d' → registered d'.

Lemma registered_in_range d : registered d → in_range (length (handlers d)) (orders d).
Proof.
  induction 1 as [|d d' pf fn sub _ IH E|d d' s1 s2 _ IH E].
  - by intros a b H0%not_elem_of_nil.
  - unfold Subscribe in E. destruct pf; [|done]. destruct fn; [|done]. injection E as <- _.
    intros a b Hab. destruct (IH a b Hab). simpl. rewrite length_app. simpl. lia.
  - unfold OrderSubscriptions in E. destruct (valid_sub d s1 && valid_sub d s2) eqn:Hv; [|done].
    injection E as <-. unfold valid_sub in Hv. rewrite !andb_true_iff, !Nat.leb_le in Hv.
    intros a b Hab. unfold before in Hab. simpl in *. apply elem_of_app in Hab as [Hab|Hab]; [by apply IH|].
    apply list_elem_of_singleton in Hab as [= -> ->]. lia.
Qed.

Lemma mapM_lookup (hs : list H) π :
  Forall (λ i, i < length hs) π → ∃ l, mapM (λ i, hs !! i) π = Some l ∧ length l = length π.
Proof.
  intros Hall. destruct (mapM (λ i, hs !! i) π) as [l|] eqn:E.
  - exists l. split; [done|]. by apply length_mapM in E.
  - apply mapM_None_1, Exists_exists in E as (i & Hi & E). rewrite Forall_forall in Hall.
    apply lookup_ge_None_1 in E. specialize (Hall i Hi). lia.
Qed.

(** C16: whatever Init subscribed and ordered, sortHandlers panics exactly when
    the declarations form a cycle; otherwise the handlers end up in the first,
    in lexicographic order of subscription, of all their permutations that
    satisfy every declaration, and no declaration is left. *)
Theorem sortHandlers_spec d :
  registered d →
  match sortHandlers d with
  | Ok d' => ∃ π, mapM (λ i, handlers d !! i) π = Some (handlers d') ∧ orders d' = [] ∧
      sorting (length (handlers d)) (orders d) π ∧ (∀ π', sorting (length (handlers d)) (orders d) π' → lex_le π π') ∧
      ¬ cyclic (orders d)
  | Err e => e = OrderCycle ∧ cyclic (orders d)
  end.
Proof.
  intros Hd%registered_in_range. unfold sortHandlers. pose proof (sort_indexes_spec _ _ Hd) as Hs.
  destruct (sort_indexes _ _) as [π|e]; cbn [mbind result_bind]; [|done]. destruct Hs as [[Hperm Hresp] Hlex].
  destruct (mapM_lookup (handlers d) π) as (l & El & _).
  { apply Forall_forall. intros i. rewrite Hperm. intros Hi%elem_of_seq. lia. }
  rewrite El. cbn [or_err mbind result_bind]. exists π. split_and!; [done|done|done|done|].
  apply (respects_acyclic (orders d) π); [rewrite Hperm; apply NoDup_seq|done|].
  intros a b Hab. rewrite Hperm. apply elem_of_seq. destruct (Hd a b Hab). lia.
Qed.
End registered.

(** Three handlers, the last ordered before the first. *)
Definition example_dispatcher : dispatcher string := mkDispatcher ["a"; "b"; "c"]%string [(2, 0)].

Lemma example_registered : registered example_dispatcher.
Proof.
  eapply (reg_order (mkDispatcher ["a"; "b"; "c"]%string []) _ 3 1); [|done].
  eapply (reg_subscribe (mkDispatcher ["a"; "b"]%string []) _ true (Some "c"%string)); [|done].
  eapply (reg_subscribe (mkDispatcher ["a"]%string []) _ true (Some "b"%string)); [|done].
  eapply (reg_subscribe (mkDispatcher [] []) _ true (Some "a"%string)); [apply reg_empty|done].
Qed.

Lemma sortHandlers_spec_witness :
  sortHandlers example_dispatcher = Ok (mkDispatcher ["b"; "c"; "a"]%string []) ∧ ¬ cyclic (orders example_dispatcher).
Proof.
  split; [done|]. pose proof (sortHandlers_spec example_dispatcher example_registered) as Hs.
  change (sortHandlers example_dispatcher) with (Ok (E := registration_error) (mkDispatcher ["b"; "c"; "a"]%string [])) in Hs.
  by destruct Hs as (π & _ & _ & _ & _ & ?).
Defined.
