(* ===== verification/Configurator.v ===== *)
(** * Registration of kernel/configurator.go and sockets of kernel/socket.go

    What a kernel's registration holds while its plugins' Inits run, the
    Configurator operations that change it, and the resolution of sockets once
    the last Init has returned.  Types are elements of [Ty], the values of
    resources and bindings elements of [V], and a task's constructor is the
    handles it requests. *)

From stdpp Require Import strings.
From S2P Require Import Prelude Words LockState Access.

Section configurator.
Context {Ty : Type} `{Countable Ty} {V : Type}.

Record socketBinding := mkBinding {
  binding_socket : Ty;
  binding_plugin : N;
  binding_value : V
}.

Record socket := mkSocket {
  declaredBy : N;
  exclusive : bool;
  optional : bool;
  svalues : option (list V) (* nil until the bindings resolve *)
}.

(** A kernel while its plugins register into it.  [taskLocks] is its lock
    table; the table of bodies beside it has the same indexes. *)
Record registration := mkRegistration {
  rid : N;
  resources : gmap Ty (nat * V);
  sockets : gmap Ty socket;
  socketBindings : list socketBinding;
  taskTable : list taskLocks
}.

Inductive config_error :=
  | InitializedTwice (t : Ty)
  | DeclaredTwice (t : Ty) (first second : N)
  | BindsNil (plugin : N) (t : Ty)
  | NilConstructor
  | TaskNotPointerFree
  | AccessPanic (e : panic Ty)
  | NilBody
  | ForeignPin
  | UndeclaredSocket (plugin : N) (t : Ty)
  | TooManyBindings (t : Ty) (plugins : list N)
  | NoBinding (t : Ty)
  | ReadInInit.

(** newKernel: only the Join task, which locks nothing. *)
Definition newRegistration (id : N) : registration :=
  mkRegistration id ∅ ∅ [] [mkLocks [] [] false].

Definition InitResource (r : registration) (t : Ty) (value : V) : result config_error registration :=
  match resources r !! t with
  | Some _ => Err (InitializedTwice t)
  | None => Ok (mkRegistration (rid r) (<[t := (size (resources r), value)]> (resources r)) (sockets r)
                  (socketBindings r) (taskTable r))
  end.

Definition Resource (r : registration) (t : Ty) : option V := snd <$> resources r !! t.

Definition declareSocket (plugin : N) (r : registration) (t : Ty) (exclusive optional : bool) :
    result config_error registration :=
  match sockets r !! t with
  | Some existing => Err (DeclaredTwice t (declaredBy existing) plugin)
  | None => Ok (mkRegistration (rid r) (resources r)
                  (<[t := mkSocket plugin exclusive optional None]> (sockets r)) (socketBindings r) (taskTable r))
  end.

Definition BindSocket (plugin : N) (r : registration) (t : Ty) (value : option V) :
    result config_error registration :=
  match value with
  | None => Err (BindsNil plugin t)
  | Some value => Ok (mkRegistration (rid r) (resources r) (sockets r)
                        (socketBindings r ++ [mkBinding t plugin value]) (taskTable r))
  end.

(** A task handle: the kernel it was registered in, and its index there. *)
Record taskRef := mkTaskRef { ref_kernel : N; ref_index : nat }.

(** What a constructor requests of its Access. *)
Inductive handleRequest :=
  | WantRead (t : Ty)
  | WantWrite (t : Ty)
  | WantUse (task : option taskRef).

Definition view (r : registration) : kernelView Ty := mkView (rid r) (fst <$> resources r).

(** A task of this kernel carries its entry in the lock table. *)
Definition to_request (r : registration) (q : handleRequest) : option (request Ty) :=
  match q with
  | WantRead t => Some (RRead t)
  | WantWrite t => Some (RWrite t)
  | WantUse None => Some (RUse None)
  | WantUse (Some task) =>
      if decide (ref_kernel task = rid r) then
        l ← taskTable r !! ref_index task;
        Some (RUse (Some (mkTaskView (ref_kernel task) l)))
      else Some (RUse (Some (mkTaskView (ref_kernel task) (mkLocks [] [] false))))
  end.

(** A constructor: nil, or what it requests and whether it returns a body. *)
Definition constructor := option (list handleRequest * bool).

Definition RegisterTask (argFree resultFree : bool) (r : registration) (c : constructor) :
    result config_error (registration * taskRef) :=
  match c with
  | None => Err NilConstructor
  | Some (wanted, body) =>
      if argFree && resultFree then
        requests ← or_err (AccessPanic OutOfRange) (mapM (to_request r) wanted);
        match declare (view r) requests with
        | Err e => Err (AccessPanic e)
        | Ok locks =>
            if body : bool then
              Ok (mkRegistration (rid r) (resources r) (sockets r) (socketBindings r) (taskTable r ++ [locks]),
                  mkTaskRef (rid r) (length (taskTable r)))
            else Err NilBody
        end
      else Err TaskNotPointerFree
  end.

Definition pin (l : taskLocks) : taskLocks := mkLocks (reads l) (writes l) true.

Definition PinToMainThread (r : registration) (task : option taskRef) : result config_error registration :=
  match task with
  | None => Err ForeignPin
  | Some task =>
      if decide (ref_kernel task = rid r) then
        table ← or_err (AccessPanic OutOfRange) (list_modify (taskTable r) (ref_index task) pin);
        Ok (mkRegistration (rid r) (resources r) (sockets r) (socketBindings r) table)
      else Err ForeignPin
  end.

(** ** Sockets *)

Definition bindings_of (bindings : list socketBinding) (t : Ty) : list socketBinding :=
  filter (λ b, binding_socket b = t) bindings.

(** [socket.resolve], for the socket of [t]. *)
Definition resolve (bindings : list socketBinding) (t : Ty) (s : socket) : result config_error socket :=
  let bound := bindings_of bindings t in
  if exclusive s && (1 <? length bound) then Err (TooManyBindings t (binding_plugin <$> bound))
  else if negb (optional s) && (length bound =? 0) then Err (NoBinding t)
  else Ok (mkSocket (declaredBy s) (exclusive s) (optional s) (Some (binding_value <$> bound))).

(** The first binding to a socket nobody declares. *)
Fixpoint undeclared (declared : gmap Ty socket) (bindings : list socketBinding) : option config_error :=
  match bindings with
  | [] => None
  | b :: bindings =>
      match declared !! binding_socket b with
      | None => Some (UndeclaredSocket (binding_plugin b) (binding_socket b))
      | Some _ => undeclared declared bindings
      end
  end.

(** resolveSockets: Go walks the map of sockets in some order, here that of
    [map_fold]. *)
Definition resolveSockets (r : registration) : result config_error registration :=
  match undeclared (sockets r) (socketBindings r) with
  | Some e => Err e
  | None =>
      resolved ← map_fold (λ t s acc,
        resolved ← acc; s' ← resolve (socketBindings r) t s; Ok (<[t := s']> resolved))
        (Ok ∅) (sockets r);
      Ok (mkRegistration (rid r) (resources r) resolved (socketBindings r) (taskTable r))
  end.

Definition GetAll (s : socket) : result config_error (list V) :=
  match svalues s with None => Err ReadInInit | Some values => Ok values end.

(** Get answers the zero value, [None] here, with no binding. *)
Definition Get (s : socket) : result config_error (option V) :=
  values ← GetAll s; Ok (head values).

(** ** The operations of one Init after another *)

Inductive config_op :=
  | OpInitResource (t : Ty) (value : V)
  | OpDeclareSocket (plugin : N) (t : Ty) (exclusive optional : bool)
  | OpBindSocket (plugin : N) (t : Ty) (value : option V)
  | OpRegisterTask (argFree resultFree : bool) (c : constructor)
  | OpPin (task : option taskRef).

Definition config_step (r : registration) (o : config_op) : result config_error registration :=
  match o with
  | OpInitResource t value => InitResource r t value
  | OpDeclareSocket plugin t exclusive optional => declareSocket plugin r t exclusive optional
  | OpBindSocket plugin t value => BindSocket plugin r t value
  | OpRegisterTask argFree resultFree c => '(r', _) ← RegisterTask argFree resultFree r c; Ok r'
  | OpPin task => PinToMainThread r task
  end.

Fixpoint configure (r : registration) (os : list config_op) : result config_error registration :=
  match os with
  | [] => Ok r
  | o :: os => r' ← config_step r o; configure r' os
  end.

(** ** Invariant *)

Record registered_ok (r : registration) : Prop := {
  ok_index : ∀ t i v, resources r !! t = Some (i, v) → i < size (resources r);
  ok_distinct : ∀ t t' i v v', resources r !! t = Some (i, v) → resources r !! t' = Some (i, v') → t = t';
  ok_locks : Forall (well_declared (size (resources r))) (taskTable r);
  ok_join : taskTable r !! 0 = Some (mkLocks [] [] false) ∨ taskTable r !! 0 = Some (mkLocks [] [] true)
}.

Lemma well_declared_mono n n' l : n ≤ n' → well_declared n l → well_declared n' l.
Proof.
  intros Hle ([Hl Hw Hr Hwb Hres] & Hrw & Ht). split_and!; [split; try done|done|done].
  - assert (words_for n ≤ words_for n'); [|lia]. unfold words_for. apply Nat.Div0.div_le_mono. lia.
  - intros r Hr'. specialize (Hres r Hr'). lia.
Qed.

Lemma well_declared_nothing n p : well_declared n (mkLocks [] [] p).
Proof. split_and!; [split; simpl; [done|lia|by constructor|by constructor|done]|done|by left]. Qed.

Lemma well_declared_pin n l : well_declared n l → well_declared n (pin l).
Proof. intros ([] & ? & ?). split_and!; [by split|done|done]. Qed.

Lemma newRegistration_ok id : registered_ok (newRegistration id).
Proof.
  split; simpl; [by intros t i v; rewrite lookup_empty|by intros t t' i v v'; rewrite lookup_empty| |by left].
  constructor; [apply well_declared_nothing|done].
Qed.

Lemma InitResource_ok r t v r' : registered_ok r → InitResource r t v = Ok r' → registered_ok r'.
Proof.
  intros [Hi Hd Hl Hj] E. unfold InitResource in E. destruct (resources r !! t) eqn:Et; [done|].
  injection E as <-. assert (Hsize : size (<[t:=(size (resources r), v)]> (resources r)) = S (size (resources r)))
    by by apply map_size_insert_None.
  split; cbn [resources taskTable]; rewrite ?Hsize.
  - intros t' i v' [[-> [= <- <-]]|[_ E]]%lookup_insert_Some; [lia|]. apply Hi in E. lia.
  - intros t1 t2 i v1 v2 [[<- [= <- <-]]|[H1 E1]]%lookup_insert_Some [[<- E]|[H2 E2]]%lookup_insert_Some.
    + done.
    + apply Hi in E2. lia.
    + injection E as <- <-. apply Hi in E1. lia.
    + by eapply Hd.
  - eapply Forall_impl; [done|]. intros l. apply well_declared_mono. lia.
  - done.
Qed.

Lemma to_request_wf r q request : registered_ok r → to_request r q = Some request →
  wf_request (size (resources r)) request.
Proof.
  intros Hr E. destruct q as [t|t|[task|]]; simpl in E; try by injection E as <-.
  destruct (decide _).
  - destruct (taskTable r !! ref_index task) as [l|] eqn:El; [|done]. injection E as <-. simpl.
    pose proof (ok_locks _ Hr) as Hl. by eapply Forall_lookup_1.
  - injection E as <-. apply well_declared_nothing.
Qed.

Lemma view_wf r : registered_ok r → wf_view (size (resources r)) (view r).
Proof.
  intros Hr t i E. unfold view in E. simpl in E. rewrite lookup_fmap in E.
  destruct (resources r !! t) as [[i' v]|] eqn:Et; [|done]. injection E as <-. by eapply ok_index.
Qed.

Lemma RegisterTask_ok a b r c r' task : registered_ok r → RegisterTask a b r c = Ok (r', task) →
  registered_ok r' ∧ ref_kernel task = rid r ∧ ref_index task = length (taskTable r) ∧
  ∃ l, taskTable r' = taskTable r ++ [l].
Proof.
  intros Hr E. unfold RegisterTask in E. destruct c as [[wanted body]|]; [|done].
  destruct (a && b); [|done]. destruct (mapM (to_request r) wanted) as [qs|] eqn:Eq; [|done].
  cbn [or_err mbind result_bind] in E. destruct (declare (view r) qs) as [l|] eqn:Ed; [|done].
  destruct body; [|done]. injection E as <- <-. split; [|split; [done|split; [done|by exists l]]].
  destruct Hr as [Hi Hd Hl Hj] eqn:Hr'. split; cbn [resources taskTable]; [done|done| |].
  - apply Forall_app. split; [done|]. apply Forall_singleton.
    apply (declare_well_declared _ (view r) qs); [by apply view_wf| |done].
    apply Forall_forall. intros q Hq. apply mapM_Some_1 in Eq. apply list_elem_of_lookup_1 in Hq as (k & Hk).
    destruct (Forall2_lookup_r _ _ _ _ _ Eq Hk) as (w & _ & Ew). by eapply to_request_wf.
  - clear Hr'. destruct Hj as [E|E]; [left|right]; by apply lookup_app_l_Some.
Qed.

Lemma PinToMainThread_ok r task r' : registered_ok r → PinToMainThread r task = Ok r' → registered_ok r'.
Proof.
  intros [Hi Hd Hl Hj] E. unfold PinToMainThread in E. destruct task as [task|]; [|done].
  destruct (decide _); [|done]. destruct (list_modify _ _ _) as [table|] eqn:Et; [|done]. injection E as <-.
  unfold list_modify in Et. destruct (taskTable r !! ref_index task) as [l|] eqn:El; [|done]. simpl in Et.
  apply list_set_inv in Et as [Hlt ->]. split; cbn [resources taskTable]; [done|done| |].
  - apply Forall_insert; [done|]. apply well_declared_pin. by eapply Forall_lookup_1.
  - rewrite lookup_insert_decide by done. destruct (decide _) as [E0|]; [|done]. rewrite E0 in El. right.
    destruct Hj as [E|E]; rewrite El in E; by injection E as ->.
Qed.

Lemma config_step_ok r o r' : registered_ok r → config_step r o = Ok r' → registered_ok r'.
Proof.
  intros Hr E. destruct o as [t v|p t ex op|p t v|a b c|task]; simpl in E.
  - by eapply InitResource_ok.
  - unfold declareSocket in E. destruct (sockets r !! t); [done|]. injection E as <-. by destruct Hr.
  - unfold BindSocket in E. destruct v; [|done]. injection E as <-. by destruct Hr.
  - destruct (RegisterTask a b r c) as [[r1 task]|] eqn:E1; [|done]. injection E as <-.
    by eapply RegisterTask_ok.
  - by eapply PinToMainThread_ok.
Qed.

Lemma configure_ok r os r' : registered_ok r → configure r os = Ok r' → registered_ok r'.
Proof.
  revert r. induction os as [|o os IH]; intros r Hr; simpl; [by intros [= <-]|].
  destruct (config_step r o) as [r1|] eqn:E; [|done]. simpl. apply IH. by eapply config_step_ok.
Qed.

(** ** Resolution *)

Lemma undeclared_None declared bindings :
  undeclared declared bindings = None ↔ Forall (λ b, is_Some (declared !! binding_socket b)) bindings.
Proof.
  induction bindings as [|b bindings IH]; simpl; [by split|]. rewrite Forall_cons, <- IH.
  destruct (declared !! binding_socket b) eqn:E; [|split; [done|by intros [[] _]]].
  split; [by intros; eauto|by intros []].
Qed.

Definition socket_fits (bindings : list socketBinding) (t : Ty) (s : socket) : Prop :=
  (exclusive s = true → length (bindings_of bindings t) ≤ 1) ∧
  (optional s = false → bindings_of bindings t ≠ []).

Lemma resolve_spec bindings t s :
  match resolve bindings t s with
  | Ok s' => socket_fits bindings t s ∧ svalues s' = Some (binding_value <$> bindings_of bindings t) ∧
      declaredBy s' = declaredBy s ∧ exclusive s' = exclusive s ∧ optional s' = optional s
  | Err _ => ¬ socket_fits bindings t s
  end.
Proof.
  unfold resolve, socket_fits. set (l := bindings_of bindings t).
  destruct (exclusive s && (1 <? length l)) eqn:E1.
  - apply andb_true_iff in E1 as [? ?%Nat.ltb_lt]. intros [Hle _]. specialize (Hle ltac:(done)). lia.
  - destruct (negb (optional s) && (length l =? 0)) eqn:E2.
    + apply andb_true_iff in E2 as [?%negb_true_iff ?%Nat.eqb_eq]. intros [_ Hne].
      apply Hne; [done|]. by apply nil_length_inv.
    + split_and!; try done.
      * intros Hex. rewrite Hex in E1. simpl in E1. by apply Nat.ltb_ge in E1.
      * intros Hop. rewrite Hop in E2. simpl in E2. apply Nat.eqb_neq in E2. by intros ->.
Qed.

Lemma resolve_map_spec bindings (ss : gmap Ty socket) :
  match map_fold (λ t s acc, resolved ← acc; s' ← resolve bindings t s; Ok (<[t := s']> resolved))
      (Ok (∅ : gmap Ty socket)) ss with
  | Ok resolved => ∀ t,
      match ss !! t with
      | Some s => ∃ s', resolved !! t = Some s' ∧ resolve bindings t s = Ok s'
      | None => resolved !! t = None
      end
  | Err e => ∃ t s, ss !! t = Some s ∧ resolve bindings t s = Err e
  end.
Proof.
  apply (map_fold_weak_ind (λ (acc : result config_error (gmap Ty socket)) ss,
    match acc with
    | Ok resolved => ∀ t, match ss !! t with
        | Some s => ∃ s', resolved !! t = Some s' ∧ resolve bindings t s = Ok s'
        | None => resolved !! t = None end
    | Err e => ∃ t s, ss !! t = Some s ∧ resolve bindings t s = Err e
    end)).
  - intros t. by rewrite !lookup_empty.
  - intros t s ss' acc Hno IH. destruct acc as [resolved|e]; cbn [mbind result_bind].
    + destruct (resolve bindings t s) as [s'|e] eqn:E; cbn [mbind result_bind].
      * intros t'. destruct (decide (t = t')) as [<-|Hne].
        -- rewrite !lookup_insert_eq. by exists s'.
        -- rewrite !lookup_insert_ne by done. apply IH.
      * exists t, s. by rewrite lookup_insert_eq.
    + destruct IH as (t' & s' & Ht' & E). exists t', s'. split; [|done]. rewrite lookup_insert_ne; [done|].
      intros ->. by rewrite Hno in Ht'.
Qed.

(** C31: however the Inits configured a kernel, its resources have the indexes
    below their number, each its own; every task's locks fit the lock state
    makeLockState makes for them, with a task that locks nothing having empty
    masks; and entry 0, the Join task's, locks nothing.  These are the tables
    the lock combiner runs on. *)
Theorem configured_kernel_wf id os r :
  configure (newRegistration id) os = Ok r →
  (∀ t i v, resources r !! t = Some (i, v) → i < size (resources r)) ∧
  (∀ t t' i v v', resources r !! t = Some (i, v) → resources r !! t' = Some (i, v') → t = t') ∧
  Forall (wf_locks (size (resources r))) (taskTable r) ∧
  (∃ l, taskTable r !! 0 = Some l ∧ locksNothing l = true) ∧
  Forall (λ l, locksNothing l = true ↔ ∀ k, touches l k = false) (taskTable r).
Proof.
  intros E. destruct (configure_ok _ _ _ (newRegistration_ok id) E) as [Hi Hd Hl Hj].
  split_and!; [done|done| |destruct Hj; eexists; by split|].
  - eapply Forall_impl; [done|]. by intros l [].
  - eapply Forall_impl; [done|]. intros l (Hwf & _ & Ht). unfold locksNothing.
    rewrite bool_decide_eq_true, length_zero_iff_nil. split.
    + intros Hw k. unfold touches, reads_res, writes_res. rewrite Hw.
      assert (reads l = []) as ->; [|done]. apply nil_length_inv. by rewrite (wf_length _ _ Hwf), Hw.
    + intros Hno. destruct Ht as [|(k & _ & Hk)]; [done|]. by rewrite Hno in Hk.
Qed.

(** [resolveSockets] succeeds exactly when every binding is to a declared
    socket, no exclusive socket has two bindings and every socket not optional
    has one; each socket then answers its own bindings in plugin order, and
    Get the only one or none. *)
Theorem resolveSockets_spec r :
  (Forall (λ b, is_Some (sockets r !! binding_socket b)) (socketBindings r) ∧
   ∀ t s, sockets r !! t = Some s → socket_fits (socketBindings r) t s) ↔
  ∃ r', resolveSockets r = Ok r' ∧ resources r' = resources r ∧ taskTable r' = taskTable r ∧
    ∀ t s, sockets r !! t = Some s → ∃ s', sockets r' !! t = Some s' ∧
      GetAll s' = Ok (binding_value <$> bindings_of (socketBindings r) t) ∧
      Get s' = Ok (head (binding_value <$> bindings_of (socketBindings r) t)).
Proof.
  unfold resolveSockets. pose proof (resolve_map_spec (socketBindings r) (sockets r)) as Hm. split.
  - intros [Hdecl Hfits]. apply undeclared_None in Hdecl. rewrite Hdecl.
    destruct (map_fold _ _ _) as [resolved|e].
    + cbn [mbind result_bind]. eexists. split_and!; [done|done|done|]. intros t s Hs. cbn [sockets].
      specialize (Hm t). rewrite Hs in Hm. destruct Hm as (s' & Hs' & E). exists s'. split; [done|].
      pose proof (resolve_spec (socketBindings r) t s) as Hr. rewrite E in Hr. destruct Hr as (_ & Hv & _).
      unfold Get, GetAll. by rewrite Hv.
    + destruct Hm as (t & s & Hs & E). pose proof (resolve_spec (socketBindings r) t s) as Hr. rewrite E in Hr.
      by destruct Hr; apply Hfits.
  - intros (r' & E & _). destruct (undeclared _ _) eqn:Eu; [done|]. split; [by apply undeclared_None|].
    destruct (map_fold _ _ _) as [resolved|e]; [|done]. intros t s Hs. specialize (Hm t). rewrite Hs in Hm.
    destruct Hm as (s' & _ & Er). pose proof (resolve_spec (socketBindings r) t s) as Hr. rewrite Er in Hr. apply Hr.
Qed.
End configurator.

Arguments config_op : clear implicits.
Arguments constructor : clear implicits.

(** A kernel with two resources, a task that writes one and reads the other,
    one that uses it, pinned, and a socket with its binding. *)
Definition example_ops : list (config_op nat string) :=
  [OpInitResource 0 "position"; OpInitResource 1 "health";
   OpDeclareSocket 1 9 true false;
   OpRegisterTask true true (Some ([WantWrite 0; WantRead 1], true));
   OpRegisterTask true true (Some ([WantUse (Some (mkTaskRef 5 1))], true));
   OpPin (Some (mkTaskRef 5 2));
   OpBindSocket 2 9 (Some "window")]%string.

Lemma configured_kernel_wf_witness :
  ∃ r, configure (newRegistration 5) example_ops = Ok r ∧ length (taskTable r) = 3 ∧
    Forall (wf_locks (size (resources r))) (taskTable r).
Proof.
  destruct (configure (newRegistration 5) example_ops) as [r|e] eqn:E; [|vm_compute in E; discriminate].
  exists r. split; [done|]. split; [vm_compute in E; by injection E as <-|].
  apply (configured_kernel_wf 5 example_ops r E).
Defined.
