(* ===== verification/Lifecycle.v ===== *)
(** * Plugin lifecycles of kernel/lifecycle.go, and the kernel's init and
    destroy of kernel/kernel.go

    A plugin is its name, its dependencies and what its four steps answer,
    which may depend on everything that happened before: the trace of calls,
    logged failures, and the runner's start and drain. *)

From S2P Require Import Prelude.

Section lifecycle.
Context {Error : Type}.

Inductive event :=
  | CallInit (plugin : N)
  | CallStart (plugin : N)
  | CallStop (plugin : N)
  | CallDestroy (plugin : N)
  | StartWorkers
  | Drain
  | LogFailure (plugin : N) (stopping : bool) (e : Error).

Definition trace := list event.

(** A step answers its failure, or nothing. *)
Record Plugin := mkPlugin {
  Name : N;
  Dependencies : list N;
  Init : trace → option Error;
  Start : trace → option Error;
  Stop : trace → option Error;
  Destroy : trace → option Error
}.

(** The composition errors init panics with, before any Init runs. *)
Inductive composition_error :=
  | TwoPlugins (name : N)
  | DependsOnItself (name : N)
  | DependsTwice (name dependency : N)
  | DependsOnLater (name dependency : N)
  | DependsOnMissing (name dependency : N).

Definition two_of_a_name (plugins : list Plugin) (i : nat) (p : Plugin) : option composition_error :=
  if existsb (λ earlier, N.eqb (Name earlier) (Name p)) (take i plugins) then Some (TwoPlugins (Name p)) else None.

Definition dependency_error (plugins : list Plugin) (i : nat) (p : Plugin) (j : nat) (dependency : N) :
    option composition_error :=
  let position := fst <$> list_find (λ other, Name other = dependency) plugins in
  if decide (position = Some i) then Some (DependsOnItself (Name p))
  else if decide (dependency ∈ take j (Dependencies p)) then Some (DependsTwice (Name p) dependency)
  else match position with
       | Some position => if decide (i < position) then Some (DependsOnLater (Name p) dependency) else None
       | None => Some (DependsOnMissing (Name p) dependency)
       end.

(** The first composition error of init's two loops. *)
Definition composition (plugins : list Plugin) : option composition_error :=
  head (omap id (imap (two_of_a_name plugins) plugins ++
                 concat (imap (λ i p, imap (dependency_error plugins i p) (Dependencies p)) plugins))).

(** stopFrom and destroyFrom: the plugins given, first to last, each failure
    logged. *)
Definition stop_one (tr : trace) (p : Plugin) : trace :=
  let tr' := tr ++ [CallStop (Name p)] in
  match Stop p tr with Some e => tr' ++ [LogFailure (Name p) true e] | None => tr' end.

Definition destroy_one (tr : trace) (p : Plugin) : trace :=
  let tr' := tr ++ [CallDestroy (Name p)] in
  match Destroy p tr with Some e => tr' ++ [LogFailure (Name p) false e] | None => tr' end.

(** [plugins[last]] down to the first, [last] counted from one. *)
Definition stopFrom (plugins : list Plugin) (last : nat) (tr : trace) : trace :=
  foldl stop_one tr (reverse (take last plugins)).

Definition destroyFrom (plugins : list Plugin) (last : nat) (tr : trace) : trace :=
  foldl destroy_one tr (reverse (take last plugins)).

(** The Inits of [rest], plugin [i] of [plugins] on. *)
Fixpoint init_from (plugins rest : list Plugin) (i : nat) (tr : trace) : trace * option (N * Error) :=
  match rest with
  | [] => (tr, None)
  | p :: rest =>
      match Init p tr with
      | Some e => (destroyFrom plugins i (tr ++ [CallInit (Name p)]), Some (Name p, e))
      | None => init_from plugins rest (i + 1) (tr ++ [CallInit (Name p)])
      end
  end.

Fixpoint start_from (plugins rest : list Plugin) (i : nat) (tr : trace) : trace * option (N * Error) :=
  match rest with
  | [] => (tr, None)
  | p :: rest =>
      match Start p tr with
      | Some e => (stopFrom plugins i (tr ++ [CallStart (Name p)]), Some (Name p, e))
      | None => start_from plugins rest (i + 1) (tr ++ [CallStart (Name p)])
      end
  end.

Definition lifecycle_init (plugins : list Plugin) (tr : trace) : result composition_error (trace * option (N * Error)) :=
  match composition plugins with
  | Some e => Err e
  | None => Ok (init_from plugins plugins 0 tr)
  end.

Definition lifecycle_start (plugins : list Plugin) (tr : trace) : trace * option (N * Error) :=
  start_from plugins plugins 0 tr.

Definition lifecycle_stop (plugins : list Plugin) (tr : trace) : trace := stopFrom plugins (length plugins) tr.

Definition lifecycle_destroy (plugins : list Plugin) (tr : trace) : trace := destroyFrom plugins (length plugins) tr.

(** What bringing a kernel up ends with.  Settling registration, between the
    Inits and the Starts, may panic too: [settled] says whether it did. *)
Inductive outcome :=
  | Composition (e : composition_error)
  | Unsettled (tr : trace)
  | Failed (tr : trace) (plugin : N) (e : Error)
  | Running (tr : trace).

Definition kernel_init (settled : trace → bool) (plugins : list Plugin) : outcome :=
  match lifecycle_init plugins [] with
  | Err e => Composition e
  | Ok (tr, Some (plugin, e)) => Failed tr plugin e
  | Ok (tr, None) =>
      if settled tr then
        let '(tr, failure) := lifecycle_start plugins (tr ++ [StartWorkers]) in
        match failure with
        | Some (plugin, e) => Failed (lifecycle_destroy plugins (tr ++ [Drain])) plugin e
        | None => Running tr
        end
      else Unsettled tr
  end.

Definition kernel_destroy (plugins : list Plugin) (tr : trace) : trace :=
  lifecycle_destroy plugins (lifecycle_stop plugins tr ++ [Drain]).

(** ** What a trace calls *)

Definition is_call (e : event) : bool := match e with LogFailure _ _ _ => false | _ => true end.
Definition calls (tr : trace) : trace := filter is_call tr.

Lemma calls_app tr1 tr2 : calls (tr1 ++ tr2) = calls tr1 ++ calls tr2.
Proof. apply filter_app. Qed.

Lemma stop_one_calls tr p : calls (stop_one tr p) = calls tr ++ [CallStop (Name p)].
Proof. unfold stop_one. destruct (Stop p tr); rewrite !calls_app; [by rewrite app_nil_r|done]. Qed.

Lemma destroy_one_calls tr p : calls (destroy_one tr p) = calls tr ++ [CallDestroy (Name p)].
Proof. unfold destroy_one. destruct (Destroy p tr); rewrite !calls_app; [by rewrite app_nil_r|done]. Qed.

Lemma foldl_calls (f : trace → Plugin → trace) (c : N → event) (ps : list Plugin) tr :
  (∀ tr p, calls (f tr p) = calls tr ++ [c (Name p)]) →
  calls (foldl f tr ps) = calls tr ++ (c ∘ Name <$> ps).
Proof.
  intros Hf. revert tr. induction ps as [|p ps IH]; intros tr; simpl; [by rewrite app_nil_r|].
  by rewrite IH, Hf, <- (assoc (++)).
Qed.

Lemma stopFrom_calls plugins last tr :
  calls (stopFrom plugins last tr) = calls tr ++ (CallStop ∘ Name <$> reverse (take last plugins)).
Proof. apply foldl_calls, stop_one_calls. Qed.

Lemma destroyFrom_calls plugins last tr :
  calls (destroyFrom plugins last tr) = calls tr ++ (CallDestroy ∘ Name <$> reverse (take last plugins)).
Proof. apply foldl_calls, destroy_one_calls. Qed.

Lemma init_from_calls plugins d rest tr :
  plugins = d ++ rest →
  match init_from plugins rest (length d) tr with
  | (tr', None) => calls tr' = calls tr ++ (CallInit ∘ Name <$> rest)
  | (tr', Some (name, e)) => ∃ d' p rest' tr0, rest = d' ++ p :: rest' ∧ Init p tr0 = Some e ∧ name = Name p ∧
      calls tr' = calls tr ++ (CallInit ∘ Name <$> d' ++ [p]) ++ (CallDestroy ∘ Name <$> reverse (d ++ d'))
  end.
Proof.
  intros Epl. revert d tr Epl. induction rest as [|p rest IH]; intros d tr Epl; simpl.
  - by rewrite app_nil_r.
  - destruct (Init p tr) as [e|] eqn:E.
    + exists [], p, rest, tr. split_and!; [done..|].
      rewrite destroyFrom_calls, calls_app, Epl, take_app_length, app_nil_r, <- (assoc (++)). done.
    + specialize (IH (d ++ [p]) (tr ++ [CallInit (Name p)])). rewrite length_app in IH. simpl in IH.
      rewrite <- (assoc (++)) in IH. specialize (IH Epl).
      destruct (init_from _ _ _ _) as [tr' [[name e]|]].
      * destruct IH as (d' & p' & rest' & tr0 & -> & ? & ? & Hc). exists (p :: d'), p', rest', tr0.
        split_and!; [done..|]. rewrite Hc, calls_app. simpl. rewrite <- !(assoc (++)). done.
      * rewrite IH, calls_app, <- (assoc (++)). done.
Qed.

Lemma start_from_calls plugins d rest tr :
  plugins = d ++ rest →
  match start_from plugins rest (length d) tr with
  | (tr', None) => calls tr' = calls tr ++ (CallStart ∘ Name <$> rest)
  | (tr', Some (name, e)) => ∃ d' p rest' tr0, rest = d' ++ p :: rest' ∧ Start p tr0 = Some e ∧ name = Name p ∧
      calls tr' = calls tr ++ (CallStart ∘ Name <$> d' ++ [p]) ++ (CallStop ∘ Name <$> reverse (d ++ d'))
  end.
Proof.
  intros Epl. revert d tr Epl. induction rest as [|p rest IH]; intros d tr Epl; simpl.
  - by rewrite app_nil_r.
  - destruct (Start p tr) as [e|] eqn:E.
    + exists [], p, rest, tr. split_and!; [done..|].
      rewrite stopFrom_calls, calls_app, Epl, take_app_length, app_nil_r, <- (assoc (++)). done.
    + specialize (IH (d ++ [p]) (tr ++ [CallStart (Name p)])). rewrite length_app in IH. simpl in IH.
      rewrite <- (assoc (++)) in IH. specialize (IH Epl).
      destruct (start_from _ _ _ _) as [tr' [[name e]|]].
      * destruct IH as (d' & p' & rest' & tr0 & -> & ? & ? & Hc). exists (p :: d'), p', rest', tr0.
        split_and!; [done..|]. rewrite Hc, calls_app. simpl. rewrite <- !(assoc (++)). done.
      * rewrite IH, calls_app, <- (assoc (++)). done.
Qed.

(** ** Composition *)

(** No two plugins of a name, no dependency twice, each given earlier. *)
Definition well_composed (plugins : list Plugin) : Prop :=
  NoDup (Name <$> plugins) ∧
  ∀ i p, plugins !! i = Some p →
    NoDup (Dependencies p) ∧ ∀ d, d ∈ Dependencies p → ∃ j q, j < i ∧ plugins !! j = Some q ∧ Name q = d.

Lemma head_omap_id_None {A} (l : list (option A)) : head (omap id l) = None ↔ Forall (λ x, x = None) l.
Proof.
  induction l as [|[x|] l IH]; simpl; [by split| |].
  - split; [done|]. by intros [? _]%Forall_cons.
  - rewrite IH, Forall_cons. by split; [|intros []].
Qed.

Lemma Forall_imap_None {A B} (f : nat → A → option B) l :
  Forall (λ x, x = None) (imap f l) ↔ ∀ i x, l !! i = Some x → f i x = None.
Proof.
  rewrite Forall_lookup. split.
  - intros H i x Hx. apply (H i). by rewrite list_lookup_imap, Hx.
  - intros H i x. rewrite list_lookup_imap. destruct (l !! i) eqn:E; [|done]. simpl. intros [= <-]. by apply H.
Qed.

Lemma take_elem {A} (l : list A) n x : x ∈ take n l ↔ ∃ k, k < n ∧ l !! k = Some x.
Proof.
  rewrite list_elem_of_lookup. split.
  - intros (k & [? ?]%lookup_take_Some). by exists k.
  - intros (k & Hk & E). exists k. by apply lookup_take_Some.
Qed.

Lemma NoDup_no_earlier {A} (l : list A) :
  NoDup l ↔ ∀ i x, l !! i = Some x → x ∉ take i l.
Proof.
  rewrite NoDup_alt. split.
  - intros H i x Hi (k & Hk & E)%take_elem. specialize (H k i x E Hi). lia.
  - intros H i j x Hi Hj. destruct (lt_eq_lt_dec i j) as [[Hlt|]|Hlt]; [|done|].
    + destruct (H j x Hj). apply take_elem. eauto.
    + destruct (H i x Hi). apply take_elem. eauto.
Qed.

Lemma two_of_a_name_None plugins i p :
  two_of_a_name plugins i p = None ↔ Name p ∉ take i (Name <$> plugins).
Proof.
  unfold two_of_a_name. destruct (existsb _ _) eqn:E.
  - apply existsb_exists in E as (q & Hq%list_elem_of_In & Ename%N.eqb_eq). split; [done|].
    intros Hn. destruct Hn. rewrite <- Ename, <- fmap_take. by apply list_elem_of_fmap_2.
  - split; [|done]. intros _ Hin. rewrite <- fmap_take in Hin.
    apply list_elem_of_fmap in Hin as (q & Ename & Hq). apply not_true_iff_false in E. apply E.
    apply existsb_exists. exists q. split; [by apply list_elem_of_In|]. by apply N.eqb_eq.
Qed.

Lemma dependency_error_None plugins i p j d :
  NoDup (Name <$> plugins) →
  dependency_error plugins i p j d = None ↔
  (d ∉ take j (Dependencies p)) ∧ ∃ k q, k < i ∧ plugins !! k = Some q ∧ Name q = d.
Proof.
  intros Hnd. unfold dependency_error.
  destruct (list_find (λ other, Name other = d) plugins) as [[k q]|] eqn:Ef; cbn [fmap option_fmap option_map fst].
  - apply list_find_Some in Ef as (Hk & Hq & _).
    assert (Huniq : ∀ k' q', plugins !! k' = Some q' → Name q' = d → k' = k).
    { intros k' q' Hk' Hq'. rewrite NoDup_alt in Hnd. apply (Hnd k' k d); rewrite list_lookup_fmap.
      - rewrite Hk'. simpl. by rewrite Hq'.
      - rewrite Hk. simpl. by rewrite Hq. }
    destruct (decide (Some k = Some i)) as [[= ->]|Hne].
    + split; [done|]. intros (_ & k' & q' & Hlt & Hk' & Hq'). specialize (Huniq k' q' Hk' Hq'). lia.
    + destruct (decide (d ∈ take j (Dependencies p))); [by split; [|intros [? _]]|].
      destruct (decide (i < k)).
      * split; [done|]. intros (_ & k' & q' & Hlt & Hk' & Hq'). specialize (Huniq k' q' Hk' Hq'). lia.
      * split; [|done]. intros _. split; [done|]. exists k, q. split; [|done].
        assert (k ≠ i) by congruence. lia.
  - apply list_find_None in Ef. destruct (decide (None = Some i)); [done|].
    assert (Hno : ∀ k q, plugins !! k = Some q → Name q ≠ d).
    { intros k q Hk. rewrite Forall_forall in Ef. apply Ef. by eapply list_elem_of_lookup_2. }
    destruct (decide (d ∈ take j (Dependencies p))); (split; [done|]); intros (_ & k & q & _ & Hk & Hq); by apply (Hno k q) in Hk.
Qed.

Lemma composition_None plugins : composition plugins = None ↔ well_composed plugins.
Proof.
  unfold composition, well_composed. rewrite head_omap_id_None, Forall_app, Forall_imap_None, Forall_concat.
  assert (Hnames : (∀ i p, plugins !! i = Some p → two_of_a_name plugins i p = None) ↔ NoDup (Name <$> plugins)).
  { rewrite NoDup_no_earlier. split.
    - intros H i name Hi. rewrite list_lookup_fmap in Hi. destruct (plugins !! i) as [p|] eqn:E; [|done].
      injection Hi as <-. by apply (two_of_a_name_None plugins i p), H.
    - intros H i p Hi. apply two_of_a_name_None, H. by rewrite list_lookup_fmap, Hi. }
  rewrite Hnames. match goal with |- _ ∧ ?P ↔ _ ∧ ?Q => assert (NoDup (Name <$> plugins) → P ↔ Q); [|tauto] end.
  intros Hnd. rewrite Forall_lookup. split.
  - intros H i p Hi. assert (Hp : ∀ j d, Dependencies p !! j = Some d → dependency_error plugins i p j d = None).
    { apply Forall_imap_None, (H i). by rewrite list_lookup_imap, Hi. }
    split.
    + apply NoDup_no_earlier. intros j d Hj. by apply (dependency_error_None plugins i p j d Hnd), Hp.
    + intros d (j & Hj)%list_elem_of_lookup. by apply (dependency_error_None plugins i p j d Hnd), Hp.
  - intros H i l. rewrite list_lookup_imap. destruct (plugins !! i) as [p|] eqn:Ep; [|done]. simpl. intros [= <-].
    apply Forall_imap_None. intros j d Hj. apply dependency_error_None; [done|]. destruct (H i p Ep) as [Hd Hin].
    split; [by apply (NoDup_no_earlier (Dependencies p))|]. apply Hin. by eapply list_elem_of_lookup_2.
Qed.

(** C17: bringing a kernel up either panics before any Init on plugins that are
    not well composed, or calls, whatever the plugins answer: the Inits in
    order and the Starts in order; or, an Init failing, the Inits up to it and
    the Destroys of those before it in reverse; or, a Start failing, every
    Init, the Starts up to it, the Stops of those before it in reverse, a
    drain, and every Destroy in reverse.  The failure is that plugin's own. *)
Theorem kernel_init_calls settled plugins :
  let names ps := Name <$> ps in
  let inits ps := CallInit <$> names ps in
  let starts ps := CallStart <$> names ps in
  let stops ps := CallStop <$> names (reverse ps) in
  let destroys ps := CallDestroy <$> names (reverse ps) in
  match kernel_init settled plugins with
  | Composition e => ¬ well_composed plugins
  | Unsettled tr => well_composed plugins ∧ calls tr = inits plugins
  | Running tr => well_composed plugins ∧ calls tr = inits plugins ++ [StartWorkers] ++ starts plugins
  | Failed tr name e => well_composed plugins ∧ ∃ d p rest tr0, plugins = d ++ p :: rest ∧ name = Name p ∧
      (Init p tr0 = Some e ∧ calls tr = inits (d ++ [p]) ++ destroys d ∨
       Start p tr0 = Some e ∧
         calls tr = inits plugins ++ [StartWorkers] ++ starts (d ++ [p]) ++ stops d ++ [Drain] ++ destroys plugins)
  end.
Proof.
  cbv zeta. unfold kernel_init, lifecycle_init. destruct (composition plugins) as [e|] eqn:Ec.
  { intros Hw. apply composition_None in Hw. congruence. }
  apply composition_None in Ec. pose proof (init_from_calls plugins [] plugins [] eq_refl) as Hi. simpl in Hi.
  rewrite <- !list_fmap_compose. destruct (init_from _ _ _ _) as [tr [[name e]|]].
  { split; [done|]. destruct Hi as (d & p & rest & tr0 & -> & He & -> & Hc). exists d, p, rest, tr0.
    split_and!; [done|done|]. left. split; [done|]. by rewrite <- !list_fmap_compose. }
  destruct (settled tr); [|done]. unfold lifecycle_start.
  pose proof (start_from_calls plugins [] plugins (tr ++ [StartWorkers]) eq_refl) as Hs. simpl in Hs.
  destruct (start_from _ _ _ _) as [tr' [[name e]|]]; (split; [done|]).
  - destruct Hs as (d & p & rest & tr0 & Epl & He & -> & Hc). exists d, p, rest, tr0.
    split_and!; [done|done|]. right. split; [done|]. unfold lifecycle_destroy.
    rewrite destroyFrom_calls, calls_app, firstn_all, Hc, calls_app, Hi. rewrite <- !list_fmap_compose.
    by rewrite <- !(assoc (++)).
  - by rewrite Hs, calls_app, Hi, <- (assoc (++)).
Qed.

(** Destroying a kernel calls every plugin's Stop in reverse, drains, and
    calls every plugin's Destroy in reverse, each failure logged and none
    stopping the rest. *)
Theorem kernel_destroy_calls plugins tr :
  calls (kernel_destroy plugins tr) =
  calls tr ++ (CallStop <$> (Name <$> reverse plugins)) ++ [Drain] ++ (CallDestroy <$> (Name <$> reverse plugins)).
Proof.
  unfold kernel_destroy, lifecycle_destroy, lifecycle_stop.
  by rewrite destroyFrom_calls, calls_app, stopFrom_calls, !firstn_all, <- !(assoc (++)), <- !list_fmap_compose.
Qed.
End lifecycle.
