(* ===== verification/Supervisor.v ===== *)
(** * The supervisor of kernel/supervisor.go

    Which kernels are live, and the steps that change it: Spawn's look at
    [quitting], its taking of an ID, the failure or end of the spawned kernel's
    init, Spawn's entry into the live map, Destroy, Quit, and the goroutines that
    destroy kernels.  Every
    section under kernelsMu is one step; between them goroutines interleave
    freely ([step]). *)

From S2P Require Import Prelude.

(** The kernels are named by their IDs.  [closed_done] is whether Done is. *)
Record Supervisor := mkSupervisor {
  kernels : gset N;
  spawnOrder : list N;
  lastID : N;
  quitting : bool;
  closed_done : bool
}.

Definition NewSupervisor : Supervisor := mkSupervisor ∅ [] 0 false false.

Inductive spawn_answer :=
  | WorkersPanic
  | ErrQuitting
  | GoesOn.

(** Spawn up to its look at [quitting], which it does without the mutex. *)
Definition Spawn_begin (s : Supervisor) (workerCount : Z) : spawn_answer :=
  if (workerCount <? 1)%Z then WorkersPanic else if quitting s then ErrQuitting else GoesOn.

(** Its next access: the ID is taken from the atomic counter. *)
Definition Spawn_id (s : Supervisor) : Supervisor * N :=
  let id := u64 (lastID s + 1) in
  (mkSupervisor (kernels s) (spawnOrder s) id (quitting s) (closed_done s), id).

(** Spawn once init has succeeded: whether the kernel became live, or is to be
    destroyed. *)
Definition Spawn_enter (s : Supervisor) (id : N) : Supervisor * bool :=
  if quitting s then (s, false)
  else (mkSupervisor ({[id]} ∪ kernels s) (spawnOrder s ++ [id]) (lastID s) (quitting s) (closed_done s), true).

Definition GetKernel (s : Supervisor) (id : N) : option N :=
  if decide (id ∈ kernels s) then Some id else None.

(** Broadcast publishes in every kernel of the order it took. *)
Definition Broadcast {St} (publish : N → St → St) (s : Supervisor) (w : St) : St :=
  foldl (λ w id, publish id w) w (spawnOrder s).

(** Destroy: whether a goroutine now destroys the kernel. *)
Definition Destroy (s : Supervisor) (id : N) : Supervisor * bool :=
  if decide (id ∈ kernels s) then
    (mkSupervisor (kernels s ∖ {[id]}) (filter (λ other, other ≠ id) (spawnOrder s)) (lastID s)
       (quitting s) (closed_done s), true)
  else (s, false).

(** Quit: the kernels its goroutine now destroys, or [None] if it had been
    called already. *)
Definition Quit (s : Supervisor) : Supervisor * option (gset N) :=
  if quitting s then (s, None)
  else (mkSupervisor ∅ [] (lastID s) true (closed_done s), Some (kernels s)).

Definition close_done (s : Supervisor) : Supervisor :=
  mkSupervisor (kernels s) (spawnOrder s) (lastID s) (quitting s) true.

(** ** The system *)

Record sys := mkSys {
  sup : Supervisor;
  checked : nat;           (* Spawns that went on and have yet to take an ID *)
  spawning : list N;       (* kernels whose init runs *)
  failed : list N;         (* kernels whose init failed *)
  destroying : list N;     (* kernels whose destroy runs *)
  gone : list N;           (* kernels whose destroy has returned *)
  quitWaits : option (gset N) (* what Quit's goroutine waits for *)
}.

Definition initial : sys := mkSys NewSupervisor 0 [] [] [] [] None.

Inductive step : sys → sys → Prop :=
  | step_spawn s workerCount :
      Spawn_begin (sup s) workerCount = GoesOn →
      step s (mkSys (sup s) (S (checked s)) (spawning s) (failed s) (destroying s) (gone s) (quitWaits s))
  | step_take_id s n sup' id :
      checked s = S n → Spawn_id (sup s) = (sup', id) →
      step s (mkSys sup' n (id :: spawning s) (failed s) (destroying s) (gone s) (quitWaits s))
  | step_init_fails s id before after :
      spawning s = before ++ id :: after →
      step s (mkSys (sup s) (checked s) (before ++ after) (id :: failed s) (destroying s) (gone s) (quitWaits s))
  | step_enter s sup' id before after :
      spawning s = before ++ id :: after → Spawn_enter (sup s) id = (sup', true) →
      step s (mkSys sup' (checked s) (before ++ after) (failed s) (destroying s) (gone s) (quitWaits s))
  | step_too_late s sup' id before after :
      spawning s = before ++ id :: after → Spawn_enter (sup s) id = (sup', false) →
      step s (mkSys sup' (checked s) (before ++ after) (failed s) (id :: destroying s) (gone s) (quitWaits s))
  | step_destroy s sup' id :
      Destroy (sup s) id = (sup', true) →
      step s (mkSys sup' (checked s) (spawning s) (failed s) (id :: destroying s) (gone s) (quitWaits s))
  | step_destroyed s id before after :
      destroying s = before ++ id :: after →
      step s (mkSys (sup s) (checked s) (spawning s) (failed s) (before ++ after) (id :: gone s) (quitWaits s))
  | step_quit s sup' ids :
      Quit (sup s) = (sup', Some ids) →
      step s (mkSys sup' (checked s) (spawning s) (failed s) (elements ids ++ destroying s) (gone s) (Some ids))
  | step_done s ids :
      quitWaits s = Some ids → (∀ id, id ∈ ids → id ∈ gone s) → closed_done (sup s) = false →
      step s (mkSys (close_done (sup s)) (checked s) (spawning s) (failed s) (destroying s) (gone s) (quitWaits s)).

(** Fewer spawns than a [uint64] counts. *)
Inductive reachable : sys → Prop :=
  | reach_initial : reachable initial
  | reach_step s s' : reachable s → (lastID (sup s) < 2 ^ 64 - 1)%N → step s s' → reachable s'.

(** ** Invariant *)

(** The IDs handed out so far. *)
Definition ids_upto (last : N) : list N := N.of_nat <$> seq 1 (N.to_nat last).

(** Where every kernel is: exactly one place. *)
Definition everywhere (s : sys) : list N :=
  spawning s ++ failed s ++ spawnOrder (sup s) ++ destroying s ++ gone s.

Record inv (s : sys) : Prop := {
  inv_places : everywhere s ≡ₚ ids_upto (lastID (sup s));
  inv_live : ∀ id, id ∈ kernels (sup s) ↔ id ∈ spawnOrder (sup s);
  inv_quitting : quitting (sup s) = true → spawnOrder (sup s) = [];
  inv_waits : is_Some (quitWaits s) ↔ quitting (sup s) = true;
  inv_waited : ∀ ids id, quitWaits s = Some ids → id ∈ ids → id ∈ destroying s ∨ id ∈ gone s;
  inv_done : closed_done (sup s) = true →
    ∃ ids, quitWaits s = Some ids ∧ ∀ id, id ∈ ids → id ∈ gone s
}.

Lemma ids_upto_succ last : ids_upto (last + 1) ≡ₚ (last + 1)%N :: ids_upto last.
Proof.
  unfold ids_upto. replace (N.to_nat (last + 1)) with (N.to_nat last + 1) by lia.
  rewrite seq_app, fmap_app, Permutation_app_comm. simpl. replace (N.of_nat (S (N.to_nat last))) with (last + 1)%N by lia.
  done.
Qed.

Lemma places_NoDup s : inv s → NoDup (everywhere s).
Proof. intros [Hp _ _ _ _ _]. rewrite Hp. apply NoDup_fmap_2; [apply _|apply NoDup_seq]. Qed.

Lemma kernels_elements (s : Supervisor) :
  NoDup (spawnOrder s) → (∀ id, id ∈ kernels s ↔ id ∈ spawnOrder s) → elements (kernels s) ≡ₚ spawnOrder s.
Proof.
  intros Hnd Hl. apply NoDup_Permutation; [apply NoDup_elements|done|]. intros id. by rewrite elem_of_elements.
Qed.

Lemma filter_ne_perm (l : list N) id : NoDup l → id ∈ l → l ≡ₚ id :: filter (λ other, other ≠ id) l.
Proof.
  intros Hnd (l1 & l2 & ->)%list_elem_of_split. rewrite filter_app, filter_cons, decide_False by (by intros []).
  apply NoDup_app in Hnd as (_ & Hd & [Hn _]%NoDup_cons).
  assert (Hall : ∀ l : list N, id ∉ l → filter (λ other, other ≠ id) l = l).
  { intros l. induction l as [|x l IH]; [done|]. intros [? ?]%not_elem_of_cons. rewrite filter_cons, decide_True by congruence.
    by rewrite IH. }
  rewrite !Hall; [solve_Permutation|done|]. intros Hin. apply (Hd id Hin). by left.
Qed.

Lemma supervisor_inv_initial : inv initial.
Proof. split; simpl; try done; set_solver. Qed.

Lemma supervisor_inv_step s s' : inv s → (lastID (sup s) < 2 ^ 64 - 1)%N → step s s' → inv s'.
Proof.
  intros Hinv Hlast Hstep. pose proof (places_NoDup s Hinv) as Hnd.
  destruct Hinv as [Hp Hl Hq Hw Hwd Hdone]. unfold everywhere in *.
  destruct Hstep as [s wc E|s n sup' id E E2|s id l1 l2 E|s sup' id l1 l2 E E2|s sup' id l1 l2 E E2|s sup' id E|s id l1 l2 E|s sup' ids E|s ids E Hall Hc].
  - done.
  - unfold Spawn_id in E2. injection E2 as <- <-. unfold u64. rewrite N.mod_small by lia. split; cbn in *; try done.
    unfold everywhere. cbn. by rewrite ids_upto_succ, <- Hp.
  - split; cbn; try done. unfold everywhere. cbn. rewrite <- Hp, E. solve_Permutation.
  - unfold Spawn_enter in E2. destruct (quitting (sup s)) eqn:Eq; [done|]. injection E2 as <-.
    split; cbn; try done.
    + unfold everywhere. cbn. rewrite <- Hp, E. solve_Permutation.
    + intros i. rewrite elem_of_union, elem_of_singleton, elem_of_app, list_elem_of_singleton, Hl. tauto.
  - unfold Spawn_enter in E2. destruct (quitting (sup s)) eqn:Eq; [|done]. injection E2 as <-.
    split; cbn; try done.
    + unfold everywhere. cbn. rewrite <- Hp, E. solve_Permutation.
    + by rewrite Eq.
    + by rewrite Eq.
    + intros ids i Hi Hin. destruct (Hwd ids i Hi Hin); [left; by right|by right].
  - unfold Destroy in E. destruct (decide _) as [Hin|]; [|done]. injection E as <-. apply Hl in Hin.
    assert (Hndo : NoDup (spawnOrder (sup s))) by (apply NoDup_app in Hnd as (_ & _ & Hnd);
      apply NoDup_app in Hnd as (_ & _ & Hnd); by apply NoDup_app in Hnd as (? & _)).
    split; cbn; try done.
    + unfold everywhere. cbn. rewrite <- Hp. rewrite (filter_ne_perm _ id Hndo Hin) at 2. solve_Permutation.
    + intros i. rewrite elem_of_difference, elem_of_singleton, list_elem_of_filter, Hl. tauto.
    + intros Hq'. by rewrite Hq.
    + intros ids i Hi Hi2. destruct (Hwd ids i Hi Hi2); [left; by right|by right].
  - split; cbn; try done.
    + unfold everywhere. cbn. rewrite <- Hp, E. solve_Permutation.
    + intros ids i Hi Hin. destruct (Hwd ids i Hi Hin) as [Hd|]; [|right; by right].
      rewrite E, elem_of_app, elem_of_cons in Hd. rewrite elem_of_app, elem_of_cons. tauto.
    + intros Hd. destruct (Hdone Hd) as (ids & ? & Hall). exists ids. split; [done|]. intros i Hi. right. by apply Hall.
  - unfold Quit in E. destruct (quitting (sup s)) eqn:Eq; [done|]. injection E as <- <-.
    assert (Hndo : NoDup (spawnOrder (sup s))) by (apply NoDup_app in Hnd as (_ & _ & Hnd);
      apply NoDup_app in Hnd as (_ & _ & Hnd); by apply NoDup_app in Hnd as (? & _)).
    split; cbn; try done.
    + unfold everywhere. cbn. rewrite (kernels_elements _ Hndo Hl), <- Hp. solve_Permutation.
    + intros i. split; [by intros ?%elem_of_empty|by intros ?%not_elem_of_nil].
    + intros ids i [= <-] Hin. left. apply elem_of_app. left. by apply elem_of_elements.
    + intros Hd. destruct (Hdone Hd) as (ids & Hids & _). rewrite Hids in Hw. apply proj1 in Hw.
      by specialize (Hw ltac:(by eexists)).
  - split; cbn; try done. intros _. by exists ids.
Qed.

Lemma supervisor_reachable_inv s : reachable s → inv s.
Proof. induction 1 as [|s s' _ IH Hlast Hstep]; [apply supervisor_inv_initial|by eapply supervisor_inv_step]. Qed.

(** C19: in every reachable state, whatever the interleaving of Spawns,
    Destroys and Quits: each ID handed out names exactly one kernel and that
    kernel is in exactly one place, spawning, failed, live, being destroyed or
    gone, so none is destroyed twice and none is lost; the live map and the
    spawn order hold the same kernels, each once; once quitting, none is live
    or ever becomes so; and Done is closed only with every kernel that was live
    when Quit was called gone. *)
Theorem supervisor_accounts s :
  reachable s →
  everywhere s ≡ₚ ids_upto (lastID (sup s)) ∧ NoDup (everywhere s) ∧
  (∀ id, GetKernel (sup s) id = Some id ↔ id ∈ spawnOrder (sup s)) ∧
  (quitting (sup s) = true → spawnOrder (sup s) = [] ∧ (∀ id, GetKernel (sup s) id = None) ∧
     ∀ s', step s s' → spawnOrder (sup s') = []) ∧
  (closed_done (sup s) = true → ∃ ids, quitWaits s = Some ids ∧ ∀ id, id ∈ ids → id ∈ gone s).
Proof.
  intros Hs%supervisor_reachable_inv. split_and!; [| | | |apply Hs].
  - apply Hs.
  - by apply places_NoDup.
  - intros id. unfold GetKernel. rewrite <- (inv_live s Hs). by destruct (decide _).
  - intros Hq. pose proof (inv_quitting s Hs Hq) as Ho. split_and!; [done| |].
    + intros id. unfold GetKernel. rewrite decide_False; [done|]. rewrite (inv_live s Hs), Ho. by apply not_elem_of_nil.
    + intros s' Hstep. destruct Hstep as [s wc E|s n sup' id E E2|s id l1 l2 E|s sup' id l1 l2 E E2|s sup' id l1 l2 E E2|s sup' id E|s id l1 l2 E|s sup' ids E|s ids E Hall Hc]; cbn.
      * done.
      * unfold Spawn_id in E2. by injection E2 as <- _.
      * done.
      * unfold Spawn_enter in E2. by rewrite Hq in E2.
      * unfold Spawn_enter in E2. rewrite Hq in E2. by injection E2 as <-.
      * unfold Destroy in E. rewrite decide_False in E; [done|]. rewrite (inv_live s Hs), Ho. by apply not_elem_of_nil.
      * done.
      * unfold Quit in E. by rewrite Hq in E.
      * done.
Qed.


(** ** Schedules *)

Inductive move :=
  | MSpawn
  | MTakeID
  | MFail (k : nat)
  | MEnter (k : nat)
  | MDestroy (id : N)
  | MDestroyed (k : nat)
  | MQuit
  | MDone.

Definition make_move (s : sys) (m : move) : option sys :=
  if (2 ^ 64 - 1 <=? lastID (sup s))%N then None else
  match m with
  | MSpawn =>
      match Spawn_begin (sup s) 1 with
      | GoesOn =>
          Some (mkSys (sup s) (S (checked s)) (spawning s) (failed s) (destroying s) (gone s) (quitWaits s))
      | _ => None
      end
  | MTakeID =>
      match checked s with
      | S n =>
          let '(sup', id) := Spawn_id (sup s) in
          Some (mkSys sup' n (id :: spawning s) (failed s) (destroying s) (gone s) (quitWaits s))
      | O => None
      end
  | MFail k =>
      id ← spawning s !! k;
      Some (mkSys (sup s) (checked s) (delete k (spawning s)) (id :: failed s) (destroying s) (gone s) (quitWaits s))
  | MEnter k =>
      id ← spawning s !! k;
      Some (match Spawn_enter (sup s) id with
            | (sup', true) => mkSys sup' (checked s) (delete k (spawning s)) (failed s) (destroying s) (gone s) (quitWaits s)
            | (sup', false) =>
                mkSys sup' (checked s) (delete k (spawning s)) (failed s) (id :: destroying s) (gone s) (quitWaits s)
            end)
  | MDestroy id =>
      match Destroy (sup s) id with
      | (sup', true) => Some (mkSys sup' (checked s) (spawning s) (failed s) (id :: destroying s) (gone s) (quitWaits s))
      | (_, false) => None
      end
  | MDestroyed k =>
      id ← destroying s !! k;
      Some (mkSys (sup s) (checked s) (spawning s) (failed s) (delete k (destroying s)) (id :: gone s) (quitWaits s))
  | MQuit =>
      match Quit (sup s) with
      | (sup', Some ids) =>
          Some (mkSys sup' (checked s) (spawning s) (failed s) (elements ids ++ destroying s) (gone s) (Some ids))
      | (_, None) => None
      end
  | MDone =>
      ids ← quitWaits s;
      if decide (set_Forall (λ id, id ∈ gone s) ids) then
        if closed_done (sup s) then None
        else Some (mkSys (close_done (sup s)) (checked s) (spawning s) (failed s) (destroying s) (gone s) (quitWaits s))
      else None
  end.

Lemma delete_split {A} (l : list A) k x : l !! k = Some x →
  l = take k l ++ x :: drop (S k) l ∧ delete k l = take k l ++ drop (S k) l.
Proof. intros Hk. split; [symmetry; by apply take_drop_middle|apply delete_take_drop]. Qed.

Lemma supervisor_make_move_step s m s' : make_move s m = Some s' → (lastID (sup s) < 2 ^ 64 - 1)%N ∧ step s s'.
Proof.
  unfold make_move. destruct (N.leb_spec (2 ^ 64 - 1) (lastID (sup s))) as [|Hlt]; [done|].
  intros Hm. split; [done|]. revert Hm. destruct m as [| |k|k|id|k| |].
  - destruct (Spawn_begin (sup s) 1) eqn:E; [done..|]. intros [= <-]. by eapply step_spawn.
  - destruct (checked s) as [|n] eqn:Hc; [done|]. intros [= <-]. by eapply step_take_id.
  - destruct (spawning s !! k) as [id|] eqn:Hk; [|done]. intros [= <-].
    destruct (delete_split _ _ _ Hk) as [? ->]. by apply step_init_fails.
  - destruct (spawning s !! k) as [id|] eqn:Hk; [|done]. destruct (delete_split _ _ _ Hk) as [? ->].
    cbn [mbind option_bind]. destruct (Spawn_enter (sup s) id) as [sup' [|]] eqn:E; intros [= <-].
    + by eapply step_enter.
    + by eapply step_too_late.
  - destruct (Destroy (sup s) id) as [sup' [|]] eqn:E; [|done]. intros [= <-]. by apply step_destroy.
  - destruct (destroying s !! k) as [id|] eqn:Hk; [|done]. intros [= <-].
    destruct (delete_split _ _ _ Hk) as [? ->]. by apply step_destroyed.
  - destruct (Quit (sup s)) as [sup' [ids|]] eqn:E; [|done]. intros [= <-]. by apply step_quit.
  - destruct (quitWaits s) as [ids|] eqn:Hids; [|done]. cbn [mbind option_bind].
    destruct (decide _) as [Hall|]; [|done]. destruct (closed_done (sup s)) eqn:Hc; [done|]. intros [= <-].
    rewrite <- Hids. by eapply step_done.
Qed.

Lemma supervisor_run_moves_reachable s ms s' : reachable s → run_moves make_move s ms = Some s' → reachable s'.
Proof.
  apply run_moves_invariant. intros s1 m s2 Hs [Hlt Hstep]%supervisor_make_move_step. by eapply reach_step.
Qed.

(** Two kernels spawned, one destroyed, a third that takes its ID after Quit
    came, and Done closed before the others are gone. *)
Definition example_schedule : list move :=
  [MSpawn; MTakeID; MEnter 0; MSpawn; MTakeID; MEnter 0; MDestroy 1; MSpawn; MQuit; MTakeID;
   MDestroyed 0; MEnter 0; MDone].

Lemma supervisor_accounts_witness :
  ∃ s, run_moves make_move initial example_schedule = Some s ∧ everywhere s = [3%N; 1%N; 2%N] ∧
    closed_done (sup s) = true ∧ NoDup (everywhere s) ∧
    ∃ ids, quitWaits s = Some ids ∧ ∀ id, id ∈ ids → id ∈ gone s.
Proof.
  destruct (run_moves make_move initial example_schedule) as [s|] eqn:E; [|vm_compute in E; discriminate].
  destruct (supervisor_accounts s (supervisor_run_moves_reachable _ _ _ reach_initial E)) as (_ & Hnd & _ & _ & Hdone).
  assert (Hc : closed_done (sup s) = true) by (vm_compute in E; by injection E as <-).
  exists s. split; [done|]. split; [vm_compute in E; by injection E as <-|].
  split; [exact Hc|]. split; [exact Hnd|exact (Hdone Hc)].
Defined.
