(* ===== verification/MainThread.v ===== *)
(** * The main thread of kernel/supervisor.go

    The queue of pinned jobs: pushPinned from any goroutine, and the loop of the
    main thread, [for s.WaitMainThread() { s.TickMainThread() }], interleaved
    one operation of the queue or of a channel at a time.  What a pinned job
    does is left open: any goroutine, the main thread in a job of its own
    included, may push at any time. *)

From S2P Require Import Prelude Queue.

Section main_thread.
Context {K J Q : Type}.

Record pinnedJob := mkPinnedJob { pinned_kernel : K; pinned_job : J }.

Context `{Fifo Q pinnedJob}.

(** What the goroutines share, and the main thread's buffer: [pinnedBatch] is
    the array behind the source's slice up to its capacity, [None] in a slot
    that holds the zero pinnedJob.  [mainWake] is whether its channel holds its
    one token; [done] whether its channel is closed. *)
Record mainThread := mkMainThread {
  pinned : Q;
  mainWake : bool;
  done : bool;
  pinnedBatch : list (option pinnedJob)
}.

(** Where the main thread is.  A batch is the first [n] of its buffer. *)
Inductive pc :=
  | WaitLooks              (* the first select of WaitMainThread *)
  | WaitParks              (* the second *)
  | TickDrains
  | TickRuns (i n : nat)   (* the range loop, about to run the i-th *)
  | TickRunning (i n : nat)
  | TickClears (n : nat)
  | MainOver.              (* WaitMainThread answered false *)

(** [waking] is how many goroutines are inside pushPinned between its push and
    its select.  [pushed] and [started] are ghosts: the jobs pushed, and those
    the main thread began to run. *)
Record sys := mkSys {
  sh : mainThread;
  main : pc;
  waking : nat;
  pushed : list pinnedJob;
  started : list pinnedJob
}.

Inductive outcome :=
  | Blocks
  | Panics
  | Goes (s : sys).

Definition NewMainThread : mainThread := mkMainThread fifo_empty false false [].
Definition initial : sys := mkSys NewMainThread WaitLooks 0 [] [].

(** [append(buffer[:0], items...)]: in place while its capacity holds them, else
    into an array with [spare] slots to spare. *)
Definition fill (buffer : list (option pinnedJob)) (items : list pinnedJob) (spare : nat) :=
  (Some <$> items) ++
  if decide (length items ≤ length buffer) then drop (length items) buffer else replicate spare None.

Definition set_main (s : sys) (p : pc) : sys := mkSys (sh s) p (waking s) (pushed s) (started s).

Definition set_batch (m : mainThread) (b : list (option pinnedJob)) : mainThread :=
  mkMainThread (pinned m) (mainWake m) (done m) b.

(** WaitMainThread.  [takes_done] is which of two ready cases its second select
    takes. *)
Definition wait_step (s : sys) (takes_done : bool) : outcome :=
  let m := sh s in
  match main s with
  | WaitLooks => Goes (set_main s (if done m then MainOver else WaitParks))
  | WaitParks =>
      if takes_done then (if done m then Goes (set_main s MainOver) else Blocks)
      else if mainWake m then
        Goes (mkSys (mkMainThread (pinned m) false (done m) (pinnedBatch m)) TickDrains (waking s) (pushed s) (started s))
      else Blocks
  | _ => Blocks
  end.

(** TickMainThread; from its return main's loop is back in WaitMainThread. *)
Definition tick_step (s : sys) (spare : nat) : outcome :=
  let m := sh s in
  match main s with
  | TickDrains =>
      match fifo_drain (pinned m) with
      | None => Panics
      | Some (q, items) =>
          Goes (mkSys (mkMainThread q (mainWake m) (done m) (fill (pinnedBatch m) items spare))
                  (if decide (length items = 0) then WaitLooks else TickRuns 0 (length items))
                  (waking s) (pushed s) (started s))
      end
  | TickRuns i n =>
      if i <? n then
        match pinnedBatch m !! i with
        | Some (Some job) => Goes (mkSys m (TickRunning i n) (waking s) (pushed s) (started s ++ [job]))
        | _ => Panics (* out of range, or a nil kernel *)
        end
      else Goes (set_main s (TickClears n))
  | TickRunning i n => Goes (set_main s (TickRuns (i + 1) n))
  | TickClears n =>
      Goes (mkSys (set_batch m (replicate n None ++ drop n (pinnedBatch m))) TickDrains (waking s) (pushed s) (started s))
  | _ => Blocks
  end.

Definition main_step (s : sys) (spare : nat) (takes_done : bool) : outcome :=
  match main s with
  | WaitLooks | WaitParks => wait_step s takes_done
  | _ => tick_step s spare
  end.

(** pushPinned, its two halves: the push, and the select that wakes the main
    thread unless a wake is pending. *)
Definition push_step (s : sys) (job : pinnedJob) : outcome :=
  match fifo_push (pinned (sh s)) job with
  | None => Panics
  | Some q =>
      Goes (mkSys (mkMainThread q (mainWake (sh s)) (done (sh s)) (pinnedBatch (sh s)))
              (main s) (S (waking s)) (pushed s ++ [job]) (started s))
  end.

Definition wake_step (s : sys) : outcome :=
  match waking s with
  | 0 => Blocks
  | S n => Goes (mkSys (mkMainThread (pinned (sh s)) true (done (sh s)) (pinnedBatch (sh s))) (main s) n (pushed s) (started s))
  end.

(** Quit's goroutine closes done, once. *)
Definition close_step (s : sys) : outcome :=
  if done (sh s) then Blocks
  else Goes (mkSys (mkMainThread (pinned (sh s)) (mainWake (sh s)) true (pinnedBatch (sh s))) (main s) (waking s) (pushed s) (started s)).

Inductive move :=
  | Push (job : pinnedJob)
  | Wake
  | CloseDone
  | Main (spare : nat) (takes_done : bool).

Definition exec (s : sys) (m : move) : outcome :=
  match m with
  | Push job => push_step s job
  | Wake => wake_step s
  | CloseDone => close_step s
  | Main spare takes_done => main_step s spare takes_done
  end.

Inductive step : sys → move → sys → Prop :=
  | step_exec s m s' : exec s m = Goes s' → step s m s'.

Inductive reachable : sys → Prop :=
  | reach_initial : reachable initial
  | reach_step s m s' : reachable s → step s m s' → reachable s'.

(** ** Invariant *)

(** What is left of the batch. *)
Definition batch (s : sys) : list (option pinnedJob) :=
  match main s with
  | TickRuns i n => drop i (take n (pinnedBatch (sh s)))
  | TickRunning i n => drop (i + 1) (take n (pinnedBatch (sh s)))
  | _ => []
  end.

(** How many slots of the buffer may hold a job. *)
Definition held (p : pc) : nat :=
  match p with TickRuns _ n | TickRunning _ n | TickClears n => n | _ => 0 end.

Definition in_batch (p : pc) : Prop :=
  match p with TickRuns i n => i ≤ n | TickRunning i n => i < n | _ => True end.

Record inv (s : sys) (l : list pinnedJob) : Prop := {
  inv_queue : fifo_repr (pinned (sh s)) l;
  inv_jobs : ∃ rest, batch s = Some <$> rest ∧ pushed s = started s ++ rest ++ l;
  inv_pc : in_batch (main s);
  inv_held : held (main s) ≤ length (pinnedBatch (sh s));
  inv_clear : Forall (.= None) (drop (held (main s)) (pinnedBatch (sh s)));
  inv_wake : main s = WaitLooks ∨ main s = WaitParks → l ≠ [] → mainWake (sh s) = true ∨ waking s ≠ 0;
  inv_over : main s = MainOver → done (sh s) = true
}.

(** How many steps of the main thread and of the goroutines inside pushPinned
    are left. *)
Definition pc_left (p : pc) : nat :=
  match p with
  | MainOver => 0
  | WaitParks => 1
  | WaitLooks => 2
  | TickDrains => 3
  | TickClears _ => 4
  | TickRuns i n => 5 + 2 * (n - i)
  | TickRunning i n => 4 + 2 * (n - i)
  end.

Definition left_ (s : sys) (l : list pinnedJob) : nat :=
  pc_left (main s) + 5 * length l + 10 * waking s + (if mainWake (sh s) then 5 else 0) + (if done (sh s) then 0 else 1).

Definition is_push (m : move) : bool := match m with Push _ => true | _ => false end.

(** Runs of moves, and runs that push nothing. *)
Fixpoint run (s : sys) (ms : list move) : outcome :=
  match ms with
  | [] => Goes s
  | m :: ms => match exec s m with Goes s' => run s' ms | o => o end
  end.

(** The main thread is parked or done with. *)
Definition at_rest (s : sys) : Prop := waking s = 0 ∧ ∀ spare takes_done, main_step s spare takes_done = Blocks.
End main_thread.

Arguments pinnedJob K J : clear implicits.
Arguments mainThread K J Q : clear implicits.
Arguments sys K J Q : clear implicits.
Arguments outcome K J Q : clear implicits.
Arguments move K J : clear implicits.

Section facts.
Context {K J Q : Type} `{FifoLaws Q (pinnedJob K J)}.
Implicit Types (s : sys K J Q) (l : list (pinnedJob K J)) (b : list (option (pinnedJob K J))).

Lemma take_fill b l spare : take (length l) (fill b l spare) = Some <$> l.
Proof using Type. unfold fill. by rewrite take_app_length' by (by rewrite length_fmap). Qed.

Lemma length_fill b l spare : length l ≤ length (fill b l spare).
Proof using Type. unfold fill. rewrite length_app, length_fmap. lia. Qed.

Lemma fill_clear b l spare : Forall (.= None) b → Forall (.= None) (drop (length l) (fill b l spare)).
Proof using Type.
  intros Hb. unfold fill. rewrite drop_app_length' by (by rewrite length_fmap). case_decide.
  - by apply Forall_drop.
  - by apply Forall_replicate.
Qed.

(** An index of the batch that is left holds its next job. *)
Lemma batch_next b i n rest :
  i < n → n ≤ length b → drop i (take n b) = Some <$> rest →
  ∃ job rest', rest = job :: rest' ∧ b !! i = Some (Some job) ∧ drop (i + 1) (take n b) = Some <$> rest'.
Proof using Type.
  intros Hi Hn E. assert (Hx : is_Some (take n b !! i)) by (apply lookup_lt_is_Some; rewrite length_take; lia).
  destruct Hx as [x Hx]. rewrite (drop_S _ x i Hx) in E. destruct rest as [|job rest']; [done|].
  injection E as -> E. exists job, rest'. rewrite lookup_take_lt in Hx by lia. rewrite Nat.add_1_r. done.
Qed.

Lemma main_inv_initial : inv initial [].
Proof using All.
  split; cbn; [apply fifo_repr_empty|by exists []|done|lia|by constructor|by intros []|done].
Qed.

(** The invariant, kept by a move; [left_] drops unless it pushes; and no move
    panics. *)
Definition keeps s l (m : move K J) (o : outcome K J Q) : Prop :=
  match o with
  | Panics => False
  | Blocks => True
  | Goes s' => ∃ l', inv s' l' ∧ (is_push m = false → left_ s' l' < left_ s l) ∧
      (main s = TickDrains → main s' = WaitLooks → l' = [])
  end.

Lemma keep s l m s' :
  inv s l → is_push m = false → pinned (sh s') = pinned (sh s) → main s' = main s →
  pinnedBatch (sh s') = pinnedBatch (sh s) → pushed s' = pushed s → started s' = started s →
  (mainWake (sh s) = true ∨ waking s ≠ 0 → mainWake (sh s') = true ∨ waking s' ≠ 0) →
  (done (sh s) = true → done (sh s') = true) → left_ s' l < left_ s l → keeps s l m (Goes s').
Proof using Type.
  intros [Hq Hj Hp Hh Hc Hw Ho] Hm Eq Em Eb Epu Est Hwk Hd Hl. exists l. split; [|split; [done|by intros E1; rewrite Em, E1]].
  split; rewrite ?Eq, ?Em, ?Eb, ?Epu, ?Est; try done.
  - unfold batch. by rewrite Em, Eb.
  - intros Hpc Hne. apply Hwk. by apply Hw.
  - intros E. apply Hd. by apply Ho.
Qed.

Lemma keeps_push s l job : inv s l → keeps s l (Push job) (push_step s job).
Proof using All.
  intros [Hq (rest & Eb & Ej) Hp Hh Hc Hw Ho]. unfold push_step.
  destruct (fifo_repr_push _ _ job Hq) as (q & -> & Hq'). cbn. exists (l ++ [job]). split; [|split; [done|by intros ->]].
  split; cbn; try done.
  - exists rest. split; [done|]. by rewrite Ej, <- !app_assoc.
  - intros _ _. by right.
Qed.

Lemma keeps_wake s l : inv s l → keeps s l Wake (wake_step s).
Proof using All.
  intros Hs. unfold wake_step. destruct (waking s) as [|n] eqn:En; [done|]. apply keep; cbn; auto.
  unfold left_. cbn. rewrite En. destruct (mainWake _); lia.
Qed.

Lemma keeps_close s l : inv s l → keeps s l CloseDone (close_step s).
Proof using All.
  intros Hs. unfold close_step. destruct (done (sh s)) eqn:Ed; [done|]. apply keep; cbn; auto.
  unfold left_. cbn. rewrite Ed. lia.
Qed.

Lemma keeps_drain s l spare takes_done :
  inv s l → main s = TickDrains → keeps s l (Main spare takes_done) (main_step s spare takes_done).
Proof using All.
  intros [Hq (rest & Eb & Ej) Hp Hh Hc Hw Ho] Em. unfold main_step, wait_step, tick_step. rewrite Em in *.
  destruct (fifo_repr_drain _ _ Hq) as (q & -> & Hq'). unfold batch in Eb. rewrite Em in Eb. destruct rest; [|done].
  cbn in Hc, Ej. rewrite drop_0 in Hc. exists []. split; [|split; [|done]].
  - destruct (decide _) as [El|El]; split; cbn; try done.
    + exists []. by destruct l.
    + lia.
    + destruct l; [|done]. by apply (fill_clear _ []).
    + exists l. split; [|by rewrite app_nil_r]. unfold batch. cbn. by rewrite drop_0, take_fill.
    + lia.
    + apply length_fill.
    + by apply fill_clear.
  - intros _. unfold left_. rewrite Em. cbn. destruct (decide _); cbn; lia.
Qed.

Lemma keeps_run s l i n spare takes_done :
  inv s l → main s = TickRuns i n → keeps s l (Main spare takes_done) (main_step s spare takes_done).
Proof using All.
  intros [Hq (rest & Eb & Ej) Hp Hh Hc Hw Ho] Em. unfold main_step, wait_step, tick_step. rewrite Em in *. unfold batch in Eb. rewrite Em in Eb. cbn in Hh, Hp.
  destruct (Nat.ltb_spec i n) as [Hi|Hi].
  - destruct (batch_next _ _ _ _ Hi Hh Eb) as (job & rest' & -> & -> & Eb'). exists l. split; [|split; [|done]].
    + split; cbn; try done; [|by intros []]. exists rest'. split; [done|]. by rewrite Ej, <- !app_assoc.
    + intros _. unfold left_. rewrite Em. cbn. lia.
  - exists l. split; [|split; [|done]].
    + split; cbn; try done; [|by intros []]. exists []. split; [done|].
      destruct rest; [done|]. rewrite drop_ge in Eb by (rewrite length_take; lia). done.
    + intros _. unfold left_. rewrite Em. cbn. lia.
Qed.

Lemma keeps_main s l spare takes_done : inv s l → keeps s l (Main spare takes_done) (main_step s spare takes_done).
Proof using All.
  intros Hs. destruct (main s) as [| | |i n|i n|n|] eqn:Em; try (by apply keeps_drain); try (by eapply keeps_run);
    destruct Hs as [Hq (rest & Eb & Ej) Hp Hh Hc Hw Ho]; unfold main_step, wait_step, tick_step, batch in *; rewrite Em in *; cbn in Hh, Hp, Hc.
  - exists l. split; [|split; [|by rewrite Em]].
    + destruct (done (sh s)) eqn:Ed; split; cbn; try done; [by exists rest|by intros []|by exists rest|].
      intros _ Hne. apply Hw; by auto.
    + intros _. unfold left_. rewrite Em. cbn. destruct (done (sh s)); cbn; lia.
  - destruct takes_done.
    + destruct (done (sh s)) eqn:Ed; [|done]. exists l. split; [|split; [|by rewrite Em]].
      * split; cbn; try first [done|lia|by exists rest|by intros []].
      * intros _. unfold left_. rewrite Em. cbn. lia.
    + destruct (mainWake (sh s)) eqn:Ew; [|done]. exists l. split; [|split; [|by rewrite Em]].
      * split; cbn; try first [done|lia|by exists rest|by intros []].
      * intros _. unfold left_. rewrite Em, Ew. cbn. lia.
  - exists l. split; [|split; [|done]].
    + split; cbn; try first [done|lia|by exists rest|by intros []].
    + intros _. unfold left_. rewrite Em. cbn. lia.
  - exists l. split; [|split; [|done]].
    + split; cbn; try done; [by exists rest|lia| |by intros []].
      rewrite drop_0. apply Forall_app. split; [by apply Forall_replicate|done].
    + intros _. unfold left_. rewrite Em. cbn. lia.
  - done.
Qed.

Lemma main_inv_exec s l m : inv s l → keeps s l m (exec s m).
Proof using All.
  destruct m; cbn [exec]; [apply keeps_push|apply keeps_wake|apply keeps_close|apply keeps_main].
Qed.

Lemma main_inv_run s l ms :
  inv s l → match run s ms with
            | Panics => False
            | Blocks => True
            | Goes s' => ∃ l', inv s' l' ∧ (forallb (negb ∘ is_push) ms = true → length ms + left_ s' l' ≤ left_ s l)
            end.
Proof using All.
  revert s l. induction ms as [|m ms IH]; intros s l Hs; cbn; [by exists l|].
  pose proof (main_inv_exec s l m Hs) as Hm. destruct (exec s m) as [| |s1]; [done..|].
  destruct Hm as (l1 & Hs1 & Hl1 & _). specialize (IH s1 l1 Hs1). destruct (run s1 ms) as [| |s2]; [done..|].
  destruct IH as (l2 & Hs2 & Hl2). exists l2. split; [done|]. intros [Hp Hps]%andb_prop.
  specialize (Hl2 Hps). destruct (is_push m); [done|]. specialize (Hl1 eq_refl). lia.
Qed.

Lemma main_reachable_inv s : reachable s → ∃ l, inv s l.
Proof using All.
  induction 1 as [|s m s' _ [l Hl] Hstep]; [eexists; apply main_inv_initial|].
  inversion_clear Hstep as [? ? ? E]. pose proof (main_inv_exec s l m Hl) as Hm. rewrite E in Hm. destruct Hm as (l' & ? & _). by exists l'.
Qed.

(** A main thread that cannot go on is parked with nothing to do, or done. *)
Lemma at_rest_inv s l :
  inv s l → at_rest s → main s = MainOver ∨ main s = WaitParks ∧ done (sh s) = false ∧ started s = pushed s.
Proof using All.
  intros Hs [Hw Hb]. pose proof (keeps_main s l 0 false Hs) as Hk. pose proof (Hb 0 false) as Hb1. pose proof (Hb 0 true) as Hb2.
  destruct Hs as [Hq (rest & Eb & Ej) Hp Hh Hc Hwk Ho]. unfold main_step, wait_step, tick_step in Hb1, Hb2. unfold batch in Eb.
  destruct (main s) as [| | |i n|i n|n|] eqn:Em; try done; try (by left); right.
  - split; [done|]. destruct (done (sh s)) eqn:Ed; [done|]. destruct (mainWake (sh s)) eqn:Ew; [done|]. split; [done|].
    destruct rest; [|done]. destruct l as [|x l]; [by rewrite Ej, app_nil_r|]. by destruct (Hwk (or_intror eq_refl)) as [?|[]].
  - exfalso. destruct (fifo_repr_drain _ _ Hq) as (q & E & _). by rewrite E in Hb1.
  - exfalso. destruct (i <? n); [|done]. by destruct (pinnedBatch (sh s) !! i) as [[]|].
Qed.

(** C20: whatever the interleaving of the main thread's loop with the
    goroutines that push pinned jobs and with Quit's, over any queue that is a
    FIFO: the jobs pushed are those started, then what is left of the batch,
    then the queue, so every job runs once, in the order pushed; nothing
    panics; TickMainThread returns only after finding nothing pending; the
    buffer refers to no kernel outside a batch; once no goroutine is inside
    pushPinned, a main thread that cannot go on either has left its loop with
    Done closed or has run every job, so no wake is lost; and unless more is
    pushed that comes within a bounded number of steps. *)
Theorem pinned_jobs_run s :
  reachable s →
  (∃ rest l, fifo_repr (pinned (sh s)) l ∧ batch s = Some <$> rest ∧ pushed s = started s ++ rest ++ l) ∧
  (∀ m, exec s m ≠ Panics) ∧
  (∀ m s', exec s m = Goes s' → main s = TickDrains → main s' = WaitLooks → started s' = pushed s') ∧
  (held (main s) = 0 → Forall (.= None) (pinnedBatch (sh s))) ∧
  (at_rest s → main s = MainOver ∧ done (sh s) = true ∨
     main s = WaitParks ∧ done (sh s) = false ∧ started s = pushed s) ∧
  ∃ n, ∀ ms s', forallb (negb ∘ is_push) ms = true → run s ms = Goes s' → length ms ≤ n.
Proof using All.
  intros [l Hs]%main_reachable_inv. split_and!.
  - destruct (inv_jobs _ _ Hs) as (rest & ? & ?). exists rest, l. split; [apply Hs|done].
  - intros m E. pose proof (main_inv_exec s l m Hs) as Hm. by rewrite E in Hm.
  - intros m s' E E1 E2. pose proof (main_inv_exec s l m Hs) as Hm. rewrite E in Hm.
    destruct Hm as (l' & Hs' & _ & Hl). rewrite (Hl E1 E2) in Hs'. destruct (inv_jobs _ _ Hs') as (rest & Eb & ->).
    unfold batch in Eb. rewrite E2 in Eb. destruct rest; [|done]. by rewrite app_nil_r.
  - intros E. pose proof (inv_clear _ _ Hs) as Hc. by rewrite E, drop_0 in Hc.
  - intros Hr. destruct (at_rest_inv s l Hs Hr) as [E|]; [left|by right]. split; [done|]. by apply (inv_over _ _ Hs).
  - exists (left_ s l). intros ms s' Hms E. pose proof (main_inv_run s l ms Hs) as Hr. rewrite E in Hr.
    destruct Hr as (l' & _ & Hl). specialize (Hl Hms). lia.
Qed.

Lemma main_run_reachable s ms s' : reachable s → run s ms = Goes s' → reachable s'.
Proof using Type.
  revert s. induction ms as [|m ms IH]; intros s Hs; cbn; [by intros [= <-]|].
  destruct (exec s m) as [| |s1] eqn:E; [done..|]. apply IH. eapply reach_step; [done|by split].
Qed.
End facts.

Module Example.
#[local] Instance zero_pinned : Zero (pinnedJob nat nat) := mkPinnedJob 0 0.

(** Two kernels push; the second push's wake comes while the first job runs,
    and a job pushed from it runs in the same tick. *)
Definition job1 : pinnedJob nat nat := mkPinnedJob 1 10.
Definition job2 : pinnedJob nat nat := mkPinnedJob 2 20.
Definition schedule : list (move nat nat) :=
  [Push job1; Wake; Main 3 false; Main 3 false; Main 3 false; Main 3 false; Push job2; Wake; Main 3 false;
   Main 3 false; Main 3 false; Main 0 false; Main 0 false; Main 0 false; Main 0 false; Main 0 false;
   Main 0 false; Main 0 false; Main 0 false; Main 0 false; Main 0 false].
Definition start : sys nat nat (Queue (pinnedJob nat nat)) := initial.

Lemma pinned_jobs_run_witness :
  ∃ s, run start schedule = Goes s ∧ started s = [job1; job2] ∧ at_rest s ∧ started s = pushed s.
Proof.
  destruct (run start schedule) as [| |s] eqn:E; [by vm_compute in E|by vm_compute in E|].
  assert (Hrest : at_rest s ∧ main s ≠ MainOver).
  { vm_compute in E. injection E as <-. split; [|done]. split; [done|by intros ? []]. }
  destruct (pinned_jobs_run s (main_run_reachable _ _ _ reach_initial E)) as (_ & _ & _ & _ & Hr & _).
  exists s. split; [done|]. split; [vm_compute in E; by injection E as <-|]. split; [apply Hrest|].
  destruct (Hr (proj1 Hrest)) as [[Ho _]|(_ & _ & He)]; [by destruct (proj2 Hrest)|exact He].
Defined.
End Example.
