(* ===== verification/Runner.v ===== *)
(** * The runner of kernel/runner.go

    The workers of a kernel, the publications of kernel/kernel.go and the drain
    that ends them, interleaved one atomic access at a time.  A job is the slot
    it is in and the task it is of.  What a job or a handler does is left open:
    any goroutine may publish at any time, a publication submits any jobs, and a
    submitted job becomes ready at any time.

    makeReady hands a job of a pinned task to the main thread, which runs the
    jobs handed to it one at a time, in the order they were; how it takes them
    and how it is woken is MainThread.v.

    The counters count goroutines and jobs in memory, far fewer than their 32
    and 64 bits: they are integers. *)

From S2P Require Import Prelude.

(** What the goroutines share.  [tokens] is how many the wake channel holds, of
    [workerCount] at most; [drained] whether its channel holds its one.
    [pinnedJobs] is the jobs of this kernel handed to the main thread that it
    has not begun, [blocked] the jobs submitted that no goroutine has made ready,
    each with its task, and [stale] a ghost: some settle that brought the count
    to zero had yet to look at [closed] when it was set. *)
Record runner := mkRunner {
  ready : list N;
  idle : Z;
  tokens : nat;
  stop : bool;
  outstanding : Z;
  closed : bool;
  drained : bool;
  pinnedJobs : list N;
  blocked : list (N * N);
  stale : bool
}.

(** What a settle ends: a publication, or a job that a worker or the main thread
    ran. *)
Inductive ending := OfPublication | OfWorker | OfMain.

(** Where a goroutine is. *)
Inductive pc :=
  | PubAdd                 (* Publish: about to count itself *)
  | PubCheck               (* counted, about to look at closed *)
  | PubOpen                (* its handlers run *)
  | Settle (e : ending)    (* about to lower the count *)
  | SettleCheck (e : ending) (* it brought the count to zero *)
  | MakeReady (slot task : N) (* makeReady, up to its three steps *)
  | LoadIdle
  | SendWake
  | WPop                   (* work: a worker's loop *)
  | WRun (slot : N)
  | WAddIdle
  | WCheck
  | WPark
  | WSubIdle
  | MRun (slot : N)        (* runPinned: the main thread *)
  | DStore                 (* drain *)
  | DLoad
  | DWait
  | DClose
  | DJoin.

(** What a step may choose: which jobs a publication submits, and which ready
    case of a select is taken. *)
Record choice := mkChoice { submits : list (N * N); takes_stop : bool }.

Definition after_settle (e : ending) : list pc := match e with OfWorker => [WPop] | _ => [] end.

Definition is_worker (p : pc) : bool :=
  match p with
  | WPop | WRun _ | WAddIdle | WCheck | WPark | WSubIdle | Settle OfWorker | SettleCheck OfWorker => true
  | _ => false
  end.

Definition is_main (p : pc) : bool :=
  match p with MRun _ | Settle OfMain | SettleCheck OfMain => true | _ => false end.

Section runner.
Context (workerCount : nat) (pinnedToMainThread : N → bool).
Implicit Types (r : runner) (p : pc).

Definition set_ready r l :=
  mkRunner l (idle r) (tokens r) (stop r) (outstanding r) (closed r) (drained r) (pinnedJobs r) (blocked r) (stale r).
Definition set_idle r n :=
  mkRunner (ready r) n (tokens r) (stop r) (outstanding r) (closed r) (drained r) (pinnedJobs r) (blocked r) (stale r).
Definition set_tokens r n :=
  mkRunner (ready r) (idle r) n (stop r) (outstanding r) (closed r) (drained r) (pinnedJobs r) (blocked r) (stale r).
Definition set_stop r :=
  mkRunner (ready r) (idle r) (tokens r) true (outstanding r) (closed r) (drained r) (pinnedJobs r) (blocked r) (stale r).
Definition set_outstanding r n :=
  mkRunner (ready r) (idle r) (tokens r) (stop r) n (closed r) (drained r) (pinnedJobs r) (blocked r) (stale r).
Definition set_closed r st :=
  mkRunner (ready r) (idle r) (tokens r) (stop r) (outstanding r) true (drained r) (pinnedJobs r) (blocked r) st.
Definition set_drained r b :=
  mkRunner (ready r) (idle r) (tokens r) (stop r) (outstanding r) (closed r) b (pinnedJobs r) (blocked r) (stale r).
Definition set_blocked r l :=
  mkRunner (ready r) (idle r) (tokens r) (stop r) (outstanding r) (closed r) (drained r) (pinnedJobs r) l (stale r).
Definition set_pinnedJobs r l :=
  mkRunner (ready r) (idle r) (tokens r) (stop r) (outstanding r) (closed r) (drained r) l (blocked r) (stale r).

Definition is_settle_check p : bool := match p with SettleCheck _ => true | _ => false end.

(** The next step of a goroutine at [p], among [others]: [None] while it
    blocks, else what it leaves shared and where it is next, if anywhere. *)
Definition exec r p (others : list pc) (c : choice) : option (runner * list pc) :=
  match p with
  | PubAdd => Some (set_outstanding r (outstanding r + 1), [PubCheck])
  | PubCheck => Some (r, if closed r then [Settle OfPublication] else [PubOpen])
  | PubOpen =>
      (* submit counts the batch before handing it to the graph *)
      Some (set_blocked (set_outstanding r (outstanding r + Z.of_nat (length (submits c))))
              (blocked r ++ submits c), [Settle OfPublication])
  | Settle e =>
      let n := (outstanding r - 1)%Z in
      Some (set_outstanding r n, if (n =? 0)%Z then [SettleCheck e] else after_settle e)
  | SettleCheck e => Some (if closed r then set_drained r true else r, after_settle e)
  | MakeReady slot task =>
      if pinnedToMainThread task then Some (set_pinnedJobs r (pinnedJobs r ++ [slot]), [])
      else Some (set_ready r (ready r ++ [slot]), [LoadIdle])
  | LoadIdle => Some (r, if (0 <? idle r)%Z then [SendWake] else [])
  | SendWake => Some (if tokens r <? workerCount then set_tokens r (tokens r + 1) else r, [])
  | WPop =>
      match ready r with
      | [] => Some (r, [WAddIdle])
      | slot :: l => Some (set_ready r l, [WRun slot])
      end
  | WRun _ => Some (r, [Settle OfWorker])
  | WAddIdle => Some (set_idle r (idle r + 1), [WCheck])
  | WCheck => Some (r, match ready r with [] => [WPark] | _ => [WSubIdle] end)
  | WPark =>
      if takes_stop c then (if stop r then Some (r, []) else None)
      else match tokens r with
           | O => None
           | S n => Some (set_tokens r n, [WSubIdle])
           end
  | WSubIdle => Some (set_idle r (idle r - 1), [WPop])
  | MRun _ => Some (r, [Settle OfMain])
  | DStore => Some (set_closed r (existsb is_settle_check others), [DLoad])
  | DLoad => Some (r, if (outstanding r =? 0)%Z then [DClose] else [DWait])
  | DWait => if drained r then Some (set_drained r false, [DClose]) else None
  | DClose => Some (set_stop r, [DJoin])
  | DJoin => if existsb is_worker others then None else Some (r, [])
  end.

(** ** The system *)

Record sys := mkSys { sh : runner; threads : list pc }.

Definition initial : sys :=
  mkSys (mkRunner [] 0 0 false 0 false false [] [] false) (replicate workerCount WPop).

Definition is_drain p : bool :=
  match p with DStore | DLoad | DWait | DClose | DJoin => true | _ => false end.

Inductive step : sys → sys → Prop :=
  | step_exec s p rest c r' next :
      threads s ≡ₚ p :: rest → exec (sh s) p rest c = Some (r', next) →
      step s (mkSys r' (next ++ rest))
  | step_publish s : step s (mkSys (sh s) (PubAdd :: threads s))
  | step_make_ready s slot task b1 b2 :
      blocked (sh s) = b1 ++ (slot, task) :: b2 →
      step s (mkSys (set_blocked (sh s) (b1 ++ b2)) (MakeReady slot task :: threads s))
  | step_run_pinned s slot l :
      pinnedJobs (sh s) = slot :: l → existsb is_main (threads s) = false →
      step s (mkSys (set_pinnedJobs (sh s) l) (MRun slot :: threads s))
  | step_drain s :
      closed (sh s) = false → existsb is_drain (threads s) = false →
      step s (mkSys (sh s) (DStore :: threads s)).

Inductive reachable : sys → Prop :=
  | reach_initial : reachable initial
  | reach_step s s' : reachable s → step s s' → reachable s'.

(** ** Counting *)

Definition count_if (f : pc → bool) (ts : list pc) : nat := length (filter (λ p, f p = true) ts).

Lemma count_if_cons f p ts : count_if f (p :: ts) = (if f p then 1 else 0) + count_if f ts.
Proof. unfold count_if. rewrite filter_cons. by destruct (f p). Qed.

Lemma count_if_app f l1 l2 : count_if f (l1 ++ l2) = count_if f l1 + count_if f l2.
Proof. unfold count_if. by rewrite filter_app, length_app. Qed.

Lemma count_if_perm f l1 l2 : l1 ≡ₚ l2 → count_if f l1 = count_if f l2.
Proof. unfold count_if. by intros ->. Qed.

Lemma count_if_pos f ts : 0 < count_if f ts ↔ ∃ p, p ∈ ts ∧ f p = true.
Proof.
  unfold count_if. split.
  - destruct (filter _ ts) as [|p l] eqn:E; [simpl; lia|]. intros _. exists p.
    assert (p ∈ filter (λ p, f p = true) ts) as [? ?]%list_elem_of_filter by (rewrite E; by left). done.
  - intros (p & Hp & Hf). destruct (filter _ ts) as [|q l] eqn:E; [|simpl; lia].
    assert (p ∈ filter (λ p, f p = true) ts) as Hin by by apply list_elem_of_filter.
    rewrite E in Hin. by apply not_elem_of_nil in Hin.
Qed.

Lemma count_if_existsb f ts : existsb f ts = false ↔ count_if f ts = 0.
Proof.
  induction ts as [|p ts IH]; [done|]. rewrite count_if_cons. simpl. rewrite orb_false_iff, IH.
  destruct (f p); simpl; [split; [by intros []|done]|]. split; [by intros []|done].
Qed.

(** Goroutines counted in [idle], those counted as outstanding, and those that
    hold a job. *)
Definition idles p : bool := match p with WCheck | WPark | WSubIdle => true | _ => false end.
Definition counts p : bool :=
  match p with PubCheck | PubOpen | Settle _ | MakeReady _ _ | WRun _ | MRun _ => true | _ => false end.
Definition is_open p : bool := match p with PubOpen => true | _ => false end.
Definition has_job p : bool := match p with MakeReady _ _ | WRun _ | MRun _ => true | _ => false end.
Definition is_passed p : bool := match p with DClose | DJoin => true | _ => false end.

Definition is_closing p : bool := match p with DLoad | DWait => true | _ => false end.

Definition is_store p : bool := match p with DStore => true | _ => false end.

(** Goroutines that will still look at the ready queue, or put a token in
    [wake]. *)
Definition looks p : bool :=
  match p with
  | LoadIdle | SendWake => true
  | WPark => false
  | _ => is_worker p
  end.

(** Nothing the kernel took is unfinished: no publication let through runs, no
    job runs on a worker or on the main thread, and none is left for them. *)
Definition finished (s : sys) : Prop :=
  count_if is_open (threads s) = 0 ∧ count_if has_job (threads s) = 0 ∧
  ready (sh s) = [] ∧ pinnedJobs (sh s) = [] ∧ blocked (sh s) = [].

Record inv (s : sys) : Prop := {
  inv_workers : stop (sh s) = false → count_if is_worker (threads s) = workerCount;
  inv_idle : stop (sh s) = false → idle (sh s) = Z.of_nat (count_if idles (threads s));
  inv_outstanding : outstanding (sh s) =
    Z.of_nat (count_if counts (threads s) + length (ready (sh s)) + length (pinnedJobs (sh s)) +
      length (blocked (sh s)));
  inv_wake : stop (sh s) = false → ready (sh s) ≠ [] →
    0 < count_if looks (threads s) ∨ 0 < tokens (sh s);
  inv_drain : count_if is_drain (threads s) ≤ 1;
  inv_store : 0 < count_if is_store (threads s) → closed (sh s) = false;
  inv_open : closed (sh s) = false →
    drained (sh s) = false ∧ stop (sh s) = false ∧ count_if is_passed (threads s) = 0 ∧
    count_if is_closing (threads s) = 0;
  inv_finished : closed (sh s) = true → stale (sh s) = false →
    drained (sh s) = true ∨ stop (sh s) = true ∨ 0 < count_if is_settle_check (threads s) ∨
      0 < count_if is_passed (threads s) →
    finished s
}.

Lemma count_if_mono f g ts : (∀ p, f p = true → g p = true) → count_if f ts ≤ count_if g ts.
Proof using Type.
  intros Hfg. induction ts as [|p ts IH]; [done|]. rewrite !count_if_cons. specialize (Hfg p).
  destruct (f p); [rewrite Hfg by done; lia|destruct (g p); lia].
Qed.

Lemma count_if_nil f : count_if f [] = 0.
Proof using Type. done. Qed.

Lemma runner_inv_perm r t1 t2 : t1 ≡ₚ t2 → inv (mkSys r t1) → inv (mkSys r t2).
Proof using Type.
  intros Hp [H1 H2 H3 H4 H5 H5' H6 H7]. unfold finished in *. simpl in *.
  split; unfold finished; simpl; by rewrite <- ?(count_if_perm _ t1 t2 Hp).
Qed.

(** A worker there is either looks at the ready queue or is parked. *)
Lemma parked_or_looks ts : count_if is_worker ts ≤ count_if looks ts + count_if idles ts.
Proof using Type.
  induction ts as [|p ts IH]; [done|]. rewrite !count_if_cons. destruct p as [| | |[]|[]| | | | | | | | | | | | | | |]; simpl; lia.
Qed.

Lemma drain_parts ts : count_if is_passed ts + count_if is_closing ts + count_if is_store ts ≤ count_if is_drain ts.
Proof using Type.
  induction ts as [|p ts IH]; [done|]. rewrite !count_if_cons. destruct p; simpl; lia.
Qed.

(** Everything counted is finished once the count is zero. *)
Lemma nothing_outstanding ts (l1 l2 : list N) (l3 : list (N * N)) :
  count_if counts ts + length l1 + length l2 + length l3 = 0 →
  count_if is_open ts = 0 ∧ count_if has_job ts = 0 ∧ l1 = [] ∧ l2 = [] ∧ l3 = [].
Proof using Type.
  intros H. assert (count_if is_open ts ≤ count_if counts ts) by (apply count_if_mono; by intros []).
  assert (count_if has_job ts ≤ count_if counts ts) by (apply count_if_mono; by intros []).
  split_and!; [lia|lia|apply nil_length_inv; lia..].
Qed.

#[local] Opaque count_if.
Hypothesis workers_positive : 0 < workerCount.

Ltac count := rewrite ?count_if_app, ?count_if_cons, ?count_if_nil, ?length_app in *; simpl in *.

Ltac use_premises := repeat match goal with H : ?P → _, H' : ?P |- _ => specialize (H H') end.

(** The invariant after a step, from the one before and lemma [fin] for what is
    finished. *)
Ltac solve_inv_with fin :=
  split; unfold finished in *; simpl in *; count;
  [intros; use_premises; try congruence; try lia
  |intros; use_premises; try congruence; try lia
  |try lia
  |intros; try congruence; try tauto; auto with lia
  |try lia
  |intros; try congruence; try (auto with lia)
  |intros; try congruence; use_premises; try split_and!; try lia; try tauto
  |let Hc := fresh in let Hs := fresh in let Hd := fresh in intros Hc Hs Hd;
   (congruence || (destruct fin as (? & ? & ? & ? & ?); [try done; try lia; intuition lia..|
     split_and!; try lia; try done; congruence]))].

Lemma inv_exec r p rest c r' next :
  inv (mkSys r (p :: rest)) → exec r p rest c = Some (r', next) → inv (mkSys r' (next ++ rest)).
Proof using workers_positive.
  intros [H1 H2 H3 H4 H5 H5' H6 H7] He. simpl in *.
  destruct p as [| | |w|w|slot task| | | |slot| | | | |slot| | | | |]; simpl in He.
  - injection He as <- <-. solve_inv_with H7.
  - case_eq (closed r); intros Ec; rewrite Ec in He; injection He as <- <-; solve_inv_with H7.
  - injection He as <- <-. solve_inv_with H7.
  - injection He as <- <-. destruct (Z.eqb_spec (outstanding r - 1) 0) as [E|E].
    + pose proof (nothing_outstanding rest (ready r) (pinnedJobs r) (blocked r)) as Hn. destruct w; solve_inv_with Hn.
    + destruct w; solve_inv_with H7.
  - case_eq (closed r); intros Ec; rewrite Ec in He; injection He as <- <-; destruct w; solve_inv_with H7.
  - destruct (pinnedToMainThread task); injection He as <- <-; solve_inv_with H7.
  - pose proof (parked_or_looks rest) as Hpl.
    destruct (Z.ltb_spec 0 (idle r)); injection He as <- <-; solve_inv_with H7.
    left. rewrite H1, H2 in * by done. lia.
  - destruct (Nat.ltb_spec (tokens r) workerCount); injection He as <- <-; solve_inv_with H7.
  - case_eq (ready r); [intros El|intros slot l El]; rewrite El in He; injection He as <- <-;
      pose proof (f_equal length El) as Ell; simpl in Ell; solve_inv_with H7.
  - injection He as <- <-. solve_inv_with H7.
  - injection He as <- <-. solve_inv_with H7.
  - case_eq (ready r); [intros El|intros slot l El]; rewrite El in He; injection He as <- <-;
      pose proof (f_equal length El) as Ell; simpl in Ell; solve_inv_with H7.
  - destruct (takes_stop c).
    + case_eq (stop r); intros Es; rewrite Es in He; [|done]. injection He as <- <-. solve_inv_with H7.
    + case_eq (tokens r); [|intros n]; intros Et; rewrite Et in He; [done|]. injection He as <- <-. solve_inv_with H7.
  - injection He as <- <-. solve_inv_with H7.
  - injection He as <- <-. solve_inv_with H7.
  - injection He as <- <-. pose proof (drain_parts rest) as Hdp. count.
    specialize (H5' ltac:(lia)). destruct (H6 H5') as (Hd & Hst & Hpass & Hclosing).
    assert (Hfin : existsb is_settle_check rest = false →
      drained r = true ∨ stop r = true ∨ 0 < count_if is_settle_check rest ∨ 0 < count_if is_passed rest →
      finished (mkSys r rest)).
    { intros Hno%count_if_existsb [?|[?|[?|?]]]; congruence || lia. }
    solve_inv_with Hfin.
  - pose proof (nothing_outstanding rest (ready r) (pinnedJobs r) (blocked r)) as Hn.
    destruct (Z.eqb_spec (outstanding r) 0); injection He as <- <-; [solve_inv_with Hn|solve_inv_with H7].
  - case_eq (drained r); intros Ed; rewrite Ed in He; [|done]. injection He as <- <-. solve_inv_with H7.
  - injection He as <- <-. solve_inv_with H7.
  - destruct (existsb is_worker rest) eqn:Ew; [done|]. injection He as <- <-. solve_inv_with H7.
Qed.

Lemma runner_inv_initial : inv initial.
Proof using workers_positive.
  assert (Hc : ∀ f n, f WPop = false → count_if f (replicate n WPop) = 0).
  { intros f n Hf. induction n as [|n IH]; [done|]. simpl. by rewrite count_if_cons, Hf, IH. }
  split; simpl; try done; try (by rewrite !Hc).
  - intros _. clear. induction workerCount as [|n IH]; [done|]. simpl. by rewrite count_if_cons, IH.
  - rewrite Hc by done. lia.
Qed.

Lemma runner_inv_step s s' : inv s → step s s' → inv s'.
Proof using workers_positive.
  intros Hinv Hstep. destruct Hstep as [s p rest c r' next Hp He|s|s slot task b1 b2 Hb|s slot l Hl Hm|s Hc Hd]; destruct s as [r ts]; simpl in *.
  - eapply inv_exec, He. by eapply runner_inv_perm.
  - destruct Hinv as [H1 H2 H3 H4 H5 H5' H6 H7]. simpl in *. solve_inv_with H7.
  - destruct Hinv as [H1 H2 H3 H4 H5 H5' H6 H7]. simpl in *.
    pose proof (f_equal length Hb) as Hl. rewrite length_app in Hl. simpl in Hl.
    assert (Hfin : closed r = true → stale r = false →
      drained r = true ∨ stop r = true ∨ 0 < count_if is_settle_check ts ∨ 0 < count_if is_passed ts →
      count_if is_open ts = 0 ∧ S (count_if has_job ts) = 0 ∧ ready r = [] ∧ pinnedJobs r = [] ∧ b1 ++ b2 = []).
    { intros Hc Hs Hd. destruct (H7 Hc Hs Hd) as (_ & _ & _ & _ & Eb). simpl in *. rewrite Hb in Eb. by destruct b1. }
    solve_inv_with Hfin.
  - destruct Hinv as [H1 H2 H3 H4 H5 H5' H6 H7]. simpl in *.
    pose proof (f_equal length Hl) as Hlen. simpl in Hlen.
    assert (Hfin : closed r = true → stale r = false →
      drained r = true ∨ stop r = true ∨ 0 < count_if is_settle_check ts ∨ 0 < count_if is_passed ts →
      count_if is_open ts = 0 ∧ S (count_if has_job ts) = 0 ∧ ready r = [] ∧ l = [] ∧ blocked r = []).
    { intros Hc Hs Hd. destruct (H7 Hc Hs Hd) as (_ & _ & _ & Ep & _). simpl in *. congruence. }
    solve_inv_with Hfin.
  - destruct Hinv as [H1 H2 H3 H4 H5 H5' H6 H7]. simpl in *. apply count_if_existsb in Hd. solve_inv_with H7.
Qed.

Lemma runner_reachable_inv s : reachable s → inv s.
Proof using workers_positive. induction 1; [apply runner_inv_initial|by eapply runner_inv_step]. Qed.


(** C15: no wake-up is lost.  While the workers have not been told to end, a job
    in the ready queue always has a goroutine that can go on now and will look
    at the queue again: a worker that is not parked, one parked with a token to
    take, or a makeReady about to send one. *)
Theorem runner_loses_no_wake s :
  reachable s → stop (sh s) = false → ready (sh s) ≠ [] →
  ∃ p rest c, threads s ≡ₚ p :: rest ∧ (looks p = true ∨ p = WPark ∧ 0 < tokens (sh s)) ∧
    is_Some (exec (sh s) p rest c).
Proof using workers_positive.
  intros [Hw Hi _ Hwake _ _ _ _]%runner_reachable_inv Hst Hr. specialize (Hw Hst).
  assert (Hpick : ∀ f, 0 < count_if f (threads s) → ∃ p rest, threads s ≡ₚ p :: rest ∧ f p = true).
  { intros f (p & Hp & Hf)%count_if_pos. apply list_elem_of_split in Hp as (l1 & l2 & ->).
    exists p, (l1 ++ l2). split; [solve_Permutation|done]. }
  assert (Hlooks : 0 < count_if looks (threads s) → ∃ p rest c, threads s ≡ₚ p :: rest ∧
    (looks p = true ∨ p = WPark ∧ 0 < tokens (sh s)) ∧ is_Some (exec (sh s) p rest c)).
  { intros (p & rest & Hp & Hl)%Hpick. exists p, rest, (mkChoice [] false). split_and!; [done|by left|].
    destruct p as [| | |[]|[]|slot task| | | |slot| | | | |slot| | | | |]; simpl in *; try done.
    by destruct (ready (sh s)). }
  destruct (Hwake Hst Hr) as [?|Htok]; [by apply Hlooks|].
  destruct (Hpick is_worker) as (p & rest & Hp & Hpw); [lia|].
  destruct (decide (0 < count_if looks (threads s))); [by apply Hlooks|].
  assert (p = WPark) as ->.
  { destruct p as [| | |[]|[]|slot task| | | |slot| | | | |slot| | | | |]; try done;
      exfalso; rewrite (count_if_perm _ _ _ Hp), count_if_cons in *; simpl in *; lia. }
  exists WPark, rest, (mkChoice [] false). split_and!; [done|by right|]. simpl.
  destruct (tokens (sh s)); [lia|done].
Qed.

(** C14: once drain has told the workers to end, nothing the kernel took is
    unfinished: no publication let through, no job of a worker and no pinned job,
    whether waiting, queued or running, provided no settle that had brought the
    count to zero was still to look at [closed] when drain set it. *)
Theorem drain_complete s :
  reachable s → stale (sh s) = false → stop (sh s) = true → finished s.
Proof using workers_positive.
  intros [_ _ _ _ _ _ Hopen Hfin]%runner_reachable_inv Hst Hstop. apply Hfin; [|done|by right; left].
  apply not_false_iff_true. intros Hc. destruct (Hopen Hc) as (_ & ? & _). congruence.
Qed.
End runner.

(** ** Schedules *)

Inductive move :=
  | Go (k : nat) (c : choice)
  | Publishes
  | MakesReady (k : nat)
  | RunsPinned
  | Drains.

Definition make_move (workerCount : nat) (pinnedToMainThread : N → bool) (s : sys) (m : move) : option sys :=
  match m with
  | Go k c =>
      p ← threads s !! k;
      '(r', next) ← exec workerCount pinnedToMainThread (sh s) p (delete k (threads s)) c;
      Some (mkSys r' (next ++ delete k (threads s)))
  | Publishes => Some (mkSys (sh s) (PubAdd :: threads s))
  | MakesReady k =>
      '(slot, task) ← blocked (sh s) !! k;
      Some (mkSys (set_blocked (sh s) (delete k (blocked (sh s)))) (MakeReady slot task :: threads s))
  | RunsPinned =>
      match pinnedJobs (sh s) with
      | slot :: l =>
          if existsb is_main (threads s) then None
          else Some (mkSys (set_pinnedJobs (sh s) l) (MRun slot :: threads s))
      | [] => None
      end
  | Drains =>
      if closed (sh s) || existsb is_drain (threads s) then None
      else Some (mkSys (sh s) (DStore :: threads s))
  end.

Lemma runner_make_move_step n pt s m s' : make_move n pt s m = Some s' → step n pt s s'.
Proof.
  destruct m as [k c| |k| |]; simpl.
  - destruct (threads s !! k) as [p|] eqn:Hk; [|done]. simpl.
    destruct (exec n pt (sh s) p (delete k (threads s)) c) as [[r' next]|] eqn:He; [|done]. intros [= <-].
    eapply step_exec; [|done]. by apply delete_Permutation.
  - intros [= <-]. apply step_publish.
  - destruct (blocked (sh s) !! k) as [[slot task]|] eqn:Hk; [|done]. intros [= <-].
    rewrite delete_take_drop. eapply step_make_ready. symmetry. by apply take_drop_middle.
  - destruct (pinnedJobs (sh s)) as [|slot l] eqn:Hl; [done|].
    destruct (existsb is_main (threads s)) eqn:Hm; [done|]. intros [= <-]. by apply step_run_pinned.
  - destruct (closed (sh s)) eqn:Hc; [done|]. destruct (existsb is_drain (threads s)) eqn:Hd; [done|].
    intros [= <-]. by apply step_drain.
Qed.

Lemma runner_run_moves_reachable n pt s ms s' :
  reachable n pt s → run_moves (make_move n pt) s ms = Some s' → reachable n pt s'.
Proof. apply run_moves_invariant. intros s1 m s2 Hs Hm%runner_make_move_step. by eapply reach_step. Qed.

Definition go (k : nat) : move := Go k (mkChoice [] false).

(** A kernel of one worker, whose task 1 is pinned to the main thread. *)
Definition pins_1 (task : N) : bool := (task =? 1)%N.

(** A publication submits job 1 of task 0, and the worker runs it. *)
Definition one_job : list move :=
  [Publishes; go 0; go 0; Go 0 (mkChoice [(1, 0)%N] false); go 0; MakesReady 0; go 0; go 0; go 0; go 0].

Lemma runner_loses_no_wake_witness :
  ∃ s, run_moves (make_move 1 pins_1) (initial 1) (take 7 one_job) = Some s ∧ ready (sh s) = [1%N] ∧
    ∃ p rest c, threads s ≡ₚ p :: rest ∧ (looks p = true ∨ p = WPark ∧ 0 < tokens (sh s)) ∧
      is_Some (exec 1 pins_1 (sh s) p rest c).
Proof.
  destruct (run_moves (make_move 1 pins_1) (initial 1) (take 7 one_job)) as [s|] eqn:E; [|vm_compute in E; discriminate].
  exists s. split; [done|]. split; [vm_compute in E; by injection E as <-|].
  apply (runner_loses_no_wake 1 pins_1 ltac:(lia) s (runner_run_moves_reachable _ _ _ _ _ (reach_initial 1 pins_1) E));
    vm_compute in E; by injection E as <-.
Defined.

(** A publication submits job 1 of task 0 and job 2 of task 1; the worker runs
    the one and, once drain waits, the main thread runs the other. *)
Definition drained_well : list move :=
  [Publishes; go 0; go 0; Go 0 (mkChoice [(1, 0); (2, 1)]%N false); go 0;
   MakesReady 0; go 0; go 0; MakesReady 0; go 0; go 0; go 0; go 0;
   Drains; go 0; go 0; RunsPinned; go 0; go 0; go 0; go 0; go 0].

Lemma drain_complete_witness :
  ∃ s, run_moves (make_move 1 pins_1) (initial 1) drained_well = Some s ∧ stop (sh s) = true ∧ finished s.
Proof.
  destruct (run_moves (make_move 1 pins_1) (initial 1) drained_well) as [s|] eqn:E; [|vm_compute in E; discriminate].
  exists s. split; [done|]. split; [vm_compute in E; by injection E as <-|].
  apply (drain_complete 1 pins_1 ltac:(lia) s (runner_run_moves_reachable _ _ _ _ _ (reach_initial 1 pins_1) E));
    vm_compute in E; by injection E as <-.
Defined.

(** The worker settles job 1 and brings the count to zero; before it looks at
    [closed], a publication is let through and drain begins. *)
Definition drained_early : list move :=
  one_job ++ [go 0; Publishes; go 0; go 0; Drains; go 0; go 0] ++
  [go 2; go 1; go 0; go 1; go 0; go 0; Go 0 (mkChoice [] true); go 0].

(** C13: drain can return while a publication the kernel let through still
    runs: the token it waits for may come from a settle that brought the count
    to zero before that publication was counted, and looked at [closed] after
    drain set it.  A job the publication then submits is never run. *)
Theorem drain_returns_early :
  ∃ s s', run_moves (make_move 1 pins_1) (initial 1) drained_early = Some s ∧ reachable 1 pins_1 s ∧
    stop (sh s) = true ∧ threads s = [PubOpen] ∧
    run_moves (make_move 1 pins_1) s [Go 0 (mkChoice [(2, 0)%N] false); go 0; MakesReady 0; go 0] = Some s' ∧
    ready (sh s') = [2%N] ∧ existsb is_worker (threads s') = false.
Proof.
  destruct (run_moves (make_move 1 pins_1) (initial 1) drained_early) as [s|] eqn:E; [|vm_compute in E; discriminate].
  destruct (run_moves (make_move 1 pins_1) s [Go 0 (mkChoice [(2, 0)%N] false); go 0; MakesReady 0; go 0]) as [s'|] eqn:E';
    [|vm_compute in E; injection E as <-; vm_compute in E'; discriminate].
  exists s, s'. split; [done|]. split; [by eapply runner_run_moves_reachable, E; apply reach_initial|].
  vm_compute in E. injection E as <-. vm_compute in E'. injection E' as <-. done.
Qed.
