(* ===== verification/JobGraph.v ===== *)
(** * The job graph of kernel/job.go and the batches of kernel/executor.go

    Every job not yet finished, the dependencies and feedings between them,
    and the signals armed for them: slots of three pools, linked by atomic
    words and no lock.  [exec] is the next step of one goroutine: one access
    to what goroutines share, with the accesses to memory only it holds that
    go with it.  [step] interleaves any number of goroutines that publish,
    finish jobs and arm signals; when a job that was handed over runs, and
    what it answers, is up to the rest of the kernel.

    [trace] is no part of the code: it records what happened, newest first,
    for the theorems to speak of. *)

From S2P Require Import Prelude Pool.

Record JobHandle := mkHandle { hslot : N; hgeneration : N }.

#[export] Instance JobHandle_eq_dec : EqDecision JobHandle.
Proof. solve_decision. Defined.

Definition zeroHandle : JobHandle := mkHandle NoSlot 0.

(** [successors] and [signals] are list words: a generation and a head. *)
Record job := mkJob {
  successors : N;
  signals : N;
  waiting : Z;
  task : N;
  arg : N
}.

#[export] Instance zero_job : Zero job := mkJob 0 0 0 0 0.

Definition closedList : N := (2 ^ 32 - 1)%N.

Definition packList (generation head : N) : N :=
  N.lor (u64 (N.shiftl generation 32)) head.

Definition unpackList (word : N) : N * N := (u32 (N.shiftr word 32), u32 word).

Record successorEdge := mkSuccessorEdge {
  next : N;
  successor : N;
  feedsResult : bool
}.

#[export] Instance zero_successorEdge : Zero successorEdge := mkSuccessorEdge 0 0 false.

(** A Signal is a name; a nil one is [None]. *)
Record signalEdge := mkSignalEdge {
  snext : N;
  signal : option N
}.

#[export] Instance zero_signalEdge : Zero signalEdge := mkSignalEdge 0 None.

(** What acquireJob is called with. *)
Record call := mkCall {
  ctask : N;
  carg : N;
  cfrom : JobHandle;
  cdeps : list JobHandle
}.

(** A call, and, no part of the code, the arg the handler that scheduled the job
    gave it, or asked it to have until the job it is scheduled after answers. *)
Record asked (V : Type) := Ask { asks :> call; given : option V }.
Arguments Ask {V} _ _.
Arguments asks {V} _.
Arguments given {V} _.

(** The jobs a new one waits for, in the order acquireJob adds it to their
    lists, each with whether its result is fed. *)
Definition dependencies (c : call) : list (JobHandle * bool) :=
  ((λ d, (d, false)) <$> cdeps c) ++ [(cfrom c, true)].

Section graph.
Context {PJ PE PG V : Type}.
Context `{!SlotPool PJ job, !SlotPool PE successorEdge, !SlotPool PG signalEdge}.

Record jobGraph := mkGraph {
  jobs : PJ;
  successorEdges : PE;
  signalEdges : PG
}.

Inductive event :=
  | Scheduled (h : JobHandle) (c : call) (a : option V) (* acquireJob holds the job; the arg it was asked with *)
  | Answered (h : JobHandle)                 (* acquireJob answers the handle *)
  | Submitted (h : JobHandle)                (* its batch's submit reached it *)
  | Arrived (h : JobHandle)                  (* handed to the lock combiner *)
  | Ran (h : JobHandle) (a : option V)       (* runs with its arg *)
  | Finished (h : JobHandle) (result : V)    (* takes no successor any more *)
  | Armed (h : JobHandle) (sig : N)          (* Kernel.Notify is called *)
  | Sent (h : JobHandle) (sig : N).          (* a Signal is sent for h *)

(** What goroutines share: the graph, the arg of every job not yet run, by its
    task and its index in the task's pool, and the slots of the jobs handed to
    the combiner and not yet run. *)
Record shared := mkShared {
  graph : jobGraph;
  args : gmap (N * N) V;
  running : list N;
  trace : list event
}.

Implicit Types (g : jobGraph) (sh : shared).

Definition with_graph sh g : shared := mkShared g (args sh) (running sh) (trace sh).
Definition with_jobs sh (p : PJ) : shared :=
  with_graph sh (mkGraph p (successorEdges (graph sh)) (signalEdges (graph sh))).
Definition with_edges sh (p : PE) : shared :=
  with_graph sh (mkGraph (jobs (graph sh)) p (signalEdges (graph sh))).
Definition with_signals sh (p : PG) : shared :=
  with_graph sh (mkGraph (jobs (graph sh)) (successorEdges (graph sh)) p).
Definition log sh (e : event) : shared := mkShared (graph sh) (args sh) (running sh) (e :: trace sh).

Definition job_at sh (slot : N) : option job := slots_at (jobs (graph sh)) slot.

Definition set_job sh (slot : N) (j : job) : option shared :=
  p ← slots_set (jobs (graph sh)) slot j; Some (with_jobs sh p).

Definition set_successors (j : job) (w : N) : job := mkJob w (signals j) (waiting j) (task j) (arg j).
Definition set_signals (j : job) (w : N) : job := mkJob (successors j) w (waiting j) (task j) (arg j).
Definition set_waiting (j : job) (n : Z) : job := mkJob (successors j) (signals j) n (task j) (arg j).
Definition set_task (j : job) (t a : N) : job := mkJob (successors j) (signals j) (waiting j) t a.

(** [handle] answers the handle of the job in a slot. *)
Definition handle sh (slot : N) : option JobHandle :=
  j ← job_at sh slot; Some (mkHandle slot (unpackList (successors j)).1).

(** [waiting.Add(n)] on the job in a slot, answering the new count. *)
Definition add_waiting sh (slot : N) (n : Z) : option (shared * Z) :=
  j ← job_at sh slot;
  let count := i32 (waiting j + n) in
  sh' ← set_job sh slot (set_waiting j count);
  Some (sh', count).

(** The two reads of a list word that [link] makes: whether it refuses, and
    what its compare-and-swap leaves. *)
Definition link_refuses (word generation : N) : bool :=
  let '(current, head) := unpackList word in
  negb (current =? generation)%N || (head =? closedList)%N.

(** The job handed to the lock combiner. *)
Definition arrive sh (slot : N) : option shared :=
  h ← handle sh slot;
  Some (mkShared (graph sh) (args sh) (running sh ++ [slot]) (Arrived h :: trace sh)).

(** ** Goroutines *)

(** Inside acquireJob and addSuccessor, for the job being scheduled. *)
Inductive acquiring :=
  | NewSlot (c : asked V)
  | LoadGeneration (c : asked V) (slot : N)
  | OpenSuccessors (c : asked V) (slot generation : N)
  | OpenSignals (c : asked V) (slot generation : N)
  | StoreHold (c : asked V) (slot generation : N)
  | AddSuccessor (slot : N) (todo : list (JobHandle * bool))
  | TakeEdge (slot : N) (dep : JobHandle) (feeds : bool) (todo : list (JobHandle * bool))
  | LinkLoad (slot : N) (dep : JobHandle) (feeds : bool) (edge : N) (todo : list (JobHandle * bool))
  | LinkSwap (slot : N) (dep : JobHandle) (feeds : bool) (edge old : N) (todo : list (JobHandle * bool))
  | DropEdge (slot : N) (dep : JobHandle) (edge : N) (todo : list (JobHandle * bool))
  | LowerWaiting (slot : N) (dep : JobHandle) (todo : list (JobHandle * bool)).

(** Inside finishJob. *)
Inductive finishing :=
  | FinishLoad
  | CloseSuccessors (generation : N)
  | CloseSignals (generation heads : N)
  | SendSignals (generation sigs heads : N)
  | DropSignal (generation edge following heads : N)
  | WalkSuccessors (generation heads : N)
  | LowerSuccessor (generation edge successor : N)
  | ArriveSuccessor (generation edge successor : N)
  | DropSuccessor (generation edge : N)
  | AdvanceSuccessors (generation : N)
  | AdvanceSignals (generation : N)
  | ReleaseSlot.

(** Inside armSignal, and Kernel.Notify after it. *)
Inductive arming :=
  | TakeSignalEdge
  | ArmLoad (edge : N)
  | ArmSwap (edge old : N)
  | DropArmed (edge : N)
  | SendNow.

(** A goroutine: publishing, its handlers running; scheduling a job;
    submitting a batch; finishing a job; arming a signal. *)
Inductive thread :=
  | Handling (batch : list N)
  | Acquiring (batch : list N) (p : acquiring)
  | Submitting (batch : list N)
  | SubmitArrive (slot : N) (batch : list N)
  | Finishing (slot : N) (result : V) (p : finishing)
  | Notifying (h : JobHandle) (sig : N) (p : arming).

(** acquireJob, addSuccessor and its link inlined, and the append to the
    batch of Executor.add. *)
Definition exec_acquiring sh (batch : list N) (p : acquiring) : option (shared * thread) :=
  match p with
  | NewSlot c =>
      let '(pj, slot) := slots_acquire (jobs (graph sh)) in
      Some (with_jobs sh pj, Acquiring batch (LoadGeneration c slot))
  | LoadGeneration c slot =>
      j ← job_at sh slot;
      sh' ← set_job sh slot (set_task j (ctask c) (carg c));
      Some (sh', Acquiring batch (OpenSuccessors c slot (unpackList (successors j)).1))
  | OpenSuccessors c slot generation =>
      j ← job_at sh slot;
      sh' ← set_job sh slot (set_successors j (packList generation NoSlot));
      Some (sh', Acquiring batch (OpenSignals c slot generation))
  | OpenSignals c slot generation =>
      j ← job_at sh slot;
      sh' ← set_job sh slot (set_signals j (packList generation NoSlot));
      Some (sh', Acquiring batch (StoreHold c slot generation))
  | StoreHold c slot generation =>
      j ← job_at sh slot;
      sh' ← set_job sh slot (set_waiting j 1);
      Some (log sh' (Scheduled (mkHandle slot generation) c (given c)),
            Acquiring batch (AddSuccessor slot (dependencies c)))
  | AddSuccessor slot [] =>
      h ← handle sh slot;
      Some (log sh (Answered h), Handling (batch ++ [slot]))
  | AddSuccessor slot ((dep, feeds) :: todo) =>
      if decide (hslot dep = NoSlot) then Some (sh, Acquiring batch (AddSuccessor slot todo))
      else
        '(sh', _) ← add_waiting sh slot 1;
        Some (sh', Acquiring batch (TakeEdge slot dep feeds todo))
  | TakeEdge slot dep feeds todo =>
      let '(pe, edge) := slots_acquire (successorEdges (graph sh)) in
      pe' ← slots_set pe edge (mkSuccessorEdge NoSlot slot feeds);
      Some (with_edges sh pe', Acquiring batch (LinkLoad slot dep feeds edge todo))
  | LinkLoad slot dep feeds edge todo =>
      j ← job_at sh (hslot dep);
      if link_refuses (successors j) (hgeneration dep) then
        Some (sh, Acquiring batch (DropEdge slot dep edge todo))
      else
        e ← slots_at (successorEdges (graph sh)) edge;
        pe ← slots_set (successorEdges (graph sh)) edge
               (mkSuccessorEdge (unpackList (successors j)).2 (successor e) (feedsResult e));
        Some (with_edges sh pe, Acquiring batch (LinkSwap slot dep feeds edge (successors j) todo))
  | LinkSwap slot dep feeds edge old todo =>
      j ← job_at sh (hslot dep);
      if decide (successors j = old) then
        sh' ← set_job sh (hslot dep) (set_successors j (packList (hgeneration dep) edge));
        Some (sh', Acquiring batch (AddSuccessor slot todo))
      else Some (sh, Acquiring batch (LinkLoad slot dep feeds edge todo))
  | DropEdge slot dep edge todo =>
      Some (with_edges sh (slots_release (successorEdges (graph sh)) edge),
            Acquiring batch (LowerWaiting slot dep todo))
  | LowerWaiting slot dep todo =>
      '(sh', _) ← add_waiting sh slot (-1);
      Some (sh', Acquiring batch (AddSuccessor slot todo))
  end.

(** finishJob, of the job in [slot], which answered [result]. *)
Definition exec_finishing sh (slot : N) (result : V) (p : finishing) : option (shared * option thread) :=
  let at_ q := Some (Finishing slot result q) in
  match p with
  | FinishLoad =>
      j ← job_at sh slot;
      Some (sh, at_ (CloseSuccessors (unpackList (successors j)).1))
  | CloseSuccessors generation =>
      j ← job_at sh slot;
      sh' ← set_job sh slot (set_successors j (packList generation closedList));
      Some (log sh' (Finished (mkHandle slot generation) result),
            at_ (CloseSignals generation (unpackList (successors j)).2))
  | CloseSignals generation heads =>
      j ← job_at sh slot;
      sh' ← set_job sh slot (set_signals j (packList generation closedList));
      Some (sh', at_ (SendSignals generation (unpackList (signals j)).2 heads))
  | SendSignals generation sigs heads =>
      if decide (sigs = NoSlot) then Some (sh, at_ (WalkSuccessors generation heads))
      else
        e ← slots_at (signalEdges (graph sh)) sigs;
        sig ← signal e;
        pg ← slots_set (signalEdges (graph sh)) sigs (mkSignalEdge (snext e) None);
        Some (log (with_signals sh pg) (Sent (mkHandle slot generation) sig),
              at_ (DropSignal generation sigs (snext e) heads))
  | DropSignal generation edge following heads =>
      Some (with_signals sh (slots_release (signalEdges (graph sh)) edge),
            at_ (SendSignals generation following heads))
  | WalkSuccessors generation heads =>
      if decide (heads = NoSlot) then Some (sh, at_ (AdvanceSuccessors generation))
      else
        e ← slots_at (successorEdges (graph sh)) heads;
        j ← job_at sh (successor e);
        Some (mkShared (graph sh)
                (if feedsResult e then <[(task j, arg j) := result]> (args sh) else args sh)
                (running sh) (trace sh),
              at_ (LowerSuccessor generation heads (successor e)))
  | LowerSuccessor generation edge next_job =>
      '(sh', count) ← add_waiting sh next_job (-1);
      if decide (count = 0%Z) then Some (sh', at_ (ArriveSuccessor generation edge next_job))
      else Some (sh', at_ (DropSuccessor generation edge))
  | ArriveSuccessor generation edge next_job =>
      sh' ← arrive sh next_job;
      Some (sh', at_ (DropSuccessor generation edge))
  | DropSuccessor generation edge =>
      e ← slots_at (successorEdges (graph sh)) edge;
      Some (with_edges sh (slots_release (successorEdges (graph sh)) edge),
            at_ (WalkSuccessors generation (next e)))
  | AdvanceSuccessors generation =>
      j ← job_at sh slot;
      sh' ← set_job sh slot (set_successors j (packList (u32 (generation + 1)) closedList));
      Some (sh', at_ (AdvanceSignals generation))
  | AdvanceSignals generation =>
      j ← job_at sh slot;
      sh' ← set_job sh slot (set_signals j (packList (u32 (generation + 1)) closedList));
      Some (sh', at_ ReleaseSlot)
  | ReleaseSlot => Some (with_jobs sh (slots_release (jobs (graph sh)) slot), None)
  end.

(** Kernel.Notify, armSignal inlined. *)
Definition exec_arming sh (h : JobHandle) (sig : N) (p : arming) : option (shared * option thread) :=
  let at_ q := Some (Notifying h sig q) in
  match p with
  | TakeSignalEdge =>
      if decide (hslot h = NoSlot) then Some (sh, at_ SendNow)
      else
        let '(pg, edge) := slots_acquire (signalEdges (graph sh)) in
        pg' ← slots_set pg edge (mkSignalEdge NoSlot (Some sig));
        Some (with_signals sh pg', at_ (ArmLoad edge))
  | ArmLoad edge =>
      j ← job_at sh (hslot h);
      if link_refuses (signals j) (hgeneration h) then Some (sh, at_ (DropArmed edge))
      else
        e ← slots_at (signalEdges (graph sh)) edge;
        pg ← slots_set (signalEdges (graph sh)) edge (mkSignalEdge (unpackList (signals j)).2 (signal e));
        Some (with_signals sh pg, at_ (ArmSwap edge (signals j)))
  | ArmSwap edge old =>
      j ← job_at sh (hslot h);
      if decide (signals j = old) then
        sh' ← set_job sh (hslot h) (set_signals j (packList (hgeneration h) edge));
        Some (sh', None)
      else Some (sh, at_ (ArmLoad edge))
  | DropArmed edge =>
      e ← slots_at (signalEdges (graph sh)) edge;
      pg ← slots_set (signalEdges (graph sh)) edge (mkSignalEdge (snext e) None);
      Some (with_signals sh (slots_release pg edge), at_ SendNow)
  | SendNow => Some (log sh (Sent h sig), None)
  end.

(** One step of a goroutine: what it leaves shared, and where it is next, or
    [None] once it has returned.  The whole is [None] on a panic.  A goroutine
    whose handlers run does what they do: see [step]. *)
Definition exec sh (t : thread) : option (shared * option thread) :=
  match t with
  | Handling _ => Some (sh, Some t)
  | Acquiring batch p => '(sh', t') ← exec_acquiring sh batch p; Some (sh', Some t')
  | Submitting [] => Some (sh, None)
  | Submitting (slot :: batch) =>
      h ← handle sh slot;
      '(sh', count) ← add_waiting (log sh (Submitted h)) slot (-1);
      if decide (count = 0%Z) then Some (sh', Some (SubmitArrive slot batch))
      else Some (sh', Some (Submitting batch))
  | SubmitArrive slot batch => sh' ← arrive sh slot; Some (sh', Some (Submitting batch))
  | Finishing slot result p => exec_finishing sh slot result p
  | Notifying h sig p => exec_arming sh h sig p
  end.

(** ** What handlers schedule *)

(** Executor.Schedule: [value] is the arg, at an index of the task's pool.  A
    task that is nil or another kernel's is [None]: nothing is scheduled, and
    the zero handle answered. *)
Definition Schedule sh (t : option N) (index : N) (value : V) (deps : list JobHandle) : shared * option call :=
  match t with
  | None => (sh, None)
  | Some t =>
      (mkShared (graph sh) (<[(t, index) := value]> (args sh)) (running sh) (trace sh),
       Some (mkCall t index zeroHandle deps))
  end.

(** Executor.ScheduleAfter: the arg is zero until [from] feeds its result. *)
Definition ScheduleAfter sh (t : option N) (index : N) (zero : V) (from : JobHandle)
    (deps : list JobHandle) : shared * option call :=
  match t with
  | None => (sh, None)
  | Some t =>
      (mkShared (graph sh) (<[(t, index) := zero]> (args sh)) (running sh) (trace sh),
       Some (mkCall t index from deps))
  end.

(** Executor.Join: task 0, which takes no arg. *)
Definition Join (deps : list JobHandle) : call := mkCall 0 0 zeroHandle deps.

(** runJob: the arg is taken out of its pool; a Join has none. *)
Definition runJob sh (slot : N) : option (shared * JobHandle * option V) :=
  j ← job_at sh slot;
  h ← handle sh slot;
  if decide (task j = 0%N) then Some (sh, h, None)
  else
    Some (mkShared (graph sh) (delete (task j, arg j) (args sh)) (running sh) (trace sh),
          h, args sh !! (task j, arg j)).

(** ** The system *)

Record sys := mkSys {
  sh : shared;
  threads : list thread (* in no order *)
}.

Definition initial : sys :=
  mkSys (mkShared (mkGraph slots_empty slots_empty slots_empty) ∅ [] []) [].

(** A handle means something only in the kernel that made it: the zero handle,
    or one that acquireJob answered. *)
Definition known (tr : list event) (h : JobHandle) : Prop :=
  hslot h = NoSlot ∨ Answered h ∈ tr.

(** What a handler may ask for: a task of the kernel, an index of its pool
    that no job has, handles it knows; the arg it gives, what scheduling leaves
    shared, and what acquireJob is then called with. *)
Inductive schedules sh : option V → shared → option call → Prop :=
  | schedules_Schedule t index value deps :
      t ≠ Some 0%N → args sh !! (default 0%N t, index) = None → Forall (known (trace sh)) deps →
      schedules sh (Some value) (Schedule sh t index value deps).1 (Schedule sh t index value deps).2
  | schedules_ScheduleAfter t index zero from deps :
      t ≠ Some 0%N → args sh !! (default 0%N t, index) = None → Forall (known (trace sh)) (from :: deps) →
      schedules sh (Some zero) (ScheduleAfter sh t index zero from deps).1 (ScheduleAfter sh t index zero from deps).2
  | schedules_Join deps :
      Forall (known (trace sh)) deps → schedules sh None sh (Some (Join deps)).

Inductive step : sys → sys → Prop :=
  | step_exec s t rest sh' t' :
      threads s ≡ₚ t :: rest →
      exec (sh s) t = Some (sh', t') →
      step s (mkSys sh' (option_list t' ++ rest))
  | step_publish s :
      step s (mkSys (sh s) (Handling [] :: threads s))
  | step_schedule s batch rest sh' c a :
      threads s ≡ₚ Handling batch :: rest →
      schedules (sh s) a sh' (Some c) →
      step s (mkSys sh' (Acquiring batch (NewSlot (Ask c a)) :: rest))
  | step_submit s batch rest :
      threads s ≡ₚ Handling batch :: rest →
      step s (mkSys (sh s) (Submitting batch :: rest))
  | step_run s slot before after sh' h a result :
      running (sh s) = before ++ slot :: after →
      runJob (sh s) slot = Some (sh', h, a) →
      step s (mkSys (mkShared (graph sh') (args sh') (before ++ after) (Ran h a :: trace sh'))
                (Finishing slot result FinishLoad :: threads s))
  | step_notify s h sig :
      known (trace (sh s)) h →
      step s (mkSys (log (sh s) (Armed h sig)) (Notifying h sig TakeSignalEdge :: threads s)).
End graph.

Arguments jobGraph : clear implicits.
Arguments event : clear implicits.
Arguments acquiring : clear implicits.
Arguments shared : clear implicits.
Arguments thread : clear implicits.
Arguments sys : clear implicits.
