(* ===== verification/JobGraphSpec.v ===== *)
(** * What a job graph promises

    [legal tr] is the contract, as an abstract machine whose state is its
    history: a job is scheduled once, after the jobs it depends on; it arrives
    at the lock combiner once, when its batch has been submitted and
    everything it depends on has finished; it runs once, with the result of
    the job that feeds it, and finishes once; a signal is sent after the
    finish it was armed for, once for each time it was armed. *)

From S2P Require Import Prelude Pool JobGraph.

Section spec.
Context {V : Type}.
Implicit Types (tr : list (event V)) (h : JobHandle).

(** The job a handle names has finished; the zero handle names one that has. *)
Definition over tr h : Prop := hslot h = NoSlot ∨ ∃ r, Finished h r ∈ tr.

(** The jobs a call makes the new one wait for. *)
Definition deps_of (c : call) : list JobHandle := cdeps c ++ [cfrom c].

Definition is_armed h (sig : N) (e : event V) : Prop :=
  match e with Armed h' sig' => h' = h ∧ sig' = sig | _ => False end.
Definition is_sent h (sig : N) (e : event V) : Prop :=
  match e with Sent h' sig' => h' = h ∧ sig' = sig | _ => False end.

#[export] Instance is_armed_dec h sig e : Decision (is_armed h sig e).
Proof. destruct e; apply _. Defined.

#[export] Instance is_sent_dec h sig e : Decision (is_sent h sig e).
Proof. destruct e; apply _. Defined.

(** How often a signal was armed for a job, and sent for it. *)
Definition armings tr h sig : nat := length (filter (is_armed h sig) tr).
Definition sendings tr h sig : nat := length (filter (is_sent h sig) tr).

(** The arg a job scheduled by [c] with [a0] may run with: what it was
    scheduled with, or the result of the job it is scheduled after, and that
    one for sure if that job had not finished when acquireJob answered. *)
Definition runs_with tr h (c : call) (a0 a : option V) : Prop :=
  (∃ r, hslot (cfrom c) ≠ NoSlot ∧ Finished (cfrom c) r ∈ tr ∧ a = Some r) ∨
  (a = a0 ∧ ∃ after before, tr = after ++ Answered h :: before ∧ over before (cfrom c)).

Inductive legal : list (event V) → Prop :=
  | legal_nil : legal []
  | legal_Scheduled tr h c a :
      legal tr → hslot h ≠ NoSlot → (∀ c' a', Scheduled h c' a' ∉ tr) → Forall (known tr) (deps_of c) →
      legal (Scheduled h c a :: tr)
  | legal_Answered tr h c a :
      legal tr → Scheduled h c a ∈ tr → Answered h ∉ tr → legal (Answered h :: tr)
  | legal_Submitted tr h :
      legal tr → Answered h ∈ tr → Submitted h ∉ tr → legal (Submitted h :: tr)
  | legal_Arrived tr h c a :
      legal tr → Scheduled h c a ∈ tr → Submitted h ∈ tr → Forall (over tr) (deps_of c) →
      Arrived h ∉ tr → legal (Arrived h :: tr)
  | legal_Ran tr h a :
      legal tr → Arrived h ∈ tr → (∀ a', Ran h a' ∉ tr) → legal (Ran h a :: tr)
  | legal_Finished tr h a r :
      legal tr → Ran h a ∈ tr → (∀ r', Finished h r' ∉ tr) → legal (Finished h r :: tr)
  | legal_Armed tr h sig : legal tr → known tr h → legal (Armed h sig :: tr)
  | legal_Sent tr h sig :
      legal tr → over tr h → sendings tr h sig < armings tr h sig → legal (Sent h sig :: tr).

Lemma over_mono e tr h : over tr h → over (e :: tr) h.
Proof. intros [?|[r ?]]; [by left|right; exists r; by right]. Qed.

Lemma known_mono (e : event V) tr h : known tr h → known (e :: tr) h.
Proof. intros [?|?]; [by left|right; by right]. Qed.

Lemma armings_cons e tr h sig :
  armings (e :: tr) h sig = (if decide (is_armed h sig e) then 1 else 0) + armings tr h sig.
Proof. unfold armings. rewrite filter_cons. by case_decide. Qed.

Lemma sendings_cons e tr h sig :
  sendings (e :: tr) h sig = (if decide (is_sent h sig e) then 1 else 0) + sendings tr h sig.
Proof. unfold sendings. rewrite filter_cons. by case_decide. Qed.

(** What happened before an event was a legal history, and is part of this one. *)
Lemma legal_split tr e :
  legal tr → e ∈ tr → ∃ after before, tr = after ++ e :: before ∧ legal (e :: before).
Proof.
  intros Hl Hin. induction tr as [|e' tr IH]; [by apply not_elem_of_nil in Hin|].
  apply elem_of_cons in Hin as [->|Hin]; [by exists [], tr|].
  assert (Hl' : legal tr) by (by inversion Hl).
  destruct (IH Hl' Hin) as (after & before & -> & ?). by exists (e' :: after), before.
Qed.

Lemma legal_before tr e :
  legal tr → e ∈ tr → ∃ before, legal (e :: before) ∧ ∀ x, x ∈ before → x ∈ tr.
Proof.
  intros Hl Hin. destruct (legal_split tr e Hl Hin) as (after & before & -> & ?).
  exists before. split; [done|]. intros x Hx. apply elem_of_app. right. by right.
Qed.

Lemma legal_answered tr h : legal tr → Answered h ∈ tr → ∃ c a, Scheduled h c a ∈ tr.
Proof. intros Hl Hin. destruct (legal_before _ _ Hl Hin) as (b & Hb & Hm). inversion Hb; subst; eauto. Qed.

Lemma legal_submitted tr h : legal tr → Submitted h ∈ tr → Answered h ∈ tr.
Proof. intros Hl Hin. destruct (legal_before _ _ Hl Hin) as (b & Hb & Hm). inversion Hb; subst; eauto. Qed.

Lemma legal_arrived tr h : legal tr → Arrived h ∈ tr → Submitted h ∈ tr.
Proof. intros Hl Hin. destruct (legal_before _ _ Hl Hin) as (b & Hb & Hm). inversion Hb; subst; eauto. Qed.

Lemma legal_ran tr h a : legal tr → Ran h a ∈ tr → Arrived h ∈ tr.
Proof. intros Hl Hin. destruct (legal_before _ _ Hl Hin) as (b & Hb & Hm). inversion Hb; subst; eauto. Qed.

Lemma legal_finished tr h r : legal tr → Finished h r ∈ tr → ∃ a, Ran h a ∈ tr.
Proof. intros Hl Hin. destruct (legal_before _ _ Hl Hin) as (b & Hb & Hm). inversion Hb; subst; eauto. Qed.

Lemma legal_known tr h : legal tr → known tr h → hslot h = NoSlot ∨ ∃ c a, Scheduled h c a ∈ tr.
Proof. intros Hl [?|?]; [by left|right; by apply legal_answered]. Qed.

Lemma legal_known_deps tr h c a d :
  legal tr → Scheduled h c a ∈ tr → d ∈ deps_of c → known tr d.
Proof.
  intros Hl Hin Hd. destruct (legal_before _ _ Hl Hin) as (b & Hb & Hm).
  inversion Hb as [|? ? ? ? _ _ _ Hk| | | | | | |]; subst.
  rewrite Forall_forall in Hk. destruct (Hk _ Hd) as [?|?]; [by left|right; eauto].
Qed.

(** A job is scheduled once. *)
Lemma legal_scheduled_once tr h c1 a1 c2 a2 :
  legal tr → Scheduled h c1 a1 ∈ tr → Scheduled h c2 a2 ∈ tr → c1 = c2 ∧ a1 = a2.
Proof.
  induction 1 as [|tr h' c a Hl IH _ Hno| | | | | | |]; rewrite ?elem_of_cons; intros E1 E2;
    [by apply not_elem_of_nil in E1| |naive_solver..].
  destruct E1 as [[= <- <- <-]|E1], E2 as [E2|E2]; [by injection E2 as <- <-| | |auto].
  - by destruct (Hno c2 a2).
  - injection E2 as <- <- <-. by destruct (Hno c1 a1).
Qed.

(** The zero handle names no job. *)
Lemma legal_slot tr h c a : legal tr → Scheduled h c a ∈ tr → hslot h ≠ NoSlot.
Proof. intros Hl Hin. destruct (legal_before _ _ Hl Hin) as (b & Hb & Hm). by inversion Hb. Qed.

Lemma legal_suffix after before : legal (after ++ before) → legal before.
Proof. induction after as [|e after IH]; [done|]. intros Hl. apply IH. by inversion Hl. Qed.

Lemma legal_scheduled_deps tr h c a :
  legal (Scheduled h c a :: tr) → legal tr ∧ ∀ d, d ∈ deps_of c → known tr d.
Proof. intros Hl. inversion Hl as [|? ? ? ? ? _ _ Hk| | | | | | |]; subst. by rewrite Forall_forall in Hk. Qed.

Lemma legal_ran_scheduled tr h a : legal tr → Ran h a ∈ tr → ∃ c a0, Scheduled h c a0 ∈ tr.
Proof. intros Hl Hr. apply legal_answered, legal_submitted, legal_arrived; [done..|]. by eapply legal_ran. Qed.
End spec.
