(* ===== verification/JobGraphLists.v ===== *)
(** * The lists of a job graph

    A list word packs a generation and a head; the edges of a list are chained
    from its head.  [lists_ok] says what holds of all the lists of one kind,
    successors or signals: [L] is every edge linked, newest first, and the
    edges whose predecessor is a job are that job's chain, until the job
    closes its list; a closed list takes nothing more.  Each lemma
    [lists_...] is one thing a goroutine does to a list. *)

From S2P Require Import Prelude Pool JobGraph.

(** ** Words *)

Definition word_gen (w : N) : N := (unpackList w).1.
Definition word_head (w : N) : N := (unpackList w).2.

Lemma unpack_pack generation head :
  (generation < 2 ^ 32)%N → (head < 2 ^ 32)%N →
  unpackList (packList generation head) = (generation, head).
Proof.
  intros Hg Hh. unfold packList, unpackList.
  assert (Hland : N.land (N.shiftl generation 32) head = 0%N).
  { apply N.bits_inj. intros k. rewrite N.land_spec, N.bits_0.
    destruct (decide (k < 32)%N) as [?|?]; [by rewrite N.shiftl_spec_low|].
    rewrite <- (N.mod_small head (2 ^ 32)) by done.
    rewrite N.mod_pow2_bits_high by lia. apply andb_false_r. }
  assert (E : N.lor (u64 (N.shiftl generation 32)) head = (generation * 2 ^ 32 + head)%N).
  { unfold u64. rewrite N.mod_small by (rewrite N.shiftl_mul_pow2; lia).
    rewrite <- N.lxor_lor, <- N.add_nocarry_lxor by done. by rewrite N.shiftl_mul_pow2. }
  rewrite E, N.shiftr_div_pow2, N.div_add_l, N.div_small, N.add_0_r by lia. f_equal.
  - by apply u32_small.
  - unfold u32. rewrite N.add_comm, N.Div0.mod_add. by apply N.mod_small.
Qed.

Lemma word_gen_pack generation head :
  (generation < 2 ^ 32)%N → (head < 2 ^ 32)%N → word_gen (packList generation head) = generation.
Proof. intros. unfold word_gen. by rewrite unpack_pack. Qed.

Lemma word_head_pack generation head :
  (generation < 2 ^ 32)%N → (head < 2 ^ 32)%N → word_head (packList generation head) = head.
Proof. intros. unfold word_head. by rewrite unpack_pack. Qed.

Lemma word_gen_bound w : (word_gen w < 2 ^ 32)%N.
Proof. apply u32_bound. Qed.

Lemma word_head_bound w : (word_head w < 2 ^ 32)%N.
Proof. apply u32_bound. Qed.

Lemma link_refuses_spec w generation :
  link_refuses w generation = bool_decide (word_gen w ≠ generation ∨ word_head w = closedList).
Proof.
  unfold link_refuses, word_gen, word_head. destruct (unpackList w) as [current head]. cbn [fst snd].
  destruct (N.eqb_spec current generation), (N.eqb_spec head closedList); cbn [negb orb];
    case_bool_decide; naive_solver.
Qed.

(** ** Chains *)

Section lists.
Context {X : Type} (ref : X → N) (pred : X → JobHandle).
Implicit Types (w : N → option N) (cell : X → N → Prop) (C I : list N) (gn : N → N) (L : list X).

(** The edges from [head], each at its reference with the one after it. *)
Fixpoint chain cell (head : N) (l : list X) : Prop :=
  match l with
  | [] => head = NoSlot
  | x :: l => head = ref x ∧ ∃ nxt, cell x nxt ∧ chain cell nxt l
  end.

Definition of_job (h : JobHandle) L : list X := filter (λ x, pred x = h) L.

Lemma chain_ext cell cell' head l :
  (∀ x nxt, x ∈ l → cell x nxt → cell' x nxt) → chain cell head l → chain cell' head l.
Proof using Type.
  revert head. induction l as [|x l IH]; intros head Hc; [done|]. intros (-> & nxt & ? & ?).
  split; [done|]. exists nxt. split; [apply Hc; [by left|done]|]. apply IH; [|done].
  intros y n Hy. apply Hc. by right.
Qed.

Lemma of_job_cons_eq x L : of_job (pred x) (x :: L) = x :: of_job (pred x) L.
Proof using Type. unfold of_job. by rewrite filter_cons_True. Qed.

Lemma of_job_cons_ne h x L : pred x ≠ h → of_job h (x :: L) = of_job h L.
Proof using Type. intros. unfold of_job. by rewrite filter_cons_False. Qed.

Lemma elem_of_of_job h x L : x ∈ of_job h L ↔ pred x = h ∧ x ∈ L.
Proof using Type. unfold of_job. by rewrite list_elem_of_filter. Qed.

Lemma of_job_middle h l1 x l2 :
  of_job h (l1 ++ x :: l2) = of_job h l1 ++ (if decide (pred x = h) then [x] else []) ++ of_job h l2.
Proof using Type. unfold of_job. rewrite filter_app, filter_cons. by case_decide. Qed.

Record lists_ok w cell C I gn L : Prop := {
  lo_refs : Forall (λ x, ref x ≠ NoSlot ∧ (ref x < closedList)%N) L;
  lo_fresh : ∀ i, w i = None → gn i = 0%N;
  lo_gen : ∀ i v, w i = Some v → i ∉ C → word_gen v = gn i;
  lo_closed : ∀ i v, w i = Some v → i ∈ C → word_head v = closedList;
  lo_chain : ∀ i v, w i = Some v → i ∈ I → i ∉ C →
    chain cell (word_head v) (of_job (mkHandle i (gn i)) L);
  lo_preds : ∀ x, x ∈ L → hslot (pred x) ∈ I ∧ hgeneration (pred x) = gn (hslot (pred x))
}.

Lemma lists_ext w w' cell cell' C C' I I' gn L :
  (∀ i, w' i = w i) → (∀ i, i ∈ C' ↔ i ∈ C) → (∀ i, i ∈ I' ↔ i ∈ I) →
  (∀ x nxt, x ∈ L → cell x nxt → cell' x nxt) →
  lists_ok w cell C I gn L → lists_ok w' cell' C' I' gn L.
Proof using Type.
  intros Hw HC HI Hc [H1 H2 H3 H4 H5 H6]. split; [done|..]; intros i.
  - rewrite Hw. auto.
  - intros v. rewrite Hw, HC. eauto.
  - intros v. rewrite Hw, HC. eauto.
  - intros v. rewrite Hw, HC, HI. intros. eapply chain_ext; [|by eapply H5].
    intros x nxt [_ ?]%elem_of_of_job. auto.
  - rewrite HI. auto.
Qed.

Lemma chain_head_open cell head l :
  Forall (λ x, ref x ≠ NoSlot ∧ (ref x < closedList)%N) l → chain cell head l → head ≠ closedList.
Proof using Type. destruct l as [|x l]; cbn [chain]; [by intros _ ->|]. intros [? _]%Forall_cons [-> _]. lia. Qed.

Lemma refs_of_job h L :
  Forall (λ x, ref x ≠ NoSlot ∧ (ref x < closedList)%N) L →
  Forall (λ x, ref x ≠ NoSlot ∧ (ref x < closedList)%N) (of_job h L).
Proof using Type. rewrite !Forall_forall. intros Hf x [_ ?]%elem_of_of_job. auto. Qed.

(** What a refusal says of the job, and what it says not to be refused. *)
Lemma lists_refuses w cell C I gn L d v :
  lists_ok w cell C I gn L → w (hslot d) = Some v →
  ((hgeneration d < gn (hslot d))%N ∨ hgeneration d = gn (hslot d) ∧ hslot d ∈ I) →
  if link_refuses v (hgeneration d)
  then (hgeneration d < gn (hslot d))%N ∨ hgeneration d = gn (hslot d) ∧ hslot d ∈ C
  else hgeneration d = gn (hslot d) ∧ hslot d ∈ I ∧ hslot d ∉ C.
Proof using Type.
  intros Hl Hv Hd. rewrite link_refuses_spec. case_bool_decide as E.
  - destruct Hd as [?|[Hd HI]]; [by left|]. right. split; [done|].
    destruct (decide (hslot d ∈ C)) as [|HC]; [done|]. exfalso.
    pose proof (lo_gen _ _ _ _ _ _ Hl _ _ Hv HC). destruct E as [E|E]; [congruence|].
    eapply chain_head_open; [|by eapply lo_chain|exact E].
    apply refs_of_job. by eapply lo_refs.
  - apply Decidable.not_or in E as [E1 E2]. destruct (decide (hslot d ∈ C)) as [HC|HC].
    + by destruct E2; eapply lo_closed.
    + pose proof (lo_gen _ _ _ _ _ _ Hl _ _ Hv HC) as Eg. destruct Hd as [Hd|[? ?]]; [|done].
      destruct (decide (word_gen v = hgeneration d)); [lia|done].
Qed.

(** A new edge goes before the head. *)
Lemma lists_push w w' cell C I gn L x v :
  lists_ok w cell C I gn L →
  hgeneration (pred x) = gn (hslot (pred x)) → hslot (pred x) ∈ I → hslot (pred x) ∉ C →
  w (hslot (pred x)) = Some v → ref x ≠ NoSlot → (ref x < closedList)%N → cell x (word_head v) →
  (∀ j, w' j = if decide (j = hslot (pred x)) then Some (packList (hgeneration (pred x)) (ref x)) else w j) →
  lists_ok w' cell C I gn (x :: L).
Proof using Type.
  intros [L1 L2 L3 L4 L5 L6] Eg HI HC Hv Hr0 Hr Hcell Hw.
  assert (Hgb : (gn (hslot (pred x)) < 2 ^ 32)%N).
  { rewrite <- (L3 _ _ Hv HC). apply word_gen_bound. }
  assert (Hrb : (ref x < 2 ^ 32)%N) by (unfold closedList in Hr; lia).
  assert (Ed : mkHandle (hslot (pred x)) (gn (hslot (pred x))) = pred x).
  { rewrite <- Eg. by destruct (pred x). }
  split.
  - by constructor.
  - intros i. rewrite Hw. case_decide; [done|]. apply L2.
  - intros i u. rewrite Hw. case_decide as E; [|apply L3]. subst i. intros [= <-] _.
    rewrite Eg. by apply word_gen_pack.
  - intros i u. rewrite Hw. case_decide as E; [by subst|]. apply L4.
  - intros i u. rewrite Hw. case_decide as E.
    + subst i. intros [= <-] _ _. rewrite Ed, of_job_cons_eq. cbn [chain].
      rewrite Eg, word_head_pack by done. split; [done|]. exists (word_head v). split; [done|].
      rewrite <- Ed. by apply L5.
    + intros Hu Hi Hci. rewrite of_job_cons_ne; [by apply L5|]. intros E'. apply E. by rewrite E'.
  - intros y [->|Hy]%elem_of_cons; [done|]. by apply L6.
Qed.

(** A list word of a slot no job holds yet is stored. *)
Lemma lists_open w w' cell C I gn L i :
  lists_ok w cell C I gn L → i ∉ I → i ∉ C → is_Some (w i) →
  (∀ j, w' j = if decide (j = i) then Some (packList (gn i) NoSlot) else w j) →
  lists_ok w' cell C I gn L.
Proof using Type.
  intros [L1 L2 L3 L4 L5 L6] HI HC [v Hv] Hw.
  assert (Hgb : (gn i < 2 ^ 32)%N) by (rewrite <- (L3 _ _ Hv HC); apply word_gen_bound).
  split; [done|intros j; rewrite Hw; case_decide as E; subst..|done].
  - done.
  - by apply L2.
  - intros u [= <-] _. by apply word_gen_pack.
  - apply L3.
  - done.
  - apply L4.
  - done.
  - apply L5.
Qed.

(** The slot's job exists from now on, its list empty. *)
Lemma lists_admit w cell C I gn L i :
  lists_ok w cell C I gn L → i ∉ I → (∀ v, w i = Some v → word_head v = NoSlot) →
  lists_ok w cell C (i :: I) gn L.
Proof using Type.
  intros [L1 L2 L3 L4 L5 L6] HI Hh. split; [done..| |].
  - intros j v Hv [->|Hj]%elem_of_cons HC; [|by apply L5].
    destruct (of_job _ L) as [|x l] eqn:E; [by apply Hh|]. exfalso. apply HI.
    assert (Hx : x ∈ of_job (mkHandle i (gn i)) L) by (rewrite E; by left).
    apply elem_of_of_job in Hx as [Hp Hx]. apply L6 in Hx as [Hx _]. by rewrite Hp in Hx.
  - intros x Hx. destruct (L6 x Hx). split; [by right|done].
Qed.

(** The job closes its list and takes what is in it. *)
Lemma lists_close w w' cell C I gn L i v :
  lists_ok w cell C I gn L → i ∈ I → i ∉ C → w i = Some v →
  (∀ j, w' j = if decide (j = i) then Some (packList (gn i) closedList) else w j) →
  lists_ok w' cell (i :: C) I gn L ∧ chain cell (word_head v) (of_job (mkHandle i (gn i)) L).
Proof using Type.
  intros [L1 L2 L3 L4 L5 L6] HI HC Hv Hw. split; [|by apply L5].
  assert (Hgb : (gn i < 2 ^ 32)%N) by (rewrite <- (L3 _ _ Hv HC); apply word_gen_bound).
  split; [done|intros j; rewrite Hw, ?elem_of_cons; case_decide as E; subst..|done].
  - done.
  - apply L2.
  - intros u _ [].  by left.
  - intros u Hu Hn. apply L3; [done|]. intros ?. apply Hn. by right.
  - intros u [= <-] _. by apply word_head_pack.
  - intros u Hu [?|?]%elem_of_cons; [done|by eapply L4].
  - intros u _ _ []. by left.
  - intros u Hu Hi Hn. apply L5; [done|done|]. intros ?. apply Hn. by right.
Qed.

(** An edge of a closed list is taken off. *)
Lemma lists_pop w cell C I gn l1 x l2 :
  lists_ok w cell C I gn (l1 ++ x :: l2) → hslot (pred x) ∈ C → lists_ok w cell C I gn (l1 ++ l2).
Proof using Type.
  intros [L1 L2 L3 L4 L5 L6] HC. split; [|done..| |].
  - apply Forall_app in L1 as [? [_ ?]%Forall_cons]. by apply Forall_app.
  - intros i v Hv Hi Hn. specialize (L5 i v Hv Hi Hn). rewrite of_job_middle in L5.
    rewrite decide_False in L5 by (by intros E; rewrite E in HC). unfold of_job in *. by rewrite filter_app.
  - intros y Hy. apply L6. apply elem_of_app in Hy as [?|?]; apply elem_of_app; [by left|right; by right].
Qed.

(** A closed list stays closed under another generation. *)
Lemma lists_advance w w' cell C I gn L i generation :
  lists_ok w cell C I gn L → i ∈ C → is_Some (w i) → (generation < 2 ^ 32)%N →
  (∀ j, w' j = if decide (j = i) then Some (packList generation closedList) else w j) →
  lists_ok w' cell C I gn L.
Proof using Type.
  intros [L1 L2 L3 L4 L5 L6] HC [v Hv] Hg Hw.
  split; [done|intros j; rewrite Hw; case_decide as E; subst..|done].
  - done.
  - apply L2.
  - done.
  - apply L3.
  - intros u [= <-] _. by apply word_head_pack.
  - apply L4.
  - done.
  - apply L5.
Qed.

(** The slot is given back: its next job has another generation. *)
Lemma lists_retire w cell C C' I I' gn gn' L i v :
  lists_ok w cell C I gn L → w i = Some v → word_gen v = (gn i + 1)%N →
  of_job (mkHandle i (gn i)) L = [] →
  (∀ j, j ∈ I' ↔ j ≠ i ∧ j ∈ I) → (∀ j, j ∈ C' ↔ j ≠ i ∧ j ∈ C) →
  (∀ j, gn' j = if decide (j = i) then gn i + 1 else gn j)%N →
  lists_ok w cell C' I' gn' L.
Proof using Type.
  intros [L1 L2 L3 L4 L5 L6] Hv Eg Enil HI HC Hgn.
  assert (Hne : ∀ x, x ∈ L → hslot (pred x) ≠ i).
  { intros x Hx E. destruct (L6 x Hx) as [_ Ex]. eapply (not_elem_of_nil x). rewrite <- Enil.
    apply elem_of_of_job. split; [|done]. rewrite <- E, <- Ex. by destruct (pred x). }
  split.
  - done.
  - intros j Hj. rewrite Hgn. case_decide; [congruence|by apply L2].
  - intros j u Hu. rewrite HC, Hgn. case_decide; [subst; congruence|]. intros Hn. apply L3; [done|tauto].
  - intros j u Hu. rewrite HC. intros [_ ?]. by eapply L4.
  - intros j u Hu. rewrite HI, HC, Hgn. intros [? ?] Hn. rewrite decide_False by done.
    apply L5; [done|done|tauto].
  - intros x Hx. rewrite HI, Hgn. destruct (L6 x Hx). rewrite decide_False by auto. auto.
Qed.

(** A pool that grows adds slots whose words are zero. *)
Lemma lists_grow w w' cell C I gn L :
  lists_ok w cell C I gn L → (∀ i, i ∈ I → is_Some (w i)) → (∀ i, i ∈ C → i ∈ I) →
  (∀ j v, w j = Some v → w' j = Some v) →
  (∀ j v, w' j = Some v → w j = Some v ∨ w j = None ∧ v = 0%N) →
  lists_ok w' cell C I gn L.
Proof using Type.
  intros [L1 L2 L3 L4 L5 L6] HI HC Hup Hdown. split; [done|..|done].
  - intros i Hi. apply L2. destruct (w i) eqn:E; [|done]. by rewrite (Hup _ _ E) in Hi.
  - intros i v [?|[Hn ->]]%Hdown Hc; [by apply L3|]. by rewrite (L2 i Hn).
  - intros i v [?|[Hn ->]]%Hdown Hc; [by eapply L4|]. destruct (HI i (HC i Hc)). congruence.
  - intros i v [?|[Hn ->]]%Hdown Hi Hc; [by apply L5|]. destruct (HI i Hi). congruence.
Qed.

(** A chain without a head is empty; any other begins with an edge of [L]. *)
Lemma chain_empty cell L h :
  Forall (λ x, ref x ≠ NoSlot ∧ (ref x < closedList)%N) L →
  chain cell NoSlot (of_job h L) → of_job h L = [].
Proof using Type.
  intros Hf Hc. apply (refs_of_job h) in Hf. destruct (of_job h L) as [|x l]; [done|].
  destruct Hc as [E _]. apply Forall_cons in Hf as [[? _] _]. congruence.
Qed.

Lemma of_job_split h L x l :
  of_job h L = x :: l → ∃ l1 l2, L = l1 ++ x :: l2 ∧ pred x = h ∧ of_job h (l1 ++ l2) = l.
Proof using Type.
  revert l. induction L as [|y L IH]; intros l; [done|]. destruct (decide (pred y = h)) as [E|E].
  - rewrite <- E at 1. rewrite of_job_cons_eq, E. intros [= -> <-]. by exists [], L.
  - rewrite of_job_cons_ne by done. intros Hl. destruct (IH _ Hl) as (l1 & l2 & -> & Hp & Hr).
    exists (y :: l1), l2. split_and!; [done|done|]. cbn [app]. by rewrite of_job_cons_ne.
Qed.

Lemma chain_pop cell L h head :
  chain cell head (of_job h L) → head ≠ NoSlot →
  ∃ l1 x l2 nxt, L = l1 ++ x :: l2 ∧ pred x = h ∧ head = ref x ∧ cell x nxt ∧
    chain cell nxt (of_job h (l1 ++ l2)).
Proof using Type.
  destruct (of_job h L) as [|x l] eqn:E; cbn [chain]; [done|]. intros (-> & nxt & Hc & Hch) _.
  destruct (of_job_split _ _ _ _ E) as (l1 & l2 & -> & ? & <-). by exists l1, x, l2, nxt.
Qed.

(** The lists of the other jobs do not have an edge taken off this one. *)
Lemma of_job_pop h l1 x l2 : pred x ≠ h → of_job h (l1 ++ l2) = of_job h (l1 ++ x :: l2).
Proof using Type. intros. rewrite of_job_middle, decide_False by done. unfold of_job. by rewrite filter_app. Qed.
End lists.
