(* ===== verification/JobGraphTurns.v ===== *)
(** * Counts and histories of a job graph

    [turns_ok] relates a job's waiting count to what it stands for: one token
    for each hold, linked edge or dependency being added; a job with no token
    left has been handed on, and no other.  [history_ok] relates where jobs
    are to what the trace says of them. *)

From S2P Require Import Prelude Pool JobGraph JobGraphSpec.

(** ** Tokens *)

Definition count (i : N) (l : list N) : nat := length (filter (λ j, j = i) l).

Lemma count_cons i j l : count i (j :: l) = (if decide (j = i) then 1 else 0) + count i l.
Proof. unfold count. rewrite filter_cons. by case_decide. Qed.

Lemma count_perm i l l' : l ≡ₚ l' → count i l = count i l'.
Proof. intros Hp. unfold count. by rewrite Hp. Qed.

Lemma count_zero i l : count i l = 0 ↔ i ∉ l.
Proof.
  induction l as [|j l IH]; [split; [intros _; apply not_elem_of_nil|done]|].
  rewrite count_cons, not_elem_of_cons. case_decide; [subst; split; [lia|naive_solver]|].
  rewrite <- IH. split; [intros; split; [congruence|lia]|lia].
Qed.

Record turns_ok (wait : N → option Z) (tokens arf I : list N) : Prop := {
  tu_count : ∀ i n, wait i = Some n → i ∈ I → n = Z.of_nat (count i tokens);
  tu_tokens : ∀ i, i ∈ tokens → i ∈ I;
  tu_nodup : NoDup arf;
  tu_arf_sub : ∀ i, i ∈ arf → i ∈ I;
  tu_arf : ∀ i, i ∈ I → (i ∈ arf ↔ i ∉ tokens)
}.

Lemma turns_ext wait wait' tokens tokens' arf arf' I I' :
  (∀ i, i ∈ I → wait' i = wait i) → tokens ≡ₚ tokens' → arf ≡ₚ arf' → (∀ i, i ∈ I' ↔ i ∈ I) →
  turns_ok wait tokens arf I → turns_ok wait' tokens' arf' I'.
Proof.
  intros Hw Ht Ha HI [T1 T2 T3 T4 T5]. split.
  - intros i n Hn Hi. apply HI in Hi. rewrite Hw in Hn by done. rewrite <- (count_perm i _ _ Ht). by apply T1.
  - intros i. rewrite <- Ht, HI. auto.
  - by rewrite <- Ha.
  - intros i. rewrite <- Ha, HI. auto.
  - intros i. rewrite <- Ha, <- Ht, HI. auto.
Qed.

Lemma turns_raise wait wait' tokens arf I i n :
  turns_ok wait tokens arf I → i ∈ tokens → wait i = Some n →
  (∀ j, wait' j = if decide (j = i) then Some (n + 1)%Z else wait j) →
  turns_ok wait' (i :: tokens) arf I.
Proof.
  intros [T1 T2 T3 T4 T5] Hi Hn Hw. split; [|set_solver|done|done|set_solver].
  intros j m. rewrite Hw, count_cons. case_decide as E.
  - subst j. intros [= <-] HI. rewrite decide_True by done. rewrite (T1 i n Hn HI). lia.
  - rewrite decide_False by congruence. apply T1.
Qed.

Lemma turns_lower wait wait' tokens arf I i n :
  turns_ok wait (i :: tokens) arf I → wait i = Some n →
  (∀ j, wait' j = if decide (j = i) then Some (n - 1)%Z else wait j) →
  (0 < n)%Z ∧
  (if decide (n - 1 = 0)%Z then (i ∉ tokens) ∧ i ∈ I ∧ (i ∉ arf) ∧ turns_ok wait' tokens (i :: arf) I
   else turns_ok wait' tokens arf I).
Proof.
  intros [T1 T2 T3 T4 T5] Hn Hw.
  assert (HI : i ∈ I) by (apply T2; by left).
  assert (Hna : i ∉ arf) by (rewrite T5 by done; intros []; by left).
  pose proof (T1 i n Hn HI) as En. rewrite count_cons, decide_True in En by done.
  assert (Hcount : ∀ j m, wait' j = Some m → j ∈ I → m = Z.of_nat (count j tokens)).
  { intros j m. rewrite Hw. case_decide as E; [subst j; intros [= <-] _; lia|].
    intros Hm Hj. rewrite (T1 j m Hm Hj), count_cons, decide_False by congruence. done. }
  assert (Hsub : ∀ j, j ∈ tokens → j ∈ I) by (intros j Hj; apply T2; by right).
  split; [lia|]. case_decide as E.
  - assert (Hz : i ∉ tokens) by (apply count_zero; lia). split_and!; [done..|].
    split; [done|done|by constructor|set_solver|].
    intros j Hj. specialize (T5 j Hj). rewrite elem_of_cons in *. destruct (decide (j = i)); set_solver.
  - assert (Hz : i ∈ tokens).
    { destruct (decide (i ∈ tokens)) as [|Hz]; [done|]. apply count_zero in Hz. lia. }
    split; [done|done|done|done|]. intros j Hj. specialize (T5 j Hj). set_solver.
Qed.

Lemma turns_admit wait wait' tokens arf I i :
  turns_ok wait tokens arf I → i ∉ I →
  (∀ j, wait' j = if decide (j = i) then Some 1%Z else wait j) →
  turns_ok wait' (i :: tokens) arf (i :: I).
Proof.
  intros [T1 T2 T3 T4 T5] HI Hw. split; [|set_solver|done|set_solver|].
  - intros j m. rewrite Hw, count_cons. case_decide as E.
    + subst j. intros [= <-] _. rewrite decide_True by done.
      replace (count i tokens) with 0; [done|]. symmetry. apply count_zero. auto.
    + intros Hm [->|Hj]%elem_of_cons; [done|]. rewrite decide_False by congruence. by apply T1.
  - intros j [->|Hj]%elem_of_cons; [|specialize (T5 j Hj)]; set_solver.
Qed.

Lemma turns_retire wait tokens arf I I' i :
  turns_ok wait tokens (i :: arf) I → (∀ j, j ∈ I' ↔ j ≠ i ∧ j ∈ I) → turns_ok wait tokens arf I'.
Proof.
  intros [T1 T2 T3 T4 T5] HI. apply NoDup_cons in T3 as [Hn T3].
  assert (Ht : i ∉ tokens) by (apply T5; [apply T4|]; by left).
  split; [|..|done| |].
  - intros j m Hm [_ Hj]%HI. by apply T1.
  - intros j Hj. apply HI. split; [by intros ->|auto].
  - intros j Hj. apply HI. split; [by intros ->|]. apply T4. by right.
  - intros j [Hne Hj]%HI. specialize (T5 j Hj). set_solver.
Qed.

(** ** Histories *)

Section history.
Context {V : Type}.
Implicit Types (tr : list (event V)) (gn : N → N).

(** A job of the past, or one of [I]. *)
Definition past tr (I : list N) gn (h : JobHandle) : Prop :=
  ((hgeneration h < gn (hslot h))%N ∧ ∃ r, Finished h r ∈ tr) ∨
  (hgeneration h = gn (hslot h) ∧ hslot h ∈ I).

Lemma past_mono e tr I gn h : past tr I gn h → past (e :: tr) I gn h.
Proof. intros [[? [r ?]]|?]; [left|by right]. split; [done|]. exists r. by right. Qed.

Lemma past_admit tr I gn i h : past tr I gn h → past tr (i :: I) gn h.
Proof. intros [?|[? ?]]; [by left|right]. split; [done|by right]. Qed.

(** Another event changes nothing about those of a kind it is not of. *)
Lemma in_cons_ex {A} (f : A → event V) e tr :
  (∀ x, f x ≠ e) → (∃ x, f x ∈ e :: tr) ↔ (∃ x, f x ∈ tr).
Proof.
  intros Hne. split; intros [x Hx]; exists x; [|by right].
  apply elem_of_cons in Hx as [E|?]; [by destruct (Hne x)|done].
Qed.

(** [I] are the slots with a job, [C] those whose job has finished, [holds]
    the jobs not submitted, [run] and [fin] those handed on and those that
    run; [gn] is the generation of each slot. *)
Record history_ok tr (I C holds run fin : list N) gn : Prop := {
  hi_legal : legal tr;
  hi_sched : ∀ h c a, Scheduled h c a ∈ tr → past tr I gn h;
  hi_live : ∀ i, i ∈ I → ∃ c a, Scheduled (mkHandle i (gn i)) c a ∈ tr;
  hi_finished : ∀ i, i ∈ I → (i ∈ C ↔ ∃ r, Finished (mkHandle i (gn i)) r ∈ tr);
  hi_arrived : ∀ i, i ∈ I → (i ∈ run ++ fin ↔ Arrived (mkHandle i (gn i)) ∈ tr);
  hi_ran : ∀ i, i ∈ I → (i ∈ fin ↔ ∃ a, Ran (mkHandle i (gn i)) a ∈ tr);
  hi_submitted : ∀ i, i ∈ I → i ∉ holds → Submitted (mkHandle i (gn i)) ∈ tr
}.

Lemma history_ext tr I I' C C' holds holds' run run' fin fin' gn :
  (∀ i, i ∈ I' ↔ i ∈ I) → (∀ i, i ∈ C' ↔ i ∈ C) → (∀ i, i ∈ holds → i ∈ holds') →
  (∀ i, i ∈ run' ++ fin' ↔ i ∈ run ++ fin) → (∀ i, i ∈ fin' ↔ i ∈ fin) →
  history_ok tr I C holds run fin gn → history_ok tr I' C' holds' run' fin' gn.
Proof.
  intros HI HC Hh Hr Hf [H1 H2 H3 H4 H5 H6 H7]. split; [done|..].
  - intros h c a Hin. unfold past. rewrite HI. by eapply H2.
  - intros i. rewrite HI. auto.
  - intros i. rewrite HI, HC. auto.
  - intros i. rewrite HI, Hr. auto.
  - intros i. rewrite HI, Hf. auto.
  - intros i. rewrite HI. auto.
Qed.

(** A handle the history knows is of the past, or of a job there is. *)
Lemma history_known tr I C holds run fin gn d :
  history_ok tr I C holds run fin gn → known tr d → hslot d ≠ NoSlot → past tr I gn d.
Proof.
  intros Hh Hk Hn. apply legal_known in Hk as [?|(c & a & Hs)]; [done| |by eapply hi_legal].
  by eapply hi_sched.
Qed.

Definition moves (e : event V) : Prop :=
  match e with Scheduled _ _ _ | Finished _ _ | Arrived _ | Ran _ _ => True | _ => False end.

(** What moves no job adds to the trace only. *)
Lemma history_log e tr I C holds run fin gn :
  history_ok tr I C holds run fin gn → ¬ moves e → legal (e :: tr) →
  history_ok (e :: tr) I C holds run fin gn.
Proof.
  intros [H1 H2 H3 H4 H5 H6 H7] Hm Hl.
  assert (Hin : ∀ e', moves e' → (e' ∈ e :: tr ↔ e' ∈ tr)).
  { intros e' He'. rewrite elem_of_cons. split; [intros [->|?]; [by destruct Hm|done]|by right]. }
  split; [done|..].
  - intros h c a Hs. apply Hin in Hs; [|done].
    by eapply past_mono, H2.
  - intros i Hi. destruct (H3 i Hi) as (c & a & ?). exists c, a. by right.
  - intros i Hi. rewrite (H4 i Hi). split; intros [r Hr]; exists r; [by right|]. by apply Hin in Hr.
  - intros i Hi. by rewrite (H5 i Hi), Hin.
  - intros i Hi. rewrite (H6 i Hi). split; intros [r Hr]; exists r; [by right|]. by apply Hin in Hr.
  - intros i Hi Hn. right. auto.
Qed.

Lemma history_submit tr I C holds run fin gn i :
  history_ok tr I C (i :: holds) run fin gn → legal (Submitted (mkHandle i (gn i)) :: tr) →
  history_ok (Submitted (mkHandle i (gn i)) :: tr) I C holds run fin gn.
Proof.
  intros Hh Hl.
  assert (Hm : ¬ moves (Submitted (V := V) (mkHandle i (gn i)))) by (intros []).
  pose proof (history_log _ _ _ _ _ _ _ _ Hh Hm Hl) as [H1 H2 H3 H4 H5 H6 H7].
  split; [done..|]. intros j Hj Hn. destruct (decide (j = i)) as [->|]; [by left|]. apply H7; [done|set_solver].
Qed.

(** No event is of a job a slot does not have yet. *)
Lemma history_fresh tr I C holds run fin gn i e :
  history_ok tr I C holds run fin gn → i ∉ I →
  (∃ c a, Scheduled (mkHandle i (gn i)) c a ∈ tr) ∨ Arrived (mkHandle i (gn i)) ∈ tr ∨
  (∃ a, Ran (mkHandle i (gn i)) a ∈ tr) ∨ (∃ r, Finished (mkHandle i (gn i)) r ∈ tr) → e.
Proof.
  intros Hh Hi Hev. exfalso. pose proof (hi_legal _ _ _ _ _ _ _ Hh) as Hl.
  assert (Hs : ∃ c a, Scheduled (mkHandle i (gn i)) c a ∈ tr).
  { assert (Ha : Arrived (mkHandle i (gn i)) ∈ tr → ∃ c a, Scheduled (mkHandle i (gn i)) c a ∈ tr).
    { intros Ha. apply legal_answered, legal_submitted, legal_arrived; done. }
    destruct Hev as [?|[?|[[a ?]|[r Hr]]]]; [done|auto| |].
    - apply Ha. by eapply legal_ran.
    - apply legal_finished in Hr as [a ?]; [|done]. apply Ha. by eapply legal_ran. }
  destruct Hs as (c & a & Hs). destruct (hi_sched _ _ _ _ _ _ _ Hh _ _ _ Hs) as [[Hlt _]|[_ ?]]; [|done].
  cbn [hgeneration hslot] in Hlt. lia.
Qed.

Lemma history_schedule tr I C holds run fin gn i c a :
  history_ok tr I C holds run fin gn → i ∉ I → i ≠ NoSlot → Forall (known tr) (deps_of c) →
  (∀ j, j ∈ C ++ run ++ fin → j ∈ I) →
  history_ok (Scheduled (mkHandle i (gn i)) c a :: tr) (i :: I) C (i :: holds) run fin gn.
Proof.
  intros Hh Hi H0 Hk Hsub. assert (Hout : ∀ l : list N, (∀ j, j ∈ l → j ∈ C ++ run ++ fin) → i ∉ l).
  { intros l Hl Hin. by apply Hi, Hsub, Hl. }
  pose proof (history_fresh _ _ _ _ _ _ _ i False Hh Hi) as Hno.
  destruct Hh as [H1 H2 H3 H4 H5 H6 H7]. split.
  - constructor; [done|done| |done]. intros c' a' ?. eauto.
  - intros h c' a' [[= -> -> ->]|Hs]%elem_of_cons; [right; split; [done|by left]|].
    eapply past_mono, past_admit, H2, Hs.
  - intros j [->|Hj]%elem_of_cons; [exists c, a; by left|]. destruct (H3 j Hj) as (c' & a' & ?).
    exists c', a'. by right.
  - intros j [->|Hj]%elem_of_cons.
    + split; [intros Hc; by destruct (Hout C); [set_solver|]|]. intros [r [?|?]%elem_of_cons]; [done|]. destruct Hno; eauto.
    + by rewrite (H4 j Hj), in_cons_ex.
  - intros j [->|Hj]%elem_of_cons.
    + split; [intros Hc; by destruct (Hout (run ++ fin)); [set_solver|]|]. intros [?|?]%elem_of_cons; [done|]. destruct Hno; eauto.
    + rewrite (H5 j Hj), elem_of_cons. naive_solver.
  - intros j [->|Hj]%elem_of_cons.
    + split; [intros Hc; by destruct (Hout fin); [set_solver|]|]. intros [r [?|?]%elem_of_cons]; [done|]. destruct Hno; eauto.
    + by rewrite (H6 j Hj), in_cons_ex.
  - intros j Hj Hn. right. apply H7; set_solver.
Qed.

Lemma history_arrive tr I C holds run fin gn i :
  history_ok tr I C holds run fin gn → i ∈ I → i ∉ run ++ fin → i ∉ holds →
  (∀ c a d, Scheduled (mkHandle i (gn i)) c a ∈ tr → d ∈ deps_of c → over tr d) →
  history_ok (Arrived (mkHandle i (gn i)) :: tr) I C holds (run ++ [i]) fin gn.
Proof.
  intros Hh Hi Hout Hhold Hdeps. destruct Hh as [H1 H2 H3 H4 H5 H6 H7].
  destruct (H3 i Hi) as (c & a & Hs). split.
  - apply (legal_Arrived _ _ c a); [done|done|by apply H7| |by rewrite <- H5].
    rewrite Forall_forall. intros d Hd. by eapply Hdeps.
  - intros h c' a' [?|Hs']%elem_of_cons; [done|]. by eapply past_mono, H2.
  - intros j Hj. destruct (H3 j Hj) as (c' & a' & ?). exists c', a'. by right.
  - intros j Hj. by rewrite (H4 j Hj), in_cons_ex.
  - intros j Hj. rewrite elem_of_cons, <- (H5 j Hj), !elem_of_app, list_elem_of_singleton. naive_solver.
  - intros j Hj. by rewrite (H6 j Hj), in_cons_ex.
  - intros j Hj Hn. right. auto.
Qed.

Lemma history_run tr I C holds run run' fin gn i a :
  history_ok tr I C holds run fin gn → i ∈ I → i ∉ fin → run ≡ₚ i :: run' →
  history_ok (Ran (mkHandle i (gn i)) a :: tr) I C holds run' (i :: fin) gn.
Proof.
  intros [H1 H2 H3 H4 H5 H6 H7] Hi Hf Hrun. split.
  - constructor; [done| |].
    + apply H5; [done|]. rewrite Hrun. apply elem_of_app. left. by left.
    + intros a' Ha. apply Hf, H6; eauto.
  - intros h c' a' [?|Hs']%elem_of_cons; [done|]. by eapply past_mono, H2.
  - intros j Hj. destruct (H3 j Hj) as (c' & a' & ?). exists c', a'. by right.
  - intros j Hj. by rewrite (H4 j Hj), in_cons_ex.
  - intros j Hj. rewrite elem_of_cons. transitivity (Arrived (mkHandle j (gn j)) ∈ tr); [|naive_solver].
    rewrite <- (H5 j Hj), Hrun. set_solver.
  - intros j Hj. rewrite elem_of_cons, (H6 j Hj). split.
    + intros [->|[a' ?]]; [exists a; by left|exists a'; by right].
    + intros [a' [Ha|?]%elem_of_cons]; [left; congruence|right; eauto].
  - intros j Hj Hn. right. auto.
Qed.

Lemma history_finish tr I C holds run fin gn i r :
  history_ok tr I C holds run fin gn → i ∈ I → i ∈ fin → i ∉ C →
  history_ok (Finished (mkHandle i (gn i)) r :: tr) I (i :: C) holds run fin gn.
Proof.
  intros [H1 H2 H3 H4 H5 H6 H7] Hi Hf HC. split.
  - destruct (proj1 (H6 i Hi) Hf) as [a ?]. apply (legal_Finished _ _ a); [done|done|].
    intros r' ?. apply HC, H4; eauto.
  - intros h c' a' [?|Hs']%elem_of_cons; [done|]. by eapply past_mono, H2.
  - intros j Hj. destruct (H3 j Hj) as (c' & a' & ?). exists c', a'. by right.
  - intros j Hj. rewrite elem_of_cons, (H4 j Hj). split.
    + intros [->|[r' ?]]; [exists r; by left|exists r'; by right].
    + intros [r' [Ha|?]%elem_of_cons]; [left; congruence|right; eauto].
  - intros j Hj. rewrite (H5 j Hj), elem_of_cons. naive_solver.
  - intros j Hj. by rewrite (H6 j Hj), in_cons_ex.
  - intros j Hj Hn. right. auto.
Qed.

Lemma history_retire tr I I' C C' holds run fin fin' gn gn' i :
  history_ok tr I C holds run fin gn → i ∈ I → i ∈ C →
  (∀ j, j ∈ I' ↔ j ≠ i ∧ j ∈ I) → (∀ j, j ∈ C' ↔ j ≠ i ∧ j ∈ C) → (∀ j, j ≠ i → (j ∈ fin' ↔ j ∈ fin)) →
  (∀ j, gn' j = if decide (j = i) then gn i + 1 else gn j)%N →
  history_ok tr I' C' holds run fin' gn'.
Proof.
  intros [H1 H2 H3 H4 H5 H6 H7] Hi HC HI' HC' Hf Hg.
  assert (Hold : ∀ j, j ∈ I' → j ∈ I ∧ j ≠ i ∧ gn' j = gn j).
  { intros j [? ?]%HI'. split_and!; [done|done|]. by rewrite Hg, decide_False. }
  split; [done|..].
  - intros h c a Hs. unfold past. rewrite HI', Hg. destruct (H2 h c a Hs) as [[Hlt ?]|[E HI]].
    + left. split; [case_decide as E; [rewrite E in Hlt; lia|done]|done].
    + case_decide as Ei.
      * left. split; [rewrite E, Ei; lia|]. destruct (proj1 (H4 i Hi) HC) as [r ?]. exists r.
        rewrite <- Ei, <- E in H. by destruct h.
      * right. done.
  - intros j Hj. destruct (Hold j Hj) as (? & ? & ->). auto.
  - intros j Hj. destruct (Hold j Hj) as (? & ? & ->). rewrite HC', <- H4 by done. tauto.
  - intros j Hj. destruct (Hold j Hj) as (? & ? & ->). rewrite <- H5 by done. rewrite !elem_of_app, Hf; done.
  - intros j Hj. destruct (Hold j Hj) as (? & ? & ->). rewrite <- H6 by done. rewrite Hf; done.
  - intros j Hj. destruct (Hold j Hj) as (? & ? & ->). auto.
Qed.

(** *** Batches *)

(** [linking] are the jobs being scheduled, [batch] those a batch holds. *)
Record batches_ok tr (linking batch : list N) gn : Prop := {
  ba_nodup : NoDup (linking ++ batch);
  ba_linking : ∀ i, i ∈ linking → Answered (mkHandle i (gn i)) ∉ tr;
  ba_answered : ∀ i, i ∈ batch → Answered (mkHandle i (gn i)) ∈ tr;
  ba_submitted : ∀ i, i ∈ batch → Submitted (mkHandle i (gn i)) ∉ tr
}.

Lemma batches_ext tr linking linking' batch batch' gn gn' :
  linking ≡ₚ linking' → batch ≡ₚ batch' → (∀ i, i ∈ linking ++ batch → gn' i = gn i) →
  batches_ok tr linking batch gn → batches_ok tr linking' batch' gn'.
Proof.
  intros Hl Hb Hg [B1 B2 B3 B4]. split.
  - by rewrite <- Hl, <- Hb.
  - intros i. rewrite <- Hl. intros Hi. rewrite Hg by set_solver. auto.
  - intros i. rewrite <- Hb. intros Hi. rewrite Hg by set_solver. auto.
  - intros i. rewrite <- Hb. intros Hi. rewrite Hg by set_solver. auto.
Qed.

Lemma batches_log e tr linking batch gn :
  batches_ok tr linking batch gn → (∀ h, e ≠ Answered h) → (∀ h, e ≠ Submitted h) →
  batches_ok (e :: tr) linking batch gn.
Proof.
  intros [B1 B2 B3 B4] Ha Hs. split; [done|intros i Hi; rewrite elem_of_cons..].
  - intros [?|?]; [by eapply Ha|by eapply B2].
  - right. auto.
  - intros [?|?]; [by eapply Hs|by eapply B4].
Qed.

Lemma batches_schedule tr linking batch gn i :
  batches_ok tr linking batch gn → i ∉ linking ++ batch → Answered (mkHandle i (gn i)) ∉ tr →
  batches_ok tr (i :: linking) batch gn.
Proof.
  intros [B1 B2 B3 B4] Hi Ha. split; [by constructor|..|done|done].
  intros j [->|?]%elem_of_cons; auto.
Qed.

Lemma batches_answer tr linking batch gn i :
  batches_ok tr (i :: linking) batch gn → legal tr →
  batches_ok (Answered (mkHandle i (gn i)) :: tr) linking (i :: batch) gn.
Proof.
  intros [B1 B2 B3 B4] Hl. split.
  - by rewrite <- Permutation_middle.
  - intros j Hj. rewrite elem_of_cons. intros [[= E _]|?]; [|by eapply B2; [right|]].
    subst j. apply NoDup_cons in B1 as [Hn _]. apply Hn. set_solver.
  - intros j [->|?]%elem_of_cons; [by left|right; auto].
  - intros j Hj [?|Hs]%elem_of_cons; [done|]. apply elem_of_cons in Hj as [->|Hj]; [|by eapply B4].
    eapply B2; [by left|]. by apply legal_submitted.
Qed.

Lemma batches_submit tr linking batch gn i :
  batches_ok tr linking (i :: batch) gn →
  batches_ok (Submitted (mkHandle i (gn i)) :: tr) linking batch gn.
Proof.
  intros [B1 B2 B3 B4]. rewrite <- Permutation_middle in B1. apply NoDup_cons in B1 as [Hn B1].
  split; [done|..].
  - intros j Hj [?|?]%elem_of_cons; [done|]. by eapply B2.
  - intros j Hj. right. apply B3. by right.
  - intros j Hj [[= E _]|?]%elem_of_cons; [subst j; apply Hn; set_solver|]. eapply B4; [by right|done].
Qed.
End history.
