(* ===== verification/JobGraphFeeds.v ===== *)
(** * Feeding a job's result to the jobs scheduled after it

    [feeds_ok] relates the arg pools to the trace: every job not yet run has
    its arg where its slot says, the one it was scheduled with until the job
    it is scheduled after feeds its result.  [F] are the feedings linked or
    about to be, [linking] the jobs acquireJob has not answered.  Each lemma
    [feeds_...] is one thing a goroutine does. *)

From S2P Require Import Prelude Pool JobGraph JobGraphSpec.

(** Where a job's arg is: its task and the index in the task's pool. *)
Definition key (c : call) : N * N := (ctask c, carg c).

Section feeds.
Context {V : Type}.
Implicit Types (tr : list (event V)) (ar : gmap (N * N) V) (ta : N → option (N * N)) (gn : N → N).
Implicit Types (calls : list (asked V)) (built : list (asked V * N)) (results : list (N * V)).
Implicit Types (F : list (JobHandle * N)) (I fin linking : list N).

(** The job in slot [i] is still to run, with the arg at [k]. *)
Definition keyed tr fin I gn (k : N * N) (i : N) : Prop :=
  i ∈ I ∧ (i ∉ fin) ∧ ∃ c a, Scheduled (mkHandle i (gn i)) c a ∈ tr ∧ ctask c ≠ 0%N ∧ key c = k.

(** When acquireJob answered the job, the one that feeds it had finished. *)
Definition answered_late tr h (d : JobHandle) : Prop :=
  ∃ after before, tr = after ++ Answered h :: before ∧ over before d.

(** What the arg [v] of the job in slot [i] is, scheduled by [c] with [a0]. *)
Definition fed tr linking F gn (i : N) (c : call) (a0 : option V) (v : V) : Prop :=
  (hslot (cfrom c) ≠ NoSlot ∧ Finished (cfrom c) v ∈ tr) ∨
  (Some v = a0 ∧
   ((cfrom c, i) ∈ F ∨ (i ∈ linking ∧ over tr (cfrom c)) ∨ answered_late tr (mkHandle i (gn i)) (cfrom c))).

Record feeds_ok tr ar ta calls linking F fin built results I gn : Prop := {
  fe_calls : ∀ c : asked V, c ∈ calls → ctask c ≠ 0%N →
    (is_Some (given c) ∧ ar !! key c = given c) ∧ ∀ i, ¬ keyed tr fin I gn (key c) i;
  fe_nodup : NoDup ((λ c : asked V, key c) <$> filter (λ c : asked V, ctask c ≠ 0%N) calls);
  fe_unique : ∀ k i i', keyed tr fin I gn k i → keyed tr fin I gn k i' → i = i';
  fe_tasks : ∀ i c a k, i ∈ I → Scheduled (mkHandle i (gn i)) c a ∈ tr → ta i = Some k → k = key c;
  fe_built : ∀ (c : asked V) s, (c, s) ∈ built → ta s = Some (key c);
  fe_join : ∀ h c a, Scheduled h c a ∈ tr → ctask c = 0%N → hslot (cfrom c) = NoSlot;
  fe_join_calls : ∀ c : asked V, c ∈ calls → ctask c = 0%N → hslot (cfrom c) = NoSlot;
  fe_source : ∀ d i, (d, i) ∈ F → ∃ c a, Scheduled (mkHandle i (gn i)) c a ∈ tr ∧ cfrom c = d;
  fe_results : ∀ s r, (s, r) ∈ results → Finished (mkHandle s (gn s)) r ∈ tr;
  fe_value : ∀ i c a0, i ∈ I → i ∉ fin → Scheduled (mkHandle i (gn i)) c a0 ∈ tr → ctask c ≠ 0%N →
    ∃ v, ar !! key c = Some v ∧ fed tr linking F gn i c a0 v;
  fe_ran : ∀ h c a0 a, Ran h a ∈ tr → Scheduled h c a0 ∈ tr → ctask c ≠ 0%N → runs_with tr h c a0 a
}.

(** ** The trace grows *)

Lemma answered_late_mono e tr h d : answered_late tr h d → answered_late (e :: tr) h d.
Proof. intros (after & before & -> & ?). by exists (e :: after), before. Qed.

Lemma fed_mono e tr linking F gn i c a0 v : fed tr linking F gn i c a0 v → fed (e :: tr) linking F gn i c a0 v.
Proof.
  intros [[? ?]|[? [?|[[? ?]|?]]]]; [left; split; [done|by right]|right..]; (split; [done|]).
  - by left.
  - right. left. split; [done|by apply over_mono].
  - right. right. by apply answered_late_mono.
Qed.

Lemma runs_with_mono e tr h c a0 a : runs_with tr h c a0 a → runs_with (e :: tr) h c a0 a.
Proof.
  intros [(r & ? & ? & ->)|[-> (after & before & -> & ?)]]; [left|right].
  - exists r. split_and!; [done|by right|done].
  - split; [done|]. by exists (e :: after), before.
Qed.

Definition feeds_moves (e : event V) : Prop :=
  match e with Scheduled _ _ _ | Ran _ _ => True | _ => False end.

Lemma feeds_log e tr ar ta calls linking F fin built results I gn :
  ¬ feeds_moves e → feeds_ok tr ar ta calls linking F fin built results I gn →
  feeds_ok (e :: tr) ar ta calls linking F fin built results I gn.
Proof.
  intros He [H1 H2 H3 H4 H5 H6 H7 H8 H9 H10 H11].
  assert (Hs : ∀ h c a, Scheduled h c a ∈ e :: tr → Scheduled h c a ∈ tr).
  { intros h c a [<-|?]%elem_of_cons; [by destruct He|done]. }
  assert (Hk : ∀ k i, keyed (e :: tr) fin I gn k i → keyed tr fin I gn k i).
  { intros k i (? & ? & c & a & Hc & ?). split_and!; [done|done|]. exists c, a. split; [by apply Hs|done]. }
  split; [..|done| | | | | |].
  - intros c Hc Ht. destruct (H1 c Hc Ht) as [? Hn]. split; [done|]. intros i Hi. by eapply Hn, Hk.
  - done.
  - intros k i i' ?%Hk ?%Hk. by eapply H3.
  - intros i c a k Hi ?%Hs. by eapply H4.
  - intros h c a ?%Hs. by eapply H6.
  - done.
  - intros d i Hd. destruct (H8 d i Hd) as (c & a & ? & ?). exists c, a. split; [by right|done].
  - intros s r Hr. right. by apply H9.
  - intros i c a0 Hi Hf Hc%Hs Ht. destruct (H10 i c a0 Hi Hf Hc Ht) as (v & ? & ?). exists v. split; [done|by apply fed_mono].
  - intros h c a0 a [<-|Hr]%elem_of_cons Hc%Hs Ht; [by destruct He|]. by eapply runs_with_mono, H11.
Qed.

(** ** What only changes how the state is written *)

Lemma fed_ext tr linking linking' F F' gn i c a0 v :
  (i ∈ linking → i ∈ linking') → (∀ d, (d, i) ∈ F → (d, i) ∈ F') →
  fed tr linking F gn i c a0 v → fed tr linking' F' gn i c a0 v.
Proof. unfold fed. naive_solver. Qed.

Lemma feeds_ext tr ar ta ta' calls calls' linking linking' F F' fin fin' built built' results results' I gn :
  calls ≡ₚ calls' → (∀ i, i ∈ I ∨ i ∈ built'.*2 → ta' i = ta i) → (∀ i, i ∈ linking → i ∈ linking') →
  (∀ x, x ∈ F' ↔ x ∈ F) → (∀ i, i ∈ fin' ↔ i ∈ fin) → (∀ x, x ∈ built' → x ∈ built) →
  (∀ x, x ∈ results' → x ∈ results) →
  feeds_ok tr ar ta calls linking F fin built results I gn →
  feeds_ok tr ar ta' calls' linking' F' fin' built' results' I gn.
Proof.
  intros Hp Hta Hl HF Hf Hb Hr [H1 H2 H3 H4 H5 H6 H7 H8 H9 H10 H11].
  assert (Hk : ∀ k i, keyed tr fin' I gn k i ↔ keyed tr fin I gn k i) by (intros k i; unfold keyed; by rewrite Hf).
  split; try done.
  - intros c. rewrite <- Hp. intros Hc Ht. destruct (H1 c Hc Ht) as [? Hn]. split; [done|]. intros i ?%Hk. by eapply Hn.
  - by rewrite <- Hp.
  - intros k i i' ?%Hk ?%Hk. by eapply H3.
  - intros i c a k Hi. rewrite Hta by auto. by apply H4.
  - intros c s Hc. rewrite Hta; [by apply H5, Hb|]. right. apply list_elem_of_fmap. by exists (c, s).
  - intros c. rewrite <- Hp. apply H7.
  - intros d i Hd. by apply H8, HF.
  - intros s r Hs. by apply H9, Hr.
  - intros i c a0 Hi Hn Hs Ht. destruct (H10 i c a0 Hi) as (v & ? & Hv); [by rewrite <- Hf|done|done|].
    exists v. split; [done|]. eapply fed_ext, Hv; [apply Hl|]. intros d. by rewrite HF.
Qed.

(** ** What goroutines do *)

(** A handler schedules: its arg is where no other job's is. *)
Lemma feeds_call tr ar ta calls linking F fin built results I gn (c : asked V) v :
  feeds_ok tr ar ta calls linking F fin built results I gn → ctask c ≠ 0%N → ar !! key c = None → given c = Some v →
  feeds_ok tr (<[key c := v]> ar) ta (c :: calls) linking F fin built results I gn.
Proof.
  intros [H1 H2 H3 H4 H5 H6 H7 H8 H9 H10 H11] Hc Hnone Hgiven.
  assert (Hfree : ∀ i, ¬ keyed tr fin I gn (key c) i).
  { intros i (Hi & Hf & c' & a & Hs & Ht & E). destruct (H10 i c' a Hi Hf Hs Ht) as (v' & Hv & _). congruence. }
  assert (Hne : ∀ c' : asked V, c' ∈ calls → ctask c' ≠ 0%N → key c' ≠ key c).
  { intros c' Hc' Ht E. destruct (H1 c' Hc' Ht) as [[[v' Hv] Ev] _]. congruence. }
  split; try done.
  - intros c' [->|Hc']%elem_of_cons Ht; [split; [rewrite lookup_insert_eq, Hgiven; split; [by eexists|done]|done]|].
    rewrite lookup_insert_ne by (apply not_eq_sym; by apply Hne). by apply H1.
  - rewrite filter_cons_True by done. rewrite fmap_cons. constructor; [|done].
    intros (c' & E & Hin)%list_elem_of_fmap. apply list_elem_of_filter in Hin as [Ht Hin]. by eapply Hne.
  - intros c' [->|Hc']%elem_of_cons; [done|by apply H7].
  - intros i c' a0 Hi Hf Hs Ht. destruct (H10 i c' a0 Hi Hf Hs Ht) as (v' & Hv & ?). exists v'. split; [|done].
    rewrite lookup_insert_ne; [done|]. intros E. by rewrite E, Hv in Hnone.
Qed.

Lemma feeds_call_join tr ar ta calls linking F fin built results I gn (c : asked V) :
  feeds_ok tr ar ta calls linking F fin built results I gn → ctask c = 0%N → hslot (cfrom c) = NoSlot →
  feeds_ok tr ar ta (c :: calls) linking F fin built results I gn.
Proof.
  intros [H1 H2 H3 H4 H5 H6 H7 H8 H9 H10 H11] Hc Hfrom. split; try done.
  - intros c' [->|Hc']%elem_of_cons Ht; [done|by apply H1].
  - by rewrite filter_cons_False by (intros Ht; by apply Ht).
  - intros c' [->|Hc']%elem_of_cons; [done|by apply H7].
Qed.

(** acquireJob writes the job's task and arg. *)
Lemma feeds_load tr ar ta ta' calls linking F fin built results I gn (c : asked V) s :
  feeds_ok tr ar ta calls linking F fin built results I gn → s ∉ I → s ∉ built.*2 →
  (∀ i, ta' i = if decide (i = s) then Some (key c) else ta i) →
  feeds_ok tr ar ta' calls linking F fin ((c, s) :: built) results I gn.
Proof.
  intros [H1 H2 H3 H4 H5 H6 H7 H8 H9 H10 H11] HI HB Hta. split; try done.
  - intros i c' a k Hi. rewrite Hta, decide_False by (by intros ->). by apply H4.
  - intros c' i [[= -> ->]|Hc]%elem_of_cons; [by rewrite Hta, decide_True|].
    rewrite Hta, decide_False; [by apply H5|]. intros ->. apply HB, list_elem_of_fmap. by exists (c', s).
Qed.

(** The job is held: from now on its arg is a job's. *)
Lemma feeds_schedule tr ar ta calls linking F F' fin built results I gn (c : asked V) s :
  feeds_ok tr ar ta (c :: calls) linking F fin ((c, s) :: built) results I gn → s ∉ I →
  legal tr → (∀ i, i ∈ fin → i ∈ I) → (∀ c' a, Scheduled (mkHandle s (gn s)) c' a ∉ tr) →
  (∀ x, x ∈ F' ↔ x = (cfrom c, s) ∨ x ∈ F) →
  feeds_ok (Scheduled (mkHandle s (gn s)) c (given c) :: tr) ar ta calls (s :: linking) F' fin built results
    (s :: I) gn.
Proof.
  intros [H1 H2 H3 H4 H5 H6 H7 H8 H9 H10 H11] HI Hl Hfin Hnew HF. set (e := Scheduled _ _ _).
  assert (Hold : ∀ i c' a, i ≠ s → Scheduled (mkHandle i (gn i)) c' a ∈ e :: tr → Scheduled (mkHandle i (gn i)) c' a ∈ tr).
  { intros i c' a Hi [[= E _ _]|?]%elem_of_cons; done. }
  assert (Hown : ∀ c' a, Scheduled (mkHandle s (gn s)) c' a ∈ e :: tr → c' = c ∧ a = given c).
  { intros c' a [[= -> ->]|?]%elem_of_cons; [done|by destruct (Hnew c' a)]. }
  assert (Hk : ∀ k i, keyed (e :: tr) fin (s :: I) gn k i →
    (i = s ∧ ctask c ≠ 0%N ∧ k = key c) ∨ (i ≠ s ∧ keyed tr fin I gn k i)).
  { intros k i (Hi & Hf & c' & a & Hs & Ht & <-). destruct (decide (i = s)) as [->|Hne].
    - left. by destruct (Hown _ _ Hs) as [-> _].
    - right. split; [done|]. split; [set_solver|]. split; [done|]. exists c', a. split; [by apply Hold|done]. }
  assert (Hdup : ∀ c' : asked V, c' ∈ calls → ctask c' ≠ 0%N → ctask c ≠ 0%N → key c' ≠ key c).
  { intros c' Hc' Ht' Ht E. rewrite filter_cons_True in H2 by done. apply NoDup_cons in H2 as [Hn _].
    apply Hn, list_elem_of_fmap. exists c'. split; [done|]. by apply list_elem_of_filter. }
  split.
  - intros c' Hc' Ht. destruct (H1 c') as [? Hn]; [by right|done|]. split; [done|].
    intros i [(-> & Htc & E)|[_ ?]]%Hk; [by destruct (Hdup c')|by eapply Hn].
  - rewrite filter_cons in H2. case_decide; [by apply NoDup_cons in H2 as [_ ?]|done].
  - intros k i i' [(-> & Ht & ->)|[? Hi]]%Hk [(-> & Ht' & E)|[? Hi']]%Hk; [done|..|by eapply H3].
    + destruct (H1 c) as [_ Hn]; [by left|done|]. by destruct (Hn i').
    + subst k. destruct (H1 c) as [_ Hn]; [by left|done|]. by destruct (Hn i).
  - intros i c' a k Hi Hs Hta. destruct (decide (i = s)) as [->|Hne].
    + destruct (Hown _ _ Hs) as [-> _]. rewrite (H5 c s) in Hta by (by left). by injection Hta.
    + eapply H4; [|by apply Hold|done]. set_solver.
  - intros c' i Hc. apply H5. by right.
  - intros h c' a [[= -> -> ->]|?]%elem_of_cons; [apply H7; by left|by eapply H6].
  - intros c' Hc'. apply H7. by right.
  - intros d i [[= -> ->]|Hd]%HF; [exists c, (given c); split; [by left|done]|].
    destruct (H8 d i Hd) as (c' & a & ? & ?). exists c', a. split; [by right|done].
  - intros i r Hr. right. by apply H9.
  - intros i c' a0 Hi Hf Hs Ht. destruct (decide (i = s)) as [->|Hne].
    + destruct (Hown _ _ Hs) as [-> ->]. destruct (H1 c) as [[[v Hv] Ev] _]; [by left|done|].
      exists v. split; [congruence|]. right. split; [done|]. left. apply HF. by left.
    + destruct (H10 i c' a0) as (v & ? & Hv); [set_solver|done|by apply Hold|done|].
      exists v. split; [done|]. apply fed_mono. eapply fed_ext, Hv; [by right|]. intros d Hd. apply HF. by right.
  - intros h c' a0 a [?|Hr]%elem_of_cons Hs Ht; [done|]. apply runs_with_mono.
    apply elem_of_cons in Hs as [[= -> -> ->]|Hs]; [|by eapply H11].
    destruct (legal_ran_scheduled _ _ _ Hl Hr) as (c2 & a2 & ?). by destruct (Hnew c2 a2).
Qed.

(** acquireJob answers: what has fed nothing by now never will. *)
Lemma feeds_answer tr ar ta calls linking linking' F fin built results I gn s :
  feeds_ok tr ar ta calls linking F fin built results I gn → (∀ i, i ∈ linking → i = s ∨ i ∈ linking') →
  feeds_ok (Answered (mkHandle s (gn s)) :: tr) ar ta calls linking' F fin built results I gn.
Proof.
  intros H Hl. apply (feeds_log (Answered (mkHandle s (gn s)))) in H; [|by intros []].
  destruct H as [H1 H2 H3 H4 H5 H6 H7 H8 H9 H10 H11]. split; try done.
  intros i c a0 Hi Hf Hs Ht. destruct (H10 i c a0 Hi Hf Hs Ht) as (v & ? & [?|[E [?|[[Hin Hov]|?]]]]);
    exists v; (split; [done|]); [by left|right; split; [done|]..].
  - by left.
  - destruct (decide (i ∈ linking')) as [|Hn]; [by auto|]. destruct (Hl i Hin) as [->|?]; [|done].
    right. right. exists [], tr. split; [done|]. destruct Hov as [?|[r Hr]]; [by left|right; exists r].
    by apply elem_of_cons in Hr as [?|?].
  - auto.
Qed.

(** The job has answered, and takes no successor. *)
Lemma feeds_finish tr ar ta calls linking F fin built results I gn s r :
  feeds_ok tr ar ta calls linking F fin built results I gn →
  feeds_ok (Finished (mkHandle s (gn s)) r :: tr) ar ta calls linking F fin built ((s, r) :: results) I gn.
Proof.
  intros H. apply (feeds_log (Finished (mkHandle s (gn s)) r)) in H; [|by intros []].
  destruct H as [H1 H2 H3 H4 H5 H6 H7 H8 H9 H10 H11]. split; try done.
  intros s' r' [[= -> ->]|Hr]%elem_of_cons; [by left|by apply H9].
Qed.

(** The job that would feed has finished before it could be linked. *)
Lemma feeds_drop tr ar ta calls linking F F' fin built results I gn d s :
  feeds_ok tr ar ta calls linking F fin built results I gn → s ∈ linking → over tr d →
  (∀ x, x ∈ F → x = (d, s) ∨ x ∈ F') → (∀ x, x ∈ F' → x ∈ F) →
  feeds_ok tr ar ta calls linking F' fin built results I gn.
Proof.
  intros [H1 H2 H3 H4 H5 H6 H7 H8 H9 H10 H11] Hs Hov HF HF'. split; try done.
  - intros d' i Hd. by apply H8, HF'.
  - intros i c a0 Hi Hf Hsch Ht. destruct (H10 i c a0 Hi Hf Hsch Ht) as (v & ? & [?|[E [Hd|?]]]);
      exists v; (split; [done|]); [by left|right; split; [done|]..|right; split; [done|]; by right].
    destruct (HF _ Hd) as [[= -> ->]|?]; auto.
Qed.

(** A feeding edge is walked: the result is the arg of its job. *)
Lemma feeds_walk tr ar ta calls linking F F' fin built results I gn d s k r :
  feeds_ok tr ar ta calls linking F fin built results I gn → legal tr → s ∈ I → s ∉ fin → (d, s) ∈ F →
  hslot d ≠ NoSlot → Finished d r ∈ tr → ta s = Some k →
  (∀ x, x ∈ F → x = (d, s) ∨ x ∈ F') → (∀ x, x ∈ F' → x ∈ F) →
  feeds_ok tr (<[k := r]> ar) ta calls linking F' fin built results I gn.
Proof.
  intros [H1 H2 H3 H4 H5 H6 H7 H8 H9 H10 H11] Hl HI Hfin Hd Hslot Hr Hta HF HF'.
  destruct (H8 d s Hd) as (c & a & Hs & Ec). subst d.
  pose proof (H4 s c a k HI Hs Hta) as ->.
  assert (Ht : ctask c ≠ 0%N) by (intros E; by apply Hslot, (H6 _ _ _ Hs)).
  assert (Hkeyed : keyed tr fin I gn (key c) s) by (split_and!; [done|done|by exists c, a]).
  split; try done.
  - intros c' Hc' Ht'. destruct (H1 c' Hc' Ht') as [? Hn]. split; [|done].
    rewrite lookup_insert_ne; [done|]. intros E. apply (Hn s). by rewrite <- E.
  - intros d' i Hdi. by apply H8, HF'.
  - intros i c' a0 Hi Hf Hs' Ht'. destruct (H10 i c' a0 Hi Hf Hs' Ht') as (v & Hv & Hfed).
    destruct (decide (key c' = key c)) as [E|E].
    + assert (i = s) as -> by (eapply H3, Hkeyed; rewrite <- E; split_and!; [done|done|by exists c', a0]).
      destruct (legal_scheduled_once _ _ _ _ _ _ Hl Hs Hs') as [<- _].
      exists r. rewrite lookup_insert_eq. split; [done|]. by left.
    + exists v. rewrite lookup_insert_ne by done. split; [done|].
      destruct Hfed as [?|[Ea [Hin|?]]]; [by left|right; split; [done|]..|right; split; [done|]; by right].
      destruct (HF _ Hin) as [[= _ ->]|?]; [|by left]. destruct E.
      by destruct (legal_scheduled_once _ _ _ _ _ _ Hl Hs Hs') as [-> _].
Qed.

(** The job runs: its arg is taken out, and is the one it should be. *)
Lemma feeds_run tr ar ta calls linking F fin built results I gn i c a k :
  feeds_ok tr ar ta calls linking F fin built results I gn → legal tr → i ∈ I → i ∉ fin → i ∉ linking →
  (∀ d, (d, i) ∉ F) → ta i = Some k → Scheduled (mkHandle i (gn i)) c a ∈ tr →
  feeds_ok (Ran (mkHandle i (gn i)) (if decide (k.1 = 0%N) then None else ar !! k) :: tr)
    (if decide (k.1 = 0%N) then ar else delete k ar) ta calls linking F (i :: fin) built results I gn.
Proof.
  intros [H1 H2 H3 H4 H5 H6 H7 H8 H9 H10 H11] Hl HI Hfin Hlink HF Hta Hc.
  pose proof (H4 i c a k HI Hc Hta) as ->. cbn [key fst]. set (e := Ran _ _). set (ar' := if decide _ then ar else _).
  assert (Hs : ∀ h c' a', Scheduled h c' a' ∈ e :: tr → Scheduled h c' a' ∈ tr) by (intros h c' a' [?|?]%elem_of_cons; done).
  assert (Hk : ∀ k' j, keyed (e :: tr) (i :: fin) I gn k' j → keyed tr fin I gn k' j).
  { intros k' j (? & Hj & c' & a' & Hc' & ?). apply not_elem_of_cons in Hj as [? ?].
    split_and!; [done|done|]. exists c', a'. split; [by apply Hs|done]. }
  assert (Hown : ctask c ≠ 0%N → keyed tr fin I gn (key c) i) by (intros Ht; split_and!; [done|done|by exists c, a]).
  assert (Hdel : ∀ k', (ctask c ≠ 0%N → k' ≠ key c) → ar' !! k' = ar !! k').
  { intros k' Hne. unfold ar'. case_decide; [done|]. by rewrite lookup_delete_ne by (apply not_eq_sym; auto). }
  split; try done.
  - intros c' Hc' Ht. destruct (H1 c' Hc' Ht) as [? Hn]. split; [|intros j ?%Hk; by eapply Hn].
    rewrite Hdel; [done|]. intros Htc E. apply (Hn i). rewrite E. by apply Hown.
  - intros k' j j' ?%Hk ?%Hk. by eapply H3.
  - intros j c' a' k' Hj ?%Hs. by eapply H4.
  - intros h c' a' ?%Hs. by eapply H6.
  - intros d j Hd. destruct (H8 d j Hd) as (c' & a' & ? & ?). exists c', a'. split; [by right|done].
  - intros s r Hr. right. by apply H9.
  - intros j c' a0 Hj Hf Hc'%Hs Ht. apply not_elem_of_cons in Hf as [Hne Hf].
    destruct (H10 j c' a0 Hj Hf Hc' Ht) as (v & Hv & Hfed). exists v. split; [|by apply fed_mono].
    rewrite Hdel; [done|]. intros Htc E. apply Hne. eapply H3, Hown, Htc. rewrite <- E.
    split_and!; [done|done|by exists c', a0].
  - intros h c' a0 a' [E|Hr]%elem_of_cons Hc'%Hs Ht; [|by eapply runs_with_mono, H11].
    injection E as -> ->. apply runs_with_mono. destruct (legal_scheduled_once _ _ _ _ _ _ Hl Hc Hc') as [<- <-].
    rewrite decide_False by done. destruct (H10 i c a HI Hfin Hc Ht) as (v & -> & [[? ?]|[Ea [Hin|[[? _]|Hlate]]]]).
    + left. by exists v.
    + by destruct (HF (cfrom c)).
    + done.
    + right. by split.
Qed.

(** The slot is given back. *)
Lemma feeds_retire tr ar ta calls linking F fin fin' built results results' I I' gn gn' i :
  feeds_ok tr ar ta calls linking F fin built results I gn → i ∈ fin →
  (∀ j, j ∈ I' ↔ j ≠ i ∧ j ∈ I) → (∀ j, j ≠ i → (j ∈ fin' ↔ j ∈ fin)) → (∀ j, j ≠ i → gn' j = gn j) →
  (∀ s r, (s, r) ∈ results' → s ≠ i ∧ (s, r) ∈ results) → (∀ d s, (d, s) ∈ F → s ≠ i) →
  feeds_ok tr ar ta calls linking F fin' built results' I' gn'.
Proof.
  intros [H1 H2 H3 H4 H5 H6 H7 H8 H9 H10 H11] Hi HI Hf Hg Hr HF.
  assert (Hk : ∀ k j, keyed tr fin' I' gn' k j → keyed tr fin I gn k j).
  { intros k j ([Hne Hj]%HI & Hnf & c & a & Hs & ?). rewrite Hg in Hs by done. rewrite Hf in Hnf by done.
    split_and!; [done|done|by exists c, a]. }
  split; try done.
  - intros c Hc Ht. destruct (H1 c Hc Ht) as [? Hn]. split; [done|]. intros j ?%Hk. by eapply Hn.
  - intros k j j' ?%Hk ?%Hk. by eapply H3.
  - intros j c a k [Hne Hj]%HI. rewrite Hg by done. by apply H4.
  - intros d j Hd. rewrite Hg by (by eapply HF). by apply H8.
  - intros s r [Hne Hs]%Hr. rewrite Hg by done. by apply H9.
  - intros j c a0 [Hne Hj]%HI Hnf. rewrite Hf in Hnf by done. rewrite Hg by done. intros Hs Ht.
    destruct (H10 j c a0 Hj Hnf Hs Ht) as (v & ? & Hv). exists v. split; [done|]. unfold fed in *. by rewrite Hg.
Qed.
End feeds.
