(* ===== verification/JobGraphInv.v ===== *)
(** * The invariant of a job graph

    What each goroutine holds, by where it is, and [inv], which relates the
    pools, the list words, the counts and the trace of a graph to it.  [L] and
    [G] are the successor and signal edges linked, [I] the slots with a job,
    [gn] the generation each slot is at. *)

From S2P Require Import Prelude Pool JobGraph JobGraphSpec JobGraphLists JobGraphTurns JobGraphFeeds.

(** A successor edge linked: [lsucc] waits for [lpred]. *)
Record link := mkLink { ledge : N; lpred : JobHandle; lsucc : N; lfeeds : bool }.

(** A signal edge linked. *)
Record arm := mkArm { aedge : N; apred : JobHandle; asig : N }.

(** The links that feed, and the dependencies that will. *)
Definition fed_links (L : list link) : list (JobHandle * N) :=
  (λ x, (lpred x, lsucc x)) <$> filter (λ x, lfeeds x = true) L.

Definition feeding (s : N) (todo : list (JobHandle * bool)) : list (JobHandle * N) :=
  (λ d, (d.1, s)) <$> filter (λ d, d.2 = true) todo.

Lemma elem_of_feeding (todo : list (JobHandle * bool)) (s : N) (d : JobHandle) (i : N) :
  (d, i) ∈ feeding s todo ↔ i = s ∧ (d, true) ∈ todo.
Proof.
  unfold feeding. rewrite list_elem_of_fmap. split.
  - intros ([d' f'] & [= -> ->] & [Ef Hx]%list_elem_of_filter). cbn in Ef. by subst f'.
  - intros [-> Hx]. exists (d, true). split; [done|]. by apply list_elem_of_filter.
Qed.

Lemma dependencies_feeds c d : (d, true) ∈ dependencies c ↔ d = cfrom c.
Proof.
  unfold dependencies. rewrite elem_of_app, list_elem_of_singleton, list_elem_of_fmap. naive_solver.
Qed.

Lemma dependencies_deps c : (dependencies c).*1 = deps_of c.
Proof. unfold dependencies, deps_of. rewrite fmap_app, <- list_fmap_compose. simpl. by rewrite list_fmap_id. Qed.

Definition arm_of (x : arm) : JobHandle * N := (apred x, asig x).

Section projections.
Context {V : Type}.
Implicit Types (t : thread V).

(** The call of a job acquireJob has not held yet. *)
Definition calls_of t : list (asked V) :=
  match t with
  | Acquiring _ (NewSlot c | LoadGeneration c _ | OpenSuccessors c _ _ | OpenSignals c _ _
                | StoreHold c _ _) => [c]
  | _ => []
  end.

(** The slot acquired for it. *)
Definition building_of t : list N :=
  match t with
  | Acquiring _ (LoadGeneration _ s | OpenSuccessors _ s _ | OpenSignals _ s _ | StoreHold _ s _) => [s]
  | _ => []
  end.

(** The job being added to lists. *)
Definition linking_of t : list N :=
  match t with
  | Acquiring _ (AddSuccessor s _ | TakeEdge s _ _ _ | LinkLoad s _ _ _ _ | LinkSwap s _ _ _ _ _
                | DropEdge s _ _ _ | LowerWaiting s _ _) => [s]
  | _ => []
  end.

(** The jobs of the batch collected so far, or not submitted yet. *)
Definition batch_of t : list N :=
  match t with Handling b | Acquiring b _ | Submitting b | SubmitArrive _ b => b | _ => [] end.

(** The jobs held until their batch is submitted. *)
Definition holds_of t : list N := linking_of t ++ batch_of t.

(** What waiting counts: holds, a dependency being added, an edge walked. *)
Definition tokens_of t : list N :=
  match t with
  | Acquiring _ (TakeEdge s _ _ _ | LinkLoad s _ _ _ _ | LinkSwap s _ _ _ _ _
                | DropEdge s _ _ _ | LowerWaiting s _ _) => s :: holds_of t
  | Finishing _ _ (LowerSuccessor _ _ n) => [n]
  | _ => holds_of t
  end.

(** The dependencies a job is still to be made to wait for. *)
Definition todo_of t : list (JobHandle * N) :=
  match t with
  | Acquiring _ (AddSuccessor s todo | DropEdge s _ _ todo | LowerWaiting s _ todo) =>
      (λ d, (d.1, s)) <$> todo
  | Acquiring _ (TakeEdge s d _ todo | LinkLoad s d _ _ todo | LinkSwap s d _ _ _ todo) =>
      (d, s) :: ((λ d, (d.1, s)) <$> todo)
  | _ => []
  end.

(** Those that are to feed their result. *)
Definition feeds_of t : list (JobHandle * N) :=
  match t with
  | Acquiring _ (AddSuccessor s todo | DropEdge s _ _ todo | LowerWaiting s _ todo) => feeding s todo
  | Acquiring _ (TakeEdge s d f todo | LinkLoad s d f _ todo | LinkSwap s d f _ _ todo) =>
      feeding s ((d, f) :: todo)
  | _ => []
  end.

(** The call of a job whose slot says its task and arg already. *)
Definition built_of t : list (asked V * N) :=
  match t with
  | Acquiring _ (OpenSuccessors c s _ | OpenSignals c s _ | StoreHold c s _) => [(c, s)]
  | _ => []
  end.

(** What a job answered, once it takes no successor. *)
Definition results_of t : list (N * V) :=
  match t with
  | Finishing s _ (FinishLoad | CloseSuccessors _) => []
  | Finishing s r _ => [(s, r)]
  | _ => []
  end.

Definition arriving_of t : list N :=
  match t with SubmitArrive s _ | Finishing _ _ (ArriveSuccessor _ _ s) => [s] | _ => [] end.

Definition finishing_of t : list N :=
  match t with Finishing s _ _ => [s] | _ => [] end.

(** The finishing job, once it takes no successor, and no signal. *)
Definition closed_of t : list N :=
  match t with
  | Finishing s _ (FinishLoad | CloseSuccessors _) => []
  | Finishing s _ _ => [s]
  | _ => []
  end.

Definition mute_of t : list N :=
  match t with
  | Finishing s _ (FinishLoad | CloseSuccessors _ | CloseSignals _ _) => []
  | Finishing s _ _ => [s]
  | _ => []
  end.

(** The edges only the goroutine holds. *)
Definition edges_of t : list N :=
  match t with
  | Acquiring _ (LinkLoad _ _ _ e _ | LinkSwap _ _ _ e _ _ | DropEdge _ _ e _) => [e]
  | Finishing _ _ (LowerSuccessor _ e _ | ArriveSuccessor _ e _ | DropSuccessor _ e) => [e]
  | _ => []
  end.

Definition sedges_of t : list N :=
  match t with
  | Notifying _ _ (ArmLoad e | ArmSwap e _ | DropArmed e) => [e]
  | Finishing _ _ (DropSignal _ e _ _) => [e]
  | _ => []
  end.

(** The notifications neither armed nor sent. *)
Definition pending_of t : list (JobHandle * N) :=
  match t with Notifying h sig _ => [(h, sig)] | _ => [] end.

Definition gather {A} (f : thread V → list A) (ts : list (thread V)) : list A := ts ≫= f.

Lemma gather_cons {A} (f : thread V → list A) t ts : gather f (t :: ts) = f t ++ gather f ts.
Proof. done. Qed.

Lemma gather_perm {A} (f : thread V → list A) ts ts' : ts ≡ₚ ts' → gather f ts ≡ₚ gather f ts'.
Proof. intros Hp. unfold gather. by rewrite Hp. Qed.

Lemma elem_of_gather {A} (f : thread V → list A) ts t x : t ∈ ts → x ∈ f t → x ∈ gather f ts.
Proof. intros. apply list_elem_of_bind. eauto. Qed.

Lemma closed_finishing ts i : i ∈ gather closed_of ts → i ∈ gather finishing_of ts.
Proof.
  intros (t & Hi & Ht)%list_elem_of_bind. eapply elem_of_gather; [done|].
  destruct t as [| | | |? ? []|]; try (by apply not_elem_of_nil in Hi); done.
Qed.

Lemma mute_closed ts i : i ∈ gather mute_of ts → i ∈ gather closed_of ts.
Proof.
  intros (t & Hi & Ht)%list_elem_of_bind. eapply elem_of_gather; [done|].
  destruct t as [| | | |? ? []|]; try (by apply not_elem_of_nil in Hi); done.
Qed.

Lemma holds_tokens t i : i ∈ holds_of t → i ∈ tokens_of t.
Proof.
  destruct t as [|? []| | | |]; try done; intros Hi; [by right..|by apply not_elem_of_nil in Hi].
Qed.

Lemma holds_tokens_all ts i : i ∈ gather holds_of ts → i ∈ gather tokens_of ts.
Proof.
  intros (t & Hi & Ht)%list_elem_of_bind. eapply elem_of_gather; [done|]. by apply holds_tokens.
Qed.

Lemma linking_tokens ts i : i ∈ gather linking_of ts ++ gather batch_of ts → i ∈ gather tokens_of ts.
Proof.
  intros [(t & Hi & Ht)%list_elem_of_bind|(t & Hi & Ht)%list_elem_of_bind]%elem_of_app;
    (eapply elem_of_gather; [done|]; apply holds_tokens, elem_of_app; auto).
Qed.
Lemma elem_of_todo (todo : list (JobHandle * bool)) (s : N) (d : JobHandle) (i : N) :
  (d, i) ∈ ((λ x, (x.1, s)) <$> todo) ↔ i = s ∧ d ∈ todo.*1.
Proof.
  rewrite !list_elem_of_fmap. split.
  - intros (x & [= -> ->] & Hx). eauto.
  - intros (-> & x & -> & Hx). eauto.
Qed.

(** A job that is still to be made to wait is held. *)
Lemma todo_tokens t d i : (d, i) ∈ todo_of t → i ∈ tokens_of t.
Proof.
  destruct t as [|b p| | | |]; try (by intros ?%not_elem_of_nil).
  destruct p; cbn [todo_of tokens_of holds_of linking_of app]; try (by intros ?%not_elem_of_nil);
    rewrite ?elem_of_cons, elem_of_todo; naive_solver.
Qed.

Lemma built_building ts i : i ∈ (gather built_of ts).*2 → i ∈ gather building_of ts.
Proof.
  intros ([c s] & -> & (t & Hi & Ht)%list_elem_of_bind)%list_elem_of_fmap. eapply elem_of_gather; [done|].
  destruct t as [|? []| | | |]; try (by apply not_elem_of_nil in Hi); apply list_elem_of_singleton in Hi; injection Hi as -> ->; by left.
Qed.

Lemma results_closed ts s r : (s, r) ∈ gather results_of ts → s ∈ gather closed_of ts.
Proof.
  intros (t & Hi & Ht)%list_elem_of_bind. eapply elem_of_gather; [done|].
  destruct t as [| | | |? ? []|]; try (by apply not_elem_of_nil in Hi); apply list_elem_of_singleton in Hi; injection Hi as -> ->; by left.
Qed.

(** Who is to be fed is held, or waits. *)
Lemma feeds_tokens ts L d i : (d, i) ∈ gather feeds_of ts ++ fed_links L → i ∈ gather tokens_of ts ++ (lsucc <$> L).
Proof.
  rewrite !elem_of_app. intros [(t & Hi & Ht)%list_elem_of_bind|Hi].
  - left. eapply elem_of_gather; [done|]. apply (todo_tokens t d).
    destruct t as [|b p| | | |]; try (by apply not_elem_of_nil in Hi).
    destruct p; cbn [feeds_of todo_of feeding] in *; try (by apply not_elem_of_nil in Hi);
      apply list_elem_of_fmap in Hi as ([d' f'] & [= -> ->] & [_ Hi]%list_elem_of_filter);
      rewrite ?elem_of_cons, elem_of_todo, ?list_elem_of_fmap;
      try (apply elem_of_cons in Hi as [[= -> ->]|Hi]; [by left|right]); (split; [done|]); by exists (d', f').
  - right. apply list_elem_of_fmap in Hi as (x & [= -> ->] & [_ Hi]%list_elem_of_filter). by apply list_elem_of_fmap_2.
Qed.
End projections.

Section invariant.
Context {PJ PE PG V : Type}.
Context `{!SlotPool PJ job, !SlotPool PE successorEdge, !SlotPool PG signalEdge}.
Implicit Types (sh : shared PJ PE PG V) (ts : list (thread V)) (L : list link) (G : list arm) (gn : N → N).

Definition succ_word sh (i : N) : option N := successors <$> job_at sh i.
Definition sig_word sh (i : N) : option N := signals <$> job_at sh i.
Definition wait_count sh (i : N) : option Z := waiting <$> job_at sh i.

Definition edge_at sh (e : N) : option successorEdge := slots_at (successorEdges (graph sh)) e.
Definition sedge_at sh (e : N) : option signalEdge := slots_at (signalEdges (graph sh)) e.

Definition succ_cell sh (x : link) (nxt : N) : Prop :=
  edge_at sh (ledge x) = Some (mkSuccessorEdge nxt (lsucc x) (lfeeds x)).
Definition sig_cell sh (x : arm) (nxt : N) : Prop :=
  sedge_at sh (aedge x) = Some (mkSignalEdge nxt (Some (asig x))).

(** Where the arg of the job in a slot is. *)
Definition task_arg sh (i : N) : option (N * N) := (λ j, (task j, arg j)) <$> job_at sh i.

(** The successors, and the signals, of the job a slot has, from a head. *)
Definition succ_list sh gn L (i head : N) : Prop :=
  chain ledge (succ_cell sh) head (of_job lpred (mkHandle i (gn i)) L).
Definition sig_list sh gn G (i head : N) : Prop :=
  chain aedge (sig_cell sh) head (of_job apred (mkHandle i (gn i)) G).

Definition no_succs gn L (i : N) : Prop := of_job lpred (mkHandle i (gn i)) L = [].
Definition no_sigs gn G (i : N) : Prop := of_job apred (mkHandle i (gn i)) G = [].

Definition gen_is (w : option N) (g : N) : Prop := word_gen <$> w = Some g.
Definition head_is (w : option N) (h : N) : Prop := word_head <$> w = Some h.

Definition acquiring_phase sh gn (p : acquiring V) : Prop :=
  match p with
  | NewSlot _ | LoadGeneration _ _ | AddSuccessor _ _ => True
  | OpenSuccessors _ s g => g = gn s
  | OpenSignals _ s g => g = gn s ∧ head_is (succ_word sh s) NoSlot
  | StoreHold _ s g => g = gn s ∧ head_is (succ_word sh s) NoSlot ∧ head_is (sig_word sh s) NoSlot
  | TakeEdge _ d _ _ => hslot d ≠ NoSlot
  | LinkLoad s d f e _ => hslot d ≠ NoSlot ∧ ∃ nxt, edge_at sh e = Some (mkSuccessorEdge nxt s f)
  | LinkSwap s d f e old _ =>
      hslot d ≠ NoSlot ∧ edge_at sh e = Some (mkSuccessorEdge (word_head old) s f) ∧
      link_refuses old (hgeneration d) = false
  | DropEdge _ d _ _ | LowerWaiting _ d _ => over (trace sh) d
  end.

Definition finishing_phase sh gn L G (s : N) (p : finishing) : Prop :=
  match p with
  | FinishLoad => True
  | CloseSuccessors g => g = gn s
  | CloseSignals g h => g = gn s ∧ succ_list sh gn L s h
  | SendSignals g sg h | DropSignal g _ sg h => g = gn s ∧ succ_list sh gn L s h ∧ sig_list sh gn G s sg
  | WalkSuccessors g h => g = gn s ∧ succ_list sh gn L s h ∧ no_sigs gn G s
  | LowerSuccessor g e _ | ArriveSuccessor g e _ | DropSuccessor g e =>
      g = gn s ∧ (∃ ed, edge_at sh e = Some ed ∧ succ_list sh gn L s (next ed)) ∧ no_sigs gn G s
  | AdvanceSuccessors g => g = gn s ∧ no_succs gn L s ∧ no_sigs gn G s
  | AdvanceSignals g =>
      g = gn s ∧ no_succs gn L s ∧ no_sigs gn G s ∧ gen_is (succ_word sh s) (gn s + 1)
  | ReleaseSlot =>
      no_succs gn L s ∧ no_sigs gn G s ∧
      gen_is (succ_word sh s) (gn s + 1) ∧ gen_is (sig_word sh s) (gn s + 1)
  end.

Definition arming_phase sh (h : JobHandle) (sig : N) (p : arming) : Prop :=
  match p with
  | TakeSignalEdge => True
  | ArmLoad e => hslot h ≠ NoSlot ∧ ∃ nxt, sedge_at sh e = Some (mkSignalEdge nxt (Some sig))
  | ArmSwap e old =>
      hslot h ≠ NoSlot ∧ sedge_at sh e = Some (mkSignalEdge (word_head old) (Some sig)) ∧
      link_refuses old (hgeneration h) = false
  | DropArmed _ | SendNow => over (trace sh) h
  end.

Definition phase sh gn L G (t : thread V) : Prop :=
  match t with
  | Acquiring _ p => acquiring_phase sh gn p
  | Finishing s _ p => finishing_phase sh gn L G s p
  | Notifying h sig p => arming_phase sh h sig p
  | _ => True
  end.

(** The jobs handed on and not finished. *)
Definition handed sh ts : list N :=
  running sh ++ gather arriving_of ts ++ gather finishing_of ts.

(** [i] waits for the job of [d], or is about to. *)
Definition awaits ts L (d : JobHandle) (i : N) : Prop :=
  (∃ x, x ∈ L ∧ lpred x = d ∧ lsucc x = i) ∨ (d, i) ∈ gather todo_of ts.

Record inv sh ts L G (I : list N) gn : Prop := {
  inv_jobs : slots_repr (jobs (graph sh)) (gather building_of ts ++ I);
  inv_edges : slots_repr (successorEdges (graph sh)) ((ledge <$> L) ++ gather edges_of ts);
  inv_sedges : slots_repr (signalEdges (graph sh)) ((aedge <$> G) ++ gather sedges_of ts);
  inv_succs : lists_ok ledge lpred (succ_word sh) (succ_cell sh) (gather closed_of ts) I gn L;
  inv_sigs : lists_ok aedge apred (sig_word sh) (sig_cell sh) (gather mute_of ts) I gn G;
  inv_turns : turns_ok (wait_count sh) (gather tokens_of ts ++ (lsucc <$> L)) (handed sh ts) I;
  inv_history : history_ok (trace sh) I (gather closed_of ts) (gather holds_of ts) (running sh)
    (gather finishing_of ts) gn;
  inv_batches : batches_ok (trace sh) (gather linking_of ts) (gather batch_of ts) gn;
  inv_feeds : feeds_ok (trace sh) (args sh) (task_arg sh) (gather calls_of ts) (gather linking_of ts)
    (gather feeds_of ts ++ fed_links L) (gather finishing_of ts) (gather built_of ts) (gather results_of ts) I gn;
  inv_deps : ∀ i c a d, i ∈ I → Scheduled (mkHandle i (gn i)) c a ∈ trace sh → d ∈ deps_of c →
    over (trace sh) d ∨ awaits ts L d i;
  inv_awaits : ∀ d i, awaits ts L d i → ∃ c a, Scheduled (mkHandle i (gn i)) c a ∈ trace sh ∧ d ∈ deps_of c;
  inv_calls : ∀ c : asked V, c ∈ gather calls_of ts → Forall (known (trace sh)) (deps_of c);
  inv_notified : ∀ h sig, (h, sig) ∈ gather pending_of ts → known (trace sh) h;
  inv_sends : ∀ h sig, armings (trace sh) h sig = sendings (trace sh) h sig +
    length (filter (λ x, x = (h, sig)) (gather pending_of ts ++ (arm_of <$> G)));
  inv_phase : Forall (phase sh gn L G) ts
}.

(** ** Frames *)

Lemma phases_frame sh sh' gn gn' L L' G G' ts :
  (∀ i, i ∈ gather building_of ts ++ gather finishing_of ts → gn' i = gn i) →
  (∀ i, i ∈ gather building_of ts → succ_word sh' i = succ_word sh i ∧ sig_word sh' i = sig_word sh i) →
  (∀ i, i ∈ gather closed_of ts → succ_word sh' i = succ_word sh i ∧
    of_job lpred (mkHandle i (gn i)) L' = of_job lpred (mkHandle i (gn i)) L) →
  (∀ i, i ∈ gather mute_of ts → sig_word sh' i = sig_word sh i ∧
    of_job apred (mkHandle i (gn i)) G' = of_job apred (mkHandle i (gn i)) G) →
  (∀ e, e ∈ gather edges_of ts → edge_at sh' e = edge_at sh e) →
  (∀ e, e ∈ gather sedges_of ts → sedge_at sh' e = sedge_at sh e) →
  (∀ x nxt, x ∈ L → succ_cell sh x nxt → succ_cell sh' x nxt) →
  (∀ x nxt, x ∈ G → sig_cell sh x nxt → sig_cell sh' x nxt) →
  (∀ h, over (trace sh) h → over (trace sh') h) →
  Forall (phase sh gn L G) ts → Forall (phase sh' gn' L' G') ts.
Proof using Type.
  intros Hgn Hb Hc Hm He Hs Hcell Hscell Hov. rewrite !Forall_forall. intros Hph t Ht. specialize (Hph t Ht).
  assert (Hin : ∀ (f : thread V → list N) i, i ∈ f t → i ∈ gather f ts) by (intros; by eapply elem_of_gather).
  assert (Hl : ∀ i h, i ∈ closed_of t → gn' i = gn i → succ_list sh gn L i h → succ_list sh' gn' L' i h).
  { intros i h Hi E. unfold succ_list. rewrite E. destruct (Hc i (Hin closed_of i Hi)) as [_ ->].
    apply chain_ext. intros x nxt [_ ?]%elem_of_of_job. auto. }
  assert (Hg : ∀ i h, i ∈ mute_of t → gn' i = gn i → sig_list sh gn G i h → sig_list sh' gn' G' i h).
  { intros i h Hi E. unfold sig_list. rewrite E. destruct (Hm i (Hin mute_of i Hi)) as [_ ->].
    apply chain_ext. intros x nxt [_ ?]%elem_of_of_job. auto. }
  assert (Hgs : ∀ i, i ∈ building_of t ++ finishing_of t → gn' i = gn i).
  { intros i [Hi|Hi]%elem_of_app; apply Hgn, elem_of_app; [left|right]; by apply Hin. }
  destruct t as [|batch p| | |s r p|h sig p]; try done.
  - assert (Hw : ∀ i, i ∈ building_of (Acquiring (V := V) batch p) →
      succ_word sh' i = succ_word sh i ∧ sig_word sh' i = sig_word sh i) by (intros; apply Hb, Hin; done).
    destruct p; cbn in *; try done;
      try (rewrite (Hgs slot) by (by left)); try (destruct (Hw slot) as [Ew1 Ew2]; [by left|]; rewrite ?Ew1, ?Ew2); auto;
      try (rewrite (He edge); [done|]; by apply (Hin edges_of); left).
  - assert (E : gn' s = gn s) by (apply Hgs; by left).
    assert (Hcs : ∀ i, i ∈ closed_of (Finishing s r p) → succ_word sh' i = succ_word sh i ∧
      of_job lpred (mkHandle i (gn i)) L' = of_job lpred (mkHandle i (gn i)) L) by (intros; by apply Hc, Hin).
    assert (Hms : ∀ i, i ∈ mute_of (Finishing s r p) → sig_word sh' i = sig_word sh i ∧
      of_job apred (mkHandle i (gn i)) G' = of_job apred (mkHandle i (gn i)) G) by (intros; by apply Hm, Hin).
    assert (Hes : ∀ e, e ∈ edges_of (Finishing s r p) → edge_at sh' e = edge_at sh e) by (intros; by apply He, Hin).
    destruct p; cbn [phase finishing_phase closed_of mute_of edges_of] in *; unfold no_succs, no_sigs; rewrite ?E;
      try (destruct (Hcs s) as [Ec1 Ec2]; [by left|]; rewrite ?Ec1, ?Ec2);
      try (destruct (Hms s) as [Em1 Em2]; [by left|]; rewrite ?Em1, ?Em2); try done;
      destruct_and?; split_and?; try done; try (by apply Hl; [left|..]); try (by apply Hg; [left|..]).
    all: match goal with H : ∃ _, _ |- _ => destruct H as (ed & ? & ?) end; exists ed;
      rewrite Hes by (by left); split; [done|]; by apply Hl; [left|..].
  - destruct p; cbn in *; auto; rewrite (Hs edge); [done|by apply (Hin sedges_of); left|done|by apply (Hin sedges_of); left].
Qed.
End invariant.
