(* ===== verification/JobGraphStep.v ===== *)
(** * The steps that schedule a job keep the invariant

    One lemma for each place of a goroutine inside acquireJob: the step does
    not panic and leaves [inv]. *)

From S2P Require Import Prelude Pool JobGraph JobGraphSpec JobGraphLists JobGraphTurns JobGraphFeeds JobGraphInv.

(** The projections of the goroutines at hand, computed. *)
Ltac gat :=
  cbn [option_list option_rect app] in *;
  rewrite ?gather_cons in *;
  cbn [calls_of building_of built_of results_of feeds_of linking_of batch_of holds_of tokens_of todo_of arriving_of finishing_of closed_of
       mute_of edges_of sedges_of pending_of app option_list option_rect] in *.

#[local] Set Default Proof Using "All".

Section steps.
Context {PJ PE PG V : Type}.
Context `{!SlotPool PJ job, !SlotPool PE successorEdge, !SlotPool PG signalEdge}.
Context `{!SlotPoolLaws PJ job, !SlotPoolLaws PE successorEdge, !SlotPoolLaws PG signalEdge}.
Implicit Types (sh : shared PJ PE PG V) (t : thread V) (rest ts : list (thread V)).
Implicit Types (L : list link) (G : list arm) (gn : N → N).

(** The bounds a step stays within: room in the pools, and words that count
    neither a job's dependencies nor a slot's jobs to the end. *)
Record bounded sh : Prop := {
  bo_jobs : slots_room (jobs (graph sh));
  bo_edges : slots_room (successorEdges (graph sh));
  bo_sedges : slots_room (signalEdges (graph sh));
  bo_waiting : ∀ i j, job_at sh i = Some j → (waiting j < 2 ^ 31 - 1)%Z;
  bo_generations : ∀ h c a, Scheduled h c a ∈ trace sh → (hgeneration h < 2 ^ 32 - 1)%N
}.

(** [inv] for some edges linked, slots with a job and generations. *)
Definition Inv sh ts : Prop := ∃ L G I gn, inv sh ts L G I gn.

(** The step of [t] does not panic, and what it leaves satisfies [Inv]. *)
Definition keeps sh t rest : Prop :=
  ∃ sh' o, exec sh t = Some (sh', o) ∧ Inv sh' (option_list o ++ rest).

(** ** Stores *)

(** [p] is the jobs of [sh] with [j'] in slot [i]. *)
Record stored sh (p : PJ) (i : N) (j' : job) : Prop := {
  st_at : ∀ k, slots_at p k = if decide (k = i) then Some j' else job_at sh k;
  st_repr : ∀ out, slots_repr (jobs (graph sh)) out → slots_repr p out
}.

Lemma set_job_spec sh out i j j' :
  slots_repr (jobs (graph sh)) out → job_at sh i = Some j →
  ∃ p, set_job sh i j' = Some (with_jobs sh p) ∧ stored sh p i j'.
Proof.
  intros Hr Hj. unfold set_job, job_at in *.
  destruct (slots_set_repr (jobs (graph sh)) out i j' Hr) as (p & E & _); [by exists j|].
  rewrite E. cbn [mbind option_bind]. exists p. split; [done|]. split.
  - intros k. apply (slots_set_at _ _ _ _ _ E).
  - intros out' Hr'. destruct (slots_set_repr (jobs (graph sh)) out' i j' Hr') as (p' & E' & ?); [by exists j|].
    cbn. congruence.
Qed.

(** What a store leaves of a field of the jobs. *)
Lemma stored_word {A} (f : job → A) sh p i j' k :
  stored sh p i j' →
  f <$> slots_at p k = if decide (k = i) then Some (f j') else f <$> job_at sh k.
Proof. intros Hs. rewrite (st_at _ _ _ _ Hs). by case_decide. Qed.

Lemma stored_same {A} (f : job → A) sh p i j j' k :
  stored sh p i j' → job_at sh i = Some j → f j' = f j → f <$> slots_at p k = f <$> job_at sh k.
Proof. intros Hs Hj E. rewrite (stored_word f _ _ _ _ _ Hs). case_decide; [subst; by rewrite Hj, E|done]. Qed.

(** [waiting.Add], within [int32]. *)
Lemma add_waiting_spec sh out i j n :
  slots_repr (jobs (graph sh)) out → job_at sh i = Some j → (-2 ^ 31 <= waiting j + n < 2 ^ 31)%Z →
  ∃ p, add_waiting sh i n = Some (with_jobs sh p, (waiting j + n)%Z) ∧
    stored sh p i (set_waiting j (waiting j + n)).
Proof.
  intros Hr Hj Hn. unfold add_waiting. rewrite Hj. cbn [mbind option_bind]. rewrite i32_small by done.
  destruct (set_job_spec sh out i j (set_waiting j (waiting j + n)) Hr Hj) as (p & -> & ?). by exists p.
Qed.

Lemma inv_slot sh ts L G I gn i :
  inv sh ts L G I gn → i ∈ gather building_of ts ++ I →
  i ≠ NoSlot ∧ (i < 2 ^ 32 - 1)%N ∧ is_Some (job_at sh i).
Proof. intros H Hi. by apply (slots_repr_at _ _ _ (inv_jobs _ _ _ _ _ _ H)). Qed.

Lemma inv_slot_at sh ts L G I gn i : inv sh ts L G I gn → i ∈ I → is_Some (job_at sh i).
Proof. intros H Hi. eapply inv_slot; [done|]. apply elem_of_app. by right. Qed.

Lemma inv_handed sh ts L G I gn i : inv sh ts L G I gn → i ∈ handed sh ts → i ∈ I.
Proof. intros H. apply (tu_arf_sub _ _ _ _ (inv_turns _ _ _ _ _ _ H)). Qed.

Lemma inv_finishing sh ts L G I gn i : inv sh ts L G I gn → i ∈ gather finishing_of ts → i ∈ I.
Proof. intros H Hi. eapply inv_handed; [done|]. unfold handed. rewrite !elem_of_app. auto. Qed.

Lemma inv_held sh ts L G I gn i :
  inv sh ts L G I gn → i ∈ gather linking_of ts ++ gather batch_of ts → i ∈ I.
Proof.
  intros H Hi. apply (tu_tokens _ _ _ _ (inv_turns _ _ _ _ _ _ H)), elem_of_app. left. by apply linking_tokens.
Qed.

Lemma inv_closed sh ts L G I gn i : inv sh ts L G I gn → i ∈ gather closed_of ts → i ∈ I.
Proof. intros H Hi. by eapply inv_finishing, closed_finishing. Qed.

Lemma inv_building sh ts L G I gn i : inv sh ts L G I gn → i ∈ gather building_of ts → i ∉ I.
Proof.
  intros H Hb Hi. pose proof (slots_repr_NoDup _ _ (inv_jobs _ _ _ _ _ _ H)) as Hn.
  apply NoDup_app in Hn as (_ & Hd & _). by destruct (Hd i Hb).
Qed.

(** [inv] speaks of goroutines in no order. *)
Lemma inv_perm sh ts ts' L G I gn : ts ≡ₚ ts' → inv sh ts L G I gn → inv sh ts' L G I gn.
Proof.
  intros Hp [H1 H2 H3 H4 H5 H6 H7 HB HE H8 H9 H10 H11 H12 H13].
  assert (Hg : ∀ (f : thread V → list N), gather f ts ≡ₚ gather f ts') by (intros; by apply gather_perm).
  assert (Haw : ∀ d i, awaits ts L d i ↔ awaits ts' L d i).
  { intros d i. unfold awaits. by rewrite (gather_perm todo_of _ _ Hp). }
  split.
  - eapply slots_repr_perm, H1. by rewrite Hg.
  - eapply slots_repr_perm, H2. by rewrite Hg.
  - eapply slots_repr_perm, H3. by rewrite Hg.
  - eapply lists_ext, H4; [done| |done|done]. intros i. by rewrite Hg.
  - eapply lists_ext, H5; [done| |done|done]. intros i. by rewrite Hg.
  - eapply turns_ext, H6; [done| | |done]; [by rewrite Hg|]. unfold handed. by rewrite !Hg.
  - eapply history_ext, H7; try done; intros i; rewrite ?elem_of_app, ?Hg; done.
  - eapply batches_ext, HB; [apply gather_perm, Hp|apply gather_perm, Hp|done].
  - eapply feeds_ext, HE; try done; [by apply gather_perm|..]; intros x;
      rewrite ?elem_of_app, <- ?(gather_perm feeds_of _ _ Hp), ?Hg, <- ?(gather_perm built_of _ _ Hp),
        <- ?(gather_perm results_of _ _ Hp); done.
  - intros i c a d Hi Hs Hd. rewrite <- Haw. by eapply H8.
  - intros d i. rewrite <- Haw. apply H9.
  - intros c. rewrite <- (gather_perm calls_of _ _ Hp). apply H10.
  - intros h sig. rewrite <- (gather_perm pending_of _ _ Hp). apply H11.
  - intros h sig. rewrite H12. f_equal. by rewrite (gather_perm pending_of _ _ Hp).
  - by rewrite <- Hp.
Qed.

(** ** Building a job *)

(** A word of the slots there were is the same after the pool has grown. *)
Lemma grown_word {A} (f : job → A) sh (pj : PJ) :
  (∀ j x, slots_at (jobs (graph sh)) j = Some x → slots_at pj j = Some x) →
  ∀ i, is_Some (job_at sh i) → f <$> job_at (with_jobs sh pj) i = f <$> job_at sh i.
Proof. intros Hup i [j Hj]. rewrite Hj. unfold job_at in *. cbn. by rewrite (Hup _ _ Hj). Qed.

Lemma grown_lists {X} (ref : X → N) (pred : X → JobHandle) (f : job → N) cell C I gn (L : list X) sh (pj : PJ) :
  f zero_value = 0%N →
  (∀ j x, slots_at (jobs (graph sh)) j = Some x → slots_at pj j = Some x) →
  (∀ j x, slots_at pj j = Some x →
     slots_at (jobs (graph sh)) j = Some x ∨ slots_at (jobs (graph sh)) j = None ∧ x = zero_value) →
  (∀ i, i ∈ I → is_Some (job_at sh i)) → (∀ i, i ∈ C → i ∈ I) →
  lists_ok ref pred (λ i, f <$> job_at sh i) cell C I gn L →
  lists_ok ref pred (λ i, f <$> job_at (with_jobs sh pj) i) cell C I gn L.
Proof.
  intros Hz Hup Hdown Hat HC Hl. eapply lists_grow; [done|..].
  - intros i Hi. destruct (Hat i Hi) as [j ->]. by exists (f j).
  - done.
  - intros i v (j & Hj & ->)%fmap_Some. unfold job_at in *. cbn. by rewrite (Hup _ _ Hj).
  - intros i v (j & Hj & ->)%fmap_Some. unfold job_at in *. cbn in Hj.
    destruct (Hdown i j Hj) as [->|[-> ->]]; [by left|right]. by rewrite Hz.
Qed.

Lemma keeps_NewSlot sh rest b c :
  Inv sh (Acquiring b (NewSlot c) :: rest) → bounded sh → keeps sh (Acquiring b (NewSlot c)) rest.
Proof.
  intros (L & G & I & gn & H) Hb. unfold keeps, exec, exec_acquiring.
  pose proof (λ i, inv_slot _ _ _ _ _ _ i H) as Hslot. pose proof (λ i, inv_slot_at _ _ _ _ _ _ i H) as Hat.
  pose proof (λ i, inv_closed _ _ _ _ _ _ i H) as HC.
  pose proof (λ i, built_building (Acquiring b (NewSlot c) :: rest) i) as Hbuilt.
  destruct H as [H1 H2 H3 H4 H5 H6 H7 HB HE H8 H9 H10 H11 H12 H13]. gat.
  destruct (slots_acquire_repr _ _ H1 (bo_jobs _ Hb)) as (pj & slot & E & Hr & Hup & Hdown).
  rewrite E. cbn [mbind option_bind]. do 2 eexists. split; [done|]. exists L, G, I, gn.
  pose proof (λ A f, grown_word (A := A) f sh pj Hup) as Hw.
  assert (Hclosed : ∀ i, i ∈ gather closed_of rest → is_Some (job_at sh i)) by auto.
  split; gat; try done.
  - by apply grown_lists.
  - apply grown_lists; try done. intros i Hi. by apply HC, mute_closed.
  - eapply turns_ext, H6; [|done..]. intros i Hi. by apply Hw, Hat.
  - eapply feeds_ext, HE; try done. intros i [Hi|Hi]; [by apply Hw, Hat|]. gat.
    destruct (Hslot i) as (_ & _ & ?); [apply elem_of_app; left; by apply Hbuilt|]. by apply Hw.
  - apply Forall_cons in H13 as [_ H13]. constructor; [done|]. eapply phases_frame, H13; try done.
    + intros i Hi. destruct (Hslot i) as (_ & _ & ?); [apply elem_of_app; by left|]. split; by apply Hw.
    + intros i Hi. split; [by apply Hw, Hclosed|done].
    + intros i Hi. split; [by apply Hw, Hclosed, mute_closed|done].
Qed.

(** A slot being built is no job's, and no other goroutine builds it. *)
Lemma building_apart sh t rest L G I gn slot :
  inv sh (t :: rest) L G I gn → building_of t = [slot] →
  (slot ∉ I) ∧ (slot ∉ gather closed_of (t :: rest)) ∧ (slot ∉ gather mute_of (t :: rest)) ∧
  (slot ∉ gather building_of rest).
Proof.
  intros H Ht. assert (HI : slot ∉ I).
  { eapply inv_building; [done|]. rewrite gather_cons, Ht. by left. }
  assert (HC : slot ∉ gather closed_of (t :: rest)) by (intros Hc; by eapply HI, inv_closed).
  split_and!; [done|done|by intros Hm; apply HC, mute_closed|].
  pose proof (slots_repr_NoDup _ _ (inv_jobs _ _ _ _ _ _ H)) as Hn.
  rewrite gather_cons, Ht in Hn. apply NoDup_cons in Hn as [Hn _]. rewrite elem_of_app in Hn. tauto.
Qed.

(** A store into slot [i] is nothing to goroutines that neither build a job in
    it nor have closed its lists. *)
Lemma phases_store sh p i j' L G gn ts :
  stored sh p i j' → (i ∉ gather building_of ts) → (i ∉ gather closed_of ts) →
  Forall (phase sh gn L G) ts → Forall (phase (with_jobs sh p) gn L G) ts.
Proof.
  intros Hs Hb Hc. assert (Hk : ∀ {A} (f : job → A) k, k ≠ i → f <$> slots_at p k = f <$> job_at sh k).
  { intros A f k Hki. by rewrite (stored_word f _ _ _ _ _ Hs), decide_False. }
  apply phases_frame; try done; intros k Hki; split; try done; apply Hk; intros ->; try done.
  by apply Hc, mute_closed.
Qed.

(** Nor is it to args, if it leaves the task and the arg of the job. *)
Lemma feeds_store sh p i j j' (tr : list (event V)) ar calls linking F fin built results I gn :
  stored sh p i j' → job_at sh i = Some j → task j' = task j → arg j' = arg j →
  feeds_ok tr ar (task_arg sh) calls linking F fin built results I gn →
  feeds_ok tr ar (task_arg (with_jobs sh p)) calls linking F fin built results I gn.
Proof.
  intros Hs Hj Et Ea. apply feeds_ext; try done. intros k _.
  apply (stored_same (λ x, (task x, arg x)) _ _ _ _ _ k Hs Hj). by rewrite Et, Ea.
Qed.

Lemma keeps_LoadGeneration sh rest b c slot :
  Inv sh (Acquiring b (LoadGeneration c slot) :: rest) → bounded sh →
  keeps sh (Acquiring b (LoadGeneration c slot)) rest.
Proof.
  intros (L & G & I & gn & H) Hb. unfold keeps, exec, exec_acquiring.
  destruct (inv_slot _ _ _ _ _ _ slot H) as (_ & _ & [j Hj]); [by left|].
  destruct (building_apart _ _ _ _ _ _ _ slot H eq_refl) as (HI & HC & HM & HX).
  destruct H as [H1 H2 H3 H4 H5 H6 H7 HB HE H8 H9 H10 H11 H12 H13]. gat.
  rewrite Hj. cbn [mbind option_bind].
  destruct (set_job_spec _ _ _ _ (set_task j (ctask c) (carg c)) H1 Hj) as (p & -> & Hs).
  do 2 eexists. split; [done|]. exists L, G, I, gn.
  pose proof (λ k, stored_same successors _ _ _ _ _ k Hs Hj eq_refl) as Es.
  pose proof (λ k, stored_same signals _ _ _ _ _ k Hs Hj eq_refl) as Eg.
  pose proof (λ k, stored_same waiting _ _ _ _ _ k Hs Hj eq_refl) as Ew.
  split; gat; try done.
  - by apply (st_repr _ _ _ _ Hs).
  - eapply lists_ext, H4; [apply Es|done..].
  - eapply lists_ext, H5; [apply Eg|done..].
  - eapply turns_ext, H6; [intros; apply Ew|done..].
  - eapply feeds_load; [exact HE|done|by intros Hx%built_building|].
    intros i. apply (stored_word (λ x, (task x, arg x)) _ _ _ _ i Hs).
  - apply Forall_cons in H13 as [_ H13]. constructor; [|by eapply phases_store].
    eapply lo_gen; [exact H4|unfold succ_word; by rewrite Hj|done].
Qed.

Lemma keeps_OpenSuccessors sh rest b c slot g :
  Inv sh (Acquiring b (OpenSuccessors c slot g) :: rest) → bounded sh →
  keeps sh (Acquiring b (OpenSuccessors c slot g)) rest.
Proof.
  intros (L & G & I & gn & H) Hb. unfold keeps, exec, exec_acquiring.
  destruct (inv_slot _ _ _ _ _ _ slot H) as (_ & _ & [j Hj]); [by left|].
  destruct (building_apart _ _ _ _ _ _ _ slot H eq_refl) as (HI & HC & HM & HX).
  destruct H as [H1 H2 H3 H4 H5 H6 H7 HB HE H8 H9 H10 H11 H12 H13]. gat.
  apply Forall_cons in H13 as [Hph H13]. cbn in Hph. subst g.
  rewrite Hj. cbn [mbind option_bind].
  destruct (set_job_spec _ _ _ _ (set_successors j (packList (gn slot) NoSlot)) H1 Hj) as (p & -> & Hs).
  do 2 eexists. split; [done|]. exists L, G, I, gn.
  pose proof (λ k, stored_word successors _ _ _ _ k Hs) as Es.
  pose proof (λ k, stored_same signals _ _ _ _ _ k Hs Hj eq_refl) as Eg.
  pose proof (λ k, stored_same waiting _ _ _ _ _ k Hs Hj eq_refl) as Ew.
  assert (Hg : (gn slot < 2 ^ 32)%N).
  { erewrite <- (lo_gen _ _ _ _ _ _ _ _ H4 slot); [apply word_gen_bound|unfold succ_word; by rewrite Hj|done]. }
  split; gat; try done.
  - by apply (st_repr _ _ _ _ Hs).
  - eapply lists_open; [done|done|done| |exact Es]. unfold succ_word. rewrite Hj. by eexists.
  - eapply lists_ext, H5; [apply Eg|done..].
  - eapply turns_ext, H6; [intros; apply Ew|done..].
  - by eapply feeds_store.
  - constructor.
    + cbn. split; [done|]. unfold head_is, succ_word, job_at. cbn. rewrite Es, decide_True by done.
      cbn. by rewrite word_head_pack.
    + by eapply phases_store.
Qed.

Lemma keeps_OpenSignals sh rest b c slot g :
  Inv sh (Acquiring b (OpenSignals c slot g) :: rest) → bounded sh →
  keeps sh (Acquiring b (OpenSignals c slot g)) rest.
Proof.
  intros (L & G & I & gn & H) Hb. unfold keeps, exec, exec_acquiring.
  destruct (inv_slot _ _ _ _ _ _ slot H) as (_ & _ & [j Hj]); [by left|].
  destruct (building_apart _ _ _ _ _ _ _ slot H eq_refl) as (HI & HC & HM & HX).
  destruct H as [H1 H2 H3 H4 H5 H6 H7 HB HE H8 H9 H10 H11 H12 H13]. gat.
  apply Forall_cons in H13 as [[-> Hhead] H13].
  rewrite Hj. cbn [mbind option_bind].
  destruct (set_job_spec _ _ _ _ (set_signals j (packList (gn slot) NoSlot)) H1 Hj) as (p & -> & Hs).
  do 2 eexists. split; [done|]. exists L, G, I, gn.
  pose proof (λ k, stored_same successors _ _ _ _ _ k Hs Hj eq_refl) as Es.
  pose proof (λ k, stored_word signals _ _ _ _ k Hs) as Eg.
  pose proof (λ k, stored_same waiting _ _ _ _ _ k Hs Hj eq_refl) as Ew.
  assert (Hg : (gn slot < 2 ^ 32)%N).
  { erewrite <- (lo_gen _ _ _ _ _ _ _ _ H5 slot); [apply word_gen_bound|unfold sig_word; by rewrite Hj|done]. }
  split; gat; try done.
  - by apply (st_repr _ _ _ _ Hs).
  - eapply lists_ext, H4; [apply Es|done..].
  - eapply lists_open; [done|done|done| |exact Eg]. unfold sig_word. rewrite Hj. by eexists.
  - eapply turns_ext, H6; [intros; apply Ew|done..].
  - by eapply feeds_store.
  - constructor; [|by eapply phases_store]. cbn. split_and!; [done| |].
    + unfold head_is, succ_word, job_at in *. cbn. by rewrite Es.
    + unfold head_is, sig_word, job_at. cbn. rewrite Eg, decide_True by done. cbn. by rewrite word_head_pack.
Qed.

(** Facts about the trace stay when it grows. *)
Lemma known_calls (e : event V) tr (cs : list (asked V)) :
  (∀ c : asked V, c ∈ cs → Forall (known tr) (deps_of c)) → ∀ c : asked V, c ∈ cs → Forall (known (e :: tr)) (deps_of c).
Proof. intros H c Hc. eapply Forall_impl; [by apply H|]. intros d. apply known_mono. Qed.

Lemma keeps_StoreHold sh rest b c slot g :
  Inv sh (Acquiring b (StoreHold c slot g) :: rest) → bounded sh →
  keeps sh (Acquiring b (StoreHold c slot g)) rest.
Proof.
  intros (L & G & I & gn & H) Hb. unfold keeps, exec, exec_acquiring.
  destruct (inv_slot _ _ _ _ _ _ slot H) as (H0 & _ & [j Hj]); [by left|].
  destruct (building_apart _ _ _ _ _ _ _ slot H eq_refl) as (HI & HC & HM & HX).
  pose proof (λ i, inv_held _ _ _ _ _ _ i H) as Hheld.
  assert (Hsub : ∀ i, i ∈ gather closed_of (Acquiring b (StoreHold c slot g) :: rest) ++ running sh ++
    gather finishing_of (Acquiring b (StoreHold c slot g) :: rest) → i ∈ I).
  { intros i [?|Hi]%elem_of_app; [by eapply inv_closed|]. eapply inv_handed; [done|].
    unfold handed. set_solver. }
  destruct H as [H1 H2 H3 H4 H5 H6 H7 HB HE H8 H9 H10 H11 H12 H13]. gat.
  apply Forall_cons in H13 as [(-> & Hs1 & Hs2) H13].
  rewrite Hj. cbn [mbind option_bind].
  destruct (set_job_spec _ _ _ _ (set_waiting j 1) H1 Hj) as (p & -> & Hs).
  do 2 eexists. split; [done|]. set (e := Scheduled _ _ _). exists L, G, (slot :: I), gn.
  pose proof (λ k, stored_same successors _ _ _ _ _ k Hs Hj eq_refl) as Es.
  pose proof (λ k, stored_same signals _ _ _ _ _ k Hs Hj eq_refl) as Eg.
  pose proof (λ k, stored_word waiting _ _ _ _ k Hs) as Ew.
  pose proof (λ P, history_fresh _ _ _ _ _ _ _ slot P H7 HI) as Hfresh.
  split; gat.
  - eapply slots_repr_perm; [|by apply (st_repr _ _ _ _ Hs)]. by rewrite Permutation_middle.
  - done.
  - done.
  - apply lists_admit; [eapply lists_ext, H4; [apply Es|done..]|done|].
    intros v Hv. unfold head_is, succ_word in Hs1. rewrite <- Es in Hs1.
    unfold succ_word, job_at in Hv. cbn in Hv. rewrite Hv in Hs1. by injection Hs1.
  - apply lists_admit; [eapply lists_ext, H5; [apply Eg|done..]|done|].
    intros v Hv. unfold head_is, sig_word in Hs2. rewrite <- Eg in Hs2.
    unfold sig_word, job_at in Hv. cbn in Hv. rewrite Hv in Hs2. by injection Hs2.
  - eapply turns_admit; [exact H6|done|exact Ew].
  - apply history_schedule; [done|done|done| |done]. apply H10. by left.
  - apply batches_schedule; [by apply batches_log| |].
    + intros Hin. by apply HI, Hheld.
    + intros [?|Ha]%elem_of_cons; [done|]. apply Hfresh. left. apply legal_answered; [|done]. by eapply hi_legal.
  - eapply feeds_store; [exact Hs|exact Hj|done..|]. eapply feeds_schedule; [exact HE|done|by eapply hi_legal| | |].
    + intros i Hi. apply Hsub. rewrite !elem_of_app. auto.
    + intros c' a' Hx. apply Hfresh. eauto.
    + intros [d i]. rewrite !elem_of_app, elem_of_feeding, dependencies_feeds. naive_solver.
  - intros i c' a d [->|Hi]%elem_of_cons Hin Hd.
    + apply elem_of_cons in Hin as [Hin|Hin]; [|apply Hfresh; eauto]. injection Hin as -> _.
      right. right. gat. apply elem_of_app. left. apply elem_of_todo. by rewrite dependencies_deps.
    + apply elem_of_cons in Hin as [Hin|Hin]; [injection Hin as -> _ _; done|].
      destruct (H8 i c' a d Hi Hin Hd) as [?|[?|?]]; [left; by apply over_mono|right; by left|].
      right. right. gat. apply elem_of_app. by right.
  - intros d i [Hl|Hl].
    + destruct (H9 d i) as (c' & a' & ? & ?); [by left|]. exists c', a'. split; [by right|done].
    + gat. apply elem_of_app in Hl as [[-> Hl]%elem_of_todo|Hl].
      * exists c, (given c). rewrite <- dependencies_deps. split; [by left|done].
      * destruct (H9 d i) as (c' & a' & ? & ?); [by right|]. exists c', a'. split; [by right|done].
  - intros c' Hc. eapply known_calls; [|exact Hc]. intros c2 Hc2. apply H10. by right.
  - intros h sig Hp. apply known_mono. by eapply H11.
  - intros h sig. cbn [trace with_jobs with_graph log]. rewrite armings_cons, sendings_cons. apply H12.
  - constructor; [done|]. eapply phases_frame; [..|eapply phases_store, H13; done]; try done.
    intros h. apply over_mono.
Qed.
End steps.
