(* ===== verification/JobGraphLink.v ===== *)
(** * Linking a job to those it depends on keeps the invariant

    One lemma for each place of a goroutine inside addSuccessor. *)

From S2P Require Import Prelude Pool JobGraph JobGraphSpec JobGraphLists JobGraphTurns JobGraphFeeds JobGraphInv JobGraphStep.

#[local] Set Default Proof Using "All".

Section links.
Context {PJ PE PG V : Type}.
Context `{!SlotPool PJ job, !SlotPool PE successorEdge, !SlotPool PG signalEdge}.
Context `{!SlotPoolLaws PJ job, !SlotPoolLaws PE successorEdge, !SlotPoolLaws PG signalEdge}.
Implicit Types (sh : shared PJ PE PG V) (t : thread V) (rest ts : list (thread V)).
Implicit Types (L : list link) (G : list arm) (gn : N → N).

(** What the dependencies of the jobs in [I] come to. *)
Definition deps_ok (tr : list (event V)) ts L (I : list N) gn : Prop :=
  ∀ i c a d, i ∈ I → Scheduled (mkHandle i (gn i)) c a ∈ tr → d ∈ deps_of c → over tr d ∨ awaits ts L d i.

Definition awaits_ok (tr : list (event V)) ts L gn : Prop :=
  ∀ d i, awaits ts L d i → ∃ c a, Scheduled (mkHandle i (gn i)) c a ∈ tr ∧ d ∈ deps_of c.

Lemma deps_log (e : event V) tr ts L I gn :
  (∀ h c a, e ≠ Scheduled h c a) → deps_ok tr ts L I gn → deps_ok (e :: tr) ts L I gn.
Proof.
  intros He H i c a d Hi [E|Hs]%elem_of_cons Hd; [by destruct (He _ _ _ (eq_sym E))|].
  destruct (H i c a d Hi Hs Hd); [left; by apply over_mono|by right].
Qed.

Lemma awaits_log (e : event V) tr ts L gn : awaits_ok tr ts L gn → awaits_ok (e :: tr) ts L gn.
Proof. intros H d i Ha. destruct (H d i Ha) as (c & a & ? & ?). exists c, a. split; [by right|done]. Qed.

Lemma deps_awaits tr ts ts' L L' I gn :
  (∀ d i, awaits ts L d i → over tr d ∨ awaits ts' L' d i) → deps_ok tr ts L I gn → deps_ok tr ts' L' I gn.
Proof. intros Ha H i c a d Hi Hs Hd. destruct (H i c a d Hi Hs Hd); [by left|by apply Ha]. Qed.

Lemma awaits_sub tr ts ts' L L' gn :
  (∀ d i, awaits ts' L' d i → awaits ts L d i) → awaits_ok tr ts L gn → awaits_ok tr ts' L' gn.
Proof. intros Ha H d i Hd. by apply H, Ha. Qed.

(** A job with a token has not been handed on, and takes links. *)
Lemma inv_token sh ts L G I gn i :
  inv sh ts L G I gn → i ∈ gather tokens_of ts ++ (lsucc <$> L) →
  i ∈ I ∧ (i ∉ handed sh ts) ∧ (i ∉ gather closed_of ts).
Proof.
  intros H Hi. pose proof (inv_turns _ _ _ _ _ _ H) as Ht.
  assert (HI : i ∈ I) by by eapply tu_tokens.
  assert (Hh : i ∉ handed sh ts) by (rewrite (tu_arf _ _ _ _ Ht); [by intros []|done]).
  split_and!; [done|done|]. intros Hc. apply Hh. unfold handed. rewrite !elem_of_app.
  right. right. by apply closed_finishing.
Qed.

(** [handle] answers the handle of the job a slot has. *)
Lemma inv_handle sh ts L G I gn i :
  inv sh ts L G I gn → i ∈ I → i ∉ gather closed_of ts → handle sh i = Some (mkHandle i (gn i)).
Proof.
  intros H Hi Hc. destruct (inv_slot_at _ _ _ _ _ _ i H Hi) as [j Hj]. unfold handle. rewrite Hj. cbn [mbind option_bind].
  do 2 f_equal. eapply (lo_gen _ _ _ _ _ _ _ _ (inv_succs _ _ _ _ _ _ H)); [|done].
  unfold succ_word. by rewrite Hj.
Qed.

Lemma keeps_answer sh rest b slot :
  Inv sh (Acquiring b (AddSuccessor slot []) :: rest) → keeps sh (Acquiring b (AddSuccessor slot [])) rest.
Proof.
  intros (L & G & I & gn & H). unfold keeps, exec, exec_acquiring.
  destruct (inv_token _ _ _ _ _ _ slot H) as (HI & Hh & HC); [by left|].
  rewrite (inv_handle _ _ _ _ _ _ slot H HI HC). cbn [mbind option_bind].
  do 2 eexists. split; [done|]. set (e := Answered _). exists L, G, I, gn.
  destruct H as [H1 H2 H3 H4 H5 H6 H7 HB HE H8 H9 H10 H11 H12 H13]. gat.
  pose proof (hi_legal _ _ _ _ _ _ _ H7) as Hl.
  destruct (hi_live _ _ _ _ _ _ _ H7 slot HI) as (c & a & Hs).
  assert (Hl' : legal (e :: trace sh)) by (apply (legal_Answered _ _ c a); [done|done|]; eapply ba_linking; [done|by left]).
  split; gat; try done.
  - eapply turns_ext, H6; try done. solve_Permutation.
  - eapply history_log; [|by intros []|done]. eapply history_ext, H7; try done. set_solver.
  - eapply batches_ext, batches_answer, Hl; [done| |done|exact HB]. solve_Permutation.
  - eapply feeds_answer; [exact HE|]. intros i Hi. by apply elem_of_cons in Hi.
  - by apply deps_log.
  - by apply awaits_log.
  - eapply known_calls, H10.
  - intros h sig Hp. apply known_mono. by eapply H11.
  - apply Forall_cons in H13 as [_ H13]. constructor; [done|]. eapply phases_frame, H13; try done.
    intros h. apply over_mono.
Qed.

Lemma inv_known sh ts L G I gn d i : inv sh ts L G I gn → awaits ts L d i → known (trace sh) d.
Proof.
  intros H Hd. destruct (inv_awaits _ _ _ _ _ _ H d i Hd) as (c & a & Hs & Hin).
  eapply legal_known_deps; [by eapply hi_legal, inv_history|done|done].
Qed.

(** The slot a known handle names is there. *)
Lemma inv_known_slot sh ts L G I gn d :
  inv sh ts L G I gn → known (trace sh) d → hslot d ≠ NoSlot → is_Some (job_at sh (hslot d)) ∧ past (trace sh) I gn d.
Proof.
  intros H Hk H0. pose proof (history_known _ _ _ _ _ _ _ d (inv_history _ _ _ _ _ _ H) Hk H0) as Hp.
  split; [|done]. destruct Hp as [[Hlt _]|[_ Hi]]; [|by eapply inv_slot_at].
  destruct (job_at sh (hslot d)) eqn:E; [done|].
  rewrite (lo_fresh _ _ _ _ _ _ _ _ (inv_succs _ _ _ _ _ _ H) (hslot d)) in Hlt; [lia|].
  unfold succ_word. by rewrite E.
Qed.

(** A job that takes no links has finished. *)
Lemma inv_refused sh ts L G I gn d :
  inv sh ts L G I gn → past (trace sh) I gn d →
  (hgeneration d < gn (hslot d))%N ∨ hslot d ∈ gather closed_of ts → over (trace sh) d.
Proof.
  intros H [[_ ?]|[Eg Hi]] [|Hc]; try (by right); [lia|]. right.
  apply (hi_finished _ _ _ _ _ _ _ (inv_history _ _ _ _ _ _ H)) in Hc as [r ?]; [|done].
  exists r. rewrite <- Eg in *. by destruct d.
Qed.

(** One dependency less is to feed. *)
Lemma feeding_cons slot (d : JobHandle) f (todo : list (JobHandle * bool)) (l l' : list (JobHandle * N)) :
  (∀ x, x ∈ (feeding slot ((d, f) :: todo) ++ l) ++ l' → x = (d, slot) ∨ x ∈ (feeding slot todo ++ l) ++ l') ∧
  (∀ x, x ∈ (feeding slot todo ++ l) ++ l' → x ∈ (feeding slot ((d, f) :: todo) ++ l) ++ l').
Proof.
  split; intros [d' i]; rewrite !elem_of_app, !elem_of_feeding, !elem_of_cons; naive_solver.
Qed.

Lemma keeps_skip sh rest b slot d f todo :
  Inv sh (Acquiring b (AddSuccessor slot ((d, f) :: todo)) :: rest) → hslot d = NoSlot →
  keeps sh (Acquiring b (AddSuccessor slot ((d, f) :: todo))) rest.
Proof.
  intros (L & G & I & gn & H) Hd. unfold keeps, exec, exec_acquiring. rewrite decide_True by done.
  do 2 eexists. split; [done|]. exists L, G, I, gn.
  destruct H as [H1 H2 H3 H4 H5 H6 H7 HB HE H8 H9 H10 H11 H12 H13]. gat. split; gat; try done.
  - eapply (feeds_drop _ _ _ _ _ _ _ _ _ _ _ _ d slot); [exact HE|by left|by left|apply feeding_cons..].
  - refine (deps_awaits _ _ _ _ _ _ _ _ H8). intros d' i [?|Ha]; [right; by left|]. gat. cbn in Ha.
    apply elem_of_cons in Ha as [[= -> ->]|Ha]; [left; by left|right; by right].
  - refine (awaits_sub _ _ _ _ _ _ _ H9). intros d' i [?|Ha]; [by left|right]. gat. cbn. by right.
  - apply Forall_cons in H13 as [_ ?]. by constructor.
Qed.

Lemma keeps_raise sh rest b slot d f todo :
  Inv sh (Acquiring b (AddSuccessor slot ((d, f) :: todo)) :: rest) → bounded sh → hslot d ≠ NoSlot →
  keeps sh (Acquiring b (AddSuccessor slot ((d, f) :: todo))) rest.
Proof.
  intros (L & G & I & gn & H) Hb Hd. unfold keeps, exec, exec_acquiring. rewrite decide_False by done.
  destruct (inv_token _ _ _ _ _ _ slot H) as (HI & Hh & HC); [by left|].
  destruct (inv_slot_at _ _ _ _ _ _ slot H HI) as [j Hj].
  assert (HX : slot ∉ gather building_of rest) by (intros Hx; by eapply inv_building).
  assert (Hn : (0 <= waiting j)%Z).
  { rewrite (tu_count _ _ _ _ (inv_turns _ _ _ _ _ _ H) slot (waiting j)); [lia| |done].
    unfold wait_count. by rewrite Hj. }
  destruct H as [H1 H2 H3 H4 H5 H6 H7 HB HE H8 H9 H10 H11 H12 H13]. gat.
  pose proof (bo_waiting _ Hb slot j Hj) as Hw.
  destruct (add_waiting_spec _ _ _ _ 1 H1 Hj) as (p & -> & Hs); [lia|]. cbn [mbind option_bind].
  do 2 eexists. split; [done|]. exists L, G, I, gn.
  pose proof (λ k, stored_same successors _ _ _ _ _ k Hs Hj eq_refl) as Es.
  pose proof (λ k, stored_same signals _ _ _ _ _ k Hs Hj eq_refl) as Eg.
  pose proof (λ k, stored_word waiting _ _ _ _ k Hs) as Ew.
  split; gat; try done.
  - by apply (st_repr _ _ _ _ Hs).
  - eapply lists_ext, H4; [apply Es|done..].
  - eapply lists_ext, H5; [apply Eg|done..].
  - eapply (turns_raise _ _ _ _ _ slot); [exact H6|by left|unfold wait_count; by rewrite Hj|exact Ew].
  - by eapply feeds_store.
  - apply Forall_cons in H13 as [_ H13]. constructor; [done|]. by eapply phases_store.
Qed.

(** ** Successor edges *)

(** Writing edges that are neither linked nor held by the other goroutines is
    nothing to them. *)
Lemma phases_edges sh pe L G gn ts :
  (∀ e, e ∈ (ledge <$> L) ++ gather edges_of ts → slots_at pe e = edge_at sh e) →
  Forall (phase sh gn L G) ts → Forall (phase (with_edges sh pe) gn L G) ts.
Proof.
  intros He. apply phases_frame; try done.
  - intros e Hi. apply He, elem_of_app. by right.
  - intros x nxt Hx. unfold succ_cell, edge_at. cbn. rewrite He; [done|].
    apply elem_of_app. left. by apply list_elem_of_fmap_2.
Qed.

Lemma lists_edges sh pe C I gn L :
  (∀ e, e ∈ (ledge <$> L) → slots_at pe e = edge_at sh e) →
  lists_ok ledge lpred (succ_word sh) (succ_cell sh) C I gn L →
  lists_ok ledge lpred (succ_word (with_edges sh pe)) (succ_cell (with_edges sh pe)) C I gn L.
Proof.
  intros He. apply lists_ext; try done. intros x nxt Hx. unfold succ_cell, edge_at. cbn.
  rewrite He; [done|by apply list_elem_of_fmap_2].
Qed.

Lemma keeps_TakeEdge sh rest b slot d f todo :
  Inv sh (Acquiring b (TakeEdge slot d f todo) :: rest) → bounded sh →
  keeps sh (Acquiring b (TakeEdge slot d f todo)) rest.
Proof.
  intros (L & G & I & gn & H) Hb. unfold keeps, exec, exec_acquiring.
  destruct H as [H1 H2 H3 H4 H5 H6 H7 HB HE H8 H9 H10 H11 H12 H13]. gat.
  destruct (slots_take _ _ (mkSuccessorEdge NoSlot slot f) H2 (bo_edges _ Hb))
    as (p1 & pe & e & -> & -> & Hr & He & Hk). cbn [mbind option_bind].
  do 2 eexists. split; [done|]. exists L, G, I, gn. apply Forall_cons in H13 as [Hph H13].
  split; gat; try done.
  - eapply slots_repr_perm, Hr. solve_Permutation.
  - apply lists_edges; [|done]. intros e' He'. apply Hk, elem_of_app. by left.
  - constructor; [|by apply phases_edges]. split; [exact Hph|by exists NoSlot].
Qed.

(** The edge a goroutine is linking, apart from those linked and the others'. *)
Lemma inv_edge sh t rest L G I gn e :
  inv sh (t :: rest) L G I gn → edges_of t = [e] →
  slots_repr (successorEdges (graph sh)) (e :: (ledge <$> L) ++ gather edges_of rest).
Proof.
  intros H Ht. eapply slots_repr_perm, inv_edges, H. rewrite gather_cons, Ht. solve_Permutation.
Qed.

Lemma keeps_LinkLoad sh rest b slot d f e todo :
  Inv sh (Acquiring b (LinkLoad slot d f e todo) :: rest) →
  keeps sh (Acquiring b (LinkLoad slot d f e todo)) rest.
Proof.
  intros (L & G & I & gn & H). unfold keeps, exec, exec_acquiring.
  assert (Hk : known (trace sh) d) by (eapply (inv_known _ _ _ _ _ _ _ slot); [done|right; by left]).
  assert (Hph : hslot d ≠ NoSlot ∧ ∃ nxt, edge_at sh e = Some (mkSuccessorEdge nxt slot f)).
  { by apply inv_phase, Forall_cons in H as [? _]. }
  destruct Hph as (H0 & nxt & He). destruct (inv_known_slot _ _ _ _ _ _ d H Hk H0) as [[j Hj] Hpast].
  rewrite Hj. cbn [mbind option_bind].
  assert (Hv : succ_word sh (hslot d) = Some (successors j)) by (unfold succ_word; by rewrite Hj).
  assert (Hd : (hgeneration d < gn (hslot d))%N ∨ hgeneration d = gn (hslot d) ∧ hslot d ∈ I) by (destruct Hpast; tauto).
  pose proof (lists_refuses _ _ _ _ _ _ _ _ d _ (inv_succs _ _ _ _ _ _ H) Hv Hd) as Href.
  pose proof (inv_edge _ _ _ _ _ _ _ e H eq_refl) as Hre. destruct (link_refuses _ _) eqn:E.
  - assert (Hov : over (trace sh) d) by (eapply inv_refused; [done|done|tauto]).
    do 2 eexists. split; [done|]. exists L, G, I, gn.
    destruct H as [H1 H2 H3 H4 H5 H6 H7 HB HE H8 H9 H10 H11 H12 H13]. gat. split; gat; try done.
    + eapply (feeds_drop _ _ _ _ _ _ _ _ _ _ _ _ d slot); [exact HE|by left|done|apply feeding_cons..].
    + refine (deps_awaits _ _ _ _ _ _ _ _ H8). intros d' i [?|Ha]; [right; by left|]. gat.
      apply elem_of_cons in Ha as [[= -> ->]|Ha]; [by left|right; by right].
    + refine (awaits_sub _ _ _ _ _ _ _ H9). intros d' i [?|Ha]; [by left|right]. gat. by right.
    + apply Forall_cons in H13 as [_ ?]. by constructor.
  - unfold edge_at in He. rewrite He. cbn [mbind option_bind].
    destruct (slots_put _ _ _ (mkSuccessorEdge (word_head (successors j)) slot f) Hre) as (pe & Ep & Hr & Hat & Hkeep).
    cbn [successor feedsResult]. unfold word_head in Ep. rewrite Ep. cbn [mbind option_bind].
    do 2 eexists. split; [done|]. exists L, G, I, gn.
    destruct H as [H1 H2 H3 H4 H5 H6 H7 HB HE H8 H9 H10 H11 H12 H13]. gat. split; gat; try done.
    + eapply slots_repr_perm, Hr. solve_Permutation.
    + apply lists_edges; [|done]. intros e' He'. apply Hkeep, elem_of_app. by left.
    + apply Forall_cons in H13 as [_ H13]. constructor; [|by apply phases_edges]. done.
Qed.

Lemma link_awaits b slot d f e old todo rest L d' i :
  awaits (Acquiring (V := V) b (LinkSwap slot d f e old todo) :: rest) L d' i ↔
  awaits (Acquiring b (AddSuccessor slot todo) :: rest) (mkLink e d slot f :: L) d' i.
Proof.
  unfold awaits. gat. cbn. rewrite elem_of_cons. split.
  - intros [(x & Hx & ? & ?)|[[= -> ->]|?]]; [left; exists x; split; [by right|done]| |by right].
    left. exists (mkLink e d slot f). split; [by left|done].
  - intros [(x & [->|Hx]%elem_of_cons & <- & <-)|?]; [right; by left|left; by exists x|auto].
Qed.

Lemma link_feeds slot d f e (todo : list (JobHandle * bool)) (l : list (JobHandle * N)) L x :
  x ∈ (feeding slot todo ++ l) ++ fed_links (mkLink e d slot f :: L) ↔
  x ∈ (feeding slot ((d, f) :: todo) ++ l) ++ fed_links L.
Proof.
  destruct x as [d' i]. unfold fed_links. rewrite filter_cons. cbn [lfeeds]. destruct f; cbn [fmap].
  - rewrite decide_True by done. rewrite fmap_cons, !elem_of_app, !elem_of_feeding, !elem_of_cons. naive_solver.
  - rewrite decide_False by done. rewrite !elem_of_app, !elem_of_feeding, !elem_of_cons. naive_solver.
Qed.

Lemma keeps_LinkSwap sh rest b slot d f e old todo :
  Inv sh (Acquiring b (LinkSwap slot d f e old todo) :: rest) →
  keeps sh (Acquiring b (LinkSwap slot d f e old todo)) rest.
Proof.
  intros (L & G & I & gn & H). unfold keeps, exec, exec_acquiring.
  assert (Hk : known (trace sh) d) by (eapply (inv_known _ _ _ _ _ _ _ slot); [done|right; by left]).
  assert (Hph : hslot d ≠ NoSlot ∧ edge_at sh e = Some (mkSuccessorEdge (word_head old) slot f) ∧
    link_refuses old (hgeneration d) = false) by (by apply inv_phase, Forall_cons in H as [? _]).
  destruct Hph as (H0 & He & Href0). destruct (inv_known_slot _ _ _ _ _ _ d H Hk H0) as [[j Hj] Hpast].
  rewrite Hj. cbn [mbind option_bind].
  assert (Hv : succ_word sh (hslot d) = Some (successors j)) by (unfold succ_word; by rewrite Hj).
  case_decide as E.
  2: { do 2 eexists. split; [done|]. exists L, G, I, gn.
       destruct H as [H1 H2 H3 H4 H5 H6 H7 HB HE H8 H9 H10 H11 H12 H13]. gat. split; gat; try done.
       apply Forall_cons in H13 as [_ ?]. constructor; [|done]. split; [done|]. by eexists. }
  assert (Hd : (hgeneration d < gn (hslot d))%N ∨ hgeneration d = gn (hslot d) ∧ hslot d ∈ I) by (destruct Hpast; tauto).
  pose proof (lists_refuses _ _ _ _ _ _ _ _ d _ (inv_succs _ _ _ _ _ _ H) Hv Hd) as Href.
  rewrite E, Href0 in Href. destruct Href as (Eg & HI & HC).
  destruct (slots_repr_at _ _ e (inv_edge _ _ _ _ _ _ _ e H eq_refl)) as (He0 & Heb & _); [by left|].
  assert (HX : hslot d ∉ gather building_of rest).
  { intros Hx. eapply inv_building; [done| |exact HI]. by gat. }
  destruct H as [H1 H2 H3 H4 H5 H6 H7 HB HE H8 H9 H10 H11 H12 H13]. gat.
  destruct (set_job_spec _ _ _ _ (set_successors j (packList (hgeneration d) e)) H1 Hj) as (p & -> & Hs).
  cbn [mbind option_bind]. do 2 eexists. split; [done|]. exists (mkLink e d slot f :: L), G, I, gn.
  pose proof (λ k, stored_word successors _ _ _ _ k Hs) as Es.
  pose proof (λ k, stored_same signals _ _ _ _ _ k Hs Hj eq_refl) as Eg'.
  pose proof (λ k, stored_same waiting _ _ _ _ _ k Hs Hj eq_refl) as Ew.
  split; gat; try done.
  - by apply (st_repr _ _ _ _ Hs).
  - eapply slots_repr_perm, H2. cbn. solve_Permutation.
  - eapply (lists_push _ _ (succ_word sh)) with (v := old); cbn [lpred ledge lsucc lfeeds]; try done.
    by rewrite <- E.
  - eapply lists_ext, H5; [apply Eg'|done..].
  - eapply turns_ext, H6; [intros; apply Ew| |done..]. cbn. solve_Permutation.
  - eapply feeds_store; [exact Hs|exact Hj|done..|]. eapply feeds_ext, HE; try done. apply link_feeds.
  - refine (deps_awaits _ _ _ _ _ _ _ _ H8). intros d' i Ha. right. by apply (link_awaits b slot d f e old).
  - refine (awaits_sub _ _ _ _ _ _ _ H9). intros d' i Ha. by apply link_awaits.
  - apply Forall_cons in H13 as [_ H13]. constructor; [done|].
    eapply phases_frame, phases_store, H13; [done..| | |done|done| | |done|exact Hs|done|done]; try done.
    intros i Hi. split; [done|]. apply of_job_cons_ne. cbn. intros ->. cbn in HC. done.
Qed.

(** The job waited for has finished: the edge is given back, the count put back. *)
Lemma keeps_DropEdge sh rest b slot d e todo :
  Inv sh (Acquiring b (DropEdge slot d e todo) :: rest) →
  keeps sh (Acquiring b (DropEdge slot d e todo)) rest.
Proof.
  intros (L & G & I & gn & H). unfold keeps, exec, exec_acquiring. do 2 eexists. split; [done|].
  exists L, G, I, gn. pose proof (inv_edge _ _ _ _ _ _ _ e H eq_refl) as Hre.
  destruct H as [H1 H2 H3 H4 H5 H6 H7 HB HE H8 H9 H10 H11 H12 H13]. gat. split; gat; try done.
  - by apply slots_release_repr.
  - apply lists_edges; [|done]. intros. apply slots_release_at.
  - apply Forall_cons in H13 as [Hph H13]. constructor; [exact Hph|]. apply phases_edges; [|done].
    intros. apply slots_release_at.
Qed.

Lemma keeps_LowerWaiting sh rest b slot d todo :
  Inv sh (Acquiring b (LowerWaiting slot d todo) :: rest) → bounded sh →
  keeps sh (Acquiring b (LowerWaiting slot d todo)) rest.
Proof.
  intros (L & G & I & gn & H) Hb. unfold keeps, exec, exec_acquiring.
  destruct (inv_token _ _ _ _ _ _ slot H) as (HI & Hh & HC); [by left|].
  destruct (inv_slot_at _ _ _ _ _ _ slot H HI) as [j Hj].
  assert (HX : slot ∉ gather building_of rest) by (intros Hx; by eapply inv_building).
  destruct H as [H1 H2 H3 H4 H5 H6 H7 HB HE H8 H9 H10 H11 H12 H13]. gat.
  assert (Hn : wait_count sh slot = Some (waiting j)) by (unfold wait_count; by rewrite Hj).
  pose proof (tu_count _ _ _ _ H6 slot _ Hn HI) as Ec. rewrite !count_cons, !decide_True in Ec by done.
  pose proof (bo_waiting _ Hb slot j Hj) as Hw.
  destruct (add_waiting_spec _ _ _ _ (-1) H1 Hj) as (p & -> & Hs); [lia|]. cbn [mbind option_bind].
  do 2 eexists. split; [done|]. exists L, G, I, gn.
  pose proof (λ k, stored_same successors _ _ _ _ _ k Hs Hj eq_refl) as Es.
  pose proof (λ k, stored_same signals _ _ _ _ _ k Hs Hj eq_refl) as Eg.
  pose proof (λ k, stored_word waiting _ _ _ _ k Hs) as Ew.
  split; gat; try done.
  - by apply (st_repr _ _ _ _ Hs).
  - eapply lists_ext, H4; [apply Es|done..].
  - eapply lists_ext, H5; [apply Eg|done..].
  - destruct (turns_lower _ (wait_count (with_jobs sh p)) _ _ _ _ _ H6 Hn Ew) as [_ Ht].
    rewrite decide_False in Ht by lia. exact Ht.
  - by eapply feeds_store.
  - apply Forall_cons in H13 as [_ H13]. constructor; [done|]. by eapply phases_store.
Qed.

(** Inside acquireJob nothing panics, and every step keeps the invariant. *)
Lemma keeps_acquiring sh rest b p :
  Inv sh (Acquiring b p :: rest) → bounded sh → keeps sh (Acquiring b p) rest.
Proof.
  intros H Hb. destruct p as [| | | | |slot [|[d f] todo]| | | | |].
  - by apply keeps_NewSlot.
  - by apply keeps_LoadGeneration.
  - by apply keeps_OpenSuccessors.
  - by apply keeps_OpenSignals.
  - by apply keeps_StoreHold.
  - by apply keeps_answer.
  - destruct (decide (hslot d = NoSlot)); [by apply keeps_skip|by apply keeps_raise].
  - by apply keeps_TakeEdge.
  - by apply keeps_LinkLoad.
  - by apply keeps_LinkSwap.
  - by apply keeps_DropEdge.
  - by apply keeps_LowerWaiting.
Qed.
End links.
