(* ===== verification/JobGraphFinish.v ===== *)
(** * Submitting a batch and finishing a job keep the invariant

    One lemma for each place of a goroutine inside submit and finishJob: up to
    the signals sent, then the walk of the successors and the slot's release. *)

From S2P Require Import Prelude Pool JobGraph JobGraphSpec JobGraphLists JobGraphTurns JobGraphFeeds JobGraphInv JobGraphStep.
From S2P Require Import JobGraphLink.

#[local] Set Default Proof Using "All".

Section finish.
Context {PJ PE PG V : Type}.
Context `{!SlotPool PJ job, !SlotPool PE successorEdge, !SlotPool PG signalEdge}.
Context `{!SlotPoolLaws PJ job, !SlotPoolLaws PE successorEdge, !SlotPoolLaws PG signalEdge}.
Implicit Types (sh : shared PJ PE PG V) (t : thread V) (rest ts : list (thread V)).
Implicit Types (L : list link) (G : list arm) (gn : N → N).

(** Another event is nothing to the other goroutines. *)
Lemma phases_log sh (e : event V) L G gn ts :
  Forall (phase sh gn L G) ts → Forall (phase (log sh e) gn L G) ts.
Proof. apply phases_frame; try done. intros h. apply over_mono. Qed.

Lemma notified_log (e : event V) tr (ns : list (JobHandle * N)) :
  (∀ h sig, (h, sig) ∈ ns → known tr h) → ∀ h sig, (h, sig) ∈ ns → known (e :: tr) h.
Proof. intros H h sig Hi. apply known_mono. by eapply H. Qed.

(** ** Handing a job to the lock combiner *)

(** A job with no token left waits for nothing. *)
Lemma inv_ready sh ts L G I gn i c a d :
  inv sh ts L G I gn → i ∈ I → i ∉ gather tokens_of ts ++ (lsucc <$> L) →
  Scheduled (mkHandle i (gn i)) c a ∈ trace sh → d ∈ deps_of c → over (trace sh) d.
Proof.
  intros H Hi Hn Hs Hd. destruct (inv_deps _ _ _ _ _ _ H i c a d Hi Hs Hd) as [?|[(x & Hx & _ & E)|Hin]]; [done|..];
    exfalso; apply Hn, elem_of_app.
  - right. rewrite <- E. by apply list_elem_of_fmap_2.
  - left. apply list_elem_of_bind in Hin as (t & Hin & Ht). eapply elem_of_gather; [done|].
    by eapply todo_tokens.
Qed.

(** [t'] is [t] after it has called arrive. *)
Lemma keeps_arrive sh t t' rest i L G I gn :
  inv sh (t :: rest) L G I gn → arriving_of t = [i] → arriving_of t' = [] →
  calls_of t' = calls_of t → building_of t' = building_of t → linking_of t' = linking_of t →
  batch_of t' = batch_of t → holds_of t' = holds_of t → tokens_of t' = tokens_of t → todo_of t' = todo_of t →
  finishing_of t' = finishing_of t → closed_of t' = closed_of t → mute_of t' = mute_of t →
  edges_of t' = edges_of t → sedges_of t' = sedges_of t → pending_of t' = pending_of t →
  feeds_of t' = feeds_of t → built_of t' = built_of t → results_of t' = results_of t →
  (∀ sh', phase sh' gn L G t → phase sh' gn L G t') →
  ∃ sh', arrive sh i = Some sh' ∧ inv sh' (t' :: rest) L G I gn.
Proof.
  intros H Ea Ea' E1 E2 E3 E4 E5 E6 E7 E8 E9 E10 E11 E12 E13 E14 E15 E16 Hph.
  assert (Hh : i ∈ handed sh (t :: rest)).
  { unfold handed. rewrite gather_cons, Ea, !elem_of_app. right. left. left. by left. }
  pose proof (inv_handed _ _ _ _ _ _ i H Hh) as Hi.
  pose proof (tu_nodup _ _ _ _ (inv_turns _ _ _ _ _ _ H)) as Hnd.
  assert (Hout : i ∉ running sh ++ gather finishing_of (t :: rest)).
  { unfold handed in Hnd. rewrite gather_cons, Ea in Hnd. cbn [app] in Hnd.
    rewrite <- Permutation_middle in Hnd. apply NoDup_cons in Hnd as [Hn _]. set_solver. }
  assert (Htok : i ∉ gather tokens_of (t :: rest) ++ (lsucc <$> L)) by (by apply (tu_arf _ _ _ _ (inv_turns _ _ _ _ _ _ H))).
  assert (HC : i ∉ gather closed_of (t :: rest)).
  { intros Hc. apply Hout, elem_of_app. right. by apply closed_finishing. }
  unfold arrive. rewrite (inv_handle _ _ _ _ _ _ i H Hi HC). cbn [mbind option_bind].
  eexists. split; [done|]. set (e := Arrived _).
  pose proof (λ c a d, inv_ready _ _ _ _ _ _ i c a d H Hi Htok) as Hready.
  assert (Hhold : i ∉ gather holds_of (t :: rest)).
  { intros Hx. apply Htok, elem_of_app. left. by apply holds_tokens_all. }
  destruct H as [H1 H2 H3 H4 H5 H6 H7 HB HE H8 H9 H10 H11 H12 H13].
  assert (Haw : ∀ d k, awaits (t' :: rest) L d k ↔ awaits (t :: rest) L d k).
  { intros d k. unfold awaits. by rewrite !gather_cons, E7. }
  split; rewrite ?gather_cons, ?E1, ?E2, ?E3, ?E4, ?E5, ?E6, ?E8, ?E9, ?E10, ?E11, ?E12, ?E13, ?E14, ?E15, ?E16; try done.
  - eapply turns_ext, H6; try done. unfold handed. rewrite !gather_cons, Ea, Ea', E8. cbn. solve_Permutation.
  - by apply history_arrive.
  - apply batches_log; done.
  - apply feeds_log; [by intros []|exact HE].
  - refine (deps_awaits _ _ _ _ _ _ _ _ (deps_log e _ _ _ _ _ _ H8)); [|done]. intros d k. rewrite Haw. auto.
  - refine (awaits_sub _ _ _ _ _ _ _ (awaits_log e _ _ _ _ H9)). intros d k. by rewrite Haw.
  - eapply known_calls, H10.
  - eapply notified_log, H11.
  - apply Forall_cons in H13 as [Ht H13]. constructor; [|by apply phases_log].
    apply Hph. by apply Forall_singleton, phases_log, Forall_singleton.
Qed.

(** ** Submitting a batch *)

Lemma keeps_submitted sh rest : Inv sh (Submitting [] :: rest) → keeps sh (Submitting []) rest.
Proof.
  intros (L & G & I & gn & H). do 2 eexists. split; [done|]. exists L, G, I, gn.
  destruct H as [H1 H2 H3 H4 H5 H6 H7 HB HE H8 H9 H10 H11 H12 H13]. gat. split; gat; try done.
  by apply Forall_cons in H13 as [_ ?].
Qed.

Lemma keeps_Submitting sh rest slot batch :
  Inv sh (Submitting (slot :: batch) :: rest) → bounded sh → keeps sh (Submitting (slot :: batch)) rest.
Proof.
  intros (L & G & I & gn & H) Hb. unfold keeps, exec.
  destruct (inv_token _ _ _ _ _ _ slot H) as (HI & Hh & HC); [by left|].
  rewrite (inv_handle _ _ _ _ _ _ slot H HI HC). cbn [mbind option_bind].
  destruct (inv_slot_at _ _ _ _ _ _ slot H HI) as [j Hj].
  assert (HX : slot ∉ gather building_of rest) by (intros Hx; by eapply inv_building).
  set (e := Submitted _).
  assert (Hl : legal (e :: trace sh)).
  { apply legal_Submitted; [by eapply hi_legal, inv_history|..]; [eapply ba_answered|eapply ba_submitted];
      try (by eapply inv_batches); by left. }
  destruct H as [H1 H2 H3 H4 H5 H6 H7 HB HE H8 H9 H10 H11 H12 H13]. gat.
  assert (Hn : wait_count sh slot = Some (waiting j)) by (unfold wait_count; by rewrite Hj).
  pose proof (bo_waiting _ Hb slot j Hj) as Hw.
  pose proof (tu_count _ _ _ _ H6 slot _ Hn HI) as Ec.
  destruct (add_waiting_spec (log sh e) _ slot j (-1) H1 Hj) as (p & -> & Hs); [lia|]. cbn [mbind option_bind].
  pose proof (λ k, stored_same successors _ _ _ _ _ k Hs Hj eq_refl) as Es.
  pose proof (λ k, stored_same signals _ _ _ _ _ k Hs Hj eq_refl) as Eg.
  pose proof (λ k, stored_word waiting _ _ _ _ k Hs) as Ew.
  pose proof (turns_lower _ (wait_count (with_jobs (log sh e) p)) _ _ _ _ _ H6 Hn Ew) as [_ Ht].
  assert (H13' : Forall (phase (with_jobs (log sh e) p) gn L G) rest).
  { apply Forall_cons in H13 as [_ H13]. eapply phases_store, phases_log, H13; done. }
  replace (waiting j + -1)%Z with (waiting j - 1)%Z by lia.
  case_decide as E; do 2 eexists; (split; [done|]); exists L, G, I, gn; split; gat; try done.
  all: try (by apply (st_repr _ _ _ _ Hs)).
  all: try (eapply lists_ext, H4; [apply Es|done..]).
  all: try (eapply lists_ext, H5; [apply Eg|done..]).
  all: try (by apply history_submit).
  all: try (by apply batches_submit).
  all: try (eapply feeds_store; [exact Hs|exact Hj|done..|apply feeds_log; [by intros []|exact HE]]).
  all: try (by apply deps_log).
  all: try (by apply awaits_log).
  all: try (eapply known_calls, H10).
  all: try (eapply notified_log, H11).
  all: try (by constructor).
  destruct Ht as (_ & _ & _ & Ht). eapply turns_ext, Ht; try done. unfold handed. gat. solve_Permutation.
Qed.

Lemma keeps_SubmitArrive sh rest slot batch :
  Inv sh (SubmitArrive slot batch :: rest) → keeps sh (SubmitArrive slot batch) rest.
Proof.
  intros (L & G & I & gn & H). unfold keeps, exec.
  destruct (keeps_arrive sh _ (Submitting batch) rest slot L G I gn H) as (sh' & -> & H'); try done.
  do 2 eexists. split; [done|]. by exists L, G, I, gn.
Qed.

(** ** Closing the lists *)

(** A job that finishes is one there is, and no other goroutine finishes it. *)
Lemma finishing_apart sh t rest L G I gn slot :
  inv sh (t :: rest) L G I gn → finishing_of t = [slot] →
  slot ∈ I ∧ is_Some (job_at sh slot) ∧ (slot ∉ gather building_of (t :: rest)) ∧
  (slot ∉ gather finishing_of rest) ∧ (slot ∉ gather closed_of rest).
Proof.
  intros H Ht. assert (Hf : slot ∈ gather finishing_of (t :: rest)) by (rewrite gather_cons, Ht; by left).
  pose proof (inv_finishing _ _ _ _ _ _ slot H Hf) as HI.
  assert (Hr : slot ∉ gather finishing_of rest).
  { pose proof (tu_nodup _ _ _ _ (inv_turns _ _ _ _ _ _ H)) as Hn. unfold handed in Hn.
    rewrite (gather_cons finishing_of), Ht in Hn. apply NoDup_app in Hn as (_ & _ & Hn).
    apply NoDup_app in Hn as (_ & _ & Hn). by apply NoDup_cons in Hn as [? _]. }
  split_and!; [done|by eapply inv_slot_at| |done|].
  - intros Hb. by eapply inv_building.
  - intros Hc. by apply Hr, closed_finishing.
Qed.

Lemma keeps_FinishLoad sh rest slot r :
  Inv sh (Finishing slot r FinishLoad :: rest) → keeps sh (Finishing slot r FinishLoad) rest.
Proof.
  intros (L & G & I & gn & H). unfold keeps, exec, exec_finishing.
  destruct (finishing_apart _ _ _ _ _ _ _ slot H eq_refl) as (HI & [j Hj] & HX & HF & HC).
  rewrite Hj. cbn [mbind option_bind]. do 2 eexists. split; [done|]. exists L, G, I, gn.
  destruct H as [H1 H2 H3 H4 H5 H6 H7 HB HE H8 H9 H10 H11 H12 H13]. gat. split; gat; try done.
  apply Forall_cons in H13 as [_ H13]. constructor; [|done].
  eapply lo_gen; [exact H4|unfold succ_word; by rewrite Hj|done].
Qed.

Lemma keeps_CloseSuccessors sh rest slot r g :
  Inv sh (Finishing slot r (CloseSuccessors g) :: rest) → keeps sh (Finishing slot r (CloseSuccessors g)) rest.
Proof.
  intros (L & G & I & gn & H). unfold keeps, exec, exec_finishing.
  destruct (finishing_apart _ _ _ _ _ _ _ slot H eq_refl) as (HI & [j Hj] & HX & HF & HC).
  destruct H as [H1 H2 H3 H4 H5 H6 H7 HB HE H8 H9 H10 H11 H12 H13]. gat.
  apply Forall_cons in H13 as [Hph H13]. cbn in Hph. subst g. rewrite Hj. cbn [mbind option_bind].
  destruct (set_job_spec _ _ _ _ (set_successors j (packList (gn slot) closedList)) H1 Hj) as (p & -> & Hs).
  cbn [mbind option_bind]. do 2 eexists. split; [done|]. set (e := Finished _ _). exists L, G, I, gn.
  pose proof (λ k, stored_word successors _ _ _ _ k Hs) as Es.
  pose proof (λ k, stored_same signals _ _ _ _ _ k Hs Hj eq_refl) as Eg.
  pose proof (λ k, stored_same waiting _ _ _ _ _ k Hs Hj eq_refl) as Ew.
  assert (Hv : succ_word sh slot = Some (successors j)) by (unfold succ_word; by rewrite Hj).
  destruct (lists_close _ _ _ (succ_word (log (with_jobs sh p) e)) _ _ _ _ _ _ _ H4 HI HC Hv Es) as [H4' Hch].
  split; gat; try done.
  - by apply (st_repr _ _ _ _ Hs).
  - eapply lists_ext, H5; [apply Eg|done..].
  - eapply turns_ext, H6; [intros; apply Ew|done..].
  - apply history_finish; try done. by left.
  - by apply batches_log.
  - apply feeds_finish. by eapply feeds_store.
  - by apply deps_log.
  - by apply awaits_log.
  - eapply known_calls, H10.
  - eapply notified_log, H11.
  - constructor; [by split|]. eapply phases_log, phases_store, H13; done.
Qed.

Lemma keeps_CloseSignals sh rest slot r g h :
  Inv sh (Finishing slot r (CloseSignals g h) :: rest) → keeps sh (Finishing slot r (CloseSignals g h)) rest.
Proof.
  intros (L & G & I & gn & H). unfold keeps, exec, exec_finishing.
  destruct (finishing_apart _ _ _ _ _ _ _ slot H eq_refl) as (HI & [j Hj] & HX & HF & HC).
  destruct H as [H1 H2 H3 H4 H5 H6 H7 HB HE H8 H9 H10 H11 H12 H13]. gat.
  apply Forall_cons in H13 as [[-> Hsl] H13]. rewrite Hj. cbn [mbind option_bind].
  destruct (set_job_spec _ _ _ _ (set_signals j (packList (gn slot) closedList)) H1 Hj) as (p & -> & Hs).
  cbn [mbind option_bind]. do 2 eexists. split; [done|]. exists L, G, I, gn.
  pose proof (λ k, stored_same successors _ _ _ _ _ k Hs Hj eq_refl) as Es.
  pose proof (λ k, stored_word signals _ _ _ _ k Hs) as Eg.
  pose proof (λ k, stored_same waiting _ _ _ _ _ k Hs Hj eq_refl) as Ew.
  assert (Hv : sig_word sh slot = Some (signals j)) by (unfold sig_word; by rewrite Hj).
  assert (HM : slot ∉ gather mute_of rest) by (intros Hm; by apply HC, mute_closed).
  destruct (lists_close _ _ _ (sig_word (with_jobs sh p)) _ _ _ _ _ _ _ H5 HI HM Hv Eg) as [H5' Hch].
  split; gat; try done.
  - by apply (st_repr _ _ _ _ Hs).
  - eapply lists_ext, H4; [apply Es|done..].
  - eapply turns_ext, H6; [intros; apply Ew|done..].
  - by eapply feeds_store.
  - constructor; [split_and!; done|]. eapply phases_store, H13; done.
Qed.
End finish.

(** ** Once the lists are closed *)

Section walk.
Context {PJ PE PG V : Type}.
Context `{!SlotPool PJ job, !SlotPool PE successorEdge, !SlotPool PG signalEdge}.
Context `{!SlotPoolLaws PJ job, !SlotPoolLaws PE successorEdge, !SlotPoolLaws PG signalEdge}.
Implicit Types (sh : shared PJ PE PG V) (t : thread V) (rest ts : list (thread V)).
Implicit Types (L : list link) (G : list arm) (gn : N → N).

(** ** Signals *)

(** Writing signal edges that are neither linked nor held by the other
    goroutines is nothing to them. *)
Lemma phases_sedges sh pg L G gn ts :
  (∀ e, e ∈ (aedge <$> G) ++ gather sedges_of ts → slots_at pg e = sedge_at sh e) →
  Forall (phase sh gn L G) ts → Forall (phase (with_signals sh pg) gn L G) ts.
Proof.
  intros He. apply phases_frame; try done.
  - intros e Hi. apply He, elem_of_app. by right.
  - intros x nxt Hx. unfold sig_cell, sedge_at. cbn. rewrite He; [done|].
    apply elem_of_app. left. by apply list_elem_of_fmap_2.
Qed.

Lemma lists_sedges sh pg C I gn G :
  (∀ e, e ∈ (aedge <$> G) → slots_at pg e = sedge_at sh e) →
  lists_ok aedge apred (sig_word sh) (sig_cell sh) C I gn G →
  lists_ok aedge apred (sig_word (with_signals sh pg)) (sig_cell (with_signals sh pg)) C I gn G.
Proof.
  intros He. apply lists_ext; try done. intros x nxt Hx. unfold sig_cell, sedge_at. cbn.
  rewrite He; [done|by apply list_elem_of_fmap_2].
Qed.

(** Fewer edges are linked: the goroutines that walk other jobs' lists find
    theirs as they were. *)
Lemma phases_pop_sig sh L l1 x l2 gn ts :
  (hslot (apred x) ∉ gather mute_of ts) →
  Forall (phase sh gn L (l1 ++ x :: l2)) ts → Forall (phase sh gn L (l1 ++ l2)) ts.
Proof.
  intros Hx. apply phases_frame; try done. intros i Hi. split; [done|]. apply of_job_pop.
  intros E. rewrite E in Hx. done.
Qed.

Lemma phases_pop_succ sh l1 x l2 G gn ts :
  (hslot (lpred x) ∉ gather closed_of ts) →
  Forall (phase sh gn (l1 ++ x :: l2) G) ts → Forall (phase sh gn (l1 ++ l2) G) ts.
Proof.
  intros Hx. apply phases_frame; try done. intros i Hi. split; [done|]. apply of_job_pop.
  intros E. rewrite E in Hx. done.
Qed.

Lemma keeps_signalled sh rest slot r g h :
  Inv sh (Finishing slot r (SendSignals g NoSlot h) :: rest) → keeps sh (Finishing slot r (SendSignals g NoSlot h)) rest.
Proof.
  intros (L & G & I & gn & H). unfold keeps, exec, exec_finishing. rewrite decide_True by done.
  do 2 eexists. split; [done|]. exists L, G, I, gn.
  destruct H as [H1 H2 H3 H4 H5 H6 H7 HB HE H8 H9 H10 H11 H12 H13]. gat. split; gat; try done.
  apply Forall_cons in H13 as [(-> & ? & Hg) H13]. constructor; [|done]. split_and!; [done|done|].
  eapply chain_empty; [by eapply lo_refs|exact Hg].
Qed.

Lemma keeps_SendSignals sh rest slot r g sg h :
  Inv sh (Finishing slot r (SendSignals g sg h) :: rest) → sg ≠ NoSlot →
  keeps sh (Finishing slot r (SendSignals g sg h)) rest.
Proof.
  intros (L & G & I & gn & H) Hne. unfold keeps, exec, exec_finishing. rewrite decide_False by done.
  destruct (finishing_apart _ _ _ _ _ _ _ slot H eq_refl) as (HI & _ & _ & _ & HC).
  assert (HM : slot ∉ gather mute_of rest) by (intros Hm; by apply HC, mute_closed).
  destruct H as [H1 H2 H3 H4 H5 H6 H7 HB HE H8 H9 H10 H11 H12 H13]. gat.
  apply Forall_cons in H13 as [(-> & Hsl & Hg) H13].
  destruct (chain_pop _ _ _ _ _ _ Hg Hne) as (l1 & x & l2 & nxt & -> & Hp & -> & Hc & Hch).
  unfold sig_cell in Hc. unfold sedge_at in Hc. rewrite Hc. cbn [mbind option_bind signal snext].
  assert (Hr : slots_repr (signalEdges (graph sh)) (aedge x :: (aedge <$> l1 ++ l2) ++ gather sedges_of rest)).
  { eapply slots_repr_perm, H3. rewrite !fmap_app, fmap_cons. solve_Permutation. }
  destruct (slots_put _ _ _ (mkSignalEdge nxt None) Hr) as (pg & -> & Hr' & Hat & Hk). cbn [mbind option_bind].
  do 2 eexists. split; [done|]. set (e := Sent _ _). exists L, (l1 ++ l2), I, gn.
  assert (Hfin : ∃ res, Finished (mkHandle slot (gn slot)) res ∈ trace sh).
  { eapply hi_finished; [exact H7|done|by left]. }
  assert (Hcount : ∀ h' sig, armings (trace sh) h' sig = sendings (trace sh) h' sig +
    ((if decide (arm_of x = (h', sig)) then 1 else 0) +
     length (filter (λ y, y = (h', sig)) (gather pending_of rest ++ (arm_of <$> l1 ++ l2))))).
  { intros h' sig. rewrite H12. f_equal. rewrite !fmap_app, fmap_cons.
    rewrite (assoc_L (++)), <- Permutation_middle, filter_cons, <- (assoc_L (++)). by case_decide. }
  assert (Hl : legal (e :: trace sh)).
  { apply legal_Sent; [by eapply hi_legal|by right|]. rewrite Hcount, <- Hp. unfold arm_of.
    rewrite decide_True by done. lia. }
  assert (Hcells : ∀ y nx, y ∈ l1 ++ l2 → sig_cell sh y nx → sig_cell (with_signals sh pg) y nx).
  { intros y nx Hy. unfold sig_cell, sedge_at. cbn. rewrite Hk; [done|].
    apply elem_of_app. left. by apply list_elem_of_fmap_2. }
  split; gat; try done.
  - eapply slots_repr_perm, Hr'. solve_Permutation.
  - assert (Hpop := lists_pop _ _ _ _ _ _ _ _ _ _ H5). rewrite Hp in Hpop.
    eapply lists_ext, Hpop; [done|done|done|by apply Hcells|by left].
  - apply history_log; [done|by intros []|done].
  - by apply batches_log.
  - apply feeds_log; [by intros []|exact HE].
  - by apply deps_log.
  - by apply awaits_log.
  - eapply known_calls, H10.
  - eapply notified_log, H11.
  - intros h' sig. cbn [trace log with_signals with_graph]. rewrite armings_cons, sendings_cons.
    rewrite decide_False by (by intros []). rewrite Hcount.
    assert (Hiff : is_sent h' sig e ↔ arm_of x = (h', sig)).
    { unfold arm_of. rewrite Hp. cbn. split; [by intros [-> ->]|by intros [= -> ->]]. }
    destruct (decide (is_sent h' sig e)), (decide (arm_of x = (h', sig))); gat; [lia|tauto|tauto|lia].
  - constructor.
    + split_and!; [done| |].
      * done.
      * unfold sig_list. eapply chain_ext; [|exact Hch]. intros y nx [_ Hy]%elem_of_of_job. by apply Hcells.
    + apply phases_log, phases_sedges; [by intros; apply Hk|]. eapply phases_pop_sig, H13. by rewrite Hp.
Qed.

Lemma keeps_DropSignal sh rest slot r g e sg h :
  Inv sh (Finishing slot r (DropSignal g e sg h) :: rest) → keeps sh (Finishing slot r (DropSignal g e sg h)) rest.
Proof.
  intros (L & G & I & gn & H). do 2 eexists. split; [done|]. exists L, G, I, gn.
  destruct H as [H1 H2 H3 H4 H5 H6 H7 HB HE H8 H9 H10 H11 H12 H13]. gat.
  assert (Hr : slots_repr (signalEdges (graph sh)) (e :: (aedge <$> G) ++ gather sedges_of rest)).
  { eapply slots_repr_perm, H3. solve_Permutation. }
  apply Forall_cons in H13 as [(-> & Hsl & Hg) H13].
  split; gat; try done.
  - by apply slots_release_repr.
  - apply lists_sedges; [|done]. intros. apply slots_release_at.
  - constructor; [|apply phases_sedges; [|done]; intros; apply slots_release_at].
    split_and!; [done|done|]. eapply chain_ext; [|exact Hg]. intros y nx _. unfold sig_cell, sedge_at. cbn.
    by rewrite slots_release_at.
Qed.

(** ** Successors *)

Lemma keeps_walked sh rest slot r g :
  Inv sh (Finishing slot r (WalkSuccessors g NoSlot) :: rest) → keeps sh (Finishing slot r (WalkSuccessors g NoSlot)) rest.
Proof.
  intros (L & G & I & gn & H). unfold keeps, exec, exec_finishing. rewrite decide_True by done.
  do 2 eexists. split; [done|]. exists L, G, I, gn.
  destruct H as [H1 H2 H3 H4 H5 H6 H7 HB HE H8 H9 H10 H11 H12 H13]. gat. split; gat; try done.
  apply Forall_cons in H13 as [(-> & Hg & ?) H13]. constructor; [|done]. split_and!; [done| |done].
  eapply chain_empty; [by eapply lo_refs|exact Hg].
Qed.

Lemma fed_links_pop l1 x l2 :
  (lfeeds x = true → ∀ y, y ∈ fed_links (l1 ++ x :: l2) ↔ y = (lpred x, lsucc x) ∨ y ∈ fed_links (l1 ++ l2)) ∧
  (lfeeds x = false → fed_links (l1 ++ x :: l2) = fed_links (l1 ++ l2)).
Proof.
  unfold fed_links. rewrite !filter_app, filter_cons. split; intros E; rewrite E.
  - intros y. rewrite decide_True, !fmap_app, fmap_cons, !elem_of_app, elem_of_cons by done. tauto.
  - by rewrite decide_False.
Qed.

Lemma keeps_WalkSuccessors sh rest slot r g h :
  Inv sh (Finishing slot r (WalkSuccessors g h) :: rest) → h ≠ NoSlot →
  keeps sh (Finishing slot r (WalkSuccessors g h)) rest.
Proof.
  intros (L & G & I & gn & H) Hne. unfold keeps, exec, exec_finishing. rewrite decide_False by done.
  destruct (finishing_apart _ _ _ _ _ _ _ slot H eq_refl) as (HI & _ & _ & _ & HC).
  assert (Hph : g = gn slot ∧ succ_list sh gn L slot h ∧ no_sigs gn G slot) by (by apply inv_phase, Forall_cons in H as [? _]).
  destruct Hph as (-> & Hch & Hns).
  destruct (chain_pop _ _ _ _ _ _ Hch Hne) as (l1 & x & l2 & nxt & EL & Hp & -> & Hc & Hch').
  destruct (inv_slot _ _ _ _ _ _ slot H) as (Hnz & _); [apply elem_of_app; by right|].
  destruct (inv_token _ _ _ _ _ _ (lsucc x) H) as (Hx & Hxh & _).
  { apply elem_of_app. right. apply list_elem_of_fmap_2. rewrite EL. apply elem_of_app. right. by left. }
  destruct (inv_slot_at _ _ _ _ _ _ _ H Hx) as [j Hj].
  assert (Hfin : ∃ res, Finished (mkHandle slot (gn slot)) res ∈ trace sh).
  { eapply hi_finished; [by eapply inv_history|done|by left]. }
  unfold succ_cell, edge_at in Hc. rewrite Hc. cbn [mbind option_bind successor]. rewrite Hj. cbn [mbind option_bind].
  do 2 eexists. split; [done|]. exists (l1 ++ l2), G, I, gn. subst L.
  destruct H as [H1 H2 H3 H4 H5 H6 H7 HB HE H8 H9 H10 H11 H12 H13]. gat.
  apply Forall_cons in H13 as [_ H13]. split; gat; try done.
  - eapply slots_repr_perm, H2. rewrite !fmap_app, fmap_cons. solve_Permutation.
  - assert (Hpop := lists_pop _ _ _ _ _ _ _ _ _ _ H4). rewrite Hp in Hpop. apply Hpop. by left.
  - eapply turns_ext, H6; try done. rewrite !fmap_app, fmap_cons. solve_Permutation.
  - assert (Hxf : lsucc x ∉ slot :: gather finishing_of rest).
    { intros Hi. apply Hxh. unfold handed. gat. set_solver. }
    assert (Hres : Finished (mkHandle slot (gn slot)) r ∈ trace sh) by (eapply fe_results; [exact HE|by left]).
    assert (Hta : task_arg sh (lsucc x) = Some (task j, arg j)) by (unfold task_arg; by rewrite Hj).
    destruct (fed_links_pop l1 x l2) as [Hp1 Hp2]. rewrite Hp in Hp1. cbn [feedsResult]. destruct (lfeeds x) eqn:Ef.
    + specialize (Hp1 eq_refl). eapply (feeds_walk _ _ _ _ _ _ _ _ _ _ _ _ (mkHandle slot (gn slot)) (lsucc x)); [exact HE|by eapply hi_legal|done|done|..].
      * apply elem_of_app. right. apply Hp1. by left.
      * exact Hnz.
      * done.
      * exact Hta.
      * intros y. rewrite !elem_of_app, Hp1. tauto.
      * intros y. rewrite !elem_of_app, Hp1. tauto.
    + eapply feeds_ext, HE; try done. intros y. by rewrite !elem_of_app, (Hp2 eq_refl).
  - refine (deps_awaits _ _ _ _ _ _ _ _ H8). intros d i [(y & Hy & <- & <-)|?]; [|right; by right].
    apply elem_of_app in Hy as [Hy|[->|Hy]%elem_of_cons]; [right; left; exists y; set_solver| |right; left; exists y; set_solver].
    left. right. by rewrite Hp.
  - refine (awaits_sub _ _ _ _ _ _ _ H9). intros d i [(y & Hy & <- & <-)|?]; [left; exists y; set_solver|by right].
  - constructor; [|eapply phases_pop_succ, H13; by rewrite Hp]. split_and!; [done| |done].
    eexists. split; [exact Hc|]. exact Hch'.
Qed.

Lemma keeps_LowerSuccessor sh rest slot r g e n :
  Inv sh (Finishing slot r (LowerSuccessor g e n) :: rest) → bounded sh →
  keeps sh (Finishing slot r (LowerSuccessor g e n)) rest.
Proof.
  intros (L & G & I & gn & H) Hb. unfold keeps, exec, exec_finishing.
  destruct (inv_token _ _ _ _ _ _ n H) as (HI & Hh & HC); [by left|].
  destruct (inv_slot_at _ _ _ _ _ _ n H HI) as [j Hj].
  assert (HX : n ∉ gather building_of rest) by (intros Hx; by eapply inv_building).
  destruct H as [H1 H2 H3 H4 H5 H6 H7 HB HE H8 H9 H10 H11 H12 H13]. gat.
  assert (Hn : wait_count sh n = Some (waiting j)) by (unfold wait_count; by rewrite Hj).
  pose proof (bo_waiting _ Hb n j Hj) as Hw.
  pose proof (tu_count _ _ _ _ H6 n _ Hn HI) as Ec.
  destruct (add_waiting_spec sh _ n j (-1) H1 Hj) as (p & -> & Hs); [lia|]. cbn [mbind option_bind].
  pose proof (λ k, stored_same successors _ _ _ _ _ k Hs Hj eq_refl) as Es.
  pose proof (λ k, stored_same signals _ _ _ _ _ k Hs Hj eq_refl) as Eg.
  pose proof (λ k, stored_word waiting _ _ _ _ k Hs) as Ew.
  pose proof (turns_lower _ (wait_count (with_jobs sh p)) _ _ _ _ _ H6 Hn Ew) as [_ Ht].
  assert (H13' : Forall (phase (with_jobs sh p) gn L G) rest).
  { apply Forall_cons in H13 as [_ H13]. eapply phases_store, H13; set_solver. }
  apply Forall_cons in H13 as [(-> & Hed & Hg) _].
  replace (waiting j + -1)%Z with (waiting j - 1)%Z by lia.
  case_decide as E; do 2 eexists; (split; [done|]); exists L, G, I, gn; split; gat; try done.
  all: try (by apply (st_repr _ _ _ _ Hs)).
  all: try (eapply lists_ext, H4; [apply Es|done..]).
  all: try (eapply lists_ext, H5; [apply Eg|done..]).
  all: try (by eapply feeds_store).
  all: try (by constructor).
  destruct Ht as (_ & _ & _ & Ht). eapply turns_ext, Ht; try done. unfold handed. gat. solve_Permutation.
Qed.

Lemma keeps_ArriveSuccessor sh rest slot r g e n :
  Inv sh (Finishing slot r (ArriveSuccessor g e n) :: rest) → keeps sh (Finishing slot r (ArriveSuccessor g e n)) rest.
Proof.
  intros (L & G & I & gn & H). unfold keeps, exec, exec_finishing.
  destruct (keeps_arrive sh _ (Finishing slot r (DropSuccessor g e)) rest n L G I gn H) as (sh' & -> & H'); try done.
  do 2 eexists. split; [done|]. by exists L, G, I, gn.
Qed.

Lemma keeps_DropSuccessor sh rest slot r g e :
  Inv sh (Finishing slot r (DropSuccessor g e) :: rest) → keeps sh (Finishing slot r (DropSuccessor g e)) rest.
Proof.
  intros (L & G & I & gn & H). unfold keeps, exec, exec_finishing.
  pose proof (inv_edge _ _ _ _ _ _ _ e H eq_refl) as Hre.
  destruct H as [H1 H2 H3 H4 H5 H6 H7 HB HE H8 H9 H10 H11 H12 H13]. gat.
  apply Forall_cons in H13 as [(-> & (ed & Hed & Hch) & Hg) H13].
  unfold edge_at in Hed. rewrite Hed. cbn [mbind option_bind]. do 2 eexists. split; [done|]. exists L, G, I, gn.
  split; gat; try done.
  - by apply slots_release_repr.
  - apply lists_edges; [|done]. intros. apply slots_release_at.
  - constructor; [|apply phases_edges; [|done]; intros; apply slots_release_at].
    split_and!; [done| |done]. eapply chain_ext; [|exact Hch]. intros y nx _. unfold succ_cell, edge_at. cbn.
    by rewrite slots_release_at.
Qed.

(** ** Giving the slot back *)

Lemma inv_gn_bound sh ts L G I gn i : inv sh ts L G I gn → bounded sh → i ∈ I → (gn i < 2 ^ 32 - 1)%N.
Proof.
  intros H Hb Hi. destruct (hi_live _ _ _ _ _ _ _ (inv_history _ _ _ _ _ _ H) i Hi) as (c & a & Hs).
  by apply (bo_generations _ Hb) in Hs.
Qed.

Lemma keeps_AdvanceSuccessors sh rest slot r g :
  Inv sh (Finishing slot r (AdvanceSuccessors g) :: rest) → bounded sh →
  keeps sh (Finishing slot r (AdvanceSuccessors g)) rest.
Proof.
  intros (L & G & I & gn & H) Hb. unfold keeps, exec, exec_finishing.
  destruct (finishing_apart _ _ _ _ _ _ _ slot H eq_refl) as (HI & [j Hj] & HX & HF & HC).
  pose proof (inv_gn_bound _ _ _ _ _ _ slot H Hb HI) as Hg.
  destruct H as [H1 H2 H3 H4 H5 H6 H7 HB HE H8 H9 H10 H11 H12 H13]. gat.
  apply Forall_cons in H13 as [(-> & Hns & Hng) H13]. rewrite Hj. cbn [mbind option_bind].
  rewrite u32_small by lia.
  destruct (set_job_spec _ _ _ _ (set_successors j (packList (gn slot + 1) closedList)) H1 Hj) as (p & -> & Hs).
  cbn [mbind option_bind]. do 2 eexists. split; [done|]. exists L, G, I, gn.
  pose proof (λ k, stored_word successors _ _ _ _ k Hs) as Es.
  pose proof (λ k, stored_same signals _ _ _ _ _ k Hs Hj eq_refl) as Eg.
  pose proof (λ k, stored_same waiting _ _ _ _ _ k Hs Hj eq_refl) as Ew.
  split; gat; try done.
  - by apply (st_repr _ _ _ _ Hs).
  - eapply lists_advance; [exact H4|by left| | |exact Es]; [|lia]. unfold succ_word. rewrite Hj. by eexists.
  - eapply lists_ext, H5; [apply Eg|done..].
  - eapply turns_ext, H6; [intros; apply Ew|done..].
  - by eapply feeds_store.
  - constructor; [|by eapply phases_store]. split_and!; [done|done|done|].
    unfold gen_is, succ_word. change (job_at (with_jobs sh p) slot) with (slots_at p slot).
    rewrite Es, decide_True by done. apply (f_equal Some), word_gen_pack; unfold closedList; lia.
Qed.

Lemma keeps_AdvanceSignals sh rest slot r g :
  Inv sh (Finishing slot r (AdvanceSignals g) :: rest) → bounded sh →
  keeps sh (Finishing slot r (AdvanceSignals g)) rest.
Proof.
  intros (L & G & I & gn & H) Hb. unfold keeps, exec, exec_finishing.
  destruct (finishing_apart _ _ _ _ _ _ _ slot H eq_refl) as (HI & [j Hj] & HX & HF & HC).
  pose proof (inv_gn_bound _ _ _ _ _ _ slot H Hb HI) as Hg.
  destruct H as [H1 H2 H3 H4 H5 H6 H7 HB HE H8 H9 H10 H11 H12 H13]. gat.
  apply Forall_cons in H13 as [(-> & Hns & Hng & Hgen) H13]. rewrite Hj. cbn [mbind option_bind].
  rewrite u32_small by lia.
  destruct (set_job_spec _ _ _ _ (set_signals j (packList (gn slot + 1) closedList)) H1 Hj) as (p & -> & Hs).
  cbn [mbind option_bind]. do 2 eexists. split; [done|]. exists L, G, I, gn.
  pose proof (λ k, stored_same successors _ _ _ _ _ k Hs Hj eq_refl) as Es.
  pose proof (λ k, stored_word signals _ _ _ _ k Hs) as Eg.
  pose proof (λ k, stored_same waiting _ _ _ _ _ k Hs Hj eq_refl) as Ew.
  split; gat; try done.
  - by apply (st_repr _ _ _ _ Hs).
  - eapply lists_ext, H4; [apply Es|done..].
  - eapply lists_advance; [exact H5|by left| | |exact Eg]; [|lia]. unfold sig_word. rewrite Hj. by eexists.
  - eapply turns_ext, H6; [intros; apply Ew|done..].
  - by eapply feeds_store.
  - constructor; [|by eapply phases_store]. split_and!; [done|done| |].
    + unfold gen_is, succ_word, job_at in *. cbn. by rewrite Es.
    + unfold gen_is, sig_word. change (job_at (with_jobs sh p) slot) with (slots_at p slot).
      rewrite Eg, decide_True by done. apply (f_equal Some), word_gen_pack; unfold closedList; lia.
Qed.

Lemma keeps_ReleaseSlot sh rest slot r :
  Inv sh (Finishing slot r ReleaseSlot :: rest) → keeps sh (Finishing slot r ReleaseSlot) rest.
Proof.
  intros (L & G & I & gn & H). do 2 eexists. split; [done|].
  destruct (finishing_apart _ _ _ _ _ _ _ slot H eq_refl) as (HI & [j Hj] & HX & HF & HC).
  assert (HM : slot ∉ gather mute_of rest) by (intros Hm; by apply HC, mute_closed).
  assert (Htok : slot ∉ gather tokens_of (Finishing slot r ReleaseSlot :: rest) ++ (lsucc <$> L)).
  { apply (tu_arf _ _ _ _ (inv_turns _ _ _ _ _ _ H)); [done|]. unfold handed. gat. set_solver. }
  set (I' := filter (λ i, i ≠ slot) I). set (gn' i := if decide (i = slot) then (gn slot + 1)%N else gn i).
  assert (HI' : ∀ i, i ∈ I' ↔ i ≠ slot ∧ i ∈ I) by (intros i; unfold I'; by rewrite list_elem_of_filter).
  assert (Hgn : ∀ i, i ≠ slot → gn' i = gn i) by (intros i Hi; unfold gn'; by rewrite decide_False).
  exists L, G, I', gn'.
  assert (Hheld : slot ∉ gather linking_of rest ++ gather batch_of rest).
  { intros Hx. apply Htok, elem_of_app. left. gat. by apply linking_tokens. }
  assert (HIp : I ≡ₚ slot :: I').
  { pose proof (slots_repr_NoDup _ _ (inv_jobs _ _ _ _ _ _ H)) as Hn. apply NoDup_app in Hn as (_ & _ & Hn).
    apply NoDup_Permutation; [done| |intros i; rewrite elem_of_cons, HI'; destruct (decide (i = slot)); naive_solver].
    constructor; [rewrite HI'; tauto|by apply NoDup_filter]. }
  destruct H as [H1 H2 H3 H4 H5 H6 H7 HB HE H8 H9 H10 H11 H12 H13]. gat.
  apply Forall_cons in H13 as [(Hns & Hng & Hgs & Hgg) H13].
  assert (Hwords : ∀ {A} (f : job → A) i, f <$> job_at (with_jobs sh (slots_release (jobs (graph sh)) slot)) i = f <$> job_at sh i).
  { intros A f i. unfold job_at. cbn. by rewrite slots_release_at. }
  assert (Hone : ∀ ts i, i ∈ gather tokens_of ts ++ (lsucc <$> L) → ts = rest → i ≠ slot) by (intros ts i Hi -> ->; done).
  assert (Haw : ∀ d i, awaits rest L d i → i ≠ slot).
  { intros d i [(x & Hx & _ & <-)|Hin]; (eapply Hone; [|done]); apply elem_of_app.
    - right. by apply list_elem_of_fmap_2.
    - left. apply list_elem_of_bind in Hin as (t & Hin & Ht). eapply elem_of_gather; [done|by eapply todo_tokens]. }
  split; gat; try done.
  - apply slots_release_repr. eapply slots_repr_perm, H1. rewrite HIp. solve_Permutation.
  - eapply lists_ext; [intros; apply Hwords|done|done|done|].
    eapply (lists_retire _ _ _ _ (slot :: gather closed_of rest)) with (v := successors j);
      [exact H4|unfold succ_word; by rewrite Hj| |exact Hns|exact HI'|set_solver|done].
    unfold gen_is, succ_word in Hgs. rewrite Hj in Hgs. by injection Hgs.
  - eapply lists_ext; [intros; apply Hwords|done|done|done|].
    eapply (lists_retire _ _ _ _ (slot :: gather mute_of rest)) with (v := signals j);
      [exact H5|unfold sig_word; by rewrite Hj| |exact Hng|exact HI'|set_solver|done].
    unfold gen_is, sig_word in Hgg. rewrite Hj in Hgg. by injection Hgg.
  - eapply turns_ext; [intros; apply Hwords|done|done|done|]. eapply turns_retire; [|exact HI'].
    eapply turns_ext, H6; try done. unfold handed. gat. solve_Permutation.
  - eapply history_retire; [exact H7|exact HI|by left|exact HI'|set_solver|set_solver|done].
  - eapply batches_ext, HB; [done|done|]. intros i Hi. apply Hgn. by intros ->.
  - eapply (feeds_retire _ _ _ _ _ _ _ (gather finishing_of rest) _ _ (gather results_of rest) _ I' _ gn' slot) in HE;
      [|by left|exact HI'|set_solver|exact Hgn| |].
    + eapply feeds_ext, HE; try done. intros i _. apply Hwords.
    + intros i res Hi. split; [intros ->; by apply HC, (results_closed _ _ res)|by right].
    + intros d i Hd%feeds_tokens. by eapply Hone.
  - intros i c a d [Hne Hi]%HI'. rewrite Hgn by done. apply H8. done.
  - intros d i Hd. rewrite Hgn by (by eapply Haw). by apply H9.
  - eapply phases_frame, H13; try done.
    + intros i Hi. apply Hgn. intros ->. apply elem_of_app in Hi as [?|?]; done.
    + intros i Hi. split; apply Hwords.
    + intros i Hi. split; [apply Hwords|done].
    + intros i Hi. split; [apply Hwords|done].
Qed.

(** Inside finishJob nothing panics, and every step keeps the invariant. *)
Lemma keeps_finishing sh rest slot r p :
  Inv sh (Finishing slot r p :: rest) → bounded sh → keeps sh (Finishing slot r p) rest.
Proof.
  intros H Hb. destruct p as [| | |g sg h| |g h| | | | | |].
  - by apply keeps_FinishLoad.
  - by apply keeps_CloseSuccessors.
  - by apply keeps_CloseSignals.
  - destruct (decide (sg = NoSlot)) as [->|]; [by apply keeps_signalled|by apply keeps_SendSignals].
  - by apply keeps_DropSignal.
  - destruct (decide (h = NoSlot)) as [->|]; [by apply keeps_walked|by apply keeps_WalkSuccessors].
  - by apply keeps_LowerSuccessor.
  - by apply keeps_ArriveSuccessor.
  - by apply keeps_DropSuccessor.
  - by apply keeps_AdvanceSuccessors.
  - by apply keeps_AdvanceSignals.
  - by apply keeps_ReleaseSlot.
Qed.
End walk.
