(* ===== verification/JobGraphHistory.v ===== *)
(** * What a job graph does, whatever the interleaving

    One lemma for each place of a goroutine inside Notify, then every step of
    the system: each keeps the invariant, and no goroutine panics. *)

From S2P Require Import Prelude Pool JobGraph JobGraphSpec JobGraphLists JobGraphTurns JobGraphFeeds JobGraphInv JobGraphStep.
From S2P Require Import JobGraphLink JobGraphFinish.

#[local] Set Default Proof Using "All".

Section arm.
Context {PJ PE PG V : Type}.
Context `{!SlotPool PJ job, !SlotPool PE successorEdge, !SlotPool PG signalEdge}.
Context `{!SlotPoolLaws PJ job, !SlotPoolLaws PE successorEdge, !SlotPoolLaws PG signalEdge}.
Implicit Types (sh : shared PJ PE PG V) (t : thread V) (rest ts : list (thread V)).
Implicit Types (L : list link) (G : list arm) (gn : N → N).

Lemma keeps_TakeSignalEdge sh rest h sig :
  Inv sh (Notifying h sig TakeSignalEdge :: rest) → bounded sh → keeps sh (Notifying h sig TakeSignalEdge) rest.
Proof.
  intros (L & G & I & gn & H) Hb. unfold keeps, exec, exec_arming.
  destruct H as [H1 H2 H3 H4 H5 H6 H7 HB HE H8 H9 H10 H11 H12 H13]. gat. apply Forall_cons in H13 as [_ H13].
  case_decide as E.
  - do 2 eexists. split; [done|]. exists L, G, I, gn. split; gat; try done. constructor; [by left|done].
  - destruct (slots_take _ _ (mkSignalEdge NoSlot (Some sig)) H3 (bo_sedges _ Hb))
      as (p1 & pg & e & -> & -> & Hr & He & Hk). cbn [mbind option_bind].
    do 2 eexists. split; [done|]. exists L, G, I, gn. split; gat; try done.
    + eapply slots_repr_perm, Hr. solve_Permutation.
    + apply lists_sedges; [|done]. intros e' He'. apply Hk, elem_of_app. by left.
    + constructor; [|by apply phases_sedges]. split; [done|by exists NoSlot].
Qed.

Lemma inv_sedge sh t rest L G I gn e :
  inv sh (t :: rest) L G I gn → sedges_of t = [e] →
  slots_repr (signalEdges (graph sh)) (e :: (aedge <$> G) ++ gather sedges_of rest).
Proof.
  intros H Ht. eapply slots_repr_perm, inv_sedges, H. rewrite gather_cons, Ht. solve_Permutation.
Qed.

(** What a goroutine that arms a signal finds in the word of the job's signals. *)
Lemma inv_arming sh rest L G I gn h sig p :
  inv sh (Notifying h sig p :: rest) L G I gn → hslot h ≠ NoSlot →
  ∃ j, job_at sh (hslot h) = Some j ∧
    if link_refuses (signals j) (hgeneration h) then over (trace sh) h
    else hgeneration h = gn (hslot h) ∧ hslot h ∈ I ∧ (hslot h ∉ gather mute_of (Notifying h sig p :: rest)).
Proof.
  intros H H0. assert (Hk : known (trace sh) h).
  { eapply (inv_notified _ _ _ _ _ _ H h sig). by left. }
  destruct (inv_known_slot _ _ _ _ _ _ h H Hk H0) as [[j Hj] Hpast]. exists j. split; [done|].
  assert (Hv : sig_word sh (hslot h) = Some (signals j)) by (unfold sig_word; by rewrite Hj).
  assert (Hd : (hgeneration h < gn (hslot h))%N ∨ hgeneration h = gn (hslot h) ∧ hslot h ∈ I) by (destruct Hpast; tauto).
  pose proof (lists_refuses _ _ _ _ _ _ _ _ h _ (inv_sigs _ _ _ _ _ _ H) Hv Hd) as Href.
  destruct (link_refuses _ _); [|done]. eapply inv_refused; [done|done|].
  destruct Href as [?|[_ ?]]; [by left|right; by apply mute_closed].
Qed.

Lemma keeps_ArmLoad sh rest h sig e :
  Inv sh (Notifying h sig (ArmLoad e) :: rest) → keeps sh (Notifying h sig (ArmLoad e)) rest.
Proof.
  intros (L & G & I & gn & H). unfold keeps, exec, exec_arming.
  assert (Hph : hslot h ≠ NoSlot ∧ ∃ nxt, sedge_at sh e = Some (mkSignalEdge nxt (Some sig))).
  { by apply inv_phase, Forall_cons in H as [? _]. }
  destruct Hph as (H0 & nxt & He). destruct (inv_arming _ _ _ _ _ _ _ _ _ H H0) as (j & Hj & Href).
  rewrite Hj. cbn [mbind option_bind]. pose proof (inv_sedge _ _ _ _ _ _ _ e H eq_refl) as Hre.
  destruct H as [H1 H2 H3 H4 H5 H6 H7 HB HE H8 H9 H10 H11 H12 H13]. gat. apply Forall_cons in H13 as [_ H13].
  destruct (link_refuses _ _) eqn:E.
  - do 2 eexists. split; [done|]. exists L, G, I, gn. split; gat; try done. by constructor.
  - unfold sedge_at in He. rewrite He. cbn [mbind option_bind signal].
    destruct (slots_put _ _ _ (mkSignalEdge (word_head (signals j)) (Some sig)) Hre) as (pg & Ep & Hr & Hat & Hk).
    unfold word_head in Ep. rewrite Ep. cbn [mbind option_bind].
    do 2 eexists. split; [done|]. exists L, G, I, gn. split; gat; try done.
    + eapply slots_repr_perm, Hr. solve_Permutation.
    + apply lists_sedges; [|done]. intros e' He'. apply Hk, elem_of_app. by left.
    + constructor; [done|by apply phases_sedges].
Qed.

Lemma keeps_ArmSwap sh rest h sig e old :
  Inv sh (Notifying h sig (ArmSwap e old) :: rest) → keeps sh (Notifying h sig (ArmSwap e old)) rest.
Proof.
  intros (L & G & I & gn & H). unfold keeps, exec, exec_arming.
  assert (Hph : hslot h ≠ NoSlot ∧ sedge_at sh e = Some (mkSignalEdge (word_head old) (Some sig)) ∧
    link_refuses old (hgeneration h) = false) by (by apply inv_phase, Forall_cons in H as [? _]).
  destruct Hph as (H0 & He & Href0). destruct (inv_arming _ _ _ _ _ _ _ _ _ H H0) as (j & Hj & Href).
  rewrite Hj. cbn [mbind option_bind]. pose proof (inv_sedge _ _ _ _ _ _ _ e H eq_refl) as Hre.
  destruct (slots_repr_at _ _ e Hre) as (He0 & Heb & _); [by left|].
  assert (HX : hslot h ∈ I → hslot h ∉ gather building_of rest).
  { intros HI Hx. eapply inv_building; [done| |exact HI]. by gat. }
  destruct H as [H1 H2 H3 H4 H5 H6 H7 HB HE H8 H9 H10 H11 H12 H13]. gat. apply Forall_cons in H13 as [_ H13].
  case_decide as E.
  2: { do 2 eexists. split; [done|]. exists L, G, I, gn. split; gat; try assumption.
       constructor; [|done]. split; [done|]. by eexists. }
  rewrite E, Href0 in Href. destruct Href as (Eg & HI & HM).
  destruct (set_job_spec _ _ _ _ (set_signals j (packList (hgeneration h) e)) H1 Hj) as (p & -> & Hs).
  cbn [mbind option_bind]. do 2 eexists. split; [done|]. exists L, (mkArm e h sig :: G), I, gn.
  pose proof (λ k, stored_same successors _ _ _ _ _ k Hs Hj eq_refl) as Es.
  pose proof (λ k, stored_word signals _ _ _ _ k Hs) as Eg'.
  pose proof (λ k, stored_same waiting _ _ _ _ _ k Hs Hj eq_refl) as Ew.
  split; gat; try done.
  - by apply (st_repr _ _ _ _ Hs).
  - eapply lists_ext, H4; [apply Es|done..].
  - eapply (lists_push _ _ (sig_word sh)) with (v := old); cbn [apred aedge asig]; try done.
    rewrite <- E. unfold sig_word. by rewrite Hj.
  - eapply turns_ext, H6; [intros; apply Ew|done..].
  - by eapply feeds_store.
  - intros h' sig' Hin. eapply H11. by right.
  - intros h' sig'. change (trace (with_jobs sh p)) with (trace sh). rewrite (H12 h' sig'). f_equal.
    by rewrite fmap_cons, <- Permutation_middle.
  - eapply phases_frame, H13; try done; intros i Hi.
    + unfold succ_word, sig_word. split; [by apply Es|]. change (job_at (with_jobs sh p) i) with (slots_at p i).
      rewrite Eg', decide_False; [done|]. intros ->. by destruct (HX HI).
    + split; [by apply Es|done].
    + split.
      * unfold sig_word. change (job_at (with_jobs sh p) i) with (slots_at p i).
        rewrite Eg', decide_False; [done|]. by intros ->.
      * apply of_job_cons_ne. cbn. intros ->. by cbn in HM.
Qed.

Lemma keeps_DropArmed sh rest h sig e :
  Inv sh (Notifying h sig (DropArmed e) :: rest) → keeps sh (Notifying h sig (DropArmed e)) rest.
Proof.
  intros (L & G & I & gn & H). unfold keeps, exec, exec_arming.
  pose proof (inv_sedge _ _ _ _ _ _ _ e H eq_refl) as Hre.
  destruct (slots_repr_at _ _ e Hre) as (_ & _ & [ed Hed]); [by left|]. rewrite Hed. cbn [mbind option_bind].
  destruct H as [H1 H2 H3 H4 H5 H6 H7 HB HE H8 H9 H10 H11 H12 H13]. gat. apply Forall_cons in H13 as [Hph H13].
  destruct (slots_put _ _ _ (mkSignalEdge (snext ed) None) Hre) as (pg & -> & Hr & Hat & Hk). cbn [mbind option_bind].
  assert (Hkeep : ∀ e', e' ∈ (aedge <$> G) ++ gather sedges_of rest → slots_at (slots_release pg e) e' = sedge_at sh e').
  { intros e' He'. rewrite slots_release_at. by apply Hk. }
  do 2 eexists. split; [done|]. exists L, G, I, gn. split; gat; try done.
  - by apply slots_release_repr.
  - apply lists_sedges; [|done]. intros e' He'. apply Hkeep, elem_of_app. by left.
  - constructor; [exact Hph|by apply phases_sedges].
Qed.

Lemma keeps_SendNow sh rest h sig :
  Inv sh (Notifying h sig SendNow :: rest) → keeps sh (Notifying h sig SendNow) rest.
Proof.
  intros (L & G & I & gn & H). do 2 eexists. split; [done|]. exists L, G, I, gn.
  destruct H as [H1 H2 H3 H4 H5 H6 H7 HB HE H8 H9 H10 H11 H12 H13]. gat. apply Forall_cons in H13 as [Hph H13].
  assert (Hl : legal (Sent h sig :: trace sh)).
  { apply legal_Sent; [by eapply hi_legal|exact Hph|]. rewrite H12. cbn. rewrite decide_True by done. cbn. lia. }
  split; gat; try done.
  - apply history_log; [done|by intros []|done].
  - by apply batches_log.
  - apply feeds_log; [by intros []|exact HE].
  - by apply deps_log.
  - by apply awaits_log.
  - eapply known_calls, H10.
  - eapply notified_log. intros h' sig' Hin. eapply H11. by right.
  - intros h' sig'. cbn [trace log]. rewrite armings_cons, sendings_cons, H12, filter_cons.
    rewrite decide_False by (by intros []).
    assert (Hiff : is_sent h' sig' (Sent (V := V) h sig) ↔ (h, sig) = (h', sig')) by (split; [by intros [-> ->]|by intros [= -> ->]]).
    destruct (decide (is_sent h' sig' (Sent (V := V) h sig))), (decide ((h, sig) = (h', sig'))); cbn [length]; [lia|tauto|tauto|lia].
  - by apply phases_log.
Qed.

Lemma keeps_arming sh rest h sig p :
  Inv sh (Notifying h sig p :: rest) → bounded sh → keeps sh (Notifying h sig p) rest.
Proof.
  intros H Hb. destruct p.
  - by apply keeps_TakeSignalEdge.
  - by apply keeps_ArmLoad.
  - by apply keeps_ArmSwap.
  - by apply keeps_DropArmed.
  - by apply keeps_SendNow.
Qed.
End arm.

(** ** The system *)

Section history.
Context {PJ PE PG V : Type}.
Context `{!SlotPool PJ job, !SlotPool PE successorEdge, !SlotPool PG signalEdge}.
Context `{!SlotPoolLaws PJ job, !SlotPoolLaws PE successorEdge, !SlotPoolLaws PG signalEdge}.
Implicit Types (sh : shared PJ PE PG V) (t : thread V) (rest ts : list (thread V)) (s : sys PJ PE PG V).
Implicit Types (L : list link) (G : list arm) (gn : N → N).

(** The states an execution reaches within the bounds. *)
Inductive reachable : sys PJ PE PG V → Prop :=
  | reach_initial : reachable initial
  | reach_step s s' : reachable s → bounded (sh s) → step s s' → reachable s'.

Lemma Inv_initial : Inv (sh (initial (PJ := PJ) (PE := PE) (PG := PG) (V := V))) [].
Proof.
  exists [], [], [], (λ _, 0%N).
  assert (Hno : ∀ {A} (f : job → A) i, f <$> job_at (sh (initial (PJ := PJ) (PE := PE) (PG := PG) (V := V))) i = None).
  { intros A f i. unfold job_at. cbn. by rewrite slots_empty_at. }
  split; try (by intros; set_solver).
  - apply slots_repr_empty.
  - apply slots_repr_empty.
  - apply slots_repr_empty.
  - split; try (intros ? v; unfold succ_word; by rewrite Hno); try done. intros x Hx. by apply not_elem_of_nil in Hx.
  - split; try (intros ? v; unfold sig_word; by rewrite Hno); try done. intros x Hx. by apply not_elem_of_nil in Hx.
  - split; try (intros ? v; unfold wait_count; by rewrite Hno); try (intros i Hi; by apply not_elem_of_nil in Hi). constructor.
  - split; [apply legal_nil|intros; by match goal with Hin : _ ∈ _ |- _ => apply not_elem_of_nil in Hin end..].
  - split; [constructor|intros i Hi; by apply not_elem_of_nil in Hi..].
  - split; try constructor; intros; by repeat match goal with
      | Hin : _ ∈ _ |- _ => apply not_elem_of_nil in Hin
      | Hin : keyed _ _ _ _ _ _ |- _ => destruct Hin as [Hin _]
      end.
  - intros d i [(x & Hx & _)|Hx]; by apply not_elem_of_nil in Hx.
Qed.

(** ** The steps of the system *)

Lemma keeps_all sh t rest : Inv sh (t :: rest) → bounded sh → keeps sh t rest.
Proof.
  intros H Hb. destruct t as [b|b p|[|slot b]|slot b|slot r p|h sig p].
  - by exists sh, (Some (Handling b)).
  - by apply keeps_acquiring.
  - by apply keeps_submitted.
  - by apply keeps_Submitting.
  - by apply keeps_SubmitArrive.
  - by apply keeps_finishing.
  - by apply keeps_arming.
Qed.

Lemma Inv_perm sh ts ts' : ts ≡ₚ ts' → Inv sh ts → Inv sh ts'.
Proof. intros Hp (L & G & I & gn & H). exists L, G, I, gn. by eapply inv_perm. Qed.

Lemma Inv_publish sh ts : Inv sh ts → Inv sh (Handling [] :: ts).
Proof.
  intros (L & G & I & gn & [H1 H2 H3 H4 H5 H6 H7 HB HE H8 H9 H10 H11 H12 H13]). exists L, G, I, gn.
  split; gat; try done. by constructor.
Qed.

Lemma schedules_known sh a sh' c :
  schedules sh a sh' (Some c) →
  graph sh' = graph sh ∧ running sh' = running sh ∧ trace sh' = trace sh ∧ Forall (known (trace sh)) (deps_of c).
Proof.
  intros H. remember (Some c) as oc eqn:E. destruct H as [[t|] ? ? ? ? ? Hk|[t|] ? ? ? ? ? ? Hk|? Hk]; cbn in E |- *;
    try done; injection E as <-; split_and!; try done; unfold deps_of; cbn; apply Forall_app.
  - split; [done|]. constructor; [by left|done].
  - apply Forall_cons in Hk as [? ?]. split; [done|]. by constructor.
  - split; [done|]. constructor; [by left|done].
Qed.

(** The arg given is where no other job's is; a Join has none. *)
Lemma schedules_args sh a sh' c :
  schedules sh a sh' (Some c) →
  (ctask c ≠ 0%N ∧ args sh !! key c = None ∧ ∃ v, a = Some v ∧ args sh' = <[key c := v]> (args sh)) ∨
  (ctask c = 0%N ∧ hslot (cfrom c) = NoSlot ∧ args sh' = args sh).
Proof.
  intros H. remember (Some c) as oc eqn:E. destruct H as [[t|] ? ? ? Ht Ha _|[t|] ? ? ? ? Ht Ha _|? _]; cbn in E |- *;
    try done; injection E as <-; [left..|by right]; (split_and!; [intros E; by apply Ht, (f_equal Some)|done|by eexists]).
Qed.

Lemma Inv_schedule sh sh' batch rest c a :
  Inv sh (Handling batch :: rest) → schedules sh a sh' (Some c) →
  Inv sh' (Acquiring batch (NewSlot (Ask c a)) :: rest).
Proof.
  intros (L & G & I & gn & [H1 H2 H3 H4 H5 H6 H7 HB HE H8 H9 H10 H11 H12 H13]) Hs. exists L, G, I, gn.
  destruct (schedules_known _ _ _ _ Hs) as (E1 & E2 & E3 & Hk). apply schedules_args in Hs. destruct sh as [gr ar ru tr], sh' as [gr' ar' ru' tr'].
  cbn in E1, E2, E3, Hk. subst gr' ru' tr'. split; gat; try done.
  - cbn [args] in Hs |- *. destruct Hs as [(Ht & Ha & v & -> & ->)|(Ht & Hf & ->)].
    + by apply (feeds_call _ _ _ _ _ _ _ _ _ _ _ (Ask c (Some v))).
    + by apply feeds_call_join.
  - intros c' [->|Hc]%elem_of_cons; [done|]. by apply H10.
  - apply Forall_cons in H13 as [_ H13]. constructor; [done|]. eapply phases_frame, H13; done.
Qed.

Lemma Inv_submit sh batch rest : Inv sh (Handling batch :: rest) → Inv sh (Submitting batch :: rest).
Proof.
  intros (L & G & I & gn & [H1 H2 H3 H4 H5 H6 H7 HB HE H8 H9 H10 H11 H12 H13]). exists L, G, I, gn.
  split; gat; try done. apply Forall_cons in H13 as [_ H13]. by constructor.
Qed.

Lemma Inv_notify sh ts h sig :
  Inv sh ts → known (trace sh) h → Inv (log sh (Armed h sig)) (Notifying h sig TakeSignalEdge :: ts).
Proof.
  intros (L & G & I & gn & [H1 H2 H3 H4 H5 H6 H7 HB HE H8 H9 H10 H11 H12 H13]) Hk. exists L, G, I, gn.
  assert (Hl : legal (Armed h sig :: trace sh)) by (apply legal_Armed; [by eapply hi_legal|done]).
  split; gat; try done.
  - apply history_log; [done|by intros []|done].
  - by apply batches_log.
  - apply feeds_log; [by intros []|exact HE].
  - by apply deps_log.
  - by apply awaits_log.
  - eapply known_calls, H10.
  - intros h' sig' [[= -> ->]|Hin]%elem_of_cons; apply known_mono; [done|]. by eapply H11.
  - intros h' sig'. cbn [trace log]. rewrite armings_cons, sendings_cons, H12, filter_cons.
    rewrite (decide_False (P := is_sent _ _ _)) by (by intros []).
    assert (Hiff : is_armed h' sig' (Armed (V := V) h sig) ↔ (h, sig) = (h', sig'))
      by (split; [by intros [-> ->]|by intros [= -> ->]]).
    destruct (decide (is_armed h' sig' (Armed (V := V) h sig))), (decide ((h, sig) = (h', sig')));
      cbn [length]; [lia|tauto|tauto|lia].
  - constructor; [done|]. by apply phases_log.
Qed.

Lemma Inv_run sh ts slot before after sh' h a result :
  Inv sh ts → running sh = before ++ slot :: after → runJob sh slot = Some (sh', h, a) →
  Inv (mkShared (graph sh') (args sh') (before ++ after) (Ran h a :: trace sh'))
    (Finishing slot result FinishLoad :: ts).
Proof.
  intros (L & G & I & gn & H) Erun Hrun. exists L, G, I, gn.
  assert (Hh : slot ∈ handed sh ts).
  { unfold handed. rewrite Erun, !elem_of_app. left. right. by left. }
  pose proof (inv_handed _ _ _ _ _ _ _ H Hh) as HI.
  assert (Hf : slot ∉ gather finishing_of ts).
  { pose proof (tu_nodup _ _ _ _ (inv_turns _ _ _ _ _ _ H)) as Hn. unfold handed in Hn.
    apply NoDup_app in Hn as (_ & Hd & _). specialize (Hd slot). rewrite Erun in Hd. set_solver. }
  assert (HC : slot ∉ gather closed_of ts) by (intros Hc; by apply Hf, closed_finishing).
  assert (Ht : slot ∉ gather tokens_of ts ++ (lsucc <$> L)) by (by apply (tu_arf _ _ _ _ (inv_turns _ _ _ _ _ _ H))).
  destruct (hi_live _ _ _ _ _ _ _ (inv_history _ _ _ _ _ _ H) slot HI) as (c & a0 & Hsched).
  unfold runJob in Hrun. destruct (inv_slot_at _ _ _ _ _ _ _ H HI) as [j Hj].
  rewrite Hj, (inv_handle _ _ _ _ _ _ slot H HI HC) in Hrun. cbn [mbind option_bind] in Hrun.
  assert (E : graph sh' = graph sh ∧ trace sh' = trace sh ∧ h = mkHandle slot (gn slot) ∧
    args sh' = (if decide (task j = 0%N) then args sh else delete (task j, arg j) (args sh)) ∧
    a = if decide (task j = 0%N) then None else args sh !! (task j, arg j)).
  { case_decide; by injection Hrun as <- <- <-. }
  destruct E as (E1 & E2 & -> & E3 & ->). rewrite E1, E2, E3. clear Hrun.
  destruct H as [H1 H2 H3 H4 H5 H6 H7 HB HE H8 H9 H10 H11 H12 H13].
  split; gat; try done.
  - eapply turns_ext, H6; try done. unfold handed. gat. cbn [running]. rewrite Erun. solve_Permutation.
  - apply (history_run _ _ _ _ (running sh)); try done. rewrite Erun. solve_Permutation.
  - by apply batches_log.
  - eapply feeds_ext; [..|eapply (feeds_run _ _ _ _ _ _ _ _ _ _ _ slot c a0 (task j, arg j)); [exact HE|..]]; try done.
    + by eapply hi_legal.
    + intros Hl. apply Ht, elem_of_app. left. apply linking_tokens, elem_of_app. by left.
    + intros d Hd. by apply Ht, (feeds_tokens _ _ d).
    + unfold task_arg. by rewrite Hj.
  - by apply deps_log.
  - by apply awaits_log.
  - eapply known_calls, H10.
  - eapply notified_log, H11.
  - constructor; [done|]. eapply phases_frame, H13; try done. intros d. apply over_mono.
Qed.

Lemma step_keeps s s' : Inv (sh s) (threads s) → bounded (sh s) → step s s' → Inv (sh s') (threads s').
Proof.
  intros H Hb Hs. inversion Hs; subst; cbn [sh threads].
  - match goal with Hp : threads _ ≡ₚ _ |- _ => apply (Inv_perm _ _ _ Hp) in H end.
    destruct (keeps_all _ _ _ H Hb) as (sh2 & o & E & ?). congruence.
  - by apply Inv_publish.
  - eapply Inv_schedule; [|done]. by eapply Inv_perm.
  - apply Inv_submit. by eapply Inv_perm.
  - by eapply Inv_run.
  - by apply Inv_notify.
Qed.

Lemma reachable_Inv s : reachable s → Inv (sh s) (threads s).
Proof. induction 1; [apply Inv_initial|by eapply step_keeps]. Qed.

(** With nobody inside and nothing to run, a job there is waits for one that
    was scheduled before it. *)
Lemma waits_for_earlier sh L G I gn after before h c a :
  inv sh [] L G I gn → running sh = [] → trace sh = after ++ Scheduled h c a :: before →
  hgeneration h = gn (hslot h) → hslot h ∈ I →
  ∃ d c' a', Scheduled d c' a' ∈ before ∧ hgeneration d = gn (hslot d) ∧ hslot d ∈ I.
Proof.
  intros H Hrun Etr Eg Hi. pose proof (hi_legal _ _ _ _ _ _ _ (inv_history _ _ _ _ _ _ H)) as Hleg.
  assert (Htok : hslot h ∈ lsucc <$> L).
  { destruct (decide (hslot h ∈ lsucc <$> L)) as [|Hn]; [done|]. exfalso.
    apply (tu_arf _ _ _ _ (inv_turns _ _ _ _ _ _ H) (hslot h) Hi) in Hn.
    unfold handed in Hn. rewrite Hrun in Hn. by apply not_elem_of_nil in Hn. }
  apply list_elem_of_fmap in Htok as (x & Ex & Hx).
  destruct (lo_preds _ _ _ _ _ _ _ _ (inv_succs _ _ _ _ _ _ H) x Hx) as [Hp Eg'].
  destruct (inv_awaits _ _ _ _ _ _ H (lpred x) (hslot h)) as (c' & a' & Hs & Hd); [left; by exists x|].
  assert (Eh : mkHandle (hslot h) (gn (hslot h)) = h) by (rewrite <- Eg; by destruct h). rewrite Eh in Hs.
  assert (Hin : Scheduled h c a ∈ trace sh) by (rewrite Etr; apply elem_of_app; right; by left).
  destruct (legal_scheduled_once _ _ _ _ _ _ Hleg Hs Hin) as [-> ->].
  rewrite Etr in Hleg. apply legal_suffix, legal_scheduled_deps in Hleg as [Hleg Hk].
  destruct (legal_known before (lpred x) Hleg (Hk _ Hd)) as [Hz|(c2 & a2 & Hs2)]; [|by exists (lpred x), c2, a2].
  destruct (inv_slot _ _ _ _ _ _ (hslot (lpred x)) H) as [Hnz _]; [apply elem_of_app; by right|done].
Qed.

(** So there is none: the one scheduled first would wait for nothing. *)
Lemma nothing_waits sh L G I gn : inv sh [] L G I gn → running sh = [] → I = [].
Proof.
  intros H Hrun.
  assert (Hnone : ∀ before after, trace sh = after ++ before → ∀ h c a,
    Scheduled h c a ∈ before → hgeneration h = gn (hslot h) → hslot h ∉ I).
  { induction before as [|e before IH]; intros after Etr h c a Hin Eg Hi; [by apply not_elem_of_nil in Hin|].
    assert (Etr' : trace sh = (after ++ [e]) ++ before) by (by rewrite Etr, <- (assoc_L (++))).
    apply elem_of_cons in Hin as [<-|Hin]; [|by eapply (IH (after ++ [e]))].
    destruct (waits_for_earlier _ _ _ _ _ _ _ _ _ _ H Hrun Etr Eg Hi) as (d & c' & a' & ? & ? & ?).
    by eapply (IH (after ++ [Scheduled h c a])). }
  destruct I as [|i I]; [done|exfalso].
  destruct (hi_live _ _ _ _ _ _ _ (inv_history _ _ _ _ _ _ H) i) as (c & a & Hs); [by left|].
  eapply (Hnone (trace sh) []); [done|exact Hs|done|]. by left.
Qed.
End history.
