(* ===== verification/JobGraphPlay.v ===== *)
(** * What a job graph does, and an execution of it

    The theorems on [reachable] states, and [play]: an execution written out
    as the list of what happens in it, over the pools of
    kernel/container/pool.go, for the theorems to be applied to. *)

From S2P Require Import Prelude Pool JobGraph JobGraphSpec JobGraphLists JobGraphTurns JobGraphFeeds JobGraphInv JobGraphStep.
From S2P Require Import JobGraphLink JobGraphFinish JobGraphHistory.

#[local] Set Default Proof Using "All".

(** ** Executions as data *)

Definition system : Type := sys (Pool job) (Pool successorEdge) (Pool signalEdge) N.

(** What happens next: the [k]th goroutine makes a step, schedules, or
    submits its batch; the [k]th job handed over runs; one publishes or
    notifies. *)
Inductive action :=
  | Execute (k : nat)
  | Publishes
  | Schedules (k : nat) (t index value : N) (deps : list JobHandle)
  | SchedulesAfter (k : nat) (t index : N) (from : JobHandle) (deps : list JobHandle)
  | Joins (k : nat) (deps : list JobHandle)
  | Submits (k : nat)
  | Runs (k : nat) (result : N)
  | Notifies (h : JobHandle) (sig : N).

Definition knows (tr : list (event N)) (h : JobHandle) : bool :=
  bool_decide (hslot h = NoSlot) ||
  existsb (λ e, match e with Answered h' => bool_decide (h' = h) | _ => false end) tr.

Definition within (s : shared (Pool job) (Pool successorEdge) (Pool signalEdge) N) : bool :=
  (Z.of_nat (length (pchunks (jobs (graph s)))) <? 2 ^ 24 - 1)%Z &&
  (Z.of_nat (length (pchunks (successorEdges (graph s)))) <? 2 ^ 24 - 1)%Z &&
  (Z.of_nat (length (pchunks (signalEdges (graph s)))) <? 2 ^ 24 - 1)%Z &&
  forallb (forallb (λ j, waiting j <? 2 ^ 31 - 1)%Z) (pchunks (jobs (graph s))) &&
  forallb (λ e, match e with Scheduled h _ _ => hgeneration h <? 2 ^ 32 - 1 | _ => true end)%N (trace s).

(** Handlers of the [k]th goroutine schedule what [f] says. *)
Definition handles (s : system) (k : nat) (ok : bool)
    (a : option N) (f : shared (Pool job) (Pool successorEdge) (Pool signalEdge) N) (c : option call) : option system :=
  match threads s !! k, c with
  | Some (Handling batch), Some c =>
      if ok then Some (mkSys f (Acquiring batch (NewSlot (Ask c a)) :: delete k (threads s))) else None
  | _, _ => None
  end.

Definition unused (s : system) (t index : N) : bool :=
  bool_decide (t ≠ 0%N) && bool_decide (args (sh s) !! (t, index) = None).

Definition happens (s : system) (a : action) : option system :=
  match a with
  | Execute k =>
      t ← threads s !! k;
      '(s', o) ← exec (sh s) t;
      Some (mkSys s' (option_list o ++ delete k (threads s)))
  | Publishes => Some (mkSys (sh s) (Handling [] :: threads s))
  | Schedules k t index value deps =>
      let '(s', c) := Schedule (sh s) (Some t) index value deps in
      handles s k (unused s t index && forallb (knows (trace (sh s))) deps) (Some value) s' c
  | SchedulesAfter k t index from deps =>
      let '(s', c) := ScheduleAfter (sh s) (Some t) index 0%N from deps in
      handles s k (unused s t index && forallb (knows (trace (sh s))) (from :: deps)) (Some 0%N) s' c
  | Joins k deps => handles s k (forallb (knows (trace (sh s))) deps) None (sh s) (Some (Join deps))
  | Submits k =>
      match threads s !! k with
      | Some (Handling batch) => Some (mkSys (sh s) (Submitting batch :: delete k (threads s)))
      | _ => None
      end
  | Runs k result =>
      slot ← running (sh s) !! k;
      '(s', h, a) ← runJob (sh s) slot;
      Some (mkSys (mkShared (graph s') (args s') (delete k (running (sh s))) (Ran h a :: trace s'))
              (Finishing slot result FinishLoad :: threads s))
  | Notifies h sig =>
      if knows (trace (sh s)) h then
        Some (mkSys (log (sh s) (Armed h sig)) (Notifying h sig TakeSignalEdge :: threads s))
      else None
  end.

Fixpoint play (s : system) (l : list action) : option system :=
  match l with
  | [] => Some s
  | a :: l => if within (sh s) then s' ← happens s a; play s' l else None
  end.

Lemma knows_known tr h : knows tr h = true → known tr h.
Proof.
  intros [?%bool_decide_eq_true|(e & Hin & He)%existsb_exists]%orb_true_iff; [by left|right].
  destruct e; try done. apply bool_decide_eq_true in He as <-. by apply list_elem_of_In.
Qed.

Lemma knows_all tr deps : forallb (knows tr) deps = true → Forall (known tr) deps.
Proof. rewrite forallb_forall, Forall_forall. intros H d Hd. apply knows_known, H, list_elem_of_In, Hd. Qed.

Lemma within_bounded s : within s = true → bounded s.
Proof.
  unfold within. rewrite !andb_true_iff, !Z.ltb_lt. intros ((((H1 & H2) & H3) & H4) & H5). split; try done.
  - intros i j Hj. unfold job_at in Hj. cbn in Hj. unfold At in Hj.
    destruct (pchunks (jobs (graph s)) !! _) as [chunk|] eqn:Ec; [|done]. cbn in Hj.
    apply list_elem_of_lookup_2, list_elem_of_In in Ec, Hj.
    rewrite forallb_forall in H4. specialize (H4 _ Ec). rewrite forallb_forall in H4.
    by apply Z.ltb_lt, H4.
  - intros h c a Hin%list_elem_of_In. rewrite forallb_forall in H5. by apply N.ltb_lt, (H5 _ Hin).
Qed.

Lemma handles_step s k ok a f c s' :
  handles s k ok a f c = Some s' → (ok = true → schedules (sh s) a f c) → step s s'.
Proof.
  unfold handles. intros H Hok. destruct (threads s !! k) as [[batch| | | | |]|] eqn:Ek; try done.
  destruct c as [c|]; [|done]. destruct ok; [|done]. injection H as <-.
  apply step_schedule; [by apply delete_Permutation|by apply Hok].
Qed.

Lemma happens_step s a s' : happens s a = Some s' → step s s'.
Proof.
  destruct a as [k| |k t index value deps|k t index from deps|k deps|k|k result|h sig]; cbn [happens].
  - intros (t & Ht & ([sh' o] & E & [= <-])%bind_Some)%bind_Some. eapply step_exec; [|done]. by apply delete_Permutation.
  - intros [= <-]. apply step_publish.
  - intros H. eapply handles_step; [exact H|]. intros [[Ht%bool_decide_eq_true Ha%bool_decide_eq_true]%andb_true_iff Hk%knows_all]%andb_true_iff.
    apply (schedules_Schedule (sh s) (Some t) index value deps); [by intros [= ->]|done|done].
  - intros H. eapply handles_step; [exact H|]. intros [[Ht%bool_decide_eq_true Ha%bool_decide_eq_true]%andb_true_iff Hk%knows_all]%andb_true_iff.
    apply (schedules_ScheduleAfter (sh s) (Some t) index 0%N from deps); [by intros [= ->]|done|done].
  - intros H. eapply handles_step; [exact H|]. intros Hk%knows_all. by apply schedules_Join.
  - destruct (threads s !! k) as [[batch| | | | |]|] eqn:Ek; try done. intros [= <-].
    apply step_submit. by apply delete_Permutation.
  - intros (slot & Hs & ([[sh' h] a] & E & [= <-])%bind_Some)%bind_Some. rewrite delete_take_drop.
    eapply step_run; [|exact E]. by rewrite take_drop_middle.
  - destruct (knows _ _) eqn:E; [|done]. intros [= <-]. by apply step_notify, knows_known.
Qed.

Lemma play_reachable l s s' : reachable s → play s l = Some s' → reachable s'.
Proof.
  revert s. induction l as [|a l IH]; intros s Hr; cbn [play]; [by intros [= <-]|].
  destruct (within (sh s)) eqn:E; [|done]. intros (s2 & H2 & Hp)%bind_Some. eapply IH, Hp.
  eapply reach_step; [exact Hr|by apply within_bounded|by apply happens_step in H2].
Qed.

(** A job answers [42], after which a second one runs; a signal is armed for
    the first while it runs. *)
Definition executes (n : nat) : list action := replicate n (Execute 0).

Definition demonstration : list action :=
  [Publishes; Schedules 0 1 1 10 []] ++ executes 7 ++
  [SchedulesAfter 0 2 1 (mkHandle 1 0) []] ++ executes 10 ++
  [Submits 0] ++ executes 4 ++
  [Notifies (mkHandle 1 0) 9] ++ executes 2 ++ [Runs 0 42; Execute 0; Execute 0; Execute 1] ++ executes 12 ++
  [Runs 0 7] ++ executes 8.

(** ** The theorems *)

Section claims.
Context {PJ PE PG V : Type}.
Context `{!SlotPool PJ job, !SlotPool PE successorEdge, !SlotPool PG signalEdge}.
Context `{!SlotPoolLaws PJ job, !SlotPoolLaws PE successorEdge, !SlotPoolLaws PG signalEdge}.
Implicit Types (s : sys PJ PE PG V).

(** C1: whatever goroutines publish, finish jobs and arm signals at once, and
    however their accesses interleave, what the lock-free graph does is what
    its contract allows: a job arrives at the lock combiner once, and only
    when its batch was submitted and everything it depends on has finished;
    it runs once and finishes once; a signal is sent after the finish it was
    armed for, at most once an arming.  And no goroutine panics. *)
Theorem job_graph_refines s :
  reachable s →
  legal (trace (sh s)) ∧
  (bounded (sh s) → ∀ t, t ∈ threads s → ∃ sh' o, exec (sh s) t = Some (sh', o)).
Proof.
  intros H%reachable_Inv. split.
  - destruct H as (L & G & I & gn & H). by eapply hi_legal, inv_history.
  - intros Hb t Ht. apply list_elem_of_split in Ht as (l1 & l2 & E). rewrite E in H.
    apply (Inv_perm _ _ (t :: l1 ++ l2)) in H; [|solve_Permutation].
    destruct (keeps_all _ _ _ H Hb) as (sh' & o & E' & _). eauto.
Qed.

(** C2: nothing is left behind: once no goroutine is inside the graph and no
    job handed on is still to run, every job ever scheduled has finished, and
    every signal was sent as often as it was armed. *)
Theorem no_job_left_behind s :
  reachable s → threads s = [] → running (sh s) = [] →
  (∀ h c a, Scheduled h c a ∈ trace (sh s) → ∃ r, Finished h r ∈ trace (sh s)) ∧
  (∀ h sig, sendings (trace (sh s)) h sig = armings (trace (sh s)) h sig).
Proof.
  intros H%reachable_Inv Et Er. rewrite Et in H. destruct H as (L & G & I & gn & H).
  pose proof (nothing_waits _ _ _ _ _ H Er) as ->. split.
  - intros h c a Hs. destruct (hi_sched _ _ _ _ _ _ _ (inv_history _ _ _ _ _ _ H) h c a Hs) as [[_ ?]|[_ Hi]]; [done|].
    by apply not_elem_of_nil in Hi.
  - intros h sig. destruct G as [|x G].
    + pose proof (inv_sends _ _ _ _ _ _ H h sig) as E. cbn in E. lia.
    + destruct (lo_preds _ _ _ _ _ _ _ _ (inv_sigs _ _ _ _ _ _ H) x) as [Hi _]; [by left|].
      by apply not_elem_of_nil in Hi.
Qed.

(** C18: a job runs with what it is to run with: the very value the handler
    gave Schedule, which [Scheduled] records as it was given, or the result of
    the job it was scheduled after, whichever goroutine walks whose list when;
    and if that job had not finished when acquireJob answered, with its result
    for sure. *)
Theorem job_runs_with_its_arg s h c a0 a :
  reachable s → Ran h a ∈ trace (sh s) → Scheduled h c a0 ∈ trace (sh s) → ctask c ≠ 0%N →
  runs_with (trace (sh s)) h c a0 a.
Proof.
  intros H%reachable_Inv Hr Hs Hc. destruct H as (L & G & I & gn & H). by eapply fe_ran, Hc; [eapply inv_feeds|..].
Qed.
End claims.

(** ** The theorems on the execution *)

(** The system after the first [n] actions. *)
Definition after (n : nat) : system := default initial (play initial (take n demonstration)).

Lemma after_reachable n : is_Some (play initial (take n demonstration)) → reachable (after n).
Proof. intros [s Hs]. unfold after. rewrite Hs. eapply play_reachable, Hs. apply reach_initial. Qed.

Lemma job_graph_refines_witness :
  length (threads (after 30)) = 2 ∧ legal (trace (sh (after 30))) ∧
  (∀ t, t ∈ threads (after 30) → ∃ sh' o, exec (sh (after 30)) t = Some (sh', o)).
Proof.
  assert (Hr : reachable (after 30)) by (apply after_reachable; vm_compute; eexists; reflexivity).
  destruct (job_graph_refines (after 30) Hr) as [Hl He]. split; [vm_compute; reflexivity|]. split; [exact Hl|].
  apply He, within_bounded. vm_compute. reflexivity.
Defined.

Lemma no_job_left_behind_witness :
  (∃ r, Finished (mkHandle 2 0) r ∈ trace (sh (after 100))) ∧
  sendings (trace (sh (after 100))) (mkHandle 1 0) 9 = armings (trace (sh (after 100))) (mkHandle 1 0) 9.
Proof.
  assert (Hr : reachable (after 100)) by (apply after_reachable; vm_compute; eexists; reflexivity).
  destruct (no_job_left_behind (after 100) Hr) as [Hf Hs]; [vm_compute; reflexivity..|].
  split; [|apply Hs]. apply (Hf _ (mkCall 2 1 (mkHandle 1 0) []) (Some 0%N)).
  vm_compute. repeat (apply list_elem_of_here || apply list_elem_of_further).
Defined.

Lemma job_runs_with_its_arg_witness :
  runs_with (trace (sh (after 100))) (mkHandle 2 0) (mkCall 2 1 (mkHandle 1 0) []) (Some 0%N) (Some 42%N).
Proof.
  apply job_runs_with_its_arg.
  - apply after_reachable. vm_compute. eexists. reflexivity.
  - vm_compute. repeat (apply list_elem_of_here || apply list_elem_of_further).
  - vm_compute. repeat (apply list_elem_of_here || apply list_elem_of_further).
  - vm_compute. discriminate.
Defined.
