(* ===== verification/Entity.v ===== *)
(** * Entities of ecs/entity.go

    An entity is an index and a generation in one 64-bit word. *)

From S2P Require Import Prelude.

Abbreviation Entity := N (only parsing).

Definition NoEntity : Entity := 0%N.

Definition makeEntity (index generation : N) : Entity := N.lor (u64 (N.shiftl generation 32)) index.

Definition index (e : Entity) : N := u32 e.

Definition generation (e : Entity) : N := u32 (N.shiftr e 32).

Definition nextGeneration (generation : N) : N :=
  let generation := u32 (generation + 1) in
  if (generation =? 0)%N then u32 (generation + 1) else generation.

Lemma makeEntity_value i g : (i < 2 ^ 32)%N → (g < 2 ^ 32)%N → makeEntity i g = (g * 2 ^ 32 + i)%N.
Proof.
  intros Hi Hg. unfold makeEntity, u64. rewrite N.shiftl_mul_pow2, N.mod_small by lia.
  apply N.bits_inj. intros k. rewrite N.lor_spec. destruct (decide (k < 32)%N).
  - rewrite N.mul_pow2_bits_low by done. simpl.
    rewrite <- (N.mod_pow2_bits_low (g * 2 ^ 32 + i) 32 k) by done.
    rewrite N.add_comm, N.Div0.mod_add. by rewrite N.mod_small.
  - rewrite N.mul_pow2_bits_high by lia.
    assert (N.testbit i k = false) as ->.
    { destruct (decide (i = 0%N)) as [->|]; [apply N.bits_0|]. apply N.bits_above_log2.
      assert (N.log2 i < 32)%N by (apply N.log2_lt_pow2; lia). lia. }
    rewrite orb_false_r. replace k with (k - 32 + 32)%N at 2 by lia.
    rewrite <- N.div_pow2_bits. f_equal. rewrite N.add_comm, N.div_add by done.
    by rewrite N.div_small.
Qed.

Lemma index_make i g : (i < 2 ^ 32)%N → (g < 2 ^ 32)%N → index (makeEntity i g) = i.
Proof.
  intros Hi Hg. unfold index, u32. rewrite makeEntity_value by done.
  rewrite N.add_comm, N.Div0.mod_add. by apply N.mod_small.
Qed.

Lemma generation_make i g : (i < 2 ^ 32)%N → (g < 2 ^ 32)%N → generation (makeEntity i g) = g.
Proof.
  intros Hi Hg. unfold generation, u32. rewrite makeEntity_value, N.shiftr_div_pow2 by done.
  rewrite N.add_comm, N.div_add, N.div_small by done. by apply N.mod_small.
Qed.

Lemma index_bound e : (index e < 2 ^ 32)%N.
Proof. apply u32_bound. Qed.

Lemma generation_bound e : (generation e < 2 ^ 32)%N.
Proof. apply u32_bound. Qed.

Lemma make_entity_parts e : (e < 2 ^ 64)%N → makeEntity (index e) (generation e) = e.
Proof.
  intros He. rewrite makeEntity_value by (apply u32_bound). unfold index, generation, u32.
  rewrite N.shiftr_div_pow2, (N.mod_small (e / 2 ^ 32)) by (apply N.Div0.div_lt_upper_bound; lia).
  rewrite (N.div_mod e (2 ^ 32)) at 3 by done. lia.
Qed.

Lemma entity_eq e1 e2 : (e1 < 2 ^ 64)%N → (e2 < 2 ^ 64)%N →
  index e1 = index e2 → generation e1 = generation e2 → e1 = e2.
Proof. intros H1 H2 Ei Eg. rewrite <- (make_entity_parts e1), <- (make_entity_parts e2) by done. congruence. Qed.

Lemma makeEntity_bound i g : (i < 2 ^ 32)%N → (g < 2 ^ 32)%N → (makeEntity i g < 2 ^ 64)%N.
Proof. intros. rewrite makeEntity_value by done. lia. Qed.

Lemma nextGeneration_pos g : nextGeneration g ≠ 0%N.
Proof. unfold nextGeneration. destruct (N.eqb_spec (u32 (g + 1)) 0) as [->|]; [done|done]. Qed.

Lemma nextGeneration_bound g : (nextGeneration g < 2 ^ 32)%N.
Proof. unfold nextGeneration. destruct (_ =? _)%N; apply u32_bound. Qed.

Lemma nextGeneration_succ g : (g < 2 ^ 32 - 1)%N → nextGeneration g = (g + 1)%N.
Proof.
  intros Hg. unfold nextGeneration. rewrite u32_small by lia.
  destruct (N.eqb_spec (g + 1) 0); [lia|done].
Qed.
