(* ===== verification/IndexTable.v ===== *)
(** * Paged tables of ecs/indextable.go

    A table addressed by entity index, its pages of 4096 entries allocated as
    they are first written.  What clients rely on is [entry]: every index has
    one, the zero value where no page is, a write through [atOrCreate] changes
    that one only, and [shrink] changes none. *)

From stdpp Require Import sorting.
From S2P Require Import Prelude.

Definition indexPageSize : nat := 4096.

Record indexTable (T : Type) := mkTable { pages : list (option (list T)) }.
Arguments mkTable {T} _.
Arguments pages {T} _.

Section table.
Context {T : Type} `{Zero T}.
Implicit Types t : indexTable T.

Definition emptyTable : indexTable T := mkTable [].

(** [index >> 12] and [index & 4095]. *)
Definition page_of (i : N) : nat := N.to_nat (N.shiftr i 12).
Definition offset_of (i : N) : nat := N.to_nat (N.land i 4095).

Definition at_ t (i : N) : option T :=
  page ← mjoin (pages t !! page_of i);
  page !! offset_of i.

(** The table once [atOrCreate] has made the page. *)
Definition create t (i : N) : option (indexTable T) :=
  let ps := pages t ++ replicate (page_of i + 1 - length (pages t)) None in
  p ← ps !! page_of i;
  match p with
  | Some _ => Some (mkTable ps)
  | None => ps' ← list_set ps (page_of i) (Some (replicate indexPageSize zero_value)); Some (mkTable ps')
  end.

(** A write through [at], a panic where the page does not exist. *)
Definition at_set t (i : N) (x : T) : option (indexTable T) :=
  page ← mjoin (pages t !! page_of i);
  page' ← list_set page (offset_of i) x;
  ps ← list_set (pages t) (page_of i) (Some page');
  Some (mkTable ps).

(** The entry that [atOrCreate] points to, changed by [f]. *)
Definition create_modify t (i : N) (f : T → T) : option (indexTable T) :=
  t' ← create t i;
  x ← at_ t' i;
  at_set t' i (f x).

(** One past the last page there, counting from [i]. *)
Fixpoint last_used (i used : nat) (ps : list (option (list T))) : nat :=
  match ps with
  | [] => used
  | Some _ :: ps => last_used (S i) (S i) ps
  | None :: ps => last_used (S i) used ps
  end.

(** [shrink], [isZero] telling a value whose bytes are all zero. *)
Definition shrink (isZero : T → bool) t : indexTable T :=
  let keep p := match p with
    | Some page => if forallb isZero page then None else Some page
    | None => None
    end in
  let ps := keep <$> pages t in
  mkTable (take (last_used 0 0 ps) ps).

(** ** Entries *)

Definition entry t (i : N) : T := default zero_value (at_ t i).

Definition pages_ok t : Prop := Forall (λ p, match p with Some page => length page = indexPageSize | None => True end) (pages t).

Lemma offset_lt i : offset_of i < indexPageSize.
Proof.
  unfold offset_of, indexPageSize. change 4095%N with (N.ones 12). rewrite N.land_ones.
  pose proof (N.mod_lt i (2 ^ 12)). lia.
Qed.

Lemma table_position_inj i j : page_of i = page_of j → offset_of i = offset_of j → i = j.
Proof.
  unfold page_of, offset_of. rewrite !N.shiftr_div_pow2. change 4095%N with (N.ones 12). rewrite !N.land_ones.
  intros E1%N2Nat.inj E2%N2Nat.inj. rewrite (N.div_mod i (2 ^ 12)), (N.div_mod j (2 ^ 12)) by done. congruence.
Qed.

Lemma at_Some t i : pages_ok t → is_Some (at_ t i) ↔ is_Some (mjoin (pages t !! page_of i)).
Proof.
  intros Hok. unfold at_. destruct (mjoin (pages t !! page_of i)) as [page|] eqn:E; [|by split; intros [? ?]].
  split; [by eexists|]. intros _. cbn [mbind option_bind]. apply lookup_lt_is_Some_2.
  destruct (pages t !! page_of i) as [[p|]|] eqn:Ep; [|done|done]. injection E as ->.
  unfold pages_ok in Hok. rewrite Forall_forall in Hok.
  pose proof (Hok (Some page) (list_elem_of_lookup_2 _ _ _ Ep)) as Hl. simpl in Hl. rewrite Hl. apply offset_lt.
Qed.

Lemma at_set_spec t i x :
  pages_ok t → is_Some (at_ t i) →
  ∃ t', at_set t i x = Some t' ∧ pages_ok t' ∧
    (∀ j, at_ t' j = if decide (j = i) then Some x else at_ t j).
Proof.
  intros Hok [y Hy]. unfold at_ in Hy. destruct (pages t !! page_of i) as [[page|]|] eqn:Ep; [|done|done].
  cbn [mjoin option_join mbind option_bind] in Hy. unfold at_set. rewrite Ep. cbn [mjoin option_join mbind option_bind].
  pose proof (lookup_lt_Some _ _ _ Hy) as Ho. pose proof (lookup_lt_Some _ _ _ Ep) as Hp.
  rewrite list_set_Some by done. cbn [mbind option_bind]. rewrite list_set_Some by done. cbn [mbind option_bind].
  eexists. split; [done|]. unfold pages_ok in *. cbn [pages]. split.
  - apply Forall_insert; [done|]. rewrite length_insert. rewrite Forall_forall in Hok.
    exact (Hok (Some page) (list_elem_of_lookup_2 _ _ _ Ep)).
  - intros j. unfold at_. cbn [pages]. rewrite lookup_insert_decide by done.
    destruct (decide (page_of i = page_of j)) as [E|E].
    + cbn [mjoin option_join mbind option_bind]. rewrite lookup_insert_decide by done. rewrite <- E, Ep.
      cbn [mjoin option_join mbind option_bind].
      destruct (decide (offset_of i = offset_of j)) as [E'|E'], (decide (j = i)) as [->|Hn]; try done.
      destruct Hn. by apply table_position_inj.
    + by destruct (decide (j = i)) as [->|].
Qed.

Lemma replicate_None_at (l : list (option (list T))) n k : mjoin ((l ++ replicate n None) !! k) = mjoin (l !! k).
Proof.
  destruct (decide (k < length l)).
  - by rewrite lookup_app_l.
  - rewrite lookup_app_r by lia. rewrite (lookup_ge_None_2 l) by lia.
    rewrite replicate_lookup. by destruct (decide _).
Qed.

Lemma create_spec t i :
  pages_ok t → ∃ t', create t i = Some t' ∧ pages_ok t' ∧ is_Some (at_ t' i) ∧
    (∀ j, entry t' j = entry t j) ∧ (∀ j, is_Some (at_ t j) → at_ t' j = at_ t j).
Proof.
  intros Hok. unfold create. set (n := page_of i + 1 - length (pages t)).
  set (ps := pages t ++ replicate n None).
  assert (Hps : pages_ok (mkTable ps)).
  { unfold pages_ok, ps. cbn [pages]. apply Forall_app. split; [done|]. by apply Forall_replicate. }
  assert (Hsame : ∀ j, at_ (mkTable ps) j = at_ t j).
  { intros j. unfold at_. cbn [pages]. unfold ps. by rewrite replicate_None_at. }
  destruct (lookup_lt_is_Some_2 ps (page_of i)) as [p Ep].
  { unfold ps. rewrite length_app, length_replicate. unfold n. lia. }
  rewrite Ep. cbn [mbind option_bind]. destruct p as [page|].
  - exists (mkTable ps). split_and!; [done|done| | |].
    + apply at_Some; [done|]. cbn [pages]. rewrite Ep. by eexists.
    + intros j. unfold entry. by rewrite Hsame.
    + intros j _. apply Hsame.
  - pose proof (lookup_lt_Some _ _ _ Ep) as Hlt. rewrite list_set_Some by done. cbn [mbind option_bind].
    eexists. split; [done|]. assert (Hok' : pages_ok (mkTable (<[page_of i := Some (replicate indexPageSize zero_value)]> ps))).
    { unfold pages_ok in *. cbn [pages] in *. apply Forall_insert; [done|]. apply length_replicate. }
    assert (Hnew : ∀ j, at_ (mkTable (<[page_of i := Some (replicate indexPageSize zero_value)]> ps)) j =
      if decide (page_of i = page_of j) then Some zero_value else at_ t j).
    { intros j. rewrite <- Hsame. unfold at_. cbn [pages]. rewrite lookup_insert_decide by done.
      destruct (decide (page_of i = page_of j)) as [E|E]; [|done]. cbn [mjoin option_join mbind option_bind].
      apply lookup_replicate_2, offset_lt. }
    assert (Hnone : ∀ j, page_of i = page_of j → at_ t j = None).
    { intros j E. rewrite <- Hsame. unfold at_. cbn [pages]. by rewrite <- E, Ep. }
    split_and!; [done| | |].
    + rewrite Hnew. by rewrite decide_True.
    + intros j. unfold entry. rewrite Hnew. destruct (decide _) as [E|E]; [|done]. by rewrite Hnone.
    + intros j [x Hx]. rewrite Hnew. destruct (decide _) as [E|E]; [|done]. by rewrite Hnone in Hx.
Qed.

Lemma create_modify_spec t i f :
  pages_ok t → ∃ t', create_modify t i f = Some t' ∧ pages_ok t' ∧ is_Some (at_ t' i) ∧
    (∀ j, entry t' j = if decide (j = i) then f (entry t i) else entry t j) ∧
    (∀ j, is_Some (at_ t j) → is_Some (at_ t' j)).
Proof.
  intros Hok. unfold create_modify. destruct (create_spec t i Hok) as (t1 & -> & Hok1 & [x Hx] & He & Hk).
  cbn [mbind option_bind]. rewrite Hx. cbn [mbind option_bind].
  destruct (at_set_spec t1 i (f x) Hok1) as (t2 & -> & Hok2 & Hat); [by eexists|].
  exists t2. split_and!; [done|done| | |].
  - rewrite Hat. by rewrite decide_True.
  - intros j. unfold entry at 1. rewrite Hat. destruct (decide (j = i)) as [->|]; [|apply He].
    simpl. f_equal. rewrite <- He. unfold entry. by rewrite Hx.
  - intros j Hj. rewrite Hat. destruct (decide _); [by eexists|]. rewrite Hk; done.
Qed.

Lemma at_entry t i x : at_ t i = Some x → entry t i = x.
Proof. intros E. unfold entry. by rewrite E. Qed.

Lemma entry_nonzero t i : entry t i ≠ zero_value → at_ t i = Some (entry t i).
Proof. unfold entry. by destruct (at_ t i). Qed.

(** Cutting trailing missing pages changes no lookup. *)
Lemma last_used_beyond (ps : list (option (list T))) i used k :
  last_used i used ps ≤ i + k → mjoin (ps !! k) = None.
Proof using Type.
  assert (Hmono : ∀ (ps : list (option (list T))) i used, used ≤ i → used ≤ last_used i used ps).
  { clear. intros ps. induction ps as [|[page|] ps IH]; intros i used Hu; simpl; [done| |apply IH; lia].
    specialize (IH (S i) (S i)). lia. }
  revert i used k. induction ps as [|[page|] ps IH]; intros i used k; simpl; [done| |].
  - intros Hle. destruct k as [|k]; [specialize (Hmono ps (S i) (S i)); lia|]. simpl. apply (IH (S i) (S i)). lia.
  - intros Hle. destruct k as [|k]; [done|]. simpl. apply (IH (S i) used). lia.
Qed.

Lemma trailing_none (ps : list (option (list T))) k :
  mjoin (take (last_used 0 0 ps) ps !! k) = mjoin (ps !! k).
Proof using Type.
  destruct (decide (k < last_used 0 0 ps)); [by rewrite lookup_take_lt|].
  rewrite lookup_take_ge by lia. by rewrite (last_used_beyond ps 0 0 k) by lia.
Qed.

Lemma shrink_spec isZero t :
  (∀ x, isZero x = true → x = zero_value) → pages_ok t →
  pages_ok (shrink isZero t) ∧ (∀ j, entry (shrink isZero t) j = entry t j) ∧
  (∀ j x, at_ (shrink isZero t) j = Some x → at_ t j = Some x).
Proof.
  intros Hz Hok. set (keep := λ p : option (list T), match p with
    | Some page => if forallb isZero page then None else Some page | None => None end).
  assert (Hat : ∀ j, at_ (shrink isZero t) j = (page ← mjoin ((keep <$> pages t) !! page_of j); page !! offset_of j)).
  { intros j. unfold at_, shrink. cbn [pages]. by rewrite trailing_none. }
  assert (Hkeep : ∀ j, at_ (shrink isZero t) j = at_ t j ∨ at_ (shrink isZero t) j = None ∧ entry t j = zero_value).
  { intros j. rewrite Hat, list_lookup_fmap. unfold entry, at_.
    destruct (pages t !! page_of j) as [[page|]|] eqn:Ep; [|by left|by left].
    cbn [fmap option_fmap option_map mjoin option_join mbind option_bind]. simpl.
    destruct (forallb isZero page) eqn:Ef; [right|by left]. split; [done|].
    destruct (page !! offset_of j) as [x|] eqn:Ex; [|done]. simpl. apply Hz.
    rewrite forallb_forall in Ef. apply Ef, list_elem_of_In. by eapply list_elem_of_lookup_2. }
  split_and!.
  - unfold pages_ok, shrink. cbn [pages]. apply Forall_take, Forall_fmap. unfold pages_ok in Hok.
    eapply Forall_impl; [done|]. intros [page|]; simpl; [|done]. intros Hl. by destruct (forallb isZero page).
  - intros j. unfold entry at 1. destruct (Hkeep j) as [->|[-> E]]; [done|]. by rewrite E.
  - intros j x E. destruct (Hkeep j) as [<-|[E' _]]; [done|congruence].
Qed.

Lemma empty_ok : pages_ok emptyTable.
Proof. constructor. Qed.
End table.

(** ** The pages of a table, walked in order

    Which indices a walk over a table's pages visits: [addresses], every index
    on a page that exists, in order.  [slot_address] is the walks'
    [p<<indexPageShift | i]. *)

Lemma lor_shift a b n : (b < 2 ^ n)%N → N.lor (N.shiftl a n) b = (a * 2 ^ n + b)%N.
Proof.
  intros Hb. rewrite N.shiftl_mul_pow2. symmetry.
  assert (E : N.land (a * 2 ^ n) b = 0%N); [|by rewrite N.add_nocarry_lxor, N.lxor_lor].
  apply N.bits_inj. intros k.
  rewrite N.land_spec, N.bits_0. destruct (decide (k < n)%N).
  - by rewrite N.mul_pow2_bits_low.
  - destruct (decide (b = 0%N)) as [->|]; [by rewrite N.bits_0, andb_false_r|].
    rewrite (N.bits_above_log2 b); [apply andb_false_r|]. assert (N.log2 b < n)%N by (apply N.log2_lt_pow2; lia). lia.
Qed.

Definition slot_address (p i : nat) : N := N.lor (N.shiftl (N.of_nat p) 12) (N.of_nat i).

Lemma slot_address_value p i : i < indexPageSize → slot_address p i = N.of_nat (p * indexPageSize + i).
Proof. unfold indexPageSize. intros Hi. unfold slot_address. rewrite lor_shift by lia. lia. Qed.

Lemma address_page p i : i < indexPageSize → page_of (slot_address p i) = p ∧ offset_of (slot_address p i) = i.
Proof.
  intros Hi. rewrite slot_address_value by done. unfold page_of, offset_of, indexPageSize in *.
  rewrite N.shiftr_div_pow2. change 4095%N with (N.ones 12). rewrite N.land_ones. split.
  - replace (N.of_nat (p * 4096 + i)) with (N.of_nat i + N.of_nat p * 2 ^ 12)%N by lia.
    rewrite N.div_add, N.div_small by lia. lia.
  - replace (N.of_nat (p * 4096 + i)) with (N.of_nat i + N.of_nat p * 2 ^ 12)%N by lia.
    rewrite N.Div0.mod_add, N.mod_small by lia. lia.
Qed.

Lemma elem_of_concat {A} (x : A) ls : x ∈ concat ls ↔ ∃ l, (l ∈ ls) ∧ x ∈ l.
Proof.
  induction ls as [|l ls IH]; simpl; [set_solver|]. rewrite elem_of_app, IH. set_solver.
Qed.

Lemma StronglySorted_concat_imap {A B} (R : relation B) (f : nat → A → list B) l :
  (∀ p x, l !! p = Some x → StronglySorted R (f p x)) →
  (∀ p q x y b c, p < q → l !! p = Some x → l !! q = Some y → b ∈ f p x → c ∈ f q y → R b c) →
  StronglySorted R (concat (imap f l)).
Proof.
  induction l as [|x l IH] using rev_ind; intros H1 H2; [constructor|].
  rewrite imap_app, concat_app. simpl. rewrite app_nil_r, Nat.add_0_r.
  assert (Hl : ∀ p y, l !! p = Some y → (l ++ [x]) !! p = Some y) by (intros; by apply lookup_app_l_Some).
  assert (Hx : (l ++ [x]) !! length l = Some x) by (by rewrite lookup_app_r, Nat.sub_diag).
  apply StronglySorted_app_2.
  - intros b c Hb Hc. apply elem_of_concat in Hb as (lb & Hlb & Hb). apply elem_of_lookup_imap in Hlb as (p & y & -> & Hp).
    apply (H2 p (length l) y x); auto. by eapply lookup_lt_Some.
  - apply IH; [intros; auto|]. intros p q y z b c Hpq Hp Hq. apply (H2 p q); auto.
  - by apply H1.
Qed.

Lemma concat_imap_singleton {A B} (f : nat → A → B) l : concat (imap (λ i x, [f i x]) l) = imap f l.
Proof. revert f. induction l as [|x l IH]; intros f; simpl; [done|]. f_equal. apply (IH (f ∘ S)). Qed.

(** The indices of the pages that exist. *)
Definition addresses {T} (t : indexTable T) : list N :=
  concat (imap (λ p page, match page with
    | None => []
    | Some page => imap (λ i _, slot_address p i) page
    end) (pages t)).

Lemma elem_of_addresses {T} (t : indexTable T) i : pages_ok t → i ∈ addresses t ↔ is_Some (at_ t i).
Proof.
  intros Hok. unfold addresses. rewrite elem_of_concat. split.
  - intros (l & Hl & Hi). apply elem_of_lookup_imap in Hl as (p & [page|] & -> & Hp); [|by apply not_elem_of_nil in Hi].
    apply elem_of_lookup_imap in Hi as (o & x & -> & Hx).
    unfold pages_ok in Hok. rewrite Forall_forall in Hok. pose proof (Hok _ (list_elem_of_lookup_2 _ _ _ Hp)) as Hlen. simpl in Hlen.
    destruct (address_page p o) as [E1 E2]; [rewrite <- Hlen; by eapply lookup_lt_Some|].
    unfold at_. rewrite E1, E2, Hp. cbn. by rewrite Hx.
  - intros [x Hx]. unfold at_ in Hx. destruct (pages t !! page_of i) as [[page|]|] eqn:Hp; [|done|done].
    cbn in Hx. exists (imap (λ o _, slot_address (page_of i) o) page). split.
    + apply elem_of_lookup_imap. by exists (page_of i), (Some page).
    + apply elem_of_lookup_imap. exists (offset_of i), x. split; [|done].
      destruct (address_page (page_of i) (offset_of i)) as [E1 E2]; [apply offset_lt|]. by apply table_position_inj.
Qed.

Lemma addresses_sorted {T} (t : indexTable T) : pages_ok t → StronglySorted N.lt (addresses t).
Proof.
  intros Hok. unfold pages_ok in Hok. rewrite Forall_forall in Hok.
  assert (Hlen : ∀ p page o (x : T), pages t !! p = Some (Some page) → page !! o = Some x → o < indexPageSize).
  { intros p page o x Hp Hx. rewrite <- (Hok _ (list_elem_of_lookup_2 _ _ _ Hp)). by eapply lookup_lt_Some. }
  apply StronglySorted_concat_imap.
  - intros p [page|] Hp; [|constructor].
    rewrite <- (concat_imap_singleton (λ i _, slot_address p i)).
    apply StronglySorted_concat_imap; [intros; repeat constructor|].
    intros i j x y b c Hij Hi Hj ->%list_elem_of_singleton ->%list_elem_of_singleton.
    rewrite !slot_address_value by eauto. lia.
  - intros p q [x|] [y|] b c Hpq Hp Hq Hb Hc; try (by apply not_elem_of_nil in Hb); try (by apply not_elem_of_nil in Hc).
    apply elem_of_lookup_imap in Hb as (i & ? & -> & Hi). apply elem_of_lookup_imap in Hc as (j & ? & -> & Hj).
    pose proof (Hlen _ _ _ _ Hp Hi). pose proof (Hlen _ _ _ _ Hq Hj).
    rewrite !slot_address_value by done. unfold indexPageSize in *. nia.
Qed.

Lemma addresses_NoDup {T} (t : indexTable T) : pages_ok t → NoDup (addresses t).
Proof.
  intros Hok. assert (G : ∀ l : list N, StronglySorted N.lt l → NoDup l); [|by apply G, addresses_sorted].
  intros l. induction 1 as [|x l Hl IH Hx]; [constructor|]. constructor; [|done].
  rewrite Forall_forall in Hx. intros Hin. specialize (Hx x Hin). lia.
Qed.
