(* ===== verification/Mask.v ===== *)
(** * Component masks of ecs/mask.go

    A mask is the words of a world ID's value, as many as the world ID has;
    component [id] is bit [id mod 64] of word [id / 64].  The bit operations
    do not check [id]: out of the words is undefined, [None] here. *)

From S2P Require Import Prelude Words.

Abbreviation mask := (list N) (only parsing).

Definition maskBits (words : nat) : nat := words * 64.

Definition noMask (words : nat) : mask := replicate words 0%N.

Definition maskWord (m : mask) (id : nat) : option N := m !! (id / 64).

Definition maskHas (m : mask) (id : nat) : option bool :=
  w ← maskWord m id; Some (negb (N.land w (N.shiftl 1 (N.of_nat (id mod 64))) =? 0)%N).

Definition maskSet (m : mask) (id : nat) : option mask :=
  list_modify m (id / 64) (λ w, N.lor w (N.shiftl 1 (N.of_nat (id mod 64)))).

Definition maskUnset (m : mask) (id : nat) : option mask :=
  list_modify m (id / 64) (λ w, N.ldiff w (N.shiftl 1 (N.of_nat (id mod 64)))).

(** The IDs [maskIDs] yields, in order. *)
Definition maskIDs (m : mask) : option (list nat) :=
  for_range (length m) (λ word ids,
    w ← m !! word;
    for_bits w (λ b ids, Some (ids ++ [word * 64 + N.to_nat b])) ids) [].

(** ** Masks as sets *)

Lemma mask_shift_bound id : word_bound (N.shiftl 1 (N.of_nat (id mod 64))).
Proof. rewrite N.shiftl_1_l. apply word_bound_pow2. pose proof (Nat.mod_upper_bound id 64). lia. Qed.

Lemma mask_shift_testbit id k :
  N.testbit (N.shiftl 1 (N.of_nat (id mod 64))) k = bool_decide (k = N.of_nat (id mod 64)).
Proof. rewrite N.shiftl_1_l, testbit_pow2. by apply bool_decide_ext. Qed.

Lemma mask_word_exists (m : mask) id : id < maskBits (length m) → ∃ w, m !! (id / 64) = Some w.
Proof. intros H. apply lookup_lt_is_Some_2, Nat.Div0.div_lt_upper_bound. unfold maskBits in H. lia. Qed.

Lemma maskHas_spec m id : id < maskBits (length m) → maskHas m id = Some (mask_has m id).
Proof.
  intros [w Hw]%mask_word_exists. unfold maskHas, maskWord, mask_has. rewrite Hw. cbn [mbind option_bind].
  by rewrite N.shiftl_1_l, land_bit_test.
Qed.

Lemma mask_same_bit i j : j / 64 = i / 64 → N.of_nat (j mod 64) = N.of_nat (i mod 64) → j = i.
Proof. intros E1 E2%Nat2N.inj. rewrite (mask_index i), (mask_index j). congruence. Qed.

Lemma mask_modify_spec (m : mask) id (f : N → N → N) (fb : bool → bool → bool) :
  id < maskBits (length m) → mask_bound m → (∀ b, fb b false = b) →
  (∀ x w, word_bound x → word_bound w → word_bound (f x w)) →
  (∀ x w j, N.testbit (f x w) j = fb (N.testbit x j) (N.testbit w j)) →
  ∃ m', list_modify m (id / 64) (λ w, f w (N.shiftl 1 (N.of_nat (id mod 64)))) = Some m' ∧
    length m' = length m ∧ mask_bound m' ∧
    ∀ j, mask_has m' j = fb (mask_has m j) (bool_decide (j = id)).
Proof.
  intros Hid Hm Hfb Hf Hbit. destruct (mask_word_exists m id Hid) as [w Hw].
  rewrite (list_modify_Some _ _ w) by done. eexists. split; [done|].
  pose proof (lookup_lt_Some _ _ _ Hw) as Hlt.
  split_and!; [by rewrite length_insert| |].
  - apply mask_bound_insert; [done|]. apply Hf; [by eapply mask_bound_lookup|apply mask_shift_bound].
  - intros j. rewrite mask_has_insert by done. destruct (decide (j / 64 = id / 64)) as [E|E].
    + rewrite Hbit, mask_shift_testbit. unfold mask_has. rewrite E, Hw. f_equal.
      apply bool_decide_ext. split; [by apply mask_same_bit|by intros ->].
    + rewrite bool_decide_false by (by intros ->). by rewrite Hfb.
Qed.

Lemma maskSet_spec m id :
  id < maskBits (length m) → mask_bound m →
  ∃ m', maskSet m id = Some m' ∧ length m' = length m ∧ mask_bound m' ∧
    ∀ j, mask_has m' j = mask_has m j || bool_decide (j = id).
Proof.
  intros Hid Hm. apply (mask_modify_spec m id N.lor orb); [done|done|apply orb_false_r|apply word_bound_lor|apply N.lor_spec].
Qed.

Lemma maskUnset_spec m id :
  id < maskBits (length m) → mask_bound m →
  ∃ m', maskUnset m id = Some m' ∧ length m' = length m ∧ mask_bound m' ∧
    ∀ j, mask_has m' j = mask_has m j && negb (bool_decide (j = id)).
Proof.
  intros Hid Hm. apply (mask_modify_spec m id N.ldiff (λ a b, a && negb b));
    [done|done|apply andb_true_r|by intros; apply word_bound_ldiff|apply N.ldiff_spec].
Qed.

Lemma mask_has_bound m j : mask_has m j = true → j < maskBits (length m).
Proof.
  intros H. destruct (decide (j < maskBits (length m))) as [|Hge]; [done|].
  unfold maskBits in Hge. rewrite mask_has_beyond in H by lia. done.
Qed.

Lemma noMask_has words j : mask_has (noMask words) j = false.
Proof. apply mask_has_replicate. Qed.

(** [maskIDs] yields the components of the mask, ascending, each once. *)
Lemma maskIDs_spec m :
  mask_bound m → maskIDs m = Some (filter (λ j, mask_has m j = true) (seq 0 (maskBits (length m)))).
Proof.
  intros Hm. unfold maskIDs.
  pose (Inv := λ (k : nat) (ids : list nat), ids = filter (λ j, mask_has m j = true) (seq 0 (maskBits k))).
  destruct (for_range_invariant Inv (λ word ids,
    w ← m !! word; for_bits w (λ b ids, Some (ids ++ [word * 64 + N.to_nat b])) ids) (length m) [])
    as (ids & -> & Hids); [done| |by rewrite Hids].
  intros word ids Hlt Hids. destruct (lookup_lt_is_Some_2 m word Hlt) as [w Hw]. rewrite Hw.
  cbn [mbind option_bind]. pose proof (mask_bound_lookup _ _ _ Hm Hw) as Hwb.
  rewrite for_bits_each by done. set (f := λ b : N, word * 64 + N.to_nat b).
  assert (Heach : ∀ l acc, for_each l (λ b ids, Some (ids ++ [f b])) acc = Some (acc ++ (f <$> l))).
  { intros l. induction l as [|b l IH]; intros acc; simpl; [by rewrite app_nil_r|].
    by rewrite IH, <- (assoc (++)). }
  exists (ids ++ (f <$> bit_list w)). split; [apply Heach|].
  unfold Inv in *. rewrite Hids. unfold maskBits.
  replace (S word * 64) with (word * 64 + 64) by lia. rewrite seq_app, filter_app. f_equal.
  unfold bit_list. simpl plus. replace (word * 64) with (word * 64 + 0) at 1 by lia. rewrite <- fmap_add_seq.
  rewrite (filter_of_fmap N.of_nat), (filter_of_fmap (Nat.add _)), <- list_fmap_compose.
  rewrite (filter_ext_in (λ x, N.testbit w (N.of_nat x) = true) (λ x, mask_has m (word * 64 + x) = true)).
  - apply list_fmap_ext. intros i x _. unfold f, compose. by rewrite Nat2N.id.
  - intros x Hx%elem_of_seq. by rewrite (mask_has_word m word x w) by (done || lia).
Qed.
