(* ===== verification/EntityTable.v ===== *)
(** * Entity tables of ecs/entitytable.go

    A table hands out the entities of its allocation range, makes them alive,
    ends them and takes their indices back.  The operations run in the option
    monad, [None] being a panic.  A [reserve] is one atomic addition and
    reads of what nothing else changes meanwhile, so it is one step. *)

From S2P Require Import Prelude Words Array Entity IndexTable Mask.

Record entitySlot := mkSlot {
  liveGeneration : N;
  lastGeneration : N;
  componentMask : mask
}.

Record entityTable := mkEntityTable {
  firstIndex : N;
  lastIndex : N;
  slots : indexTable entitySlot;
  freeEntities : Array Entity;
  reservationCount : Z;
  nextFreshIndex : Z;
  observing : bool;
  despawnedIndices : Array N;
  despawnedOutsideRange : indexTable N
}.

Definition with_slots t x := mkEntityTable (firstIndex t) (lastIndex t) x (freeEntities t)
  (reservationCount t) (nextFreshIndex t) (observing t) (despawnedIndices t) (despawnedOutsideRange t).
Definition with_free t x := mkEntityTable (firstIndex t) (lastIndex t) (slots t) x
  (reservationCount t) (nextFreshIndex t) (observing t) (despawnedIndices t) (despawnedOutsideRange t).
Definition with_count t x := mkEntityTable (firstIndex t) (lastIndex t) (slots t) (freeEntities t)
  x (nextFreshIndex t) (observing t) (despawnedIndices t) (despawnedOutsideRange t).
Definition with_fresh t x := mkEntityTable (firstIndex t) (lastIndex t) (slots t) (freeEntities t)
  (reservationCount t) x (observing t) (despawnedIndices t) (despawnedOutsideRange t).
Definition with_observing t x := mkEntityTable (firstIndex t) (lastIndex t) (slots t) (freeEntities t)
  (reservationCount t) (nextFreshIndex t) x (despawnedIndices t) (despawnedOutsideRange t).
Definition with_despawned t x := mkEntityTable (firstIndex t) (lastIndex t) (slots t) (freeEntities t)
  (reservationCount t) (nextFreshIndex t) (observing t) x (despawnedOutsideRange t).
Definition with_outside t x := mkEntityTable (firstIndex t) (lastIndex t) (slots t) (freeEntities t)
  (reservationCount t) (nextFreshIndex t) (observing t) (despawnedIndices t) x.

Inductive placeError := GenerationZero | InsideRange | WhereAlive | WhereDespawned.

Section table.
(** How many words the world ID has. *)
Context (words : nat).
Implicit Types t : entityTable.

#[local] Instance zero_slot : Zero entitySlot := mkSlot 0 0 (noMask words).

Definition zeroTable : entityTable :=
  mkEntityTable 0 0 emptyTable emptyArray 0 0 false emptyArray emptyTable.

Definition init (first last : N) (prepared : nat) : option entityTable :=
  slots ← for_range prepared (λ i sl, create sl (u32 (first + N.of_nat i))) emptyTable;
  Some (mkEntityTable first last slots emptyArray 0 (Z.of_N first) false emptyArray emptyTable).

Definition alive t (e : Entity) : bool :=
  match at_ (slots t) (index e) with
  | None => false
  | Some slot => ((liveGeneration slot =? generation e) && negb (liveGeneration slot =? 0))%N
  end.

(** What [live] yields from page [p]. *)
Definition live_page (p : nat) (page : list entitySlot) : list (Entity * entitySlot) :=
  omap (λ '(i, slot),
    if (liveGeneration slot =? 0)%N then None else
    Some (makeEntity (u32 (N.lor (N.shiftl (N.of_nat p) 12) (N.of_nat i))) (liveGeneration slot), slot))
    (imap pair page).

Definition live t : list (Entity * entitySlot) :=
  concat (imap (λ p page, match page with None => [] | Some page => live_page p page end) (pages (slots t))).

Definition mask_of t (e : Entity) : option (mask * bool) :=
  if negb (alive t e) then Some (noMask words, false) else
  slot ← at_ (slots t) (index e);
  Some (componentMask slot, true).

Definition set_mask slot m : entitySlot := mkSlot (liveGeneration slot) (lastGeneration slot) m.

Definition setComponent t (e : Entity) (id : nat) : option entityTable :=
  slot ← at_ (slots t) (index e);
  m ← maskSet (componentMask slot) id;
  sl ← at_set (slots t) (index e) (set_mask slot m);
  Some (with_slots t sl).

Definition unsetComponent t (e : Entity) (id : nat) : option entityTable :=
  slot ← at_ (slots t) (index e);
  m ← maskUnset (componentMask slot) id;
  sl ← at_set (slots t) (index e) (set_mask slot m);
  Some (with_slots t sl).

Definition reserve t : option (entityTable * Entity) :=
  let count := i64 (reservationCount t + 1) in
  let reservation := i64 (count - 1) in
  let t := with_count t count in
  let freeCount := Z.of_nat (ALen (freeEntities t)) in
  if (reservation <? freeCount)%Z then
    e ← AAt (freeEntities t) (Z.to_nat (freeCount - 1 - reservation));
    Some (t, e)
  else
    let index := i64 (i64 (nextFreshIndex t + reservation) - freeCount) in
    if (Z.of_N (lastIndex t) <? index)%Z then Some (t, NoEntity)
    else Some (t, makeEntity (Z.to_N (index mod 2 ^ 32)) 1).

Definition setAlive t (e : Entity) : option entityTable :=
  sl ← create_modify (slots t) (index e)
    (λ slot, mkSlot (generation e) (generation e) (componentMask slot));
  Some (with_slots t sl).

Definition burn t (reserved : Entity) : option (entityTable * bool) :=
  sl ← create (slots t) (index reserved);
  slot ← at_ sl (index reserved);
  if (lastGeneration slot =? generation reserved)%N then Some (with_slots t sl, false) else
  sl ← at_set sl (index reserved) (mkSlot (liveGeneration slot) (generation reserved) (componentMask slot));
  Some (with_slots t sl, true).

(** [reserved] at its next generation. *)
Definition next_entity (reserved : Entity) : Entity :=
  makeEntity (index reserved) (nextGeneration (generation reserved)).

Definition reclaim_free (i : nat) (st : entityTable * nat) : option (entityTable * nat) :=
  let '(t, kept) := st in
  reserved ← AAt (freeEntities t) i;
  '(t, burned) ← burn t reserved;
  if burned : bool then
    a ← ASet (freeEntities t) kept (next_entity reserved);
    Some (with_free t a, S kept)
  else Some (t, kept).

Definition reclaim_fresh (i : nat) (t : entityTable) : option entityTable :=
  let reserved := makeEntity (Z.to_N ((nextFreshIndex t + Z.of_nat i) mod 2 ^ 32)) 1 in
  '(t, burned) ← burn t reserved;
  if burned : bool then
    '(a, _) ← AAppend (freeEntities t) (next_entity reserved);
    Some (with_free t a)
  else Some t.

Definition settleReservations t (reclaim : bool) : option entityTable :=
  let reservations := reservationCount t in
  if (reservations =? 0)%Z then Some t else
  let freeCount := Z.of_nat (ALen (freeEntities t)) in
  let takenFree := Z.min reservations freeCount in
  let takenFresh := Z.min (reservations - takenFree) (Z.of_N (lastIndex t) + 1 - nextFreshIndex t) in
  let kept := Z.to_nat (freeCount - takenFree) in
  '(t, kept) ← (if reclaim
    then for_from (Z.to_nat (freeCount - takenFree)) (Z.to_nat takenFree) reclaim_free (t, kept)
    else Some (t, kept));
  a ← AResize (freeEntities t) kept;
  let t := with_free t a in
  t ← (if reclaim then for_range (Z.to_nat takenFresh) reclaim_fresh t else Some t);
  Some (with_count (with_fresh t (i64 (nextFreshIndex t + takenFresh))) 0).

Definition spawn t : option (entityTable * Entity) :=
  t ← (if negb (observing t) then settleReservations t false else Some t);
  '(t, e) ← reserve t;
  if (e =? NoEntity)%N then Some (t, e) else
  t ← setAlive t e;
  Some (t, e).

Definition spawnReserved t (e : Entity) : option (entityTable * bool) :=
  let slot := at_ (slots t) (index e) in
  if (match slot with Some slot => negb (liveGeneration slot =? 0) | None => false end)%N
  then Some (t, false) else
  let last := match slot with Some slot => lastGeneration slot | None => 0%N end in
  if negb (generation e =? nextGeneration last)%N then Some (t, false) else
  t ← setAlive t e;
  Some (t, true).

Definition inside t (i : N) : bool := ((firstIndex t <=? i) && (i <=? lastIndex t))%N.

(** The bit of [index] in its word of [despawnedOutsideRange]. *)
Definition outside_bit (i : N) : N := N.shiftl 1 (N.land i 63).

Definition place t (e : Entity) : option (entityTable * option placeError) :=
  if (generation e =? 0)%N then Some (t, Some GenerationZero) else
  if inside t (index e) then Some (t, Some InsideRange) else
  if (match at_ (slots t) (index e) with Some slot => negb (liveGeneration slot =? 0) | None => false end)%N
  then Some (t, Some WhereAlive) else
  if (match at_ (despawnedOutsideRange t) (N.shiftr (index e) 6) with
      | Some word => negb (N.land word (outside_bit (index e)) =? 0) | None => false end)%N
  then Some (t, Some WhereDespawned) else
  t ← setAlive t e;
  Some (t, None).

Definition free t (i : N) : option entityTable :=
  if inside t i then
    slot ← at_ (slots t) i;
    '(a, _) ← AAppend (freeEntities t) (makeEntity i (nextGeneration (lastGeneration slot)));
    Some (with_free t a)
  else Some t.

Definition despawn t (e : Entity) : option (entityTable * (mask * bool)) :=
  match at_ (slots t) (index e) with
  | None => Some (t, (noMask words, false))
  | Some slot =>
    if (negb (liveGeneration slot =? generation e) || (liveGeneration slot =? 0))%N
    then Some (t, (noMask words, false)) else
    let m := componentMask slot in
    sl ← at_set (slots t) (index e) (mkSlot 0 (lastGeneration slot) (noMask words));
    let t := with_slots t sl in
    t ← (if observing t then
      '(a, _) ← AAppend (despawnedIndices t) (index e);
      let t := with_despawned t a in
      if negb (inside t (index e)) then
        o ← create_modify (despawnedOutsideRange t) (N.shiftr (index e) 6)
          (λ word, N.lor word (outside_bit (index e)));
        Some (with_outside t o)
      else Some t
    else t ← settleReservations t false; free t (index e));
    Some (t, (m, true))
  end.

Definition free_despawned (i : nat) t : option entityTable :=
  index ← AAt (despawnedIndices t) i;
  t ← (if negb (inside t index) then
    word ← at_ (despawnedOutsideRange t) (N.shiftr index 6);
    o ← at_set (despawnedOutsideRange t) (N.shiftr index 6) (N.ldiff word (outside_bit index));
    Some (with_outside t o)
  else Some t);
  free t index.

Definition endWindow t : option (entityTable * bool) :=
  if negb (observing t) then
    t ← settleReservations t false;
    Some (with_observing t true, true)
  else
    t ← settleReservations t true;
    t ← for_range (ALen (despawnedIndices t)) free_despawned t;
    a ← AResize (despawnedIndices t) 0;
    Some (with_despawned t a, false).

Definition shrink_table t : option entityTable :=
  a ← AShrink (freeEntities t);
  d ← AShrink (despawnedIndices t);
  Some (with_outside (with_despawned (with_free t a) d)
    (shrink (λ word, word =? 0)%N (despawnedOutsideRange t))).
End table.
