(* ===== verification/EntityLedger.v ===== *)
(** * The ledger of handed-out entities

    What an entity table keeps true of its slots, of the entities it hands
    out next and of the ones it handed out, apart from how the table lays
    them out: [taken] are the reservations since the last settlement, [rest]
    what is handed out next, [D] the indices despawned in this window, [R] the
    reservations not spawned, [H] all entities ever handed out, [k] a bound on
    the generations.  Each lemma is one thing that happens to an entity. *)

From S2P Require Import Prelude Words Entity Mask EntityTable.

Section ledger.
Context (words : nat) (first last : N).
Implicit Types (sl : N → entitySlot) (e : Entity) (R H : gset N).

Definition in_range (i : N) : Prop := (first <= i ∧ i <= last)%N.

#[export] Instance in_range_dec i : Decision (in_range i).
Proof using Type. unfold in_range. apply _. Defined.

(** [e] is the entity its index hands out next, and nothing is alive there. *)
Definition unborn sl e : Prop :=
  liveGeneration (sl (index e)) = 0%N ∧ generation e = nextGeneration (lastGeneration (sl (index e))).

Definition free_of (R : gset N) (i : N) : Prop := ∀ e, e ∈ R → index e ≠ i.

(** [i] holds a live entity, a reservation or one despawned in this window. *)
Definition in_use sl (D : list N) R (i : N) : Prop :=
  liveGeneration (sl i) ≠ 0%N ∨ (∃ e, (e ∈ R) ∧ index e = i) ∨ i ∈ D.

Definition slot_ok (slot : entitySlot) : Prop :=
  length (componentMask slot) = words ∧ mask_bound (componentMask slot) ∧
  (liveGeneration slot = 0%N → componentMask slot = noMask words) ∧
  (liveGeneration slot ≠ 0%N → liveGeneration slot = lastGeneration slot) ∧
  (lastGeneration slot < 2 ^ 32)%N.

Definition handed_ok e : Prop := (e < 2 ^ 64)%N ∧ in_range (index e) ∧ generation e ≠ 0%N.

Record ledger sl (taken rest : list Entity) (D : list N) R H (k : nat) : Prop := {
  lg_slots : ∀ i, slot_ok (sl i);
  lg_distinct : NoDup (index <$> taken ++ rest);
  lg_valid : ∀ e, e ∈ taken ++ rest ∨ e ∈ R ∨ e ∈ H → handed_ok e;
  lg_rest : ∀ e, e ∈ rest → unborn sl e ∧ (index e ∉ D) ∧ free_of R (index e);
  lg_taken : ∀ e, e ∈ taken → e ∈ R ∨ (lastGeneration (sl (index e)) = generation e) ∧
    (liveGeneration (sl (index e)) ≠ 0%N ∨ index e ∈ D);
  lg_reserved : ∀ e, e ∈ R → unborn sl e ∧ (index e ∉ D) ∧ (e ∈ H);
  lg_handed : ∀ e, e ∈ H → e ∈ R ∨ (generation e <= lastGeneration (sl (index e)))%N;
  lg_despawned : NoDup D ∧ ∀ i, i ∈ D → liveGeneration (sl i) = 0%N;
  lg_generations : ∀ i, in_range i → (lastGeneration (sl i) <= N.of_nat k)%N;
  lg_complete : ∀ i, in_range i → i ∈ index <$> rest ∨ in_use sl D R i;
  lg_beyond : ∀ i, liveGeneration (sl i) ≠ 0%N → (i < 2 ^ 32)%N
}.

Definition update sl (i : N) (slot : entitySlot) : N → entitySlot := λ j, if decide (j = i) then slot else sl j.

Lemma update_eq sl i x : update sl i x i = x.
Proof using Type. unfold update. by rewrite decide_True. Qed.

Lemma update_ne sl i j x : j ≠ i → update sl i x j = sl j.
Proof using Type. intros. unfold update. by rewrite decide_False. Qed.

Lemma unborn_update sl i x e : index e ≠ i → unborn (update sl i x) e ↔ unborn sl e.
Proof using Type. intros. unfold unborn. by rewrite update_ne. Qed.

Lemma in_use_update sl D R i j x : j ≠ i → in_use (update sl i x) D R j ↔ in_use sl D R j.
Proof using Type. intros. unfold in_use. by rewrite update_ne. Qed.

Lemma ledger_ext sl1 sl2 taken1 taken2 rest1 rest2 D R H k :
  (∀ i, sl1 i = sl2 i) → taken1 ≡ₚ taken2 → rest1 ≡ₚ rest2 →
  ledger sl1 taken1 rest1 D R H k → ledger sl2 taken2 rest2 D R H k.
Proof using Type.
  intros Es Et Er [Hs Hn Hv Hr Ht HR Hh [Hd1 Hd2] Hg Hc Hby].
  assert (Hu : ∀ e, unborn sl1 e ↔ unborn sl2 e) by (intros e; unfold unborn; by rewrite Es).
  assert (Hi : ∀ i, in_use sl1 D R i ↔ in_use sl2 D R i) by (intros i; unfold in_use; by rewrite Es).
  split.
  - intros i. rewrite <- Es. apply Hs.
  - by rewrite <- Et, <- Er.
  - intros e. rewrite <- Et, <- Er. apply Hv.
  - intros e. rewrite <- Er, <- Hu. apply Hr.
  - intros e. rewrite <- !Es, <- Et. apply Ht.
  - intros e. rewrite <- Hu. apply HR.
  - intros e. rewrite <- Es. apply Hh.
  - split; [done|]. intros i. rewrite <- Es. apply Hd2.
  - intros i. rewrite <- Es. apply Hg.
  - intros i. rewrite <- Er, <- Hi. apply Hc.
  - intros i. rewrite <- Es. apply Hby.
Qed.

Lemma ledger_weaken sl taken rest D R H k k' : k ≤ k' → ledger sl taken rest D R H k → ledger sl taken rest D R H k'.
Proof using Type. intros Hk [Hs Hn Hv Hr Ht HR Hh Hd Hg Hc Hby]. split; try done. intros i Hi%Hg. lia. Qed.

Lemma index_distinct (l : list Entity) e1 e2 :
  NoDup (index <$> l) → e1 ∈ l → e2 ∈ l → index e1 = index e2 → e1 = e2.
Proof using Type.
  intros Hn [i Hi]%list_elem_of_lookup [j Hj]%list_elem_of_lookup E.
  assert (i = j) as ->; [|congruence]. eapply NoDup_lookup; [done| |]; rewrite list_lookup_fmap, ?Hi, ?Hj; simpl; [done|by rewrite E].
Qed.

(** Below the last generation an unborn entity is one past its index's last. *)
Lemma unborn_generation sl e k :
  (lastGeneration (sl (index e)) <= N.of_nat k)%N → (N.of_nat k < 2 ^ 32 - 1)%N → unborn sl e →
  generation e = (lastGeneration (sl (index e)) + 1)%N.
Proof using Type. intros Hl Hk [_ ->]. apply nextGeneration_succ. lia. Qed.

Lemma unborn_unique sl e1 e2 :
  (e1 < 2 ^ 64)%N → (e2 < 2 ^ 64)%N → unborn sl e1 → unborn sl e2 → index e1 = index e2 → e1 = e2.
Proof using Type. intros ?? [_ E1] [_ E2] E. apply entity_eq; [done..|]. by rewrite E1, E2, E. Qed.

(** Settling without reclaiming forgets which reservations were taken. *)
Lemma ledger_settle sl taken rest D R H k : ledger sl taken rest D R H k → ledger sl [] rest D R H k.
Proof using Type.
  intros [Hs Hn Hv Hr Ht HR Hh Hd Hg Hc Hby]. split; try done.
  - rewrite fmap_app, NoDup_app in Hn. by destruct Hn as (_ & _ & Hn).
  - intros e He. apply Hv. set_solver.
  - by intros e He%not_elem_of_nil.
Qed.

(** The next entity was never handed out. *)
Lemma ledger_fresh sl taken rest D R H k e :
  ledger sl taken rest D R H k → (N.of_nat k < 2 ^ 32 - 1)%N → e ∈ rest → e ∉ H.
Proof using Type.
  intros L Hk He HH. destruct (lg_rest _ _ _ _ _ _ _ L e He) as (Hu & _ & Hf).
  destruct (lg_handed _ _ _ _ _ _ _ L e HH) as [HR|Hle]; [by destruct (Hf e HR)|].
  destruct (lg_valid _ _ _ _ _ _ _ L e) as (_ & Hi & _); [set_solver|].
  rewrite (unborn_generation sl e k) in Hle; [lia| |done|done]. by eapply lg_generations.
Qed.

Lemma ledger_reserve sl taken rest D R H k e :
  ledger sl taken (e :: rest) D R H k → ledger sl (taken ++ [e]) rest D (R ∪ {[e]}) (H ∪ {[e]}) k.
Proof using Type.
  intros [Hs Hn Hv Hr Ht HR Hh Hd Hg Hc Hby].
  assert (Hord : taken ++ e :: rest = (taken ++ [e]) ++ rest) by (by rewrite <- (assoc_L (++))).
  rewrite Hord in Hn. split; try done.
  - intros e'. rewrite <- Hord. intros He'. apply Hv. set_solver.
  - intros e' He'. destruct (Hr e') as (Hu & HD & Hf); [set_solver|]. split_and!; [done|done|].
    intros e2 He2. destruct (decide (e2 = e)) as [->|]; [|apply Hf; set_solver].
    intros E. assert (e = e') as <- by (apply (index_distinct _ e e' Hn); set_solver).
    rewrite fmap_app, NoDup_app in Hn. destruct Hn as (_ & Hx & _).
    apply (Hx (index e)); apply list_elem_of_fmap_2; set_solver.
  - intros e' He'. rewrite elem_of_app, list_elem_of_singleton in He'. destruct He' as [He'| ->]; [|left; set_solver].
    destruct (Ht e' He') as [?|?]; [left; set_solver|by right].
  - intros e' He'. rewrite elem_of_union, elem_of_singleton in He'. destruct He' as [He'| ->].
    + destruct (HR e' He') as (?&?&?). split_and!; [done|done|set_solver].
    + destruct (Hr e) as (?&?&?); [set_solver|]. split_and!; [done|done|set_solver].
  - intros e' He'. rewrite elem_of_union, elem_of_singleton in He'. destruct He' as [He'| ->]; [|left; set_solver].
    destruct (Hh e' He'); [left; set_solver|by right].
  - intros i Hi. destruct (Hc i Hi) as [Hx|[?|[(e'&?&?)|?]]].
    + rewrite fmap_cons in Hx. apply elem_of_cons in Hx as [-> |Hx]; [|by left].
      right. right. left. exists e. set_solver.
    + right. by left.
    + right. right. left. exists e'. set_solver.
    + right. by do 2 right.
Qed.

Lemma rest_index_ne sl taken rest D R H k e1 e2 :
  ledger sl taken rest D R H k → e1 ∈ R → e2 ∈ rest → index e2 ≠ index e1.
Proof using Type. intros L H1 H2 E. destruct (lg_rest _ _ _ _ _ _ _ L e2 H2) as (_ & _ & Hf). by apply (Hf e1 H1). Qed.

Definition born sl e : N → entitySlot :=
  update sl (index e) (mkSlot (generation e) (generation e) (componentMask (sl (index e)))).

Lemma slot_ok_born sl e : slot_ok (sl (index e)) → generation e ≠ 0%N →
  slot_ok (mkSlot (generation e) (generation e) (componentMask (sl (index e)))).
Proof using Type.
  intros (Hl & Hb & _) Hg. split_and!; cbn; [done|done|done|done|apply generation_bound].
Qed.

Lemma slots_ok_update sl i x : (∀ j, slot_ok (sl j)) → slot_ok x → ∀ j, slot_ok (update sl i x j).
Proof using Type. intros Hs Hx j. unfold update. by destruct (decide _). Qed.

Lemma beyond_update sl i x :
  (∀ j, liveGeneration (sl j) ≠ 0%N → (j < 2 ^ 32)%N) → (liveGeneration x ≠ 0%N → (i < 2 ^ 32)%N) →
  ∀ j, liveGeneration (update sl i x j) ≠ 0%N → (j < 2 ^ 32)%N.
Proof using Type. intros H Hx j. unfold update. destruct (decide _) as [->|]; [done|apply H]. Qed.

(** A reservation is spawned. *)
Lemma ledger_birth sl taken rest D R H k e :
  ledger sl taken rest D R H k → (N.of_nat k < 2 ^ 32 - 1)%N → e ∈ R →
  ledger (born sl e) taken rest D (R ∖ {[e]}) H (S k).
Proof using Type.
  intros L Hk He. pose proof L as [Hs Hn Hv Hr Ht HR Hh [Hd1 Hd2] Hg Hc Hby].
  destruct (HR e He) as (Hu & HD & HH). destruct (Hv e) as (Hb & Hi & Hg0); [set_solver|].
  pose proof (unborn_generation sl e k (Hg _ Hi) Hk Hu) as Hgen.
  assert (Hne : ∀ e', e' ∈ R → e' ≠ e → index e' ≠ index e).
  { intros e' He' Hx E. apply Hx. destruct (HR e' He') as (Hu' & _). destruct (Hv e') as (Hb' & _); [set_solver|].
    by apply (unborn_unique sl). }
  unfold born. split; try done.
  - apply slots_ok_update; [done|]. by apply slot_ok_born.
  - intros e' He'. apply Hv. set_solver.
  - intros e' He'. destruct (Hr e' He') as (?&?&Hf). rewrite unborn_update by (by eapply rest_index_ne).
    split_and!; [done|done|]. intros e2 He2. apply Hf. set_solver.
  - intros e' He'. destruct (decide (index e' = index e)) as [E|E].
    + right. rewrite E, update_eq. cbn [lastGeneration liveGeneration]. split; [|by left].
      destruct (Ht e' He') as [HR'|[El [Hl|Hl]]].
      * destruct (decide (e' = e)) as [->|Hx]; [done|]. by destruct (Hne e' HR' Hx).
      * rewrite E in Hl. by destruct Hu.
      * by rewrite E in Hl.
    + rewrite update_ne by done. destruct (Ht e' He') as [HR'|?]; [|by right]. left. set_solver.
  - intros e' [He' Hx]%elem_of_difference. rewrite elem_of_singleton in Hx.
    rewrite unborn_update by (by apply Hne). by apply HR.
  - intros e' He'. destruct (decide (e' = e)) as [->|Hx]; [right; by rewrite update_eq|].
    destruct (Hh e' He') as [?|Hle]; [left; set_solver|right].
    destruct (decide (index e' = index e)) as [E|E]; [|by rewrite update_ne].
    rewrite E, update_eq. cbn [lastGeneration]. rewrite E in Hle. lia.
  - split; [done|]. intros i Hi'. rewrite update_ne by (by intros ->). by apply Hd2.
  - intros i Hi'. destruct (decide (i = index e)) as [->|E].
    + rewrite update_eq. cbn [lastGeneration]. specialize (Hg _ Hi). lia.
    + rewrite update_ne by done. specialize (Hg i Hi'). lia.
  - intros i Hi'. destruct (decide (i = index e)) as [->|E].
    + right. left. by rewrite update_eq.
    + rewrite in_use_update by done. destruct (Hc i Hi') as [?|[?|[(e2&?&?)|?]]]; [by left|right..].
      * by left.
      * right. left. exists e2. split; [|done]. set_solver.
      * by do 2 right.
  - apply beyond_update; [done|]. intros _. apply index_bound.
Qed.

(** What lies outside the allocation range matters to none of the rest. *)
Lemma ledger_outside sl taken rest D R H k i x :
  ledger sl taken rest D R H k → ¬ in_range i → slot_ok x → (liveGeneration x = 0%N ∨ i ∉ D) → (i < 2 ^ 32)%N →
  ledger (update sl i x) taken rest D R H k.
Proof using Type.
  intros [Hs Hn Hv Hr Ht HR Hh [Hd1 Hd2] Hg Hc Hby] Hi Hx HD Hbi.
  assert (Hne : ∀ e, e ∈ taken ++ rest ∨ e ∈ R ∨ e ∈ H → index e ≠ i).
  { intros e (_ & Hin & _)%Hv E. congruence. }
  split; try done.
  - by apply slots_ok_update.
  - intros e He. rewrite unborn_update by (apply Hne; set_solver). by apply Hr.
  - intros e He. rewrite update_ne by (apply Hne; set_solver). by apply Ht.
  - intros e He. rewrite unborn_update by (apply Hne; set_solver). by apply HR.
  - intros e He. rewrite update_ne by (apply Hne; set_solver). by apply Hh.
  - split; [done|]. intros j Hj. unfold update. destruct (decide (j = i)) as [->|]; [|by apply Hd2].
    by destruct HD.
  - intros j Hj. rewrite update_ne by congruence. by apply Hg.
  - intros j Hj. rewrite in_use_update by congruence. by apply Hc.
  - by apply beyond_update.
Qed.

(** A live entity's slot takes another mask. *)
Lemma ledger_mask sl taken rest D R H k i m :
  ledger sl taken rest D R H k → liveGeneration (sl i) ≠ 0%N → length m = words → mask_bound m →
  ledger (update sl i (set_mask (sl i) m)) taken rest D R H k.
Proof using Type.
  intros [Hs Hn Hv Hr Ht HR Hh [Hd1 Hd2] Hg Hc Hby] Hl Hm1 Hm2.
  set (sl' := update _ _ _).
  assert (Hlive : ∀ j, liveGeneration (sl' j) = liveGeneration (sl j)).
  { intros j. unfold sl', update. by destruct (decide _) as [->|]. }
  assert (Hlast : ∀ j, lastGeneration (sl' j) = lastGeneration (sl j)).
  { intros j. unfold sl', update. by destruct (decide _) as [->|]. }
  assert (Hu : ∀ e, unborn sl' e ↔ unborn sl e) by (intros e; unfold unborn; by rewrite Hlive, Hlast).
  assert (Hin : ∀ j, in_use sl' D R j ↔ in_use sl D R j) by (intros j; unfold in_use; by rewrite Hlive).
  split; try done.
  - apply slots_ok_update; [done|]. destruct (Hs i) as (_ & _ & _ & ? & ?). split_and!; cbn; done.
  - intros e. rewrite Hu. apply Hr.
  - intros e. rewrite Hlive, Hlast. apply Ht.
  - intros e. rewrite Hu. apply HR.
  - intros e. rewrite Hlast. apply Hh.
  - split; [done|]. intros j. rewrite Hlive. apply Hd2.
  - intros j. rewrite Hlast. apply Hg.
  - intros j. rewrite Hin. apply Hc.
  - intros j. rewrite Hlive. apply Hby.
Qed.

Definition dead_slot sl i : entitySlot := mkSlot 0 (lastGeneration (sl i)) (noMask words).

Lemma noMask_bound : mask_bound (noMask words).
Proof using Type. apply mask_bound_replicate. Qed.

Lemma length_noMask : length (noMask words) = words.
Proof using Type. apply length_replicate. Qed.

(** A live entity ends; its index is kept back. *)
Lemma ledger_despawn sl taken rest D R H k i :
  ledger sl taken rest D R H k → liveGeneration (sl i) ≠ 0%N →
  ledger (update sl i (dead_slot sl i)) taken rest (D ++ [i]) R H k.
Proof using Type.
  intros [Hs Hn Hv Hr Ht HR Hh [Hd1 Hd2] Hg Hc Hby] Hl.
  assert (HD : i ∉ D) by (intros Hx; by apply Hl, Hd2).
  assert (Hne : ∀ e, unborn sl e → index e ≠ i) by (intros e [Hx _] <-; done).
  assert (Hlast : ∀ j, lastGeneration (update sl i (dead_slot sl i) j) = lastGeneration (sl j)).
  { intros j. unfold update. by destruct (decide _) as [->|]. }
  assert (HD' : ∀ j, j ≠ i → j ∉ D → j ∉ D ++ [i]) by set_solver.
  split; try done.
  - apply slots_ok_update; [done|]. destruct (Hs i) as (_ & _ & _ & _ & ?).
    split_and!; cbn; [apply length_noMask|apply noMask_bound|done|done|done].
  - intros e He. destruct (Hr e He) as (Hu & ? & ?). pose proof (Hne _ Hu).
    rewrite unborn_update by done. split_and!; [done|by apply HD'|done].
  - intros e He. rewrite Hlast. destruct (Ht e He) as [?|[? Hx]]; [by left|right]. split; [done|].
    destruct (decide (index e = i)) as [<-|E]; [right; set_solver|]. rewrite update_ne by done.
    destruct Hx; [by left|right; set_solver].
  - intros e He. destruct (HR e He) as (Hu & ? & ?). pose proof (Hne _ Hu).
    rewrite unborn_update by done. split_and!; [done|by apply HD'|done].
  - intros e. rewrite Hlast. apply Hh.
  - split; [apply NoDup_app; set_solver by (done || apply NoDup_singleton)|].
    intros j Hj. unfold update. destruct (decide (j = i)) as [->|]; [done|]. apply Hd2. set_solver.
  - intros j. rewrite Hlast. apply Hg.
  - intros j Hj. destruct (decide (j = i)) as [->|E]; [right; do 2 right; set_solver|].
    destruct (Hc j Hj) as [?|[?|[?|?]]]; [by left|right..]; unfold in_use; rewrite update_ne by done.
    + by left.
    + right. by left.
    + do 2 right. set_solver.
  - apply beyond_update; [done|]. by cbn.
Qed.

Definition freed sl i : Entity := makeEntity i (nextGeneration (lastGeneration (sl i))).

Lemma index_freed sl i : (i < 2 ^ 32)%N → index (freed sl i) = i.
Proof using Type. intros. apply index_make; [done|apply nextGeneration_bound]. Qed.

Lemma generation_freed sl i : (i < 2 ^ 32)%N → generation (freed sl i) = nextGeneration (lastGeneration (sl i)).
Proof using Type. intros. apply generation_make; [done|apply nextGeneration_bound]. Qed.

(** A despawned index is handed out again. *)
Lemma ledger_free sl rest D R H k i :
  ledger sl [] rest (i :: D) R H k → in_range i → (i < 2 ^ 32)%N →
  ledger sl [] (rest ++ [freed sl i]) D R H k.
Proof using Type.
  intros [Hs Hn Hv Hr Ht HR Hh [Hd1 Hd2] Hg Hc Hby] Hi Hb.
  pose proof (index_freed sl i Hb) as Ei. pose proof (generation_freed sl i Hb) as Eg.
  apply NoDup_cons in Hd1 as [HiD Hd1].
  assert (Hu : unborn sl (freed sl i)).
  { split; [rewrite Ei; apply Hd2; set_solver|by rewrite Eg, Ei]. }
  split; try done.
  - simpl in *. rewrite fmap_app. apply NoDup_app. split_and!; [done| |apply NoDup_singleton].
    intros x [e [-> He]]%list_elem_of_fmap Hx. simpl in Hx. rewrite list_elem_of_singleton, Ei in Hx.
    destruct (Hr e He) as (_ & Hnot & _). set_solver.
  - intros e He. destruct (decide (e = freed sl i)) as [->|]; [|apply Hv; set_solver].
    unfold handed_ok. rewrite Ei, Eg. split_and!; [|done|apply nextGeneration_pos].
    apply makeEntity_bound; [done|apply nextGeneration_bound].
  - intros e He. rewrite elem_of_app, list_elem_of_singleton in He. destruct He as [He| ->].
    + destruct (Hr e He) as (?&?&?). split_and!; [done|set_solver|done].
    + split_and!; [done|by rewrite Ei|]. intros e He E. rewrite Ei in E.
      destruct (HR e He) as (_ & Hnot & _). set_solver.
  - by intros e He%not_elem_of_nil.
  - intros e He. destruct (HR e He) as (?&?&?). split_and!; [done|set_solver|done].
  - split; [done|]. intros j Hj. apply Hd2. set_solver.
  - intros j Hj. destruct (decide (j = i)) as [->|E].
    + left. apply list_elem_of_fmap. exists (freed sl i). split; [done|set_solver].
    + destruct (Hc j Hj) as [?|[?|[?|?]]]; [left; set_solver|right..]; [by left|right; by left|do 2 right; set_solver].
Qed.

Lemma ledger_free_outside sl taken rest D R H k i :
  ledger sl taken rest (i :: D) R H k → ¬ in_range i → ledger sl taken rest D R H k.
Proof using Type.
  intros [Hs Hn Hv Hr Ht HR Hh [Hd1 Hd2] Hg Hc Hby] Hi. apply NoDup_cons in Hd1 as [HiD Hd1]. split; try done.
  - intros e He. destruct (Hr e He) as (?&?&?). split_and!; [done|set_solver|done].
  - intros e He. destruct (Ht e He) as [?|[? [?|Hx]]]; [by left|by right; split; [|left]|].
    right. split; [done|]. right. apply elem_of_cons in Hx as [E|]; [|done].
    destruct (Hv e) as (_ & Hin & _); [set_solver|]. congruence.
  - intros e He. destruct (HR e He) as (?&?&?). split_and!; [done|set_solver|done].
  - split; [done|]. intros j Hj. apply Hd2. set_solver.
  - intros j Hj. destruct (Hc j Hj) as [?|[?|[?|Hx]]]; [by left|right..]; [by left|right; by left|].
    do 2 right. apply elem_of_cons in Hx as [->|]; [done|done].
Qed.

Lemma ledger_despawned_perm sl taken rest D1 D2 R H k :
  D1 ≡ₚ D2 → ledger sl taken rest D1 R H k → ledger sl taken rest D2 R H k.
Proof using Type.
  intros E [Hs Hn Hv Hr Ht HR Hh [Hd1 Hd2] Hg Hc Hby]. split; try done.
  - intros e. rewrite <- E. apply Hr.
  - intros e. rewrite <- E. apply Ht.
  - intros e. rewrite <- E. apply HR.
  - rewrite <- E. split; [done|]. intros i. rewrite <- E. apply Hd2.
  - intros i Hi. unfold in_use. rewrite <- E. by apply Hc.
Qed.

(** ** Taking back the reservations never spawned *)

Definition burnt sl e : N → entitySlot := update sl (index e)
  (mkSlot (liveGeneration (sl (index e))) (generation e) (componentMask (sl (index e)))).

Definition reclaimed sl e : list Entity :=
  if decide (lastGeneration (sl (index e)) = generation e) then [] else [next_entity e].

Lemma index_next_entity e : index (next_entity e) = index e.
Proof using Type. apply index_make; [apply index_bound|apply nextGeneration_bound]. Qed.

Lemma generation_next_entity e : generation (next_entity e) = nextGeneration (generation e).
Proof using Type. apply generation_make; [apply index_bound|apply nextGeneration_bound]. Qed.

Lemma burnt_ne sl e i : i ≠ index e → burnt sl e i = sl i.
Proof using Type. apply update_ne. Qed.

Lemma ledger_drop_spawned sl taken rest D R H k e :
  ledger sl (e :: taken) rest D R H k → e ∉ R → ledger sl taken rest D R H k.
Proof using Type.
  intros [Hs Hn Hv Hr Ht HR Hh Hd Hg Hc Hby] He. split; try done.
  - by apply NoDup_cons in Hn as [_ ?].
  - intros e' He'. apply Hv. set_solver.
  - intros e' He'. apply Ht. set_solver.
Qed.

Lemma ledger_reclaim sl taken rest D R H k e :
  ledger sl (e :: taken) rest D R H (S k) → e ∈ R →
  (generation e <= N.of_nat (S k))%N → (N.of_nat (S k) < 2 ^ 32 - 1)%N →
  ledger (burnt sl e) taken (rest ++ [next_entity e]) D (R ∖ {[e]}) H (S k).
Proof using Type.
  intros [Hs Hn Hv Hr Ht HR Hh [Hd1 Hd2] Hg Hc Hby] He Hk Hkb.
  destruct (HR e He) as (Hu & HD & HH). destruct (Hv e) as (Hb & Hi & Hg0); [set_solver|].
  pose proof (unborn_generation sl e _ (Hg _ Hi) Hkb Hu) as Hgen.
  pose proof (index_next_entity e) as Ei. pose proof (generation_next_entity e) as Eg.
  assert (Hne : ∀ e', e' ∈ R → e' ≠ e → index e' ≠ index e).
  { intros e' He' Hx E. apply Hx. destruct (HR e' He') as (Hu' & _). destruct (Hv e') as (Hb' & _); [set_solver|].
    by apply (unborn_unique sl). }
  assert (Hother : ∀ e', e' ∈ taken ++ rest → index e' ≠ index e).
  { intros e' He' E. apply NoDup_cons in Hn as [Hn _]. apply Hn. rewrite <- E.
    apply list_elem_of_fmap_2. done. }
  assert (Hlive : ∀ j, liveGeneration (burnt sl e j) = liveGeneration (sl j)).
  { intros j. unfold burnt, update. by destruct (decide _) as [->|]. }
  split; try done.
  - apply slots_ok_update; [done|]. destruct (Hs (index e)) as (?&?&?&?&?). destruct Hu as [Hl _].
    split_and!; cbn; [done|done|done|by rewrite Hl|apply generation_bound].
  - apply NoDup_cons in Hn as [Hn1 Hn2]. rewrite (assoc_L (++)), fmap_app. apply NoDup_app.
    split_and!; [done| |apply NoDup_singleton].
    intros x [e' [-> He']]%list_elem_of_fmap Hx. simpl in Hx. rewrite list_elem_of_singleton, Ei in Hx.
    by apply (Hother e').
  - intros e' He'. destruct (decide (e' = next_entity e)) as [->|]; [|apply Hv; set_solver].
    split_and!; [|by rewrite Ei|rewrite Eg; apply nextGeneration_pos].
    apply makeEntity_bound; [apply index_bound|apply nextGeneration_bound].
  - intros e' He'. rewrite elem_of_app, list_elem_of_singleton in He'. destruct He' as [He'| ->].
    + destruct (Hr e' He') as (?&?&Hf). unfold burnt. rewrite unborn_update by (apply Hother; set_solver).
      split_and!; [done|done|]. intros e2 He2. apply Hf. set_solver.
    + split_and!; [|by rewrite Ei|].
      * unfold unborn. rewrite Hlive, Ei, Eg. split; [apply Hu|]. unfold burnt. by rewrite update_eq.
      * intros e2 [He2 Hx]%elem_of_difference E. rewrite Ei in E. rewrite elem_of_singleton in Hx. by apply (Hne e2).
  - intros e' He'. rewrite Hlive, burnt_ne by (apply Hother; set_solver).
    destruct (Ht e') as [HR'|?]; [set_solver| |by right]. left.
    assert (e' ≠ e) by (intros ->; apply (Hother e); set_solver). set_solver.
  - intros e' [He' Hx]%elem_of_difference. rewrite elem_of_singleton in Hx.
    unfold burnt. rewrite unborn_update by (by apply Hne). by apply HR.
  - intros e' He'. destruct (decide (e' = e)) as [->|Hx]; [right; unfold burnt; by rewrite update_eq|].
    destruct (Hh e' He') as [?|Hle]; [left; set_solver|right]. unfold burnt.
    destruct (decide (index e' = index e)) as [E|E]; [|by rewrite update_ne].
    rewrite E, update_eq. cbn [lastGeneration]. rewrite E in Hle. lia.
  - split; [done|]. intros i Hi'. rewrite Hlive. by apply Hd2.
  - intros i Hi'. unfold burnt, update. destruct (decide (i = index e)) as [->|]; [done|by apply Hg].
  - intros i Hi'. destruct (decide (i = index e)) as [->|E].
    + left. apply list_elem_of_fmap. exists (next_entity e). split; [done|set_solver].
    + destruct (Hc i Hi') as [?|[?|[(e2&?&?)|?]]]; [left; set_solver|right..].
      * left. by rewrite Hlive.
      * right. left. exists e2. split; [|done]. set_solver.
      * by do 2 right.
  - intros i. rewrite Hlive. apply Hby.
Qed.

(** One reservation taken back, or found to be spawned. *)
Lemma ledger_burn sl taken rest D R H k e :
  ledger sl (e :: taken) rest D R H (S k) → (N.of_nat (S k) < 2 ^ 32 - 1)%N →
  (lastGeneration (sl (index e)) <= N.of_nat k)%N →
  ledger (burnt sl e) taken (rest ++ reclaimed sl e) D (R ∖ {[e]}) H (S k).
Proof using Type.
  intros L Hk Hl. unfold reclaimed. destruct (decide _) as [E|E].
  - assert (He : e ∉ R).
    { intros He. destruct (lg_reserved _ _ _ _ _ _ _ L e He) as (Hu & _).
      rewrite (unborn_generation sl e k) in E; [lia|done|lia|done]. }
    rewrite app_nil_r. replace (R ∖ {[e]}) with R by set_solver.
    eapply (ledger_ext sl); [|done|done|by apply (ledger_drop_spawned _ _ _ _ _ _ _ e)].
    intros i. unfold burnt, update. destruct (decide _) as [->|]; [|done]. rewrite <- E. by destruct (sl _).
  - destruct (lg_taken _ _ _ _ _ _ _ L e) as [He|[? _]]; [set_solver| |done].
    apply ledger_reclaim; [done|done| |done].
    destruct (lg_reserved _ _ _ _ _ _ _ L e He) as (Hu & _).
    rewrite (unborn_generation sl e k); [lia|done|lia|done].
Qed.

Definition burn_step (st : (N → entitySlot) * list Entity) e : (N → entitySlot) * list Entity :=
  (burnt st.1 e, st.2 ++ reclaimed st.1 e).

(** All of them: what the slots hold then, and what is handed out again. *)
Definition burn_all sl (taken : list Entity) : (N → entitySlot) * list Entity := foldl burn_step (sl, []) taken.

Lemma burn_fold_acc sl acc taken :
  foldl burn_step (sl, acc) taken = ((burn_all sl taken).1, acc ++ (burn_all sl taken).2).
Proof using Type.
  unfold burn_all. revert sl acc. induction taken as [|e taken IH]; intros sl acc; simpl; [by rewrite app_nil_r|].
  unfold burn_step at 2 4 6. cbn [fst snd]. rewrite IH, (IH _ ([] ++ _)). cbn [fst snd]. by rewrite (assoc_L (++)).
Qed.

Lemma burn_all_snoc sl taken e : burn_all sl (taken ++ [e]) = burn_step (burn_all sl taken) e.
Proof using Type. unfold burn_all. by rewrite foldl_snoc. Qed.

Lemma burn_all_app sl l1 l2 :
  burn_all sl (l1 ++ l2) = ((burn_all (burn_all sl l1).1 l2).1, (burn_all sl l1).2 ++ (burn_all (burn_all sl l1).1 l2).2).
Proof using Type.
  unfold burn_all at 1. rewrite foldl_app. fold (burn_all sl l1).
  rewrite (surjective_pairing (burn_all sl l1)). apply burn_fold_acc.
Qed.

Lemma burn_all_ext taken sl1 sl2 :
  (∀ i, sl1 i = sl2 i) →
  (∀ i, (burn_all sl1 taken).1 i = (burn_all sl2 taken).1 i) ∧ (burn_all sl1 taken).2 = (burn_all sl2 taken).2.
Proof using Type.
  intros E. induction taken as [|e taken [IH1 IH2]] using rev_ind; [done|].
  rewrite !burn_all_snoc. unfold burn_step, burnt, update, reclaimed. cbn [fst snd]. rewrite IH1, IH2. split; [|done].
  intros i. by destruct (decide _).
Qed.

Lemma length_burn_all sl taken : length (burn_all sl taken).2 ≤ length taken.
Proof using Type.
  induction taken as [|e taken IH] using rev_ind; [simpl; lia|].
  rewrite burn_all_snoc. unfold burn_step, reclaimed. cbn [snd]. rewrite !length_app.
  destruct (decide _); simpl; lia.
Qed.

Lemma ledger_burn_all taken sl rest D R H k :
  ledger sl taken rest D R H (S k) → (N.of_nat (S k) < 2 ^ 32 - 1)%N →
  (∀ e, e ∈ taken → (lastGeneration (sl (index e)) <= N.of_nat k)%N) →
  ledger (burn_all sl taken).1 [] (rest ++ (burn_all sl taken).2) D (R ∖ list_to_set taken) H (S k).
Proof using Type.
  revert sl rest R. induction taken as [|e taken IH]; intros sl rest R L Hk Hl.
  - simpl. rewrite app_nil_r. by replace (R ∖ ∅) with R by set_solver.
  - pose proof (lg_distinct _ _ _ _ _ _ _ L) as Hn. simpl in Hn. apply NoDup_cons in Hn as [Hn _].
    change (e :: taken) with ([e] ++ taken). rewrite burn_all_app. cbn [fst snd].
    change (burn_all sl [e]) with (burnt sl e, [] ++ reclaimed sl e). cbn [fst snd app].
    rewrite (assoc_L (++)), list_to_set_cons.
    replace (R ∖ ({[e]} ∪ list_to_set taken)) with ((R ∖ {[e]}) ∖ list_to_set taken) by set_solver.
    apply IH; [apply ledger_burn; [done|done|apply Hl; set_solver]|done|].
    intros e' He'. rewrite burnt_ne; [apply Hl; set_solver|].
    intros E. apply Hn. rewrite <- E. apply list_elem_of_fmap_2. set_solver.
Qed.
End ledger.
