(* ===== verification/EntityTableSpec.v ===== *)
(** * What the entity table's operations do to its order of handing out

    The entities to hand out are, in order, the free list from its back, then
    the fresh indices at generation 1; a reservation counts one more of them
    as taken. *)

From S2P Require Import Prelude Words Array Entity IndexTable Mask EntityTable EntityLedger.

Section spec.
Context (words : nat).
Implicit Types t : entityTable.

#[local] Hint Extern 0 (Zero entitySlot) => exact (zero_slot words) : typeclass_instances.

Definition fresh_list (next : Z) (last : N) : list Entity :=
  (λ j, makeEntity (Z.to_N (next + Z.of_nat j)) 1) <$> seq 0 (Z.to_nat (Z.of_N last + 1 - next)).

(** The entities to hand out, the free list being [F]. *)
Definition order t (F : list Entity) : list Entity := reverse F ++ fresh_list (nextFreshIndex t) (lastIndex t).

Definition bounds_ok t : Prop :=
  (Z.of_N (firstIndex t) <= nextFreshIndex t <= Z.of_N (lastIndex t) + 1)%Z ∧ (lastIndex t < 2 ^ 32)%N ∧
  (0 <= reservationCount t < 2 ^ 32)%Z.

Definition taken t (F : list Entity) : list Entity := take (Z.to_nat (reservationCount t)) (order t F).
Definition rest t (F : list Entity) : list Entity := drop (Z.to_nat (reservationCount t)) (order t F).

Lemma length_fresh next lastI : length (fresh_list next lastI) = Z.to_nat (Z.of_N lastI + 1 - next).
Proof using Type. unfold fresh_list. by rewrite length_fmap, length_seq. Qed.

Lemma fresh_lookup next lastI j :
  fresh_list next lastI !! j =
  if decide (Z.of_nat j < Z.of_N lastI + 1 - next)%Z then Some (makeEntity (Z.to_N (next + Z.of_nat j)) 1) else None.
Proof using Type.
  unfold fresh_list. rewrite list_lookup_fmap. destruct (decide _) as [H|H].
  - by rewrite lookup_seq_lt by lia.
  - by rewrite lookup_seq_ge by lia.
Qed.

Lemma fresh_drop next lastI j :
  (Z.of_nat j <= Z.of_N lastI + 1 - next)%Z → fresh_list (next + Z.of_nat j) lastI = drop j (fresh_list next lastI).
Proof using Type.
  intros Hj. apply list_eq. intros i. rewrite lookup_drop, !fresh_lookup.
  destruct (decide _), (decide _); [|lia|lia|done]. do 3 f_equal. lia.
Qed.

(** A reservation takes the next entity of the order. *)
Lemma table_reserve_spec t F :
  array_repr (freeEntities t) F → (Z.of_nat (length F) < 2 ^ 62)%Z → bounds_ok t →
  reserve t = Some (with_count t (reservationCount t + 1), default NoEntity (order t F !! Z.to_nat (reservationCount t))).
Proof using Type.
  intros Hr HF (Hn & Hl & Hc). unfold reserve, ALen. cbn [freeEntities with_count nextFreshIndex lastIndex].
  rewrite (array_length _ _ Hr), (i64_small (reservationCount t + 1)) by lia.
  replace (reservationCount t + 1 - 1)%Z with (reservationCount t) by lia. rewrite (i64_small (reservationCount t)) by lia.
  unfold order. destruct (Z.ltb_spec (reservationCount t) (Z.of_nat (length F))) as [Hlt|Hge].
  - rewrite lookup_app_l by (rewrite length_reverse; lia). rewrite reverse_lookup by lia.
    destruct (lookup_lt_is_Some_2 F (length F - S (Z.to_nat (reservationCount t)))) as [e He]; [lia|].
    rewrite He. rewrite (array_read _ F _ e Hr); [done|]. rewrite <- He. f_equal. lia.
  - rewrite lookup_app_r by (rewrite length_reverse; lia). rewrite length_reverse, fresh_lookup.
    rewrite (i64_small (nextFreshIndex t + reservationCount t)), i64_small by lia.
    destruct (Z.ltb_spec (Z.of_N (lastIndex t)) (nextFreshIndex t + reservationCount t - Z.of_nat (length F))) as [Hx|Hx].
    + by rewrite decide_False by lia.
    + rewrite decide_True by lia. simpl. do 3 f_equal. rewrite Z.mod_small by lia. lia.
Qed.

(** ** Slots, pointwise *)

#[local] Abbreviation slot_at t := (entry (slots t)).

(** [b] has [a]'s pages at least. *)
Definition slots_kept (a b : indexTable entitySlot) : Prop :=
  pages_ok b ∧ ∀ i, is_Some (at_ a i) → is_Some (at_ b i).

Lemma slots_kept_trans a b c : slots_kept a b → slots_kept b c → slots_kept a c.
Proof using Type. intros [_ H1] [H2 H3]. split; [done|]. eauto. Qed.

Lemma with_slots_same t : with_slots t (slots t) = t.
Proof using Type. by destruct t. Qed.

Lemma burn_spec t e :
  pages_ok (slots t) →
  ∃ sl', burn words t e = Some (with_slots t sl', negb (lastGeneration (slot_at t (index e)) =? generation e)%N) ∧
    slots_kept (slots t) sl' ∧ ∀ i, entry sl' i = burnt (slot_at t) e i.
Proof using Type.
  intros Hok. unfold burn.
  destruct (create_spec (slots t) (index e) Hok) as (sl1 & -> & Hok1 & [x Hx] & Hent & Hkeep).
  cbn [mbind option_bind]. rewrite Hx. cbn [mbind option_bind].
  assert (Ex : x = slot_at t (index e)) by (rewrite <- Hent; symmetry; by apply at_entry). rewrite <- Ex.
  destruct (N.eqb_spec (lastGeneration x) (generation e)) as [E|E].
  - exists sl1. split_and!; [done| |].
    + split; [done|]. intros i Hi. by rewrite Hkeep.
    + intros i. rewrite Hent. unfold burnt, update. destruct (decide _) as [->|]; [|done].
      rewrite <- Ex, <- E. by destruct x.
  - destruct (at_set_spec sl1 (index e) (mkSlot (liveGeneration x) (generation e) (componentMask x)) Hok1)
      as (sl2 & -> & Hok2 & Hat); [by eexists|].
    cbn [mbind option_bind]. exists sl2. split_and!; [done| |].
    + split; [done|]. intros i Hi. rewrite Hat. destruct (decide _); [by eexists|]. by rewrite Hkeep.
    + intros i. unfold entry at 1. rewrite Hat. unfold burnt, update. destruct (decide (i = index e)) as [->|].
      * simpl. by rewrite <- Ex.
      * apply Hent.
Qed.

(** The loop over the free entities taken, the last ones of [F] from [n0]:
    before position [j] the survivors are packed from [n0] on. *)
Definition reclaim_inv t F (n0 j : nat) (st : entityTable * nat) : Prop :=
  ∃ sl a A, st.1 = with_free (with_slots t sl) a ∧ slots_kept (slots t) sl ∧ array_repr a A ∧
    length A = length F ∧ st.2 ≤ j ∧ drop j A = drop j F ∧
    take st.2 A = take n0 F ++ (burn_all (slot_at t) (take (j - n0) (drop n0 F))).2 ∧
    ∀ i, entry sl i = (burn_all (slot_at t) (take (j - n0) (drop n0 F))).1 i.

Lemma burn_all_entries t l e sl sl2 :
  (∀ i, entry sl i = (burn_all (slot_at t) l).1 i) → (∀ i, entry sl2 i = burnt (entry sl) e i) →
  (∀ i, entry sl2 i = (burn_all (slot_at t) (l ++ [e])).1 i) ∧
  (burn_all (slot_at t) (l ++ [e])).2 = (burn_all (slot_at t) l).2 ++
    if (lastGeneration (entry sl (index e)) =? generation e)%N then [] else [next_entity e].
Proof using Type.
  intros H1 H2. rewrite burn_all_snoc. unfold burn_step, reclaimed. cbn [fst snd]. split.
  - intros i. rewrite H2. unfold burnt, update. destruct (decide _) as [->|]; by rewrite ?H1.
  - rewrite <- H1. f_equal.
    destruct (decide _) as [E|E], (N.eqb_spec (lastGeneration (entry sl (index e))) (generation e)); done.
Qed.

Lemma take_next {A} (l : list A) n j x :
  n ≤ j → l !! j = Some x → take (S j - n) (drop n l) = take (j - n) (drop n l) ++ [x].
Proof using Type.
  intros Hj Hx. replace (S j - n) with (S (j - n)) by lia. apply take_S_r.
  rewrite lookup_drop. by replace (n + (j - n)) with j by lia.
Qed.

Lemma drop_next {A} (l1 l2 : list A) j : drop j l1 = drop j l2 → drop (S j) l1 = drop (S j) l2.
Proof using Type. intros E. replace (S j) with (j + 1) by lia. by rewrite <- !drop_drop, E. Qed.

Lemma reclaim_free_step t F n0 j st :
  n0 ≤ j < length F → reclaim_inv t F n0 j st →
  ∃ st', reclaim_free words j st = Some st' ∧ reclaim_inv t F n0 (S j) st'.
Proof using Type.
  destruct st as [t' kept]. intros Hj (sl & a & A & Et & Hk & Hr & Hl & Hle & Hdrop & Htake & Hent).
  cbn [fst snd] in *. subst t'. unfold reclaim_free.
  destruct (lookup_lt_is_Some_2 F j) as [e He]; [lia|].
  assert (HA : A !! j = Some e).
  { rewrite <- He. replace j with (j + 0) by lia. by rewrite <- !lookup_drop, Hdrop. }
  cbn [freeEntities with_free]. rewrite (array_read _ A _ e Hr HA). cbn [mbind option_bind].
  destruct (burn_spec (with_free (with_slots t sl) a) e) as (sl2 & -> & Hk2 & Hent2); [apply Hk|].
  cbn [mbind option_bind slots with_free with_slots] in *.
  destruct (burn_all_entries t _ e sl sl2 Hent Hent2) as [Eburnt Eacc].
  pose proof (slots_kept_trans _ _ _ Hk Hk2) as Hk'.
  rewrite <- (take_next F n0 j e) in Eburnt, Eacc by (done || lia).
  destruct (N.eqb_spec (lastGeneration (entry sl (index e))) (generation e)) as [E|E]; cbn [negb].
  - eexists. split; [done|]. exists sl2, a, A. cbn [fst snd]. rewrite Eacc, app_nil_r.
    split_and!; [done|done|done|done|lia|by apply drop_next|done|done].
  - destruct (array_set_repr a A kept (next_entity e) Hr) as (a2 & Ea & Hr2); [lia|].
    cbn [freeEntities with_slots with_free]. rewrite Ea. cbn [mbind option_bind].
    eexists. split; [done|]. exists sl2, a2, (<[kept:=next_entity e]> A). cbn [fst snd]. rewrite Eacc.
    split_and!; [done|done|done|by rewrite length_insert|lia| | |done].
    + rewrite drop_insert_lt by lia. by apply drop_next.
    + rewrite (take_S_r _ _ (next_entity e)) by (apply list_lookup_insert_eq; lia).
      rewrite take_insert_ge by lia. by rewrite Htake, (assoc_L (++)).
Qed.

Lemma reclaim_free_loop t F n0 m :
  pages_ok (slots t) → array_repr (freeEntities t) F → length F = n0 + m →
  ∃ sl a A kept, for_from n0 m (reclaim_free words) (t, n0) = Some (with_free (with_slots t sl) a, kept) ∧
    slots_kept (slots t) sl ∧ array_repr a A ∧ kept ≤ length A ∧
    take kept A = take n0 F ++ (burn_all (slot_at t) (drop n0 F)).2 ∧
    ∀ i, entry sl i = (burn_all (slot_at t) (drop n0 F)).1 i.
Proof using Type.
  intros Hok Hr Hlen.
  destruct (for_from_invariant (reclaim_inv t F n0) (reclaim_free words) n0 m (t, n0))
    as ([t' kept] & Eloop & sl & a & A & E & Hk & Hr' & Hl & Hle & _ & Htake & Hent).
  - exists (slots t), (freeEntities t), F. cbn [fst snd]. rewrite Nat.sub_diag, take_0, app_nil_r.
    split_and!; [by destruct t|split; [done|by intros]|done|done|done|done|done|done].
  - intros j st Hj. apply reclaim_free_step. lia.
  - cbn [fst snd] in *. subst t'. rewrite Eloop. exists sl, a, A, kept.
    assert (Eall : take (n0 + m - n0) (drop n0 F) = drop n0 F) by (apply take_ge; rewrite length_drop; lia).
    rewrite Eall in *. split_and!; [done|done|done|lia|done|done].
Qed.

(** The loop over the fresh indices taken. *)
Lemma reclaim_fresh_loop t F m :
  pages_ok (slots t) → array_repr (freeEntities t) F → bounds_ok t →
  (Z.of_nat m <= Z.of_N (lastIndex t) + 1 - nextFreshIndex t)%Z →
  let l := take m (fresh_list (nextFreshIndex t) (lastIndex t)) in
  ∃ sl a, for_range m (reclaim_fresh words) t = Some (with_free (with_slots t sl) a) ∧
    slots_kept (slots t) sl ∧ array_repr a (F ++ (burn_all (slot_at t) l).2) ∧
    ∀ i, entry sl i = (burn_all (slot_at t) l).1 i.
Proof using Type.
  intros Hok Hr (Hn & Hlast & _) Hm l.
  pose (Inv := λ (j : nat) t', ∃ sl a, t' = with_free (with_slots t sl) a ∧ slots_kept (slots t) sl ∧
    array_repr a (F ++ (burn_all (slot_at t) (take j l)).2) ∧
    ∀ i, entry sl i = (burn_all (slot_at t) (take j l)).1 i).
  assert (Hlen : length l = m) by (unfold l; rewrite length_take, length_fresh; lia).
  destruct (for_range_invariant Inv (reclaim_fresh words) m t) as (t' & -> & sl & a & -> & Hk & Hr' & Hent).
  - exists (slots t), (freeEntities t). rewrite take_0, app_nil_r.
    split_and!; [by destruct t|split; [done|by intros]|done|done].
  - intros j t' Hj (sl & a & -> & Hk & Hr' & Hent). unfold reclaim_fresh. cbn [nextFreshIndex with_free with_slots].
    rewrite Z.mod_small by lia. set (e := makeEntity (Z.to_N (nextFreshIndex t + Z.of_nat j)) 1).
    assert (He : l !! j = Some e).
    { unfold l. rewrite lookup_take_lt, fresh_lookup by done. by rewrite decide_True by lia. }
    destruct (burn_spec (with_free (with_slots t sl) a) e) as (sl2 & -> & Hk2 & Hent2); [apply Hk|].
    cbn [mbind option_bind slots with_free with_slots] in *.
    destruct (burn_all_entries t _ e sl sl2 Hent Hent2) as [Eburnt Eacc]. pose proof (slots_kept_trans _ _ _ Hk Hk2) as Hk'.
    rewrite <- (take_S_r _ _ e He) in Eburnt, Eacc.
    destruct (N.eqb_spec (lastGeneration (entry sl (index e))) (generation e)) as [E|E]; cbn [negb].
    + eexists. split; [done|]. exists sl2, a. rewrite Eacc, app_nil_r. done.
    + destruct (array_append_repr a _ (next_entity e) Hr') as (a2 & Ea & Hr2).
      cbn [freeEntities with_slots with_free]. rewrite Ea. cbn [mbind option_bind].
      eexists. split; [done|]. exists sl2, a2. rewrite Eacc, (assoc_L (++)). done.
  - rewrite take_ge in Hr', Hent by lia. by exists sl, a.
Qed.

(** ** Settling *)

(** What settling leaves alone. *)
Definition frame t t' : Prop :=
  firstIndex t' = firstIndex t ∧ lastIndex t' = lastIndex t ∧ observing t' = observing t ∧
  despawnedIndices t' = despawnedIndices t ∧ despawnedOutsideRange t' = despawnedOutsideRange t.

(** How many free entities stay, and how many fresh ones are taken. *)
Definition kept_free t (F : list Entity) : nat := length F - Z.to_nat (reservationCount t).
Definition taken_fresh t (F : list Entity) : nat :=
  Nat.min (Z.to_nat (reservationCount t) - length F) (Z.to_nat (Z.of_N (lastIndex t) + 1 - nextFreshIndex t)).

Lemma order_split t F :
  let fresh := fresh_list (nextFreshIndex t) (lastIndex t) in
  drop (kept_free t F) F ++ take (taken_fresh t F) fresh ≡ₚ taken t F ∧
  rest t F = reverse (take (kept_free t F) F) ++ drop (taken_fresh t F) fresh.
Proof using Type.
  intros fresh. unfold taken, rest, order, kept_free, taken_fresh. fold fresh.
  set (rc := Z.to_nat (reservationCount t)).
  assert (Hlen : length fresh = Z.to_nat (Z.of_N (lastIndex t) + 1 - nextFreshIndex t)) by apply length_fresh.
  rewrite <- Hlen, take_app, drop_app, length_reverse. split.
  - f_equiv.
    + rewrite take_reverse. by rewrite reverse_Permutation.
    + destruct (decide (rc - length F ≤ length fresh)); [by rewrite Nat.min_l by lia|].
      rewrite !take_ge by lia. done.
  - f_equal; [by rewrite drop_reverse|].
    destruct (decide (rc - length F ≤ length fresh)); [by rewrite Nat.min_l by lia|].
    rewrite !drop_ge by lia. done.
Qed.

(** What both kinds of settling establish of the order. *)
Definition settled t F t' (F' : list Entity) (extra : list Entity) : Prop :=
  frame t t' ∧ array_repr (freeEntities t') F' ∧ reservationCount t' = 0%Z ∧ bounds_ok t' ∧
  order t' F' ≡ₚ rest t F ++ extra ∧ length F' ≤ length F + length extra.

Lemma settle_order t F (F' extra : list Entity) t' :
  bounds_ok t → frame t t' → array_repr (freeEntities t') F' → reservationCount t' = 0%Z →
  nextFreshIndex t' = (nextFreshIndex t + Z.of_nat (taken_fresh t F))%Z →
  F' = take (kept_free t F) F ++ extra → settled t F t' F' extra.
Proof using Type.
  intros (Hn & Hl & Hc) Hf Hr Hrc Hnf ->. pose proof Hf as (Ef & El & _ & _ & _).
  assert (Hle : (Z.of_nat (taken_fresh t F) <= Z.of_N (lastIndex t) + 1 - nextFreshIndex t)%Z)
    by (unfold taken_fresh; lia).
  split_and!; [done|done|done|unfold bounds_ok; rewrite Ef, El, Hrc, Hnf; lia| |rewrite length_app, length_take; lia].
  destruct (order_split t F) as [_ ->]. unfold order. rewrite El, Hnf, fresh_drop by done.
  rewrite reverse_app, reverse_Permutation. solve_Permutation.
Qed.

(** The counts of a settlement, in the terms above. *)
Lemma settle_counts t F :
  bounds_ok t →
  Z.to_nat (Z.of_nat (length F) - Z.min (reservationCount t) (Z.of_nat (length F))) = kept_free t F ∧
  Z.to_nat (Z.min (reservationCount t) (Z.of_nat (length F))) = length F - kept_free t F ∧
  Z.min (reservationCount t - Z.min (reservationCount t) (Z.of_nat (length F)))
    (Z.of_N (lastIndex t) + 1 - nextFreshIndex t) = Z.of_nat (taken_fresh t F).
Proof using Type. intros (Hn & Hl & Hc). unfold kept_free, taken_fresh. lia. Qed.

Lemma settle_keep_spec t F :
  array_repr (freeEntities t) F → bounds_ok t →
  ∃ t' F', settleReservations words t false = Some t' ∧ settled t F t' F' [] ∧ slots t' = slots t.
Proof using Type.
  intros Hr Hb. unfold settleReservations. destruct (Z.eqb_spec (reservationCount t) 0) as [E|E].
  - exists t, F. split_and!; [done| |done]. unfold settled, rest. rewrite E, app_nil_r. split_and!; try done. simpl. lia.
  - destruct (settle_counts t F Hb) as (E1 & E2 & E3).
    unfold ALen. rewrite (array_length _ _ Hr), E1, E3. cbn [mbind option_bind].
    destruct (array_resize_repr _ _ (kept_free t F) Hr) as (a & -> & Ha). cbn [mbind option_bind].
    eexists _, _. split; [done|]. split; [|done].
    apply (settle_order t F (resized F (kept_free t F))); [done|done|done|done| |].
    + cbn. apply i64_small. destruct Hb as (Hn & Hl & Hc). unfold taken_fresh. lia.
    + unfold resized. by replace (kept_free t F - length F) with 0 by (unfold kept_free; lia).
Qed.

Lemma settle_reclaim_spec t F :
  pages_ok (slots t) → array_repr (freeEntities t) F → bounds_ok t →
  ∃ t' F' l, settleReservations words t true = Some t' ∧ l ≡ₚ taken t F ∧
    settled t F t' F' (burn_all (slot_at t) l).2 ∧ slots_kept (slots t) (slots t') ∧
    ∀ i, slot_at t' i = (burn_all (slot_at t) l).1 i.
Proof using Type.
  intros Hok Hr Hb. unfold settleReservations. destruct (Z.eqb_spec (reservationCount t) 0) as [E|E].
  - exists t, F, []. split_and!; [done| | |split; [done|by intros]|done].
    + unfold taken. by rewrite E.
    + unfold settled, rest. rewrite E, app_nil_r. split_and!; try done. simpl. lia.
  - destruct (settle_counts t F Hb) as (E1 & E2 & E3).
    unfold ALen. rewrite (array_length _ _ Hr), E1, E2, E3.
    destruct (reclaim_free_loop t F (kept_free t F) (length F - kept_free t F) Hok Hr)
      as (sl1 & a1 & A1 & kept & -> & Hk1 & Hr1 & Hle & Htake & Hent1); [unfold kept_free; lia|].
    cbn [mbind option_bind freeEntities with_free].
    destruct (array_resize_repr _ _ kept Hr1) as (a2 & -> & Hr2). cbn [mbind option_bind].
    assert (Er : resized A1 kept = take kept A1).
    { unfold resized. replace (kept - length A1) with 0 by lia. apply app_nil_r. }
    rewrite Er, Htake in Hr2. rewrite Nat2Z.id.
    set (t1 := with_free (with_free (with_slots t sl1) a1) a2).
    destruct (reclaim_fresh_loop t1 _ (taken_fresh t F) (proj1 Hk1) Hr2 Hb) as (sl2 & a3 & -> & Hk2 & Hr3 & Hent2).
    { destruct Hb as (Hn & Hl & Hc). cbn. unfold taken_fresh. lia. }
    cbn [mbind option_bind]. cbn [slots t1 with_free with_slots nextFreshIndex lastIndex] in Hk2, Hr3, Hent2.
    set (l1 := drop (kept_free t F) F) in *.
    set (l2 := take (taken_fresh t F) (fresh_list (nextFreshIndex t) (lastIndex t))) in *.
    destruct (burn_all_ext l2 _ _ Hent1) as [Eent Eacc]. rewrite <- (assoc_L (++)), Eacc in Hr3.
    eexists _, _, (l1 ++ l2). split; [done|]. rewrite burn_all_app. cbn [fst snd].
    split; [apply order_split|]. split_and!.
    + eapply settle_order; [done|done|exact Hr3|done| |done].
      cbn. apply i64_small. destruct Hb as (Hn & Hl & Hc). unfold taken_fresh. lia.
    + by eapply slots_kept_trans.
    + intros i. rewrite <- Eent. apply Hent2.
Qed.
End spec.
