(* ===== verification/EntitySim.v ===== *)
(** * What an entity table promises

    The table's contract, as a transition system on finite maps and sets of
    entities, and a relation between a table and the contract's state that
    each operation of [EntityTable] keeps. *)

From S2P Require Import Prelude Words Array Entity IndexTable Mask EntityTable EntityLedger EntityTableSpec.

(** The operations on a table, and what they answer. *)
Inductive table_op :=
  | OReserve
  | OSpawn
  | OSpawnReserved (e : Entity)
  | OPlace (e : Entity)
  | ODespawn (e : Entity)
  | OSetComponent (e : Entity) (id : nat)
  | OUnsetComponent (e : Entity) (id : nat)
  | OEndWindow
  | OShrink.

Inductive table_answer :=
  | Handed (e : Entity)
  | Answered (b : bool)
  | Placed (error : option placeError)
  | Ended (m : mask) (b : bool)
  | Done.

Definition run_op (words : nat) (t : entityTable) (op : table_op) : option (entityTable * table_answer) :=
  match op with
  | OReserve => '(t, e) ← reserve t; Some (t, Handed e)
  | OSpawn => '(t, e) ← spawn words t; Some (t, Handed e)
  | OSpawnReserved e => '(t, b) ← spawnReserved words t e; Some (t, Answered b)
  | OPlace e => '(t, error) ← place words t e; Some (t, Placed error)
  | ODespawn e => '(t, (m, b)) ← despawn words t e; Some (t, Ended m b)
  | OSetComponent e id => t ← setComponent t e id; Some (t, Done)
  | OUnsetComponent e id => t ← unsetComponent t e id; Some (t, Done)
  | OEndWindow => '(t, started) ← endWindow words t; Some (t, Answered started)
  | OShrink => t ← shrink_table t; Some (t, Done)
  end.

(** ** The contract *)

Record tableSpec := mkSpec {
  (** the live entities, and the components each has *)
  sp_live : gmap Entity mask;
  (** the reservations not spawned, before this window and in it *)
  sp_pending : gset Entity;
  sp_window : gset Entity;
  (** the entities ever handed out *)
  sp_handed : gset Entity;
  (** the indices despawned in this window *)
  sp_despawned : gset N;
  sp_observing : bool
}.

Section contract.
Context (words : nat) (first last : N).
Implicit Types s : tableSpec.

Definition sp_waiting s : gset Entity := sp_pending s ∪ sp_window s.

Definition live_indices s : gset N := set_map index (dom (sp_live s)).
Definition waiting_indices s : gset N := set_map index (sp_waiting s).

(** An index something else is at. *)
Definition occupied s (i : N) : Prop := i ∈ live_indices s ∪ waiting_indices s ∪ sp_despawned s.

(** [e] may be handed out: it never was, and nothing is at its index. *)
Definition may_hand s (e : Entity) : Prop :=
  handed_ok first last e ∧ (e ∉ sp_handed s) ∧ ¬ occupied s (index e).

Definition exhausted s : Prop := ∀ i, in_range first last i → occupied s i.

Definition sp_reserved s (e : Entity) : tableSpec :=
  if sp_observing s
  then mkSpec (sp_live s) (sp_pending s) (sp_window s ∪ {[e]}) (sp_handed s ∪ {[e]}) (sp_despawned s) true
  else mkSpec (sp_live s) (sp_pending s ∪ {[e]}) (sp_window s) (sp_handed s ∪ {[e]}) (sp_despawned s) false.

Definition sp_spawned s (e : Entity) : tableSpec :=
  mkSpec (<[e := noMask words]> (sp_live s)) (sp_pending s ∖ {[e]}) (sp_window s ∖ {[e]})
    (sp_handed s) (sp_despawned s) (sp_observing s).

Definition place_answer s (e : Entity) : option placeError :=
  if decide (generation e = 0%N) then Some GenerationZero else
  if decide (in_range first last (index e)) then Some InsideRange else
  if decide (index e ∈ live_indices s) then Some WhereAlive else
  if decide (index e ∈ sp_despawned s) then Some WhereDespawned else None.

Definition sp_ended s (e : Entity) : tableSpec :=
  mkSpec (delete e (sp_live s)) (sp_pending s) (sp_window s) (sp_handed s)
    (if sp_observing s then sp_despawned s ∪ {[index e]} else sp_despawned s) (sp_observing s).

Definition sp_masked s (e : Entity) (m : mask) : tableSpec :=
  mkSpec (<[e := m]> (sp_live s)) (sp_pending s) (sp_window s) (sp_handed s) (sp_despawned s) (sp_observing s).

(** The end of a window: what was despawned in it may be handed out again, and
    what was reserved in it and not spawned never comes alive. *)
Definition sp_ended_window s : tableSpec :=
  mkSpec (sp_live s) (sp_pending s) ∅ (sp_handed s) ∅ true.

(** What the caller owes: entities are 64-bit words, [spawnReserved] is for
    entities the table handed out, and components are set on live ones. *)
Definition op_ok s (op : table_op) : Prop :=
  match op with
  | OSpawnReserved e => e ∈ sp_handed s
  | OPlace e | ODespawn e => (e < 2 ^ 64)%N
  | OSetComponent e id | OUnsetComponent e id => is_Some (sp_live s !! e) ∧ id < words * 64
  | _ => True
  end.

Inductive spec_step s : table_op → table_answer → tableSpec → Prop :=
  | spec_reserve e : may_hand s e → spec_step s OReserve (Handed e) (sp_reserved s e)
  | spec_reserve_none : exhausted s → spec_step s OReserve (Handed NoEntity) s
  | spec_spawn e : may_hand s e → spec_step s OSpawn (Handed e) (sp_spawned (sp_reserved s e) e)
  | spec_spawn_none : exhausted s → spec_step s OSpawn (Handed NoEntity) s
  | spec_spawnReserved e : e ∈ sp_waiting s → spec_step s (OSpawnReserved e) (Answered true) (sp_spawned s e)
  | spec_spawnReserved_refused e : (e ∉ sp_waiting s) → spec_step s (OSpawnReserved e) (Answered false) s
  | spec_place e : place_answer s e = None → spec_step s (OPlace e) (Placed None) (sp_spawned s e)
  | spec_place_refused e error : place_answer s e = Some error → spec_step s (OPlace e) (Placed (Some error)) s
  | spec_despawn e m : sp_live s !! e = Some m → spec_step s (ODespawn e) (Ended m true) (sp_ended s e)
  | spec_despawn_dead e : sp_live s !! e = None → spec_step s (ODespawn e) (Ended (noMask words) false) s
  | spec_set e id m m' : sp_live s !! e = Some m → maskSet m id = Some m' →
      spec_step s (OSetComponent e id) Done (sp_masked s e m')
  | spec_unset e id m m' : sp_live s !! e = Some m → maskUnset m id = Some m' →
      spec_step s (OUnsetComponent e id) Done (sp_masked s e m')
  | spec_endWindow : spec_step s OEndWindow (Answered (negb (sp_observing s))) (sp_ended_window s)
  | spec_shrink : spec_step s OShrink Done s.
End contract.

#[export] Instance handed_ok_dec first last e : Decision (handed_ok first last e).
Proof. unfold handed_ok. apply _. Defined.

#[export] Instance may_hand_dec first last s e : Decision (may_hand first last s e).
Proof. unfold may_hand, occupied. apply _. Defined.

(** ** The simulation *)

Section simulation.
Context (words : nat) (first last : N).
Implicit Types (t : entityTable) (s : tableSpec) (F : list Entity) (D : list N) (c k : nat).

#[local] Hint Extern 0 (Zero entitySlot) => exact (zero_slot words) : typeclass_instances.
#[local] Abbreviation slot_at t := (entry (slots t)).

Definition outside_has t (i : N) : bool :=
  N.testbit (entry (despawnedOutsideRange t) (N.shiftr i 6)) (N.land i 63).

(** [t] implements [s], its free list being [F] and the indices it keeps back
    [D]; [c] bounds how many entities it keeps, [k] the generations. *)
Record sim c k t s F D : Prop := {
  sm_range : firstIndex t = first ∧ lastIndex t = last;
  sm_bounds : bounds_ok t;
  sm_count : (Z.of_nat (length F) + reservationCount t + Z.of_nat (length D) <= Z.of_nat c)%Z;
  sm_free : array_repr (freeEntities t) F;
  sm_gone : array_repr (despawnedIndices t) D;
  sm_pages : pages_ok (slots t) ∧ pages_ok (despawnedOutsideRange t);
  sm_ledger : ledger words first last (slot_at t) (taken t F) (rest t F) D (sp_waiting s) (sp_handed s) k;
  sm_live : ∀ e m, sp_live s !! e = Some m ↔ (e < 2 ^ 64)%N ∧ generation e ≠ 0%N ∧
    liveGeneration (slot_at t (index e)) = generation e ∧ componentMask (slot_at t (index e)) = m;
  sm_despawned : ∀ i, i ∈ sp_despawned s ↔ i ∈ D;
  sm_observing : sp_observing s = observing t;
  sm_quiet : observing t = false → D = [] ∧ sp_window s = ∅;
  sm_window : observing t = true → ∀ e, (e ∈ sp_window s → e ∈ taken t F) ∧ (e ∈ taken t F → e ∉ sp_pending s);
  sm_outside : ∀ i, (i < 2 ^ 32)%N → outside_has t i = true ↔ i ∈ D ∧ ¬ in_range first last i;
  sm_stored : ∀ i, i ∈ D → (i < 2 ^ 32)%N ∧ is_Some (at_ (slots t) i)
}.

Lemma sim_mono c k c' k' t s F D : c ≤ c' → k ≤ k' → sim c k t s F D → sim c' k' t s F D.
Proof using Type.
  intros Hc Hk [? ? Hcount ? ? ? HL ? ? ? ? ? ? ?]. split; try done; [lia|by eapply ledger_weaken].
Qed.

Lemma live_index c k t s F D i :
  sim c k t s F D → (i < 2 ^ 32)%N → i ∈ live_indices s ↔ liveGeneration (slot_at t i) ≠ 0%N.
Proof using Type.
  intros S Hi. unfold live_indices. rewrite elem_of_map. split.
  - intros (e & -> & [m He]%elem_of_dom). apply (sm_live _ _ _ _ _ _ S) in He as (_ & Hg & -> & _). done.
  - intros Hl. destruct (lg_slots _ _ _ _ _ _ _ _ _ _ (sm_ledger _ _ _ _ _ _ S) i) as (_ & _ & _ & Hll & Hlast).
    assert (Hg : (liveGeneration (slot_at t i) < 2 ^ 32)%N) by (by rewrite Hll).
    exists (makeEntity i (liveGeneration (slot_at t i))). rewrite index_make by done. split; [done|].
    apply elem_of_dom. exists (componentMask (slot_at t i)). apply (sm_live _ _ _ _ _ _ S).
    rewrite index_make, generation_make by done. split_and!; [by apply makeEntity_bound|done|done|done].
Qed.

Lemma occupied_in_use c k t s F D i :
  sim c k t s F D → (i < 2 ^ 32)%N → occupied s i ↔ in_use (slot_at t) D (sp_waiting s) i.
Proof using Type.
  intros S Hi. unfold occupied, in_use, waiting_indices.
  rewrite !elem_of_union, (live_index _ _ _ _ _ _ _ S Hi), elem_of_map, (sm_despawned _ _ _ _ _ _ S).
  naive_solver.
Qed.

Lemma in_range_bound c k t s F D i : sim c k t s F D → in_range first last i → (i < 2 ^ 32)%N.
Proof using Type. intros S [_ Hi]. destruct (sm_bounds _ _ _ _ _ _ S) as (_ & Hb & _). destruct (sm_range _ _ _ _ _ _ S) as [_ E]. lia. Qed.

(** What is handed out next may be. *)
Lemma rest_may_hand c k t s F D e :
  sim c k t s F D → (N.of_nat k < 2 ^ 32 - 1)%N → e ∈ rest t F → may_hand first last s e.
Proof using Type.
  intros S Hk He. pose proof (sm_ledger _ _ _ _ _ _ S) as L.
  split_and!; [apply (lg_valid _ _ _ _ _ _ _ _ _ _ L); set_solver|by eapply ledger_fresh|].
  rewrite (occupied_in_use _ _ _ _ _ _ _ S) by apply index_bound.
  destruct (lg_rest _ _ _ _ _ _ _ _ _ _ L e He) as ([Hl _] & HD & Hf).
  intros [?|[(e' & He' & E)|?]]; [done|by apply (Hf e')|done].
Qed.

Lemma rest_exhausted c k t s F D : sim c k t s F D → rest t F = [] → exhausted first last s.
Proof using Type.
  intros S E i Hi. rewrite (occupied_in_use _ _ _ _ _ _ _ S) by (by eapply in_range_bound).
  destruct (lg_complete _ _ _ _ _ _ _ _ _ _ (sm_ledger _ _ _ _ _ _ S) i Hi) as [Hx|?]; [|done].
  rewrite E in Hx. by apply not_elem_of_nil in Hx.
Qed.

(** ** Reserving *)

Lemma order_count t F n : order (with_count t n) F = order t F.
Proof using Type. done. Qed.

Lemma taken_next t F e :
  (0 <= reservationCount t)%Z → order t F !! Z.to_nat (reservationCount t) = Some e →
  taken (with_count t (reservationCount t + 1)) F = taken t F ++ [e] ∧
  rest t F = e :: rest (with_count t (reservationCount t + 1)) F.
Proof using Type.
  intros H0 He. unfold taken, rest. rewrite order_count. cbn [reservationCount with_count].
  replace (Z.to_nat (reservationCount t + 1)) with (S (Z.to_nat (reservationCount t))) by lia.
  split; [by apply take_S_r|by apply drop_S].
Qed.

Lemma sim_reserve c k t s F D e :
  sim c k t s F D → (Z.of_nat (S c) < 2 ^ 32)%Z → (N.of_nat k < 2 ^ 32 - 1)%N →
  order t F !! Z.to_nat (reservationCount t) = Some e →
  sim (S c) k (with_count t (reservationCount t + 1)) (sp_reserved s e) F D ∧ e ∈ rest t F.
Proof using Type.
  intros S Hc Hk He. pose proof S as [Hrange (Hn & Hl & Hrc) Hcount Hfree Hgone Hpages HL Hlive Hdes Hobs Hquiet Hwin Hout Hst].
  destruct (taken_next t F e) as [Et Er]; [lia|done|]. rewrite Er in *.
  split; [|set_solver].
  assert (Hew : sp_waiting (sp_reserved s e) = sp_waiting s ∪ {[e]}).
  { unfold sp_reserved, sp_waiting. destruct (sp_observing s); cbn; set_solver. }
  assert (Heh : sp_handed (sp_reserved s e) = sp_handed s ∪ {[e]}) by (unfold sp_reserved; by destruct (sp_observing s)).
  pose proof (ledger_fresh _ _ _ _ _ _ _ _ _ _ e HL Hk ltac:(set_solver)) as Hnew.
  split.
  - done.
  - unfold bounds_ok. cbn. lia.
  - cbn. lia.
  - done.
  - done.
  - done.
  - rewrite Et, Hew, Heh. by apply ledger_reserve.
  - intros e' m. rewrite <- Hlive. unfold sp_reserved. by destruct (sp_observing s).
  - intros i. rewrite <- Hdes. unfold sp_reserved. by destruct (sp_observing s).
  - unfold sp_reserved. destruct (sp_observing s) eqn:E; cbn; by rewrite <- Hobs.
  - cbn. intros E. destruct (Hquiet E) as [-> Hw]. split; [done|]. unfold sp_reserved. rewrite Hobs, E. done.
  - cbn. intros E e'. rewrite Et. destruct (Hwin E e') as [H1 H2]. unfold sp_reserved. rewrite Hobs, E. cbn. split.
    + set_solver.
    + intros [?| ->%list_elem_of_singleton]%elem_of_app Hp; [by apply H2|].
      apply Hnew. apply (lg_reserved _ _ _ _ _ _ _ _ _ _ HL). unfold sp_waiting. set_solver.
  - done.
  - done.
Qed.

Lemma sim_reserve_none c k t s F D :
  sim c k t s F D → (Z.of_nat (S c) < 2 ^ 32)%Z → order t F !! Z.to_nat (reservationCount t) = None →
  sim (S c) k (with_count t (reservationCount t + 1)) s F D ∧ rest t F = [].
Proof using Type.
  intros S Hc He. apply lookup_ge_None_1 in He.
  pose proof S as [Hrange (Hn & Hl & Hrc) Hcount Hfree Hgone Hpages HL Hlive Hdes Hobs Hquiet Hwin Hout Hst].
  assert (Et : taken (with_count t (reservationCount t + 1)) F = taken t F).
  { unfold taken. rewrite order_count. cbn. by rewrite !take_ge by lia. }
  assert (Er : rest (with_count t (reservationCount t + 1)) F = rest t F).
  { unfold rest. rewrite order_count. cbn. by rewrite !drop_ge by lia. }
  split; [|unfold rest; by rewrite drop_ge].
  split; rewrite ?Et, ?Er; try done; [unfold bounds_ok; cbn; lia|cbn; lia].
Qed.

(** ** Coming alive *)

Lemma setAlive_spec t e :
  pages_ok (slots t) →
  ∃ sl, setAlive words t e = Some (with_slots t sl) ∧ slots_kept (slots t) sl ∧
    ∀ i, entry sl i = born (slot_at t) e i.
Proof using Type.
  intros Hok. unfold setAlive.
  destruct (create_modify_spec (slots t) (index e)
    (λ slot, mkSlot (generation e) (generation e) (componentMask slot)) Hok) as (sl & -> & Hok' & _ & He & Hk).
  exists sl. split_and!; [done|by split|]. intros i. rewrite He. unfold born, update. by destruct (decide _).
Qed.

(** The live entities and their components, as the slots have them. *)
Definition lives (sl : N → entitySlot) (live : gmap Entity mask) : Prop :=
  ∀ e m, live !! e = Some m ↔ (e < 2 ^ 64)%N ∧ generation e ≠ 0%N ∧
    liveGeneration (sl (index e)) = generation e ∧ componentMask (sl (index e)) = m.

Lemma lives_ext sl1 sl2 live : (∀ i, sl1 i = sl2 i) → lives sl2 live → lives sl1 live.
Proof using Type. intros E H e m. rewrite E. apply H. Qed.

Lemma lives_update sl live e x :
  lives sl live → (e < 2 ^ 64)%N → generation e ≠ 0%N →
  liveGeneration (sl (index e)) = 0%N ∨ liveGeneration (sl (index e)) = generation e →
  liveGeneration x = 0%N ∨ liveGeneration x = generation e →
  lives (update sl (index e) x)
    (if decide (liveGeneration x = 0%N) then delete e live else <[e := componentMask x]> live).
Proof using Type.
  intros Hl He Hg Hold Hnew e' m. destruct (decide (e' = e)) as [->|Hne].
  - rewrite update_eq. destruct (decide (liveGeneration x = 0%N)) as [E|E].
    + rewrite lookup_delete_eq, E. naive_solver.
    + rewrite lookup_insert_eq. naive_solver.
  - assert (E : (if decide (liveGeneration x = 0%N) then delete e live else <[e := componentMask x]> live) !! e' = live !! e').
    { destruct (decide _); [by rewrite lookup_delete_ne|by rewrite lookup_insert_ne]. }
    rewrite E, (Hl e' m). destruct (decide (index e' = index e)) as [Ei|Ei]; [|by rewrite update_ne].
    rewrite Ei, update_eq. split.
    + intros (He' & Hg' & H1 & _). destruct Hold as [H0|H0]; [congruence|].
      destruct Hne. apply entity_eq; [done|done|done|congruence].
    + intros (He' & Hg' & H1 & _). destruct Hnew as [H0|H0]; [congruence|].
      destruct Hne. apply entity_eq; [done|done|done|congruence].
Qed.

Lemma lives_born sl live e :
  lives sl live → (∀ i, slot_ok words (sl i)) → (e < 2 ^ 64)%N → generation e ≠ 0%N → liveGeneration (sl (index e)) = 0%N →
  lives (born sl e) (<[e := noMask words]> live).
Proof using Type.
  intros Hl Hs He Hg H0. destruct (Hs (index e)) as (_ & _ & Hm & _). rewrite <- (Hm H0).
  pose proof (lives_update sl live e (mkSlot (generation e) (generation e) (componentMask (sl (index e)))) Hl He Hg) as Hx.
  cbn [liveGeneration componentMask] in Hx. rewrite decide_False in Hx by done. apply Hx; [by left|by right].
Qed.

Lemma stored_kept t sl D :
  slots_kept (slots t) sl → (∀ i, i ∈ D → (i < 2 ^ 32)%N ∧ is_Some (at_ (slots t) i)) →
  ∀ i, i ∈ D → (i < 2 ^ 32)%N ∧ is_Some (at_ sl i).
Proof using Type. intros [_ Hk] H i Hi. destruct (H i Hi). split; [done|by apply Hk]. Qed.

Lemma sim_birth c k t s F D e sl :
  sim c k t s F D → (N.of_nat k < 2 ^ 32 - 1)%N → e ∈ sp_waiting s →
  slots_kept (slots t) sl → (∀ i, entry sl i = born (slot_at t) e i) →
  sim c (S k) (with_slots t sl) (sp_spawned words s e) F D.
Proof using Type.
  intros S Hk He Hkept Hborn.
  pose proof S as [Hrange Hb Hcount Hfree Hgone [Hp1 Hp2] HL Hlive Hdes Hobs Hquiet Hwin Hout Hst].
  assert (Hv : handed_ok first last e) by (apply (lg_valid _ _ _ _ _ _ _ _ _ _ HL); auto).
  destruct (lg_reserved _ _ _ _ _ _ _ _ _ _ HL e He) as ([Hz _] & _ & _).
  assert (Hw : sp_waiting (sp_spawned words s e) = sp_waiting s ∖ {[e]}) by (unfold sp_waiting; cbn; set_solver).
  split; try done.
  - split; [apply Hkept|done].
  - rewrite Hw. eapply (ledger_ext _ _ _ (born (slot_at t) e)); [done|done|done|]. by apply ledger_birth.
  - apply (lives_ext _ (born (slot_at t) e)); [done|]. destruct Hv as (?&?&?).
    apply lives_born; [done|apply HL|done|done|done].
  - intros E. destruct (Hquiet E) as [-> Ew]. split; [done|]. cbn. rewrite Ew. set_solver.
  - intros E e'. destruct (Hwin E e') as [H1 H2]. cbn. split; [|set_solver].
    intros [? _]%elem_of_difference. by apply H1.
  - by eapply stored_kept.
Qed.

(** ** Placing *)

Lemma land63 i : N.land i 63 = (i mod 2 ^ 6)%N.
Proof using Type. apply (N.land_ones i 6). Qed.

Lemma bit_address i j : N.shiftr i 6 = N.shiftr j 6 → N.land i 63 = N.land j 63 → i = j.
Proof using Type.
  rewrite !N.shiftr_div_pow2, !land63. intros E1 E2.
  rewrite (N.div_mod i (2 ^ 6)), (N.div_mod j (2 ^ 6)) by done. congruence.
Qed.

Lemma outside_bit_eq i : outside_bit i = (2 ^ N.land i 63)%N.
Proof using Type. apply N.shiftl_1_l. Qed.

Lemma outside_read t i :
  match at_ (despawnedOutsideRange t) (N.shiftr i 6) with
  | Some word => negb (N.land word (outside_bit i) =? 0)%N
  | None => false
  end = outside_has t i.
Proof using Type.
  unfold outside_has, entry. destruct (at_ _ _) as [w|]; cbn [from_option id]; [|symmetry; apply N.bits_0].
  by rewrite outside_bit_eq, land_bit_test.
Qed.

Lemma live_read t i :
  match at_ (slots t) i with Some slot => negb (liveGeneration slot =? 0)%N | None => false end =
  negb (liveGeneration (slot_at t i) =? 0)%N.
Proof using Type. unfold entry. by destruct (at_ _ _). Qed.

Lemma inside_spec c k t s F D i : sim c k t s F D → inside t i = bool_decide (in_range first last i).
Proof using Type.
  intros S. destruct (sm_range _ _ _ _ _ _ S) as [E1 E2]. unfold inside. rewrite E1, E2. unfold in_range.
  destruct (N.leb_spec first i), (N.leb_spec i last); simpl; symmetry;
    (apply bool_decide_eq_true || apply bool_decide_eq_false); lia.
Qed.

Lemma table_place_spec c k t s F D e :
  sim c k t s F D → (e < 2 ^ 64)%N →
  ∃ t' error s', place words t e = Some (t', error) ∧ spec_step words first last s (OPlace e) (Placed error) s' ∧
    sim c k t' s' F D.
Proof using Type.
  intros S He. unfold place. rewrite (inside_spec _ _ _ _ _ _ _ S), live_read, outside_read.
  pose proof (live_index _ _ _ _ _ _ (index e) S (index_bound e)) as Hli.
  destruct (place_answer first last s e) as [error|] eqn:Ep.
  - exists t, (Some error), s. split_and!; [|by constructor|done]. unfold place_answer in Ep.
    destruct (N.eqb_spec (generation e) 0) as [E|E]; [by rewrite decide_True in Ep by done; simplify_eq|].
    rewrite decide_False in Ep by done. destruct (decide (in_range first last (index e))) as [Hr|Hr].
    { simplify_eq. by rewrite bool_decide_eq_true_2. }
    rewrite bool_decide_eq_false_2 by done. destruct (N.eqb_spec (liveGeneration (slot_at t (index e))) 0) as [El|El]; simpl.
    2:{ rewrite decide_True in Ep by (by apply Hli). by simplify_eq. }
    rewrite decide_False in Ep by (by intros ?%Hli).
    destruct (decide (index e ∈ sp_despawned s)) as [Hd|Hd]; [|done]. simplify_eq.
    rewrite (sm_despawned _ _ _ _ _ _ S) in Hd.
    assert (outside_has t (index e) = true) as ->; [|done].
    apply (sm_outside _ _ _ _ _ _ S); [apply index_bound|done].
  - unfold place_answer in Ep.
    destruct (decide (generation e = 0%N)) as [|Hg]; [done|]. destruct (decide (in_range first last (index e))) as [|Hr]; [done|].
    destruct (decide (index e ∈ live_indices s)) as [|Hl]; [done|]. destruct (decide (index e ∈ sp_despawned s)) as [|Hd]; [done|].
    pose proof Hd as Hds. rewrite (sm_despawned _ _ _ _ _ _ S) in Hd.
    pose proof S as [Hrange Hb Hcount Hfree Hgone [Hp1 Hp2] HL Hlive Hdes Hobs Hquiet Hwin Hout Hst].
    assert (Hz : liveGeneration (slot_at t (index e)) = 0%N).
    { destruct (decide (liveGeneration (slot_at t (index e)) = 0%N)); [done|]. destruct Hl. by apply Hli. }
    destruct (N.eqb_spec (generation e) 0) as [|_]; [done|]. rewrite bool_decide_eq_false_2 by done. rewrite Hz. simpl.
    destruct (outside_has t (index e)) eqn:Eo; [exfalso; apply (Hout _ (index_bound e)) in Eo as [? _]; done|].
    destruct (setAlive_spec t e Hp1) as (sl & -> & Hkept & Hborn). cbn [mbind option_bind].
    exists (with_slots t sl), None, (sp_spawned words s e). split_and!; [done| |].
    { constructor. unfold place_answer. by rewrite !decide_False by done. }
    assert (Hnw : e ∉ sp_waiting s).
    { intros Hw. destruct (lg_valid _ _ _ _ _ _ _ _ _ _ HL e) as (_ & Hx & _); [by auto|]. done. }
    assert (Hw : sp_waiting (sp_spawned words s e) = sp_waiting s).
    { unfold sp_waiting in *. cbn. set_solver. }
    split; try done.
    + split; [apply Hkept|done].
    + rewrite Hw. eapply (ledger_ext _ _ _ (born (slot_at t) e)); [done|done|done|].
      apply ledger_outside; [done|done|apply slot_ok_born; [apply HL|done]|by right|apply index_bound].
    + apply (lives_ext _ (born (slot_at t) e)); [done|]. apply lives_born; [done|apply HL|done|done|done].
    + intros E. destruct (Hquiet E) as [-> Ew]. split; [done|]. cbn. rewrite Ew. set_solver.
    + intros E e'. destruct (Hwin E e') as [H1 H2]. cbn. unfold sp_waiting in Hnw. set_solver.
    + by eapply stored_kept.
Qed.

(** ** Spawning a reservation *)

Lemma spawnReserved_spec c k t s F D e :
  sim c k t s F D → (N.of_nat k < 2 ^ 32 - 1)%N → e ∈ sp_handed s →
  ∃ t' b s', spawnReserved words t e = Some (t', b) ∧
    spec_step words first last s (OSpawnReserved e) (Answered b) s' ∧ sim c (S k) t' s' F D.
Proof using Type.
  intros S Hk He. pose proof (sm_ledger _ _ _ _ _ _ S) as L. destruct (sm_pages _ _ _ _ _ _ S) as [Hp _].
  unfold spawnReserved. rewrite live_read.
  assert (El : match at_ (slots t) (index e) with Some slot => lastGeneration slot | None => 0%N end =
    lastGeneration (slot_at t (index e))) by (unfold entry; by destruct (at_ _ _)).
  rewrite El. destruct (lg_valid _ _ _ _ _ _ _ _ _ _ L e) as (Hb & Hi & Hg); [auto|].
  destruct (decide (e ∈ sp_waiting s)) as [Hw|Hw].
  - destruct (lg_reserved _ _ _ _ _ _ _ _ _ _ L e Hw) as ([E1 E2] & _). rewrite E1, E2, !N.eqb_refl. cbn [negb].
    destruct (setAlive_spec t e Hp) as (sl & -> & Hkept & Hborn). cbn [mbind option_bind].
    exists (with_slots t sl), true, (sp_spawned words s e).
    split_and!; [done|by constructor|by eapply sim_birth].
  - exists t, false, s. split_and!; [|by constructor|apply (sim_mono c k); [lia|lia|done]].
    destruct (N.eqb_spec (liveGeneration (slot_at t (index e))) 0) as [Ez|Ez]; cbn [negb]; [|reflexivity].
    destruct (N.eqb_spec (generation e) (nextGeneration (lastGeneration (slot_at t (index e))))) as [Eg|Eg];
      cbn [negb]; [|reflexivity].
    exfalso. destruct (lg_handed _ _ _ _ _ _ _ _ _ _ L e He) as [|Hle]; [done|].
    rewrite (unborn_generation (slot_at t) e k) in Hle; [lia|by apply L|done|done].
Qed.

(** ** Components *)

Lemma sim_mask c k t s F D e m sl :
  sim c k t s F D → is_Some (sp_live s !! e) → length m = words → mask_bound m →
  slots_kept (slots t) sl →
  (∀ i, entry sl i = update (slot_at t) (index e) (set_mask (slot_at t (index e)) m) i) →
  sim c k (with_slots t sl) (sp_masked s e m) F D.
Proof using Type.
  intros S [m0 Hm0] Hlen Hmb Hkept Hent.
  pose proof S as [Hrange Hb Hcount Hfree Hgone [Hp1 Hp2] HL Hlive Hdes Hobs Hquiet Hwin Hout Hst].
  destruct (proj1 (Hlive e m0) Hm0) as (He & Hg & Hl & _).
  split; try done.
  - split; [apply Hkept|done].
  - eapply (ledger_ext _ _ _ (update (slot_at t) (index e) (set_mask (slot_at t (index e)) m))); [done|done|done|].
    apply ledger_mask; [done|by rewrite Hl|done|done].
  - apply (lives_ext _ (update (slot_at t) (index e) (set_mask (slot_at t (index e)) m))); [done|].
    pose proof (lives_update (slot_at t) (sp_live s) e (set_mask (slot_at t (index e)) m) Hlive He Hg) as Hx.
    cbn in Hx. rewrite decide_False in Hx by (by rewrite Hl). apply Hx; by right.
  - by eapply stored_kept.
Qed.

(** A change of a component's bit, [f] being [maskSet] or [maskUnset]. *)
Lemma change_mask_spec c k t s F D e id (f : mask → nat → option mask) :
  (∀ m, id < maskBits (length m) → mask_bound m → ∃ m', f m id = Some m' ∧ length m' = length m ∧ mask_bound m') →
  sim c k t s F D → is_Some (sp_live s !! e) → id < words * 64 →
  ∃ t' m m', (slot ← at_ (slots t) (index e); m ← f (componentMask slot) id;
    sl ← at_set (slots t) (index e) (set_mask slot m); Some (with_slots t sl)) = Some t' ∧
    sp_live s !! e = Some m ∧ f m id = Some m' ∧ sim c k t' (sp_masked s e m') F D.
Proof using Type.
  intros Hf S [m Hm] Hid. destruct (sm_pages _ _ _ _ _ _ S) as [Hp _].
  destruct (proj1 (sm_live _ _ _ _ _ _ S e m) Hm) as (He & Hg & Hl & Ecm).
  destruct (lg_slots _ _ _ _ _ _ _ _ _ _ (sm_ledger _ _ _ _ _ _ S) (index e)) as (Hlen & Hbd & _).
  rewrite Ecm in *. destruct (Hf m) as (m' & Ef & Hlen' & Hbd'); [by rewrite Hlen|done|].
  assert (Hat : at_ (slots t) (index e) = Some (slot_at t (index e))).
  { apply entry_nonzero. intros Ez. rewrite Ez in Hl. by rewrite <- Hl in Hg. }
  rewrite Hat. cbn [mbind option_bind]. rewrite Ecm, Ef. cbn [mbind option_bind].
  destruct (at_set_spec (slots t) (index e) (set_mask (slot_at t (index e)) m') Hp) as (sl & -> & Hok & Hat'); [by eexists|].
  cbn [mbind option_bind]. exists (with_slots t sl), m, m'. split_and!; [done|done|done|].
  apply sim_mask; [done|by eexists|congruence|done| |].
  - split; [done|]. intros i Hi. rewrite Hat'. by destruct (decide _).
  - intros i. unfold entry at 1. rewrite Hat'. unfold update. by destruct (decide _).
Qed.

(** ** Settling without reclaiming *)

Lemma sim_settle_keep c k t s F D :
  sim c k t s F D → observing t = false →
  ∃ t' F', settleReservations words t false = Some t' ∧ sim c k t' s F' D ∧
    observing t' = false ∧ reservationCount t' = 0%Z.
Proof using Type.
  intros S Ho. pose proof S as [Hrange Hb Hcount Hfree Hgone [Hp1 Hp2] HL Hlive Hdes Hobs Hquiet Hwin Hout Hst].
  destruct (settle_keep_spec words t F Hfree Hb)
    as (t' & F' & -> & ((E1 & E2 & E3 & E4 & E5) & Hfree' & Hrc & Hb' & Hord & Hlen) & Es).
  exists t', F'. rewrite app_nil_r in Hord. split_and!; [done| |congruence|done].
  assert (Et : taken t' F' = []) by (unfold taken; by rewrite Hrc).
  assert (Er : rest t' F' = order t' F') by (unfold rest; by rewrite Hrc).
  split; rewrite ?E1, ?E2, ?E3, ?E4, ?E5, ?Es, ?Et, ?Er; try done.
  - rewrite Hrc. simpl in Hlen. destruct Hb. lia.
  - eapply ledger_ext; [done|done|symmetry; exact Hord|]. by eapply ledger_settle.
  - congruence.
  - unfold outside_has. rewrite E5. done.
Qed.

(** ** Spawning *)

Lemma reserve_sim c k t s F D :
  sim c k t s F D → (Z.of_nat (S c) < 2 ^ 32)%Z → (N.of_nat k < 2 ^ 32 - 1)%N →
  ∃ t', slots t' = slots t ∧
    ((∃ e, reserve t = Some (t', e) ∧ may_hand first last s e ∧ sim (S c) k t' (sp_reserved s e) F D) ∨
     (reserve t = Some (t', NoEntity) ∧ exhausted first last s ∧ sim (S c) k t' s F D)).
Proof using Type.
  intros S Hc Hk. pose proof (sm_bounds _ _ _ _ _ _ S) as Hb. pose proof (sm_count _ _ _ _ _ _ S) as Hcount.
  exists (with_count t (reservationCount t + 1)). split; [done|].
  rewrite (table_reserve_spec t F); [|apply S|destruct Hb; lia|done].
  destruct (order t F !! Z.to_nat (reservationCount t)) as [e|] eqn:E.
  - left. exists e. destruct (sim_reserve _ _ _ _ _ _ _ S Hc Hk E) as [S' He].
    split_and!; [done|by eapply rest_may_hand|done].
  - right. destruct (sim_reserve_none _ _ _ _ _ _ S Hc E) as [S' He].
    split_and!; [done|exact (rest_exhausted _ _ _ _ _ _ S He)|done].
Qed.

Lemma spawn_spec c k t s F D :
  sim c k t s F D → (Z.of_nat (S c) < 2 ^ 32)%Z → (N.of_nat k < 2 ^ 32 - 1)%N →
  ∃ t' e s' F', spawn words t = Some (t', e) ∧ spec_step words first last s OSpawn (Handed e) s' ∧
    sim (S c) (S k) t' s' F' D.
Proof using Type.
  intros S Hc Hk. unfold spawn.
  assert (Hset : ∃ t1 F1, (if negb (observing t) then settleReservations words t false else Some t) = Some t1 ∧ sim c k t1 s F1 D).
  { destruct (observing t) eqn:Eo; [by exists t, F|].
    destruct (sim_settle_keep _ _ _ _ _ _ S Eo) as (t1 & F1 & -> & S1 & _). by exists t1, F1. }
  destruct Hset as (t1 & F1 & -> & S1). cbn [mbind option_bind].
  destruct (reserve_sim _ _ _ _ _ _ S1 Hc Hk) as (t2 & Es & [(e & -> & Hm & S2)|(-> & Hx & S2)]); cbn [mbind option_bind].
  - pose proof Hm as ((_ & _ & Hg) & _ & _).
    destruct (N.eqb_spec e NoEntity) as [->|_]; [by destruct Hg|].
    destruct (setAlive_spec t2 e) as (sl & -> & Hkept & Hborn); [apply S2|]. cbn [mbind option_bind].
    eexists _, _, _, F1. split; [done|]. split; [by constructor|].
    eapply sim_birth; [done|done| |done|done]. unfold sp_waiting, sp_reserved. destruct (sp_observing s); cbn; set_solver.
  - eexists _, _, s, F1. split; [done|]. split; [by constructor|]. apply (sim_mono _ k _ _ _ _ _ _ (le_n _)); [lia|done].
Qed.

(** ** Despawning *)

Lemma free_spec t F i :
  array_repr (freeEntities t) F → is_Some (at_ (slots t) i) →
  if inside t i
  then ∃ a, free t i = Some (with_free t a) ∧ array_repr a (F ++ [freed (slot_at t) i])
  else free t i = Some t.
Proof using Type.
  intros Hr [slot Hs]. unfold free. destruct (inside t i); [|done]. rewrite Hs. cbn [mbind option_bind].
  destruct (array_append_repr _ _ (makeEntity i (nextGeneration (lastGeneration slot))) Hr) as (a & -> & Ha).
  cbn [mbind option_bind]. exists a. split; [done|]. unfold freed. by rewrite (at_entry _ _ _ Hs).
Qed.

Lemma order_freed t F a x : order (with_free t a) (F ++ [x]) = x :: order t F.
Proof using Type. unfold order. by rewrite reverse_snoc. Qed.

(** Freeing one of the indices kept back, nothing being reserved. *)
Lemma free_ledger t F (D : list N) (i : N) W H k :
  ledger words first last (slot_at t) [] (order t F) (i :: D) W H k → (i < 2 ^ 32)%N →
  inside t i = bool_decide (in_range first last i) →
  array_repr (freeEntities t) F → is_Some (at_ (slots t) i) →
  ∃ a F', free t i = Some (with_free t a) ∧ array_repr a F' ∧
    length F' ≤ length F + 1 ∧ ledger words first last (slot_at t) [] (order t F') D W H k.
Proof using Type.
  intros L Hi Hin Hr Hs. pose proof (free_spec t F i Hr Hs) as Hf. rewrite Hin in Hf. case_bool_decide as E.
  - destruct Hf as (a & -> & Ha). exists a, (F ++ [freed (slot_at t) i]). split_and!; [done|done| |].
    + rewrite length_app. simpl. lia.
    + change (order t (F ++ [freed (slot_at t) i])) with (order (with_free t a) (F ++ [freed (slot_at t) i])).
      rewrite order_freed. eapply ledger_ext; [done|done| |by apply ledger_free]. solve_Permutation.
  - exists (freeEntities t), F. split_and!; [by destruct t|done|lia|]. by eapply ledger_free_outside.
Qed.

(** A table whose slot for live [e] is cleared. *)
Definition cleared t e (sl : indexTable entitySlot) : Prop :=
  slots_kept (slots t) sl ∧ is_Some (at_ sl (index e)) ∧
  ∀ i, entry sl i = update (slot_at t) (index e) (dead_slot words (slot_at t) (index e)) i.

Lemma clear_spec c k t s F D e m :
  sim c k t s F D → sp_live s !! e = Some m →
  ∃ slot sl, at_ (slots t) (index e) = Some slot ∧
    (negb (liveGeneration slot =? generation e) || (liveGeneration slot =? 0))%N = false ∧ componentMask slot = m ∧
    at_set (slots t) (index e) (mkSlot 0 (lastGeneration slot) (noMask words)) = Some sl ∧ cleared t e sl.
Proof using Type.
  intros S Hm. destruct (proj1 (sm_live _ _ _ _ _ _ S e m) Hm) as (He & Hg & Hl & Ecm).
  destruct (sm_pages _ _ _ _ _ _ S) as [Hp _].
  assert (Hat : at_ (slots t) (index e) = Some (slot_at t (index e))).
  { apply entry_nonzero. intros Ez. rewrite Ez in Hl. by rewrite <- Hl in Hg. }
  destruct (at_set_spec (slots t) (index e) (dead_slot words (slot_at t) (index e)) Hp) as (sl & E & Hok & Hat'); [by eexists|].
  exists (slot_at t (index e)), sl. split_and!; [done| |done|done|].
  - rewrite Hl, N.eqb_refl. cbn [negb orb]. by apply N.eqb_neq.
  - split_and!.
    + split; [done|]. intros i Hi. rewrite Hat'. by destruct (decide _).
    + rewrite Hat'. by rewrite decide_True.
    + intros i. unfold entry at 1. rewrite Hat'. unfold update. by destruct (decide _).
Qed.

Lemma cleared_lives c k t s F D e m sl :
  sim c k t s F D → sp_live s !! e = Some m → cleared t e sl → lives (entry sl) (delete e (sp_live s)).
Proof using Type.
  intros S Hm (_ & _ & Hent). pose proof (sm_live _ _ _ _ _ _ S) as Hlive.
  destruct (proj1 (Hlive e m) Hm) as (He & Hg & Hl & _).
  eapply lives_ext; [exact Hent|].
  pose proof (lives_update (slot_at t) (sp_live s) e (dead_slot words (slot_at t) (index e)) Hlive He Hg) as Hx.
  cbn [liveGeneration dead_slot] in Hx. rewrite decide_True in Hx by done. apply Hx; [by right|by left].
Qed.

Lemma cleared_ledger c k t s F D e m sl :
  sim c k t s F D → sp_live s !! e = Some m → cleared t e sl →
  ledger words first last (entry sl) (taken t F) (rest t F) (D ++ [index e]) (sp_waiting s) (sp_handed s) k.
Proof using Type.
  intros S Hm (_ & _ & Hent). destruct (proj1 (sm_live _ _ _ _ _ _ S e m) Hm) as (He & Hg & Hl & _).
  eapply ledger_ext; [intros i; symmetry; apply Hent|done|done|].
  apply ledger_despawn; [apply S|by rewrite Hl].
Qed.

(** The bits of the indices outside the range, one more set. *)
Lemma outside_set t i :
  pages_ok (despawnedOutsideRange t) →
  ∃ o, create_modify (despawnedOutsideRange t) (N.shiftr i 6) (λ word, N.lor word (outside_bit i)) = Some o ∧
    pages_ok o ∧ ∀ j, N.testbit (entry o (N.shiftr j 6)) (N.land j 63) = outside_has t j || bool_decide (j = i).
Proof using Type.
  intros Hok. destruct (create_modify_spec _ (N.shiftr i 6) (λ word, N.lor word (outside_bit i)) Hok)
    as (o & -> & Hok' & _ & Hent & _).
  exists o. split_and!; [done|done|]. intros j. rewrite Hent. unfold outside_has.
  destruct (decide (N.shiftr j 6 = N.shiftr i 6)) as [E|E].
  - rewrite E, N.lor_spec, outside_bit_eq, testbit_pow2. f_equal. apply bool_decide_ext. split.
    + intros E2. by apply bit_address.
    + by intros ->.
  - rewrite bool_decide_eq_false_2 by (by intros ->). by rewrite orb_false_r.
Qed.

(** What despawning does once the slot is cleared. *)
Definition keep_back t (i : N) : option entityTable :=
  '(a, _) ← AAppend (despawnedIndices t) i;
  let t := with_despawned t a in
  if negb (inside t i) then
    o ← create_modify (despawnedOutsideRange t) (N.shiftr i 6) (λ word, N.lor word (outside_bit i));
    Some (with_outside t o)
  else Some t.

Lemma keep_back_spec t D i :
  array_repr (despawnedIndices t) D → pages_ok (despawnedOutsideRange t) →
  inside t i = bool_decide (in_range first last i) →
  (∀ j, (j < 2 ^ 32)%N → outside_has t j = true ↔ j ∈ D ∧ ¬ in_range first last j) →
  ∃ a o, keep_back t i = Some (with_outside (with_despawned t a) o) ∧ array_repr a (D ++ [i]) ∧ pages_ok o ∧
    ∀ j, (j < 2 ^ 32)%N → N.testbit (entry o (N.shiftr j 6)) (N.land j 63) = true ↔ j ∈ D ++ [i] ∧ ¬ in_range first last j.
Proof using Type.
  intros Hgone Hp Hin Hout. unfold keep_back. destruct (array_append_repr _ _ i Hgone) as (a & -> & Ha).
  cbn [mbind option_bind]. assert (Hin' : inside (with_despawned t a) i = inside t i) by reflexivity.
  rewrite Hin', Hin. cbn [despawnedOutsideRange with_despawned].
  case_bool_decide as E; cbn [negb].
  - exists a, (despawnedOutsideRange t). split_and!; [by destruct t|done|done|].
    intros j Hj. rewrite (Hout j Hj), elem_of_app, list_elem_of_singleton. naive_solver.
  - destruct (outside_set t i Hp) as (o & -> & Hok & Hbit). cbn [mbind option_bind].
    exists a, o. split_and!; [done|done|done|]. intros j Hj.
    rewrite Hbit, orb_true_iff, bool_decide_eq_true, (Hout j Hj), elem_of_app, list_elem_of_singleton. naive_solver.
Qed.

Lemma sim_despawn_observing c k t s F D e m sl :
  sim c k t s F D → observing t = true → sp_live s !! e = Some m → cleared t e sl →
  ∃ t', keep_back (with_slots t sl) (index e) = Some t' ∧ sim (S c) k t' (sp_ended s e) F (D ++ [index e]).
Proof using Type.
  intros S Ho Hm Hcl. pose proof (cleared_lives _ _ _ _ _ _ _ _ _ S Hm Hcl) as Hlv.
  pose proof (cleared_ledger _ _ _ _ _ _ _ _ _ S Hm Hcl) as HL. destruct Hcl as (Hkept & Hat & _).
  pose proof S as [Hrange Hb Hcount Hfree Hgone [Hp1 Hp2] _ Hlive Hdes Hobs Hquiet Hwin Hout Hst].
  destruct (keep_back_spec (with_slots t sl) D (index e) Hgone Hp2 (inside_spec _ _ _ _ _ _ _ S) Hout)
    as (a & o & E & Ha & Hok & Hbit).
  exists (with_outside (with_despawned (with_slots t sl) a) o). split; [done|].
  split; try done.
  - cbn [reservationCount with_outside with_despawned with_slots]. rewrite length_app. simpl length. lia.
  - split; [apply Hkept|done].
  - intros i. cbn. rewrite Hobs, Ho, elem_of_union, elem_of_singleton, elem_of_app, list_elem_of_singleton, Hdes. done.
  - cbn. congruence.
  - intros i [Hi| ->%list_elem_of_singleton]%elem_of_app.
    + by apply (stored_kept t sl D).
    + split; [apply index_bound|done].
Qed.

Lemma sim_despawn_quiet c k t s F D e m sl :
  sim c k t s F D → observing t = false → sp_live s !! e = Some m → cleared t e sl →
  ∃ t1 t' F', settleReservations words (with_slots t sl) false = Some t1 ∧ free t1 (index e) = Some t' ∧
    sim (S c) k t' (sp_ended s e) F' D.
Proof using Type.
  intros S Ho Hm Hcl. pose proof (cleared_lives _ _ _ _ _ _ _ _ _ S Hm Hcl) as Hlv.
  pose proof (cleared_ledger _ _ _ _ _ _ _ _ _ S Hm Hcl) as HL. destruct Hcl as (Hkept & Hat & _).
  pose proof S as [[Hf1 Hf2] Hb Hcount Hfree Hgone [Hp1 Hp2] _ Hlive Hdes Hobs Hquiet Hwin Hout Hst].
  destruct (Hquiet Ho) as [-> Hw].
  destruct (settle_keep_spec words (with_slots t sl) F Hfree Hb)
    as (t1 & F1 & -> & ((E1 & E2 & E3 & E4 & E5) & Hfree1 & Hrc & Hb1 & Hord & Hlen) & Es).
  rewrite app_nil_r in Hord. cbn [slots with_slots firstIndex lastIndex observing despawnedIndices despawnedOutsideRange] in *.
  destruct (free_ledger t1 F1 [] (index e) (sp_waiting s) (sp_handed s) k) as (a & F' & Ef & Hfree' & Hlen' & HL').
  - rewrite Es. eapply ledger_ext; [done|done|symmetry; exact Hord|]. by eapply ledger_settle.
  - apply index_bound.
  - unfold inside. rewrite E1, E2. exact (inside_spec _ _ _ _ _ _ (index e) S).
  - done.
  - by rewrite Es.
  - exists t1, (with_free t1 a), F'. split; [done|]. split; [done|]. rewrite Es in HL'.
    split; cbn [slots firstIndex lastIndex observing despawnedIndices despawnedOutsideRange reservationCount freeEntities with_free];
      rewrite ?Es, ?E1, ?E2, ?E3, ?E4, ?E5, ?Hrc; try done.
    + cbn [length] in *. destruct Hb. lia.
    + split; [apply Hkept|done].
    + unfold taken, rest. cbn [reservationCount with_free]. by rewrite Hrc.
    + intros i. cbn. by rewrite Hobs, Ho.
    + congruence.
    + intros i Hi. unfold outside_has. cbn [despawnedOutsideRange with_free]. rewrite E5. by apply Hout.
    + by intros i Hi%not_elem_of_nil.
Qed.

Lemma not_live_read c k t s F D e :
  sim c k t s F D → (e < 2 ^ 64)%N → sp_live s !! e = None →
  match at_ (slots t) (index e) with
  | None => True
  | Some slot => (negb (liveGeneration slot =? generation e) || (liveGeneration slot =? 0))%N = true
  end.
Proof using Type.
  intros S He Hn. destruct (at_ (slots t) (index e)) as [slot|] eqn:E; [|done].
  apply orb_true_iff. destruct (N.eqb_spec (liveGeneration slot) 0) as [|Hz]; [by right|left].
  apply negb_true_iff, N.eqb_neq. intros Eg.
  assert (sp_live s !! e = Some (componentMask slot)); [|congruence].
  apply (sm_live _ _ _ _ _ _ S). rewrite (at_entry _ _ _ E). split_and!; [done|congruence|done|done].
Qed.

Lemma despawn_spec c k t s F D e :
  sim c k t s F D → (e < 2 ^ 64)%N →
  ∃ t' m b s' F' D', despawn words t e = Some (t', (m, b)) ∧
    spec_step words first last s (ODespawn e) (Ended m b) s' ∧ sim (S c) k t' s' F' D'.
Proof using Type.
  intros S He. unfold despawn. destruct (sp_live s !! e) as [m|] eqn:Em.
  - destruct (clear_spec _ _ _ _ _ _ _ _ S Em) as (slot & sl & -> & Hg & Ecm & E & Hcl). rewrite Hg.
    rewrite E, Ecm. cbn [mbind option_bind].
    change (observing (with_slots t sl)) with (observing t). destruct (observing t) eqn:Ho.
    + destruct (sim_despawn_observing _ _ _ _ _ _ _ _ _ S Ho Em Hcl) as (t' & Ek & S'). unfold keep_back in Ek. rewrite Ek.
      eexists t', m, true, _, F, _. split; [done|]. split; [by constructor|done].
    + destruct (sim_despawn_quiet _ _ _ _ _ _ _ _ _ S Ho Em Hcl) as (t1 & t' & F' & -> & Ef & S').
      cbn [mbind option_bind]. rewrite Ef. cbn [mbind option_bind].
      eexists t', m, true, _, F', D. split; [done|]. split; [by constructor|done].
  - pose proof (not_live_read _ _ _ _ _ _ _ S He Em) as Hn. exists t, (noMask words), false, s, F, D.
    split; [|split; [by constructor|by apply (sim_mono c k); [lia|lia|]]].
    destruct (at_ (slots t) (index e)) as [slot|]; [by rewrite Hn|done].
Qed.

(** ** The end of a window *)

Lemma burn_all_live sl l i :
  liveGeneration ((burn_all sl l).1 i) = liveGeneration (sl i) ∧ componentMask ((burn_all sl l).1 i) = componentMask (sl i).
Proof using Type.
  induction l as [|e l IH] using rev_ind; [done|]. rewrite burn_all_snoc. unfold burn_step, burnt, update. cbn [fst].
  by destruct (decide (i = index e)) as [->|].
Qed.

(** A set bit is cleared. *)
Lemma outside_clear t i :
  pages_ok (despawnedOutsideRange t) → outside_has t i = true →
  ∃ word o, at_ (despawnedOutsideRange t) (N.shiftr i 6) = Some word ∧
    at_set (despawnedOutsideRange t) (N.shiftr i 6) (N.ldiff word (outside_bit i)) = Some o ∧ pages_ok o ∧
    ∀ j, N.testbit (entry o (N.shiftr j 6)) (N.land j 63) = outside_has t j && negb (bool_decide (j = i)).
Proof using Type.
  intros Hok Hbit. unfold outside_has in Hbit.
  destruct (at_ (despawnedOutsideRange t) (N.shiftr i 6)) as [word|] eqn:E.
  2:{ unfold entry in Hbit. rewrite E in Hbit. cbn [from_option id] in Hbit. unfold zero_value, zero_N in Hbit.
      by rewrite N.bits_0 in Hbit. }
  destruct (at_set_spec _ (N.shiftr i 6) (N.ldiff word (outside_bit i)) Hok) as (o & Eo & Hok' & Hat); [by eexists|].
  exists word, o. split_and!; [done|done|done|]. intros j. unfold entry at 1. rewrite Hat. unfold outside_has.
  destruct (decide (N.shiftr j 6 = N.shiftr i 6)) as [Ej|Ej].
  - cbn [from_option id]. rewrite Ej, (at_entry _ _ _ E), N.ldiff_spec, outside_bit_eq, testbit_pow2. do 2 f_equal.
    apply bool_decide_ext. split; [intros E2; by apply bit_address|by intros ->].
  - rewrite bool_decide_eq_false_2 by (by intros ->). cbn [negb]. rewrite andb_true_r. done.
Qed.

(** The loop that frees the window's indices, [j] of them freed: [t] is the
    table before it, whose slots it leaves. *)
Definition freeing t (D : list N) W H k (n : nat) (j : nat) t' : Prop :=
  ∃ F a o, t' = with_free (with_outside t o) a ∧ array_repr a F ∧ pages_ok o ∧ length F ≤ n + j ∧
    ledger words first last (slot_at t) [] (order t F) (drop j D) W H k ∧
    ∀ i, (i < 2 ^ 32)%N → N.testbit (entry o (N.shiftr i 6)) (N.land i 63) = true ↔ i ∈ drop j D ∧ ¬ in_range first last i.

Lemma free_despawned_step t (D : list N) W H k n j t' :
  firstIndex t = first → lastIndex t = last → array_repr (despawnedIndices t) D →
  (∀ i, i ∈ D → (i < 2 ^ 32)%N ∧ is_Some (at_ (slots t) i)) →
  j < length D → freeing t D W H k n j t' →
  ∃ t'', free_despawned j t' = Some t'' ∧ freeing t D W H k n (S j) t''.
Proof using Type.
  intros E1 E2 HD Hst Hj (F & a & o & -> & Ha & Hok & Hlen & HL & Hbit). unfold free_despawned.
  destruct (lookup_lt_is_Some_2 D j Hj) as [i Hi]. cbn [despawnedIndices with_free with_outside].
  rewrite (array_read _ D j i HD Hi). cbn [mbind option_bind].
  destruct (Hst i) as [Hib Hat]; [by eapply list_elem_of_lookup_2|].
  rewrite (drop_S _ _ _ Hi) in HL, Hbit.
  assert (Hin : ∀ o a, inside (with_free (with_outside t o) a) i = bool_decide (in_range first last i)).
  { intros o' a'. unfold inside. cbn [firstIndex lastIndex with_free with_outside]. rewrite E1, E2. unfold in_range.
    destruct (N.leb_spec first i), (N.leb_spec i last); simpl; symmetry;
      (apply bool_decide_eq_true || apply bool_decide_eq_false); lia. }
  rewrite Hin. pose proof (lg_despawned _ _ _ _ _ _ _ _ _ _ HL) as [[HiD _]%NoDup_cons _].
  assert (Hbits : ∃ o', (if negb (bool_decide (in_range first last i))
    then word ← at_ (despawnedOutsideRange (with_free (with_outside t o) a)) (N.shiftr i 6);
         o' ← at_set (despawnedOutsideRange (with_free (with_outside t o) a)) (N.shiftr i 6) (N.ldiff word (outside_bit i));
         Some (with_outside (with_free (with_outside t o) a) o')
    else Some (with_free (with_outside t o) a)) = Some (with_free (with_outside t o') a) ∧ pages_ok o' ∧
    ∀ i', (i' < 2 ^ 32)%N → N.testbit (entry o' (N.shiftr i' 6)) (N.land i' 63) = true ↔ i' ∈ drop (S j) D ∧ ¬ in_range first last i').
  { case_bool_decide as Er; cbn [negb despawnedOutsideRange with_outside with_free].
    - exists o. split_and!; [done|done|]. intros i' Hi'. rewrite (Hbit i' Hi'), elem_of_cons. naive_solver.
    - destruct (outside_clear (with_outside t o) i Hok) as (word & o' & Ew & Eo & Hok' & Hbit'); [by apply Hbit; [|split; [left|]]|].
      cbn [despawnedOutsideRange with_outside with_free] in *. rewrite Ew. cbn [mbind option_bind]. rewrite Eo. cbn [mbind option_bind].
      exists o'. split_and!; [done|done|]. intros i' Hi'.
      rewrite Hbit'. unfold outside_has. cbn [despawnedOutsideRange with_outside].
      rewrite andb_true_iff, (Hbit i' Hi'), negb_true_iff, bool_decide_eq_false, elem_of_cons. naive_solver. }
  destruct Hbits as (o' & -> & Hok' & Hbit'). cbn [mbind option_bind].
  destruct (free_ledger (with_free (with_outside t o') a) F (drop (S j) D) i W H k HL Hib (Hin o' a) Ha Hat)
    as (a' & F' & -> & Ha' & Hlen' & HL').
  eexists. split; [done|]. exists F', a', o'. split_and!; [done|done|done|lia|done|done].
Qed.
End simulation.
