(* ===== verification/EntityRefines.v ===== *)
(** * The entity table implements its contract

    The end of a window, whole runs of operations, and what follows of the
    entities: what is alive, what [live] yields, and that an entity of the
    allocation range that died never comes alive again. *)

From stdpp Require Import sorting.
From S2P Require Import Prelude Words Array Entity IndexTable Mask EntityTable EntityLedger EntityTableSpec EntitySim.

Section window.
Context (words : nat) (first last : N).
Implicit Types (t : entityTable) (s : tableSpec) (F : list Entity) (D : list N) (c k : nat).

#[local] Hint Extern 0 (Zero entitySlot) => exact (zero_slot words) : typeclass_instances.
#[local] Abbreviation slot_at t := (entry (slots t)).
#[local] Abbreviation sim := (sim words first last).

Lemma free_despawned_loop t (D : list N) W H k n F1 :
  firstIndex t = first → lastIndex t = last → array_repr (despawnedIndices t) D →
  (∀ i, i ∈ D → (i < 2 ^ 32)%N ∧ is_Some (at_ (slots t) i)) →
  array_repr (freeEntities t) F1 → pages_ok (despawnedOutsideRange t) → length F1 ≤ n →
  ledger words first last (slot_at t) [] (order t F1) D W H k →
  (∀ i, (i < 2 ^ 32)%N → outside_has t i = true ↔ i ∈ D ∧ ¬ in_range first last i) →
  ∃ t', for_range (length D) free_despawned t = Some t' ∧ freeing words first last t D W H k n (length D) t'.
Proof using Type.
  intros E1 E2 HD Hst HF Ho Hn HL Hout. apply for_range_invariant.
  - exists F1, (freeEntities t), (despawnedOutsideRange t). rewrite drop_0.
    split_and!; [by destruct t|done|done|lia|done|done].
  - intros j t' Hj. by apply free_despawned_step.
Qed.

(** The first end of a window. *)
Lemma sim_start c k t s F D :
  sim c k t s F D → observing t = false →
  ∃ t', endWindow words t = Some (t', true) ∧ ∃ F', sim c k t' (sp_ended_window s) F' [].
Proof using Type.
  intros S Ho. unfold endWindow. rewrite Ho. cbn [negb].
  destruct (sm_quiet _ _ _ _ _ _ _ _ _ S Ho) as [-> Hw].
  destruct (sim_settle_keep _ _ _ _ _ _ _ _ _ S Ho) as (t1 & F1 & -> & S1 & Ho1 & Hrc). cbn [mbind option_bind].
  exists (with_observing t1 true). split; [done|]. exists F1.
  destruct S1 as [Hrange Hb Hcount Hfree Hgone Hpages HL Hlive Hdes Hobs _ _ Hout Hst].
  assert (Ew : sp_waiting (sp_ended_window s) = sp_waiting s) by (unfold sp_waiting; cbn; by rewrite Hw).
  split; try done.
  - by rewrite Ew.
  - intros i. cbn. set_solver.
  - intros _ e. split; [set_solver|]. cbn. unfold taken. cbn. rewrite Hrc. by intros ?%not_elem_of_nil.
Qed.

(** What settling does to a window's reservations. *)
Lemma reclaim_ledger c k t s F D l :
  sim c k t s F D → observing t = true → (N.of_nat (S k) < 2 ^ 32 - 1)%N → l ≡ₚ taken t F →
  ledger words first last (burn_all (slot_at t) l).1 [] (rest t F ++ (burn_all (slot_at t) l).2) D
    (sp_pending s) (sp_handed s) (S k).
Proof using Type.
  intros HS Ho Hk Hl. pose proof (sm_ledger _ _ _ _ _ _ _ _ _ HS) as L.
  destruct HS as [_ _ _ _ _ _ _ _ _ _ _ Hwin _ _].
  assert (Ew : sp_pending s = sp_waiting s ∖ list_to_set l).
  { unfold sp_waiting. apply set_eq. intros e. destruct (Hwin Ho e) as [H1 H2].
    rewrite elem_of_difference, elem_of_union, elem_of_list_to_set, Hl. naive_solver. }
  rewrite Ew. apply ledger_burn_all; [|done|].
  - eapply ledger_ext; [done|by symmetry|done|]. by eapply (ledger_weaken _ _ _ _ _ _ _ _ _ k); [lia|].
  - intros e He. rewrite Hl in He. apply L. apply (lg_valid _ _ _ _ _ _ _ _ _ _ L). set_solver.
Qed.

(** The end of a later window. *)
Lemma sim_end_window c k t s F D :
  sim c k t s F D → observing t = true → (N.of_nat (S k) < 2 ^ 32 - 1)%N →
  ∃ t', endWindow words t = Some (t', false) ∧ ∃ F', sim c (S k) t' (sp_ended_window s) F' [].
Proof using Type.
  intros HS Ho Hk. unfold endWindow. rewrite Ho. cbn [negb].
  pose proof HS as [[Hf1 Hf2] Hb Hcount Hfree Hgone [Hp1 Hp2] _ Hlive Hdes Hobs _ Hwin Hout Hst].
  destruct (settle_reclaim_spec words t F Hp1 Hfree Hb)
    as (t1 & F1 & l & -> & Hl & ((E1 & E2 & E3 & E4 & E5) & Hfree1 & Hrc & Hb1 & Hord & Hlen) & Hkept & Hent).
  cbn [mbind option_bind].
  pose proof (reclaim_ledger _ _ _ _ _ _ l HS Ho Hk Hl) as HL.
  assert (HL1 : ledger words first last (slot_at t1) [] (order t1 F1) D (sp_pending s) (sp_handed s) (S k)).
  { eapply ledger_ext; [intros i; symmetry; apply Hent|done|symmetry; exact Hord|exact HL]. }
  destruct (free_despawned_loop t1 D (sp_pending s) (sp_handed s) (S k) (length F1) F1)
    as (t2 & Eloop & F2 & a2 & o2 & -> & Ha2 & Hok2 & Hlen2 & HL2 & Hbit2).
  { congruence. } { congruence. } { by rewrite E4. } { by eapply stored_kept. }
  { done. } { by rewrite E5. } { done. } { done. } { intros i. unfold outside_has. rewrite E5. apply Hout. }
  unfold ALen. rewrite E4, (array_length _ _ Hgone), Eloop. cbn [mbind option_bind despawnedIndices with_free with_outside].
  rewrite E4. destruct (array_resize_repr _ _ 0 Hgone) as (d & -> & Hd). cbn [mbind option_bind].
  eexists. split; [done|]. exists F2. rewrite drop_all in HL2, Hbit2.
  assert (Hll : length l = length (taken t F)) by (by rewrite Hl).
  assert (Hlt : length (taken t F) ≤ Z.to_nat (reservationCount t)) by (unfold taken; rewrite length_take; lia).
  pose proof (length_burn_all (slot_at t) l) as Hburn.
  split; cbn [slots firstIndex lastIndex observing despawnedIndices despawnedOutsideRange reservationCount freeEntities
    with_free with_outside with_despawned]; rewrite ?E1, ?E2, ?E3, ?Hrc; try done.
  - cbn [length]. destruct Hb as (_ & _ & ?). lia.
  - split; [apply Hkept|done].
  - unfold taken, rest. cbn [reservationCount with_free with_outside with_despawned]. rewrite Hrc.
    replace (sp_waiting (sp_ended_window s)) with (sp_pending s) by (unfold sp_waiting; cbn; set_solver). exact HL2.
  - intros e m. rewrite Hent. destruct (burn_all_live (slot_at t) l (index e)) as [-> ->]. apply Hlive.
  - intros i. cbn. set_solver.
  - intros _ e. split; [set_solver|]. unfold taken. cbn [reservationCount with_free with_outside with_despawned]. rewrite Hrc.
    by intros ?%not_elem_of_nil.
  - by intros i ?%not_elem_of_nil.
Qed.

(** ** Giving memory back *)

Lemma shrink_sim c k t s F D :
  sim c k t s F D → ∃ t', shrink_table t = Some t' ∧ sim c k t' s F D.
Proof using Type.
  intros [Hrange Hb Hcount Hfree Hgone [Hp1 Hp2] HL Hlive Hdes Hobs Hquiet Hwin Hout Hst]. unfold shrink_table.
  destruct (array_shrink_repr _ _ Hfree) as (a & -> & Ha & _). cbn [mbind option_bind].
  destruct (array_shrink_repr _ _ Hgone) as (d & -> & Hd & _). cbn [mbind option_bind].
  destruct (shrink_spec (λ word, word =? 0)%N (despawnedOutsideRange t)) as (Hok & He & _); [by intros x ?%N.eqb_eq|done|].
  eexists. split; [done|]. split; try done.
  intros i. unfold outside_has. cbn [despawnedOutsideRange with_outside]. rewrite He. apply Hout.
Qed.

(** ** One operation *)

Lemma sim_step n t s F D op :
  sim n n t s F D → (N.of_nat (S n) < 2 ^ 32 - 1)%N → op_ok words s op →
  ∃ t' answer s' F' D', run_op words t op = Some (t', answer) ∧
    spec_step words first last s op answer s' ∧ sim (S n) (S n) t' s' F' D'.
Proof using Type.
  intros HS Hn Hop.
  destruct op as [| |e|e|e|e id|e id| |]; cbn [run_op].
  - destruct (reserve_sim _ _ _ _ _ _ _ _ _ HS) as (t' & _ & [(e & -> & He & S')|(-> & Hx & S')]); [lia|lia| |];
      cbn [mbind option_bind]; eexists t', _, _, F, D; (split; [done|]; split; [by constructor|]);
      (eapply sim_mono; [| |exact S']; lia).
  - destruct (spawn_spec _ _ _ _ _ _ _ _ _ HS) as (t' & e & s' & F' & -> & Hs & S'); [lia|lia|].
    cbn [mbind option_bind]. by eexists t', _, s', F', D.
  - destruct (spawnReserved_spec _ _ _ _ _ _ _ _ _ e HS) as (t' & b & s' & -> & Hs & S'); [lia|done|].
    cbn [mbind option_bind]. eexists t', _, s', F, D. split; [done|]. split; [done|]. eapply sim_mono; [| |exact S']; lia.
  - destruct (table_place_spec _ _ _ _ _ _ _ _ _ e HS Hop) as (t' & err & s' & -> & Hs & S').
    cbn [mbind option_bind]. eexists t', _, s', F, D. split; [done|]. split; [done|]. eapply sim_mono; [| |exact S']; lia.
  - destruct (despawn_spec _ _ _ _ _ _ _ _ _ e HS Hop) as (t' & m & b & s' & F' & D' & -> & Hs & S').
    cbn [mbind option_bind]. eexists t', _, s', F', D'. split; [done|]. split; [done|]. eapply sim_mono; [| |exact S']; lia.
  - destruct Hop as [Hl Hid].
    destruct (change_mask_spec words first last n n t s F D e id maskSet) as (t' & m & m' & E & Hm & Hf & S'); [|done|done|done|].
    { intros m Hi Hb. destruct (maskSet_spec m id Hi Hb) as (m' & ? & ? & ? & _). by exists m'. }
    unfold setComponent. rewrite E. cbn [mbind option_bind]. eexists t', _, _, F, D.
    split; [done|]. split; [by econstructor|]. eapply sim_mono; [| |exact S']; lia.
  - destruct Hop as [Hl Hid].
    destruct (change_mask_spec words first last n n t s F D e id maskUnset) as (t' & m & m' & E & Hm & Hf & S'); [|done|done|done|].
    { intros m Hi Hb. destruct (maskUnset_spec m id Hi Hb) as (m' & ? & ? & ? & _). by exists m'. }
    unfold unsetComponent. rewrite E. cbn [mbind option_bind]. eexists t', _, _, F, D.
    split; [done|]. split; [by econstructor|]. eapply sim_mono; [| |exact S']; lia.
  - destruct (observing t) eqn:Ho.
    + destruct (sim_end_window _ _ _ _ _ _ HS Ho Hn) as (t' & -> & F' & S'). cbn [mbind option_bind].
      eexists t', _, _, F', []. split; [done|].
      split; [|eapply sim_mono; [| |exact S']; lia].
      rewrite <- (sm_observing _ _ _ _ _ _ _ _ _ HS) in Ho. pose proof (spec_endWindow words first last s) as Hx. by rewrite Ho in Hx.
    + destruct (sim_start _ _ _ _ _ _ HS Ho) as (t' & -> & F' & S'). cbn [mbind option_bind].
      eexists t', _, _, F', []. split; [done|].
      split; [|eapply sim_mono; [| |exact S']; lia].
      rewrite <- (sm_observing _ _ _ _ _ _ _ _ _ HS) in Ho. pose proof (spec_endWindow words first last s) as Hx. by rewrite Ho in Hx.
  - destruct (shrink_sim _ _ _ _ _ _ HS) as (t' & -> & S'). cbn [mbind option_bind]. eexists t', _, s, F, D.
    split; [done|]. split; [constructor|]. eapply sim_mono; [| |exact S']; lia.
Qed.
End window.

(** ** Walking the live entities *)

Section walk.
Context (words : nat).
Implicit Types t : entityTable.

#[local] Hint Extern 0 (Zero entitySlot) => exact (zero_slot words) : typeclass_instances.
#[local] Abbreviation slot_at t := (entry (slots t)).

Lemma page_slot t p page i slot :
  pages_ok (slots t) → pages (slots t) !! p = Some (Some page) → page !! i = Some slot →
  i < indexPageSize ∧ at_ (slots t) (slot_address p i) = Some slot.
Proof using Type.
  intros Hok Hp Hi. unfold pages_ok in Hok. rewrite Forall_forall in Hok.
  pose proof (Hok _ (list_elem_of_lookup_2 _ _ _ Hp)) as Hl. simpl in Hl.
  assert (Hlt : i < indexPageSize) by (rewrite <- Hl; by eapply lookup_lt_Some). split; [done|].
  destruct (address_page p i Hlt) as [E1 E2]. unfold at_. by rewrite E1, E2, Hp.
Qed.

(** The entity [live] yields for a slot. *)
Definition yielded (p i : nat) (slot : entitySlot) : Entity * entitySlot :=
  (makeEntity (u32 (slot_address p i)) (liveGeneration slot), slot).

Lemma elem_of_live_page p page x :
  x ∈ live_page p page ↔ ∃ i slot, page !! i = Some slot ∧ liveGeneration slot ≠ 0%N ∧ x = yielded p i slot.
Proof using Type.
  unfold live_page. rewrite list_elem_of_omap. split.
  - intros ([i slot] & Hin & Hx). apply elem_of_lookup_imap in Hin as (i' & slot' & [= -> ->] & Hl).
    destruct (N.eqb_spec (liveGeneration slot') 0); [done|]. simplify_eq. by exists i', slot'.
  - intros (i & slot & Hl & Hnz & ->). exists (i, slot). split.
    + apply elem_of_lookup_imap. by exists i, slot.
    + by destruct (N.eqb_spec (liveGeneration slot) 0).
Qed.

Lemma elem_of_live t x :
  x ∈ live t ↔ ∃ p page i slot, pages (slots t) !! p = Some (Some page) ∧ page !! i = Some slot ∧
    liveGeneration slot ≠ 0%N ∧ x = yielded p i slot.
Proof using Type.
  unfold live. rewrite elem_of_concat. split.
  - intros (l & Hl & Hx). apply elem_of_lookup_imap in Hl as (p & [page|] & -> & Hp); [|by apply not_elem_of_nil in Hx].
    apply elem_of_live_page in Hx as (i & slot & ?). by exists p, page, i, slot.
  - intros (p & page & i & slot & Hp & Hx). exists (live_page p page). split.
    + apply elem_of_lookup_imap. exists p, (Some page). done.
    + apply elem_of_live_page. by exists i, slot.
Qed.

Lemma omap_imap_pair {A B} (g : nat * A → option B) l :
  omap g (imap pair l) = concat (imap (λ i x, option_list (g (i, x))) l).
Proof using Type.
  induction l as [|x l IH] using rev_ind; [done|].
  rewrite !imap_app, omap_app, concat_app, IH. f_equal. simpl. rewrite Nat.add_0_r, app_nil_r. by destruct (g _).
Qed.

Lemma yielded_index t p page i slot :
  pages_ok (slots t) → (∀ i, slot_ok words (slot_at t i)) → (∀ i, liveGeneration (slot_at t i) ≠ 0%N → (i < 2 ^ 32)%N) →
  pages (slots t) !! p = Some (Some page) → page !! i = Some slot → liveGeneration slot ≠ 0%N →
  index (yielded p i slot).1 = slot_address p i ∧ generation (yielded p i slot).1 = liveGeneration slot ∧
  slot = slot_at t (slot_address p i) ∧ i < indexPageSize.
Proof using Type.
  intros Hok Hs Hby Hp Hi Hnz. destruct (page_slot t p page i slot Hok Hp Hi) as [Hlt Hat].
  assert (E : slot = slot_at t (slot_address p i)) by (symmetry; by apply at_entry).
  assert (Hb : (slot_address p i < 2 ^ 32)%N) by (apply Hby; by rewrite <- E).
  assert (Hg : (liveGeneration slot < 2 ^ 32)%N).
  { rewrite E. destruct (Hs (slot_address p i)) as (_ & _ & _ & Hll & Hlast). rewrite Hll by (by rewrite <- E). done. }
  unfold yielded. cbn [fst]. rewrite (u32_small (slot_address p i)) by exact Hb. rewrite index_make, generation_make by done. done.
Qed.

(** [live] yields the live entities in index order. *)
Lemma live_sorted t :
  pages_ok (slots t) → (∀ i, slot_ok words (slot_at t i)) → (∀ i, liveGeneration (slot_at t i) ≠ 0%N → (i < 2 ^ 32)%N) →
  StronglySorted (λ a b, (index a.1 < index b.1)%N) (live t).
Proof using Type.
  intros Hok Hs Hby. apply StronglySorted_concat_imap.
  - intros p [page|] Hp; [|constructor]. unfold live_page. rewrite omap_imap_pair. apply StronglySorted_concat_imap.
    + intros i slot Hi. cbn. destruct (_ =? _)%N; repeat constructor.
    + intros i j x y b c Hij Hi Hj Hb Hc. cbn in Hb, Hc.
      destruct (N.eqb_spec (liveGeneration x) 0) as [|Hx]; [by apply not_elem_of_nil in Hb|].
      destruct (N.eqb_spec (liveGeneration y) 0) as [|Hy]; [by apply not_elem_of_nil in Hc|].
      apply list_elem_of_singleton in Hb as ->. apply list_elem_of_singleton in Hc as ->.
      destruct (yielded_index t p page i x Hok Hs Hby Hp Hi Hx) as (E1 & _ & _ & Hl1).
      destruct (yielded_index t p page j y Hok Hs Hby Hp Hj Hy) as (E2 & _ & _ & Hl2).
      unfold yielded, slot_address in E1, E2. rewrite E1, E2. fold (slot_address p i) (slot_address p j).
      rewrite !slot_address_value by done. lia.
  - intros p q [x|] [y|] b c Hpq Hp Hq Hb Hc; try (by apply not_elem_of_nil in Hb); try (by apply not_elem_of_nil in Hc).
    apply elem_of_live_page in Hb as (i & slot & Hi & Hnz & ->). apply elem_of_live_page in Hc as (j & slot' & Hj & Hnz' & ->).
    destruct (yielded_index t p x i slot Hok Hs Hby Hp Hi Hnz) as (-> & _ & _ & Hl1).
    destruct (yielded_index t q y j slot' Hok Hs Hby Hq Hj Hnz') as (-> & _ & _ & Hl2).
    rewrite !slot_address_value by done. unfold indexPageSize in *. nia.
Qed.

(** It yields exactly them, each with its components. *)
Lemma live_elements t :
  pages_ok (slots t) → (∀ i, slot_ok words (slot_at t i)) → (∀ i, liveGeneration (slot_at t i) ≠ 0%N → (i < 2 ^ 32)%N) →
  ∀ e m, (∃ slot, (e, slot) ∈ live t ∧ componentMask slot = m) ↔
    (e < 2 ^ 64)%N ∧ generation e ≠ 0%N ∧ liveGeneration (slot_at t (index e)) = generation e ∧
    componentMask (slot_at t (index e)) = m.
Proof using Type.
  intros Hok Hs Hby e m. setoid_rewrite elem_of_live. split.
  - intros (slot & (p & page & i & slot' & Hp & Hi & Hnz & Hx) & Hm).
    destruct (yielded_index t p page i slot' Hok Hs Hby Hp Hi Hnz) as (E1 & E2 & E3 & Hlt).
    rewrite <- Hx in E1, E2. cbn [fst] in E1, E2. injection Hx as Ee ->.
    rewrite E1, E2, <- E3. split_and!; [|done|done|done]. rewrite Ee. apply makeEntity_bound; [apply u32_bound|].
    rewrite <- E2. apply generation_bound.
  - intros (He & Hg & Hl & Hm). set (slot := slot_at t (index e)) in *.
    assert (Hat : at_ (slots t) (index e) = Some slot).
    { apply entry_nonzero. intros Ez. subst slot. rewrite Ez in Hl. by rewrite <- Hl in Hg. }
    pose proof Hat as Hat'. unfold at_ in Hat'.
    destruct (pages (slots t) !! page_of (index e)) as [[page|]|] eqn:Hp; [|done|done].
    cbn [mjoin option_join mbind option_bind] in Hat'.
    exists slot. split; [|done]. exists (page_of (index e)), page, (offset_of (index e)), slot.
    split_and!; [done|done|by rewrite Hl|]. unfold yielded. f_equal.
    assert (Ea : slot_address (page_of (index e)) (offset_of (index e)) = index e).
    { apply table_position_inj; apply address_page, offset_lt. }
    rewrite Ea, u32_small, Hl by apply index_bound. symmetry. by apply make_entity_parts.
Qed.
End walk.
