(* ===== verification/EntityHistory.v ===== *)
(** * Histories of an entity table

    Runs of a table from [init], its contract alongside, and what they show
    of the table as the world uses it. *)

From stdpp Require Import sorting relations.
From S2P Require Import Prelude Words Array Entity IndexTable Mask EntityTable EntityLedger EntityTableSpec EntitySim EntityRefines.

Section history.
Context (words : nat) (first last : N).
Implicit Types (t : entityTable) (s : tableSpec).

#[local] Hint Extern 0 (Zero entitySlot) => exact (zero_slot words) : typeclass_instances.
#[local] Abbreviation slot_at t := (entry (slots t)).
#[local] Abbreviation sim := (sim words first last).

Definition initial_spec : tableSpec := mkSpec ∅ ∅ ∅ ∅ ∅ false.

(** One operation that its caller may do, on the table and its contract. *)
Definition step (x y : entityTable * tableSpec) : Prop :=
  ∃ op answer, op_ok words x.2 op ∧ run_op words x.1 op = Some (y.1, answer) ∧
    spec_step words first last x.2 op answer y.2.

(** A table after [n] operations. *)
Definition run (n : nat) (x : entityTable * tableSpec) : Prop :=
  ∃ prepared t, init words first last prepared = Some t ∧ nsteps step n (t, initial_spec) x.

(** ** The start *)

Lemma init_spec prepared :
  ∃ sl, init words first last prepared =
      Some (mkEntityTable first last sl emptyArray 0 (Z.of_N first) false emptyArray emptyTable) ∧
    pages_ok sl ∧ ∀ i, entry sl i = zero_value.
Proof using Type.
  unfold init. pose (Inv := λ (_ : nat) sl, pages_ok sl ∧ ∀ i, entry sl i = (zero_value : entitySlot)).
  destruct (for_range_invariant Inv (λ i sl, create sl (u32 (first + N.of_nat i))) prepared emptyTable) as (sl & -> & Hok & He).
  - split; [apply empty_ok|done].
  - intros i sl _ [Hok He]. destruct (create_spec sl (u32 (first + N.of_nat i)) Hok) as (sl' & -> & Hok' & _ & He' & _).
    exists sl'. split; [done|]. split; [done|]. intros j. by rewrite He'.
  - by exists sl.
Qed.

Lemma fresh_elem next e :
  (0 <= next)%Z → (last < 2 ^ 32)%N → e ∈ fresh_list next last ↔ (next <= Z.of_N (index e) <= Z.of_N last)%Z ∧ e = makeEntity (index e) 1.
Proof using Type.
  intros Hn Hl. unfold fresh_list. rewrite list_elem_of_fmap. setoid_rewrite elem_of_seq. split.
  - intros (j & -> & Hj). rewrite index_make by lia. split; [lia|done].
  - intros [Hi He]. exists (Z.to_nat (Z.of_N (index e) - next)). rewrite He at 1. split; [f_equal; lia|lia].
Qed.

Lemma fresh_NoDup next : (0 <= next)%Z → (last < 2 ^ 32)%N → NoDup (index <$> fresh_list next last).
Proof using Type.
  intros Hn Hl. unfold fresh_list. rewrite <- list_fmap_compose. apply NoDup_fmap_2_strong; [|apply NoDup_seq].
  intros i j Hi%elem_of_seq Hj%elem_of_seq E. unfold compose in E. rewrite !index_make in E by lia. lia.
Qed.

Lemma sim_init prepared t :
  (first <= last)%N → (last < 2 ^ 32)%N → init words first last prepared = Some t → sim 0 0 t initial_spec [] [].
Proof using Type.
  intros Hfl Hl Ht. destruct (init_spec prepared) as (sl & E & Hok & Hz). rewrite Ht in E. injection E as ->.
  split; cbn; try done; try apply array_empty_repr.
  - unfold bounds_ok. cbn. lia.
  - split; [done|apply empty_ok].
  - assert (Et : taken (mkEntityTable first last sl emptyArray 0 (Z.of_N first) false emptyArray emptyTable) [] = []) by done.
    assert (Er : rest (mkEntityTable first last sl emptyArray 0 (Z.of_N first) false emptyArray emptyTable) [] = fresh_list (Z.of_N first) last) by done.
    rewrite Et, Er. split; try setoid_rewrite Hz; try done.
    + intros i. split_and!; cbn; [apply length_noMask|apply noMask_bound|done|done|lia].
    + apply fresh_NoDup; [lia|done].
    + intros e [He|[He|He]]; [|set_solver|set_solver]. simpl in He. apply fresh_elem in He as [Hi He]; [|lia|done].
      split_and!; [|unfold in_range; lia|].
      * rewrite He. apply makeEntity_bound; [apply index_bound|lia].
      * rewrite He, generation_make; [lia|apply index_bound|lia].
    + intros e He. apply fresh_elem in He as [Hi He]; [|lia|done]. split_and!; [|set_solver|by intros ? ?%elem_of_empty].
      unfold unborn. rewrite Hz. split; [done|]. rewrite He, generation_make by (apply index_bound || lia). done.
    + by intros e ?%not_elem_of_nil.
    + split; [constructor|]. by intros i ?%not_elem_of_nil.
    + intros i [Hi1 Hi2]. left. apply list_elem_of_fmap. exists (makeEntity i 1).
      rewrite index_make by lia. split; [done|]. apply fresh_elem; [lia|done|]. rewrite index_make by lia. split; [lia|done].
  - intros e m. rewrite lookup_empty, Hz. cbn. split; [done|]. intros (_ & Hg & E & _). by rewrite <- E in Hg.
  - intros i. set_solver.
  - intros i Hi. unfold outside_has. cbn. rewrite N.bits_0. split; [done|]. by intros [?%not_elem_of_nil _].
  - by intros i ?%not_elem_of_nil.
Qed.

(** ** The contract determines its state from the answers *)

Lemma NoEntity_never_handed s : ¬ may_hand first last s NoEntity.
Proof using Type. intros ((_ & _ & Hg) & _). by apply Hg. Qed.

Lemma spec_step_det s op answer s1 s2 :
  spec_step words first last s op answer s1 → spec_step words first last s op answer s2 → s1 = s2.
Proof using Type.
  intros H1 H2. destruct H1; inversion H2; simplify_eq; try done; by exfalso; eapply NoEntity_never_handed.
Qed.

Lemma run_sim n x :
  (first <= last)%N → (last < 2 ^ 32)%N → run n x → (N.of_nat n < 2 ^ 32 - 1)%N →
  ∃ F D, sim n n x.1 x.2 F D.
Proof using Type.
  intros Hfl Hl (prepared & t & Ht & Hs). revert x Hs. induction n as [|n IH]; intros x Hs Hn.
  - inversion Hs; subst. exists [], []. by eapply sim_init.
  - apply nsteps_inv_r in Hs as (y & Hy & op & answer & Hok & Hrun & Hspec).
    destruct (IH y Hy) as (F & D & HS); [lia|].
    destruct (sim_step words first last n y.1 y.2 F D op HS Hn Hok) as (t' & a' & s' & F' & D' & Hrun' & Hspec' & HS').
    rewrite Hrun in Hrun'. injection Hrun' as -> ->. rewrite (spec_step_det _ _ _ _ _ Hspec Hspec'). by exists F', D'.
Qed.

(** ** What the table answers, read off the contract *)

Lemma alive_spec c k t s F D e :
  EntitySim.sim words first last c k t s F D → (e < 2 ^ 64)%N → alive t e = bool_decide (is_Some (sp_live s !! e)).
Proof using Type.
  intros HS He. unfold alive.
  destruct (sp_live s !! e) as [m|] eqn:Em.
  - destruct (clear_spec _ _ _ _ _ _ _ _ _ _ _ HS Em) as (slot & _ & -> & Hg & _).
    rewrite bool_decide_eq_true_2 by done. apply orb_false_iff in Hg as [H1 H2].
    apply negb_false_iff in H1. by rewrite H1, H2.
  - pose proof (not_live_read _ _ _ _ _ _ _ _ _ _ HS He Em) as Hn. rewrite bool_decide_eq_false_2 by (by intros [? ?]).
    destruct (at_ (slots t) (index e)) as [slot|]; [|done]. apply orb_true_iff in Hn as [H1|H1].
    + apply negb_true_iff in H1. by rewrite H1.
    + rewrite H1. apply andb_false_r.
Qed.

Lemma mask_of_spec c k t s F D e :
  EntitySim.sim words first last c k t s F D → (e < 2 ^ 64)%N →
  mask_of words t e = Some (match sp_live s !! e with Some m => (m, true) | None => (noMask words, false) end).
Proof using Type.
  intros HS He. unfold mask_of. rewrite (alive_spec _ _ _ _ _ _ _ HS He).
  destruct (sp_live s !! e) as [m|] eqn:Em; [|done].
  destruct (clear_spec _ _ _ _ _ _ _ _ _ _ _ HS Em) as (slot & _ & -> & _ & <- & _). done.
Qed.

(** [e] was handed out and its reservation, if any, is used up. *)
Definition spent s (e : Entity) : Prop := e ∈ sp_handed s ∧ (e ∉ sp_waiting s).

Lemma spent_step s op answer s' e : spec_step words first last s op answer s' → spent s e → spent s' e.
Proof using Type.
  unfold spent, sp_waiting. intros H [H1 H2]. destruct H as [e' He| |e' He| | | | | | | | | | |];
    unfold sp_reserved in *; try (destruct (sp_observing s)); cbn; try set_solver;
    destruct He as (_ & Hnew & _); assert (e ≠ e') by (by intros ->); set_solver.
Qed.

Lemma dead_step s op answer s' e :
  spec_step words first last s op answer s' → in_range first last (index e) → spent s e →
  sp_live s !! e = None → sp_live s' !! e = None.
Proof using Type.
  intros H Hi [Hh Hw] Hd. destruct H as [e' He|Hx|e' He|Hx|e' He|e' He|e' He|e' er He|e' m He|e' He|e' id m m' He Hm|e' id m m' He Hm| |]; try done.
  - unfold sp_reserved. by destruct (sp_observing s).
  - assert (e ≠ e') by (intros ->; by destruct He as (_ & ? & _)).
    unfold sp_reserved. destruct (sp_observing s); cbn; by rewrite lookup_insert_ne.
  - cbn. rewrite lookup_insert_ne; [done|]. by intros ->.
  - cbn. rewrite lookup_insert_ne; [done|]. intros ->. unfold place_answer in He.
    destruct (decide (generation e = 0%N)); [done|]. by rewrite decide_True in He.
  - cbn. destruct (decide (e = e')) as [->|]; [apply lookup_delete_eq|by rewrite lookup_delete_ne].
  - cbn. rewrite lookup_insert_ne; [done|]. intros ->. congruence.
  - cbn. rewrite lookup_insert_ne; [done|]. intros ->. congruence.
Qed.

(** A live entity of the range was handed out, and is no reservation. *)
Definition known s : Prop :=
  (∀ e, e ∈ sp_waiting s → e ∈ sp_handed s) ∧
  ∀ e, is_Some (sp_live s !! e) → in_range first last (index e) → spent s e.

Lemma waiting_handed_step s op answer s' :
  spec_step words first last s op answer s' → (∀ e, e ∈ sp_waiting s → e ∈ sp_handed s) →
  ∀ e, e ∈ sp_waiting s' → e ∈ sp_handed s'.
Proof using Type.
  unfold sp_waiting. intros H HK e. specialize (HK e). destruct H; unfold sp_reserved; try (destruct (sp_observing s)); cbn; set_solver.
Qed.

(** What comes alive in the range in a step is spent after it. *)
Lemma newly_live_step s op answer s' e :
  spec_step words first last s op answer s' → (∀ e, e ∈ sp_waiting s → e ∈ sp_handed s) →
  sp_live s !! e = None → is_Some (sp_live s' !! e) → in_range first last (index e) → spent s' e.
Proof using Type.
  intros H HK Hn Hl Hi. unfold spent, sp_waiting.
  destruct H as [e' He|Hx|e' He|Hx|e' He|e' He|e' He|e' er He|e' m He|e' He|e' id m m' He Hm|e' id m m' He Hm| |];
    try (by rewrite Hn in Hl; destruct Hl).
  - revert Hl. unfold sp_reserved. destruct (sp_observing s); cbn; rewrite Hn; by intros [? ?].
  - revert Hl. unfold sp_reserved. destruct (sp_observing s); cbn;
      (destruct (decide (e' = e)) as [->|]; [intros _; set_solver|rewrite lookup_insert_ne, Hn by done; by intros [? ?]]).
  - cbn in *. destruct (decide (e' = e)) as [->|Hne]; [|rewrite lookup_insert_ne, Hn in Hl by done; by destruct Hl].
    specialize (HK e He). set_solver.
  - cbn in *. destruct (decide (e' = e)) as [->|Hne]; [|rewrite lookup_insert_ne, Hn in Hl by done; by destruct Hl].
    exfalso. unfold place_answer in He. destruct (decide (generation e = 0%N)); [done|]. by rewrite decide_True in He.
  - cbn in Hl. destruct (decide (e' = e)) as [->|Hne]; [rewrite lookup_delete_eq in Hl|rewrite lookup_delete_ne, Hn in Hl by done]; by destruct Hl.
  - cbn in Hl. destruct (decide (e' = e)) as [->|Hne]; [congruence|]. rewrite lookup_insert_ne, Hn in Hl by done. by destruct Hl.
  - cbn in Hl. destruct (decide (e' = e)) as [->|Hne]; [congruence|]. rewrite lookup_insert_ne, Hn in Hl by done. by destruct Hl.
  - cbn in Hl. rewrite Hn in Hl. by destruct Hl.
Qed.

Lemma known_step s op answer s' : spec_step words first last s op answer s' → known s → known s'.
Proof using Type.
  intros H [HK1 HK2]. split; [by eapply waiting_handed_step|].
  intros e Hl Hi. destruct (decide (is_Some (sp_live s !! e))) as [Ho|Hn%eq_None_not_Some].
  - eapply spent_step; [done|by apply HK2].
  - by eapply newly_live_step.
Qed.

Lemma steps_keep (P : tableSpec → Prop) n x y :
  (∀ s op answer s', spec_step words first last s op answer s' → P s → P s') → nsteps step n x y → P x.2 → P y.2.
Proof using Type. intros HP. induction 1 as [|n x y z (op & a & _ & _ & H) _ IH]; [done|]. intros ?. eapply IH, HP; done. Qed.

Lemma run_extend n m x y : run n x → nsteps step m x y → run (n + m) y.
Proof using Type. intros (prepared & t & Ht & Hs) Hm. exists prepared, t. split; [done|]. by eapply nsteps_trans. Qed.

Lemma run_known n x : run n x → known x.2.
Proof using Type.
  intros (prepared & t & _ & Hs). eapply (steps_keep known); [apply known_step|done|].
  split; cbn; [intros e; unfold sp_waiting; cbn; set_solver|]. intros e [m Hm]. by rewrite lookup_empty in Hm.
Qed.

(** ** The claims *)

(** C7: from a fresh table, after any operations a caller may do, the next one
    does not panic, answers what the contract allows and leaves the table
    implementing the contract's next state; and [alive] and [mask] tell
    exactly the contract's live entities and their components.  The bound on
    operations is the number of generations an index has. *)
Theorem entityTable_refines n x op :
  (first <= last)%N → (last < 2 ^ 32)%N → run n x → (N.of_nat (S n) < 2 ^ 32 - 1)%N → op_ok words x.2 op →
  (∃ y answer, run_op words x.1 op = Some (y.1, answer) ∧ spec_step words first last x.2 op answer y.2 ∧ run (S n) y) ∧
  ∀ e, (e < 2 ^ 64)%N → alive x.1 e = bool_decide (is_Some (sp_live x.2 !! e)) ∧
    mask_of words x.1 e = Some (match sp_live x.2 !! e with Some m => (m, true) | None => (noMask words, false) end).
Proof using Type.
  intros Hfl Hl Hr Hn Hop. destruct (run_sim n x Hfl Hl Hr) as (F & D & HS); [lia|]. split.
  - destruct (sim_step words first last n x.1 x.2 F D op HS Hn Hop) as (t' & a & s' & _ & _ & Hrun & Hspec & _).
    exists (t', s'), a. split; [done|]. split; [done|]. destruct Hr as (prepared & t & Ht & Hs).
    exists prepared, t. split; [done|]. eapply nsteps_r; [done|]. by exists op, a.
  - intros e He. split; [by eapply alive_spec|by eapply mask_of_spec].
Qed.

(** C11: an entity of the allocation range that was alive and is not any more
    never comes alive again, whatever is spawned, reserved, placed or
    despawned since, and a commit of it is refused. *)
Theorem entity_never_returns n1 n2 n3 x y z e :
  (first <= last)%N → (last < 2 ^ 32)%N → run n1 x → nsteps step n2 x y → nsteps step n3 y z →
  (N.of_nat (n1 + n2 + n3) < 2 ^ 32 - 1)%N → (e < 2 ^ 64)%N → in_range first last (index e) →
  alive x.1 e = true → alive y.1 e = false →
  alive z.1 e = false ∧ spawnReserved words z.1 e = Some (z.1, false).
Proof using Type.
  intros Hfl Hl Hx Hxy Hyz Hn He Hi Ha Hd.
  pose proof (run_extend _ _ _ _ Hx Hxy) as Hy. pose proof (run_extend _ _ _ _ Hy Hyz) as Hz.
  destruct (run_sim _ x Hfl Hl Hx) as (F1 & D1 & S1); [lia|].
  destruct (run_sim _ y Hfl Hl Hy) as (F2 & D2 & S2); [lia|].
  destruct (run_sim _ z Hfl Hl Hz) as (F3 & D3 & S3); [lia|].
  rewrite (alive_spec _ _ _ _ _ _ _ S1 He), bool_decide_eq_true in Ha.
  rewrite (alive_spec _ _ _ _ _ _ _ S2 He), bool_decide_eq_false, <- eq_None_not_Some in Hd.
  assert (Hy' : spent y.2 e ∧ sp_live y.2 !! e = None).
  { split; [|done]. eapply (steps_keep (λ s, spent s e)); [intros *; apply spent_step|exact Hxy|]. by apply (run_known _ _ Hx). }
  assert (Hz' : spent z.2 e ∧ sp_live z.2 !! e = None).
  { eapply (steps_keep (λ s, spent s e ∧ sp_live s !! e = None)); [|exact Hyz|exact Hy'].
    intros s op a s' H [H1 H2]. split; [by eapply spent_step|by eapply dead_step]. }
  destruct Hz' as [[Hh Hw] Hz']. split.
  - rewrite (alive_spec _ _ _ _ _ _ _ S3 He), Hz'. done.
  - destruct (spawnReserved_spec _ _ _ _ _ _ _ _ _ e S3) as (t' & b & s' & E & Hs & _); [lia|done|].
    inversion Hs; subst; [done|]. revert E. unfold spawnReserved.
    destruct (match at_ (slots z.1) (index e) with Some slot => negb (liveGeneration slot =? 0)%N | None => false end); [done|].
    destruct (negb _); [done|]. destruct (setAlive _ _ _); by intros [=].
Qed.

(** [live] walks the live entities in index order, each once, with its
    components. *)
Theorem live_walks n x :
  (first <= last)%N → (last < 2 ^ 32)%N → run n x → (N.of_nat n < 2 ^ 32 - 1)%N →
  StronglySorted (λ a b, (index a.1 < index b.1)%N) (live x.1) ∧
  ∀ e m, (∃ slot, (e, slot) ∈ live x.1 ∧ componentMask slot = m) ↔ sp_live x.2 !! e = Some m.
Proof using Type.
  intros Hfl Hl Hr Hn. destruct (run_sim n x Hfl Hl Hr) as (F & D & HS); [lia|].
  destruct (sm_pages _ _ _ _ _ _ _ _ _ HS) as [Hp _]. pose proof (sm_ledger _ _ _ _ _ _ _ _ _ HS) as L. split.
  - apply (live_sorted words); [done|apply L|apply L].
  - intros e m. rewrite (live_elements words) by (done || apply L). symmetry. apply HS.
Qed.
End history.

(** ** Concrete histories *)

Module Example.
(** The table an operation leaves, where it does not panic. *)
Definition after (t : entityTable) (op : table_op) : entityTable :=
  match run_op 1 t op with Some (t', _) => t' | None => t end.

Lemma after_run t op answer : snd <$> run_op 1 t op = Some answer → run_op 1 t op = Some (after t op, answer).
Proof. unfold after. destruct (run_op 1 t op) as [[t' a]|]; [by intros [= ->]|done]. Qed.

Definition table0 : entityTable := default zeroTable (init 1 1 3 0).
Definition e1 : Entity := makeEntity 1 1.
Definition e2 : Entity := makeEntity 1 2.
Definition state0 := (table0, initial_spec).
Definition state1 := (after table0 OSpawn, sp_spawned 1 (sp_reserved initial_spec e1) e1).
Definition state2 := (after state1.1 (ODespawn e1), sp_ended state1.2 e1).
Definition state3 := (after state2.1 OSpawn, sp_spawned 1 (sp_reserved state2.2 e2) e2).

Lemma run0 : run 1 1 3 0 state0.
Proof. exists 0, table0. split; [done|constructor]. Qed.

Lemma step1 : step 1 1 3 state0 state1.
Proof.
  exists OSpawn, (Handed e1). split; [done|]. split; [by apply after_run; vm_compute|].
  apply spec_spawn. apply (bool_decide_unpack _). by vm_compute.
Qed.

Lemma step2 : step 1 1 3 state1 state2.
Proof.
  exists (ODespawn e1), (Ended (noMask 1) true). split; [done|]. split; [by apply after_run; vm_compute|].
  apply spec_despawn. by vm_compute.
Qed.

Lemma step3 : step 1 1 3 state2 state3.
Proof.
  exists OSpawn, (Handed e2). split; [done|]. split; [by apply after_run; vm_compute|].
  apply spec_spawn. apply (bool_decide_unpack _). by vm_compute.
Qed.
End Example.

(** The index of a despawned entity is used again, by another entity. *)
Lemma entity_never_returns_witness :
  alive Example.state3.1 Example.e1 = false ∧ spawnReserved 1 Example.state3.1 Example.e1 = Some (Example.state3.1, false).
Proof.
  apply (entity_never_returns 1 1 3 1 1 1 Example.state1 Example.state2 Example.state3);
    [done|done| | | |done|done|done|by vm_compute|by vm_compute].
  - exact (run_extend 1 1 3 0 1 _ _ Example.run0 (nsteps_once _ _ Example.step1)).
  - exact (nsteps_once _ _ Example.step2).
  - exact (nsteps_once _ _ Example.step3).
Defined.

Lemma entityTable_refines_witness :
  ∃ y answer, run_op 1 Example.state0.1 OReserve = Some (y.1, answer) ∧
    spec_step 1 1 3 Example.state0.2 OReserve answer y.2 ∧ run 1 1 3 1 y.
Proof. apply (entityTable_refines 1 1 3 0 Example.state0 OReserve); [done|done|exact Example.run0|done|done]. Defined.

Lemma live_walks_witness : StronglySorted (λ a b, (index a.1 < index b.1)%N) (live Example.state1.1).
Proof.
  apply (live_walks 1 1 3 1 Example.state1); [done|done| |done].
  exact (run_extend 1 1 3 0 1 _ _ Example.run0 (nsteps_once _ _ Example.step1)).
Defined.
