(* ===== verification/Store.v ===== *)
(** * Stores of ecs/store.go

    The values of one component type, as a sparse set with, in an observed
    store, a shadow and a state per row and the tail of rows removed in the
    window.  [V] is the component's type; [sized] tells that it has bytes: a
    tag's rows all read the same [tagRow].  The address of a row's value is
    the row: reading and writing through it is [value_at] and [value_set].
    [None] is a panic. *)

From S2P Require Import Prelude Words Array Entity IndexTable.

Inductive observationState := unobserved | observerWaiting | observed.

Inductive rowState := rowUnchanged | rowChanged | rowAdded | rowRemoved | rowDiscarded.

Inductive Delta := DeltaNone | DeltaAdded | DeltaChanged | DeltaRemoved | DeltaReleased.

#[export] Instance observationState_eq : EqDecision observationState.
Proof. solve_decision. Defined.
#[export] Instance rowState_eq : EqDecision rowState.
Proof. solve_decision. Defined.
#[export] Instance Delta_eq : EqDecision Delta.
Proof. solve_decision. Defined.
#[export] Instance zero_rowState : Zero rowState := rowUnchanged.

Definition rowsPerChunk : nat := 256.

Section store.
Context {V : Type} `{Zero V} `{EqDecision V}.

Record storeResource := mkStore {
  sized : bool;
  rowByIndex : indexTable N;
  owners : Array Entity;
  valueChunks : list (list V);
  liveRows : nat;
  observation : observationState;
  shadowChunks : list (list V);
  rowStates : Array rowState;
  changedEntities : list Entity;
  changedEntitiesOverflowed : bool
}.

Implicit Types s : storeResource.

Definition with_links s x := mkStore (sized s) x (owners s) (valueChunks s) (liveRows s) (observation s)
  (shadowChunks s) (rowStates s) (changedEntities s) (changedEntitiesOverflowed s).
Definition with_owners s x := mkStore (sized s) (rowByIndex s) x (valueChunks s) (liveRows s) (observation s)
  (shadowChunks s) (rowStates s) (changedEntities s) (changedEntitiesOverflowed s).
Definition with_values s x := mkStore (sized s) (rowByIndex s) (owners s) x (liveRows s) (observation s)
  (shadowChunks s) (rowStates s) (changedEntities s) (changedEntitiesOverflowed s).
Definition with_live s x := mkStore (sized s) (rowByIndex s) (owners s) (valueChunks s) x (observation s)
  (shadowChunks s) (rowStates s) (changedEntities s) (changedEntitiesOverflowed s).
Definition with_observation s x := mkStore (sized s) (rowByIndex s) (owners s) (valueChunks s) (liveRows s) x
  (shadowChunks s) (rowStates s) (changedEntities s) (changedEntitiesOverflowed s).
Definition with_shadows s x := mkStore (sized s) (rowByIndex s) (owners s) (valueChunks s) (liveRows s)
  (observation s) x (rowStates s) (changedEntities s) (changedEntitiesOverflowed s).
Definition with_states s x := mkStore (sized s) (rowByIndex s) (owners s) (valueChunks s) (liveRows s)
  (observation s) (shadowChunks s) x (changedEntities s) (changedEntitiesOverflowed s).
Definition with_listing s x y := mkStore (sized s) (rowByIndex s) (owners s) (valueChunks s) (liveRows s)
  (observation s) (shadowChunks s) (rowStates s) x y.

Definition newStoreOf (size : bool) : storeResource :=
  mkStore size emptyTable emptyArray [] 0 unobserved [] emptyArray [] false.

(** What [newChunk] allocates. *)
Definition newChunk : list V := replicate rowsPerChunk zero_value.

(** ** Rows and their values *)

Definition chunk_read (size : bool) (chunks : list (list V)) (row : nat) : option V :=
  if negb size then Some zero_value else
  c ← chunks !! (row / rowsPerChunk); c !! (row mod rowsPerChunk).

Definition chunk_write (size : bool) (chunks : list (list V)) (row : nat) (v : V) : option (list (list V)) :=
  if negb size then Some chunks else
  c ← chunks !! (row / rowsPerChunk);
  c' ← list_set c (row mod rowsPerChunk) v;
  list_set chunks (row / rowsPerChunk) c'.

Definition value_at s (row : nat) : option V := chunk_read (sized s) (valueChunks s) row.
Definition shadow_at s (row : nat) : option V := chunk_read (sized s) (shadowChunks s) row.

Definition value_set s (row : nat) (v : V) : option storeResource :=
  chunks ← chunk_write (sized s) (valueChunks s) row v; Some (with_values s chunks).
Definition shadow_set s (row : nat) (v : V) : option storeResource :=
  chunks ← chunk_write (sized s) (shadowChunks s) row v; Some (with_shadows s chunks).

(** [uint32(row) + 1], what links to a row. *)
Definition link_to (row : nat) : N := u32 (u32 (N.of_nat row) + 1).

(** The row the slot of an index links to, if there is a slot and it links. *)
Definition linked s (i : N) : option nat :=
  slot ← at_ (rowByIndex s) i;
  if (slot =? 0)%N then None else Some (N.to_nat (slot - 1)).

Definition len s : nat := liveRows s.

Definition row_of s (e : Entity) : option (nat * bool) :=
  match linked s (index e) with
  | None => Some (0, false)
  | Some row =>
    if decide (row < liveRows s) then o ← AAt (owners s) row; Some (row, (o =? e)%N) else Some (row, false)
  end.

Definition get s (e : Entity) : option (option nat) :=
  match linked s (index e) with
  | None => Some None
  | Some row =>
    if decide (liveRows s ≤ row) then Some None else
    o ← AAt (owners s) row;
    if negb (o =? e)%N then Some None else Some (Some row)
  end.

Definition listChanged s (e : Entity) : storeResource :=
  if decide (length (changedEntities s) < N.to_nat (N.shiftr (N.of_nat (liveRows s)) 3))
  then with_listing s (changedEntities s ++ [e]) (changedEntitiesOverflowed s)
  else with_listing s (changedEntities s) true.

Definition set_state s (row : nat) (state : rowState) : option storeResource :=
  a ← ASet (rowStates s) row state; Some (with_states s a).

Definition markChanged s (row : nat) (e : Entity) : option storeResource :=
  if negb (bool_decide (observation s = observed)) then Some s else
  state ← AAt (rowStates s) row;
  if decide (state = rowUnchanged) then
    s ← set_state s row rowChanged;
    Some (listChanged s e)
  else Some s.

Definition write s (e : Entity) : option (storeResource * option nat) :=
  match linked s (index e) with
  | None => Some (s, None)
  | Some row =>
    if decide (liveRows s ≤ row) then Some (s, None) else
    o ← AAt (owners s) row;
    if negb (o =? e)%N then Some (s, None) else
    s ← markChanged s row e;
    Some (s, Some row)
  end.

Definition tailRow s (e : Entity) : option (nat * bool) :=
  match linked s (index e) with
  | None => Some (0, false)
  | Some row =>
    if decide (liveRows s ≤ row ∧ row < ALen (owners s))
    then o ← AAt (owners s) row; Some (row, (o =? e)%N) else Some (row, false)
  end.

Definition reportedRow s (e : Entity) : option (nat * bool) :=
  match linked s (index e) with
  | None => Some (0, false)
  | Some row =>
    if decide (ALen (owners s) ≤ row) then Some (0, false) else
    o ← AAt (owners s) row;
    if negb (o =? e)%N then Some (0, false) else
    if decide (row < liveRows s) then Some (row, true) else
    state ← AAt (rowStates s) row;
    Some (row, bool_decide (state = rowRemoved))
  end.

Definition set_owner s (row : nat) (e : Entity) : option storeResource :=
  a ← ASet (owners s) row e; Some (with_owners s a).

(** A write through the pointer to an index's slot. *)
Definition set_link s (i : N) (x : N) : option storeResource :=
  t ← at_set (rowByIndex s) i x; Some (with_links s t).

Definition swap s (a b : nat) : option storeResource :=
  if decide (a = b) then Some s else
  ownerA ← AAt (owners s) a;
  ownerB ← AAt (owners s) b;
  slotB ← at_ (rowByIndex s) (index ownerB);
  let linkedB := (slotB =? link_to b)%N in
  s ← set_link s (index ownerA) (link_to b);
  s ← (if linkedB then set_link s (index ownerB) (link_to a) else Some s);
  s ← set_owner s a ownerB;
  s ← set_owner s b ownerA;
  stateA ← AAt (rowStates s) a;
  stateB ← AAt (rowStates s) b;
  s ← set_state s a stateB;
  s ← set_state s b stateA;
  valueA ← value_at s a;
  valueB ← value_at s b;
  s ← value_set s a valueB;
  s ← value_set s b valueA;
  shadowA ← shadow_at s a;
  shadowB ← shadow_at s b;
  s ← shadow_set s a shadowB;
  shadow_set s b shadowA.

(** [add] on a new row, [add] once no row of the tail is brought back. *)
Definition add_row s (e : Entity) : option (storeResource * nat) :=
  '(a, row) ← AAppend (owners s) e;
  let s := with_owners s a in
  let grows := sized s && bool_decide (row / rowsPerChunk = length (valueChunks s)) in
  let s := if grows then with_values s (valueChunks s ++ [newChunk]) else s in
  let s := if grows && bool_decide (observation s = observed)
    then with_shadows s (shadowChunks s ++ [newChunk]) else s in
  t ← create_modify (rowByIndex s) (index e) (λ _, link_to row);
  let s := with_links s t in
  s ← (if bool_decide (observation s = observed) then
    '(st, _) ← AAppend (rowStates s) rowAdded;
    swap (listChanged (with_states s st) e) row (liveRows s)
  else Some s);
  Some (with_live s (S (liveRows s)), liveRows s).

Definition add s (e : Entity) : option (storeResource * nat) :=
  if bool_decide (observation s = observed) then
    '(row, ok) ← tailRow s e;
    if ok : bool then
      s ← swap s row (liveRows s);
      state ← AAt (rowStates s) (liveRows s);
      s ← set_state s (liveRows s) (if decide (state = rowDiscarded) then rowAdded else rowChanged);
      Some (with_live s (S (liveRows s)), liveRows s)
    else
      let lost := match at_ (rowByIndex s) (index e) with Some slot => negb (slot =? 0)%N | None => false end in
      add_row (if lost then with_listing s (changedEntities s) true else s) e
  else add_row s e.

Definition remove s (e : Entity) (row : nat) : option storeResource :=
  if decide (liveRows s = 0) then None else
  let last := liveRows s - 1 in
  let s := with_live s last in
  if bool_decide (observation s = observed) then
    s ← swap s row last;
    state ← AAt (rowStates s) last;
    match state with
    | rowAdded => set_state s last rowDiscarded
    | rowUnchanged => set_state (listChanged s e) last rowRemoved
    | _ => set_state s last rowRemoved
    end
  else
    '(a, _) ← ASwapRemove (owners s) row;
    let s := with_owners s a in
    s ← (if decide (row = last) then Some s else
      moved ← AAt (owners s) row;
      s ← set_link s (index moved) (link_to row);
      v ← value_at s last;
      value_set s row v);
    set_link s (index e) 0%N.

Definition registerObserver s : storeResource :=
  if decide (observation s = unobserved) then with_observation s observerWaiting else s.

Definition delta s (row : nat) : option Delta :=
  state ← AAt (rowStates s) row;
  match state with
  | rowAdded => Some DeltaAdded
  | rowChanged =>
    v ← value_at s row;
    w ← shadow_at s row;
    Some (if decide (v = w) then DeltaNone else DeltaChanged)
  | rowRemoved => Some DeltaRemoved
  | _ => Some DeltaNone
  end.

Definition walkedRows s : nat :=
  if changedEntitiesOverflowed s then ALen (owners s) else length (changedEntities s).

Definition listedRow s (i : nat) : option nat :=
  e ← changedEntities s !! i;
  slot ← at_ (rowByIndex s) (index e);
  Some (N.to_nat (u32 (slot + (2 ^ 32 - 1)))).

Definition start_state (_ : nat) s : option storeResource :=
  '(a, _) ← AAppend (rowStates s) rowAdded; Some (with_states s a).

Definition startObservation s : option storeResource :=
  if negb (bool_decide (observation s = observerWaiting)) then Some s else
  let s := with_listing (with_observation s observed) (changedEntities s) true in
  let s := with_shadows s (shadowChunks s ++ replicate (length (valueChunks s)) newChunk) in
  for_range (ALen (owners s)) start_state s.

(** One row of the reset's walk. *)
Definition reset_row (i : nat) s : option storeResource :=
  row ← (if changedEntitiesOverflowed s then Some i else listedRow s i);
  if decide (liveRows s ≤ row) then Some s else
  state ← AAt (rowStates s) row;
  if decide (state = rowUnchanged) then Some s else
  v ← value_at s row;
  s ← shadow_set s row v;
  set_state s row rowUnchanged.

(** One row of the tail dropped. *)
Definition drop_row (row : nat) s : option storeResource :=
  e ← AAt (owners s) row;
  slot ← at_ (rowByIndex s) (index e);
  if (slot =? link_to row)%N then set_link s (index e) 0%N else Some s.

Definition resetObservation s : option storeResource :=
  if negb (bool_decide (observation s = observed)) then Some s else
  s ← for_range (walkedRows s) reset_row s;
  let s := with_listing s [] false in
  s ← for_from (liveRows s) (ALen (owners s) - liveRows s) drop_row s;
  o ← AResize (owners s) (liveRows s);
  st ← AResize (rowStates s) (liveRows s);
  Some (with_states (with_owners s o) st).

Definition shrink_store s : option storeResource :=
  o ← AShrink (owners s);
  st ← AShrink (rowStates s);
  let used := Nat.min ((ALen (owners s) + (rowsPerChunk - 1)) / rowsPerChunk) (length (valueChunks s)) in
  values ← slice (valueChunks s) 0 used;
  shadows ← (if bool_decide (observation s = observed) then slice (shadowChunks s) 0 used else Some (shadowChunks s));
  Some (with_links (with_shadows (with_values (with_states (with_owners s o) st) values) shadows)
    (shrink (λ x, x =? 0)%N (rowByIndex s))).
End store.
Arguments storeResource : clear implicits.
