(* ===== verification/StoreRepr.v ===== *)
(** * The rows a store represents

    [store_repr s rows] reads a store as the list of its rows, live ones
    first, each with its owner, value, shadow and state; the operations on
    the arrays, chunks and links are then operations on that list. *)

From S2P Require Import Prelude Words Array Entity IndexTable Store.

(** Reading a field of a store that operations have written others of. *)
Ltac store_cbn :=
  cbn [mbind option_bind fst snd sized rowByIndex owners valueChunks liveRows observation shadowChunks rowStates
    changedEntities changedEntitiesOverflowed with_links with_owners with_values with_live with_observation
    with_shadows with_states with_listing].

Section repr.
Context {V : Type} `{Zero V} `{EqDecision V}.

Record rowData := mkRow { r_owner : Entity; r_value : V; r_shadow : V; r_state : rowState }.

Implicit Types (s : storeResource V) (rows : list rowData) (w : rowData).

(** No other row of [w]'s index is of a later entity: of two entities of an
    index, the later is the greater. *)
Definition newest rows w : Prop :=
  ∀ r w', rows !! r = Some w' → index (r_owner w') = index (r_owner w) → (r_owner w' <= r_owner w)%N.

(** An index is linked if it has rows, and then to its newest one. *)
Record links_ok (lk : N → N) rows : Prop := {
  lk_newest : ∀ r w, rows !! r = Some w → newest rows w → lk (index (r_owner w)) = (N.of_nat r + 1)%N;
  lk_linked : ∀ i, lk i ≠ 0%N → ∃ r w, rows !! r = Some w ∧ index (r_owner w) = i ∧ newest rows w;
  lk_rows : ∀ r w, rows !! r = Some w → lk (index (r_owner w)) ≠ 0%N
}.

(** Rows of different places have different owners. *)
Definition owners_distinct rows : Prop :=
  ∀ i j wi wj, rows !! i = Some wi → rows !! j = Some wj → r_owner wi = r_owner wj → i = j.

Definition chunks_ok (chunks : list (list V)) : Prop := Forall (λ c, length c = rowsPerChunk) chunks.

Record store_repr s rows : Prop := {
  sr_owners : array_repr (owners s) (r_owner <$> rows);
  sr_pages : pages_ok (rowByIndex s);
  sr_links : links_ok (entry (rowByIndex s)) rows;
  sr_distinct : owners_distinct rows;
  sr_bound : (N.of_nat (length rows) < 2 ^ 32)%N;
  sr_chunks : chunks_ok (valueChunks s) ∧ chunks_ok (shadowChunks s);
  sr_values : ∀ r w, rows !! r = Some w → value_at s r = Some (r_value w);
  sr_live : liveRows s ≤ length rows;
  sr_observed : observation s = observed → array_repr (rowStates s) (r_state <$> rows) ∧
    length (shadowChunks s) = length (valueChunks s) ∧ ∀ r w, rows !! r = Some w → shadow_at s r = Some (r_shadow w);
  sr_quiet : observation s ≠ observed → array_repr (rowStates s) [] ∧ shadowChunks s = [] ∧ liveRows s = length rows
}.

(** A tag has one value. *)
Definition fits s (v : V) : Prop := sized s = false → v = zero_value.

Lemma value_fits s r v : value_at s r = Some v → fits s v.
Proof using Type. unfold fits, value_at, chunk_read. intros Hv E. rewrite E in Hv. by injection Hv as <-. Qed.

(** ** Chunks *)

Lemma chunk_position i j :
  i / rowsPerChunk = j / rowsPerChunk → i mod rowsPerChunk = j mod rowsPerChunk → i = j.
Proof using Type. apply position_inj. Qed.

Lemma chunk_read_lt size chunks row :
  chunks_ok chunks → is_Some (chunk_read size chunks row) ↔ size = false ∨ row < length chunks * rowsPerChunk.
Proof using Type.
  intros Hc. unfold chunk_read. destruct size; cbn [negb]; [|by split; [left|eexists]].
  split.
  - intros [v Hv]. right. apply bind_Some in Hv as (c & Hc' & Hv).
    apply lookup_lt_Some in Hc'. unfold rowsPerChunk in *. pose proof (Nat.div_mod_eq row 256).
    pose proof (Nat.mod_upper_bound row 256). lia.
  - intros [?|Hlt]; [done|]. destruct (lookup_lt_is_Some_2 chunks (row / rowsPerChunk)) as [c Ec].
    { apply Nat.Div0.div_lt_upper_bound. lia. }
    rewrite Ec. cbn [mbind option_bind]. apply lookup_lt_is_Some_2. unfold chunks_ok in Hc. rewrite Forall_forall in Hc.
    rewrite (Hc c) by (by eapply list_elem_of_lookup_2). apply Nat.mod_upper_bound. unfold rowsPerChunk. lia.
Qed.

Lemma chunk_write_spec size chunks row v :
  chunks_ok chunks → (size = false → v = zero_value) → is_Some (chunk_read size chunks row) →
  ∃ chunks', chunk_write size chunks row v = Some chunks' ∧ chunks_ok chunks' ∧ length chunks' = length chunks ∧
    ∀ j, chunk_read size chunks' j = if decide (j = row) then Some v else chunk_read size chunks j.
Proof using Type.
  intros Hc Htag Hr. unfold chunk_write. destruct size; cbn [negb].
  - destruct Hr as [x Hx]. unfold chunk_read in Hx. cbn [negb] in Hx. apply bind_Some in Hx as (c & Ec & Hx).
    pose proof (lookup_lt_Some _ _ _ Ec). pose proof (lookup_lt_Some _ _ _ Hx).
    rewrite Ec. cbn [mbind option_bind]. rewrite list_set_Some by done. cbn [mbind option_bind].
    rewrite list_set_Some by done. eexists. split; [done|]. split_and!.
    + apply Forall_insert; [done|]. rewrite length_insert. unfold chunks_ok in Hc. rewrite Forall_forall in Hc.
      apply Hc. by eapply list_elem_of_lookup_2.
    + by rewrite length_insert.
    + intros j. unfold chunk_read. cbn [negb]. rewrite lookup_insert_decide by done.
      destruct (decide (row / rowsPerChunk = j / rowsPerChunk)) as [E|E].
      * cbn [mbind option_bind]. rewrite lookup_insert_decide by done. rewrite <- E, Ec. cbn [mbind option_bind].
        destruct (decide (row mod rowsPerChunk = j mod rowsPerChunk)) as [E'|E'], (decide (j = row)) as [->|Hn]; try done.
        destruct Hn. by apply chunk_position.
      * by destruct (decide (j = row)) as [->|].
  - exists chunks. split_and!; [done|done|done|]. intros j. unfold chunk_read. cbn [negb].
    rewrite (Htag eq_refl). by destruct (decide _).
Qed.

Lemma chunk_read_app size chunks row v :
  chunk_read size chunks row = Some v → chunk_read size (chunks ++ [newChunk]) row = Some v.
Proof using Type.
  unfold chunk_read. destruct size; cbn [negb]; [|done]. intros (c & Ec & Hv)%bind_Some.
  rewrite (lookup_app_l_Some _ _ _ _ Ec). exact Hv.
Qed.

Lemma newChunk_ok : length (newChunk (V := V)) = rowsPerChunk.
Proof using Type. apply length_replicate. Qed.

(** ** Links *)

Lemma link_to_value row : (N.of_nat row < 2 ^ 32 - 1)%N → link_to row = (N.of_nat row + 1)%N.
Proof using Type. intros Hr. unfold link_to. rewrite (u32_small (N.of_nat row)) by lia. apply u32_small. lia. Qed.

Lemma linked_entry s i :
  linked s i = if (entry (rowByIndex s) i =? 0)%N then None else Some (N.to_nat (entry (rowByIndex s) i - 1)).
Proof using Type. unfold linked, entry. by destruct (at_ (rowByIndex s) i). Qed.

(** Two newest rows of an index are one. *)
Lemma newest_same rows r1 r2 w1 w2 :
  owners_distinct rows → rows !! r1 = Some w1 → rows !! r2 = Some w2 → newest rows w1 → newest rows w2 →
  index (r_owner w1) = index (r_owner w2) → r1 = r2.
Proof using Type.
  intros Hd H1 H2 N1 N2 E. apply (Hd r1 r2 w1 w2 H1 H2). pose proof (N1 r2 w2 H2 (eq_sym E)). pose proof (N2 r1 w1 H1 E). lia.
Qed.

Lemma linked_row s rows r w : store_repr s rows → rows !! r = Some w → newest rows w → linked s (index (r_owner w)) = Some r.
Proof using Type.
  intros R Hw Hn. rewrite linked_entry, (lk_newest _ _ (sr_links _ _ R) r w Hw Hn).
  destruct (N.eqb_spec (N.of_nat r + 1) 0); [lia|]. f_equal. lia.
Qed.

Lemma linked_Some s rows i r :
  store_repr s rows → linked s i = Some r → ∃ w, rows !! r = Some w ∧ index (r_owner w) = i ∧ newest rows w.
Proof using Type.
  intros R. rewrite linked_entry. destruct (N.eqb_spec (entry (rowByIndex s) i) 0) as [|Hn]; [done|]. intros [= <-].
  destruct (lk_linked _ _ (sr_links _ _ R) i Hn) as (r & w & Hw & <- & Hnew).
  rewrite (lk_newest _ _ (sr_links _ _ R) r w Hw Hnew). exists w. split; [|done]. rewrite <- Hw. f_equal. lia.
Qed.

(** An index that is not linked has no row. *)
Lemma linked_None s rows r w : store_repr s rows → rows !! r = Some w → linked s (index (r_owner w)) ≠ None.
Proof using Type.
  intros R Hw. rewrite linked_entry. destruct (N.eqb_spec (entry (rowByIndex s) (index (r_owner w))) 0) as [E|]; [|done].
  by destruct (lk_rows _ _ (sr_links _ _ R) r w Hw).
Qed.

Lemma owner_at s rows r w : store_repr s rows → rows !! r = Some w → AAt (owners s) r = Some (r_owner w).
Proof using Type. intros R Hw. eapply array_read; [apply R|]. by rewrite list_lookup_fmap, Hw. Qed.

Lemma state_at s rows r w :
  store_repr s rows → observation s = observed → rows !! r = Some w → AAt (rowStates s) r = Some (r_state w).
Proof using Type.
  intros R Ho Hw. destruct (sr_observed _ _ R Ho) as [Ha _]. eapply array_read; [exact Ha|]. by rewrite list_lookup_fmap, Hw.
Qed.

Lemma slot_at s rows r w :
  store_repr s rows → rows !! r = Some w → at_ (rowByIndex s) (index (r_owner w)) = Some (entry (rowByIndex s) (index (r_owner w))).
Proof using Type. intros R Hw. apply entry_nonzero. exact (lk_rows _ _ (sr_links _ _ R) r w Hw). Qed.

Lemma slot_some s rows r w :
  store_repr s rows → rows !! r = Some w → newest rows w → at_ (rowByIndex s) (index (r_owner w)) = Some (N.of_nat r + 1)%N.
Proof using Type. intros R Hw Hn. by rewrite (slot_at s rows r w R Hw), (lk_newest _ _ (sr_links _ _ R) r w Hw Hn). Qed.

Lemma owners_len s rows : store_repr s rows → ALen (owners s) = length rows.
Proof using Type. intros R. unfold ALen. rewrite (array_length _ _ (sr_owners _ _ R)). apply length_fmap. Qed.

(** ** Writes *)

Lemma set_link_spec s i x :
  pages_ok (rowByIndex s) → is_Some (at_ (rowByIndex s) i) →
  ∃ t, set_link s i x = Some (with_links s t) ∧ pages_ok t ∧
    (∀ j, is_Some (at_ (rowByIndex s) j) → is_Some (at_ t j)) ∧
    ∀ j, entry t j = if decide (j = i) then x else entry (rowByIndex s) j.
Proof using Type.
  intros Hok Hi. destruct (at_set_spec _ i x Hok Hi) as (t & E & Hok' & Hat). exists t. unfold set_link. rewrite E.
  split_and!; [done|done| |].
  - intros j Hj. rewrite Hat. by destruct (decide _).
  - intros j. unfold entry at 1. rewrite Hat. by destruct (decide _).
Qed.

(** A row with another state, value or shadow. *)
Definition row_state w x : rowData := mkRow (r_owner w) (r_value w) (r_shadow w) x.
Definition row_value w x : rowData := mkRow (r_owner w) x (r_shadow w) (r_state w).
Definition row_shadow w x : rowData := mkRow (r_owner w) (r_value w) x (r_state w).

Lemma same_owners (l l' : list rowData) r w :
  r_owner <$> l = r_owner <$> l' → l !! r = Some w → ∃ w', l' !! r = Some w' ∧ r_owner w' = r_owner w.
Proof using Type.
  intros El Hw. assert (Ho : (r_owner <$> l') !! r = Some (r_owner w)) by (by rewrite <- El, list_lookup_fmap, Hw).
  apply list_lookup_fmap_Some_1 in Ho as (w' & ? & ?). by exists w'.
Qed.

Lemma newest_same_owners (l l' : list rowData) w w' :
  r_owner <$> l = r_owner <$> l' → r_owner w = r_owner w' → newest l w → newest l' w'.
Proof using Type.
  intros El Eo Hn r x Hx Ei. destruct (same_owners l' l r x (eq_sym El) Hx) as (y & Hy & Ey).
  rewrite <- Ey, <- Eo. apply (Hn r y Hy). by rewrite Ey, Eo.
Qed.

Lemma distinct_same_owners (l l' : list rowData) : r_owner <$> l' = r_owner <$> l → owners_distinct l → owners_distinct l'.
Proof using Type.
  intros El Hd i j wi wj Hi Hj E. destruct (same_owners l' l i wi El Hi) as (xi & Hxi & Ei).
  destruct (same_owners l' l j wj El Hj) as (xj & Hxj & Ej). apply (Hd i j xi xj Hxi Hxj). congruence.
Qed.

Lemma links_same_owners (lk : N → N) rows rows' :
  r_owner <$> rows' = r_owner <$> rows → links_ok lk rows → links_ok lk rows'.
Proof using Type.
  intros E [H1 H2 H3]. split.
  - intros r w Hw Hn. destruct (same_owners rows' rows r w E Hw) as (w' & Hw' & Eo). rewrite <- Eo. apply H1; [done|].
    by eapply newest_same_owners.
  - intros i Hi. destruct (H2 i Hi) as (r & w & Hw & Ei & Hn). destruct (same_owners rows rows' r w (eq_sym E) Hw) as (w' & Hw' & Eo).
    exists r, w'. rewrite Eo. split_and!; [done|done|]. by eapply newest_same_owners.
  - intros r w Hw. destruct (same_owners rows' rows r w E Hw) as (w' & Hw' & <-). by eapply H3.
Qed.

Lemma fmap_insert_id {A B} (f : A → B) (l : list A) i x y :
  l !! i = Some x → f y = f x → f <$> <[i:=y]> l = f <$> l.
Proof using Type. intros Hi E. rewrite list_fmap_insert, E. apply list_insert_id. by rewrite list_lookup_fmap, Hi. Qed.

Lemma set_state_repr s rows r w x :
  store_repr s rows → observation s = observed → rows !! r = Some w →
  ∃ a, set_state s r x = Some (with_states s a) ∧ store_repr (with_states s a) (<[r := row_state w x]> rows).
Proof using Type.
  intros R Ho Hw. destruct R as [Hown Hp Hl Hd Hb Hc Hv Hlive Hob Hq]. destruct (Hob Ho) as (Hst & Hlen & Hsh).
  pose proof (lookup_lt_Some _ _ _ Hw) as Hlt. unfold set_state.
  destruct (array_set_repr (rowStates s) _ r x Hst) as (a & -> & Ha); [by rewrite length_fmap|]. cbn [mbind option_bind].
  exists a. split; [done|].
  split; cbn [owners rowByIndex valueChunks shadowChunks sized observation liveRows rowStates with_states]; rewrite ?length_insert; try done.
  - by rewrite (fmap_insert_id r_owner _ _ w).
  - eapply links_same_owners; [|done]. by rewrite (fmap_insert_id r_owner _ _ w).
  - eapply distinct_same_owners; [|done]. by rewrite (fmap_insert_id r_owner _ _ w).
  - intros j w' Hj. apply list_lookup_insert_Some in Hj as [(<- & <- & _)|[_ Hj]]; [exact (Hv _ w Hw)|exact (Hv _ _ Hj)].
  - intros _. split_and!; [by rewrite list_fmap_insert|done|].
    intros j w' Hj. apply list_lookup_insert_Some in Hj as [(<- & <- & _)|[_ Hj]]; [exact (Hsh _ w Hw)|exact (Hsh _ _ Hj)].
Qed.

Lemma value_set_repr s rows r w v :
  store_repr s rows → rows !! r = Some w → fits s v →
  ∃ c, value_set s r v = Some (with_values s c) ∧ store_repr (with_values s c) (<[r := row_value w v]> rows).
Proof using Type.
  intros R Hw Hfit. pose proof R as [Hown Hp Hl Hd Hb [Hc1 Hc2] Hv Hlive Hob Hq].
  unfold value_set. destruct (chunk_write_spec (sized s) (valueChunks s) r v Hc1 Hfit) as (c & -> & Hok & Hlen & Hr).
  { eexists. by apply Hv. }
  cbn [mbind option_bind]. exists c. split; [done|]. pose proof (lookup_lt_Some _ _ _ Hw) as Hlt.
  split; cbn [owners rowByIndex valueChunks shadowChunks sized observation liveRows rowStates with_values]; rewrite ?length_insert; try done.
  - by rewrite (fmap_insert_id r_owner _ _ w).
  - eapply links_same_owners; [|done]. by rewrite (fmap_insert_id r_owner _ _ w).
  - eapply distinct_same_owners; [|done]. by rewrite (fmap_insert_id r_owner _ _ w).
  - intros j w' Hj. unfold value_at. cbn [sized valueChunks with_values]. rewrite Hr.
    apply list_lookup_insert_Some in Hj as [(<- & <- & _)|[Hne Hj]].
    + by rewrite decide_True.
    + rewrite decide_False by done. by apply Hv.
  - intros Ho. destruct (Hob Ho) as (Hst & Hlen' & Hsh). split_and!; [by rewrite (fmap_insert_id r_state _ _ w)|congruence|].
    intros j w' Hj. apply list_lookup_insert_Some in Hj as [(<- & <- & _)|[_ Hj]]; [exact (Hsh _ w Hw)|exact (Hsh _ _ Hj)].
Qed.

Lemma shadow_set_repr s rows r w v :
  store_repr s rows → observation s = observed → rows !! r = Some w → fits s v →
  ∃ c, shadow_set s r v = Some (with_shadows s c) ∧ store_repr (with_shadows s c) (<[r := row_shadow w v]> rows).
Proof using Type.
  intros R Ho Hw Hfit. pose proof R as [Hown Hp Hl Hd Hb [Hc1 Hc2] Hv Hlive Hob Hq]. destruct (Hob Ho) as (Hst & Hlen' & Hsh).
  unfold shadow_set. destruct (chunk_write_spec (sized s) (shadowChunks s) r v Hc2 Hfit) as (c & -> & Hok & Hlen & Hr).
  { eexists. by apply Hsh. }
  cbn [mbind option_bind]. exists c. split; [done|]. pose proof (lookup_lt_Some _ _ _ Hw) as Hlt.
  split; cbn [owners rowByIndex valueChunks shadowChunks sized observation liveRows rowStates with_shadows]; rewrite ?length_insert; try done.
  - by rewrite (fmap_insert_id r_owner _ _ w).
  - eapply links_same_owners; [|done]. by rewrite (fmap_insert_id r_owner _ _ w).
  - eapply distinct_same_owners; [|done]. by rewrite (fmap_insert_id r_owner _ _ w).
  - intros j w' Hj. apply list_lookup_insert_Some in Hj as [(<- & <- & _)|[_ Hj]]; [exact (Hv _ w Hw)|exact (Hv _ _ Hj)].
  - intros _. split_and!; [by rewrite (fmap_insert_id r_state _ _ w)|congruence|].
    intros j w' Hj. unfold shadow_at. cbn [sized shadowChunks with_shadows]. rewrite Hr.
    apply list_lookup_insert_Some in Hj as [(<- & <- & _)|[Hne Hj]].
    + by rewrite decide_True.
    + rewrite decide_False by done. by apply Hsh.
Qed.
End repr.
Arguments rowData : clear implicits.
