(* ===== verification/StoreSwap.v ===== *)
(** * Exchanging rows, adding and removing them

    What [swap], [add] and [remove] do to the rows a store represents. *)

From S2P Require Import Prelude Words Array Entity IndexTable Store StoreRepr.

Section swap.
Context {V : Type} `{Zero V} `{EqDecision V}.

Implicit Types (s : storeResource V) (rows : list (rowData V)) (w : rowData V).

Definition swapped {A} (l : list A) (a b : nat) (x y : A) : list A := <[b := x]> (<[a := y]> l).

Lemma swapped_lookup {A} (l : list A) a b x y j :
  a < length l → b < length l →
  swapped l a b x y !! j = if decide (j = b) then Some x else if decide (j = a) then Some y else l !! j.
Proof using Type.
  intros Ha Hb. unfold swapped. rewrite !lookup_insert_decide by (rewrite ?length_insert; done).
  by destruct (decide (b = j)), (decide (j = b)), (decide (a = j)), (decide (j = a)).
Qed.

Lemma fmap_swapped {A B} (f : A → B) l a b x y : f <$> swapped l a b x y = swapped (f <$> l) a b (f x) (f y).
Proof using Type. unfold swapped. by rewrite !list_fmap_insert. Qed.

Lemma length_swapped {A} (l : list A) a b x y : length (swapped l a b x y) = length l.
Proof using Type. unfold swapped. by rewrite !length_insert. Qed.

(** Where the row at a place was before the exchange. *)
Definition flip_at (a b j : nat) : nat := if decide (j = b) then a else if decide (j = a) then b else j.

Lemma flip_flip a b j : flip_at a b (flip_at a b j) = j.
Proof using Type. unfold flip_at. repeat (destruct (decide _); subst; try done). Qed.

Section exchange.
Context (rows : list (rowData V)) (a b : nat) (wa wb : rowData V).
Hypothesis (Ha : rows !! a = Some wa) (Hb : rows !! b = Some wb).

Lemma swapped_at j : swapped rows a b wa wb !! j = rows !! flip_at a b j.
Proof using Ha Hb.
  rewrite swapped_lookup by (by eapply lookup_lt_Some). unfold flip_at.
  destruct (decide (j = b)); [done|]. by destruct (decide (j = a)).
Qed.

Lemma newest_swapped w : newest (swapped rows a b wa wb) w ↔ newest rows w.
Proof using Ha Hb.
  split; intros Hn r w' Hw; [apply (Hn (flip_at a b r) w')|apply (Hn (flip_at a b r) w')].
  - by rewrite swapped_at, flip_flip.
  - by rewrite <- swapped_at.
Qed.

Lemma distinct_swapped : owners_distinct rows → owners_distinct (swapped rows a b wa wb).
Proof using Ha Hb.
  intros Hd i j wi wj. rewrite !swapped_at. intros Hi Hj E. pose proof (Hd _ _ _ _ Hi Hj E) as Ef.
  by rewrite <- (flip_flip a b i), Ef, flip_flip.
Qed.
End exchange.

(** The links once a newest row is exchanged with another, which is linked
    only if it is its index's newest. *)
Lemma swap_links s rows a b wa wb :
  store_repr s rows → a ≠ b → rows !! a = Some wa → rows !! b = Some wb → newest rows wa →
  ∃ t, (s1 ← set_link s (index (r_owner wa)) (link_to b);
        if (entry (rowByIndex s) (index (r_owner wb)) =? link_to b)%N then set_link s1 (index (r_owner wb)) (link_to a) else Some s1) =
      Some (with_links s t) ∧
    pages_ok t ∧ links_ok (entry t) (swapped rows a b wa wb).
Proof using Type.
  intros R Hab Ha Hb Hna. pose proof (lookup_lt_Some _ _ _ Ha) as La. pose proof (lookup_lt_Some _ _ _ Hb) as Lb.
  pose proof (sr_bound _ _ R) as Hbd. rewrite !link_to_value by lia. pose proof (sr_distinct _ _ R) as Hd.
  destruct (sr_links _ _ R) as [Hl1 Hl2 Hl3].
  set (linkedB := entry (rowByIndex s) (index (r_owner wb)) = (N.of_nat b + 1)%N).
  assert (Hlb : linkedB ↔ newest rows wb).
  { split; [|by apply Hl1]. intros E. destruct (Hl2 _ (Hl3 b wb Hb)) as (r & w & Hw & Ei & Hn).
    pose proof (Hl1 r w Hw Hn) as E2. rewrite Ei, E in E2. assert (r = b) as -> by lia. assert (w = wb) as <- by congruence. done. }
  destruct (set_link_spec s (index (r_owner wa)) (N.of_nat b + 1) (sr_pages _ _ R)) as (t1 & -> & Hok1 & Hk1 & He1).
  { eexists. by apply (slot_some s rows a). }
  cbn [mbind option_bind].
  assert (Ht : ∃ t, (if (entry (rowByIndex s) (index (r_owner wb)) =? N.of_nat b + 1)%N
      then set_link (with_links s t1) (index (r_owner wb)) (N.of_nat a + 1) else Some (with_links s t1)) = Some (with_links s t) ∧ pages_ok t ∧
    ∀ j, entry t j = if decide (linkedB ∧ j = index (r_owner wb)) then (N.of_nat a + 1)%N
      else if decide (j = index (r_owner wa)) then (N.of_nat b + 1)%N else entry (rowByIndex s) j).
  { destruct (N.eqb_spec (entry (rowByIndex s) (index (r_owner wb))) (N.of_nat b + 1)) as [El|El].
    - pose proof (proj1 Hlb El) as Hn. destruct (set_link_spec (with_links s t1) (index (r_owner wb)) (N.of_nat a + 1) Hok1) as (t2 & -> & Hok2 & _ & He2).
      { apply Hk1. eexists. by apply (slot_some s rows b). }
      exists t2. split_and!; [done|done|]. intros j. rewrite He2. cbn [rowByIndex with_links]. rewrite He1.
      destruct (decide (j = index (r_owner wb))); [by rewrite decide_True|]. by rewrite (decide_False (P := linkedB ∧ _)) by (by intros [_ ?]).
    - exists t1. split_and!; [done|done|]. intros j. rewrite (decide_False (P := linkedB ∧ _)) by (by intros [? _]). by rewrite He1. }
  destruct Ht as (t & -> & Hok & He). exists t. split; [done|]. split; [done|].
  assert (Hother : ∀ r w, rows !! r = Some w → newest rows w → r ≠ a → r ≠ b →
    index (r_owner w) ≠ index (r_owner wa) ∧ ¬ (linkedB ∧ index (r_owner w) = index (r_owner wb))).
  { intros r w Hw Hn Hra Hrb. split; [intros E; apply Hra; by eapply newest_same|].
    intros [Hnb%Hlb E]. apply Hrb. by eapply newest_same. }
  split.
  - intros r w Hw Hn. rewrite newest_swapped in Hn by done. rewrite He. rewrite swapped_lookup in Hw by done.
    destruct (decide (r = b)) as [->|Hrb]; [|destruct (decide (r = a)) as [->|Hra]].
    + injection Hw as <-. rewrite decide_False; [by rewrite decide_True|]. intros [Hnb%Hlb E]. apply Hab. by eapply newest_same.
    + injection Hw as <-. rewrite decide_True; [done|]. split; [by apply Hlb|done].
    + destruct (Hother r w Hw Hn Hra Hrb) as [H1 H2]. rewrite !decide_False by done. by apply Hl1.
  - intros i. rewrite He. setoid_rewrite (newest_swapped _ _ _ _ _ Ha Hb). setoid_rewrite swapped_lookup; [|done..].
    destruct (decide (linkedB ∧ i = index (r_owner wb))) as [[Hnb%Hlb ->]|Hib].
    + intros _. exists a, wb. by rewrite decide_False, decide_True.
    + destruct (decide (i = index (r_owner wa))) as [->|Hia].
      * intros _. exists b, wa. by rewrite decide_True.
      * intros Hi. destruct (Hl2 i Hi) as (r & w & Hw & Ei & Hn). exists r, w.
        rewrite !decide_False; [done| |]; intros ->; [by rewrite Ha in Hw; simplify_eq|].
        rewrite Hb in Hw. injection Hw as <-. apply Hib. split; [by apply Hlb|done].
  - intros r w Hw. rewrite (swapped_at _ _ _ _ _ Ha Hb) in Hw. rewrite He. pose proof (Hl3 _ w Hw) as Hnz.
    destruct (decide _); [lia|]. destruct (decide _); [lia|done].
Qed.

(** Exchanging two places of an array. *)
Lemma array_swap {A} `{Zero A} (ar : Array A) l a b x y :
  array_repr ar l → l !! a = Some x → l !! b = Some y →
  ∃ ar1 ar2, ASet ar a y = Some ar1 ∧ ASet ar1 b x = Some ar2 ∧ array_repr ar2 (swapped l a b x y).
Proof using Type.
  intros Hr Ha Hb. destruct (array_set_repr ar l a y Hr) as (ar1 & E1 & Hr1); [by eapply lookup_lt_Some|].
  destruct (array_set_repr ar1 _ b x Hr1) as (ar2 & E2 & Hr2); [rewrite length_insert; by eapply lookup_lt_Some|].
  by exists ar1, ar2.
Qed.

(** And of the chunks. *)
Lemma chunk_swap size (chunks : list (list V)) a b x y :
  chunks_ok chunks →
  chunk_read size chunks a = Some x → chunk_read size chunks b = Some y →
  ∃ c1 c2, chunk_write size chunks a y = Some c1 ∧ chunk_write size c1 b x = Some c2 ∧ chunks_ok c2 ∧
    length c2 = length chunks ∧
    ∀ j, chunk_read size c2 j = if decide (j = b) then Some x else if decide (j = a) then Some y else chunk_read size chunks j.
Proof using Type.
  intros Hc Ha Hb.
  assert (Ht : size = false → x = zero_value ∧ y = zero_value).
  { intros ->. unfold chunk_read in Ha, Hb. cbn in Ha, Hb. split; congruence. }
  destruct (chunk_write_spec size chunks a y Hc) as (c1 & E1 & Hc1 & Hl1 & Hr1); [intros E; by apply Ht|by eexists|].
  destruct (chunk_write_spec size c1 b x Hc1) as (c2 & E2 & Hc2 & Hl2 & Hr2); [intros E; by apply Ht| |].
  { rewrite Hr1. destruct (decide _); by eexists. }
  exists c1, c2. split_and!; [done|done|done|congruence|]. intros j. by rewrite Hr2, Hr1.
Qed.

Lemma swapped_values {A} (read : nat → option A) (f : rowData V → A) rows a b wa wb :
  a < length rows → b < length rows →
  (∀ r w, rows !! r = Some w → read r = Some (f w)) →
  ∀ r w, swapped rows a b wa wb !! r = Some w →
    (if decide (r = b) then Some (f wa) else if decide (r = a) then Some (f wb) else read r) = Some (f w).
Proof using Type.
  intros La Lb Hr r w. rewrite swapped_lookup by done.
  destruct (decide (r = b)); [by intros [= ->]|]. destruct (decide (r = a)); [by intros [= ->]|]. apply Hr.
Qed.

(** A newest row of an observed store is exchanged with another, links and
    all. *)
Lemma swap_repr s rows a b wa wb :
  store_repr s rows → observation s = observed → rows !! a = Some wa → rows !! b = Some wb → newest rows wa →
  ∃ s', swap s a b = Some s' ∧ store_repr s' (swapped rows a b wa wb) ∧
    liveRows s' = liveRows s ∧ observation s' = observed ∧ changedEntities s' = changedEntities s ∧
    changedEntitiesOverflowed s' = changedEntitiesOverflowed s.
Proof using Type.
  intros R Ho Ha Hb Hna. pose proof (lookup_lt_Some _ _ _ Ha) as La. pose proof (lookup_lt_Some _ _ _ Hb) as Lb.
  unfold swap. destruct (decide (a = b)) as [->|Hab].
  { assert (wa = wb) as <- by congruence. exists s. split; [done|]. split; [|done].
    unfold swapped. rewrite list_insert_insert_eq. by rewrite list_insert_id. }
  rewrite (owner_at s rows a wa R Ha), (owner_at s rows b wb R Hb). cbn [mbind option_bind].
  rewrite (slot_at s rows b wb R Hb). cbn [mbind option_bind].
  destruct (swap_links s rows a b wa wb R Hab Ha Hb Hna) as (t & Elinks & Hpages & Hlinks).
  destruct (set_link s (index (r_owner wa)) (link_to b)) as [s1|]; [|done]. cbn [mbind option_bind] in Elinks |- *.
  rewrite Elinks. cbn [mbind option_bind].
  pose proof R as [Hown Hp Hl Hd Hbd [Hc1 Hc2] Hv Hlive Hob Hq]. destruct (Hob Ho) as (Hst & Hlen & Hsh).
  destruct (array_swap (owners s) _ a b (r_owner wa) (r_owner wb) Hown) as (o1 & o2 & Eo1 & Eo2 & Hown2);
    [by rewrite list_lookup_fmap, ?Ha|by rewrite list_lookup_fmap, ?Hb|].
  destruct (array_swap (rowStates s) _ a b (r_state wa) (r_state wb) Hst) as (st1 & st2 & Est1 & Est2 & Hst2);
    [by rewrite list_lookup_fmap, ?Ha|by rewrite list_lookup_fmap, ?Hb|].
  destruct (chunk_swap (sized s) (valueChunks s) a b (r_value wa) (r_value wb) Hc1) as (v1 & v2 & Ev1 & Ev2 & Hv2 & Lv2 & Rv2);
    [by apply Hv|by apply Hv|].
  destruct (chunk_swap (sized s) (shadowChunks s) a b (r_shadow wa) (r_shadow wb) Hc2) as (h1 & h2 & Eh1 & Eh2 & Hh2 & Lh2 & Rh2);
    [by apply Hsh|by apply Hsh|].
  unfold set_owner, set_state, value_set, shadow_set, value_at, shadow_at.
  store_cbn. rewrite Eo1. store_cbn. rewrite Eo2. store_cbn.
  rewrite (state_at s rows a wa R Ho Ha), (state_at s rows b wb R Ho Hb). store_cbn.
  rewrite Est1. store_cbn. rewrite Est2. store_cbn.
  rewrite (Hv _ _ Ha : chunk_read _ _ _ = _), (Hv _ _ Hb : chunk_read _ _ _ = _). store_cbn.
  rewrite Ev1. store_cbn. rewrite Ev2. store_cbn.
  rewrite (Hsh _ _ Ha : chunk_read _ _ _ = _), (Hsh _ _ Hb : chunk_read _ _ _ = _). store_cbn.
  rewrite Eh1. store_cbn. rewrite Eh2. store_cbn.
  eexists. split; [done|]. split; [|done].
  split; store_cbn; rewrite ?fmap_swapped, ?length_swapped; try done.
  - by apply distinct_swapped.
  - intros r w Hw. unfold value_at. cbn. rewrite Rv2. by apply (swapped_values _ _ rows a b wa wb).
  - intros _. split_and!; [done|congruence|]. intros r w Hw. unfold shadow_at. cbn. rewrite Rh2.
    by apply (swapped_values _ _ rows a b wa wb).
Qed.

Lemma repr_listing s rows x y : store_repr s rows → store_repr (with_listing s x y) rows.
Proof using Type. intros [Hown Hp Hl Hd Hb Hc Hv Hlive Hob Hq]. by split. Qed.

Lemma repr_live s rows n : store_repr s rows → observation s = observed → n ≤ length rows → store_repr (with_live s n) rows.
Proof using Type. intros [Hown Hp Hl Hd Hb Hc Hv Hlive Hob Hq] Ho Hn. split; try done. Qed.

Lemma repr_listChanged s rows e : store_repr s rows → store_repr (listChanged s e) rows.
Proof using Type. intros R. unfold listChanged. destruct (decide _); by apply repr_listing. Qed.

(** ** Appending a row *)

(** Every row of [e]'s index is of an entity before [e]. *)
Definition newer rows (e : Entity) : Prop := ∀ r w, rows !! r = Some w → index (r_owner w) = index e → (r_owner w < e)%N.

Lemma newer_distinct rows w : newer rows (r_owner w) → owners_distinct rows → owners_distinct (rows ++ [w]).
Proof using Type.
  intros Hnew Hd i j wi wj Hi Hj E.
  assert (Hno : ∀ k x, rows !! k = Some x → r_owner x ≠ r_owner w).
  { intros k x Hx Ex. pose proof (Hnew k x Hx ltac:(by rewrite Ex)). lia. }
  apply lookup_app_Some in Hi as [Hi|[Li Hi]], Hj as [Hj|[Lj Hj]]; [by eapply Hd| | |];
    repeat match goal with H : [w] !! _ = Some _ |- _ => apply list_lookup_singleton_Some in H as [? <-] end; [| |lia].
  - by destruct (Hno i wi Hi).
  - by destruct (Hno j wj Hj).
Qed.

Lemma newer_newest rows w : newer rows (r_owner w) → newest (rows ++ [w]) w.
Proof using Type.
  intros Hnew r x [Hx|[_ Hx]]%lookup_app_Some Ei; [pose proof (Hnew r x Hx Ei); lia|].
  apply list_lookup_singleton_Some in Hx as [_ <-]. lia.
Qed.

Lemma links_snoc (lk lk' : N → N) rows w :
  links_ok lk rows → newer rows (r_owner w) →
  (∀ j, lk' j = if decide (j = index (r_owner w)) then (N.of_nat (length rows) + 1)%N else lk j) →
  links_ok lk' (rows ++ [w]).
Proof using Type.
  intros [H1 H2 H3] Hnew E. assert (Hw : (rows ++ [w]) !! length rows = Some w) by (by rewrite lookup_app_r, Nat.sub_diag). split.
  - intros r w' Hw' Hn. rewrite E. apply lookup_app_Some in Hw' as [Hw'|[Hr Hw']].
    + rewrite decide_False; [apply H1; [done|]|].
      * intros r2 w2 Hw2. apply (Hn r2). by apply lookup_app_l_Some.
      * intros Ei. pose proof (Hnew r w' Hw' Ei). pose proof (Hn _ _ Hw (eq_sym Ei)). lia.
    + apply list_lookup_singleton_Some in Hw' as [Er <-]. rewrite decide_True by done. f_equal. lia.
  - intros i. rewrite E. destruct (decide (i = index (r_owner w))) as [->|Hne].
    + intros _. exists (length rows), w. split_and!; [done|done|by apply newer_newest].
    + intros Hi. destruct (H2 i Hi) as (r & w' & Hw' & Ei & Hn). exists r, w'. split_and!; [by apply lookup_app_l_Some|done|].
      intros r2 w2 [Hw2|[_ Hw2]]%lookup_app_Some Ei2; [by apply (Hn r2)|].
      apply list_lookup_singleton_Some in Hw2 as [_ <-]. congruence.
  - intros r w' Hw'. rewrite E. destruct (decide _); [lia|]. apply lookup_app_Some in Hw' as [Hw'|[Hr Hw']]; [by eapply H3|].
    by apply list_lookup_singleton_Some in Hw' as [_ <-].
Qed.

(** The chunks have room for a row more, once one is added where they are full. *)
Definition grown (s : storeResource V) rows (chunks : list (list V)) : list (list V) :=
  if sized s && bool_decide (length rows / rowsPerChunk = length (valueChunks s)) then chunks ++ [newChunk] else chunks.

Lemma grown_ok s rows (chunks : list (list V)) (f : rowData V → V) :
  store_repr s rows → chunks_ok chunks → length chunks = length (valueChunks s) →
  (∀ r w, rows !! r = Some w → chunk_read (sized s) chunks r = Some (f w)) →
  chunks_ok (grown s rows chunks) ∧ length (grown s rows chunks) = length (grown s rows (valueChunks s)) ∧
  is_Some (chunk_read (sized s) (grown s rows chunks) (length rows)) ∧
  ∀ r w, rows !! r = Some w → chunk_read (sized s) (grown s rows chunks) r = Some (f w).
Proof using Type.
  intros R Hc Hlen Hread.
  assert (Hok : chunks_ok (grown s rows chunks)).
  { unfold grown. destruct (_ && _); [|done]. apply Forall_app. split; [done|]. constructor; [apply newChunk_ok|constructor]. }
  split_and!; [done| | |].
  - unfold grown. destruct (_ && _); [rewrite !length_app|]; congruence.
  - apply chunk_read_lt; [done|]. unfold grown. destruct (sized s) eqn:Es; cbn [andb]; [right|by left].
    assert (Hcap : length rows ≤ length chunks * rowsPerChunk).
    { destruct (decide (length rows = 0)) as [->|Hn]; [lia|].
      destruct (lookup_lt_is_Some_2 rows (length rows - 1)) as [w Hw]; [lia|].
      destruct (proj1 (chunk_read_lt true chunks (length rows - 1) Hc)) as [?|?]; [eexists; by apply Hread|done|lia]. }
    case_bool_decide as E.
    + rewrite length_app. unfold rowsPerChunk in *. cbn [length]. lia.
    + rewrite <- Hlen in E. destruct (decide (length rows = length chunks * rowsPerChunk)) as [E'|]; [|lia].
      destruct E. rewrite E'. apply Nat.div_mul. unfold rowsPerChunk. lia.
  - intros r w Hw. unfold grown. destruct (_ && _); [apply chunk_read_app|]; by apply Hread.
Qed.

(** What [add_row] does up to the exchange with the tail. *)
Definition appended s (e : Entity) : option (storeResource V * nat) :=
  '(a, row) ← AAppend (owners s) e;
  let s := with_owners s a in
  let grows := sized s && bool_decide (row / rowsPerChunk = length (valueChunks s)) in
  let s := if grows then with_values s (valueChunks s ++ [newChunk]) else s in
  let s := if grows && bool_decide (observation s = observed)
    then with_shadows s (shadowChunks s ++ [newChunk]) else s in
  t ← create_modify (rowByIndex s) (index e) (λ _, link_to row);
  Some (with_links s t, row).

Lemma add_row_appended s e :
  add_row s e =
  '(s1, row) ← appended s e;
  s2 ← (if bool_decide (observation s1 = observed) then
    '(st, _) ← AAppend (rowStates s1) rowAdded;
    swap (listChanged (with_states s1 st) e) row (liveRows s1)
  else Some s1);
  Some (with_live s2 (S (liveRows s2)), liveRows s2).
Proof using Type.
  unfold add_row, appended. destruct (AAppend (owners s) e) as [[a row]|]; [|done]. cbn [mbind option_bind].
  by destruct (create_modify _ _ _).
Qed.

Lemma appended_spec s rows e :
  store_repr s rows → (N.of_nat (length rows) + 1 < 2 ^ 32)%N → newer rows e →
  ∃ o t, appended s e = Some (mkStore (sized s) t o (grown s rows (valueChunks s)) (liveRows s) (observation s)
      (if bool_decide (observation s = observed) then grown s rows (shadowChunks s) else shadowChunks s)
      (rowStates s) (changedEntities s) (changedEntitiesOverflowed s), length rows) ∧
    array_repr o (r_owner <$> rows ++ [mkRow e zero_value zero_value rowAdded]) ∧ pages_ok t ∧
    ∀ v sh st, links_ok (entry t) (rows ++ [mkRow e v sh st]).
Proof using Type.
  intros R Hb Hnew. destruct (array_append_repr _ _ e (sr_owners _ _ R)) as (o & Eo & Ho).
  destruct (create_modify_spec (rowByIndex s) (index e) (λ _, link_to (length rows)) (sr_pages _ _ R))
    as (t & Et & Hok & _ & He & _).
  exists o, t. unfold appended. rewrite Eo, length_fmap. cbn [mbind option_bind].
  split_and!; [|by rewrite fmap_app|done|].
  - unfold grown. store_cbn. destruct (sized s) eqn:Es; cbn [andb]; repeat (case_bool_decide; cbn [andb]; store_cbn);
      rewrite Et; unfold with_links, with_shadows, with_values, with_owners; store_cbn; congruence.
  - intros v sh st. apply (links_snoc (entry (rowByIndex s))); [apply R|done|].
    intros j. rewrite He. rewrite link_to_value by lia. by destruct (decide _).
Qed.

Lemma add_row_unobserved s rows e :
  store_repr s rows → observation s ≠ observed → (N.of_nat (length rows) + 1 < 2 ^ 32)%N →
  newer rows e →
  ∃ s' v, add_row s e = Some (s', length rows) ∧ store_repr s' (rows ++ [mkRow e v zero_value rowAdded]) ∧
    liveRows s' = S (liveRows s) ∧ observation s' = observation s ∧ sized s' = sized s ∧
    changedEntities s' = changedEntities s ∧ changedEntitiesOverflowed s' = changedEntitiesOverflowed s.
Proof using Type.
  intros R Ho Hb Hnew. destruct (appended_spec s rows e R Hb Hnew) as (o & t & E & Hown & Hok & Hlinks).
  rewrite add_row_appended, E. store_cbn. rewrite (bool_decide_eq_false_2 (observation s = observed)) by done. store_cbn.
  destruct (sr_quiet _ _ R Ho) as (Hst & Hsh & Hlive).
  destruct (grown_ok s rows (valueChunks s) r_value R) as (Hg1 & _ & [v Hv] & Hg4);
    [apply R|done|intros r w; apply R|].
  eexists _, v. split; [by rewrite <- Hlive|]. split; [|done].
  split; store_cbn; rewrite ?length_app; cbn [length].
  - rewrite fmap_app in *. done.
  - done.
  - apply Hlinks.
  - apply newer_distinct; [done|apply R].
  - lia.
  - rewrite Hsh. split; [done|constructor].
  - intros r w. unfold value_at. store_cbn. intros Hw. apply lookup_app_Some in Hw as [Hw|[Hr Hw]]; [by apply Hg4|].
    apply list_lookup_singleton_Some in Hw as [Er <-]. replace r with (length rows) by lia. done.
  - lia.
  - done.
  - intros _. split_and!; [done|done|lia].
Qed.

Lemma appended_observed s rows e :
  store_repr s rows → observation s = observed → (N.of_nat (length rows) + 1 < 2 ^ 32)%N →
  newer rows e →
  ∃ s1 st v sh, appended s e = Some (s1, length rows) ∧ AAppend (rowStates s1) rowAdded = Some (st, length rows) ∧
    store_repr (with_states s1 st) (rows ++ [mkRow e v sh rowAdded]) ∧
    liveRows s1 = liveRows s ∧ observation s1 = observed ∧ sized s1 = sized s ∧
    changedEntities s1 = changedEntities s ∧ changedEntitiesOverflowed s1 = changedEntitiesOverflowed s.
Proof using Type.
  intros R Ho Hb Hnew. destruct (appended_spec s rows e R Hb Hnew) as (o & t & E & Hown & Hok & Hlinks).
  destruct (sr_observed _ _ R Ho) as (Hst & Hlen & Hsh). rewrite E, bool_decide_eq_true_2 by done.
  destruct (array_append_repr _ _ rowAdded Hst) as (st & Est & Hst'). rewrite length_fmap in Est.
  destruct (grown_ok s rows (valueChunks s) r_value R) as (Hg1 & _ & [v Hv] & Hg4);
    [apply R|done|intros r w; apply R|].
  destruct (grown_ok s rows (shadowChunks s) r_shadow R) as (Hh1 & Hh2 & [sh Hs] & Hh4); [apply R|done|done|].
  eexists _, st, v, sh. split; [done|]. store_cbn. split; [done|]. split; [|done].
  split; store_cbn; rewrite ?length_app; cbn [length].
  - rewrite fmap_app in *. done.
  - done.
  - apply Hlinks.
  - apply newer_distinct; [done|apply R].
  - lia.
  - done.
  - intros r w. unfold value_at. store_cbn. intros Hw. apply lookup_app_Some in Hw as [Hw|[Hr Hw]]; [by apply Hg4|].
    apply list_lookup_singleton_Some in Hw as [Er <-]. replace r with (length rows) by lia. done.
  - pose proof (sr_live _ _ R). lia.
  - intros _. rewrite fmap_app. split_and!; [done|done|].
    intros r w. unfold shadow_at. store_cbn. intros Hw. apply lookup_app_Some in Hw as [Hw|[Hr Hw]]; [by apply Hh4|].
    apply list_lookup_singleton_Some in Hw as [Er <-]. replace r with (length rows) by lia. done.
  - congruence.
Qed.

Lemma listChanged_fields s e :
  liveRows (listChanged s e) = liveRows s ∧ observation (listChanged s e) = observation s ∧ sized (listChanged s e) = sized s.
Proof using Type. unfold listChanged. by destruct (decide _). Qed.

(** The listing [listChanged] leaves. *)
Definition listed (live : nat) (changed : list Entity) (overflowed : bool) (e : Entity) : list Entity * bool :=
  if decide (length changed < N.to_nat (N.shiftr (N.of_nat live) 3)) then (changed ++ [e], overflowed) else (changed, true).

Definition listing s : list Entity * bool := (changedEntities s, changedEntitiesOverflowed s).

Lemma listChanged_listing s e : listing (listChanged s e) = listed (liveRows s) (changedEntities s) (changedEntitiesOverflowed s) e.
Proof using Type. unfold listChanged, listed, listing. by destruct (decide _). Qed.

Lemma add_row_observed s rows e :
  store_repr s rows → observation s = observed → (N.of_nat (length rows) + 1 < 2 ^ 32)%N →
  newer rows e →
  ∃ s' w w', r_owner w = e ∧ r_state w = rowAdded ∧ (rows ++ [w]) !! liveRows s = Some w' ∧
    add_row s e = Some (s', liveRows s) ∧ store_repr s' (swapped (rows ++ [w]) (length rows) (liveRows s) w w') ∧
    liveRows s' = S (liveRows s) ∧ observation s' = observed ∧
    listing s' = listed (liveRows s) (changedEntities s) (changedEntitiesOverflowed s) e.
Proof using Type.
  intros R Ho Hb Hnew.
  destruct (appended_observed s rows e R Ho Hb Hnew) as (s1 & st & v & sh & E & Est & R1 & Hl1 & Ho1 & Hz1 & Hc1 & Hf1).
  set (w := mkRow e v sh rowAdded) in *.
  destruct (lookup_lt_is_Some_2 (rows ++ [w]) (liveRows s)) as [w' Hw'].
  { rewrite length_app. pose proof (sr_live _ _ R). simpl. lia. }
  assert (Hw : (rows ++ [w]) !! length rows = Some w) by (by rewrite lookup_app_r, Nat.sub_diag).
  destruct (listChanged_fields (with_states s1 st) e) as (Fl & Fo & _). cbn in Fl, Fo.
  destruct (swap_repr (listChanged (with_states s1 st) e) (rows ++ [w]) (length rows) (liveRows s) w w')
    as (s2 & E2 & R2 & Hl2 & Ho2 & Hc2 & Hf2); [by apply repr_listChanged|congruence|done|done|by apply newer_newest|].
  exists (with_live s2 (S (liveRows s2))), w, w'.
  rewrite add_row_appended, E. store_cbn. rewrite Ho1, bool_decide_eq_true_2 by done. rewrite Est. store_cbn.
  rewrite Hl1, E2. store_cbn. rewrite Hl2, Fl, Hl1. split_and!; try done.
  - apply repr_live; [done|done|]. rewrite length_swapped, length_app. pose proof (sr_live _ _ R). simpl. lia.
  - unfold listing. store_cbn. rewrite Hc2, Hf2. pose proof (listChanged_listing (with_states s1 st) e) as El.
    unfold listing in El. rewrite El. cbn. by rewrite Hl1, Hc1, Hf1.
Qed.

(** ** Removing *)

Definition removed_state (x : rowState) : rowState := if decide (x = rowAdded) then rowDiscarded else rowRemoved.

Lemma remove_observed s rows r w wl :
  store_repr s rows → observation s = observed → r < liveRows s → rows !! r = Some w → newest rows w →
  rows !! (liveRows s - 1) = Some wl →
  ∃ s', remove s (r_owner w) r = Some s' ∧
    store_repr s' (<[liveRows s - 1 := row_state w (removed_state (r_state w))]> (swapped rows r (liveRows s - 1) w wl)) ∧
    liveRows s' = liveRows s - 1 ∧ observation s' = observed ∧
    listing s' = if decide (r_state w = rowUnchanged)
      then listed (liveRows s - 1) (changedEntities s) (changedEntitiesOverflowed s) (r_owner w) else listing s.
Proof using Type.
  intros R Ho Hlt Hw Hnw Hwl. pose proof (sr_live _ _ R) as Hlive. set (last := liveRows s - 1) in *.
  unfold remove. rewrite decide_False by lia. store_cbn. rewrite bool_decide_eq_true_2 by done.
  destruct (swap_repr (with_live s last) rows r last w wl) as (s1 & E1 & R1 & L1 & O1 & C1 & F1);
    [apply repr_live; [done|done|lia]|done|done|done|done|].
  fold last. rewrite E1. store_cbn.
  assert (Hlast : swapped rows r last w wl !! last = Some w).
  { rewrite swapped_lookup; [by rewrite decide_True|by eapply lookup_lt_Some..]. }
  rewrite (state_at s1 _ last w R1 O1 Hlast). store_cbn.
  assert (Hset : ∀ s2 x, store_repr s2 (swapped rows r last w wl) → observation s2 = observed →
    ∃ a, set_state s2 last x = Some (with_states s2 a) ∧ store_repr (with_states s2 a) (<[last:=row_state w x]> (swapped rows r last w wl))).
  { intros s2 x R2 O2. by apply set_state_repr. }
  cbn [liveRows with_live changedEntities changedEntitiesOverflowed] in L1, C1, F1.
  unfold removed_state, listing. destruct (r_state w) eqn:Est.
  - destruct (listChanged_fields s1 (r_owner w)) as (Fl & Fo & _).
    destruct (Hset (listChanged s1 (r_owner w)) rowRemoved) as (a & -> & R2); [by apply repr_listChanged|congruence|].
    eexists. split; [done|]. split_and!; [done|store_cbn; congruence|store_cbn; congruence|].
    pose proof (listChanged_listing s1 (r_owner w)) as El. unfold listing in El. store_cbn. rewrite El.
    rewrite L1, C1, F1. done.
  - destruct (Hset s1 rowRemoved R1 O1) as (a & -> & R2). eexists. split; [done|].
    split_and!; [done|done|done|]. store_cbn. by rewrite C1, F1.
  - destruct (Hset s1 rowDiscarded R1 O1) as (a & -> & R2). eexists. split; [done|].
    split_and!; [done|done|done|]. store_cbn. by rewrite C1, F1.
  - destruct (Hset s1 rowRemoved R1 O1) as (a & -> & R2). eexists. split; [done|].
    split_and!; [done|done|done|]. store_cbn. by rewrite C1, F1.
  - destruct (Hset s1 rowRemoved R1 O1) as (a & -> & R2). eexists. split; [done|].
    split_and!; [done|done|done|]. store_cbn. by rewrite C1, F1.
Qed.

(** No two rows share an index. *)
Definition indexes_distinct rows : Prop :=
  ∀ i j wi wj, rows !! i = Some wi → rows !! j = Some wj → index (r_owner wi) = index (r_owner wj) → i = j.

Lemma indexes_newest rows r w : indexes_distinct rows → rows !! r = Some w → newest rows w.
Proof using Type. intros Hd Hw r' w' Hw' E. rewrite (Hd r' r w' w Hw' Hw E) in Hw'. assert (w' = w) as -> by congruence. done. Qed.

Lemma indexes_owners rows : indexes_distinct rows → owners_distinct rows.
Proof using Type. intros Hd i j wi wj Hi Hj E. apply (Hd i j wi wj Hi Hj). by rewrite E. Qed.

(** The rows once one is dropped and the last takes its place. *)
Definition swap_removed (l : list (rowData V)) wl r : list (rowData V) := take (length l) (<[r:=wl]> (l ++ [wl])).

Lemma swap_removed_lookup l wl r j :
  r < length (l ++ [wl]) →
  swap_removed l wl r !! j = if decide (j < length l) then (if decide (j = r) then Some wl else (l ++ [wl]) !! j) else None.
Proof using Type.
  intros Hr. unfold swap_removed. rewrite lookup_take. destruct (decide (j < length l)); [|done].
  rewrite lookup_insert_decide by done. destruct (decide (r = j)), (decide (j = r)); congruence.
Qed.

Lemma length_swap_removed l wl r : length (swap_removed l wl r) = length l.
Proof using Type. unfold swap_removed. rewrite length_take, length_insert, length_app. simpl. lia. Qed.

Lemma swap_removed_distinct l wl r : r < length (l ++ [wl]) → indexes_distinct (l ++ [wl]) → indexes_distinct (swap_removed l wl r).
Proof using Type.
  intros Hr Hd i j wi wj. rewrite !swap_removed_lookup by done.
  assert (Hlast : (l ++ [wl]) !! length l = Some wl) by (by rewrite lookup_app_r, Nat.sub_diag).
  repeat (destruct (decide _); try done); subst; intros Hi Hj E; simplify_eq; try done.
  - pose proof (Hd _ _ _ _ Hlast Hj E). lia.
  - pose proof (Hd _ _ _ _ Hi Hlast E). lia.
  - exact (Hd _ _ _ _ Hi Hj E).
Qed.

(** Its links. *)
Lemma links_swap_remove (lk lk' : N → N) l wl r w :
  links_ok lk (l ++ [wl]) → indexes_distinct (l ++ [wl]) → (l ++ [wl]) !! r = Some w →
  (∀ j, lk' j = if decide (j = index (r_owner w)) then 0%N
    else if decide (j = index (r_owner wl)) then (N.of_nat r + 1)%N else lk j) →
  links_ok lk' (swap_removed l wl r).
Proof using Type.
  intros [H1 H2 H3] Hdist Hw E. pose proof (lookup_lt_Some _ _ _ Hw) as Hr. pose proof Hr as Hlt.
  rewrite length_app in Hlt. simpl in Hlt.
  assert (Hlast : (l ++ [wl]) !! length l = Some wl) by (by rewrite lookup_app_r, Nat.sub_diag).
  assert (Hrow : ∀ j wj, swap_removed l wl r !! j = Some wj → lk' (index (r_owner wj)) = (N.of_nat j + 1)%N).
  { intros j wj. rewrite swap_removed_lookup, E by done. destruct (decide (j < length l)) as [Hj|]; [|done].
    destruct (decide (j = r)) as [->|Hjr].
    - intros [= <-]. rewrite decide_False; [by rewrite decide_True|]. intros Ei.
      assert (length l = r) by (by eapply Hdist). lia.
    - intros Hwj. rewrite decide_False; [|intros Ei; apply Hjr; by eapply Hdist].
      rewrite decide_False; [apply H1; [done|by eapply indexes_newest]|].
      intros Ei. assert (j = length l) by (by eapply Hdist). lia. }
  split; [by intros j wj Hj _; apply Hrow| |by intros j wj Hj; rewrite (Hrow j wj Hj); lia].
  intros i. rewrite E. destruct (decide (i = index (r_owner w))) as [|Hi]; [done|]. intros Hlk.
  assert (Hsome : ∃ j wj, swap_removed l wl r !! j = Some wj ∧ index (r_owner wj) = i).
  { setoid_rewrite swap_removed_lookup; [|done]. destruct (decide (i = index (r_owner wl))) as [->|Hil].
    - assert (r < length l).
      { destruct (decide (r = length l)) as [->|]; [|lia]. rewrite Hlast in Hw. congruence. }
      exists r, wl. by rewrite decide_True, decide_True.
    - destruct (H2 i Hlk) as (j & wj & Hj & Ej & _).
      assert (j ≠ r) by (intros ->; congruence). assert (j ≠ length l) by (intros ->; congruence).
      pose proof (lookup_lt_Some _ _ _ Hj) as Hjl. rewrite length_app in Hjl. simpl in Hjl.
      exists j, wj. rewrite decide_True by lia. by rewrite decide_False. }
  destruct Hsome as (j & wj & Hj & Ej). exists j, wj. split_and!; [done|done|].
  eapply indexes_newest; [by apply swap_removed_distinct|done].
Qed.

Lemma remove_unobserved s l wl r w :
  store_repr s (l ++ [wl]) → observation s ≠ observed → indexes_distinct (l ++ [wl]) → (l ++ [wl]) !! r = Some w →
  ∃ s', remove s (r_owner w) r = Some s' ∧ store_repr s' (swap_removed l wl r) ∧
    liveRows s' = length l ∧ observation s' = observation s ∧ listing s' = listing s.
Proof using Type.
  intros R Ho Hd Hw. pose proof (lookup_lt_Some _ _ _ Hw) as Hlt. pose proof Hlt as Hr0. rewrite length_app in Hlt. simpl in Hlt.
  destruct (sr_quiet _ _ R Ho) as (Hst & Hsh & Hlive). rewrite length_app in Hlive. simpl in Hlive.
  unfold remove. rewrite decide_False by lia. replace (liveRows s - 1) with (length l) by lia. store_cbn.
  rewrite (bool_decide_eq_false_2 (observation s = observed)) by done. store_cbn.
  pose proof (sr_owners _ _ R) as Hown. rewrite fmap_app in Hown. cbn [fmap list_fmap] in Hown.
  destruct (array_swap_remove_repr (owners s) _ r (r_owner wl) Hown) as (o & Eo & Ho'); [rewrite length_fmap; lia|].
  rewrite length_fmap in Eo, Ho'. rewrite Eo. store_cbn.
  assert (Hlast : (l ++ [wl]) !! length l = Some wl) by (by rewrite lookup_app_r, Nat.sub_diag).
  assert (Hown' : array_repr o (r_owner <$> take (length l) (<[r:=wl]> (l ++ [wl])))).
  { by rewrite fmap_take, list_fmap_insert, fmap_app. }
  set (s1 := with_owners (with_live s (length l)) o).
  (* the moved row's link and value, when a row moves *)
  assert (Hmove : ∃ t c, (if decide (r = length l) then Some s1 else
      moved ← AAt o r; s ← set_link s1 (index moved) (link_to r); v ← value_at s (length l); value_set s r v) =
      Some (with_values (with_links s1 t) c) ∧ pages_ok t ∧ (∀ j, is_Some (at_ (rowByIndex s) j) → is_Some (at_ t j)) ∧
      chunks_ok c ∧ (∀ j, entry t j = if decide (r ≠ length l ∧ j = index (r_owner wl)) then (N.of_nat r + 1)%N else entry (rowByIndex s) j) ∧
      (∀ j, j < length l → chunk_read (sized s) c j = if decide (j = r) then Some (r_value wl) else value_at s j)).
  { destruct (decide (r = length l)) as [->|Hne].
    - exists (rowByIndex s), (valueChunks s). split_and!; [by destruct s|apply R|done|apply R| |].
      + intros j. by rewrite decide_False by (by intros [? _]).
      + intros j Hj. rewrite decide_False by lia. done.
    - rewrite (array_read o (r_owner <$> take (length l) (<[r:=wl]> (l ++ [wl]))) r (r_owner wl) Hown').
      2:{ rewrite list_lookup_fmap, lookup_take_lt by lia. rewrite list_lookup_insert_eq; [done|]. rewrite length_app. simpl. lia. }
      store_cbn. destruct (set_link_spec s1 (index (r_owner wl)) (link_to r)) as (t & -> & Hok & Hk & He).
      { apply R. } { eexists. apply (slot_some s _ (length l) wl R); [done|by eapply indexes_newest]. }
      store_cbn. assert (Hv : value_at (with_links s1 t) (length l) = Some (r_value wl)) by (by apply R).
      rewrite Hv. store_cbn. unfold value_set.
      destruct (chunk_write_spec (sized s) (valueChunks s) r (r_value wl)) as (c & E & Hc & _ & Hr);
        [apply R|intros Es; apply (value_fits _ _ _ Hv Es)|eexists; by apply R|].
      cbn [sized valueChunks with_links s1 with_owners with_live]. rewrite E. store_cbn. exists t, c.
      split_and!; [done|done|exact Hk|done| |].
      + intros j. rewrite He. pose proof (sr_bound _ _ R) as Hb. rewrite length_app in Hb. simpl in Hb. rewrite link_to_value by lia.
        destruct (decide (j = _)), (decide (_ ∧ _)); try done; naive_solver.
      + intros j Hj. by rewrite Hr. }
  destruct Hmove as (t & c & -> & Hok & Hk & Hc & He & Hr). store_cbn.
  destruct (set_link_spec (with_values (with_links s1 t) c) (index (r_owner w)) 0 Hok) as (t' & -> & Hok' & _ & He').
  { apply Hk. eexists. apply (slot_some s _ r w R); [done|by eapply indexes_newest]. }
  cbn [rowByIndex with_values with_links] in He'.
  eexists. split; [done|]. split; [|done].
  subst s1. split; store_cbn; try done.
  - apply (links_swap_remove (entry (rowByIndex s)) _ l wl r w (sr_links _ _ R) Hd Hw).
    intros j. rewrite He', He. destruct (decide (j = index (r_owner w))) as [|Hj]; [done|].
    destruct (decide (j = index (r_owner wl))) as [->|Hj2].
    + rewrite decide_True; [done|]. split; [|done]. intros ->. rewrite Hlast in Hw. congruence.
    + by rewrite decide_False by (by intros [_ ?]).
  - by apply indexes_owners, swap_removed_distinct.
  - pose proof (sr_bound _ _ R) as Hb. rewrite length_app in Hb. rewrite length_swap_removed. simpl in *. lia.
  - split; [done|]. rewrite Hsh. constructor.
  - intros j wj Hj. unfold value_at. store_cbn. apply lookup_take_Some in Hj as [Hj Hjl]. rewrite Hr by done.
    rewrite lookup_insert_decide in Hj by (rewrite length_app; simpl; lia).
    destruct (decide (j = r)) as [->|Hne]; [rewrite decide_True in Hj by done; congruence|].
    rewrite decide_False in Hj by done. by apply R.
  - by rewrite length_swap_removed.
  - intros _. split_and!; [done|done|]. by rewrite length_swap_removed.
Qed.
End swap.
