(* ===== verification/StoreSpec.v ===== *)
(** * What a store promises its users and its observers

    To its users a store is a finite map from entities to values.  To its
    observers it is also the map as of the last observation reset, and the
    values the removed entities had: a delta is the difference of the two. *)

From S2P Require Import Prelude Words Entity Store StoreRepr StoreSwap.

Section spec.
Context {V : Type} `{Zero V} `{EqDecision V}.

Record storeSpec := mkStoreSpec {
  (** the values now *)
  st_live : gmap Entity V;
  (** the values as of the last reset *)
  st_base : gmap Entity V;
  (** the last values of the entities removed in this window *)
  st_gone : gmap Entity V
}.

Implicit Types (σ : storeSpec) (w : rowData V).

(** What happened to [e] in this window. *)
Definition spec_delta σ (e : Entity) : Delta :=
  match st_base σ !! e, st_live σ !! e with
  | None, Some _ => DeltaAdded
  | Some _, None => DeltaRemoved
  | Some v, Some v' => if decide (v' = v) then DeltaNone else DeltaChanged
  | None, None => DeltaNone
  end.

(** The entities a store has a row of. *)
Definition known σ (e : Entity) : Prop := is_Some (st_live σ !! e) ∨ is_Some (st_base σ !! e) ∨ is_Some (st_gone σ !! e).

(** An entity that may be given a value: the entities of its index are given
    values in the order of their generations, and one at a time. *)
Definition supersedes σ (e : Entity) : Prop :=
  ∀ e', known σ e' → index e' = index e → e' = e ∨ st_live σ !! e' = None ∧ (e' < e)%N.

(** What the store has a row of at [e]'s index is [e]. *)
Definition index_of_own σ (e : Entity) : Prop := ∀ e', known σ e' → index e' = index e → e' = e.

(** The entities a store has a row of differ in their indexes. *)
Definition indexes_apart σ : Prop := ∀ e e', known σ e → known σ e' → index e = index e' → e = e'.

Lemma own_supersedes σ e : index_of_own σ e → supersedes σ e.
Proof using Type. intros Hown e' Hk E. left. by apply Hown. Qed.

Definition sp_set σ (e : Entity) (v : V) : storeSpec := mkStoreSpec (<[e := v]> (st_live σ)) (st_base σ) (st_gone σ).
Definition sp_add σ (e : Entity) (v : V) : storeSpec :=
  mkStoreSpec (<[e := v]> (st_live σ)) (st_base σ) (delete e (st_gone σ)).
Definition sp_remove σ (obs : observationState) (e : Entity) (v : V) : storeSpec :=
  mkStoreSpec (delete e (st_live σ)) (st_base σ)
    (if decide (obs = observed) then <[e := v]> (st_gone σ) else st_gone σ).
Definition sp_reset σ : storeSpec := mkStoreSpec (st_live σ) (st_live σ) ∅.
Definition sp_start σ : storeSpec := mkStoreSpec (st_live σ) ∅ ∅.

(** ** The rows behind it *)

Definition live_state (x : rowState) : bool := match x with rowUnchanged | rowChanged | rowAdded => true | _ => false end.

(** A row whose shadow is a value as of the last reset. *)
Definition in_base (x : rowState) : bool := match x with rowUnchanged | rowChanged | rowRemoved => true | _ => false end.

(** [Lv] and [Tl] are the live rows and those of the tail, [lst] the listing
    of what changed. *)
Record rows_inv (Lv Tl : rowData V → Prop) (obs : observationState) (lst : list Entity * bool) σ : Prop := {
  ri_unique : ∀ w1 w2, Lv w1 ∨ Tl w1 → Lv w2 ∨ Tl w2 → r_owner w1 = r_owner w2 → w1 = w2;
  ri_newest : ∀ w1 w2, Lv w1 → Lv w2 ∨ Tl w2 → index (r_owner w2) = index (r_owner w1) → (r_owner w2 <= r_owner w1)%N;
  ri_alone : obs = observed → lst.2 = false → ∀ w1 w2, Lv w1 ∨ Tl w1 → Lv w2 ∨ Tl w2 → index (r_owner w1) = index (r_owner w2) → w1 = w2;
  ri_apart : ∀ w, Lv w → ¬ Tl w;
  ri_live : ∀ e v, st_live σ !! e = Some v ↔ ∃ w, Lv w ∧ r_owner w = e ∧ r_value w = v;
  ri_quiet : obs ≠ observed → st_base σ = ∅ ∧ st_gone σ = ∅ ∧ (∀ w, ¬ Tl w) ∧ lst = ([], false);
  ri_states : obs = observed → (∀ w, Lv w → live_state (r_state w) = true) ∧ (∀ w, Tl w → live_state (r_state w) = false);
  ri_base : obs = observed → ∀ e v, st_base σ !! e = Some v ↔
    ∃ w, (Lv w ∨ Tl w) ∧ in_base (r_state w) = true ∧ r_owner w = e ∧ r_shadow w = v;
  ri_same : obs = observed → ∀ w, Lv w → r_state w = rowUnchanged → r_value w = r_shadow w;
  ri_gone : obs = observed → ∀ e v, st_gone σ !! e = Some v ↔ ∃ w, Tl w ∧ r_owner w = e ∧ r_value w = v;
  ri_listing : obs = observed → lst.2 = false →
    NoDup lst.1 ∧ ∀ e, e ∈ lst.1 ↔ ∃ w, (Lv w ∨ Tl w) ∧ r_owner w = e ∧ r_state w ≠ rowUnchanged
}.

Lemma listed_spec n l o e l' o' :
  listed n l o e = (l', o') → o' = false → o = false ∧ l' = l ++ [e].
Proof using Type. unfold listed. destruct (decide _); intros [= <- <-]; naive_solver. Qed.

(** Live rows have different indexes. *)
Lemma ri_live_unique Lv Tl obs lst σ w1 w2 :
  rows_inv Lv Tl obs lst σ → Lv w1 → Lv w2 → index (r_owner w1) = index (r_owner w2) → w1 = w2.
Proof using Type.
  intros I H1 H2 E. apply (ri_unique _ _ _ _ _ I w1 w2); [by left..|].
  pose proof (ri_newest _ _ _ _ _ I w1 w2 H1 (or_introl H2) (eq_sym E)).
  pose proof (ri_newest _ _ _ _ _ I w2 w1 H2 (or_introl H1) E). lia.
Qed.

(** A listing that overflowed promises nothing. *)
Lemma inv_overflow Lv Tl lst lst' σ :
  rows_inv Lv Tl observed lst σ → lst'.2 = true → rows_inv Lv Tl observed lst' σ.
Proof using Type. intros [Hu Hnw Hal Ha Hl Hq Hs Hb Hsm Hg Hls] Ho. split; try done; intros _ Hf; congruence. Qed.

(** A row's entity has no value while the row is in the tail. *)
Lemma ri_dead Lv Tl obs lst σ w : rows_inv Lv Tl obs lst σ → Tl w → st_live σ !! r_owner w = None.
Proof using Type.
  intros I Hw. apply eq_None_not_Some. intros [v Hv]. apply (ri_live _ _ _ _ _ I) in Hv as (w' & Hw' & E & _).
  apply (ri_apart _ _ _ _ _ I w' Hw'). by rewrite (ri_unique _ _ _ _ _ I w' w (or_introl Hw') (or_intror Hw) E).
Qed.

(** ** Deltas *)

(** What the state of a row means. *)
Definition row_delta w : Delta :=
  match r_state w with
  | rowAdded => DeltaAdded
  | rowChanged => if decide (r_value w = r_shadow w) then DeltaNone else DeltaChanged
  | rowRemoved => DeltaRemoved
  | _ => DeltaNone
  end.

Lemma row_delta_spec Lv Tl lst σ w :
  rows_inv Lv Tl observed lst σ → Lv w ∨ Tl w → row_delta w = spec_delta σ (r_owner w).
Proof using Type.
  intros I Hw. unfold spec_delta, row_delta.
  assert (Hbase : st_base σ !! r_owner w = if in_base (r_state w) then Some (r_shadow w) else None).
  { destruct (in_base (r_state w)) eqn:Eb.
    - apply (ri_base _ _ _ _ _ I eq_refl). by exists w.
    - apply eq_None_not_Some. intros [v Hv]. apply (ri_base _ _ _ _ _ I eq_refl) in Hv as (w' & Hw' & Eb' & Eo & _).
      rewrite (ri_unique _ _ _ _ _ I w' w Hw' Hw Eo) in Eb'. congruence. }
  destruct (ri_states _ _ _ _ _ I eq_refl) as [HL HT]. rewrite Hbase. destruct Hw as [Hw|Hw].
  - assert (Hlive : st_live σ !! r_owner w = Some (r_value w)) by (apply (ri_live _ _ _ _ _ I); by exists w).
    rewrite Hlive. specialize (HL w Hw). destruct (r_state w) eqn:Es; try done. cbn.
    by rewrite (ri_same _ _ _ _ _ I eq_refl w Hw Es), decide_True.
  - rewrite (ri_dead _ _ _ _ _ _ I Hw). specialize (HT w Hw). by destruct (r_state w).
Qed.

(** An entity with a delta has a row, listed while the listing goes on. *)
Lemma delta_has_row Lv Tl lst σ e :
  rows_inv Lv Tl observed lst σ → spec_delta σ e ≠ DeltaNone →
  ∃ w, (Lv w ∨ Tl w) ∧ r_owner w = e ∧ (lst.2 = false → e ∈ lst.1).
Proof using Type.
  intros I Hd.
  assert (Hw : ∃ w, (Lv w ∨ Tl w) ∧ r_owner w = e).
  { unfold spec_delta in Hd. destruct (st_base σ !! e) as [v|] eqn:Eb.
    - apply (ri_base _ _ _ _ _ I eq_refl) in Eb as (w & Hw & _ & Eo & _). by exists w.
    - destruct (st_live σ !! e) as [v|] eqn:El; [|done]. apply (ri_live _ _ _ _ _ I) in El as (w & Hw & Eo & _).
      exists w. split; [by left|done]. }
  destruct Hw as (w & Hw & <-). exists w. split; [done|]. split; [done|]. intros Hl.
  destruct (ri_listing _ _ _ _ _ I eq_refl Hl) as [_ ->]. exists w. split; [done|]. split; [done|].
  intros Es. apply Hd. rewrite <- (row_delta_spec _ _ _ _ w I Hw). unfold row_delta. by rewrite Es.
Qed.

(** ** What happens to rows *)

(** Rows, live ones and those of the tail, up to what they are. *)
Lemma rows_inv_ext (Lv Tl Lv' Tl' : rowData V → Prop) obs lst σ :
  (∀ w, Lv' w ↔ Lv w) → (∀ w, Tl' w ↔ Tl w) → rows_inv Lv Tl obs lst σ → rows_inv Lv' Tl' obs lst σ.
Proof using Type.
  intros EL ET [Hu Hnw Hal Ha Hl Hq Hs Hb Hsm Hg Hls]. split.
  - intros w1 w2. rewrite !EL, !ET. apply Hu.
  - intros w1 w2. rewrite !EL, !ET. apply Hnw.
  - intros Ho Hf w1 w2. rewrite !EL, !ET. by apply Hal.
  - intros w. rewrite EL, ET. apply Ha.
  - intros e v. setoid_rewrite EL. apply Hl.
  - intros Ho. setoid_rewrite ET. by apply Hq.
  - intros Ho. setoid_rewrite EL. setoid_rewrite ET. by apply Hs.
  - intros Ho e v. setoid_rewrite EL. setoid_rewrite ET. by apply Hb.
  - intros Ho w. rewrite EL. by apply Hsm.
  - intros Ho e v. setoid_rewrite ET. by apply Hg.
  - intros Ho Hf. setoid_rewrite EL. setoid_rewrite ET. by apply Hls.
Qed.

(** A live row [w] becomes [w'], of the same owner: it was marked, written,
    or, at the reset, its shadow took its value. *)
Definition replaced (P : rowData V → Prop) w w' : rowData V → Prop := λ x, (P x ∧ r_owner x ≠ r_owner w) ∨ x = w'.

(** What the listing must do when [w] becomes [w']. *)
Definition listing_step (lst lst' : list Entity * bool) w w' : Prop :=
  lst'.2 = false → lst.2 = false ∧
  (lst'.1 = lst.1 ∧ (r_state w = rowUnchanged ↔ r_state w' = rowUnchanged) ∨
   lst'.1 = lst.1 ++ [r_owner w] ∧ r_state w = rowUnchanged ∧ r_state w' ≠ rowUnchanged).

Section replace.
Context (Lv Tl : rowData V → Prop) (obs : observationState) (lst : list Entity * bool) (σ : storeSpec) (w w' : rowData V).
Hypothesis (I : rows_inv Lv Tl obs lst σ) (Hw : Lv w) (Eo : r_owner w' = r_owner w).

Lemma replaced_cases x : replaced Lv w w' x ∨ Tl x → x = w' ∨ (Lv x ∨ Tl x) ∧ r_owner x ≠ r_owner w.
Proof using All.
  intros [[[Hx Hn]| ->]|Hx]; [by right; split; [left|]|by left|right]. split; [by right|].
  intros E. apply (ri_apart _ _ _ _ _ I w Hw). by rewrite (ri_unique _ _ _ _ _ I w x (or_introl Hw) (or_intror Hx) (eq_sym E)).
Qed.

Lemma replaced_unique x y : replaced Lv w w' x ∨ Tl x → replaced Lv w w' y ∨ Tl y → r_owner x = r_owner y → x = y.
Proof using All.
  intros [->|[Hx Hxn]]%replaced_cases [->|[Hy Hyn]]%replaced_cases E; [done|congruence..|by eapply ri_unique].
Qed.

Lemma replaced_newest x y :
  replaced Lv w w' x → replaced Lv w w' y ∨ Tl y → index (r_owner y) = index (r_owner x) → (r_owner y <= r_owner x)%N.
Proof using All.
  intros [[Hx Hxn]| ->] [->|[Hy Hyn]]%replaced_cases; rewrite ?Eo; intros E; [|by eapply ri_newest|lia|by eapply ri_newest].
  eapply ri_newest; [exact I|done|by left|done].
Qed.

Lemma replaced_alone x y :
  obs = observed → lst.2 = false →
  replaced Lv w w' x ∨ Tl x → replaced Lv w w' y ∨ Tl y → index (r_owner x) = index (r_owner y) → x = y.
Proof using All.
  intros Ho Hf. assert (Hne : ∀ z, (Lv z ∨ Tl z) → r_owner z ≠ r_owner w → index (r_owner z) ≠ index (r_owner w)).
  { intros z Hz Hn E. apply Hn. by rewrite (ri_alone _ _ _ _ _ I Ho Hf z w Hz (or_introl Hw) E). }
  intros [->|[Hx Hxn]]%replaced_cases [->|[Hy Hyn]]%replaced_cases E; [done| | |by eapply ri_alone].
  - rewrite Eo in E. by destruct (Hne y Hy Hyn).
  - rewrite Eo in E. by destruct (Hne x Hx Hxn).
Qed.

Lemma replaced_live e v :
  (<[r_owner w := r_value w']> (st_live σ)) !! e = Some v ↔ ∃ x, replaced Lv w w' x ∧ r_owner x = e ∧ r_value x = v.
Proof using All.
  unfold replaced. destruct (decide (e = r_owner w)) as [->|Hne].
  - rewrite lookup_insert_eq. split.
    + intros [= <-]. exists w'. auto.
    + intros (x & [[_ Hx]| ->] & ? & <-); [done|done].
  - rewrite lookup_insert_ne by done. rewrite (ri_live _ _ _ _ _ I). split.
    + intros (x & Hx & <- & Hv). exists x. auto.
    + intros (x & [[Hx _]| ->] & Ex & Hv); [by exists x|congruence].
Qed.

Lemma inv_replace lst' :
  (obs = observed → live_state (r_state w') = true ∧ in_base (r_state w') = in_base (r_state w) ∧
    r_shadow w' = r_shadow w ∧ (r_state w' = rowUnchanged → r_value w' = r_shadow w') ∧ listing_step lst lst' w w') →
  (obs ≠ observed → lst' = lst) →
  rows_inv (replaced Lv w w') Tl obs lst' (sp_set σ (r_owner w) (r_value w')).
Proof using All.
  intros Hob Hq'. pose proof I as [Hu Hnw Hal Ha Hl Hq Hs Hb Hsm Hg Hls]. split.
  - exact replaced_unique.
  - exact replaced_newest.
  - intros Ho Hf x y. destruct (Hob Ho) as (_ & _ & _ & _ & Hstep). apply replaced_alone; [done|by apply Hstep].
  - intros x [[Hx _]| ->]; [by apply Ha|]. intros Hx. apply (Ha w Hw).
    by rewrite (ri_unique _ _ _ _ _ I w w' (or_introl Hw) (or_intror Hx) (eq_sym Eo)).
  - exact replaced_live.
  - intros Ho. rewrite (Hq' Ho). by apply Hq.
  - intros Ho. destruct (Hs Ho) as [HL HT]. split; [|done]. intros x [[Hx _]| ->]; [by apply HL|by apply Hob].
  - intros Ho e v. cbn. rewrite (Hb Ho). destruct (Hob Ho) as (_ & E1 & E2 & _). split.
    + intros (x & Hx & Hbx & Ex & Hv). destruct (decide (r_owner x = r_owner w)) as [E|E].
      * assert (x = w) as -> by (by eapply ri_unique; [exact I|done|left|]).
        exists w'. split; [left; by right|]. split_and!; congruence.
      * exists x. split; [|done]. destruct Hx as [Hx|Hx]; [left; by left|by right].
    + intros (x & Hx & Hbx & Ex & Hv). apply replaced_cases in Hx as [->|[Hx _]]; [|by exists x].
      exists w. split; [by left|]. split_and!; congruence.
  - intros Ho x [[Hx _]| ->]; [by apply Hsm|]. by apply Hob.
  - intros Ho. by apply Hg.
  - intros Ho Hf. destruct (Hob Ho) as (_ & _ & _ & _ & Hstep). destruct (Hstep Hf) as [Hf0 Hcase].
    destruct (Hls Ho Hf0) as [Hnd Hin].
    assert (Hother : ∀ e, e ≠ r_owner w → (∃ x, (replaced Lv w w' x ∨ Tl x) ∧ r_owner x = e ∧ r_state x ≠ rowUnchanged) ↔ e ∈ lst.1).
    { intros e Hn. rewrite Hin. split.
      - intros (x & Hx & Ex & Hsx). apply replaced_cases in Hx as [->|[Hx _]]; [congruence|by exists x].
      - intros (x & Hx & <- & Hsx). exists x. split; [|done]. destruct Hx; [left; by left|by right]. }
    assert (Hown : (∃ x, (replaced Lv w w' x ∨ Tl x) ∧ r_owner x = r_owner w ∧ r_state x ≠ rowUnchanged) ↔ r_state w' ≠ rowUnchanged).
    { split; [|intros ?; exists w'; split; [left; by right|done]].
      intros (x & Hx & Ex & Hsx). apply replaced_cases in Hx as [->|[_ ?]]; done. }
    assert (Hown0 : r_owner w ∈ lst.1 ↔ r_state w ≠ rowUnchanged).
    { rewrite Hin. split; [|intros ?; exists w; auto]. intros (x & Hx & Ex & Hsx).
      by rewrite (ri_unique _ _ _ _ _ I x w Hx (or_introl Hw) Ex) in Hsx. }
    destruct Hcase as [[-> Hst]|(-> & Hst1 & Hst2)].
    + split; [done|]. intros e. destruct (decide (e = r_owner w)) as [->|Hn]; [|symmetry; by apply Hother].
      rewrite Hown, Hown0. tauto.
    + assert (r_owner w ∉ lst.1) by (rewrite Hown0; tauto). split; [apply NoDup_app; set_solver by (done || apply NoDup_singleton)|].
      intros e. rewrite elem_of_app, list_elem_of_singleton.
      destruct (decide (e = r_owner w)) as [->|Hn]; [rewrite Hown; tauto|]. rewrite Hother by done. tauto.
Qed.
End replace.

Lemma sp_set_same σ e v : st_live σ !! e = Some v → sp_set σ e v = σ.
Proof using Type. intros E. destruct σ as [l b g]. unfold sp_set. cbn in *. by rewrite insert_id. Qed.

(** A row of a new owner: the others of its index are of the tail and of
    entities before it, and then the listing has overflowed. *)
Lemma inv_add Lv Tl obs lst lst' σ w :
  rows_inv Lv Tl obs lst σ →
  (∀ x, Lv x ∨ Tl x → index (r_owner x) = index (r_owner w) → (r_owner x < r_owner w)%N ∧ ¬ Lv x) → r_state w = rowAdded →
  (obs = observed → lst'.2 = false → lst.2 = false ∧ lst'.1 = lst.1 ++ [r_owner w] ∧
    ∀ x, Lv x ∨ Tl x → index (r_owner x) ≠ index (r_owner w)) →
  (obs ≠ observed → lst' = lst) →
  rows_inv (λ x, Lv x ∨ x = w) Tl obs lst' (sp_add σ (r_owner w) (r_value w)).
Proof using Type.
  intros I Hfresh Est Hlst Hq'. pose proof I as [Hu Hnw Hal Ha Hl Hq Hs Hb Hsm Hg Hls].
  assert (Hno : ∀ x, Lv x ∨ Tl x → r_owner x ≠ r_owner w).
  { intros x Hx E. destruct (Hfresh x Hx) as [? _]; [by rewrite E|lia]. }
  assert (Hcase : ∀ x, (Lv x ∨ x = w) ∨ Tl x → x = w ∨ (Lv x ∨ Tl x)) by (intros x [[?|?]|?]; auto).
  assert (Hgone : delete (r_owner w) (st_gone σ) = st_gone σ).
  { apply delete_id, eq_None_not_Some. intros [v Hv]. destruct (decide (obs = observed)) as [Ho|Ho].
    - apply (Hg Ho) in Hv as (x & Hx & E & _). by apply (Hno x (or_intror Hx)).
    - destruct (Hq Ho) as (_ & E & _). by rewrite E, lookup_empty in Hv. }
  split.
  - intros x y [->|Hx]%Hcase [->|Hy]%Hcase E; [done|by destruct (Hno y Hy)|by destruct (Hno x Hx)|by apply Hu].
  - intros x y [Hx| ->] [->|Hy]%Hcase E; [|by apply Hnw|lia|destruct (Hfresh y Hy E) as [? _]; lia].
    by destruct (Hfresh x (or_introl Hx) (eq_sym E)) as [_ []].
  - intros Ho Hf x y. destruct (Hlst Ho Hf) as (Hf0 & _ & Hne).
    intros [->|Hx]%Hcase [->|Hy]%Hcase E; [done|by destruct (Hne y Hy)|by destruct (Hne x Hx)|by apply Hal].
  - intros x [Hx| ->]; [by apply Ha|]. intros Hx. by apply (Hno w (or_intror Hx)).
  - intros e v. cbn. destruct (decide (e = r_owner w)) as [->|Hne].
    + rewrite lookup_insert_eq. split; [intros [= <-]; exists w; auto|].
      intros (x & [Hx| ->] & E & <-); [by destruct (Hno x (or_introl Hx))|done].
    + rewrite lookup_insert_ne by done. rewrite Hl. split; intros (x & Hx & E & Hv); exists x; naive_solver.
  - intros Ho. rewrite (Hq' Ho). cbn. rewrite Hgone. by apply Hq.
  - intros Ho. destruct (Hs Ho) as [HL HT]. split; [|done]. intros x [Hx| ->]; [by apply HL|by rewrite Est].
  - intros Ho e v. cbn. rewrite (Hb Ho). split.
    + intros (x & Hx & ?). exists x. naive_solver.
    + intros (x & [[Hx| ->]|Hx] & E & ?); [exists x; naive_solver|by rewrite Est in E|exists x; naive_solver].
  - intros Ho x [Hx| ->]; [by apply Hsm|by rewrite Est].
  - intros Ho. cbn. rewrite Hgone. by apply Hg.
  - intros Ho Hf. destruct (Hlst Ho Hf) as (Hf0 & -> & _). destruct (Hls Ho Hf0) as [Hnd Hin].
    assert (Hni : r_owner w ∉ lst.1). { rewrite Hin. intros (x & Hx & E & _). by apply (Hno x Hx). }
    split; [apply NoDup_app; set_solver by (done || apply NoDup_singleton)|].
    intros e. rewrite elem_of_app, list_elem_of_singleton, Hin. split.
    + intros [(x & Hx & ?)| ->]; [exists x; naive_solver|exists w; rewrite Est; naive_solver].
    + intros (x & [[Hx| ->]|Hx] & E & ?); [left; exists x; naive_solver|by right|left; exists x; naive_solver].
Qed.

(** A row of the tail is brought back. *)
Lemma inv_back Lv Tl lst σ w w' :
  rows_inv Lv Tl observed lst σ → Tl w →
  (∀ x, Lv x ∨ Tl x → index (r_owner x) = index (r_owner w) → (r_owner x <= r_owner w)%N) →
  w' = row_state w (if decide (r_state w = rowDiscarded) then rowAdded else rowChanged) →
  rows_inv (λ x, Lv x ∨ x = w') (λ x, Tl x ∧ r_owner x ≠ r_owner w) observed lst (sp_add σ (r_owner w) (r_value w)).
Proof using Type.
  intros I Hw Hnew Ew'. pose proof I as [Hu Hnw Hal Ha Hl Hq Hs Hb Hsm Hg Hls]. destruct (Hs eq_refl) as [HL HT].
  assert (Eo : r_owner w' = r_owner w) by (by rewrite Ew'). assert (Ev : r_value w' = r_value w) by (by rewrite Ew').
  assert (Esh : r_shadow w' = r_shadow w) by (by rewrite Ew').
  assert (Est : live_state (r_state w') = true ∧ in_base (r_state w') = in_base (r_state w) ∧ r_state w' ≠ rowUnchanged ∧ r_state w ≠ rowUnchanged).
  { specialize (HT w Hw). rewrite Ew'. cbn. destruct (r_state w); cbn in *; try done; by destruct (decide _). }
  destruct Est as (Est1 & Est2 & Est3 & Est4).
  assert (Hown : ∀ x, Lv x ∨ Tl x → r_owner x = r_owner w → x = w) by (intros x Hx E; by eapply ri_unique; [exact I|done|right|]).
  assert (Hnl : ∀ x, Lv x → r_owner x ≠ r_owner w).
  { intros x Hx E. apply (Ha x Hx). by rewrite (Hown x (or_introl Hx) E). }
  assert (Hcase : ∀ x, (Lv x ∨ x = w') ∨ Tl x ∧ r_owner x ≠ r_owner w → x = w' ∨ (Lv x ∨ Tl x) ∧ r_owner x ≠ r_owner w).
  { intros x [[Hx| ->]|[Hx Hn]]; [right|by left|right]; split; auto. }
  assert (Hli : ∀ x, Lv x → index (r_owner x) ≠ index (r_owner w)).
  { intros x Hx E. apply (Hnl x Hx). pose proof (Hnw x w Hx (or_intror Hw) (eq_sym E)). pose proof (Hnew x (or_introl Hx) E). lia. }
  split.
  - intros x y [->|[Hx Hxn]]%Hcase [->|[Hy Hyn]]%Hcase E; [done|congruence..|by apply Hu].
  - intros x y [Hx| ->] [->|[Hy Hyn]]%Hcase; rewrite ?Eo; intros E; [by destruct (Hli x Hx)|by apply Hnw|lia|by apply Hnew].
  - intros _ Hf x y [->|[Hx Hxn]]%Hcase [->|[Hy Hyn]]%Hcase; rewrite ?Eo; intros E; [done| | |by apply Hal].
    + destruct Hyn. by rewrite (Hal eq_refl Hf y w Hy (or_intror Hw) (eq_sym E)).
    + destruct Hxn. by rewrite (Hal eq_refl Hf x w Hx (or_intror Hw) E).
  - intros x [Hx| ->] [Hx' Hn]; [by apply (Ha x)|done].
  - intros e v. cbn. destruct (decide (e = r_owner w)) as [->|Hne].
    + rewrite lookup_insert_eq. split; [intros [= <-]; exists w'; auto|].
      intros (x & [Hx| ->] & E & <-); [by destruct (Hnl x Hx)|by rewrite Ev].
    + rewrite lookup_insert_ne by done. rewrite Hl. split.
      * intros (x & Hx & ?). exists x. auto.
      * intros (x & [Hx| ->] & E & ?); [by exists x|congruence].
  - done.
  - intros _. split; [|by intros x [Hx _]; apply HT]. intros x [Hx| ->]; [by apply HL|done].
  - intros _ e v. cbn. rewrite (Hb eq_refl). split.
    + intros (x & Hx & Ex & E & ?). destruct (decide (r_owner x = r_owner w)) as [Ew|Hn].
      * pose proof (Hown x Hx Ew) as ->. exists w'. split_and!; [by left; right|congruence..].
      * exists x. split; [|done]. destruct Hx; [by left; left|by right].
    + intros (x & Hx & Ex & E & ?). apply Hcase in Hx as [->|[Hx _]]; [|by exists x].
      exists w. split_and!; [by right|congruence..].
  - intros _ x [Hx| ->]; [by apply Hsm|done].
  - intros _ e v. cbn. destruct (decide (e = r_owner w)) as [->|Hne].
    + rewrite lookup_delete_eq. split; [done|]. by intros (x & [_ Hx] & E & _).
    + rewrite lookup_delete_ne by done. rewrite (Hg eq_refl). split.
      * intros (x & Hx & <- & ?). by exists x.
      * intros (x & [Hx _] & ?). by exists x.
  - intros _ Hf. destruct (Hls eq_refl Hf) as [Hnd Hin]. split; [done|]. intros e. rewrite Hin. split.
    + intros (x & Hx & E & Ex). destruct (decide (r_owner x = r_owner w)) as [Ew|Hn].
      * exists w'. split_and!; [by left; right|congruence|done].
      * exists x. split; [|done]. destruct Hx; [by left; left|by right].
    + intros (x & Hx & E & Ex). apply Hcase in Hx as [->|[Hx _]]; [|by exists x].
      exists w. split_and!; [by right|congruence|done].
Qed.

(** A live row of an observed store goes to the tail. *)
Lemma inv_remove Lv Tl lst lst' σ w :
  rows_inv Lv Tl observed lst σ → Lv w →
  (lst'.2 = false → lst.2 = false ∧ (r_state w = rowUnchanged ∧ lst'.1 = lst.1 ++ [r_owner w] ∨ r_state w ≠ rowUnchanged ∧ lst'.1 = lst.1)) →
  rows_inv (λ x, Lv x ∧ r_owner x ≠ r_owner w) (λ x, Tl x ∨ x = row_state w (removed_state (r_state w))) observed lst'
    (sp_remove σ observed (r_owner w) (r_value w)).
Proof using Type.
  intros I Hw Hlst. pose proof I as [Hu Hnw Hal Ha Hl Hq Hs Hb Hsm Hg Hls]. destruct (Hs eq_refl) as [HL HT].
  set (w' := row_state w (removed_state (r_state w))).
  assert (Est : live_state (r_state w') = false ∧ in_base (r_state w') = in_base (r_state w) ∧ r_state w' ≠ rowUnchanged).
  { specialize (HL w Hw). unfold w', removed_state. cbn. destruct (r_state w); cbn in *; try done; by destruct (decide _). }
  destruct Est as (Est1 & Est2 & Est3).
  assert (Hown : ∀ x, Lv x ∨ Tl x → r_owner x = r_owner w → x = w) by (intros x Hx E; by eapply ri_unique; [exact I|done|left|]).
  assert (Hnt : ∀ x, Tl x → r_owner x ≠ r_owner w).
  { intros x Hx E. apply (Ha w Hw). by rewrite <- (Hown x (or_intror Hx) E). }
  assert (Hcase : ∀ x, (Lv x ∧ r_owner x ≠ r_owner w) ∨ Tl x ∨ x = w' → x = w' ∨ (Lv x ∨ Tl x) ∧ r_owner x ≠ r_owner w).
  { intros x [[Hx Hn]|[Hx| ->]]; [right|right|by left]; split; auto. }
  split.
  - intros x y [->|[Hx Hxn]]%Hcase [->|[Hy Hyn]]%Hcase E; [done|by destruct Hyn|by destruct Hxn|by apply Hu].
  - intros x y [Hx Hxn] [->|[Hy Hyn]]%Hcase E; [|by apply Hnw]. by apply (Hnw x w Hx (or_introl Hw)).
  - intros _ Hf x y. destruct (Hlst Hf) as [Hf0 _].
    intros [->|[Hx Hxn]]%Hcase [->|[Hy Hyn]]%Hcase E; [done| | |by apply Hal].
    + destruct Hyn. by rewrite (Hal eq_refl Hf0 y w Hy (or_introl Hw) (eq_sym E)).
    + destruct Hxn. by rewrite (Hal eq_refl Hf0 x w Hx (or_introl Hw) E).
  - intros x [Hx Hn] [Hx'| ->]; [by apply (Ha x)|done].
  - intros e v. cbn. destruct (decide (e = r_owner w)) as [->|Hne].
    + rewrite lookup_delete_eq. split; [done|]. by intros (x & [_ Hx] & E & _).
    + rewrite lookup_delete_ne by done. rewrite Hl. split; [intros (x & Hx & <- & ?); by exists x|intros (x & [Hx _] & ?); by exists x].
  - done.
  - intros _. split; [by intros x [Hx _]; apply HL|]. intros x [Hx| ->]; [by apply HT|done].
  - intros _ e v. cbn. rewrite (Hb eq_refl). split.
    + intros (x & Hx & Ex & E & ?). destruct (decide (r_owner x = r_owner w)) as [Ew|Hn].
      * pose proof (Hown x Hx Ew) as ->. exists w'. split_and!; [by right; right|congruence|done|done].
      * exists x. split; [|done]. destruct Hx; [by left|by right; left].
    + intros (x & Hx & Ex & E & ?). apply Hcase in Hx as [->|[Hx _]]; [|by exists x].
      exists w. split_and!; [by left|congruence|done|done].
  - intros _ x [Hx _]. by apply Hsm.
  - intros _ e v. unfold sp_remove. rewrite decide_True by done. cbn. destruct (decide (e = r_owner w)) as [->|Hne].
    + rewrite lookup_insert_eq. split; [intros [= <-]; exists w'; auto|].
      intros (x & [Hx| ->] & E & <-); [by destruct (Hnt x Hx)|done].
    + rewrite lookup_insert_ne by done. rewrite (Hg eq_refl). split.
      * intros (x & Hx & ?). exists x. auto.
      * intros (x & [Hx| ->] & E & ?); [by exists x|by destruct Hne].
  - intros _ Hf. destruct (Hlst Hf) as [Hf0 Hcs]. destruct (Hls eq_refl Hf0) as [Hnd Hin].
    assert (Hin' : ∀ e, (∃ x, ((Lv x ∧ r_owner x ≠ r_owner w) ∨ Tl x ∨ x = w') ∧ r_owner x = e ∧ r_state x ≠ rowUnchanged) ↔ e ∈ lst.1 ∨ e = r_owner w).
    { intros e. rewrite Hin. split.
      - intros (x & Hx & E & Ex). apply Hcase in Hx as [->|[Hx _]]; [by right|left; by exists x].
      - intros [(x & Hx & E & Ex)| ->]; [|exists w'; auto]. destruct (decide (r_owner x = r_owner w)) as [Ew|Hn].
        + exists w'. split_and!; [by right; right|cbn; congruence|done].
        + exists x. split; [|done]. destruct Hx; [by left|by right; left]. }
    assert (Hwin : r_owner w ∈ lst.1 ↔ r_state w ≠ rowUnchanged).
    { rewrite Hin. split; [|intros ?; exists w; auto]. intros (x & Hx & Ex & Hsx). by rewrite (Hown x Hx Ex) in Hsx. }
    setoid_rewrite Hin'. destruct Hcs as [[Hst ->]|[Hst ->]].
    + split; [apply NoDup_app; split_and!; [done| |apply NoDup_singleton]|].
      * intros x Hx ->%list_elem_of_singleton. by apply Hwin in Hx.
      * intros e. by rewrite elem_of_app, list_elem_of_singleton.
    + split; [done|]. intros e. split; [by left|]. intros [?| ->]; [done|by apply Hwin].
Qed.

(** A live row of a store nobody observes is dropped. *)
Lemma inv_drop Lv Tl obs lst σ w :
  rows_inv Lv Tl obs lst σ → obs ≠ observed → Lv w →
  rows_inv (λ x, Lv x ∧ r_owner x ≠ r_owner w) Tl obs lst (sp_remove σ obs (r_owner w) (r_value w)).
Proof using Type.
  intros [Hu Hnw Hal Ha Hl Hq Hs Hb Hsm Hg Hls] Ho Hw. split; try done.
  - intros x y [[Hx _]|Hx] [[Hy _]|Hy]; apply Hu; auto.
  - intros x y [Hx _] [[Hy _]|Hy]; apply Hnw; auto.
  - intros x [Hx _]. by apply Ha.
  - intros e v. cbn. destruct (decide (e = r_owner w)) as [->|Hne].
    + rewrite lookup_delete_eq. split; [done|]. by intros (x & [_ Hx] & E & _).
    + rewrite lookup_delete_ne by done. rewrite Hl. split; [intros (x & Hx & <- & ?); by exists x|intros (x & [Hx _] & ?); by exists x].
  - intros _. unfold sp_remove. rewrite decide_False by done. cbn. by apply Hq.
Qed.

(** Observation starts: every row counts as added. *)
Lemma inv_start Lv Tl Lv' lst lst' σ :
  rows_inv Lv Tl observerWaiting lst σ → lst'.2 = true →
  (∀ x y, Lv' x → Lv' y → index (r_owner x) = index (r_owner y) → x = y) →
  (∀ x, Lv' x → r_state x = rowAdded ∧ ∃ w, Lv w ∧ r_owner w = r_owner x ∧ r_value w = r_value x) →
  (∀ w, Lv w → ∃ x, Lv' x ∧ r_owner x = r_owner w ∧ r_value x = r_value w) →
  rows_inv Lv' (λ _, False) observed lst' (sp_start σ).
Proof using Type.
  intros [Hu Hnw Hal Ha Hl Hq Hs Hb Hsm Hg Hls] Hf Hu' H1 H2. split; try done.
  - intros x y [Hx|[]] [Hy|[]] E. apply Hu'; [done..|by rewrite E].
  - intros x y Hx [Hy|[]] E. rewrite (Hu' y x Hy Hx E). lia.
  - intros _ E. congruence.
  - by intros x _ [].
  - intros e v. cbn. rewrite Hl. split.
    + intros (w & Hw & <- & <-). destruct (H2 w Hw) as (x & ?). by exists x.
    + intros (x & Hx & <- & <-). destruct (H1 x Hx) as (_ & w & ?). by exists w.
  - intros _. split; [|by intros x []]. intros x Hx. destruct (H1 x Hx) as [-> _]. done.
  - intros _ e v. cbn. rewrite lookup_empty. split; [done|]. intros (x & [Hx|[]] & E & _).
    destruct (H1 x Hx) as [Es _]. by rewrite Es in E.
  - intros _ x Hx E. destruct (H1 x Hx) as [Es _]. congruence.
  - intros _ e v. cbn. rewrite lookup_empty. split; [done|]. by intros (x & [] & _).
  - intros _ E. congruence.
Qed.

(** The reset: every live row's shadow is its value, and there is no tail. *)
Definition reset_of w : rowData V := mkRow (r_owner w) (r_value w) (r_value w) rowUnchanged.

Lemma inv_reset Lv Tl lst σ :
  rows_inv Lv Tl observed lst σ →
  rows_inv (λ x, ∃ w, Lv w ∧ x = reset_of w) (λ _, False) observed ([], false) (sp_reset σ).
Proof using Type.
  intros I. pose proof I as [Hu Hnw Hal Ha Hl Hq Hs Hb Hsm Hg Hls]. split; try done.
  - intros x y [(w1 & H1 & ->)|[]] [(w2 & H2 & ->)|[]] E. by rewrite (Hu w1 w2 (or_introl H1) (or_introl H2) E).
  - intros x y (w1 & H1 & ->) [(w2 & H2 & ->)|[]] E. by apply (Hnw w1 w2 H1 (or_introl H2)).
  - intros _ _ x y [(w1 & H1 & ->)|[]] [(w2 & H2 & ->)|[]] E. by rewrite (ri_live_unique _ _ _ _ _ w1 w2 I H1 H2 E).
  - by intros x _ [].
  - intros e v. cbn. rewrite Hl. split.
    + intros (w & Hw & <- & <-). exists (reset_of w). split; [by exists w|done].
    + intros (x & (w & Hw & ->) & <- & <-). by exists w.
  - intros _. split; [by intros x (w & _ & ->)|by intros x []].
  - intros _ e v. cbn. rewrite Hl. split.
    + intros (w & Hw & <- & <-). exists (reset_of w). split; [left; by exists w|done].
    + intros (x & [(w & Hw & ->)|[]] & _ & <- & <-). by exists w.
  - by intros _ x (w & _ & ->).
  - intros _ e v. cbn. rewrite lookup_empty. split; [done|]. by intros (x & [] & _).
  - intros _ _. split; [constructor|]. intros e. split; [by intros ?%not_elem_of_nil|]. by intros (x & [(w & _ & ->)|[]] & _ & Hx).
Qed.
End spec.
Arguments storeSpec : clear implicits.
