(* ===== verification/StoreRefines.v ===== *)
(** * Stores refine a map observed in windows

    One operation of a store at a time: from a store that represents a
    [storeSpec], what each operation answers and the [storeSpec] the store it
    leaves represents. *)

From S2P Require Import Prelude Words Array Entity IndexTable Store StoreRepr StoreSwap StoreSpec.

Section sim.
Context {V : Type} `{Zero V} `{EqDecision V}.

Implicit Types (s : storeResource V) (rows : list (rowData V)) (w x : rowData V) (σ : storeSpec V).

(** The first [n] rows, and those after. *)
Definition lives (n : nat) rows x : Prop := ∃ j, j < n ∧ rows !! j = Some x.
Definition tails (n : nat) rows x : Prop := ∃ j, n ≤ j ∧ rows !! j = Some x.

Definition store_sim s σ : Prop := ∃ rows, store_repr s rows ∧
  rows_inv (lives (liveRows s) rows) (tails (liveRows s) rows) (observation s) (listing s) σ.

Lemma lives_or_tails n rows j x : rows !! j = Some x → lives n rows x ∨ tails n rows x.
Proof using Type. intros Hx. destruct (decide (j < n)); [left|right]; exists j; split; [done|done|lia|done]. Qed.

(** A live row is its index's newest. *)
Lemma live_newest rows n obs lst σ r w :
  rows_inv (lives n rows) (tails n rows) obs lst σ → r < n → rows !! r = Some w → newest rows w.
Proof using Type.
  intros I Hr Hw r' w' Hw' E. apply (ri_newest _ _ _ _ _ I w w'); [by exists r|by eapply lives_or_tails|done].
Qed.

Lemma lives_insert n rows r w w' x :
  owners_distinct rows → r < n → rows !! r = Some w →
  lives n (<[r := w']> rows) x ↔ replaced (lives n rows) w w' x.
Proof using Type.
  intros Hd Hr Hw. unfold replaced, lives. pose proof (lookup_lt_Some _ _ _ Hw). split.
  - intros (j & Hj & Hx). apply list_lookup_insert_Some in Hx as [(<- & -> & _)|[Hne Hx]]; [by right|left].
    split; [by exists j|]. intros E. apply Hne. symmetry. by eapply Hd.
  - intros [[(j & Hj & Hx) E]| ->].
    + exists j. split; [done|]. rewrite list_lookup_insert_ne; [done|]. intros ->. congruence.
    + exists r. split; [done|]. by apply list_lookup_insert_eq.
Qed.

Lemma tails_insert n rows r w' x : r < n → tails n (<[r := w']> rows) x ↔ tails n rows x.
Proof using Type.
  intros Hr. unfold tails. split; intros (j & Hj & Hx); exists j; (split; [done|]).
  - by rewrite list_lookup_insert_ne in Hx by lia.
  - by rewrite list_lookup_insert_ne by lia.
Qed.

(** ** Reads *)

Lemma row_of_live s rows r w :
  store_repr s rows → newest rows w → r < liveRows s → rows !! r = Some w → row_of s (r_owner w) = Some (r, true).
Proof using Type.
  intros R Hn Hr Hw. unfold row_of. rewrite (linked_row s rows r w R Hw Hn), decide_True, (owner_at s rows r w R Hw) by done.
  cbn. by rewrite N.eqb_refl.
Qed.

Lemma get_live s rows r w :
  store_repr s rows → newest rows w → r < liveRows s → rows !! r = Some w → get s (r_owner w) = Some (Some r).
Proof using Type.
  intros R Hn Hr Hw. unfold get. rewrite (linked_row s rows r w R Hw Hn), decide_False, (owner_at s rows r w R Hw) by lia.
  cbn. by rewrite N.eqb_refl.
Qed.

Lemma get_none s rows e : store_repr s rows → (∀ x, lives (liveRows s) rows x → r_owner x ≠ e) → get s e = Some None.
Proof using Type.
  intros R Hno. unfold get. destruct (linked s (index e)) as [r|] eqn:El; [|done].
  destruct (linked_Some s rows _ r R El) as (w & Hw & _). destruct (decide _) as [|Hlt]; [done|].
  rewrite (owner_at s rows r w R Hw). cbn. destruct (N.eqb_spec (r_owner w) e) as [E|]; [|done].
  destruct (Hno w); [exists r; split; [lia|done]|done].
Qed.

Lemma row_of_none s rows e :
  store_repr s rows → (∀ x, lives (liveRows s) rows x → r_owner x ≠ e) → ∃ r, row_of s e = Some (r, false).
Proof using Type.
  intros R Hno. unfold row_of. destruct (linked s (index e)) as [r|] eqn:El; [|by eexists].
  destruct (linked_Some s rows _ r R El) as (w & Hw & _). destruct (decide _) as [Hlt|]; [|by eexists].
  rewrite (owner_at s rows r w R Hw). cbn. destruct (N.eqb_spec (r_owner w) e) as [E|]; [|by eexists].
  destruct (Hno w); [by exists r|done].
Qed.

Lemma sim_live s rows σ e v :
  store_repr s rows → rows_inv (lives (liveRows s) rows) (tails (liveRows s) rows) (observation s) (listing s) σ →
  st_live σ !! e = Some v → ∃ r w, r < liveRows s ∧ rows !! r = Some w ∧ r_owner w = e ∧ r_value w = v.
Proof using Type. intros R I (w & (r & Hr & Hw) & Eo & Ev)%(ri_live _ _ _ _ _ I). by exists r, w. Qed.

Lemma sim_dead s rows σ e :
  rows_inv (lives (liveRows s) rows) (tails (liveRows s) rows) (observation s) (listing s) σ →
  st_live σ !! e = None → ∀ x, lives (liveRows s) rows x → r_owner x ≠ e.
Proof using Type.
  intros I Hn x Hx E. assert (st_live σ !! e = Some (r_value x)); [|congruence]. apply (ri_live _ _ _ _ _ I). by exists x.
Qed.

(** [get] finds the row of an entity with a value, and reads the value there. *)
Lemma sim_get s σ e :
  store_sim s σ →
  match st_live σ !! e with
  | Some v => ∃ r, get s e = Some (Some r) ∧ row_of s e = Some (r, true) ∧ value_at s r = Some v
  | None => get s e = Some None ∧ ∃ r, row_of s e = Some (r, false)
  end.
Proof using Type.
  intros (rows & R & I). destruct (st_live σ !! e) as [v|] eqn:E.
  - destruct (sim_live _ _ _ _ _ R I E) as (r & w & Hr & Hw & <- & <-). exists r.
    pose proof (live_newest _ _ _ _ _ _ _ I Hr Hw) as Hn.
    split_and!; [by eapply get_live|by eapply row_of_live|by eapply sr_values].
  - pose proof (sim_dead _ _ _ _ I E) as Hno. split; [by eapply get_none|by eapply row_of_none].
Qed.

(** ** Writing *)

(** Row [r] is [e]'s, and writing it sets [e]'s value. *)
Definition writable s σ (e : Entity) (r : nat) : Prop :=
  ∀ v, fits s v → ∃ s', value_set s r v = Some s' ∧ store_sim s' (sp_set σ e v) ∧ observation s' = observation s ∧
    sized s' = sized s ∧ len s' = len s ∧ ALen (owners s') = ALen (owners s).

Lemma row_writable s rows σ r w :
  store_repr s rows → rows_inv (lives (liveRows s) rows) (tails (liveRows s) rows) (observation s) (listing s) σ →
  r < liveRows s → rows !! r = Some w → (observation s = observed → r_state w ≠ rowUnchanged) →
  writable s σ (r_owner w) r.
Proof using All.
  intros R I Hr Hw Hst v Hfit. destruct (value_set_repr s rows r w v R Hw Hfit) as (c & E & R'). exists (with_values s c).
  split; [done|]. split; [|done]. exists (<[r := row_value w v]> rows). split; [done|].
  eapply (rows_inv_ext (replaced (lives (liveRows s) rows) w (row_value w v)) (tails (liveRows s) rows));
    [intros x; eapply lives_insert; [by eapply sr_distinct|done|done]|intros x; by apply tails_insert|].
  apply (inv_replace _ _ _ (listing s) σ w (row_value w v) I); [by exists r|done| |done].
  intros Ho. specialize (Hst Ho). split_and!; [|done|done|by intros ?|].
  - apply (proj1 (ri_states _ _ _ _ _ I Ho) w). by exists r.
  - intros Hf. split; [done|]. by left.
Qed.

Lemma listing_listed (lst : list Entity * bool) n e w w' :
  r_state w = rowUnchanged → r_state w' ≠ rowUnchanged → r_owner w = e →
  listing_step lst (listed n lst.1 lst.2 e) w w'.
Proof using All.
  intros Hw Hw' <- Hf. destruct (listed n lst.1 lst.2 (r_owner w)) as [l' o'] eqn:E.
  destruct (listed_spec _ _ _ _ _ _ E Hf) as [? ->]. split; [done|]. right. done.
Qed.

(** [markChanged] leaves the values as they are and the row writable. *)
Lemma mark_sim s rows σ r w :
  store_repr s rows → rows_inv (lives (liveRows s) rows) (tails (liveRows s) rows) (observation s) (listing s) σ →
  r < liveRows s → rows !! r = Some w →
  ∃ s', markChanged s r (r_owner w) = Some s' ∧ store_sim s' σ ∧ writable s' σ (r_owner w) r ∧
    value_at s' r = Some (r_value w) ∧ observation s' = observation s ∧ sized s' = sized s ∧ len s' = len s ∧
    ALen (owners s') = ALen (owners s).
Proof using All.
  intros R I Hr Hw. unfold markChanged. case_bool_decide as Ho; cbn [negb].
  2:{ exists s. split_and!; try done; [by exists rows|by eapply row_writable|by eapply sr_values]. }
  rewrite (state_at s rows r w R Ho Hw). cbn [mbind option_bind]. destruct (decide (r_state w = rowUnchanged)) as [Est|Est].
  2:{ exists s. split_and!; try done; [by exists rows|by eapply row_writable|by eapply sr_values]. }
  destruct (set_state_repr s rows r w rowChanged R Ho Hw) as (a & -> & R'). cbn [mbind option_bind].
  set (w' := row_state w rowChanged) in *. set (s' := listChanged (with_states s a) (r_owner w)).
  destruct (listChanged_fields (with_states s a) (r_owner w)) as (Fl & Fo & Fz). fold s' in Fl, Fo, Fz. cbn in Fl, Fo, Fz.
  assert (R2 : store_repr s' (<[r := w']> rows)) by (by apply repr_listChanged).
  assert (Hw2 : <[r := w']> rows !! r = Some w') by (apply list_lookup_insert_eq; by eapply lookup_lt_Some).
  assert (Flist : listing s' = listed (liveRows s) (listing s).1 (listing s).2 (r_owner w)) by exact (listChanged_listing (with_states s a) (r_owner w)).
  assert (I2 : rows_inv (lives (liveRows s') (<[r := w']> rows)) (tails (liveRows s') (<[r := w']> rows)) (observation s') (listing s') σ).
  { rewrite Fl, Fo, Flist. eapply (rows_inv_ext (replaced (lives (liveRows s) rows) w w') (tails (liveRows s) rows));
      [intros x; eapply lives_insert; [by eapply sr_distinct|done|done]|intros x; by apply tails_insert|].
    rewrite <- (sp_set_same σ (r_owner w) (r_value w')) at 1.
    2:{ apply (ri_live _ _ _ _ _ I). exists w. split; [by exists r|done]. }
    apply (inv_replace _ _ _ (listing s) σ w w' I); [by exists r|done| |done].
    intros _. split_and!; [done| |done|done|]; [by rewrite Est|by apply listing_listed]. }
  exists s'. split_and!; [done|by exists (<[r:=w']> rows)| | |done|done|done|].
  - eapply (row_writable s' _ σ r w'); [done|done|by rewrite Fl|done|done].
  - by apply (sr_values _ _ R2 r w').
  - unfold s', listChanged. by destruct (decide _).
Qed.

Lemma sim_write s σ e :
  store_sim s σ →
  match st_live σ !! e with
  | Some v => ∃ s' r, write s e = Some (s', Some r) ∧ store_sim s' σ ∧ writable s' σ e r ∧ value_at s' r = Some v ∧
      observation s' = observation s ∧ sized s' = sized s ∧ len s' = len s ∧ ALen (owners s') = ALen (owners s)
  | None => write s e = Some (s, None)
  end.
Proof using All.
  intros (rows & R & I). unfold write. destruct (st_live σ !! e) as [v|] eqn:E.
  - destruct (sim_live _ _ _ _ _ R I E) as (r & w & Hr & Hw & <- & <-).
    rewrite (linked_row s rows r w R Hw (live_newest _ _ _ _ _ _ _ I Hr Hw)), decide_False, (owner_at s rows r w R Hw) by lia.
    cbn [mbind option_bind]. rewrite N.eqb_refl. cbn [negb]. destruct (mark_sim s rows σ r w R I Hr Hw) as (s' & -> & ?). by exists s', r.
  - pose proof (sim_dead _ _ _ _ I E) as Hno. destruct (linked s (index e)) as [r|] eqn:El; [|done].
    destruct (linked_Some s rows _ r R El) as (w & Hw & _). destruct (decide _) as [|Hlt]; [done|].
    rewrite (owner_at s rows r w R Hw). cbn [mbind option_bind]. destruct (N.eqb_spec (r_owner w) e) as [Eo|]; [|done].
    destruct (Hno w); [exists r; split; [lia|done]|done].
Qed.

(** ** Adding *)

(** A row appended to [rows], exchanged with the one at [n]. *)
Lemma lives_appended n rows w w' x :
  n ≤ length rows → (rows ++ [w]) !! n = Some w' →
  lives (S n) (swapped (rows ++ [w]) (length rows) n w w') x ↔ lives n rows x ∨ x = w.
Proof using Type.
  intros Hn Hw'. assert (Ll : length (rows ++ [w]) = S (length rows)) by (rewrite length_app; simpl; lia).
  unfold lives. setoid_rewrite swapped_lookup; [|lia..]. split.
  - intros (j & Hj & Hx). destruct (decide (j = n)) as [->|Hjn]; [right; congruence|left]. exists j.
    rewrite decide_False in Hx by lia. rewrite lookup_app_l in Hx by lia. split; [lia|done].
  - intros [(j & Hj & Hx)| ->].
    + exists j. rewrite !decide_False by lia. rewrite lookup_app_l by lia. split; [lia|done].
    + exists n. rewrite decide_True by done. split; [lia|done].
Qed.

Lemma tails_appended n rows w w' x :
  n ≤ length rows → (rows ++ [w]) !! n = Some w' →
  tails (S n) (swapped (rows ++ [w]) (length rows) n w w') x ↔ tails n rows x.
Proof using Type.
  intros Hn Hw'. assert (Ll : length (rows ++ [w]) = S (length rows)) by (rewrite length_app; simpl; lia).
  unfold tails. setoid_rewrite swapped_lookup; [|lia..]. split.
  - intros (j & Hj & Hx). rewrite decide_False in Hx by lia. destruct (decide (j = length rows)) as [->|Hjl].
    + injection Hx as ->. exists n. rewrite lookup_app_l in Hw' by lia. done.
    + exists j. apply lookup_app_Some in Hx as [Hx|[? Hx]]; [split; [lia|done]|].
      apply list_lookup_singleton_Some in Hx as [? _]. lia.
  - intros (j & Hj & Hx). pose proof (lookup_lt_Some _ _ _ Hx). destruct (decide (j = n)) as [->|Hjn].
    + exists (length rows). rewrite decide_False by lia. rewrite decide_True by done.
      rewrite lookup_app_l, Hx in Hw' by lia. injection Hw' as ->. split; [lia|done].
    + exists j. rewrite !decide_False by lia. rewrite lookup_app_l by lia. split; [lia|done].
Qed.

(** A row of the tail exchanged with its first, which then is the last live one. *)
Lemma lives_back n rows r w wn w' x :
  n ≤ r → rows !! r = Some w → rows !! n = Some wn →
  lives (S n) (<[n := w']> (swapped rows r n w wn)) x ↔ lives n rows x ∨ x = w'.
Proof using Type.
  intros Hn Hw Hwn. pose proof (lookup_lt_Some _ _ _ Hw). pose proof (lookup_lt_Some _ _ _ Hwn).
  unfold lives. split.
  - intros (j & Hj & Hx). apply list_lookup_insert_Some in Hx as [(<- & -> & _)|[Hne Hx]]; [by right|left].
    rewrite swapped_lookup, !decide_False in Hx by lia. exists j. split; [lia|done].
  - intros [(j & Hj & Hx)| ->].
    + exists j. rewrite list_lookup_insert_ne, swapped_lookup, !decide_False by lia. split; [lia|done].
    + exists n. split; [lia|]. apply list_lookup_insert_eq. by rewrite length_swapped.
Qed.

Lemma tails_back n rows r w wn w' x :
  owners_distinct rows → n ≤ r → rows !! r = Some w → rows !! n = Some wn →
  tails (S n) (<[n := w']> (swapped rows r n w wn)) x ↔ tails n rows x ∧ r_owner x ≠ r_owner w.
Proof using Type.
  intros Hd Hn Hw Hwn. pose proof (lookup_lt_Some _ _ _ Hw). pose proof (lookup_lt_Some _ _ _ Hwn).
  unfold tails. split.
  - intros (j & Hj & Hx). rewrite list_lookup_insert_ne, swapped_lookup, decide_False in Hx by lia.
    destruct (decide (j = r)) as [->|Hjr].
    + injection Hx as ->. split; [by exists n|]. intros E. assert (n = r) by (by eapply Hd). lia.
    + split; [exists j; split; [lia|done]|]. intros E. apply Hjr. by eapply Hd.
  - intros [(j & Hj & Hx) E]. assert (j ≠ r) by (intros ->; congruence). destruct (decide (j = n)) as [->|Hjn].
    + exists r. rewrite list_lookup_insert_ne, swapped_lookup, decide_False, decide_True by lia. split; [lia|congruence].
    + exists j. rewrite list_lookup_insert_ne, swapped_lookup, !decide_False by lia. split; [lia|done].
Qed.

Lemma row_known s rows σ x :
  rows_inv (lives (liveRows s) rows) (tails (liveRows s) rows) (observation s) (listing s) σ →
  lives (liveRows s) rows x ∨ tails (liveRows s) rows x → known σ (r_owner x).
Proof using Type.
  intros I [Hx|Hx]; [left; exists (r_value x); apply (ri_live _ _ _ _ _ I); by exists x|right; right; exists (r_value x)].
  destruct (decide (observation s = observed)) as [Ho|Ho]; [apply (ri_gone _ _ _ _ _ I Ho); by exists x|].
  destruct (ri_quiet _ _ _ _ _ I Ho) as (_ & _ & Hnt & _). by destruct (Hnt x).
Qed.

(** The rows at the index of an entity that may be given a value, and has none. *)
Lemma superseded_rows s rows σ e x :
  rows_inv (lives (liveRows s) rows) (tails (liveRows s) rows) (observation s) (listing s) σ →
  supersedes σ e → st_live σ !! e = None → lives (liveRows s) rows x ∨ tails (liveRows s) rows x → index (r_owner x) = index e →
  tails (liveRows s) rows x ∧ observation s = observed ∧ (r_owner x = e ∨ (r_owner x < e)%N).
Proof using Type.
  intros I Hsup Hdead Hx Ei.
  assert (Ht : tails (liveRows s) rows x).
  { destruct Hx as [Hx|Hx]; [|done]. assert (Hl : st_live σ !! r_owner x = Some (r_value x)) by (apply (ri_live _ _ _ _ _ I); by exists x).
    destruct (Hsup (r_owner x)) as [E|[? _]]; [left; by eexists|done| |congruence]. rewrite E in Hl. congruence. }
  split_and!; [done| |].
  - destruct (decide (observation s = observed)) as [|Ho]; [done|].
    destruct (ri_quiet _ _ _ _ _ I Ho) as (_ & _ & Hnt & _). by destruct (Hnt x).
  - destruct (Hsup (r_owner x)) as [?|[_ ?]]; [by eapply row_known|done|by left|by right].
Qed.

(** [add] answers row [r] of the store it leaves, with some value until the
    caller writes it. *)
Definition added s σ (e : Entity) (res : option (storeResource V * nat)) : Prop :=
  ∃ s' r v, res = Some (s', r) ∧ store_sim s' (sp_add σ e v) ∧ writable s' (sp_add σ e v) e r ∧
    observation s' = observation s ∧ len s' = S (len s) ∧
    (ALen (owners s) ≤ ALen (owners s') ≤ S (ALen (owners s))).

Lemma added_intro s σ e s' rows' r w :
  store_repr s' rows' → liveRows s' = S (liveRows s) → observation s' = observation s →
  rows_inv (lives (S (liveRows s)) rows') (tails (S (liveRows s)) rows') (observation s) (listing s') (sp_add σ e (r_value w)) →
  r < S (liveRows s) → rows' !! r = Some w → r_owner w = e → (observation s = observed → r_state w ≠ rowUnchanged) →
  (ALen (owners s) ≤ length rows' ≤ S (ALen (owners s))) →
  added s σ e (Some (s', r)).
Proof using All.
  intros R L O I Hr Hw <- Hst Hlen. exists s', r, (r_value w). rewrite <- L, <- O in I. split; [done|]. split_and!.
  - by exists rows'.
  - eapply row_writable; [done|done|by rewrite L|done|by rewrite O].
  - done.
  - done.
  - rewrite (owners_len _ _ R). apply Hlen.
  - rewrite (owners_len _ _ R). apply Hlen.
Qed.

Lemma added_unobserved s rows σ e :
  store_repr s rows → rows_inv (lives (liveRows s) rows) (tails (liveRows s) rows) (observation s) (listing s) σ →
  observation s ≠ observed → (N.of_nat (length rows) + 1 < 2 ^ 32)%N →
  (∀ x, lives (liveRows s) rows x ∨ tails (liveRows s) rows x → index (r_owner x) ≠ index e) →
  added s σ e (add_row s e).
Proof using All.
  intros R I Ho Hb Hfresh.
  assert (Hnew : newer rows e) by (intros r x Hx E; by destruct (Hfresh x (lives_or_tails _ _ _ _ Hx))).
  destruct (add_row_unobserved s rows e R Ho Hb Hnew) as (s' & v & -> & R' & L' & O' & _ & C' & F').
  destruct (sr_quiet _ _ R Ho) as (_ & _ & Hlive). set (w := mkRow e v zero_value rowAdded) in *.
  assert (Hw : (rows ++ [w]) !! length rows = Some w) by (by rewrite lookup_app_r, Nat.sub_diag).
  eapply added_intro; [exact R'|done|done| |by rewrite Hlive; lia|exact Hw|done|done|].
  - assert (El : listing s' = listing s) by (unfold listing; congruence). rewrite El.
    assert (Esw : rows ++ [w] = swapped (rows ++ [w]) (length rows) (length rows) w w).
    { unfold swapped. rewrite list_insert_insert_eq. by rewrite list_insert_id. }
    eapply rows_inv_ext; [| |apply (inv_add _ _ _ _ (listing s) σ w I)]; [| |intros x Hx E; by destruct (Hfresh x Hx)|done|done|done].
    + intros x. rewrite Esw, Hlive. by apply lives_appended.
    + intros x. rewrite Esw, Hlive. by apply tails_appended.
  - rewrite (owners_len _ _ R), length_app. simpl. lia.
Qed.

Lemma added_observed s rows σ e :
  store_repr s rows → rows_inv (lives (liveRows s) rows) (tails (liveRows s) rows) (observation s) (listing s) σ →
  observation s = observed → (N.of_nat (length rows) + 1 < 2 ^ 32)%N →
  (∀ x, lives (liveRows s) rows x ∨ tails (liveRows s) rows x → index (r_owner x) = index e →
    (r_owner x < e)%N ∧ ¬ lives (liveRows s) rows x) →
  ((listing s).2 = false → ∀ x, lives (liveRows s) rows x ∨ tails (liveRows s) rows x → index (r_owner x) ≠ index e) →
  added s σ e (add_row s e).
Proof using All.
  intros R I Ho Hb Hfresh Hlst.
  assert (Hnew : newer rows e) by (intros r x Hx E; by apply (Hfresh x (lives_or_tails _ _ _ _ Hx))).
  destruct (add_row_observed s rows e R Ho Hb Hnew) as (s' & w & w' & Eo & Est & Hw' & -> & R' & L' & O' & Els).
  pose proof (sr_live _ _ R) as Hlive. rewrite <- Eo in *.
  assert (Ll : length (rows ++ [w]) = S (length rows)) by (rewrite length_app; simpl; lia).
  eapply (added_intro s σ _ s' _ (liveRows s) w R' L'); [congruence| |lia| |done|by rewrite Est|].
  - eapply rows_inv_ext; [| |apply (inv_add _ _ _ _ (listing s') σ w I Hfresh Est)].
    + intros x. by apply lives_appended.
    + intros x. by apply tails_appended.
    + intros _ Hf. rewrite Els in Hf |- *. destruct (listed _ _ _ _) as [l' o'] eqn:El.
      destruct (listed_spec _ _ _ _ _ _ El Hf) as [Hf0 ->]. split_and!; [done|done|by apply Hlst].
    + done.
  - rewrite swapped_lookup by lia. by rewrite decide_True.
  - rewrite length_swapped, (owners_len _ _ R). lia.
Qed.

Lemma added_back s rows σ r w :
  store_repr s rows → rows_inv (lives (liveRows s) rows) (tails (liveRows s) rows) (observation s) (listing s) σ →
  observation s = observed → newest rows w → liveRows s ≤ r → rows !! r = Some w →
  added s σ (r_owner w) (add s (r_owner w)).
Proof using All.
  intros R I Ho Hnw Hr Hw. unfold add, tailRow. rewrite bool_decide_eq_true_2 by done.
  pose proof (lookup_lt_Some _ _ _ Hw) as Hlt. pose proof (owners_len _ _ R) as Hlen.
  rewrite (linked_row s rows r w R Hw Hnw), decide_True, (owner_at s rows r w R Hw) by lia. cbn [mbind option_bind].
  rewrite N.eqb_refl. cbn [mbind option_bind]. destruct (lookup_lt_is_Some_2 rows (liveRows s)) as [wn Hwn]; [lia|].
  destruct (swap_repr s rows r (liveRows s) w wn R Ho Hw Hwn Hnw) as (s1 & -> & R1 & L1 & O1 & C1 & F1). cbn [mbind option_bind].
  assert (Hn : swapped rows r (liveRows s) w wn !! liveRows s = Some w).
  { rewrite swapped_lookup by lia. by rewrite decide_True. }
  rewrite L1, (state_at s1 _ _ _ R1 O1 Hn). cbn [mbind option_bind].
  set (st := if decide (r_state w = rowDiscarded) then rowAdded else rowChanged).
  destruct (set_state_repr s1 _ _ _ st R1 O1 Hn) as (a & -> & R2). cbn [mbind option_bind]. store_cbn. rewrite L1.
  set (w' := row_state w st) in *.
  eapply (added_intro s σ _ _ _ (liveRows s) w'); [apply repr_live; [exact R2|done|]|done|store_cbn; congruence| |lia| |done| |].
  - rewrite length_insert, length_swapped. lia.
  - rewrite Ho in I |- *.
    assert (El : listing (with_live (with_states s1 a) (S (liveRows s))) = listing s) by (unfold listing; store_cbn; congruence).
    rewrite El. eapply rows_inv_ext; [| |apply (inv_back _ _ _ σ w w' I)]; [| |by exists r| |done].
    + intros x. by apply lives_back.
    + intros x. apply tails_back; [by eapply sr_distinct|done..].
    + intros x [(j & _ & Hx)|(j & _ & Hx)]; by apply (Hnw j).
  - apply list_lookup_insert_eq. rewrite length_swapped. lia.
  - intros _. cbn. unfold st. by destruct (decide _).
  - rewrite length_insert, length_swapped. lia.
Qed.

(** A row is appended where none of the tail is [e]'s; it shares [e]'s index
    with rows of earlier entities only when the listing is given up. *)
Lemma added_row s rows σ e :
  store_repr s rows → rows_inv (lives (liveRows s) rows) (tails (liveRows s) rows) (observation s) (listing s) σ →
  supersedes σ e → st_live σ !! e = None → (N.of_nat (length rows) + 1 < 2 ^ 32)%N →
  (∀ x, lives (liveRows s) rows x ∨ tails (liveRows s) rows x → r_owner x ≠ e) →
  added s σ e (if bool_decide (observation s = observed) then
    add_row (if (match linked s (index e) with Some _ => true | None => false end) then with_listing s (changedEntities s) true else s) e
    else add_row s e).
Proof using All.
  intros R I Hsup Hdead Hb Hne. pose proof (λ x, superseded_rows s rows σ e x I Hsup Hdead) as Hrows.
  case_bool_decide as Ho.
  2:{ eapply added_unobserved; [done..|]. intros x Hx E. by destruct (Hrows x Hx E) as (_ & ? & _). }
  assert (Hfresh : ∀ x, lives (liveRows s) rows x ∨ tails (liveRows s) rows x → index (r_owner x) = index e →
    (r_owner x < e)%N ∧ ¬ lives (liveRows s) rows x).
  { intros x Hx E. destruct (Hrows x Hx E) as (Ht & _ & [?|?]); [by destruct (Hne x Hx)|]. split; [done|].
    intros Hl. by apply (ri_apart _ _ _ _ _ I x Hl). }
  destruct (linked s (index e)) as [r|] eqn:El.
  - apply (added_observed (with_listing s (changedEntities s) true) rows σ e); [by apply repr_listing| |done|done|done|done].
    cbn [liveRows observation with_listing]. rewrite Ho in I |- *. by eapply inv_overflow.
  - apply (added_observed s rows σ e R I Ho Hb Hfresh). intros _ x Hx E.
    assert (∃ j, rows !! j = Some x) as [j Hj] by (destruct Hx as [(j & _ & ?)|(j & _ & ?)]; by exists j).
    apply (linked_None s rows j x R Hj). by rewrite E.
Qed.

Lemma sim_add s σ e :
  store_sim s σ → st_live σ !! e = None → supersedes σ e → (N.of_nat (ALen (owners s)) + 1 < 2 ^ 32)%N →
  added s σ e (add s e).
Proof using All.
  intros (rows & R & I) Hdead Hsup Hb. rewrite (owners_len _ _ R) in Hb.
  assert (Hlost : (match at_ (rowByIndex s) (index e) with Some slot => negb (slot =? 0)%N | None => false end) =
    match linked s (index e) with Some _ => true | None => false end).
  { unfold linked. destruct (at_ (rowByIndex s) (index e)) as [slot|]; [|done]. cbn. by destruct (N.eqb_spec slot 0). }
  assert (Hcase : (∃ r w, linked s (index e) = Some r ∧ rows !! r = Some w ∧ r_owner w = e) ∨
    ¬ ∃ r w, linked s (index e) = Some r ∧ rows !! r = Some w ∧ r_owner w = e).
  { destruct (linked s (index e)) as [r|]; [|right; by intros (? & ? & ? & _)].
    destruct (rows !! r) as [w|] eqn:Hw; [|right; intros (? & ? & [= <-] & Hw' & _); congruence].
    destruct (decide (r_owner w = e)); [left; by exists r, w|right; intros (? & ? & [= <-] & Hw' & ?); congruence]. }
  destruct Hcase as [(r & w & El & Hw & Eo)|Hn].
  - destruct (linked_Some s rows _ r R El) as (w0 & Hw0 & Ei & Hnew). assert (w0 = w) as -> by congruence.
    destruct (superseded_rows s rows σ e w I Hsup Hdead (lives_or_tails _ _ _ _ Hw) Ei) as ((r' & Hr' & Hw') & Ho & _).
    pose proof (sr_distinct _ _ R r r' w w Hw Hw' eq_refl) as <-. rewrite <- Eo. by eapply added_back.
  - unfold add. rewrite Hlost.
    assert (Hadd : added s σ e (if bool_decide (observation s = observed) then
      add_row (if (match linked s (index e) with Some _ => true | None => false end) then with_listing s (changedEntities s) true else s) e
      else add_row s e)).
    { apply (added_row s rows σ e R I Hsup Hdead Hb). intros x Hx E.
      assert (∃ j, rows !! j = Some x) as [j Hj] by (destruct Hx as [(j & _ & ?)|(j & _ & ?)]; by exists j).
      destruct (linked s (index e)) as [r|] eqn:El; [|apply (linked_None s rows j x R Hj); by rewrite E].
      destruct (linked_Some s rows _ r R El) as (w & Hw & Ei & Hnew). apply Hn. exists r, w. split_and!; [done|done|].
      pose proof (Hnew j x Hj ltac:(by rewrite E)).
      destruct (superseded_rows s rows σ e w I Hsup Hdead (lives_or_tails _ _ _ _ Hw) Ei) as (_ & _ & [?|?]); [done|]. rewrite E in *. lia. }
    case_bool_decide as Ho; [|exact Hadd].
    assert (Ht : ∃ r, tailRow s e = Some (r, false)).
    { unfold tailRow. destruct (linked s (index e)) as [r|] eqn:El; [|by eexists].
      destruct (decide _) as [[_ Hr]|]; [|by eexists]. destruct (linked_Some s rows _ r R El) as (w & Hw & _ & _).
      rewrite (owner_at s rows r w R Hw). cbn [mbind option_bind]. exists r. f_equal. f_equal. apply N.eqb_neq.
      intros E. apply Hn. by exists r, w. }
    destruct Ht as [r ->]. exact Hadd.
Qed.

(** ** Removing *)

(** A live row exchanged with the last one, which the live rows then lose. *)
Lemma lives_removed n rows r w wl w' x :
  owners_distinct rows → r ≤ n → rows !! r = Some w → rows !! n = Some wl →
  lives n (<[n := w']> (swapped rows r n w wl)) x ↔ lives (S n) rows x ∧ r_owner x ≠ r_owner w.
Proof using Type.
  intros Hd Hr Hw Hwl. pose proof (lookup_lt_Some _ _ _ Hw). pose proof (lookup_lt_Some _ _ _ Hwl).
  unfold lives. split.
  - intros (j & Hj & Hx). rewrite list_lookup_insert_ne, swapped_lookup, decide_False in Hx by lia.
    destruct (decide (j = r)) as [->|Hjr].
    + injection Hx as ->. split; [exists n; split; [lia|done]|]. intros E. assert (n = r) by (by eapply Hd). lia.
    + split; [exists j; split; [lia|done]|]. intros E. apply Hjr. by eapply Hd.
  - intros [(j & Hj & Hx) E]. assert (j ≠ r) by (intros ->; congruence). destruct (decide (j = n)) as [->|Hjn].
    + exists r. rewrite list_lookup_insert_ne, swapped_lookup, decide_False, decide_True by lia. split; [lia|congruence].
    + exists j. rewrite list_lookup_insert_ne, swapped_lookup, !decide_False by lia. split; [lia|done].
Qed.

Lemma tails_removed n rows r w wl w' x :
  r ≤ n → rows !! r = Some w → rows !! n = Some wl →
  tails n (<[n := w']> (swapped rows r n w wl)) x ↔ tails (S n) rows x ∨ x = w'.
Proof using Type.
  intros Hr Hw Hwl. pose proof (lookup_lt_Some _ _ _ Hw). pose proof (lookup_lt_Some _ _ _ Hwl).
  unfold tails. split.
  - intros (j & Hj & Hx). apply list_lookup_insert_Some in Hx as [(<- & -> & _)|[Hne Hx]]; [by right|left].
    rewrite swapped_lookup, !decide_False in Hx by lia. exists j. split; [lia|done].
  - intros [(j & Hj & Hx)| ->].
    + exists j. rewrite list_lookup_insert_ne, swapped_lookup, !decide_False by lia. split; [lia|done].
    + exists n. split; [done|]. apply list_lookup_insert_eq. by rewrite length_swapped.
Qed.

Lemma lives_take n rows x : lives n (take n rows) x ↔ lives n rows x.
Proof using Type.
  unfold lives. split; intros (j & Hj & Hx); exists j; (split; [done|]).
  - by rewrite lookup_take_lt in Hx.
  - by rewrite lookup_take_lt.
Qed.

Lemma tails_end rows x : ¬ tails (length rows) rows x.
Proof using Type. intros (j & Hj & Hx). apply lookup_lt_Some in Hx. lia. Qed.

Lemma removed_observed s rows σ r w :
  store_repr s rows → rows_inv (lives (liveRows s) rows) (tails (liveRows s) rows) (observation s) (listing s) σ →
  observation s = observed → r < liveRows s → rows !! r = Some w →
  ∃ s', remove s (r_owner w) r = Some s' ∧ store_sim s' (sp_remove σ (observation s) (r_owner w) (r_value w)) ∧
    observation s' = observation s ∧ S (len s') = len s ∧ ALen (owners s') = ALen (owners s).
Proof using All.
  intros R I Ho Hr Hw. pose proof (sr_live _ _ R) as Hlive.
  destruct (lookup_lt_is_Some_2 rows (liveRows s - 1)) as [wl Hwl]; [lia|].
  destruct (remove_observed s rows r w wl R Ho Hr Hw (live_newest _ _ _ _ _ _ _ I Hr Hw) Hwl) as (s' & -> & R' & L' & O' & Els). exists s'. split; [done|].
  split_and!; [|congruence|unfold len; lia|].
  2:{ by rewrite (owners_len _ _ R), (owners_len _ _ R'), length_insert, length_swapped. }
  eexists. split; [exact R'|]. rewrite L', O', Ho in *. set (n := liveRows s - 1) in *.
  assert (En : liveRows s = S n) by lia. rewrite En in I.
  eapply rows_inv_ext; [| |apply (inv_remove _ _ (listing s) (listing s') σ w I); [by exists r; rewrite <- En|]].
  - intros x. apply lives_removed; [by eapply sr_distinct|lia|done..].
  - intros x. apply tails_removed; [lia|done..].
  - intros Hf. rewrite Els in Hf |- *. destruct (decide (r_state w = rowUnchanged)) as [Est|Est]; [|by split; [|right]].
    destruct (listed n _ _ _) as [l' o'] eqn:E. destruct (listed_spec _ _ _ _ _ _ E Hf) as [? ->].
    split; [done|]. by left.
Qed.

Lemma removed_unobserved s rows σ r w :
  store_repr s rows → rows_inv (lives (liveRows s) rows) (tails (liveRows s) rows) (observation s) (listing s) σ →
  observation s ≠ observed → r < liveRows s → rows !! r = Some w →
  ∃ s', remove s (r_owner w) r = Some s' ∧ store_sim s' (sp_remove σ (observation s) (r_owner w) (r_value w)) ∧
    observation s' = observation s ∧ S (len s') = len s ∧ ALen (owners s') ≤ ALen (owners s).
Proof using All.
  intros R I Ho Hr Hw. destruct (sr_quiet _ _ R Ho) as (_ & _ & Hlive).
  destruct rows as [|wl l _] using rev_ind; [simpl in Hlive; lia|].
  assert (Hd : indexes_distinct (l ++ [wl])).
  { intros i j wi wj Hi Hj E. apply (sr_distinct _ _ R i j wi wj Hi Hj).
    f_equal. apply (ri_live_unique _ _ _ _ _ wi wj I); [| |done].
    - exists i. rewrite Hlive. split; [by eapply lookup_lt_Some|done].
    - exists j. rewrite Hlive. split; [by eapply lookup_lt_Some|done]. }
  destruct (remove_unobserved s l wl r w R Ho Hd Hw) as (s' & -> & R' & L' & O' & Els). exists s'. split; [done|].
  rewrite length_app in Hlive. simpl in Hlive.
  split_and!; [|done|unfold len; lia|].
  2:{ rewrite (owners_len _ _ R), (owners_len _ _ R'), length_swap_removed, length_app. lia. }
  eexists. split; [exact R'|]. rewrite L', O', Els. rewrite Hlive, Nat.add_1_r in I.
  assert (Hwl : (l ++ [wl]) !! length l = Some wl) by (by rewrite lookup_app_r, Nat.sub_diag).
  eapply rows_inv_ext; [| |apply (inv_drop _ _ _ _ σ w I Ho); exists r; split; [lia|done]].
  - intros x. rewrite <- (lives_removed (length l) _ r w wl w); [|by eapply sr_distinct|lia|done..].
    rewrite <- (lives_take _ (<[_ := w]> _)). unfold swapped. by rewrite list_insert_insert_eq, (take_insert_ge _ (length l) (length l)) by lia.
  - intros x. split; intros (j & Hj & Hx); exfalso.
    + apply lookup_take_Some in Hx as [_ ?]. lia.
    + apply lookup_lt_Some in Hx. rewrite length_app in Hx. simpl in Hx. lia.
Qed.

Lemma sim_remove s σ e v :
  store_sim s σ → st_live σ !! e = Some v →
  ∃ s' r, row_of s e = Some (r, true) ∧ remove s e r = Some s' ∧ store_sim s' (sp_remove σ (observation s) e v) ∧
    observation s' = observation s ∧ S (len s') = len s ∧ ALen (owners s') ≤ ALen (owners s).
Proof using All.
  intros (rows & R & I) E. destruct (sim_live _ _ _ _ _ R I E) as (r & w & Hr & Hw & <- & <-).
  pose proof (live_newest _ _ _ _ _ _ _ I Hr Hw) as Hnew. destruct (decide (observation s = observed)) as [Ho|Ho].
  - destruct (removed_observed s rows σ r w R I Ho Hr Hw) as (s' & ? & ? & ? & ? & Hl).
    exists s', r. split; [by eapply row_of_live|]. split_and!; try done. by rewrite Hl.
  - destruct (removed_unobserved s rows σ r w R I Ho Hr Hw) as (s' & ? & ? & ? & ? & Hl).
    exists s', r. split; [by eapply row_of_live|]. done.
Qed.
End sim.
