(* ===== verification/StoreWindow.v ===== *)
(** * The windows of a store's observation

    [startObservation] opens the first, [resetObservation] ends one and opens
    the next: the values become those deltas are taken against. *)

From S2P Require Import Prelude Words Array Entity IndexTable Store StoreRepr StoreSwap StoreSpec StoreRefines.

Section window.
Context {V : Type} `{Zero V} `{EqDecision V}.

Implicit Types (s : storeResource V) (rows : list (rowData V)) (w x : rowData V) (σ : storeSpec V).

(** ** The first window *)

Definition started w : rowData V := mkRow (r_owner w) (r_value w) zero_value rowAdded.

Lemma newChunks_read size n row :
  size = false ∨ row < n * rowsPerChunk → chunk_read size (replicate n (newChunk (V := V))) row = Some zero_value.
Proof using Type.
  unfold chunk_read. intros Hr. destruct size; cbn [negb]; [|done]. destruct Hr as [|Hr]; [done|].
  rewrite lookup_replicate_2; [|apply Nat.Div0.div_lt_upper_bound; lia]. cbn [mbind option_bind].
  unfold newChunk. apply lookup_replicate_2, Nat.mod_upper_bound. unfold rowsPerChunk. lia.
Qed.

Lemma start_states n s :
  array_repr (rowStates s) [] →
  ∃ a, for_range n start_state s = Some (with_states s a) ∧ array_repr a (replicate n rowAdded).
Proof using Type.
  intros Hst. destruct (for_range_invariant
    (λ k s', ∃ a, s' = with_states s a ∧ array_repr a (replicate k rowAdded)) start_state n s) as (s' & E & a & -> & Ha).
  - exists (rowStates s). by destruct s.
  - intros k s' _ (a & -> & Ha). unfold start_state. store_cbn.
    destruct (array_append_repr a _ rowAdded Ha) as (a' & -> & Ha'). cbn [mbind option_bind].
    eexists. split; [done|]. exists a'. by rewrite replicate_S_end.
  - by exists a.
Qed.

Lemma started_repr s rows :
  store_repr s rows → observation s = observerWaiting →
  ∃ s', startObservation s = Some s' ∧ store_repr s' (started <$> rows) ∧ liveRows s' = liveRows s ∧
    observation s' = observed ∧ changedEntitiesOverflowed s' = true ∧ ALen (owners s') = ALen (owners s).
Proof using Type.
  intros R Ho. assert (Hno : observation s ≠ observed) by congruence.
  pose proof R as [Hown Hp Hl Hd0 Hb [Hc1 Hc2] Hv Hlive Hob Hq]. destruct (Hq Hno) as (Hst & Hsh & Hn).
  unfold startObservation. rewrite bool_decide_eq_true_2 by done. cbn [negb]. store_cbn. rewrite Hsh. cbn [app].
  destruct (start_states (ALen (owners s)) (with_shadows (with_listing (with_observation s observed) (changedEntities s) true)
    (replicate (length (valueChunks s)) newChunk)) Hst) as (a & -> & Ha).
  eexists. split; [done|]. split; [|done].
  assert (Eo : r_owner <$> (started <$> rows) = r_owner <$> rows) by (rewrite <- list_fmap_compose; by apply list_fmap_ext).
  assert (Hread : ∀ r w, (started <$> rows) !! r = Some w → ∃ w0, rows !! r = Some w0 ∧ w = started w0).
  { intros r w Hw. apply list_lookup_fmap_Some_1 in Hw as (w0 & -> & ?). by exists w0. }
  split; store_cbn; rewrite ?length_fmap; try done.
  - by rewrite Eo.
  - by apply (links_same_owners _ rows).
  - by apply (distinct_same_owners rows).
  - split; [done|]. apply Forall_replicate, newChunk_ok.
  - intros r w Hw. destruct (Hread r w Hw) as (w0 & Hw0 & ->). exact (Hv r w0 Hw0).
  - intros _. rewrite length_replicate. split_and!; [|done|].
    + assert (Es : r_state <$> (started <$> rows) = replicate (ALen (owners s)) rowAdded); [|by rewrite Es].
      rewrite (owners_len _ _ R), <- list_fmap_compose. clear. induction rows as [|w rows IH]; [done|]. by rewrite fmap_cons, IH.
    + intros r w Hw. destruct (Hread r w Hw) as (w0 & Hw0 & ->). unfold shadow_at. store_cbn. apply newChunks_read.
      apply (chunk_read_lt _ (valueChunks s)); [done|]. eexists. exact (Hv r w0 Hw0).
Qed.

(** A store somebody waits to observe counts every value as added. *)
Lemma sim_start_observation s σ :
  store_sim s σ →
  ∃ s', startObservation s = Some s' ∧
    store_sim s' (if decide (observation s = observerWaiting) then sp_start σ else σ) ∧
    observation s' = (if decide (observation s = observerWaiting) then observed else observation s) ∧
    len s' = len s ∧ ALen (owners s') = ALen (owners s).
Proof using All.
  intros (rows & R & I). destruct (decide (observation s = observerWaiting)) as [Ho|Ho].
  2:{ exists s. unfold startObservation. rewrite bool_decide_eq_false_2 by done. split_and!; try done. by exists rows. }
  destruct (started_repr s rows R Ho) as (s' & -> & R' & L' & O' & F' & A'). exists s'. split; [done|].
  split_and!; [|done|done|done]. eexists. split; [exact R'|]. rewrite L', O'.
  destruct (sr_quiet _ _ R ltac:(congruence)) as (_ & _ & Hn). rewrite Ho in I.
  eapply (rows_inv_ext (lives (liveRows s) (started <$> rows)) (λ _, False)); [done| |].
  { intros x. split; [|done]. rewrite Hn, <- (length_fmap started rows). apply tails_end. }
  assert (Hst : ∀ x, lives (liveRows s) (started <$> rows) x ↔ ∃ w, lives (liveRows s) rows w ∧ x = started w).
  { intros x. unfold lives. split.
    - intros (j & Hj & (w & -> & Hw)%list_lookup_fmap_Some_1). exists w. split; [by exists j|done].
    - intros (w & (j & Hj & Hw) & ->). exists j. by rewrite list_lookup_fmap, Hw. }
  eapply (inv_start _ _ _ _ _ σ I); [done| | |].
  - intros x y (w1 & H1 & ->)%Hst (w2 & H2 & ->)%Hst E.
    by rewrite (ri_live_unique _ _ _ _ _ w1 w2 I H1 H2 E).
  - intros x (w & Hw & ->)%Hst. split; [done|]. by exists w.
  - intros w Hw. exists (started w). split; [apply Hst; by exists w|done].
Qed.

(** ** The reset *)

(** The row the walk of the reset, or of a delta query, visits [i]th. *)
Definition walk_row s (i : nat) : option nat := if changedEntitiesOverflowed s then Some i else listedRow s i.

(** A row reset, whether it had changed or not. *)
Lemma reset_row_repr s rows i r w :
  store_repr s rows → observation s = observed → rows !! r = Some w → r < liveRows s →
  (r_state w = rowUnchanged → r_value w = r_shadow w) →
  walk_row s i = Some r →
  ∃ s', reset_row i s = Some s' ∧ store_repr s' (<[r := reset_of w]> rows) ∧ liveRows s' = liveRows s ∧
    observation s' = observed ∧ listing s' = listing s ∧ rowByIndex s' = rowByIndex s ∧ ALen (owners s') = ALen (owners s).
Proof using Type.
  intros R Ho Hw Hr Hsame Hwalk. unfold reset_row. fold (walk_row s i). rewrite Hwalk. cbn [mbind option_bind]. rewrite decide_False by lia.
  rewrite (state_at s rows r w R Ho Hw). cbn [mbind option_bind]. destruct (decide (r_state w = rowUnchanged)) as [Est|Est].
  - exists s. split_and!; try done. assert (Ew : reset_of w = w).
    { destruct w as [o v sh st]. unfold reset_of. cbn in *. rewrite <- Hsame, Est by done. done. }
    by rewrite Ew, list_insert_id.
  - rewrite (sr_values _ _ R r w Hw). cbn [mbind option_bind].
    destruct (shadow_set_repr s rows r w (r_value w) R Ho Hw (value_fits _ _ _ (sr_values _ _ R r w Hw))) as (c & -> & R1). cbn [mbind option_bind].
    assert (Hw1 : <[r := row_shadow w (r_value w)]> rows !! r = Some (row_shadow w (r_value w))).
    { apply list_lookup_insert_eq. by eapply lookup_lt_Some. }
    destruct (set_state_repr (with_shadows s c) _ r _ rowUnchanged R1 Ho Hw1) as (a & -> & R2).
    eexists. split; [done|]. split_and!; [|done..]. by rewrite list_insert_insert_eq in R2.
Qed.

(** A row of the tail is passed over. *)
Lemma reset_row_tail s i r :
  liveRows s ≤ r → walk_row s i = Some r → reset_row i s = Some s.
Proof using Type. intros Hr Hwalk. unfold reset_row. fold (walk_row s i). rewrite Hwalk. cbn [mbind option_bind]. by rewrite decide_True. Qed.

Lemma listedRow_spec s rows i e r w :
  store_repr s rows → newest rows w → changedEntities s !! i = Some e → rows !! r = Some w → r_owner w = e →
  listedRow s i = Some r.
Proof using Type.
  intros R Hn He Hw <-. unfold listedRow. rewrite He. cbn [mbind option_bind]. rewrite (slot_some s rows r w R Hw Hn).
  cbn [mbind option_bind]. f_equal. pose proof (sr_bound _ _ R). pose proof (lookup_lt_Some _ _ _ Hw). unfold u32.
  replace (N.of_nat r + 1 + (2 ^ 32 - 1))%N with (N.of_nat r + 1 * 2 ^ 32)%N by lia.
  rewrite N.Div0.mod_add, N.mod_small by lia. lia.
Qed.

(** ** The walk *)

Section walk.
Context (s : storeResource V) (rows : list (rowData V)) (σ : storeSpec V).
Hypothesis (R : store_repr s rows) (Ho : observation s = observed).
Hypothesis (I : rows_inv (lives (liveRows s) rows) (tails (liveRows s) rows) (observation s) (listing s) σ).

(** While the listing goes on, every row is the only one of its index. *)
Lemma listed_newest r w : changedEntitiesOverflowed s = false → rows !! r = Some w → newest rows w.
Proof using All.
  intros Hf Hw r' w' Hw' E. rewrite (ri_alone _ _ _ _ _ I Ho Hf w' w); [done|by eapply lives_or_tails..|done].
Qed.

Lemma listed_owner i e :
  changedEntitiesOverflowed s = false → changedEntities s !! i = Some e →
  ∃ r w, listedRow s i = Some r ∧ rows !! r = Some w ∧ r_owner w = e ∧ r_state w ≠ rowUnchanged.
Proof using All.
  intros Hf He. destruct (ri_listing _ _ _ _ _ I Ho Hf) as [_ Hin].
  destruct (proj1 (Hin e)) as (w & Hw & Eo & Est); [by eapply list_elem_of_lookup_2|].
  assert (∃ r, rows !! r = Some w) as [r Hr] by (destruct Hw as [(r & _ & ?)|(r & _ & ?)]; by exists r).
  exists r, w. split; [|done]. pose proof (listed_newest r w Hf Hr). by eapply listedRow_spec.
Qed.

(** It visits rows, *)
Lemma walk_ok i : i < walkedRows s → ∃ r w, walk_row s i = Some r ∧ rows !! r = Some w.
Proof using All.
  unfold walkedRows, walk_row. destruct (changedEntitiesOverflowed s) eqn:Ef; intros Hi.
  - rewrite (owners_len _ _ R) in Hi. destruct (lookup_lt_is_Some_2 rows i Hi) as [w Hw]. by exists i, w.
  - destruct (lookup_lt_is_Some_2 _ _ Hi) as [e He]. destruct (listed_owner i e Ef He) as (r & w & ? & ? & _). by exists r, w.
Qed.

(** each that has changed, *)
Lemma walk_covers r w : rows !! r = Some w → r_state w ≠ rowUnchanged → ∃ i, i < walkedRows s ∧ walk_row s i = Some r.
Proof using All.
  intros Hw Hst. unfold walkedRows, walk_row. destruct (changedEntitiesOverflowed s) eqn:Ef.
  - exists r. split; [|done]. rewrite (owners_len _ _ R). by eapply lookup_lt_Some.
  - destruct (ri_listing _ _ _ _ _ I Ho Ef) as [_ Hin].
    assert (He : r_owner w ∈ changedEntities s) by (apply Hin; exists w; split; [by eapply lives_or_tails|done]).
    apply list_elem_of_lookup in He as [i Hi]. exists i. split; [by eapply lookup_lt_Some|]. pose proof (listed_newest r w Ef Hw). by eapply listedRow_spec.
Qed.

(** and none twice. *)
Lemma walk_once i j r : i < walkedRows s → j < walkedRows s → walk_row s i = Some r → walk_row s j = Some r → i = j.
Proof using All.
  unfold walkedRows, walk_row. destruct (changedEntitiesOverflowed s) eqn:Ef; intros Hi Hj; [congruence|].
  destruct (lookup_lt_is_Some_2 _ _ Hi) as [e1 E1], (lookup_lt_is_Some_2 _ _ Hj) as [e2 E2].
  destruct (listed_owner i e1 Ef E1) as (r1 & w1 & -> & Hw1 & <- & _), (listed_owner j e2 Ef E2) as (r2 & w2 & -> & Hw2 & <- & _).
  intros [= ->] [= ->]. assert (w1 = w2) as -> by congruence.
  destruct (ri_listing _ _ _ _ _ I Ho Ef) as [Hnd _]. by eapply NoDup_lookup.
Qed.

(** What the reset's walk has done after [k] steps. *)
Definition walked_inv (k : nat) s' : Prop := ∃ rows',
  store_repr s' rows' ∧ liveRows s' = liveRows s ∧ observation s' = observed ∧ listing s' = listing s ∧
  rowByIndex s' = rowByIndex s ∧ ALen (owners s') = ALen (owners s) ∧ length rows' = length rows ∧
  (∀ j w, rows !! j = Some w → rows' !! j = Some w ∨ j < liveRows s ∧ rows' !! j = Some (reset_of w)) ∧
  (∀ i r, i < k → walk_row s i = Some r → r < liveRows s → rows' !! r = reset_of <$> rows !! r).

Lemma walk_same s' i : listing s' = listing s → rowByIndex s' = rowByIndex s → walk_row s' i = walk_row s i.
Proof using Type. intros [= Ec Ef] Er. unfold walk_row, listedRow. by rewrite Ec, Ef, Er. Qed.

Lemma walked_step k s' : k < walkedRows s → walked_inv k s' → ∃ s'', reset_row k s' = Some s'' ∧ walked_inv (S k) s''.
Proof using All.
  intros Hk (rows' & R' & L' & O' & Els & Er & Al & Hlen & Hrows & Hdone).
  destruct (walk_ok k Hk) as (r & w & Hwalk & Hw). rewrite <- (walk_same s' k Els Er) in Hwalk.
  destruct (decide (r < liveRows s)) as [Hr|Hr].
  - assert (∃ w', rows' !! r = Some w' ∧ reset_of w' = reset_of w ∧ (r_state w' = rowUnchanged → r_value w' = r_shadow w'))
      as (w' & Hw' & Ew & Hsame).
    { destruct (Hrows r w Hw) as [Hw'|[_ Hw']]; [|by exists (reset_of w)]. exists w. split; [done|]. split; [done|].
      apply (ri_same _ _ _ _ _ I Ho). by exists r. }
    destruct (reset_row_repr s' rows' k r w' R' O' Hw') as (s'' & E & R2 & L2 & O2 & Els2 & Er2 & Al2); [by rewrite L'|done|done|].
    exists s''. split; [done|]. exists (<[r:=reset_of w']> rows'). split_and!; try congruence; [by rewrite length_insert| |].
    + intros j wj Hj. destruct (decide (j = r)) as [->|Hne].
      * right. split; [done|]. rewrite list_lookup_insert_eq by (by eapply lookup_lt_Some). congruence.
      * rewrite list_lookup_insert_ne by done. by apply Hrows.
    + intros i r' Hi Hwi Hr'. destruct (decide (r' = r)) as [->|Hne].
      * rewrite list_lookup_insert_eq by (by eapply lookup_lt_Some). rewrite Hw, Ew. done.
      * rewrite list_lookup_insert_ne by done. apply (Hdone i); [|done|done].
        assert (i ≠ k); [|lia]. intros ->. rewrite <- (walk_same s' k Els Er) in Hwi. congruence.
  - exists s'. split; [apply (reset_row_tail s' k r); [lia|done]|]. exists rows'. split_and!; try done.
    intros i r' Hi Hwi Hr'. apply (Hdone i); [|done|done]. assert (i ≠ k); [|lia]. intros ->.
    rewrite <- (walk_same s' k Els Er) in Hwi. assert (r = r') by congruence. lia.
Qed.

(** Once it is through, every live row is reset. *)
Lemma walk_resets :
  ∃ s' rows', for_range (walkedRows s) reset_row s = Some s' ∧ store_repr s' rows' ∧ liveRows s' = liveRows s ∧
    observation s' = observed ∧ rowByIndex s' = rowByIndex s ∧ length rows' = length rows ∧
    (∀ j w, rows !! j = Some w → ∃ w', rows' !! j = Some w' ∧ r_owner w' = r_owner w ∧ (j < liveRows s → w' = reset_of w)).
Proof using All.
  destruct (for_range_invariant walked_inv reset_row (walkedRows s) s) as (s' & E & rows' & R' & L' & O' & _ & Er & _ & Hlen & Hrows & Hdone).
  - exists rows. split_and!; try done; [intros j w Hw; by left|lia].
  - intros k s' Hk Hinv. by apply walked_step.
  - exists s', rows'. split_and!; try done. intros j w Hw.
    destruct (Hrows j w Hw) as [Hw'|[Hj Hw']]; [|by exists (reset_of w)]. exists w. split_and!; [done|done|]. intros Hj.
    destruct (decide (r_state w = rowUnchanged)) as [Est|Est].
    + assert (Hs : r_value w = r_shadow w) by (apply (ri_same _ _ _ _ _ I Ho); [by exists j|done]).
      destruct w as [o v sh st]. unfold reset_of. cbn in *. congruence.
    + destruct (walk_covers j w Hw Est) as (i & Hi & Hwi). pose proof (Hdone i j Hi Hwi Hj) as E'.
      rewrite Hw', Hw in E'. by injection E'.
Qed.
End walk.

(** ** The tail dropped *)

(** The links once the [k] rows from [n] on are dropped. *)
Definition dropped_links (n k : nat) (lk lk' : N → N) : Prop :=
  ∀ j, lk' j = if decide (N.of_nat n < lk j ∧ lk j <= N.of_nat (n + k))%N then 0%N else lk j.

(** Dropping a row more. *)
Lemma dropped_links_S n k rows w (lk lk1 lk2 : N → N) :
  links_ok lk rows → rows !! (n + k) = Some w → dropped_links n k lk lk1 →
  (∀ j, lk2 j = if decide (lk1 (index (r_owner w)) = (N.of_nat (n + k) + 1)%N ∧ j = index (r_owner w)) then 0%N else lk1 j) →
  dropped_links n (S k) lk lk2.
Proof using Type.
  intros [H1 H2 _] Hw Hd E j. rewrite E.
  assert (Hat : lk j = (N.of_nat (n + k) + 1)%N → j = index (r_owner w)).
  { intros Ej. destruct (H2 j) as (r & w' & Hw' & Ei & Hn); [lia|]. pose proof (H1 r w' Hw' Hn) as E'. rewrite Ei, Ej in E'.
    assert (r = n + k) as -> by lia. congruence. }
  pose proof (Hd j) as Hj. destruct (decide (lk1 _ = _ ∧ j = _)) as [[E1 ->]|Hn].
  - rewrite Hj in E1. destruct (decide _); [lia|]. rewrite decide_True by lia. done.
  - rewrite Hj. destruct (decide (lk j = (N.of_nat (n + k) + 1)%N)) as [Ej|Ej].
    + destruct Hn. rewrite <- (Hat Ej), Hj, decide_False by lia. done.
    + destruct (decide _), (decide _); lia.
Qed.

Lemma tail_dropped s rows n :
  store_repr s rows → n ≤ length rows →
  ∃ t, for_from n (length rows - n) drop_row s = Some (with_links s t) ∧ pages_ok t ∧
    dropped_links n (length rows - n) (entry (rowByIndex s)) (entry t).
Proof using Type.
  intros R Hn.
  destruct (for_from_invariant (λ i s', ∃ t, s' = with_links s t ∧ pages_ok t ∧
      (∀ j, is_Some (at_ (rowByIndex s) j) → is_Some (at_ t j)) ∧
      dropped_links n (i - n) (entry (rowByIndex s)) (entry t)) drop_row n (length rows - n) s) as (s' & E & t & -> & Ht & _ & Hd).
  - exists (rowByIndex s). split_and!; [by destruct s|apply R|done|]. intros j. by rewrite decide_False by lia.
  - intros r s' Hr (t & -> & Ht & Hk & Hd). destruct (lookup_lt_is_Some_2 rows r) as [w Hw]; [lia|].
    destruct (Hk (index (r_owner w))) as [x Hx]; [eexists; by apply (slot_at s rows r)|].
    assert (Ex : entry t (index (r_owner w)) = x) by (unfold entry; by rewrite Hx).
    pose proof (sr_bound _ _ R) as Hb. unfold drop_row. store_cbn. rewrite (owner_at s rows r w R Hw).
    cbn [mbind option_bind]. rewrite Hx. cbn [mbind option_bind]. rewrite link_to_value by lia.
    replace (S r - n) with (S (r - n)) by lia. replace r with (n + (r - n)) in Hw by lia.
    pose proof (λ lk2, dropped_links_S n (r - n) rows w _ (entry t) lk2 (sr_links _ _ R) Hw Hd) as HS.
    replace (n + (r - n)) with r in HS by lia. rewrite Ex in HS.
    destruct (N.eqb_spec x (N.of_nat r + 1)) as [Exr|Exr].
    + destruct (set_link_spec (with_links s t) (index (r_owner w)) 0 Ht) as (t' & -> & Ht' & Hk' & He); [by eexists|].
      exists (with_links s t'). split; [done|]. exists t'. split_and!; [done|done|auto|]. apply HS. intros j. rewrite He.
      cbn [rowByIndex with_links]. destruct (decide (j = _)), (decide (_ ∧ _)); naive_solver.
    + exists (with_links s t). split; [done|]. exists t. split_and!; [done|done|done|]. apply HS. intros j.
      by rewrite decide_False by naive_solver.
  - exists t. split; [done|]. split; [done|]. by replace (n + (length rows - n) - n) with (length rows - n) in Hd by lia.
Qed.

Lemma dropped_links_ok lk lk' rows n :
  links_ok lk rows → n ≤ length rows → (∀ r w, r < n → rows !! r = Some w → newest rows w) →
  dropped_links n (length rows - n) lk lk' → links_ok lk' (take n rows).
Proof using Type.
  intros [H1 H2 H3] Hn Hlive Hd.
  assert (Hrow : ∀ r w, take n rows !! r = Some w → lk' (index (r_owner w)) = (N.of_nat r + 1)%N).
  { intros r w [Hw Hr]%lookup_take_Some. rewrite (Hd _), (H1 r w Hw) by (by eapply Hlive). by rewrite decide_False by lia. }
  split; [by intros r w Hw _; apply Hrow| |by intros r w Hw; rewrite (Hrow r w Hw); lia].
  intros i. rewrite (Hd i). destruct (decide _) as [|Hc]; [done|]. intros Hi. destruct (H2 i Hi) as (r & w & Hw & Ei & Hnew).
  pose proof (H1 r w Hw Hnew) as Er. rewrite Ei in Er. pose proof (lookup_lt_Some _ _ _ Hw).
  exists r, w. rewrite lookup_take_lt by lia. split_and!; [done|done|].
  intros r' w' [Hw' _]%lookup_take_Some. by apply (Hnew r').
Qed.

Lemma resized_take {A} `{Zero A} (l : list A) n : n ≤ length l → resized l n = take n l.
Proof using Type. intros Hn. unfold resized. replace (n - length l) with 0 by lia. by rewrite app_nil_r. Qed.

(** The store once its tail is dropped and its listing empty. *)
Lemma truncated_repr s rows :
  store_repr s rows → observation s = observed → (∀ r w, r < liveRows s → rows !! r = Some w → newest rows w) →
  ∃ s', (s1 ← for_from (liveRows s) (ALen (owners s) - liveRows s) drop_row (with_listing s [] false);
         o ← AResize (owners s1) (liveRows s1); st ← AResize (rowStates s1) (liveRows s1);
         Some (with_states (with_owners s1 o) st)) = Some s' ∧
    store_repr s' (take (liveRows s) rows) ∧ liveRows s' = liveRows s ∧ observation s' = observed ∧ listing s' = ([], false).
Proof using Type.
  intros R Ho Hnew. pose proof (sr_live _ _ R) as Hn. rewrite (owners_len _ _ R).
  destruct (tail_dropped (with_listing s [] false) rows (liveRows s)) as (t & -> & Ht & Hd); [by apply repr_listing|done|].
  store_cbn. pose proof R as [Hown Hp Hl Hd0 Hb Hc Hv Hlive Hob Hq]. destruct (Hob Ho) as (Hst & Hlen & Hsh).
  destruct (array_resize_repr (owners s) _ (liveRows s) Hown) as (o & -> & Ho').
  destruct (array_resize_repr (rowStates s) _ (liveRows s) Hst) as (st & -> & Hst').
  rewrite resized_take, <- fmap_take in Ho' by (by rewrite length_fmap).
  rewrite resized_take, <- fmap_take in Hst' by (by rewrite length_fmap).
  store_cbn. eexists. split; [done|]. split; [|done]. split; store_cbn; rewrite ?length_take; try done.
  - by eapply dropped_links_ok.
  - intros i j wi wj [Hi _]%lookup_take_Some [Hj _]%lookup_take_Some. by apply Hd0.
  - lia.
  - intros r w [Hw _]%lookup_take_Some. exact (Hv r w Hw).
  - lia.
  - intros _. split_and!; [done|done|]. intros r w [Hw _]%lookup_take_Some. exact (Hsh r w Hw).
Qed.

(** The reset makes the values those of the base, and forgets what went. *)
Lemma sim_reset s σ :
  store_sim s σ →
  ∃ s', resetObservation s = Some s' ∧ store_sim s' (if decide (observation s = observed) then sp_reset σ else σ) ∧
    observation s' = observation s ∧ len s' = len s ∧ ALen (owners s') ≤ ALen (owners s).
Proof using All.
  intros (rows & R & I). destruct (decide (observation s = observed)) as [Ho|Ho].
  2:{ exists s. unfold resetObservation. rewrite bool_decide_eq_false_2 by done. split_and!; try done. by exists rows. }
  unfold resetObservation. rewrite bool_decide_eq_true_2 by done. cbn [negb].
  destruct (walk_resets s rows σ R Ho I) as (s1 & rows1 & -> & R1 & L1 & O1 & Er1 & Hlen & Hrows). cbn [mbind option_bind].
  assert (Hnew : ∀ r w, r < liveRows s1 → rows1 !! r = Some w → newest rows1 w).
  { rewrite L1. intros r w Hr Hw r2 w2 Hw2.
    destruct (lookup_lt_is_Some_2 rows r) as [x Hx]; [rewrite <- Hlen; by eapply lookup_lt_Some|].
    destruct (lookup_lt_is_Some_2 rows r2) as [x2 Hx2]; [rewrite <- Hlen; by eapply lookup_lt_Some|].
    destruct (Hrows r x Hx) as (? & ? & Eo & _), (Hrows r2 x2 Hx2) as (? & ? & Eo2 & _). simplify_eq. rewrite Eo, Eo2.
    by apply (live_newest _ _ _ _ _ _ _ I Hr Hx r2). }
  destruct (truncated_repr s1 rows1 R1 O1 Hnew) as (s' & E & R' & L' & O' & Els). cbn [liveRows owners with_listing] in *.
  rewrite E. exists s'. split; [done|]. pose proof (sr_live _ _ R) as Hn. rewrite L1 in *. split_and!; [|congruence|done|].
  2:{ rewrite (owners_len _ _ R'), (owners_len _ _ R), length_take. lia. }
  eexists. split; [exact R'|]. rewrite L', O', Els. rewrite Ho in I.
  eapply rows_inv_ext; [| |apply (inv_reset _ _ _ σ I)].
  - intros x. rewrite lives_take. unfold lives. split.
    + intros (j & Hj & Hx). destruct (lookup_lt_is_Some_2 rows j) as [w Hw]; [lia|].
      destruct (Hrows j w Hw) as (w' & Hw' & _ & Ew). exists w. split; [by exists j|]. rewrite <- Ew by done. congruence.
    + intros (w & (j & Hj & Hw) & ->). destruct (Hrows j w Hw) as (w' & Hw' & _ & Ew). exists j. by rewrite <- Ew.
  - intros x. split; [|done]. intros (j & Hj & Hx). apply lookup_lt_Some in Hx. rewrite length_take in Hx. lia.
Qed.
End window.

(** ** Deltas of a store, and its memory

    What [delta], [reportedRow] and the walk over what changed answer in terms
    of the values now and those of the last reset; and that [shrink_store]
    changes none of it. *)

Section delta.
Context {V : Type} `{Zero V} `{EqDecision V}.

Implicit Types (s : storeResource V) (rows : list (rowData V)) (w x : rowData V) (σ : storeSpec V).

Lemma delta_row s rows r w :
  store_repr s rows → observation s = observed → rows !! r = Some w → delta s r = Some (row_delta w).
Proof using Type.
  intros R Ho Hw. unfold delta, row_delta. rewrite (state_at s rows r w R Ho Hw). cbn [mbind option_bind].
  destruct (r_state w); try done. rewrite (sr_values _ _ R r w Hw). cbn [mbind option_bind].
  destruct (sr_observed _ _ R Ho) as (_ & _ & Hsh). by rewrite (Hsh r w Hw).
Qed.

(** Row [r] is [e]'s, and its delta is [e]'s. *)
Definition delta_at s σ (r : nat) (e : Entity) : Prop :=
  AAt (owners s) r = Some e ∧ delta s r = Some (spec_delta σ e).

Lemma delta_at_row s rows σ r w :
  store_repr s rows → rows_inv (lives (liveRows s) rows) (tails (liveRows s) rows) (observation s) (listing s) σ →
  observation s = observed → rows !! r = Some w → delta_at s σ r (r_owner w).
Proof using All.
  intros R I Ho Hw. split; [by eapply owner_at|]. rewrite (delta_row s rows r w R Ho Hw). f_equal. rewrite Ho in I.
  eapply row_delta_spec; [exact I|]. by eapply lives_or_tails.
Qed.

(** The walk meets every entity with a delta, once, and every row it meets has
    its entity's delta. *)
Lemma sim_walk s σ :
  store_sim s σ → observation s = observed →
  (∀ i, i < walkedRows s → ∃ r e, walk_row s i = Some r ∧ delta_at s σ r e) ∧
  (∀ e, spec_delta σ e ≠ DeltaNone → ∃ i r, i < walkedRows s ∧ walk_row s i = Some r ∧ delta_at s σ r e) ∧
  (∀ i j r r' e, i < walkedRows s → j < walkedRows s → walk_row s i = Some r → walk_row s j = Some r' →
    AAt (owners s) r = Some e → AAt (owners s) r' = Some e → i = j).
Proof using All.
  intros (rows & R & I) Ho. split_and!.
  - intros i Hi. destruct (walk_ok s rows σ R Ho I i Hi) as (r & w & Hr & Hw). exists r, (r_owner w). split; [done|].
    by eapply delta_at_row.
  - intros e He. pose proof I as I'. rewrite Ho in I'. destruct (delta_has_row _ _ _ _ _ I' He) as (w & Hw & <- & _).
    assert (∃ r, rows !! r = Some w) as [r Hr] by (destruct Hw as [(r & _ & ?)|(r & _ & ?)]; by exists r).
    destruct (walk_covers s rows σ R Ho I r w Hr) as (i & Hi & Hwi).
    { intros Est. apply He. rewrite <- (row_delta_spec _ _ _ _ w I' Hw). unfold row_delta. by rewrite Est. }
    exists i, r. split_and!; [done|done|]. by eapply delta_at_row.
  - intros i j r r' e Hi Hj Hr Hr' He He'.
    destruct (walk_ok s rows σ R Ho I i Hi) as (r1 & w1 & E1 & Hw1), (walk_ok s rows σ R Ho I j Hj) as (r2 & w2 & E2 & Hw2).
    assert (r1 = r) as -> by congruence. assert (r2 = r') as -> by congruence.
    rewrite (owner_at s rows r w1 R Hw1) in He. rewrite (owner_at s rows r' w2 R Hw2) in He'.
    assert (r = r') as -> by (eapply (sr_distinct s rows R r r' w1 w2); congruence).
    by eapply (walk_once s rows σ R Ho I i j r').
Qed.

(** [reportedRow] finds the row of an entity that has a value or lost it in
    this window, and that alone; the entity is the last of its index. *)
Lemma sim_reported s σ e :
  store_sim s σ → observation s = observed → (known σ e → ∀ e', known σ e' → index e' = index e → (e' <= e)%N) →
  ∃ r, reportedRow s e = Some (r, bool_decide (is_Some (st_live σ !! e) ∨ spec_delta σ e = DeltaRemoved)) ∧
    (is_Some (st_live σ !! e) ∨ spec_delta σ e = DeltaRemoved → delta_at s σ r e).
Proof using All.
  intros (rows & R & I) Ho Hlast.
  assert (Hnew : ∀ r w, rows !! r = Some w → r_owner w = e → newest rows w).
  { intros r w Hw <- r' w' Hw' E. apply Hlast; [| |done]; (eapply row_known; [exact I|by eapply lives_or_tails]). }
  assert (Hrow : is_Some (st_live σ !! e) ∨ spec_delta σ e = DeltaRemoved → ∃ r w, rows !! r = Some w ∧ r_owner w = e).
  { intros [[v Hv]|Hd].
    - destruct (sim_live _ _ _ _ _ R I Hv) as (r & w & _ & Hw & Eo & _). by exists r, w.
    - rewrite Ho in I. destruct (delta_has_row _ _ _ _ e I) as (w & Hw & Eo & _); [by rewrite Hd|].
      destruct Hw as [(r & _ & ?)|(r & _ & ?)]; by exists r, w. }
  assert (Hno : (∀ r w, rows !! r = Some w → r_owner w ≠ e) →
    bool_decide (is_Some (st_live σ !! e) ∨ spec_delta σ e = DeltaRemoved) = false).
  { intros Hn. apply bool_decide_eq_false_2. intros Hc. destruct (Hrow Hc) as (r & w & Hw & Eo). by eapply Hn. }
  unfold reportedRow. destruct (linked s (index e)) as [r|] eqn:El.
  2:{ exists 0. rewrite Hno. { split; [done|]. intros Hc. destruct (Hrow Hc) as (r & w & Hw & <-).
      by destruct (linked_None s rows r w R Hw). }
      intros r w Hw <-. by destruct (linked_None s rows r w R Hw). }
  destruct (linked_Some s rows _ r R El) as (w & Hw & Ei & _). rewrite decide_False by (rewrite (owners_len _ _ R); apply lookup_lt_Some in Hw; lia).
  rewrite (owner_at s rows r w R Hw). cbn [mbind option_bind]. destruct (N.eqb_spec (r_owner w) e) as [Eo|Eo]; cbn [negb].
  2:{ assert (Hn : ∀ r' w', rows !! r' = Some w' → r_owner w' ≠ e).
      { intros r' w' Hw' Eo'. rewrite <- Eo', (linked_row s rows r' w' R Hw') in El by (by eapply Hnew). injection El as ->. congruence. }
      exists 0. rewrite Hno by done. split; [done|]. intros Hc. destruct (Hrow Hc) as (r' & w' & Hw' & Eo'). by destruct (Hn r' w'). }
  exists r. assert (Hd : delta_at s σ r e) by (rewrite <- Eo; by eapply delta_at_row). split; [|done].
  destruct (decide (r < liveRows s)) as [Hr|Hr].
  - rewrite bool_decide_eq_true_2; [done|]. left. exists (r_value w). apply (ri_live _ _ _ _ _ I). exists w. split; [by exists r|done].
  - rewrite (state_at s rows r w R Ho Hw). cbn [mbind option_bind]. f_equal. f_equal. apply bool_decide_ext.
    destruct Hd as [_ Hd]. rewrite (delta_row s rows r w R Ho Hw) in Hd. injection Hd as Hd.
    assert (Ht : tails (liveRows s) rows w) by (exists r; split; [lia|done]).
    assert (Hdead : st_live σ !! e = None) by (rewrite <- Eo; by eapply ri_dead).
    assert (Hst : live_state (r_state w) = false) by (by apply (proj2 (ri_states _ _ _ _ _ I Ho))).
    rewrite Hdead, <- Hd. unfold row_delta. split.
    + intros ->. by right.
    + intros [[? ?]|E]; [done|]. by destruct (r_state w).
Qed.

(** ** Memory *)

Lemma chunk_read_take size (chunks : list (list V)) n row v :
  chunk_read size chunks row = Some v → row < n * rowsPerChunk → chunk_read size (take n chunks) row = Some v.
Proof using Type.
  unfold chunk_read. destruct size; cbn [negb]; [|done]. intros (c & Ec & Hv)%bind_Some Hr.
  rewrite lookup_take_lt by (apply Nat.Div0.div_lt_upper_bound; lia). rewrite Ec. exact Hv.
Qed.

(** Giving memory back loses nothing. *)
Lemma sim_shrink s σ :
  store_sim s σ →
  ∃ s', shrink_store s = Some s' ∧ store_sim s' σ ∧ observation s' = observation s ∧ len s' = len s ∧
    ALen (owners s') = ALen (owners s).
Proof using All.
  intros (rows & R & I). pose proof R as [Hown Hp Hl Hd0 Hb [Hc1 Hc2] Hv Hlive Hob Hq]. unfold shrink_store.
  destruct (array_shrink_repr (owners s) _ Hown) as (o & -> & Ho & _). cbn [mbind option_bind].
  assert (Hst : ∃ l, array_repr (rowStates s) l ∧ (observation s = observed → l = r_state <$> rows) ∧ (observation s ≠ observed → l = [])).
  { destruct (decide (observation s = observed)) as [E|E]; [exists (r_state <$> rows)|exists []]; split_and!; try done; [by apply Hob|by apply Hq]. }
  destruct Hst as (l & Hst & Hl1 & Hl2). destruct (array_shrink_repr (rowStates s) l Hst) as (st & -> & Hst' & _). cbn [mbind option_bind].
  rewrite (owners_len _ _ R). set (used := Nat.min _ _).
  assert (Hused : used ≤ length (valueChunks s)) by apply Nat.le_min_r.
  assert (Hfit : sized s = true → ∀ r w, rows !! r = Some w → r < used * rowsPerChunk).
  { intros Es r w Hw. pose proof (lookup_lt_Some _ _ _ Hw) as Hlt.
    destruct (proj1 (chunk_read_lt (sized s) (valueChunks s) r Hc1)) as [?|Hr]; [eexists; by apply Hv|congruence|].
    unfold used, rowsPerChunk in *. pose proof (Nat.div_mod_eq (length rows + (256 - 1)) 256).
    pose proof (Nat.mod_upper_bound (length rows + (256 - 1)) 256). lia. }
  assert (Hread : ∀ chunks r (v : V), (∃ w, rows !! r = Some w) → chunk_read (sized s) chunks r = Some v →
    chunk_read (sized s) (take used chunks) r = Some v).
  { intros chunks r v [w Hw] Hr. destruct (sized s) eqn:Es; [|done]. apply chunk_read_take; [done|]. by eapply Hfit. }
  clearbody used. rewrite (slice_Some (valueChunks s) 0 used (Nat.le_0_l _) Hused). cbn [mbind option_bind]. rewrite Nat.sub_0_r, drop_0.
  destruct (shrink_spec (λ y : N, y =? 0)%N (rowByIndex s)) as (Hp' & He & _); [by intros y ->%N.eqb_eq|done|].
  assert (Hsl : (if bool_decide (observation s = observed) then slice (shadowChunks s) 0 used else Some (shadowChunks s)) =
    Some (if bool_decide (observation s = observed) then take used (shadowChunks s) else shadowChunks s)).
  { case_bool_decide as E; [|done]. destruct (Hob E) as (_ & El & _). rewrite slice_Some by lia. by rewrite Nat.sub_0_r, drop_0. }
  rewrite Hsl. cbn [mbind option_bind]. eexists. split; [done|].
  assert (R' : store_repr (with_links (with_shadows (with_values (with_states (with_owners s o) st) (take used (valueChunks s)))
      (if bool_decide (observation s = observed) then take used (shadowChunks s) else shadowChunks s))
      (shrink (λ y : N, y =? 0)%N (rowByIndex s))) rows).
  { split; store_cbn; try done.
    - destruct Hl as [H1 H2 H3]. split; [intros r w Hw; rewrite He; by apply H1|intros i; rewrite He; apply H2|intros r w Hw; rewrite He; by eapply H3].
    - split; [by apply Forall_take|]. case_bool_decide; [by apply Forall_take|done].
    - intros r w Hw. apply Hread; [by exists w|]. by apply Hv.
    - intros E. rewrite bool_decide_eq_true_2 by done. destruct (Hob E) as (_ & El & Hsh). rewrite <- (Hl1 E). split_and!; [done| |].
      + rewrite !length_take. lia.
      + intros r w Hw. apply Hread; [by exists w|]. by apply Hsh.
    - intros E. rewrite bool_decide_eq_false_2 by done. destruct (Hq E) as (_ & ? & ?). by rewrite (Hl2 E) in Hst'. }
  split_and!; [by exists rows|done|done|]. by rewrite (owners_len _ _ R').
Qed.
End delta.
