(* ===== verification/StoreHistory.v ===== *)
(** * Histories of a store

    Runs of a store from [newStoreOf] under the operations its world does on
    it, the map it promises alongside. *)

From S2P Require Import Prelude Words Array Entity IndexTable Store StoreRepr StoreSwap StoreSpec StoreRefines StoreWindow.

(** ** What no operation of a store changes

    Whether its component has bytes. *)

Section sized.
Context {V : Type} `{Zero V} `{EqDecision V}.
Implicit Types s : storeResource V.

(** A run of assignments, each of which kept it. *)
Ltac kept :=
  repeat match goal with
  | H : Some _ = Some _ |- _ => injection H as <-
  | H : None = Some _ |- _ => discriminate H
  | H : mbind _ ?o = Some _ |- _ => apply bind_Some in H as (? & ? & H)
  | H : (let '(_, _) := ?x in _) = Some _ |- _ => destruct x
  | H : (if ?b then _ else _) = Some _ |- _ => destruct b eqn:?
  | H : match ?x with _ => _ end = Some _ |- _ => destruct x eqn:?
  end.

Definition keeps (f : storeResource V → option (storeResource V)) : Prop := ∀ s s', f s = Some s' → sized s' = sized s.

Lemma keeps_set_link i x : keeps (λ s, set_link s i x).
Proof using Type. intros s s' E. unfold set_link in E. by kept. Qed.

Lemma keeps_set_owner r e : keeps (λ s, set_owner s r e).
Proof using Type. intros s s' E. unfold set_owner in E. by kept. Qed.

Lemma keeps_set_state r x : keeps (λ s, set_state s r x).
Proof using Type. intros s s' E. unfold set_state in E. by kept. Qed.

Lemma keeps_value_set r v : keeps (λ s, value_set s r v).
Proof using Type. intros s s' E. unfold value_set in E. by kept. Qed.

Lemma keeps_shadow_set r v : keeps (λ s, shadow_set s r v).
Proof using Type. intros s s' E. unfold shadow_set in E. by kept. Qed.

Lemma sized_listChanged s e : sized (listChanged s e) = sized s.
Proof using Type. unfold listChanged. by destruct (decide _). Qed.

(** Ends a goal once every assignment is a [keeps] hypothesis. *)
Ltac chase :=
  repeat match goal with
  | H : set_link ?s ?i ?x = Some ?s' |- _ => apply (keeps_set_link i x s s') in H
  | H : set_owner ?s ?i ?x = Some ?s' |- _ => apply (keeps_set_owner i x s s') in H
  | H : set_state ?s ?i ?x = Some ?s' |- _ => apply (keeps_set_state i x s s') in H
  | H : value_set ?s ?i ?x = Some ?s' |- _ => apply (keeps_value_set i x s s') in H
  | H : shadow_set ?s ?i ?x = Some ?s' |- _ => apply (keeps_shadow_set i x s s') in H
  end; repeat first
    [ progress cbn [sized with_links with_owners with_values with_live with_observation with_shadows with_states with_listing] in *
    | rewrite sized_listChanged in *
    | match goal with
      | H : context [sized (if ?b then _ else _)] |- _ => destruct b
      | |- context [if ?b then _ else _] => destruct b
      end ]; try congruence.

Lemma keeps_swap a b : keeps (λ s, swap s a b).
Proof using Type. intros s s' E. unfold swap in E. kept; chase. Qed.

Lemma sized_add_row s e s' r : add_row s e = Some (s', r) → sized s' = sized s.
Proof using Type.
  intros E. unfold add_row in E. kept; simplify_eq; repeat match goal with
    H : swap _ _ _ = Some _ |- _ => apply keeps_swap in H end; chase.
Qed.

Lemma sized_add s e s' r : add s e = Some (s', r) → sized s' = sized s.
Proof using Type.
  intros E. unfold add in E. kept; simplify_eq; repeat match goal with
    | H : swap _ _ _ = Some _ |- _ => apply keeps_swap in H
    | H : add_row _ _ = Some _ |- _ => apply sized_add_row in H end; chase.
Qed.

Lemma sized_write s e s' r : write s e = Some (s', r) → sized s' = sized s.
Proof using Type. intros E. unfold write, markChanged in E. kept; simplify_eq; chase. Qed.

Lemma sized_remove s e r s' : remove s e r = Some s' → sized s' = sized s.
Proof using Type.
  intros E. unfold remove in E. kept; simplify_eq; repeat match goal with
    H : swap _ _ _ = Some _ |- _ => apply keeps_swap in H end; chase.
Qed.

Lemma sized_for_from (body : nat → storeResource V → option (storeResource V)) n i s s' :
  (∀ j, keeps (body j)) → for_from i n body s = Some s' → sized s' = sized s.
Proof using Type.
  intros Hb. revert i s. induction n as [|n IH]; intros i s E; [by injection E as <-|].
  apply bind_Some in E as (s1 & E1 & E). rewrite (IH _ _ E). by eapply Hb.
Qed.

Lemma sized_startObservation s s' : startObservation s = Some s' → sized s' = sized s.
Proof using Type.
  intros E. unfold startObservation in E. destruct (negb _); [by injection E as <-|].
  apply sized_for_from in E; [done|]. intros j s1 s2 E1. unfold start_state in E1. kept; simplify_eq; chase.
Qed.

Lemma sized_resetObservation s s' : resetObservation s = Some s' → sized s' = sized s.
Proof using Type.
  intros E. unfold resetObservation in E. destruct (negb _); [by injection E as <-|].
  apply bind_Some in E as (s1 & E1 & E). apply bind_Some in E as (s2 & E2 & E).
  apply sized_for_from in E1; [|intros j s3 s4 E3; unfold reset_row in E3; kept; simplify_eq; chase].
  apply sized_for_from in E2; [|intros j s3 s4 E3; unfold drop_row in E3; kept; simplify_eq; chase].
  kept; simplify_eq; chase.
Qed.

Lemma sized_shrink s s' : shrink_store s = Some s' → sized s' = sized s.
Proof using Type. intros E. unfold shrink_store in E. kept; simplify_eq; chase. Qed.

Lemma sized_registerObserver s : sized (registerObserver s) = sized s.
Proof using Type. unfold registerObserver. by destruct (decide _). Qed.
End sized.

Inductive storeOp (V : Type) :=
  (** a value given, in the row [write] finds or [add] makes *)
  | OpSet (e : Entity) (v : V)
  (** the row of an entity removed, if it has one *)
  | OpRemove (e : Entity)
  | OpRegisterObserver
  | OpStart
  | OpReset
  | OpShrink.
Arguments OpSet {V} e v.
Arguments OpRemove {V} e.
Arguments OpRegisterObserver {V}.
Arguments OpStart {V}.
Arguments OpReset {V}.
Arguments OpShrink {V}.

Section history.
Context {V : Type} `{Zero V} `{EqDecision V}.

Implicit Types (s : storeResource V) (σ : storeSpec V) (o : observationState * storeSpec V) (op : storeOp V).

Definition set_value s (e : Entity) (v : V) : option (storeResource V) :=
  '(s, found) ← write s e;
  match found with
  | Some row => value_set s row v
  | None => '(s, row) ← add s e; value_set s row v
  end.

Definition remove_entity s (e : Entity) : option (storeResource V) :=
  '(row, ok) ← row_of s e;
  if ok : bool then remove s e row else Some s.

Definition run_op s op : option (storeResource V) :=
  match op with
  | OpSet e v => set_value s e v
  | OpRemove e => remove_entity s e
  | OpRegisterObserver => Some (registerObserver s)
  | OpStart => startObservation s
  | OpReset => resetObservation s
  | OpShrink => shrink_store s
  end.

Fixpoint run_ops s (ops : list (storeOp V)) : option (storeResource V) :=
  match ops with [] => Some s | op :: ops => s ← run_op s op; run_ops s ops end.

(** ** The promise *)

Definition spec_op o op : observationState * storeSpec V :=
  let '(obs, σ) := o in
  match op with
  | OpSet e v => (obs, match st_live σ !! e with Some _ => sp_set σ e v | None => sp_add σ e v end)
  | OpRemove e => (obs, match st_live σ !! e with Some v => sp_remove σ obs e v | None => σ end)
  | OpRegisterObserver => (if decide (obs = unobserved) then observerWaiting else obs, σ)
  | OpStart => if decide (obs = observerWaiting) then (observed, sp_start σ) else o
  | OpReset => if decide (obs = observed) then (obs, sp_reset σ) else o
  | OpShrink => o
  end.

Definition spec_ops o (ops : list (storeOp V)) : observationState * storeSpec V := foldl spec_op o ops.

Definition emptySpec : storeSpec V := mkStoreSpec ∅ ∅ ∅.

(** The entities a store knows in this window. *)
Definition known_entities σ : list Entity :=
  (map_to_list (st_live σ)).*1 ++ (map_to_list (st_base σ)).*1 ++ (map_to_list (st_gone σ)).*1.

(** [supersedes], to compute with: no other entity of [e]'s index has a value,
    and none that the store knows comes after [e]. *)
Definition may_set σ (e : Entity) : bool :=
  forallb (λ e', negb (index e' =? index e)%N || (e' =? e)%N ||
    bool_decide (st_live σ !! e' = None) && (e' <? e)%N) (known_entities σ).

(** The entities of an index are given values one at a time and in the order
    of their generations, as an entity table hands them out: one only after
    the one before it lost its value.  A store may then have rows of several
    entities of an index, the live one's and those removed in the window. *)
Fixpoint in_generation_order o (ops : list (storeOp V)) : bool :=
  match ops with
  | [] => true
  | op :: ops => match op with OpSet e _ => may_set o.2 e | _ => true end && in_generation_order (spec_op o op) ops
  end.

Lemma elem_of_keys (m : gmap Entity V) e : is_Some (m !! e) → e ∈ (map_to_list m).*1.
Proof using Type. intros [v Hv]. apply list_elem_of_fmap. exists (e, v). split; [done|]. by apply elem_of_map_to_list. Qed.

Lemma may_set_spec σ e : may_set σ e = true → supersedes σ e.
Proof using Type.
  unfold may_set. rewrite forallb_forall. intros Ho e' He' Ei.
  assert (Hk : e' ∈ known_entities σ).
  { unfold known_entities. rewrite !elem_of_app. destruct He' as [?|[?|?]]; [left|right; left|right; right]; by apply elem_of_keys. }
  specialize (Ho e' (proj1 (list_elem_of_In _ _) Hk)). rewrite Ei, N.eqb_refl in Ho. cbn [negb orb] in Ho.
  apply orb_true_iff in Ho as [?%N.eqb_eq|[?%bool_decide_eq_true ?%N.ltb_lt]%andb_true_iff]; [by left|by right].
Qed.

(** ** One operation *)

Lemma sim_newStore size : store_sim (newStoreOf size) emptySpec.
Proof using Type.
  exists []. split.
  - split; cbn; try done; try apply array_empty_repr; [apply empty_ok|split; constructor].
  - assert (Hnone : ∀ x : rowData V, ¬ lives 0 [] x ∧ ¬ tails 0 [] x) by (intros x; split; by intros (j & _ & ?)).
    split; try done.
    + intros w1 w2 [Hw|Hw]; by destruct (Hnone w1).
    + intros w1 w2 Hw; by destruct (Hnone w1).
    + by intros w Hw; destruct (Hnone w).
    + intros e v. unfold emptySpec. cbn [st_live]. rewrite lookup_empty. split; [done|]. intros (w & Hw & _). by destruct (Hnone w).
    + intros _. split_and!; try done. intros w. by destruct (Hnone w).
Qed.

Lemma sim_set_value s σ e v :
  store_sim s σ → supersedes σ e → fits s v → (N.of_nat (ALen (owners s)) + 1 < 2 ^ 32)%N →
  ∃ s', set_value s e v = Some s' ∧
    store_sim s' (match st_live σ !! e with Some _ => sp_set σ e v | None => sp_add σ e v end) ∧
    observation s' = observation s ∧ ALen (owners s') ≤ S (ALen (owners s)).
Proof using All.
  intros HS Hown Hfit Hb. unfold set_value. pose proof (sim_write s σ e HS) as Hw. destruct (st_live σ !! e) as [v0|] eqn:E.
  - destruct Hw as (s1 & r & E1 & HS1 & Hwr & _ & O1 & Z1 & _ & A1). rewrite E1. cbn [mbind option_bind].
    destruct (Hwr v) as (s' & -> & HS' & O' & _ & _ & A'); [unfold fits; by rewrite Z1|].
    exists s'. split_and!; try done; [congruence|lia].
  - rewrite Hw. cbn [mbind option_bind].
    destruct (sim_add s σ e HS E Hown Hb) as (s1 & r & v1 & E1 & HS1 & Hwr & O1 & _ & A1). rewrite E1. cbn [mbind option_bind].
    destruct (Hwr v) as (s' & -> & HS' & O' & _ & _ & A'); [unfold fits; by rewrite (sized_add _ _ _ _ E1)|].
    exists s'. split_and!; try done; [|congruence|lia].
    assert (Es : sp_set (sp_add σ e v1) e v = sp_add σ e v) by (unfold sp_set, sp_add; cbn; by rewrite insert_insert_eq).
    by rewrite <- Es.
Qed.

Lemma sim_remove_entity s σ e :
  store_sim s σ →
  ∃ s', remove_entity s e = Some s' ∧
    store_sim s' (match st_live σ !! e with Some v => sp_remove σ (observation s) e v | None => σ end) ∧
    observation s' = observation s ∧ ALen (owners s') ≤ ALen (owners s).
Proof using All.
  intros HS. unfold remove_entity. destruct (st_live σ !! e) as [v|] eqn:E.
  - destruct (sim_remove s σ e v HS E) as (s' & r & -> & Hr & HS' & O' & _ & A'). cbn [mbind option_bind]. by exists s'.
  - pose proof (sim_get s σ e HS) as Hg. rewrite E in Hg. destruct Hg as (_ & r & ->). cbn [mbind option_bind]. by exists s.
Qed.

Lemma sim_register s σ :
  store_sim s σ → store_sim (registerObserver s) σ ∧
  observation (registerObserver s) = (if decide (observation s = unobserved) then observerWaiting else observation s) ∧
  ALen (owners (registerObserver s)) = ALen (owners s).
Proof using Type.
  intros HS. unfold registerObserver. destruct (decide (observation s = unobserved)) as [Ho|]; [|done].
  destruct HS as (rows & [Hown Hp Hl Hd Hb Hc Hv Hlive Hob Hq] & [Hu Hn Hal Ha Hl' Hq' Hs Hbs Hsm Hg Hls]).
  assert (Hno : observation s ≠ observed) by congruence.
  split; [|done]. exists rows. store_cbn. split; split; store_cbn; try done; intros _; [by apply Hq|by apply Hq'].
Qed.

(** One step of the store against one of its promise. *)
Lemma sim_op s σ op n :
  store_sim s σ → ALen (owners s) ≤ n → (N.of_nat n + 1 < 2 ^ 32)%N →
  match op with OpSet e v => supersedes σ e ∧ fits s v | _ => True end →
  ∃ s', run_op s op = Some s' ∧ store_sim s' (spec_op (observation s, σ) op).2 ∧
    observation s' = (spec_op (observation s, σ) op).1 ∧ ALen (owners s') ≤ S n.
Proof using All.
  intros HS Hn Hb Hown. destruct op as [e v|e| | | |]; cbn [run_op spec_op fst snd].
  - destruct Hown as [Hown Hfit]. destruct (sim_set_value s σ e v HS Hown Hfit) as (s' & E & ? & ? & ?); [lia|]. exists s'. split_and!; try done. lia.
  - destruct (sim_remove_entity s σ e HS) as (s' & E & ? & ? & ?). exists s'. split_and!; try done. lia.
  - destruct (sim_register s σ HS) as (? & ? & ?). eexists. split_and!; try done. lia.
  - destruct (sim_start_observation s σ HS) as (s' & E & HS' & O' & _ & A'). exists s'.
    destruct (decide (observation s = observerWaiting)); cbn; split_and!; try done; lia.
  - destruct (sim_reset s σ HS) as (s' & E & HS' & O' & _ & A'). exists s'.
    destruct (decide (observation s = observed)); cbn; split_and!; try done; lia.
  - destruct (sim_shrink s σ HS) as (s' & E & HS' & O' & _ & A'). exists s'. cbn. split_and!; try done. lia.
Qed.

Lemma sized_op s op s' : run_op s op = Some s' → sized s' = sized s.
Proof using Type.
  destruct op as [e v|e| | | |]; cbn [run_op].
  - unfold set_value. intros ([s1 found] & E1 & E)%bind_Some. apply sized_write in E1. destruct found as [row|].
    + apply keeps_value_set in E. congruence.
    + apply bind_Some in E as ([s2 row] & E2 & E). apply sized_add in E2. apply keeps_value_set in E. congruence.
  - unfold remove_entity. intros ([row ok] & _ & E)%bind_Some. destruct ok; [by apply sized_remove in E|by injection E as <-].
  - intros [= <-]. apply sized_registerObserver.
  - apply sized_startObservation.
  - apply sized_resetObservation.
  - apply sized_shrink.
Qed.

(** A tag is only ever given its one value. *)
Definition fitting (size : bool) (ops : list (storeOp V)) : bool :=
  forallb (λ op, match op with OpSet _ v => size || bool_decide (v = zero_value) | _ => true end) ops.

Lemma fitting_fits s v : (sized s || bool_decide (v = zero_value)) = true → fits s v.
Proof using Type. unfold fits. intros Hf E. rewrite E in Hf. by apply bool_decide_eq_true in Hf. Qed.

Lemma sim_ops ops s σ n :
  store_sim s σ → ALen (owners s) ≤ n → (N.of_nat (n + length ops) < 2 ^ 32)%N →
  in_generation_order (observation s, σ) ops = true → fitting (sized s) ops = true →
  ∃ s', run_ops s ops = Some s' ∧ store_sim s' (spec_ops (observation s, σ) ops).2 ∧
    observation s' = (spec_ops (observation s, σ) ops).1.
Proof using All.
  revert s σ n. induction ops as [|op ops IH]; intros s σ n HS Hn Hb Hone Hf; [by exists s|].
  cbn [in_generation_order run_ops length] in *. apply andb_true_iff in Hone as [Hown Hone].
  unfold fitting in Hf. cbn [forallb] in Hf. apply andb_true_iff in Hf as [Hfit Hf].
  destruct (sim_op s σ op n HS Hn) as (s1 & E1 & HS1 & O1 & A1);
    [lia|destruct op; try done; split; [by apply may_set_spec|by eapply fitting_fits]|].
  rewrite E1. pose proof (sized_op _ _ _ E1) as Z1. cbn [mbind option_bind]. unfold spec_ops. cbn [foldl]. destruct (spec_op (observation s, σ) op) as [obs σ1] eqn:Es.
  cbn [fst snd] in *. subst obs. apply (IH s1 σ1 (S n)); [done|done|lia|done|by rewrite Z1].
Qed.

(** A store that is only given values where it knows no other entity keeps to
    one entity per index. *)
Lemma known_op o op e :
  known (spec_op o op).2 e → known o.2 e ∨ ∃ v, op = OpSet e v.
Proof using Type.
  destruct o as [obs [l b g]]. unfold known. destruct op as [e' v|e'| | | |]; cbn [spec_op snd st_live st_base st_gone].
  - assert (Hi : ∀ m : gmap Entity V, is_Some (<[e' := v]> m !! e) → is_Some (m !! e) ∨ e' = e).
    { intros m [?|[_ Hm]]%lookup_insert_is_Some; auto. }
    assert (Hd : ∀ m : gmap Entity V, is_Some (delete e' m !! e) → is_Some (m !! e)) by (intros m [_ Hm]%lookup_delete_is_Some; done).
    destruct (l !! e'); cbn; intros [[?| ->]%Hi|[?|?]]; try apply Hd in H1; eauto 6.
  - assert (Hd : ∀ m : gmap Entity V, is_Some (delete e' m !! e) → is_Some (m !! e)) by (intros m [_ Hm]%lookup_delete_is_Some; done).
    destruct (l !! e') as [v|] eqn:E; cbn; [|by left]. intros [?%Hd|[?|Hg]]; [by eauto..|]. destruct (decide (obs = observed)); [|by eauto].
    apply lookup_insert_is_Some in Hg as [<-|[_ ?]]; eauto 6.
  - by left.
  - destruct (decide (obs = observerWaiting)); cbn; rewrite ?lookup_empty; intros [?|[?|?]]; eauto; by destruct H0 as [? ?].
  - destruct (decide (obs = observed)); cbn; rewrite ?lookup_empty; intros [?|[?|?]]; eauto; by destruct H0 as [? ?].
  - by left.
Qed.

Lemma indexes_apart_op o op :
  indexes_apart o.2 → match op with OpSet e _ => index_of_own o.2 e | _ => True end → indexes_apart (spec_op o op).2.
Proof using Type.
  intros Ha Hop e e' [He|[v ->]]%known_op [He'|[v' E']]%known_op Ei; [by apply Ha|subst op|by symmetry; apply Hop|congruence].
  by apply Hop.
Qed.

(** ** How many values there are *)

Lemma sim_len s σ : store_sim s σ → len s = size (st_live σ).
Proof using Type.
  intros (rows & R & I). set (l := take (liveRows s) rows).
  assert (Hin : ∀ x, x ∈ l ↔ lives (liveRows s) rows x).
  { intros x. unfold l, lives. rewrite list_elem_of_lookup. setoid_rewrite lookup_take_Some. naive_solver. }
  assert (Hnd : NoDup ((λ w, (r_owner w, r_value w)) <$> l).*1).
  { rewrite <- list_fmap_compose. apply NoDup_fmap_2_strong.
    - intros x y Hx Hy E. apply (ri_unique _ _ _ _ _ I x y); [left; by apply Hin|left; by apply Hin|done].
    - apply NoDup_alt. intros i j x Hi Hj. apply lookup_take_Some in Hi as [Hi _], Hj as [Hj _]. by apply (sr_distinct _ _ R i j x x). }
  assert (Em : st_live σ = list_to_map ((λ w, (r_owner w, r_value w)) <$> l)).
  { apply map_eq. intros e. apply option_eq. intros v. rewrite <- elem_of_list_to_map by done.
    rewrite (ri_live _ _ _ _ _ I), list_elem_of_fmap. split.
    - intros (w & Hw & <- & <-). exists w. split; [done|]. by apply Hin.
    - intros (w & [= -> ->] & Hw). exists w. split; [by apply Hin|done]. }
  unfold len. rewrite Em, map_size_list_to_map by done. rewrite length_fmap. unfold l. rewrite length_take.
  pose proof (sr_live _ _ R). lia.
Qed.

(** ** What the claims read *)

(** The value of an entity, read as [Lookup.Get] does. *)
Definition read s (e : Entity) : option (option V) :=
  found ← get s e;
  match found with None => Some None | Some row => v ← value_at s row; Some (Some v) end.

Lemma sim_read s σ e : store_sim s σ → read s e = Some (st_live σ !! e).
Proof using Type.
  intros HS. unfold read. pose proof (sim_get s σ e HS) as Hg. destruct (st_live σ !! e) as [v|].
  - destruct Hg as (r & -> & _ & Hv). cbn [mbind option_bind]. by rewrite Hv.
  - by destruct Hg as [-> _].
Qed.

(** What became of a value between two moments. *)
Definition difference (before after : option V) : Delta :=
  match before, after with
  | None, Some _ => DeltaAdded
  | Some _, None => DeltaRemoved
  | Some v, Some v' => if decide (v' = v) then DeltaNone else DeltaChanged
  | None, None => DeltaNone
  end.

(** A delta query's walk: it meets each entity whose value came, went or
    changed exactly once, and answers what became of it for every entity it
    meets. *)
Definition walks_differences s (before after : Entity → option V) : Prop :=
  (∀ i, i < walkedRows s → ∃ r e, walk_row s i = Some r ∧ AAt (owners s) r = Some e ∧
    delta s r = Some (difference (before e) (after e))) ∧
  (∀ e, difference (before e) (after e) ≠ DeltaNone →
    ∃ i r, i < walkedRows s ∧ walk_row s i = Some r ∧ AAt (owners s) r = Some e) ∧
  (∀ i j r r' e, i < walkedRows s → j < walkedRows s → walk_row s i = Some r → walk_row s j = Some r' →
    AAt (owners s) r = Some e → AAt (owners s) r' = Some e → i = j).

Lemma sim_differences s σ :
  store_sim s σ → observation s = observed → walks_differences s (λ e, st_base σ !! e) (λ e, st_live σ !! e).
Proof using All.
  intros HS Ho. destruct (sim_walk s σ HS Ho) as (H1 & H2 & H3). split_and!; [| |done].
  - intros i Hi. destruct (H1 i Hi) as (r & e & ? & ? & Hd). by exists r, e.
  - intros e He. destruct (H2 e He) as (i & r & ? & ? & ? & _). by exists i, r.
Qed.

(** Operations that leave the window open. *)
Definition in_window op : bool := match op with OpStart | OpReset => false | _ => true end.

Lemma spec_op_window obs σ op : in_window op = true → obs = observed →
  (spec_op (obs, σ) op).1 = observed ∧ st_base (spec_op (obs, σ) op).2 = st_base σ.
Proof using Type. destruct op as [e v|e| | | |]; try done; intros _ ->; simpl; try destruct (st_live σ !! e); done. Qed.

Lemma spec_ops_window ops σ :
  forallb in_window ops = true →
  (spec_ops (observed, σ) ops).1 = observed ∧ st_base (spec_ops (observed, σ) ops).2 = st_base σ.
Proof using Type.
  unfold spec_ops. revert σ. induction ops as [|op ops IH]; intros σ Hw; [done|]. cbn [foldl forallb] in *.
  apply andb_true_iff in Hw as [H1 H2]. destruct (spec_op_window observed σ op H1 eq_refl) as [E1 E2].
  destruct (spec_op (observed, σ) op) as [obs σ1]. cbn in E1, E2. subst obs. rewrite <- E2. by apply IH.
Qed.

Lemma run_ops_app s ops1 ops2 : run_ops s (ops1 ++ ops2) = s1 ← run_ops s ops1; run_ops s1 ops2.
Proof using Type.
  revert s. induction ops1 as [|op ops1 IH]; intros s; [done|]. simpl. destruct (run_op s op); [apply IH|done].
Qed.

Lemma in_generation_order_app o ops1 ops2 :
  in_generation_order o (ops1 ++ ops2) = in_generation_order o ops1 && in_generation_order (spec_ops o ops1) ops2.
Proof using Type.
  unfold spec_ops. revert o. induction ops1 as [|op ops1 IH]; intros o; [done|]. cbn [app in_generation_order foldl]. by rewrite IH, andb_assoc.
Qed.

Definition start : observationState * storeSpec V := (unobserved, emptySpec).

Lemma sim_history size ops :
  fitting size ops = true → in_generation_order start ops = true → (N.of_nat (length ops) < 2 ^ 32)%N →
  ∃ s, run_ops (newStoreOf size) ops = Some s ∧ store_sim s (spec_ops start ops).2 ∧ observation s = (spec_ops start ops).1.
Proof using All.
  intros Ht Hone Hb. apply (sim_ops ops (newStoreOf size) emptySpec 0); [apply sim_newStore|done|done|done|done].
Qed.

(** C8: A store is a finite map from entities to values: whatever is set,
    removed, observed, reset or shrunk, no operation panics, an entity reads
    as the value last set for it and not since removed, and [len] counts
    them.  Of the entities that share an index one has a value at a time, and
    in a window a later one is never followed by an earlier one
    ([in_generation_order]); a store may then hold rows of several of them. *)
Theorem store_refines_map size ops :
  fitting size ops = true → in_generation_order start ops = true → (N.of_nat (length ops) < 2 ^ 32)%N →
  ∃ s, run_ops (newStoreOf size) ops = Some s ∧
    (∀ e, read s e = Some (st_live (spec_ops start ops).2 !! e)) ∧
    len s = base.size (st_live (spec_ops start ops).2).
Proof using All.
  intros Ht Hone Hb. destruct (sim_history size ops Ht Hone Hb) as (s & E & HS & _). exists s. split_and!; [done| |].
  - intros e. by apply sim_read.
  - by apply sim_len.
Qed.

(** C9: The deltas of an observed store are the differences between its
    values at the last reset and now: the walk of a delta query meets each
    entity whose value came, went or changed exactly once, and answers what
    became of it for every entity it meets.  Entities sharing an index are
    given values one at a time and in the order of their generations; several
    of them may come and go in a window. *)
Theorem store_deltas size ops1 ops2 s1 :
  fitting size (ops1 ++ OpReset :: ops2) = true → in_generation_order start (ops1 ++ OpReset :: ops2) = true →
  (N.of_nat (length (ops1 ++ OpReset :: ops2)) < 2 ^ 32)%N →
  run_ops (newStoreOf size) ops1 = Some s1 → observation s1 = observed → forallb in_window ops2 = true →
  ∃ s2 before after, run_ops s1 (OpReset :: ops2) = Some s2 ∧
    (∀ e, read s1 e = Some (before e) ∧ read s2 e = Some (after e)) ∧
    walks_differences s2 before after.
Proof using All.
  intros Ht Hone Hb E1 Ho1 Hw. destruct (sim_history size _ Ht Hone Hb) as (s2 & E2 & HS2 & Ho2).
  assert (Hone1 : in_generation_order start ops1 = true) by (rewrite in_generation_order_app in Hone; by apply andb_true_iff in Hone as [? _]).
  assert (Ht1 : fitting size ops1 = true) by (unfold fitting in *; rewrite forallb_app in Ht; by apply andb_true_iff in Ht as [? _]).
  destruct (sim_history size ops1 Ht1 Hone1) as (s1' & E1' & HS1 & Ho1'); [rewrite length_app in Hb; lia|].
  assert (s1' = s1) as -> by congruence. rewrite run_ops_app, E1 in E2. cbn [mbind option_bind] in E2.
  unfold spec_ops in HS2, Ho2. rewrite foldl_app in HS2, Ho2. fold (spec_ops start ops1) in HS2, Ho2. cbn [foldl] in HS2, Ho2.
  set (σ1 := (spec_ops start ops1).2) in *.
  assert (Eo : spec_op (spec_ops start ops1) OpReset = (observed, sp_reset σ1)).
  { rewrite Ho1 in Ho1'. unfold σ1. destruct (spec_ops start ops1) as [obs σ]. cbn in *. subst obs. done. }
  rewrite Eo in HS2, Ho2. fold (spec_ops (observed, sp_reset σ1) ops2) in HS2, Ho2.
  destruct (spec_ops_window ops2 (sp_reset σ1) Hw) as [Ew Eb]. rewrite Ew in Ho2.
  set (σ2 := (spec_ops (observed, sp_reset σ1) ops2).2) in *.
  exists s2, (λ e, st_live σ1 !! e), (λ e, st_live σ2 !! e). split; [done|]. split; [intros e; split; by apply sim_read|].
  pose proof (sim_differences s2 σ2 HS2 Ho2) as Hd. rewrite Eb in Hd. exact Hd.
Qed.
End history.

Module Example.
Definition e1 : Entity := makeEntity 1 1.
Definition e2 : Entity := makeEntity 2 1.
Definition e3 : Entity := makeEntity 3 1.
(** The entity after [e1] at its index. *)
Definition e1' : Entity := makeEntity 1 2.

(** A store observed from its first reset on. *)
Definition opening : list (storeOp N) :=
  [OpSet e1 10; OpSet e2 20; OpRegisterObserver; OpStart; OpSet e2 21]%N.
(** A window in which [e1] goes, another entity of its index comes, goes and
    comes back, [e2] changes and [e3] comes. *)
Definition window : list (storeOp N) :=
  [OpRemove e1; OpSet e2 22; OpSet e1' 11; OpRemove e1'; OpSet e1' 12; OpSet e3 30; OpShrink]%N.

Lemma store_refines_map_witness :
  ∃ s, run_ops (V := N) (newStoreOf true) (opening ++ window) = Some s ∧
    (∀ e, read s e = Some (st_live (spec_ops start (opening ++ window)).2 !! e)) ∧
    len s = base.size (st_live (spec_ops start (opening ++ window)).2).
Proof. apply (store_refines_map true (opening ++ window)); [done|by vm_compute|by vm_compute]. Defined.

Lemma store_deltas_witness :
  ∃ s1 s2 before after, run_ops (V := N) (newStoreOf true) opening = Some s1 ∧
    run_ops s1 (OpReset :: window) = Some s2 ∧
    (∀ e, read s1 e = Some (before e) ∧ read s2 e = Some (after e)) ∧
    (∀ i, i < walkedRows s2 → ∃ r e, walk_row s2 i = Some r ∧ AAt (owners s2) r = Some e ∧
      delta s2 r = Some (difference (before e) (after e))).
Proof.
  assert (Ho : observation <$> run_ops (V := N) (newStoreOf true) opening = Some observed) by (by vm_compute).
  destruct (run_ops (V := N) (newStoreOf true) opening) as [s1|] eqn:E; [|done]. injection Ho as Ho.
  destruct (store_deltas true opening window s1) as (s2 & before & after & H1 & H2 & (H3 & _));
    [done|by vm_compute|by vm_compute|done|done|done|].
  exists s1, s2, before, after. exact (conj eq_refl (conj H1 (conj H2 H3))).
Defined.

(** The rows the delta query then meets: two of one index. *)
Example window_deltas :
  (s ← run_ops (V := N) (newStoreOf true) (opening ++ OpReset :: window);
   mapM (λ i, r ← walk_row s i; e ← AAt (owners s) r; d ← delta s r; Some (bool_decide (e = e1), index e, d)) (seq 0 (walkedRows s))) =
  Some [(false, 2, DeltaChanged); (false, 1, DeltaAdded); (false, 3, DeltaAdded); (true, 1, DeltaRemoved)]%N.
Proof. by vm_compute. Qed.

(** A store large enough that its listing takes what changes, until an entity
    comes at the index of one that went: then the walk is over all rows. *)
Definition crowd : list (storeOp N) :=
  ((λ i, OpSet (makeEntity (N.of_nat i) 1) (N.of_nat i)) <$> seq 1 16) ++ [OpRegisterObserver; OpStart].

Example crowd_listing :
  (s ← run_ops (V := N) (newStoreOf true) (crowd ++ [OpReset; OpRemove e1]);
   s' ← run_ops s [OpSet e1' 11]%N;
   d ← mapM (λ i, r ← walk_row s' i; e ← AAt (owners s') r; d ← delta s' r; Some (e, d)) (seq 0 (walkedRows s'));
   Some (changedEntitiesOverflowed s, changedEntitiesOverflowed s', walkedRows s, walkedRows s',
     filter (λ x, x.2 ≠ DeltaNone) d)) =
  Some (false, true, 1, 17, [(e1', DeltaAdded); (e1, DeltaRemoved)]).
Proof. by vm_compute. Qed.

(** The next window's reset drops the row that is not linked, and the entity
    that has the index reads on. *)
Example next_window :
  (s ← run_ops (V := N) (newStoreOf true) (opening ++ OpReset :: window ++ [OpReset; OpRemove e1']);
   v1 ← read s e1; v1' ← read s e1'; d ← mapM (λ i, r ← walk_row s i; e ← AAt (owners s) r; d ← delta s r; Some (index e, d)) (seq 0 (walkedRows s));
   Some (v1, v1', d, len s)) = Some (None, None, [(2, DeltaNone); (3, DeltaNone); (1, DeltaRemoved)]%N, 2).
Proof. by vm_compute. Qed.
End Example.
