(* ===== verification/World.v ===== *)
(** * Worlds of ecs/world.go

    A world is its entities, the store of each component type, its refs and
    its command buffers.  A value is the bytes of its component, [Size id] of
    them, as the raw methods pass it; a typed method is the same on the bytes
    of its type.  The address [put] and [write] answer is a row, and writing
    through it is [value_set].  [None] is a panic.

    The world reaches its refs and command buffers only through two
    interfaces, which RefsLanes.v and Commands.v implement. *)

From Stdlib Require Import Strings.Byte.
From S2P Require Import Prelude Words Array Entity Mask EntityTable Store.

Abbreviation bytes := (list byte) (only parsing).

#[export] Instance byte_dec : EqDecision byte.
Proof. exact byte_eq_dec. Defined.

(** ecs/refs.go's windowedRefs, which are shrinkers too. *)
Class Windowed (R : Type) := {
  refs_startObservation : R → option R;
  refs_resetObservation : R → option R;
  refs_shrink : R → option R
}.

(** ecs/world.go's shrinker, as the command buffers are. *)
Class Shrinker (B : Type) := buffer_shrink : B → option B.

(** What a world relies on: the calls do not panic. *)
Class WindowedLaws (R : Type) `{Windowed R} := {
  refs_ok : R → Prop;
  refs_start_ok r : refs_ok r → ∃ r', refs_startObservation r = Some r' ∧ refs_ok r';
  refs_reset_ok r : refs_ok r → ∃ r', refs_resetObservation r = Some r' ∧ refs_ok r';
  refs_shrink_ok r : refs_ok r → ∃ r', refs_shrink r = Some r' ∧ refs_ok r'
}.
Class ShrinkerLaws (B : Type) `{Shrinker B} := {
  buffer_ok : B → Prop;
  buffer_shrink_ok b : buffer_ok b → ∃ b', buffer_shrink b = Some b' ∧ buffer_ok b'
}.

Section world.
Context (words : nat) (Size : nat → nat).
Context {R B : Type} `{Windowed R} `{Shrinker B}.

Record worldResource := mkWorld {
  entities : entityTable;
  stores : list (storeResource bytes);
  windowedRefs : list R;
  recorders : list B
}.

Implicit Types w : worldResource.

Definition with_entities w t := mkWorld t (stores w) (windowedRefs w) (recorders w).
Definition with_stores w l := mkWorld (entities w) l (windowedRefs w) (recorders w).
Definition with_store w id s := with_stores w (<[id := s]> (stores w)).

(** A new row's bytes. *)
Definition zero_of (id : nat) : Zero bytes := replicate (Size id) x00.

(** ** The resource's operations *)

Definition despawn_row (e : Entity) (id : nat) w : option worldResource :=
  s ← stores w !! id;
  '(row, _) ← row_of s e;
  s ← remove (H := zero_of id) s e row;
  Some (with_store w id s).

Definition despawn w (e : Entity) : option (worldResource * bool) :=
  '(t, (m, ok)) ← EntityTable.despawn words (entities w) e;
  let w := with_entities w t in
  if negb ok then Some (w, false) else
  ids ← maskIDs m;
  w ← for_each ids (despawn_row e) w;
  Some (w, true).

Definition put w (e : Entity) (id : nat) : option (worldResource * option nat) :=
  s ← stores w !! id;
  if negb (alive (entities w) e) then Some (w, None) else
  '(s, value) ← write s e;
  match value with
  | Some row => Some (with_store w id s, Some row)
  | None =>
    '(s, row) ← add (H := zero_of id) s e;
    t ← setComponent (entities w) e id;
    Some (with_entities (with_store w id s) t, Some row)
  end.

Definition remove w (e : Entity) (id : nat) : option (worldResource * bool) :=
  s ← stores w !! id;
  '(row, ok) ← row_of s e;
  if negb ok then Some (w, false) else
  s ← remove (H := zero_of id) s e row;
  t ← unsetComponent (entities w) e id;
  Some (with_entities (with_store w id s) t, true).

(** The bytes a mask's components need. *)
Definition needed w (ids : list nat) : option nat :=
  for_each ids (λ id need, _ ← stores w !! id; Some (need + Size id)) 0.

Definition checkValues w (m : mask) (values : bytes) : option unit :=
  ids ← maskIDs m;
  need ← needed w ids;
  if decide (length values = need) then Some tt else None.

(** Writes a value through the address [put] answered. *)
Definition write_row w (id row : nat) (v : bytes) : option worldResource :=
  s ← stores w !! id;
  s ← value_set s row v;
  Some (with_store w id s).

Definition add_one (e : Entity) (id : nat) (st : worldResource * bytes) : option (worldResource * bytes) :=
  let '(w, values) := st in
  '(w, row) ← put w e id;
  v ← slice values 0 (Size id);
  w ← match row with
      | Some row => write_row w id row v
      | None => if decide (Size id = 0) then Some w else None (* a nil slice of Size bytes *)
      end;
  values ← slice values (Size id) (length values);
  Some (w, values).

Definition addAll w (e : Entity) (m : mask) (values : bytes) : option worldResource :=
  ids ← maskIDs m;
  '(w, _) ← for_each ids (add_one e) (w, values);
  Some w.

Definition each_store (f : nat → storeResource bytes → option (storeResource bytes)) (id : nat) w : option worldResource :=
  s ← stores w !! id; s ← f id s; Some (with_store w id s).

Definition start_store (id : nat) (s : storeResource bytes) := startObservation (H := zero_of id) s.
Definition reset_store (id : nat) (s : storeResource bytes) := Store.resetObservation (H := zero_of id) s.

(** [f] called on each of a list. *)
Definition call_each {A} (f : A → option A) (l : list A) : option (list A) := mapM f l.

Definition resetObservation w : option worldResource :=
  '(t, started) ← endWindow words (entities w);
  let w := with_entities w t in
  if started : bool then
    w ← for_range (length (stores w)) (each_store start_store) w;
    rs ← call_each refs_startObservation (windowedRefs w);
    Some (mkWorld (entities w) (stores w) rs (recorders w))
  else
    w ← for_range (length (stores w)) (each_store reset_store) w;
    rs ← call_each refs_resetObservation (windowedRefs w);
    Some (mkWorld (entities w) (stores w) rs (recorders w)).

Definition shrink_one (_ : nat) (s : storeResource bytes) := shrink_store s.

Definition shrink w : option worldResource :=
  w ← (if observing (entities w) then resetObservation w else Some w);
  t ← shrink_table (entities w);
  let w := with_entities w t in
  w ← for_range (length (stores w)) (each_store shrink_one) w;
  rs ← call_each refs_shrink (windowedRefs w);
  bs ← call_each buffer_shrink (recorders w);
  Some (mkWorld (entities w) (stores w) rs bs).

(** ** What the handles do *)

Definition Alive w (e : Entity) : bool := alive (entities w) e.

Definition Spawn w : option (worldResource * Entity) :=
  '(t, e) ← spawn words (entities w);
  Some (with_entities w t, e).

Definition CreateAt w (e : Entity) : option (worldResource * option placeError) :=
  '(t, err) ← place words (entities w) e;
  Some (with_entities w t, err).

Definition Has w (e : Entity) (id : nat) : option bool :=
  s ← stores w !! id;
  value ← get s e;
  Some (match value with Some _ => true | None => false end).

Definition Get w (e : Entity) (id : nat) : option (option bytes) :=
  s ← stores w !! id;
  value ← get s e;
  match value with None => Some None | Some row => v ← value_at (H := zero_of id) s row; Some (Some v) end.

(** [Write], and [v] written at the address it answers. *)
Definition Write w (e : Entity) (id : nat) (v : bytes) : option (worldResource * bool) :=
  s ← stores w !! id;
  '(s, value) ← write s e;
  let w := with_store w id s in
  match value with None => Some (w, false) | Some row => w ← write_row w id row v; Some (w, true) end.

Definition Add w (e : Entity) (id : nat) (given : bytes) : option (worldResource * bool) :=
  '(w, value) ← put w e id;
  match value with None => Some (w, false) | Some row => w ← write_row w id row given; Some (w, true) end.

Definition AddRaw w (e : Entity) (id : nat) (given : bytes) : option (worldResource * bool) :=
  if decide (length given = Size id) then Add w e id given else None.

(** A delta query of component [id] is declared. *)
Definition observe w (id : nat) : option worldResource :=
  s ← stores w !! id;
  Some (with_store w id (registerObserver s)).

Definition ComponentMask w (e : Entity) : option (mask * bool) := mask_of words (entities w) e.

Definition SpawnRaw w (m : mask) (values : bytes) : option (worldResource * Entity) :=
  _ ← checkValues w m values;
  '(w, e) ← Spawn w;
  if (e =? NoEntity)%N then Some (w, e) else
  w ← addAll w e m values;
  Some (w, e).

Definition CreateAtRaw w (e : Entity) (m : mask) (values : bytes) : option (worldResource * option placeError) :=
  _ ← checkValues w m values;
  '(w, err) ← CreateAt w e;
  match err with
  | Some _ => Some (w, err)
  | None => w ← addAll w e m values; Some (w, None)
  end.

(** [RegisterWorld], of components [0..components-1] registered after it. *)
Definition newWorld (first last : N) (prepared components : nat) (rs : list R) (bs : list B) : option worldResource :=
  let last := if (last =? 0)%N then (2 ^ 32 - 1)%N else last in
  if (last <? first)%N then None else
  t ← EntityTable.init words first last prepared;
  if decide (maskBits words < components) then None else
  Some (mkWorld t ((λ id, newStoreOf (negb (Size id =? 0))) <$> seq 0 components) rs bs).
End world.
Arguments worldResource : clear implicits.
