(* ===== verification/Refs.v ===== *)
(** * Refs of ecs/refs.go

    The values of one type kept outside the stores, each behind a handle of
    an index and a generation: how handles are handed out and reserved, and
    what an observed window remembers of each.  The operations run in the
    option monad, [None] being a panic.  The handle types [Refs],
    [RefsLookup] and [DeltaRefs] of the code only hold the resource, so their
    methods are functions of it here.  A pointer to a value is the slot's
    index: reading through it is [get], writing through it [write_through].
    The fields [name], [transient] and [keys], which no operation of this
    file reads, are left out; [KeyedRefs] adds the keys. *)

From S2P Require Import Prelude Array Entity IndexTable Store.

Record Ref := mkRef { ref_index : N; ref_generation : N }.

#[export] Instance Ref_eq : EqDecision Ref.
Proof. solve_decision. Defined.
#[export] Instance Ref_countable : Countable Ref.
Proof. refine (inj_countable' (λ h, (ref_index h, ref_generation h)) (λ p, mkRef p.1 p.2) _). by intros []. Defined.

Definition zero_ref : Ref := mkRef 0 0.
#[export] Instance Ref_zero : Zero Ref := zero_ref.

Inductive refState := refUnchanged | refChanged | refAdded | refReleased | refDiscarded.

#[export] Instance refState_eq : EqDecision refState.
Proof. solve_decision. Defined.

Inductive placeRefError := RefGenerationZero | RefInsideRange | RefWhereAlive.

Record RefsOptions := mkRefsOptions { opt_first : N; opt_last : N }.

Inductive registerError := RefsTwice | NameTwice | EmptyRange.

Section refs.
Context {T : Type} `{Zero T}.

Record refSlot := mkRefSlot {
  value : T;
  slot_generation : N;
  slot_live : bool;
  state : refState
}.

#[export] Instance refSlot_zero : Zero refSlot := mkRefSlot zero_value 0 false refUnchanged.

Record refsResource := mkRefs {
  ref_slots : indexTable refSlot;
  ref_first : N;
  ref_last : N;
  freeRefs : Array Ref;
  ref_count : Z;
  ref_fresh : Z;
  liveRefs : nat;
  ref_observation : observationState;
  changedRefs : list Ref;
  changedRefsOverflowed : bool
}.

Implicit Types r : refsResource.

Definition set_slots r x := mkRefs x (ref_first r) (ref_last r) (freeRefs r) (ref_count r) (ref_fresh r)
  (liveRefs r) (ref_observation r) (changedRefs r) (changedRefsOverflowed r).
Definition set_free r x := mkRefs (ref_slots r) (ref_first r) (ref_last r) x (ref_count r) (ref_fresh r)
  (liveRefs r) (ref_observation r) (changedRefs r) (changedRefsOverflowed r).
Definition set_count r x := mkRefs (ref_slots r) (ref_first r) (ref_last r) (freeRefs r) x (ref_fresh r)
  (liveRefs r) (ref_observation r) (changedRefs r) (changedRefsOverflowed r).
Definition set_fresh r x := mkRefs (ref_slots r) (ref_first r) (ref_last r) (freeRefs r) (ref_count r) x
  (liveRefs r) (ref_observation r) (changedRefs r) (changedRefsOverflowed r).
Definition set_live r x := mkRefs (ref_slots r) (ref_first r) (ref_last r) (freeRefs r) (ref_count r) (ref_fresh r)
  x (ref_observation r) (changedRefs r) (changedRefsOverflowed r).
Definition set_observation r x := mkRefs (ref_slots r) (ref_first r) (ref_last r) (freeRefs r) (ref_count r)
  (ref_fresh r) (liveRefs r) x (changedRefs r) (changedRefsOverflowed r).
Definition set_listing r x y := mkRefs (ref_slots r) (ref_first r) (ref_last r) (freeRefs r) (ref_count r)
  (ref_fresh r) (liveRefs r) (ref_observation r) x y.

(** ** Registering *)

(** What [registerRefs] checks and creates: [registered] tells that the world
    has refs of this type, [named] that it has refs of this name. *)
Definition registerRefs (registered named : bool) (options : RefsOptions) : result registerError refsResource :=
  if registered then Err RefsTwice else
  if named then Err NameTwice else
  let last := if (opt_last options =? 0)%N then (2 ^ 32 - 1)%N else opt_last options in
  if (last <? opt_first options)%N then Err EmptyRange else
  Ok (mkRefs emptyTable (opt_first options) last emptyArray 0 (Z.of_N (opt_first options)) 0 unobserved [] false).

(** [DeltaRefs.Declare], which has the refs observed from the next reset on. *)
Definition declareDelta r : refsResource :=
  if decide (ref_observation r = unobserved) then set_observation r observerWaiting else r.

(** ** Reading *)

Definition ref_inside r (i : N) : bool := ((ref_first r <=? i) && (i <=? ref_last r))%N.

Definition slot r (h : Ref) : option refSlot :=
  x ← at_ (ref_slots r) (ref_index h);
  if negb (slot_live x) || negb (slot_generation x =? ref_generation h)%N then None else Some x.

Definition get r (h : Ref) : option T := value <$> slot r h.

Definition Alive r (h : Ref) : bool := bool_decide (is_Some (slot r h)).

Definition all r : list (Ref * T) :=
  omap (λ i, x ← at_ (ref_slots r) i;
    if slot_live x then Some (mkRef (u32 i) (slot_generation x), value x) else None) (addresses (ref_slots r)).

(** ** Handing out *)

Definition reserve r : option (refsResource * Ref) :=
  let count := i64 (ref_count r + 1) in
  let reservation := i64 (count - 1) in
  let r := set_count r count in
  let freeCount := Z.of_nat (ALen (freeRefs r)) in
  if (reservation <? freeCount)%Z then
    h ← AAt (freeRefs r) (Z.to_nat (freeCount - 1 - reservation));
    Some (r, h)
  else
    let index := i64 (i64 (ref_fresh r + reservation) - freeCount) in
    if (Z.of_N (ref_last r) <? index)%Z then Some (r, zero_ref)
    else Some (r, mkRef (Z.to_N (index mod 2 ^ 32)) 1).

Definition settleReservations r : option refsResource :=
  let reserved := ref_count r in
  if (reserved =? 0)%Z then Some r else
  let r := set_count r 0 in
  let free := Z.of_nat (ALen (freeRefs r)) in
  let taken := Z.min reserved free in
  a ← AResize (freeRefs r) (Z.to_nat (free - taken));
  let r := set_free r a in
  Some (set_fresh r (Z.min (i64 (ref_fresh r + (reserved - taken))) (Z.of_N (ref_last r) + 1))).

(** [changedEntitiesShift] is 3. *)
Definition listChanged r (h : Ref) : refsResource :=
  if (length (changedRefs r) <? liveRefs r / 8)%nat
  then set_listing r (changedRefs r ++ [h]) (changedRefsOverflowed r)
  else set_listing r (changedRefs r) true.

Definition with_state (x : refSlot) (st : refState) : refSlot := mkRefSlot (value x) (slot_generation x) (slot_live x) st.

(** Writing the slot at an index that has one. *)
Definition put_slot r (i : N) (x : refSlot) : option refsResource :=
  sl ← at_set (ref_slots r) i x;
  Some (set_slots r sl).

Definition store r (h : Ref) (v : T) : option refsResource :=
  sl ← create_modify (ref_slots r) (ref_index h) (λ x, mkRefSlot v (ref_generation h) true (state x));
  let r := set_live (set_slots r sl) (S (liveRefs r)) in
  if decide (ref_observation r = observed) then
    x ← at_ (ref_slots r) (ref_index h);
    r ← put_slot r (ref_index h) (with_state x refAdded);
    Some (listChanged r h)
  else Some r.

Definition new r (v : T) : option (refsResource * Ref) :=
  '(r, h) ← reserve r;
  r ← settleReservations r;
  if decide (h = zero_ref) then Some (r, h) else
  r ← store r h v;
  Some (r, h).

Definition place_ref r (h : Ref) (v : T) : option (refsResource * option placeRefError) :=
  if (ref_generation h =? 0)%N then Some (r, Some RefGenerationZero) else
  if ref_inside r (ref_index h) then Some (r, Some RefInsideRange) else
  if (match at_ (ref_slots r) (ref_index h) with
      | Some x => slot_live x || negb (bool_decide (state x = refUnchanged))
      | None => false end)
  then Some (r, Some RefWhereAlive) else
  r ← store r h v;
  Some (r, None).

(** ** Changing and releasing *)

Definition markChanged r (h : Ref) : option refsResource :=
  if negb (bool_decide (ref_observation r = observed)) then Some r else
  x ← at_ (ref_slots r) (ref_index h);
  if decide (state x = refUnchanged) then
    r ← put_slot r (ref_index h) (with_state x refChanged);
    Some (listChanged r h)
  else Some r.

(** [Refs.Set]. *)
Definition SetRef r (h : Ref) (v : T) : option (refsResource * bool) :=
  match slot r h with
  | None => Some (r, false)
  | Some x =>
    r ← put_slot r (ref_index h) (mkRefSlot v (slot_generation x) (slot_live x) (state x));
    r ← markChanged r h;
    Some (r, true)
  end.

(** A write through the pointer [Get] answered. *)
Definition write_through r (h : Ref) (v : T) : option refsResource :=
  x ← slot r h;
  put_slot r (ref_index h) (mkRefSlot v (slot_generation x) (slot_live x) (state x)).

Definition free_ref r (i : N) : option refsResource :=
  x ← at_ (ref_slots r) i;
  r ← put_slot r i (mkRefSlot zero_value (slot_generation x) (slot_live x) (state x));
  if ref_inside r i then
    '(a, _) ← AAppend (freeRefs r) (mkRef i (nextGeneration (slot_generation x)));
    Some (set_free r a)
  else Some r.

Definition release r (h : Ref) : option (refsResource * bool) :=
  match slot r h with
  | None => Some (r, false)
  | Some x =>
    let x := mkRefSlot (value x) (slot_generation x) false (state x) in
    r ← put_slot r (ref_index h) x;
    let r := set_live r (liveRefs r - 1) in
    if negb (bool_decide (ref_observation r = observed)) then
      r ← free_ref r (ref_index h);
      Some (r, true)
    else match state x with
    | refAdded => r ← put_slot r (ref_index h) (with_state x refDiscarded); Some (r, true)
    | refUnchanged => r ← put_slot r (ref_index h) (with_state x refReleased); Some (listChanged r h, true)
    | _ => r ← put_slot r (ref_index h) (with_state x refReleased); Some (r, true)
    end
  end.

(** [Refs.Release]. *)
Definition ReleaseRef r (h : Ref) : option (refsResource * bool) :=
  r ← settleReservations r;
  release r h.

(** ** Observation windows *)

(** The indices [walkedSlots] yields. *)
Definition walkedSlots r : list N :=
  if negb (changedRefsOverflowed r) then ref_index <$> changedRefs r else addresses (ref_slots r).

(** [DeltaRefs.All]. *)
Definition delta_refs r : option (list (Ref * (Delta * T))) :=
  if negb (bool_decide (ref_observation r = observed)) then Some [] else
  omap id <$> mapM (λ i, x ← at_ (ref_slots r) i;
    let reported d := Some (mkRef (u32 i) (slot_generation x), (d, value x)) in
    Some match state x with
    | refAdded => reported DeltaAdded
    | refChanged => reported DeltaChanged
    | refReleased => reported DeltaReleased
    | _ => None
    end) (walkedSlots r).

Definition start_added (i : N) r : option refsResource :=
  x ← at_ (ref_slots r) i;
  if slot_live x then put_slot r i (with_state x refAdded) else Some r.

Definition startObservation r : option refsResource :=
  if negb (bool_decide (ref_observation r = observerWaiting)) then Some r else
  let r := set_listing (set_observation r observed) (changedRefs r) true in
  for_each (addresses (ref_slots r)) start_added r.

Definition reset_slot (i : N) r : option refsResource :=
  x ← at_ (ref_slots r) i;
  if decide (state x = refUnchanged) then Some r else
  r ← (if bool_decide (state x = refReleased ∨ state x = refDiscarded) then free_ref r i else Some r);
  x ← at_ (ref_slots r) i;
  put_slot r i (with_state x refUnchanged).

Definition resetObservation r : option refsResource :=
  if negb (bool_decide (ref_observation r = observed)) then Some r else
  r ← settleReservations r;
  r ← for_each (walkedSlots r) reset_slot r;
  Some (set_listing r [] false).

(** [isZero] tells a slot whose bytes are all zero. *)
Definition shrink_refs (isZero : refSlot → bool) r : option refsResource :=
  let r := set_slots r (shrink isZero (ref_slots r)) in
  a ← AShrink (freeRefs r);
  Some (set_free r a).
End refs.
Arguments refsResource : clear implicits.
Arguments refSlot : clear implicits.
