(* ===== verification/RefsSpec.v ===== *)
(** * What refs promise

    The contract of refs, as a transition system on finite maps of handles,
    and what the slots keep true of it: which handles come next ([rest]), and
    how a slot's state tells what this window did to its handle ([tracks]). *)

From S2P Require Import Prelude Array Entity IndexTable Store Refs.

(** ** The contract *)

Record refsSpec (T : Type) := mkRefsSpec {
  (** the live refs and their values *)
  rs_live : gmap Ref T;
  (** the reservations no value was stored in *)
  rs_waiting : gset Ref;
  (** the refs ever handed out *)
  rs_handed : gset Ref;
  (** the refs alive when the window began, those set in it, and those
      released in it, with their last values *)
  rs_base : gset Ref;
  rs_touched : gset Ref;
  rs_gone : gmap Ref T;
  rs_observation : observationState
}.
Arguments mkRefsSpec {T} _ _ _ _ _ _ _.
Arguments rs_live {T} _.
Arguments rs_waiting {T} _.
Arguments rs_handed {T} _.
Arguments rs_base {T} _.
Arguments rs_touched {T} _.
Arguments rs_gone {T} _.
Arguments rs_observation {T} _.

Section contract.
Context {T : Type}.
Context (first last : N).
Implicit Types (s : refsSpec T) (h : Ref) (v : T).

Definition ref_in_range (i : N) : Prop := (first <= i ∧ i <= last)%N.

#[export] Instance ref_in_range_dec i : Decision (ref_in_range i).
Proof using Type. unfold ref_in_range. apply _. Defined.

Definition initial_refs : refsSpec T := mkRefsSpec ∅ ∅ ∅ ∅ ∅ ∅ unobserved.

(** The indices of live refs and of those released in this window. *)
Definition held_indices s : gset N := set_map ref_index (dom (rs_live s) ∪ dom (rs_gone s)).
Definition reserved_indices s : gset N := set_map ref_index (rs_waiting s).

(** [h] may be handed out: it never was, and nothing is at its index. *)
Definition may_hand_ref s h : Prop :=
  ref_in_range (ref_index h) ∧ ref_generation h ≠ 0%N ∧ (h ∉ rs_handed s) ∧
  ref_index h ∉ held_indices s ∪ reserved_indices s.

Definition refs_exhausted s : Prop :=
  ∀ i, ref_in_range i → i ∈ held_indices s ∪ reserved_indices s.

Definition rs_reserved s h : refsSpec T :=
  mkRefsSpec (rs_live s) (rs_waiting s ∪ {[h]}) (rs_handed s ∪ {[h]}) (rs_base s) (rs_touched s) (rs_gone s) (rs_observation s).

Definition rs_stored s h v : refsSpec T :=
  mkRefsSpec (<[h := v]> (rs_live s)) (rs_waiting s ∖ {[h]}) (rs_handed s) (rs_base s) (rs_touched s) (rs_gone s) (rs_observation s).

Definition rs_written s h v : refsSpec T :=
  mkRefsSpec (<[h := v]> (rs_live s)) (rs_waiting s) (rs_handed s) (rs_base s) (rs_touched s) (rs_gone s) (rs_observation s).

Definition rs_marked s h : refsSpec T :=
  if decide (rs_observation s = observed)
  then mkRefsSpec (rs_live s) (rs_waiting s) (rs_handed s) (rs_base s) (rs_touched s ∪ {[h]}) (rs_gone s) observed
  else s.

Definition rs_released s h v : refsSpec T :=
  mkRefsSpec (delete h (rs_live s)) (rs_waiting s) (rs_handed s) (rs_base s) (rs_touched s)
    (if decide (rs_observation s = observed) then <[h := v]> (rs_gone s) else rs_gone s) (rs_observation s).

Definition rs_watched s : refsSpec T :=
  mkRefsSpec (rs_live s) (rs_waiting s) (rs_handed s) (rs_base s) (rs_touched s) (rs_gone s)
    (if decide (rs_observation s = unobserved) then observerWaiting else rs_observation s).

(** Every live ref counts as added when observation begins. *)
Definition rs_started s : refsSpec T :=
  if decide (rs_observation s = observerWaiting)
  then mkRefsSpec (rs_live s) (rs_waiting s) (rs_handed s) ∅ ∅ ∅ observed else s.

Definition rs_reset s : refsSpec T :=
  if decide (rs_observation s = observed)
  then mkRefsSpec (rs_live s) (rs_waiting s) (rs_handed s) (dom (rs_live s)) ∅ ∅ observed else s.

Definition place_ref_answer s h : option placeRefError :=
  if decide (ref_generation h = 0%N) then Some RefGenerationZero else
  if decide (ref_in_range (ref_index h)) then Some RefInsideRange else
  if decide (ref_index h ∈ held_indices s) then Some RefWhereAlive else None.

(** What [DeltaRefs] reports of [h]. *)
Definition ref_delta s h : option (Delta * T) :=
  if decide (rs_observation s = observed) then
    match rs_live s !! h with
    | Some v =>
      if decide (h ∈ rs_base s) then if decide (h ∈ rs_touched s) then Some (DeltaChanged, v) else None
      else Some (DeltaAdded, v)
    | None => v ← rs_gone s !! h; if decide (h ∈ rs_base s) then Some (DeltaReleased, v) else None
    end
  else None.
End contract.

#[export] Instance may_hand_ref_dec {T} first last (s : refsSpec T) h : Decision (may_hand_ref first last s h).
Proof. unfold may_hand_ref. apply _. Defined.

(** ** What the slots keep true *)

Section slots.
Context {T : Type} `{Zero T}.
Context (first last : N).
Implicit Types (sl : N → refSlot T) (x : refSlot T) (h : Ref) (s : refsSpec T) (W H : gset Ref).

(** Something is at the slot: a live ref, or one released in this window. *)
Definition used x : Prop := slot_live x = true ∨ state x ≠ refUnchanged.

#[export] Instance used_dec x : Decision (used x).
Proof using Type. unfold used. apply _. Defined.

Definition fits_state (live : bool) (st : refState) : Prop :=
  if live then st = refUnchanged ∨ st = refChanged ∨ st = refAdded
  else st = refUnchanged ∨ st = refReleased ∨ st = refDiscarded.

Definition ref_slot_ok (i : N) x : Prop :=
  fits_state (slot_live x) (state x) ∧ (slot_generation x < 2 ^ 32)%N ∧
  (used x → slot_generation x ≠ 0%N ∧ (i < 2 ^ 32)%N).

(** [h] is the ref its index hands out next, and nothing is there. *)
Definition unborn_ref sl h : Prop :=
  ¬ used (sl (ref_index h)) ∧ ref_generation h = nextGeneration (slot_generation (sl (ref_index h))).

Record refs_ledger sl (rest : list Ref) W H (k : nat) : Prop := {
  rl_slots : ∀ i, ref_slot_ok i (sl i);
  rl_distinct : NoDup (ref_index <$> rest);
  rl_rest : ∀ h, h ∈ rest → unborn_ref sl h ∧ ref_in_range first last (ref_index h) ∧
    ∀ w, w ∈ W → ref_index w ≠ ref_index h;
  rl_waiting : ∀ h, h ∈ W → unborn_ref sl h ∧ ref_in_range first last (ref_index h) ∧ h ∈ H;
  rl_handed : ∀ h, h ∈ H → ref_in_range first last (ref_index h) ∧
    (h ∈ W ∨ (ref_generation h <= slot_generation (sl (ref_index h)))%N);
  rl_complete : ∀ i, ref_in_range first last i →
    i ∈ ref_index <$> rest ∨ used (sl i) ∨ ∃ w, w ∈ W ∧ ref_index w = i;
  rl_generations : ∀ i, ref_in_range first last i → (slot_generation (sl i) <= N.of_nat k)%N
}.

Definition put_at sl (i : N) x : N → refSlot T := λ j, if decide (j = i) then x else sl j.

Lemma put_at_eq sl i x : put_at sl i x i = x.
Proof using Type. unfold put_at. by rewrite decide_True. Qed.

Lemma put_at_ne sl i j x : j ≠ i → put_at sl i x j = sl j.
Proof using Type. intros. unfold put_at. by rewrite decide_False. Qed.

Lemma refs_ledger_ext sl1 sl2 rest W H' k : (∀ i, sl1 i = sl2 i) → refs_ledger sl1 rest W H' k → refs_ledger sl2 rest W H' k.
Proof using Type.
  intros E [H1 H2 H3 H4 H5 H6 H7]. split; try done; unfold unborn_ref in *; try (by setoid_rewrite <- E).
Qed.

Lemma refs_ledger_weaken sl rest W H' k k' : k ≤ k' → refs_ledger sl rest W H' k → refs_ledger sl rest W H' k'.
Proof using Type. intros Hk [H1 H2 H3 H4 H5 H6 H7]. split; try done. intros i Hi%H7. lia. Qed.

(** What comes next was never handed out. *)
Lemma rest_fresh sl rest W H' k h :
  refs_ledger sl rest W H' k → (N.of_nat k < 2 ^ 32 - 1)%N → h ∈ rest → h ∉ H'.
Proof using Type.
  intros L Hk Hh Hin. destruct (rl_rest _ _ _ _ _ L h Hh) as ([_ Hg] & Hr & Hw).
  destruct (rl_handed _ _ _ _ _ L h Hin) as [_ [HW|Hle]]; [by apply (Hw h)|].
  pose proof (rl_generations _ _ _ _ _ L _ Hr). rewrite Hg, nextGeneration_succ in Hle by lia. lia.
Qed.

Lemma ledger_hand sl h rest W H' k :
  refs_ledger sl (h :: rest) W H' k → refs_ledger sl rest (W ∪ {[h]}) (H' ∪ {[h]}) k.
Proof using Type.
  intros [H1 H2 H3 H4 H5 H6 H7]. rewrite fmap_cons in H2. apply NoDup_cons in H2 as [Hn H2].
  destruct (H3 h ltac:(set_solver)) as (Hu & Hr & Hw). split; try done.
  - intros h' Hh'. destruct (H3 h' ltac:(set_solver)) as (Hu' & Hr' & Hw'). split_and!; [done|done|].
    intros w [?| ->%elem_of_singleton]%elem_of_union; [by apply Hw'|]. intros E. apply Hn. rewrite E. by apply list_elem_of_fmap_2.
  - intros h' [Hh'| ->%elem_of_singleton]%elem_of_union; [destruct (H4 h' Hh') as (? & ? & ?); set_solver|set_solver].
  - intros h' [Hh'| ->%elem_of_singleton]%elem_of_union; [destruct (H5 h' Hh') as [? [?|?]]; set_solver|set_solver].
  - intros i Hi. destruct (H6 i Hi) as [Hin|[?|(w & Hw' & E)]]; [|by right; left|right; right; exists w; set_solver].
    rewrite fmap_cons in Hin. apply elem_of_cons in Hin as [->|?]; [|by left]. right; right. exists h. set_solver.
Qed.

(** A value stored in a waiting ref. *)
Lemma ledger_store_waiting sl h rest W H' k v st :
  refs_ledger sl rest W H' k → (N.of_nat k < 2 ^ 32 - 1)%N → (last < 2 ^ 32)%N → h ∈ W →
  fits_state true st →
  refs_ledger (put_at sl (ref_index h) (mkRefSlot v (ref_generation h) true st)) rest (W ∖ {[h]}) H' (S k).
Proof using Type.
  intros [H1 H2 H3 H4 H5 H6 H7] Hk Hl Hh Hst. destruct (H4 h Hh) as ((Hu & Hg) & Hr & HhH).
  pose proof (H7 _ Hr) as Hgen. rewrite nextGeneration_succ in Hg by lia.
  assert (Hsame : ∀ w, w ∈ W → ref_index w = ref_index h → w = h).
  { intros w Hw E. destruct (H4 w Hw) as ((_ & Hg') & _). rewrite E, nextGeneration_succ in Hg' by lia.
    destruct w, h; cbn in *; congruence. }
  assert (Hne : ∀ w, w ∈ W ∖ {[h]} → ref_index w ≠ ref_index h) by (intros w Hw E; apply Hsame in E; set_solver).
  assert (Hub : ∀ h', ref_index h' ≠ ref_index h → unborn_ref sl h' →
    unborn_ref (put_at sl (ref_index h) (mkRefSlot v (ref_generation h) true st)) h').
  { intros h' Hne' Hu'. unfold unborn_ref. by rewrite put_at_ne. }
  split.
  - intros i. unfold put_at. destruct (decide (i = ref_index h)) as [->|]; [|done].
    split_and!; [done|cbn; lia|]. intros _. cbn. split; [lia|]. destruct Hr. lia.
  - done.
  - intros h' Hh'. destruct (H3 h' Hh') as (Hu' & Hr' & Hw'). split_and!; [|done|set_solver].
    apply Hub; [|done]. intros E. by apply (Hw' h).
  - intros w Hw. destruct (H4 w ltac:(set_solver)) as (? & ? & ?). split_and!; [|done|done]. apply Hub; [by apply Hne|done].
  - intros h' Hh'. destruct (H5 h' Hh') as [Hr' Hd']. split; [done|]. unfold put_at.
    destruct (decide (h' = h)) as [->|Hd]; [right; by rewrite decide_True|].
    destruct Hd' as [?|Hle]; [left; set_solver|right]. destruct (decide _) as [E|]; [|done]. cbn. rewrite E in Hle. lia.
  - intros i Hi. unfold put_at. destruct (H6 i Hi) as [?|[?|(w & Hw & E)]]; [by left| |].
    + right; left. destruct (decide _); [by left|done].
    + destruct (decide (w = h)) as [->|]; [|right; right; exists w; set_solver].
      right; left. rewrite decide_True by done. by left.
  - intros i Hi. unfold put_at. destruct (decide (i = ref_index h)) as [->|]; [cbn; lia|]. specialize (H7 i Hi). lia.
Qed.

(** A slot outside the range, or one whose generation stays and that stays used. *)
Lemma ledger_put sl i x rest W H' k :
  refs_ledger sl rest W H' k → ref_slot_ok i x →
  ¬ ref_in_range first last i ∨ used (sl i) ∧ used x ∧ slot_generation x = slot_generation (sl i) →
  refs_ledger (put_at sl i x) rest W H' k.
Proof using Type.
  intros [H1 H2 H3 H4 H5 H6 H7] Hok Hx.
  assert (Hub : ∀ h, ref_in_range first last (ref_index h) → unborn_ref sl h → unborn_ref (put_at sl i x) h).
  { intros h Hr Hu. unfold unborn_ref. rewrite put_at_ne; [done|]. intros E. rewrite <- E in Hx.
    destruct Hx as [?|[Hus _]]; [done|]. by apply (proj1 Hu). }
  split.
  - intros j. unfold put_at. by destruct (decide (j = i)) as [->|].
  - done.
  - intros h Hh. destruct (H3 h Hh) as (? & ? & ?). split_and!; auto.
  - intros h Hh. destruct (H4 h Hh) as (? & ? & ?). split_and!; auto.
  - intros h Hh. destruct (H5 h Hh) as [Hr Hd]. split; [done|]. destruct Hd as [?|Hle]; [by left|right].
    unfold put_at. destruct (decide _) as [E|]; [|done]. rewrite E in *. by destruct Hx as [?|(_ & _ & ->)].
  - intros j Hj. destruct (H6 j Hj) as [?|[?|?]]; [by left| |by right; right]. right; left. unfold put_at.
    destruct (decide (j = i)) as [->|]; [|done]. destruct Hx as [?|(_ & ? & _)]; done.
  - intros j Hj. unfold put_at. destruct (decide (j = i)) as [->|]; [|by apply H7]. destruct Hx as [?|(_ & _ & ->)]; [done|by apply H7].
Qed.

(** A slot given back, its index handed out next. *)
Lemma refs_ledger_free sl i x rest W H' k :
  refs_ledger sl rest W H' k → ref_slot_ok i x → ref_in_range first last i →
  used (sl i) → ¬ used x → slot_generation x = slot_generation (sl i) →
  refs_ledger (put_at sl i x) (mkRef i (nextGeneration (slot_generation (sl i))) :: rest) W H' k.
Proof using Type.
  intros [H1 H2 H3 H4 H5 H6 H7] Hok Hi Hus Hx Eg.
  assert (Hne : ∀ h, unborn_ref sl h → ref_index h ≠ i) by (intros h [Hu _] <-; done).
  assert (Hub : ∀ h, unborn_ref sl h → unborn_ref (put_at sl i x) h).
  { intros h Hu. unfold unborn_ref. by rewrite put_at_ne by (by apply Hne). }
  split.
  - intros j. unfold put_at. by destruct (decide (j = i)) as [->|].
  - rewrite fmap_cons. apply NoDup_cons. split; [|done]. intros (h & E & Hh)%list_elem_of_fmap.
    apply (Hne h); [by apply H3|done].
  - intros h [->|Hh]%elem_of_cons; [|destruct (H3 h Hh) as (? & ? & ?); split_and!; auto].
    cbn [ref_index]. split_and!; [|done|].
    + unfold unborn_ref. cbn [ref_index ref_generation]. rewrite put_at_eq. by rewrite Eg.
    + intros w Hw. apply Hne. by apply H4.
  - intros h Hh. destruct (H4 h Hh) as (? & ? & ?). split_and!; auto.
  - intros h Hh. destruct (H5 h Hh) as [Hr Hd]. split; [done|]. destruct Hd as [?|Hle]; [by left|right].
    unfold put_at. destruct (decide _) as [E|]; [|done]. rewrite E in *. by rewrite Eg.
  - intros j Hj. unfold put_at. rewrite fmap_cons. cbn [ref_index]. destruct (decide (j = i)) as [->|Hd]; [left; set_solver|].
    destruct (H6 j Hj) as [?|?]; [left; set_solver|by right].
  - intros j Hj. unfold put_at. destruct (decide (j = i)) as [->|]; [rewrite Eg|]; by apply H7.
Qed.

(** ** What a slot tells of its refs *)

(** Slot [x] tells of [h], a ref of its index. *)
Definition tracks x h s : Prop :=
  (∀ v, rs_live s !! h = Some v ↔ slot_live x = true ∧ slot_generation x = ref_generation h ∧ value x = v) ∧
  (∀ v, rs_gone s !! h = Some v ↔
    slot_live x = false ∧ state x ≠ refUnchanged ∧ slot_generation x = ref_generation h ∧ value x = v) ∧
  (if decide (rs_observation s = observed) then
    (h ∈ rs_base s ↔ slot_generation x = ref_generation h ∧
      (slot_live x = true ∧ state x ≠ refAdded ∨ state x = refReleased)) ∧
    (slot_live x = true → slot_generation x = ref_generation h → h ∈ rs_base s → (state x = refChanged ↔ h ∈ rs_touched s))
  else state x = refUnchanged ∧ (h ∉ rs_base s) ∧ h ∉ rs_touched s).

Definition all_tracked sl s : Prop := ∀ h, tracks (sl (ref_index h)) h s.

Lemma tracked_live sl s h x v :
  all_tracked sl s → rs_live s !! h = Some v →
  slot_live (sl (ref_index h)) = true ∧ slot_generation (sl (ref_index h)) = ref_generation h ∧ value (sl (ref_index h)) = v.
Proof using Type. intros A. by apply (proj1 (A h)). Qed.

Lemma tracked_used sl s i :
  all_tracked sl s → ref_slot_ok i (sl i) → used (sl i) ↔ i ∈ held_indices s.
Proof using Type.
  intros A Hok. unfold held_indices. rewrite elem_of_map. setoid_rewrite elem_of_union. setoid_rewrite elem_of_dom. split.
  - intros Hu. exists (mkRef i (slot_generation (sl i))). split; [done|]. destruct (A (mkRef i (slot_generation (sl i)))) as (Hl & Hg & _).
    destruct (slot_live (sl i)) eqn:E.
    + left. exists (value (sl i)). by apply Hl.
    + right. exists (value (sl i)). apply Hg. destruct Hu as [Hu|Hu]; [cbn in *; congruence|done].
  - intros (h & -> & [[v Hv]|[v Hv]]); destruct (A h) as (Hl & Hg & _); [left; by eapply Hl|right; by eapply Hg].
Qed.

(** Refs of different indices do not share a slot. *)
Lemma tracked_put sl i x s s' :
  all_tracked sl s → (∀ h, ref_index h = i → tracks x h s') →
  (∀ h, ref_index h ≠ i → rs_live s' !! h = rs_live s !! h ∧ rs_gone s' !! h = rs_gone s !! h ∧
    (h ∈ rs_base s' ↔ h ∈ rs_base s) ∧ (h ∈ rs_touched s' ↔ h ∈ rs_touched s)) →
  rs_observation s' = rs_observation s →
  all_tracked (put_at sl i x) s'.
Proof using Type.
  intros A Hi Hne Ho h. unfold put_at. destruct (decide (ref_index h = i)) as [E|E]; [by apply Hi|].
  destruct (Hne h E) as (E1 & E2 & E3 & E4). specialize (A h). unfold tracks in *. rewrite E1, E2, Ho.
  destruct (decide _); by rewrite E3, E4.
Qed.
End slots.
