(* ===== verification/RefsRefines.v ===== *)
(** * Refs keep their contract

    The relation between refs and the state of their contract, and that
    handing out, storing, changing and releasing keep it. *)

From S2P Require Import Prelude Array Entity IndexTable Store Refs RefsSpec.

Section refines.
Context {T : Type} `{Zero T}.
Context (first last : N).
Implicit Types (r : refsResource T) (s : refsSpec T) (h : Ref) (v : T) (F : list Ref) (n : nat)
  (sl : N → refSlot T) (x : refSlot T).

#[local] Abbreviation slots_of r := (entry (ref_slots r)).
#[local] Abbreviation ledger := (refs_ledger first last).

(** ** The order of handing out *)

Definition fresh_refs (next : Z) : list Ref :=
  (λ j, mkRef (Z.to_N (next + Z.of_nat j)) 1) <$> seq 0 (Z.to_nat (Z.of_N last + 1 - next)).

Definition ref_order r F : list Ref := reverse F ++ fresh_refs (ref_fresh r).
Definition ref_rest r F : list Ref := drop (Z.to_nat (ref_count r)) (ref_order r F).

Definition listing_ok (o : observationState) sl (changed : list Ref) (overflowed : bool) : Prop :=
  if decide (o = observed) then
    overflowed = false → NoDup (ref_index <$> changed) ∧ ∀ i, i ∈ ref_index <$> changed ↔ state (sl i) ≠ refUnchanged
  else changed = [] ∧ overflowed = false.

(** [r] implements [s], its free list being [F], after [n] operations. *)
Record refs_sim n r s F : Prop := {
  rm_range : ref_first r = first ∧ ref_last r = last;
  rm_bounds : (last < 2 ^ 32)%N ∧ (0 <= ref_fresh r <= Z.of_N last + 1)%Z ∧ (0 <= ref_count r <= Z.of_nat n)%Z;
  rm_free : array_repr (freeRefs r) F;
  rm_pages : pages_ok (ref_slots r);
  rm_ledger : ledger (slots_of r) (ref_rest r F) (rs_waiting s) (rs_handed s) n;
  rm_tracks : all_tracked (slots_of r) s;
  rm_count : liveRefs r = size (rs_live s);
  rm_obs : ref_observation r = rs_observation s;
  rm_listing : listing_ok (ref_observation r) (slots_of r) (changedRefs r) (changedRefsOverflowed r)
}.

Lemma refs_sim_mono n n' r s F : n ≤ n' → refs_sim n r s F → refs_sim n' r s F.
Proof using Type. intros Hn [? (? & ? & ?) ? ? ? ? ? ? ?]. split; try done; [lia|by eapply refs_ledger_weaken]. Qed.

Lemma fresh_refs_drop next j :
  (0 <= next)%Z → drop j (fresh_refs next) = fresh_refs (Z.min (next + Z.of_nat j) (Z.of_N last + 1)).
Proof using Type.
  clear H. intros Hn. unfold fresh_refs. rewrite <- fmap_drop, drop_seq. apply list_eq. intros i.
  rewrite !list_lookup_fmap. destruct (decide (Z.of_N last + 1 <= next + Z.of_nat j)%Z).
  - rewrite !lookup_seq_ge by lia. done.
  - destruct (decide (i < Z.to_nat (Z.of_N last + 1 - (next + Z.of_nat j)))).
    + rewrite !lookup_seq_lt by lia. simpl. do 2 f_equal. lia.
    + rewrite !lookup_seq_ge by lia. done.
Qed.

Lemma fresh_refs_lookup next j h :
  fresh_refs next !! j = Some h ↔ h = mkRef (Z.to_N (next + Z.of_nat j)) 1 ∧ (next + Z.of_nat j <= Z.of_N last)%Z.
Proof using Type.
  clear H. unfold fresh_refs. rewrite list_lookup_fmap. destruct (decide (j < Z.to_nat (Z.of_N last + 1 - next))).
  - rewrite lookup_seq_lt by lia. cbn. split; [intros [= <-]; split; [done|lia]|by intros [-> _]].
  - rewrite lookup_seq_ge by lia. cbn. split; [done|lia].
Qed.

(** ** Reserving *)

Lemma reserve_ref_spec n r s F :
  refs_sim n r s F → (Z.of_nat n < 2 ^ 32)%Z →
  reserve r = Some (set_count r (ref_count r + 1), default zero_ref (ref_order r F !! Z.to_nat (ref_count r))).
Proof using Type.
  intros Sim Hn. destruct (rm_bounds _ _ _ _ Sim) as (Hl & Hf & Hc). pose proof (rm_free _ _ _ _ Sim) as Hr.
  destruct (rm_range _ _ _ _ Sim) as [_ El].
  unfold reserve. rewrite (i64_small (ref_count r + 1)) by lia. rewrite (i64_small (_ - 1)) by lia.
  replace (ref_count r + 1 - 1)%Z with (ref_count r) by lia.
  change (freeRefs (set_count r (ref_count r + 1))) with (freeRefs r). unfold ALen. rewrite (array_length _ _ Hr).
  unfold ref_order. destruct (Z.ltb_spec (ref_count r) (Z.of_nat (length F))) as [Hlt|Hge].
  - rewrite lookup_app_l by (rewrite length_reverse; lia). rewrite reverse_lookup by lia.
    replace (length F - S (Z.to_nat (ref_count r))) with (Z.to_nat (Z.of_nat (length F) - 1 - ref_count r)) by lia.
    destruct (lookup_lt_is_Some_2 F (Z.to_nat (Z.of_nat (length F) - 1 - ref_count r))) as [h Hh]; [lia|].
    rewrite (array_read _ _ _ _ Hr Hh), Hh. done.
  - change (ref_fresh (set_count r (ref_count r + 1))) with (ref_fresh r).
    change (ref_last (set_count r (ref_count r + 1))) with (ref_last r). rewrite El.
    rewrite (i64_small (ref_fresh r + ref_count r)) by lia. rewrite i64_small by lia.
    rewrite lookup_app_r by (rewrite length_reverse; lia). rewrite length_reverse.
    set (i := (ref_fresh r + ref_count r - Z.of_nat (length F))%Z).
    destruct (fresh_refs (ref_fresh r) !! (Z.to_nat (ref_count r) - length F)) as [h|] eqn:E.
    + apply fresh_refs_lookup in E as [-> Hle]. destruct (Z.ltb_spec (Z.of_N last) i); [lia|].
      rewrite Z.mod_small by lia. cbn. repeat f_equal. lia.
    + destruct (Z.ltb_spec (Z.of_N last) i) as [|Hle]; [done|]. exfalso.
      assert (E' : fresh_refs (ref_fresh r) !! (Z.to_nat (ref_count r) - length F) =
        Some (mkRef (Z.to_N (ref_fresh r + Z.of_nat (Z.to_nat (ref_count r) - length F))) 1))
        by (apply fresh_refs_lookup; split; [done|lia]). congruence.
Qed.

Lemma rest_next r F h :
  (0 <= ref_count r)%Z → ref_order r F !! Z.to_nat (ref_count r) = Some h →
  ref_rest r F = h :: ref_rest (set_count r (ref_count r + 1)) F.
Proof using Type.
  intros H0 Hh. unfold ref_rest. change (ref_order (set_count r (ref_count r + 1)) F) with (ref_order r F). cbn.
  replace (Z.to_nat (ref_count r + 1)) with (S (Z.to_nat (ref_count r))) by lia. by apply drop_S.
Qed.

Lemma rest_may_hand_ref n r s F h :
  refs_sim n r s F → (N.of_nat n < 2 ^ 32 - 1)%N → h ∈ ref_rest r F → may_hand_ref first last s h.
Proof using Type.
  intros Sim Hn Hh. pose proof (rm_ledger _ _ _ _ Sim) as L. destruct (rl_rest _ _ _ _ _ _ _ L h Hh) as ([Hu Hg] & Hr & Hw).
  split_and!; [done|rewrite Hg; apply nextGeneration_pos|by eapply rest_fresh|].
  rewrite not_elem_of_union. split.
  - rewrite <- (tracked_used _ _ _ (rm_tracks _ _ _ _ Sim) (rl_slots _ _ _ _ _ _ _ L _)). done.
  - unfold reserved_indices. rewrite elem_of_map. intros (w & E & Hin). by apply (Hw w).
Qed.

Lemma rest_refs_exhausted n r s F : refs_sim n r s F → ref_rest r F = [] → refs_exhausted first last s.
Proof using Type.
  intros Sim E i Hi. pose proof (rm_ledger _ _ _ _ Sim) as L. rewrite elem_of_union.
  destruct (rl_complete _ _ _ _ _ _ _ L i Hi) as [Hx|[Hu|(w & Hw & <-)]].
  - rewrite E in Hx. by apply not_elem_of_nil in Hx.
  - left. by apply (tracked_used _ _ _ (rm_tracks _ _ _ _ Sim) (rl_slots _ _ _ _ _ _ _ L _)).
  - right. by apply elem_of_map_2.
Qed.

(** A reservation hands out a ref that may be, unless none may. *)
Lemma sim_reserve_ref n r s F :
  refs_sim n r s F → (N.of_nat n < 2 ^ 32 - 1)%N →
  ∃ r' h, reserve r = Some (r', h) ∧
    (may_hand_ref first last s h ∧ refs_sim (S n) r' (rs_reserved s h) F ∨
     h = zero_ref ∧ refs_exhausted first last s ∧ refs_sim (S n) r' s F).
Proof using Type.
  intros Sim Hn. rewrite (reserve_ref_spec n r s F Sim) by lia. eexists _, _. split; [done|].
  pose proof Sim as [Hrange (Hl & Hf & Hc) Hfree Hpages HL Htr Hlive Hobs Hlist].
  destruct (ref_order r F !! Z.to_nat (ref_count r)) as [h|] eqn:E; cbn [default].
  - left. pose proof (rest_next r F h ltac:(lia) E) as Er. split.
    { eapply rest_may_hand_ref; [done|done|]. rewrite Er. set_solver. }
    split; try done; [cbn; lia|]. rewrite Er in HL. eapply refs_ledger_weaken; [|by apply ledger_hand]. lia.
  - right. apply lookup_ge_None_1 in E. assert (Er : ref_rest r F = []) by (unfold ref_rest; by apply drop_ge).
    split_and!; [done|by eapply rest_refs_exhausted|]. split; try done; [cbn; lia|].
    assert (Er' : ref_rest (set_count r (ref_count r + 1)) F = []) by (unfold ref_rest; apply drop_ge; cbn; change (ref_order (set_count r (ref_count r + 1)) F) with (ref_order r F); lia).
    rewrite Er', <- Er. eapply refs_ledger_weaken; [|exact HL]. lia.
Qed.

(** Settling changes nothing to be seen. *)
Lemma sim_settle_refs n r s F :
  refs_sim n r s F → (N.of_nat n < 2 ^ 32 - 1)%N →
  ∃ r' F', settleReservations r = Some r' ∧ refs_sim n r' s F' ∧ ref_count r' = 0%Z ∧
    ref_slots r' = ref_slots r ∧ ref_observation r' = ref_observation r ∧ liveRefs r' = liveRefs r ∧
    changedRefs r' = changedRefs r ∧ changedRefsOverflowed r' = changedRefsOverflowed r.
Proof using Type.
  intros Sim Hn. unfold settleReservations. destruct (Z.eqb_spec (ref_count r) 0) as [E|E]; [by exists r, F|].
  pose proof Sim as [Hrange (Hl & Hf & Hc) Hfree Hpages HL Htr Hlive Hobs Hlist].
  change (freeRefs (set_count r 0)) with (freeRefs r). unfold ALen. rewrite (array_length _ _ Hfree).
  set (m := Z.to_nat (Z.of_nat (length F) - Z.min (ref_count r) (Z.of_nat (length F)))).
  destruct (array_resize_repr _ _ m Hfree) as (a & -> & Ha). cbn [mbind option_bind].
  assert (Em : resized F m = take m F).
  { unfold resized. replace (m - length F) with 0 by lia. apply app_nil_r. }
  rewrite Em in Ha. eexists _, (take m F). split; [done|]. split; [|done].
  cbn [ref_fresh ref_last set_free set_count]. rewrite (i64_small (_ + _)) by lia. destruct Hrange as [Hfi Hla]. rewrite Hla.
  split; try done; [cbn; lia|].
  replace (ref_rest _ (take m F)) with (ref_rest r F); [done|].
  unfold ref_rest, ref_order. cbn [ref_count set_fresh set_free set_count ref_fresh]. change (Z.to_nat 0) with 0. rewrite drop_0.
  destruct (decide (Z.to_nat (ref_count r) <= length F)) as [Hle|Hgt].
  - rewrite drop_app_le by (rewrite length_reverse; lia). f_equal; [|f_equal; lia].
    rewrite <- (take_drop m F) at 1. rewrite reverse_app, drop_app_ge by (rewrite length_reverse, length_drop; lia).
    rewrite length_reverse, length_drop. replace (_ - _) with 0 by lia. done.
  - rewrite drop_app_ge by (rewrite length_reverse; lia). rewrite length_reverse, fresh_refs_drop by lia.
    assert (m = 0) as -> by lia. simpl. f_equal. lia.
Qed.
End refines.

(** ** Storing, changing and releasing refs

    Each operation on one ref changes its slot, and the slot tells the
    contract's change of it. *)

Section steps.
Context {T : Type} `{Zero T}.
Context (first last : N).
Implicit Types (r : refsResource T) (s : refsSpec T) (h : Ref) (v : T) (F : list Ref) (n : nat)
  (sl : N → refSlot T) (x : refSlot T).

#[local] Abbreviation slots_of r := (entry (ref_slots r)).
#[local] Abbreviation ledger := (refs_ledger first last).
#[local] Abbreviation refs_sim := (refs_sim first last).
#[local] Abbreviation ref_rest := (ref_rest last).

Lemma used_at r i : used (slots_of r i) → at_ (ref_slots r) i = Some (slots_of r i).
Proof using Type. intros Hu. apply entry_nonzero. intros E. rewrite E in Hu. by destruct Hu as [?|[]]. Qed.

Lemma slot_spec r s h :
  all_tracked (slots_of r) s →
  slot r h = (if decide (is_Some (rs_live s !! h)) then Some (slots_of r (ref_index h)) else None) ∧
  (is_Some (rs_live s !! h) → slot_live (slots_of r (ref_index h)) = true).
Proof using Type.
  intros A. destruct (A h) as (Hl & _). unfold slot. destruct (decide _) as [[v Hv]|Hn].
  - apply Hl in Hv as (Hlive & Hg & Hv). rewrite used_at by (by left). cbn [mbind option_bind].
    rewrite Hlive, Hg, N.eqb_refl. done.
  - split; [|done]. destruct (at_ (ref_slots r) (ref_index h)) as [x|] eqn:E; [|done]. cbn [mbind option_bind].
    pose proof (at_entry _ _ _ E) as Ee. destruct (slot_live x) eqn:El; [|done]. cbn [negb orb].
    destruct (N.eqb_spec (slot_generation x) (ref_generation h)) as [Eg|]; [|done].
    destruct Hn. exists (value x). apply Hl. by rewrite Ee.
Qed.

(** [Get] reads the value of a live ref, and nothing of another. *)
Lemma sim_get_ref n r s F h : refs_sim n r s F → get r h = rs_live s !! h.
Proof using Type.
  intros Sim. pose proof (rm_tracks _ _ _ _ _ _ Sim) as A. unfold get. destruct (slot_spec r s h A) as [-> _].
  destruct (rs_live s !! h) as [v|] eqn:E; [|by rewrite decide_False by (by intros [? ?])].
  rewrite decide_True by (by eexists). cbn. by destruct (tracked_live _ _ _ (slots_of r (ref_index h)) v A E) as (_ & _ & ->).
Qed.

Lemma put_slot_spec r i x :
  pages_ok (ref_slots r) → is_Some (at_ (ref_slots r) i) →
  ∃ t, put_slot r i x = Some (set_slots r t) ∧ pages_ok t ∧ (∀ j, entry t j = put_at (slots_of r) i x j) ∧
    ∀ j, is_Some (at_ (ref_slots r) j) → is_Some (at_ t j).
Proof using Type.
  intros Hok Hat. unfold put_slot. destruct (at_set_spec _ _ x Hok Hat) as (sl & -> & Hok' & He). cbn [mbind option_bind].
  exists sl. split_and!; [done|done| |].
  - intros j. unfold entry, put_at. rewrite He. by destruct (decide (j = i)).
  - intros j Hj. rewrite He. by destruct (decide _).
Qed.

Lemma put_at_twice sl i x y j : put_at (put_at sl i x) i y j = put_at sl i y j.
Proof using Type. unfold put_at. by destruct (decide _). Qed.

Lemma all_tracked_ext sl1 sl2 s : (∀ i, sl2 i = sl1 i) → all_tracked sl1 s → all_tracked sl2 s.
Proof using Type. intros E A h. rewrite E. apply A. Qed.

Lemma listing_ok_ext o sl1 sl2 changed b :
  (∀ i, state (sl2 i) ≠ refUnchanged ↔ state (sl1 i) ≠ refUnchanged) → listing_ok o sl1 changed b → listing_ok o sl2 changed b.
Proof using Type.
  unfold listing_ok. intros E Hl. destruct (decide _); [|done]. intros Hb. destruct (Hl Hb) as [H1 H2].
  split; [done|]. intros i. by rewrite H2, E.
Qed.

(** A slot that leaves [refUnchanged] is listed, or the listing stops. *)
Lemma listing_ok_list r sl1 sl2 h :
  listing_ok observed sl1 (changedRefs r) (changedRefsOverflowed r) →
  state (sl1 (ref_index h)) = refUnchanged → state (sl2 (ref_index h)) ≠ refUnchanged →
  (∀ j, j ≠ ref_index h → sl2 j = sl1 j) →
  listing_ok observed sl2 (changedRefs (listChanged r h)) (changedRefsOverflowed (listChanged r h)).
Proof using Type.
  intros Hl H1 H2 Hne. unfold listing_ok in *. rewrite decide_True in * by done. unfold listChanged.
  destruct (_ <? _); cbn; [|done]. intros Hb. destruct (Hl Hb) as [Hn Hi]. rewrite fmap_app. cbn. split.
  - apply NoDup_app. split_and!; [done| |repeat constructor; apply not_elem_of_nil].
    intros i Hin ->%list_elem_of_singleton. by apply Hi in Hin.
  - intros i. rewrite elem_of_app, list_elem_of_singleton. destruct (decide (i = ref_index h)) as [->|Hd].
    + split; [done|by right].
    + rewrite Hi, Hne by done. naive_solver.
Qed.

Lemma listChanged_same r h :
  ref_slots (listChanged r h) = ref_slots r ∧ freeRefs (listChanged r h) = freeRefs r ∧ ref_first (listChanged r h) = ref_first r ∧
  ref_last (listChanged r h) = ref_last r ∧ ref_count (listChanged r h) = ref_count r ∧ ref_fresh (listChanged r h) = ref_fresh r ∧
  liveRefs (listChanged r h) = liveRefs r ∧ ref_observation (listChanged r h) = ref_observation r.
Proof using Type. unfold listChanged. by destruct (_ <? _). Qed.

(** ** Storing *)

(** The slot of a ref that [store] has just stored. *)
Definition stored_slot (o : observationState) h v : refSlot T :=
  mkRefSlot v (ref_generation h) true (if decide (o = observed) then refAdded else refUnchanged).

(** What [store] does to refs where nothing is at [h]'s index. *)
Lemma store_spec r h v :
  pages_ok (ref_slots r) → state (slots_of r (ref_index h)) = refUnchanged →
  listing_ok (ref_observation r) (slots_of r) (changedRefs r) (changedRefsOverflowed r) →
  ∃ r', store r h v = Some r' ∧ pages_ok (ref_slots r') ∧
    (∀ j, slots_of r' j = put_at (slots_of r) (ref_index h) (stored_slot (ref_observation r) h v) j) ∧
    freeRefs r' = freeRefs r ∧ ref_first r' = ref_first r ∧ ref_last r' = ref_last r ∧ ref_count r' = ref_count r ∧
    ref_fresh r' = ref_fresh r ∧ liveRefs r' = S (liveRefs r) ∧ ref_observation r' = ref_observation r ∧
    listing_ok (ref_observation r') (slots_of r') (changedRefs r') (changedRefsOverflowed r').
Proof using Type.
  intros Hok Hun Hlist. unfold store, stored_slot.
  destruct (create_modify_spec (ref_slots r) (ref_index h) (λ x, mkRefSlot v (ref_generation h) true (state x)) Hok)
    as (sl & -> & Hok' & Hat & He & _). cbn [mbind option_bind].
  assert (Hx : at_ sl (ref_index h) = Some (mkRefSlot v (ref_generation h) true refUnchanged)).
  { destruct Hat as [x Hx]. rewrite Hx. f_equal. rewrite <- (at_entry _ _ _ Hx), He, decide_True by done. by rewrite Hun. }
  change (ref_observation (set_live (set_slots r sl) (S (liveRefs r)))) with (ref_observation r).
  destruct (decide (ref_observation r = observed)) as [Ho|Ho].
  - change (ref_slots (set_live (set_slots r sl) (S (liveRefs r)))) with sl. rewrite Hx. cbn [mbind option_bind].
    destruct (put_slot_spec (set_live (set_slots r sl) (S (liveRefs r))) (ref_index h)
      (with_state (mkRefSlot v (ref_generation h) true refUnchanged) refAdded)) as (sl2 & -> & Hok2 & He2 & _); [done|by eexists|].
    cbn [mbind option_bind]. eexists. split; [done|].
    destruct (listChanged_same (set_slots (set_live (set_slots r sl) (S (liveRefs r))) sl2) h) as (E1 & E2 & E3 & E4 & E5 & E6 & E7 & E8).
    rewrite E1, E2, E3, E4, E5, E6, E7, E8.
    assert (Hsl : ∀ j, entry sl2 j = put_at (slots_of r) (ref_index h) (mkRefSlot v (ref_generation h) true refAdded) j).
    { intros j. rewrite He2. unfold put_at. destruct (decide _) as [|Hd]; [done|]. cbn [ref_slots set_live set_slots].
      by rewrite He, decide_False. }
    split_and!; try done. cbn [ref_observation set_slots set_live ref_slots].
    rewrite Ho in *. eapply (listing_ok_list _ (slots_of r)); [exact Hlist|done| |].
    + by rewrite Hsl, put_at_eq.
    + intros j Hj. by rewrite Hsl, put_at_ne.
  - assert (Hsl : ∀ j, entry sl j = put_at (slots_of r) (ref_index h) (mkRefSlot v (ref_generation h) true refUnchanged) j).
    { intros j. rewrite He. unfold put_at. destruct (decide _); [|done]. by rewrite Hun. }
    eexists. split; [done|]. split_and!; try done. cbn [ref_observation set_slots set_live ref_slots].
    unfold listing_ok in *. by rewrite decide_False in * by done.
Qed.

(** A ref stored where nothing is: its slot tells that it is live and new. *)
Lemma tracked_store sl s h v :
  all_tracked sl s → ¬ used (sl (ref_index h)) →
  all_tracked (put_at sl (ref_index h) (stored_slot (rs_observation s) h v)) (rs_stored s h v).
Proof using Type.
  intros A Hu. eapply tracked_put; [exact A| | |done].
  - intros h' E. pose proof (A h') as (Hl & Hg & Ho). rewrite E in *. unfold tracks, stored_slot. cbn.
    assert (Hnl : rs_live s !! h' = None).
    { destruct (rs_live s !! h') as [w|] eqn:Ew; [|done]. destruct (proj1 (Hl w) eq_refl) as (? & _). destruct Hu. by left. }
    assert (Hng : rs_gone s !! h' = None).
    { destruct (rs_gone s !! h') as [w|] eqn:Ew; [|done]. destruct (proj1 (Hg w) eq_refl) as (_ & ? & _). destruct Hu. by right. }
    split_and!.
    + intros w. destruct (decide (h' = h)) as [->|Hd].
      * rewrite lookup_insert_eq. naive_solver.
      * rewrite lookup_insert_ne, Hnl by done. split; [done|]. intros (_ & Eg & _). destruct Hd.
        destruct h, h'; cbn in *; congruence.
    + intros w. rewrite Hng. naive_solver.
    + destruct (decide _); [|by destruct Ho]. destruct Ho as [Hb _].
      assert (Hnb : h' ∉ rs_base s).
      { rewrite Hb. intros (_ & [[? _]|E']); apply Hu; [by left|right; by rewrite E']. }
      split; [|by intros _ _ ?%Hnb]. split; [by intros ?%Hnb|]. intros (_ & [[_ Hc]|Hc]); done.
  - intros h' Hne. cbn. by rewrite lookup_insert_ne by congruence.
Qed.

Lemma stored_ok o h v :
  ref_generation h ≠ 0%N → (ref_generation h < 2 ^ 32)%N → (ref_index h < 2 ^ 32)%N →
  ref_slot_ok (ref_index h) (stored_slot o h v) ∧ fits_state true (state (stored_slot o h v)).
Proof using Type.
  intros H1 H2 H3. unfold stored_slot. cbn.
  assert (fits_state true (if decide (o = observed) then refAdded else refUnchanged)) by (destruct (decide _); cbn; auto).
  by split_and!.
Qed.

(** [store] implements its contract, given what becomes of the ledger. *)
Lemma sim_store_at n n' r s F h v :
  refs_sim n r s F → n ≤ n' → ¬ used (slots_of r (ref_index h)) →
  ledger (put_at (slots_of r) (ref_index h) (stored_slot (rs_observation s) h v)) (ref_rest r F)
    (rs_waiting s ∖ {[h]}) (rs_handed s) n' →
  ∃ r', store r h v = Some r' ∧ refs_sim n' r' (rs_stored s h v) F ∧ ref_count r' = ref_count r.
Proof using Type.
  intros Sim Hn Hu HL'. pose proof Sim as [[Hf Hla] (Hl & Hfr & Hc) Hfree Hpages HL Htr Hlive Hobs Hlist].
  assert (Hun : state (slots_of r (ref_index h)) = refUnchanged).
  { destruct (decide (state (slots_of r (ref_index h)) = refUnchanged)); [done|]. destruct Hu. by right. }
  destruct (store_spec r h v Hpages Hun Hlist) as (r' & -> & Hok & He & E1 & E2 & E3 & E4 & E5 & E6 & E7 & Hlist').
  rewrite Hobs in He. exists r'. split_and!; [done| |done]. split.
  - by rewrite E2, E3.
  - rewrite E4, E5. lia.
  - by rewrite E1.
  - done.
  - unfold RefsRefines.ref_rest, ref_order. rewrite E4, E5. eapply refs_ledger_ext; [|exact HL']. intros i. by rewrite He.
  - eapply all_tracked_ext; [exact He|]. by apply tracked_store.
  - rewrite E6, Hlive. cbn. rewrite map_size_insert_None; [done|].
    destruct (rs_live s !! h) as [w|] eqn:E; [|done]. destruct Hu. left. by eapply (proj1 (Htr h)).
  - by rewrite E7.
  - done.
Qed.

Lemma sim_store_waiting n r s F h v :
  refs_sim n r s F → (N.of_nat n < 2 ^ 32 - 1)%N → h ∈ rs_waiting s →
  ∃ r', store r h v = Some r' ∧ refs_sim (S n) r' (rs_stored s h v) F ∧ ref_count r' = ref_count r.
Proof using Type.
  intros Sim Hn Hh. pose proof (rm_ledger _ _ _ _ _ _ Sim) as L. destruct (rl_waiting _ _ _ _ _ _ _ L h Hh) as ((Hu & _) & _).
  eapply (sim_store_at n (S n)); [done|lia|done|]. unfold stored_slot.
  apply ledger_store_waiting; [done|done|by apply (rm_bounds _ _ _ _ _ _ Sim)|done|].
  destruct (decide _); cbn; auto.
Qed.
End steps.
