(* ===== verification/RefsRelease.v ===== *)
(** * Setting, placing and releasing refs *)

From S2P Require Import Prelude Array Entity IndexTable Store Refs RefsSpec RefsRefines.

Section release.
Context {T : Type} `{Zero T}.
Context (first last : N).
Implicit Types (r : refsResource T) (s : refsSpec T) (h : Ref) (v : T) (F : list Ref) (n : nat)
  (sl : N → refSlot T) (x : refSlot T).

#[local] Abbreviation slots_of r := (entry (ref_slots r)).
#[local] Abbreviation ledger := (refs_ledger first last).
#[local] Abbreviation refs_sim := (refs_sim first last).
#[local] Abbreviation ref_rest := (ref_rest last).

(** ** Values *)

(** Live [h]'s slot, its value and state replaced. *)
Definition set_slot sl h v st : refSlot T := mkRefSlot v (slot_generation (sl (ref_index h))) true st.

(** What [h]'s slot becomes when it is marked changed. *)
Definition marked_state (o : observationState) (st : refState) : refState :=
  if decide (o = observed) then if decide (st = refUnchanged) then refChanged else st else st.

Lemma live_slot_facts sl s h v n rest W H' :
  all_tracked sl s → ledger sl rest W H' n → rs_live s !! h = Some v →
  slot_live (sl (ref_index h)) = true ∧ slot_generation (sl (ref_index h)) = ref_generation h ∧
  value (sl (ref_index h)) = v ∧ fits_state true (state (sl (ref_index h))) ∧ ref_slot_ok (ref_index h) (sl (ref_index h)) ∧
  used (sl (ref_index h)).
Proof using Type.
  intros A L Hv. destruct (tracked_live sl s h (sl (ref_index h)) v A Hv) as (E1 & E2 & E3).
  pose proof (rl_slots _ _ _ _ _ _ _ L (ref_index h)) as Hok. split_and!; try done; [|by left].
  destruct Hok as (Hf & _). by rewrite E1 in Hf.
Qed.

Lemma ref_same_slot sl h h' :
  slot_generation (sl (ref_index h)) = ref_generation h → ref_index h' = ref_index h →
  slot_generation (sl (ref_index h)) = ref_generation h' → h' = h.
Proof using Type. intros E1 E2 E3. destruct h, h'; cbn in *; congruence. Qed.

Lemma tracked_write sl s h v w :
  all_tracked sl s → rs_live s !! h = Some w →
  all_tracked (put_at sl (ref_index h) (set_slot sl h v (state (sl (ref_index h))))) (rs_written s h v).
Proof using Type.
  intros A Hw. pose proof (tracked_live sl s h (sl (ref_index h)) w A Hw) as (E1 & E2 & E3).
  eapply tracked_put; [exact A| |intros h' Hne; cbn; by rewrite lookup_insert_ne by congruence|done].
  intros h' E. pose proof (A h') as (Hl & Hg & Ho). rewrite E, E1 in *. unfold tracks, set_slot. cbn. split_and!; [| |exact Ho].
  - intros u. destruct (decide (h' = h)) as [->|Hd]; [rewrite lookup_insert_eq; naive_solver|].
    rewrite lookup_insert_ne by done. rewrite Hl. split; intros (_ & Eg & _); destruct Hd; by eapply ref_same_slot.
  - intros u. rewrite Hg. naive_solver.
Qed.

Lemma tracked_mark sl s h w :
  all_tracked sl s → rs_live s !! h = Some w → fits_state true (state (sl (ref_index h))) →
  all_tracked (put_at sl (ref_index h) (set_slot sl h (value (sl (ref_index h))) (marked_state (rs_observation s) (state (sl (ref_index h))))))
    (rs_marked s h).
Proof using Type.
  intros A Hw Hf. pose proof (tracked_live sl s h (sl (ref_index h)) w A Hw) as (E1 & E2 & E3).
  unfold rs_marked, marked_state. destruct (decide (rs_observation s = observed)) as [Ho|Ho].
  2:{ eapply all_tracked_ext; [|exact A]. intros i. unfold put_at. destruct (decide _) as [->|]; [|done].
      unfold set_slot. destruct (sl (ref_index h)); cbn in *. by subst. }
  eapply tracked_put; [exact A| |intros h' Hne; cbn; set_solver|done].
  intros h' E. pose proof (A h') as (Hl & Hg & Hb). rewrite decide_True in Hb by done. rewrite E, E1 in *.
  unfold tracks, set_slot. rewrite (decide_True (P := rs_observation _ = observed)) by done. cbn. destruct Hb as [Hb Ht].
  set (st := state (sl (ref_index h))) in *. split_and!.
  - intros u. rewrite Hl. done.
  - intros u. rewrite Hg. naive_solver.
  - rewrite Hb. destruct Hf as [->|[->| ->]]; naive_solver.
  - intros _ Eg Hin. assert (h' = h) as -> by (by eapply ref_same_slot). split; [set_solver|]. intros _.
    apply Hb in Hin as (_ & Hin). destruct Hf as [->|[->| ->]]; naive_solver.
Qed.

Lemma ledger_set sl h v st w s rest W H' n :
  all_tracked sl s → ledger sl rest W H' n → rs_live s !! h = Some w → fits_state true st →
  ledger (put_at sl (ref_index h) (set_slot sl h v st)) rest W H' n.
Proof using Type.
  intros A L Hw Hf. destruct (live_slot_facts sl s h w n rest W H' A L Hw) as (E1 & E2 & E3 & _ & (_ & Hg & Hu) & Hus).
  apply ledger_put; [done| |right; split_and!; [done|by left|done]]. split_and!; [done|done|]. intros _. by apply Hu.
Qed.

Lemma size_write s h v w : rs_live s !! h = Some w → size (rs_live (rs_written s h v)) = size (rs_live s).
Proof using Type. intros Hw. cbn. rewrite map_size_insert. by rewrite Hw. Qed.

(** The slot of live [h] written. *)
Lemma sim_put_value n r s F h v w :
  refs_sim n r s F → rs_live s !! h = Some w →
  ∃ r', put_slot r (ref_index h) (mkRefSlot v (slot_generation (slots_of r (ref_index h))) (slot_live (slots_of r (ref_index h)))
      (state (slots_of r (ref_index h)))) = Some r' ∧ refs_sim n r' (rs_written s h v) F ∧ ref_observation r' = ref_observation r.
Proof using Type.
  intros Sim Hw. pose proof Sim as [Hra Hbo Hfree Hpages HL Htr Hlive Hobs Hlist].
  destruct (live_slot_facts _ s h w n _ _ _ Htr HL Hw) as (E1 & E2 & E3 & Hfs & Hok & Hus). rewrite E1.
  destruct (put_slot_spec r (ref_index h) (set_slot (slots_of r) h v (state (slots_of r (ref_index h))))) as (t & Et & Hokt & He & _);
    [done|rewrite used_at by done; by eexists|].
  exists (set_slots r t). split; [exact Et|]. split; [|done]. split; try done.
  - eapply refs_ledger_ext; [intros i; symmetry; apply He|]. by eapply ledger_set.
  - eapply all_tracked_ext; [exact He|]. by eapply tracked_write.
  - cbn [liveRefs set_slots]. by rewrite Hlive, (size_write s h v w).
  - cbn [ref_observation set_slots ref_slots changedRefs changedRefsOverflowed]. eapply listing_ok_ext; [|exact Hlist]. intros i. rewrite He. unfold put_at.
    by destruct (decide _) as [->|].
Qed.

Lemma sim_markChanged n r s F h w :
  refs_sim n r s F → rs_live s !! h = Some w →
  ∃ r', markChanged r h = Some r' ∧ refs_sim n r' (rs_marked s h) F.
Proof using Type.
  intros Sim Hw. pose proof Sim as [Hra Hbo Hfree Hpages HL Htr Hlive Hobs Hlist].
  destruct (live_slot_facts _ s h w n _ _ _ Htr HL Hw) as (E1 & E2 & E3 & Hfs & Hok & Hus).
  pose proof (tracked_mark _ s h w Htr Hw Hfs) as Htr'.
  unfold markChanged. destruct (decide (ref_observation r = observed)) as [Ho|Ho].
  2:{ rewrite bool_decide_eq_false_2 by done. unfold rs_marked. rewrite decide_False by congruence. by exists r. }
  rewrite bool_decide_eq_true_2 by done. cbn [negb]. rewrite used_at by done. cbn [mbind option_bind].
  unfold marked_state in Htr'. rewrite decide_True in Htr' by congruence.
  assert (Hsame : rs_live (rs_marked s h) = rs_live s ∧ rs_waiting (rs_marked s h) = rs_waiting s ∧
    rs_handed (rs_marked s h) = rs_handed s ∧ rs_observation (rs_marked s h) = rs_observation s).
  { unfold rs_marked. rewrite decide_True by congruence. split_and!; try done. cbn. congruence. }
  destruct Hsame as (S1 & S2 & S3 & S4).
  destruct (decide (state (slots_of r (ref_index h)) = refUnchanged)) as [Eu|Eu].
  2:{ exists r. split; [done|]. split; try done; rewrite ?S1, ?S2, ?S3, ?S4; try done.
      eapply all_tracked_ext; [|exact Htr']. intros i. unfold put_at. destruct (decide _) as [->|]; [|done].
      unfold set_slot. destruct (slots_of r (ref_index h)); cbn in *. by subst. }
  destruct (put_slot_spec r (ref_index h) (with_state (slots_of r (ref_index h)) refChanged)) as (t & -> & Hokt & He & _);
    [done|rewrite used_at by done; by eexists|].
  cbn [mbind option_bind]. eexists. split; [done|].
  destruct (listChanged_same (set_slots r t) h) as (L1 & L2 & L3 & L4 & L5 & L6 & L7 & L8).
  assert (He' : ∀ i, entry t i = put_at (slots_of r) (ref_index h) (set_slot (slots_of r) h (value (slots_of r (ref_index h))) refChanged) i).
  { intros i. rewrite He. unfold put_at, with_state, set_slot. by rewrite E1. }
  split; rewrite ?L1, ?L2, ?L3, ?L4, ?L5, ?L6, ?L7, ?L8, ?S1, ?S2, ?S3, ?S4; try done.
  - eapply refs_ledger_ext; [intros i; symmetry; apply He'|].
    unfold RefsRefines.ref_rest, ref_order. rewrite L5, L6. eapply ledger_set; [done|exact HL|done|]. cbn. auto.
  - eapply all_tracked_ext; [exact He'|done].
  - cbn [ref_observation set_slots]. rewrite Ho in *. eapply (listing_ok_list _ (slots_of r)); [exact Hlist|done| |].
    + cbn [ref_slots set_slots]. by rewrite He', put_at_eq.
    + intros j Hj. cbn [ref_slots set_slots]. by rewrite He', put_at_ne.
Qed.

(** [Set] stores the value of a live ref and marks it, and refuses another. *)
Lemma sim_set n r s F h v :
  refs_sim n r s F →
  ∃ r', SetRef r h v = Some (r', bool_decide (is_Some (rs_live s !! h))) ∧
    refs_sim n r' (if decide (is_Some (rs_live s !! h)) then rs_marked (rs_written s h v) h else s) F.
Proof using Type.
  intros Sim. unfold SetRef. destruct (slot_spec r s h (rm_tracks _ _ _ _ _ _ Sim)) as [-> _].
  destruct (decide (is_Some (rs_live s !! h))) as [[w Hw]|Hn].
  2:{ exists r. by rewrite bool_decide_eq_false_2. }
  rewrite bool_decide_eq_true_2 by (by eexists).
  destruct (sim_put_value n r s F h v w Sim Hw) as (r1 & -> & Sim1 & _). cbn [mbind option_bind].
  destruct (sim_markChanged n r1 (rs_written s h v) F h v Sim1) as (r2 & -> & Sim2); [apply lookup_insert_eq|].
  by exists r2.
Qed.

(** A write through the pointer of a live ref changes its value alone. *)
Lemma sim_write_through n r s F h v w :
  refs_sim n r s F → rs_live s !! h = Some w →
  ∃ r', write_through r h v = Some r' ∧ refs_sim n r' (rs_written s h v) F.
Proof using Type.
  intros Sim Hw. unfold write_through. destruct (slot_spec r s h (rm_tracks _ _ _ _ _ _ Sim)) as [-> _].
  rewrite decide_True by (by eexists). cbn [mbind option_bind].
  destruct (sim_put_value n r s F h v w Sim Hw) as (r1 & -> & Sim1 & _). by exists r1.
Qed.
(** ** Placing *)

Lemma ref_inside_spec n r s F i : refs_sim n r s F → ref_inside r i = bool_decide (ref_in_range first last i).
Proof using Type.
  intros Sim. destruct (rm_range _ _ _ _ _ _ Sim) as [E1 E2]. unfold ref_inside. rewrite E1, E2. unfold ref_in_range.
  destruct (N.leb_spec first i), (N.leb_spec i last); simpl; symmetry;
    (apply bool_decide_eq_true || apply bool_decide_eq_false); lia.
Qed.

Lemma held_spec n r s F i :
  refs_sim n r s F →
  match at_ (ref_slots r) i with
  | Some x => slot_live x || negb (bool_decide (state x = refUnchanged))
  | None => false
  end = bool_decide (i ∈ held_indices s).
Proof using Type.
  intros Sim. symmetry. pose proof (tracked_used _ _ i (rm_tracks _ _ _ _ _ _ Sim) (rl_slots _ _ _ _ _ _ _ (rm_ledger _ _ _ _ _ _ Sim) i)) as Hu.
  destruct (at_ (ref_slots r) i) as [x|] eqn:E.
  - rewrite (at_entry _ _ _ E) in Hu. destruct (slot_live x) eqn:El; cbn [orb].
    + apply bool_decide_eq_true_2, Hu. by left.
    + destruct (decide (state x = refUnchanged)) as [Es|Es].
      * rewrite (bool_decide_eq_true_2 _ Es). apply bool_decide_eq_false_2. rewrite <- Hu. intros [?|?]; congruence.
      * rewrite (bool_decide_eq_false_2 _ Es). apply bool_decide_eq_true_2, Hu. by right.
  - apply bool_decide_eq_false_2. rewrite <- Hu. unfold entry. rewrite E. by intros [?|[]].
Qed.

(** [place] answers the contract's error, or stores the value. *)
Lemma sim_place n r s F h v :
  refs_sim n r s F → (ref_generation h < 2 ^ 32)%N → (ref_index h < 2 ^ 32)%N →
  ∃ r', place_ref r h v = Some (r', place_ref_answer first last s h) ∧
    refs_sim n r' (if decide (place_ref_answer first last s h = None) then rs_stored s h v else s) F.
Proof using Type.
  intros Sim Hg Hi. unfold place_ref, place_ref_answer.
  rewrite (ref_inside_spec n r s F _ Sim), (held_spec n r s F _ Sim).
  destruct (N.eqb_spec (ref_generation h) 0) as [E|E]; [exists r; by rewrite !(decide_True _ _ E)|rewrite !(decide_False _ _ E)].
  destruct (decide (ref_in_range first last (ref_index h))) as [Er|Er];
    [exists r; by rewrite (bool_decide_eq_true_2 _ Er)|rewrite (bool_decide_eq_false_2 _ Er)].
  destruct (decide (ref_index h ∈ held_indices s)) as [Eh|Eh];
    [exists r; by rewrite (bool_decide_eq_true_2 _ Eh)|rewrite (bool_decide_eq_false_2 _ Eh)].
  pose proof (rm_ledger _ _ _ _ _ _ Sim) as L. pose proof (rl_slots _ _ _ _ _ _ _ L) as Hok.
  assert (Hu : ¬ used (slots_of r (ref_index h))) by (by rewrite (tracked_used _ _ _ (rm_tracks _ _ _ _ _ _ Sim) (Hok _))).
  destruct (sim_store_at first last n n r s F h v Sim ltac:(done) Hu) as (r' & -> & Sim' & _).
  { replace (rs_waiting s ∖ {[h]}) with (rs_waiting s).
    - apply ledger_put; [done|by apply stored_ok|by left].
    - apply leibniz_equiv. symmetry. apply difference_disjoint. intros w Hw ->%elem_of_singleton.
      by destruct (rl_waiting _ _ _ _ _ _ _ L h Hw) as (_ & ? & _). }
  exists r'. by rewrite decide_True.
Qed.

(** ** Releasing *)

(** A slot put back on the free list. *)
Lemma free_ref_spec r i F :
  pages_ok (ref_slots r) → is_Some (at_ (ref_slots r) i) → array_repr (freeRefs r) F →
  ∃ t a, free_ref r i = Some (set_free (set_slots r t) a) ∧ pages_ok t ∧
    (∀ j, entry t j = put_at (slots_of r) i
      (mkRefSlot zero_value (slot_generation (slots_of r i)) (slot_live (slots_of r i)) (state (slots_of r i))) j) ∧
    array_repr a (if ref_inside r i then F ++ [mkRef i (nextGeneration (slot_generation (slots_of r i)))] else F) ∧
    (∀ j, is_Some (at_ (ref_slots r) j) → is_Some (at_ t j)).
Proof using Type.
  intros Hok Hat Hr. unfold free_ref. destruct Hat as [x Hx]. rewrite Hx. cbn [mbind option_bind]. rewrite (at_entry _ _ _ Hx).
  destruct (put_slot_spec r i (mkRefSlot zero_value (slot_generation x) (slot_live x) (state x)) Hok)
    as (t & -> & Hokt & He & Hk); [by eexists|]. cbn [mbind option_bind].
  change (ref_inside (set_slots r t) i) with (ref_inside r i). change (freeRefs (set_slots r t)) with (freeRefs r).
  destruct (ref_inside r i).
  - destruct (array_append_repr _ _ (mkRef i (nextGeneration (slot_generation x))) Hr) as (a & -> & Ha). cbn [mbind option_bind].
    exists t, a. by split_and!.
  - exists t, (freeRefs r). by split_and!.
Qed.

(** The slot of a released ref. *)
Definition released_slot (o : observationState) x : refSlot T :=
  if decide (o = observed)
  then mkRefSlot (value x) (slot_generation x) false (if decide (state x = refAdded) then refDiscarded else refReleased)
  else mkRefSlot zero_value (slot_generation x) false (state x).

Lemma tracked_release sl s h w :
  all_tracked sl s → rs_live s !! h = Some w → fits_state true (state (sl (ref_index h))) →
  all_tracked (put_at sl (ref_index h) (released_slot (rs_observation s) (sl (ref_index h)))) (rs_released s h w).
Proof using Type.
  intros A Hw Hf. destruct (tracked_live sl s h (sl (ref_index h)) w A Hw) as (E1 & E2 & E3).
  eapply tracked_put; [exact A| | |done].
  2:{ intros h' Hne. cbn. rewrite lookup_delete_ne by congruence. destruct (decide _); [|done]. by rewrite lookup_insert_ne by congruence. }
  intros h' E. pose proof (A h') as (Hl & Hg & Hb). rewrite E, E1 in *. unfold tracks, released_slot.
  change (rs_observation (rs_released s h w)) with (rs_observation s). cbn.
  assert (Hd : rs_live (rs_released s h w) !! h' = None).
  { cbn. destruct (decide (h' = h)) as [->|Hd]; [apply lookup_delete_eq|]. rewrite lookup_delete_ne by done.
    destruct (rs_live s !! h') as [u|] eqn:Eu; [|done]. destruct (proj1 (Hl u) eq_refl) as (_ & Eg & _). destruct Hd. by eapply ref_same_slot. }
  cbn in Hd. rewrite Hd.
  assert (Hng : rs_gone s !! h' = None) by (destruct (rs_gone s !! h') as [u|] eqn:Eu; [by destruct (proj1 (Hg u) eq_refl)|done]).
  destruct (decide (rs_observation s = observed)) as [Ho|Ho]; cbn.
  - destruct Hb as [Hb _]. set (st := state (sl (ref_index h))) in *. split_and!.
    + intros u. naive_solver.
    + intros u. destruct (decide (h' = h)) as [->|Hne].
      * rewrite lookup_insert_eq, E3. destruct (decide _); naive_solver.
      * rewrite lookup_insert_ne, Hng by done. split; [done|]. intros (_ & _ & Eg & _). destruct Hne. by eapply ref_same_slot.
    + rewrite Hb. destruct Hf as [->|[->| ->]]; destruct (decide _); naive_solver.
    + done.
  - destruct Hb as [Hs Hb]. rewrite Hs in *. split_and!; [naive_solver| |done|by apply Hb|by apply Hb].
    intros u. rewrite Hng. naive_solver.
Qed.

Lemma size_release s h w : rs_live s !! h = Some w → size (rs_live (rs_released s h w)) = size (rs_live s) - 1.
Proof using Type. intros Hw. cbn. rewrite map_size_delete. rewrite Hw. lia. Qed.

(** What [release] does to the ledger: the index comes next, unless this
    window or the range keeps it back. *)
Lemma ledger_release n r s F h w :
  refs_sim n r s F → rs_live s !! h = Some w → ref_count r = 0%Z →
  ledger (put_at (slots_of r) (ref_index h) (released_slot (rs_observation s) (slots_of r (ref_index h))))
    (if decide (rs_observation s = observed) then ref_rest r F else
      if decide (ref_in_range first last (ref_index h))
      then mkRef (ref_index h) (nextGeneration (slot_generation (slots_of r (ref_index h)))) :: ref_rest r F else ref_rest r F)
    (rs_waiting s) (rs_handed s) n.
Proof using Type.
  intros Sim Hw Hc. pose proof Sim as [Hra Hbo Hfree Hpages HL Htr Hlive Hobs Hlist].
  destruct (live_slot_facts _ s h w n _ _ _ Htr HL Hw) as (E1 & E2 & E3 & Hf & (_ & Hg & Hu) & Hus).
  unfold released_slot. destruct (decide (rs_observation s = observed)) as [Ho|Ho].
  - apply ledger_put; [done| |right; split_and!; [done| |done]].
    + split_and!; [cbn; destruct (decide _); auto|done|]. intros _. by apply Hu.
    + right. cbn. by destruct (decide _).
  - destruct (Htr h) as (_ & _ & Hs). rewrite decide_False in Hs by done. destruct Hs as [Hs _]. rewrite Hs.
    assert (Hnu : ¬ used (mkRefSlot (T := T) zero_value (slot_generation (slots_of r (ref_index h))) false refUnchanged)) by (by intros [?|[]]).
    destruct (decide _) as [Hr|Hr].
    + apply refs_ledger_free; try done. split_and!; [cbn; auto|done|done].
    + apply ledger_put; [done| |by left]. split_and!; [cbn; auto|done|done].
Qed.
End release.
