(* ===== verification/RefsReset.v ===== *)
(** * Releases, observation windows and resets of refs

    What a release and a window do to the deltas; then the resets, what their
    walks yield, and their memory. *)

From S2P Require Import Prelude Array Entity IndexTable Store Refs RefsSpec RefsRefines RefsRelease.

Section window.
Context {T : Type} `{Zero T}.
Context (first last : N).
Implicit Types (r : refsResource T) (s : refsSpec T) (h : Ref) (v : T) (F : list Ref) (n : nat)
  (sl : N → refSlot T) (x : refSlot T).

#[local] Abbreviation slots_of r := (entry (ref_slots r)).
#[local] Abbreviation ledger := (refs_ledger first last).
#[local] Abbreviation refs_sim := (refs_sim first last).
#[local] Abbreviation ref_rest := (ref_rest last).

(** With nothing reserved, what is appended comes next. *)
Lemma rest_append r r' F h :
  ref_count r = 0%Z → ref_count r' = 0%Z → ref_fresh r' = ref_fresh r → ref_rest r' (F ++ [h]) = h :: ref_rest r F.
Proof using Type.
  intros E1 E2 E3. unfold RefsRefines.ref_rest, ref_order. rewrite E1, E2, E3. change (Z.to_nat 0) with 0.
  by rewrite !drop_0, reverse_snoc.
Qed.

Lemma rest_same r r' F : ref_count r' = ref_count r → ref_fresh r' = ref_fresh r → ref_rest r' F = ref_rest r F.
Proof using Type. intros E1 E2. unfold RefsRefines.ref_rest, ref_order. by rewrite E1, E2. Qed.

(** Releasing without observation frees the slot at once. *)
Lemma release_unobserved n r s F h w :
  refs_sim n r s F → rs_live s !! h = Some w → ref_count r = 0%Z → rs_observation s ≠ observed →
  ∃ r' F', release r h = Some (r', true) ∧ refs_sim n r' (rs_released s h w) F'.
Proof using Type.
  intros Sim Hw Hc Ho. pose proof Sim as [Hra Hbo Hfree Hpages HL Htr Hlive Hobs Hlist].
  destruct (live_slot_facts first last _ s h w n _ _ _ Htr HL Hw) as (E1 & E2 & E3 & Hf & _ & Hus).
  pose proof (ledger_release first last n r s F h w Sim Hw Hc) as HL'. rewrite (decide_False _ _ Ho) in HL'.
  pose proof (tracked_release _ s h w Htr Hw Hf) as Htr'.
  unfold release. destruct (slot_spec r s h Htr) as [-> _]. rewrite decide_True by (by eexists).
  destruct (put_slot_spec r (ref_index h) (mkRefSlot (value (slots_of r (ref_index h))) (slot_generation (slots_of r (ref_index h)))
    false (state (slots_of r (ref_index h))))) as (t & -> & Hokt & He & Hk); [done|rewrite used_at by done; by eexists|].
  cbn [mbind option_bind]. change (ref_observation (set_live (set_slots r t) (liveRefs (set_slots r t) - 1))) with (ref_observation r).
  rewrite bool_decide_eq_false_2 by congruence. cbn [negb].
  destruct (free_ref_spec (set_live (set_slots r t) (liveRefs (set_slots r t) - 1)) (ref_index h) F) as (t2 & a & -> & Hok2 & He2 & Ha & _);
    [done|cbn; apply Hk; rewrite used_at by done; by eexists|done|].
  cbn [mbind option_bind].
  change (ref_slots (set_live (set_slots r t) (liveRefs (set_slots r t) - 1))) with t in He2, Ha.
  change (ref_inside (set_live (set_slots r t) (liveRefs (set_slots r t) - 1))) with (ref_inside r) in Ha.
  assert (Hsl : ∀ j, entry t2 j = put_at (slots_of r) (ref_index h) (released_slot (rs_observation s) (slots_of r (ref_index h))) j).
  { intros j. rewrite He2. unfold put_at. destruct (decide (j = ref_index h)) as [->|Hd].
    - rewrite He, put_at_eq. unfold released_slot. by rewrite decide_False.
    - by rewrite He, put_at_ne. }
  rewrite He, put_at_eq, (ref_inside_spec first last n r s F _ Sim) in Ha. cbn [slot_generation] in Ha.
  eexists _, _. split; [done|].
  split; [done|done|exact Ha|done| |by eapply all_tracked_ext| |done|].
  - eapply refs_ledger_ext; [intros i; symmetry; apply Hsl|].
    destruct (decide (ref_in_range first last (ref_index h))) as [Hr|Hr].
    + rewrite (bool_decide_eq_true_2 _ Hr). erewrite rest_append; [exact HL'|done..].
    + rewrite (bool_decide_eq_false_2 _ Hr). erewrite rest_same; [exact HL'|done..].
  - cbn [liveRefs set_free set_slots set_live]. by rewrite (size_release s h w), Hlive.
  - cbn. unfold listing_ok in *. by rewrite decide_False in * by congruence.
Qed.

(** Releasing in a window keeps the slot until it ends. *)
Lemma release_observed n r s F h w :
  refs_sim n r s F → rs_live s !! h = Some w → ref_count r = 0%Z → rs_observation s = observed →
  ∃ r', release r h = Some (r', true) ∧ refs_sim n r' (rs_released s h w) F.
Proof using Type.
  intros Sim Hw Hc Ho. pose proof Sim as [Hra Hbo Hfree Hpages HL Htr Hlive Hobs Hlist].
  destruct (live_slot_facts first last _ s h w n _ _ _ Htr HL Hw) as (E1 & E2 & E3 & Hf & _ & Hus).
  pose proof (ledger_release first last n r s F h w Sim Hw Hc) as HL'. rewrite (decide_True _ _ Ho) in HL'.
  pose proof (tracked_release _ s h w Htr Hw Hf) as Htr'. rewrite Ho in HL', Htr'. unfold released_slot in HL', Htr'.
  rewrite (decide_True _ _ eq_refl) in HL', Htr'. set (x := slots_of r (ref_index h)) in *.
  unfold release. destruct (slot_spec r s h Htr) as [-> _]. rewrite decide_True by (by eexists). fold x.
  destruct (put_slot_spec r (ref_index h) (mkRefSlot (value x) (slot_generation x) false (state x))) as (t & -> & Hokt & He & Hk);
    [done|rewrite used_at by done; by eexists|].
  cbn [mbind option_bind]. set (r1 := set_live (set_slots r t) (liveRefs (set_slots r t) - 1)).
  change (ref_observation r1) with (ref_observation r). rewrite bool_decide_eq_true_2 by congruence. cbn [negb state].
  assert (Hput : ∀ st, ∃ t', put_slot r1 (ref_index h) (with_state (mkRefSlot (value x) (slot_generation x) false (state x)) st) =
      Some (set_slots r1 t') ∧ pages_ok t' ∧
      ∀ j, entry t' j = put_at (slots_of r) (ref_index h) (mkRefSlot (value x) (slot_generation x) false st) j).
  { intros st. destruct (put_slot_spec r1 (ref_index h) (with_state (mkRefSlot (value x) (slot_generation x) false (state x)) st))
      as (t' & Et & Hokt' & He' & _); [done|apply Hk; rewrite used_at by done; by eexists|].
    exists t'. split_and!; [done|done|]. intros j. rewrite He'. unfold put_at. destruct (decide (j = ref_index h)); [done|].
    change (ref_slots r1) with t. by rewrite He, put_at_ne. }
  rewrite Hobs, Ho in Hlist.
  assert (Hdone : ∀ st r', (st = if decide (state x = refAdded) then refDiscarded else refReleased) →
      pages_ok (ref_slots r') → (∀ j, slots_of r' j = put_at (slots_of r) (ref_index h) (mkRefSlot (value x) (slot_generation x) false st) j) →
      ref_first r' = ref_first r → ref_last r' = ref_last r → ref_count r' = ref_count r → ref_fresh r' = ref_fresh r →
      freeRefs r' = freeRefs r → liveRefs r' = liveRefs r - 1 → ref_observation r' = observed →
      listing_ok observed (slots_of r') (changedRefs r') (changedRefsOverflowed r') →
      refs_sim n r' (rs_released s h w) F).
  { intros st r' -> Hok' Hsl G1 G2 G3 G4 G5 G6 G7 G8. split; rewrite ?G1, ?G2, ?G3, ?G4, ?G5, ?G7; try done.
    - rewrite (rest_same r r') by done. eapply refs_ledger_ext; [intros i; symmetry; apply Hsl|exact HL'].
    - by eapply all_tracked_ext.
    - by rewrite (size_release s h w), G6, Hlive. }
  assert (Hkeep : ∀ t' st, state x ≠ refUnchanged → st ≠ refUnchanged →
      (∀ j, entry t' j = put_at (slots_of r) (ref_index h) (mkRefSlot (value x) (slot_generation x) false st) j) →
      listing_ok observed (entry t') (changedRefs r) (changedRefsOverflowed r)).
  { intros t' st Hs1 Hs2 Hsl. eapply listing_ok_ext; [|exact Hlist]. intros i. rewrite Hsl. unfold put_at.
    destruct (decide (i = ref_index h)) as [->|]; [|done]. cbn. fold x. naive_solver. }
  destruct (state x) eqn:Est; destruct Hf as [Hf|[Hf|Hf]]; try congruence; clear Hf.
  - destruct (Hput refReleased) as (t' & -> & Hok' & Hsl). cbn [mbind option_bind]. eexists. split; [done|].
    destruct (listChanged_same (set_slots r1 t') h) as (L1 & L2 & L3 & L4 & L5 & L6 & L7 & L8).
    eapply (Hdone refReleased); rewrite ?L1, ?L2, ?L3, ?L4, ?L5, ?L6, ?L7, ?L8; try done.
    + cbn. congruence.
    + cbn [ref_slots set_slots]. eapply (listing_ok_list _ (slots_of r)); [exact Hlist|by fold x| |].
      * by rewrite Hsl, put_at_eq.
      * intros j Hj. by rewrite Hsl, put_at_ne.
  - destruct (Hput refReleased) as (t' & -> & Hok' & Hsl). cbn [mbind option_bind]. eexists. split; [done|].
    eapply (Hdone refReleased); try done; [cbn; congruence|]. apply (Hkeep t' refReleased); [congruence|done|exact Hsl].
  - destruct (Hput refDiscarded) as (t' & -> & Hok' & Hsl). cbn [mbind option_bind]. eexists. split; [done|].
    eapply (Hdone refDiscarded); try done; [cbn; congruence|]. apply (Hkeep t' refDiscarded); [congruence|done|exact Hsl].
Qed.

(** [Release] ends a live ref, and refuses another. *)
Lemma sim_release_ref n r s F h :
  refs_sim n r s F → (N.of_nat n < 2 ^ 32 - 1)%N →
  ∃ r' F', ReleaseRef r h = Some (r', bool_decide (is_Some (rs_live s !! h))) ∧
    refs_sim n r' (match rs_live s !! h with Some w => rs_released s h w | None => s end) F'.
Proof using Type.
  intros Sim Hn. unfold ReleaseRef.
  destruct (sim_settle_refs first last n r s F Sim Hn) as (r1 & F1 & -> & Sim1 & Hc & _). cbn [mbind option_bind].
  destruct (rs_live s !! h) as [w|] eqn:Hw.
  - rewrite bool_decide_eq_true_2 by (by eexists). destruct (decide (rs_observation s = observed)) as [Ho|Ho].
    + destruct (release_observed n r1 s F1 h w Sim1 Hw Hc Ho) as (r2 & -> & ?). by exists r2, F1.
    + destruct (release_unobserved n r1 s F1 h w Sim1 Hw Hc Ho) as (r2 & F2 & -> & ?). by exists r2, F2.
  - exists r1, F1. unfold release. destruct (slot_spec r1 s h (rm_tracks _ _ _ _ _ _ Sim1)) as [-> _].
    rewrite decide_False by (rewrite Hw; by intros [? ?]). by rewrite bool_decide_eq_false_2 by (by intros [? ?]).
Qed.
End window.

(** ** Resets *)

Section reset.
Context {T : Type} `{Zero T}.
Context (first last : N).
Implicit Types (r : refsResource T) (s : refsSpec T) (h : Ref) (v : T) (F : list Ref) (n : nat)
  (sl : N → refSlot T) (x : refSlot T).

#[local] Abbreviation slots_of r := (entry (ref_slots r)).
#[local] Abbreviation ledger := (refs_ledger first last).
#[local] Abbreviation refs_sim := (refs_sim first last).
#[local] Abbreviation ref_rest := (ref_rest last).

(** The slots once a walk changed those at [d] by [g]. *)
Definition map_slots (g : refSlot T → refSlot T) sl (d : list N) : N → refSlot T :=
  λ j, if decide (j ∈ d) then g (sl j) else sl j.

Lemma map_slots_snoc g sl d i j : i ∉ d → map_slots g sl (d ++ [i]) j = put_at (map_slots g sl d) i (g (sl i)) j.
Proof using Type.
  intros Hi. unfold map_slots, put_at. destruct (decide (j = i)) as [->|Hd].
  - rewrite decide_True; [done|]. set_solver.
  - destruct (decide (j ∈ d)) as [Hj|Hj]; [rewrite decide_True; [done|set_solver]|rewrite decide_False; [done|set_solver]].
Qed.

Lemma map_slots_same g sl d i : (i ∉ d) → map_slots g sl d i = sl i.
Proof using Type. intros. unfold map_slots. by rewrite decide_False. Qed.

Lemma map_slots_all g sl d : (∀ j, (j ∉ d) → g (sl j) = sl j) → ∀ j, map_slots g sl d j = g (sl j).
Proof using Type. intros Hd j. unfold map_slots. destruct (decide _); [done|]. by rewrite Hd. Qed.

(** The slots a walk visits: each once, all that exist, and all with a delta. *)
Lemma walked_spec n r s F :
  refs_sim n r s F → rs_observation s = observed →
  NoDup (walkedSlots r) ∧ (∀ i, i ∈ walkedSlots r → is_Some (at_ (ref_slots r) i)) ∧
  ∀ i, state (slots_of r i) ≠ refUnchanged → i ∈ walkedSlots r.
Proof using Type.
  intros Sim Ho. pose proof (rm_listing _ _ _ _ _ _ Sim) as Hl. rewrite (rm_obs _ _ _ _ _ _ Sim), Ho in Hl.
  unfold listing_ok in Hl. rewrite (decide_True _ _ eq_refl) in Hl. unfold walkedSlots.
  assert (Hu : ∀ i, state (slots_of r i) ≠ refUnchanged → is_Some (at_ (ref_slots r) i)).
  { intros i Hi. rewrite used_at by (by right). by eexists. }
  destruct (changedRefsOverflowed r); cbn [negb].
  - pose proof (rm_pages _ _ _ _ _ _ Sim) as Hok. split_and!; [by apply addresses_NoDup|by intros i ?%elem_of_addresses|].
    intros i Hi. apply elem_of_addresses; [done|]. by apply Hu.
  - destruct (Hl eq_refl) as [Hn Hi]. split_and!; [done|by intros i ?%Hi%Hu|by intros i ?%Hi].
Qed.

(** ** The reset *)

Definition reset_of x : refSlot T :=
  if decide (state x = refUnchanged) then x else
  mkRefSlot (if bool_decide (state x = refReleased ∨ state x = refDiscarded) then zero_value else value x)
    (slot_generation x) (slot_live x) refUnchanged.

Lemma reset_of_ok i x : ref_slot_ok i x → ref_slot_ok i (reset_of x).
Proof using Type.
  intros Hok. unfold reset_of. destruct (decide _); [done|]. destruct Hok as (Hf & Hg & Hu).
  split_and!; [unfold fits_state; cbn; destruct (slot_live x); by left|done|]. intros [Hl|Hl]; [|by destruct Hl]. apply Hu. by left.
Qed.

Lemma tracked_reset sl s :
  all_tracked sl s → (∀ i, ref_slot_ok i (sl i)) → rs_observation s = observed →
  all_tracked (λ i, reset_of (sl i)) (rs_reset s).
Proof using Type.
  intros A Hok Ho h. destruct (A h) as (Hl & Hg & _). destruct (Hok (ref_index h)) as (Hf & _).
  unfold rs_reset. rewrite decide_True by done. unfold tracks. rewrite (decide_True (P := rs_observation _ = observed)) by done.
  cbn. set (x := sl (ref_index h)) in *.
  assert (E : slot_live (reset_of x) = slot_live x ∧ slot_generation (reset_of x) = slot_generation x ∧
    state (reset_of x) = refUnchanged ∧ (slot_live x = true → value (reset_of x) = value x)).
  { unfold reset_of. destruct (decide _) as [Eu|Eu]; [done|]. split_and!; [done..|]. intros El. cbn. rewrite El in Hf.
    rewrite bool_decide_eq_false_2; [done|]. destruct Hf as [->|[->| ->]]; naive_solver. }
  destruct E as (E1 & E2 & E3 & E4). rewrite E1, E2, E3. split_and!.
  - intros v. rewrite Hl. split; intros (G1 & G2 & G3); split_and!; try done; specialize (E4 G1); congruence.
  - intros v. rewrite lookup_empty. naive_solver.
  - rewrite elem_of_dom. split.
    + intros [v Hv]. apply Hl in Hv as (G1 & G2 & G3). split; [done|]. by left.
    + intros (G2 & [[G1 _]|?]); [|done]. exists (value x). by apply Hl.
  - intros _ _ _. set_solver.
Qed.

(** What the loop of [resetObservation] keeps, the slots [d] being done. *)
Definition resetting n r s (d : list N) r' : Prop :=
  ∃ t a F', r' = set_free (set_slots r t) a ∧ pages_ok t ∧ array_repr a F' ∧
    (∀ j, entry t j = map_slots reset_of (slots_of r) d j) ∧
    ledger (map_slots reset_of (slots_of r) d) (ref_rest r F') (rs_waiting s) (rs_handed s) n ∧
    (∀ j, is_Some (at_ (ref_slots r) j) → is_Some (at_ t j)).

Lemma ledger_reset n r s F' d i :
  ledger (map_slots reset_of (slots_of r) d) (ref_rest r F') (rs_waiting s) (rs_handed s) n →
  i ∉ d → state (slots_of r i) ≠ refUnchanged → ref_count r = 0%Z →
  ledger (map_slots reset_of (slots_of r) (d ++ [i]))
    (ref_rest r (if bool_decide ((state (slots_of r i) = refReleased ∨ state (slots_of r i) = refDiscarded) ∧ ref_in_range first last i)
      then F' ++ [mkRef i (nextGeneration (slot_generation (slots_of r i)))] else F')) (rs_waiting s) (rs_handed s) n.
Proof using Type.
  intros L Hi Hs Hc. eapply refs_ledger_ext; [intros j; symmetry; by apply map_slots_snoc|].
  pose proof (rl_slots _ _ _ _ _ _ _ L i) as Hok. pose proof (map_slots_same reset_of (slots_of r) d i Hi) as E. rewrite E in Hok.
  assert (Hus : used (map_slots reset_of (slots_of r) d i)) by (rewrite E; by right).
  assert (Eg : slot_generation (reset_of (slots_of r i)) = slot_generation (map_slots reset_of (slots_of r) d i))
    by (rewrite E; unfold reset_of; by destruct (decide _)).
  destruct (decide (state (slots_of r i) = refReleased ∨ state (slots_of r i) = refDiscarded)) as [Hrd|Hrd].
  - assert (Hnu : ¬ used (reset_of (slots_of r i))).
    { unfold reset_of. rewrite decide_False by done. destruct Hok as (Hf & _). intros [Hl|[]]; [|done]. cbn in Hl.
      rewrite Hl in Hf. destruct Hf as [?|[?|?]]; destruct Hrd; congruence. }
    destruct (decide (ref_in_range first last i)) as [Hr|Hr].
    + rewrite bool_decide_eq_true_2 by done. rewrite (rest_append last r r) by done. rewrite <- E.
      apply refs_ledger_free; [done|rewrite E; by apply reset_of_ok|done|done|by rewrite E|by rewrite E, Eg, E].
    + rewrite bool_decide_eq_false_2 by naive_solver. apply ledger_put; [done|by apply reset_of_ok|by left].
  - rewrite bool_decide_eq_false_2 by naive_solver. apply ledger_put; [done|by apply reset_of_ok|right].
    split_and!; [done| |done]. destruct Hok as (Hf & _). left. unfold reset_of. rewrite decide_False by done. cbn.
    destruct (slot_live (slots_of r i)); [done|]. destruct Hf as [?|[?|?]]; naive_solver.
Qed.

Lemma reset_slot_step n r s F d i r' :
  refs_sim n r s F → ref_count r = 0%Z → (i ∉ d) → is_Some (at_ (ref_slots r) i) →
  resetting n r s d r' → ∃ r'', reset_slot i r' = Some r'' ∧ resetting n r s (d ++ [i]) r''.
Proof using Type.
  intros Sim Hc Hi Hat (t & a & F' & -> & Hokt & Ha & He & L & Hk).
  pose proof (He i) as Hei. rewrite map_slots_same in Hei by done.
  unfold reset_slot. change (ref_slots (set_free (set_slots r t) a)) with t.
  destruct (Hk i Hat) as [x Hx]. rewrite Hx. cbn [mbind option_bind]. rewrite (at_entry _ _ _ Hx) in Hei.
  assert (Hpos : ∀ j, map_slots reset_of (slots_of r) (d ++ [i]) j = put_at (map_slots reset_of (slots_of r) d) i (reset_of x) j).
  { intros j. rewrite Hei. by apply map_slots_snoc. }
  destruct (decide (state x = refUnchanged)) as [Eu|Eu].
  - eexists. split; [done|]. exists t, a, F'.
    assert (Hsame : ∀ j, map_slots reset_of (slots_of r) (d ++ [i]) j = map_slots reset_of (slots_of r) d j).
    { intros j. rewrite Hpos. unfold put_at. destruct (decide (j = i)) as [->|]; [|done].
      rewrite map_slots_same by done. unfold reset_of. by rewrite decide_True. }
    split_and!; [done|done|done| | |done].
    + intros j. by rewrite He, Hsame.
    + eapply refs_ledger_ext; [|exact L]. done.
  - pose proof (ledger_reset n r s F' d i L Hi ltac:(by rewrite <- Hei) Hc) as L'. rewrite <- Hei in L'.
    assert (Hre : reset_of x = with_state (mkRefSlot (if bool_decide (state x = refReleased ∨ state x = refDiscarded) then zero_value else value x)
      (slot_generation x) (slot_live x) (state x)) refUnchanged) by (unfold reset_of; by rewrite decide_False).
    destruct (decide (state x = refReleased ∨ state x = refDiscarded)) as [Hrd|Hrd].
    + rewrite (bool_decide_eq_true_2 _ Hrd) in Hre |- *.
      destruct (free_ref_spec (set_free (set_slots r t) a) i F') as (t1 & a1 & -> & Hok1 & He1 & Ha1 & Hk1); [done|by eexists|done|].
      cbn [mbind option_bind]. change (ref_slots (set_free (set_slots (set_free (set_slots r t) a) t1) a1)) with t1.
      change (ref_slots (set_free (set_slots r t) a)) with t in He1, Ha1, Hk1.
      change (ref_inside (set_free (set_slots r t) a) i) with (ref_inside r i) in Ha1.
      rewrite (ref_inside_spec first last n r s F _ Sim), (at_entry _ _ _ Hx) in Ha1. rewrite (at_entry _ _ _ Hx) in He1.
      destruct (Hk1 i ltac:(by eexists)) as [y Hy]. rewrite Hy. cbn [mbind option_bind].
      pose proof (He1 i) as Hy1. rewrite (at_entry _ _ _ Hy), put_at_eq in Hy1. subst y.
      destruct (put_slot_spec (set_free (set_slots r t1) a1) i (reset_of x) Hok1) as (t2 & Et2 & Hok2 & He2 & Hk2); [by eexists|].
      change (set_free (set_slots (set_free (set_slots r t) a) t1) a1) with (set_free (set_slots r t1) a1).
      rewrite Hre in Et2. rewrite Et2. eexists. split; [done|]. eexists t2, a1, _. split_and!; [done|done|exact Ha1| | |].
      * intros j. rewrite He2, Hpos. unfold put_at. destruct (decide (j = i)); [done|]. change (entry t1 j = map_slots reset_of (slots_of r) d j).
        rewrite He1. by rewrite put_at_ne.
      * replace (bool_decide (ref_in_range first last i)) with
          (bool_decide ((state x = refReleased ∨ state x = refDiscarded) ∧ ref_in_range first last i)); [exact L'|].
        apply bool_decide_ext. naive_solver.
      * intros j Hj. apply Hk2, Hk1, Hk, Hj.
    + rewrite (bool_decide_eq_false_2 _ Hrd) in Hre |- *. cbn [mbind option_bind].
      change (ref_slots (set_free (set_slots r t) a)) with t. rewrite Hx. cbn [mbind option_bind].
      destruct (put_slot_spec (set_free (set_slots r t) a) i (reset_of x)) as (t2 & Et2 & Hok2 & He2 & Hk2); [done|by eexists|].
      replace (with_state x refUnchanged) with (reset_of x) by (rewrite Hre; by destruct x). rewrite Et2. eexists. split; [done|].
      exists t2, a, F'. split_and!; [done|done|done| | |].
      * intros j. rewrite He2, Hpos. unfold put_at. destruct (decide (j = i)); [done|]. apply He.
      * rewrite bool_decide_eq_false_2 in L' by naive_solver. exact L'.
      * intros j Hj. apply Hk2, Hk, Hj.
Qed.

(** The reset begins the next window. *)
Lemma sim_reset_refs n r s F :
  refs_sim n r s F → (N.of_nat n < 2 ^ 32 - 1)%N →
  ∃ r' F', resetObservation r = Some r' ∧ refs_sim n r' (rs_reset s) F'.
Proof using Type.
  intros Sim Hn. unfold resetObservation. destruct (decide (rs_observation s = observed)) as [Ho|Ho].
  2:{ rewrite bool_decide_eq_false_2 by (by rewrite (rm_obs _ _ _ _ _ _ Sim)). exists r, F. unfold rs_reset. by rewrite decide_False. }
  rewrite bool_decide_eq_true_2 by (by rewrite (rm_obs _ _ _ _ _ _ Sim)). cbn [negb].
  destruct (sim_settle_refs first last n r s F Sim Hn) as (r1 & F1 & -> & Sim1 & Hc & _). cbn [mbind option_bind].
  destruct (walked_spec n r1 s F1 Sim1 Ho) as (Hnd & Hat & Hcov).
  pose proof Sim1 as [Hra Hbo Hfree Hpages HL Htr Hlive Hobs Hlist].
  destruct (for_each_invariant (resetting n r1 s) reset_slot (walkedSlots r1) r1) as (r2 & -> & t & a & F' & -> & Hokt & Ha & He & L & _).
  - exists (ref_slots r1), (freeRefs r1), F1. split_and!; [by destruct r1|done|done|done| |done].
    eapply refs_ledger_ext; [|exact HL]. intros j. by rewrite map_slots_same by apply not_elem_of_nil.
  - intros d i rest r' E. rewrite E in Hnd. apply NoDup_app in Hnd as (_ & Hd & _).
    eapply reset_slot_step; [exact Sim1|done| |apply Hat; rewrite E; set_solver].
    intros Hin. apply (Hd i Hin). by left.
  - cbn [mbind option_bind]. eexists _, F'. split; [done|].
    assert (Hall : ∀ j, entry t j = reset_of (slots_of r1 j)).
    { intros j. rewrite He. apply map_slots_all. intros i Hi. unfold reset_of. rewrite decide_True; [done|].
      destruct (decide (state (slots_of r1 i) = refUnchanged)); [done|]. destruct Hi. by apply Hcov. }
    assert (Hrs : rs_live (rs_reset s) = rs_live s ∧ rs_waiting (rs_reset s) = rs_waiting s ∧ rs_handed (rs_reset s) = rs_handed s ∧
      rs_observation (rs_reset s) = rs_observation s) by (unfold rs_reset; rewrite decide_True by done; done).
    destruct Hrs as (R1 & R2 & R3 & R4).
    split; rewrite ?R1, ?R2, ?R3, ?R4; try done.
    + eapply refs_ledger_ext; [|exact L]. intros j. symmetry. apply He.
    + eapply all_tracked_ext; [exact Hall|]. apply tracked_reset; [done|apply HL|done].
    + cbn. rewrite Hobs, Ho. unfold listing_ok. rewrite (decide_True _ _ eq_refl). intros _. split; [constructor|].
      intros i. rewrite Hall. split; [by intros ?%not_elem_of_nil|]. unfold reset_of. by destruct (decide _).
Qed.
End reset.
