(* ===== verification/RefsDelta.v ===== *)
(** * The start of observation, the walks over refs, and their memory *)

From stdpp Require Import sorting.
From S2P Require Import Prelude Array Entity IndexTable Store Refs RefsSpec RefsRefines RefsRelease RefsReset.

Section delta.
Context {T : Type} `{Zero T}.
Context (first last : N).
Implicit Types (r : refsResource T) (s : refsSpec T) (h : Ref) (v : T) (F : list Ref) (n : nat)
  (sl : N → refSlot T) (x : refSlot T).

#[local] Abbreviation slots_of r := (entry (ref_slots r)).
#[local] Abbreviation ledger := (refs_ledger first last).
#[local] Abbreviation refs_sim := (refs_sim first last).
#[local] Abbreviation ref_rest := (ref_rest last).

(** ** The start *)

Definition started_of x : refSlot T := if slot_live x then with_state x refAdded else x.

Lemma started_of_ok i x : ref_slot_ok i x → ref_slot_ok i (started_of x).
Proof using Type.
  intros (Hf & Hg & Hu). unfold started_of. destruct (slot_live x) eqn:El.
  - split_and!; [unfold fits_state; cbn; rewrite El; by right; right|done|]. intros _. apply Hu. by left.
  - split_and!; [by rewrite El|done|done].
Qed.

Lemma tracked_start sl s :
  all_tracked sl s → rs_observation s = observerWaiting → all_tracked (λ i, started_of (sl i)) (rs_started s).
Proof using Type.
  intros A Ho h. destruct (A h) as (Hl & Hg & Hs). rewrite decide_False in Hs by congruence. destruct Hs as (Hst & _ & _).
  unfold rs_started. rewrite decide_True by done. unfold tracks. rewrite (decide_True (P := rs_observation _ = observed)) by done.
  cbn. set (x := sl (ref_index h)) in *. unfold started_of. destruct (slot_live x) eqn:El; cbn.
  - rewrite El. split_and!.
    + done.
    + intros v. rewrite lookup_empty. naive_solver.
    + split; [set_solver|]. intros (_ & [[_ ?]|?]); done.
    + intros _ _ ?. set_solver.
  - rewrite El, Hst. split_and!; [done| | |done].
    + intros v. rewrite lookup_empty. naive_solver.
    + split; [set_solver|]. intros (_ & [[? _]|?]); done.
Qed.

Lemma ledger_started sl rest W H' n :
  ledger sl rest W H' n → ledger (λ i, started_of (sl i)) rest W H' n.
Proof using Type.
  intros [H1 H2 H3 H4 H5 H6 H7].
  assert (Hg : ∀ x, slot_generation (started_of x) = slot_generation x) by (intros x; unfold started_of; by destruct (slot_live x)).
  assert (Hu : ∀ x, used (started_of x) ↔ used x).
  { intros x. unfold started_of, used. destruct (slot_live x) eqn:El; [|by rewrite El]. cbn. rewrite El. split; by left. }
  split; unfold unborn_ref in *; try setoid_rewrite Hu; try setoid_rewrite Hg; try done.
  intros i. by apply started_of_ok.
Qed.

Lemma start_loop r :
  pages_ok (ref_slots r) →
  ∃ t, for_each (addresses (ref_slots r)) start_added r = Some (set_slots r t) ∧ pages_ok t ∧
    ∀ j, entry t j = started_of (slots_of r j).
Proof using Type.
  intros Hok.
  pose (Inv := λ (d : list N) r', ∃ t, r' = set_slots r t ∧ pages_ok t ∧ (∀ j, entry t j = map_slots started_of (slots_of r) d j) ∧
    ∀ j, is_Some (at_ (ref_slots r) j) → is_Some (at_ t j)).
  destruct (for_each_invariant Inv start_added (addresses (ref_slots r)) r) as (r' & -> & t & -> & Hokt & He & _).
  - exists (ref_slots r). split_and!; [by destruct r|done| |done]. intros j. by rewrite map_slots_same by apply not_elem_of_nil.
  - intros d i rest r' E (t & -> & Hokt & He & Hk). pose proof (addresses_NoDup _ Hok) as Hnd. rewrite E in Hnd.
    apply NoDup_app in Hnd as (_ & Hd & _). assert (Hi : i ∉ d) by (intros Hin; apply (Hd i Hin); by left).
    destruct (Hk i) as [x Hx]; [apply elem_of_addresses; [done|]; rewrite E; set_solver|].
    pose proof (He i) as Hei. rewrite map_slots_same, (at_entry _ _ _ Hx) in Hei by done.
    unfold start_added. cbn [ref_slots set_slots]. rewrite Hx. cbn [mbind option_bind].
    assert (Hpos : ∀ j, map_slots started_of (slots_of r) (d ++ [i]) j = put_at (map_slots started_of (slots_of r) d) i (started_of x) j).
    { intros j. rewrite Hei. by apply map_slots_snoc. }
    unfold started_of at 3 in Hpos. destruct (slot_live x).
    + destruct (put_slot_spec (set_slots r t) i (with_state x refAdded) Hokt) as (t' & -> & Hok' & He' & Hk'); [by eexists|].
      eexists. split; [done|]. exists t'. split_and!; [done|done| |intros j Hj; by apply Hk', Hk].
      intros j. rewrite He', Hpos. unfold put_at. destruct (decide (j = i)); [done|]. apply He.
    + eexists. split; [done|]. exists t. split_and!; [done|done| |done].
      intros j. rewrite Hpos, He. unfold put_at. destruct (decide (j = i)) as [->|]; [|done]. by rewrite map_slots_same.
  - exists t. split_and!; [done|done|]. intros j. rewrite He. apply map_slots_all. intros i Hi.
    rewrite elem_of_addresses in Hi by done. unfold started_of, entry. by destruct (at_ (ref_slots r) i); [destruct Hi|].
Qed.

(** The first reset of a world whose refs have an observer begins observing. *)
Lemma sim_start_refs n r s F :
  refs_sim n r s F → ∃ r', startObservation r = Some r' ∧ refs_sim n r' (rs_started s) F.
Proof using Type.
  intros Sim. unfold startObservation. pose proof (rm_obs _ _ _ _ _ _ Sim) as Hobs.
  destruct (decide (rs_observation s = observerWaiting)) as [Ho|Ho].
  2:{ rewrite bool_decide_eq_false_2 by congruence. exists r. unfold rs_started. by rewrite decide_False. }
  rewrite bool_decide_eq_true_2 by congruence. cbn [negb].
  pose proof Sim as [Hra Hbo Hfree Hpages HL Htr Hlive _ Hlist].
  destruct (start_loop (set_listing (set_observation r observed) (changedRefs r) true)) as (t & Et & Hokt & He); [done|].
  change (ref_slots (set_listing (set_observation r observed) (changedRefs r) true)) with (ref_slots r) in Et, He.
  change (ref_slots r) with (ref_slots (set_listing (set_observation r observed) (changedRefs r) true)). cbn zeta.
  change (ref_slots (set_listing (set_observation r observed) (changedRefs r) true)) with (ref_slots r). rewrite Et.
  eexists. split; [done|]. unfold rs_started at 1. rewrite decide_True by done. split; try done; cbn.
  - eapply refs_ledger_ext; [intros i; symmetry; apply He|]. by apply ledger_started.
  - eapply all_tracked_ext; [exact He|]. pose proof (tracked_start _ s Htr Ho) as A. unfold rs_started in A.
    by rewrite decide_True in A by done.
Qed.

(** ** The walks *)

Lemma omap_sorted {A} (g : N → option A) (R : relation A) l :
  StronglySorted N.lt l → (∀ i j a b, (i < j)%N → g i = Some a → g j = Some b → R a b) → StronglySorted R (omap g l).
Proof using Type.
  clear H. intros Hs Hg. induction Hs as [|i l Hl IH Hi]; [constructor|]. cbn. destruct (g i) as [a|] eqn:E; [|done].
  constructor; [done|]. rewrite Forall_forall in Hi. apply Forall_forall. intros b (j & Hj & Eb)%list_elem_of_omap. by eapply Hg; [apply Hi| |].
Qed.

(** [All] yields the live refs and their values, in index order. *)
Lemma sim_all n r s F :
  refs_sim n r s F →
  (∀ h v, (h, v) ∈ all r ↔ rs_live s !! h = Some v) ∧
  StronglySorted (λ a b, (ref_index a.1 < ref_index b.1)%N) (all r).
Proof using Type.
  intros Sim. pose proof (rm_pages _ _ _ _ _ _ Sim) as Hok. pose proof (rm_tracks _ _ _ _ _ _ Sim) as A.
  pose proof (rl_slots _ _ _ _ _ _ _ (rm_ledger _ _ _ _ _ _ Sim)) as Hs.
  assert (Hu : ∀ i x, at_ (ref_slots r) i = Some x → slot_live x = true → u32 i = i).
  { intros i x Hx Hl. apply u32_small. destruct (Hs i) as (_ & _ & Hi). rewrite (at_entry _ _ _ Hx) in Hi. apply Hi. by left. }
  split.
  - intros h v. unfold all. rewrite list_elem_of_omap. split.
    + intros (i & Hi & Hx). destruct (at_ (ref_slots r) i) as [x|] eqn:E; [|done]. cbn in Hx.
      destruct (slot_live x) eqn:El; [|done]. injection Hx as <- <-. rewrite (Hu i x E El).
      apply (proj1 (A _)). cbn [ref_index ref_generation]. by rewrite (at_entry _ _ _ E).
    + intros Hv. destruct (tracked_live _ s h (slots_of r (ref_index h)) v A Hv) as (E1 & E2 & E3).
      pose proof (used_at r (ref_index h) (or_introl E1)) as Hx. exists (ref_index h). split.
      * apply elem_of_addresses; [done|]. by eexists.
      * rewrite Hx. cbn [mbind option_bind]. rewrite E1, (Hu _ _ Hx E1), E2, E3. by destruct h.
  - apply omap_sorted; [by apply addresses_sorted|]. intros i j a b Hij Ha Hb.
    destruct (at_ (ref_slots r) i) as [x|] eqn:Ex; [|done]. destruct (at_ (ref_slots r) j) as [y|] eqn:Ey; [|done].
    cbn in Ha, Hb. destruct (slot_live x) eqn:Elx; [|done]. destruct (slot_live y) eqn:Ely; [|done].
    injection Ha as <-. injection Hb as <-. cbn. by rewrite (Hu i x Ex Elx), (Hu j y Ey Ely).
Qed.

(** What [delta_refs] reports of a slot. *)
Definition reported (i : N) x : option (Ref * (Delta * T)) :=
  let tell d := Some (mkRef (u32 i) (slot_generation x), (d, value x)) in
  match state x with
  | refAdded => tell DeltaAdded
  | refChanged => tell DeltaChanged
  | refReleased => tell DeltaReleased
  | _ => None
  end.

Lemma reported_spec n r s F i h d :
  refs_sim n r s F → rs_observation s = observed →
  reported i (slots_of r i) = Some (h, d) ↔ ref_index h = i ∧ ref_delta s h = Some d.
Proof using Type.
  intros Sim Ho. pose proof (rl_slots _ _ _ _ _ _ _ (rm_ledger _ _ _ _ _ _ Sim)) as Hs.
  assert (Hone : ∀ h', ref_index h' = i → slot_generation (slots_of r i) = ref_generation h' →
    reported i (slots_of r i) = pair h' <$> ref_delta s h').
  { intros h' Hi Hg. destruct (rm_tracks _ _ _ _ _ _ Sim h') as (Hl & Hgo & Hb). rewrite Hi in *.
    rewrite decide_True in Hb by done. destruct Hb as [Hb Ht]. unfold ref_delta. rewrite decide_True by done.
    destruct (Hs i) as (Hf & _ & Hu). unfold reported.
    assert (Eh : used (slots_of r i) → mkRef (u32 i) (slot_generation (slots_of r i)) = h').
    { intros [_ Hlt]%Hu. rewrite u32_small by done. destruct h'; cbn in *; congruence. }
    set (x := slots_of r i) in *. destruct (slot_live x) eqn:El.
    - assert (Hv : rs_live s !! h' = Some (value x)) by (by apply Hl). rewrite Hv. rewrite Eh by (by left).
      destruct Hf as [E|[E|E]]; rewrite E in *.
      + rewrite decide_True by naive_solver. rewrite decide_False; [done|]. rewrite <- Ht by naive_solver. done.
      + rewrite !decide_True by naive_solver. done.
      + rewrite decide_False by naive_solver. done.
    - assert (Hv : rs_live s !! h' = None) by (destruct (rs_live s !! h') as [w|] eqn:Ew; [by destruct (proj1 (Hl w) eq_refl)|done]).
      rewrite Hv. destruct Hf as [E|[E|E]]; rewrite E in *.
      + assert (Hn : rs_gone s !! h' = None) by (destruct (rs_gone s !! h') as [w|] eqn:Ew; [by destruct (proj1 (Hgo w) eq_refl) as (_ & [] & _)|done]).
        by rewrite Hn.
      + assert (Hn : rs_gone s !! h' = Some (value x)) by (by apply Hgo). rewrite Hn. cbn. rewrite decide_True by naive_solver.
        rewrite Eh by (right; by rewrite E). done.
      + assert (Hn : rs_gone s !! h' = Some (value x)) by (by apply Hgo). rewrite Hn. cbn. rewrite decide_False by naive_solver. done. }
  split.
  - intros Hr. specialize (Hone (mkRef i (slot_generation (slots_of r i))) eq_refl eq_refl). rewrite Hone in Hr.
    destruct (ref_delta s _) as [d'|] eqn:E; [|done]. by injection Hr as <- <-.
  - intros [Hi Hd]. rewrite (Hone h Hi); [by rewrite Hd|]. unfold ref_delta in Hd. rewrite decide_True in Hd by done.
    destruct (rm_tracks _ _ _ _ _ _ Sim h) as (Hl & Hgo & _). rewrite Hi in *.
    destruct (rs_live s !! h) as [w|] eqn:Ew; [by apply (proj1 (Hl w) eq_refl)|].
    destruct (rs_gone s !! h) as [w|] eqn:Eg; [|done]. by apply (proj1 (Hgo w) eq_refl).
Qed.

(** [DeltaRefs] yields each ref with a delta, once. *)
Lemma sim_deltas n r s F :
  refs_sim n r s F → ∃ l, delta_refs r = Some l ∧ NoDup (fst <$> l) ∧ ∀ h d, (h, d) ∈ l ↔ ref_delta s h = Some d.
Proof using Type.
  intros Sim. unfold delta_refs. destruct (decide (rs_observation s = observed)) as [Ho|Ho].
  2:{ rewrite bool_decide_eq_false_2 by (by rewrite (rm_obs _ _ _ _ _ _ Sim)). exists []. split_and!; [done|constructor|].
      intros h d. unfold ref_delta. rewrite decide_False by done. split; [by intros ?%not_elem_of_nil|done]. }
  rewrite bool_decide_eq_true_2 by (by rewrite (rm_obs _ _ _ _ _ _ Sim)). cbn [negb].
  destruct (walked_spec first last n r s F Sim Ho) as (Hnd & Hat & Hcov).
  pose (g := λ i, reported i (slots_of r i)).
  assert (Hm : mapM (λ i, x ← at_ (ref_slots r) i; Some (reported i x)) (walkedSlots r) = Some (g <$> walkedSlots r)).
  { apply mapM_Some. apply Forall2_fmap_r, Forall_Forall2_diag, Forall_forall. intros i Hi. destruct (Hat i Hi) as [x Hx].
    unfold compose, g. rewrite Hx. cbn. by rewrite (at_entry _ _ _ Hx). }
  exists (omap id (g <$> walkedSlots r)). split; [exact (f_equal (fmap (omap id)) Hm)|].
  replace (omap id (g <$> walkedSlots r)) with (omap g (walkedSlots r)) by (clear; induction (walkedSlots r) as [|i l IH]; cbn; [done|by rewrite IH]).
  assert (Hel : ∀ h d, (h, d) ∈ omap g (walkedSlots r) ↔ ref_delta s h = Some d).
  { intros h d. rewrite list_elem_of_omap. split.
    - intros (i & Hi & Hr). by apply (reported_spec n r s F i h d Sim Ho) in Hr as [_ ?].
    - intros Hd. exists (ref_index h). assert (Hr : g (ref_index h) = Some (h, d)) by (by apply (reported_spec n r s F)).
      split; [|done]. apply Hcov. intros E. unfold g, reported in Hr. by rewrite E in Hr. }
  split; [|exact Hel]. clear Hm Hel Hcov Hat. induction Hnd as [|i l Hi Hnd IH]; [constructor|]. cbn.
  destruct (g i) as [[h d]|] eqn:E; [|done]. cbn. constructor; [|done].
  intros ([h' d'] & Eh & (j & Hj & Ej)%list_elem_of_omap)%list_elem_of_fmap. cbn in Eh. subst h'.
  apply (reported_spec n r s F i h d Sim Ho) in E as [<- _]. apply (reported_spec n r s F j h d' Sim Ho) in Ej as [<- _]. done.
Qed.

(** ** Memory *)

(** Giving memory back changes nothing to be seen. *)
Lemma sim_shrink_refs isZero n r s F :
  (∀ x, isZero x = true → x = zero_value) → refs_sim n r s F →
  ∃ r', shrink_refs isZero r = Some r' ∧ refs_sim n r' s F.
Proof using Type.
  intros Hz [Hra Hbo Hfree Hpages HL Htr Hlive Hobs Hlist]. unfold shrink_refs.
  destruct (shrink_spec isZero (ref_slots r) Hz Hpages) as (Hok & He & _).
  change (freeRefs (set_slots r (shrink isZero (ref_slots r)))) with (freeRefs r).
  destruct (array_shrink_repr _ _ Hfree) as (a & -> & Ha & _). cbn [mbind option_bind].
  eexists. split; [done|]. split; try done; cbn.
  - eapply refs_ledger_ext; [|exact HL]. intros i. symmetry. apply He.
  - by eapply all_tracked_ext.
  - eapply listing_ok_ext; [|exact Hlist]. intros i. by rewrite He.
Qed.
End delta.
