(* ===== verification/RefsHistory.v ===== *)
(** * Histories of refs

    Runs of refs from their registration, with the contract alongside: every
    operation its caller may do answers as the contract says, a released ref
    never reads again, and a window's deltas are the differences between its
    ends. *)

From stdpp Require Import sorting relations.
From S2P Require Import Prelude Array Entity IndexTable Store Refs RefsSpec RefsRefines RefsRelease RefsReset RefsDelta.

Section history.
Context {T : Type} `{Zero T}.

(** The operations on refs, and what they answer. *)
Inductive refs_op :=
  | RReserve
  | RNew (v : T)
  | RStore (h : Ref) (v : T)
  | RPlace (h : Ref) (v : T)
  | RGet (h : Ref)
  | RSet (h : Ref) (v : T)
  | RWrite (h : Ref) (v : T)
  | RRelease (h : Ref)
  | RAll
  | RDeltas
  | RSettle
  | RWatch
  | RStart
  | RReset
  | RShrink.

Inductive refs_answer :=
  | RHanded (h : Ref)
  | RBool (b : bool)
  | RPlaced (error : option placeRefError)
  | RValue (v : option T)
  | RList (l : list (Ref * T))
  | RDelta (l : list (Ref * (Delta * T)))
  | RDone.

(** [isZero] tells a slot whose bytes are all zero, as [shrink] reads them. *)
Context (isZero : refSlot T → bool).

Definition run_ref_op (r : refsResource T) (op : refs_op) : option (refsResource T * refs_answer) :=
  match op with
  | RReserve => '(r, h) ← reserve r; Some (r, RHanded h)
  | RNew v => '(r, h) ← new r v; Some (r, RHanded h)
  | RStore h v => r ← store r h v; Some (r, RDone)
  | RPlace h v => '(r, error) ← place_ref r h v; Some (r, RPlaced error)
  | RGet h => Some (r, RValue (get r h))
  | RSet h v => '(r, b) ← SetRef r h v; Some (r, RBool b)
  | RWrite h v => r ← write_through r h v; Some (r, RDone)
  | RRelease h => '(r, b) ← ReleaseRef r h; Some (r, RBool b)
  | RAll => Some (r, RList (all r))
  | RDeltas => l ← delta_refs r; Some (r, RDelta l)
  | RSettle => r ← settleReservations r; Some (r, RDone)
  | RWatch => Some (declareDelta r, RDone)
  | RStart => r ← startObservation r; Some (r, RDone)
  | RReset => r ← resetObservation r; Some (r, RDone)
  | RShrink => r ← shrink_refs isZero r; Some (r, RDone)
  end.

Implicit Types (r : refsResource T) (s : refsSpec T) (h : Ref) (v : T) (n : nat) (op : refs_op) (answer : refs_answer).

Section contract.
Context (first last : N).

(** What the caller owes: handles are two 32-bit words, [store] is for
    reservations, and only a live ref is written through. *)
Definition ref_op_ok s op : Prop :=
  match op with
  | RStore h _ => h ∈ rs_waiting s
  | RPlace h _ => (ref_generation h < 2 ^ 32 ∧ ref_index h < 2 ^ 32)%N
  | RWrite h _ => is_Some (rs_live s !! h)
  | _ => True
  end.

Definition ref_answers s op answer : Prop :=
  match op, answer with
  | RReserve, RHanded h | RNew _, RHanded h => may_hand_ref first last s h ∨ h = zero_ref ∧ refs_exhausted first last s
  | RPlace h _, RPlaced error => error = place_ref_answer first last s h
  | RGet h, RValue v => v = rs_live s !! h
  | RSet h _, RBool b | RRelease h, RBool b => b = bool_decide (is_Some (rs_live s !! h))
  | RAll, RList l => (∀ h v, (h, v) ∈ l ↔ rs_live s !! h = Some v) ∧
      StronglySorted (λ a b, (ref_index a.1 < ref_index b.1)%N) l
  | RDeltas, RDelta l => NoDup (fst <$> l) ∧ ∀ h d, (h, d) ∈ l ↔ ref_delta s h = Some d
  | (RStore _ _ | RWrite _ _ | RSettle | RWatch | RStart | RReset | RShrink), RDone => True
  | _, _ => False
  end.

Definition ref_after s op answer : refsSpec T :=
  match op, answer with
  | RReserve, RHanded h => if decide (h = zero_ref) then s else rs_reserved s h
  | RNew v, RHanded h => if decide (h = zero_ref) then s else rs_stored (rs_reserved s h) h v
  | RStore h v, _ => rs_stored s h v
  | RPlace h v, RPlaced error => if decide (error = None) then rs_stored s h v else s
  | RSet h v, _ => if decide (is_Some (rs_live s !! h)) then rs_marked (rs_written s h v) h else s
  | RWrite h v, _ => rs_written s h v
  | RRelease h, _ => match rs_live s !! h with Some w => rs_released s h w | None => s end
  | RWatch, _ => rs_watched s
  | RStart, _ => rs_started s
  | RReset, _ => rs_reset s
  | _, _ => s
  end.

(** One of the [allowed] operations that its caller may do, on the refs and
    their contract. *)
Definition ref_step (allowed : refs_op → bool) (x y : refsResource T * refsSpec T) : Prop :=
  ∃ op answer, allowed op ∧ ref_op_ok x.2 op ∧ run_ref_op x.1 op = Some (y.1, answer) ∧
    y.2 = ref_after x.2 op answer.

Definition any_op (op : refs_op) : bool := true.

(** What is done between two resets. *)
Definition window_op (op : refs_op) : bool := match op with RReset => false | _ => true end.
End contract.

#[local] Abbreviation refs_sim first last := (refs_sim (T := T) first last).

(** ** The start *)

Lemma fresh_refs_elem first last h :
  h ∈ fresh_refs last (Z.of_N first) ↔ ref_in_range first last (ref_index h) ∧ ref_generation h = 1%N.
Proof using Type.
  clear. rewrite list_elem_of_lookup. setoid_rewrite fresh_refs_lookup. unfold ref_in_range. split.
  - intros (j & -> & Hj). cbn. split; [lia|done].
  - intros [Hi Hg]. exists (N.to_nat (ref_index h - first)). destruct h as [i g]. cbn in *. split; [f_equal; [lia|done]|lia].
Qed.

Lemma fresh_refs_NoDup first last : NoDup (ref_index <$> fresh_refs last (Z.of_N first)).
Proof using Type.
  clear. unfold fresh_refs. rewrite <- list_fmap_compose. apply NoDup_fmap_2_strong; [|apply NoDup_seq].
  intros i j _ _ E. cbn in E. lia.
Qed.

Lemma ledger_initial first last :
  (last < 2 ^ 32)%N → refs_ledger first last (λ _, zero_value : refSlot T) (fresh_refs last (Z.of_N first)) ∅ ∅ 0.
Proof using Type.
  intros Hl. assert (Hnu : ¬ used (zero_value : refSlot T)) by (intros [?|Hc]; [done|by apply Hc]).
  split; try done.
  - intros i. split_and!; [by left|done|done].
  - apply fresh_refs_NoDup.
  - intros h Hh. apply fresh_refs_elem in Hh as [Hr Hg]. split_and!; [|done|by intros w ?%elem_of_empty]. split; [done|]. by rewrite Hg.
  - intros i Hi. left. apply list_elem_of_fmap. exists (mkRef i 1). split; [done|]. by apply fresh_refs_elem.
Qed.

Lemma sim_registered options r0 :
  registerRefs false false options = Ok r0 → (opt_last options < 2 ^ 32)%N →
  refs_sim (ref_first r0) (ref_last r0) 0 r0 initial_refs [].
Proof using Type.
  unfold registerRefs. set (l := if (opt_last options =? 0)%N then _ else _). intros Hr Hl.
  assert (Hl' : (l < 2 ^ 32)%N) by (unfold l; destruct (_ =? _)%N; [reflexivity|done]). clearbody l.
  destruct (N.ltb_spec l (opt_first options)) as [|Hle]; [done|]. injection Hr as <-. cbn.
  split.
  - done.
  - cbn. lia.
  - apply array_empty_repr.
  - apply empty_ok.
  - unfold RefsRefines.ref_rest, ref_order. cbn [ref_count ref_fresh]. change (Z.to_nat 0) with 0. rewrite drop_0. cbn [app].
    eapply refs_ledger_ext; [|by apply ledger_initial]. done.
  - intros h. unfold tracks. rewrite (decide_False (P := rs_observation _ = observed)) by done. cbn.
    split_and!; [intros v; rewrite lookup_empty; naive_solver|intros v; rewrite lookup_empty; naive_solver|done|apply not_elem_of_empty|apply not_elem_of_empty].
  - done.
  - done.
  - done.
Qed.

(** ** One operation *)

Lemma sim_new first last n r s F v :
  refs_sim first last n r s F → (N.of_nat n < 2 ^ 32 - 2)%N →
  ∃ r' h F', new r v = Some (r', h) ∧
    (may_hand_ref first last s h ∧ refs_sim first last (S (S n)) r' (rs_stored (rs_reserved s h) h v) F' ∨
     h = zero_ref ∧ refs_exhausted first last s ∧ refs_sim first last (S (S n)) r' s F').
Proof using Type.
  intros Sim Hn. unfold new. destruct (sim_reserve_ref first last n r s F Sim) as (r1 & h & -> & Hh); [lia|].
  cbn [mbind option_bind]. destruct Hh as [[Hm Sim1]|(Hz & Hex & Sim1)].
  - destruct (sim_settle_refs first last _ r1 _ F Sim1) as (r2 & F2 & -> & Sim2 & _); [lia|]. cbn [mbind option_bind].
    rewrite decide_False by (destruct Hm as (_ & Hg & _); by intros ->).
    destruct (sim_store_waiting first last _ r2 _ F2 h v Sim2) as (r3 & -> & Sim3 & _); [lia|cbn; set_solver|].
    exists r3, h, F2. split; [done|]. by left.
  - destruct (sim_settle_refs first last _ r1 _ F Sim1) as (r2 & F2 & -> & Sim2 & _); [lia|]. cbn [mbind option_bind].
    rewrite decide_True by done. exists r2, h, F2. split; [done|]. right. split_and!; [done|done|].
    eapply refs_sim_mono; [|done]. lia.
Qed.

Lemma sim_watch first last n r s F :
  refs_sim first last n r s F → refs_sim first last n (declareDelta r) (rs_watched s) F.
Proof using Type.
  intros Sim. unfold declareDelta, rs_watched. rewrite (rm_obs _ _ _ _ _ _ Sim).
  destruct (decide (rs_observation s = unobserved)) as [Ho|Ho].
  - destruct Sim as [Hra Hbo Hfree Hpages HL Htr Hlive Hobs Hlist]. split; try done.
    + intros h. destruct (Htr h) as (A1 & A2 & A3). rewrite decide_False in A3 by congruence. done.
    + unfold listing_ok in *. rewrite decide_False in Hlist by congruence. done.
  - destruct s. cbn. exact Sim.
Qed.

(** Every operation its caller may do answers as the contract says. *)
Lemma sim_ref_op first last n r s F op :
  refs_sim first last n r s F → (N.of_nat n < 2 ^ 32 - 2)%N → ref_op_ok s op →
  (∀ x, isZero x = true → x = zero_value) →
  ∃ r' answer F', run_ref_op r op = Some (r', answer) ∧ ref_answers first last s op answer ∧
    refs_sim first last (S (S n)) r' (ref_after s op answer) F'.
Proof using Type.
  intros Sim Hn Hok Hz.
  assert (Hmono : ∀ m r' s' F', refs_sim first last m r' s' F' → m ≤ S (S n) → refs_sim first last (S (S n)) r' s' F')
    by (intros; by eapply refs_sim_mono).
  destruct op as [|v|h v|h v|h|h v|h v|h| | | | | | |]; cbn in *.
  - destruct (sim_reserve_ref first last n r s F Sim) as (r' & h & -> & Hh); [lia|]. eexists _, _, F. split; [done|].
    destruct Hh as [[Hm Sim']|(-> & Hex & Sim')]; cbn.
    + rewrite decide_False by (destruct Hm as (_ & Hg & _); by intros ->). split; [by left|]. eapply Hmono; [done|lia].
    + rewrite decide_True by done. split; [by right|]. eapply Hmono; [done|lia].
  - destruct (sim_new first last n r s F v Sim Hn) as (r' & h & F' & -> & Hh). eexists _, _, F'. split; [done|].
    destruct Hh as [[Hm Sim']|(-> & Hex & Sim')]; cbn.
    + rewrite decide_False by (destruct Hm as (_ & Hg & _); by intros ->). by split; [left|].
    + rewrite decide_True by done. by split; [right|].
  - destruct (sim_store_waiting first last n r s F h v Sim) as (r' & -> & Sim' & _); [lia|done|]. eexists _, _, F.
    split; [done|]. split; [done|]. eapply Hmono; [done|lia].
  - destruct (sim_place first last n r s F h v Sim) as (r' & -> & Sim'); [by apply Hok..|]. eexists _, _, F.
    split; [done|]. split; [done|]. eapply Hmono; [done|lia].
  - eexists _, _, F. split; [done|]. split; [by eapply sim_get_ref|]. eapply Hmono; [done|lia].
  - destruct (sim_set first last n r s F h v Sim) as (r' & -> & Sim'). eexists _, _, F. split; [done|]. split; [done|].
    eapply Hmono; [done|lia].
  - destruct Hok as [w Hw]. destruct (sim_write_through first last n r s F h v w Sim Hw) as (r' & -> & Sim'). eexists _, _, F.
    split; [done|]. split; [done|]. eapply Hmono; [done|lia].
  - destruct (sim_release_ref first last n r s F h Sim) as (r' & F' & -> & Sim'); [lia|]. eexists _, _, F'.
    split; [done|]. split; [done|]. eapply Hmono; [done|lia].
  - eexists _, _, F. split; [done|]. split; [by eapply sim_all|]. eapply Hmono; [done|lia].
  - destruct (sim_deltas first last n r s F Sim) as (l & -> & Hl). eexists _, _, F. split; [done|]. split; [done|].
    eapply Hmono; [done|lia].
  - destruct (sim_settle_refs first last n r s F Sim) as (r' & F' & -> & Sim' & _); [lia|]. eexists _, _, F'.
    split; [done|]. split; [done|]. eapply Hmono; [done|lia].
  - eexists _, _, F. split; [done|]. split; [done|]. eapply Hmono; [by apply sim_watch|lia].
  - destruct (sim_start_refs first last n r s F Sim) as (r' & -> & Sim'). eexists _, _, F. split; [done|]. split; [done|].
    eapply Hmono; [done|lia].
  - destruct (sim_reset_refs first last n r s F Sim) as (r' & F' & -> & Sim'); [lia|]. eexists _, _, F'. split; [done|]. split; [done|].
    eapply Hmono; [done|lia].
  - destruct (sim_shrink_refs first last isZero n r s F Hz Sim) as (r' & -> & Sim'). eexists _, _, F. split; [done|]. split; [done|].
    eapply Hmono; [done|lia].
Qed.

(** ** Runs *)

Implicit Types (allowed : refs_op → bool).

Hypothesis zero_slot : ∀ x : refSlot T, isZero x = true → x = zero_value.

Lemma step_sim first last allowed n F x y :
  refs_sim first last n x.1 x.2 F → (N.of_nat n < 2 ^ 32 - 2)%N → ref_step allowed x y →
  ∃ op answer F', allowed op ∧ ref_op_ok x.2 op ∧ ref_answers first last x.2 op answer ∧ y.2 = ref_after x.2 op answer ∧
    refs_sim first last (S (S n)) y.1 y.2 F'.
Proof using zero_slot.
  intros Sim Hn (op & answer & Ha & Hok & Hr & Hs).
  destruct (sim_ref_op first last n x.1 x.2 F op Sim Hn Hok zero_slot) as (r' & answer' & F' & Hr' & Hans & Sim').
  rewrite Hr in Hr'. injection Hr' as <- <-. exists op, answer, F'. by rewrite Hs.
Qed.

(** What each step keeps, in states that implement their contract. *)
Lemma run_ref_invariant first last allowed (P : refsSpec T → Prop) m n (x y : refsResource T * refsSpec T) :
  (∀ n (x : refsResource T * refsSpec T) F op answer, allowed op → refs_sim first last n x.1 x.2 F → ref_op_ok x.2 op → ref_answers first last x.2 op answer →
    P x.2 → P (ref_after x.2 op answer)) →
  nsteps (ref_step allowed) m x y → (N.of_nat (n + 2 * m) < 2 ^ 32 - 2)%N →
  (∃ F, refs_sim first last n x.1 x.2 F) → P x.2 →
  (∃ F, refs_sim first last (n + 2 * m) y.1 y.2 F) ∧ P y.2.
Proof using zero_slot.
  intros HP Hm. revert n. induction Hm as [x|m x y z Hxy Hm IH]; intros n Hn [F Sim] Hx.
  - split; [|done]. exists F. eapply refs_sim_mono; [|done]. lia.
  - destruct (step_sim first last allowed n F x y Sim ltac:(lia) Hxy) as (op & answer & F' & Ha & Hok & Hans & Ey & Sim').
    destruct (IH (S (S n)) ltac:(lia)) as [[F2 Sim2] Hz]; [by exists F'|rewrite Ey; by eapply HP|]. split; [|done].
    exists F2. by replace (n + 2 * S m) with (S (S n) + 2 * m) by lia.
Qed.

Lemma run_ref_sim first last allowed m n F x y :
  refs_sim first last n x.1 x.2 F → nsteps (ref_step allowed) m x y → (N.of_nat (n + 2 * m) < 2 ^ 32 - 2)%N →
  ∃ F', refs_sim first last (n + 2 * m) y.1 y.2 F'.
Proof using zero_slot.
  intros Sim Hm Hn. eapply (run_ref_invariant first last allowed (λ _, True)); try done. by exists F.
Qed.

(** The operations done in order, each only where its caller may. *)
Fixpoint run_ref_ops (ops : list refs_op) (x : refsResource T * refsSpec T) : option (refsResource T * refsSpec T) :=
  match ops with
  | [] => Some x
  | op :: ops => '(r, answer) ← run_ref_op x.1 op; run_ref_ops ops (r, ref_after x.2 op answer)
  end.

Fixpoint ops_ok (ops : list refs_op) (allowed : refs_op → bool) (x : refsResource T * refsSpec T) : Prop :=
  match ops with
  | [] => True
  | op :: ops => allowed op ∧ ref_op_ok x.2 op ∧
    match run_ref_op x.1 op with Some (r, answer) => ops_ok ops allowed (r, ref_after x.2 op answer) | None => False end
  end.

Lemma run_ref_ops_steps ops allowed x y :
  run_ref_ops ops x = Some y → ops_ok ops allowed x → nsteps (ref_step allowed) (length ops) x y.
Proof using Type.
  clear zero_slot. revert x. induction ops as [|op ops IH]; intros x Hr Hok; cbn in *; [injection Hr as ->; constructor|].
  destruct Hok as (Ha & Ho & Hok). destruct (run_ref_op x.1 op) as [[r answer]|] eqn:E; [|done].
  econstructor; [|by apply IH]. by exists op, answer.
Qed.

(** ** What they show *)

Lemma dead_stays first last h n x F op answer :
  refs_sim first last n x.1 x.2 F → ref_op_ok x.2 op → ref_answers first last x.2 op answer →
  h ∈ rs_handed x.2 ∧ (h ∉ rs_waiting x.2) ∧ rs_live x.2 !! h = None →
  h ∈ rs_handed (ref_after x.2 op answer) ∧ (h ∉ rs_waiting (ref_after x.2 op answer)) ∧
    rs_live (ref_after x.2 op answer) !! h = None.
Proof using Type.
  clear zero_slot isZero. intros Sim Hok Hans (Hh & Hw & Hl). set (s := x.2) in *.
  assert (Hr : ref_in_range first last (ref_index h)) by (by apply (rl_handed _ _ _ _ _ _ _ (rm_ledger _ _ _ _ _ _ Sim))).
  assert (Hne : ∀ h' v, rs_live s !! h' = Some v → h' ≠ h) by (intros h' v E ->; congruence).
  destruct op as [|v|h' v|h' v|h'|h' v|h' v|h'| | | | | | |], answer as [h1|b|error|o|l|l|]; try done; cbn in *.
  - destruct (decide (h1 = zero_ref)) as [|Hz]; [done|]. destruct Hans as [(_ & _ & Hn & _)|[? _]]; [|done]. cbn.
    split_and!; set_solver.
  - destruct (decide (h1 = zero_ref)) as [|Hz]; [done|]. destruct Hans as [(_ & _ & Hn & _)|[? _]]; [|done]. cbn.
    rewrite lookup_insert_ne by set_solver. split_and!; set_solver.
  - rewrite lookup_insert_ne by set_solver. split_and!; set_solver.
  - destruct (decide (error = None)) as [->|]; [|done]. cbn. unfold place_ref_answer in Hans.
    destruct (decide (ref_generation h' = 0%N)); [done|]. destruct (decide (ref_in_range _ _ _)) as [|Hnr]; [done|].
    rewrite lookup_insert_ne by (intros ->; done). split_and!; set_solver.
  - destruct (decide (is_Some (rs_live s !! h'))) as [[w Hv]|]; [|done]. unfold rs_marked.
    destruct (decide _); cbn; by rewrite lookup_insert_ne by (by eapply Hne).
  - destruct Hok as [w Hv]. by rewrite lookup_insert_ne by (by eapply Hne).
  - destruct (rs_live s !! h') as [w|] eqn:E; [|done]. cbn. rewrite lookup_delete_ne by (by eapply Hne). done.
  - unfold rs_started. by destruct (decide _).
  - unfold rs_reset. by destruct (decide _).
Qed.

(** What becomes of a ref that was live: it holds a value, and was [Set] or
    not, or it was released with its last value. *)
Inductive ref_fate := Held (v : T) (set : bool) | Ended (v : T).

Definition fate_op h (fate : ref_fate) op : ref_fate :=
  match fate, op with
  | Held w set, RSet h' v => if decide (h' = h) then Held v true else fate
  | Held w set, RWrite h' v => if decide (h' = h) then Held v set else fate
  | Held w set, RRelease h' => if decide (h' = h) then Ended w else fate
  | _, _ => fate
  end.

(** The fate of a ref that held [v] before some operations. *)
Definition fate_of h v (ops : list refs_op) : ref_fate := foldl (fate_op h) (Held v false) ops.

(** What a window remembers of [h], given its fate if it was live at the
    window's start. *)
Definition remembers h (fate : option ref_fate) (s : refsSpec T) : Prop :=
  rs_observation s = observed ∧
  match fate with
  | None => h ∉ rs_base s
  | Some (Held v set) => h ∈ rs_base s ∧ rs_live s !! h = Some v ∧ (h ∈ rs_touched s ↔ set = true)
  | Some (Ended v) => h ∈ rs_base s ∧ rs_live s !! h = None ∧ rs_gone s !! h = Some v
  end.

Lemma remembers_store h fate s h' v :
  remembers h fate s → ref_index h' ∉ held_indices s → remembers h fate (rs_stored s h' v).
Proof using Type.
  clear zero_slot isZero. intros (Ho & Hf) Hh'. split; [done|]. destruct fate as [[w set|w]|]; cbn; [| |done].
  all: assert (Hne : h' ≠ h) by (intros ->; apply Hh'; unfold held_indices; apply elem_of_map; exists h; split; [done|];
    rewrite elem_of_union, !elem_of_dom; destruct Hf as (_ & Hf1 & Hf2); rewrite ?Hf1, ?Hf2; eauto).
  all: by rewrite lookup_insert_ne.
Qed.

(** A value given to a live ref. *)
Lemma remembers_write h fate s h' v (mark : bool) :
  remembers h fate s → is_Some (rs_live s !! h') →
  remembers h ((λ f, fate_op h f (if mark then RSet h' v else RWrite h' v)) <$> fate)
    (if mark then rs_marked (rs_written s h' v) h' else rs_written s h' v).
Proof using Type.
  clear zero_slot isZero. intros (Ho & Hf) Hlive. unfold rs_marked. cbn. rewrite (decide_True _ _ Ho).
  split; [by destruct mark|]. destruct fate as [[w set|w]|], mark; cbn; try done.
  1,2: destruct (decide (h' = h)) as [->|Hn]; [rewrite lookup_insert_eq|rewrite lookup_insert_ne by done]; set_solver.
  all: assert (Hn : h' ≠ h) by (intros ->; destruct Hf as (_ & Hn & _), Hlive; congruence).
  all: by rewrite lookup_insert_ne.
Qed.

Lemma remembers_release h fate s h' w :
  remembers h fate s → rs_live s !! h' = Some w → remembers h ((λ f, fate_op h f (RRelease h')) <$> fate) (rs_released s h' w).
Proof using Type.
  clear zero_slot isZero. intros (Ho & Hf) Hw. unfold rs_released. rewrite (decide_True _ _ Ho). split; [done|].
  destruct fate as [[v set|v]|]; cbn; [| |done].
  - destruct (decide (h' = h)) as [->|Hn]; cbn; [rewrite lookup_delete_eq, lookup_insert_eq; naive_solver congruence|].
    by rewrite lookup_delete_ne.
  - assert (Hn : h' ≠ h) by (intros ->; destruct Hf as (_ & Hn & _); congruence).
    by rewrite lookup_delete_ne, lookup_insert_ne.
Qed.

(** An operation on a ref that is not live does nothing to another's fate. *)
Lemma remembers_refused h fate s h' op :
  remembers h fate s → rs_live s !! h' = None → (op = RRelease h' ∨ ∃ v, op = RSet h' v) → (λ f, fate_op h f op) <$> fate = fate.
Proof using Type.
  clear zero_slot isZero. intros (Ho & Hf) Hn Hop. destruct fate as [[v set|v]|]; [|by destruct Hop as [->|[? ->]]..].
  destruct Hf as (_ & Hl & _). assert (h' ≠ h) by congruence. cbn.
  destruct Hop as [->|[? ->]]; cbn; by rewrite decide_False.
Qed.

Lemma remembers_step first last h fate n (x : refsResource T * refsSpec T) F op answer :
  window_op op → refs_sim first last n x.1 x.2 F → ref_op_ok x.2 op → ref_answers first last x.2 op answer →
  remembers h fate x.2 → remembers h ((λ f, fate_op h f op) <$> fate) (ref_after x.2 op answer).
Proof using Type.
  clear zero_slot isZero. intros Hop Sim Hok Hans P. set (s := x.2) in *. pose proof P as (Ho & _).
  assert (Hhand : ∀ h, may_hand_ref first last s h → ref_index h ∉ held_indices s).
  { intros h' (_ & _ & _ & Hn) Hc. apply Hn. by apply elem_of_union_l. }
  assert (Hid : (∀ f, fate_op h f op = f) → (λ f, fate_op h f op) <$> fate = fate).
  { intros E. destruct fate; cbn; by rewrite ?E. }
  destruct op as [|v|h' v|h' v|h'|h' v|h' v|h'| | | | | | |], answer as [h1|b|error|o|l|l|]; try done; cbn [ref_op_ok ref_answers ref_after] in *.
  6:{ destruct (decide (is_Some (rs_live s !! h'))) as [Hs|Hs%eq_None_not_Some].
    - exact (remembers_write h fate s h' v true P Hs).
    - rewrite (remembers_refused h fate s h'); eauto. }
  6:{ exact (remembers_write h fate s h' v false P Hok). }
  6:{ destruct (rs_live s !! h') as [w|] eqn:E; [by apply remembers_release|]. rewrite (remembers_refused h fate s h'); auto. }
  all: rewrite Hid by (by intros []).
  all: try done.
  - by destruct (decide (h1 = zero_ref)).
  - destruct (decide (h1 = zero_ref)) as [|Hz]; [done|]. destruct Hans as [Hm|[? _]]; [|done].
    apply (remembers_store h fate (rs_reserved s h1)); [done|]. by apply Hhand in Hm.
  - apply remembers_store; [done|]. pose proof (rm_ledger _ _ _ _ _ _ Sim) as L.
    rewrite <- (tracked_used _ _ _ (rm_tracks _ _ _ _ _ _ Sim) (rl_slots _ _ _ _ _ _ _ L _)).
    by destruct (rl_waiting _ _ _ _ _ _ _ L h' Hok) as ((? & _) & _).
  - destruct (decide (error = None)) as [->|]; [|done]. apply remembers_store; [done|]. unfold place_ref_answer in Hans.
    destruct (decide (ref_generation h' = 0%N)); [done|]. destruct (decide (ref_in_range _ _ _)); [done|].
    by destruct (decide (ref_index h' ∈ held_indices s)).
  - unfold rs_watched. rewrite decide_False by congruence. by destruct s.
  - unfold rs_started. rewrite decide_False by congruence. done.
Qed.

(** A window's operations done, [h] has the fate they make. *)
Lemma remembers_run first last h ops n (x y : refsResource T * refsSpec T) F fate :
  refs_sim first last n x.1 x.2 F → (N.of_nat (n + 2 * length ops) < 2 ^ 32 - 2)%N →
  run_ref_ops ops x = Some y → ops_ok ops window_op x → remembers h fate x.2 →
  ∃ F', refs_sim first last (n + 2 * length ops) y.1 y.2 F' ∧
    remembers h ((λ f, foldl (fate_op h) f ops) <$> fate) y.2.
Proof using zero_slot.
  revert n x F fate. induction ops as [|op ops IH]; intros n x F fate Sim Hn Hr Hok P; cbn in Hr, Hok.
  - injection Hr as <-. exists F. cbn [length]. rewrite Nat.mul_0_r, Nat.add_0_r. split; [done|]. by destruct fate.
  - cbn [length] in Hn. destruct Hok as (Hw & Ho & Hok).
    destruct (sim_ref_op first last n x.1 x.2 F op Sim ltac:(lia) Ho zero_slot) as (r' & answer & F' & E & Hans & Sim').
    rewrite E in Hr, Hok. cbn in Hr.
    destruct (IH (S (S n)) (r', ref_after x.2 op answer) F' ((λ f, fate_op h f op) <$> fate)) as (F2 & Sim2 & P2);
      [done|lia|done|done|by eapply remembers_step|].
    exists F2. cbn [length]. replace (n + 2 * S (length ops)) with (S (S n) + 2 * length ops) by lia. 
    split; [exact Sim2|].
    destruct fate; exact P2.
Qed.

(** The deltas of a ref, by its fate. *)
Lemma remembers_deltas h fate s (l : list (Ref * (Delta * T))) :
  remembers h fate s → (∀ h d, (h, d) ∈ l ↔ ref_delta s h = Some d) →
  match fate with
  | None => ∀ d, (h, d) ∈ l ↔ ∃ w, rs_live s !! h = Some w ∧ d = (DeltaAdded, w)
  | Some (Held w set) => rs_live s !! h = Some w ∧ ∀ d, (h, d) ∈ l ↔ set = true ∧ d = (DeltaChanged, w)
  | Some (Ended w) => rs_live s !! h = None ∧ ∀ d, (h, d) ∈ l ↔ d = (DeltaReleased, w)
  end.
Proof using Type.
  clear zero_slot isZero. intros (Ho & Hf) Hl. unfold ref_delta in Hl.
  destruct fate as [[w set|w]|].
  - destruct Hf as (Hb & Hlive & Ht). split; [done|]. intros d. rewrite Hl, Hlive, !decide_True by done.
    destruct (decide (h ∈ rs_touched s)) as [Hin|Hin]; naive_solver congruence.
  - destruct Hf as (Hb & Hlive & Hg). split; [done|]. intros d. rewrite Hl, Hlive, Hg, decide_True by done. cbn.
    rewrite decide_True by done. naive_solver congruence.
  - intros d. rewrite Hl, decide_True by done. destruct (rs_live s !! h) as [w|].
    + rewrite decide_False by done. naive_solver congruence.
    + destruct (rs_gone s !! h); cbn; [rewrite decide_False by done|]; naive_solver.
Qed.
End history.

Section claims.
Context {T : Type} `{Zero T} (isZero : refSlot T → bool).
Hypothesis zero_slot : ∀ x : refSlot T, isZero x = true → x = zero_value.
Implicit Types (x y z : refsResource T * refsSpec T).

(** C34: refs behave as their contract says from their registration on, for
    any history of operations their callers may do: no operation panics;
    handles are handed out fresh, inside the allocation range and at an index
    nothing is at, or the zero ref when the range is used up; [Get], [Set],
    [Release] and [All] answer by the map of live refs; [NewAt] refuses
    exactly a zero generation, the range and an index held this window; the
    deltas are those of the window.  [liveRefs] counts the live refs. *)
Theorem refs_refine_map options r0 n x op :
  registerRefs false false options = Ok r0 → (opt_last options < 2 ^ 32)%N → (N.of_nat n < 2 ^ 31 - 2)%N →
  nsteps (ref_step isZero any_op) n (r0, initial_refs) x → ref_op_ok x.2 op →
  liveRefs x.1 = size (rs_live x.2) ∧
  ∃ r' answer, run_ref_op isZero x.1 op = Some (r', answer) ∧
    ref_answers (ref_first r0) (ref_last r0) x.2 op answer.
Proof using zero_slot.
  intros Hr Hl Hn Hx Hop. pose proof (sim_registered options r0 Hr Hl) as S0.
  destruct (run_ref_sim isZero zero_slot _ _ any_op n 0 [] (r0, initial_refs) x S0 Hx) as [F Sim]; [lia|].
  split; [by apply (rm_count _ _ _ _ _ _ Sim)|].
  destruct (sim_ref_op isZero _ _ _ _ _ F op Sim ltac:(lia) Hop zero_slot) as (r' & answer & F' & E & Hans & _).
  by exists r', answer.
Qed.

(** A ref that was handed out and holds no value any more never reads
    again, whatever is done to the refs after. *)
Theorem ref_never_returns options r0 n m x y h :
  registerRefs false false options = Ok r0 → (opt_last options < 2 ^ 32)%N → (N.of_nat (n + m) < 2 ^ 31 - 2)%N →
  nsteps (ref_step isZero any_op) n (r0, initial_refs) x → nsteps (ref_step isZero any_op) m x y →
  h ∈ rs_handed x.2 → h ∉ rs_waiting x.2 → get x.1 h = None → get y.1 h = None.
Proof using zero_slot.
  intros Hr Hl Hn Hx Hy Hh Hw Hg. pose proof (sim_registered options r0 Hr Hl) as S0.
  destruct (run_ref_sim isZero zero_slot _ _ any_op n 0 [] (r0, initial_refs) x S0 Hx) as [F Sim]; [lia|].
  rewrite (sim_get_ref _ _ _ _ _ _ h Sim) in Hg.
  destruct (run_ref_invariant isZero zero_slot (ref_first r0) (ref_last r0) any_op
    (λ s, h ∈ rs_handed s ∧ (h ∉ rs_waiting s) ∧ rs_live s !! h = None) m (0 + 2 * n) x y) as [[F' Sim'] (_ & _ & Hd)];
    [|exact Hy|lia|by exists F|done|].
  - intros k x' F' op answer _ Sx Hop Hans. by eapply dead_stays.
  - by rewrite (sim_get_ref _ _ _ _ _ _ h Sim').
Qed.

(** C35: between two resets, and whatever is done there, [DeltaRefs] reports
    exactly what became of each ref.  One that read at the window's start and
    still does is reported if, and only if, it was [Set] in the window, to
    another value or the same: as changed, with its value now, which is the
    last one [Set] or written through its pointer, or the one it had.  One
    that was released is reported so, with the last value it held.  One that
    did not read at the start is reported, as added and with its value now,
    if and only if it reads now.  Each ref is reported once. *)
Theorem refs_deltas_exact options r0 n x r1 ops z :
  registerRefs false false options = Ok r0 → (opt_last options < 2 ^ 32)%N → (N.of_nat (n + length ops) < 2 ^ 31 - 4)%N →
  nsteps (ref_step isZero any_op) n (r0, initial_refs) x → ref_observation x.1 = observed →
  resetObservation x.1 = Some r1 →
  run_ref_ops isZero ops (r1, rs_reset x.2) = Some z → ops_ok isZero ops window_op (r1, rs_reset x.2) →
  ∃ l, delta_refs z.1 = Some l ∧ NoDup (fst <$> l) ∧
  ∀ h, match get r1 h with
    | Some v =>
      match fate_of h v ops with
      | Held w set => get z.1 h = Some w ∧ ∀ d, (h, d) ∈ l ↔ set = true ∧ d = (DeltaChanged, w)
      | Ended w => get z.1 h = None ∧ ∀ d, (h, d) ∈ l ↔ d = (DeltaReleased, w)
      end
    | None => ∀ d, (h, d) ∈ l ↔ ∃ w, get z.1 h = Some w ∧ d = (DeltaAdded, w)
    end.
Proof using zero_slot.
  intros Hr Hl Hn Hx Hobs Hreset Hz Hok. pose proof (sim_registered options r0 Hr Hl) as S0.
  destruct (run_ref_sim isZero zero_slot _ _ any_op n 0 [] (r0, initial_refs) x S0 Hx) as [F Sim]; [lia|].
  destruct (sim_reset_refs _ _ _ _ _ _ Sim) as (r1' & F1 & E & Sim1); [lia|]. rewrite Hreset in E. injection E as <-.
  rewrite (rm_obs _ _ _ _ _ _ Sim) in Hobs.
  assert (Erun : ∀ h, ∃ F', refs_sim (ref_first r0) (ref_last r0) (0 + 2 * n + 2 * length ops) z.1 z.2 F' ∧
    remembers h ((λ v, fate_of h v ops) <$> rs_live x.2 !! h) z.2).
  { intros h. replace ((λ v, fate_of h v ops) <$> rs_live x.2 !! h)
      with ((λ f, foldl (fate_op h) f ops) <$> ((λ v, Held v false) <$> rs_live x.2 !! h)) by (by destruct (rs_live x.2 !! h)).
    eapply (remembers_run isZero zero_slot _ _ h ops _ (r1, rs_reset x.2)); [exact Sim1|lia|exact Hz|exact Hok|].
    cbn. unfold rs_reset. rewrite decide_True by done. split; [done|].
    destruct (rs_live x.2 !! h) as [v|] eqn:Ev; cbn; rewrite elem_of_dom, Ev; [|by intros [? ?]]. split_and!; [by eexists|done|set_solver]. }
  destruct (Erun zero_ref) as (F' & Sim' & _).
  destruct (sim_deltas _ _ _ _ _ _ Sim') as (l & -> & Hnd & Hel). exists l. split_and!; [done|done|].
  intros h. rewrite (sim_get_ref _ _ _ _ _ _ h Sim1), (sim_get_ref _ _ _ _ _ _ h Sim').
  replace (rs_live (rs_reset x.2)) with (rs_live x.2) by (unfold rs_reset; by destruct (decide _)).
  destruct (Erun h) as (_ & _ & P). pose proof (remembers_deltas h _ z.2 l P Hel) as HD. by destruct (rs_live x.2 !! h).
Qed.
End claims.

(** ** Concrete histories *)

Module RefsExample.
Definition isZero (x : refSlot N) : bool :=
  (value x =? 0)%N && (slot_generation x =? 0)%N && negb (slot_live x) && bool_decide (state x = refUnchanged).

Lemma isZero_zero (x : refSlot N) : isZero x = true → x = zero_value.
Proof.
  unfold isZero. intros Hz. apply andb_prop in Hz as [Hz Hs%bool_decide_eq_true]. apply andb_prop in Hz as [Hz Hl].
  apply andb_prop in Hz as [Hv%N.eqb_eq Hg%N.eqb_eq]. destruct x as [v g [] st]; cbn in *; [done|]. by subst.
Qed.

Definition options := mkRefsOptions 10 11.
Definition r0 : refsResource N := mkRefs emptyTable 10 11 emptyArray 0 10 0 unobserved [] false.

(** Two refs made and one released before observation starts. *)
Definition before : list (refs_op (T := N)) :=
  [RNew 7%N; RNew 8%N; RRelease (mkRef 11 1); RWatch; RStart; RPlace (mkRef 40 3) 5%N; RPlace (mkRef 41 1) 2%N;
   RPlace (mkRef 42 1) 3%N].

(** In the next window one is set twice, one set to the value it has, one
    written through its pointer, one released and one made. *)
Definition window : list (refs_op (T := N)) :=
  [RSet (mkRef 40 3) 4%N; RSet (mkRef 40 3) 6%N; RSet (mkRef 41 1) 2%N; RWrite (mkRef 42 1) 4%N; RRelease (mkRef 10 1); RNew 9%N].

Definition after (ops : list (refs_op (T := N))) x : refsResource N * refsSpec N := default x (run_ref_ops isZero ops x).

#[local] Instance ref_op_ok_dec (s : refsSpec N) op : Decision (ref_op_ok s op).
Proof. destruct op; cbn; apply _. Defined.

Fixpoint ops_okb (ops : list (refs_op (T := N))) (allowed : refs_op → bool) (x : refsResource N * refsSpec N) : bool :=
  match ops with
  | [] => true
  | op :: ops => allowed op && bool_decide (ref_op_ok x.2 op) &&
    match run_ref_op isZero x.1 op with Some (r, answer) => ops_okb ops allowed (r, ref_after x.2 op answer) | None => false end
  end.

Lemma okb_runs ops allowed x :
  ops_okb ops allowed x = true → ops_ok isZero ops allowed x ∧ is_Some (run_ref_ops isZero ops x).
Proof.
  revert x. induction ops as [|op ops IH]; intros x Hb; cbn in *; [split; [done|by eexists]|].
  apply andb_prop in Hb as [[Ha Ho%bool_decide_eq_true]%andb_prop Hb].
  destruct (run_ref_op isZero x.1 op) as [[r answer]|]; [|done]. destruct (IH _ Hb) as [H1 H2]. cbn.
  split; [|done]. split_and!; [by rewrite Ha|done|done].
Qed.

Lemma after_steps ops allowed x :
  ops_okb ops allowed x = true → nsteps (ref_step isZero allowed) (length ops) x (after ops x).
Proof.
  intros Hb. destruct (okb_runs ops allowed x Hb) as [Hok [y Hy]]. unfold after. rewrite Hy. by apply run_ref_ops_steps.
Qed.

(** The ref made next takes the index released in the window before. *)
Lemma refs_refine_map_witness :
  ∃ r' h, run_ref_op isZero (after (before ++ [RReset] ++ window ++ [RReset]) (r0, initial_refs)).1 (RNew 4%N) = Some (r', RHanded h) ∧
    h = mkRef 10 2.
Proof.
  destruct (refs_refine_map isZero isZero_zero options r0 (length (before ++ [RReset] ++ window ++ [RReset]))
    (after (before ++ [RReset] ++ window ++ [RReset]) (r0, initial_refs)) (RNew 4%N)) as (_ & r' & answer & E & _).
  - reflexivity.
  - reflexivity.
  - reflexivity.
  - apply after_steps. vm_compute. reflexivity.
  - exact I.
  - assert (Ea : snd <$> run_ref_op isZero (after (before ++ [RReset] ++ window ++ [RReset]) (r0, initial_refs)).1 (RNew 4%N)
      = Some (RHanded (mkRef 10 2))) by (vm_compute; reflexivity).
    rewrite E in Ea. injection Ea as Ea. exists r', (mkRef 10 2). rewrite E, Ea. exact (conj eq_refl eq_refl).
Defined.

Lemma handed_by (x : refsResource N * refsSpec N) h : bool_decide (h ∈ rs_handed x.2) = true → h ∈ rs_handed x.2.
Proof. apply bool_decide_eq_true_1. Qed.

Lemma not_waiting_by (x : refsResource N * refsSpec N) h : bool_decide (h ∈ rs_waiting x.2) = false → h ∉ rs_waiting x.2.
Proof. apply bool_decide_eq_false_1. Qed.

(** A handle released before its index was handed out again reads nothing. *)
Lemma ref_never_returns_witness :
  get (after ([RReset] ++ window ++ [RReset; RNew 4%N]) (after before (r0, initial_refs))).1 (mkRef 11 1) = None.
Proof.
  apply (ref_never_returns isZero isZero_zero options r0 (length before) (length ([RReset] ++ window ++ [RReset; RNew 4%N]))
    (after before (r0, initial_refs)) (after ([RReset] ++ window ++ [RReset; RNew 4%N]) (after before (r0, initial_refs))) (mkRef 11 1)).
  - reflexivity.
  - reflexivity.
  - reflexivity.
  - apply after_steps. vm_compute. reflexivity.
  - apply after_steps. vm_compute. reflexivity.
  - apply handed_by. vm_compute. reflexivity.
  - apply not_waiting_by. vm_compute. reflexivity.
  - vm_compute. reflexivity.
Defined.

Lemma reads_split (b c : bool) (p1 p2 p3 p4 q1 q2 q3 q4 : option N) :
  Some (b, (p1, p2, (p3, p4))) = Some (c, (q1, q2, (q3, q4))) → b = c ∧ p1 = q1 ∧ p2 = q2 ∧ p3 = q3 ∧ p4 = q4.
Proof. intros E. by simplify_eq. Qed.

(** The ref set twice is reported with its last value, the one set to its own
    value too, the one written through its pointer not, and the one released
    with the value it had. *)
Lemma refs_deltas_exact_witness :
  ∃ r1 z l, resetObservation (after before (r0, initial_refs)).1 = Some r1 ∧
    run_ref_ops isZero window (r1, rs_reset (after before (r0, initial_refs)).2) = Some z ∧ delta_refs z.1 = Some l ∧
    (mkRef 40 3, (DeltaChanged, 6%N)) ∈ l ∧ (mkRef 41 1, (DeltaChanged, 2%N)) ∈ l ∧
    (∀ d, ¬ (mkRef 42 1, d) ∈ l) ∧ get z.1 (mkRef 42 1) = Some 4%N ∧ (mkRef 10 1, (DeltaReleased, 7%N)) ∈ l.
Proof.
  pose (x := after before (r0, initial_refs : refsSpec N)). fold x.
  pose (reads := λ r : refsResource N, (get r (mkRef 40 3), get r (mkRef 41 1), (get r (mkRef 42 1), get r (mkRef 10 1)))).
  pose (facts := λ r : refsResource N, (ops_okb window window_op (r, rs_reset x.2), reads r)).
  assert (Ef : facts <$> resetObservation x.1 = Some (true, (Some 5%N, Some 2%N, (Some 3%N, Some 7%N)))) by (vm_compute; reflexivity).
  destruct (resetObservation x.1) as [r1|] eqn:Er; [|discriminate Ef].
  destruct (reads_split _ _ _ _ _ _ _ _ _ _ Ef) as (Eb & E1 & E2 & E3 & E4). destruct (okb_runs window window_op _ Eb) as [Hok [z Hz]].
  destruct (refs_deltas_exact isZero isZero_zero options r0 (length before) x r1 window z) as (l & El & _ & Hl).
  - reflexivity.
  - reflexivity.
  - reflexivity.
  - apply after_steps. vm_compute. reflexivity.
  - vm_compute. reflexivity.
  - exact Er.
  - exact Hz.
  - exact Hok.
  - pose proof (Hl (mkRef 40 3)) as H1. rewrite E1 in H1. pose proof (Hl (mkRef 41 1)) as H2. rewrite E2 in H2.
    pose proof (Hl (mkRef 42 1)) as H3. rewrite E3 in H3. pose proof (Hl (mkRef 10 1)) as H4. rewrite E4 in H4.
    exists r1, z, l. refine (conj eq_refl (conj Hz (conj El (conj _ (conj _ (conj _ (conj (proj1 H3) _))))))).
    + apply (proj2 (proj2 H1 _)). split; reflexivity.
    + apply (proj2 (proj2 H2 _)). split; reflexivity.
    + intros d Hd. apply (proj2 H3) in Hd as [Hd _]. discriminate Hd.
    + apply (proj2 (proj2 H4 _)). reflexivity.
Defined.
End RefsExample.
