(* ===== verification/KeyedRefs.v ===== *)
(** * Keyed refs of ecs/keyedrefs.go

    Refs found by their values' keys, and that the key map is exactly the
    keys of the live refs.  [key] is the values' [Key] method; [keysOf]'s
    dynamic type test is the typing of [keyedRefs]. *)

From stdpp Require Import sorting relations.
From S2P Require Import Prelude Array Entity IndexTable Store Refs RefsSpec RefsRefines RefsRelease RefsReset.
From S2P Require Import RefsReset RefsDelta RefsHistory.

(** What [PutAt] refuses. *)
Inductive putAtError := KeyHasRef | PlaceRefused (error : placeRefError).

Section keyed.
Context {T K : Type} `{Zero T} `{Countable K} (key : T → K).

Record keyedRefs := mkKeyed {
  kr_refs : refsResource T;
  kr_keys : gmap K Ref
}.

Implicit Types (x : keyedRefs) (s : refsSpec T) (h : Ref) (v : T) (k : K).

Definition registerKeyedRefs (registered named : bool) (options : RefsOptions) : result registerError keyedRefs :=
  r ← registerRefs registered named options;
  Ok (mkKeyed r ∅).

Definition Find x k : option Ref := kr_keys x !! k.

Definition PutKeyed x v : option (keyedRefs * Ref) :=
  match kr_keys x !! key v with
  | Some h => Some (x, h)
  | None =>
    '(r, h) ← new (kr_refs x) v;
    if decide (h = zero_ref) then Some (mkKeyed r (kr_keys x), h) else
    Some (mkKeyed r (<[key v := h]> (kr_keys x)), h)
  end.

Definition PutAt x h v : option (keyedRefs * option putAtError) :=
  match kr_keys x !! key v with
  | Some _ => Some (x, Some KeyHasRef)
  | None =>
    '(r, error) ← place_ref (kr_refs x) h v;
    match error with
    | Some error => Some (mkKeyed r (kr_keys x), Some (PlaceRefused error))
    | None => Some (mkKeyed r (<[key v := h]> (kr_keys x)), None)
    end
  end.

Definition updateKeyed x v : option (keyedRefs * bool) :=
  match kr_keys x !! key v with
  | None => Some (x, false)
  | Some h =>
    match slot (kr_refs x) h with
    | None => Some (x, false)
    | Some sl =>
      r ← put_slot (kr_refs x) (ref_index h) (mkRefSlot v (slot_generation sl) (slot_live sl) (state sl));
      r ← markChanged r h;
      Some (mkKeyed r (kr_keys x), true)
    end
  end.

Definition releaseKeyed x h : option (keyedRefs * bool) :=
  r ← settleReservations (kr_refs x);
  match slot r h with
  | None => Some (mkKeyed r (kr_keys x), false)
  | Some sl =>
    '(r, b) ← release r h;
    Some (mkKeyed r (delete (key (value sl)) (kr_keys x)), b)
  end.

Definition ReleaseKey x k : option (keyedRefs * bool) :=
  match kr_keys x !! k with
  | None => Some (x, false)
  | Some h => releaseKeyed x h
  end.

(** ** The key map *)

(** The keys are those of the live refs, each of one ref. *)
Definition keys_of (keys : gmap K Ref) (live : gmap Ref T) : Prop :=
  ∀ k h, keys !! k = Some h ↔ ∃ v, live !! h = Some v ∧ key v = k.

Lemma keys_none keys live k : keys_of keys live → keys !! k = None → ∀ h v, live !! h = Some v → key v ≠ k.
Proof using Type. intros Hk E h v Hv Ek. assert (keys !! k = Some h) by (apply Hk; by exists v). congruence. Qed.

Lemma keys_insert keys live h v :
  keys_of keys live → keys !! key v = None → live !! h = None → keys_of (<[key v := h]> keys) (<[h := v]> live).
Proof using Type.
  intros Hk E Eh k h'. destruct (decide (key v = k)) as [<-|Hne].
  - rewrite lookup_insert_eq. split.
    + intros [= <-]. exists v. by rewrite lookup_insert_eq.
    + intros (w & Hw & Ew). destruct (decide (h = h')) as [->|Hd]; [done|]. rewrite lookup_insert_ne in Hw by done.
      by destruct (keys_none _ _ _ Hk E h' w Hw).
  - rewrite lookup_insert_ne by done. rewrite (Hk k h'). split; intros (w & Hw & Ew); exists w.
    + split; [|done]. rewrite lookup_insert_ne; [done|]. intros ->. congruence.
    + destruct (decide (h = h')) as [->|Hd]; [|by rewrite lookup_insert_ne in Hw]. rewrite lookup_insert_eq in Hw. congruence.
Qed.

Lemma keys_same keys live h v w :
  keys_of keys live → live !! h = Some v → key w = key v → keys_of keys (<[h := w]> live).
Proof using Type.
  intros Hk Hv E k h'. rewrite (Hk k h'). destruct (decide (h = h')) as [->|Hd]; [|by rewrite lookup_insert_ne].
  rewrite lookup_insert_eq. split; intros (u & Hu & Eu); [exists w|exists v]; (split; [done|congruence]).
Qed.

Lemma keys_delete keys live h v : keys_of keys live → live !! h = Some v → keys_of (delete (key v) keys) (delete h live).
Proof using Type.
  intros Hk Hv k h'. destruct (decide (key v = k)) as [<-|Hne].
  - rewrite lookup_delete_eq. split; [done|]. intros (w & Hw & Ew). destruct (decide (h = h')) as [->|Hd]; [by rewrite lookup_delete_eq in Hw|].
    rewrite lookup_delete_ne in Hw by done. assert (E1 : keys !! key v = Some h') by (apply Hk; by exists w).
    assert (E2 : keys !! key v = Some h) by (apply Hk; by exists v). congruence.
  - rewrite lookup_delete_ne by done. rewrite (Hk k h'). split; intros (w & Hw & Ew); exists w.
    + split; [|done]. rewrite lookup_delete_ne; [done|]. intros ->. congruence.
    + destruct (decide (h = h')) as [->|Hd]; [by rewrite lookup_delete_eq in Hw|]. by rewrite lookup_delete_ne in Hw.
Qed.

(** ** Operations and their contract *)

Inductive keyed_op :=
  | KPut (v : T)
  | KPutAt (h : Ref) (v : T)
  | KUpdate (v : T)
  | KFind (k : K)
  | KRelease (h : Ref)
  | KReleaseKey (k : K)
  | KRefs (op : refs_op (T := T)).

Inductive keyed_answer :=
  | KHanded (h : Ref)
  | KPlaced (error : option putAtError)
  | KBool (b : bool)
  | KFound (h : option Ref)
  | KAnswer (answer : refs_answer (T := T)).

Context (isZero : refSlot T → bool).

Definition run_keyed_op x (op : keyed_op) : option (keyedRefs * keyed_answer) :=
  match op with
  | KPut v => '(x, h) ← PutKeyed x v; Some (x, KHanded h)
  | KPutAt h v => '(x, error) ← PutAt x h v; Some (x, KPlaced error)
  | KUpdate v => '(x, b) ← updateKeyed x v; Some (x, KBool b)
  | KFind k => Some (x, KFound (Find x k))
  | KRelease h => '(x, b) ← releaseKeyed x h; Some (x, KBool b)
  | KReleaseKey k => '(x, b) ← ReleaseKey x k; Some (x, KBool b)
  | KRefs op => '(r, answer) ← run_ref_op isZero (kr_refs x) op; Some (mkKeyed r (kr_keys x), KAnswer answer)
  end.

(** The refs' own operations that keyed refs offer; a write through a pointer
    must keep the value's key. *)
Definition keyed_op_ok (live : Ref → option T) (op : keyed_op) : Prop :=
  match op with
  | KPutAt h _ => (ref_generation h < 2 ^ 32 ∧ ref_index h < 2 ^ 32)%N
  | KRefs (RWrite h v) => ∃ w, live h = Some w ∧ key v = key w
  | KRefs (RNew _ | RStore _ _ | RPlace _ _ | RSet _ _ | RRelease _) => False
  | _ => True
  end.

Definition has_key s k h : Prop := ∃ v, rs_live s !! h = Some v ∧ key v = k.
Definition no_key s k : Prop := ∀ h v, rs_live s !! h = Some v → key v ≠ k.

Section contract.
Context (first last : N).

(** The answer to an operation, and the contract's state after it. *)
Inductive keyed_spec s : keyed_op → keyed_answer → refsSpec T → Prop :=
  | spec_put_found v h : has_key s (key v) h → keyed_spec s (KPut v) (KHanded h) s
  | spec_put_new v h : no_key s (key v) → may_hand_ref first last s h →
      keyed_spec s (KPut v) (KHanded h) (rs_stored (rs_reserved s h) h v)
  | spec_put_none v : no_key s (key v) → refs_exhausted first last s → keyed_spec s (KPut v) (KHanded zero_ref) s
  | spec_putAt_key h v h' : has_key s (key v) h' → keyed_spec s (KPutAt h v) (KPlaced (Some KeyHasRef)) s
  | spec_putAt_refused h v error : no_key s (key v) → place_ref_answer first last s h = Some error →
      keyed_spec s (KPutAt h v) (KPlaced (Some (PlaceRefused error))) s
  | spec_putAt h v : no_key s (key v) → place_ref_answer first last s h = None →
      keyed_spec s (KPutAt h v) (KPlaced None) (rs_stored s h v)
  | spec_update v h : has_key s (key v) h → keyed_spec s (KUpdate v) (KBool true) (rs_marked (rs_written s h v) h)
  | spec_update_none v : no_key s (key v) → keyed_spec s (KUpdate v) (KBool false) s
  | spec_find k h : has_key s k h → keyed_spec s (KFind k) (KFound (Some h)) s
  | spec_find_none k : no_key s k → keyed_spec s (KFind k) (KFound None) s
  | spec_release h v : rs_live s !! h = Some v → keyed_spec s (KRelease h) (KBool true) (rs_released s h v)
  | spec_release_none h : rs_live s !! h = None → keyed_spec s (KRelease h) (KBool false) s
  | spec_releaseKey k h v : rs_live s !! h = Some v → key v = k → keyed_spec s (KReleaseKey k) (KBool true) (rs_released s h v)
  | spec_releaseKey_none k : no_key s k → keyed_spec s (KReleaseKey k) (KBool false) s
  | spec_refs op answer : ref_answers first last s op answer →
      keyed_spec s (KRefs op) (KAnswer answer) (ref_after s op answer).

(** The refs implement their contract and the keys are their values'. *)
Definition keyed_sim (n : nat) x s : Prop :=
  (∃ F, refs_sim first last n (kr_refs x) s F) ∧ keys_of (kr_keys x) (rs_live s).
End contract.

Hypothesis zero_slot : ∀ x : refSlot T, isZero x = true → x = zero_value.

Lemma has_key_of keys s k h : keys_of keys (rs_live s) → keys !! k = Some h → has_key s k h.
Proof using Type. intros Hk E. by apply Hk. Qed.

Lemma live_after_marked s h : rs_live (rs_marked s h) = rs_live s.
Proof using Type. unfold rs_marked. by destruct (decide _). Qed.

Lemma sim_put_keyed first last n x s v :
  keyed_sim first last n x s → (N.of_nat n < 2 ^ 32 - 2)%N →
  ∃ x' h s', PutKeyed x v = Some (x', h) ∧ keyed_spec first last s (KPut v) (KHanded h) s' ∧ keyed_sim first last (S (S n)) x' s'.
Proof using Type.
  intros [[F Sim] Hk] Hn. unfold PutKeyed. destruct (kr_keys x !! key v) as [h|] eqn:E.
  - exists x, h, s. split_and!; [done|apply spec_put_found; by eapply has_key_of|]. split; [|done].
    exists F. eapply refs_sim_mono; [|done]. lia.
  - destruct (sim_new first last n (kr_refs x) s F v Sim Hn) as (r' & h & F' & -> & Hh). cbn [mbind option_bind].
    pose proof (keys_none _ _ _ Hk E) as Hno. destruct Hh as [[Hm Sim']|(-> & Hex & Sim')].
    + rewrite decide_False by (destruct Hm as (_ & Hg & _); by intros ->). eexists _, h, _. split; [done|].
      split; [by apply spec_put_new|]. split; [by exists F'|]. cbn. apply keys_insert; [done|done|].
      destruct (rs_live s !! h) as [w|] eqn:Ew; [|done]. destruct Hm as (_ & _ & _ & Hm). destruct Hm.
      apply elem_of_union_l. unfold held_indices. apply elem_of_map. exists h. split; [done|]. apply elem_of_union_l, elem_of_dom. by eexists.
    + rewrite decide_True by done. eexists _, _, _. split; [done|]. split; [by apply spec_put_none|]. split; [by exists F'|done].
Qed.

Lemma sim_putAt first last n x s h v :
  keyed_sim first last n x s → (ref_generation h < 2 ^ 32)%N → (ref_index h < 2 ^ 32)%N →
  ∃ x' error s', PutAt x h v = Some (x', error) ∧ keyed_spec first last s (KPutAt h v) (KPlaced error) s' ∧ keyed_sim first last n x' s'.
Proof using Type.
  intros [[F Sim] Hk] Hg Hi. unfold PutAt. destruct (kr_keys x !! key v) as [h'|] eqn:E.
  - eexists _, _, _. split; [done|]. split; [eapply spec_putAt_key; by eapply has_key_of|]. split; [by exists F|done].
  - destruct (sim_place first last n (kr_refs x) s F h v Sim Hg Hi) as (r' & -> & Sim'). cbn [mbind option_bind].
    pose proof (keys_none _ _ _ Hk E) as Hno. destruct (place_ref_answer first last s h) as [error|] eqn:Ea.
    + eexists _, _, _. split; [done|]. split; [by apply spec_putAt_refused|]. split; [by exists F|done].
    + eexists _, _, _. split; [done|]. split; [by apply spec_putAt|]. split; [by exists F|]. cbn. apply keys_insert; [done|done|].
      destruct (rs_live s !! h) as [w|] eqn:Ew; [|done]. unfold place_ref_answer in Ea.
      destruct (decide (ref_generation h = 0%N)); [done|]. destruct (decide (ref_in_range _ _ _)); [done|].
      destruct (decide (ref_index h ∈ held_indices s)) as [|Hn]; [done|]. destruct Hn. unfold held_indices.
      apply elem_of_map. exists h. split; [done|]. apply elem_of_union_l, elem_of_dom. by eexists.
Qed.

Lemma sim_updateKeyed first last n x s v :
  keyed_sim first last n x s →
  ∃ x' b s', updateKeyed x v = Some (x', b) ∧ keyed_spec first last s (KUpdate v) (KBool b) s' ∧ keyed_sim first last n x' s'.
Proof using Type.
  intros [[F Sim] Hk]. unfold updateKeyed. destruct (kr_keys x !! key v) as [h|] eqn:E.
  - pose proof (has_key_of _ _ _ _ Hk E) as Hh. pose proof Hh as (w & Hw & Ew).
    destruct (slot_spec (kr_refs x) s h (rm_tracks _ _ _ _ _ _ Sim)) as [-> _]. rewrite decide_True by (by eexists).
    destruct (sim_put_value first last n (kr_refs x) s F h v w Sim Hw) as (r1 & -> & Sim1 & _). cbn [mbind option_bind].
    destruct (sim_markChanged first last n r1 (rs_written s h v) F h v Sim1) as (r2 & -> & Sim2); [apply lookup_insert_eq|].
    eexists _, _, _. split; [done|]. split; [by apply spec_update|]. split; [by exists F|]. rewrite live_after_marked. cbn.
    by apply (keys_same _ _ h w).
  - eexists _, _, _. split; [done|]. split; [apply spec_update_none; exact (keys_none _ _ _ Hk E)|]. split; [by exists F|done].
Qed.

Lemma sim_releaseKeyed first last n x s h :
  keyed_sim first last n x s → (N.of_nat n < 2 ^ 32 - 1)%N →
  ∃ x', releaseKeyed x h = Some (x', bool_decide (is_Some (rs_live s !! h))) ∧
    keyed_sim first last n x' (match rs_live s !! h with Some v => rs_released s h v | None => s end).
Proof using Type.
  intros [[F Sim] Hk] Hn. destruct (sim_release_ref first last n (kr_refs x) s F h Sim Hn) as (r' & F' & Er & Sim').
  unfold ReleaseRef in Er. unfold releaseKeyed.
  destruct (sim_settle_refs first last n (kr_refs x) s F Sim Hn) as (r1 & F1 & Es & Sim1 & _). rewrite Es in Er |- *.
  cbn [mbind option_bind] in Er |- *. destruct (slot_spec r1 s h (rm_tracks _ _ _ _ _ _ Sim1)) as [Esl _].
  rewrite Esl. destruct (rs_live s !! h) as [v|] eqn:Ev.
  - rewrite decide_True by (by eexists). rewrite Er. cbn [mbind option_bind]. eexists. split; [done|]. split; [by exists F'|].
    destruct (tracked_live _ s h (entry (ref_slots r1) (ref_index h)) v (rm_tracks _ _ _ _ _ _ Sim1) Ev) as (_ & _ & ->).
    by apply keys_delete.
  - rewrite decide_False by (by intros [? ?]). rewrite bool_decide_eq_false_2 by (by intros [? ?]).
    eexists. split; [done|]. split; [by exists F1|done].
Qed.

(** Every operation of keyed refs answers as their contract says and keeps the
    key map. *)
Lemma sim_keyed_op first last n x s op :
  keyed_sim first last n x s → (N.of_nat n < 2 ^ 32 - 2)%N → keyed_op_ok (λ h, rs_live s !! h) op →
  ∃ x' answer s', run_keyed_op x op = Some (x', answer) ∧ keyed_spec first last s op answer s' ∧
    keyed_sim first last (S (S n)) x' s'.
Proof using zero_slot.
  intros Sim Hn Hok. pose proof Sim as [[F SimR] Hk].
  assert (Hmono : ∀ x' s', keyed_sim first last n x' s' → keyed_sim first last (S (S n)) x' s').
  { intros x' s' [[F' S'] Hk']. split; [|done]. exists F'. eapply refs_sim_mono; [|done]. lia. }
  destruct op as [v|h v|v|k|h|k|op]; cbn in *.
  - destruct (sim_put_keyed first last n x s v Sim Hn) as (x' & h & s' & -> & Hs & Sim'). by eexists _, _, s'.
  - destruct (sim_putAt first last n x s h v Sim) as (x' & e & s' & -> & Hs & Sim'); [by apply Hok..|]. eexists _, _, s'. auto.
  - destruct (sim_updateKeyed first last n x s v Sim) as (x' & b & s' & -> & Hs & Sim'). eexists _, _, s'. auto.
  - eexists _, _, s. split; [done|]. split; [|by apply Hmono]. unfold Find. destruct (kr_keys x !! k) as [h|] eqn:E.
    + apply spec_find. by eapply has_key_of.
    + apply spec_find_none. exact (keys_none _ _ _ Hk E).
  - destruct (sim_releaseKeyed first last n x s h Sim ltac:(lia)) as (x' & -> & Sim'). eexists _, _, _. split; [done|].
    split; [|by apply Hmono]. destruct (rs_live s !! h) as [v|] eqn:E.
    + rewrite bool_decide_eq_true_2 by (by eexists). by apply spec_release.
    + rewrite bool_decide_eq_false_2 by (by intros [? ?]). by apply spec_release_none.
  - unfold ReleaseKey. destruct (kr_keys x !! k) as [h|] eqn:E.
    + destruct (has_key_of _ _ _ _ Hk E) as (v & Hv & Ek).
      destruct (sim_releaseKeyed first last n x s h Sim ltac:(lia)) as (x' & -> & Sim'). eexists _, _, _. split; [done|].
      split; [|by apply Hmono]. rewrite Hv, bool_decide_eq_true_2 by (by eexists). by eapply spec_releaseKey.
    + eexists _, _, s. split; [done|]. split; [apply spec_releaseKey_none; exact (keys_none _ _ _ Hk E)|by apply Hmono].
  - assert (Hok' : ref_op_ok s op).
    { destruct op; try done. destruct Hok as (w & Hw & _). by eexists. }
    destruct (sim_ref_op isZero first last n (kr_refs x) s F op SimR Hn Hok' zero_slot) as (r' & answer & F' & -> & Hans & Sim').
    eexists _, _, _. split; [done|]. split; [by apply spec_refs|]. split; [by exists F'|]. cbn.
    assert (Hlive : match op with RWrite h v => rs_live (ref_after s op answer) = <[h := v]> (rs_live s)
      | _ => rs_live (ref_after s op answer) = rs_live s end).
    { destruct op, answer; try done; cbn; unfold rs_started, rs_reset; try by destruct (decide _). }
    destruct op; try done; rewrite Hlive; try done. destruct Hok as (w & Hw & Ek). by eapply keys_same.
Qed.

(** ** Histories *)

(** One operation that its caller may do. *)
Definition keyed_step x y : Prop :=
  ∃ op answer, keyed_op_ok (get (kr_refs x)) op ∧ run_keyed_op x op = Some (y, answer).

Lemma keyed_op_ok_get first last n x s F op :
  refs_sim first last n (kr_refs x) s F → keyed_op_ok (get (kr_refs x)) op → keyed_op_ok (λ h, rs_live s !! h) op.
Proof using Type.
  intros Sim Hok. destruct op as [| | | | | |op]; try done. destruct op; try done.
  destruct Hok as (w & Hw & Ek). exists w. by rewrite (sim_get_ref _ _ _ _ _ _ _ Sim) in Hw.
Qed.

Lemma keyed_run_sim first last m n x y s :
  keyed_sim first last n x s → nsteps keyed_step m x y → (N.of_nat (n + 2 * m) < 2 ^ 32 - 2)%N →
  ∃ s', keyed_sim first last (n + 2 * m) y s'.
Proof using zero_slot.
  intros Sim Hm. revert n s Sim. induction Hm as [x|m x y z (op & answer & Hok & Hr) Hm IH]; intros n s Sim Hn.
  - exists s. by rewrite Nat.add_0_r.
  - destruct (sim_keyed_op first last n x s op Sim ltac:(lia)) as (x' & answer' & s' & Hr' & _ & Sim').
    { destruct Sim as [[F S] _]. by eapply keyed_op_ok_get. }
    rewrite Hr in Hr'. injection Hr' as <- <-. destruct (IH (S (S n)) s' Sim' ltac:(lia)) as [s'' Sim''].
    exists s''. by replace (n + 2 * S m) with (S (S n) + 2 * m) by lia.
Qed.

Lemma sim_keyed_registered options x0 :
  registerKeyedRefs false false options = Ok x0 → (opt_last options < 2 ^ 32)%N →
  keyed_sim (ref_first (kr_refs x0)) (ref_last (kr_refs x0)) 0 x0 initial_refs.
Proof using Type.
  unfold registerKeyedRefs. destruct (registerRefs false false options) as [r|e] eqn:E; [|done]. intros [= <-] Hl. cbn.
  split; [exists []; by eapply sim_registered|]. intros k h. cbn. rewrite !lookup_empty. split; [done|].
  intros (v & Hv & _). discriminate Hv.
Qed.

(** C36: after any history of keyed refs from their registration, a key finds
    exactly the live ref whose value has it, so there is at most one ref per
    key; and the next operation does not panic and answers as the contract
    says of the refs that read now: [Put] finds the key's ref or makes a fresh
    one, [PutAt] refuses a key that has one, [Update] and [ReleaseKey] act on
    the key's ref and answer false without one, and the refs that read after
    are the contract's. *)
Theorem keyed_refs_found_by_key options x0 n x :
  registerKeyedRefs false false options = Ok x0 → (opt_last options < 2 ^ 32)%N → (N.of_nat n < 2 ^ 31 - 2)%N →
  nsteps keyed_step n x0 x →
  (∀ k h, Find x k = Some h ↔ ∃ v, get (kr_refs x) h = Some v ∧ key v = k) ∧
  ∀ op, keyed_op_ok (get (kr_refs x)) op →
    ∃ y answer s s', run_keyed_op x op = Some (y, answer) ∧ (∀ h, rs_live s !! h = get (kr_refs x) h) ∧
      keyed_spec (ref_first (kr_refs x0)) (ref_last (kr_refs x0)) s op answer s' ∧
      ∀ h, rs_live s' !! h = get (kr_refs y) h.
Proof using zero_slot.
  intros Hr Hl Hn Hx. destruct (keyed_run_sim _ _ n 0 x0 x _ (sim_keyed_registered options x0 Hr Hl) Hx) as [s Sim]; [lia|].
  pose proof Sim as [[F SimR] Hk]. pose proof (λ h, sim_get_ref _ _ _ _ _ _ h SimR) as Hget. split.
  - intros k h. setoid_rewrite Hget. apply Hk.
  - intros op Hok. destruct (sim_keyed_op _ _ _ x s op Sim) as (y & answer & s' & Hy & Hs & [[F' Sim'] _]); [lia|by eapply keyed_op_ok_get|].
    exists y, answer, s, s'. split_and!; [done|by intros h; rewrite Hget|done|].
    intros h. by rewrite (sim_get_ref _ _ _ _ _ _ h Sim').
Qed.
End keyed.
Arguments keyedRefs : clear implicits.
Arguments keyedRefs _ _ {_ _}.

(** ** A concrete history *)

Module KeyedExample.
Import RefsExample.

(** Values keyed by their last digit. *)
Definition digit (v : N) : N := (v mod 10)%N.

Definition start : keyedRefs N N := mkKeyed r0 ∅.

Definition history : list (keyed_op (T := N) (K := N)) :=
  [KPut 17%N; KPut 28%N; KUpdate 37%N; KReleaseKey 8%N; KPut 47%N].

(** The operations in order, none of which the caller may not do. *)
Fixpoint run_history (ops : list (keyed_op (T := N) (K := N))) (x : keyedRefs N N) : keyedRefs N N :=
  match ops with
  | [] => x
  | op :: ops => match run_keyed_op digit isZero x op with Some (y, _) => run_history ops y | None => x end
  end.

Fixpoint runs (ops : list (keyed_op (T := N) (K := N))) (x : keyedRefs N N) : bool :=
  match ops with
  | [] => true
  | op :: ops => match op with KRefs _ | KPutAt _ _ => false | _ => true end &&
    match run_keyed_op digit isZero x op with Some (y, _) => runs ops y | None => false end
  end.

Lemma history_steps ops x : runs ops x = true → nsteps (keyed_step digit isZero) (length ops) x (run_history ops x).
Proof.
  revert x. induction ops as [|op ops IH]; intros x Hb; cbn in *; [constructor|].
  apply andb_prop in Hb as [Ho Hb]. destruct (run_keyed_op digit isZero x op) as [[y answer]|] eqn:E; [|done].
  econstructor; [|by apply IH]. exists op, answer. split; [|done]. by destruct op.
Qed.

(** Key 7's ref, updated once, is found; key 8's is gone. *)
Lemma keyed_refs_found_by_key_witness :
  (∃ v, get (kr_refs (run_history history start)) (mkRef 10 1) = Some v ∧ digit v = 7%N) ∧
  ¬ ∃ h v, get (kr_refs (run_history history start)) h = Some v ∧ digit v = 8%N.
Proof.
  destruct (keyed_refs_found_by_key digit isZero isZero_zero options start (length history) (run_history history start)) as [Hf _].
  - reflexivity.
  - reflexivity.
  - reflexivity.
  - apply history_steps. vm_compute. reflexivity.
  - split.
    + apply (Hf 7%N (mkRef 10 1)). vm_compute. reflexivity.
    + intros (h & Hv). apply (Hf 8%N h) in Hv.
      assert (E : Find (run_history history start) 8%N = None) by (vm_compute; reflexivity). rewrite E in Hv. discriminate Hv.
Defined.
End KeyedExample.
