(* ===== verification/Commands.v ===== *)
(** * Command buffers of ecs/commands.go

    Changes recorded lane by lane and applied together: spawns first, then
    despawns, then the rest in lane order, then the lanes of refs.  A lane's
    values are words of memory, of which the code sees the bytes: a word is
    its eight bytes, the lowest first.  A lane of refs reaches its refs, one
    of the world's [windowedRefs], through the interface [RefsLane].  A
    [record] runs under its lane's mutex, so it is one step. *)

From Stdlib Require Import Strings.Byte.
From S2P Require Import Prelude Words Array Entity Mask EntityTable Store World.

Inductive commandOperation :=
  | commandSpawn | commandDespawn | commandAdd | commandSet | commandRemove
  | commandNewRef | commandSetRef | commandReleaseRef | commandUpdateRef | commandReleaseKey.

#[export] Instance commandOperation_eq : EqDecision commandOperation.
Proof. solve_decision. Defined.

Record commandRecord := mkCommand {
  entity : Entity;
  operation : commandOperation;
  component : nat;
  valueStart : nat
}.

Record commandLane := mkLane {
  records : Array commandRecord;
  values : Array N
}.

#[export] Instance commandRecord_zero : Zero commandRecord := mkCommand 0 commandSpawn 0 0.

Definition emptyLane : commandLane := mkLane emptyArray emptyArray.

(** ** Values, eight bytes a word *)

Definition byte_of (n : N) : byte := default x00 (of_N (n mod 256)).

(** The lowest [n] bytes of a word. *)
Fixpoint word_bytes (n : nat) (w : N) : bytes :=
  match n with O => [] | S n => byte_of w :: word_bytes n (w / 256) end.

Fixpoint word_of (bs : bytes) : N :=
  match bs with [] => 0 | b :: bs => to_N b + 256 * word_of bs end%N.

(** [copy] of [bs] over a word's bytes. *)
Definition word_put (w : N) (bs : bytes) : N := word_of (bs ++ drop (length bs) (word_bytes 8 w)).

(** The loop of [record], a word a turn; each takes at least one byte. *)
Fixpoint put_words (fuel word : nat) (value : bytes) (a : Array N) : option (Array N) :=
  match value with
  | [] => Some a
  | _ :: _ =>
    match fuel with
    | O => None
    | S fuel =>
      w ← AAt a word;
      a ← ASet a word (word_put w (take 8 value));
      put_words fuel (S word) (drop 8 value) a
    end
  end.

(** The loop of [copyValue], [size] bytes being left to fill. *)
Fixpoint get_words (fuel word size : nat) (a : Array N) : option bytes :=
  match size with
  | O => Some []
  | S _ =>
    match fuel with
    | O => None
    | S fuel =>
      w ← AAt a word;
      rest ← get_words fuel (S word) (size - 8) a;
      Some (take size (word_bytes 8 w) ++ rest)
    end
  end.

Definition record (l : commandLane) (op : commandOperation) (e : Entity) (id : nat) (value : bytes) : option commandLane :=
  let start := ALen (values l) in
  a ← AResize (values l) (start + (length value + 7) / 8);
  a ← put_words (length value) start value a;
  '(rs, _) ← AAppend (records l) (mkCommand e op id start);
  Some (mkLane rs a).

Definition copyValue (l : commandLane) (start size : nat) : option bytes := get_words size start size (values l).

(** ** Lanes of refs *)

(** ecs/commands.go's refsLane: which of the world's refs it is of, and its
    [commit] on them, which answers how many records were dropped. *)
Class RefsLane (L R : Type) := {
  lane_target : L → nat;
  lane_commit : L → R → option (L * R * nat);
  lane_shrink : L → option L
}.

(** [dropped] counts one more unless the record was taken. *)
Definition count (taken : bool) (dropped : nat) : nat := if taken then dropped else S dropped.

(** What a contract's states become as commands are done one at a time, and
    how many of them were not taken. *)
Fixpoint commands_after {S C : Type} (step : S → C → S * bool) (s : S) (cs : list C) : S :=
  match cs with [] => s | c :: cs => commands_after step (step s c).1 cs end.

Fixpoint commands_dropped {S C : Type} (step : S → C → S * bool) (s : S) (cs : list C) : nat :=
  match cs with [] => 0 | c :: cs => count (step s c).2 0 + commands_dropped step (step s c).1 cs end.

(** What a commit relies on: a lane is the commands recorded in it, of which
    the refs' contract says what each does ([command_step]) and what their
    producers owe ([commands_owed]); committing the lane does them in order on
    refs that implement the contract, after which the lane holds none. *)
Class RefsLaneLaws (L R : Type) `{RefsLane L R} `{WindowedLaws R} := {
  refs_contract : Type;
  lane_command : Type;
  (** after so many operations, refs implement a state of the contract *)
  refs_implement : nat → R → refs_contract → Prop;
  lane_holds : L → list lane_command → Prop;
  command_step : refs_contract → lane_command → refs_contract * bool;
  commands_owed : refs_contract → list lane_command → Prop;
  implement_refs_ok k r s : refs_implement k r s → (N.of_nat k < 2 ^ 32 - 2)%N → refs_ok r;
  implement_mono k k' r s : k ≤ k' → refs_implement k r s → refs_implement k' r s;
  owed_app s cs ds : commands_owed s (cs ++ ds) → commands_owed s cs ∧ commands_owed (commands_after command_step s cs) ds;
  lane_commit_law k r s l cs :
    refs_implement k r s → lane_holds l cs → commands_owed s cs → (N.of_nat (k + 2 * length cs) < 2 ^ 32 - 2)%N →
    ∃ l' r', lane_commit l r = Some (l', r', commands_dropped command_step s cs) ∧
      refs_implement (k + 2 * length cs) r' (commands_after command_step s cs) ∧ lane_holds l' [];
  lane_shrink_law l cs : lane_holds l cs → ∃ l', lane_shrink (R := R) l = Some l' ∧ lane_holds l' cs
}.

Record commandRecorder (L : Type) := mkRecorder {
  lanes : list commandLane;
  refsLanes : list L
}.
Arguments mkRecorder {L} _ _.
Arguments lanes {L} _.
Arguments refsLanes {L} _.

Section commands.
Context (words : nat) (Size : nat → nat).
Context {R B L : Type} `{RefsLane L R}.
Implicit Types (w : worldResource R B) (l : commandLane) (c : commandRecorder L).

(** ** Recording *)

(** [Reserve] of a command buffer. *)
Definition Reserve w : option (worldResource R B * Entity) :=
  '(t, e) ← reserve (entities w);
  Some (with_entities w t, e).

Definition SpawnCommand l (e : Entity) : option commandLane := record l commandSpawn e 0 [].
Definition DespawnCommand l (e : Entity) : option commandLane := record l commandDespawn e 0 [].
Definition AddCommand l (e : Entity) (id : nat) (value : bytes) : option commandLane := record l commandAdd e id value.
Definition SetCommand l (e : Entity) (id : nat) (value : bytes) : option commandLane := record l commandSet e id value.
Definition RemoveCommand l (e : Entity) (id : nat) : option commandLane := record l commandRemove e id [].

(** ** Committing *)

Definition apply w l (r : commandRecord) : option (worldResource R B * bool) :=
  match operation r with
  | commandAdd =>
    '(w, value) ← put Size w (entity r) (component r);
    match value with
    | Some row =>
      v ← copyValue l (valueStart r) (Size (component r));
      w ← write_row w (component r) row v;
      Some (w, true)
    | None => Some (w, false)
    end
  | commandSet =>
    if negb (alive (entities w) (entity r)) then Some (w, false) else
    s ← stores w !! component r;
    '(s, value) ← write s (entity r);
    let w := with_store w (component r) s in
    match value with
    | Some row =>
      v ← copyValue l (valueStart r) (Size (component r));
      w ← write_row w (component r) row v;
      Some (w, true)
    | None => Some (w, true)
    end
  | commandRemove =>
    if negb (alive (entities w) (entity r)) then Some (w, false) else
    '(w, _) ← remove Size w (entity r) (component r);
    Some (w, true)
  | _ => Some (w, true)
  end.

Definition each_record (l : commandLane) (body : commandRecord → worldResource R B * nat → option (worldResource R B * nat))
    (st : worldResource R B * nat) : option (worldResource R B * nat) :=
  for_range (ALen (records l)) (λ i st, r ← AAt (records l) i; body r st) st.

Definition spawn_record (r : commandRecord) (st : worldResource R B * nat) : option (worldResource R B * nat) :=
  let '(w, dropped) := st in
  if decide (operation r = commandSpawn) then
    '(t, taken) ← spawnReserved words (entities w) (entity r);
    Some (with_entities w t, count taken dropped)
  else Some st.

Definition despawn_record (r : commandRecord) (st : worldResource R B * nat) : option (worldResource R B * nat) :=
  let '(w, dropped) := st in
  if decide (operation r = commandDespawn) then
    '(w, taken) ← despawn words Size w (entity r);
    Some (w, count taken dropped)
  else Some st.

Definition apply_record (l : commandLane) (r : commandRecord) (st : worldResource R B * nat) : option (worldResource R B * nat) :=
  let '(w, dropped) := st in
  '(w, taken) ← apply w l r;
  Some (w, count taken dropped).

(** The third loop's turn: the lane's records, and the lane emptied. *)
Definition apply_lane (l : commandLane) (st : worldResource R B * nat * list commandLane) :
    option (worldResource R B * nat * list commandLane) :=
  let '(st, ls) := st in
  st ← each_record l (apply_record l) st;
  rs ← AResize (records l) 0;
  vs ← AResize (values l) 0;
  Some (st, ls ++ [mkLane rs vs]).

Definition commit_lane (l : L) (st : list R * nat * list L) : option (list R * nat * list L) :=
  let '(rs, dropped, ls) := st in
  r ← rs !! lane_target l;
  '(l', r', d) ← lane_commit l r;
  Some (<[lane_target l := r']> rs, dropped + d, ls ++ [l']).

Definition Commit c w : option (commandRecorder L * worldResource R B * nat) :=
  st ← for_each (lanes c) (λ l, each_record l spawn_record) (w, 0);
  st ← for_each (lanes c) (λ l, each_record l despawn_record) st;
  '((w, dropped), ls) ← for_each (lanes c) apply_lane (st, []);
  '(rs, dropped, rls) ← for_each (refsLanes c) commit_lane (windowedRefs w, dropped, []);
  Some (mkRecorder ls rls, mkWorld (entities w) (stores w) rs (recorders w), dropped).

(** ** Registration *)

(** [RegisterCommandBuffer] and the three [Declare]s, which give a system a
    lane of its own; what they declare of the world is [Access]'s. *)
Definition RegisterCommandBuffer (registered : bool) w (b : B) : result unit (commandRecorder L * worldResource R B) :=
  if registered then Err tt else
  Ok (mkRecorder [] [], mkWorld (entities w) (stores w) (windowedRefs w) (recorders w ++ [b])).

Definition DeclareBuffer c : commandRecorder L * nat := (mkRecorder (lanes c ++ [emptyLane]) (refsLanes c), length (lanes c)).

Definition DeclareLane (lane : L) c : commandRecorder L * nat :=
  (mkRecorder (lanes c) (refsLanes c ++ [lane]), length (refsLanes c)).

(** ** Memory *)

Definition shrink_lane l : option commandLane :=
  rs ← AShrink (records l);
  vs ← AShrink (values l);
  Some (mkLane rs vs).

Definition shrink_recorder c : option (commandRecorder L) :=
  ls ← mapM shrink_lane (lanes c);
  rls ← mapM lane_shrink (refsLanes c);
  Some (mkRecorder ls rls).
End commands.

(** A command buffer as one of the world's shrinkers. *)
Definition recorder_shrinker (L R : Type) `{RefsLane L R} : Shrinker (commandRecorder L) := shrink_recorder (R := R).
