(* ===== verification/CommandsLane.v ===== *)
(** * Lanes of records

    The bytes a record's value is kept as, and that a lane is the list of the
    commands recorded in it. *)

From Stdlib Require Import Strings.Byte.
From S2P Require Import Prelude Words Array Entity Mask EntityTable Store World Commands.

(** ** Words and their bytes *)

Lemma word_bytes_of n bs : length bs = n → word_bytes n (word_of bs) = bs.
Proof.
  revert n. induction bs as [|b bs IH]; intros n <-; [done|]. cbn [length word_bytes word_of].
  pose proof (to_N_bounded b) as Hb.
  assert (E1 : ((to_N b + 256 * word_of bs) / 256 = word_of bs)%N).
  { rewrite (N.add_comm (to_N b)), N.mul_comm, N.div_add_l by done. rewrite N.div_small by lia. lia. }
  assert (E2 : byte_of (to_N b + 256 * word_of bs) = b).
  { unfold byte_of. rewrite (N.mul_comm 256), N.Div0.mod_add, N.mod_small by lia. by rewrite of_to_N. }
  by rewrite E1, E2, IH.
Qed.

Lemma length_word_bytes n w : length (word_bytes n w) = n.
Proof. revert w. induction n as [|n IH]; intros w; cbn; [done|]. by rewrite IH. Qed.

(** A word written over from its first byte reads as what was written. *)
Lemma word_put_bytes w bs : length bs ≤ 8 → take (length bs) (word_bytes 8 (word_put w bs)) = bs.
Proof.
  intros Hl. unfold word_put. rewrite word_bytes_of.
  - by rewrite take_app_length.
  - rewrite length_app, length_drop, length_word_bytes. lia.
Qed.

(** How many words a value takes. *)
Definition words_of (n : nat) : nat := (n + 7) / 8.

Lemma words_of_step n : 0 < n → words_of n = S (words_of (n - 8)).
Proof.
  intros Hn. unfold words_of. destruct (decide (n ≤ 8)).
  - replace (n - 8) with 0 by lia. change ((0 + 7) / 8) with 0. symmetry. apply (Nat.div_unique _ 8 1 (n - 1)); lia.
  - replace (n + 7) with (n - 8 + 7 + 1 * 8) by lia. rewrite Nat.div_add by done. lia.
Qed.

(** The words from [start] hold the value. *)
Fixpoint holds (fuel : nat) (ws : list N) (start : nat) (value : bytes) : Prop :=
  match value with
  | [] => True
  | _ :: _ => match fuel with
    | O => False
    | S fuel => (∃ w, ws !! start = Some w ∧ take (length (take 8 value)) (word_bytes 8 w) = take 8 value) ∧
        holds fuel ws (S start) (drop 8 value)
    end
  end.

Lemma holds_agree fuel ws ws' start value :
  (∀ i, start ≤ i < start + words_of (length value) → ws' !! i = ws !! i) → holds fuel ws start value → holds fuel ws' start value.
Proof.
  revert start value. induction fuel as [|fuel IH]; intros start value Hs; destruct value as [|b value]; try done.
  pose proof (words_of_step (length (b :: value)) ltac:(cbn; lia)) as Ew.
  intros [(w & Hw & Hb) Hrest]. split.
  - exists w. split; [|done]. rewrite Hs; [done|]. lia.
  - apply IH; [|done]. intros i Hi. apply Hs. rewrite Ew. rewrite length_drop in Hi. lia.
Qed.

Lemma put_words_spec fuel start value a ws :
  array_repr a ws → length value ≤ fuel → start + words_of (length value) ≤ length ws →
  ∃ a' ws', put_words fuel start value a = Some a' ∧ array_repr a' ws' ∧ length ws' = length ws ∧
    (∀ i, i < start → ws' !! i = ws !! i) ∧ holds fuel ws' start value.
Proof.
  revert start value a ws. induction fuel as [|fuel IH]; intros start value a ws Hr Hf Hl.
  { destruct value; [|cbn in Hf; lia]. by exists a, ws. }
  destruct value as [|b value]; [by exists a, ws|]. set (v := b :: value) in *.
  pose proof (words_of_step (length v) ltac:(cbn; lia)) as Ew. cbn [put_words].
  destruct (lookup_lt_is_Some_2 ws start) as [w Hw]; [lia|]. rewrite (array_read a ws start w Hr Hw). cbn [mbind option_bind].
  destruct (array_set_repr a ws start (word_put w (take 8 v)) Hr) as (a1 & -> & Hr1); [lia|]. cbn [mbind option_bind].
  destruct (IH (S start) (drop 8 v) a1 _ Hr1) as (a2 & ws2 & E & Hr2 & Hl2 & Hk & Hh).
  - rewrite length_drop. cbn in Hf |- *. lia.
  - rewrite length_drop, length_insert. lia.
  - rewrite length_insert in Hl2. fold v. exists a2, ws2. split_and!; [done|done|done| |split].
    + intros i Hi. rewrite Hk by lia. by rewrite list_lookup_insert_ne by lia.
    + exists (word_put w (take 8 v)). rewrite Hk by lia. rewrite list_lookup_insert_eq by lia.
      split; [done|]. apply word_put_bytes. rewrite length_take. lia.
    + done.
Qed.

Lemma get_words_spec fuel start value a ws :
  array_repr a ws → holds fuel ws start value → get_words fuel start (length value) a = Some value.
Proof.
  intros Hr. revert start value. induction fuel as [|fuel IH]; intros start value Hh; destruct value as [|b value]; try done.
  destruct Hh as [(w & Hw & Hb) Hrest]. set (v := b :: value) in *. change (length v) with (S (length value)) at 1. cbn [get_words].
  change (S (length value)) with (length v). rewrite (array_read a ws start w Hr Hw). cbn [mbind option_bind].
  rewrite <- length_drop, (IH (S start) (drop 8 v) Hrest). cbn [mbind option_bind]. f_equal.
  rewrite length_take in Hb.
  assert (Et : take (length v) (word_bytes 8 w) = take 8 v).
  { destruct (decide (length v ≤ 8)).
    - replace (8 `min` length v) with (length v) in Hb by lia. done.
    - rewrite take_ge by (rewrite length_word_bytes; lia). replace (8 `min` length v) with 8 in Hb by lia.
      by rewrite take_ge in Hb by (by rewrite length_word_bytes). }
  rewrite Et. apply take_drop.
Qed.

(** ** Commands *)

(** What a producer records. *)
Inductive command :=
  | CSpawn (e : Entity)
  | CDespawn (e : Entity)
  | CAdd (e : Entity) (id : nat) (value : bytes)
  | CSet (e : Entity) (id : nat) (value : bytes)
  | CRemove (e : Entity) (id : nat).

Definition operation_of (c : command) : commandOperation :=
  match c with
  | CSpawn _ => commandSpawn | CDespawn _ => commandDespawn | CAdd _ _ _ => commandAdd | CSet _ _ _ => commandSet
  | CRemove _ _ => commandRemove
  end.
Definition entity_of (c : command) : Entity :=
  match c with CSpawn e | CDespawn e | CAdd e _ _ | CSet e _ _ | CRemove e _ => e end.
Definition component_of (c : command) : nat :=
  match c with CAdd _ id _ | CSet _ id _ | CRemove _ id => id | _ => 0 end.
Definition value_of (c : command) : bytes := match c with CAdd _ _ v | CSet _ _ v => v | _ => [] end.

(** The producer's methods. *)
Definition record_command (l : commandLane) (c : command) : option commandLane :=
  match c with
  | CSpawn e => SpawnCommand l e
  | CDespawn e => DespawnCommand l e
  | CAdd e id v => AddCommand l e id v
  | CSet e id v => SetCommand l e id v
  | CRemove e id => RemoveCommand l e id
  end.

Definition keeps (ws : list N) (r : commandRecord) (c : command) : Prop :=
  entity r = entity_of c ∧ operation r = operation_of c ∧ component r = component_of c ∧
  valueStart r + words_of (length (value_of c)) ≤ length ws ∧
  holds (length (value_of c)) ws (valueStart r) (value_of c).

(** The lane is the commands recorded in it. *)
Definition lane_repr (l : commandLane) (cs : list command) : Prop :=
  ∃ rs ws, array_repr (records l) rs ∧ array_repr (values l) ws ∧ Forall2 (keeps ws) rs cs.

Lemma empty_lane_repr : lane_repr emptyLane [].
Proof. exists [], []. split_and!; [apply array_empty_repr|apply array_empty_repr|constructor]. Qed.

Lemma record_spec l cs op e id v c :
  lane_repr l cs → operation_of c = op → entity_of c = e → component_of c = id → value_of c = v →
  ∃ l', record l op e id v = Some l' ∧ lane_repr l' (cs ++ [c]).
Proof.
  intros (rs & ws & Hrs & Hws & Hk) <- <- <- <-. unfold record, ALen. rewrite (array_length _ _ Hws).
  destruct (array_resize_repr _ _ (length ws + words_of (length (value_of c))) Hws) as (a & Ea & Ha).
  unfold words_of in Ea at 1. rewrite Ea. cbn [mbind option_bind].
  set (n := words_of (length (value_of c))) in *. set (ws1 := resized ws (length ws + n)) in *.
  assert (Hl1 : length ws1 = length ws + n) by apply length_resized.
  destruct (put_words_spec (length (value_of c)) (length ws) (value_of c) a ws1 Ha) as (a2 & ws2 & -> & Ha2 & Hl2 & Hold & Hnew);
    [done|lia|]. cbn [mbind option_bind].
  destruct (array_append_repr _ _ (mkCommand (entity_of c) (operation_of c) (component_of c) (length ws)) Hrs) as (b & -> & Hb).
  cbn [mbind option_bind]. eexists. split; [done|]. eexists _, ws2. split_and!; [exact Hb|exact Ha2|].
  apply Forall2_app; [|constructor; [|constructor]].
  - eapply Forall2_impl; [exact Hk|]. intros r c' (E1 & E2 & E3 & Hle & Hh). split_and!; [done..|lia|].
    eapply holds_agree; [|exact Hh]. intros i Hi. rewrite Hold by lia. unfold ws1, resized.
    rewrite lookup_app_l by (rewrite length_take; lia). rewrite lookup_take_lt by lia. done.
  - split_and!; [done..|cbn; lia|done].
Qed.

(** Recording appends the command. *)
Lemma record_command_spec l cs c : lane_repr l cs → ∃ l', record_command l c = Some l' ∧ lane_repr l' (cs ++ [c]).
Proof. intros Hl. destruct c; by apply record_spec. Qed.

(** The lane with its records read back. *)
Lemma keeps_value l ws r c :
  array_repr (values l) ws → keeps ws r c → copyValue l (valueStart r) (length (value_of c)) = Some (value_of c).
Proof. intros Hws (_ & _ & _ & _ & Hh). by eapply get_words_spec. Qed.

Lemma lane_records {St} (l : commandLane) rs (body : commandRecord → St → option St) s :
  array_repr (records l) rs →
  for_range (ALen (records l)) (λ i st, r ← AAt (records l) i; body r st) s = for_each rs body s.
Proof.
  intros Hr. unfold for_range, ALen. rewrite (array_length _ _ Hr).
  assert (G : ∀ d k s, d ++ k = rs → for_from (length d) (length k) (λ i st, r ← AAt (records l) i; body r st) s = for_each k body s).
  { intros d k. revert d. induction k as [|r k IH]; intros d st E; [done|]. cbn.
    rewrite (array_read _ _ (length d) r Hr) by (rewrite <- E; by rewrite lookup_app_r, Nat.sub_diag by lia).
    cbn. destruct (body r st) as [st'|]; [|done]. cbn. rewrite <- (IH (d ++ [r])) by (by rewrite <- (assoc_L (++))).
    by rewrite length_app, Nat.add_1_r. }
  by apply (G [] rs).
Qed.

Lemma mapM_keeps {A B} (f : A → option A) (P : A → B → Prop) xs ys :
  (∀ x y, P x y → ∃ x', f x = Some x' ∧ P x' y) → Forall2 P xs ys → ∃ xs', mapM f xs = Some xs' ∧ Forall2 P xs' ys.
Proof.
  intros Hf HP. induction HP as [|x y xs ys Hx HP IH]; [by exists []|].
  destruct (Hf x y Hx) as (x' & Ex & Hx'), IH as (xs' & Exs & Hxs'). exists (x' :: xs'). cbn. rewrite Ex. cbn [mbind option_bind].
  rewrite Exs. split; [done|by constructor].
Qed.

(** A lane giving memory back keeps its commands. *)
Lemma shrink_lane_spec l cs : lane_repr l cs → ∃ l', shrink_lane l = Some l' ∧ lane_repr l' cs.
Proof.
  intros (rs & ws & Hrs & Hws & Hk). unfold shrink_lane.
  destruct (array_shrink_repr _ _ Hrs) as (a & -> & Ha & _). cbn [mbind option_bind].
  destruct (array_shrink_repr _ _ Hws) as (b & -> & Hb & _). cbn [mbind option_bind].
  eexists. split; [done|]. by exists rs, ws.
Qed.

(** A command buffer gives memory back, its lanes keeping their commands. *)
Definition recorder_shrinker_laws (L R : Type) `{RefsLaneLaws L R} : @ShrinkerLaws (commandRecorder L) (recorder_shrinker L R).
Proof.
  refine (@Build_ShrinkerLaws (commandRecorder L) (recorder_shrinker L R)
    (λ c, (∃ css, Forall2 lane_repr (lanes c) css) ∧ ∃ rcss, Forall2 lane_holds (refsLanes c) rcss) _).
  intros c [[css Hl] [rcss Hrl]].
  destruct (mapM_keeps shrink_lane lane_repr (lanes c) css shrink_lane_spec Hl) as (ls & E1 & Hls).
  destruct (mapM_keeps lane_shrink lane_holds (refsLanes c) rcss lane_shrink_law Hrl) as (rls & E2 & Hrls).
  exists (mkRecorder ls rls). unfold buffer_shrink, recorder_shrinker, shrink_recorder. rewrite E1. cbn [mbind option_bind].
  rewrite E2. split; [done|]. split; [by exists css|by exists rcss].
Defined.

(** An emptied lane keeps nothing. *)
Lemma empty_lane l cs : lane_repr l cs →
  ∃ rs vs, AResize (records l) 0 = Some rs ∧ AResize (values l) 0 = Some vs ∧ lane_repr (mkLane rs vs) [].
Proof.
  intros (rs & ws & Hrs & Hws & Hk).
  destruct (array_resize_repr _ _ 0 Hrs) as (a & Ea & Ha). destruct (array_resize_repr _ _ 0 Hws) as (b & Eb & Hb).
  exists a, b. split_and!; [done|done|]. exists [], []. split_and!; [exact Ha|exact Hb|constructor].
Qed.

(** ** Recording and reading back *)

Definition record_all (cs : list command) (l : commandLane) : option commandLane := for_each cs (λ c l, record_command l c) l.

Lemma record_all_spec cs l ds : lane_repr l ds → ∃ l', record_all cs l = Some l' ∧ lane_repr l' (ds ++ cs).
Proof.
  unfold record_all. revert l ds. induction cs as [|c cs IH]; intros l ds Hl; cbn [for_each].
  { exists l. by rewrite app_nil_r. }
  destruct (record_command_spec l ds c Hl) as (l1 & -> & Hl1). cbn [mbind option_bind].
  destruct (IH l1 _ Hl1) as (l' & -> & Hl'). exists l'. split; [done|]. by rewrite <- (assoc_L (++)) in Hl'.
Qed.

(** What a producer records is what a commit reads: after any sequence of
    records, of values of any number of bytes, the lane's records are the
    commands in the order recorded, and [copyValue] answers each one's value,
    byte by byte, out of the words shared by all of them. *)
Theorem recorded_lane_reads_back cs :
  ∃ l, record_all cs emptyLane = Some l ∧ ALen (records l) = length cs ∧
    ∀ i c, cs !! i = Some c → ∃ r, AAt (records l) i = Some r ∧
      entity r = entity_of c ∧ operation r = operation_of c ∧ component r = component_of c ∧
      copyValue l (valueStart r) (length (value_of c)) = Some (value_of c).
Proof.
  destruct (record_all_spec cs emptyLane [] empty_lane_repr) as (l & E & rs & ws & Hrs & Hws & Hk). exists l. split; [done|].
  split; [unfold ALen; by rewrite (array_length _ _ Hrs), (Forall2_length _ _ _ Hk)|]. intros i c Hc.
  destruct (Forall2_lookup_r _ _ _ _ _ Hk Hc) as (r & Hr & Hkeep). exists r. split; [by apply (array_read _ rs)|].
  pose proof (keeps_value l ws r c Hws Hkeep). by destruct Hkeep as (? & ? & ? & _).
Qed.
