(* ===== verification/RefsLanes.v ===== *)
(** * Lanes of refs of ecs/commands.go

    The producers' records of changes to refs and to keyed refs, the two
    implementations of [RefsLane], and of refs as the world's windowed refs
    and of command buffers as its shrinkers.  A record's value is kept in the
    lane until the commit, which clears it. *)

From S2P Require Import Prelude Array Entity IndexTable Store Refs KeyedRefs World Commands.

(** ** Refs *)

Record refsRecord := mkRefsRecord { handle : Ref; refs_operation : commandOperation }.

#[export] Instance refsRecord_zero : Zero refsRecord := mkRefsRecord zero_ref commandSpawn.

Section refs_lane.
Context {T : Type} `{Zero T}.

Record refsLaneOf := mkRefsLane {
  refs_target : nat;
  refs_records : Array refsRecord;
  refs_values : Array T
}.

Implicit Types (l : refsLaneOf) (r : refsResource T) (h : Ref) (v : T).

Definition record_ref l (op : commandOperation) h v : option refsLaneOf :=
  vs ← (if negb (bool_decide (op = commandReleaseRef)) then '(a, _) ← AAppend (refs_values l) v; Some a else Some (refs_values l));
  '(rs, _) ← AAppend (refs_records l) (mkRefsRecord h op);
  Some (mkRefsLane (refs_target l) rs vs).

(** [CommandRefs.New], [Set] and [Release]. *)
Definition NewCommand l r v : option (refsLaneOf * refsResource T * Ref) :=
  '(r, h) ← reserve r;
  l ← record_ref l commandNewRef h v;
  Some (l, r, h).
Definition SetRefCommand l h v : option refsLaneOf := record_ref l commandSetRef h v.
Definition ReleaseRefCommand l h : option refsLaneOf := record_ref l commandReleaseRef h zero_value.

(** One turn of [commit]: the refs, the records dropped, the values stored so
    far, and the values. *)
Definition commit_ref (record : refsRecord) (st : refsResource T * nat * nat * Array T) :
    option (refsResource T * nat * nat * Array T) :=
  let '(r, dropped, stored, vs) := st in
  if decide (refs_operation record = commandReleaseRef) then
    '(r, taken) ← release r (handle record);
    Some (r, count taken dropped, stored, vs)
  else
    v ← AAt vs stored;
    '(r, dropped) ← (if decide (refs_operation record = commandNewRef) then
      if decide (handle record ≠ zero_ref) then r ← store r (handle record) v; Some (r, dropped)
      else Some (r, S dropped)
    else match slot r (handle record) with
      | Some x =>
        r ← put_slot r (ref_index (handle record)) (mkRefSlot v (slot_generation x) (slot_live x) (state x));
        r ← markChanged r (handle record);
        Some (r, dropped)
      | None => Some (r, S dropped)
      end);
    vs ← ASet vs stored zero_value;
    Some (r, dropped, S stored, vs).

Definition commit_refs_lane l r : option (refsLaneOf * refsResource T * nat) :=
  r ← settleReservations r;
  '(r, dropped, _, vs) ← for_range (ALen (refs_records l))
    (λ i st, record ← AAt (refs_records l) i; commit_ref record st) (r, 0, 0, refs_values l);
  rs ← AResize (refs_records l) 0;
  vs ← AResize vs 0;
  Some (mkRefsLane (refs_target l) rs vs, r, dropped).

Definition shrink_refs_lane l : option refsLaneOf :=
  rs ← AShrink (refs_records l);
  vs ← AShrink (refs_values l);
  Some (mkRefsLane (refs_target l) rs vs).

(** [CommandRefs.Declare]: keyed refs are a composition error. *)
Definition DeclareRefs (keyed : bool) (refs : nat) (c : commandRecorder refsLaneOf) : result unit (commandRecorder refsLaneOf * nat) :=
  if keyed then Err tt else Ok (DeclareLane (mkRefsLane refs emptyArray emptyArray) c).

#[export] Instance refs_lane : RefsLane refsLaneOf (refsResource T) := {
  lane_target := refs_target;
  lane_commit := commit_refs_lane;
  lane_shrink := shrink_refs_lane
}.

(** Refs as the windowed refs of a world; [isZero] tells a slot whose bytes
    are all zero, as shrinking reads them. *)
Definition refs_windowed (isZero : refSlot T → bool) : Windowed (refsResource T) := {|
  refs_startObservation := Refs.startObservation;
  refs_resetObservation := Refs.resetObservation;
  refs_shrink := shrink_refs isZero
|}.
End refs_lane.
Arguments refsLaneOf : clear implicits.

(** ** Keyed refs *)

Section keyed_lane.
Context {T K : Type} `{Zero T} `{Zero K} `{Countable K} (key : T → K).

Record keyedRefsRecord := mkKeyedRecord { keyed_handle : Ref; record_key : K; keyed_operation : commandOperation }.

#[export] Instance keyedRefsRecord_zero : Zero keyedRefsRecord := mkKeyedRecord zero_ref zero_value commandSpawn.

Record keyedRefsLaneOf := mkKeyedLane {
  keyed_target : nat;
  keyed_records : Array keyedRefsRecord;
  keyed_values : Array T
}.

Implicit Types (l : keyedRefsLaneOf) (x : keyedRefs T K) (v : T).

Definition record_keyed l (record : keyedRefsRecord) v : option keyedRefsLaneOf :=
  vs ← (if bool_decide (keyed_operation record = commandUpdateRef) then '(a, _) ← AAppend (keyed_values l) v; Some a
    else Some (keyed_values l));
  '(rs, _) ← AAppend (keyed_records l) record;
  Some (mkKeyedLane (keyed_target l) rs vs).

(** [CommandKeyedRefs.Update], [Release] and [ReleaseKey]. *)
Definition UpdateCommand l v : option keyedRefsLaneOf :=
  record_keyed l (mkKeyedRecord zero_ref zero_value commandUpdateRef) v.
Definition ReleaseKeyedCommand l (h : Ref) : option keyedRefsLaneOf :=
  record_keyed l (mkKeyedRecord h zero_value commandReleaseRef) zero_value.
Definition ReleaseKeyCommand l (k : K) : option keyedRefsLaneOf :=
  record_keyed l (mkKeyedRecord zero_ref k commandReleaseKey) zero_value.

(** One turn of [commit]: the refs, the records dropped, the values updated so
    far, the values, and the records, whose keys are cleared. *)
Definition commit_keyed (i : nat) (st : keyedRefs T K * nat * nat * Array T * Array keyedRefsRecord) :
    option (keyedRefs T K * nat * nat * Array T * Array keyedRefsRecord) :=
  let '(x, dropped, updated, vs, rs) := st in
  record ← AAt rs i;
  match keyed_operation record with
  | commandUpdateRef =>
    v ← AAt vs updated;
    '(x, applied) ← updateKeyed key x v;
    vs ← ASet vs updated zero_value;
    Some (x, count applied dropped, S updated, vs, rs)
  | commandReleaseRef =>
    '(x, applied) ← releaseKeyed key x (keyed_handle record);
    Some (x, count applied dropped, updated, vs, rs)
  | commandReleaseKey =>
    '(x, applied) ← ReleaseKey key x (record_key record);
    rs ← ASet rs i (mkKeyedRecord (keyed_handle record) zero_value (keyed_operation record));
    Some (x, count applied dropped, updated, vs, rs)
  | _ => Some (x, S dropped, updated, vs, rs)
  end.

Definition commit_keyed_lane l x : option (keyedRefsLaneOf * keyedRefs T K * nat) :=
  '(x, dropped, _, vs, rs) ← for_range (ALen (keyed_records l)) commit_keyed (x, 0, 0, keyed_values l, keyed_records l);
  rs ← AResize rs 0;
  vs ← AResize vs 0;
  Some (mkKeyedLane (keyed_target l) rs vs, x, dropped).

Definition shrink_keyed_lane l : option keyedRefsLaneOf :=
  rs ← AShrink (keyed_records l);
  vs ← AShrink (keyed_values l);
  Some (mkKeyedLane (keyed_target l) rs vs).

(** [CommandKeyedRefs.Declare]; [keysOf] panics for refs not keyed by [K]. *)
Definition DeclareKeyedRefs (keyed : bool) (refs : nat) (c : commandRecorder keyedRefsLaneOf) :
    result unit (commandRecorder keyedRefsLaneOf * nat) :=
  if keyed then Ok (DeclareLane (mkKeyedLane refs emptyArray emptyArray) c) else Err tt.

#[export] Instance keyed_lane : RefsLane keyedRefsLaneOf (keyedRefs T K) := {
  lane_target := keyed_target;
  lane_commit := commit_keyed_lane;
  lane_shrink := shrink_keyed_lane
}.
End keyed_lane.
Arguments keyedRefsLaneOf : clear implicits.
Arguments keyedRefsRecord : clear implicits.
