(* ===== verification/RefsLanesHistory.v ===== *)
(** * Commits of refs, in the history of their operations

    Committing a lane of refs is a run of the refs' own operations, so what
    [RefsHistory] shows of any history holds of those with commits. *)

From stdpp Require Import relations.
From S2P Require Import Prelude Array Entity IndexTable Store World Refs RefsSpec RefsRefines RefsRelease RefsReset RefsDelta RefsHistory KeyedRefs Commands.
From S2P Require Import CommandsLane RefsLanes.

(** ** Commits of lanes of refs

    A lane's commit is a run of its refs' own operations in the order
    recorded, and leaves the lane with no command and no value. *)

(** A record of refs, or of keyed refs. *)
Inductive ref_command (T : Type) :=
  | LNew (h : Ref) (v : T)
  | LSet (h : Ref) (v : T)
  | LRelease (h : Ref).
Arguments LNew {T} _ _.
Arguments LSet {T} _ _.
Arguments LRelease {T} _.

(** Shrinking to nothing clears nothing. *)
Lemma resize_zero {T} `{Zero T} (a : Array T) : AResize a 0 = Some (mkArray (achunks a) 0).
Proof. done. Qed.

Section lane.
Context {T : Type} `{Zero T}.
Implicit Types (l : refsLaneOf T) (r : refsResource T) (s : refsSpec T) (h : Ref) (v : T) (c : ref_command T).

Definition record_of c : refsRecord :=
  match c with
  | LNew h _ => mkRefsRecord h commandNewRef
  | LSet h _ => mkRefsRecord h commandSetRef
  | LRelease h => mkRefsRecord h commandReleaseRef
  end.

Definition kept_value c : option T := match c with LNew _ v | LSet _ v => Some v | LRelease _ => None end.

(** The lane is the commands recorded in it. *)
Definition ref_lane_repr l (cs : list (ref_command T)) : Prop :=
  array_repr (refs_records l) (record_of <$> cs) ∧ array_repr (refs_values l) (omap kept_value cs).

(** Recording appends the command. *)
Lemma record_ref_spec l cs c v :
  ref_lane_repr l cs → (∀ w, kept_value c = Some w → w = v) →
  ∃ l', record_ref l (refs_operation (record_of c)) (handle (record_of c)) v = Some l' ∧ ref_lane_repr l' (cs ++ [c]).
Proof.
  intros [Hr Hv] Hc. unfold record_ref.
  destruct (array_append_repr _ _ v Hv) as (a & Ea & Ha).
  destruct (array_append_repr _ _ (record_of c) Hr) as (b & Eb & Hb).
  replace (mkRefsRecord (handle (record_of c)) (refs_operation (record_of c))) with (record_of c) by (by destruct c).
  unfold ref_lane_repr. rewrite fmap_app, omap_app. cbn [fmap list_fmap].
  destruct c as [h w|h w|h]; cbn [kept_value record_of refs_operation] in *.
  - rewrite (Hc w eq_refl). rewrite bool_decide_eq_false_2 by done. cbn [negb]. rewrite Ea. cbn [mbind option_bind]. rewrite Eb.
    eexists. split; [done|]. by split.
  - rewrite (Hc w eq_refl). rewrite bool_decide_eq_false_2 by done. cbn [negb]. rewrite Ea. cbn [mbind option_bind]. rewrite Eb.
    eexists. split; [done|]. by split.
  - rewrite bool_decide_eq_true_2 by done. cbn [negb mbind option_bind]. rewrite Eb.
    eexists. split; [done|]. split; [done|]. cbn. by rewrite app_nil_r.
Qed.

(** A command done at once, counted if it was dropped. *)
Definition take_ref c (st : refsResource T * nat) : option (refsResource T * nat) :=
  let '(r, dropped) := st in
  match c with
  | LNew h v => if decide (h = zero_ref) then Some (r, S dropped) else r ← store r h v; Some (r, dropped)
  | LSet h v => '(r, b) ← SetRef r h v; Some (r, count b dropped)
  | LRelease h => '(r, b) ← release r h; Some (r, count b dropped)
  end.

Lemma commit_ref_release r h d stored vs :
  commit_ref (record_of (LRelease h)) (r, d, stored, vs) = ('(r', d') ← take_ref (LRelease h) (r, d); Some (r', d', stored, vs)).
Proof. unfold commit_ref. cbn. by destruct (release r h) as [[r' b]|]. Qed.

Lemma commit_ref_value c r d stored vs vs' v :
  kept_value c = Some v → AAt vs stored = Some v → ASet vs stored zero_value = Some vs' →
  commit_ref (record_of c) (r, d, stored, vs) = ('(r', d') ← take_ref c (r, d); Some (r', d', S stored, vs')).
Proof.
  intros Hc Hv Hs. unfold commit_ref. destruct c as [h w|h w|h]; [injection Hc as ->..|done]; cbn.
  - rewrite (decide_False (P := commandNewRef = commandReleaseRef)) by done. rewrite Hv. cbn [mbind option_bind].
    rewrite (decide_True (P := commandNewRef = commandNewRef)) by done. destruct (decide (h = zero_ref)) as [Hz|Hz].
    + rewrite decide_False by (intros Hn; by apply Hn). cbn [mbind option_bind]. by rewrite Hs.
    + rewrite decide_True by done. destruct (store r h v); [|done]. cbn [mbind option_bind]. by rewrite Hs.
  - rewrite (decide_False (P := commandSetRef = commandReleaseRef)) by done. rewrite Hv. cbn [mbind option_bind].
    rewrite (decide_False (P := commandSetRef = commandNewRef)) by done. unfold SetRef. destruct (slot r h) as [x|]; [|cbn [mbind option_bind]; by rewrite Hs].
    destruct (put_slot _ _ _) as [r1|]; [|done]. cbn [mbind option_bind]. destruct (markChanged r1 h); [|done].
    cbn [mbind option_bind]. by rewrite Hs.
Qed.

(** The loop of the commit. *)
Lemma commit_loop cs r d stored vs vl :
  array_repr vs vl → drop stored vl = omap kept_value cs → stored ≤ length vl →
  match for_each cs take_ref (r, d) with
  | None => for_each (record_of <$> cs) commit_ref (r, d, stored, vs) = None
  | Some (r', d') => ∃ vs', for_each (record_of <$> cs) commit_ref (r, d, stored, vs) = Some (r', d', length vl, vs') ∧
      array_repr vs' (take stored vl ++ replicate (length vl - stored) zero_value)
  end.
Proof.
  revert r d stored vs vl. induction cs as [|c cs IH]; intros r d stored vs vl Hr Hd Hl; cbn [for_each fmap list_fmap].
  { cbn in Hd. assert (stored = length vl) as ->.
    { apply (f_equal length) in Hd. rewrite length_drop in Hd. cbn in Hd. lia. }
    exists vs. split; [done|]. by rewrite Nat.sub_diag, app_nil_r, take_ge by lia. }
  destruct (kept_value c) as [v|] eqn:Ev.
  - assert (Hv : vl !! stored = Some v).
    { rewrite <- (Nat.add_0_r stored), <- lookup_drop, Hd. cbn. by rewrite Ev. }
    pose proof (lookup_lt_Some _ _ _ Hv) as Hlt.
    destruct (array_set_repr vs vl stored zero_value Hr Hlt) as (vs1 & Es & Hr1).
    rewrite (commit_ref_value c r d stored vs vs1 v Ev) by (done || by apply (array_read vs vl)).
    destruct (take_ref c (r, d)) as [[r1 d1]|]; [|done]. cbn [mbind option_bind].
    specialize (IH r1 d1 (S stored) vs1 (<[stored := zero_value]> vl) Hr1). rewrite length_insert in IH.
    assert (Hd1 : drop (S stored) (<[stored := zero_value]> vl) = omap kept_value cs).
    { rewrite drop_insert_lt by lia. rewrite <- Nat.add_1_r, <- drop_drop, Hd. cbn. rewrite Ev. done. }
    specialize (IH Hd1 ltac:(lia)). destruct (for_each cs take_ref (r1, d1)) as [[r' d']|]; [|done].
    destruct IH as (vs' & E & Hr'). exists vs'. split; [done|]. replace (length vl - stored) with (S (length vl - S stored)) by lia.
    cbn [replicate]. rewrite (take_S_r _ _ zero_value) in Hr' by (by apply list_lookup_insert_eq).
    rewrite take_insert_ge in Hr' by lia. by rewrite <- (assoc_L (++)) in Hr'.
  - destruct c as [| |h]; [done|done|]. rewrite commit_ref_release. destruct (take_ref (LRelease h) (r, d)) as [[r1 d1]|]; [|done].
    cbn [mbind option_bind]. by apply IH.
Qed.

(** A commit does the commands one at a time, and empties the lane. *)
Lemma commit_lane_spec l cs r :
  ref_lane_repr l cs →
  match r ← settleReservations r; for_each cs take_ref (r, 0) with
  | None => commit_refs_lane l r = None
  | Some (r', d) => ∃ l', commit_refs_lane l r = Some (l', r', d) ∧ ref_lane_repr l' [] ∧ refs_target l' = refs_target l ∧
      ∀ j, j < ALen (refs_values l) → AAt (refs_values l') j = Some zero_value
  end.
Proof.
  intros [Hr Hv]. unfold commit_refs_lane. destruct (settleReservations r) as [r1|]; [|done]. cbn [mbind option_bind].
  assert (El : ∀ st, for_range (ALen (refs_records l)) (λ i st, record ← AAt (refs_records l) i; commit_ref record st) st =
    for_each (record_of <$> cs) commit_ref st).
  { intros st. unfold for_range, ALen. rewrite (array_length _ _ Hr).
    assert (G : ∀ d k st, d ++ k = record_of <$> cs →
      for_from (length d) (length k) (λ i st, record ← AAt (refs_records l) i; commit_ref record st) st = for_each k commit_ref st).
    { intros d k. revert d. induction k as [|x k IH]; intros d st' E; [done|]. cbn.
      rewrite (array_read _ _ (length d) x Hr) by (rewrite <- E; by rewrite lookup_app_r, Nat.sub_diag by lia).
      cbn. destruct (commit_ref x st') as [st''|]; [|done]. cbn. rewrite <- (IH (d ++ [x])) by (by rewrite <- (assoc_L (++))).
      by rewrite length_app, Nat.add_1_r. }
    by apply (G []). }
  rewrite El. pose proof (commit_loop cs r1 0 0 (refs_values l) (omap kept_value cs) Hv) as G.
  rewrite drop_0 in G. specialize (G eq_refl ltac:(lia)). destruct (for_each cs take_ref (r1, 0)) as [[r' d]|]; [|by rewrite G].
  destruct G as (vs' & -> & Hvs). cbn [mbind option_bind]. rewrite Nat.sub_0_r in Hvs. cbn [take app] in Hvs.
  destruct (array_resize_repr _ _ 0 Hr) as (rs' & Ers & Hrs'). destruct (array_resize_repr _ _ 0 Hvs) as (vs2 & Evs & Hvs2).
  rewrite Ers. cbn [mbind option_bind]. rewrite Evs. eexists. split; [done|]. split; [split; [exact Hrs'|exact Hvs2]|]. split; [done|].
  intros j Hj. unfold ALen in Hj. rewrite (array_length _ _ Hv) in Hj. rewrite resize_zero in Evs. injection Evs as <-.
  transitivity (AAt vs' j); [done|]. apply (array_read _ _ _ _ Hvs). by apply lookup_replicate_2.
Qed.
End lane.

Section history.
Context {T : Type} `{Zero T} (isZero : refSlot T → bool).
Implicit Types (l : refsLaneOf T) (r : refsResource T) (s : refsSpec T) (h : Ref) (v : T) (c : ref_command T).

(** ** No operation of a commit reserves *)

Lemma put_slot_count r i x r' : put_slot r i x = Some r' → ref_count r' = ref_count r.
Proof. unfold put_slot. intros (sl & _ & E)%bind_Some. by injection E as <-. Qed.

Lemma listChanged_count r h : ref_count (listChanged r h) = ref_count r.
Proof. unfold listChanged. by case_match. Qed.

Lemma store_count r h v r' : store r h v = Some r' → ref_count r' = ref_count r.
Proof.
  unfold store. intros (sl & _ & E)%bind_Some. case_decide; [|by injection E as <-].
  apply bind_Some in E as (x & _ & E). apply bind_Some in E as (r1 & E1 & E). injection E as <-.
  rewrite listChanged_count. by apply put_slot_count in E1.
Qed.

Lemma SetRef_count r h v r' b : SetRef r h v = Some (r', b) → ref_count r' = ref_count r.
Proof.
  unfold SetRef, markChanged. destruct (slot r h) as [x|]; [|by intros [= <- _]].
  intros (r1 & E1 & E)%bind_Some. rewrite <- (put_slot_count _ _ _ _ E1). destruct (negb _); [by injection E as <- _|].
  destruct (at_ (ref_slots r1) (ref_index h)) as [y|]; [|done]. cbn [mbind option_bind] in E.
  case_decide; [|by injection E as <- _]. apply bind_Some in E as (r2 & E2 & E). injection E as <- _.
  apply bind_Some in E2 as (r3 & E3 & E2). injection E2 as <-. rewrite listChanged_count. by apply put_slot_count in E3.
Qed.

Lemma free_ref_count r i r' : free_ref r i = Some r' → ref_count r' = ref_count r.
Proof.
  unfold free_ref. intros (x & _ & E)%bind_Some. apply bind_Some in E as (r1 & E1%put_slot_count & E). rewrite <- E1.
  destruct (ref_inside r1 i); [|by injection E as <-]. by apply bind_Some in E as ([a j] & _ & [= <-]).
Qed.

Lemma release_count r h r' b : release r h = Some (r', b) → ref_count r' = ref_count r.
Proof.
  unfold release. destruct (slot r h) as [x|]; [|by intros [= <- _]].
  intros (r1 & E1%put_slot_count & E)%bind_Some. rewrite <- E1. destruct (negb _).
  - apply bind_Some in E as (r2 & E2%free_ref_count & [= <- _]). done.
  - destruct (state _); apply bind_Some in E as (r2 & E2%put_slot_count & [= <- _]); rewrite ?listChanged_count; done.
Qed.

(** With nothing reserved, releasing is [Refs.Release]. *)
Lemma release_settled r h : ref_count r = 0%Z → ReleaseRef r h = release r h.
Proof. intros E. unfold ReleaseRef, settleReservations. by rewrite E. Qed.

Lemma settle_count r r' : settleReservations r = Some r' → ref_count r' = 0%Z.
Proof.
  unfold settleReservations. destruct (Z.eqb_spec (ref_count r) 0) as [E|]; [by intros [= <-]|].
  by intros (a & _ & [= <-])%bind_Some.
Qed.

(** ** The commands, on the contract *)

Definition new_ref c : option Ref :=
  match c with LNew h _ => if decide (h = zero_ref) then None else Some h | _ => None end.

Definition taken_by s c : bool :=
  match c with
  | LNew h _ => bool_decide (h ≠ zero_ref)
  | LSet h _ | LRelease h => bool_decide (is_Some (rs_live s !! h))
  end.

Definition command_after s c : refsSpec T :=
  match c with
  | LNew h v => if decide (h = zero_ref) then s else rs_stored s h v
  | LSet h v => ref_after s (RSet h v) RDone
  | LRelease h => ref_after s (RRelease h) RDone
  end.

Definition ref_command_step s c : refsSpec T * bool := (command_after s c, taken_by s c).

#[local] Abbreviation refs_after := (commands_after ref_command_step).
#[local] Abbreviation refs_dropped := (commands_dropped ref_command_step).

(** Each ref made by the lane is a reservation of its own. *)
Definition refs_reserved s (cs : list (ref_command T)) : Prop :=
  NoDup (omap new_ref cs) ∧ ∀ h, h ∈ omap new_ref cs → h ∈ rs_waiting s.

Lemma waiting_after s c h : h ∈ rs_waiting s → new_ref c ≠ Some h → h ∈ rs_waiting (command_after s c).
Proof.
  destruct c as [h' v|h' v|h']; cbn; intros Hh Hn.
  - case_decide; [done|]. cbn. set_unfold. split; [done|]. intros ->. done.
  - case_decide; [|done]. unfold rs_marked. by case_decide.
  - by destruct (rs_live s !! h').
Qed.

Lemma reserved_cons s c cs :
  refs_reserved s (c :: cs) → (∀ h, new_ref c = Some h → h ∈ rs_waiting s) ∧ refs_reserved (command_after s c) cs.
Proof.
  unfold refs_reserved. cbn. destruct (new_ref c) as [h|] eqn:E; intros [Hn Hw].
  - apply NoDup_cons in Hn as [Hh Hn]. split; [intros ? [= <-]; apply Hw; by left|]. split; [done|].
    intros h' Hh'. apply waiting_after; [apply Hw; by right|]. rewrite E. intros [= ->]. done.
  - split; [done|]. split; [done|]. intros h' Hh'. apply waiting_after; [by apply Hw|]. by rewrite E.
Qed.

(** ** A commit is a run *)

Lemma take_ref_step first last n r s F c d :
  refs_sim first last n r s F → (N.of_nat n < 2 ^ 32 - 2)%N → ref_count r = 0%Z → (∀ h, new_ref c = Some h → h ∈ rs_waiting s) →
  ∃ r' F' m, take_ref c (r, d) = Some (r', count (taken_by s c) d) ∧ ref_count r' = 0%Z ∧ m ≤ 1 ∧
    nsteps (ref_step isZero any_op) m (r, s) (r', command_after s c) ∧ refs_sim first last (S (S n)) r' (command_after s c) F'.
Proof.
  intros Sim Hn H0 Hc.
  assert (Hone : ∀ op answer r', run_ref_op isZero r op = Some (r', answer) → ref_op_ok s op →
    nsteps (ref_step isZero any_op) 1 (r, s) (r', ref_after s op answer)).
  { intros op answer r' Er Hok. apply (nsteps_l _ _ _ (r', ref_after s op answer)); [|constructor]. by exists op, answer. }
  destruct c as [h v|h v|h]; cbn in Hc |- *.
  - case_decide as Hz.
    + exists r, F, 0. rewrite bool_decide_eq_false_2 by (by intros []). split_and!; try done; [lia|constructor|].
      eapply refs_sim_mono; [|done]. lia.
    + rewrite bool_decide_eq_true_2 by done.
      destruct (sim_store_waiting first last n r s F h v Sim) as (r' & E & Sim' & _); [lia|by apply Hc|]. rewrite E.
      exists r', F, 1. split_and!; [done|by rewrite (store_count _ _ _ _ E)|lia| |eapply refs_sim_mono; [|done]; lia].
      apply (Hone (RStore h v) RDone); [cbn; by rewrite E|by apply Hc].
  - destruct (sim_set first last n r s F h v Sim) as (r' & E & Sim'). rewrite E. exists r', F, 1.
    split_and!; [done|by rewrite (SetRef_count _ _ _ _ _ E)|lia| |eapply refs_sim_mono; [|done]; lia].
    apply (Hone (RSet h v) (RBool (bool_decide (is_Some (rs_live s !! h))))); [cbn; by rewrite E|done].
  - destruct (sim_release_ref first last n r s F h Sim) as (r' & F' & E & Sim'); [lia|]. rewrite release_settled in E by done. rewrite E.
    exists r', F', 1. split_and!; [done|by rewrite (release_count _ _ _ _ E)|lia| |eapply refs_sim_mono; [|done]; lia].
    apply (Hone (RRelease h) (RBool (bool_decide (is_Some (rs_live s !! h))))); [cbn; by rewrite release_settled, E|done].
Qed.

Lemma take_refs_run first last cs n r s F d :
  refs_sim first last n r s F → (N.of_nat (n + 2 * length cs) < 2 ^ 32 - 2)%N → ref_count r = 0%Z → refs_reserved s cs →
  ∃ r' m, for_each cs take_ref (r, d) = Some (r', d + refs_dropped s cs) ∧ m ≤ length cs ∧
    nsteps (ref_step isZero any_op) m (r, s) (r', refs_after s cs) ∧
    ∃ F', refs_sim first last (n + 2 * length cs) r' (refs_after s cs) F'.
Proof.
  revert n r s F d. induction cs as [|c cs IH]; intros n r s F d Sim Hn H0 Hc; cbn [for_each commands_after commands_dropped].
  { exists r, 0. rewrite Nat.add_0_r. split_and!; [done|lia|constructor|]. exists F. cbn [length]. by rewrite Nat.mul_0_r, Nat.add_0_r. }
  destruct (reserved_cons s c cs Hc) as [Hw Hcs]. cbn in Hn.
  destruct (take_ref_step first last n r s F c d Sim ltac:(lia) H0 Hw) as (r1 & F1 & k & -> & H1 & Hk & Hs1 & Sim1).
  destruct (IH (S (S n)) r1 _ F1 (count (taken_by s c) d) Sim1 ltac:(lia) H1 Hcs) as (r' & m & E & Hm & Hs & F' & Sim').
  exists r', (k + m). cbn [mbind option_bind]. rewrite E. split_and!.
  - f_equal. f_equal. cbn. unfold count. destruct (taken_by s c); lia.
  - cbn. lia.
  - by eapply nsteps_trans.
  - exists F'. cbn [length]. by replace (n + 2 * S (length cs)) with (S (S n) + 2 * length cs) by lia.
Qed.

(** ** Recording *)

Definition emptyRefsLane (target : nat) : refsLaneOf T := mkRefsLane target emptyArray emptyArray.

Definition record_refs (cs : list (ref_command T)) l : option (refsLaneOf T) :=
  for_each cs (λ c l, match c with
    | LNew h v => record_ref l commandNewRef h v
    | LSet h v => SetRefCommand l h v
    | LRelease h => ReleaseRefCommand l h
    end) l.

Lemma record_refs_repr cs l ds : ref_lane_repr l ds → ∃ l', record_refs cs l = Some l' ∧ ref_lane_repr l' (ds ++ cs).
Proof.
  unfold record_refs. revert l ds. induction cs as [|c cs IH]; intros l ds Hl; cbn [for_each].
  { exists l. by rewrite app_nil_r. }
  assert (Hc : ∃ l1, match c with LNew h v => record_ref l commandNewRef h v | LSet h v => SetRefCommand l h v
    | LRelease h => ReleaseRefCommand l h end = Some l1 ∧ ref_lane_repr l1 (ds ++ [c])).
  { destruct c as [h v|h v|h]; [apply (record_ref_spec l ds (LNew h v) v)|apply (record_ref_spec l ds (LSet h v) v)|
      apply (record_ref_spec l ds (LRelease h) zero_value)]; try done; by intros w [= <-]. }
  destruct Hc as (l1 & -> & Hl1). cbn [mbind option_bind]. destruct (IH l1 _ Hl1) as (l' & -> & Hl').
  exists l'. split; [done|]. by rewrite <- (assoc_L (++)) in Hl'.
Qed.

Lemma empty_refs_lane target : ref_lane_repr (emptyRefsLane target) [].
Proof using H. split; apply array_empty_repr. Qed.
End history.

Section claims.
Context {T : Type} `{Zero T} (isZero : refSlot T → bool).
Hypothesis zero_slot : ∀ x : refSlot T, isZero x = true → x = zero_value.
Implicit Types (x : refsResource T * refsSpec T) (cs : list (ref_command T)).

(** Committing a lane of refs does the operations recorded in it, in the
    order they were recorded: it never panics, and it is a run of at most one
    operation a record, after settling, that leaves the refs as their
    contract says.  A record is dropped exactly when the ref it names is not
    alive by then, or when the range had none left for it.  The lane is left
    with no record, and with no value of the producer's in its chunks. *)
Theorem refs_lane_commits options r0 n x target cs l :
  registerRefs false false options = Ok r0 → (opt_last options < 2 ^ 32)%N → (N.of_nat (n + length cs) < 2 ^ 31 - 3)%N →
  nsteps (ref_step isZero any_op) n (r0, initial_refs) x → record_refs cs (emptyRefsLane target) = Some l → refs_reserved x.2 cs →
  ∃ l' r' m, commit_refs_lane l x.1 = Some (l', r', commands_dropped ref_command_step x.2 cs) ∧ m ≤ S (length cs) ∧
    nsteps (ref_step isZero any_op) m x (r', commands_after ref_command_step x.2 cs) ∧
    ref_lane_repr l' [] ∧ ∀ j, j < ALen (refs_values l) → AAt (refs_values l') j = Some zero_value.
Proof using zero_slot.
  intros Hr Hl Hn Hx El Hc. pose proof (sim_registered options r0 Hr Hl) as S0.
  destruct (run_ref_sim isZero zero_slot _ _ any_op n 0 [] (r0, initial_refs) x S0 Hx) as [F Sim]; [lia|].
  destruct (record_refs_repr cs _ _ (empty_refs_lane target)) as (l1 & E1 & Hlane). rewrite El in E1. injection E1 as <-.
  pose proof (commit_lane_spec l cs x.1 Hlane) as G. destruct x as [r s]. cbn [fst snd] in *.
  destruct (sim_settle_refs _ _ _ r s F Sim) as (r1 & F1 & E1 & Sim1 & _); [lia|]. rewrite E1 in G. cbn [mbind option_bind] in G.
  destruct (take_refs_run isZero _ _ cs _ r1 s F1 0 Sim1 ltac:(lia) (settle_count _ _ E1) Hc) as (r' & m & Er & Hm & Hs & _).
  rewrite Er in G. destruct G as (l' & Ec & Hl' & _ & Hv). exists l', r', (S m). split_and!; [done|lia| |done|done].
  apply (nsteps_l _ _ _ (r1, s)); [|done]. exists RSettle, RDone. cbn. by rewrite E1.
Qed.
End claims.

(** ** Lanes of refs and refs, as the world sees them *)

Section laws.
Context {T : Type} `{Zero T} (isZero : refSlot T → bool).
Hypothesis zero_slot : ∀ x : refSlot T, isZero x = true → x = zero_value.

(** Refs that implement their contract after so many operations. *)
Definition refs_implement_spec (k : nat) (r : refsResource T) (s : refsSpec T) : Prop :=
  ∃ first last F, refs_sim first last k r s F.

Definition refs_windowed_laws : @WindowedLaws (refsResource T) (refs_windowed isZero).
Proof using zero_slot.
  refine (@Build_WindowedLaws (refsResource T) (refs_windowed isZero)
    (λ r, ∃ k s, (N.of_nat k < 2 ^ 32 - 1)%N ∧ refs_implement_spec k r s) _ _ _); intros r (k & s & Hk & first & last & F & Sim).
  - destruct (sim_start_refs first last k r s F Sim) as (r' & E & Sim'). exists r'. split; [done|].
    exists k, (rs_started s). split; [done|]. by exists first, last, F.
  - destruct (sim_reset_refs first last k r s F Sim Hk) as (r' & F' & E & Sim'). exists r'. split; [done|].
    exists k, (rs_reset s). split; [done|]. by exists first, last, F'.
  - destruct (sim_shrink_refs first last isZero k r s F zero_slot Sim) as (r' & E & Sim'). exists r'. split; [done|].
    exists k, s. split; [done|]. by exists first, last, F.
Defined.

Lemma reserved_app (s : refsSpec T) cs ds :
  refs_reserved s (cs ++ ds) → refs_reserved s cs ∧ refs_reserved (commands_after ref_command_step s cs) ds.
Proof using Type.
  revert s. induction cs as [|c cs IH]; intros s Hr; cbn [app commands_after] in *.
  - split; [|done]. split; [constructor|by intros h ?%not_elem_of_nil].
  - pose proof (reserved_cons s c (cs ++ ds) Hr) as [_ Hrest]. destruct (IH _ Hrest) as [_ H2]. split; [|done].
    destruct Hr as [Hn Hw]. rewrite app_comm_cons, omap_app in Hn, Hw. apply NoDup_app in Hn as (Hn & _ & _).
    split; [done|]. intros h Hh. apply Hw. by apply elem_of_app; left.
Qed.

(** What a commit relies on, of lanes of refs. *)
Definition refs_lane_laws : @RefsLaneLaws (refsLaneOf T) (refsResource T) refs_lane (refs_windowed isZero) refs_windowed_laws.
Proof using zero_slot.
  refine (@Build_RefsLaneLaws (refsLaneOf T) (refsResource T) refs_lane (refs_windowed isZero) refs_windowed_laws
    (refsSpec T) (ref_command T) refs_implement_spec ref_lane_repr ref_command_step refs_reserved _ _ reserved_app _ _).
  - intros k r s Himp Hk. exists k, s. split; [lia|done].
  - intros k k' r s Hk (first & last & F & Sim). exists first, last, F. by eapply refs_sim_mono.
  - intros k r s l cs (first & last & F & Sim) Hl Ho Hk.
    destruct (sim_settle_refs _ _ _ r s F Sim) as (r1 & F1 & E1 & Sim1 & Hc & _); [lia|].
    pose proof (commit_lane_spec l cs r Hl) as G. rewrite E1 in G. cbn [mbind option_bind] in G.
    destruct (take_refs_run isZero _ _ cs k r1 s F1 0 Sim1 Hk Hc Ho) as (r' & m & Er & _ & _ & F' & Sim').
    rewrite Er in G. destruct G as (l' & Ec & Hl' & _ & _). exists l', r'. split_and!; [done|by exists first, last, F'|done].
  - intros l cs [Hrs Hvs]. cbn [lane_shrink refs_lane]. unfold shrink_refs_lane.
    destruct (array_shrink_repr _ _ Hrs) as (a & -> & Ha & _). cbn [mbind option_bind].
    destruct (array_shrink_repr _ _ Hvs) as (b & -> & Hb & _). cbn [mbind option_bind]. by eexists.
Defined.
End laws.

(** ** A lane of four records *)
Module LanesExample.
Import RefsExample.

Definition made : list (refs_op (T := N)) := [RNew 7%N; RReserve].

Definition changes : list (ref_command N) :=
  [LNew (mkRef 11 1) 9%N; LSet (mkRef 10 1) 8%N; LRelease (mkRef 10 1); LSet (mkRef 10 1) 4%N].

Lemma reserved_by (s : refsSpec N) cs :
  bool_decide (NoDup (omap new_ref cs)) && forallb (λ h, bool_decide (h ∈ rs_waiting s)) (omap new_ref cs) = true →
  refs_reserved s cs.
Proof.
  intros [Hn%bool_decide_eq_true Hw]%andb_prop. split; [done|]. intros h Hh.
  rewrite forallb_forall in Hw. apply list_elem_of_In in Hh. by apply Hw, bool_decide_eq_true in Hh.
Qed.

(** The last is dropped: its ref was released by the record before. *)
Lemma refs_lane_commits_witness :
  ∃ l l' r' m, record_refs changes (emptyRefsLane 0) = Some l ∧
    commit_refs_lane l (after made (r0, initial_refs)).1 = Some (l', r', 1) ∧ m ≤ 5 ∧
    nsteps (ref_step isZero any_op) m (after made (r0, initial_refs)) (r', commands_after ref_command_step (after made (r0, initial_refs)).2 changes).
Proof.
  destruct (record_refs changes (emptyRefsLane 0)) as [l|] eqn:El; [|vm_compute in El; discriminate El].
  destruct (refs_lane_commits isZero isZero_zero options r0 (length made) (after made (r0, initial_refs)) 0 changes l)
    as (l' & r' & m & E & Hm & Hs & _).
  - reflexivity.
  - reflexivity.
  - reflexivity.
  - apply after_steps. vm_compute. reflexivity.
  - exact El.
  - apply reserved_by. vm_compute. reflexivity.
  - exists l, l', r', m. refine (conj eq_refl (conj _ (conj Hm Hs))). rewrite E. vm_compute. reflexivity.
Defined.
End LanesExample.
