(* ===== verification/WorldSpec.v ===== *)
(** * What a world promises

    Its contract: that of its entity table and of each of its stores, and
    that they agree on which entity has which component. *)

From S2P Require Import Prelude Words Array Entity IndexTable Mask EntityTable EntityLedger EntityTableSpec EntitySim.
From S2P Require Import Store StoreSpec StoreHistory World.

(** The operations on a world: those of its entity table that concern no
    component, and those that do. *)
Inductive world_op :=
  | WTable (op : table_op)
  | WDespawn (e : Entity)
  | WAdd (e : Entity) (id : nat) (v : bytes)
  | WWrite (e : Entity) (id : nat) (v : bytes)
  | WRemove (e : Entity) (id : nat)
  | WSpawnRaw (m : mask) (values : bytes)
  | WCreateAtRaw (e : Entity) (m : mask) (values : bytes)
  | WObserve (id : nat)
  | WReset
  | WShrink.

Definition structural (op : table_op) : bool :=
  match op with OReserve | OSpawn | OSpawnReserved _ | OPlace _ => true | _ => false end.

Record worldSpec := mkWorldSpec {
  ws_table : tableSpec;
  ws_stores : list (observationState * storeSpec bytes)
}.

Section spec.
Context (words : nat) (first last : N) (Size : nat → nat).
Implicit Types (W : worldSpec) (T : tableSpec) (Σ : list (observationState * storeSpec bytes)).

(** ** Operations that answer without choosing *)

(** Component [id] of [e] has the value [v]. *)
Definition has_value W (e : Entity) (id : nat) (v : bytes) : Prop :=
  ∃ o, ws_stores W !! id = Some o ∧ st_live o.2 !! e = Some v.

(** The mask of a live entity with [change] done to it. *)
Definition remask T (e : Entity) (change : mask → option mask) : tableSpec :=
  match m ← sp_live T !! e; change m with Some m' => sp_masked T e m' | None => T end.

Definition on_store Σ (id : nat) (op : storeOp bytes) : list (observationState * storeSpec bytes) :=
  alter (λ o, spec_op o op) id Σ.

Definition stored W (e : Entity) (id : nat) : bool :=
  match ws_stores W !! id with Some o => bool_decide (is_Some (st_live o.2 !! e)) | None => false end.

Definition ws_add W (e : Entity) (id : nat) (v : bytes) : worldSpec :=
  if decide (is_Some (sp_live (ws_table W) !! e)) then
    mkWorldSpec (if stored W e id then ws_table W else remask (ws_table W) e (λ m, maskSet m id))
      (on_store (ws_stores W) id (OpSet e v))
  else W.

Definition ws_write W (e : Entity) (id : nat) (v : bytes) : worldSpec :=
  if stored W e id then mkWorldSpec (ws_table W) (on_store (ws_stores W) id (OpSet e v)) else W.

Definition ws_remove W (e : Entity) (id : nat) : worldSpec :=
  if stored W e id then
    mkWorldSpec (remask (ws_table W) e (λ m, maskUnset m id)) (on_store (ws_stores W) id (OpRemove e))
  else W.

(** The values of [ids] one after the other in [values]. *)
Fixpoint ws_addAll W (e : Entity) (ids : list nat) (values : bytes) : worldSpec :=
  match ids with
  | [] => W
  | id :: ids => ws_addAll (ws_add W e id (take (Size id) values)) e ids (drop (Size id) values)
  end.

Definition ws_every W T (op : storeOp bytes) : worldSpec := mkWorldSpec T ((λ o, spec_op o op) <$> ws_stores W).

Definition ws_reset W : worldSpec :=
  ws_every W (sp_ended_window (ws_table W)) (if sp_observing (ws_table W) then OpReset else OpStart).

Definition ws_observe W (id : nat) : worldSpec := mkWorldSpec (ws_table W) (on_store (ws_stores W) id OpRegisterObserver).

(** The IDs of a mask, ascending. *)
Definition ids_of (m : mask) : list nat := filter (λ j, mask_has m j = true) (seq 0 (maskBits words)).

(** What the caller owes. *)
Definition mask_ok W (m : mask) (values : bytes) : Prop :=
  length m = words ∧ mask_bound m ∧ (∀ id, id ∈ ids_of m → id < length (ws_stores W)) ∧
  length values = sum_list_with Size (ids_of m).

Definition world_op_ok W (op : world_op) : Prop :=
  match op with
  | WTable op => structural op = true ∧ op_ok words (ws_table W) op
  | WDespawn e => (e < 2 ^ 64)%N
  | WAdd e id v | WWrite e id v => (e < 2 ^ 64)%N ∧ id < length (ws_stores W) ∧ length v = Size id
  | WRemove e id => (e < 2 ^ 64)%N ∧ id < length (ws_stores W)
  | WSpawnRaw m values => mask_ok W m values
  | WCreateAtRaw e m values => (e < 2 ^ 64)%N ∧ mask_ok W m values
  | WObserve id => id < length (ws_stores W)
  | WReset | WShrink => True
  end.

(** ** The contract *)

Inductive world_step W : world_op → table_answer → worldSpec → Prop :=
  | ws_step_table op answer T' :
      spec_step words first last (ws_table W) op answer T' →
      world_step W (WTable op) answer (mkWorldSpec T' (ws_stores W))
  | ws_step_despawn e m T' :
      spec_step words first last (ws_table W) (ODespawn e) (Ended m true) T' →
      world_step W (WDespawn e) (Answered true) (ws_every W T' (OpRemove e))
  | ws_step_despawn_dead e :
      sp_live (ws_table W) !! e = None → world_step W (WDespawn e) (Answered false) W
  | ws_step_add e id v :
      world_step W (WAdd e id v) (Answered (bool_decide (is_Some (sp_live (ws_table W) !! e)))) (ws_add W e id v)
  | ws_step_write e id v : world_step W (WWrite e id v) (Answered (stored W e id)) (ws_write W e id v)
  | ws_step_remove e id : world_step W (WRemove e id) (Answered (stored W e id)) (ws_remove W e id)
  | ws_step_spawnRaw m values e T' :
      spec_step words first last (ws_table W) OSpawn (Handed e) T' → e ≠ NoEntity →
      world_step W (WSpawnRaw m values) (Handed e) (ws_addAll (mkWorldSpec T' (ws_stores W)) e (ids_of m) values)
  | ws_step_spawnRaw_none m values :
      exhausted first last (ws_table W) → world_step W (WSpawnRaw m values) (Handed NoEntity) W
  | ws_step_createAtRaw e m values T' :
      spec_step words first last (ws_table W) (OPlace e) (Placed None) T' →
      world_step W (WCreateAtRaw e m values) (Placed None) (ws_addAll (mkWorldSpec T' (ws_stores W)) e (ids_of m) values)
  | ws_step_createAtRaw_refused e m values err :
      place_answer first last (ws_table W) e = Some err → world_step W (WCreateAtRaw e m values) (Placed (Some err)) W
  | ws_step_observe id : world_step W (WObserve id) Done (ws_observe W id)
  | ws_step_reset : world_step W WReset Done (ws_reset W)
  | ws_step_shrink :
      world_step W WShrink Done (if sp_observing (ws_table W) then ws_reset W else W).

(** ** The agreement of table and stores *)

Record coherent W : Prop := {
  co_masks : ∀ e m id, sp_live (ws_table W) !! e = Some m → mask_has m id = true ↔ ∃ v, has_value W e id v;
  co_alive : ∀ e id v, has_value W e id v → is_Some (sp_live (ws_table W) !! e);
  co_sizes : ∀ e id v, has_value W e id v → length v = Size id;
  co_mask_ok : ∀ e m, sp_live (ws_table W) !! e = Some m → length m = words ∧ mask_bound m;
  co_window : ∀ id o e, ws_stores W !! id = Some o → is_Some (st_base o.2 !! e) ∨ is_Some (st_gone o.2 !! e) →
    is_Some (sp_live (ws_table W) !! e) ∨ sp_observing (ws_table W) = true ∧ index e ∈ sp_despawned (ws_table W);
  co_observing : ∀ id o, ws_stores W !! id = Some o → o.1 = observed → sp_observing (ws_table W) = true;
  co_quiet : ∀ id o, ws_stores W !! id = Some o → o.1 ≠ observed → st_base o.2 = ∅ ∧ st_gone o.2 = ∅;
  co_count : length (ws_stores W) ≤ maskBits words
}.

(** ** What a store's promise does to its values *)

Lemma spec_op_live (o : observationState * storeSpec bytes) op :
  st_live (spec_op o op).2 =
  match op with OpSet e v => <[e := v]> (st_live o.2) | OpRemove e => delete e (st_live o.2) | _ => st_live o.2 end.
Proof using Type.
  destruct o as [obs σ], op as [e v|e| | | |]; cbn [spec_op fst snd]; try done.
  - by destruct (st_live σ !! e).
  - destruct (st_live σ !! e) eqn:E; [done|]. cbn. by rewrite delete_id.
  - by destruct (decide _).
  - by destruct (decide _).
Qed.

(** Neither adding nor removing moves the base, and neither starts or ends
    an observation. *)
Lemma spec_op_values (o : observationState * storeSpec bytes) op :
  match op with OpSet _ _ | OpRemove _ => True | _ => False end →
  (spec_op o op).1 = o.1 ∧ st_base (spec_op o op).2 = st_base o.2.
Proof using Type. destruct o as [obs σ], op as [e v|e| | | |]; try done; intros _; cbn; by destruct (st_live σ !! e). Qed.

Lemma stored_true W e id : stored W e id = true ↔ ∃ v, has_value W e id v.
Proof using Type.
  unfold stored, has_value. destruct (ws_stores W !! id) as [o|] eqn:Eo.
  - rewrite bool_decide_eq_true. split; [intros [v Hv]; by exists v, o|intros (v & o' & [= <-] & Hv); by exists v].
  - split; [done|]. by intros (v & o & ? & _).
Qed.

Lemma on_store_lookup Σ id op j : on_store Σ id op !! j = (if decide (j = id) then λ o, spec_op o op else λ o, o) <$> Σ !! j.
Proof using Type.
  unfold on_store. destruct (decide (j = id)) as [->|Hj]; [by rewrite list_lookup_alter_eq|].
  rewrite list_lookup_alter_ne by done. by destruct (Σ !! j).
Qed.

Lemma has_value_set W T' e id v e' id' v' :
  id < length (ws_stores W) →
  has_value (mkWorldSpec T' (on_store (ws_stores W) id (OpSet e v))) e' id' v' ↔
    (id' = id ∧ e' = e) ∧ v' = v ∨ ¬ (id' = id ∧ e' = e) ∧ has_value W e' id' v'.
Proof using Type.
  clear words first last Size.
  intros Hid. unfold has_value. cbn [ws_stores]. rewrite on_store_lookup. destruct (decide (id' = id)) as [->|Hne].
  2:{ rewrite option_fmap_id. naive_solver. }
  destruct (lookup_lt_is_Some_2 _ _ Hid) as [o Ho]. rewrite Ho. cbn [fmap option_fmap option_map]. split.
  - intros (o' & [= <-] & Hv). rewrite spec_op_live in Hv. apply lookup_insert_Some in Hv as [[<- <-]|[Hn Hv]]; [by left|].
    right. split; [naive_solver|by exists o].
  - intros [[[_ ->] ->]|[Hn (o' & [= <-] & Hv)]]; eexists; (split; [done|]); rewrite spec_op_live.
    + apply lookup_insert_eq.
    + rewrite lookup_insert_ne; [done|]. naive_solver.
Qed.

Lemma has_value_remove W T' e id e' id' v' :
  has_value (mkWorldSpec T' (on_store (ws_stores W) id (OpRemove e))) e' id' v' ↔
    ¬ (id' = id ∧ e' = e) ∧ has_value W e' id' v'.
Proof using Type.
  clear words first last Size.
  unfold has_value. cbn [ws_stores]. rewrite on_store_lookup. destruct (decide (id' = id)) as [->|Hne].
  2:{ rewrite option_fmap_id. naive_solver. }
  destruct (ws_stores W !! id) as [o|] eqn:Ho; cbn [fmap option_fmap option_map]; [|naive_solver]. split.
  - intros (o' & [= <-] & Hv). rewrite spec_op_live in Hv. apply lookup_delete_Some in Hv as [Hn Hv].
    split; [naive_solver|by exists o].
  - intros [Hn (o' & [= <-] & Hv)]. eexists. split; [done|]. rewrite spec_op_live, lookup_delete_ne; naive_solver.
Qed.

Lemma has_value_every W T' op e' id' v' :
  has_value (ws_every W T' op) e' id' v' ↔
  match op with
  | OpSet _ _ => has_value (ws_every W T' op) e' id' v'
  | OpRemove e => e' ≠ e ∧ has_value W e' id' v'
  | _ => has_value W e' id' v'
  end.
Proof using Type.
  clear words first last Size.
  destruct op as [e v|e| | | |]; [done|..]; unfold has_value, ws_every; cbn [ws_stores]; rewrite list_lookup_fmap;
    (destruct (ws_stores W !! id') as [o|]; cbn [fmap option_fmap option_map]; [|naive_solver]);
    (split; [intros (o' & [= <-] & Hv); rewrite spec_op_live in Hv|]).
  1: apply lookup_delete_Some in Hv; naive_solver.
  1: intros [Hn (o' & [= <-] & Hv)]; eexists; (split; [done|]); rewrite spec_op_live, lookup_delete_ne; naive_solver.
  all: try (by eexists).
  all: intros (o' & [= <-] & Hv); eexists; (split; [done|]); by rewrite spec_op_live.
Qed.
End spec.
