(* ===== verification/WorldCoherent.v ===== *)
(** * The agreement of a world's table and stores is kept

    One lemma per thing that happens to a world's contract: masks, stores and
    the entities alive go on telling the same. *)

From S2P Require Import Prelude Words Array Entity IndexTable Mask EntityTable EntityLedger EntityTableSpec EntitySim.
From S2P Require Import Store StoreSpec StoreHistory World WorldSpec.

Section coherent.
Context (words : nat) (first last : N) (Size : nat → nat).
Implicit Types (W : worldSpec) (T : tableSpec).

#[local] Abbreviation coherent := (coherent words Size).

Lemma stored_false W e id : stored W e id = false ↔ ∀ v, ¬ has_value W e id v.
Proof using Type.
  clear words first last Size. rewrite <- not_true_iff_false, stored_true. naive_solver.
Qed.

Lemma length_on_store Σ id op : length (on_store Σ id op) = length Σ.
Proof using Type. apply length_alter. Qed.

(** A change of a live entity's mask that is one of its bits. *)
Lemma remask_spec W e m id (change : mask → nat → option mask) (fb : bool → bool → bool) :
  coherent W → sp_live (ws_table W) !! e = Some m → id < length (ws_stores W) →
  (∀ m, id < maskBits (length m) → mask_bound m → ∃ m', change m id = Some m' ∧ length m' = length m ∧ mask_bound m' ∧
    ∀ j, mask_has m' j = fb (mask_has m j) (bool_decide (j = id))) →
  ∃ m', change m id = Some m' ∧ remask (ws_table W) e (λ m, change m id) = sp_masked (ws_table W) e m' ∧
    length m' = words ∧ mask_bound m' ∧ ∀ j, mask_has m' j = fb (mask_has m j) (bool_decide (j = id)).
Proof using Type.
  intros C Hm Hid Hc. destruct (co_mask_ok _ _ _ C e m Hm) as [Hl Hb].
  destruct (Hc m) as (m' & E & Hl' & Hb' & Hbits); [rewrite Hl; pose proof (co_count _ _ _ C); lia|done|].
  exists m'. unfold remask. rewrite Hm. cbn [mbind option_bind]. rewrite E. split_and!; try done. congruence.
Qed.

Lemma masked_live T e m' e' : is_Some (sp_live T !! e) → is_Some (sp_live (sp_masked T e m') !! e') ↔ is_Some (sp_live T !! e').
Proof using Type.
  intros He. cbn. destruct (decide (e' = e)) as [->|Hn]; [rewrite lookup_insert_eq|by rewrite lookup_insert_ne].
  split; [done|by intros _; eexists].
Qed.

(** What an operation on one store keeps of the windows. *)
Lemma window_kept W T' id op :
  coherent W → match op with OpSet e _ | OpRemove e => is_Some (sp_live (ws_table W) !! e) | _ => False end →
  (∀ e, is_Some (sp_live T' !! e) ↔ is_Some (sp_live (ws_table W) !! e)) →
  sp_observing T' = sp_observing (ws_table W) → sp_despawned T' = sp_despawned (ws_table W) →
  (∀ j o e, on_store (ws_stores W) id op !! j = Some o → is_Some (st_base o.2 !! e) ∨ is_Some (st_gone o.2 !! e) →
     is_Some (sp_live T' !! e) ∨ sp_observing T' = true ∧ index e ∈ sp_despawned T') ∧
  (∀ j o, on_store (ws_stores W) id op !! j = Some o → o.1 = observed → sp_observing T' = true) ∧
  (∀ j o, on_store (ws_stores W) id op !! j = Some o → o.1 ≠ observed → st_base o.2 = ∅ ∧ st_gone o.2 = ∅).
Proof using Type.
  intros C Hop Hlive Eobs Edes. rewrite Eobs, Edes. setoid_rewrite Hlive.
  assert (Hcase : ∀ j o', on_store (ws_stores W) id op !! j = Some o' → ∃ o, ws_stores W !! j = Some o ∧ o'.1 = o.1 ∧
    st_base o'.2 = st_base o.2 ∧
    (o.1 ≠ observed → st_gone o.2 = ∅ → st_gone o'.2 = ∅) ∧
    ∀ e, is_Some (st_gone o'.2 !! e) → is_Some (st_gone o.2 !! e) ∨ is_Some (sp_live (ws_table W) !! e)).
  { intros j o' Ho'. rewrite on_store_lookup in Ho'. destruct (ws_stores W !! j) as [o|]; [|done].
    injection Ho' as <-. exists o. split; [done|]. destruct (decide (j = id)) as [->|]; [|by split_and!; auto].
    destruct (spec_op_values o op) as [E1 E2]; [by destruct op|]. split_and!; [done|done| |].
    - intros Ho Hg. destruct o as [obs σ], op as [e v|e| | | |]; try done; cbn in *; destruct (st_live σ !! e); cbn; try done.
      + by rewrite Hg, delete_empty.
      + by rewrite decide_False.
    - intros e'. destruct o as [obs σ], op as [e v|e| | | |]; try done; cbn in *; destruct (st_live σ !! e); cbn; auto.
      + intros [x Hx]. apply lookup_delete_Some in Hx as [_ Hx]. left. by exists x.
      + destruct (decide (obs = observed)); [|auto]. intros [x Hx].
        apply lookup_insert_Some in Hx as [[<- _]|[_ Hx]]; [by right|left; by exists x]. }
  split_and!.
  - intros j o' e Ho' Hx. destruct (Hcase j o' Ho') as (o & Ho & E1 & E2 & _ & Hg). rewrite E2 in Hx.
    destruct Hx as [Hx|Hx]; [by apply (co_window _ _ _ C j o e Ho); left|].
    destruct (Hg e Hx) as [Hx'|Hx']; [by apply (co_window _ _ _ C j o e Ho); right|by left].
  - intros j o' Ho' E. destruct (Hcase j o' Ho') as (o & Ho & E1 & _). eapply (co_observing _ _ _ C); [done|congruence].
  - intros j o' Ho' E. destruct (Hcase j o' Ho') as (o & Ho & E1 & E2 & Hgg & _). rewrite E1 in E.
    destruct (co_quiet _ _ _ C j o Ho E) as [Hb Hg]. split; [congruence|by apply Hgg].
Qed.

Lemma coherent_add W e id v :
  coherent W → id < length (ws_stores W) → length v = Size id → coherent (ws_add W e id v).
Proof using Type.
  intros C Hid Hv. unfold ws_add. destruct (decide _) as [[m Hm]|]; [|done].
  set (T' := if stored W e id then _ else _).
  assert (HT : ∃ m', length m' = words ∧ mask_bound m' ∧ sp_live T' = <[e := m']> (sp_live (ws_table W)) ∧
    sp_observing T' = sp_observing (ws_table W) ∧ sp_despawned T' = sp_despawned (ws_table W) ∧
    ∀ j, mask_has m' j = mask_has m j || bool_decide (j = id)).
  { unfold T'. destruct (stored W e id) eqn:Es.
    - destruct (co_mask_ok _ _ _ C e m Hm) as [Hl Hb]. exists m. rewrite insert_id by done. split_and!; try done.
      intros j. case_bool_decide as E; [|by rewrite orb_false_r]. rewrite orb_true_r, E.
      apply (co_masks _ _ _ C e m id Hm). by apply stored_true.
    - destruct (remask_spec W e m id maskSet orb C Hm Hid) as (m' & _ & -> & ? & ? & ?); [intros m1; exact (maskSet_spec m1 id)|].
      by exists m'. }
  destruct HT as (m' & Hl' & Hb' & EL & Eobs & Edes & Hbits).
  assert (Hlive : ∀ e', is_Some (sp_live T' !! e') ↔ is_Some (sp_live (ws_table W) !! e')).
  { intros e'. rewrite EL. apply (masked_live (ws_table W) e m' e'). by exists m. }
  destruct (window_kept W T' id (OpSet e v) C) as (Hwin & Hobs & Hq); [by exists m|done|done|done|].
  split; cbn [ws_table ws_stores]; try done.
  - intros e' m0 j He'. setoid_rewrite has_value_set; [|done]. rewrite EL in He'.
    apply lookup_insert_Some in He' as [[<- <-]|[Hne He']].
    + rewrite Hbits, orb_true_iff, bool_decide_eq_true, (co_masks _ _ _ C e m j Hm). split.
      * intros [[v' Hv']| ->]; [|exists v; by left]. destruct (decide (j = id)) as [->|]; [exists v; by left|].
        exists v'. right. split; [|done]. by intros [? _].
      * intros (v' & [[[-> _] _]|[_ Hv']]); [by right|left; by exists v'].
    + rewrite (co_masks _ _ _ C e' m0 j He'). split.
      * intros [v' Hv']. exists v'. right. split; [|done]. by intros [_ ->].
      * intros (v' & [[[_ ->] _]|[_ Hv']]); [done|by exists v'].
  - intros e' j v'. rewrite has_value_set, Hlive by done. intros [[[_ ->] _]|[_ Hv']]; [by exists m|by eapply (co_alive _ _ _ C)].
  - intros e' j v'. rewrite has_value_set by done. intros [[[-> _] ->]|[_ Hv']]; [done|by eapply (co_sizes _ _ _ C)].
  - intros e' m0. rewrite EL. intros He'. apply lookup_insert_Some in He' as [[<- <-]|[Hne He']]; [done|by eapply (co_mask_ok _ _ _ C)].
  - rewrite length_on_store. apply C.
Qed.

Lemma coherent_write W e id v :
  coherent W → id < length (ws_stores W) → length v = Size id → coherent (ws_write W e id v).
Proof using Type.
  intros C Hid Hv. unfold ws_write. destruct (stored W e id) eqn:Es; [|done].
  pose proof (coherent_add W e id v C Hid Hv) as C'. unfold ws_add in C'. rewrite Es in C'.
  rewrite decide_True in C'; [done|]. apply stored_true in Es as [v' Hv']. by eapply (co_alive _ _ _ C).
Qed.

Lemma coherent_remove W e id : coherent W → id < length (ws_stores W) → coherent (ws_remove W e id).
Proof using Type.
  intros C Hid. unfold ws_remove. destruct (stored W e id) eqn:Es; [|done].
  apply stored_true in Es as [v0 Hv0]. destruct (co_alive _ _ _ C e id v0 Hv0) as [m Hm].
  destruct (remask_spec W e m id maskUnset (λ a b, a && negb b) C Hm Hid) as (m' & _ & -> & Hl' & Hb' & Hbits); [intros m1; exact (maskUnset_spec m1 id)|].
  assert (Hlive : ∀ e', is_Some (sp_live (sp_masked (ws_table W) e m') !! e') ↔ is_Some (sp_live (ws_table W) !! e')).
  { intros e'. apply (masked_live (ws_table W) e m' e'). by exists m. }
  destruct (window_kept W (sp_masked (ws_table W) e m') id (OpRemove e) C) as (Hwin & Hobs & Hq); [by exists m|done|done|done|].
  split; cbn [ws_table ws_stores]; try done.
  - intros e' m0 j He'. setoid_rewrite has_value_remove. cbn [sp_masked sp_live] in He'. apply lookup_insert_Some in He' as [[<- <-]|[Hne He']].
    + rewrite Hbits, andb_true_iff, negb_true_iff, bool_decide_eq_false, (co_masks _ _ _ C e m j Hm). naive_solver.
    + rewrite (co_masks _ _ _ C e' m0 j He'). naive_solver.
  - intros e' j v'. rewrite has_value_remove, Hlive. intros [_ Hv']. by eapply (co_alive _ _ _ C).
  - intros e' j v'. rewrite has_value_remove. intros [_ Hv']. by eapply (co_sizes _ _ _ C).
  - intros e' m0 He'. cbn [sp_masked sp_live] in He'. apply lookup_insert_Some in He' as [[<- <-]|[Hne He']]; [done|by eapply (co_mask_ok _ _ _ C)].
  - rewrite length_on_store. apply C.
Qed.

Lemma coherent_addAll W e ids values :
  coherent W → (∀ id, id ∈ ids → id < length (ws_stores W)) → length values = sum_list_with Size ids →
  coherent (ws_addAll Size W e ids values).
Proof using Type.
  revert W values. induction ids as [|id ids IH]; intros W values C Hids Hl; [done|]. cbn [ws_addAll sum_list_with] in *.
  apply IH.
  - apply coherent_add; [done|apply Hids; set_solver|]. rewrite length_take. lia.
  - intros j Hj. unfold ws_add. destruct (decide _); cbn [ws_stores]; rewrite ?length_on_store; apply Hids; set_solver.
  - rewrite length_drop. lia.
Qed.

(** An entity comes alive, with no components. *)
Lemma coherent_born W T' :
  coherent W → sp_observing T' = sp_observing (ws_table W) → sp_despawned T' = sp_despawned (ws_table W) →
  (sp_live T' = sp_live (ws_table W) ∨
   ∃ e, sp_live (ws_table W) !! e = None ∧ sp_live T' = <[e := noMask words]> (sp_live (ws_table W))) →
  coherent (mkWorldSpec T' (ws_stores W)).
Proof using Type.
  intros C Eobs Edes [EL|(e & Hn & EL)].
  - destruct C as [C1 C2 C3 C4 C5 C6 C7 C8]. split; cbn [ws_table ws_stores]; rewrite ?EL, ?Eobs, ?Edes; done.
  - assert (Hlive : ∀ e', is_Some (sp_live (ws_table W) !! e') → is_Some (sp_live T' !! e')).
    { intros e' He'. rewrite EL. destruct (decide (e' = e)) as [->|]; [rewrite lookup_insert_eq; by eexists|by rewrite lookup_insert_ne]. }
    split; cbn [ws_table ws_stores]; rewrite ?Eobs, ?Edes.
    + intros e' m id. rewrite EL. intros He'. apply lookup_insert_Some in He' as [[<- <-]|[Hne He']]; [|by apply (co_masks _ _ _ C)].
      rewrite noMask_has. split; [done|]. intros [v Hv]. destruct (co_alive _ _ _ C e id v Hv) as [? ?]. congruence.
    + intros e' id v Hv. apply Hlive. by eapply (co_alive _ _ _ C).
    + apply (co_sizes _ _ _ C).
    + intros e' m. rewrite EL. intros He'. apply lookup_insert_Some in He' as [[<- <-]|[Hne He']]; [|by eapply (co_mask_ok _ _ _ C)].
      split; [apply length_noMask|apply noMask_bound].
    + intros id o e' Ho Hx. destruct (co_window _ _ _ C id o e' Ho Hx) as [?|?]; [left; auto|by right].
    + apply (co_observing _ _ _ C).
    + apply (co_quiet _ _ _ C).
    + apply C.
Qed.

(** It ends, with all of them. *)
Lemma coherent_ended W e :
  coherent W → is_Some (sp_live (ws_table W) !! e) → coherent (ws_every W (sp_ended (ws_table W) e) (OpRemove e)).
Proof using Type.
  intros C He.
  assert (Hlook : ∀ j o', ws_stores (ws_every W (sp_ended (ws_table W) e) (OpRemove e)) !! j = Some o' →
    on_store (ws_stores W) j (OpRemove e) !! j = Some o').
  { intros j o'. unfold ws_every. cbn [ws_stores]. rewrite on_store_lookup, decide_True by done. by rewrite list_lookup_fmap. }
  pose proof (λ j, window_kept W (ws_table W) j (OpRemove e) C He (λ e', iff_refl _) eq_refl eq_refl) as Hk. split.
  - intros e' m j. unfold ws_every. cbn [ws_table sp_ended sp_live]. intros [Hn He']%lookup_delete_Some.
    setoid_rewrite has_value_every. rewrite (co_masks _ _ _ C e' m j He'). naive_solver.
  - intros e' j v. rewrite has_value_every. intros [Hn Hv]. cbn. rewrite lookup_delete_ne by done. by eapply (co_alive _ _ _ C).
  - intros e' j v. rewrite has_value_every. intros [_ Hv]. by eapply (co_sizes _ _ _ C).
  - intros e' m. cbn. intros [Hn He']%lookup_delete_Some. by eapply (co_mask_ok _ _ _ C).
  - intros j o e' Ho%Hlook Hx. destruct (Hk j) as (Hwin & _). cbn [ws_table ws_every sp_ended sp_live sp_observing sp_despawned].
    destruct (sp_observing (ws_table W)) eqn:Eo.
    + destruct (decide (e' = e)) as [->|Hn]; [right; split; [done|set_solver]|]. rewrite lookup_delete_ne by done.
      destruct (Hwin j o e' Ho Hx) as [?|[_ ?]]; [by left|right; split; [done|set_solver]].
    + exfalso. destruct (Hk j) as (_ & Hobs & Hq). destruct (decide (o.1 = observed)) as [E|E].
      * specialize (Hobs j o Ho E). congruence.
      * destruct (Hq j o Ho E) as [Eb Eg]. rewrite Eb, Eg, !lookup_empty in Hx. by destruct Hx as [[? ?]|[? ?]].
  - intros j o Ho%Hlook. destruct (Hk j) as (_ & Hobs & _). by apply (Hobs j).
  - intros j o Ho%Hlook. destruct (Hk j) as (_ & _ & Hq). by apply (Hq j).
  - unfold ws_every. cbn [ws_stores]. rewrite length_fmap. apply C.
Qed.

(** The window ends, or the first one starts. *)
Lemma coherent_reset W : coherent W → coherent (ws_reset W).
Proof using Type.
  intros C. unfold ws_reset. set (op := if sp_observing (ws_table W) then OpReset else OpStart).
  assert (Hv : ∀ e id v, has_value (ws_every W (sp_ended_window (ws_table W)) op) e id v ↔ has_value W e id v).
  { intros e id v. rewrite has_value_every. unfold op. by destruct (sp_observing _). }
  assert (Hlook : ∀ j o', ws_stores (ws_every W (sp_ended_window (ws_table W)) op) !! j = Some o' →
    ∃ o, ws_stores W !! j = Some o ∧ o' = spec_op o op).
  { intros j o'. unfold ws_every. cbn [ws_stores]. intros (o & -> & ?)%list_lookup_fmap_Some_1. by exists o. }
  split; cbn [ws_table ws_every sp_ended_window sp_live sp_observing sp_despawned].
  - intros e m id Hm. setoid_rewrite Hv. by apply (co_masks _ _ _ C).
  - intros e id v. rewrite Hv. apply (co_alive _ _ _ C).
  - intros e id v. rewrite Hv. apply (co_sizes _ _ _ C).
  - apply (co_mask_ok _ _ _ C).
  - intros j o' e Ho' Hx. left. destruct (Hlook j o' Ho') as ([obs σ] & Ho & ->). unfold op in Hx.
    destruct (sp_observing (ws_table W)) eqn:Eo; cbn in Hx.
    + destruct (decide (obs = observed)) as [E|E]; cbn in Hx.
      * rewrite lookup_empty in Hx. destruct Hx as [[v Hx]|[? ?]]; [|done]. apply (co_alive _ _ _ C e j v). by exists (obs, σ).
      * destruct (co_quiet _ _ _ C j _ Ho E) as [Eb Eg]. cbn in Eb, Eg. rewrite Eb, Eg, !lookup_empty in Hx. by destruct Hx as [[? ?]|[? ?]].
    + destruct (decide (obs = observerWaiting)) as [E|E]; cbn in Hx; [rewrite !lookup_empty in Hx; by destruct Hx as [[? ?]|[? ?]]|].
      destruct (decide (obs = observed)) as [E'|E'].
      * pose proof (co_observing _ _ _ C j _ Ho E'). congruence.
      * destruct (co_quiet _ _ _ C j _ Ho E') as [Eb Eg]. cbn in Eb, Eg. rewrite Eb, Eg, !lookup_empty in Hx. by destruct Hx as [[? ?]|[? ?]].
  - done.
  - intros j o' Ho' Hn. destruct (Hlook j o' Ho') as ([obs σ] & Ho & ->). unfold op in *.
    destruct (sp_observing (ws_table W)) eqn:Eo; cbn in *; destruct (decide _); cbn in *; try done;
      by apply (co_quiet _ _ _ C j (obs, σ) Ho).
  - unfold ws_every. cbn [ws_stores]. rewrite length_fmap. apply C.
Qed.

(** An observer is registered. *)
Lemma coherent_observe W id : coherent W → coherent (ws_observe W id).
Proof using Type.
  intros C.
  assert (Hlook : ∀ j o', ws_stores (ws_observe W id) !! j = Some o' → ∃ o, ws_stores W !! j = Some o ∧ o'.2 = o.2 ∧
    (o'.1 = observed ↔ o.1 = observed)).
  { intros j o'. unfold ws_observe. cbn [ws_stores]. rewrite on_store_lookup. destruct (ws_stores W !! j) as [[obs σ]|]; [|done].
    intros [= <-]. exists (obs, σ). split; [done|]. destruct (decide (j = id)); [|done]. cbn. split; [done|].
    destruct (decide (obs = unobserved)) as [->|]; done. }
  assert (Hv : ∀ e j v, has_value (ws_observe W id) e j v ↔ has_value W e j v).
  { intros e j v. unfold has_value, ws_observe. cbn [ws_stores]. rewrite on_store_lookup.
    destruct (ws_stores W !! j) as [o|]; [|done]. destruct (decide (j = id)); [|done]. cbn [fmap option_fmap option_map].
    split; intros (o' & [= <-] & Hv); (eexists; split; [done|]); by rewrite ?spec_op_live in *. }
  split; cbn [ws_table ws_observe].
  - intros e m j Hm. setoid_rewrite Hv. by apply (co_masks _ _ _ C).
  - intros e j v. rewrite Hv. apply (co_alive _ _ _ C).
  - intros e j v. rewrite Hv. apply (co_sizes _ _ _ C).
  - apply (co_mask_ok _ _ _ C).
  - intros j o' e Ho'. destruct (Hlook j o' Ho') as (o & Ho & -> & _). by apply (co_window _ _ _ C j o).
  - intros j o' Ho' E. destruct (Hlook j o' Ho') as (o & Ho & _ & Eo). apply (co_observing _ _ _ C j o Ho). by apply Eo.
  - intros j o' Ho' E. destruct (Hlook j o' Ho') as (o & Ho & -> & Eo). apply (co_quiet _ _ _ C j o Ho). by rewrite <- Eo.
  - unfold ws_observe. cbn [ws_stores]. rewrite length_on_store. apply C.
Qed.
End coherent.
