(* ===== verification/WorldRefines.v ===== *)
(** * Worlds refine their contract

    One operation of a world at a time, against [world_step]. *)

From S2P Require Import Prelude Words Array Entity IndexTable Mask EntityTable EntityLedger EntityTableSpec EntitySim EntityRefines EntityHistory.
From S2P Require Import Store StoreRepr StoreSpec StoreRefines StoreHistory World WorldSpec WorldCoherent.

Section refines.
Context (words : nat) (first last : N) (Size : nat → nat).
Context {R B : Type} `{WindowedLaws R} `{ShrinkerLaws B}.

Implicit Types (w : worldResource R B) (W : worldSpec) (T : tableSpec).

#[local] Abbreviation coherent := (coherent words Size).
#[local] Abbreviation sim := (sim words first last).
#[local] Abbreviation store_sim id := (store_sim (H := zero_of Size id)).

(** What answers a table operation with, as a world's. *)
Definition run_world w (op : world_op) : option (worldResource R B * table_answer) :=
  match op with
  | WTable op => '(t, a) ← EntitySim.run_op words (entities w) op; Some (with_entities w t, a)
  | WDespawn e => '(w, b) ← despawn words Size w e; Some (w, Answered b)
  | WAdd e id v => '(w, b) ← Add Size w e id v; Some (w, Answered b)
  | WWrite e id v => '(w, b) ← Write w e id v; Some (w, Answered b)
  | WRemove e id => '(w, b) ← remove Size w e id; Some (w, Answered b)
  | WSpawnRaw m values => '(w, e) ← SpawnRaw words Size w m values; Some (w, Handed e)
  | WCreateAtRaw e m values => '(w, err) ← CreateAtRaw words Size w e m values; Some (w, Placed err)
  | WObserve id => w ← observe w id; Some (w, Done)
  | WReset => w ← resetObservation words Size w; Some (w, Done)
  | WShrink => w ← shrink words Size w; Some (w, Done)
  end.

(** A store implements its promise; [k] bounds its rows. *)
Definition row_sim (k id : nat) (s : storeResource bytes) (o : observationState * storeSpec bytes) : Prop :=
  o.1 = observation s ∧ store_sim id s o.2 ∧ sized s = negb (Size id =? 0) ∧ ALen (owners s) ≤ k ∧ indexes_apart o.2.

Definition rows_sim (k : nat) (l : list (storeResource bytes)) (Σ : list (observationState * storeSpec bytes)) : Prop :=
  length l = length Σ ∧ ∀ id s, l !! id = Some s → ∃ o, Σ !! id = Some o ∧ row_sim k id s o.

Record world_sim (k : nat) w W : Prop := {
  wm_table : ∃ F D, sim k k (entities w) (ws_table W) F D;
  wm_rows : rows_sim k (stores w) (ws_stores W);
  wm_coherent : coherent W;
  wm_refs : Forall refs_ok (windowedRefs w);
  wm_buffers : Forall buffer_ok (recorders w)
}.

(** ** Stores *)

Lemma row_sim_mono k k' id s o : k ≤ k' → row_sim k id s o → row_sim k' id s o.
Proof using Type. intros Hk (? & ? & ? & ? & ?). split_and!; try done. lia. Qed.

Lemma rows_sim_mono k k' l Σ : k ≤ k' → rows_sim k l Σ → rows_sim k' l Σ.
Proof using Type.
  intros Hk [Hl Hr]. split; [done|]. intros id s Hs. destruct (Hr id s Hs) as (o & Ho & Hrow). exists o. split; [done|].
  by eapply row_sim_mono.
Qed.

Lemma rows_lookup k l Σ id : rows_sim k l Σ → id < length Σ → ∃ s o, l !! id = Some s ∧ Σ !! id = Some o ∧ row_sim k id s o.
Proof using Type.
  intros [Hl Hr] Hid. rewrite <- Hl in Hid. destruct (lookup_lt_is_Some_2 l id Hid) as [s Hs].
  destruct (Hr id s Hs) as (o & Ho & Hrow). by exists s, o.
Qed.

(** One store of the list is changed as its promise is. *)
Lemma rows_sim_insert k l Σ id s' o op :
  rows_sim k l Σ → Σ !! id = Some o → row_sim k id s' (spec_op o op) → rows_sim k (<[id := s']> l) (on_store Σ id op).
Proof using Type.
  intros [Hl Hr] Ho Hs'. split; [by rewrite length_insert, length_on_store|]. intros j s Hs. rewrite on_store_lookup.
  destruct (decide (j = id)) as [->|Hn].
  - rewrite list_lookup_insert_eq in Hs by (rewrite Hl; by eapply lookup_lt_Some). injection Hs as <-. rewrite Ho. by eexists.
  - rewrite list_lookup_insert_ne in Hs by done. destruct (Hr j s Hs) as (o' & -> & Hrow). by exists o'.
Qed.

Lemma own_of_table c k t T F D e e' :
  sim c k t T F D → is_Some (sp_live T !! e) → is_Some (sp_live T !! e') ∨ index e' ∈ sp_despawned T →
  index e' = index e → e' = e.
Proof using Type.
  intros HS [m Hm] He' Ei. apply (sm_live _ _ _ _ _ _ _ _ _ HS) in Hm as (Hb & Hg & El & _). destruct He' as [[m' Hm']|Hd].
  - apply (sm_live _ _ _ _ _ _ _ _ _ HS) in Hm' as (Hb' & Hg' & El' & _). apply entity_eq; [done|done|done|congruence].
  - apply (sm_despawned _ _ _ _ _ _ _ _ _ HS) in Hd.
    destruct (lg_despawned _ _ _ _ _ _ _ _ _ _ (sm_ledger _ _ _ _ _ _ _ _ _ HS)) as [_ Hz]. specialize (Hz _ Hd).
    rewrite Ei, El in Hz. done.
Qed.

(** A store knows nothing else at the index of a live entity. *)
Lemma world_own c k t F D W id o e :
  sim c k t (ws_table W) F D → coherent W → is_Some (sp_live (ws_table W) !! e) → ws_stores W !! id = Some o → index_of_own o.2 e.
Proof using Type.
  intros HS C He Ho e' Hk. eapply own_of_table; [exact HS|done|]. destruct Hk as [[v Hv]|Hk].
  - left. eapply (co_alive _ _ _ C). by exists o.
  - destruct (co_window _ _ _ C id o e' Ho Hk) as [?|[_ ?]]; [by left|by right].
Qed.

Lemma world_alive k w W e : world_sim k w W → (e < 2 ^ 64)%N → alive (entities w) e = bool_decide (is_Some (sp_live (ws_table W) !! e)).
Proof using Type. intros HW He. destruct (wm_table _ _ _ HW) as (F & D & HS). by eapply alive_spec. Qed.

(** [fits] is of bytes as many as the component has. *)
Lemma fits_bytes id (s : storeResource bytes) (v : bytes) :
  sized s = negb (Size id =? 0) → length v = Size id → @fits _ (zero_of Size id) s v.
Proof using Type.
  intros Es Hv Ez. rewrite Es in Ez. apply negb_false_iff, Nat.eqb_eq in Ez. rewrite Ez in Hv.
  unfold zero_value, zero_of. rewrite Ez. by apply nil_length_inv.
Qed.

(** ** Giving a value *)

Lemma add_sim k w W e id v :
  world_sim k w W → (e < 2 ^ 64)%N → id < length (ws_stores W) → length v = Size id → (N.of_nat (S k) < 2 ^ 32 - 1)%N →
  ∃ w', Add Size w e id v = Some (w', bool_decide (is_Some (sp_live (ws_table W) !! e))) ∧
    world_sim (S k) w' (ws_add W e id v).
Proof using Type.
  intros HW He Hid Hv Hk. pose proof HW as [(F & D & HS) Hrows C Hrefs Hbufs].
  destruct (rows_lookup _ _ _ _ Hrows Hid) as (s & [obs σ] & Es & Eo & Hobs & Hsim & Hsz & Hlen & Hap). cbn in Hobs, Hsim. subst obs.
  unfold Add, put. rewrite Es. cbn [mbind option_bind]. rewrite (world_alive _ _ _ _ HW He).
  pose proof (coherent_add words Size W e id v C Hid Hv) as C'. unfold ws_add in *.
  case_bool_decide as Hl; cbn [negb mbind option_bind].
  2:{ rewrite decide_False in * by done. exists w. split; [done|]. split; try done; [|by eapply rows_sim_mono; [|done]; lia].
      exists F, D. eapply sim_mono; [| |exact HS]; lia. }
  rewrite decide_True in * by done. pose proof (world_own _ _ _ _ _ _ _ _ _ HS C Hl Eo) as Hown.
  destruct (sim_op (H := zero_of Size id) s σ (OpSet e v) k Hsim Hlen) as (s2 & E2 & Hsim2 & Hobs2 & Hlen2); [lia| |].
  { split; [by apply own_supersedes|by apply (fits_bytes id)]. }
  pose proof (sized_op _ _ _ E2) as Hsz2. cbn [StoreHistory.run_op] in E2. unfold set_value in E2.
  pose proof (sim_write (H := zero_of Size id) s σ e Hsim) as Hw.
  assert (Hrow : row_sim (S k) id s2 (spec_op (observation s, σ) (OpSet e v))) by (split_and!; [done|done|congruence|done|by apply indexes_apart_op]).
  assert (Hstored : stored W e id = bool_decide (is_Some (st_live σ !! e))) by (unfold stored; by rewrite Eo).
  assert (Hrows' : rows_sim (S k) (<[id := s2]> (stores w)) (on_store (ws_stores W) id (OpSet e v))).
  { eapply rows_sim_insert; [by eapply rows_sim_mono; [|done]; lia|done|done]. }
  pose proof (lookup_lt_Some _ _ _ Es) as Hlt. rewrite Hstored in C' |- *.
  destruct (st_live σ !! e) as [v0|].
  - destruct Hw as (s1 & r & Ew & _). rewrite Ew in E2 |- *. cbn [mbind option_bind] in E2 |- *.
    rewrite bool_decide_eq_true_2 in C' |- * by done. unfold write_row. cbn [stores with_store with_stores].
    rewrite list_lookup_insert_eq by done. cbn [mbind option_bind]. rewrite E2. cbn [mbind option_bind].
    eexists. split; [done|]. split; cbn [entities stores windowedRefs recorders with_store with_stores ws_table ws_stores]; try done.
    + exists F, D. eapply sim_mono; [| |exact HS]; lia.
    + by rewrite list_insert_insert_eq.
  - rewrite Hw in E2 |- *. cbn [mbind option_bind] in E2 |- *. apply bind_Some in E2 as ([s1 r] & Ea & E2).
    rewrite Ea. cbn [mbind option_bind]. rewrite bool_decide_eq_false_2 in C' |- * by (by intros [? ?]).
    destruct (change_mask_spec words first last k k (entities w) (ws_table W) F D e id maskSet) as (t' & m & m' & Et & Hm & Hf & HS');
      [|done|done|pose proof (co_count _ _ _ C); unfold maskBits in *; lia|].
    { intros m Hi Hb. destruct (maskSet_spec m id Hi Hb) as (m' & ? & ? & ? & _). by exists m'. }
    unfold setComponent. rewrite Et. cbn [mbind option_bind]. unfold write_row. cbn [stores with_store with_stores with_entities].
    rewrite list_lookup_insert_eq by done. cbn [mbind option_bind]. rewrite E2. cbn [mbind option_bind].
    assert (Er : remask (ws_table W) e (λ m, maskSet m id) = sp_masked (ws_table W) e m').
    { unfold remask. rewrite Hm. cbn [mbind option_bind]. by rewrite Hf. }
    rewrite Er in C' |- *.
    eexists. split; [done|]. split; cbn [entities stores windowedRefs recorders with_store with_stores with_entities ws_table ws_stores]; try done.
    + exists F, D. eapply sim_mono; [| |exact HS']; lia.
    + by rewrite list_insert_insert_eq.
Qed.

Lemma world_sim_mono k k' w W : k ≤ k' → world_sim k w W → world_sim k' w W.
Proof using Type.
  intros Hk [(F & D & HS) Hrows C Hrefs Hbufs]. split; try done; [|by eapply rows_sim_mono].
  exists F, D. by eapply sim_mono.
Qed.

Lemma write_sim k w W e id v :
  world_sim k w W → id < length (ws_stores W) → length v = Size id → (N.of_nat (S k) < 2 ^ 32 - 1)%N →
  ∃ w', Write w e id v = Some (w', stored W e id) ∧ world_sim (S k) w' (ws_write W e id v).
Proof using Type.
  intros HW Hid Hv Hk. pose proof HW as [(F & D & HS) Hrows C Hrefs Hbufs].
  destruct (rows_lookup _ _ _ _ Hrows Hid) as (s & [obs σ] & Es & Eo & Hobs & Hsim & Hsz & Hlen & Hap). cbn in Hobs, Hsim. subst obs.
  pose proof (coherent_write words Size W e id v C Hid Hv) as C'. unfold ws_write in *.
  assert (Hstored : stored W e id = bool_decide (is_Some (st_live σ !! e))) by (unfold stored; by rewrite Eo).
  rewrite Hstored in C' |- *. pose proof (lookup_lt_Some _ _ _ Es) as Hlt. pose proof (sim_write (H := zero_of Size id) s σ e Hsim) as Hw.
  unfold Write. rewrite Es. cbn [mbind option_bind]. case_bool_decide as Hl.
  - destruct Hl as [v0 Hv0]. rewrite Hv0 in Hw.
    destruct Hw as (s1 & r & -> & _ & Hwr & _ & O1 & Z1 & _ & A1). cbn [mbind option_bind].
    destruct (Hwr v) as (s2 & E2 & Hsim2 & O2 & Z2 & _ & A2); [apply fits_bytes; [congruence|done]|].
    unfold write_row. cbn [stores with_store with_stores]. rewrite list_lookup_insert_eq by done. cbn [mbind option_bind].
    rewrite E2. cbn [mbind option_bind]. eexists. split; [done|].
    split; cbn [entities stores windowedRefs recorders with_store with_stores ws_table ws_stores]; try done.
    + exists F, D. eapply sim_mono; [| |exact HS]; lia.
    + rewrite list_insert_insert_eq. eapply rows_sim_insert; [by eapply rows_sim_mono; [|done]; lia|done|].
      split_and!; [cbn; congruence|cbn [spec_op snd]; by rewrite Hv0|congruence|lia|].
      apply indexes_apart_op; [done|]. intros e' He' Ei. apply Hap; [done|left; by eexists|done].
  - apply eq_None_not_Some in Hl. rewrite Hl in Hw. rewrite Hw. cbn [mbind option_bind]. eexists. split; [done|].
    apply (world_sim_mono k); [lia|]. split; try done; [by exists F, D|]. cbn [stores with_store with_stores].
    by rewrite list_insert_id.
Qed.

(** ** Taking a value *)

Lemma remove_sim k w W e id :
  world_sim k w W → id < length (ws_stores W) → (N.of_nat (S k) < 2 ^ 32 - 1)%N →
  ∃ w', remove Size w e id = Some (w', stored W e id) ∧ world_sim k w' (ws_remove W e id).
Proof using Type.
  intros HW Hid Hk. pose proof HW as [(F & D & HS) Hrows C Hrefs Hbufs].
  destruct (rows_lookup _ _ _ _ Hrows Hid) as (s & [obs σ] & Es & Eo & Hobs & Hsim & Hsz & Hlen & Hap). cbn in Hobs, Hsim. subst obs.
  pose proof (coherent_remove words Size W e id C Hid) as C'. unfold ws_remove in *.
  assert (Hstored : stored W e id = bool_decide (is_Some (st_live σ !! e))) by (unfold stored; by rewrite Eo).
  rewrite Hstored in C' |- *. unfold remove. rewrite Es. cbn [mbind option_bind]. case_bool_decide as Hl.
  - pose proof Hl as [v0 Hv0].
    destruct (sim_remove (H := zero_of Size id) s σ e v0 Hsim Hv0) as (s1 & r & -> & Er & Hsim1 & O1 & _ & A1).
    cbn [mbind option_bind negb]. rewrite Er. cbn [mbind option_bind].
    assert (Hlive : is_Some (sp_live (ws_table W) !! e)) by (eapply (co_alive _ _ _ C); by exists (observation s, σ)).
    destruct (change_mask_spec words first last k k (entities w) (ws_table W) F D e id maskUnset) as (t' & m & m' & Et & Hm & Hf & HS');
      [|done|done|pose proof (co_count _ _ _ C); unfold maskBits in *; lia|].
    { intros m Hi Hb. destruct (maskUnset_spec m id Hi Hb) as (m' & ? & ? & ? & _). by exists m'. }
    unfold unsetComponent. rewrite Et. cbn [mbind option_bind].
    assert (Erm : remask (ws_table W) e (λ m, maskUnset m id) = sp_masked (ws_table W) e m').
    { unfold remask. rewrite Hm. cbn [mbind option_bind]. by rewrite Hf. }
    rewrite Erm in C' |- *. eexists. split; [done|].
    split; cbn [entities stores windowedRefs recorders with_store with_stores with_entities ws_table ws_stores]; try done; [by exists F, D|].
    eapply rows_sim_insert; [done|done|]. split_and!; [cbn; congruence|cbn [spec_op snd]; by rewrite Hv0|by rewrite (sized_remove _ _ _ _ Er)|lia|by apply indexes_apart_op].
  - apply eq_None_not_Some in Hl. pose proof (sim_get (H := zero_of Size id) s σ e Hsim) as Hg. rewrite Hl in Hg.
    destruct Hg as (_ & r & ->). cbn [mbind option_bind negb]. by exists w.
Qed.

(** ** Several stores *)

(** A step of a loop that changes one store of the world. *)
Definition steps_store (f : nat → storeResource bytes → option (storeResource bytes)) (body : nat → worldResource R B → option (worldResource R B)) : Prop :=
  ∀ id w, body id w = s ← stores w !! id; s ← f id s; Some (with_store w id s).

Lemma stores_loop f body ids w (Q : nat → storeResource bytes → storeResource bytes → Prop) :
  steps_store f body → NoDup ids →
  (∀ id, id ∈ ids → ∃ s s', stores w !! id = Some s ∧ f id s = Some s' ∧ Q id s s') →
  ∃ l, for_each ids body w = Some (with_stores w l) ∧ length l = length (stores w) ∧
    ∀ id s, stores w !! id = Some s → ∃ s', l !! id = Some s' ∧ if decide (id ∈ ids) then Q id s s' else s' = s.
Proof using Type.
  clear words first last Size. intros Hbody Hnd Hids.
  destruct (for_each_invariant (λ done w', ∃ l, w' = with_stores w l ∧ length l = length (stores w) ∧
    ∀ id s, stores w !! id = Some s → ∃ s', l !! id = Some s' ∧ if decide (id ∈ done) then Q id s s' else s' = s)
    body ids w) as (w' & E & l & -> & Hl & Hq).
  - exists (stores w). split; [by destruct w|]. split; [done|]. intros id s Hs. exists s. split; [done|]. rewrite decide_False; [done|]. set_solver.
  - intros d id rest w' Eids (l & -> & Hl & Hq). rewrite Hbody. cbn [stores with_stores].
    destruct (Hids id) as (s & s' & Hs & Hf & HQ); [rewrite Eids; set_solver|].
    assert (Hnotin : id ∉ d). { rewrite Eids in Hnd. apply NoDup_app in Hnd as (_ & Hd & _). intros Hin. apply (Hd id Hin). by left. }
    destruct (Hq id s Hs) as (s0 & Hs0 & Hc). rewrite decide_False in Hc by done. subst s0. rewrite Hs0. cbn [mbind option_bind].
    rewrite Hf. cbn [mbind option_bind]. eexists. split; [done|]. exists (<[id := s']> l). split; [done|].
    split; [by rewrite length_insert|]. intros j sj Hj. destruct (decide (j = id)) as [->|Hne].
    + exists s'. split; [apply list_lookup_insert_eq; by eapply lookup_lt_Some|]. rewrite decide_True by set_solver. congruence.
    + rewrite list_lookup_insert_ne by done. destruct (Hq j sj Hj) as (sj' & Hj' & Hc). exists sj'. split; [done|].
      destruct (decide (j ∈ d)); [rewrite decide_True by set_solver; done|rewrite decide_False by set_solver; done].
  - by exists l.
Qed.

Lemma for_range_each {St} (body : nat → St → option St) n i s : for_from i n body s = for_each (seq i n) body s.
Proof using Type. revert i s. induction n as [|n IH]; intros i s; [done|]. cbn. destruct (body i s); [apply IH|done]. Qed.

(** A loop over stores that does to each what its promise says. *)
Lemma rows_loop k k' f body ids w Σ op :
  steps_store f body → NoDup ids → rows_sim k (stores w) Σ → k ≤ k' → (∀ id, id ∈ ids → id < length Σ) →
  (∀ id s o, id ∈ ids → stores w !! id = Some s → Σ !! id = Some o → row_sim k id s o →
     ∃ s', f id s = Some s' ∧ row_sim k' id s' (spec_op o op)) →
  (∀ id o, (id ∉ ids) → Σ !! id = Some o → spec_op o op = o) →
  ∃ l, for_each ids body w = Some (with_stores w l) ∧ rows_sim k' l ((λ o, spec_op o op) <$> Σ).
Proof using Type.
  intros Hbody Hnd Hrows Hk Hids Hf Hid.
  destruct (stores_loop f body ids w (λ id s s', ∀ o, Σ !! id = Some o → row_sim k' id s' (spec_op o op)) Hbody Hnd) as (l & E & Hl & Hq).
  - intros id Hin. destruct (rows_lookup _ _ _ _ Hrows (Hids id Hin)) as (s & o & Hs & Ho & Hrow).
    destruct (Hf id s o Hin Hs Ho Hrow) as (s' & ? & ?). exists s, s'. split_and!; try done. intros o' Ho'. congruence.
  - exists l. split; [done|]. destruct Hrows as [Hlen Hr]. split; [rewrite length_fmap; congruence|].
    intros id s' Hs'. destruct (lookup_lt_is_Some_2 (stores w) id) as [s Hs]; [rewrite <- Hl; by eapply lookup_lt_Some|].
    destruct (Hr id s Hs) as (o & Ho & Hrow). destruct (Hq id s Hs) as (s0 & Hs0 & Hc). assert (s0 = s') as -> by congruence.
    exists (spec_op o op). rewrite list_lookup_fmap, Ho. split; [done|]. destruct (decide (id ∈ ids)) as [Hin|Hin].
    + by apply Hc.
    + subst s'. rewrite (Hid id o Hin Ho). by eapply row_sim_mono.
Qed.
End refines.
