(* ===== verification/WorldSteps.v ===== *)
(** * Each step of a world is one its contract allows *)

From S2P Require Import Prelude Words Array Entity IndexTable Mask EntityTable EntityLedger EntityTableSpec EntitySim EntityRefines EntityHistory.
From S2P Require Import Store StoreRepr StoreSpec StoreRefines StoreWindow StoreHistory World WorldSpec WorldCoherent WorldRefines.

Section steps.
Context (words : nat) (first last : N) (Size : nat → nat).
Context {R B : Type} `{WindowedLaws R} `{ShrinkerLaws B}.

Implicit Types (w : worldResource R B) (W : worldSpec) (T : tableSpec).

#[local] Abbreviation sim := (sim words first last).
#[local] Abbreviation world_sim := (world_sim words first last Size).
#[local] Abbreviation world_step := (world_step words first last Size).
#[local] Abbreviation run_world := (run_world words Size).

(** ** Entities *)

(** Operations that concern no component leave the stores as they are. *)
Lemma born_step k t T F D op answer T' :
  sim k k t T F D → structural op = true → spec_step words first last T op answer T' →
  sp_observing T' = sp_observing T ∧ sp_despawned T' = sp_despawned T ∧
  (sp_live T' = sp_live T ∨ ∃ e, sp_live T !! e = None ∧ sp_live T' = <[e := noMask words]> (sp_live T)).
Proof using Type.
  clear Size. intros HS Hop Hs.
  assert (Hnot : ∀ e, (index e ∉ live_indices T) → sp_live T !! e = None).
  { intros e Hi. apply eq_None_not_Some. intros [m Hm]. apply Hi. unfold live_indices. rewrite elem_of_map. exists e. split; [done|]. by apply elem_of_dom. }
  destruct Hs as [e He|Hx|e He|Hx|e He|e He|e He|e err He|e m He|e He|e id m m' He Hm|e id m m' He Hm| |]; try done;
    try (by split_and!; [done|done|left]).
  - unfold sp_reserved. destruct (sp_observing T); split_and!; try done; by left.
  - unfold sp_reserved. destruct He as (_ & _ & Ho).
    assert (sp_live T !! e = None) by (apply Hnot; intros Hi; apply Ho; unfold occupied; set_solver).
    destruct (sp_observing T) eqn:Eo; split_and!; try done; right; by exists e.
  - split_and!; [done|done|]. right. exists e. split; [|done].
    destruct (lg_reserved _ _ _ _ _ _ _ _ _ _ (sm_ledger _ _ _ _ _ _ _ _ _ HS) e He) as ([Hz _] & _).
    apply Hnot. rewrite (live_index _ _ _ _ _ _ _ _ _ _ HS) by apply index_bound. by intros ?.
  - split_and!; [done|done|]. right. exists e. split; [|done]. apply Hnot. unfold place_answer in He. repeat case_decide; done.
Qed.

Lemma table_step_sim k w W op :
  world_sim k w W → (N.of_nat (S k) < 2 ^ 32 - 1)%N → structural op = true → op_ok words (ws_table W) op →
  ∃ t' answer T', EntitySim.run_op words (entities w) op = Some (t', answer) ∧ spec_step words first last (ws_table W) op answer T' ∧
    world_sim (S k) (with_entities w t') (mkWorldSpec T' (ws_stores W)).
Proof using Type.
  intros [(F & D & HS) Hrows C Hrefs Hbufs] Hk Hst Hop.
  destruct (sim_step words first last k (entities w) (ws_table W) F D op HS Hk Hop) as (t' & a & T' & F' & D' & E & Hs & HS').
  exists t', a, T'. split; [done|]. split; [done|]. split; cbn [entities stores windowedRefs recorders with_entities ws_table ws_stores]; try done.
  - by exists F', D'.
  - by eapply rows_sim_mono; [|done]; lia.
  - destruct (born_step _ _ _ _ _ _ _ _ HS Hst Hs) as (? & ? & ?). by apply coherent_born.
Qed.

Lemma despawn_loop k w t W m e :
  rows_sim Size k (stores w) (ws_stores W) → coherent words Size W → sp_live (ws_table W) !! e = Some m →
  ∃ l, for_each (ids_of words m) (despawn_row Size e) (with_entities w t) = Some (with_stores (with_entities w t) l) ∧
    rows_sim Size k l ((λ o, spec_op o (OpRemove e)) <$> ws_stores W).
Proof using Type.
  intros Hrows C Hm.
  assert (Hids : ∀ id, id ∈ ids_of words m ↔ ∃ v, has_value W e id v).
  { intros id. rewrite <- (co_masks _ _ _ C e m id Hm). unfold ids_of. rewrite list_elem_of_filter, elem_of_seq.
    destruct (co_mask_ok _ _ _ C e m Hm) as [Hl _]. split; [by intros [? _]|]. intros Hb. split; [done|].
    apply mask_has_bound in Hb. rewrite Hl in Hb. lia. }
  assert (Hval : ∀ id o, ws_stores W !! id = Some o → id ∈ ids_of words m ↔ is_Some (st_live o.2 !! e)).
  { intros id o Ho. rewrite Hids. unfold has_value. split.
    - intros (v & o' & Ho' & Hv). exists v. congruence.
    - intros [v Hv]. by exists v, o. }
  apply (rows_loop Size k k (λ id s, '(row, _) ← row_of s e; Store.remove (H := zero_of Size id) s e row)); [| |done|done| | |].
  - intros id w'. unfold despawn_row. destruct (stores w' !! id) as [s|]; [|done]. cbn [mbind option_bind].
    by destruct (row_of s e) as [[row ok]|].
  - apply NoDup_filter, NoDup_seq.
  - intros id Hid%Hids. destruct Hid as (v & o & Ho & _). by eapply lookup_lt_Some.
  - intros id s [obs σ] Hid Hs Ho (Eobs & Hsim & Hsz & Hlen & Hap). cbn in Eobs, Hsim. subst obs.
    apply (Hval id _ Ho) in Hid as [v Hv]. cbn in Hv.
    destruct (sim_remove (H := zero_of Size id) s σ e v Hsim Hv) as (s' & r & -> & Er & Hsim' & O' & _ & A').
    cbn [mbind option_bind]. exists s'. split; [done|].
    split_and!; [cbn; congruence|cbn [spec_op snd]; by rewrite Hv|by rewrite (sized_remove _ _ _ _ Er)|lia|by apply indexes_apart_op].
  - intros id [obs σ] Hid Ho. rewrite (Hval id _ Ho) in Hid. apply eq_None_not_Some in Hid. cbn in Hid |- *. by rewrite Hid.
Qed.

Lemma despawn_sim k w W e :
  world_sim k w W → (e < 2 ^ 64)%N → (N.of_nat (S k) < 2 ^ 32 - 1)%N →
  ∃ w' b W', despawn words Size w e = Some (w', b) ∧ world_step W (WDespawn e) (Answered b) W' ∧ world_sim (S k) w' W'.
Proof using Type.
  intros HW He Hk. pose proof HW as [(F & D & HS) Hrows C Hrefs Hbufs].
  destruct (despawn_spec words first last k k _ _ _ _ e HS He) as (t' & m & b & T' & F' & D' & E & Hs & HS').
  unfold despawn. rewrite E. cbn [mbind option_bind].
  inversion Hs as [| | | | | | | |e0 m0 Hm|e0 Hn| | | |]; subst; cbn [negb].
  - destruct (co_mask_ok _ _ _ C e m Hm) as [Hl Hb]. rewrite (maskIDs_spec m Hb), Hl. cbn [mbind option_bind].
    fold (ids_of words m). destruct (despawn_loop k w t' W m e Hrows C Hm) as (l & -> & Hrows'). cbn [mbind option_bind].
    eexists _, true, _. split; [done|]. split; [by econstructor|].
    split; cbn [entities stores windowedRefs recorders with_stores with_entities ws_table ws_stores ws_every]; try done.
    + exists F', D'. eapply sim_mono; [| |exact HS']; lia.
    + by eapply rows_sim_mono; [|done]; lia.
    + apply coherent_ended; [done|by eexists].
  - eexists _, false, W. split; [done|]. split; [by econstructor|].
    split; cbn [entities stores windowedRefs recorders with_stores with_entities]; try done.
    + exists F', D'. eapply sim_mono; [| |exact HS']; lia.
    + by eapply rows_sim_mono; [|done]; lia.
Qed.

(** ** Windows and memory *)

Lemma call_each_ok {A} (f : A → option A) (P : A → Prop) l :
  (∀ x, P x → ∃ x', f x = Some x' ∧ P x') → Forall P l → ∃ l', call_each f l = Some l' ∧ Forall P l'.
Proof using Type.
  intros Hf. induction 1 as [|x l Hx _ (l' & E & Hl')]; [by exists []|]. destruct (Hf x Hx) as (x' & Ex & Hx').
  exists (x' :: l'). split; [|by constructor]. unfold call_each in *. cbn. rewrite Ex. cbn. by rewrite E.
Qed.

(** A loop over every store. *)
Lemma every_store k k' f w Σ op :
  rows_sim Size k (stores w) Σ → k ≤ k' →
  (∀ id s o, row_sim Size k id s o → ∃ s', f id s = Some s' ∧ row_sim Size k' id s' (spec_op o op)) →
  ∃ l, for_range (length (stores w)) (each_store f) w = Some (with_stores w l) ∧ rows_sim Size k' l ((λ o, spec_op o op) <$> Σ).
Proof using Type.
  intros Hrows Hk Hf. unfold for_range. rewrite for_range_each. destruct Hrows as [Hlen Hr].
  apply (rows_loop Size k k' f); [done|apply NoDup_seq|done|done| | |].
  - intros id Hid%elem_of_seq. lia.
  - intros id s o _ _ _. apply Hf.
  - intros id o Hid Ho. exfalso. apply Hid. apply elem_of_seq. apply lookup_lt_Some in Ho. lia.
Qed.

Lemma start_row k id s o :
  row_sim Size k id s o → ∃ s', start_store Size id s = Some s' ∧ row_sim Size k id s' (spec_op o OpStart).
Proof using Type.
  destruct o as [obs σ]. intros (Eo & Hsim & Hsz & Hlen & Hap). cbn in Eo, Hsim. subst obs.
  destruct (sim_start_observation (H := zero_of Size id) s σ Hsim) as (s' & E & Hsim' & O' & _ & A'). exists s'. split; [done|].
  split_and!; [| |by rewrite (sized_startObservation (H := zero_of Size id) _ _ E)|lia|by apply indexes_apart_op]; cbn; by destruct (decide _).
Qed.

Lemma reset_row_sim k id s o :
  row_sim Size k id s o → ∃ s', reset_store Size id s = Some s' ∧ row_sim Size k id s' (spec_op o OpReset).
Proof using Type.
  destruct o as [obs σ]. intros (Eo & Hsim & Hsz & Hlen & Hap). cbn in Eo, Hsim. subst obs.
  destruct (sim_reset (H := zero_of Size id) s σ Hsim) as (s' & E & Hsim' & O' & _ & A'). exists s'. split; [done|].
  split_and!; [| |by rewrite (sized_resetObservation (H := zero_of Size id) _ _ E)|lia|by apply indexes_apart_op]; cbn; by destruct (decide _).
Qed.

Lemma shrink_row k id s o :
  row_sim Size k id s o → ∃ s', shrink_one id s = Some s' ∧ row_sim Size k id s' (spec_op o OpShrink).
Proof using Type.
  destruct o as [obs σ]. intros (Eo & Hsim & Hsz & Hlen & Hap). cbn in Eo, Hsim. subst obs.
  destruct (sim_shrink (H := zero_of Size id) s σ Hsim) as (s' & E & Hsim' & O' & _ & A'). exists s'. split; [done|].
  split_and!; [cbn; congruence|done|by rewrite (sized_shrink _ _ E)|lia|done].
Qed.

Lemma reset_sim k w W :
  world_sim k w W → (N.of_nat (S k) < 2 ^ 32 - 1)%N →
  ∃ w', resetObservation words Size w = Some w' ∧ world_sim (S k) w' (ws_reset W).
Proof using Type.
  intros [(F & D & HS) Hrows C Hrefs Hbufs] Hk. unfold resetObservation.
  pose proof (sm_observing _ _ _ _ _ _ _ _ _ HS) as Eo. pose proof (coherent_reset words Size W C) as C'.
  unfold ws_reset in *. rewrite Eo in *. destruct (observing (entities w)) eqn:Ho.
  - destruct (sim_end_window _ _ _ _ _ _ _ _ _ HS Ho Hk) as (t' & -> & F' & HS'). cbn [mbind option_bind].
    destruct (every_store k (S k) (reset_store Size) (with_entities w t') (ws_stores W) OpReset Hrows) as (l & El & Hrows'); [lia| |].
    { intros id s o Hr. destruct (reset_row_sim k id s o Hr) as (s' & ? & Hr'). exists s'. split; [done|].
      eapply row_sim_mono; [|done]. lia. }
    cbn [stores with_entities] in El |- *. rewrite El. cbn [mbind option_bind windowedRefs with_stores with_entities].
    destruct (call_each_ok refs_resetObservation refs_ok (windowedRefs w)) as (rs & -> & Hrs); [apply refs_reset_ok|done|].
    cbn [mbind option_bind]. eexists. split; [done|]. split; try done. exists F', []. eapply sim_mono; [| |exact HS']; lia.
  - destruct (sim_start _ _ _ _ _ _ _ _ _ HS Ho) as (t' & -> & F' & HS'). cbn [mbind option_bind].
    destruct (every_store k (S k) (start_store Size) (with_entities w t') (ws_stores W) OpStart Hrows) as (l & El & Hrows'); [lia| |].
    { intros id s o Hr. destruct (start_row k id s o Hr) as (s' & ? & Hr'). exists s'. split; [done|].
      eapply row_sim_mono; [|done]. lia. }
    cbn [stores with_entities] in El |- *. rewrite El. cbn [mbind option_bind windowedRefs with_stores with_entities].
    destruct (call_each_ok refs_startObservation refs_ok (windowedRefs w)) as (rs & -> & Hrs); [apply refs_start_ok|done|].
    cbn [mbind option_bind]. eexists. split; [done|]. split; try done. exists F', []. eapply sim_mono; [| |exact HS']; lia.
Qed.

Lemma shrink_world_sim k w W :
  world_sim k w W → (N.of_nat (S k) < 2 ^ 32 - 1)%N →
  ∃ w', shrink words Size w = Some w' ∧ world_sim (S k) w' (if sp_observing (ws_table W) then ws_reset W else W).
Proof using Type.
  intros HW Hk. unfold shrink. destruct (wm_table _ _ _ _ _ _ _ HW) as (F0 & D0 & HS0).
  rewrite (sm_observing _ _ _ _ _ _ _ _ _ HS0).
  assert (Hfirst : ∃ w1, (if observing (entities w) then resetObservation words Size w else Some w) = Some w1 ∧
    world_sim (S k) w1 (if observing (entities w) then ws_reset W else W)).
  { destruct (observing (entities w)); [by apply reset_sim|]. exists w. split; [done|]. by apply (world_sim_mono _ _ _ _ k); [lia|]. }
  destruct Hfirst as (w1 & -> & [(F & D & HS) Hrows C Hrefs Hbufs]). cbn [mbind option_bind].
  destruct (shrink_sim _ _ _ _ _ _ _ _ _ HS) as (t' & -> & HS'). cbn [mbind option_bind].
  set (W1 := if observing (entities w) then ws_reset W else W) in *.
  destruct (every_store (S k) (S k) shrink_one (with_entities w1 t') (ws_stores W1) OpShrink Hrows) as (l & El & Hrows');
    [lia|apply shrink_row|].
  cbn [stores with_entities] in El |- *. rewrite El. cbn [mbind option_bind windowedRefs recorders with_stores with_entities].
  destruct (call_each_ok refs_shrink refs_ok (windowedRefs w1)) as (rs & -> & Hrs); [apply refs_shrink_ok|done|]. cbn [mbind option_bind].
  destruct (call_each_ok buffer_shrink buffer_ok (recorders w1)) as (bs & -> & Hbs); [apply buffer_shrink_ok|done|]. cbn [mbind option_bind].
  eexists. split; [done|]. split; cbn [entities stores windowedRefs recorders with_stores with_entities]; try done; [by exists F, D|].
  assert (Eid : (λ o : observationState * storeSpec bytes, spec_op o OpShrink) <$> ws_stores W1 = ws_stores W1).
  { rewrite <- (list_fmap_id (ws_stores W1)) at 2. apply list_fmap_ext. intros i [obs σ] _. done. }
  by rewrite Eid in Hrows'.
Qed.

(** ** Raw values *)

Lemma Add_true w e id v w' :
  Add Size w e id v = Some (w', true) → ∃ w1 row, put Size w e id = Some (w1, Some row) ∧ write_row w1 id row v = Some w'.
Proof using Type.
  unfold Add. intros ([w1 value] & Ep & E)%bind_Some. destruct value as [row|]; [|done].
  apply bind_Some in E as (w2 & Ew & [= <-]). by exists w1, row.
Qed.

Lemma add_one_alive w e id values w' :
  Add Size w e id (take (Size id) values) = Some (w', true) → Size id ≤ length values →
  add_one Size e id (w, values) = Some (w', drop (Size id) values).
Proof using Type.
  intros (w0 & row & Ep & Ew)%Add_true Hl. unfold add_one. rewrite Ep. cbn [mbind option_bind].
  rewrite (slice_Some values 0 (Size id)) by lia. rewrite Nat.sub_0_r, drop_0. cbn [mbind option_bind]. rewrite Ew. cbn [mbind option_bind].
  rewrite slice_Some by lia. cbn [mbind option_bind]. by rewrite take_ge by (rewrite length_drop; lia).
Qed.

Lemma ws_add_live W e id v e' : coherent words Size W → id < length (ws_stores W) →
  is_Some (sp_live (ws_table W) !! e') → is_Some (sp_live (ws_table (ws_add W e id v)) !! e').
Proof using Type.
  intros C Hid He'. unfold ws_add. destruct (decide _) as [Hl|]; [|done]. cbn [ws_table]. destruct (stored W e id); [done|].
  unfold remask. destruct Hl as [m Hm]. rewrite Hm. cbn [mbind option_bind]. destruct (maskSet m id); [|done].
  apply masked_live; [by exists m|done].
Qed.

Lemma ws_add_length W e id v : length (ws_stores (ws_add W e id v)) = length (ws_stores W).
Proof using Type. unfold ws_add. destruct (decide _); [|done]. cbn [ws_stores]. apply length_on_store. Qed.

Lemma addAll_loop k w W e ids values :
  world_sim k w W → (e < 2 ^ 64)%N → is_Some (sp_live (ws_table W) !! e) → (∀ id, id ∈ ids → id < length (ws_stores W)) →
  length values = sum_list_with Size ids → (N.of_nat (S (k + length ids)) < 2 ^ 32 - 1)%N →
  ∃ w', for_each ids (add_one Size e) (w, values) = Some (w', []) ∧ world_sim (k + length ids) w' (ws_addAll Size W e ids values).
Proof using Type.
  revert k w W values. induction ids as [|id ids IH]; intros k w W values HW He Hlive Hids Hlen Hk.
  - exists w. cbn in Hlen |- *. apply nil_length_inv in Hlen as ->. split; [done|]. by rewrite Nat.add_0_r.
  - cbn [for_each ws_addAll length sum_list_with] in *.
    assert (Hid : id < length (ws_stores W)) by (apply Hids; set_solver).
    assert (Hv : length (take (Size id) values) = Size id) by (rewrite length_take; lia).
    destruct (add_sim words first last Size k w W e id (take (Size id) values) HW He Hid Hv) as (w1 & Ea & HW1); [lia|].
    rewrite bool_decide_eq_true_2 in Ea by done. rewrite (add_one_alive w e id values w1 Ea) by lia. cbn [mbind option_bind].
    destruct (IH (S k) w1 _ (drop (Size id) values) HW1 He) as (w' & E & HW').
    + apply ws_add_live; [apply (wm_coherent _ _ _ _ _ _ _ HW)|done|done].
    + intros j Hj. rewrite ws_add_length. apply Hids. set_solver.
    + rewrite length_drop. lia.
    + lia.
    + exists w'. split; [exact E|]. replace (k + S (length ids)) with (S k + length ids) by lia. done.
Qed.

Lemma needed_sum w ids :
  (∀ id, id ∈ ids → id < length (stores w)) → ∀ n, for_each ids (λ id need, _ ← stores w !! id; Some (need + Size id)) n = Some (n + sum_list_with Size ids).
Proof using Type.
  induction ids as [|id ids IH]; intros Hids n; cbn; [by rewrite Nat.add_0_r|].
  destruct (lookup_lt_is_Some_2 (stores w) id) as [s Hs]; [apply Hids; set_solver|]. rewrite Hs. cbn.
  rewrite IH by (intros; apply Hids; set_solver). f_equal. lia.
Qed.

Lemma checked k w W m values :
  world_sim k w W → mask_ok words Size W m values → checkValues Size w m values = Some tt ∧ maskIDs m = Some (ids_of words m).
Proof using Type.
  intros HW (Hl & Hb & Hids & Hv). assert (E : maskIDs m = Some (ids_of words m)) by (by rewrite maskIDs_spec, Hl).
  split; [|done]. unfold checkValues. rewrite E. cbn [mbind option_bind]. unfold needed.
  destruct (wm_rows _ _ _ _ _ _ _ HW) as [Hlen _]. rewrite needed_sum by (intros id Hid; rewrite Hlen; by apply Hids).
  cbn [mbind option_bind plus]. by rewrite decide_True.
Qed.

(** What comes alive is given its components. *)
Lemma born_with k w W t' T' e m values :
  world_sim (S k) (with_entities w t') (mkWorldSpec T' (ws_stores W)) → (e < 2 ^ 64)%N → is_Some (sp_live T' !! e) →
  mask_ok words Size W m values → maskIDs m = Some (ids_of words m) → (N.of_nat (S (S k + length (ids_of words m))) < 2 ^ 32 - 1)%N →
  ∃ w', addAll Size (with_entities w t') e m values = Some w' ∧
    world_sim (S k + length (ids_of words m)) w' (ws_addAll Size (mkWorldSpec T' (ws_stores W)) e (ids_of words m) values).
Proof using Type.
  intros HW He Hlive (Hl & Hb & Hids & Hv) E Hk. unfold addAll. rewrite E. cbn [mbind option_bind].
  destruct (addAll_loop (S k) _ _ e (ids_of words m) values HW He Hlive Hids Hv Hk) as (w' & -> & HW'). by exists w'.
Qed.

(** ** What giving several values leaves *)

Lemma ws_add_value W e id v e' id' v' :
  id < length (ws_stores W) → is_Some (sp_live (ws_table W) !! e) →
  has_value (ws_add W e id v) e' id' v' ↔ (id' = id ∧ e' = e) ∧ v' = v ∨ ¬ (id' = id ∧ e' = e) ∧ has_value W e' id' v'.
Proof using Type. intros Hid He. unfold ws_add. rewrite decide_True by done. by apply has_value_set. Qed.

Lemma ws_addAll_length W e ids values : length (ws_stores (ws_addAll Size W e ids values)) = length (ws_stores W).
Proof using Type.
  revert W values. induction ids as [|id ids IH]; intros W values; [done|]. cbn [ws_addAll]. rewrite IH. apply ws_add_length.
Qed.

Lemma ws_addAll_live W e ids values :
  coherent words Size W → is_Some (sp_live (ws_table W) !! e) → (∀ j, j ∈ ids → j < length (ws_stores W)) →
  length values = sum_list_with Size ids → is_Some (sp_live (ws_table (ws_addAll Size W e ids values)) !! e).
Proof using Type.
  revert W values. induction ids as [|id ids IH]; intros W values C He Hids Hl; [done|]. cbn [ws_addAll sum_list_with] in *.
  assert (Hid : id < length (ws_stores W)) by (apply Hids; set_solver).
  apply IH; [apply coherent_add; [done|done|rewrite length_take; lia]|by apply ws_add_live| |rewrite length_drop; lia].
  intros j Hj. rewrite ws_add_length. apply Hids. set_solver.
Qed.

(** An entity just spawned was not alive, and is. *)
Lemma handed_born W e :
  coherent words Size W → may_hand first last (ws_table W) e →
  sp_live (ws_table W) !! e = None ∧
  is_Some (sp_live (sp_spawned words (sp_reserved (ws_table W) e) e) !! e) ∧
  coherent words Size (mkWorldSpec (sp_spawned words (sp_reserved (ws_table W) e) e) (ws_stores W)).
Proof using Type.
  intros C (_ & _ & Hocc).
  assert (Hdead : sp_live (ws_table W) !! e = None).
  { apply eq_None_not_Some. intros [m' Hm']. apply Hocc. unfold occupied, live_indices. rewrite !elem_of_union, elem_of_map. left; left.
    exists e. split; [done|]. by apply elem_of_dom. }
  split_and!; [done| |].
  - unfold sp_spawned. cbn [sp_live]. rewrite lookup_insert_eq. by eexists.
  - apply coherent_born; [done|..]; unfold sp_spawned, sp_reserved; destruct (sp_observing (ws_table W)) eqn:Eo; try done; right; by exists e.
Qed.

Lemma ws_addAll_other W e ids values e' id v :
  coherent words Size W → is_Some (sp_live (ws_table W) !! e) → (∀ j, j ∈ ids → j < length (ws_stores W)) →
  length values = sum_list_with Size ids → e' ≠ e ∨ (id ∉ ids) →
  has_value (ws_addAll Size W e ids values) e' id v ↔ has_value W e' id v.
Proof using Type.
  revert W values. induction ids as [|j ids IH]; intros W values C He Hids Hl Hn; [done|]. cbn [ws_addAll sum_list_with] in *.
  assert (Hj : j < length (ws_stores W)) by (apply Hids; set_solver).
  assert (Htake : length (take (Size j) values) = Size j) by (rewrite length_take; lia).
  rewrite IH.
  - rewrite ws_add_value by done. set_solver.
  - by apply coherent_add.
  - by apply ws_add_live.
  - intros j' Hj'. rewrite ws_add_length. apply Hids. set_solver.
  - rewrite length_drop. lia.
  - set_solver.
Qed.

Lemma ws_addAll_values W e ids values :
  coherent words Size W → is_Some (sp_live (ws_table W) !! e) → (∀ j, j ∈ ids → j < length (ws_stores W)) →
  length values = sum_list_with Size ids → NoDup ids →
  ∃ vs, Forall2 (λ id v, has_value (ws_addAll Size W e ids values) e id v) ids vs ∧ concat vs = values.
Proof using Type.
  revert W values. induction ids as [|j ids IH]; intros W values C He Hids Hl Hnd.
  - exists []. cbn in Hl. apply nil_length_inv in Hl as ->. split; [constructor|done].
  - cbn [ws_addAll sum_list_with] in *. apply NoDup_cons in Hnd as [Hj Hnd].
    assert (Hlt : j < length (ws_stores W)) by (apply Hids; set_solver).
    assert (Htake : length (take (Size j) values) = Size j) by (rewrite length_take; lia).
    assert (C' : coherent words Size (ws_add W e j (take (Size j) values))) by (by apply coherent_add).
    assert (He' : is_Some (sp_live (ws_table (ws_add W e j (take (Size j) values))) !! e)) by (by apply ws_add_live).
    assert (Hids' : ∀ i, i ∈ ids → i < length (ws_stores (ws_add W e j (take (Size j) values)))).
    { intros i Hi. rewrite ws_add_length. apply Hids. set_solver. }
    assert (Hl' : length (drop (Size j) values) = sum_list_with Size ids) by (rewrite length_drop; lia).
    destruct (IH _ (drop (Size j) values) C' He' Hids' Hl' Hnd) as (vs & Hvs & Ec).
    exists (take (Size j) values :: vs). split; [|cbn; by rewrite Ec, take_drop]. constructor; [|done].
    rewrite ws_addAll_other; [|done|done|done|done|by right]. apply ws_add_value; [done|done|by left].
Qed.
End steps.
