(* ===== verification/WorldHistory.v ===== *)
(** * Histories of a world

    Runs of a world from its registration under its handles' operations, its
    contract alongside, and what they show: no operation panics, and masks,
    stores and live entities always agree. *)

From Stdlib Require Import Strings.Byte.
From S2P Require Import Prelude Array Refs RefsSpec RefsHistory Commands CommandsLane RefsLanes RefsLanesHistory.
From S2P Require Import Words Entity IndexTable Mask EntityTable EntityLedger EntityTableSpec EntitySim EntityRefines EntityHistory.
From S2P Require Import Store StoreRepr StoreSpec StoreRefines StoreWindow StoreHistory World WorldSpec WorldCoherent WorldRefines WorldSteps.

Section history.
Context (words : nat) (first last : N) (Size : nat → nat).
Context {R B : Type} `{WindowedLaws R} `{ShrinkerLaws B}.

Implicit Types (w : worldResource R B) (W : worldSpec).

#[local] Abbreviation sim := (sim words first last).
#[local] Abbreviation world_sim := (world_sim words first last Size).
#[local] Abbreviation world_step := (world_step words first last Size).
#[local] Abbreviation run_world := (run_world words Size).

(** How many generations and rows an operation may use up. *)
Definition cost (op : world_op) : nat :=
  match op with WSpawnRaw m _ | WCreateAtRaw _ m _ => S (length (ids_of words m)) | _ => 1 end.

Lemma observe_sim k w W id :
  world_sim k w W → id < length (ws_stores W) → ∃ w', observe w id = Some w' ∧ world_sim k w' (ws_observe W id).
Proof using Type.
  intros [Ht Hrows C Hrefs Hbufs] Hid.
  destruct (rows_lookup _ _ _ _ _ Hrows Hid) as (s & [obs σ] & Es & Eo & Hobs & Hsim & Hsz & Hlen & Hap). cbn in Hobs, Hsim. subst obs.
  unfold observe. rewrite Es. cbn [mbind option_bind]. eexists. split; [done|].
  destruct (sim_register (H := zero_of Size id) s σ Hsim) as (Hsim' & O' & A').
  split; cbn [entities stores windowedRefs recorders with_store with_stores ws_table ws_stores ws_observe]; try done.
  - eapply rows_sim_insert; [done|done|]. split_and!; [done|done|by rewrite sized_registerObserver|lia|by apply (indexes_apart_op _ OpRegisterObserver)].
  - by apply coherent_observe.
Qed.

Lemma spawnRaw_sim k w W m values :
  world_sim k w W → mask_ok words Size W m values → (N.of_nat (S (k + cost (WSpawnRaw m values))) < 2 ^ 32 - 1)%N →
  ∃ w' e W', SpawnRaw words Size w m values = Some (w', e) ∧ world_step W (WSpawnRaw m values) (Handed e) W' ∧
    world_sim (k + cost (WSpawnRaw m values)) w' W'.
Proof using Type.
  intros HW Hok Hk. cbn [cost] in *. destruct (checked _ _ _ _ _ _ _ _ _ HW Hok) as [Ec Em].
  destruct (table_step_sim _ _ _ _ _ _ _ OSpawn HW) as (t' & a & T' & E & Hs & HW'); [lia|done|done|].
  cbn [EntitySim.run_op] in E. apply bind_Some in E as ([t0 e] & Esp & [= <- <-]).
  unfold SpawnRaw. rewrite Ec. cbn [mbind option_bind]. unfold Spawn. rewrite Esp. cbn [mbind option_bind].
  inversion Hs as [| |e' He|Hx| | | | | | | | | |]; subst.
  - assert (Hne : e ≠ NoEntity) by (intros ->; by eapply NoEntity_never_handed).
    rewrite (proj2 (N.eqb_neq _ _) Hne).
    destruct (born_with words first last Size k w W t0 _ e m values HW') as (w' & Ea & HW2); [by destruct He as ((? & _) & _)| |done|done|lia|].
    { unfold sp_spawned. cbn [sp_live]. rewrite lookup_insert_eq. by eexists. }
    rewrite Ea. cbn [mbind option_bind]. eexists w', e, _. split; [done|]. split; [by apply ws_step_spawnRaw|].
    by replace (k + S (length (ids_of words m))) with (S k + length (ids_of words m)) by lia.
  - cbn. eexists _, NoEntity, W. split; [done|]. split; [by constructor|].
    apply (world_sim_mono _ _ _ _ (S k)); [lia|]. by destruct W.
Qed.

Lemma createAtRaw_sim k w W e m values :
  world_sim k w W → (e < 2 ^ 64)%N → mask_ok words Size W m values → (N.of_nat (S (k + cost (WCreateAtRaw e m values))) < 2 ^ 32 - 1)%N →
  ∃ w' err W', CreateAtRaw words Size w e m values = Some (w', err) ∧ world_step W (WCreateAtRaw e m values) (Placed err) W' ∧
    world_sim (k + cost (WCreateAtRaw e m values)) w' W'.
Proof using Type.
  intros HW He Hok Hk. cbn [cost] in *. destruct (checked _ _ _ _ _ _ _ _ _ HW Hok) as [Ec Em].
  destruct (table_step_sim _ _ _ _ _ _ _ (OPlace e) HW) as (t' & a & T' & E & Hs & HW'); [lia|done|done|].
  cbn [EntitySim.run_op] in E. apply bind_Some in E as ([t0 err] & Esp & [= <- <-]).
  unfold CreateAtRaw. rewrite Ec. cbn [mbind option_bind]. unfold CreateAt. rewrite Esp. cbn [mbind option_bind].
  inversion Hs as [| | | | | |e' Hp|e' err' Hp| | | | | |]; subst.
  - destruct (born_with words first last Size k w W t0 _ e m values HW') as (w' & Ea & HW2); [done| |done|done|lia|].
    { unfold sp_spawned. cbn [sp_live]. rewrite lookup_insert_eq. by eexists. }
    rewrite Ea. cbn [mbind option_bind]. eexists w', None, _. split; [done|]. split; [by apply ws_step_createAtRaw|].
    by replace (k + S (length (ids_of words m))) with (S k + length (ids_of words m)) by lia.
  - eexists _, (Some err'), W. split; [done|]. split; [by constructor|].
    apply (world_sim_mono _ _ _ _ (S k)); [lia|]. by destruct W.
Qed.

Lemma world_step_sim k w W op :
  world_sim k w W → world_op_ok words Size W op → (N.of_nat (S (k + cost op)) < 2 ^ 32 - 1)%N →
  ∃ w' answer W', run_world w op = Some (w', answer) ∧ world_step W op answer W' ∧ world_sim (k + cost op) w' W'.
Proof using Type.
  intros HW Hok Hk. pose proof (wm_rows _ _ _ _ _ _ _ HW) as Hrows.
  destruct op as [op|e|e id v|e id v|e id|m values|e m values|id| |]; cbn [world_op_ok run_world WorldRefines.run_world] in *;
    try (replace (k + cost _) with (S k) in Hk |- * by (cbn; lia)).
  - destruct Hok as [Hst Hop]. destruct (table_step_sim _ _ _ _ _ _ _ op HW) as (t' & a & T' & -> & Hs & HW'); [lia|done|done|].
    cbn [mbind option_bind]. eexists _, _, _. split; [done|]. by split; [constructor|].
  - destruct (despawn_sim _ _ _ _ _ _ _ e HW Hok) as (w' & b & W' & -> & ? & ?); [lia|]. by exists w', (Answered b), W'.
  - destruct Hok as (He & Hid & Hv). destruct (add_sim _ _ _ _ _ _ _ e id v HW He Hid Hv) as (w' & -> & ?); [lia|].
    cbn [mbind option_bind]. eexists w', _, _. split; [done|]. by split; [constructor|].
  - destruct Hok as (He & Hid & Hv). destruct (write_sim _ _ _ _ _ _ _ e id v HW Hid Hv) as (w' & -> & ?); [lia|].
    cbn [mbind option_bind]. eexists w', _, _. split; [done|]. by split; [constructor|].
  - destruct Hok as (He & Hid). destruct (remove_sim _ _ _ _ _ _ _ e id HW Hid) as (w' & -> & ?); [lia|].
    cbn [mbind option_bind]. eexists w', _, _. split; [done|]. split; [constructor|]. by apply (world_sim_mono _ _ _ _ k); [lia|].
  - destruct (spawnRaw_sim k w W m values HW Hok Hk) as (w' & e & W' & -> & ? & ?). by exists w', (Handed e), W'.
  - destruct Hok as [He Hok]. destruct (createAtRaw_sim k w W e m values HW He Hok Hk) as (w' & err & W' & -> & ? & ?).
    by exists w', (Placed err), W'.
  - destruct (observe_sim k w W id HW Hok) as (w' & -> & HW'). cbn [mbind option_bind]. eexists w', _, _. split; [done|].
    split; [constructor|]. by apply (world_sim_mono _ _ _ _ k); [lia|].
  - destruct (reset_sim _ _ _ _ _ _ _ HW) as (w' & -> & ?); [lia|]. cbn [mbind option_bind]. eexists w', _, _. split; [done|]. by split; [constructor|].
  - destruct (shrink_world_sim _ _ _ _ _ _ _ HW) as (w' & -> & ?); [lia|]. cbn [mbind option_bind]. eexists w', _, _. split; [done|]. by split; [constructor|].
Qed.

(** ** Refs and command buffers

    What an operation does to the refs and to the command buffers: a reset
    starts or resets every refs' observation, a shrink gives back the memory
    of each, and nothing else reaches them. *)

Definition refs_follow (observing : bool) (op : world_op) (r r' : R) : Prop :=
  match op with
  | WReset => (if observing then refs_resetObservation r else refs_startObservation r) = Some r'
  | WShrink => ∃ r1, (if observing then refs_resetObservation r else Some r) = Some r1 ∧ refs_shrink r1 = Some r'
  | _ => r' = r
  end.

Definition buffer_follows (op : world_op) (b b' : B) : Prop :=
  match op with WShrink => buffer_shrink b = Some b' | _ => b' = b end.

Definition outside w : list R * list B := (windowedRefs w, recorders w).

(** A run of assignments, each of which kept it. *)
Ltac kept :=
  repeat match goal with
  | H : Some _ = Some _ |- _ => injection H as <-
  | H : Some (_, _) = Some (_, _) |- _ => injection H as <- <-
  | H : None = Some _ |- _ => discriminate H
  | H : mbind _ ?o = Some _ |- _ => apply bind_Some in H as (? & ? & H)
  | H : (let '(_, _) := ?x in _) = Some _ |- _ => destruct x
  | H : (if ?b then _ else _) = Some _ |- _ => destruct b eqn:?
  | H : match ?x with _ => _ end = Some _ |- _ => destruct x eqn:?
  end.

Lemma for_from_outside {St} (f : St → worldResource R B) (body : nat → St → option St) n i st st' :
  (∀ j st st', body j st = Some st' → outside (f st') = outside (f st)) →
  for_from i n body st = Some st' → outside (f st') = outside (f st).
Proof using Type.
  intros Hb. revert i st. induction n as [|n IH]; intros i st E; [by injection E as <-|].
  apply bind_Some in E as (st1 & E1 & E). rewrite (IH _ _ E). by eapply Hb.
Qed.

Lemma for_each_outside {A St} (f : St → worldResource R B) (body : A → St → option St) l st st' :
  (∀ x st st', body x st = Some st' → outside (f st') = outside (f st)) →
  for_each l body st = Some st' → outside (f st') = outside (f st).
Proof using Type.
  intros Hb. revert st. induction l as [|x l IH]; intros st E; [by injection E as <-|].
  cbn [for_each] in E. apply bind_Some in E as (st1 & E1 & E). rewrite (IH _ E). by eapply Hb.
Qed.

Lemma put_outside w e id w' row : put Size w e id = Some (w', row) → outside w' = outside w.
Proof using Type. unfold put. intros E. by kept. Qed.

Lemma write_row_outside w id row v w' : write_row w id row v = Some w' → outside w' = outside w.
Proof using Type. unfold write_row. intros E. by kept. Qed.

Lemma add_one_outside e id st st' : add_one Size e id st = Some st' → outside st'.1 = outside st.1.
Proof using Type.
  unfold add_one. intros E. kept; cbn [fst];
  repeat match goal with
  | H : put _ _ _ _ = Some _ |- _ => apply put_outside in H
  | H : write_row _ _ _ _ = Some _ |- _ => apply write_row_outside in H
  end; congruence.
Qed.

Lemma addAll_outside w e m values w' : addAll Size w e m values = Some w' → outside w' = outside w.
Proof using Type.
  unfold addAll. intros (ids & _ & E)%bind_Some. apply bind_Some in E as ([w1 v1] & E & [= <-]).
  exact (for_each_outside fst _ _ _ _ (add_one_outside e) E).
Qed.

Lemma despawn_outside w e w' b : despawn words Size w e = Some (w', b) → outside w' = outside w.
Proof using Type.
  unfold despawn. intros ([t [m ok]] & _ & E)%bind_Some. destruct ok; cbn [negb] in E; [|by injection E as <- _].
  apply bind_Some in E as (ids & _ & E). apply bind_Some in E as (w1 & E & [= <- _]).
  apply (for_each_outside (λ w, w)) in E; [by rewrite E|]. clear. intros id w w'. unfold despawn_row. intros E. by kept.
Qed.

Lemma each_store_outside f n w w' : for_range n (each_store f) w = Some w' → outside w' = outside w.
Proof using Type.
  unfold for_range. apply (for_from_outside (λ w, w)). intros j w1 w2. unfold each_store. intros E. by kept.
Qed.

Lemma call_each_all {A} (f : A → option A) l l' : call_each f l = Some l' → Forall2 (λ x y, f x = Some y) l l'.
Proof using Type. apply mapM_Some_1. Qed.

Lemma Forall2_same {A} (l : list A) : Forall2 (λ x y, y = x) l l.
Proof using Type. by induction l; constructor. Qed.

Lemma reset_outside w w' : resetObservation words Size w = Some w' →
  Forall2 (refs_follow (observing (entities w)) WReset) (windowedRefs w) (windowedRefs w') ∧ recorders w' = recorders w.
Proof using Type.
  unfold resetObservation. intros ([t started] & Ew & E)%bind_Some.
  assert (Es : started = negb (observing (entities w))).
  { unfold endWindow in Ew. destruct (negb (observing (entities w))); apply bind_Some in Ew as (t1 & _ & Ew); [by injection Ew as _ <-|].
    by repeat (apply bind_Some in Ew as (? & _ & Ew) || injection Ew as _ <-). }
  cbn [refs_follow]. subst started. destruct (observing (entities w)); cbn [negb] in E;
    apply bind_Some in E as (w1 & E1%each_store_outside & E); apply bind_Some in E as (rs & E2%call_each_all & [= <-]);
    injection E1 as E1 E3; rewrite E1 in E2; split; try exact E2; exact E3.
Qed.

Lemma shrink_outside w w' : shrink words Size w = Some w' →
  Forall2 (refs_follow (observing (entities w)) WShrink) (windowedRefs w) (windowedRefs w') ∧
  Forall2 (buffer_follows WShrink) (recorders w) (recorders w').
Proof using Type.
  unfold shrink. intros (w1 & E1 & E)%bind_Some. apply bind_Some in E as (t & _ & E).
  apply bind_Some in E as (w2 & E2%each_store_outside & E). apply bind_Some in E as (rs & Er%call_each_all & E).
  apply bind_Some in E as (bs & Eb%call_each_all & [= <-]). injection E2 as E2 E3. rewrite E2 in Er. rewrite E3 in Eb.
  cbn [windowedRefs recorders with_entities] in *. destruct (observing (entities w)) eqn:Eo.
  - pose proof (reset_outside w w1 E1) as [Hr Hb]. rewrite Hb in Eb. split; [|exact Eb]. rewrite Eo in Hr.
    clear -Hr Er. cbn [windowedRefs]. revert rs Er.
    induction Hr as [|r r1 l l1 Hr Hl IH]; intros rs Er; inversion Er; subst; constructor; [by exists r1|by apply IH].
  - injection E1 as <-. split; [|exact Eb]. eapply Forall2_impl; [exact Er|]. intros r r' E. by exists r.
Qed.

Lemma run_outside w op w' a : run_world w op = Some (w', a) →
  Forall2 (refs_follow (observing (entities w)) op) (windowedRefs w) (windowedRefs w') ∧
  Forall2 (buffer_follows op) (recorders w) (recorders w').
Proof using Type.
  intros E.
  assert (Hsame : outside w' = outside w → match op with WReset | WShrink => False | _ => True end →
    Forall2 (refs_follow (observing (entities w)) op) (windowedRefs w) (windowedRefs w') ∧ Forall2 (buffer_follows op) (recorders w) (recorders w')).
  { intros [= -> ->] Hop. destruct op; try done; split; apply Forall2_same. }
  destruct op as [op|e|e id v|e id v|e id|m values|e m values|id| |]; cbn [run_world WorldRefines.run_world] in E.
  9:{ apply bind_Some in E as (w1 & E & [= <- _]). destruct (reset_outside w w1 E) as [? ->]. split; [done|apply Forall2_same]. }
  9:{ apply bind_Some in E as (w1 & E & [= <- _]). by apply shrink_outside. }
  all: apply Hsame; [|done]; apply bind_Some in E as (x & E & Ex).
  - destruct x. by injection Ex as <- _.
  - destruct x. injection Ex as <- _. by eapply despawn_outside.
  - destruct x. injection Ex as <- _. unfold Add in E. apply bind_Some in E as ([w1 [row|]] & Ep%put_outside & E); [|by injection E as <- _].
    apply bind_Some in E as (w2 & Ew%write_row_outside & [= <- _]). congruence.
  - destruct x. injection Ex as <- _. unfold Write in E. apply bind_Some in E as (s & _ & E). apply bind_Some in E as ([s1 [row|]] & _ & E); [|by injection E as <- _].
    by apply bind_Some in E as (w2 & Ew%write_row_outside & [= <- _]).
  - destruct x. injection Ex as <- _. unfold remove in E. by kept.
  - destruct x. injection Ex as <- _. unfold SpawnRaw in E. apply bind_Some in E as (_ & _ & E). apply bind_Some in E as ([w1 e1] & E1 & E).
    assert (E2 : outside w1 = outside w) by (unfold Spawn in E1; by kept). destruct (e1 =? NoEntity)%N; [by injection E as <- _|].
    apply bind_Some in E as (w2 & Ea%addAll_outside & [= <- _]). congruence.
  - destruct x. injection Ex as <- _. unfold CreateAtRaw in E. apply bind_Some in E as (_ & _ & E). apply bind_Some in E as ([w1 err] & E1 & E).
    assert (E2 : outside w1 = outside w) by (unfold CreateAt in E1; by kept). destruct err; [by injection E as <- _|].
    apply bind_Some in E as (w2 & Ea%addAll_outside & [= <- _]). congruence.
  - injection Ex as <- _. unfold observe in E. by kept.
Qed.

(** ** Runs *)

Definition initial_world (components : nat) : worldSpec :=
  mkWorldSpec initial_spec (replicate components (unobserved, emptySpec)).

(** A world, its contract alongside, after operations of the given cost. *)
Inductive world_run : nat → worldResource R B * worldSpec → Prop :=
  | world_run_start last0 prepared components rs bs w :
      last = (if (last0 =? 0)%N then (2 ^ 32 - 1)%N else last0) → (last < 2 ^ 32)%N →
      newWorld words Size first last0 prepared components rs bs = Some w → Forall refs_ok rs → Forall buffer_ok bs →
      world_run 0 (w, initial_world components)
  | world_run_step k x op answer y :
      world_run k x → world_op_ok words Size x.2 op → run_world x.1 op = Some (y.1, answer) →
      world_step x.2 op answer y.2 → world_run (k + cost op) y
  (** systems use the refs and record commands in between *)
  | world_run_others k w W rs bs :
      world_run k (w, W) → Forall refs_ok rs → Forall buffer_ok bs → world_run k (mkWorld (entities w) (stores w) rs bs, W).

Lemma world_step_det W op answer W1 W2 : world_step W op answer W1 → world_step W op answer W2 → W1 = W2.
Proof using Type.
  intros Ha Hb. destruct Ha; inversion Hb; simplify_eq; try done.
  2:{ match goal with Hx : spec_step _ _ _ _ (ODespawn _) _ ?T1, Hy : spec_step _ _ _ _ (ODespawn _) _ _ |- _ =>
        inversion Hx; inversion Hy; simplify_eq; done end. }
  all: match goal with Hx : spec_step _ _ _ _ _ _ ?T1, Hy : spec_step _ _ _ _ _ _ ?T2 |- _ => assert_fails (unify T1 T2);
    by rewrite (spec_step_det _ _ _ _ _ _ _ _ Hx Hy) end.
Qed.

Lemma coherent_initial components : components ≤ maskBits words → coherent words Size (initial_world components).
Proof using Type.
  intros Hc.
  assert (Hno : ∀ id o, ws_stores (initial_world components) !! id = Some o → o = (unobserved, emptySpec)).
  { intros id o Ho. cbn in Ho. by apply lookup_replicate in Ho as [-> _]. }
  assert (Hv : ∀ e id v, ¬ has_value (initial_world components) e id v).
  { intros e id v (o & Ho & Hv). rewrite (Hno id o Ho) in Hv. cbn in Hv. by rewrite lookup_empty in Hv. }
  split.
  - intros e m id Hm. cbn in Hm. by rewrite lookup_empty in Hm.
  - intros e id v Hx. by destruct (Hv e id v).
  - intros e id v Hx. by destruct (Hv e id v).
  - intros e m Hm. cbn in Hm. by rewrite lookup_empty in Hm.
  - intros id o e Ho. rewrite (Hno id o Ho). cbn. rewrite !lookup_empty. by intros [[? ?]|[? ?]].
  - intros id o Ho. by rewrite (Hno id o Ho).
  - intros id o Ho _. by rewrite (Hno id o Ho).
  - cbn. by rewrite length_replicate.
Qed.

Lemma world_start_sim last0 prepared components rs bs w :
  last = (if (last0 =? 0)%N then (2 ^ 32 - 1)%N else last0) → (last < 2 ^ 32)%N →
  newWorld words Size first last0 prepared components rs bs = Some w → Forall refs_ok rs → Forall buffer_ok bs →
  world_sim 0 w (initial_world components).
Proof using Type.
  intros El Hl Hw Hrs Hbs. unfold newWorld in Hw. rewrite <- El in Hw. destruct (N.ltb_spec last first) as [|Hfl]; [done|].
  apply bind_Some in Hw as (t & Et & Hw). destruct (decide (maskBits words < components)) as [|Hc]; [done|]. injection Hw as <-.
  split; cbn [entities stores windowedRefs recorders]; [|  |by apply coherent_initial; lia|done|done].
  - exists [], []. by eapply sim_init.
  - split; [cbn; by rewrite length_fmap, length_seq, length_replicate|].
    intros id s (id' & -> & Hid)%list_lookup_fmap_Some_1. apply lookup_seq in Hid as [-> Hid]. cbn [plus].
    exists (unobserved, emptySpec). split; [cbn; by apply lookup_replicate_2|].
    split_and!; [done|apply (sim_newStore (H := zero_of Size id))|done|done|]. intros e e' [[? He]|[[? He]|[? He]]]; cbn in He; by rewrite lookup_empty in He.
Qed.

Lemma world_run_sim k x : world_run k x → (N.of_nat (S k) < 2 ^ 32 - 1)%N → world_sim k x.1 x.2.
Proof using Type.
  induction 1 as [last0 prepared components rs bs w El Hl Hw Hrs Hbs|k x op answer y _ IH Hok Hrun Hstep|k w W rs bs _ IH Hrs Hbs]; intros Hk.
  - by eapply world_start_sim.
  - destruct (world_step_sim k x.1 x.2 op) as (w' & a' & W' & Hrun' & Hstep' & HS); [apply IH; lia|done|done|].
    rewrite Hrun in Hrun'. injection Hrun' as -> ->. by rewrite (world_step_det _ _ _ _ _ Hstep Hstep').
  - destruct (IH Hk) as [Ht Hrows C _ _]. by split.
Qed.

(** What the handles read, in terms of the contract. *)
Lemma read_store k x id :
  world_sim k x.1 x.2 → id < length (ws_stores x.2) → ∃ s o, stores x.1 !! id = Some s ∧ ws_stores x.2 !! id = Some o ∧
    ∀ e, Get Size x.1 e id = Some (st_live o.2 !! e) ∧ Has x.1 e id = Some (stored x.2 e id).
Proof using Type.
  intros HW Hid. destruct (rows_lookup _ _ _ _ _ (wm_rows _ _ _ _ _ _ _ HW) Hid) as (s & o & Es & Eo & Hobs & Hsim & _).
  exists s, o. split_and!; [done|done|]. intros e. unfold Get, Has. rewrite Es. cbn [mbind option_bind].
  pose proof (sim_get (H := zero_of Size id) s o.2 e Hsim) as Hg. unfold stored. rewrite Eo.
  destruct (st_live o.2 !! e) as [v|].
  - destruct Hg as (r & -> & _ & Hv). cbn [mbind option_bind]. by rewrite Hv.
  - destruct Hg as [-> _]. done.
Qed.

(** What a world answers is what its contract says: which entities are alive
    and their masks; how many values each store has, and what every entity's
    is; whether the store observes; and, where it does, what a delta query's
    walk meets, from the values at the last reset to those now. *)
Record reads_as w W : Prop := {
  rd_alive : ∀ e, (e < 2 ^ 64)%N → Alive w e = bool_decide (is_Some (sp_live (ws_table W) !! e)) ∧
    ComponentMask words w e = Some (default (noMask words) (sp_live (ws_table W) !! e), Alive w e);
  rd_components : length (stores w) = length (ws_stores W);
  rd_values : ∀ id o, ws_stores W !! id = Some o → ∃ s, stores w !! id = Some s ∧ len s = size (st_live o.2) ∧
    (∀ e, Get Size w e id = Some (st_live o.2 !! e) ∧ Has w e id = Some (bool_decide (is_Some (st_live o.2 !! e)))) ∧
    observation s = o.1 ∧
    (o.1 = observed → walks_differences (H := zero_of Size id) s (λ e, st_base o.2 !! e) (λ e, st_live o.2 !! e))
}.

Lemma sim_reads_as k w W : world_sim k w W → reads_as w W.
Proof using Type.
  intros HW. split.
  - intros e He. destruct (wm_table _ _ _ _ _ _ _ HW) as (F & D & HS). unfold Alive, ComponentMask.
    rewrite (mask_of_spec _ _ _ _ _ _ _ _ _ _ HS He), (alive_spec _ _ _ _ _ _ _ _ _ _ HS He). split; [done|].
    by destruct (sp_live (ws_table W) !! e).
  - by destruct (wm_rows _ _ _ _ _ _ _ HW).
  - intros id o Ho. pose proof (lookup_lt_Some _ _ _ Ho) as Hid.
    destruct (rows_lookup _ _ _ _ _ (wm_rows _ _ _ _ _ _ _ HW) Hid) as (s & o' & Es & Eo & Hobs & Hsim & _).
    rewrite Ho in Eo. injection Eo as <-. exists s. split; [done|]. split; [by apply (sim_len (H := zero_of Size id))|]. split_and!.
    + intros e. destruct (read_store k (w, W) id HW Hid) as (s' & o' & _ & Eo & Hread). cbn [snd] in Eo. rewrite Ho in Eo.
      injection Eo as <-. destruct (Hread e) as [Eg Eh]. cbn [fst snd] in Eg, Eh. rewrite Eg, Eh. split; [done|]. unfold stored. by rewrite Ho.
    + done.
    + intros Hob. apply sim_differences; [done|congruence].
Qed.

(** A run goes on with any operation its caller may do. *)
Lemma world_run_extend k x op :
  world_run k x → world_op_ok words Size x.2 op → (N.of_nat (S (k + cost op)) < 2 ^ 32 - 1)%N →
  ∃ y answer, run_world x.1 op = Some (y.1, answer) ∧ world_step x.2 op answer y.2 ∧ world_run (k + cost op) y.
Proof using Type.
  intros Hr Hok Hk. assert (HW : world_sim k x.1 x.2) by (apply world_run_sim; [done|lia]).
  destruct (world_step_sim k x.1 x.2 op HW Hok Hk) as (w' & a & W' & Hrun & Hstep & _).
  exists (w', W'), a. split; [done|]. split; [done|]. by eapply (world_run_step k x op a (w', W')).
Qed.

(** ** The claims *)

(** C6: from a world just registered, after any operations of its handles, the
    next one does not panic, answers what the contract allows, and leaves a
    world that reads as the contract's next state: its live entities and their
    masks, every entity's value in every store, which stores observe, and the
    deltas a query of an observed store meets.  It resets, starts or shrinks
    every refs and every command buffer where the code does, and reaches them
    nowhere else; and the run goes on from there. *)
Theorem world_refines k x op :
  world_run k x → world_op_ok words Size x.2 op → (N.of_nat (S (k + cost op)) < 2 ^ 32 - 1)%N →
  ∃ y answer, run_world x.1 op = Some (y.1, answer) ∧ world_step x.2 op answer y.2 ∧ reads_as y.1 y.2 ∧
    Forall2 (refs_follow (sp_observing (ws_table x.2)) op) (windowedRefs x.1) (windowedRefs y.1) ∧
    Forall2 (buffer_follows op) (recorders x.1) (recorders y.1) ∧ world_run (k + cost op) y.
Proof using Type.
  intros Hr Hok Hk. assert (HW : world_sim k x.1 x.2) by (apply world_run_sim; [done|lia]).
  destruct (world_run_extend k x op Hr Hok Hk) as (y & answer & Hrun & Hstep & Hy). exists y, answer.
  destruct (run_outside _ _ _ _ Hrun) as [Hrefs Hbufs]. destruct (wm_table _ _ _ _ _ _ _ HW) as (F & D & HS).
  rewrite <- (sm_observing _ _ _ _ _ _ _ _ _ HS) in Hrefs. split_and!; try done.
  eapply sim_reads_as. by apply world_run_sim.
Qed.

(** C12: an entity's component mask tells exactly the stores that have a value
    of it, and an entity that is not alive has none in any. *)
Theorem world_masks_and_stores_agree k x e id :
  world_run k x → (N.of_nat (S k) < 2 ^ 32 - 1)%N → (e < 2 ^ 64)%N → id < length (ws_stores x.2) →
  ∃ m, ComponentMask words x.1 e = Some (m, Alive x.1 e) ∧ maskHas m id = Has x.1 e id ∧
    (Alive x.1 e = false → Has x.1 e id = Some false).
Proof using Type.
  intros Hr Hk He Hid. pose proof (world_run_sim k x Hr Hk) as HW. destruct (read_store k x id HW Hid) as (s & o & _ & _ & Hread).
  destruct (Hread e) as [_ ->]. unfold ComponentMask, Alive. destruct (wm_table _ _ _ _ _ _ _ HW) as (F & D & HS).
  pose proof (wm_coherent _ _ _ _ _ _ _ HW) as C. rewrite (mask_of_spec _ _ _ _ _ _ _ _ _ _ HS He), (alive_spec _ _ _ _ _ _ _ _ _ _ HS He).
  pose proof (co_count _ _ _ C) as Hc. destruct (sp_live (ws_table x.2) !! e) as [m|] eqn:Em.
  - exists m. split; [done|]. split; [|done]. destruct (co_mask_ok _ _ _ C e m Em) as [Hl _].
    rewrite maskHas_spec by (rewrite Hl; lia). f_equal. apply eq_bool_prop_intro. rewrite !Is_true_true.
    by rewrite (co_masks _ _ _ C e m id Em), stored_true.
  - exists (noMask words). split; [done|]. assert (Es : stored x.2 e id = false).
    { apply stored_false. intros v Hv. destruct (co_alive _ _ _ C e id v Hv) as [? ?]. congruence. }
    rewrite Es. split; [|done]. rewrite maskHas_spec by (rewrite length_noMask; lia). by rewrite noMask_has.
Qed.

(** C39: what is spawned from a mask and bytes reads back as them: the entity
    [SpawnRaw] answers, which was not alive, is, with the mask's components
    and no other; their values one after the other are the bytes given; and
    no other entity's value has changed. *)
Theorem spawnRaw_roundtrip k x m values w' e :
  world_run k x → mask_ok words Size x.2 m values → (N.of_nat (S (k + cost (WSpawnRaw m values))) < 2 ^ 32 - 1)%N →
  SpawnRaw words Size x.1 m values = Some (w', e) → e ≠ NoEntity →
  Alive x.1 e = false ∧ Alive w' e = true ∧
  (∀ id, id < length (ws_stores x.2) → Has w' e id = Some (mask_has m id)) ∧
  (∃ vs, mapM (λ id, mjoin (Get Size w' e id)) (ids_of words m) = Some vs ∧ concat vs = values) ∧
  (∀ e' id, e' ≠ e → id < length (ws_stores x.2) → Get Size w' e' id = Get Size x.1 e' id).
Proof using Type.
  intros Hr Hok Hk E Hne. assert (HW : world_sim k x.1 x.2) by (apply world_run_sim; [done|lia]).
  destruct (spawnRaw_sim k x.1 x.2 m values HW Hok Hk) as (w2 & e2 & W' & E2 & Hstep & HW').
  rewrite E in E2. injection E2 as <- <-. inversion Hstep as [| | | | | |m0 v0 e0 T' Hs _| | | | | |]; subst; [|done].
  destruct Hok as (Hml & _ & Hids & Hlen). inversion Hs as [| |e0 Hmay| | | | | | | | | | |]; subst; [|done].
  pose proof Hmay as ((Hb & _) & _). set (W1 := mkWorldSpec _ (ws_stores x.2)) in *. set (W' := ws_addAll Size W1 e (ids_of words m) values) in *.
  destruct (handed_born words first last Size x.2 e (wm_coherent _ _ _ _ _ _ _ HW) Hmay) as (Hdead & Hlive & C1).
  pose proof (ws_addAll_length Size W1 e (ids_of words m) values : length (ws_stores W') = length (ws_stores x.2)) as Hlen'.
  assert (Hval : ∀ e' id v, e' ≠ e ∨ (id ∉ ids_of words m) → has_value W' e' id v ↔ has_value x.2 e' id v).
  { intros e' id v Hn. by apply (ws_addAll_other words Size W1 e (ids_of words m)). }
  destruct (ws_addAll_values words Size W1 e (ids_of words m) values C1 Hlive Hids Hlen) as (vs & Hvs & Ec).
  { apply NoDup_filter, NoDup_seq. }
  assert (Hget : ∀ e' id, id < length (ws_stores x.2) → ∃ o, ws_stores W' !! id = Some o ∧
    Get Size w' e' id = Some (st_live o.2 !! e') ∧ Has w' e' id = Some (stored W' e' id)).
  { intros e' id Hid. destruct (read_store _ (w', W') id HW') as (s & o & _ & Ho & Hread); [cbn; by rewrite Hlen'|].
    exists o. by destruct (Hread e'). }
  destruct (wm_table _ _ _ _ _ _ _ HW) as (F & D & HS). split_and!.
  - unfold Alive. by rewrite (alive_spec _ _ _ _ _ _ _ _ _ _ HS Hb), Hdead.
  - unfold Alive. rewrite (world_alive _ _ _ _ _ _ _ _ HW' Hb). apply bool_decide_eq_true_2. by apply (ws_addAll_live words).
  - intros id Hid. destruct (Hget e id Hid) as (o & _ & _ & ->). f_equal. apply eq_bool_prop_intro. rewrite !Is_true_true, stored_true.
    destruct (decide (id ∈ ids_of words m)) as [Hin|Hin].
    + pose proof Hin as [Hb1 _]%list_elem_of_filter. split; [done|]. intros _. apply list_elem_of_lookup in Hin as [i Hi].
      destruct (Forall2_lookup_l _ _ _ _ _ Hvs Hi) as (v & _ & Hv). by exists v.
    + split.
      * intros [v Hv]. apply Hval in Hv; [|by right]. destruct (co_alive _ _ _ (wm_coherent _ _ _ _ _ _ _ HW) e id v Hv) as [? ?]. congruence.
      * intros Hb1. exfalso. apply Hin. unfold ids_of. apply list_elem_of_filter. split; [done|]. apply elem_of_seq.
        apply mask_has_bound in Hb1. rewrite Hml in Hb1. lia.
  - exists vs. split; [|done]. apply mapM_Some. eapply Forall2_impl; [exact Hvs|]. intros id v (o & Ho & Hv).
    destruct (Hget e id) as (o' & Ho' & Eg & _); [rewrite <- Hlen'; by eapply lookup_lt_Some|].
    assert (o' = o) as -> by (unfold W' in Ho'; congruence). rewrite Eg. exact Hv.
  - intros e' id Hn Hid. destruct (Hget e' id Hid) as (o' & Ho' & -> & _).
    destruct (read_store k x id HW Hid) as (s & o & _ & Ho & Hread). destruct (Hread e') as [-> _]. f_equal.
    apply option_eq. intros v. specialize (Hval e' id v (or_introl Hn)). unfold has_value in Hval. rewrite Ho, Ho' in Hval.
    split; intros Hx; [destruct (proj1 Hval) as (? & [= <-] & ?)|destruct (proj2 Hval) as (? & [= <-] & ?)]; eauto.
Qed.

(** C10: values keep their types: in any reachable world, what [Get] answers of
    a component has the component's size, a tag's having no byte; the
    components an entity has are registered ones; and [Get] answers a value
    exactly where [Has] says so. *)
Theorem world_values_typed k x e id :
  world_run k x → (N.of_nat (S k) < 2 ^ 32 - 1)%N →
  (id < length (stores x.1) ↔ is_Some (Get Size x.1 e id)) ∧
  (∀ v, Get Size x.1 e id = Some (Some v) → length v = Size id ∧ Has x.1 e id = Some true) ∧
  (Get Size x.1 e id = Some None ↔ Has x.1 e id = Some false).
Proof using Type.
  intros Hr Hk. pose proof (world_run_sim k x Hr Hk) as HW. destruct (wm_rows _ _ _ _ _ _ _ HW) as [Hlen _].
  destruct (decide (id < length (stores x.1))) as [Hid|Hid].
  - destruct (read_store k x id HW) as (s & o & _ & Eo & Hread); [lia|]. destruct (Hread e) as [-> ->].
    unfold stored. rewrite Eo. split_and!; [by split|..].
    + intros v [= Hv]. split; [|by rewrite Hv].
      apply (co_sizes _ _ _ (wm_coherent _ _ _ _ _ _ _ HW) e id v). by exists o.
    + destruct (st_live o.2 !! e); by split.
  - unfold Get, Has. rewrite (lookup_ge_None_2 (stores x.1) id) by lia. split_and!; [|done|by split].
    split; [lia|by intros [? ?]].
Qed.
End history.

(** ** Concrete histories *)

Module Example.
(** Its refs are refs to numbers, its command buffer one of such refs. *)
#[local] Instance number_refs : Windowed (refsResource N) := refs_windowed RefsExample.isZero.
#[local] Instance number_refs_laws : WindowedLaws (refsResource N) := refs_windowed_laws RefsExample.isZero RefsExample.isZero_zero.
#[local] Instance number_lane_laws : RefsLaneLaws (refsLaneOf N) (refsResource N) := refs_lane_laws RefsExample.isZero RefsExample.isZero_zero.
#[local] Instance number_recorder : Shrinker (commandRecorder (refsLaneOf N)) := recorder_shrinker (refsLaneOf N) (refsResource N).
#[local] Instance number_recorder_laws : ShrinkerLaws (commandRecorder (refsLaneOf N)) :=
  recorder_shrinker_laws (refsLaneOf N) (refsResource N).

Abbreviation exampleRefs := (refsResource N).
Abbreviation exampleRecorder := (commandRecorder (refsLaneOf N)).
Abbreviation exampleWorld := (worldResource exampleRefs exampleRecorder).

Definition recorder0 : commandRecorder (refsLaneOf N) := mkRecorder [emptyLane] [emptyRefsLane 0].

Lemma recorder0_ok : buffer_ok recorder0.
Proof.
  split; [exists [[]]|exists [[]]]; (constructor; [|constructor]); [apply empty_lane_repr|apply empty_refs_lane].
Qed.

Lemma refs_implement0 : refs_implement_spec 0 RefsExample.r0 initial_refs.
Proof. exists 10%N, 11%N, []. by apply (sim_registered RefsExample.options RefsExample.r0). Qed.

Lemma refs0_ok : refs_ok RefsExample.r0.
Proof. exists 0, initial_refs. split; [done|exact refs_implement0]. Qed.

(** A component of two bytes, and a tag. *)
Definition sizes (id : nat) : nat := if decide (id = 0) then 2 else 0.
Definition both : mask := [3%N].
Definition value : bytes := [x01; x02].
Definition e1 : Entity := makeEntity 1 1.

Definition world0 : exampleWorld :=
  default (mkWorld zeroTable [] [] []) (newWorld 1 sizes 1 9 0 2 [RefsExample.r0] [recorder0]).
Definition state0 := (world0, initial_world 2).

Lemma world_run0 : world_run 1 1 9 sizes 0 state0.
Proof.
  apply (world_run_start 1 1 9 sizes 9 0 2 [RefsExample.r0] [recorder0]); [done|done|reflexivity| |].
  - constructor; [exact refs0_ok|constructor].
  - constructor; [exact recorder0_ok|constructor].
Qed.

Definition op1 : world_op := WSpawnRaw both value.
Definition world1 : exampleWorld :=
  match run_world 1 sizes world0 op1 with Some (w, _) => w | None => world0 end.
Definition state1 :=
  (world1, ws_addAll sizes (mkWorldSpec (sp_spawned 1 (sp_reserved (ws_table state0.2) e1) e1) (ws_stores state0.2)) e1 (ids_of 1 both) value).

Lemma op1_ok : world_op_ok 1 sizes state0.2 op1.
Proof.
  split_and!; [done|by repeat constructor| |done].
  intros id Hid. assert (E : ids_of 1 both = [0; 1]) by (by vm_compute). rewrite E in Hid. cbn. set_solver by lia.
Qed.

Lemma run_world1 : run_world 1 sizes world0 op1 = Some (world1, Handed e1).
Proof.
  assert (E : snd <$> run_world 1 sizes world0 op1 = Some (Handed e1)) by (by vm_compute).
  unfold world1. destruct (run_world 1 sizes world0 op1) as [[w a]|]; [|done]. injection E as ->. done.
Qed.

Lemma world_run1 : world_run 1 1 9 sizes (0 + cost 1 op1) state1.
Proof.
  eapply (world_run_step 1 1 9 sizes 0 state0 op1 (Handed e1) state1); [exact world_run0|exact op1_ok|exact run_world1|].
  apply ws_step_spawnRaw; [|done]. apply spec_spawn. apply (bool_decide_unpack _). by vm_compute.
Qed.

(** Systems used the refs: two live, waiting for their first window. *)
Definition refs1 : refsResource N := (RefsExample.after [RNew 7%N; RNew 8%N; RWatch] (RefsExample.r0, initial_refs)).1.
Definition state2 : exampleWorld * worldSpec := (mkWorld (entities world1) (stores world1) [refs1] [recorder0], state1.2).

Lemma refs1_ok : refs_ok refs1.
Proof.
  assert (Hs : nsteps (ref_step RefsExample.isZero any_op) 3 (RefsExample.r0, initial_refs)
    (RefsExample.after [RNew 7%N; RNew 8%N; RWatch] (RefsExample.r0, initial_refs))).
  { apply (RefsExample.after_steps [RNew 7%N; RNew 8%N; RWatch]). by vm_compute. }
  destruct refs_implement0 as (f & l & F & Sim).
  destruct (run_ref_sim RefsExample.isZero RefsExample.isZero_zero f l any_op 3 0 F (RefsExample.r0, initial_refs) _ Sim Hs) as [F' Sim']; [done|].
  exists 6. eexists. split; [done|]. by exists f, l, F'.
Qed.

Lemma world_run_refs1 : world_run 1 1 9 sizes (0 + cost 1 op1) state2.
Proof.
  apply (world_run_others 1 1 9 sizes _ world1 state1.2); [exact world_run1| |].
  - constructor; [exact refs1_ok|constructor].
  - constructor; [exact recorder0_ok|constructor].
Qed.

(** The reset that starts observation keeps the entity's value, and starts the
    refs' first window with the refs. *)
Lemma world_refines_witness :
  ∃ y r', run_world 1 sizes state2.1 WReset = Some (y.1, Done) ∧ world_step 1 1 9 sizes state2.2 WReset Done y.2 ∧
    Get sizes y.1 e1 0 = Some (Some value) ∧
    refs_startObservation refs1 = Some r' ∧ windowedRefs y.1 = [r'] ∧ ref_observation r' = observed.
Proof.
  assert (Ha : snd <$> run_world 1 sizes state2.1 WReset = Some Done) by (by vm_compute).
  destruct (world_refines 1 1 9 sizes _ state2 WReset world_run_refs1) as (y & a & H1 & H2 & [_ _ Hv] & Hr & _);
    [exact I|vm_compute; reflexivity|]. rewrite H1 in Ha. injection Ha as ->. exists y.
  assert (Ey : y.2 = ws_reset state2.2) by (by inversion H2).
  destruct (Hv 0 (unobserved, mkStoreSpec {[e1 := value]} ∅ ∅)) as (s & _ & _ & Hg & _).
  { rewrite Ey. vm_compute. reflexivity. }
  assert (Hl : length (windowedRefs y.1) = 1) by (symmetry; exact (Forall2_length _ _ _ Hr)).
  destruct (windowedRefs y.1) as [|r' [|]] eqn:Er; [done| |done]. apply Forall2_cons in Hr as [Hf _]. exists r'.
  assert (Ho : ref_observation <$> refs_startObservation refs1 = Some observed) by (by vm_compute).
  assert (Hs : sp_observing (ws_table state2.2) = false) by (by vm_compute). rewrite Hs in Hf. cbn [refs_follow] in Hf.
  refine (conj H1 (conj H2 (conj _ (conj Hf (conj eq_refl _))))).
  - rewrite (proj1 (Hg e1)). vm_compute. reflexivity.
  - rewrite Hf in Ho. injection Ho as Ho. exact Ho.
Defined.

Lemma world_masks_and_stores_agree_witness :
  ∃ m, ComponentMask 1 state1.1 e1 = Some (m, Alive state1.1 e1) ∧
    maskHas m 1 = Has state1.1 e1 1.
Proof.
  destruct (world_masks_and_stores_agree 1 1 9 sizes _ state1 e1 1 world_run1) as (m & H1 & H2 & _);
    [vm_compute; reflexivity|vm_compute; reflexivity|vm_compute; lia|]. exists m. exact (conj H1 H2).
Defined.

Lemma world_values_typed_witness : ∃ v, Get sizes state1.1 e1 0 = Some (Some v) ∧ length v = 2.
Proof.
  assert (E : Get sizes state1.1 e1 0 = Some (Some value)) by (vm_compute; reflexivity).
  exists value. refine (conj E _). assert (Hk : (N.of_nat (S (0 + cost 1 op1)) < 2 ^ 32 - 1)%N) by (vm_compute; reflexivity).
  exact (proj1 (proj1 (proj2 (world_values_typed 1 1 9 sizes _ state1 e1 0 world_run1 Hk)) value E)).
Defined.

Lemma spawnRaw_roundtrip_witness :
  ∃ w', SpawnRaw 1 sizes state0.1 both value = Some (w', e1) ∧ Alive w' e1 = true ∧
  ∃ vs, mapM (λ id, mjoin (Get sizes w' e1 id)) (ids_of 1 both) = Some vs ∧ concat vs = value.
Proof.
  assert (Hs : snd <$> SpawnRaw 1 sizes state0.1 both value = Some e1) by (by vm_compute).
  destruct (SpawnRaw 1 sizes state0.1 both value) as [[w' e]|] eqn:E; [|done]. injection Hs as He. cbn [snd] in He. subst e.
  destruct (spawnRaw_roundtrip 1 1 9 sizes 0 state0 both value w' e1 world_run0 op1_ok)
    as (_ & H1 & _ & H2 & _); [vm_compute; reflexivity|exact E|done|]. exists w'. exact (conj eq_refl (conj H1 H2)).
Defined.
End Example.
