(* ===== verification/CommandsCommit.v ===== *)
(** * Commits

    A commit does what the recorded commands do one at a time to the world:
    the spawns of every lane, then the despawns, then the rest, each kind in
    lane order and in the order recorded.  What was recorded of refs is done
    to the refs. *)

From Stdlib Require Import Strings.Byte.
From S2P Require Import Prelude Array Refs RefsSpec RefsRefines RefsHistory RefsLanes RefsLanesHistory.
From S2P Require Import Words Entity IndexTable Mask EntityTable EntityLedger EntityTableSpec EntitySim.
From S2P Require Import Store StoreSpec StoreRefines StoreHistory World WorldSpec WorldCoherent WorldRefines WorldSteps WorldHistory.
From S2P Require Import Commands CommandsLane.

(** The operation of a world that a command asks for. *)
Definition op_of (c : command) : world_op :=
  match c with
  | CSpawn e => WTable (OSpawnReserved e)
  | CDespawn e => WDespawn e
  | CAdd e id v => WAdd e id v
  | CSet e id v => WWrite e id v
  | CRemove e id => WRemove e id
  end.

Definition is_spawn (c : command) : bool := match c with CSpawn _ => true | _ => false end.
Definition is_despawn (c : command) : bool := match c with CDespawn _ => true | _ => false end.
Definition is_other (c : command) : bool := negb (is_spawn c || is_despawn c).

(** The order in which the commands of the lanes are applied. *)
Definition in_order (css : list (list command)) : list command :=
  filter is_spawn (concat css) ++ filter is_despawn (concat css) ++ filter is_other (concat css).

Lemma for_each_app {A St} (l k : list A) (body : A → St → option St) s :
  for_each (l ++ k) body s = (s' ← for_each l body s; for_each k body s').
Proof. revert s. induction l as [|x l IH]; intros s; cbn; [done|]. destruct (body x s); [apply IH|done]. Qed.

Lemma Forall_filter_keep {A} (P : A → Prop) (p : A → bool) (l : list A) : Forall P l → Forall P (filter p l).
Proof. rewrite !Forall_forall. intros Hl x [_ Hx]%list_elem_of_filter. by apply Hl. Qed.

Section commit.
Context (words : nat) (first last : N) (Size : nat → nat).
Context {R B L : Type} `{WindowedLaws R} `{ShrinkerLaws B} `{RefsLane L R} `{!RefsLaneLaws L R}.

Implicit Types (w : worldResource R B) (W : worldSpec) (c : command) (l : commandLane).

#[local] Abbreviation run_world := (run_world words Size).
#[local] Abbreviation world_run := (world_run words first last Size (R := R) (B := B)).
#[local] Abbreviation world_sim := (world_sim words first last Size).

(** Whether a command was taken: its operation said so, and what needs only a
    live entity found one. *)
Definition taken w c (answer : table_answer) : bool :=
  match c with
  | CSet e _ _ | CRemove e _ => alive (entities w) e
  | _ => match answer with Answered b => b | _ => false end
  end.

(** A command done at once, counted if it was dropped. *)
Definition take_command c (st : worldResource R B * nat) : option (worldResource R B * nat) :=
  let '(w, dropped) := st in
  '(w', answer) ← run_world w (op_of c);
  Some (w', count (taken w c answer) dropped).

(** The commands of the lanes done one at a time. *)
Definition commit_in_order (css : list (list command)) w : option (worldResource R B * nat) :=
  for_each (in_order css) take_command (w, 0).

(** ** Spawns and despawns *)

(** A loop over records that does something only for some commands. *)
Lemma records_filter (p : command → bool) ws rs cs (body : commandRecord → worldResource R B * nat → option (worldResource R B * nat)) st :
  Forall2 (keeps ws) rs cs →
  (∀ r c st, keeps ws r c → body r st = if p c then take_command c st else Some st) →
  for_each rs body st = for_each (filter p cs) take_command st.
Proof using Type.
  intros Hk Hb. revert st. induction Hk as [|r c rs cs Hr Hk IH]; intros st; [done|]. cbn [for_each].
  rewrite (Hb r c st Hr), filter_cons. destruct (p c) eqn:Ep.
  - rewrite decide_True by done. cbn [for_each]. destruct (take_command c st); [apply IH|done].
  - rewrite decide_False by (by cbn; tauto). apply IH.
Qed.

Lemma spawn_record_keeps ws r c st : keeps ws r c → spawn_record words r st = if is_spawn c then take_command c st else Some st.
Proof using Type.
  intros (Ee & Eo & _). destruct st as [w d]. unfold spawn_record. rewrite Ee, Eo. destruct c; cbn; try done.
  by destruct (spawnReserved words (entities w) e) as [[t b]|].
Qed.

Lemma despawn_record_keeps ws r c st : keeps ws r c → despawn_record words Size r st = if is_despawn c then take_command c st else Some st.
Proof using Type.
  intros (Ee & Eo & _). destruct st as [w d]. unfold despawn_record. rewrite Ee, Eo. destruct c; cbn; try done.
  by destruct (despawn words Size w e) as [[w' b]|].
Qed.

Lemma each_record_list l rs (body : commandRecord → worldResource R B * nat → option (worldResource R B * nat)) st :
  array_repr (records l) rs → each_record l body st = for_each rs body st.
Proof using Type. apply lane_records. Qed.

(** One of the first two loops over every lane. *)
Lemma lanes_filter (p : command → bool) (body : commandRecord → worldResource R B * nat → option (worldResource R B * nat)) ls css st :
  Forall2 lane_repr ls css →
  (∀ ws r c st, keeps ws r c → body r st = if p c then take_command c st else Some st) →
  for_each ls (λ l, each_record l body) st = for_each (filter p (concat css)) take_command st.
Proof using Type.
  intros Hl Hb. revert st. induction Hl as [|l cs ls css (rs & ws & Hrs & Hws & Hk) Hl IH]; intros st; [done|].
  cbn [for_each concat]. rewrite filter_app, for_each_app. rewrite (each_record_list l rs) by done.
  rewrite (records_filter p ws rs cs) by (done || apply Hb). destruct (for_each (filter p cs) take_command st); [apply IH|done].
Qed.

(** ** The other commands *)

(** Entities not alive have nothing to write or remove. *)
Lemma dead_untouched k w W e id v :
  world_sim k w W → id < length (ws_stores W) → (e < 2 ^ 64)%N → alive (entities w) e = false →
  Write w e id v = Some (w, false) ∧ remove Size w e id = Some (w, false).
Proof using Type.
  intros HW Hid He Ha. rewrite (world_alive _ _ _ _ _ _ _ _ HW He) in Ha. apply bool_decide_eq_false_1 in Ha.
  destruct (rows_lookup _ _ _ _ _ (wm_rows _ _ _ _ _ _ _ HW) Hid) as (s & [obs σ] & Es & Eo & _ & Hsim & _). cbn in Hsim.
  assert (Hn : st_live σ !! e = None).
  { destruct (st_live σ !! e) as [u|] eqn:Eu; [|done]. destruct Ha.
    eapply (co_alive _ _ _ (wm_coherent _ _ _ _ _ _ _ HW)). by exists (obs, σ). }
  pose proof (sim_write (H := zero_of Size id) s σ e Hsim) as Hw. pose proof (StoreRefines.sim_get (H := zero_of Size id) s σ e Hsim) as Hg.
  rewrite Hn in Hw, Hg. destruct Hg as [_ [row Hrow]]. split.
  - unfold Write. rewrite Es. cbn [mbind option_bind]. rewrite Hw. cbn [mbind option_bind].
    unfold with_store. rewrite list_insert_id by done. by destruct w.
  - unfold remove. rewrite Es. cbn [mbind option_bind]. by rewrite Hrow.
Qed.

Definition command_ok W c : Prop := world_op_ok words Size W (op_of c).

(** [apply] does what the command asks for. *)
Lemma apply_takes k x l ws r c d :
  world_sim k x.1 x.2 → command_ok x.2 c → array_repr (values l) ws → keeps ws r c → is_other c →
  apply_record Size l r (x.1, d) = take_command c (x.1, d).
Proof using Type.
  intros HW Hok Hws Hr Hother. pose proof (keeps_value l ws r c Hws Hr) as Hv. destruct Hr as (Ee & Eo & Ec & _ & _).
  unfold apply_record, apply, take_command. rewrite Ee, Eo, Ec.
  destruct c as [e|e|e id v|e id v|e id]; try done; cbn [operation_of entity_of component_of value_of op_of run_world WorldRefines.run_world taken] in *.
  - destruct Hok as (_ & _ & Hs). rewrite <- Hs, Hv. unfold Add. destruct (put Size x.1 e id) as [[w [row|]]|]; [|done|done].
    cbn. by destruct (write_row w id row v).
  - destruct Hok as (He & Hid & Hs). rewrite <- Hs, Hv. destruct (alive (entities x.1) e) eqn:Ea; cbn [negb].
    + unfold Write. destruct (stores x.1 !! id) as [s|]; [|done]. cbn [mbind option_bind].
      destruct (write s e) as [[s' [row|]]|]; [|done|done]. cbn [mbind option_bind]. by destruct (write_row (with_store x.1 id s') id row v).
    + destruct (dead_untouched k x.1 x.2 e id v HW Hid He Ea) as [-> _]. done.
  - destruct Hok as (He & Hid). destruct (alive (entities x.1) e) eqn:Ea; cbn [negb].
    + by destruct (remove Size x.1 e id) as [[w b]|].
    + destruct (dead_untouched k x.1 x.2 e id [] HW Hid He Ea) as [_ ->]. done.
Qed.

Lemma apply_skips l ws r c (st : worldResource R B * nat) : keeps ws r c → is_other c = false → apply_record Size l r st = Some st.
Proof using Type.
  intros (_ & Eo & _) Hc. destruct st as [w d]. unfold apply_record, apply. rewrite Eo. by destruct c.
Qed.

(** ** What the contract keeps through commands *)

Lemma command_step_static W c answer W' :
  world_step words first last Size W (op_of c) answer W' →
  sp_handed (ws_table W') = sp_handed (ws_table W) ∧ length (ws_stores W') = length (ws_stores W).
Proof using Type.
  assert (Hmask : ∀ T e f, sp_handed (remask T e f) = sp_handed T).
  { intros T e f. unfold remask. by destruct (m ← sp_live T !! e; f m). }
  intros Hs. destruct c as [e|e|e id v|e id v|e id]; inversion Hs; subst; cbn; try done.
  - match goal with Hx : spec_step _ _ _ _ _ _ _ |- _ => inversion Hx; subst; done end.
  - rewrite length_fmap. match goal with Hx : spec_step _ _ _ _ _ _ _ |- _ => inversion Hx; subst; done end.
  - unfold ws_add. destruct (decide _); [|done]. cbn. rewrite length_on_store. split; [|done]. by destruct (stored W e id).
  - unfold ws_write. destruct (stored W e id); [|done]. cbn. by rewrite length_on_store.
  - unfold ws_remove. destruct (stored W e id); [|done]. cbn. by rewrite length_on_store.
Qed.

Lemma command_ok_static W W' c :
  sp_handed (ws_table W') = sp_handed (ws_table W) → length (ws_stores W') = length (ws_stores W) → command_ok W c → command_ok W' c.
Proof using Type. intros E1 E2. unfold command_ok. destruct c; cbn; rewrite ?E1, ?E2; done. Qed.

Lemma commands_ok_static W W' css :
  sp_handed (ws_table W') = sp_handed (ws_table W) → length (ws_stores W') = length (ws_stores W) →
  Forall (Forall (command_ok W)) css → Forall (Forall (command_ok W')) css.
Proof using Type.
  intros E1 E2 Hok. eapply Forall_impl; [exact Hok|]. intros cs Hcs. eapply Forall_impl; [exact Hcs|].
  intros c. by apply command_ok_static.
Qed.

(** A command its producer may record is done, and the run goes on. *)
Lemma command_run k x c d :
  world_run k x → command_ok x.2 c → (N.of_nat (S (S k)) < 2 ^ 32 - 1)%N →
  ∃ y d', take_command c (x.1, d) = Some (y.1, d') ∧ world_run (S k) y ∧
    sp_handed (ws_table y.2) = sp_handed (ws_table x.2) ∧ length (ws_stores y.2) = length (ws_stores x.2).
Proof using Type.
  intros Hr Hok Hk. assert (Ec : cost words (op_of c) = 1) by (by destruct c).
  destruct (world_run_extend words first last Size k x (op_of c)) as (y & answer & Hrun & Hstep & Hy); [done|done|rewrite Ec; lia|].
  rewrite Ec, Nat.add_1_r in Hy. exists y. eexists. unfold take_command. rewrite Hrun. split; [done|]. split; [done|].
  by eapply command_step_static.
Qed.

Lemma commands_run k x cs d :
  world_run k x → Forall (command_ok x.2) cs → (N.of_nat (S (k + length cs)) < 2 ^ 32 - 1)%N →
  ∃ y d', for_each cs take_command (x.1, d) = Some (y.1, d') ∧ world_run (k + length cs) y ∧
    sp_handed (ws_table y.2) = sp_handed (ws_table x.2) ∧ length (ws_stores y.2) = length (ws_stores x.2).
Proof using Type.
  intros Hr Hok Hk. revert k x d Hr Hok Hk. induction cs as [|c cs IH]; intros k x d Hr Hok Hk; cbn [for_each length] in *.
  - exists x, d. by rewrite Nat.add_0_r.
  - apply Forall_cons in Hok as [Hc Hcs]. destruct (command_run k x c d Hr Hc ltac:(lia)) as (y & d' & -> & Hy & E1 & E2).
    cbn [mbind option_bind]. destruct (IH (S k) y d' Hy) as (z & d'' & -> & Hz & E3 & E4);
      [eapply Forall_impl; [exact Hcs|]; intros c'; by apply command_ok_static|lia|].
    exists z, d''. split; [done|]. replace (k + S (length cs)) with (S k + length cs) by lia. split; [done|]. split; congruence.
Qed.

(** The records of one lane, applied. *)
Lemma apply_records k x l ws rs cs d :
  world_run k x → Forall (command_ok x.2) cs → (N.of_nat (S (k + length (filter is_other cs))) < 2 ^ 32 - 1)%N →
  array_repr (values l) ws → Forall2 (keeps ws) rs cs →
  for_each rs (apply_record Size l) (x.1, d) = for_each (filter is_other cs) take_command (x.1, d).
Proof using Type.
  intros Hr Hok Hk Hws Hkeep. revert k x d Hr Hok Hk. induction Hkeep as [|r c rs cs Hc Hkeep IH]; intros k x d Hr Hok Hk; [done|].
  apply Forall_cons in Hok as [Hoc Hocs]. cbn [for_each]. rewrite filter_cons in Hk |- *. destruct (is_other c) eqn:Eo.
  - rewrite decide_True in Hk |- * by done. cbn [for_each length] in *.
    rewrite (apply_takes k x l ws r c d) by (done || by rewrite Eo || (apply world_run_sim; [done|lia])).
    destruct (command_run k x c d Hr Hoc ltac:(lia)) as (y & d' & -> & Hy & E1 & E2). cbn [mbind option_bind].
    apply (IH (S k)); [done| |lia]. eapply Forall_impl; [exact Hocs|]. intros c'. by apply command_ok_static.
  - rewrite decide_False in Hk |- * by (by cbn; tauto). rewrite (apply_skips l ws r c) by done. cbn [mbind option_bind]. by apply (IH k).
Qed.

(** The third loop: every lane's other commands, and every lane emptied. *)
Lemma apply_lanes k x ls css d done_ :
  world_run k x → Forall (Forall (command_ok x.2)) css → Forall2 lane_repr ls css →
  (N.of_nat (S (k + length (filter is_other (concat css)))) < 2 ^ 32 - 1)%N →
  ∃ st ls', for_each (filter is_other (concat css)) take_command (x.1, d) = Some st ∧
    for_each ls (apply_lane Size) ((x.1, d), done_) = Some (st, done_ ++ ls') ∧ Forall (λ l, lane_repr l []) ls'.
Proof using Type.
  intros Hr Hok Hl. revert k x d done_ Hr Hok. induction Hl as [|l cs ls css Hcs Hl IH]; intros k x d done_ Hr Hok Hk.
  - exists (x.1, d), []. by rewrite app_nil_r.
  - apply Forall_cons in Hok as [Hoc Hocs]. cbn [for_each concat] in *. rewrite filter_app, length_app in Hk.
    pose proof Hcs as (rs & ws & Hrs & Hws & Hkeep).
    destruct (commands_run k x (filter is_other cs) d) as (y & d' & Ey & Hy & E1 & E2); [done|by apply Forall_filter_keep|lia|].
    destruct (empty_lane l cs Hcs) as (rs0 & vs0 & Er0 & Ev0 & Hl0).
    destruct (IH (k + length (filter is_other cs)) y d' (done_ ++ [mkLane rs0 vs0])) as (st & ls' & E & El & Hls'); [done| |lia|].
    { by apply (commands_ok_static x.2). }
    exists st, (mkLane rs0 vs0 :: ls'). rewrite filter_app, for_each_app, Ey. cbn [mbind option_bind]. split; [done|].
    split; [|by constructor]. assert (Es : apply_lane Size l ((x.1, d), done_) = Some ((y.1, d'), done_ ++ [mkLane rs0 vs0])).
    { unfold apply_lane. rewrite (each_record_list l rs) by done. rewrite (apply_records k x l ws rs cs d Hr Hoc ltac:(lia) Hws Hkeep).
      rewrite Ey. cbn [mbind option_bind]. rewrite Er0. cbn [mbind option_bind]. by rewrite Ev0. }
    rewrite Es. cbn [mbind option_bind]. rewrite El. by rewrite <- (assoc_L (++)).
Qed.

(** Commands on entities reach no refs. *)
Lemma command_keeps_refs c w d w' d' : take_command c (w, d) = Some (w', d') → windowedRefs w' = windowedRefs w.
Proof using Type.
  unfold take_command. intros ([w1 answer] & E & [= <- _])%bind_Some. apply run_outside in E as [E _]. symmetry.
  apply list_eq_Forall2. eapply Forall2_impl; [exact E|]. by destruct c.
Qed.

Lemma commands_keep_refs cs w d w' d' : for_each cs take_command (w, d) = Some (w', d') → windowedRefs w' = windowedRefs w.
Proof using Type.
  revert w d. induction cs as [|c cs IH]; intros w d; cbn [for_each]; [by intros [= <- _]|].
  intros ([w1 d1] & E & E')%bind_Some. rewrite (IH _ _ E'). by eapply command_keeps_refs.
Qed.

(** ** Lanes of refs *)

Implicit Types (ss : list (refs_contract (L := L) (R := R))) (rcss : list (nat * list (lane_command (L := L) (R := R)))).

(** A lane is of the refs at an index and holds commands on them. *)
Definition ref_lane_records (l : L) (p : nat * list lane_command) : Prop := lane_target (R := R) l = p.1 ∧ lane_holds l p.2.

(** What the lanes' commands do to the refs' contracts, and how many are
    dropped. *)
Fixpoint ref_lanes_done ss rcss : list (refs_contract (L := L) (R := R)) :=
  match rcss with
  | [] => ss
  | (t, cs) :: rcss => ref_lanes_done (alter (λ s, commands_after command_step s cs) t ss) rcss
  end.

Fixpoint ref_lanes_dropped ss rcss : nat :=
  match rcss with
  | [] => 0
  | (t, cs) :: rcss => match ss !! t with Some s => commands_dropped command_step s cs | None => 0 end +
      ref_lanes_dropped (alter (λ s, commands_after command_step s cs) t ss) rcss
  end.

(** The commands of all lanes on the refs at index [t], in lane order. *)
Definition commands_on (t : nat) rcss : list (lane_command (L := L) (R := R)) := concat (snd <$> filter (λ p, p.1 = t) rcss).

Definition ref_commands rcss : nat := length (concat (snd <$> rcss)).

(** The fourth loop: each lane committed to its refs. *)
Lemma commit_ref_lanes n ls rcss (rs : list R) ss d (done_ : list L) :
  Forall2 (refs_implement n) rs ss → Forall2 ref_lane_records ls rcss → Forall (λ p, p.1 < length ss) rcss →
  (∀ t s, ss !! t = Some s → commands_owed s (commands_on t rcss)) → (N.of_nat (n + 2 * ref_commands rcss) < 2 ^ 32 - 2)%N →
  ∃ rs' rls, for_each ls commit_lane (rs, d, done_) = Some (rs', d + ref_lanes_dropped ss rcss, done_ ++ rls) ∧
    Forall2 (refs_implement (n + 2 * ref_commands rcss)) rs' (ref_lanes_done ss rcss) ∧ Forall (λ l : L, lane_holds l []) rls.
Proof using All.
  unfold ref_commands. intros Hrs Hl. revert n rs ss d done_ Hrs.
  induction Hl as [|l [t cs] ls rcss [Et Hcs] Hl IH]; intros n rs ss d done_ Hrs Ht Ho Hn; cbn [for_each ref_lanes_done ref_lanes_dropped].
  { exists rs, []. cbn. rewrite !Nat.add_0_r, app_nil_r. by split_and!. }
  cbn [fst snd] in *. apply Forall_cons in Ht as [Hlt Ht]. cbn [fst] in Hlt.
  cbn [fmap list_fmap concat snd] in Hn |- *. rewrite length_app in Hn |- *. destruct (lookup_lt_is_Some_2 ss t Hlt) as [s Es].
  destruct (Forall2_lookup_r _ _ _ _ _ Hrs Es) as (r & Er & Himp).
  pose proof (Ho t s Es) as Hs. unfold commands_on in Hs. rewrite filter_cons, decide_True in Hs by done.
  apply owed_app in Hs as [Hs1 Hs2].
  destruct (lane_commit_law n r s l cs Himp Hcs Hs1 ltac:(lia)) as (l' & r' & Ec & Himp' & Hl').
  unfold commit_lane at 2. rewrite Et, Er. cbn [mbind option_bind]. rewrite Ec. cbn [mbind option_bind]. rewrite Es.
  destruct (IH (n + 2 * length cs) (<[t := r']> rs) (alter (λ s, commands_after command_step s cs) t ss)
    (d + commands_dropped command_step s cs) (done_ ++ [l'])) as (rs' & rls & E & Hrs' & Hrls).
  - assert (Ea : alter (λ s, commands_after command_step s cs) t ss = <[t := commands_after command_step s cs]> ss).
    { apply list_eq. intros i. destruct (decide (i = t)) as [->|Hne].
      - by rewrite list_lookup_alter_eq, list_lookup_insert_eq, Es by done.
      - by rewrite list_lookup_alter_ne, list_lookup_insert_ne by done. }
    rewrite Ea. apply Forall2_insert; [|done]. eapply Forall2_impl; [exact Hrs|]. intros ?? . apply implement_mono. lia.
  - by rewrite length_alter.
  - intros t' s' Es'. destruct (decide (t' = t)) as [->|Hne].
    + rewrite list_lookup_alter_eq, Es in Es'. injection Es' as <-. exact Hs2.
    + rewrite list_lookup_alter_ne in Es' by done. pose proof (Ho t' s' Es') as Ho'. unfold commands_on in Ho'.
      by rewrite filter_cons, decide_False in Ho'.
  - unfold ref_commands in *. lia.
  - exists rs', (l' :: rls). rewrite E. replace (n + 2 * (length cs + length (concat (snd <$> rcss))))
      with (n + 2 * length cs + 2 * length (concat (snd <$> rcss))) by lia.
    split_and!; [by rewrite <- (assoc_L (++)), Nat.add_assoc|done|by constructor].
Qed.

(** ** The claim *)

(** C40: a commit is its commands done one at a time, in the documented order:
    the spawns of every lane, the despawns, then the other commands lane by
    lane, and at last what was recorded of refs, lane by lane.  It never
    panics: the refs are left implementing what their contracts say of the
    commands recorded for them, those of all lanes in order.  It answers how
    many records were dropped, of entities and of refs, and leaves every lane
    empty; and the world it leaves is one that a run of the world's own
    operations reaches, so it keeps every contract of the world. *)
Theorem commit_applies_in_order k n x (c : commandRecorder L) css ss rcss :
  world_run k x → Forall2 lane_repr (lanes c) css → Forall (Forall (command_ok x.2)) css →
  (N.of_nat (S (S (k + 3 * length (concat css)))) < 2 ^ 32 - 1)%N →
  Forall2 (refs_implement n) (windowedRefs x.1) ss → Forall2 ref_lane_records (refsLanes c) rcss →
  Forall (λ p, p.1 < length ss) rcss → (∀ t s, ss !! t = Some s → commands_owed s (commands_on t rcss)) →
  (N.of_nat (n + 2 * ref_commands rcss) < 2 ^ 32 - 2)%N →
  ∃ y dropped ls rls rs, commit_in_order css x.1 = Some (y.1, dropped) ∧
    let committed := mkWorld (entities y.1) (stores y.1) rs (recorders y.1) in
    Commit words Size c x.1 = Some (mkRecorder ls rls, committed, dropped + ref_lanes_dropped ss rcss) ∧
    Forall2 (refs_implement (n + 2 * ref_commands rcss)) rs (ref_lanes_done ss rcss) ∧
    Forall (λ l, lane_repr l []) ls ∧ Forall (λ l : L, lane_holds l []) rls ∧
    world_run (k + length (in_order css)) (committed, y.2).
Proof using Type.
  intros Hr Hl Hok Hk Himp Hrl Ht Ho Hn. assert (Hall : Forall (command_ok x.2) (concat css)) by (apply Forall_concat; exact Hok).
  assert (Hlen : ∀ p : command → bool, length (filter p (concat css)) ≤ length (concat css)) by (intros p; apply length_filter).
  pose proof (Hlen is_spawn) as L1. pose proof (Hlen is_despawn) as L2. pose proof (Hlen is_other) as L3.
  destruct (commands_run k x (filter is_spawn (concat css)) 0 Hr) as (y1 & d1 & E1 & R1 & H1a & H1b); [by apply Forall_filter_keep|lia|].
  assert (Hok1 : Forall (Forall (command_ok y1.2)) css).
  { by apply (commands_ok_static x.2). }
  destruct (commands_run _ y1 (filter is_despawn (concat css)) d1 R1) as (y2 & d2 & E2 & R2 & H2a & H2b);
    [apply Forall_filter_keep; by apply Forall_concat|lia|].
  assert (Hok2 : Forall (Forall (command_ok y2.2)) css).
  { by apply (commands_ok_static y1.2). }
  destruct (commands_run _ y2 (filter is_other (concat css)) d2 R2) as (y3 & d3 & E3 & R3 & _);
    [apply Forall_filter_keep; by apply Forall_concat|lia|].
  destruct (apply_lanes _ y2 (lanes c) css d2 [] R2 Hok2 Hl) as (st & ls & E4 & E5 & Hls); [lia|].
  rewrite E3 in E4. injection E4 as <-.
  assert (Eorder : commit_in_order css x.1 = Some (y3.1, d3)).
  { unfold commit_in_order, in_order. rewrite for_each_app, E1. cbn [mbind option_bind].
    rewrite for_each_app, E2. cbn [mbind option_bind]. exact E3. }
  destruct (commit_ref_lanes n (refsLanes c) rcss (windowedRefs x.1) ss d3 [] Himp Hrl Ht Ho Hn) as (rs & rls & Erefs & Hrs & Hrls).
  assert (Hrun : world_run (k + length (in_order css)) y3).
  { unfold in_order. rewrite !length_app. replace (k + _) with (k + length (filter is_spawn (concat css)) +
      length (filter is_despawn (concat css)) + length (filter is_other (concat css))) by lia. exact R3. }
  exists y3, d3, ls, rls, rs. split; [done|]. cbn zeta. split_and!; [|done|done|done|].
  - unfold Commit. rewrite (lanes_filter is_spawn (spawn_record words) (lanes c) css) by (done || apply spawn_record_keeps).
    rewrite E1. cbn [mbind option_bind].
    rewrite (lanes_filter is_despawn (despawn_record words Size) (lanes c) css) by (done || apply despawn_record_keeps).
    rewrite E2. cbn [mbind option_bind]. rewrite E5. cbn [mbind option_bind].
    unfold commit_in_order in Eorder. rewrite (commands_keep_refs _ _ _ _ _ Eorder), Erefs. done.
  - destruct y3 as [w3 W3]. apply world_run_others; [exact Hrun| |].
    + apply Forall_forall. intros r Hin. apply list_elem_of_lookup in Hin as [i Hi]. destruct (Forall2_lookup_l _ _ _ _ _ Hrs Hi) as (s & _ & Hs).
      by eapply implement_refs_ok.
    + eapply (wm_buffers _ _ _ _ _ _ W3). eapply (world_run_sim _ _ _ _ _ (w3, W3)); [exact Hrun|].
      unfold in_order. rewrite !length_app. lia.
Qed.
End commit.

(** ** Two lanes on an entity that one of them despawns *)

Module CommitExample.
Import Example.
#[local] Existing Instances number_refs number_refs_laws number_lane_laws number_recorder number_recorder_laws.

Definition css : list (list command) := [[CSet e1 0 [x03; x04]; CRemove e1 1]; [CDespawn e1; CAdd e1 1 []]].
Definition recorded (cs : list command) : commandLane := default emptyLane (record_all cs emptyLane).

(** Two lanes on the same refs, one of which makes the ref the other sets. *)
Definition ref_changes : list (nat * list (ref_command N)) := [(0, LanesExample.changes); (0, [LSet (mkRef 11 1) 3%N])].
Definition recorded_refs (p : nat * list (ref_command N)) : refsLaneOf N := default (emptyRefsLane 0) (record_refs p.2 (emptyRefsLane p.1)).

Definition recorder : commandRecorder (refsLaneOf N) := mkRecorder (recorded <$> css) (recorded_refs <$> ref_changes).

(** The world when its refs have one that is live and one that is reserved. *)
Definition refs_then := RefsExample.after LanesExample.made (RefsExample.r0, initial_refs).
Definition state3 : exampleWorld * worldSpec := (mkWorld (entities world1) (stores world1) [refs_then.1] [recorder0], state1.2).

Lemma refs_then_implement : refs_implement_spec 4 refs_then.1 refs_then.2.
Proof.
  destruct refs_implement0 as (f & l & F & Sim).
  destruct (run_ref_sim RefsExample.isZero RefsExample.isZero_zero f l any_op 2 0 F (RefsExample.r0, initial_refs) refs_then Sim) as [F' Sim'].
  - apply (RefsExample.after_steps LanesExample.made). by vm_compute.
  - done.
  - by exists f, l, F'.
Qed.

Lemma world_run3 : world_run 1 1 9 sizes (0 + cost 1 op1) state3.
Proof.
  apply (world_run_others 1 1 9 sizes _ world1 state1.2); [exact world_run1| |].
  - constructor; [|constructor]. exact (implement_refs_ok (RefsLaneLaws := number_lane_laws) 4 _ refs_then.2 refs_then_implement eq_refl).
  - constructor; [exact recorder0_ok|constructor].
Qed.

Lemma recorded_repr cs : lane_repr (recorded cs) cs.
Proof. unfold recorded. by destruct (record_all_spec cs emptyLane [] empty_lane_repr) as (l & -> & Hl). Qed.

Lemma recorded_refs_hold p : p.1 = 0 → ref_lane_records (recorded_refs p) p.
Proof.
  destruct p as [t cs]. intros Et0. change (t = 0) in Et0. subst t. unfold recorded_refs. cbn [fst snd].
  assert (Et : ∀ (cs : list (ref_command N)) l l', record_refs cs l = Some l' → refs_target l' = refs_target l).
  { clear. induction cs as [|c cs IH]; intros l l' E; [by injection E as <-|]. unfold record_refs in E. cbn [for_each] in E.
    apply bind_Some in E as (l1 & E1 & E). rewrite (IH l1 l' E). clear IH E. destruct c; unfold SetRefCommand, ReleaseRefCommand, record_ref in E1;
      apply bind_Some in E1 as (vs & _ & E1); by apply bind_Some in E1 as ([rs j] & _ & [= <-]). }
  destruct (record_refs_repr cs _ _ (empty_refs_lane 0)) as (l & E & Hl). rewrite E. split; [exact (Et _ _ _ E)|exact Hl].
Qed.

Lemma refs_then_owed : refs_reserved refs_then.2 (LanesExample.changes ++ [LSet (mkRef 11 1) 3%N]).
Proof. apply LanesExample.reserved_by. by vm_compute. Qed.

(** The entity is despawned first, so the three other commands are dropped,
    and with them the one on a ref released before it; the ref made by the
    first lane reads what the second set. *)
Lemma commit_applies_in_order_witness :
  ∃ (y : exampleWorld * worldSpec) dropped c' r, commit_in_order 1 sizes css state3.1 = Some (y.1, dropped) ∧
    Commit 1 sizes recorder state3.1 = Some (c', mkWorld (entities y.1) (stores y.1) [r] (recorders y.1), dropped + 1) ∧
    Refs.get r (mkRef 11 1) = Some 3%N ∧ Refs.get r (mkRef 10 1) = None.
Proof.
  destruct (commit_applies_in_order (RefsLaneLaws0 := number_lane_laws) 1 1 9 sizes _ 4 state3 recorder css [refs_then.2] ref_changes world_run3)
    as (y & d & ls & rls & rs & H1 & H2 & H3 & _).
  - constructor; [apply recorded_repr|]. constructor; [apply recorded_repr|constructor].
  - repeat constructor; vm_compute; done || lia.
  - vm_compute. reflexivity.
  - constructor; [exact refs_then_implement|constructor].
  - constructor; [by apply recorded_refs_hold|]. constructor; [by apply recorded_refs_hold|constructor].
  - repeat constructor.
  - intros [|t] s Es; [|discriminate Es]. assert (s = refs_then.2) as -> by (symmetry; exact (Some_inj _ _ Es)). exact refs_then_owed.
  - vm_compute. reflexivity.
  - assert (Hl : length rs = 1) by (rewrite (Forall2_length _ _ _ H3); vm_compute; reflexivity).
    destruct rs as [|r [|]]; [discriminate Hl| |discriminate Hl]. apply Forall2_cons in H3 as [(f & l & F & Sim) _].
    exists y, d, (mkRecorder ls rls), r. refine (conj H1 (conj _ (conj _ _))).
    + rewrite H2. vm_compute (ref_lanes_dropped _ _). reflexivity.
    + rewrite (sim_get_ref _ _ _ _ _ _ (mkRef 11 1) Sim). vm_compute. reflexivity.
    + rewrite (sim_get_ref _ _ _ _ _ _ (mkRef 10 1) Sim). vm_compute. reflexivity.
Defined.
End CommitExample.
