(* ===== verification/Query.v ===== *)
(** * Queries of ecs/query.go and their generated walks

    A query's terms, what its declaration checks, and one walk over the rows
    of its smallest store.  A term reaches its store by component, so two
    terms may share one.  The address of a row is its component and row, and
    [TagRow] for the rows that have no bytes; a term's address is [None] for
    nil.  The generated walks of query_gen.go differ in their number of terms
    only.  A consumer is what a [yield] does to the world and to a state of
    its own, and whether the walk goes on; it may do what systems do to
    entities, but not give memory back. *)

From S2P Require Import Prelude Words Array Entity EntityTable Store World.

Inductive termMode := termRead | termWrite | termWith | termWithout | termOptionalRead | termOptionalWrite.

#[export] Instance termMode_eq : EqDecision termMode.
Proof. solve_decision. Defined.

Record term := mkTerm { term_store : nat; mode : termMode }.

(** [mode <= termWith], [mode >= termOptionalRead] and the modes that write. *)
Definition can_drive (t : term) : bool := match mode t with termRead | termWrite | termWith => true | _ => false end.
Definition is_optional (t : term) : bool := match mode t with termOptionalRead | termOptionalWrite => true | _ => false end.
Definition writes_store (t : term) : bool := match mode t with termWrite | termOptionalWrite => true | _ => false end.

(** ** Declaration *)

(** A term's type: [T], [*T], [With[T]], [Without[T]], [Optional[T]] and
    [Optional[*T]]. *)
Inductive term_type (C : Type) :=
  | Value (c : C) | Pointer (c : C) | With (c : C) | Without (c : C) | Optional (c : C) | OptionalPointer (c : C).
Arguments Value {C} _.
Arguments Pointer {C} _.
Arguments With {C} _.
Arguments Without {C} _.
Arguments Optional {C} _.
Arguments OptionalPointer {C} _.

Definition component_of_type {C} (t : term_type C) : C * termMode :=
  match t with
  | Value c => (c, termRead)
  | Pointer c => (c, termWrite)
  | With c => (c, termWith)
  | Without c => (c, termWithout)
  | Optional c => (c, termOptionalRead)
  | OptionalPointer c => (c, termOptionalWrite)
  end.

Inductive queryError := TermNotRegistered | NothingDrives.

(** The lock of a term's store: whether it is a write. *)
Definition declareTerm {C} (storesByType : C → option nat) (t : term_type C) : result queryError (term * bool) :=
  let '(c, m) := component_of_type t in
  match storesByType c with
  | None => Err TermNotRegistered
  | Some id => let t := mkTerm id m in Ok (t, writes_store t)
  end.

(** A mask of one bit per term, a byte: past the eighth, bits are lost. *)
Definition term_bit (i : nat) : N := (N.shiftl 1 (N.of_nat i) mod 2 ^ 8)%N.

Fixpoint term_mask (p : term → bool) (i : nat) (terms : list term) : N :=
  match terms with
  | [] => 0
  | t :: terms => N.lor (if p t then term_bit i else 0) (term_mask p (S i) terms)
  end.

Definition declareQuery (terms : list term) : result queryError (N * N) :=
  if existsb can_drive terms then Ok (term_mask writes_store 0 terms, term_mask is_optional 0 terms)
  else Err NothingDrives.

(** ** Walks *)

Inductive address := TagRow | RowOf (id row : nat).

(** Where a walk is: [drivingTerm] is -1 as [None]. *)
Record queryWalk := mkWalk {
  drivingTerm : option nat;
  marked : N;
  addresses : list (option address)
}.

Section query.
Context {R B St : Type}.
Implicit Types (w : worldResource R B) (terms : list term) (walk : queryWalk) (e : Entity) (st : St).

(** [store.address]. *)
Definition address_of (s : storeResource bytes) (id row : nat) : option address :=
  if negb (sized s) then Some TagRow else
  if decide (row / rowsPerChunk < length (valueChunks s)) then Some (RowOf id row) else None.

(** One turn of [makeQueryWalk]. *)
Definition pick_term (stores : list (storeResource bytes)) terms (i : nat) (t : term) walk : option queryWalk :=
  s ← stores !! term_store t;
  walk ← (if can_drive t then
      match drivingTerm walk with
      | None => Some (mkWalk (Some i) (marked walk) (addresses walk))
      | Some d =>
        u ← terms !! d;
        s' ← stores !! term_store u;
        Some (if decide (len s < len s') then mkWalk (Some i) (marked walk) (addresses walk) else walk)
      end
    else Some walk);
  Some (if writes_store t && bool_decide (observation s = observed)
    then mkWalk (drivingTerm walk) (N.lor (marked walk) (term_bit i)) (addresses walk) else walk).

Definition makeQueryWalk (stores : list (storeResource bytes)) terms : option queryWalk :=
  for_range (length terms) (λ i walk, t ← terms !! i; pick_term stores terms i t walk) (mkWalk None 0 (replicate 8 None)).

(** The loop of [matches] over the terms from [i] on: their rows and
    addresses, or [None] where the entity lacks one or has one it may not. *)
Fixpoint probe_terms (stores : list (storeResource bytes)) (driving : nat) e (i : nat) terms
    (rows : list nat) (adrs : list (option address)) : option (list (option address) * option (list nat)) :=
  match terms with
  | [] => Some (adrs, Some rows)
  | t :: terms =>
    if decide (i = driving) then probe_terms stores driving e (S i) terms rows adrs else
    s ← stores !! term_store t;
    '(row, ok) ← row_of s e;
    if negb (is_optional t) && Bool.eqb ok (bool_decide (mode t = termWithout)) then Some (adrs, None) else
    adrs ← list_set adrs i (if is_optional t then None else Some TagRow);
    if ok : bool then
      rows ← list_set rows i row;
      a ← address_of s (term_store t) row;
      adrs ← list_set adrs i (Some a);
      probe_terms stores driving e (S i) terms rows adrs
    else probe_terms stores driving e (S i) terms rows adrs
  end.

(** The loop of [matches] over the marked terms. *)
Definition mark_term terms (rows : list nat) (adrs : list (option address)) e (i : N) (stores : list (storeResource bytes)) :
    option (list (storeResource bytes)) :=
  a ← adrs !! N.to_nat i;
  match a with
  | None => Some stores
  | Some _ =>
    t ← terms !! N.to_nat i;
    s ← stores !! term_store t;
    row ← rows !! N.to_nat i;
    s ← markChanged s row e;
    Some (<[term_store t := s]> stores)
  end.

Definition matches (stores : list (storeResource bytes)) walk terms (drivingRow : nat) e :
    option (list (storeResource bytes) * queryWalk * bool) :=
  d ← drivingTerm walk;
  rows ← list_set (replicate 8 0) d drivingRow;
  '(adrs, found) ← probe_terms stores d e 0 terms rows (addresses walk);
  let walk := mkWalk (drivingTerm walk) (marked walk) adrs in
  match found with
  | None => Some (stores, walk, false)
  | Some rows =>
    stores ← for_bits (marked walk) (mark_term terms rows adrs e) stores;
    Some (stores, walk, true)
  end.

(** [store.chunk]: how many live rows chunk [c] has.  Its owners are read
    where they are, as a slice of the chunk does. *)
Definition chunk (s : storeResource bytes) (c : nat) : option nat :=
  _ ← AChunk (owners s) c;
  if decide (c * rowsPerChunk ≤ liveRows s) then
    if negb (sized s) then Some (Nat.min (liveRows s - c * rowsPerChunk) rowsPerChunk) else
    _ ← valueChunks s !! c;
    Some (Nat.min (liveRows s - c * rowsPerChunk) rowsPerChunk)
  else None.

(** What the consumer does with an entity and its row. *)
Definition consumer : Type := Entity → list (option address) → worldResource R B * St → option (worldResource R B * St * bool).

(** One row of the walk: the walk, the world and whether it goes on. *)
Definition walk_row terms (yield : consumer) (d row : nat) walk w st : option (queryWalk * worldResource R B * St * bool) :=
  t ← terms !! d;
  s ← stores w !! term_store t;
  e ← AAt (owners s) row;
  adrs ← list_set (addresses walk) d (Some (if sized s then RowOf (term_store t) row else TagRow));
  let walk := mkWalk (drivingTerm walk) (marked walk) adrs in
  '(stores', walk, ok) ← matches (stores w) walk terms row e;
  let w := with_stores w stores' in
  if negb ok then Some (walk, w, st, true) else
  '(w, st, go) ← yield e (take (length terms) (addresses walk)) (w, st);
  Some (walk, w, st, go).

(** [n] rows of a chunk that starts at row [base], from the last. *)
Fixpoint walk_chunk terms (yield : consumer) (d base n : nat) walk w st : option (queryWalk * worldResource R B * St * bool) :=
  match n with
  | O => Some (walk, w, st, true)
  | S r =>
    '(walk, w, st, go) ← walk_row terms yield d (base + r) walk w st;
    if go : bool then walk_chunk terms yield d base r walk w st else Some (walk, w, st, false)
  end.

(** The first [n] chunks, from the last. *)
Fixpoint walk_chunks terms (yield : consumer) (d n : nat) walk w st : option (queryWalk * worldResource R B * St * bool) :=
  match n with
  | O => Some (walk, w, st, true)
  | S c =>
    t ← terms !! d;
    s ← stores w !! term_store t;
    n ← chunk s c;
    '(walk, w, st, go) ← walk_chunk terms yield d (c * rowsPerChunk) n walk w st;
    if go : bool then walk_chunks terms yield d c walk w st else Some (walk, w, st, false)
  end.

(** How many chunks [(len - 1) >> rowShift] counts down from. *)
Definition chunks_of (n : nat) : nat := if decide (n = 0) then 0 else S ((n - 1) / rowsPerChunk).

(** [All], and the loop of a consumer over it. *)
Definition All terms (yield : consumer) w st : option (worldResource R B * St) :=
  walk ← makeQueryWalk (stores w) terms;
  d ← drivingTerm walk;
  t ← terms !! d;
  s ← stores w !! term_store t;
  '(_, w, st, _) ← walk_chunks terms yield d (chunks_of (len s)) walk w st;
  Some (w, st).

(** [Query0.All]: every live entity, in index order. *)
Definition Query0All w : list Entity := (live (entities w)).*1.

(** ** What a row gives *)

(** A term's value in a row: a copy, the address of one to write, or an
    optional of either. *)
Inductive term_given := GivenValue (v : bytes) | GivenAddress (a : option address) | GivenOptional (a : option address) (write : bool).

Definition read_address w (Size : nat → nat) (a : address) : option bytes :=
  match a with
  | TagRow => Some []
  | RowOf id row => s ← stores w !! id; value_at (H := zero_of Size id) s row
  end.

(** [size] is that of the term's type: a filter has none. *)
Definition termValue w (Size : nat → nat) (size : nat) (a : option address) (write optional : bool) : option term_given :=
  if optional then Some (GivenOptional a write) else
  if write then Some (GivenAddress a) else
  a ← a; v ← read_address w Size a; Some (GivenValue (take size v)).

(** [Row.Get]: every term's value, by the query's masks. *)
Definition RowGet w (Size : nat → nat) (sizes : list nat) (writes optionals : N) (adrs : list (option address)) :
    option (list term_given) :=
  mapM (λ i, a ← adrs !! i; size ← sizes !! i;
    termValue w Size size a (negb (N.land writes (term_bit i) =? 0)%N) (negb (N.land optionals (term_bit i) =? 0)%N))
    (seq 0 (length sizes)).

Definition OptionalHas (a : option address) : bool := bool_decide (is_Some a).

Definition OptionalGet w (Size : nat → nat) (size : nat) (a : option address) (write : bool) : option (option term_given) :=
  match a with
  | None => Some None
  | Some _ => g ← termValue w Size size a write false; Some (Some g)
  end.
End query.
