(* ===== verification/QueryFrame.v ===== *)
(** * What an entity's operations leave of a walk

    A walk goes down the rows of a store.  Operations on an entity that is
    not among the rows still ahead, writes and marks of any row, leave those
    rows and their owners where they are. *)

From stdpp Require Import relations.
From S2P Require Import Prelude Words Pool Array Entity IndexTable Mask EntityTable EntityLedger EntityTableSpec EntitySim EntityRefines.
From S2P Require Import Store StoreRepr StoreSpec StoreRefines StoreHistory World WorldSpec WorldCoherent WorldRefines Query.

(** ** Arrays *)

Section array.
Context {T : Type} `{Zero T}.
Implicit Types a : Array T.

Lemma ASet_other a i x a' j : ASet a i x = Some a' → j ≠ i → AAt a' j = AAt a j.
Proof.
  unfold ASet, AAt. intros (c & Ec & E)%bind_Some Hj. apply bind_Some in E as (c' & [Hi ->]%list_set_inv & E).
  apply bind_Some in E as (cs & [Hc ->]%list_set_inv & [= <-]). cbn [achunks].
  destruct (decide (j / chunkSize = i / chunkSize)) as [Ej|Ej].
  - rewrite Ej, list_lookup_insert_eq by done. rewrite Ec. cbn [mbind option_bind]. apply list_lookup_insert_ne.
    intros Em. apply Hj. by apply position_inj.
  - by rewrite list_lookup_insert_ne.
Qed.

Lemma AAppend_other a x a' n j y : AAppend a x = Some (a', n) → j < n → AAt a j = Some y → n = alength a ∧ AAt a' j = Some y.
Proof.
  unfold AAppend. intros (a1 & E & [= <- <-])%bind_Some Hj Hy. split; [done|].
  change (AAt (mkArray (achunks a1) (alength a1 + 1)) j) with (AAt a1 j). rewrite (ASet_other _ _ _ _ _ E) by lia.
  destruct (decide _) as [_|_]; [|done]. unfold AAt, add_chunk in *. cbn [achunks].
  destruct (achunks a !! (j / chunkSize)) as [c|] eqn:Ec; [|done]. rewrite lookup_app_l by (by eapply lookup_lt_Some). by rewrite Ec.
Qed.

Lemma ASwapRemove_other a i a' n j : ASwapRemove a i = Some (a', n) → j ≠ i → AAt a' j = AAt a j.
Proof.
  unfold ASwapRemove. destruct (decide _); [done|]. intros (x & _ & E)%bind_Some Hj. apply bind_Some in E as (a1 & E & [= <- _]).
  by apply (ASet_other _ _ _ _ _ E).
Qed.
End array.

(** ** Stores *)

Section store.
Context {V : Type} `{Zero V} `{EqDecision V}.
Implicit Types (s : storeResource V) (e : Entity) (r row : nat) (os : list Entity).

(** The rows below [r] are live and [os] are their owners. *)
Definition below r os s : Prop := r ≤ liveRows s ∧ ∀ i x, i < r → os !! i = Some x → AAt (owners s) i = Some x.

(** [s'] has the rows of [s] below [r]. *)
Definition kept r s s' : Prop := r ≤ liveRows s' ∧ ∀ i x, i < r → AAt (owners s) i = Some x → AAt (owners s') i = Some x.

Lemma below_kept r os s s' : below r os s → kept r s s' → below r os s'.
Proof. intros [_ Hb] [Hl Hk]. split; [done|]. intros i x Hi Hx. by apply Hk, Hb. Qed.

Lemma kept_trans r s1 s2 s3 : kept r s1 s2 → kept r s2 s3 → kept r s1 s3.
Proof. intros [_ H1] [Hl H2]. split; [done|]. intros i x Hi Hx. by apply H2, H1. Qed.

Definition same_rows s s' : Prop := owners s' = owners s ∧ liveRows s' = liveRows s.

Lemma same_kept r s s' : same_rows s s' → r ≤ liveRows s → kept r s s'.
Proof. intros [Eo El] Hr. split; [by rewrite El|]. by rewrite Eo. Qed.

Lemma same_refl s : same_rows s s.
Proof. done. Qed.

Lemma same_trans s1 s2 s3 : same_rows s1 s2 → same_rows s2 s3 → same_rows s1 s3.
Proof. intros [E1 E2] [E3 E4]. split; congruence. Qed.

Lemma set_state_same s row x s' : set_state s row x = Some s' → same_rows s s'.
Proof. by intros (a & _ & [= <-])%bind_Some. Qed.
Lemma set_link_same s i x s' : set_link s i x = Some s' → same_rows s s'.
Proof. by intros (t & _ & [= <-])%bind_Some. Qed.
Lemma value_set_same s row v s' : value_set s row v = Some s' → same_rows s s'.
Proof. by intros (c & _ & [= <-])%bind_Some. Qed.
Lemma shadow_set_same s row v s' : shadow_set s row v = Some s' → same_rows s s'.
Proof. by intros (c & _ & [= <-])%bind_Some. Qed.
Lemma listChanged_rows s e : same_rows s (listChanged s e).
Proof. unfold listChanged. by destruct (decide _). Qed.

Lemma markChanged_same s row e s' : markChanged s row e = Some s' → same_rows s s'.
Proof.
  unfold markChanged. destruct (negb _); [by intros [= <-]|]. intros (x & _ & E)%bind_Some. destruct (decide _); [|by injection E as <-].
  apply bind_Some in E as (s1 & E1%set_state_same & [= <-]). eapply same_trans; [done|]. apply listChanged_rows.
Qed.

Lemma write_same s e s' o : write s e = Some (s', o) → same_rows s s'.
Proof.
  unfold write. destruct (linked s (index e)) as [row|]; [|by intros [= <- _]]. destruct (decide _); [by intros [= <- _]|].
  intros (x & _ & E)%bind_Some. destruct (negb _); [by injection E as <- _|].
  apply bind_Some in E as (s1 & E1%markChanged_same & [= <- _]). done.
Qed.

Lemma set_owner_kept r s row e s' : set_owner s row e = Some s' → r ≤ row → r ≤ liveRows s → kept r s s'.
Proof.
  intros (a & E & [= <-])%bind_Some Hr Hl. split; [done|]. intros i x Hi Hx. cbn [owners with_owners].
  rewrite (ASet_other _ _ _ _ _ E) by lia. done.
Qed.

Lemma swap_kept r s a b s' : swap s a b = Some s' → r ≤ a → r ≤ b → r ≤ liveRows s → kept r s s' ∧ liveRows s' = liveRows s.
Proof.
  intros E Ha Hb Hl. unfold swap in E. destruct (decide (a = b)); [injection E as <-; by split; [apply same_kept|]|].
  apply bind_Some in E as (oa & _ & E). apply bind_Some in E as (ob & _ & E). apply bind_Some in E as (sb & _ & E).
  apply bind_Some in E as (s1 & E1%set_link_same & E). apply bind_Some in E as (s2 & E2 & E).
  assert (S2 : same_rows s s2).
  { eapply same_trans; [done|]. destruct (_ =? _)%N; [by eapply set_link_same|by injection E2 as <-]. }
  apply bind_Some in E as (s3 & E3 & E). apply bind_Some in E as (s4 & E4 & E).
  assert (K2 : kept r s s2) by (by apply same_kept). pose proof (proj1 K2) as L2.
  pose proof (set_owner_kept r _ _ _ _ E3 Ha L2) as K3. pose proof (set_owner_kept r _ _ _ _ E4 Hb (proj1 K3)) as K4.
  assert (E34 : liveRows s4 = liveRows s2).
  { apply bind_Some in E3 as (? & _ & [= <-]). by apply bind_Some in E4 as (? & _ & [= <-]). }
  apply bind_Some in E as (xa & _ & E). apply bind_Some in E as (xb & _ & E).
  apply bind_Some in E as (s5 & E5%set_state_same & E). apply bind_Some in E as (s6 & E6%set_state_same & E).
  apply bind_Some in E as (va & _ & E). apply bind_Some in E as (vb & _ & E).
  apply bind_Some in E as (s7 & E7%value_set_same & E). apply bind_Some in E as (s8 & E8%value_set_same & E).
  apply bind_Some in E as (ha & _ & E). apply bind_Some in E as (hb & _ & E).
  apply bind_Some in E as (s9 & E9%shadow_set_same & E10%shadow_set_same).
  assert (S10 : same_rows s4 s') by (do 5 (eapply same_trans; [done|]); done). split.
  - apply (kept_trans r s s2); [done|]. apply (kept_trans r s2 s3); [done|]. apply (kept_trans r s3 s4); [done|].
    apply same_kept; [done|]. by rewrite E34, (proj2 S2).
  - by rewrite (proj2 S10), E34, (proj2 S2).
Qed.

Lemma remove_kept r s e row s' : Store.remove s e row = Some s' → r ≤ row → row < liveRows s → kept r s s'.
Proof.
  intros E Hr Hrow. unfold Store.remove in E. destruct (decide _); [done|]. set (last := liveRows s - 1) in *.
  assert (K0 : kept r s (with_live s last)) by (split; cbn; [lia|done]).
  destruct (bool_decide _).
  - apply bind_Some in E as (s1 & E1 & E).
    destruct (swap_kept r _ _ _ _ E1) as [K1 L1]; [done|unfold last; lia|cbn; unfold last; lia|].
    pose proof (kept_trans _ _ _ _ K0 K1) as K. apply bind_Some in E as (x & _ & E).
    assert (S1 : same_rows s1 s').
    { destruct x; try (by apply set_state_same in E). eapply same_trans; [apply listChanged_rows|by eapply set_state_same]. }
    apply (kept_trans r s s1); [done|]. apply same_kept; [done|]. by apply K1.
  - apply bind_Some in E as ([a i] & E1 & E). apply bind_Some in E as (s1 & E2 & E3%set_link_same).
    assert (K1 : kept r (with_live s last) (with_owners (with_live s last) a)).
    { split; cbn; [unfold last; lia|]. intros j x Hi Hx. by rewrite (ASwapRemove_other _ _ _ _ _ E1) by lia. }
    assert (S1 : same_rows (with_owners (with_live s last) a) s').
    { eapply same_trans; [|done]. destruct (decide _); [by injection E2 as <-|].
      apply bind_Some in E2 as (m & _ & E2). apply bind_Some in E2 as (s2 & E4%set_link_same & E2).
      apply bind_Some in E2 as (v & _ & E2%value_set_same). by eapply same_trans. }
    apply (kept_trans r s (with_live s last)); [done|]. eapply kept_trans; [done|]. apply same_kept; [done|apply K1].
Qed.
Lemma add_row_kept r s e s' row : add_row s e = Some (s', row) → r ≤ liveRows s → liveRows s ≤ ALen (owners s) → kept r s s'.
Proof.
  unfold add_row. intros ([a n] & E1 & E)%bind_Some Hr Hl. apply bind_Some in E as (t & _ & E). apply bind_Some in E as (s1 & E2 & [= <- _]).
  set (s0 := with_links _ t) in E2.
  assert (K0 : kept r s s0 ∧ liveRows s0 = liveRows s ∧ n = ALen (owners s)).
  { assert (En : n = ALen (owners s)) by (unfold AAppend in E1; by apply bind_Some in E1 as (? & _ & [= _ <-])).
    assert (Eo : owners s0 = a) by (unfold s0; by repeat case_match). assert (El : liveRows s0 = liveRows s) by (unfold s0; by repeat case_match).
    split_and!; [|done|done]. split; [by rewrite El|]. intros i x Hi Hx. rewrite Eo.
    by apply (AAppend_other _ _ _ _ _ _ E1); [lia|]. }
  clearbody s0. destruct K0 as (K0 & L0 & ->). assert (K1 : kept r s s1).
  { destruct (bool_decide _); [|by injection E2 as <-]. apply bind_Some in E2 as ([st m] & _ & E2).
    apply (kept_trans r s s0); [done|]. apply (kept_trans r s0 (listChanged (with_states s0 st) e)).
    - apply same_kept; [|by rewrite L0]. eapply same_trans; [|apply listChanged_rows]. done.
    - assert (Ll : liveRows (listChanged (with_states s0 st) e) = liveRows s) by (by rewrite (proj2 (listChanged_rows _ _))).
      apply (swap_kept r _ _ _ _ E2); rewrite ?Ll; lia. }
  destruct K1 as [Hl1 K1]. by split; [cbn; lia|].
Qed.

Lemma tailRow_live s e row : tailRow s e = Some (row, true) → liveRows s ≤ row.
Proof.
  unfold tailRow. destruct (linked s (index e)) as [n|]; [|done]. destruct (decide _) as [[Hl _]|]; [|done].
  by intros (o & _ & [= <- _])%bind_Some.
Qed.

Lemma add_kept r s e s' row : add s e = Some (s', row) → r ≤ liveRows s → liveRows s ≤ ALen (owners s) → kept r s s'.
Proof.
  unfold add. intros E Hr Hl. destruct (bool_decide _); [|by eapply add_row_kept]. apply bind_Some in E as ([n ok] & Et & E).
  destruct ok.
  - apply tailRow_live in Et. apply bind_Some in E as (s1 & E1 & E). destruct (swap_kept r _ _ _ _ E1) as [K1 L1]; [lia..|].
    apply bind_Some in E as (x & _ & E). apply bind_Some in E as (s2 & E2%set_state_same & [= <- _]).
    apply (kept_trans r s s1); [done|]. destruct E2 as [Eo El]. split; cbn; [lia|]. by rewrite Eo.
  - match type of E with add_row ?x _ = _ => set (s0 := x) in * end.
    assert (S0 : same_rows s s0) by (unfold s0; destruct (at_ _ _) as [x|]; [by destruct (negb _)|done]).
    apply (kept_trans r s s0); [by apply same_kept|]. destruct S0 as [Eo El]. apply (add_row_kept _ _ _ _ _ E); rewrite ?Eo, ?El; done.
Qed.

(** The row of an entity that owns none of the rows below [r] is not below. *)
Lemma row_of_above r os s e row ok :
  below r os s → r ≤ length os → (∀ i, i < r → os !! i ≠ Some e) → row_of s e = Some (row, ok) → ok = true → r ≤ row ∧ row < liveRows s.
Proof.
  intros [_ Hb] Hl Hne E ->. unfold row_of in E. destruct (linked s (index e)) as [n|]; [|done]. destruct (decide _) as [Hlt|]; [|done].
  apply bind_Some in E as (o & Eo & [= <- Ee%N.eqb_eq]). split; [|done]. subst o. destruct (decide (r ≤ n)) as [|Hn]; [done|].
  exfalso. destruct (lookup_lt_is_Some_2 os n) as [x Hx]; [lia|]. pose proof (Hb n x ltac:(lia) Hx) as Hx'. rewrite Eo in Hx'.
  injection Hx' as <-. by apply (Hne n); [lia|].
Qed.
End store.

(** ** Worlds *)

(** An operation on one entity. *)
Definition on_entity (e : Entity) (op : world_op) : Prop :=
  match op with WAdd e' _ _ | WWrite e' _ _ | WRemove e' _ | WDespawn e' => e' = e | _ => False end.

Section world.
Context (words : nat) (Size : nat → nat).
Context {R B : Type} `{WindowedLaws R} `{ShrinkerLaws B}.
Implicit Types (w : worldResource R B) (e : Entity) (r d : nat) (os : list Entity).

(** Component [d]'s rows below [r] are still ahead, and [os] own them. *)
Definition ahead r d os w : Prop := ∃ s, stores w !! d = Some s ∧ below r os s.

Lemma ahead_with_store r d os w id s s' :
  ahead r d os w → stores w !! id = Some s → (id = d → below r os s → below r os s') → ahead r d os (with_store w id s').
Proof using Type.
  intros (s0 & E0 & Hb) Es Hs. cbn. unfold ahead. cbn [stores with_store with_stores]. destruct (decide (id = d)) as [->|Hn].
  - exists s'. split; [apply list_lookup_insert_eq; by eapply lookup_lt_Some|]. apply Hs; [done|]. congruence.
  - exists s0. by rewrite list_lookup_insert_ne.
Qed.

Lemma ahead_table r d os w t : ahead r d os w → ahead r d os (with_entities w t).
Proof using Type. done. Qed.

(** What the operations below owe: the entity owns none of the rows ahead,
    and every store's live rows are among its rows. *)
Definition elsewhere (r : nat) e os : Prop := r ≤ length os ∧ ∀ i, i < r → os !! i ≠ Some e.
Definition rows_live w : Prop := ∀ id s, stores w !! id = Some s → liveRows s ≤ ALen (owners s).

Lemma write_row_ahead r d os w id row v w' : ahead r d os w → write_row w id row v = Some w' → ahead r d os w'.
Proof using Type.
  intros Ha (s & Es & E)%bind_Some. apply bind_Some in E as (s' & E%value_set_same & [= <-]).
  eapply ahead_with_store; [done|done|]. intros _ Hb. eapply below_kept; [done|]. apply same_kept; [done|apply Hb].
Qed.

Lemma put_ahead r d os w e id w' row :
  ahead r d os w → rows_live w → put Size w e id = Some (w', row) → ahead r d os w'.
Proof using Type.
  intros Ha Hl (s & Es & E)%bind_Some. destruct (negb _); [by injection E as <- _|].
  apply bind_Some in E as ([s1 [n|]] & E1 & E).
  - injection E as <- _. apply write_same in E1. eapply ahead_with_store; [done|done|]. intros _ Hb.
    eapply below_kept; [done|]. apply same_kept; [done|apply Hb].
  - apply write_same in E1 as [Eo El]. apply bind_Some in E as ([s2 n] & E2 & E). apply bind_Some in E as (t & _ & [= <- _]).
    apply ahead_table. eapply ahead_with_store; [done|done|]. intros _ Hb. eapply below_kept; [done|].
    destruct (add_kept (H := zero_of Size id) r s1 e s2 n E2) as [Hl2 Hk2]; [rewrite El; apply Hb|rewrite El, Eo; by eapply Hl|].
    split; [done|]. by rewrite <- Eo.
Qed.

Lemma remove_ahead r d os w e id w' b :
  ahead r d os w → elsewhere r e os → remove Size w e id = Some (w', b) → ahead r d os w'.
Proof using Type.
  intros Ha [Hl He] (s & Es & E)%bind_Some. apply bind_Some in E as ([row ok] & Er & E). destruct ok; [|by injection E as <- _].
  apply bind_Some in E as (s' & E1 & E). apply bind_Some in E as (t & _ & [= <- _]). apply ahead_table.
  eapply ahead_with_store; [done|done|]. intros _ Hb. destruct (row_of_above r os s e row true) as [Hr Hrow]; [done..|].
  eapply below_kept; [done|]. by apply (remove_kept (H := zero_of Size id) r s e row).
Qed.

(** Every component of [ids] is one the entity has. *)
Lemma despawn_loop_ahead r d os e ids w w' :
  ahead r d os w → elsewhere r e os → NoDup ids →
  (∀ id s, id ∈ ids → stores w !! id = Some s → ∃ row, row_of s e = Some (row, true)) →
  for_each ids (despawn_row Size e) w = Some w' → ahead r d os w'.
Proof using Type.
  intros Ha Hel Hn. revert w Ha. induction Hn as [|id ids Hid Hn IH]; intros w Ha Hrow E; cbn [for_each] in E; [by injection E as <-|].
  apply bind_Some in E as (w1 & (s & Es & E1)%bind_Some & E). apply bind_Some in E1 as ([row ok] & Er & E1).
  apply bind_Some in E1 as (s' & E1 & [= <-]). destruct (Hrow id s) as [row' Er']; [by left|done|].
  rewrite Er in Er'. injection Er' as <- ->. refine (IH _ _ _ E).
  - eapply ahead_with_store; [done|done|]. intros _ Hb. destruct (row_of_above r os s e row true) as [Hr Hlt]; [done|by apply Hel..|done|done|].
    eapply below_kept; [done|]. by apply (remove_kept (H := zero_of Size id) r s e row).
  - intros id' s0 Hid' Hs0. cbn in Hs0. rewrite list_lookup_insert_ne in Hs0 by (intros ->; done). apply (Hrow id'); [by right|done].
Qed.

Context (first last : N).
#[local] Abbreviation world_sim := (world_sim words first last Size).

Lemma sim_rows_live k w W : world_sim k w W → rows_live w.
Proof using Type.
  intros HW id s Hs. destruct (wm_rows _ _ _ _ _ _ _ HW) as [_ Hr]. destruct (Hr id s Hs) as (o & _ & _ & (rows & Hrep & _) & _).
  unfold ALen. rewrite (array_length _ _ (sr_owners _ _ Hrep)), length_fmap. apply (sr_live _ _ Hrep).
Qed.

Lemma despawn_ahead k r d os w W e w' b :
  world_sim k w W → (e < 2 ^ 64)%N → ahead r d os w → elsewhere r e os → despawn words Size w e = Some (w', b) → ahead r d os w'.
Proof using Type.
  intros HW He Ha Hel E. pose proof HW as [(F & D & HS) [Hlen Hr] C _ _].
  destruct (despawn_spec words first last k k _ _ _ _ e HS He) as (t' & m & ok & T' & F' & D' & Et & Hs & _).
  unfold despawn in E. rewrite Et in E. cbn [mbind option_bind] in E.
  inversion Hs as [| | | | | | | |e0 m0 Hm|e0 Hn| | | |]; subst; cbn [negb] in E; [|by injection E as <- _].
  destruct (co_mask_ok _ _ _ C e m Hm) as [Hl Hb]. rewrite (maskIDs_spec m Hb) in E. cbn [mbind option_bind] in E.
  apply bind_Some in E as (w1 & E & [= <- _]). refine (despawn_loop_ahead r d os e _ _ _ _ Hel _ _ E); [done|apply NoDup_filter, NoDup_seq|].
  intros id s Hid Hs0. cbn in Hs0. destruct (Hr id s Hs0) as (o & Ho & _ & Hsim & _).
  apply list_elem_of_filter in Hid as [Hid _]. apply (co_masks _ _ _ C e m id Hm) in Hid as (v & o' & Ho' & Hv).
  assert (o' = o) as -> by congruence. pose proof (sim_get (H := zero_of Size id) s o.2 e Hsim) as Hg. rewrite Hv in Hg.
  destruct Hg as (row & _ & Hrow & _). by exists row.
Qed.

(** An operation on an entity elsewhere leaves the rows ahead. *)
Lemma on_entity_ahead k r d os w W e op w' answer :
  world_sim k w W → ahead r d os w → elsewhere r e os → on_entity e op → world_op_ok words Size W op →
  run_world words Size w op = Some (w', answer) → ahead r d os w'.
Proof using Type.
  intros HW Ha Hel Hop Hok E. pose proof (sim_rows_live k w W HW) as Hl.
  destruct op as [op|e'|e' id v|e' id v|e' id|m values|e' m values|id| |]; try done; cbn in Hop; subst e'; cbn [run_world] in E;
    apply bind_Some in E as ([w1 b] & E & [= <- _]).
  - by eapply despawn_ahead.
  - unfold Add in E. apply bind_Some in E as ([w2 [row|]] & Ep & E).
    + apply bind_Some in E as (w3 & Ew & [= <- _]). eapply write_row_ahead; [|done]. by eapply put_ahead.
    + injection E as <- _. by eapply put_ahead.
  - unfold Write in E. apply bind_Some in E as (s & Es & E). apply bind_Some in E as ([s' [row|]] & E1%write_same & E).
    + apply bind_Some in E as (w3 & Ew & [= <- _]). eapply write_row_ahead; [|done]. eapply ahead_with_store; [done|done|].
      intros _ Hb. eapply below_kept; [done|]. apply same_kept; [done|apply Hb].
    + injection E as <- _. eapply ahead_with_store; [done|done|]. intros _ Hb. eapply below_kept; [done|]. apply same_kept; [done|apply Hb].
  - by eapply remove_ahead.
Qed.
End world.
