(* ===== verification/QueryMatch.v ===== *)
(** * How a query matches an entity

    The walk's probing and marking, against the stores' own [get] and
    [write]: an entity matches when it has and lacks what the terms say, the
    addresses are the ones its stores answer, and its rows are marked as
    [write] marks them. *)

From Stdlib Require Import Strings.Byte.
From S2P Require Import Prelude Words Pool Array Entity IndexTable Mask EntityTable EntityLedger EntityTableSpec EntitySim EntityRefines.
From S2P Require Import Store StoreRepr StoreSpec StoreRefines StoreHistory World WorldSpec WorldCoherent WorldRefines WorldSteps.
From S2P Require Import Query QueryFrame.

(** ** What a query means *)

Definition term_holds (W : worldSpec) (e : Entity) (t : term) : bool :=
  match mode t with
  | termRead | termWrite | termWith => stored W e (term_store t)
  | termWithout => negb (stored W e (term_store t))
  | termOptionalRead | termOptionalWrite => true
  end.

(** The entity satisfies every term. *)
Definition query_matches (W : worldSpec) (terms : list term) (e : Entity) : bool := forallb (term_holds W e) terms.

Section reference.
Context {R B St : Type}.
Implicit Types (w : worldResource R B) (e : Entity) (t : term).

(** A term's address in [e]: what its store's [get] answers. *)
Definition find_address w e t : option (option address) :=
  s ← stores w !! term_store t;
  if decide (mode t = termWithout) then Some (Some TagRow) else
  value ← get s e;
  match value with
  | None => Some None
  | Some row => a ← address_of s (term_store t) row; Some (Some a)
  end.

(** [write] of a term that writes. *)
Definition mark_row e t w : option (worldResource R B) :=
  if writes_store t then
    s ← stores w !! term_store t;
    '(s, _) ← write s e;
    Some (with_store w (term_store t) s)
  else Some w.

(** The consumer called with an entity found by its terms' stores. *)
Definition visit (terms : list term) (yield : consumer) e (st : worldResource R B * St) : option (worldResource R B * St * bool) :=
  let '(w, s) := st in
  adrs ← mapM (find_address w e) terms;
  w ← for_each terms (mark_row e) w;
  yield e adrs (w, s).

(** A loop that stops when its body says so, and whether it did not. *)
Fixpoint for_until {A S : Type} (l : list A) (body : A → S → option (S * bool)) (s : S) : option (S * bool) :=
  match l with
  | [] => Some (s, true)
  | x :: l => '(s, go) ← body x s; if go : bool then for_until l body s else Some (s, false)
  end.
End reference.

(** ** Bits *)

Lemma term_bit_testbit i j : i < 8 → N.testbit (term_bit i) (N.of_nat j) = bool_decide (j = i).
Proof.
  intros Hi. unfold term_bit. rewrite N.shiftl_1_l, N.mod_small by (apply N.pow_lt_mono_r; lia). rewrite testbit_pow2.
  apply bool_decide_ext. lia.
Qed.

Lemma term_bit_bound i : (term_bit i < 2 ^ 8)%N.
Proof. unfold term_bit. by apply N.mod_lt. Qed.

Lemma for_each_filter {A St} (p : A → bool) (l : list A) (f : A → St → option St) s :
  for_each (filter (λ x, p x = true) l) f s = for_each l (λ x s, if p x then f x s else Some s) s.
Proof.
  revert s. induction l as [|x l IH]; intros s; [done|]. rewrite filter_cons. cbn [for_each]. destruct (p x) eqn:E.
  - rewrite decide_True by done. cbn [for_each]. destruct (f x s); [apply IH|done].
  - rewrite decide_False by done. apply IH.
Qed.

Lemma for_each_skip {A St} (l : list A) (f : A → St → option St) s : (∀ x s, x ∈ l → f x s = Some s) → for_each l f s = Some s.
Proof.
  revert s. induction l as [|x l IH]; intros s Hf; [done|]. cbn. rewrite Hf by (by left). apply IH. intros y s' Hy. apply Hf. by right.
Qed.

Lemma for_each_app_l {A St} (l k : list A) (f : A → St → option St) s : for_each (l ++ k) f s = (s' ← for_each l f s; for_each k f s').
Proof. revert s. induction l as [|x l IH]; intros s; cbn; [done|]. destruct (f x s); [apply IH|done]. Qed.

Lemma for_each_fmap {A B St} (g : A → B) (l : list A) (f : B → St → option St) s :
  for_each (g <$> l) f s = for_each l (λ x, f (g x)) s.
Proof. revert s. induction l as [|x l IH]; intros s; [done|]. cbn. destruct (f (g x) s); [apply IH|done]. Qed.

(** ** Rows *)

Section store.
Context {V : Type} `{Zero V} `{EqDecision V}.
Implicit Types (s : storeResource V) (e : Entity).

(** Stores that find the same rows. *)
Record same_index s s' : Prop := {
  si_links : rowByIndex s' = rowByIndex s;
  si_owners : owners s' = owners s;
  si_live : liveRows s' = liveRows s;
  si_observation : observation s' = observation s;
  si_sized : sized s' = sized s;
  si_values : valueChunks s' = valueChunks s
}.

Lemma same_index_refl s : same_index s s.
Proof. done. Qed.

Lemma same_index_trans s1 s2 s3 : same_index s1 s2 → same_index s2 s3 → same_index s1 s3.
Proof. intros [] []. split; congruence. Qed.

Lemma listChanged_index s e : same_index s (listChanged s e).
Proof. unfold listChanged. by destruct (decide _). Qed.

Lemma markChanged_index s row e s' : markChanged s row e = Some s' → same_index s s'.
Proof.
  unfold markChanged. destruct (negb _); [by intros [= <-]|]. intros (x & _ & E)%bind_Some. destruct (decide _); [|by injection E as <-].
  apply bind_Some in E as (s1 & (a & _ & [= <-])%bind_Some & [= <-]). apply (same_index_trans s (with_states s a)); [done|apply listChanged_index].
Qed.

(** [write] marks the row [get] finds. *)
Lemma get_write s s' e v :
  get s e = Some v → same_index s s' →
  write s' e = match v with None => Some (s', None) | Some row => s'' ← markChanged s' row e; Some (s'', Some row) end.
Proof.
  intros Hg [El Eo Ev _ _ _]. unfold get in Hg. unfold write, linked. rewrite El, Eo, Ev. fold (linked s (index e)).
  destruct (linked s (index e)) as [row|]; [|by injection Hg as <-]. destruct (decide _); [by injection Hg as <-|].
  destruct (AAt (owners s) row) as [o|]; [|done]. cbn [mbind option_bind] in *. destruct (negb _); by injection Hg as <-.
Qed.

Lemma write_index s e s' o : write s e = Some (s', o) → same_index s s'.
Proof.
  unfold write. destruct (linked s (index e)) as [row|]; [|by intros [= <- _]]. destruct (decide _); [by intros [= <- _]|].
  intros (x & _ & E)%bind_Some. destruct (negb _); [by injection E as <- _|].
  by apply bind_Some in E as (s1 & E1%markChanged_index & [= <- _]).
Qed.

(** An unobserved store marks nothing. *)
Lemma write_unobserved s e s' o : observation s ≠ observed → write s e = Some (s', o) → s' = s.
Proof.
  intros Ho. unfold write, markChanged. destruct (linked s (index e)) as [row|]; [|by intros [= <- _]]. destruct (decide _); [by intros [= <- _]|].
  intros (x & _ & E)%bind_Some. destruct (negb (x =? e)%N); [by injection E as <- _|].
  rewrite bool_decide_eq_false_2 in E by done. by injection E as <- _.
Qed.
End store.

(** ** Matching *)

Section match_.
Context (words : nat) (first last : N) (Size : nat → nat).
Context {R B : Type} `{WindowedLaws R} `{ShrinkerLaws B}.
Implicit Types (w : worldResource R B) (W : worldSpec) (e : Entity) (t : term) (terms : list term).

#[local] Abbreviation world_sim := (world_sim words first last Size).

Definition in_world W t : Prop := term_store t < length (ws_stores W).

(** What a store answers of an entity, by what its promise holds of it. *)
Lemma store_finds k w W e t :
  world_sim k w W → in_world W t → ∃ s, stores w !! term_store t = Some s ∧
    if stored W e (term_store t)
    then ∃ row a, get s e = Some (Some row) ∧ row_of s e = Some (row, true) ∧ address_of s (term_store t) row = Some a
    else get s e = Some None ∧ ∃ row, row_of s e = Some (row, false).
Proof using Type.
  intros HW Hid. destruct (rows_lookup _ _ _ _ _ (wm_rows _ _ _ _ _ _ _ HW) Hid) as (s & o & Es & Eo & _ & Hsim & _).
  exists s. split; [done|]. unfold stored. rewrite Eo. pose proof (sim_get (H := zero_of Size _) s o.2 e Hsim) as Hg.
  destruct (st_live o.2 !! e) as [v|]; [|done]. destruct Hg as (row & Eg & Er & Ev). rewrite bool_decide_eq_true_2 by done.
  unfold value_at, chunk_read in Ev. exists row. unfold address_of. destruct (sized s); cbn [negb] in *; [|by eexists].
  apply bind_Some in Ev as (c & Ec & _). rewrite decide_True by (by eapply lookup_lt_Some). by eexists.
Qed.

(** What the walk knows of term [i]: its address, and its row where marked. *)
Definition term_found w e (rows : list nat) (adrs : list (option address)) (i : nat) t : Prop :=
  ∃ a s v, find_address w e t = Some a ∧ adrs !! i = Some a ∧ stores w !! term_store t = Some s ∧ get s e = Some v ∧
    (mode t ≠ termWithout → match v with None => a = None | Some row => is_Some a ∧ rows !! i = Some row end).

Lemma term_found_set w e rows adrs rows' adrs' i t :
  rows' !! i = rows !! i → adrs' !! i = adrs !! i → term_found w e rows adrs i t → term_found w e rows' adrs' i t.
Proof using Type. intros Er Ea (a & s & v & ?). exists a, s, v. by rewrite Er, Ea. Qed.

(** The loop over the terms from the [i]-th: what is before stays. *)
Lemma probe_terms_spec k w W e d terms i rows adrs :
  world_sim k w W → Forall (in_world W) terms → length rows = 8 → length adrs = 8 → i + length terms ≤ 8 →
  (∀ t, i ≤ d → terms !! (d - i) = Some t → term_holds W e t = true ∧ term_found w e rows adrs d t) →
  ∃ adrs' found, probe_terms (stores w) d e i terms rows adrs = Some (adrs', found) ∧ length adrs' = 8 ∧
    match found with
    | None => query_matches W terms e = false
    | Some rows' => query_matches W terms e = true ∧ length rows' = 8 ∧
        (∀ j, j < i → rows' !! j = rows !! j ∧ adrs' !! j = adrs !! j) ∧
        ∀ j t, terms !! j = Some t → term_found w e rows' adrs' (i + j) t
    end.
Proof using Type.
  intros HW. revert i rows adrs. induction terms as [|t terms IH]; intros i rows adrs Hin Hlr Hla Hi Hd; cbn [probe_terms].
  { exists adrs, (Some rows). by split_and!. }
  apply Forall_cons in Hin as [Ht Hin]. cbn [length] in Hi.
  assert (Hdone : ∀ rows1 adrs1, length rows1 = 8 → length adrs1 = 8 → term_holds W e t = true →
    term_found w e rows1 adrs1 i t → (∀ j, j ≠ i → rows1 !! j = rows !! j ∧ adrs1 !! j = adrs !! j) →
    ∃ adrs' found, probe_terms (stores w) d e (S i) terms rows1 adrs1 = Some (adrs', found) ∧ length adrs' = 8 ∧
      match found with
      | None => query_matches W (t :: terms) e = false
      | Some rows' => query_matches W (t :: terms) e = true ∧ length rows' = 8 ∧
          (∀ j, j < i → rows' !! j = rows !! j ∧ adrs' !! j = adrs !! j) ∧
          ∀ j u, (t :: terms) !! j = Some u → term_found w e rows' adrs' (i + j) u
      end).
  { intros rows1 adrs1 Hr1 Ha1 Hh Hf Hsame. destruct (IH (S i) rows1 adrs1 Hin Hr1 Ha1) as (adrs' & found & E & Hl & Hfound); [lia| |].
    { intros u Hu Eu. destruct (Hd u) as [Hhu Hfu]; [lia|by replace (d - i) with (S (d - S i)) by lia|]. split; [done|].
      destruct (Hsame d) as [E1 E2]; [lia|]. by eapply term_found_set. }
    exists adrs', found. split; [done|]. split; [done|]. cbn [query_matches forallb]. rewrite Hh.
    destruct found as [rows'|]; [|done]. destruct Hfound as (Hm & Hl' & Hold & Hnew). split_and!; [done|done| |].
    - intros j Hj. destruct (Hold j) as [-> ->]; [lia|]. apply Hsame. lia.
    - intros [|j] u Eu; cbn in Eu.
      + injection Eu as <-. rewrite Nat.add_0_r. destruct (Hold i) as [E1 E2]; [lia|]. by eapply term_found_set.
      + replace (i + S j) with (S i + j) by lia. by apply Hnew. }
  destruct (decide (i = d)) as [->|Hid].
  { destruct (Hd t) as [Hh Hf]; [done|by rewrite Nat.sub_diag|]. by apply Hdone. }
  destruct (store_finds k w W e t HW Ht) as (s & Es & Hs). rewrite Es. cbn [mbind option_bind].
  destruct (stored W e (term_store t)) eqn:Est.
  - destruct Hs as (row & a & Eg & -> & Ea). cbn [mbind option_bind]. rewrite Ea.
    assert (Hset : ∀ x, list_set adrs i x = Some (<[i := x]> adrs)) by (intros; apply list_set_Some; lia).
    assert (Hset2 : ∀ x y, list_set (<[i := x]> adrs) i y = Some (<[i := y]> (<[i := x]> adrs)))
      by (intros; apply list_set_Some; rewrite length_insert; lia).
    assert (Hcase : mode t = termWithout ∨ term_holds W e t = true ∧ mode t ≠ termWithout ∧
      negb (is_optional t) && Bool.eqb true (bool_decide (mode t = termWithout)) = false).
    { unfold term_holds, is_optional. rewrite Est. by destruct (mode t); [right..|left|right|right]. }
    destruct Hcase as [Hm|(Hh & Hm & ->)].
    + assert (Ho : is_optional t = false) by (unfold is_optional; by rewrite Hm). rewrite Ho, Hm. cbn.
      exists adrs, None. split_and!; [done|done|]. cbn. unfold term_holds. by rewrite Hm, Est.
    + rewrite Hset. cbn [mbind option_bind]. rewrite (list_set_Some rows) by lia. cbn [mbind option_bind]. rewrite Hset2. cbn [mbind option_bind].
      apply Hdone; [by rewrite length_insert|by rewrite !length_insert|done| |].
      * exists (Some a), s, (Some row). split_and!; [|by rewrite list_lookup_insert_eq by (by rewrite length_insert; lia)|done|done|].
        -- unfold find_address. rewrite Es. cbn [mbind option_bind]. rewrite decide_False, Eg by done. cbn [mbind option_bind]. by rewrite Ea.
        -- intros _. split; [done|]. by rewrite list_lookup_insert_eq by lia.
      * intros j Hj. by rewrite !list_lookup_insert_ne.
  - destruct Hs as (Eg & row & ->). cbn [mbind option_bind].
    destruct (negb (is_optional t) && Bool.eqb false (bool_decide (mode t = termWithout))) eqn:Ec.
    + exists adrs, None. split_and!; [done|done|]. cbn. unfold term_holds, is_optional in *. rewrite Est. by destruct (mode t).
    + rewrite list_set_Some by lia. cbn [mbind option_bind].
      apply Hdone; [done|by rewrite length_insert| | |].
      * unfold term_holds, is_optional in *. rewrite Est. by destruct (mode t).
      * exists (if is_optional t then None else Some TagRow), s, None. split_and!; [|by rewrite list_lookup_insert_eq by lia|done|done|].
        -- unfold find_address. rewrite Es. cbn [mbind option_bind]. rewrite Eg. unfold is_optional in *. by destruct (mode t).
        -- unfold is_optional in *. by destruct (mode t).
      * intros j Hj. by rewrite list_lookup_insert_ne.
Qed.

(** ** Marking *)

Definition observes w t : bool :=
  match stores w !! term_store t with Some s => bool_decide (observation s = observed) | None => false end.

(** The mask of a walk's marked terms. *)
Definition marks w terms (m : N) : Prop :=
  (m < 2 ^ 8)%N ∧ ∀ i t, terms !! i = Some t → N.testbit m (N.of_nat i) = writes_store t && observes w t.

Definition same_stores w w' : Prop :=
  entities w' = entities w ∧ windowedRefs w' = windowedRefs w ∧ recorders w' = recorders w ∧ Forall2 same_index (stores w) (stores w').

Lemma same_stores_refl w : same_stores w w.
Proof using Type. split_and!; try done. apply Forall2_same_length_lookup_2; [done|]. intros i x y Hx Hy. by simplify_eq. Qed.

Lemma same_stores_trans w1 w2 w3 : same_stores w1 w2 → same_stores w2 w3 → same_stores w1 w3.
Proof using Type.
  intros (? & ? & ? & F1) (? & ? & ? & F2). split_and!; [congruence..|]. eapply Forall2_trans; [|exact F1|exact F2].
  intros x y z. apply same_index_trans.
Qed.

Lemma same_stores_set w id s s' : stores w !! id = Some s → same_index s s' → same_stores w (with_store w id s').
Proof using Type.
  intros Es Hs. split_and!; try done. cbn. destruct (same_stores_refl w) as (_ & _ & _ & F).
  rewrite <- (list_insert_id (stores w) id s Es) at 1. by apply Forall2_insert.
Qed.

(** One marked term, as [write] marks it. *)
Lemma mark_one w e terms m rows adrs i t l :
  marks w terms m → terms !! i = Some t → term_found w e rows adrs i t → Forall2 same_index (stores w) l →
  with_stores w <$> (if N.testbit m (N.of_nat i) then mark_term terms rows adrs e (N.of_nat i) l else Some l) = mark_row e t (with_stores w l).
Proof using Type.
  intros [_ Hm] Et (a & s & v & _ & Ea & Es & Eg & Hv) Hl. rewrite (Hm i t Et). unfold mark_row, observes. rewrite Es.
  destruct (writes_store t) eqn:Ew; [|done]. cbn [andb]. destruct (Forall2_lookup_l _ _ _ _ _ Hl Es) as (s' & Es' & Hs).
  cbn [stores with_stores]. rewrite Es'. cbn [mbind option_bind]. rewrite (get_write s s' e v Eg Hs).
  assert (Hsame : with_store (with_stores w l) (term_store t) s' = with_stores w l) by (unfold with_store, with_stores; cbn; by rewrite list_insert_id).
  specialize (Hv ltac:(intros E; unfold writes_store in Ew; by rewrite E in Ew)).
  case_bool_decide as Ho.
  - unfold mark_term. rewrite Nat2N.id, Ea. cbn [mbind option_bind]. destruct v as [row|].
    + destruct Hv as [[b ->] Er]. rewrite Et. cbn [mbind option_bind]. rewrite Es'. cbn [mbind option_bind]. rewrite Er. cbn [mbind option_bind].
      by destruct (markChanged s' row e).
    + rewrite Hv. cbn [fmap option_fmap option_map mbind option_bind]. by rewrite Hsame.
  - destruct v as [row|]; [|cbn [mbind option_bind fmap option_fmap option_map]; by rewrite Hsame].
    unfold markChanged. rewrite bool_decide_eq_false_2 by (by rewrite (si_observation _ _ Hs)).
    cbn [negb mbind option_bind fmap option_fmap option_map]. by rewrite Hsame.
Qed.

Lemma mark_row_same e t w w' : mark_row e t w = Some w' → same_stores w w'.
Proof using Type.
  unfold mark_row. destruct (writes_store t); [|intros [= <-]; apply same_stores_refl].
  intros (s & Es & E)%bind_Some. apply bind_Some in E as ([s' o] & E%write_index & [= <-]). by eapply same_stores_set.
Qed.

Lemma mark_terms_from w e terms m rows adrs suffix i l :
  marks w terms m → drop i terms = suffix → (∀ j t, terms !! j = Some t → term_found w e rows adrs j t) →
  Forall2 same_index (stores w) l →
  with_stores w <$> for_each (seq i (length suffix)) (λ x st, if N.testbit m (N.of_nat x) then mark_term terms rows adrs e (N.of_nat x) st else Some st) l =
  for_each suffix (mark_row e) (with_stores w l).
Proof using Type.
  intros Hm Hd Hf Hl. revert i l Hd Hl. induction suffix as [|t suffix IH]; intros i l Hd Hl; [done|]. cbn [length seq for_each].
  assert (Et : terms !! i = Some t) by (rewrite <- (Nat.add_0_r i), <- lookup_drop; by rewrite Hd).
  pose proof (mark_one w e terms m rows adrs i t l Hm Et (Hf i t Et) Hl) as E1.
  destruct (if N.testbit m (N.of_nat i) then _ else _) as [l1|]; cbn [fmap option_fmap option_map] in E1; rewrite <- E1; [|done].
  cbn [mbind option_bind]. apply IH; [by rewrite <- Nat.add_1_r, <- drop_drop, Hd|].
  symmetry in E1. apply mark_row_same in E1 as (_ & _ & _ & F). cbn in F. eapply Forall2_trans; [|exact Hl|exact F].
  intros x y z. apply same_index_trans.
Qed.

Lemma bits_of_terms {St} m terms (f : N → St → option St) s :
  (m < 2 ^ 8)%N → length terms ≤ 8 → (∀ i, length terms ≤ i → N.testbit m (N.of_nat i) = false) →
  for_bits m f s = for_each (seq 0 (length terms)) (λ x st, if N.testbit m (N.of_nat x) then f (N.of_nat x) st else Some st) s.
Proof using Type.
  intros Hm Hl Ho. assert (Hw : word_bound m) by (unfold word_bound; lia). rewrite (for_bits_each m f s Hw). unfold bit_list.
  rewrite for_each_filter, for_each_fmap. replace 64 with (length terms + (64 - length terms)) by lia.
  rewrite seq_app, for_each_app_l. destruct (for_each (seq 0 (length terms)) _ s) as [s'|]; [|done]. cbn [mbind option_bind].
  apply for_each_skip. intros x s'' Hx%elem_of_seq. by rewrite Ho by lia.
Qed.

Lemma mark_terms_spec w e terms m rows adrs :
  marks w terms m → length terms ≤ 8 → (∀ i, length terms ≤ i → N.testbit m (N.of_nat i) = false) →
  (∀ j t, terms !! j = Some t → term_found w e rows adrs j t) →
  with_stores w <$> for_bits m (mark_term terms rows adrs e) (stores w) = for_each terms (mark_row e) w.
Proof using Type.
  intros Hm Hl Ho Hf. rewrite (bits_of_terms m terms _ _ (proj1 Hm) Hl Ho).
  assert (Ew : with_stores w (stores w) = w) by (by destruct w). rewrite <- Ew at 3.
  apply (mark_terms_from w e terms m rows adrs terms 0); try done. apply (same_stores_refl w).
Qed.

(** Marking does not panic and leaves the world's promise as it is. *)
Lemma mark_row_sim k w W e t : world_sim k w W → in_world W t → ∃ w', mark_row e t w = Some w' ∧ world_sim k w' W.
Proof using Type.
  intros HW Ht. unfold mark_row. destruct (writes_store t); [|by exists w].
  destruct (rows_lookup _ _ _ _ _ (wm_rows _ _ _ _ _ _ _ HW) Ht) as (s & o & Es & Eo & Hobs & Hsim & Hsz & Hlen & Hap).
  rewrite Es. cbn [mbind option_bind]. pose proof (sim_write (H := zero_of Size _) s o.2 e Hsim) as Hw.
  assert (Hset : ∀ s', row_sim Size k (term_store t) s' o → world_sim k (with_store w (term_store t) s') W).
  { intros s' Hs'. destruct HW as [Ht' [Hl Hr] C Hrefs Hbufs]. split; try done. cbn [stores with_store with_stores]. split; [by rewrite length_insert|].
    intros id s0 Hs0. destruct (decide (id = term_store t)) as [->|Hn].
    - rewrite list_lookup_insert_eq in Hs0 by (by eapply lookup_lt_Some). injection Hs0 as <-. by exists o.
    - rewrite list_lookup_insert_ne in Hs0 by done. by apply Hr. }
  destruct (st_live o.2 !! e).
  - destruct Hw as (s' & r & -> & Hs' & _ & _ & O' & Z' & _ & A'). cbn [mbind option_bind]. eexists. split; [done|]. apply Hset.
    split_and!; [congruence|done|congruence|lia|done].
  - rewrite Hw. cbn [mbind option_bind]. eexists. split; [done|]. by apply Hset.
Qed.

Lemma mark_rows_sim k w W e terms :
  world_sim k w W → Forall (in_world W) terms → ∃ w', for_each terms (mark_row e) w = Some w' ∧ world_sim k w' W ∧ same_stores w w'.
Proof using Type.
  intros HW Hin. revert w HW. induction Hin as [|t terms Ht Hin IH]; intros w HW; cbn [for_each].
  { exists w. split_and!; [done|done|apply same_stores_refl]. }
  destruct (mark_row_sim k w W e t HW Ht) as (w1 & E1 & HW1). rewrite E1. cbn [mbind option_bind].
  destruct (IH w1 HW1) as (w' & -> & HW' & Hs). exists w'. split_and!; [done|done|]. eapply same_stores_trans; [|done].
  by eapply mark_row_same.
Qed.
End match_.
