(* ===== verification/QueryHistory.v ===== *)
(** * What a query yields

    A consumer may do anything to the entity it is given: the walk still
    visits every entity that matched when it began, once. *)

From Stdlib Require Import Strings.Byte.
From S2P Require Import Prelude Words Pool Array Entity IndexTable Mask EntityTable EntityLedger EntityTableSpec EntitySim EntityRefines Store StoreRepr StoreSpec StoreRefines.
From S2P Require Import StoreHistory World WorldSpec WorldCoherent WorldRefines WorldSteps WorldHistory Query QueryFrame QueryMatch.

(** ** The walk of a query, row by row *)

Lemma lor_bound a b n : (a < 2 ^ n)%N → (b < 2 ^ n)%N → (N.lor a b < 2 ^ n)%N.
Proof.
  intros Ha Hb. rewrite N.lt_nge. intros Hn. assert (Hx : N.lor a b ≠ 0%N) by (intros E; rewrite E in Hn; lia).
  assert (Hl : (n <= N.log2 (N.lor a b))%N) by (apply N.log2_le_pow2; lia).
  pose proof (N.bit_log2 _ Hx) as Hbit. rewrite N.lor_spec in Hbit.
  assert (Hz : ∀ x, (x < 2 ^ n)%N → N.testbit x (N.log2 (N.lor a b)) = false).
  { intros x Hx'. destruct (decide (x = 0%N)) as [->|]; [apply N.bits_0|]. apply N.bits_above_log2.
    apply (N.lt_le_trans _ n); [|done]. apply N.log2_lt_pow2; lia. }
  by rewrite (Hz a Ha), (Hz b Hb) in Hbit.
Qed.

Section walk.
Context (words : nat) (first last : N) (Size : nat → nat).
Context {R B : Type} `{WindowedLaws R} `{ShrinkerLaws B}.
Implicit Types (w : worldResource R B) (W : worldSpec) (e : Entity) (t : term) (terms : list term) (walk : queryWalk).

#[local] Abbreviation world_sim := (world_sim words first last Size).

(** ** Where a walk starts *)

(** After the first [j] terms: the smallest of those that drive. *)
Definition picked w terms (j : nat) (od : option nat) : Prop :=
  match od with
  | None => ∀ i t, i < j → terms !! i = Some t → can_drive t = false
  | Some d => ∃ t s, terms !! d = Some t ∧ can_drive t = true ∧ stores w !! term_store t = Some s ∧
      ∀ i u su, i < j → terms !! i = Some u → can_drive u = true → stores w !! term_store u = Some su → len s ≤ len su
  end.

Lemma pick_term_spec w terms i t od m s :
  terms !! i = Some t → i < 8 → stores w !! term_store t = Some s → picked w terms i od →
  ∃ od', pick_term (stores w) terms i t (mkWalk od m (replicate 8 None)) =
      Some (mkWalk od' (if writes_store t && observes w t then N.lor m (term_bit i) else m) (replicate 8 None)) ∧
    picked w terms (S i) od'.
Proof using Type.
  intros Et Hi Es Hp. unfold pick_term, observes. rewrite Es. cbn [mbind option_bind drivingTerm marked addresses].
  assert (Hkeep : can_drive t = false → picked w terms (S i) od).
  { intros Hd. destruct od as [d|]; cbn in *.
    - destruct Hp as (u & su & ? & ? & ? & Hmin). exists u, su. split_and!; try done. intros j v sv Hj Ev Hv Esv.
      destruct (decide (j = i)) as [->|]; [congruence|]. apply (Hmin j v); [lia|done|done|done].
    - intros j v Hj Ev. destruct (decide (j = i)) as [->|]; [congruence|]. apply (Hp j v); [lia|done]. }
  assert (Htake : can_drive t = true → (∀ j u su, j < i → terms !! j = Some u → can_drive u = true → stores w !! term_store u = Some su → len s ≤ len su) →
    picked w terms (S i) (Some i)).
  { intros Hd Hmin. exists t, s. split_and!; try done. intros j u su Hj Eu Hu Esu. destruct (decide (j = i)) as [->|].
    - assert (su = s) as -> by congruence. done.
    - apply (Hmin j u); [lia|done|done|done]. }
  destruct (can_drive t) eqn:Ed.
  2:{ exists od. split; [|by apply Hkeep]. cbn [mbind option_bind drivingTerm marked addresses]. by destruct (writes_store t && _). }
  destruct od as [d|]; cbn in Hp.
  - destruct Hp as (u & su & Eu & Hu & Esu & Hmin). rewrite Eu. cbn [mbind option_bind]. rewrite Esu. cbn [mbind option_bind].
    destruct (decide (len s < len su)) as [Hlt|Hge].
    + exists (Some i). cbn [drivingTerm marked addresses]. split; [by destruct (writes_store t && _)|]. apply Htake; [done|].
      intros j v sv Hj Ev Hv Esv. specialize (Hmin j v sv Hj Ev Hv Esv). lia.
    + exists (Some d). cbn [drivingTerm marked addresses]. split; [by destruct (writes_store t && _)|].
      exists u, su. split_and!; try done. intros j v sv Hj Ev Hv Esv. destruct (decide (j = i)) as [->|].
      * assert (sv = s) as -> by congruence. lia.
      * apply (Hmin j v); [lia|done|done|done].
  - exists (Some i). cbn [mbind option_bind drivingTerm marked addresses]. split; [by destruct (writes_store t && _)|].
    apply Htake; [done|]. intros j u su Hj Eu Hu. rewrite (Hp j u Hj Eu) in Hu. done.
Qed.

(** [makeQueryWalk] picks the smallest driving store and marks the terms that
    write an observed one. *)
Lemma makeQueryWalk_spec k w W terms :
  world_sim k w W → Forall (in_world W) terms → length terms ≤ 8 → existsb can_drive terms = true →
  ∃ d m, makeQueryWalk (stores w) terms = Some (mkWalk (Some d) m (replicate 8 None)) ∧ picked w terms (length terms) (Some d) ∧
    marks w terms m ∧ ∀ i, length terms ≤ i → N.testbit m (N.of_nat i) = false.
Proof using Type.
  intros HW Hin Hl Hd. unfold makeQueryWalk.
  destruct (for_range_invariant (λ j walk, ∃ od m, walk = mkWalk od m (replicate 8 None) ∧ picked w terms j od ∧ (m < 2 ^ 8)%N ∧
    (∀ i t, i < j → terms !! i = Some t → N.testbit m (N.of_nat i) = writes_store t && observes w t) ∧
    ∀ i, j ≤ i → N.testbit m (N.of_nat i) = false) (λ i walk, t ← terms !! i; pick_term (stores w) terms i t walk) (length terms)
    (mkWalk None 0 (replicate 8 None))) as (walk & -> & od & m & -> & Hp & Hm & Hbits & Hnone).
  - exists None, 0%N. split_and!; [done|intros i t ?; lia|done|intros i t ?; lia|intros; apply N.bits_0].
  - intros i walk Hi (od & m & -> & Hp & Hm & Hbits & Hnone). destruct (lookup_lt_is_Some_2 terms i Hi) as [t Et].
    rewrite Et. cbn [mbind option_bind]. rewrite Forall_forall in Hin.
    destruct (rows_lookup _ _ _ _ _ (wm_rows _ _ _ _ _ _ _ HW) (Hin t ltac:(by eapply list_elem_of_lookup_2))) as (s & _ & Es & _).
    destruct (pick_term_spec w terms i t od m s Et ltac:(lia) Es Hp) as (od' & -> & Hp'). eexists. split; [done|].
    eexists od', _. split; [done|]. split; [done|]. destruct (writes_store t && observes w t) eqn:Ew.
    + split_and!.
      * by apply lor_bound; [|apply term_bit_bound].
      * intros j u Hj Eu. rewrite N.lor_spec, term_bit_testbit by lia. destruct (decide (j = i)) as [->|].
        -- rewrite bool_decide_eq_true_2 by done. rewrite orb_true_r. by simplify_eq.
        -- rewrite bool_decide_eq_false_2 by done. rewrite orb_false_r. apply Hbits; [lia|done].
      * intros j Hj. rewrite N.lor_spec, term_bit_testbit by lia. rewrite Hnone by lia. by rewrite bool_decide_eq_false_2 by lia.
    + split_and!; [done| |intros j Hj; apply Hnone; lia].
      intros j u Hj Eu. destruct (decide (j = i)) as [->|]; [|apply Hbits; [lia|done]]. rewrite Hnone by done. by simplify_eq.
  - destruct od as [d|].
    + exists d, m. split; [done|]. split; [done|]. split; [split; [done|]|done]. intros i t Et. apply Hbits; [by eapply lookup_lt_Some|done].
    + exfalso. apply existsb_exists in Hd as (t & Ht & Hdt). apply list_elem_of_In, list_elem_of_lookup in Ht as [i Ei].
      cbn in Hp. rewrite (Hp i t) in Hdt; [done|by eapply lookup_lt_Some|done].
Qed.

(** ** One row *)

Lemma live_row k w W e t s row :
  world_sim k w W → in_world W t → stores w !! term_store t = Some s → row < liveRows s → AAt (owners s) row = Some e →
  get s e = Some (Some row) ∧ row_of s e = Some (row, true) ∧ stored W e (term_store t) = true ∧ is_Some (sp_live (ws_table W) !! e).
Proof using Type.
  intros HW Ht Es Hrow Ho. destruct (rows_lookup _ _ _ _ _ (wm_rows _ _ _ _ _ _ _ HW) Ht) as (s' & o & Es' & Eo & Hobs & (rows & Rp & I) & _).
  rewrite Es in Es'. injection Es' as <-.
  destruct (lookup_lt_is_Some_2 rows row) as [x Hx]; [pose proof (sr_live _ _ Rp); lia|].
  pose proof (owner_at s rows row x Rp Hx) as Ho'. rewrite Ho in Ho'. injection Ho' as ->.
  assert (Hv : has_value W (r_owner x) (term_store t) (r_value x)).
  { exists o. split; [done|]. apply (ri_live _ _ _ _ _ I). exists x. split; [by exists row|done]. }
  pose proof (live_newest _ _ _ _ _ _ _ I Hrow Hx) as Hn. split_and!; [by eapply get_live|by eapply row_of_live|apply stored_true; by eexists|].
  by eapply (co_alive _ _ _ (wm_coherent _ _ _ _ _ _ _ HW)).
Qed.

Lemma term_found_find w e rows adrs terms :
  (∀ j t, terms !! j = Some t → term_found w e rows adrs j t) → length terms ≤ length adrs →
  mapM (find_address w e) terms = Some (take (length terms) adrs).
Proof using Type.
  intros Hf Hl. apply mapM_Some. apply Forall2_same_length_lookup_2; [rewrite length_take; lia|].
  intros i t a Et Ea. destruct (Hf i t Et) as (b & s & v & Eb & Hb & _). rewrite lookup_take_lt in Ea by (by eapply lookup_lt_Some).
  congruence.
Qed.

(** A walk of [terms] driven by the [d]-th, with mask [m]. *)
Definition walking w terms (d : nat) (m : N) walk : Prop :=
  drivingTerm walk = Some d ∧ marked walk = m ∧ length (addresses walk) = 8 ∧ marks w terms m ∧
  ∀ i, length terms ≤ i → N.testbit m (N.of_nat i) = false.

Lemma matches_spec k w W terms d m walk t s row e a :
  world_sim k w W → Forall (in_world W) terms → length terms ≤ 8 → walking w terms d m walk →
  terms !! d = Some t → can_drive t = true → stores w !! term_store t = Some s → row < liveRows s → AAt (owners s) row = Some e →
  find_address w e t = Some (Some a) → addresses walk !! d = Some (Some a) →
  ∃ walk', drivingTerm walk' = Some d ∧ marked walk' = m ∧ length (addresses walk') = 8 ∧
    if query_matches W terms e
    then ∃ w', matches (stores w) walk terms row e = Some (stores w', walk', true) ∧ with_stores w (stores w') = w' ∧
      for_each terms (mark_row e) w = Some w' ∧ mapM (find_address w e) terms = Some (take (length terms) (addresses walk'))
    else matches (stores w) walk terms row e = Some (stores w, walk', false).
Proof using Type.
  intros HW Hin Hl (Ed & Em & Hla & Hm & Hnone) Et Hd Es Hrow Ho Ha Hadr. pose proof (lookup_lt_Some _ _ _ Et) as Hdl.
  pose proof Hin as Hin'. rewrite Forall_forall in Hin'. pose proof (Hin' t ltac:(by eapply list_elem_of_lookup_2)) as Htin.
  destruct (live_row k w W e t s row HW Htin Es Hrow Ho) as (Eg & _ & Est & _).
  unfold matches. rewrite Ed. cbn [mbind option_bind]. rewrite list_set_Some by (rewrite length_replicate; lia). cbn [mbind option_bind].
  destruct (probe_terms_spec words first last Size k w W e d terms 0 (<[d := row]> (replicate 8 0)) (addresses walk) HW Hin) as (adrs & found & E & Hla' & Hf);
    [by rewrite length_insert, length_replicate|done|done| |].
  { intros u _ Eu. rewrite Nat.sub_0_r, Et in Eu. injection Eu as <-. split.
    - unfold term_holds, can_drive in *. rewrite Est. by destruct (mode t).
    - exists (Some a), s, (Some row). split_and!; try done. intros _. split; [done|].
      apply list_lookup_insert_eq. rewrite length_replicate. lia. }
  rewrite E. cbn [mbind option_bind]. rewrite Em. cbn [drivingTerm marked addresses].
  exists (mkWalk (Some d) m adrs). cbn [drivingTerm marked addresses]. split_and!; [done|done|done|]. destruct found as [rows|].
  - destruct Hf as (-> & Hlr & _ & Hf). cbn [plus] in Hf.
    pose proof (mark_terms_spec w e terms m rows adrs Hm Hl Hnone Hf) as Hmark.
    destruct (mark_rows_sim words first last Size k w W e terms HW Hin) as (w' & Ew' & _).
    destruct (for_bits m (mark_term terms rows adrs e) (stores w)) as [l|]; cbn [fmap option_fmap option_map] in Hmark; [|congruence].
    rewrite Ew' in Hmark. injection Hmark as <-. exists (with_stores w l). cbn [mbind option_bind]. split_and!; try done.
    apply (term_found_find w e rows adrs terms Hf). lia.
  - by rewrite Hf.
Qed.

(** One row of the walk visits its entity if it matches. *)
Lemma walk_row_spec {St} k w W terms (yield : consumer (St := St)) d m walk t s row e st :
  world_sim k w W → Forall (in_world W) terms → length terms ≤ 8 → walking w terms d m walk →
  terms !! d = Some t → can_drive t = true → stores w !! term_store t = Some s → row < liveRows s → AAt (owners s) row = Some e →
  ∃ walk', drivingTerm walk' = Some d ∧ marked walk' = m ∧ length (addresses walk') = 8 ∧
    walk_row terms yield d row walk w st =
      if query_matches W terms e then '(w', st', go) ← visit terms yield e (w, st); Some (walk', w', st', go)
      else Some (walk', w, st, true).
Proof using Type.
  intros HW Hin Hl Hwalk Et Hd Es Hrow Ho. pose proof Hwalk as (Ed & Em & Hla & Hm & Hnone). pose proof (lookup_lt_Some _ _ _ Et) as Hdl.
  pose proof Hin as Hin'. rewrite Forall_forall in Hin'. pose proof (Hin' t ltac:(by eapply list_elem_of_lookup_2)) as Htin.
  destruct (live_row k w W e t s row HW Htin Es Hrow Ho) as (Eg & Er & Est & _).
  destruct (store_finds words first last Size k w W e t HW Htin) as (s' & Es' & Hs'). rewrite Es in Es'. injection Es' as <-. rewrite Est in Hs'.
  destruct Hs' as (row' & a & _ & Er' & Ea). rewrite Er in Er'. injection Er' as <-.
  assert (Ead : a = if sized s then RowOf (term_store t) row else TagRow).
  { unfold address_of in Ea. destruct (sized s); cbn in Ea; [|by injection Ea]. by destruct (decide _); [injection Ea|]. }
  assert (Ef : find_address w e t = Some (Some a)).
  { unfold find_address. rewrite Es. cbn [mbind option_bind]. rewrite decide_False by (unfold can_drive in Hd; by destruct (mode t)).
    rewrite Eg. cbn [mbind option_bind]. by rewrite Ea. }
  unfold walk_row. rewrite Et. cbn [mbind option_bind]. rewrite Es. cbn [mbind option_bind]. rewrite Ho. cbn [mbind option_bind].
  rewrite list_set_Some by lia. cbn [mbind option_bind]. rewrite <- Ead.
  set (walk1 := mkWalk (drivingTerm walk) (marked walk) (<[d := Some a]> (addresses walk))).
  destruct (matches_spec k w W terms d m walk1 t s row e a HW Hin Hl) as (walk' & ? & ? & ? & Hmatch); try done.
  { split_and!; [done|done|by cbn; rewrite length_insert|done|done]. }
  { cbn. apply list_lookup_insert_eq. lia. }
  exists walk'. split_and!; [done..|]. destruct (query_matches W terms e).
  - destruct Hmatch as (w' & -> & Ew & Emark & Ef'). cbn [mbind option_bind negb]. unfold visit. rewrite Ef'. cbn [mbind option_bind].
    rewrite Emark, Ew. done.
  - rewrite Hmatch. cbn [mbind option_bind negb]. by destruct w.
Qed.
End walk.

(** ** What operations on one entity leave *)

Record unchanged_but (e : Entity) (W W' : worldSpec) : Prop := {
  ub_length : length (ws_stores W') = length (ws_stores W);
  ub_stored : ∀ e' id, e' ≠ e → stored W' e' id = stored W e' id;
  ub_observation : ∀ id, fst <$> ws_stores W' !! id = fst <$> ws_stores W !! id
}.

Lemma unchanged_refl e W : unchanged_but e W W.
Proof. done. Qed.

Lemma unchanged_trans e W1 W2 W3 : unchanged_but e W1 W2 → unchanged_but e W2 W3 → unchanged_but e W1 W3.
Proof. intros [L1 S1 O1] [L2 S2 O2]. split; [congruence|intros; rewrite S2, S1; done|intros; rewrite O2, O1; done]. Qed.

Lemma stored_by_values W W' e id : (∀ v, has_value W' e id v ↔ has_value W e id v) → stored W' e id = stored W e id.
Proof. intros Hv. apply eq_bool_prop_intro. rewrite !Is_true_true, !stored_true. by split; intros [v ?%Hv]; exists v. Qed.

Lemma on_store_observation (Σ : list (observationState * storeSpec bytes)) id op j :
  match op with OpSet _ _ | OpRemove _ => True | _ => False end → fst <$> on_store Σ id op !! j = fst <$> Σ !! j.
Proof.
  intros Hop. rewrite on_store_lookup. destruct (Σ !! j) as [o|]; [|done]. cbn. destruct (decide _); [|done].
  f_equal. by apply spec_op_values.
Qed.

Lemma set_unchanged W T' e id v : id < length (ws_stores W) → unchanged_but e W (mkWorldSpec T' (on_store (ws_stores W) id (OpSet e v))).
Proof.
  intros Hid. split; cbn; [by rewrite length_on_store| |by intros; apply on_store_observation].
  intros e' id' Hn. apply stored_by_values. intros v'. rewrite has_value_set by done. naive_solver.
Qed.

Lemma remove_unchanged W T' e id : unchanged_but e W (mkWorldSpec T' (on_store (ws_stores W) id (OpRemove e))).
Proof.
  split; cbn; [by rewrite length_on_store| |by intros; apply on_store_observation].
  intros e' id' Hn. apply stored_by_values. intros v'. rewrite has_value_remove. naive_solver.
Qed.

Section consumers.
Context (words : nat) (first last : N) (Size : nat → nat).
Context {R B St : Type} `{WindowedLaws R} `{ShrinkerLaws B}.
Implicit Types (w : worldResource R B) (W : worldSpec) (e : Entity) (t : term) (terms : list term) (st : St).

#[local] Abbreviation world_sim := (world_sim words first last Size).
#[local] Abbreviation run_world := (run_world words Size).

(** What a consumer decides to do, from what it is given and can read: to
    write, give and take components of the entity, or to despawn it.  A
    value written at a term's address is one [WWrite] writes: the row is
    marked already. *)
Definition planner : Type := worldResource R B → Entity → list (option address) → St → list world_op * St * bool.

Definition run_ops (ops : list world_op) w : option (worldResource R B) :=
  for_each ops (λ op w, '(w, _) ← run_world w op; Some w) w.

Definition act (plan : planner) : consumer (R := R) (B := B) (St := St) := λ e adrs '(w, st),
  let '(ops, st', go) := plan w e adrs st in w' ← run_ops ops w; Some (w', st', go).

(** At most [b] operations, all on the entity, in a world of [n] components. *)
Definition plan_ok (n b : nat) (plan : planner) : Prop := ∀ w e adrs st, (e < 2 ^ 64)%N →
  length (plan w e adrs st).1.1 ≤ b ∧
  ∀ op, op ∈ (plan w e adrs st).1.1 → on_entity e op ∧ ∀ W, length (ws_stores W) = n → world_op_ok words Size W op.

Lemma on_entity_unchanged e op answer W W' :
  world_step words first last Size W op answer W' → on_entity e op → world_op_ok words Size W op → unchanged_but e W W'.
Proof using Type.
  intros Hs Hop Hok. destruct op as [op|e'|e' id v|e' id v|e' id|m values|e' m values|id| |]; try done; cbn in Hop; subst e'; inversion Hs; subst.
  - split; cbn; [by rewrite length_fmap| |].
    + intros e' id Hn. apply stored_by_values. intros v. rewrite has_value_every. naive_solver.
    + intros id. rewrite list_lookup_fmap. destruct (ws_stores W !! id) as [o|]; [|done]. cbn. f_equal. by apply spec_op_values.
  - apply unchanged_refl.
  - unfold ws_add. destruct (decide _); [|apply unchanged_refl]. apply set_unchanged, Hok.
  - unfold ws_write. destruct (stored W e id); [|apply unchanged_refl]. apply set_unchanged, Hok.
  - unfold ws_remove. destruct (stored W e id); [|apply unchanged_refl]. apply remove_unchanged.
Qed.

Lemma run_own r d os ops k w W e :
  world_sim k w W → (∀ op, op ∈ ops → on_entity e op ∧ ∀ W', length (ws_stores W') = length (ws_stores W) → world_op_ok words Size W' op) →
  (N.of_nat (S (k + length ops)) < 2 ^ 32 - 1)%N → ahead r d os w → elsewhere r e os →
  ∃ w' W', run_ops ops w = Some w' ∧ world_sim (k + length ops) w' W' ∧ unchanged_but e W W' ∧ ahead r d os w'.
Proof using Type.
  unfold run_ops. revert k w W. induction ops as [|op ops IH]; intros k w W HW Hok Hk Ha He; cbn [for_each length] in *.
  { exists w, W. rewrite Nat.add_0_r. by split_and!. }
  destruct (Hok op) as [Hop Hopok]; [by left|]. specialize (Hopok W eq_refl).
  assert (Ec : cost words op = 1) by (by destruct op).
  destruct (world_step_sim words first last Size k w W op HW Hopok) as (w1 & answer & W1 & E & Hs & HW1); [rewrite Ec; lia|].
  rewrite E. cbn [mbind option_bind]. rewrite Ec, Nat.add_1_r in HW1.
  pose proof (on_entity_unchanged e op answer W W1 Hs Hop Hopok) as U1.
  destruct (IH (S k) w1 W1 HW1) as (w' & W' & -> & HW' & U & Ha'); [|lia| |done|].
  - intros op' Hin. destruct (Hok op') as [? Hok']; [by right|]. split; [done|]. intros W2 El. apply Hok'. by rewrite El, (ub_length _ _ _ U1).
  - exact (on_entity_ahead words Size first last k r d os w W e op w1 answer HW Ha He Hop Hopok E).
  - exists w', W'. replace (k + S (length ops)) with (S k + length ops) by lia. split_and!; try done. by eapply unchanged_trans.
Qed.
End consumers.

(** ** The walk, over what is ahead of it *)

Section loops.
Context (words : nat) (first last : N) (Size : nat → nat).
Context {R B St : Type} `{WindowedLaws R} `{ShrinkerLaws B}.
Context (plan : planner (R := R) (B := B) (St := St)) (n b : nat) (plan_fits : plan_ok words Size n b plan).
Context (terms : list term) (few : length terms ≤ 8).
Context (W0 : worldSpec) (d : nat) (t : term) (at_d : terms !! d = Some t) (drives : can_drive t = true) (m : N) (os : list Entity) (distinct : NoDup os).
Implicit Types (w : worldResource R B) (W : worldSpec) (e : Entity) (st : St) (r k : nat).

#[local] Abbreviation world_sim := (world_sim words first last Size).
#[local] Abbreviation yield := (act words Size plan).

(** The rows below [r] are ahead, and their entities as they were. *)
Record standing (r k : nat) (walk : queryWalk) w W : Prop := {
  sd_sim : world_sim k w W;
  sd_length : length (ws_stores W) = n;
  sd_in : Forall (in_world W) terms;
  sd_walking : walking w terms d m walk;
  sd_ahead : ahead r (term_store t) os w;
  sd_rows : r ≤ length os;
  sd_same : ∀ i e id, i < r → os !! i = Some e → stored W e id = stored W0 e id
}.

Lemma same_ahead w w' r id : same_stores w w' → ahead r id os w → ahead r id os w'.
Proof using Type.
  intros (_ & _ & _ & F) (s & Es & Hb). destruct (Forall2_lookup_l _ _ _ _ _ F Es) as (s' & Es' & Hs). exists s'. split; [done|].
  destruct Hs as [_ Eo El _ _ _]. unfold below. by rewrite Eo, El.
Qed.

Lemma same_matches W e : (∀ id, stored W e id = stored W0 e id) → query_matches W terms e = query_matches W0 terms e.
Proof using Type. clear at_d few. intros Hs. unfold query_matches. induction terms as [|u us IH]; [done|]. cbn. rewrite IH. unfold term_holds. by rewrite Hs. Qed.

Lemma find_addresses k w W e : world_sim k w W → Forall (in_world W) terms → is_Some (mapM (find_address w e) terms).
Proof using Type.
  clear few at_d. intros HW Hin. apply mapM_is_Some_2. eapply Forall_impl; [exact Hin|]. intros u Hu.
  destruct (store_finds words first last Size k w W e u HW Hu) as (s & Es & Hs).
  change (is_Some (find_address w e u)). unfold find_address. rewrite Es. cbn [mbind option_bind].
  case_decide; [done|]. destruct (stored W e (term_store u)); [destruct Hs as (row & a & -> & _ & Ea)|destruct Hs as [-> _]];
    cbn [mbind option_bind]; [by rewrite Ea|done].
Qed.

Lemma observes_spec k w W u : world_sim k w W → in_world W u → ∃ o, ws_stores W !! term_store u = Some o ∧ observes w u = bool_decide (o.1 = observed).
Proof using Type.
  intros HW Hu. destruct (rows_lookup _ _ _ _ _ (wm_rows _ _ _ _ _ _ _ HW) Hu) as (s & o & Es & Eo & Hobs & _).
  exists o. split; [done|]. unfold observes. by rewrite Es, Hobs.
Qed.

(** The mask holds as long as no observation starts. *)
Lemma marks_kept k k' w w' W W' e : world_sim k w W → world_sim k' w' W' → Forall (in_world W) terms → unchanged_but e W W' → marks w terms m → marks w' terms m.
Proof using Type.
  intros HW HW' Hin U [Hm Hbits]. split; [done|]. intros i u Eu. rewrite (Hbits i u Eu). f_equal.
  rewrite Forall_forall in Hin. pose proof (Hin u ltac:(by eapply list_elem_of_lookup_2)) as Hu.
  assert (Hu' : in_world W' u) by (unfold in_world; by rewrite (ub_length _ _ _ U)).
  destruct (observes_spec k w W u HW Hu) as (o & Eo & ->). destruct (observes_spec k' w' W' u HW' Hu') as (o' & Eo' & ->).
  pose proof (ub_observation _ _ _ U (term_store u)) as Ho. rewrite Eo, Eo' in Ho. injection Ho as ->. done.
Qed.

(** Visiting the entity of the row above those ahead. *)
Lemma visit_standing r k walk w W e st :
  standing (S r) k walk w W → (N.of_nat (S (k + b)) < 2 ^ 32 - 1)%N → os !! r = Some e → (e < 2 ^ 64)%N →
  ∃ w' st' go W', visit terms yield e (w, st) = Some (w', st', go) ∧
    ∀ walk', drivingTerm walk' = Some d → marked walk' = m → length (addresses walk') = 8 → standing r (k + b) walk' w' W'.
Proof using plan_fits distinct few.
  intros [HW Hn Hin (Hd & Hm & Hla & Hmk & Hnone) Ha Hr Hsame] Hk He Hb. unfold visit.
  destruct (find_addresses k w W e HW Hin) as [adrs ->]. cbn [mbind option_bind].
  destruct (mark_rows_sim words first last Size k w W e terms HW Hin) as (w1 & -> & HW1 & Hs1). cbn [mbind option_bind].
  unfold act. pose proof (plan_fits w1 e adrs st Hb) as [Hlen Hops]. destruct (plan w1 e adrs st) as [[ops st'] go]. cbn [fst] in *.
  assert (Ha1 : ahead r (term_store t) os w1).
  { eapply same_ahead; [done|]. destruct Ha as (s & Es & Hl & Hb'). exists s. split; [done|]. split; [lia|]. intros i x Hi. apply Hb'. lia. }
  destruct (run_own words first last Size r (term_store t) os ops k w1 W e HW1) as (w' & W' & -> & HW' & U & Ha'); [|lia|done| |].
  { intros op Hop. destruct (Hops op Hop) as [? Hfit]. split; [done|]. intros W2 E2. apply Hfit. congruence. }
  { split; [lia|]. intros i Hi Ei. assert (i = r) by (by eapply NoDup_lookup). lia. }
  cbn [mbind option_bind]. exists w', st', go, W'. split; [done|]. intros walk' Hd' Hm' Hla'.
  assert (HW2 : world_sim (k + b) w' W') by (eapply world_sim_mono; [|done]; lia). split.
  - done.
  - by rewrite (ub_length _ _ _ U).
  - eapply Forall_impl; [exact Hin|]. intros u. unfold in_world. by rewrite (ub_length _ _ _ U).
  - split_and!; [done|done|done| |done]. by eapply (marks_kept k (k + b) w w' W W' e).
  - done.
  - lia.
  - intros i e' id Hi Ei. rewrite (ub_stored _ _ _ U); [apply (Hsame i); [lia|done]|]. intros ->.
    assert (i = r) by (by eapply NoDup_lookup). lia.
Qed.

(** One row, the one above those ahead. *)
Lemma row_standing r k walk w W e st :
  standing (S r) k walk w W → (N.of_nat (S (k + b)) < 2 ^ 32 - 1)%N → os !! r = Some e →
  ∃ walk' w' st' go W', walk_row terms yield d r walk w st = Some (walk', w', st', go) ∧ standing r (k + b) walk' w' W' ∧
    (if query_matches W0 terms e then visit terms yield e (w, st) else Some (w, st, true)) = Some (w', st', go).
Proof using plan_fits distinct few at_d drives.
  intros Hst Hk He. pose proof Hst as [HW Hn Hin Hwalk Ha Hr Hsame]. pose proof Hin as Hin'. rewrite Forall_forall in Hin'.
  pose proof (Hin' t ltac:(by eapply list_elem_of_lookup_2)) as Htin. destruct Ha as (s & Es & Hl & Hown).
  pose proof (Hown r e ltac:(lia) He) as Ho.
  destruct (live_row words first last Size k w W e t s r HW Htin Es ltac:(lia) Ho) as (_ & _ & _ & [mk Hlive]).
  assert (Hb : (e < 2 ^ 64)%N).
  { destruct (wm_table _ _ _ _ _ _ _ HW) as (F & D & HS). apply (sm_live _ _ _ _ _ _ _ _ _ HS) in Hlive. apply Hlive. }
  destruct (walk_row_spec words first last Size k w W terms yield d m walk t s r e st HW Hin few Hwalk at_d drives Es ltac:(lia) Ho)
    as (walk' & Hd' & Hm' & Hla' & E).
  rewrite E, (same_matches W e) by (intros id; apply (Hsame r); [lia|done]). destruct (query_matches W0 terms e).
  - destruct (visit_standing r k walk w W e st Hst Hk He Hb) as (w' & st' & go & W' & Ev & Hs). rewrite Ev. cbn [mbind option_bind].
    exists walk', w', st', go, W'. split_and!; [done| |done]. by apply Hs.
  - exists walk', w, st, true, W. split_and!; [done| |done]. destruct Hwalk as (_ & _ & _ & Hmk & Hnone). split; try done.
    + eapply world_sim_mono; [|done]. lia.
    + exists s. split; [done|]. split; [lia|]. intros i x Hi. apply Hown. lia.
    + lia.
    + intros i e' id Hi. apply Hsame. lia.
Qed.

(** The entities of rows [a] up to [a + i] that matched, from the last. *)
Definition due (a i : nat) : list Entity := filter (λ e, query_matches W0 terms e = true) (reverse (take i (drop a os))).

Lemma due_S a i e : os !! (a + i) = Some e → due a (S i) = (if query_matches W0 terms e then [e] else []) ++ due a i.
Proof using Type.
  intros He. unfold due. rewrite (take_S_r _ _ e) by (by rewrite lookup_drop). rewrite reverse_app, reverse_singleton, filter_app.
  f_equal. rewrite filter_cons. destruct (query_matches W0 terms e); [by rewrite decide_True|by rewrite decide_False].
Qed.

Lemma chunk_standing a i k walk w W st :
  standing (a + i) k walk w W → (N.of_nat (S (k + b * i)) < 2 ^ 32 - 1)%N →
  ∃ walk' w' st' go, walk_chunk terms yield d a i walk w st = Some (walk', w', st', go) ∧
    for_until (due a i) (visit terms yield) (w, st) = Some (w', st', go) ∧
    (go = true → ∃ W', standing a (k + b * i) walk' w' W').
Proof using plan_fits distinct few at_d drives.
  revert k walk w W st. induction i as [|i IH]; intros k walk w W st Hst Hk; cbn [walk_chunk].
  { exists walk, w, st, true. split_and!; [done|done|]. intros _. exists W. by rewrite Nat.mul_0_r, !Nat.add_0_r in *. }
  rewrite Nat.add_succ_r in Hst. destruct (lookup_lt_is_Some_2 os (a + i)) as [e He]; [pose proof (sd_rows _ _ _ _ _ Hst); lia|].
  destruct (row_standing (a + i) k walk w W e st Hst ltac:(lia) He) as (walk1 & w1 & st1 & go1 & W1 & -> & Hst1 & Ev).
  cbn [mbind option_bind]. rewrite (due_S a i e He). destruct go1.
  - destruct (IH (k + b) walk1 w1 W1 st1 Hst1 ltac:(lia)) as (walk' & w' & st' & go & E & Eu & Hgo).
    exists walk', w', st', go. split_and!; [done| |].
    + destruct (query_matches W0 terms e); cbn [app for_until]; [by rewrite Ev|]. injection Ev as -> ->. done.
    + intros Hg. destruct (Hgo Hg) as [W' HW']. exists W'. by replace (k + b * S i) with (k + b + b * i) by lia.
  - exists walk1, w1, st1, false. split_and!; [done| |done].
    destruct (query_matches W0 terms e); cbn [app for_until]; [by rewrite Ev|]. done.
Qed.

Lemma due_app a i : due 0 (a + i) = due a i ++ due 0 a.
Proof using Type. unfold due. rewrite !drop_0, <- filter_app, <- reverse_app. do 2 f_equal. rewrite <- take_take_drop. done. Qed.

Lemma for_until_app {A S : Type} (l l' : list A) (body : A → S → option (S * bool)) s :
  for_until (l ++ l') body s = '(s, go) ← for_until l body s; if go : bool then for_until l' body s else Some (s, false).
Proof using Type.
  clear. revert s. induction l as [|x l IH]; intros s; [done|]. cbn. destruct (body x s) as [[s' go]|]; [|done]. cbn.
  destruct go; [apply IH|done].
Qed.

(** A chunk that has a live row. *)
Lemma chunk_live k w W s c : world_sim k w W → in_world W t → stores w !! term_store t = Some s → c * rowsPerChunk < liveRows s →
  chunk s c = Some (Nat.min (liveRows s - c * rowsPerChunk) rowsPerChunk).
Proof using few.
  intros HW Ht Es Hc. destruct (rows_lookup _ _ _ _ _ (wm_rows _ _ _ _ _ _ _ HW) Ht) as (s' & o & Es' & _ & _ & (rows & Rp & _) & _).
  rewrite Es in Es'. injection Es' as <-. pose proof (sr_live _ _ Rp) as Hl. pose proof (sr_owners _ _ Rp) as Ho.
  pose proof (array_length _ _ Ho) as Hal. rewrite length_fmap in Hal. pose proof (array_fits _ _ Ho) as Hf. rewrite length_fmap in Hf.
  unfold chunk, AChunk. change chunkSize with rowsPerChunk in *.
  destruct (lookup_lt_is_Some_2 (achunks (owners s)) c) as [ch Ech].
  { apply (Nat.mul_lt_mono_pos_r rowsPerChunk); [unfold rowsPerChunk; lia|]. lia. }
  rewrite Ech. cbn [mbind option_bind]. rewrite decide_True by lia.
  assert (Hch : length ch = rowsPerChunk).
  { pose proof (array_chunks _ _ Ho) as Hall. rewrite Forall_forall in Hall. apply Hall. by eapply list_elem_of_lookup_2. }
  rewrite slice_Some by (rewrite ?Hch; lia). cbn [mbind option_bind]. rewrite decide_True by lia.
  destruct (sized s) eqn:Ez; [|done]. cbn [negb].
  destruct (lookup_lt_is_Some_2 rows (c * rowsPerChunk)) as [x Hx]; [lia|]. pose proof (sr_values _ _ Rp _ _ Hx) as Hv.
  unfold value_at, chunk_read in Hv. rewrite Ez in Hv. cbn [negb] in Hv. rewrite Nat.div_mul in Hv by done.
  apply bind_Some in Hv as (vs & -> & _). done.
Qed.

Lemma chunks_standing c r k walk w W st :
  standing r k walk w W → (N.of_nat (S (k + b * r)) < 2 ^ 32 - 1)%N → c = chunks_of r →
  (r = c * rowsPerChunk ∨ ∃ s, stores w !! term_store t = Some s ∧ liveRows s = r) →
  ∃ walk' w' st' go, walk_chunks terms yield d c walk w st = Some (walk', w', st', go) ∧
    for_until (due 0 r) (visit terms yield) (w, st) = Some (w', st', go).
Proof using plan_fits distinct few at_d drives.
  revert r k walk w W st. induction c as [|c IH]; intros r k walk w W st Hst Hk Hc Hr; cbn [walk_chunks].
  { exists walk, w, st, true. split; [done|]. unfold chunks_of in Hc. by destruct (decide (r = 0)) as [->|]. }
  unfold chunks_of in Hc. destruct (decide (r = 0)) as [|Hr0]; [done|]. injection Hc as Hc.
  pose proof (Nat.div_mod_eq (r - 1) rowsPerChunk) as Ediv. pose proof (Nat.mod_upper_bound (r - 1) rowsPerChunk ltac:(done)) as Emod.
  rewrite <- Hc in Ediv. set (a := c * rowsPerChunk). assert (Ha : a < r ∧ r ≤ a + rowsPerChunk) by (unfold a; lia).
  pose proof (sd_in _ _ _ _ _ Hst) as Hin. rewrite Forall_forall in Hin. pose proof (Hin t ltac:(by eapply list_elem_of_lookup_2)) as Htin.
  destruct (sd_ahead _ _ _ _ _ Hst) as (s & Es & Hl & _).
  rewrite at_d. cbn [mbind option_bind]. rewrite Es. cbn [mbind option_bind].
  rewrite (chunk_live k w W s c (sd_sim _ _ _ _ _ Hst) Htin Es ltac:(change (a < liveRows s); lia)). cbn [mbind option_bind]. fold a.
  assert (Ei : Nat.min (liveRows s - a) rowsPerChunk = r - a).
  { destruct Hr as [Hr|(s' & Es' & Hr)]; [rewrite Nat.mul_succ_l in Hr; fold a in Hr; lia|]. rewrite Es in Es'. injection Es' as <-. lia. }
  rewrite Ei. assert (Er : r = a + (r - a)) by lia.
  assert (Hst1 : standing (a + (r - a)) k walk w W) by (by rewrite <- Er).
  destruct (chunk_standing a (r - a) k walk w W st Hst1) as (walk1 & w1 & st1 & go & -> & E1 & Hgo).
  { enough (b * (r - a) ≤ b * r) by lia. apply Nat.mul_le_mono_l. lia. }
  cbn [mbind option_bind]. rewrite Er, due_app, for_until_app, E1. cbn [mbind option_bind]. destruct go.
  - destruct (Hgo eq_refl) as [W1 Hst2].
    destruct (IH a (k + b * (r - a)) walk1 w1 W1 st1 Hst2) as (walk' & w' & st' & go' & E & E').
    + enough (b * (r - a) + b * a = b * r) by lia. rewrite <- Nat.mul_add_distr_l. f_equal. lia.
    + unfold chunks_of, a. destruct (decide _) as [Ez|Hz].
      * unfold rowsPerChunk in Ez. lia.
      * assert (E256 : (c * rowsPerChunk - 1) / rowsPerChunk = c - 1); [|rewrite E256; unfold rowsPerChunk in Hz; lia].
        symmetry. apply (Nat.div_unique _ _ _ 255); unfold rowsPerChunk in *; lia.
    + left. done.
    + exists walk', w', st', go'. by rewrite E.
  - by exists walk1, w1, st1, false.
Qed.
End loops.

Section claims.
Context (words : nat) (first last : N) (Size : nat → nat).
Context {R B St : Type} `{WindowedLaws R} `{ShrinkerLaws B}.
Implicit Types (w : worldResource R B) (e : Entity) (terms : list term) (st : St).

(** What the terms ask of an entity, as the world's [Has] answers. *)
Definition satisfies w terms e : Prop := ∀ t, t ∈ terms →
  match mode t with
  | termRead | termWrite | termWith => Has w e (term_store t) = Some true
  | termWithout => Has w e (term_store t) = Some false
  | termOptionalRead | termOptionalWrite => True
  end.

Lemma satisfies_matches k x terms e :
  WorldRefines.world_sim words first last Size k x.1 x.2 → Forall (in_world x.2) terms →
  query_matches x.2 terms e = true ↔ satisfies x.1 terms e.
Proof using Type.
  intros HW Hin. rewrite Forall_forall in Hin. unfold query_matches, satisfies. rewrite forallb_forall.
  assert (Hhas : ∀ t, t ∈ terms → Has x.1 e (term_store t) = Some (stored x.2 e (term_store t))).
  { intros t Ht. destruct (read_store words first last Size k x (term_store t) HW (Hin t Ht)) as (s & o & _ & _ & Hr). apply (Hr e). }
  assert (Heq : ∀ t, t ∈ terms → term_holds x.2 e t = true ↔ match mode t with
    | termRead | termWrite | termWith => Has x.1 e (term_store t) = Some true
    | termWithout => Has x.1 e (term_store t) = Some false | _ => True end).
  { intros t Ht. rewrite (Hhas t Ht). unfold term_holds. destruct (mode t), (stored x.2 e (term_store t)); naive_solver. }
  split; intros Hs t Ht; [apply Heq; [done|]; by apply Hs, list_elem_of_In|].
  apply list_elem_of_In in Ht. apply Heq; [done|]. by apply Hs.
Qed.

(** C37: a query yields exactly the entities that satisfied its terms when the
    walk began, each once, with the rows its stores find for each term at
    that moment and those of the terms that write marked as [write] marks
    them, whatever the consumer does to the entities it is given: write,
    give, take components, or despawn them; it stops where the consumer
    stops.  The walk never panics. *)
Theorem query_visits_each_once k x terms masks (plan : planner) b st :
  world_run words first last Size (R := R) (B := B) k x →
  length terms ≤ 8 → Forall (in_world x.2) terms → declareQuery terms = Ok masks →
  plan_ok words Size (length (ws_stores x.2)) b plan → (N.of_nat (S (k + b * k)) < 2 ^ 32 - 1)%N →
  ∃ es w' st' go, NoDup es ∧ (∀ e, e ∈ es ↔ satisfies x.1 terms e) ∧
    All terms (act words Size plan) x.1 st = Some (w', st') ∧
    for_until es (visit terms (act words Size plan)) (x.1, st) = Some (w', st', go).
Proof using Type.
  intros Hrun Hl Hin Hdecl Hplan Hk.
  assert (Hdr : existsb can_drive terms = true) by (unfold declareQuery in Hdecl; by destruct (existsb can_drive terms)).
  pose proof (world_run_sim words first last Size k x Hrun ltac:(lia)) as HW.
  destruct x as [w W]. cbn [fst snd] in *.
  destruct (makeQueryWalk_spec words first last Size k w W terms HW Hin Hl Hdr) as (d & m & Ewalk & (t & s & Et & Hd & Es & _) & Hmk & Hnone).
  pose proof Hin as Hin'. rewrite Forall_forall in Hin'. pose proof (Hin' t ltac:(by eapply list_elem_of_lookup_2)) as Htin.
  destruct (rows_lookup _ _ _ _ _ (wm_rows _ _ _ _ _ _ _ HW) Htin) as (s' & o & Es' & Eo & _ & (rows & Rp & I) & _ & Hlen & _).
  rewrite Es in Es'. injection Es' as <-. pose proof (sr_live _ _ Rp) as Hlive.
  set (os := r_owner <$> take (liveRows s) rows).
  assert (Hos : length os = liveRows s) by (unfold os; rewrite length_fmap, length_take; lia).
  assert (Hrow : ∀ i e, os !! i = Some e ↔ i < liveRows s ∧ ∃ y, rows !! i = Some y ∧ r_owner y = e).
  { intros i e. unfold os. rewrite list_lookup_fmap, fmap_Some. split.
    - intros (y & [Hy Hi]%lookup_take_Some & ->). split; [done|by exists y].
    - intros (Hi & y & Hy & <-). exists y. by rewrite lookup_take_lt. }
  assert (Hdist : NoDup os).
  { apply NoDup_alt. intros i j e (_ & y & Hy & Ey)%Hrow (_ & z & Hz & Ez)%Hrow. apply (sr_distinct s rows Rp i j y z Hy Hz). by rewrite Ey, Ez. }
  assert (Hstored : ∀ e, e ∈ os ↔ stored W e (term_store t) = true).
  { intros e. rewrite list_elem_of_lookup, stored_true. unfold has_value. split.
    - intros (i & (Hi & y & Hy & <-)%Hrow). exists (r_value y), o. split; [done|]. apply (ri_live _ _ _ _ _ I). exists y. split; [by exists i|done].
    - intros (v & o' & Eo' & Hv). assert (o' = o) as -> by congruence.
      destruct (sim_live _ _ _ _ _ Rp I Hv) as (i & y & Hi & Hy & Ey & _). exists i. apply Hrow. split; [done|by exists y]. }
  assert (Hst : standing words first last Size (length (ws_stores W)) terms W d t m os (liveRows s) k (mkWalk (Some d) m (replicate 8 None)) w W).
  { split; try done; [|by rewrite Hos]. exists s. split; [done|]. split; [done|]. intros i e Hi (_ & y & Hy & <-)%Hrow. by eapply owner_at. }
  assert (Hrows : liveRows s ≤ k).
  { unfold ALen in Hlen. rewrite (array_length _ _ (sr_owners _ _ Rp)), length_fmap in Hlen. lia. }
  destruct (chunks_standing words first last Size plan _ b Hplan terms Hl W d t Et Hd m os Hdist (chunks_of (liveRows s)) (liveRows s) k _ w W st Hst)
    as (walk' & w' & st' & go & E & E'); [|done|right; by exists s|].
  { enough (b * liveRows s ≤ b * k) by lia. by apply Nat.mul_le_mono_l. }
  exists (due terms W os 0 (liveRows s)), w', st', go. split_and!.
  - unfold due. apply NoDup_filter. rewrite reverse_Permutation, drop_0, take_ge by (by rewrite Hos). done.
  - intros e. rewrite <- (satisfies_matches k (w, W) terms e HW Hin). unfold due. rewrite drop_0, take_ge by (by rewrite Hos).
    rewrite list_elem_of_filter, elem_of_reverse, Hstored. cbn [snd]. split; [by intros [? _]|]. intros Hq. split; [done|].
    unfold query_matches in Hq. rewrite forallb_forall in Hq. specialize (Hq t (proj1 (list_elem_of_In _ _) (list_elem_of_lookup_2 _ _ _ Et))).
    unfold term_holds, can_drive in *. by destruct (mode t).
  - unfold All. rewrite Ewalk. cbn [mbind option_bind drivingTerm]. rewrite Et. cbn [mbind option_bind]. rewrite Es. cbn [mbind option_bind].
    unfold len. rewrite E. done.
  - done.
Qed.
End claims.

(** ** A walk whose consumer despawns what it is given *)

Module QueryExample.
Import Example.
#[local] Existing Instances number_refs number_refs_laws number_recorder number_recorder_laws.

(** A second entity, of the tag alone. *)
Definition e2 : Entity := makeEntity 2 1.
Definition op2 : world_op := WSpawnRaw [2%N] [].
Definition world2 : exampleWorld :=
  match run_world 1 sizes world1 op2 with Some (w, _) => w | None => world1 end.
Definition state2 :=
  (world2, ws_addAll sizes (mkWorldSpec (sp_spawned 1 (sp_reserved (ws_table state1.2) e2) e2) (ws_stores state1.2)) e2 (ids_of 1 [2%N]) []).

Lemma op2_ok : world_op_ok 1 sizes state1.2 op2.
Proof.
  split_and!; [vm_compute; reflexivity|by repeat constructor| |vm_compute; reflexivity].
  intros id Hid. assert (E : ids_of 1 [2%N] = [1]) by (by vm_compute). rewrite E in Hid. apply list_elem_of_singleton in Hid. subst id.
  vm_compute. lia.
Qed.

Lemma answered {A C} (o : option (A * C)) (a0 : A) c :
  snd <$> o = Some c → o = Some (match o with Some (a, _) => a | None => a0 end, c).
Proof. destruct o as [[a c']|]; [|done]. intros [= ->]. done. Qed.

Lemma run_world2 : run_world 1 sizes world1 op2 = Some (world2, Handed e2).
Proof. apply answered. vm_compute. reflexivity. Qed.

Lemma world_run2 : world_run 1 1 9 sizes (0 + cost 1 op1 + cost 1 op2) state2.
Proof.
  eapply (world_run_step 1 1 9 sizes _ state1 op2 (Handed e2) state2); [exact world_run1|exact op2_ok|exact run_world2|].
  apply ws_step_spawnRaw; [|done]. apply spec_spawn. apply (bool_decide_unpack _). by vm_compute.
Qed.

Definition terms : list term := [mkTerm 1 termWrite; mkTerm 0 termOptionalRead].
Definition despawn_each : planner (R := exampleRefs) (B := exampleRecorder) (St := nat) := λ _ e _ n, ([WDespawn e], S n, true).

Lemma despawns_ok n : plan_ok 1 sizes n 1 despawn_each.
Proof. intros w e adrs st He. cbn. split; [done|]. intros op Hop%list_elem_of_singleton. subst op. done. Qed.

Definition asks (w : exampleWorld) (t : term) (e : Entity) : bool :=
  match mode t with
  | termRead | termWrite | termWith => bool_decide (Has w e (term_store t) = Some true)
  | termWithout => bool_decide (Has w e (term_store t) = Some false)
  | _ => true
  end.

Lemma satisfies_by (w : exampleWorld) ts e : forallb (λ t, asks w t e) ts = true → satisfies w ts e.
Proof.
  rewrite forallb_forall. intros Hf t Ht. specialize (Hf t (proj1 (list_elem_of_In _ _) Ht)). unfold asks in Hf.
  destruct (mode t); try done; by apply bool_decide_eq_true in Hf.
Qed.

Lemma query_visits_each_once_witness :
  ∃ es w' n, NoDup es ∧ e1 ∈ es ∧ e2 ∈ es ∧ All terms (act 1 sizes despawn_each) state2.1 0 = Some (w', n).
Proof.
  destruct (query_visits_each_once 1 1 9 sizes _ state2 terms (1%N, 2%N) despawn_each 1 0 world_run2) as (es & w' & n & go & H1 & H2 & H3 & _).
  - vm_compute. lia.
  - apply Forall_forall. intros t Ht. vm_compute in Ht |- *. set_solver by lia.
  - reflexivity.
  - exact (despawns_ok _).
  - vm_compute. reflexivity.
  - exists es, w', n. refine (conj H1 (conj (proj2 (H2 e1) _) (conj (proj2 (H2 e2) _) H3))); apply satisfies_by; vm_compute; reflexivity.
Defined.
End QueryExample.
