(* ===== verification/DeltaQuery.v ===== *)
(** * Delta queries of ecs/delta.go and their generated walks

    What happened to entities since the last observation reset: each value
    term's store drives in turn through the rows that changed, and an entity
    comes at its first term with a delta.  A delta query holds read locks, so
    its consumer changes none of the stores: what is yielded is a list, of
    which a consumer that stops takes a prefix.  The generated walks of
    deltaquery_gen.go differ in their number of terms only. *)

From Stdlib Require Import Strings.Byte.
From S2P Require Import Prelude Words Array Entity Store World Query.

Inductive deltaQueryError := TermWrites | TermOptional | NoValueTerm.

Record deltaWalk := mkDeltaWalk {
  delta_addresses : list (option address);
  delta_previous : list (option address);
  walk_deltas : list Delta
}.

(** A row yielded: its terms' values now, as of the reset, and their deltas. *)
Record deltaRow := mkDeltaRow {
  row_addresses : list (option address);
  row_previous : list (option address);
  row_deltas : list Delta
}.

Section delta_query.
Context (Size : nat → nat) {R B : Type}.
Implicit Types (w : worldResource R B) (stores : list (storeResource bytes)) (terms : list term) (walk : deltaWalk) (e : Entity).

(** [declareDeltaQuery]: the stores with their observers, in the order of the
    terms, or the first error; [values] tells whether a value term came. *)
Fixpoint declareDeltaTerms stores terms (values : bool) : option (result deltaQueryError (list (storeResource bytes))) :=
  match terms with
  | [] => Some (if values then Ok stores else Err NoValueTerm)
  | t :: terms =>
    match mode t with
    | termWrite => Some (Err TermWrites)
    | termOptionalRead | termOptionalWrite => Some (Err TermOptional)
    | termRead =>
      s ← stores !! term_store t;
      declareDeltaTerms (<[term_store t := registerObserver s]> stores) terms true
    | termWith | termWithout => declareDeltaTerms stores terms values
    end
  end.

Definition declareDeltaQuery stores terms := declareDeltaTerms stores terms false.

(** [observed]: every value term's store observes. *)
Fixpoint walk_observed stores terms : option bool :=
  match terms with
  | [] => Some true
  | t :: terms =>
    if decide (mode t = termRead) then
      s ← stores !! term_store t;
      if bool_decide (observation s = observed) then walk_observed stores terms else Some false
    else walk_observed stores terms
  end.

(** [store.shadow]. *)
Definition shadow_of (s : storeResource bytes) (id row : nat) : option address :=
  if negb (sized s) then Some TagRow else
  if decide (row / rowsPerChunk < length (shadowChunks s)) then Some (RowOf id row) else None.

Definition set_term walk (i : nat) (a p : option address) (d : Delta) : option deltaWalk :=
  adrs ← list_set (delta_addresses walk) i a;
  prev ← list_set (delta_previous walk) i p;
  ds ← list_set (walk_deltas walk) i d;
  Some (mkDeltaWalk adrs prev ds).

(** The end of a turn of [matches]: a value term's row and delta. *)
Definition set_value_term walk (i : nat) (s : storeResource bytes) (id row : nat) (d : Delta) : option deltaWalk :=
  a ← address_of s id row;
  p ← (if decide (d = DeltaAdded) then Some None else p ← shadow_of s id row; Some (Some p));
  set_term walk i (Some a) p d.

(** The loop of [matches] over the terms from the [i]-th. *)
Fixpoint match_terms stores (driving drivingRow : nat) (drivingDelta : Delta) e (i : nat) terms walk : option (deltaWalk * bool) :=
  match terms with
  | [] => Some (walk, true)
  | t :: terms =>
    s ← stores !! term_store t;
    if negb (bool_decide (mode t = termRead)) then
      '(_, ok) ← row_of s e;
      if Bool.eqb ok (bool_decide (mode t = termWithout)) then Some (walk, false) else
      walk ← set_term walk i (Some TagRow) (Some TagRow) DeltaNone;
      match_terms stores driving drivingRow drivingDelta e (S i) terms walk
    else if decide (i = driving) then
      walk ← set_value_term walk i s (term_store t) drivingRow drivingDelta;
      match_terms stores driving drivingRow drivingDelta e (S i) terms walk
    else
      '(row, ok) ← reportedRow s e;
      if negb ok then Some (walk, false) else
      d ← delta (H := zero_of Size (term_store t)) s row;
      if decide (i < driving ∧ d ≠ DeltaNone) then Some (walk, false) else
      walk ← set_value_term walk i s (term_store t) row d;
      match_terms stores driving drivingRow drivingDelta e (S i) terms walk
  end.

Definition delta_matches stores walk terms (drivingTerm drivingRow : nat) : option (deltaWalk * bool) :=
  t ← terms !! drivingTerm;
  s ← stores !! term_store t;
  d ← delta (H := zero_of Size (term_store t)) s drivingRow;
  if decide (d = DeltaNone) then Some (walk, false) else
  e ← AAt (owners s) drivingRow;
  match_terms stores drivingTerm drivingRow d e 0 terms walk.

(** One row of the walk: the walk and what was yielded so far. *)
Definition delta_row_step stores terms (drivingTerm : nat) (s : storeResource bytes) (i : nat)
    (st : deltaWalk * list (Entity * deltaRow)) : option (deltaWalk * list (Entity * deltaRow)) :=
  let '(walk, out) := st in
  row ← (if negb (changedEntitiesOverflowed s) then r ← listedRow s i; Some (Some r) else
    state ← AAt (rowStates s) i;
    Some (if decide (state = rowUnchanged) then None else Some i));
  match row with
  | None => Some st
  | Some row =>
    '(walk, ok) ← delta_matches stores walk terms drivingTerm row;
    if negb ok then Some (walk, out) else
    e ← AAt (owners s) row;
    let n := length terms in
    Some (walk, out ++ [(e, mkDeltaRow (take n (delta_addresses walk)) (take n (delta_previous walk)) (take n (walk_deltas walk)))])
  end.

Definition delta_term_step stores terms (drivingTerm : nat) (st : deltaWalk * list (Entity * deltaRow)) :
    option (deltaWalk * list (Entity * deltaRow)) :=
  t ← terms !! drivingTerm;
  if decide (mode t = termRead) then
    s ← stores !! term_store t;
    for_range (walkedRows s) (delta_row_step stores terms drivingTerm s) st
  else Some st.

(** [All] of a delta query. *)
Definition DeltaAll stores terms : option (list (Entity * deltaRow)) :=
  ok ← walk_observed stores terms;
  if negb ok then Some [] else
  let walk := mkDeltaWalk (replicate 8 None) (replicate 8 None) (replicate 8 DeltaNone) in
  '(_, out) ← for_range (length terms) (delta_term_step stores terms) (walk, []);
  Some out.

(** What [Previous] reads: the zero value for a term added since. *)
Definition previousValue w (size : nat) (p : option address) : option bytes :=
  match p with
  | None => Some (replicate size x00)
  | Some TagRow => Some []
  | Some (RowOf id row) => s ← stores w !! id; v ← shadow_at (H := zero_of Size id) s row; Some (take size v)
  end.
End delta_query.
