(* ===== verification/DeltaQueryExact.v ===== *)
(** * What a delta query yields

    Exactly the entities with a delta in some value term that have or had
    every value term and pass the filters, each once, with each term's values
    as of now and of the reset. *)

From Stdlib Require Import Strings.Byte.
From S2P Require Import Prelude Words Pool Array Entity IndexTable Mask EntityTable EntityLedger EntityTableSpec EntitySim EntityRefines.
From S2P Require Import Store StoreRepr StoreSwap StoreSpec StoreRefines StoreWindow StoreHistory.
From S2P Require Import World WorldSpec WorldCoherent WorldRefines WorldSteps WorldHistory Query QueryMatch DeltaQuery.

(** ** One store *)

Section store.
Context {V : Type} `{Zero V} `{EqDecision V}.
Implicit Types (s : storeResource V) (σ : storeSpec V) (e : Entity).

(** The value of an entity now, or the last it had. *)
Definition value_now σ e : option V := match st_live σ !! e with Some v => Some v | None => st_gone σ !! e end.

Definition reported σ e : Prop := is_Some (st_live σ !! e) ∨ spec_delta σ e = DeltaRemoved.

Lemma reported_delta σ e : spec_delta σ e ≠ DeltaNone → reported σ e.
Proof. unfold reported, spec_delta. destruct (st_base σ !! e), (st_live σ !! e); try done; intros _; [by left; eexists|by right|by left; eexists]. Qed.

(** Row [r] is [e]'s, and reads as the promise says. *)
Definition reads_as s σ (r : nat) e : Prop :=
  AAt (owners s) r = Some e ∧ delta s r = Some (spec_delta σ e) ∧
  (reported σ e → (∃ v, value_at s r = Some v ∧ value_now σ e = Some v) ∧
    (spec_delta σ e ≠ DeltaAdded → ∃ b, shadow_at s r = Some b ∧ st_base σ !! e = Some b)).

Lemma row_reads s rows σ r w :
  store_repr s rows → rows_inv (lives (liveRows s) rows) (tails (liveRows s) rows) (observation s) (listing s) σ →
  observation s = observed → rows !! r = Some w → reads_as s σ r (r_owner w).
Proof.
  intros Rp I Ho Hw. destruct (delta_at_row s rows σ r w Rp I Ho Hw) as [Hown Hdelta]. split; [done|]. split; [done|]. intros Hrep. split.
  - exists (r_value w). split; [by eapply sr_values|]. unfold value_now. destruct (lives_or_tails (liveRows s) rows r w Hw) as [Hl|Ht].
    + rewrite (proj2 (ri_live _ _ _ _ _ I (r_owner w) (r_value w))); [done|by exists w].
    + rewrite (ri_dead _ _ _ _ _ _ I Ht). apply (ri_gone _ _ _ _ _ I Ho). by exists w.
  - intros Hd. assert (Hb : is_Some (st_base σ !! r_owner w)).
    { unfold reported, spec_delta in *. destruct (st_base σ !! r_owner w); [by eexists|].
      destruct (st_live σ !! r_owner w); [done|]. by destruct Hrep as [[? ?]|?]. }
    destruct Hb as [b Hb]. exists b. split; [|done].
    apply (ri_base _ _ _ _ _ I Ho) in Hb as (w' & Hw' & _ & Eo & <-).
    assert (∃ i, rows !! i = Some w') as [i Hi] by (destruct Hw' as [(i & _ & ?)|(i & _ & ?)]; by exists i).
    assert (i = r) as -> by (apply (sr_distinct s rows Rp i r w' w); [done|done|by rewrite Eo]).
    destruct (sr_observed _ _ Rp Ho) as (_ & _ & Hsh). by apply (Hsh r w').
Qed.

(** The walk over a driving store, *)
Lemma walk_reads s σ i : store_sim s σ → observation s = observed → i < walkedRows s → ∃ r e, StoreWindow.walk_row s i = Some r ∧ reads_as s σ r e.
Proof.
  intros (rows & Rp & I) Ho Hi. destruct (walk_ok s rows σ Rp Ho I i Hi) as (r & w & Hr & Hw). exists r, (r_owner w). split; [done|].
  by eapply row_reads.
Qed.

(** and the probe of another. *)
Lemma reported_reads s σ e : store_sim s σ → observation s = observed → indexes_apart σ →
  ∃ r ok, reportedRow s e = Some (r, ok) ∧ (ok = true ↔ reported σ e) ∧ (ok = true → reads_as s σ r e).
Proof.
  intros Hsim Ho Hap. destruct (sim_reported s σ e Hsim Ho) as (r & E & _).
  { intros He e' He' Ei. by rewrite (Hap e' e He' He Ei). } rewrite E. eexists r, _. split; [done|].
  split; [apply bool_decide_eq_true|]. intros Hr. destruct Hsim as (rows & Rp & I). unfold reportedRow in E. rewrite Hr in E.
  destruct (linked s (index e)) as [n|]; [|done]. destruct (decide (ALen (owners s) ≤ n)) as [|Hn]; [done|]. rewrite (owners_len _ _ Rp) in Hn.
  destruct (lookup_lt_is_Some_2 rows n) as [w Hw]; [lia|]. rewrite (owner_at s rows n w Rp Hw) in E. cbn [mbind option_bind] in E.
  destruct (N.eqb_spec (r_owner w) e) as [<-|]; [|done]. cbn [negb] in E.
  assert (n = r) as ->; [|by eapply row_reads].
  destruct (decide (n < liveRows s)); [by injection E|]. apply bind_Some in E as (st & _ & [= -> _]). done.
Qed.
End store.

(** ** What a delta query means *)

Section spec.
Implicit Types (W : worldSpec) (e : Entity) (t : term) (terms : list term).

Definition store_of W t : storeSpec bytes := match ws_stores W !! term_store t with Some o => o.2 | None => mkStoreSpec ∅ ∅ ∅ end.

Definition delta_of W e t : Delta := spec_delta (store_of W t) e.

(** The term asks something of an entity that the walk yields. *)
Definition term_asks W e t : Prop := if decide (mode t = termRead) then reported (store_of W t) e else term_holds W e t = true.

Definition delta_satisfies W terms e : Prop :=
  (∀ t, t ∈ terms → term_asks W e t) ∧ ∃ t, t ∈ terms ∧ mode t = termRead ∧ delta_of W e t ≠ DeltaNone.

(** The [d]-th term is the first with a delta. *)
Definition yields_at W terms d e : Prop :=
  (∃ t, terms !! d = Some t ∧ mode t = termRead ∧ delta_of W e t ≠ DeltaNone) ∧
  ∀ i t, terms !! i = Some t → term_asks W e t ∧ (i < d → mode t = termRead → delta_of W e t = DeltaNone).

Lemma yields_once W terms d d' e : yields_at W terms d e → yields_at W terms d' e → d = d'.
Proof.
  intros [(t & Et & Hm & Hd) Ha] [(t' & Et' & Hm' & Hd') Ha']. destruct (Nat.lt_trichotomy d d') as [Hlt|[|Hlt]]; [|done|].
  - destruct Hd. by apply (Ha' d t Et).
  - destruct Hd'. by apply (Ha d' t' Et').
Qed.

Lemma yields_somewhere W terms e : delta_satisfies W terms e ↔ ∃ d, yields_at W terms d e.
Proof.
  split.
  - intros [Ha (t & Ht & Hm & Hd)]. apply list_elem_of_lookup in Ht as [i Ei].
    assert (G : ∀ n i t, i < n → terms !! i = Some t → mode t = termRead → delta_of W e t ≠ DeltaNone → ∃ d, yields_at W terms d e).
    { intros n. induction n as [|n IH]; intros i' t' Hi Et' Hm' Hd'; [lia|].
      destruct (decide (Exists (λ u, mode u = termRead ∧ delta_of W e u ≠ DeltaNone) (take i' terms))) as [Hex|Hno].
      - apply Exists_exists in Hex as (u & Hu & Hmu & Hdu). apply list_elem_of_lookup in Hu as [j Ej]. apply lookup_take_Some in Ej as [Ej Hj].
        apply (IH j u); [lia|done|done|done].
      - exists i'. split; [by exists t'|]. intros j u Eu. split; [apply Ha; by eapply list_elem_of_lookup_2|]. intros Hj Hmu.
        destruct (decide (delta_of W e u = DeltaNone)) as [|Hdu]; [done|]. destruct Hno. apply Exists_exists. exists u. split; [|done].
        apply list_elem_of_lookup. exists j. by rewrite lookup_take_lt. }
    by apply (G (S i) i t); [lia|..].
  - intros (d & (t & Et & Hm & Hd) & Ha). split.
    + intros u Hu. apply list_elem_of_lookup in Hu as [i Ei]. by apply (Ha i u).
    + exists t. split; [by eapply list_elem_of_lookup_2|done].
Qed.
End spec.

(** ** The walk *)

Section walk.
Context (words : nat) (first last : N) (Size : nat → nat).
Context {R B : Type} `{WindowedLaws R} `{ShrinkerLaws B}.
Implicit Types (w : worldResource R B) (W : worldSpec) (e : Entity) (t : term) (terms : list term) (walk : deltaWalk).

#[local] Abbreviation world_sim := (world_sim words first last Size).

Definition read_previous w (p : address) : option bytes :=
  match p with TagRow => Some [] | RowOf id row => s ← stores w !! id; shadow_at (H := zero_of Size id) s row end.

(** What a yielded row shows of its [i]-th term. *)
Definition term_shown w W e (adrs prev : list (option address)) (ds : list Delta) (i : nat) t : Prop :=
  if decide (mode t = termRead)
  then ds !! i = Some (delta_of W e t) ∧
    (∃ a v, adrs !! i = Some (Some a) ∧ read_address w Size a = Some v ∧ value_now (store_of W t) e = Some v) ∧
    if decide (delta_of W e t = DeltaAdded) then prev !! i = Some None
    else ∃ p b, prev !! i = Some (Some p) ∧ read_previous w p = Some b ∧ st_base (store_of W t) !! e = Some b
  else adrs !! i = Some (Some TagRow) ∧ prev !! i = Some (Some TagRow) ∧ ds !! i = Some DeltaNone.

(** A value term's store, observed. *)
Lemma value_store k w W t :
  world_sim k w W → in_world W t → observes w t = true →
  ∃ s, stores w !! term_store t = Some s ∧ StoreRefines.store_sim (H := zero_of Size (term_store t)) s (store_of W t) ∧
    observation s = observed ∧ sized s = negb (Size (term_store t) =? 0) ∧ indexes_apart (store_of W t).
Proof using Type.
  intros HW Ht Ho. destruct (rows_lookup _ _ _ _ _ (wm_rows _ _ _ _ _ _ _ HW) Ht) as (s & o & Es & Eo & _ & Hsim & Hsz & _ & Hap).
  exists s. unfold store_of. rewrite Eo. unfold observes in Ho. rewrite Es in Ho. by apply bool_decide_eq_true in Ho.
Qed.

Lemma read_sized (s : storeResource bytes) id row v w :
  stores w !! id = Some s → sized s = negb (Size id =? 0) → value_at (H := zero_of Size id) s row = Some v →
  ∃ a, address_of s id row = Some a ∧ read_address w Size a = Some v.
Proof using Type.
  intros Es Hz Hv. unfold address_of. destruct (sized s) eqn:Ez; cbn [negb].
  - pose proof Hv as Hv'. unfold value_at, chunk_read in Hv'. rewrite Ez in Hv'. cbn [negb] in Hv'. apply bind_Some in Hv' as (c & Ec & _).
    rewrite decide_True by (by eapply lookup_lt_Some). eexists. split; [done|]. cbn. by rewrite Es.
  - exists TagRow. split; [done|]. unfold value_at, chunk_read in Hv. rewrite Ez in Hv. cbn [negb] in Hv. injection Hv as <-.
    destruct (Nat.eqb_spec (Size id) 0) as [E0|]; [|done]. unfold zero_value, zero_of. by rewrite E0.
Qed.

Lemma shadow_sized (s : storeResource bytes) id row v w :
  stores w !! id = Some s → sized s = negb (Size id =? 0) → shadow_at (H := zero_of Size id) s row = Some v →
  ∃ a, shadow_of s id row = Some a ∧ read_previous w a = Some v.
Proof using Type.
  intros Es Hz Hv. unfold shadow_of. destruct (sized s) eqn:Ez; cbn [negb].
  - pose proof Hv as Hv'. unfold shadow_at, chunk_read in Hv'. rewrite Ez in Hv'. cbn [negb] in Hv'. apply bind_Some in Hv' as (c & Ec & _).
    rewrite decide_True by (by eapply lookup_lt_Some). eexists. split; [done|]. cbn. by rewrite Es.
  - exists TagRow. split; [done|]. unfold shadow_at, chunk_read in Hv. rewrite Ez in Hv. cbn [negb] in Hv. injection Hv as <-.
    destruct (Nat.eqb_spec (Size id) 0) as [E0|]; [|done]. unfold zero_value, zero_of. by rewrite E0.
Qed.

(** The arrays of a walk. *)
Definition eight walk : Prop := length (delta_addresses walk) = 8 ∧ length (delta_previous walk) = 8 ∧ length (walk_deltas walk) = 8.

(** [walk'] is [walk] with entry [i] changed. *)
Definition others_kept walk walk' (i : nat) : Prop := ∀ j, j ≠ i →
  delta_addresses walk' !! j = delta_addresses walk !! j ∧ delta_previous walk' !! j = delta_previous walk !! j ∧
  walk_deltas walk' !! j = walk_deltas walk !! j.

Definition shows w W e walk i t : Prop := term_shown w W e (delta_addresses walk) (delta_previous walk) (walk_deltas walk) i t.

Lemma shows_kept w W e walk walk' i t :
  delta_addresses walk' !! i = delta_addresses walk !! i → delta_previous walk' !! i = delta_previous walk !! i →
  walk_deltas walk' !! i = walk_deltas walk !! i → shows w W e walk i t → shows w W e walk' i t.
Proof using Type. unfold shows, term_shown. by intros -> -> ->. Qed.

Lemma set_term_spec walk i a p d : eight walk → i < 8 →
  ∃ walk', set_term walk i a p d = Some walk' ∧ eight walk' ∧ others_kept walk walk' i ∧
    delta_addresses walk' !! i = Some a ∧ delta_previous walk' !! i = Some p ∧ walk_deltas walk' !! i = Some d.
Proof using Type.
  intros (H1' & H2' & H3') Hi. unfold set_term. rewrite (list_set_Some (delta_addresses walk)) by lia. cbn [mbind option_bind].
  rewrite (list_set_Some (delta_previous walk)) by lia. cbn [mbind option_bind]. rewrite (list_set_Some (walk_deltas walk)) by lia. cbn [mbind option_bind].
  eexists. split; [done|]. cbn. split; [by unfold eight; cbn; rewrite !length_insert|]. split; [intros j Hj; cbn; by rewrite !list_lookup_insert_ne|].
  by rewrite !list_lookup_insert_eq by lia.
Qed.

Lemma set_value_term_spec k w W e t s row walk i :
  world_sim k w W → stores w !! term_store t = Some s → sized s = negb (Size (term_store t) =? 0) → mode t = termRead →
  reads_as (H := zero_of Size (term_store t)) s (store_of W t) row e → reported (store_of W t) e → eight walk → i < 8 →
  ∃ walk', set_value_term walk i s (term_store t) row (delta_of W e t) = Some walk' ∧ eight walk' ∧ others_kept walk walk' i ∧ shows w W e walk' i t.
Proof using Type.
  intros HW Es Hz Hm (_ & _ & Hr) Hrep H8 Hi. destruct (Hr Hrep) as [(v & Hv & Hnow) Hbase].
  destruct (read_sized s _ row v w Es Hz Hv) as (a & Ea & Hra). unfold set_value_term. rewrite Ea. cbn [mbind option_bind].
  fold (delta_of W e t) in Hbase. destruct (decide (delta_of W e t = DeltaAdded)) as [Hd|Hd].
  - cbn [mbind option_bind]. destruct (set_term_spec walk i (Some a) None (delta_of W e t) H8 Hi) as (walk' & -> & H8' & Hk & Ha & Hp & Hds).
    exists walk'. split_and!; try done. unfold shows, term_shown. rewrite decide_True by done. split; [done|]. split; [by exists a, v|].
    by rewrite decide_True.
  - destruct (Hbase Hd) as (b & Hb & Hbb). destruct (shadow_sized s _ row b w Es Hz Hb) as (p & Ep & Hrp). rewrite Ep. cbn [mbind option_bind].
    destruct (set_term_spec walk i (Some a) (Some p) (delta_of W e t) H8 Hi) as (walk' & -> & H8' & Hk & Ha & Hp & Hds).
    exists walk'. split_and!; try done. unfold shows, term_shown. rewrite decide_True by done. split; [done|]. split; [by exists a, v|].
    rewrite decide_False by done. by exists p, b.
Qed.

(** What a delta query's declaration made sure of, and the walk checked. *)
Definition delta_terms w W terms : Prop :=
  Forall (in_world W) terms ∧ length terms ≤ 8 ∧ Forall (λ t, mode t = termRead ∨ mode t = termWith ∨ mode t = termWithout) terms ∧
  Forall (λ t, mode t = termRead → observes w t = true) terms.

(** The loop over the terms from the [i]-th. *)
Lemma match_terms_spec k w W e d row terms i walk :
  world_sim k w W → Forall (in_world W) terms → i + length terms ≤ 8 →
  Forall (λ t, mode t = termRead ∨ mode t = termWith ∨ mode t = termWithout) terms →
  Forall (λ t, mode t = termRead → observes w t = true) terms → eight walk →
  (∀ t s, i ≤ d → terms !! (d - i) = Some t → stores w !! term_store t = Some s →
    mode t = termRead ∧ reads_as (H := zero_of Size (term_store t)) s (store_of W t) row e ∧ delta_of W e t ≠ DeltaNone) →
  ∀ dd, (∀ t, i ≤ d → terms !! (d - i) = Some t → dd = delta_of W e t) →
  ∃ walk' ok, match_terms Size (stores w) d row dd e i terms walk = Some (walk', ok) ∧ eight walk' ∧
    (∀ j, j < i → delta_addresses walk' !! j = delta_addresses walk !! j ∧ delta_previous walk' !! j = delta_previous walk !! j ∧
      walk_deltas walk' !! j = walk_deltas walk !! j) ∧
    (ok = true ↔ ∀ j t, terms !! j = Some t → term_asks W e t ∧ (i + j < d → mode t = termRead → delta_of W e t = DeltaNone)) ∧
    (ok = true → ∀ j t, terms !! j = Some t → shows w W e walk' (i + j) t).
Proof using Type.
  intros HW. revert i walk. induction terms as [|t terms IH]; intros i walk Hin Hi Hmodes Hobs H8 Hd dd Hdd; cbn [match_terms].
  { exists walk, true. split_and!; done. }
  apply Forall_cons in Hin as [Ht Hin]. apply Forall_cons in Hmodes as [Hm Hmodes]. apply Forall_cons in Hobs as [Ho Hobs]. cbn [length] in Hi.
  assert (Hno : ∀ b : Prop, ¬ (term_asks W e t ∧ (i < d → mode t = termRead → delta_of W e t = DeltaNone)) →
    (false = true ↔ ∀ j u, (t :: terms) !! j = Some u → term_asks W e u ∧ (i + j < d → mode u = termRead → delta_of W e u = DeltaNone))).
  { intros _ Hn. split; [done|]. intros Hall. destruct Hn. specialize (Hall 0 t eq_refl). by rewrite Nat.add_0_r in Hall. }
  assert (Hgo : ∀ walk1, eight walk1 → others_kept walk walk1 i → shows w W e walk1 i t →
    term_asks W e t → (i < d → mode t = termRead → delta_of W e t = DeltaNone) →
    ∃ walk' ok, match_terms Size (stores w) d row dd e (S i) terms walk1 = Some (walk', ok) ∧ eight walk' ∧
      (∀ j, j < i → delta_addresses walk' !! j = delta_addresses walk !! j ∧ delta_previous walk' !! j = delta_previous walk !! j ∧
        walk_deltas walk' !! j = walk_deltas walk !! j) ∧
      (ok = true ↔ ∀ j u, (t :: terms) !! j = Some u → term_asks W e u ∧ (i + j < d → mode u = termRead → delta_of W e u = DeltaNone)) ∧
      (ok = true → ∀ j u, (t :: terms) !! j = Some u → shows w W e walk' (i + j) u)).
  { intros walk1 H81 Hk Hs Hask Hfirst. destruct (IH (S i) walk1 Hin ltac:(lia) Hmodes Hobs H81) with (dd := dd) as (walk' & ok & E & H8' & Hold & Hok & Hshow).
    { intros u s Hu Eu. apply Hd; [lia|]. by replace (d - i) with (S (d - S i)) by lia. }
    { intros u Hu Eu. apply Hdd; [lia|]. by replace (d - i) with (S (d - S i)) by lia. }
    exists walk', ok. split_and!; [done|done| | |].
    - intros j Hj. destruct (Hold j) as (-> & -> & ->); [lia|]. apply Hk. lia.
    - rewrite Hok. split.
      + intros Hall [|j] u Eu; cbn in Eu; [injection Eu as <-; by rewrite Nat.add_0_r|]. rewrite Nat.add_succ_r. by apply Hall.
      + intros Hall j u Eu. specialize (Hall (S j) u Eu). by rewrite Nat.add_succ_r in Hall.
    - intros Htrue [|j] u Eu; cbn in Eu.
      + injection Eu as <-. rewrite Nat.add_0_r. destruct (Hold i) as (E1 & E2 & E3); [lia|]. by eapply shows_kept.
      + rewrite Nat.add_succ_r. by apply Hshow. }
  destruct (store_finds words first last Size k w W e t HW Ht) as (s0 & Es0 & Hs0). rewrite Es0. cbn [mbind option_bind].
  destruct (decide (mode t = termRead)) as [Hr|Hr].
  - rewrite bool_decide_eq_true_2 by done. cbn [negb]. destruct (value_store k w W t HW Ht (Ho Hr)) as (s & Es & Hsim & Hob & Hsz & Hap).
    rewrite Es0 in Es. injection Es as ->. destruct (decide (i = d)) as [->|Hid].
    + destruct (Hd t s) as (_ & Hreads & Hne); [done|by rewrite Nat.sub_diag|done|].
      pose proof (reported_delta _ _ Hne) as Hrep. rewrite (Hdd t) by (done || by rewrite Nat.sub_diag).
      destruct (set_value_term_spec k w W e t s row walk d HW Es0 Hsz Hr Hreads Hrep H8 ltac:(lia)) as (walk1 & -> & H81 & Hk & Hs).
      cbn [mbind option_bind]. rewrite <- (Hdd t) by (done || by rewrite Nat.sub_diag). apply Hgo; [done|done|done| |lia].
      unfold term_asks. by rewrite decide_True.
    + destruct (reported_reads (H := zero_of Size (term_store t)) s _ e Hsim Hob Hap) as (r & ok & -> & Hrep & Hreads). cbn [mbind option_bind].
      destruct ok; cbn [negb].
      2:{ exists walk, false. split; [done|]. split; [done|]. split; [done|]. split; [|done]. apply (Hno True). intros [Hask _].
          unfold term_asks in Hask. rewrite decide_True in Hask by done. by apply Hrep in Hask. }
      specialize (Hreads eq_refl). pose proof (proj1 Hrep eq_refl) as Hrep'. pose proof (proj1 (proj2 Hreads)) as Hdelta.
      rewrite Hdelta. cbn [mbind option_bind]. fold (delta_of W e t). destruct (decide (i < d ∧ delta_of W e t ≠ DeltaNone)) as [[Hlt Hne]|Hc].
      * exists walk, false. split; [done|]. split; [done|]. split; [done|]. split; [|done]. apply (Hno True). intros [_ Hf]. by apply Hne, Hf.
      * destruct (set_value_term_spec k w W e t s r walk i HW Es0 Hsz Hr Hreads Hrep' H8 ltac:(lia)) as (walk1 & -> & H81 & Hk & Hs).
        cbn [mbind option_bind]. apply Hgo; [done|done|done|by unfold term_asks; rewrite decide_True|]. intros Hlt _.
        destruct (decide (delta_of W e t = DeltaNone)); [done|]. by destruct Hc.
  - rewrite bool_decide_eq_false_2 by done. cbn [negb].
    assert (Hrow : ∃ n ok, row_of s0 e = Some (n, ok) ∧ ok = stored W e (term_store t)).
    { destruct (stored W e (term_store t)); [destruct Hs0 as (n & a & _ & ? & _); by exists n, true|destruct Hs0 as (_ & n & ?); by exists n, false]. }
    destruct Hrow as (n & ok & -> & ->). cbn [mbind option_bind].
    assert (Hc : Bool.eqb (stored W e (term_store t)) (bool_decide (mode t = termWithout)) = negb (term_holds W e t)).
    { unfold term_holds. destruct Hm as [|[Hm|Hm]]; [done|rewrite Hm..]; by destruct (stored W e (term_store t)). }
    rewrite Hc. destruct (term_holds W e t) eqn:Eh; cbn [negb].
    + destruct (set_term_spec walk i (Some TagRow) (Some TagRow) DeltaNone H8 ltac:(lia)) as (walk1 & -> & H81 & Hk & Ha & Hp & Hds).
      cbn [mbind option_bind]. apply Hgo; [done|done| | |done].
      * unfold shows, term_shown. by rewrite decide_False.
      * unfold term_asks. by rewrite decide_False.
    + exists walk, false. split; [done|]. split; [done|]. split; [done|]. split; [|done]. apply (Hno True). intros [Hask _].
      unfold term_asks in Hask. rewrite decide_False in Hask by done. congruence.
Qed.

Lemma delta_matches_spec k w W terms d t s r e walk :
  world_sim k w W → delta_terms w W terms → terms !! d = Some t → mode t = termRead → stores w !! term_store t = Some s →
  reads_as (H := zero_of Size (term_store t)) s (store_of W t) r e → eight walk →
  ∃ walk' ok, delta_matches Size (stores w) walk terms d r = Some (walk', ok) ∧ eight walk' ∧ (ok = true ↔ yields_at W terms d e) ∧
    (ok = true → ∀ j u, terms !! j = Some u → shows w W e walk' j u).
Proof using Type.
  intros HW (Hin & Hl & Hmodes & Hobs) Et Hm Es Hreads H8. pose proof Hreads as (Hown & Hdelta & _). unfold delta_matches.
  rewrite Et. cbn [mbind option_bind]. rewrite Es. cbn [mbind option_bind]. rewrite Hdelta. cbn [mbind option_bind]. fold (delta_of W e t).
  destruct (decide (delta_of W e t = DeltaNone)) as [Hz|Hz].
  - exists walk, false. split; [done|]. split; [done|]. split; [|done]. split; [done|]. intros [(t' & Et' & _ & Hd) _].
    rewrite Et in Et'. by injection Et' as <-.
  - rewrite Hown. cbn [mbind option_bind].
    destruct (match_terms_spec k w W e d r terms 0 walk HW Hin ltac:(cbn; lia) Hmodes Hobs H8) with (dd := delta_of W e t)
      as (walk' & ok & E & H8' & _ & Hok & Hshow).
    { intros u su _ Eu Esu. rewrite Nat.sub_0_r, Et in Eu. injection Eu as <-. assert (su = s) as -> by congruence. done. }
    { intros u _ Eu. rewrite Nat.sub_0_r, Et in Eu. by injection Eu as <-. }
    exists walk', ok. split; [done|]. split; [done|]. split; [|done]. rewrite Hok. unfold yields_at. split.
    + intros Hall. split; [by exists t|]. exact Hall.
    + intros [_ Hall]. exact Hall.
Qed.

(** The rows yielded show their entities' terms. *)
Definition shown_row w W terms e (row : deltaRow) : Prop := ∀ i t, terms !! i = Some t →
  term_shown w W e (row_addresses row) (row_previous row) (row_deltas row) i t.

(** [out] after [out0]: the entities of [P], each once. *)
Definition yielded w W terms (P : Entity → Prop) (out : list (Entity * deltaRow)) : Prop :=
  NoDup out.*1 ∧ (∀ e, e ∈ out.*1 ↔ P e) ∧ ∀ e row, (e, row) ∈ out → shown_row w W terms e row.

Lemma yielded_more w W terms (P Q : Entity → Prop) out e row :
  yielded w W terms P out → ¬ P e → shown_row w W terms e row → (∀ e', Q e' ↔ P e' ∨ e' = e) → yielded w W terms Q (out ++ [(e, row)]).
Proof using Type.
  intros (Hn & Hin & Hs) He Hrow HQ. split_and!.
  - rewrite fmap_app. apply NoDup_app. split_and!; [done| |apply NoDup_singleton]. intros x Hx%Hin ->%list_elem_of_singleton. done.
  - intros x. rewrite fmap_app, elem_of_app, Hin, HQ. cbn. by rewrite list_elem_of_singleton.
  - intros x r [Hx|Hx]%elem_of_app; [by apply Hs|]. apply list_elem_of_singleton in Hx. by injection Hx as -> ->.
Qed.

Lemma yielded_same w W terms (P Q : Entity → Prop) out : (∀ e, P e ↔ Q e) → yielded w W terms P out → yielded w W terms Q out.
Proof using Type. intros HPQ (Hn & Hin & Hs). split; [done|]. split; [|done]. intros e. by rewrite Hin, HPQ. Qed.

Lemma shown_take w W terms e walk : eight walk → length terms ≤ 8 → (∀ j u, terms !! j = Some u → shows w W e walk j u) →
  shown_row w W terms e (mkDeltaRow (take (length terms) (delta_addresses walk)) (take (length terms) (delta_previous walk)) (take (length terms) (walk_deltas walk))).
Proof using Type.
  intros H8 Hl Hs i t Et. pose proof (Hs i t Et) as Hi. pose proof (lookup_lt_Some _ _ _ Et). unfold shows, term_shown in *.
  cbn. rewrite !lookup_take_lt by done. exact Hi.
Qed.

(** What is yielded of the first [i] rows of the walk. *)
Definition yields_before (s : storeResource bytes) W terms d (i : nat) e : Prop :=
  yields_at W terms d e ∧ ∃ j r, j < i ∧ StoreWindow.walk_row s j = Some r ∧ AAt (owners s) r = Some e.

Lemma row_step k w W terms d t s i walk out (P : Entity → Prop) :
  world_sim k w W → delta_terms w W terms → terms !! d = Some t → mode t = termRead → stores w !! term_store t = Some s → i < walkedRows s →
  (∀ e, P e → ¬ yields_at W terms d e) → eight walk → yielded w W terms (λ e, P e ∨ yields_before s W terms d i e) out →
  ∃ walk' out', delta_row_step Size (stores w) terms d s i (walk, out) = Some (walk', out') ∧ eight walk' ∧
    yielded w W terms (λ e, P e ∨ yields_before s W terms d (S i) e) out'.
Proof using Type.
  intros HW Hterms Et Hm Es Hi HP H8 Hout. pose proof Hterms as (Hin & Hl & _ & Hobs).
  rewrite Forall_forall in Hin, Hobs. pose proof (list_elem_of_lookup_2 _ _ _ Et) as Ht.
  destruct (value_store k w W t HW (Hin t Ht) (Hobs t Ht Hm)) as (s' & Es' & Hsim & Hob & _). rewrite Es in Es'. injection Es' as <-.
  destruct (walk_reads (H := zero_of Size (term_store t)) s _ i Hsim Hob Hi) as (r & e & Hr & Hreads). pose proof Hreads as (Hown & Hdelta & _).
  assert (Hbefore : ∀ e', yields_before s W terms d (S i) e' ↔ yields_before s W terms d i e' ∨ e' = e ∧ yields_at W terms d e).
  { intros e'. unfold yields_before. split.
    - intros (Hy & j & r' & Hj & Hr' & Ho'). destruct (decide (j = i)) as [->|]; [|left; split; [done|]; exists j, r'; split; [lia|done]].
      right. assert (r' = r) as -> by congruence. assert (e' = e) as -> by congruence. done.
    - intros [(Hy & j & r' & Hj & ?)|[-> Hy]]; split; try done; [exists j, r'; split; [lia|done]|exists i, r; split; [lia|done]]. }
  assert (Hskip : ¬ yields_at W terms d e → yielded w W terms (λ e, P e ∨ yields_before s W terms d (S i) e) out).
  { intros Hn. eapply yielded_same; [|exact Hout]. intros e'. cbn. rewrite Hbefore. naive_solver. }
  assert (Hfresh : yields_at W terms d e → ¬ (P e ∨ yields_before s W terms d i e)).
  { intros Hy [Hp|(_ & j & r' & Hj & Hr' & Ho')]; [by eapply HP|].
    destruct (sim_walk (H := zero_of Size (term_store t)) s _ Hsim Hob) as (_ & _ & Honce).
    assert (j = i) by (eapply (Honce j i r' r e); [lia|done..]). lia. }
  destruct (delta_matches_spec k w W terms d t s r e walk HW Hterms Et Hm Es Hreads H8) as (walk1 & ok & Ematch & H81 & Hok & Hshow).
  assert (Hfinish : ∃ walk' out', ('(walk, ok) ← delta_matches Size (stores w) walk terms d r;
      if negb ok then Some (walk, out) else e ← AAt (owners s) r;
      Some (walk, out ++ [(e, mkDeltaRow (take (length terms) (delta_addresses walk)) (take (length terms) (delta_previous walk))
        (take (length terms) (walk_deltas walk)))])) = Some (walk', out') ∧ eight walk' ∧
      yielded w W terms (λ e, P e ∨ yields_before s W terms d (S i) e) out').
  { rewrite Ematch. cbn [mbind option_bind]. destruct ok; cbn [negb].
    - rewrite Hown. cbn [mbind option_bind]. pose proof (proj1 Hok eq_refl) as Hy. eexists _, _. split; [done|]. split; [done|].
      eapply yielded_more; [exact Hout|by apply Hfresh|apply shown_take; [done|done|by apply Hshow]|]. intros e'. cbn. rewrite Hbefore. naive_solver.
    - exists walk1, out. split; [done|]. split; [done|]. apply Hskip. intros Hy. by apply Hok in Hy. }
  unfold delta_row_step. unfold StoreWindow.walk_row in Hr. destruct (changedEntitiesOverflowed s); cbn [negb].
  - injection Hr as <-. unfold delta in Hdelta. apply bind_Some in Hdelta as (st & Est & Hdelta). rewrite Est. cbn [mbind option_bind].
    destruct (decide (st = rowUnchanged)) as [->|]; [|exact Hfinish]. exists walk, out. split; [done|]. split; [done|]. apply Hskip.
    intros [(t' & Et' & _ & Hd) _]. rewrite Et in Et'. injection Et' as <-. apply Hd. unfold delta_of. by injection Hdelta.
  - rewrite Hr. cbn [mbind option_bind]. exact Hfinish.
Qed.

(** The rows of one driving term. *)
Lemma term_step k w W terms d walk out :
  world_sim k w W → delta_terms w W terms → d < length terms → eight walk →
  yielded w W terms (λ e, ∃ d', d' < d ∧ yields_at W terms d' e) out →
  ∃ walk' out', delta_term_step Size (stores w) terms d (walk, out) = Some (walk', out') ∧ eight walk' ∧
    yielded w W terms (λ e, ∃ d', d' < S d ∧ yields_at W terms d' e) out'.
Proof using Type.
  intros HW Hterms Hd H8 Hout. pose proof Hterms as (Hin & Hl & _ & Hobs). rewrite Forall_forall in Hin, Hobs.
  destruct (lookup_lt_is_Some_2 terms d Hd) as [t Et]. pose proof (list_elem_of_lookup_2 _ _ _ Et) as Ht.
  unfold delta_term_step. rewrite Et. cbn [mbind option_bind]. destruct (decide (mode t = termRead)) as [Hm|Hm].
  2:{ exists walk, out. split; [done|]. split; [done|]. eapply yielded_same; [|exact Hout]. intros e. cbn. split.
      - intros (d' & ? & ?). exists d'. split; [lia|done].
      - intros (d' & Hd' & Hy). exists d'. split; [|done]. assert (d' ≠ d); [|lia]. intros ->. destruct Hy as [(t' & Et' & Hm' & _) _]. congruence. }
  destruct (value_store k w W t HW (Hin t Ht) (Hobs t Ht Hm)) as (s & Es & Hsim & Hob & _). rewrite Es. cbn [mbind option_bind].
  destruct (for_range_invariant (λ i st, eight st.1 ∧ yielded w W terms (λ e, (∃ d', d' < d ∧ yields_at W terms d' e) ∨ yields_before s W terms d i e) st.2)
    (delta_row_step Size (stores w) terms d s) (walkedRows s) (walk, out)) as ([walk' out'] & -> & H8' & Hout').
  - split; [done|]. cbn. eapply yielded_same; [|exact Hout]. intros e. cbn. split; [by left|]. intros [?|(_ & j & r & Hj & _)]; [done|lia].
  - intros i [walk1 out1] Hi [H81 Hout1]. cbn in H81, Hout1.
    destruct (row_step k w W terms d t s i walk1 out1 (λ e, ∃ d', d' < d ∧ yields_at W terms d' e) HW Hterms Et Hm Es Hi)
      as (walk' & out' & -> & H8' & Hout'); [|done|done|by exists (walk', out')].
    intros e (d' & Hlt & Hy') Hy. pose proof (yields_once W terms d' d e Hy' Hy). lia.
  - exists walk', out'. split; [done|]. split; [done|]. eapply yielded_same; [|exact Hout']. intros e. cbn. split.
    + intros [(d' & ? & ?)|(Hy & _)]; [exists d'; split; [lia|done]|exists d; split; [lia|done]].
    + intros (d' & Hd' & Hy). destruct (decide (d' = d)) as [->|]; [|left; exists d'; split; [lia|done]]. right. split; [done|].
      destruct Hy as [(t' & Et' & _ & Hne) _]. rewrite Et in Et'. injection Et' as <-.
      destruct (sim_walk (H := zero_of Size (term_store t)) s _ Hsim Hob) as (_ & Hcov & _). destruct (Hcov e Hne) as (i & r & Hi & Hr & Hown & _).
      by exists i, r.
Qed.

Lemma walk_observed_spec k w W terms :
  world_sim k w W → Forall (in_world W) terms →
  ∃ b, walk_observed (stores w) terms = Some b ∧ (b = true ↔ Forall (λ t, mode t = termRead → observes w t = true) terms).
Proof using Type.
  intros HW. induction 1 as [|t terms Ht Hin (b & E & Hb)]; cbn [walk_observed]; [by exists true|].
  destruct (store_finds words first last Size k w W 0%N t HW Ht) as (s & Es & _). destruct (decide (mode t = termRead)) as [Hm|Hm].
  - rewrite Es. cbn [mbind option_bind]. assert (Ho : observes w t = bool_decide (observation s = observed)) by (unfold observes; by rewrite Es).
    destruct (bool_decide (observation s = observed)) eqn:Eo.
    + exists b. split; [done|]. rewrite Forall_cons, Hb, Ho. tauto.
    + exists false. split; [done|]. rewrite Forall_cons, Ho. split; [done|]. intros [Hx _]. by rewrite Hx.
  - exists b. split; [done|]. rewrite Forall_cons, Hb. tauto.
Qed.

Lemma declared_modes (l l' : list (storeResource bytes)) terms values :
  declareDeltaTerms l terms values = Some (Ok l') → Forall (λ t, mode t = termRead ∨ mode t = termWith ∨ mode t = termWithout) terms.
Proof using Type.
  revert l values. induction terms as [|t terms IH]; intros l values E; [done|]. cbn [declareDeltaTerms] in E. constructor.
  - destruct (mode t); try done; auto.
  - destruct (mode t); try done; try (by eapply IH). apply bind_Some in E as (s & _ & E). by eapply IH.
Qed.
End walk.

Section claims.
Context (words : nat) (first last : N) (Size : nat → nat).
Context {R B : Type} `{WindowedLaws R} `{ShrinkerLaws B}.

(** C38: a delta query yields exactly the entities that have or had every value
    term in the window, pass its filters now and have a delta in some value
    term: each once, with every term's delta, its value now or the last it
    had, and its value as of the reset unless it was added since, all as the
    world's contract tells them.  Before every value term's store observes it
    yields nothing; it never panics. *)
Theorem delta_query_exact k x declared declared' terms :
  world_run words first last Size (R := R) (B := B) k x → (N.of_nat (S k) < 2 ^ 32 - 1)%N →
  declareDeltaQuery declared terms = Some (Ok declared') → length terms ≤ 8 → Forall (in_world x.2) terms →
  ∃ ready out, walk_observed (stores x.1) terms = Some ready ∧ DeltaAll Size (stores x.1) terms = Some out ∧
    if ready : bool then NoDup out.*1 ∧ (∀ e, e ∈ out.*1 ↔ delta_satisfies x.2 terms e) ∧
      ∀ e row, (e, row) ∈ out → shown_row Size x.1 x.2 terms e row
    else out = [].
Proof using Type.
  intros Hrun Hk Hdecl Hl Hin. pose proof (world_run_sim words first last Size k x Hrun Hk) as HW.
  destruct (walk_observed_spec words first last Size k x.1 x.2 terms HW Hin) as (ready & E & Hready). exists ready. unfold DeltaAll. rewrite E.
  cbn [mbind option_bind]. destruct ready; cbn [negb]; [|by exists []].
  assert (Hterms : delta_terms x.1 x.2 terms) by (split_and!; [done|done|by eapply declared_modes|by apply Hready]).
  destruct (for_range_invariant (λ d st, eight st.1 ∧ yielded Size x.1 x.2 terms (λ e, ∃ d', d' < d ∧ yields_at x.2 terms d' e) st.2)
    (delta_term_step Size (stores x.1) terms) (length terms) (mkDeltaWalk (replicate 8 None) (replicate 8 None) (replicate 8 DeltaNone), []))
    as ([walk out] & -> & _ & Hout).
  - split; [done|]. cbn. split; [by apply NoDup_nil_2|]. split; [|by intros e row ?%elem_of_nil]. intros e. split; [by intros ?%elem_of_nil|]. intros (d' & ? & _). lia.
  - intros d [walk out] Hd [H8 Hout]. destruct (term_step words first last Size k x.1 x.2 terms d walk out HW Hterms Hd H8 Hout) as (walk' & out' & -> & H8' & Hout').
    by exists (walk', out').
  - cbn [mbind option_bind]. exists out. split; [done|]. split; [done|]. cbn in Hout. destruct Hout as (Hn & Hiff & Hs). split; [done|]. split; [|done].
    intros e. rewrite Hiff, yields_somewhere. split; [intros (d & _ & ?); by exists d|]. intros (d & Hy). exists d. split; [|done].
    destruct Hy as [(t & Et & _) _]. by eapply lookup_lt_Some.
Qed.
End claims.

(** ** A component written in the window *)

Module DeltaExample.
Import Example.
#[local] Existing Instances number_refs number_refs_laws number_recorder number_recorder_laws.

Definition next (x : exampleWorld * worldSpec) (op : world_op) (W : worldSpec) : exampleWorld * worldSpec :=
  (match run_world 1 sizes x.1 op with Some (w, _) => w | None => x.1 end, W).

Lemma next_run k x op a W :
  world_run 1 1 9 sizes k x → world_op_ok 1 sizes x.2 op → snd <$> run_world 1 sizes x.1 op = Some a → world_step 1 1 9 sizes x.2 op a W →
  world_run 1 1 9 sizes (k + cost 1 op) (next x op W).
Proof.
  intros Hr Hok E Hs. apply (world_run_step 1 1 9 sizes k x op a (next x op W)); [done|done| |done]. unfold next. cbn.
  destruct (run_world 1 sizes x.1 op) as [[w a']|]; [|done]. by injection E as ->.
Qed.

Definition watched := next state1 (WObserve 0) (ws_observe state1.2 0).
Definition started := next watched WReset (ws_reset watched.2).
Definition reset := next started WReset (ws_reset started.2).
Definition written := next reset (WWrite e1 0 [x05; x06]) (ws_write reset.2 e1 0 [x05; x06]).

Lemma written_run : world_run 1 1 9 sizes (0 + cost 1 op1 + 1 + 1 + 1 + 1) written.
Proof.
  apply (next_run _ reset (WWrite e1 0 [x05; x06]) (Answered true)); [|split; [vm_compute; reflexivity|split; [vm_compute; lia|vm_compute; reflexivity]]|by vm_compute|exact (ws_step_write 1 1 9 sizes reset.2 e1 0 _)].
  apply (next_run _ started WReset Done); [|done|by vm_compute|exact (ws_step_reset 1 1 9 sizes _)].
  apply (next_run _ watched WReset Done); [|done|by vm_compute|exact (ws_step_reset 1 1 9 sizes _)].
  apply (next_run _ state1 (WObserve 0) Done); [exact world_run1|vm_compute; lia|by vm_compute|exact (ws_step_observe 1 1 9 sizes _ 0)].
Qed.

Definition terms : list term := [mkTerm 0 termRead; mkTerm 1 termWith].

Lemma delta_query_exact_witness :
  ∃ row, DeltaAll sizes (stores written.1) terms = Some [(e1, row)] ∧ shown_row sizes written.1 written.2 terms e1 row ∧
    row_deltas row = [DeltaChanged; DeltaNone].
Proof.
  assert (Hdecl : is_Some (declareDeltaQuery (stores state1.1) terms ≫= λ r, match r with Ok l => Some l | Err _ => None end)).
  { apply (bool_decide_unpack _). vm_compute. exact I. }
  destruct (declareDeltaQuery (stores state1.1) terms) as [[l|err]|] eqn:El; cbn in Hdecl;
    [|destruct (is_Some_None Hdecl)|destruct (is_Some_None Hdecl)].
  destruct (delta_query_exact 1 1 9 sizes _ written (stores state1.1) l terms written_run) as (ready & out & E1 & E2 & Hout).
  - vm_compute. reflexivity.
  - exact El.
  - vm_compute. lia.
  - constructor; [vm_compute; lia|constructor; [vm_compute; lia|constructor]].
  - assert (Er : walk_observed (stores written.1) terms = Some true) by (vm_compute; reflexivity).
    rewrite Er in E1. injection E1 as <-. destruct Hout as (_ & _ & Hshow).
    assert (Ee : (λ l, l.*1) <$> DeltaAll sizes (stores written.1) terms = Some [e1]) by (vm_compute; reflexivity).
    assert (Ed : (λ l, row_deltas <$> l.*2) <$> DeltaAll sizes (stores written.1) terms = Some [[DeltaChanged; DeltaNone]])
      by (vm_compute; reflexivity).
    rewrite E2 in Ee, Ed. destruct out as [|[e row] [|? ?]]; [discriminate Ee| |discriminate Ee].
    assert (Ee' : e = e1) by (cbn in Ee; congruence). assert (Ed' : row_deltas row = [DeltaChanged; DeltaNone]) by (cbn in Ed; congruence).
    subst e. exists row. refine (conj E2 (conj _ Ed')). apply Hshow. by left.
Defined.
End DeltaExample.
