(* ===== verification/Track.v ===== *)
(** * The tracks of metronome/track.go

    How a track is declared, the beat its goroutine publishes when one is due,
    and the ring of signals it waits on.  A [time.Duration] is an [int64], so
    a [Z] with the wrap-around written out; a tick and a count of steps are
    [uint64]s.  The clock is whatever its [Now] answers: a reading is an
    argument.  Floats are those of the Standard Library's specification of
    IEEE 754, 53 or 24 bits wide.  A Signal is a name. *)

From Stdlib Require Import SpecFloat.
From S2P Require Import Prelude.

Record Settings := mkSettings {
  Step : Z;
  MinInterval : Z;
  MaxDelta : Z;
  MaxInFlight : Z;
  MaxDebt : Z;
  InterpolateAgainst : option N
}.

Definition defaultMaxDebt : Z := 4.

Definition VariableTrack : Settings := mkSettings 0 0 0 1 0 None.

Definition FixedStep (hz : Z) : option Settings :=
  if (hz <? 0)%Z then None
  else
    let hz := if (hz =? 0)%Z then 60%Z else hz in
    Some (mkSettings (Z.quot 1000000000 hz) 0 0 1 0 None).

(** A track as declared. *)
Record Track := mkDeclared {
  declaredType : N;
  declaredSettings : Settings
}.

Definition default_debt (s : Settings) : Settings :=
  if (MaxDebt s =? 0)%Z
  then mkSettings (Step s) (MinInterval s) (MaxDelta s) (MaxInFlight s) defaultMaxDebt (InterpolateAgainst s)
  else s.

Definition NewTrack (eventType : N) (s : Settings) : option Track :=
  if ((Step s <? 0) || (MinInterval s <? 0) || (MaxDelta s <? 0) || (MaxInFlight s <? 0) || (MaxDebt s <? 0))%Z
  then None
  else Some (mkDeclared eventType (default_debt s)).

Record Beat := mkBeat {
  Tick : N;
  Delta : Z;
  Lost : Z;
  TimeFromStart : Z;
  Alpha : spec_float;
  InterpolatedTick : N
}.

(** [reference] is the place of a track in the plugin's list; [published] the
    tick and the deadline last shared. *)
Record track := mkTrack {
  eventType : N;
  settings : Settings;
  signals : list N;
  oldestSignal : nat;
  inFlightCount : nat;
  tick : N;
  stepCount : N;
  nextDeadline : Z;
  lastBeat : Z;
  running : bool;
  reference : option nat;
  published : N * Z
}.

Definition set_ring (t : track) (ring : list N) (oldest count : nat) : track :=
  mkTrack (eventType t) (settings t) ring oldest count (tick t) (stepCount t) (nextDeadline t) (lastBeat t)
    (running t) (reference t) (published t).

Definition set_pace (t : track) (n steps : N) (next last : Z) : track :=
  mkTrack (eventType t) (settings t) (signals t) (oldestSignal t) (inFlightCount t) n steps next last
    (running t) (reference t) (published t).

Definition set_running (t : track) (b : bool) : track :=
  mkTrack (eventType t) (settings t) (signals t) (oldestSignal t) (inFlightCount t) (tick t) (stepCount t)
    (nextDeadline t) (lastBeat t) b (reference t) (published t).

Definition set_reference (t : track) (r : option nat) : track :=
  mkTrack (eventType t) (settings t) (signals t) (oldestSignal t) (inFlightCount t) (tick t) (stepCount t)
    (nextDeadline t) (lastBeat t) (running t) r (published t).

Definition set_published (t : track) (p : N * Z) : track :=
  mkTrack (eventType t) (settings t) (signals t) (oldestSignal t) (inFlightCount t) (tick t) (stepCount t)
    (nextDeadline t) (lastBeat t) (running t) (reference t) p.

(** ** The beat due *)

(** The steps a fixed-step track owes at [now], as publishDue counts them. *)
Definition owed (t : track) (now : Z) : Z :=
  i64 (i64 (Z.quot now (Step (settings t))) - i64 (Z.of_N (stepCount t))).

(** The steps dropped past the debt cap. *)
Definition dropped (t : track) (now : Z) : Z :=
  if (MaxDebt (settings t) <? owed t now)%Z then i64 (owed t now - MaxDebt (settings t)) else 0%Z.

Definition fixed_due (t : track) (now : Z) : track * Beat :=
  let step := Step (settings t) in
  let n := u64 (tick t + 1) in
  let lost := if (MaxDebt (settings t) <? owed t now)%Z then i64 (dropped t now * step) else 0%Z in
  let steps := u64 (u64 (stepCount t + Z.to_N (dropped t now mod 2 ^ 64)) + 1) in
  (set_pace t n steps (i64 (i64 (Z.of_N (u64 (steps + 1))) * step)) (lastBeat t),
   mkBeat n step lost (i64 (i64 (Z.of_N steps) * step)) (S754_zero false) 0).

Definition variable_due (t : track) (now : Z) : track * Beat :=
  let n := u64 (tick t + 1) in
  let delta := i64 (now - lastBeat t) in
  let maxDelta := MaxDelta (settings t) in
  let clamped := ((0 <? maxDelta) && (maxDelta <? delta))%Z in
  (set_pace t n (stepCount t) (i64 (now + MinInterval (settings t))) now,
   mkBeat n (if clamped then maxDelta else delta) (if clamped then i64 (delta - maxDelta) else 0%Z) now
     (S754_zero false) 0).

Definition beat_due (t : track) (now : Z) : track * Beat :=
  if (0 <? Step (settings t))%Z then fixed_due t now else variable_due t now.

(** ** Alpha *)

(** Go's conversions and its [max] with zero. *)
Definition float64 (z : Z) : spec_float := binary_normalize 53 1024 z 0 false.

Definition float32 (x : spec_float) : spec_float :=
  match x with S754_finite s m e => binary_round 24 128 s m e | _ => x end.

Definition max_zero (x : spec_float) : spec_float :=
  match SFcompare x (S754_zero false) with
  | Some Gt => x
  | Some _ => S754_zero false
  | None => S754_nan
  end.

Definition one32 : spec_float := S754_finite false 8388608 (-23).

(** The largest [float32] below 1. *)
Definition alphaInDebt : spec_float := S754_finite false 16777215 (-24).

Definition alpha (now deadline step : Z) : spec_float :=
  let a := float32 (SFdiv 53 1024 (max_zero (float64 (i64 (now - deadline)))) (float64 step)) in
  if SFleb one32 a then alphaInDebt else a.

(** [ref] is the step of the reference track and what it last published. *)
Definition interpolate (ref : option (Z * (N * Z))) (now : Z) (b : Beat) : Beat :=
  match ref with
  | None => b
  | Some (step, (n, deadline)) =>
      mkBeat (Tick b) (Delta b) (Lost b) (TimeFromStart b) (alpha now deadline step) n
  end.

(** ** The ring of signals *)

(** [made] are the signals made for it. *)
Definition growSignals (t : track) (made : list N) : track :=
  set_ring t (drop (oldestSignal t) (signals t) ++ take (oldestSignal t) (signals t) ++ made) 0 (inFlightCount t).

(** The signal of the next beat in flight: the ring grows when it is full. *)
Definition take_signal (t : track) (made : list N) : option (track * N) :=
  let t := if decide (inFlightCount t = length (signals t)) then growSignals t made else t in
  signal ← (if decide (length (signals t) = 0) then None
            else signals t !! ((oldestSignal t + inFlightCount t) mod length (signals t)));
  Some (set_ring t (signals t) (oldestSignal t) (S (inFlightCount t)), signal).

(** publishDue up to the publication, with the time read. *)
Definition publishDue (t : track) (now : Z) (ref : option (Z * (N * Z))) (made : list N) : option (track * Beat * N) :=
  let '(t1, b) := beat_due t now in
  '(t2, signal) ← take_signal t1 made;
  Some (t2, interpolate ref now b, signal).

(** What publishDue shares once the beat is published. *)
Definition share (t : track) (b : Beat) : track :=
  if (0 <? Step (settings t))%Z then set_published t (Tick b, TimeFromStart b) else t.

(** A finish of the oldest beat in flight is received. *)
Definition receive_finished (t : track) : track :=
  set_ring t (signals t) ((oldestSignal t + 1) mod length (signals t)) (inFlightCount t - 1).

(** Whether run starts a new beat. *)
Definition slot_free (t : track) : bool :=
  ((MaxInFlight (settings t) =? 0) || (Z.of_nat (inFlightCount t) <? MaxInFlight (settings t)))%Z.

(** Whether the track has reached a beat it has not published: [fired] is
    whether the timer of a variable track on a ManualClock has fired; [None]
    on any other clock. *)
Definition owes (t : track) (now : Z) (fired : option bool) : bool :=
  if (0 <? Step (settings t))%Z then (nextDeadline t <=? now)%Z
  else
    match fired with
    | Some fired => fired
    | None => ((nextDeadline t <=? now) && (lastBeat t <? now))%Z
    end.

(** The state Init makes of a track declared. *)
Definition init_track (d : Track) (made : list N) : track :=
  let s := declaredSettings d in
  mkTrack (declaredType d) s made 0 0 0 0 (i64 (Step s + MinInterval s)) 0 false None (0%N, 0%Z).

Definition ring_size (s : Settings) : nat := Z.to_nat (Z.max (MaxInFlight s) 1).
