(* ===== verification/TrackRun.v ===== *)
(** * The goroutine of a track (run of metronome/track.go), on any clock

    [run_step] is what can happen to one track: its timer fires, the finish of
    its oldest beat in flight is received, the publication of a beat in flight
    finishes.  The time read, and the tick of the reference track, are
    anything.  [beats] is no part of the code: the beats published, newest
    first, each with the time read and the deadline it was published for. *)

From S2P Require Import Prelude Track.

(** [values] are the signals whose channel holds a value, [armed] those armed
    for a beat that has not finished, oldest first, and the signals made are
    those below [made]. *)
Record goroutine := mkGoroutine {
  gtrack : track;
  deadlineReached : bool;
  values : list N;
  armed : list N;
  made : N;
  beats : list (Z * Z * Beat)
}.

Definition new_signals (made : N) (n : nat) : list N := (λ k, (made + N.of_nat k)%N) <$> seq 0 n.

(** The end of an iteration of run: a beat starts if the deadline is reached
    and a slot is free. *)
Definition start_beat (g : goroutine) (now : Z) (ref : option (Z * (N * Z))) : option goroutine :=
  let t := gtrack g in
  if deadlineReached g && slot_free t then
    let n := if decide (inFlightCount t = length (signals t)) then length (signals t) else 0 in
    '(t', b, signal) ← publishDue t now ref (new_signals (made g) n);
    Some (mkGoroutine (share t' b) false (values g) (armed g ++ [signal]) (made g + N.of_nat n)
            ((now, nextDeadline t, b) :: beats g))
  else Some g.

Definition reach (g : goroutine) : goroutine :=
  mkGoroutine (gtrack g) true (values g) (armed g) (made g) (beats g).

(** The value of the oldest signal is taken out of its channel. *)
Definition receive (g : goroutine) (signal : N) : goroutine :=
  mkGoroutine (receive_finished (gtrack g)) (deadlineReached g) (filter (λ s, s ≠ signal) (values g)) (armed g)
    (made g) (beats g).

(** Signal.send: a value not yet taken absorbs this one. *)
Definition send (values : list N) (signal : N) : list N :=
  if decide (signal ∈ values) then values else signal :: values.

Definition int64 (z : Z) : Prop := (- 2 ^ 63 <= z < 2 ^ 63)%Z.

Inductive run_step : goroutine → goroutine → Prop :=
  | run_fired g now ref g' :
      deadlineReached g = false → int64 now → start_beat (reach g) now ref = Some g' → run_step g g'
  | run_finished g now ref signal g' :
      0 < inFlightCount (gtrack g) → signals (gtrack g) !! oldestSignal (gtrack g) = Some signal →
      signal ∈ values g → int64 now → start_beat (receive g signal) now ref = Some g' → run_step g g'
  | run_sent g before signal after :
      armed g = before ++ signal :: after →
      run_step g (mkGoroutine (gtrack g) (deadlineReached g) (send (values g) signal) (before ++ after) (made g) (beats g)).

(** As Init leaves a track declared. *)
Definition started (d : Track) : goroutine :=
  let n := ring_size (declaredSettings d) in
  mkGoroutine (init_track d (new_signals 0 n)) false [] [] (N.of_nat n) [].

Inductive runs (d : Track) : goroutine → Prop :=
  | runs_started : runs d (started d)
  | runs_step g g' : runs d g → run_step g g' → runs d g'.

(** ** Executions as data *)

(** The timer fires, and [now] and [ref] are read; the oldest finish is
    received; the [k]th beat armed finishes. *)
Inductive event := Fires (now : Z) (ref : option (Z * (N * Z))) | Finishes (now : Z) | Sends (k : nat).

Definition happens (g : goroutine) (e : event) : option goroutine :=
  match e with
  | Fires now ref =>
      if decide (deadlineReached g = false ∧ int64 now) then start_beat (reach g) now ref else None
  | Finishes now =>
      signal ← signals (gtrack g) !! oldestSignal (gtrack g);
      if decide (0 < inFlightCount (gtrack g) ∧ signal ∈ values g ∧ int64 now)
      then start_beat (receive g signal) now None else None
  | Sends k =>
      signal ← armed g !! k;
      Some (mkGoroutine (gtrack g) (deadlineReached g) (send (values g) signal) (delete k (armed g)) (made g) (beats g))
  end.

Fixpoint drive (g : goroutine) (l : list event) : option goroutine :=
  match l with
  | [] => Some g
  | e :: l => g ← happens g e; drive g l
  end.

Lemma happens_run_step g e g' : happens g e = Some g' → run_step g g'.
Proof.
  destruct e as [now ref|now|k]; cbn [happens].
  - case_decide as Hd; [|done]. destruct Hd. by apply run_fired.
  - intros (signal & Hs & E)%bind_Some. case_decide as Hd; [|done]. destruct Hd as (? & ? & ?). by eapply run_finished.
  - intros (signal & Hs & [= <-])%bind_Some. rewrite delete_take_drop. eapply run_sent. by rewrite take_drop_middle.
Qed.

Lemma drive_runs d l g g' : runs d g → drive g l = Some g' → runs d g'.
Proof.
  revert g. induction l as [|e l IH]; intros g Hg; cbn [drive]; [by intros [= <-]|].
  intros (g1 & E & Hd)%bind_Some. eapply IH, Hd. eapply runs_step; [exact Hg|by eapply happens_run_step].
Qed.

(** ** The ring of signals *)

(** The ring from the oldest signal on. *)
Definition from_oldest (t : track) : list N := rotate (oldestSignal t) (signals t).

Record ring_ok (t : track) (values armed : list N) (made : N) : Prop := {
  ri_oldest : oldestSignal t < length (signals t);
  ri_count : inFlightCount t ≤ length (signals t);
  ri_nodup : NoDup (signals t);
  ri_made : ∀ s, s ∈ signals t → (s < made)%N;
  ri_flight : values ++ armed ≡ₚ take (inFlightCount t) (from_oldest t);
  ri_order : armed = filter (λ s, s ∉ values) (take (inFlightCount t) (from_oldest t));
  ri_limit : (0 < MaxInFlight (settings t))%Z → Z.of_nat (length (signals t)) = MaxInFlight (settings t)
}.

Lemma filter_ne (l : list N) s : s ∉ l → filter (λ x, x ≠ s) l = l.
Proof. induction l as [|x l IH]; [done|]. intros [? ?]%not_elem_of_cons. by rewrite filter_cons_True, IH by done. Qed.

Lemma new_signals_NoDup made n : NoDup (new_signals made n).
Proof. apply NoDup_fmap_2; [intros x y ?; lia|apply NoDup_seq]. Qed.

Lemma elem_of_new_signals made n s : s ∈ new_signals made n → (made ≤ s < made + N.of_nat n)%N.
Proof. intros (k & -> & Hk%elem_of_seq)%list_elem_of_fmap. lia. Qed.

Lemma length_from_oldest t : length (from_oldest t) = length (signals t).
Proof. apply length_rotate. Qed.

Lemma from_oldest_NoDup t : NoDup (signals t) → NoDup (from_oldest t).
Proof.
  intros H. unfold from_oldest, rotate. set (n := oldestSignal t mod length (signals t)).
  rewrite (Permutation_app_comm (drop n (signals t))). by rewrite take_drop.
Qed.

Lemma flight_NoDup t n : NoDup (signals t) → NoDup (take n (from_oldest t)).
Proof. intros H. eapply sublist_NoDup, sublist_take. by apply from_oldest_NoDup. Qed.

Lemma from_oldest_lookup t i :
  oldestSignal t < length (signals t) → i < length (signals t) →
  from_oldest t !! i = signals t !! ((oldestSignal t + i) mod length (signals t)).
Proof.
  intros Ho Hi. unfold from_oldest. rewrite lookup_rotate_r by done. f_equal.
  unfold rotate_nat_add. rewrite <- Nat2Z.inj_add, <- Nat2Z.inj_mod. lia.
Qed.

(** A signal received: the next one is the oldest. *)
Lemma from_oldest_next t s rest :
  oldestSignal t < length (signals t) → from_oldest t = s :: rest →
  from_oldest (receive_finished t) = rest ++ [s].
Proof.
  intros Ho E. assert (Hl : length (signals t) = S (length rest)).
  { rewrite <- length_from_oldest, E. done. }
  apply list_eq. intros i. destruct (decide (i < length (signals t))) as [Hi|Hi].
  - rewrite from_oldest_lookup by (cbn; try apply Nat.mod_upper_bound; lia). cbn [oldestSignal signals receive_finished set_ring].
    rewrite Nat.Div0.add_mod_idemp_l.
    destruct (decide (i < length rest)) as [Hr|Hr].
    + rewrite lookup_app_l by done. assert (El : rest !! i = (s :: rest) !! S i) by done. rewrite El, <- E.
      rewrite from_oldest_lookup by lia. do 2 f_equal. lia.
    + assert (i = length rest) as -> by lia. rewrite lookup_app_r, Nat.sub_diag by done.
      assert (El : Some s = from_oldest t !! 0) by (by rewrite E). cbn [lookup list_lookup]. rewrite El, from_oldest_lookup by lia.
      f_equal. rewrite <- Nat.add_assoc, Nat.add_1_l, <- Hl, Nat.add_0_r.
      replace (oldestSignal t + length (signals t)) with (oldestSignal t + 1 * length (signals t)) by lia.
      apply Nat.Div0.mod_add.
  - rewrite !lookup_ge_None_2; [done| |]; rewrite ?length_app, ?length_from_oldest; cbn; lia.
Qed.

(** The ring grows: the same signals in the same order, then the new ones. *)
Lemma from_oldest_grow t made :
  oldestSignal t < length (signals t) → from_oldest (growSignals t made) = from_oldest t ++ made.
Proof.
  intros Ho. unfold from_oldest, growSignals, rotate. cbn [oldestSignal signals set_ring].
  rewrite Nat.Div0.mod_0_l, (Nat.mod_small (oldestSignal t)) by lia. cbn [drop take].
  by rewrite app_nil_r, <- (assoc_L (++)).
Qed.

(** What a beat changes of a track but its ring. *)
Definition pace (t : track) : Settings * N * N * Z * Z := (settings t, tick t, stepCount t, nextDeadline t, lastBeat t).

Lemma ring_ok_ext t t' values armed made :
  signals t' = signals t → oldestSignal t' = oldestSignal t → inFlightCount t' = inFlightCount t →
  settings t' = settings t → ring_ok t values armed made → ring_ok t' values armed made.
Proof.
  intros E1 E2 E3 E4 [H1 H2 H3 H4 H5 H7 H6].
  assert (E : from_oldest t' = from_oldest t) by (unfold from_oldest; by rewrite E1, E2).
  split; rewrite ?E, ?E1, ?E2, ?E3, ?E4; done.
Qed.

Lemma slot_free_limit t :
  slot_free t = true → (0 < MaxInFlight (settings t))%Z → (Z.of_nat (inFlightCount t) < MaxInFlight (settings t))%Z.
Proof. unfold slot_free. intros [?%Z.eqb_eq|?%Z.ltb_lt]%orb_true_iff; lia. Qed.

(** The ring has room for a beat a slot is free for, and its signal is one no
    beat in flight has. *)
Lemma ring_grow t values armed made n :
  ring_ok t values armed made → slot_free t = true → (0 ≤ MaxInFlight (settings t))%Z →
  n = (if decide (inFlightCount t = length (signals t)) then length (signals t) else 0) →
  let t' := if decide (inFlightCount t = length (signals t)) then growSignals t (new_signals made n) else t in
  ring_ok t' values armed (made + N.of_nat n) ∧ inFlightCount t' < length (signals t') ∧
  pace t' = pace t ∧ inFlightCount t' = inFlightCount t.
Proof.
  intros H Hfree Hpos ->. case_decide as E; [|destruct H; cbn; split_and!; try done; [|lia]; rewrite N.add_0_r; by split].
  pose proof (slot_free_limit t Hfree) as Hlim. destruct H as [H1 H2 H3 H4 H5 H7 H6]. set (new := new_signals made _).
  assert (Hlen : length new = length (signals t)) by (unfold new, new_signals; by rewrite length_fmap, length_seq).
  assert (Hg : signals (growSignals t new) = from_oldest t ++ new).
  { unfold from_oldest, rotate. rewrite Nat.mod_small by done. cbn. by rewrite <- (assoc_L (++)). }
  split_and!; [|rewrite Hg, length_app, length_from_oldest; cbn; lia|done|done]. split; rewrite ?Hg.
  - rewrite length_app, length_from_oldest. cbn. lia.
  - rewrite length_app. cbn. rewrite length_from_oldest. lia.
  - apply NoDup_app. split_and!; [by apply from_oldest_NoDup| |apply new_signals_NoDup].
    intros s Hs%elem_of_rotate Hn%elem_of_new_signals. apply H4 in Hs. lia.
  - intros s [Hs%elem_of_rotate|Hn%elem_of_new_signals]%elem_of_app; [apply H4 in Hs|]; lia.
  - rewrite from_oldest_grow, take_app_le by (cbn; rewrite ?length_from_oldest; done). done.
  - rewrite from_oldest_grow, take_app_le by (cbn; rewrite ?length_from_oldest; done). done.
  - intros Hm. cbn in Hm. specialize (Hlim Hm). specialize (H6 Hm). lia.
Qed.

Lemma ring_take t values armed made n :
  ring_ok t values armed made → slot_free t = true → (0 ≤ MaxInFlight (settings t))%Z →
  n = (if decide (inFlightCount t = length (signals t)) then length (signals t) else 0) →
  ∃ t' s, take_signal t (new_signals made n) = Some (t', s) ∧ ring_ok t' values (armed ++ [s]) (made + N.of_nat n) ∧
    pace t' = pace t ∧ inFlightCount t' = S (inFlightCount t).
Proof.
  intros H Hfree Hpos Hn. destruct (ring_grow t values armed made n H Hfree Hpos Hn) as (Hr & Hlt & Ep & Ec).
  unfold take_signal. set (t1 := if decide _ then _ else t) in *. destruct Hr as [H1 H2 H3 H4 H5 H7 H6].
  destruct (lookup_lt_is_Some_2 (from_oldest t1) (inFlightCount t1)) as [s Hs]; [by rewrite length_from_oldest|].
  assert (Hv : s ∉ values).
  { intros Hin. assert (Hw : s ∈ take (inFlightCount t1) (from_oldest t1)) by (rewrite <- H5; apply elem_of_app; by left).
    apply list_elem_of_lookup in Hw as [i Hi]. apply lookup_take_Some in Hi as [Hi Hlt2].
    pose proof (NoDup_lookup _ _ _ _ (from_oldest_NoDup _ H3) Hi Hs). lia. }
  rewrite decide_False by lia. rewrite from_oldest_lookup in Hs by done. rewrite Hs. cbn [mbind option_bind].
  do 2 eexists. split; [done|]. split_and!; [|done|cbn; lia].
  split; cbn [oldestSignal signals inFlightCount settings set_ring]; try done.
  all: change (from_oldest (set_ring t1 _ _ _)) with (from_oldest t1).
  - rewrite (take_S_r _ _ s) by (by rewrite from_oldest_lookup). by rewrite (assoc_L (++)), H5.
  - rewrite (take_S_r _ _ s) by (by rewrite from_oldest_lookup). rewrite filter_app, <- H7.  by rewrite filter_cons_True.
Qed.

(** The oldest beat's finish is received. *)
Lemma ring_receive t values armed made s :
  ring_ok t values armed made → 0 < inFlightCount t → signals t !! oldestSignal t = Some s → s ∈ values →
  ring_ok (receive_finished t) (filter (λ x, x ≠ s) values) armed made.
Proof.
  intros [H1 H2 H3 H4 H5 H7 H6] Hc Hs Hv.
  assert (Hh : from_oldest t !! 0 = Some s) by (by rewrite from_oldest_lookup, Nat.add_0_r, Nat.mod_small by lia).
  destruct (from_oldest t) as [|s' rest] eqn:E; [done|]. injection Hh as ->.
  assert (Hlen : length (signals t) = S (length rest)) by (rewrite <- length_from_oldest, E; done).
  assert (Hnd : NoDup (s :: rest)) by (rewrite <- E; by apply from_oldest_NoDup).
  assert (Hflight : filter (λ x, x ≠ s) values ++ armed ≡ₚ take (inFlightCount t - 1) rest).
  { destruct (inFlightCount t) as [|c]; [lia|]. cbn [take] in H5. rewrite Nat.sub_1_r. cbn [pred].
    apply list_elem_of_split in Hv as (l1 & l2 & ->).
    rewrite <- (assoc_L (++)), <- app_comm_cons, <- Permutation_middle in H5. apply Permutation_cons_inv in H5.
    assert (Hnot : s ∉ l1 ++ l2 ++ armed).
    { rewrite H5. intros Hin. apply NoDup_cons in Hnd as [Hn _]. apply Hn.
      rewrite <- (take_drop c rest). apply elem_of_app. by left. }
    rewrite !not_elem_of_app in Hnot. destruct Hnot as (Hn1 & Hn2 & _).
    rewrite filter_app, (filter_cons_False (λ x, x ≠ s)) by (intros Hx; by apply Hx).
    rewrite !filter_ne by done. by rewrite <- (assoc_L (++)). }
  assert (Horder : armed = filter (λ x, x ∉ filter (λ y, y ≠ s) values) (take (inFlightCount t - 1) rest)).
  { destruct (inFlightCount t) as [|c]; [lia|]. rewrite Nat.sub_1_r. cbn [pred take] in H7 |- *.
    rewrite filter_cons_False in H7 by (by intros Hx; apply Hx). rewrite H7. apply filter_ext_in. intros x Hx.
    rewrite list_elem_of_filter. apply NoDup_cons in Hnd as [Hn _]. destruct (decide (x = s)) as [->|]; [|tauto].
    destruct Hn. rewrite <- (take_drop c rest). apply elem_of_app. by left. }
  split; cbn [oldestSignal signals inFlightCount settings receive_finished set_ring].
  - apply Nat.mod_upper_bound. lia.
  - lia.
  - done.
  - done.
  - rewrite (from_oldest_next t s rest), take_app_le by (done || lia). done.
  - rewrite (from_oldest_next t s rest), take_app_le by (done || lia). done.
  - done.
Qed.

(** ** The goroutine *)

Definition flight_ok (g : goroutine) : Prop :=
  ring_ok (gtrack g) (values g) (armed g) (made g) ∧ (0 ≤ MaxInFlight (settings (gtrack g)))%Z.

Lemma beat_due_ring t now :
  let t' := (beat_due t now).1 in
  signals t' = signals t ∧ oldestSignal t' = oldestSignal t ∧ inFlightCount t' = inFlightCount t ∧ settings t' = settings t.
Proof. unfold beat_due. by case_match. Qed.

Lemma share_pace t b : pace (share t b) = pace t.
Proof. unfold share. by case_match. Qed.

(** A beat starts, unless none is due, and what it starts is [beat_due]. *)
Lemma start_beat_spec g now ref :
  flight_ok g →
  ∃ g', start_beat g now ref = Some g' ∧ flight_ok g' ∧
    (g' = g ∨
     slot_free (gtrack g) = true ∧ deadlineReached g = true ∧ deadlineReached g' = false ∧
     pace (gtrack g') = pace (beat_due (gtrack g) now).1 ∧
     beats g' = (now, nextDeadline (gtrack g), interpolate ref now (beat_due (gtrack g) now).2) :: beats g).
Proof.
  intros [Hr Hpos]. unfold start_beat.
  destruct (deadlineReached g) eqn:Ed; [|by exists g; split_and!; [|split|left]].
  destruct (slot_free (gtrack g)) eqn:Ef; [|by exists g; split_and!; [|split|left]]. cbn [andb].
  set (n := if decide _ then _ else 0). unfold publishDue.
  destruct (beat_due_ring (gtrack g) now) as (E1 & E2 & E3 & E4).
  destruct (beat_due (gtrack g) now) as [t1 b]. cbn [fst snd] in *.
  assert (Hfree : slot_free t1 = true) by (unfold slot_free in *; by rewrite E3, E4).
  destruct (ring_take t1 (values g) (armed g) (made g) n) as (t2 & s & -> & Hr2 & Ep & _);
    [by eapply ring_ok_ext|done|by rewrite E4|by rewrite E1, E3|]. cbn [mbind option_bind].
  eexists. split; [done|]. split.
  - assert (Es : settings t2 = settings t1) by (by injection Ep). split; cbn.
    + eapply ring_ok_ext, Hr2; unfold share; by case_match.
    + assert (Ess : settings (share t2 (interpolate ref now b)) = settings t2) by (unfold share; by case_match).
      by rewrite Ess, Es, E4.
  - right. split_and!; [done..|cbn; by rewrite share_pace|done].
Qed.

Lemma receive_ok g signal :
  flight_ok g → 0 < inFlightCount (gtrack g) → signals (gtrack g) !! oldestSignal (gtrack g) = Some signal →
  signal ∈ values g → flight_ok (receive g signal).
Proof. intros [Hr Hpos] Hc Hs Hv. split; [by apply ring_receive|done]. Qed.

Lemma sent_ok g before signal after :
  flight_ok g → armed g = before ++ signal :: after →
  flight_ok (mkGoroutine (gtrack g) (deadlineReached g) (send (values g) signal) (before ++ after) (made g) (beats g)).
Proof.
  intros [Hr Hpos] E. split; [|done]. cbn. destruct Hr as [H1 H2 H3 H4 H5 H7 H6]. split; try done.
  all: assert (Hnd : NoDup (values g ++ armed g)) by (rewrite H5; apply flight_NoDup, H3).
  all: rewrite E in Hnd; apply NoDup_app in Hnd as (_ & Hd & Hnd).
  all: assert (Hnot : signal ∉ values g) by (intros Hin; apply (Hd _ Hin), elem_of_app; right; by left).
  all: unfold send; rewrite decide_False by done.
  - rewrite <- H5, E. solve_Permutation.
  - transitivity (filter (λ s, s ≠ signal) (armed g)).
    + apply NoDup_app in Hnd as (_ & Hb & Ha). apply NoDup_cons in Ha as [Ha _].
      rewrite E, filter_app, filter_cons_False by (intros Hx; by apply Hx). rewrite !filter_ne; [done|done|].
      intros Hin. apply (Hb _ Hin). by left.
    + rewrite H7 at 1. rewrite list_filter_filter. apply filter_ext_in. intros x _. rewrite not_elem_of_cons. tauto.
Qed.

Lemma started_ok eventType s d : NewTrack eventType s = Some d → flight_ok (started d).
Proof.
  unfold NewTrack. destruct (_ || _) eqn:E; [done|]. intros [= <-].
  rewrite !orb_false_iff, !Z.ltb_ge in E. destruct E as ((((_ & _) & _) & Hm) & _).
  set (s' := default_debt s).
  assert (Em : MaxInFlight s' = MaxInFlight s) by (unfold s', default_debt; by case_match).
  split; [|cbn; by rewrite Em]. cbn -[new_signals]. set (n := ring_size s').
  assert (Hn : length (new_signals 0 n) = n) by (unfold new_signals; by rewrite length_fmap, length_seq).
  assert (Hn0 : Z.of_nat n = Z.max (MaxInFlight s') 1) by (unfold n, ring_size; lia).
  split; cbn -[new_signals]; rewrite ?Hn; try lia.
  - apply new_signals_NoDup.
  - intros x Hx%elem_of_new_signals. lia.
  - done.
  - done.
Qed.

(** A step of run keeps [flight_ok], and either publishes nothing or [beat_due]. *)
Lemma run_step_spec g g' :
  flight_ok g → run_step g g' →
  flight_ok g' ∧
  ((pace (gtrack g') = pace (gtrack g) ∧ beats g' = beats g) ∨
   ∃ t now ref, int64 now ∧ pace t = pace (gtrack g) ∧ pace (gtrack g') = pace (beat_due t now).1 ∧
     beats g' = (now, nextDeadline (gtrack g), interpolate ref now (beat_due t now).2) :: beats g).
Proof.
  intros Hf Hs. destruct Hs as [g now ref g' Hd Hn E|g now ref s g' Hc Hl Hv Hn E|g before s after E].
  - destruct (start_beat_spec (reach g) now ref) as (g2 & E2 & ? & Hcase); [done|].
    rewrite E in E2. injection E2 as <-. split; [done|].
    destruct Hcase as [->|(_ & _ & _ & ? & ?)]; [by left|right; by exists (gtrack g), now, ref].
  - destruct (start_beat_spec (receive g s) now ref) as (g2 & E2 & ? & Hcase); [by apply receive_ok|].
    rewrite E in E2. injection E2 as <-. split; [done|].
    destruct Hcase as [->|(_ & _ & _ & ? & ?)]; [by left|right; by exists (receive_finished (gtrack g)), now, ref].
  - split; [by apply sent_ok|by left].
Qed.

Lemma runs_flight eventType s d g : NewTrack eventType s = Some d → runs d g → flight_ok g.
Proof. intros Hd. induction 1 as [|g g' _ IH Hs]; [by eapply started_ok|by eapply run_step_spec]. Qed.

Lemma NewTrack_settings eventType s d :
  NewTrack eventType s = Some d →
  let s' := declaredSettings d in
  Step s' = Step s ∧ MinInterval s' = MinInterval s ∧ MaxDelta s' = MaxDelta s ∧ MaxInFlight s' = MaxInFlight s ∧
  (0 ≤ Step s ∧ 0 ≤ MinInterval s ∧ 0 ≤ MaxDelta s ∧ 0 ≤ MaxInFlight s ∧ 1 ≤ MaxDebt s')%Z.
Proof.
  unfold NewTrack. destruct (_ || _) eqn:E; [done|]. intros [= <-].
  rewrite !orb_false_iff, !Z.ltb_ge in E. destruct E as ((((? & ?) & ?) & ?) & ?).
  cbn [declaredSettings]. unfold default_debt, defaultMaxDebt. destruct (Z.eqb_spec (MaxDebt s) 0); cbn; split_and!; lia.
Qed.

Lemma runs_settings d g : runs d g → settings (gtrack g) = declaredSettings d.
Proof.
  assert (Hb : ∀ t now, settings (beat_due t now).1 = settings t) by (intros; apply beat_due_ring).
  assert (Hstart : ∀ g now ref g', start_beat g now ref = Some g' → settings (gtrack g') = settings (gtrack g)).
  { intros g0 now ref g'. unfold start_beat. case_match; [|by intros [= ->]].
    intros ([[t b] s] & E & [= <-])%bind_Some. cbn. unfold publishDue in E. specialize (Hb (gtrack g0) now).
    destruct (beat_due (gtrack g0) now) as [t1 b1]. apply bind_Some in E as ([t2 s2] & E & [= -> _ _]).
    unfold take_signal in E. apply bind_Some in E as (s3 & _ & [= <- _]).
    transitivity (settings t1); [unfold share; cbn; by repeat case_match|exact Hb]. }
  induction 1 as [|g g' _ IH Hs]; [done|]. rewrite <- IH.
  destruct Hs as [? ? ? ? _ _ E|? ? ? ? ? _ _ _ _ E|]; [by apply Hstart in E|by apply Hstart in E|done].
Qed.

(** C26: no finish of a beat is lost or taken for another's.  Every beat in
    flight has a signal of its own, oldest first in the ring, however often
    the ring grows; their number never passes the limit; starting a beat
    never panics; and while the publications of all have finished, the oldest
    signal has a value to receive, so run goes on until none is in flight. *)
Theorem beats_in_flight eventType s d g :
  NewTrack eventType s = Some d → runs d g →
  let t := gtrack g in
  NoDup (values g ++ armed g) ∧
  armed g = filter (λ s, s ∉ values g) (take (inFlightCount t) (from_oldest t)) ∧
  inFlightCount t = length (values g) + length (armed g) ∧
  ((0 < MaxInFlight s)%Z → (Z.of_nat (inFlightCount t) ≤ MaxInFlight s)%Z) ∧
  (∀ now ref, is_Some (start_beat (reach g) now ref)) ∧
  (armed g = [] → 0 < inFlightCount t → ∃ s, signals t !! oldestSignal t = Some s ∧ s ∈ values g).
Proof.
  intros Hd Hg t. pose proof (runs_flight _ _ _ _ Hd Hg) as Hf. destruct Hf as [[H1 H2 H3 H4 H5 H7 H6] Hpos].
  assert (Es : settings t = declaredSettings d) by (by apply runs_settings).
  destruct (NewTrack_settings _ _ _ Hd) as (_ & _ & _ & Em & _). split_and!.
  - rewrite H5. apply flight_NoDup, H3.
  - exact H7.
  - rewrite <- length_app, H5, length_take, length_from_oldest. unfold t. lia.
  - intros Hm. unfold t in *. rewrite Es, Em in H6. rewrite <- H6 by done. lia.
  - intros now ref. destruct (start_beat_spec (reach g) now ref) as (g' & E & _); [exact (runs_flight _ _ _ _ Hd Hg)|by exists g'].
  - intros Ea Hc. rewrite Ea, app_nil_r in H5. unfold t in *.
    destruct (lookup_lt_is_Some_2 (signals (gtrack g)) (oldestSignal (gtrack g))) as [x Hx]; [done|].
    exists x. split; [done|]. rewrite H5. apply list_elem_of_lookup. exists 0.
    rewrite lookup_take_lt by done. by rewrite from_oldest_lookup, Nat.add_0_r, Nat.mod_small by lia.
Qed.

(** A track of ten units of time a step, a debt of two steps and one beat in
    flight, whose second timer fires late. *)
Definition example_settings : Settings := mkSettings 10 0 0 1 2 None.
Definition example_track : Track := mkDeclared 7 example_settings.
Definition example_events : list event := [Fires 10 None; Sends 0; Finishes 12; Fires 65 None].

Definition after_events (d : Track) (l : list event) : goroutine := default (started d) (drive (started d) l).

Lemma after_events_runs d l : is_Some (drive (started d) l) → runs d (after_events d l).
Proof. intros [g Hg]. unfold after_events. rewrite Hg. eapply drive_runs, Hg. apply runs_started. Qed.

Lemma beats_in_flight_witness :
  let g := after_events example_track (take 3 example_events) in
  inFlightCount (gtrack g) = 0 ∧ NoDup (values g ++ armed g) ∧ is_Some (start_beat (reach g) 65 None).
Proof.
  destruct (beats_in_flight 7 example_settings example_track (after_events example_track (take 3 example_events)))
    as (H1 & _ & _ & _ & H4 & _).
  - vm_compute. reflexivity.
  - apply after_events_runs. vm_compute. eexists. reflexivity.
  - split; [vm_compute; reflexivity|]. split; [exact H1|apply H4].
Defined.
