(* ===== verification/TrackPacing.v ===== *)
(** * What the beats of a track add up to

    [beats_add_up]: on any clock, whatever it answers, every beat's
    TimeFromStart is the sum of Delta and Lost over the beats so far, up to
    the width of a word; [fixed_step_keeps_pace]: what a fixed-step track
    publishes, drops and still owes.  Equality up to the wrap of a word,
    [eqm], is an equivalence the arithmetic of Go respects.

    [alpha_in_unit]: Alpha is rounded three times, two durations to 53 bits,
    their quotient, and that to 24 bits; what rounding answers has the sign of
    what it rounds and is a number, and a duration other than zero is rounded
    to one, so Alpha, which the code replaces from 1 on, is at least zero and
    below 1. *)

From Stdlib Require Import SpecFloat.
From S2P Require Import Prelude Track TrackRun.
#[local] Open Scope Z_scope.

(** ** Equality up to the wrap of a 64-bit word *)

Definition eqm (a b : Z) : Prop := a mod 2 ^ 64 = b mod 2 ^ 64.

#[export] Instance eqm_equivalence : Equivalence eqm.
Proof. split; [done|by intros ? ?|]. intros a b c. unfold eqm. congruence. Qed.

Lemma eq_eqm a b : a = b → eqm a b.
Proof. by intros ->. Qed.

#[export] Instance eqm_add : Proper (eqm ==> eqm ==> eqm) Z.add.
Proof. intros a a' Ha b b' Hb. unfold eqm in *. rewrite Z.add_mod, Ha, Hb, <- Z.add_mod; done. Qed.

#[export] Instance eqm_sub : Proper (eqm ==> eqm ==> eqm) Z.sub.
Proof. intros a a' Ha b b' Hb. unfold eqm in *. rewrite Zminus_mod, Ha, Hb, <- Zminus_mod; done. Qed.

#[export] Instance eqm_mul : Proper (eqm ==> eqm ==> eqm) Z.mul.
Proof. intros a a' Ha b b' Hb. unfold eqm in *. rewrite Z.mul_mod, Ha, Hb, <- Z.mul_mod; done. Qed.

Lemma eqm_i64 z : eqm (i64 z) z.
Proof.
  unfold eqm, i64. rewrite Zminus_mod, Z.mod_mod, <- Zminus_mod by done. f_equal. lia.
Qed.

Lemma u64_Z n : Z.of_N (u64 n) = Z.of_N n mod 2 ^ 64.
Proof. unfold u64. by rewrite N2Z.inj_mod. Qed.

Lemma eqm_u64 n : eqm (Z.of_N (u64 n)) (Z.of_N n).
Proof. unfold eqm. by rewrite u64_Z, Z.mod_mod. Qed.

Lemma eqm_word z : eqm (Z.of_N (Z.to_N (z mod 2 ^ 64))) z.
Proof. unfold eqm. rewrite Z2N.id; [by rewrite Z.mod_mod|]. by apply Z.mod_pos_bound. Qed.

Lemma i64_eqm a b : eqm a b → i64 a = i64 b.
Proof. unfold eqm, i64. intros H. f_equal. rewrite Z.add_mod, H, <- Z.add_mod; done. Qed.

Lemma i64_int64 z : int64 (i64 z).
Proof. unfold int64, i64. pose proof (Z.mod_pos_bound (z + 2 ^ 63) (2 ^ 64)). lia. Qed.

#[export] Hint Rewrite eqm_i64 eqm_u64 eqm_word : eqm.

(** ** What the beats add up to *)

Definition stood_for (l : list (Z * Z * Beat)) : Z :=
  foldr (λ '(_, _, b) sum, Delta b + Lost b + sum) 0 l.

Definition thrown_away (l : list (Z * Z * Beat)) : Z := foldr (λ '(_, _, b) sum, Lost b + sum) 0 l.

(** Each beat with those before it. *)
Fixpoint each_beat (P : Z → Z → Beat → list (Z * Z * Beat) → Prop) (l : list (Z * Z * Beat)) : Prop :=
  match l with
  | [] => True
  | (now, deadline, b) :: before => P now deadline b before ∧ each_beat P before
  end.

Lemma each_beat_split P after now deadline b before :
  each_beat P (after ++ (now, deadline, b) :: before) → P now deadline b before.
Proof. induction after as [|[[n' d'] b'] after IH]; [by intros [? _]|]. intros [_ ?]. by apply IH. Qed.

Definition adds_up (now deadline : Z) (b : Beat) (before : list (Z * Z * Beat)) : Prop :=
  Tick b = u64 (N.of_nat (S (length before))) ∧ TimeFromStart b = i64 (Delta b + Lost b + stood_for before).

(** Where the track is, after the beats published. *)
Definition adds_up_to (t : track) (l : list (Z * Z * Beat)) : Prop :=
  tick t = u64 (N.of_nat (length l)) ∧ each_beat adds_up l ∧
  if (0 <? Step (settings t)) then eqm (Z.of_N (stepCount t) * Step (settings t)) (stood_for l)
  else int64 (lastBeat t) ∧ eqm (lastBeat t) (stood_for l).

Lemma u64_succ n : u64 (u64 (N.of_nat n) + 1) = u64 (N.of_nat (S n)).
Proof. unfold u64. rewrite N.Div0.add_mod_idemp_l. f_equal. lia. Qed.

Lemma fixed_steps_eqm t now :
  eqm (Z.of_N (stepCount (fixed_due t now).1)) (Z.of_N (stepCount t) + dropped t now + 1).
Proof.
  cbn. rewrite eqm_u64, N2Z.inj_add, eqm_u64, N2Z.inj_add, eqm_word. done.
Qed.

Lemma fixed_lost_eqm t now : eqm (Lost (fixed_due t now).2) (dropped t now * Step (settings t)).
Proof.
  cbn. unfold dropped. destruct (_ <? _); [|done]. by rewrite eqm_i64.
Qed.

Lemma fixed_adds_up t now l :
  0 < Step (settings t) → adds_up_to t l →
  adds_up_to (fixed_due t now).1 ((now, nextDeadline t, (fixed_due t now).2) :: l).
Proof.
  intros Hs (Ht & Hl & Hsum). pose proof (proj2 (Z.ltb_lt _ _) Hs) as Eb. rewrite Eb in Hsum.
  assert (Hnew : eqm (Z.of_N (stepCount (fixed_due t now).1) * Step (settings t))
                  (Delta (fixed_due t now).2 + Lost (fixed_due t now).2 + stood_for l)).
  { rewrite fixed_steps_eqm, fixed_lost_eqm, <- Hsum. cbn [Delta fixed_due snd]. apply eq_eqm; ring. }
  split_and!; [cbn; by rewrite Ht, u64_succ|split; [split|done]|].
  - cbn [Tick fixed_due snd length]. by rewrite Ht, u64_succ.
  - rewrite <- (i64_eqm _ _ Hnew). apply i64_eqm. by rewrite eqm_i64.
  - change (settings (fixed_due t now).1) with (settings t). rewrite Eb. exact Hnew.
Qed.

Lemma variable_adds_up t now l :
  Step (settings t) ≤ 0 → int64 now → adds_up_to t l →
  adds_up_to (variable_due t now).1 ((now, nextDeadline t, (variable_due t now).2) :: l).
Proof.
  intros Hs Hn (Ht & Hl & Hsum). pose proof (proj2 (Z.ltb_ge _ _) Hs) as Eb. rewrite Eb in Hsum.
  destruct Hsum as [Hlast Hsum].
  assert (Hnew : eqm now (Delta (variable_due t now).2 + Lost (variable_due t now).2 + stood_for l)).
  { rewrite <- Hsum. cbn [Delta Lost variable_due snd]. destruct (_ && _).
    - rewrite (eqm_i64 (_ - MaxDelta _)), (eqm_i64 (now - lastBeat t)). apply eq_eqm; ring.
    - rewrite eqm_i64. apply eq_eqm; ring. }
  split_and!; [cbn; by rewrite Ht, u64_succ|split; [split|done]|].
  - cbn [Tick variable_due snd length]. by rewrite Ht, u64_succ.
  - rewrite <- (i64_eqm _ _ Hnew). cbn. by rewrite i64_small.
  - change (settings (variable_due t now).1) with (settings t). rewrite Eb. by split.
Qed.

Lemma adds_up_to_pace t t' l : pace t' = pace t → adds_up_to t l → adds_up_to t' l.
Proof. unfold pace, adds_up_to. intros [= E1 E2 E3 _ E5]. by rewrite E1, E2, E3, E5. Qed.

Lemma interpolate_stamp ref now b :
  Tick (interpolate ref now b) = Tick b ∧ Delta (interpolate ref now b) = Delta b ∧
  Lost (interpolate ref now b) = Lost b ∧ TimeFromStart (interpolate ref now b) = TimeFromStart b.
Proof. by destruct ref as [[step [n deadline]]|]. Qed.

Lemma adds_up_to_interpolate t now deadline ref b l :
  adds_up_to t ((now, deadline, b) :: l) → adds_up_to t ((now, deadline, interpolate ref now b) :: l).
Proof. by destruct ref as [[step [n d]]|]. Qed.

Lemma beat_due_adds_up t now l :
  int64 now → adds_up_to t l → adds_up_to (beat_due t now).1 ((now, nextDeadline t, (beat_due t now).2) :: l).
Proof.
  intros Hn H. unfold beat_due. destruct (Z.ltb_spec 0 (Step (settings t))); [by apply fixed_adds_up|by apply variable_adds_up].
Qed.

Lemma runs_add_up eventType s d g : NewTrack eventType s = Some d → runs d g → adds_up_to (gtrack g) (beats g).
Proof.
  intros Hd. induction 1 as [|g g' Hg IH Hs].
  - split_and!; [done|done|]. cbn. case_match; done.
  - destruct (run_step_spec g g') as [_ [[Ep ->]|(t & now & ref & Hn & Et & Ep & ->)]]; [by eapply runs_flight|done|..].
    + by eapply adds_up_to_pace.
    + eapply adds_up_to_pace; [exact Ep|]. apply adds_up_to_interpolate.
      assert (En : nextDeadline (gtrack g) = nextDeadline t) by (by injection Et). rewrite En.
      apply beat_due_adds_up; [done|]. by eapply adds_up_to_pace.
Qed.

(** C27: whatever the clock answers and however often it fires, the beats of
    a track are numbered one after another and each one's TimeFromStart is the
    sum of Delta and Lost over the beats so far: no time is counted twice, and
    what is thrown away is told.  Ticks wrap at 2^64, durations as an int64. *)
Theorem beats_add_up eventType s d g after now deadline b before :
  NewTrack eventType s = Some d → runs d g → beats g = after ++ (now, deadline, b) :: before →
  Tick b = u64 (N.of_nat (S (length before))) ∧
  TimeFromStart b = i64 (Delta b + Lost b + stood_for before).
Proof.
  intros Hd Hg E. destruct (runs_add_up _ _ _ _ Hd Hg) as (_ & Hl & _). rewrite E in Hl.
  by apply each_beat_split in Hl.
Qed.

Lemma beats_add_up_witness :
  ∃ b before, beats (after_events example_track example_events) = (65, 20, b) :: before ∧
    TimeFromStart b = i64 (Delta b + Lost b + stood_for before) ∧ Lost b = 30.
Proof.
  do 2 eexists. split; [vm_compute; reflexivity|]. split; [|reflexivity].
  apply (beats_add_up 7 example_settings example_track (after_events example_track example_events) [] 65 20).
  - vm_compute. reflexivity.
  - apply after_events_runs. vm_compute. eexists. reflexivity.
  - vm_compute. reflexivity.
Defined.

(** ** A fixed-step track *)

(** The deadline was reached, and the next one is a duration. *)
Definition on_time (step : Z) (l : list (Z * Z * Beat)) : Prop :=
  Forall (λ '(now, deadline, _), deadline ≤ now ∧ now + step < 2 ^ 63) l.

(** What a fixed-step track's beat is: [q] steps were due by then, of which
    [lost] were dropped. *)
Definition keeps_pace (step cap now deadline : Z) (b : Beat) (before : list (Z * Z * Beat)) : Prop :=
  ∃ lost, 0 ≤ lost ∧ Delta b = step ∧ Lost b = lost * step ∧
    TimeFromStart b = Z.of_N (Tick b) * step + Lost b + thrown_away before ∧
    TimeFromStart b ≤ now ∧ now / step - TimeFromStart b / step < cap ∧
    (0 < lost → now / step - TimeFromStart b / step = cap - 1).

(** What is added to the first deadline, and to no other. *)
Definition late_start (t : track) (l : list (Z * Z * Beat)) : Z :=
  match l with [] => MinInterval (settings t) | _ => 0 end.

Record pace_ok (t : track) (l : list (Z * Z * Beat)) : Prop := {
  pa_interval : 0 ≤ MinInterval (settings t);
  pa_deadline : nextDeadline t = (Z.of_N (stepCount t) + 1) * Step (settings t) + late_start t l;
  pa_range : nextDeadline t < 2 ^ 63;
  pa_tick : Z.of_N (tick t) * Step (settings t) + thrown_away l = Z.of_N (stepCount t) * Step (settings t);
  pa_ticks : (tick t ≤ stepCount t)%N;
  pa_beats : each_beat (keeps_pace (Step (settings t)) (MaxDebt (settings t))) l
}.

Lemma late_start_bound t l : 0 ≤ MinInterval (settings t) → 0 ≤ late_start t l.
Proof. intros H. unfold late_start. by destruct l. Qed.

Lemma pa_on_step t l :
  MinInterval (settings t) = 0 → pace_ok t l → nextDeadline t = (Z.of_N (stepCount t) + 1) * Step (settings t).
Proof. intros Hm [_ -> _ _ _ _]. unfold late_start. rewrite Hm. destruct l; lia. Qed.

(** What publishDue computes when the deadline was reached. *)
Lemma fixed_due_spec t now l :
  0 < Step (settings t) → 1 ≤ MaxDebt (settings t) → pace_ok t l → nextDeadline t ≤ now → now + Step (settings t) < 2 ^ 63 →
  let lost := Z.max 0 (now / Step (settings t) - Z.of_N (stepCount t) - MaxDebt (settings t)) in
  let b := (fixed_due t now).2 in let t' := (fixed_due t now).1 in
  Z.of_N (stepCount t') = Z.of_N (stepCount t) + lost + 1 ∧ Z.of_N (tick t') = Z.of_N (tick t) + 1 ∧
  nextDeadline t' = (Z.of_N (stepCount t') + 1) * Step (settings t) ∧ nextDeadline t' < 2 ^ 63 ∧
  Lost b = lost * Step (settings t) ∧ TimeFromStart b = Z.of_N (stepCount t') * Step (settings t) ∧
  Z.of_N (stepCount t') ≤ now / Step (settings t).
Proof.
  intros Hs Hcap [Hi Hd Hr _ Hticks _] Hnow Hrange. pose proof (late_start_bound t l Hi) as Hl0.
  set (step := Step (settings t)) in *. set (cap := MaxDebt _) in *.
  set (k := Z.of_N (stepCount t)) in *. set (q := now / step).
  assert (Hk : 0 ≤ k) by (unfold k; lia).
  assert (Hq : q * step ≤ now < (q + 1) * step).
  { unfold q. pose proof (Z.div_mod now step). pose proof (Z.mod_pos_bound now step). lia. }
  assert (Hkq : k + 1 ≤ q) by nia. assert (Hq63 : q < 2 ^ 63) by nia.
  assert (Eowed : owed t now = q - k).
  { unfold owed. fold step k. rewrite Z.quot_div_nonneg by nia. fold q.
    rewrite (i64_small q), (i64_small k) by lia. apply i64_small. lia. }
  remember (Z.max 0 (q - k - cap)) as lost eqn:Hlost. assert (Hb : 0 ≤ lost ≤ q - k - 1) by lia.
  assert (Edrop : dropped t now = lost).
  { unfold dropped. rewrite Eowed. fold cap. destruct (Z.ltb_spec cap (q - k)); [|lia].
    rewrite i64_small; lia. }
  assert (Esteps : Z.of_N (stepCount (fixed_due t now).1) = k + lost + 1).
  { cbn. rewrite Edrop, (Z.mod_small lost), !u64_Z, N2Z.inj_add, u64_Z, N2Z.inj_add, Z2N.id by lia. fold k.
    change (Z.of_N 1) with 1. rewrite (Z.mod_small (k + lost)), Z.mod_small; lia. }
  assert (Hle : k + lost + 1 ≤ q) by lia.
  assert (Hmul : (k + lost + 1) * step ≤ now) by nia.
  assert (Enext : nextDeadline (fixed_due t now).1 = (Z.of_N (stepCount (fixed_due t now).1) + 1) * step).
  { rewrite Esteps. transitivity (i64 ((k + lost + 1 + 1) * step)); [|apply i64_small; nia].
    apply i64_eqm. cbn [nextDeadline fixed_due fst set_pace]. fold step. change (u64 (u64 (stepCount t + _) + 1)) with (stepCount (fixed_due t now).1).
    rewrite eqm_i64, eqm_u64, N2Z.inj_add, Esteps. done. }
  split_and!; [done| |done| |..].
  - cbn. rewrite u64_Z, N2Z.inj_add. apply Z.mod_small. lia.
  - rewrite Enext, Esteps. nia.
  - cbn. fold step cap. rewrite Edrop, Eowed. destruct (Z.ltb_spec cap (q - k)); [apply i64_small; nia|].
    replace lost with 0 by lia. done.
  - rewrite Esteps. transitivity (i64 ((k + lost + 1) * step)); [|apply i64_small; nia].
    apply i64_eqm. cbn [TimeFromStart fixed_due snd]. fold step. change (u64 (u64 (stepCount t + _) + 1)) with (stepCount (fixed_due t now).1).
    rewrite eqm_i64, Esteps. done.
  - rewrite Esteps. done.
Qed.

Lemma fixed_pace_ok t now l :
  0 < Step (settings t) → 1 ≤ MaxDebt (settings t) → nextDeadline t ≤ now → now + Step (settings t) < 2 ^ 63 →
  pace_ok t l → pace_ok (fixed_due t now).1 ((now, nextDeadline t, (fixed_due t now).2) :: l).
Proof.
  intros Hs Hcap Hnow Hrange H.
  destruct (fixed_due_spec t now l Hs Hcap H Hnow Hrange) as (E1 & E2 & E3 & E4 & E5 & E6 & E7).
  assert (Et : Tick (fixed_due t now).2 = tick (fixed_due t now).1) by done.
  assert (Ed : Delta (fixed_due t now).2 = Step (settings t)) by done.
  assert (Es : settings (fixed_due t now).1 = settings t) by done.
  destruct H as [H0 _ _ H3 H4 H5]. destruct (fixed_due t now) as [t' b]. cbn [fst snd] in *.
  set (step := Step (settings t)) in *. set (q := now / step) in *. remember (Z.max 0 _) as lost eqn:El.
  split; rewrite ?Es; fold step; [done|cbn [late_start]; lia|done| |lia|].
  - cbn [thrown_away foldr]. fold (thrown_away l). rewrite E1, E2, E5. lia.
  - split; [|done]. exists lost. rewrite Ed, E6, Et, E2, E5, Z.div_mul by lia.
    split_and!; [lia|done|done|rewrite E1; lia| |lia|lia].
    pose proof (Z.mul_div_le now step Hs). fold q in H. nia.
Qed.

Lemma pace_ok_pace t t' l : pace t' = pace t → pace_ok t l → pace_ok t' l.
Proof.
  intros [= E1 E2 E3 E4 _] [H0 H1 H2 H3 H4 H5]. unfold late_start in *.
  split; unfold late_start; rewrite ?E1, ?E2, ?E3, ?E4; done.
Qed.

Lemma pace_ok_interpolate t now deadline ref b l :
  pace_ok t ((now, deadline, b) :: l) → pace_ok t ((now, deadline, interpolate ref now b) :: l).
Proof. destruct ref as [[step [n d]]|]; [|done]. intros [H0 H1 H2 H3 H4 H5]. by split. Qed.

Lemma runs_keep_pace eventType s d g :
  NewTrack eventType s = Some d → 0 < Step s → Step s + MinInterval s < 2 ^ 63 → runs d g → on_time (Step s) (beats g) →
  pace_ok (gtrack g) (beats g).
Proof.
  intros Hd Hs Hm Hg. destruct (NewTrack_settings _ _ _ Hd) as (Es & Ei & _ & _ & (_ & Hi0 & _ & _ & Hcap)).
  induction Hg as [|g g' Hg IH Hstep]; intros Ht.
  - assert (Ed : nextDeadline (gtrack (started d)) = Step s + MinInterval s) by (cbn; rewrite Es, Ei; apply i64_small; lia).
    split; rewrite ?Ed; unfold late_start; change (settings (gtrack (started d))) with (declaredSettings d);
      change (beats (started d)) with (@nil (Z * Z * Beat)); rewrite ?Es, ?Ei; cbn; lia || done.
  - pose proof (runs_settings _ _ Hg) as Eg.
    destruct (run_step_spec g g') as [_ [[Ep Eb]|(t & now & ref & Hn & Et & Ep & Eb)]]; [by eapply runs_flight|done|..]; rewrite Eb in *.
    + eapply pace_ok_pace; [exact Ep|]. by apply IH.
    + apply Forall_cons in Ht as [[Hnow Hrange] Ht].
      assert (En : nextDeadline (gtrack g) = nextDeadline t ∧ settings (gtrack g) = settings t) by (by injection Et).
      destruct En as [En En']. rewrite En in *.
      assert (Hst : Step (settings t) = Step s) by (by rewrite <- En', Eg).
      eapply pace_ok_pace; [exact Ep|]. apply pace_ok_interpolate. unfold beat_due.
      rewrite (proj2 (Z.ltb_lt _ _)) by lia. apply fixed_pace_ok; rewrite ?Hst; try done; [by rewrite <- En', Eg|].
      eapply pace_ok_pace, IH; done.
Qed.

(** C28: on a fixed-step track whose timer does not fire early, every beat
    stands for one step and is published no earlier than its time; that time
    is its number of steps plus what was thrown away; what is thrown away is
    whole steps, and only as many as leave one step fewer than the debt cap
    still owed; and never more than that is owed after a beat.  This holds of
    every track NewTrack accepts whose Step and MinInterval are together less
    than 2^63: a MinInterval, which the docs give a meaning on a variable track only and Init adds to the
    first deadline of a fixed-step track too, changes none of it. *)
Theorem fixed_step_keeps_pace eventType s d g after now deadline b before :
  NewTrack eventType s = Some d → 0 < Step s → Step s + MinInterval s < 2 ^ 63 → runs d g →
  on_time (Step s) (beats g) → beats g = after ++ (now, deadline, b) :: before →
  keeps_pace (Step s) (MaxDebt (declaredSettings d)) now deadline b before.
Proof.
  intros Hd Hs Hm Hg Ht E. pose proof (runs_keep_pace _ _ _ _ Hd Hs Hm Hg Ht) as [_ _ _ _ _ Hb].
  destruct (NewTrack_settings _ _ _ Hd) as (Es & _). rewrite (runs_settings _ _ Hg), Es, E in Hb.
  by apply each_beat_split in Hb.
Qed.

Definition on_timeb (step : Z) (l : list (Z * Z * Beat)) : bool :=
  forallb (λ '(now, deadline, _), (deadline <=? now) && (now + step <? 2 ^ 63)) l.

Lemma on_timeb_spec step l : on_timeb step l = true → on_time step l.
Proof.
  unfold on_timeb, on_time. rewrite forallb_forall, Forall_forall. intros H [[n d] b] Hin%list_elem_of_In.
  specialize (H _ Hin). cbn in H. apply andb_true_iff in H as [?%Z.leb_le ?%Z.ltb_lt]. done.
Qed.

Lemma fixed_step_keeps_pace_witness :
  ∃ b before, beats (after_events example_track example_events) = (65, 20, b) :: before ∧
    keeps_pace 10 2 65 20 b before.
Proof.
  do 2 eexists. split; [vm_compute; reflexivity|].
  apply (fixed_step_keeps_pace 7 example_settings example_track (after_events example_track example_events) [] 65 20).
  - vm_compute. reflexivity.
  - split; vm_compute; reflexivity.
  - reflexivity.
  - apply after_events_runs. vm_compute. eexists. reflexivity.
  - apply on_timeb_spec. vm_compute. reflexivity.
  - vm_compute. reflexivity.
Defined.

(** The first deadline of a fixed-step track with a MinInterval, which means
    nothing there, is not its first step. *)
Lemma first_deadline_late :
  nextDeadline (init_track (mkDeclared 1 (mkSettings 10 7 0 1 4 None)) [0%N]) = 17.
Proof. reflexivity. Qed.

(** A rate past a billion a second makes a variable track. *)
Lemma fixed_step_without_a_step : FixedStep 2000000000 = Some VariableTrack.
Proof. reflexivity. Qed.

(** ** Alpha: rounding *)

Lemma shr_1_half r : 0 ≤ shr_m r → shr_m (shr_1 r) = shr_m r / 2.
Proof.
  destruct r as [[|[p|p|]|p] b s]; cbn -[Z.div]; intros H; try done; try lia.
  - apply (Z.div_unique _ _ _ 1); lia.
  - apply (Z.div_unique _ _ _ 0); lia.
Qed.

Lemma iter_shr n r : 0 ≤ shr_m r → shr_m (SpecFloat.iter_pos shr_1 n r) = shr_m r / 2 ^ Z.pos n.
Proof.
  revert r. induction n as [n IH|n IH|]; intros r H; cbn [SpecFloat.iter_pos].
  - assert (H1 : 0 ≤ shr_m (shr_1 r)) by (rewrite shr_1_half by done; apply Z.div_pos; lia).
    assert (H2 : 0 ≤ shr_m (SpecFloat.iter_pos shr_1 n (shr_1 r))) by (rewrite IH by done; apply Z.div_pos; lia).
    rewrite !IH, shr_1_half, !Z.div_div by (done || lia). f_equal.
    rewrite <- Z.pow_add_r, <- (Z.pow_add_r 2 1) by lia. f_equal. lia.
  - assert (H2 : 0 ≤ shr_m (SpecFloat.iter_pos shr_1 n r)) by (rewrite IH by done; apply Z.div_pos; lia).
    rewrite !IH, Z.div_div by (done || lia). f_equal. rewrite <- Z.pow_add_r by lia. f_equal. lia.
  - by rewrite shr_1_half.
Qed.

(** The exponent by which a rounding shifts. *)
Definition shift (prec emax m e : Z) : Z := Z.max 0 (fexp prec emax (Zdigits2 m + e) - e).

Lemma shr_fexp_spec prec emax m e l :
  0 ≤ m →
  shr_m (shr_fexp prec emax m e l).1 = m / 2 ^ shift prec emax m e ∧
  (shr_fexp prec emax m e l).2 = e + shift prec emax m e.
Proof.
  intros H. unfold shr_fexp, shift. set (n := _ - e).
  assert (Em : shr_m (shr_record_of_loc m l) = m) by (by destruct l as [|[]]).
  destruct n as [|p|p]; cbn [shr fst snd].
  - cbn. rewrite Em, Z.div_1_r. lia.
  - rewrite iter_shr by (by rewrite Em). rewrite Em. split; [by rewrite Z.max_r by lia|lia].
  - rewrite Em, Z.max_l by lia. change (2 ^ 0) with 1. rewrite Z.div_1_r. lia.
Qed.

Lemma round_nearest_even_bounds m l : m ≤ round_nearest_even m l ≤ m + 1.
Proof. unfold round_nearest_even. repeat case_match; lia. Qed.

(** A number with sign [s]. *)
Definition signed (s : bool) (x : spec_float) : Prop :=
  match x with
  | S754_zero s' | S754_infinity s' | S754_finite s' _ _ => s' = s
  | S754_nan => False
  end.

Lemma binary_round_aux_signed prec emax s m e l : 0 ≤ m → signed s (binary_round_aux prec emax s m e l).
Proof.
  intros H. unfold binary_round_aux.
  destruct (shr_fexp_spec prec emax m e l H) as [E1 _]. destruct (shr_fexp prec emax m e l) as [r1 e1]. cbn [fst] in E1.
  pose proof (round_nearest_even_bounds (shr_m r1) (loc_of_shr_record r1)) as Hb.
  assert (H1 : 0 ≤ shr_m r1) by (rewrite E1; apply Z.div_pos; [done|apply Z.pow_pos_nonneg; [done|unfold shift; lia]]).
  set (m2 := round_nearest_even _ _) in *. assert (H2 : 0 ≤ m2) by lia.
  destruct (shr_fexp_spec prec emax m2 e1 loc_Exact H2) as [E2 _]. destruct (shr_fexp _ _ m2 _ _) as [r2 e2]. cbn [fst] in E2.
  assert (H3 : 0 ≤ shr_m r2) by (rewrite E2; apply Z.div_pos; [done|apply Z.pow_pos_nonneg; [done|unfold shift; lia]]).
  destruct (shr_m r2); [done|by case_match|lia].
Qed.

Lemma binary_round_signed prec emax s m e : signed s (binary_round prec emax s m e).
Proof. unfold binary_round. destruct (shl_align _ _ _). by apply binary_round_aux_signed. Qed.

(** ** Durations *)

Lemma digits2_pos_size m : Z.pos (digits2_pos m) = Z.log2 (Z.pos m) + 1.
Proof.
  induction m as [m IH|m IH|]; cbn [digits2_pos]; [..|done]; rewrite Pos2Z.inj_succ, IH.
  - change (Z.pos m~1) with (2 * Z.pos m + 1). rewrite Z.log2_succ_double by lia. lia.
  - change (Z.pos m~0) with (2 * Z.pos m). rewrite Z.log2_double by lia. lia.
Qed.

Lemma Zdigits2_log2 m : 0 < m → Zdigits2 m = Z.log2 m + 1.
Proof. destruct m as [|p|p]; [lia|intros _; apply digits2_pos_size|lia]. Qed.

(** A mantissa of at least 53 digits, at an exponent far from both ends, is
    rounded to a finite number that is not zero. *)
Lemma binary_round_aux_finite s m e :
  0 < m → 52 ≤ Z.log2 m → -100 ≤ e → Z.log2 m + e ≤ 100 → ∃ m' e', binary_round_aux 53 1024 s m e loc_Exact = S754_finite s m' e'.
Proof.
  intros Hm Hlog He Hhi. unfold binary_round_aux.
  destruct (shr_fexp_spec 53 1024 m e loc_Exact) as [E1 F1]; [lia|].
  destruct (shr_fexp 53 1024 m e loc_Exact) as [r1 e1]. cbn [fst snd] in E1, F1.
  assert (Es : shift 53 1024 m e = Z.log2 m - 52).
  { unfold shift, fexp, emin. rewrite Zdigits2_log2 by done. lia. }
  rewrite Es in E1, F1.
  assert (H1 : 2 ^ 52 ≤ shr_m r1 < 2 ^ 53).
  { rewrite E1. pose proof (Z.log2_spec m Hm) as [Hlo Hup]. split.
    - apply Z.div_le_lower_bound; [apply Z.pow_pos_nonneg; lia|]. rewrite <- Z.pow_add_r by lia.
      replace (Z.log2 m - 52 + 52) with (Z.log2 m) by lia. done.
    - apply Z.div_lt_upper_bound; [apply Z.pow_pos_nonneg; lia|]. rewrite <- Z.pow_add_r by lia.
      replace (Z.log2 m - 52 + 53) with (Z.succ (Z.log2 m)) by lia. done. }
  pose proof (round_nearest_even_bounds (shr_m r1) (loc_of_shr_record r1)) as Hb.
  set (m2 := round_nearest_even _ _) in *.
  assert (Hl2 : 52 ≤ Z.log2 m2 ≤ 53).
  { split; [apply (Z.log2_le_mono (2 ^ 52))|apply (Z.log2_le_mono m2 (2 ^ 53))]; lia. }
  destruct (shr_fexp_spec 53 1024 m2 e1 loc_Exact) as [E2 F2]; [lia|].
  destruct (shr_fexp 53 1024 m2 e1 loc_Exact) as [r2 e2]. cbn [fst snd] in E2, F2.
  assert (Es2 : shift 53 1024 m2 e1 = Z.log2 m2 - 52).
  { unfold shift, fexp, emin. rewrite Zdigits2_log2 by lia. lia. }
  rewrite Es2 in E2, F2.
  assert (Hpos : 0 < shr_m r2).
  { rewrite E2. apply Z.div_str_pos. split; [apply Z.pow_pos_nonneg; lia|].
    transitivity (2 ^ 1); [apply Z.pow_le_mono_r; lia|lia]. }
  destruct (shr_m r2) as [|m3|m3]; [lia| |lia]. rewrite (proj2 (Z.leb_le _ _)) by lia. by do 2 eexists.
Qed.

Lemma pos_shift k m : Z.pos (Pos.iter xO m k) = Z.pos m * 2 ^ Z.pos k.
Proof.
  induction k as [|k IH] using Pos.peano_ind; [cbn; lia|].
  rewrite Pos.iter_succ, Pos2Z.inj_succ, Z.pow_succ_r by done. change (Z.pos (Pos.iter xO m k)~0) with (2 * Z.pos (Pos.iter xO m k)).
  rewrite IH. lia.
Qed.

Lemma binary_round_finite s m :
  Z.pos m < 2 ^ 64 → ∃ m' e', binary_round 53 1024 s m 0 = S754_finite s m' e'.
Proof.
  intros Hm. unfold binary_round. rewrite digits2_pos_size.
  assert (Hl : 0 ≤ Z.log2 (Z.pos m) ≤ 63).
  { split; [apply Z.log2_nonneg|]. assert (Z.log2 (Z.pos m) < 64) by (by apply Z.log2_lt_pow2). lia. }
  set (f := fexp _ _ _). assert (Ef : f = Z.log2 (Z.pos m) - 52) by (unfold f, fexp, emin; lia).
  unfold shl_align. rewrite Z.sub_0_r. destruct f as [|k|k] eqn:Ek.
  - apply binary_round_aux_finite; lia.
  - apply binary_round_aux_finite; lia.
  - rewrite pos_shift. assert (Hlog : Z.log2 (Z.pos m * 2 ^ Z.pos k) = 52) by (rewrite Z.log2_mul_pow2; lia).
    apply binary_round_aux_finite; rewrite ?Hlog; lia.
Qed.

Lemma float64_pos z : 0 < z < 2 ^ 64 → ∃ m e, float64 z = S754_finite false m e.
Proof. intros H. destruct z as [|p|p]; [lia| |lia]. apply binary_round_finite; lia. Qed.

Lemma max_zero_duration z : int64 z → max_zero (float64 z) = S754_zero false ∨ ∃ m e, max_zero (float64 z) = S754_finite false m e.
Proof.
  intros Hz. destruct z as [|p|p]; [by left| |].
  - right. destruct (float64_pos (Z.pos p)) as (m & e & ->); [unfold int64 in Hz; lia|]. by exists m, e.
  - left. unfold float64. cbn [binary_normalize]. destruct (binary_round_finite true p) as (m & e & ->); [unfold int64 in Hz; lia|done].
Qed.

Lemma SFdiv_signed m e m2 e2 : signed false (SFdiv 53 1024 (S754_finite false m e) (S754_finite false m2 e2)).
Proof.
  unfold SFdiv. destruct (SFdiv_core_binary _ _ _ _ _ _) as [[q e'] l] eqn:E. apply binary_round_aux_signed.
  unfold SFdiv_core_binary in E. set (n := match _ - _ with Z0 => _ | _ => _ end) in E.
  assert (Hn : 0 ≤ n) by (unfold n; destruct (e - e2 - Z.min _ _); [lia|apply Z.shiftl_nonneg; lia|lia]).
  pose proof (Z.div_pos n (Z.pos m2) Hn eq_refl) as Hd. unfold Z.div in Hd.
  destruct (Z.div_eucl n (Z.pos m2)) as [q' r]. by injection E as <- <- <-.
Qed.

(** ** Below 1 *)

Lemma below_one a : signed false a → SFleb one32 a = false → SFltb a one32 = true ∧ SFleb (S754_zero false) a = true.
Proof.
  destruct a as [s|s| |s m e]; cbn [signed]; try done; intros ->; try done. unfold SFleb, SFltb, one32. cbn [SFcompare].
  rewrite (Z.compare_antisym e (-23)). destruct (e ?= -23) eqn:Ee; cbn [CompOpp]; try done.
  change (Pos.compare_cont Eq 8388608 m) with (8388608 ?= m)%positive. change (Pos.compare_cont Eq m 8388608) with (m ?= 8388608)%positive.
  rewrite (Pos.compare_antisym m 8388608). by destruct (m ?= 8388608)%positive.
Qed.

(** C29: a beat's Alpha is a number, not below zero and below 1, whatever the
    times, even when their difference wraps: rounding never brings it to 1. *)
Theorem alpha_in_unit now deadline step :
  0 < step < 2 ^ 63 →
  SFleb (S754_zero false) (alpha now deadline step) = true ∧ SFltb (alpha now deadline step) one32 = true.
Proof.
  intros Hs. unfold alpha. set (x := SFdiv _ _ _ _). destruct (SFleb one32 (float32 x)) eqn:E; [by vm_compute|].
  assert (Hx : signed false x).
  { unfold x. destruct (float64_pos step) as (m2 & e2 & ->); [lia|].
    destruct (max_zero_duration (i64 (now - deadline))) as [->|(m & e & ->)]; [|done|apply SFdiv_signed].
    unfold int64, i64. pose proof (Z.mod_pos_bound (now - deadline + 2 ^ 63) (2 ^ 64)). lia. }
  destruct (below_one (float32 x)) as [H1 H2]; [|done|done].
  destruct x as [s|s| |s m e]; cbn [float32]; [done..|]. cbn in Hx. subst s. apply binary_round_signed.
Qed.

Lemma alpha_in_unit_witness : SFleb (S754_zero false) (alpha 25 20 10) = true ∧ SFltb (alpha 25 20 10) one32 = true.
Proof. apply (alpha_in_unit 25 20 10). split; reflexivity. Defined.
