(* ===== verification/PublishedTick.v ===== *)
(** * The tick a track shares (publishedTick of metronome/track.go)

    A seqlock of atomic words: the goroutine of a fixed-step track stores the
    tick it has published and its deadline, those of the tracks that
    interpolate against it load the pair, and no lock is taken.  [step]
    interleaves one goroutine that stores and any number that load, one access
    a step.  [history], [since] and [answers] are no part of the code: the
    pairs stored, oldest first, how many were when a load began, and what the
    loads answered. *)

From S2P Require Import Prelude.

Record publishedTick := mkPublishedTick {
  version : N;
  ptick : N;
  pdeadline : Z
}.

(** Inside store, of a tick and its deadline. *)
Inductive storing := OpenVersion | StoreTick | StoreDeadline | CloseVersion.

(** Inside load. *)
Inductive loading :=
  | LoadVersion
  | LoadTick (v : N)
  | LoadDeadline (v n : N)
  | LoadVersionAgain (v n : N) (deadline : Z).

Definition store (p : publishedTick) (n : N) (deadline : Z) (q : storing) : publishedTick * option storing :=
  match q with
  | OpenVersion => (mkPublishedTick (u64 (version p + 1)) (ptick p) (pdeadline p), Some StoreTick)
  | StoreTick => (mkPublishedTick (version p) n (pdeadline p), Some StoreDeadline)
  | StoreDeadline => (mkPublishedTick (version p) (ptick p) deadline, Some CloseVersion)
  | CloseVersion => (mkPublishedTick (u64 (version p + 1)) (ptick p) (pdeadline p), None)
  end.

(** One access of load: where it is next, or what it answers. *)
Definition load (p : publishedTick) (q : loading) : loading + N * Z :=
  match q with
  | LoadVersion => inl (LoadTick (version p))
  | LoadTick v => inl (LoadDeadline v (ptick p))
  | LoadDeadline v n => inl (LoadVersionAgain v n (pdeadline p))
  | LoadVersionAgain v n deadline =>
      if ((v mod 2 =? 0) && (version p =? v))%N then inr (n, deadline) else inl LoadVersion
  end.

Record shared := mkShared {
  word : publishedTick;
  writer : option (N * Z * storing);
  loaders : list (nat * loading);
  history : list (N * Z);
  answers : list (nat * (N * Z))
}.

Definition unpublished : shared := mkShared (mkPublishedTick 0 0 0) None [] [(0%N, 0%Z)] [].

Inductive step : shared → shared → Prop :=
  | step_publish s n deadline :
      writer s = None →
      step s (mkShared (word s) (Some (n, deadline, OpenVersion)) (loaders s) (history s) (answers s))
  | step_store s n deadline q p q' :
      writer s = Some (n, deadline, q) → store (word s) n deadline q = (p, Some q') →
      step s (mkShared p (Some (n, deadline, q')) (loaders s) (history s) (answers s))
  | step_stored s n deadline q p :
      writer s = Some (n, deadline, q) → store (word s) n deadline q = (p, None) →
      step s (mkShared p None (loaders s) (history s ++ [(n, deadline)]) (answers s))
  | step_begin s :
      step s (mkShared (word s) (writer s) ((length (history s), LoadVersion) :: loaders s) (history s) (answers s))
  | step_load s since q q' rest :
      loaders s ≡ₚ (since, q) :: rest → load (word s) q = inl q' →
      step s (mkShared (word s) (writer s) ((since, q') :: rest) (history s) (answers s))
  | step_answer s since q rest a :
      loaders s ≡ₚ (since, q) :: rest → load (word s) q = inr a →
      step s (mkShared (word s) (writer s) rest (history s) ((since, a) :: answers s)).

Inductive reachable : shared → Prop :=
  | reach_unpublished : reachable unpublished
  | reach_step s s' : reachable s → step s s' → reachable s'.

(** ** The invariant *)

(** The last pair stored is number [n], counting from zero. *)
Definition latest (s : shared) : nat := length (history s) - 1.

Definition writer_ok (s : shared) : Prop :=
  ∃ n deadline, history s !! latest s = Some (n, deadline) ∧
  match writer s with
  | None | Some (_, _, OpenVersion) => version (word s) = (2 * N.of_nat (latest s))%N ∧ ptick (word s) = n ∧ pdeadline (word s) = deadline
  | Some (n', d', q) => version (word s) = (2 * N.of_nat (latest s) + 1)%N ∧
      match q with
      | OpenVersion => True
      | StoreTick => ptick (word s) = n ∧ pdeadline (word s) = deadline
      | StoreDeadline => ptick (word s) = n' ∧ pdeadline (word s) = deadline
      | CloseVersion => ptick (word s) = n' ∧ pdeadline (word s) = d'
      end
  end.

(** What a load has read is of one pair, if the version is still the one it
    read, and that one is even. *)
Definition loader_ok (s : shared) (l : nat * loading) : Prop :=
  let '(since, q) := l in
  0 < since ≤ length (history s) ∧
  let seen v P := (2 * N.of_nat (since - 1) ≤ v ≤ version (word s))%N ∧
    ∀ i, v = (2 * N.of_nat i)%N → version (word s) = v → ∃ n deadline, history s !! i = Some (n, deadline) ∧ P n deadline in
  match q with
  | LoadVersion => True
  | LoadTick v => seen v (λ _ _, True)
  | LoadDeadline v n => seen v (λ n' _, n = n')
  | LoadVersionAgain v n deadline => seen v (λ n' deadline', n = n' ∧ deadline = deadline')
  end.

Definition answer_ok (s : shared) (a : nat * (N * Z)) : Prop := ∃ i, a.1 ≤ S i ∧ history s !! i = Some a.2.

Definition inv (s : shared) : Prop :=
  0 < length (history s) ∧ writer_ok s ∧ Forall (loader_ok s) (loaders s) ∧ Forall (answer_ok s) (answers s).

(** The versions fit a word. *)
Definition bounded (s : shared) : Prop := (N.of_nat (length (history s)) < 2 ^ 63)%N.

(** Nothing an access of store does makes what was read of one pair another's. *)
Lemma loaders_keep s s' :
  (version (word s) ≤ version (word s'))%N → history s `prefix_of` history s' →
  Forall (loader_ok s) (loaders s) → loaders s' = loaders s → Forall (loader_ok s') (loaders s').
Proof.
  intros Hv Hh H ->. eapply Forall_impl; [exact H|]. intros [since q] [Hs Hq]. pose proof (prefix_length _ _ Hh).
  split; [lia|].
  assert (Hseen : ∀ v P, (2 * N.of_nat (since - 1) ≤ v ≤ version (word s))%N ∧
    (∀ i, v = (2 * N.of_nat i)%N → version (word s) = v → ∃ n deadline, history s !! i = Some (n, deadline) ∧ P n deadline) →
    (2 * N.of_nat (since - 1) ≤ v ≤ version (word s'))%N ∧
    (∀ i, v = (2 * N.of_nat i)%N → version (word s') = v → ∃ n deadline, history s' !! i = Some (n, deadline) ∧ P n deadline)).
  { intros v P [Hb Hp]. split; [lia|]. intros i E1 E2. assert (E : version (word s) = v) by lia.
    destruct (Hp i E1 E) as (n & d & ? & ?). exists n, d. split; [|done]. by eapply prefix_lookup_Some. }
  destruct q; [done|apply Hseen, Hq..].
Qed.

Lemma answers_keep s s' :
  history s `prefix_of` history s' → Forall (answer_ok s) (answers s) → Forall (answer_ok s') (answers s).
Proof.
  intros Hh H. eapply Forall_impl; [exact H|]. intros a (i & ? & ?). exists i. split; [done|]. by eapply prefix_lookup_Some.
Qed.

Lemma u64_next n : (n + 1 < 2 ^ 64)%N → u64 (n + 1) = (n + 1)%N.
Proof. intros H. unfold u64. by apply N.mod_small. Qed.

(** Whoever loads sees the latest pair while the version is even. *)
Lemma even_latest s i :
  writer_ok s → version (word s) = (2 * N.of_nat i)%N →
  i = latest s ∧ history s !! i = Some (ptick (word s), pdeadline (word s)).
Proof.
  intros (n & d & Hl & Hw) Hv.
  destruct (writer s) as [[[n' d'] []]|]; destruct Hw as [E Hw]; try lia; destruct Hw as [<- <-];
    assert (i = latest s) as -> by lia; done.
Qed.

Lemma loader_step s since q q' :
  inv s → loader_ok s (since, q) → load (word s) q = inl q' → loader_ok s (since, q').
Proof.
  intros (Hlen & Hw & _) [Hs Hq] E. split; [done|].
  assert (Hlatest : ∀ i, version (word s) = (2 * N.of_nat i)%N →
    history s !! i = Some (ptick (word s), pdeadline (word s))) by (intros i Hi; by apply even_latest).
  destruct q as [|v|v n|v n d]; cbn [load] in E.
  - injection E as <-. split.
    + destruct Hw as (n & d & Hl & Hw). apply lookup_lt_Some in Hl as Hlt. unfold latest in *.
      destruct (writer s) as [[[n' d'] []]|]; destruct Hw as [E _]; lia.
    + intros i E1 _. do 2 eexists. split; [by apply Hlatest|done].
  - injection E as <-. destruct Hq as [Hb Hp]. split; [done|]. intros i E1 E2. do 2 eexists.
    split; [apply Hlatest; by rewrite E2|done].
  - injection E as <-. destruct Hq as [Hb Hp]. split; [done|]. intros i E1 E2.
    destruct (Hp i E1 E2) as (n' & d' & Hi & ->). exists n', d'. split; [done|]. split; [done|].
    rewrite (Hlatest i) in Hi by (by rewrite E2). by injection Hi.
  - destruct (_ && _); [done|]. by injection E as <-.
Qed.

Lemma load_answer s since q a : loader_ok s (since, q) → load (word s) q = inr a → answer_ok s (since, a).
Proof.
  intros [Hs Hq] E. destruct q as [|v|v n|v n d]; try done. cbn [load] in E.
  destruct (_ && _) eqn:Eb; [|done]. injection E as <-. apply andb_true_iff in Eb as [Ev%N.eqb_eq E2%N.eqb_eq].
  destruct Hq as [Hb Hp]. assert (E1 : v = (2 * N.of_nat (N.to_nat (v / 2)))%N).
  { rewrite N2Nat.id. pose proof (N.div_mod v 2). lia. }
  destruct (Hp _ E1 E2) as (n' & d' & Hi & -> & ->). exists (N.to_nat (v / 2)). cbn. split; [lia|done].
Qed.

Lemma step_inv s s' : inv s → bounded s' → step s s' → inv s'.
Proof.
  intros H Hb Hstep. pose proof H as (Hlen & Hw & Hl & Ha). unfold bounded in Hb.
  assert (Hver : (version (word s) ≤ 2 * N.of_nat (latest s) + 1)%N).
  { destruct Hw as (n & d & _ & Hw). destruct (writer s) as [[[n' d'] []]|]; destruct Hw as [E _]; lia. }
  destruct Hstep as [s n d Ew|s n d q p q' Ew E|s n d q p Ew E|s|s since q q' rest Hp E|s since q rest a Hp E]; cbn in Hb.
  - split_and!; [done| |done|done]. destruct Hw as (n0 & d0 & Hi & Hw). rewrite Ew in Hw. exists n0, d0. by split.
  - destruct Hw as (n0 & d0 & Hi & Hw). rewrite Ew in Hw. unfold latest in *.
    assert (Hv : (version (word s) ≤ version p)%N).
    { destruct q; cbn in E; simplify_eq; cbn; destruct Hw as [Ev Hw]; rewrite ?u64_next; lia. }
    split_and!; [done| |by eapply loaders_keep|done]. exists n0, d0. split; [done|].
    destruct q; cbn in E; simplify_eq; cbn; destruct Hw as [Ev Hw]; rewrite ?u64_next by lia; (split; [lia|tauto]).
  - destruct Hw as (n0 & d0 & Hi & Hw). rewrite Ew in Hw. destruct q; cbn in E; simplify_eq. destruct Hw as [Ev [E1 E2]].
    rewrite length_app in Hb. cbn in Hb. unfold latest in *.
    assert (Hpre : history s `prefix_of` history s ++ [(n, d)]) by (by apply prefix_app_r).
    split_and!.
    + cbn. rewrite length_app. lia.
    + exists n, d. cbn. unfold latest. cbn. rewrite length_app. cbn. rewrite u64_next by lia.
      split_and!; [by rewrite lookup_app_r, Nat.add_sub, Nat.sub_diag by lia|lia|done|done].
    + eapply loaders_keep; [..|exact Hl|done]; cbn; [rewrite u64_next by lia; lia|done].
    + by apply (answers_keep s).
  - split_and!; [done|done| |done]. constructor; [|done]. split; [cbn; lia|done].
  - rewrite Hp in Hl. apply Forall_cons in Hl as [Hq Hl].
    split_and!; [done|done| |done]. constructor; [|done]. by apply (loader_step s since q q').
  - rewrite Hp in Hl. apply Forall_cons in Hl as [Hq Hl].
    split_and!; [done|done|done|]. constructor; [|done]. by apply (load_answer s since q a).
Qed.

Lemma step_history s s' : step s s' → length (history s) ≤ length (history s').
Proof. destruct 1; cbn; rewrite ?length_app; lia. Qed.

Lemma reachable_inv s : reachable s → bounded s → inv s.
Proof.
  induction 1 as [|s s' _ IH Hs]; intros Hb.
  - split_and!; [cbn; lia|by exists 0%N, 0%Z|constructor|constructor].
  - eapply step_inv; [|exact Hb|exact Hs]. apply IH. apply step_history in Hs. unfold bounded in *. lia.
Qed.

(** A load that no store interleaves. *)
Definition load_alone (p : publishedTick) : option (N * Z) :=
  match load p LoadVersion with
  | inr a => Some a
  | inl q =>
      match load p q with
      | inr a => Some a
      | inl q =>
          match load p q with
          | inr a => Some a
          | inl q => match load p q with inr a => Some a | inl _ => None end
          end
      end
  end.

(** C25: without a lock, every load answers one pair as it was stored, never
    the tick of one with the deadline of another, and one no older than the
    last stored when the load began; and a load no store is under way in
    answers the last pair at once. *)
Theorem loads_answer_pairs s :
  reachable s → bounded s →
  (∀ since a, (since, a) ∈ answers s → ∃ i, since ≤ S i ∧ history s !! i = Some a) ∧
  (writer s = None → load_alone (word s) = last (history s)).
Proof.
  intros Hr Hb. destruct (reachable_inv s Hr Hb) as (Hlen & Hw & _ & Ha). split.
  - intros since a Hin. rewrite Forall_forall in Ha. by destruct (Ha _ Hin) as (i & ? & ?); exists i.
  - intros Ew. destruct Hw as (n & d & Hi & Hw). rewrite Ew in Hw. destruct Hw as (Ev & En & Ed).
    unfold load_alone, load. rewrite N.eqb_refl, Ev, N.mul_comm, N.Div0.mod_mul. cbn [N.eqb andb].
    rewrite En, Ed, last_lookup. unfold latest in Hi. rewrite <- Hi. f_equal. lia.
Qed.

Lemma loads_answer_pairs_witness :
  let s := mkShared (mkPublishedTick 2 1 10) None [] [(0%N, 0%Z); (1%N, 10%Z)] [(2, (1%N, 10%Z))] in
  (∃ i, 2 ≤ S i ∧ history s !! i = Some (1%N, 10%Z)) ∧ load_alone (word s) = last (history s).
Proof.
  set (s v n d w l h a := mkShared (mkPublishedTick v n d) w l h a).
  pose (h0 := [(0%N, 0%Z)]). pose (h1 := [(0%N, 0%Z); (1%N, 10%Z)]). pose (pending (q : storing) := Some (1%N, 10%Z, q)).
  assert (H : reachable (s 0%N 0%N 0%Z (pending OpenVersion) [] h0 [])).
  { eapply reach_step; [apply reach_unpublished|]. by apply (step_publish unpublished 1 10). }
  assert (H1 : reachable (s 1%N 0%N 0%Z (pending StoreTick) [] h0 [])).
  { eapply reach_step; [exact H|]. by eapply (step_store (s 0%N 0%N 0%Z (pending OpenVersion) [] h0 [])). }
  assert (H2 : reachable (s 1%N 1%N 0%Z (pending StoreDeadline) [] h0 [])).
  { eapply reach_step; [exact H1|]. by eapply (step_store (s 1%N 0%N 0%Z (pending StoreTick) [] h0 [])). }
  assert (H3 : reachable (s 1%N 1%N 10%Z (pending CloseVersion) [] h0 [])).
  { eapply reach_step; [exact H2|]. by eapply (step_store (s 1%N 1%N 0%Z (pending StoreDeadline) [] h0 [])). }
  assert (H4 : reachable (s 2%N 1%N 10%Z None [] h1 [])).
  { eapply reach_step; [exact H3|]. by eapply (step_stored (s 1%N 1%N 10%Z (pending CloseVersion) [] h0 [])). }
  assert (H5 : reachable (s 2%N 1%N 10%Z None [(2, LoadVersion)] h1 [])).
  { eapply reach_step; [exact H4|]. by eapply (step_begin (s 2%N 1%N 10%Z None [] h1 [])). }
  assert (H6 : reachable (s 2%N 1%N 10%Z None [(2, LoadTick 2)] h1 [])).
  { eapply reach_step; [exact H5|]. eapply (step_load (s 2%N 1%N 10%Z None [(2, LoadVersion)] h1 [])); [apply Permutation_refl|reflexivity]. }
  assert (H7 : reachable (s 2%N 1%N 10%Z None [(2, LoadDeadline 2 1)] h1 [])).
  { eapply reach_step; [exact H6|]. eapply (step_load (s 2%N 1%N 10%Z None [(2, LoadTick 2)] h1 [])); [apply Permutation_refl|reflexivity]. }
  assert (H8 : reachable (s 2%N 1%N 10%Z None [(2, LoadVersionAgain 2 1 10)] h1 [])).
  { eapply reach_step; [exact H7|]. eapply (step_load (s 2%N 1%N 10%Z None [(2, LoadDeadline 2 1)] h1 [])); [apply Permutation_refl|reflexivity]. }
  assert (H9 : reachable (s 2%N 1%N 10%Z None [] h1 [(2, (1%N, 10%Z))])).
  { eapply reach_step; [exact H8|]. eapply (step_answer (s 2%N 1%N 10%Z None [(2, LoadVersionAgain 2 1 10)] h1 [])); [apply Permutation_refl|reflexivity]. }
  destruct (loads_answer_pairs _ H9) as [Ha Hl]; [vm_compute; reflexivity|]. split.
  - apply (Ha 2 (1%N, 10%Z)). apply list_elem_of_here.
  - apply Hl. reflexivity.
Defined.
