(* ===== verification/ManualClock.v ===== *)
(** * The clock driven by hand (metronome/manualclock.go)

    Its mutex makes each operation one step, so an operation is a function of
    the clock's state.  A timer is its place in the clock's list; its channel
    holds one value or none.  Advance, which waits between two moves, is
    [next_move] here and a sequence of steps in [Metronome]. *)

From S2P Require Import Prelude.

Record manualTimer := mkTimer {
  channel : bool;
  tdeadline : Z;
  tarmed : bool;
  variable : bool;
  fired : bool
}.

Record ManualClock := mkClock {
  now : Z;
  timers : list manualTimer;
  lengthenings : gmap N (list Z)
}.

Definition NewManualClock : ManualClock := mkClock 0 [] ∅.

Definition with_timers (c : ManualClock) (l : list manualTimer) : ManualClock := mkClock (now c) l (lengthenings c).

(** ** Timers *)

(** A fire: a value already in the channel absorbs it. *)
Definition fire (t : manualTimer) : manualTimer := mkTimer true (tdeadline t) false (variable t) true.

Definition NewTimer (c : ManualClock) : ManualClock * nat :=
  (with_timers c (timers c ++ [mkTimer false 0 false false false]), length (timers c)).

Definition newVariableTimer (c : ManualClock) : ManualClock * nat :=
  (with_timers c (timers c ++ [mkTimer false 0 false true false]), length (timers c)).

Definition timer_reset (n : Z) (t : manualTimer) (at_ : Z) : manualTimer :=
  let t := mkTimer (channel t) at_ true (variable t) false in
  if negb (variable t) && (at_ <=? n)%Z then fire t else t.

Definition Reset (c : ManualClock) (i : nat) (at_ : Z) : option ManualClock :=
  t ← timers c !! i; Some (with_timers c (<[i := timer_reset (now c) t at_]> (timers c))).

(** Reads the clock and arms a variable timer [interval] after it. *)
Definition rearm (c : ManualClock) (i : nat) (interval : Z) : option (ManualClock * Z) :=
  t ← timers c !! i;
  Some (with_timers c (<[i := mkTimer (channel t) (i64 (now c + interval)) true (variable t) false]> (timers c)), now c).

Definition timer_stop (c : ManualClock) (i : nat) : option ManualClock :=
  t ← timers c !! i;
  Some (with_timers c (<[i := mkTimer false (tdeadline t) false (variable t) false]> (timers c))).

Definition pending (c : ManualClock) (i : nat) : option bool := fired <$> timers c !! i.

(** A value is received from a timer's channel. *)
Definition take_fire (c : ManualClock) (i : nat) : option ManualClock :=
  t ← timers c !! i;
  if channel t
  then Some (with_timers c (<[i := mkTimer false (tdeadline t) (tarmed t) (variable t) (fired t)]> (timers c)))
  else None.

(** ** Time *)

Definition is_due (v : bool) (n : Z) (t : manualTimer) : bool :=
  Bool.eqb (variable t) v && tarmed t && (tdeadline t <=? n)%Z.

Definition fire_due (v : bool) (n : Z) (t : manualTimer) : manualTimer := if is_due v n t then fire t else t.

Definition fireDue (c : ManualClock) : ManualClock := with_timers c (fire_due false (now c) <$> timers c).
Definition fireVariable (c : ManualClock) : ManualClock := with_timers c (fire_due true (now c) <$> timers c).

(** The earliest deadline of an armed fixed-step timer no later than [target]. *)
Definition nextDeadline (c : ManualClock) (target : Z) : option Z :=
  let '(next, found) :=
    foldl (λ '(next, found) t, if is_due false next t then (tdeadline t, true) else (next, found))
      (target, false) (timers c) in
  if found : bool then Some next else None.

Definition set_now (c : ManualClock) (n : Z) : ManualClock := mkClock n (timers c) (lengthenings c).

(** What Advance does each time it has waited: to the next deadline, or, with
    none left, to the target.  [true] is the last move. *)
Definition next_move (c : ManualClock) (target : Z) : ManualClock * bool :=
  match nextDeadline c target with
  | Some next => (fireDue (set_now c next), false)
  | None => (fireVariable (set_now c target), true)
  end.

Definition Jump (c : ManualClock) (d : Z) : option ManualClock :=
  if (d <? 0)%Z then None else Some (fireVariable (fireDue (set_now c (i64 (now c + d))))).

(** ** Stopwatches *)

Record manualStopwatch := mkStopwatch {
  name : N;
  startedAt : Z;
  lengthening : Z;
  started : bool
}.

Definition NewStopwatch (n : N) : manualStopwatch := mkStopwatch n 0 0 false.

Definition LengthenNext (c : ManualClock) (n : N) (d : Z) : option ManualClock :=
  if (d <? 0)%Z then None
  else Some (mkClock (now c) (timers c) (<[n := default [] (lengthenings c !! n) ++ [d]]> (lengthenings c))).

Definition Start (c : ManualClock) (s : manualStopwatch) : ManualClock * manualStopwatch :=
  match default [] (lengthenings c !! name s) with
  | [] => (c, mkStopwatch (name s) (now c) 0 true)
  | d :: queued =>
      (mkClock (now c) (timers c) (<[name s := queued]> (lengthenings c)), mkStopwatch (name s) (now c) d true)
  end.

Definition Elapsed (c : ManualClock) (s : manualStopwatch) : Z :=
  if started s then i64 (i64 (now c - startedAt s) + lengthening s) else 0%Z.

(** ** Lemmas *)

Lemma is_due_spec v n t : is_due v n t = true ↔ variable t = v ∧ tarmed t = true ∧ (tdeadline t ≤ n)%Z.
Proof. unfold is_due. rewrite !andb_true_iff, Bool.eqb_true_iff, Z.leb_le. tauto. Qed.

(** The deadline found is one of an armed fixed-step timer, and the least. *)
Lemma nextDeadline_spec c target :
  match nextDeadline c target with
  | Some next =>
      (next ≤ target)%Z ∧ (∃ t, t ∈ timers c ∧ is_due false target t = true ∧ tdeadline t = next) ∧
      ∀ t, t ∈ timers c → variable t = false → tarmed t = true → (next ≤ tdeadline t)%Z
  | None => ∀ t, t ∈ timers c → variable t = false → tarmed t = true → (target < tdeadline t)%Z
  end.
Proof.
  unfold nextDeadline.
  assert (H : ∀ l next found,
    let '(next', found') := foldl (λ '(next, found) t, if is_due false next t then (tdeadline t, true) else (next, found)) (next, found) l in
    (next' ≤ next)%Z ∧ (found = true → found' = true) ∧
    (found' = false → next' = next) ∧
    (found' = true → found = true ∧ next' = next ∨ ∃ t, t ∈ l ∧ variable t = false ∧ tarmed t = true ∧ tdeadline t = next') ∧
    ∀ t, t ∈ l → variable t = false → tarmed t = true → (next' ≤ tdeadline t)%Z ∧ (found' = false → (next' < tdeadline t)%Z)).
  { induction l as [|t l IH]; intros next found; cbn [foldl].
    - split_and!; [done|done|done|by left|intros t Ht; by apply not_elem_of_nil in Ht].
    - destruct (is_due false next t) eqn:E.
      + apply is_due_spec in E as (Ev & Ea & Ed). specialize (IH (tdeadline t) true).
        destruct (foldl _ _ l) as [next' found']. destruct IH as (I1 & I2 & I3 & I4 & I5). split_and!.
        * lia.
        * intros _. by apply I2.
        * intros Ef. by rewrite I2 in Ef.
        * intros Ef. right. destruct (I4 Ef) as [[_ ->]|(x & Hx & ?)]; [exists t; split; [by left|done]|].
          exists x. split; [by right|done].
        * intros x [->|Hx]%elem_of_cons Hv Ha; [|by apply I5]. split; [lia|]. intros Ef. by rewrite I2 in Ef.
      + specialize (IH next found). destruct (foldl _ _ l) as [next' found']. destruct IH as (I1 & I2 & I3 & I4 & I5). split_and!.
        * done.
        * done.
        * done.
        * intros Ef. destruct (I4 Ef) as [?|(x & Hx & ?)]; [by left|right]. exists x. split; [by right|done].
        * intros x [->|Hx]%elem_of_cons Hv Ha; [|by apply I5].
          assert (next < tdeadline t)%Z; [|lia]. destruct (Z.leb_spec (tdeadline t) next) as [Hl|]; [|done].
          unfold is_due in E. rewrite Hv, Ha, (proj2 (Z.leb_le _ _) Hl) in E. done. }
  specialize (H (timers c) target false). destruct (foldl _ _ _) as [next found]. destruct H as (I1 & _ & I3 & I4 & I5).
  destruct found.
  - split; [done|]. split; [|intros t Ht Hv Ha; by apply I5].
    destruct (I4 eq_refl) as [[? _]|(t & Ht & Hv & Ha & <-)]; [done|]. exists t. split_and!; [done| |done].
    apply is_due_spec. split_and!; done.
  - rewrite I3 in I5 by done. intros t Ht Hv Ha. by apply I5.
Qed.

Lemma timer_reset_variable n t at_ : variable (timer_reset n t at_) = variable t.
Proof. unfold timer_reset. by case_match. Qed.

Lemma fire_due_variable v n t : variable (fire_due v n t) = variable t.
Proof. unfold fire_due. by case_match. Qed.
