(* ===== verification/Metronome.v ===== *)
(** * The plugin of metronome/plugin.go, on a ManualClock

    Init and Start make the tracks of a Config; [step] then interleaves their
    goroutines (run and publishDue of track.go, between two accesses to what
    they share), the publications that finish, and whoever moves the clock:
    one Advance at a time, which waits for the tracks to settle between two
    moves, Jumps, and Stop.  The seqlock of a reference track is read as one
    step, which [PublishedTick] shows it may be.  A beat's [Publishing],
    [Arming] and [Rearming] are what is left of publishDue and run once the
    plugin's mutex is given up. *)

From S2P Require Import Prelude Track TrackRun ManualClock.

(** Init: two tracks of one event type are a panic. *)
Definition init_one (tracks : list goroutine) (d : Track) : option (list goroutine) :=
  if existsb (λ g, eventType (gtrack g) =? declaredType d)%N tracks then None
  else Some (tracks ++ [TrackRun.started d]).

Fixpoint Init (tracks : list goroutine) (declared : list Track) : option (list goroutine) :=
  match declared with
  | [] => Some tracks
  | d :: declared => tracks ← init_one tracks d; Init tracks declared
  end.

(** The last fixed-step track of the event type named, as the loop leaves it. *)
Definition is_reference (e : N) (g : goroutine) : bool :=
  (eventType (gtrack g) =? e)%N && (0 <? Step (settings (gtrack g)))%Z.

Definition find_reference (tracks : list goroutine) (e : N) : option nat :=
  foldl (λ found '(i, g), if is_reference e g then Some i else found) None (imap pair tracks).

Definition with_track (g : goroutine) (t : track) : goroutine :=
  mkGoroutine t (deadlineReached g) (values g) (armed g) (made g) (beats g).

Definition resolve_reference (tracks : list goroutine) (g : goroutine) : option goroutine :=
  match InterpolateAgainst (settings (gtrack g)) with
  | None => Some g
  | Some e => i ← find_reference tracks e; Some (with_track g (set_reference (gtrack g) (Some i)))
  end.

(** Start makes a track's timer, arms it and lets its goroutine run. *)
Definition start_track (c : ManualClock) (g : goroutine) : option (ManualClock * goroutine) :=
  let '(c, i) := if (Step (settings (gtrack g)) =? 0)%Z then newVariableTimer c else NewTimer c in
  c ← Reset c i (Track.nextDeadline (gtrack g));
  Some (c, with_track g (set_running (gtrack g) true)).

Fixpoint start_tracks (c : ManualClock) (tracks : list goroutine) : option (ManualClock * list goroutine) :=
  match tracks with
  | [] => Some (c, [])
  | g :: tracks => '(c, g) ← start_track c g; '(c, tracks) ← start_tracks c tracks; Some (c, g :: tracks)
  end.

(** ** The system *)

Inductive place :=
  | Waiting
  | Checking
  | Publishing (b : Beat) (signal : N) (rearmed : bool)
  | Arming (signal : N) (rearmed : bool)
  | Rearming (rearmed : bool)
  | Ending
  | Ended.

(** Where Advance is: waiting before a move, about to move, waiting at its
    target. *)
Inductive moving := Idle | WaitStep (target : Z) | Move (target : Z) | WaitEnd.

(** [jumped] and [moves] are no part of the code: whether Jump was called, and
    how often the clock was brought to a target. *)
Record system := mkSystem {
  clock : ManualClock;
  tracks : list (goroutine * place);
  advance : moving;
  stopping : bool;
  jumped : bool;
  moves : nat
}.

Definition with_clock (s : system) (c : ManualClock) : system :=
  mkSystem c (tracks s) (advance s) (stopping s) (jumped s) (moves s).
Definition with_tracks (s : system) (l : list (goroutine * place)) : system :=
  mkSystem (clock s) l (advance s) (stopping s) (jumped s) (moves s).
Definition with_advance (s : system) (a : moving) : system :=
  mkSystem (clock s) (tracks s) a (stopping s) (jumped s) (moves s).

Definition put (s : system) (i : nat) (g : goroutine) (p : place) : system := with_tracks s (<[i := (g, p)]> (tracks s)).

Definition spawn (declared : list Track) : option system :=
  l ← Init [] declared;
  l ← mapM (resolve_reference l) l;
  '(c, l) ← start_tracks NewManualClock l;
  Some (mkSystem c ((λ g, (g, Waiting)) <$> l) Idle false false 0).

(** The tick the reference track last published, and its step. *)
Definition reference_of (s : system) (t : track) : option (option (Z * (N * Z))) :=
  match reference t with
  | None => Some None
  | Some r => '(g, _) ← tracks s !! r; Some (Some (Step (settings (gtrack g)), published (gtrack g)))
  end.

(** The time publishDue reads: a variable track rearms its timer as it does. *)
Definition read_time (c : ManualClock) (i : nat) (t : track) : option (ManualClock * Z * bool) :=
  if (Step (settings t) =? 0)%Z
  then '(c, n) ← rearm c i (MinInterval (settings t)); Some (c, n, true)
  else Some (c, now c, false).

(** publishDue while it holds the mutex. *)
Definition begin_beat (s : system) (i : nat) (g : goroutine) : option system :=
  let t := gtrack g in
  ref ← reference_of s t;
  '(c, n, rearmed) ← read_time (clock s) i t;
  let grown := if decide (inFlightCount t = length (signals t)) then length (signals t) else 0 in
  '(t', b, signal) ← publishDue t n ref (new_signals (made g) grown);
  Some (put (with_clock s c) i
          (mkGoroutine t' (deadlineReached g) (values g) (armed g) (made g + N.of_nat grown)
             ((n, Track.nextDeadline t, b) :: beats g))
          (Publishing b signal rearmed)).

Definition set_reached (g : goroutine) (b : bool) : goroutine :=
  mkGoroutine (gtrack g) b (values g) (armed g) (made g) (beats g).

Definition arm_signal (g : goroutine) (signal : N) : goroutine :=
  mkGoroutine (gtrack g) (deadlineReached g) (values g) (armed g ++ [signal]) (made g) (beats g).

(** One step of a goroutine that does not wait. *)
Definition exec (s : system) (i : nat) : option system :=
  '(g, p) ← tracks s !! i;
  match p with
  | Waiting | Ended => None
  | Checking =>
      if deadlineReached g && slot_free (gtrack g) then begin_beat s i g else Some (put s i g Waiting)
  | Publishing b signal rearmed => Some (put s i (with_track g (share (gtrack g) b)) (Arming signal rearmed))
  | Arming signal rearmed => Some (put s i (arm_signal g signal) (Rearming rearmed))
  | Rearming rearmed =>
      c ← (if rearmed : bool then Some (clock s) else Reset (clock s) i (Track.nextDeadline (gtrack g)));
      Some (put (with_clock s c) i (set_reached g false) Waiting)
  | Ending => Some (put s i (with_track g (set_running (gtrack g) false)) Ended)
  end.

(** Whether a track has settled: none of its beats in flight, none owed. *)
Definition track_settled (c : ManualClock) (i : nat) (g : goroutine) : bool :=
  let t := gtrack g in
  negb (running t) || negb ((0 <? inFlightCount t) || owes t (now c) (pending c i)).

Definition settled (s : system) : bool :=
  forallb (λ '(i, (g, _)), track_settled (clock s) i g) (imap pair (tracks s)).

(** Stop takes the wait callback back, and then nothing is waited for. *)
Definition waited (s : system) : bool := stopping s || settled s.

(** The time stays below 146 years, so no duration wraps. *)
Inductive step : system → system → Prop :=
  | step_exec s i s' : exec s i = Some s' → step s s'
  | step_fired s i g c :
      tracks s !! i = Some (g, Waiting) → deadlineReached g = false → take_fire (clock s) i = Some c →
      step s (put (with_clock s c) i (set_reached g true) Checking)
  | step_finished s i g signal :
      tracks s !! i = Some (g, Waiting) → 0 < inFlightCount (gtrack g) →
      signals (gtrack g) !! oldestSignal (gtrack g) = Some signal → signal ∈ values g →
      step s (put s i (receive g signal) Checking)
  | step_sent s i g p before signal after :
      tracks s !! i = Some (g, p) → armed g = before ++ signal :: after →
      step s (put s i (mkGoroutine (gtrack g) (deadlineReached g) (send (values g) signal) (before ++ after) (made g) (beats g)) p)
  | step_ending s i g c :
      stopping s = true → tracks s !! i = Some (g, Waiting) → timer_stop (clock s) i = Some c →
      step s (put (with_clock s c) i g Ending)
  | step_stop s : step s (mkSystem (clock s) (tracks s) (advance s) true (jumped s) (moves s))
  | step_advance s d :
      advance s = Idle → (0 ≤ d)%Z → (0 ≤ now (clock s) + d < 2 ^ 62)%Z →
      step s (with_advance s (WaitStep (i64 (now (clock s) + d))))
  | step_wait s target :
      advance s = WaitStep target → waited s = true → step s (with_advance s (Move target))
  | step_move s target c done :
      advance s = Move target → next_move (clock s) target = (c, done) →
      step s (mkSystem c (tracks s) (if done : bool then WaitEnd else WaitStep target) (stopping s) (jumped s)
                (if done then S (moves s) else moves s))
  | step_end s :
      advance s = WaitEnd → waited s = true → step s (with_advance s Idle)
  | step_jump s d c :
      (0 ≤ now (clock s) + d < 2 ^ 62)%Z → Jump (clock s) d = Some c →
      step s (mkSystem c (tracks s) (advance s) (stopping s) true (S (moves s))).

Inductive reachable (declared : list Track) : system → Prop :=
  | reach_spawn s : spawn declared = Some s → reachable declared s
  | reach_step s s' : reachable declared s → step s s' → reachable declared s'.

(** ** Executions as data *)

(** The [i]th track makes a step, receives a fire, or a finish; the oldest of
    its beats armed finishes; Advance is called, and makes its next step; Jump
    is called. *)
Inductive action :=
  | Runs (i : nat)
  | Fires (i : nat)
  | Finishes (i : nat)
  | Sends (i : nat)
  | Advances (d : Z)
  | Proceeds
  | Jumps (d : Z).

Definition proceed (s : system) : option system :=
  match advance s with
  | Idle => None
  | WaitStep target => if waited s then Some (with_advance s (Move target)) else None
  | Move target =>
      let '(c, done) := next_move (clock s) target in
      Some (mkSystem c (tracks s) (if done : bool then WaitEnd else WaitStep target) (stopping s) (jumped s)
              (if done then S (moves s) else moves s))
  | WaitEnd => if waited s then Some (with_advance s Idle) else None
  end.

Definition happens (s : system) (a : action) : option system :=
  match a with
  | Runs i => exec s i
  | Fires i =>
      '(g, p) ← tracks s !! i;
      match p with
      | Waiting =>
          if deadlineReached g then None
          else c ← take_fire (clock s) i; Some (put (with_clock s c) i (set_reached g true) Checking)
      | _ => None
      end
  | Finishes i =>
      '(g, p) ← tracks s !! i;
      match p with
      | Waiting =>
          signal ← signals (gtrack g) !! oldestSignal (gtrack g);
          if decide (0 < inFlightCount (gtrack g) ∧ signal ∈ values g)
          then Some (put s i (receive g signal) Checking) else None
      | _ => None
      end
  | Sends i =>
      '(g, p) ← tracks s !! i;
      match armed g with
      | [] => None
      | signal :: rest =>
          Some (put s i (mkGoroutine (gtrack g) (deadlineReached g) (send (values g) signal) rest (made g) (beats g)) p)
      end
  | Advances d =>
      match advance s with
      | Idle =>
          if decide (0 ≤ d ∧ 0 ≤ now (clock s) + d < 2 ^ 62)%Z
          then Some (with_advance s (WaitStep (i64 (now (clock s) + d)))) else None
      | _ => None
      end
  | Proceeds => proceed s
  | Jumps d =>
      if decide (0 ≤ now (clock s) + d < 2 ^ 62)%Z
      then c ← Jump (clock s) d; Some (mkSystem c (tracks s) (advance s) (stopping s) true (S (moves s)))
      else None
  end.

Fixpoint play (s : system) (l : list action) : option system :=
  match l with
  | [] => Some s
  | a :: l => s' ← happens s a; play s' l
  end.

Lemma metronome_happens_step s a s' : happens s a = Some s' → step s s'.
Proof.
  destruct a as [i|i|i|i|d| |d]; cbn [happens].
  - apply step_exec.
  - intros ([g p] & Hi & E)%bind_Some. destruct p; try done. destruct (deadlineReached g) eqn:Hr; [done|].
    apply bind_Some in E as (c & Hc & [= <-]). by apply step_fired.
  - intros ([g p] & Hi & E)%bind_Some. destruct p; try done. apply bind_Some in E as (signal & Hs & E).
    case_decide as Hd; [|done]. injection E as <-. destruct Hd. by apply step_finished.
  - intros ([g p] & Hi & E)%bind_Some. destruct (armed g) as [|signal rest] eqn:Ha; [done|]. injection E as <-.
    by apply (step_sent s i g p [] signal rest).
  - destruct (advance s) eqn:Ea; try done. case_decide as Hd; [|done]. destruct Hd. intros [= <-]. by apply step_advance.
  - unfold proceed. destruct (advance s) eqn:Ea; try done.
    + destruct (waited s) eqn:Ew; [|done]. intros [= <-]. by apply step_wait.
    + destruct (next_move _ _) as [c done] eqn:En. intros [= <-]. by apply step_move.
    + destruct (waited s) eqn:Ew; [|done]. intros [= <-]. by apply step_end.
  - case_decide as Hd; [|done]. intros (c & Hc & [= <-])%bind_Some. by apply (step_jump s d).
Qed.

Lemma metronome_play_reachable declared l s s' : reachable declared s → play s l = Some s' → reachable declared s'.
Proof.
  revert s. induction l as [|a l IH]; intros s Hs; cbn [play]; [by intros [= <-]|].
  intros (s1 & E & Hp)%bind_Some. eapply IH, Hp. eapply reach_step; [exact Hs|by apply metronome_happens_step in E].
Qed.

(** A beat of the [i]th track, from the fire of its timer to the finish of its
    publication. *)
Definition whole_beat (i : nat) : list action :=
  [Fires i; Runs i; Runs i; Runs i; Runs i; Sends i; Finishes i; Runs i].
