(* ===== verification/MetronomeHistory.v ===== *)
(** * Beats on a ManualClock

    [track_ok] relates a track's timer, goroutine and place to the time: a
    fixed-step track has published every step up to now and waits for the
    next, as long as only Advance moved the clock; a variable track has beaten
    once for each move that fired its timer.  One lemma for each thing a track
    does and each move of the clock; then every step of the system keeps
    [inv], and the theorems: moved by Advance, a clock lets every fixed-step
    track publish each step at its deadline and none late, and a variable
    track beats at most once a move.  The fixed-step tracks are those without
    a MinInterval ([well_paced]): Init adds one to the first deadline, which
    is then not a step's ([TrackPacing.first_deadline_late]). *)

From S2P Require Import Prelude Track TrackRun TrackPacing ManualClock Metronome.

#[local] Open Scope Z_scope.

(** Each beat is published at its deadline, none is skipped. *)
Definition on_deadline (step n deadline : Z) (b : Beat) (before : list (Z * Z * Beat)) : Prop :=
  n = deadline ∧ deadline = (Z.of_nat (length before) + 1) * step ∧ TimeFromStart b = deadline ∧ Lost b = 0 ∧
  Z.of_N (Tick b) = Z.of_nat (length before) + 1.

Definition fixed_place (n : Z) (tm : manualTimer) (g : goroutine) (p : place) : Prop :=
  let D := Track.nextDeadline (gtrack g) in
  match p with
  | Waiting | Checking =>
      if deadlineReached g then tarmed tm = false ∧ channel tm = false ∧ n = D
      else tarmed tm = true ∧ channel tm = false ∧ tdeadline tm = D ∧ n < D ∨
           tarmed tm = false ∧ channel tm = true ∧ n = D
  | Publishing _ _ r | Arming _ r | Rearming r =>
      tarmed tm = false ∧ channel tm = false ∧ n < D ∧ (0 < inFlightCount (gtrack g))%nat ∧ r = false
  | Ending | Ended => False
  end.

Record fixed_ok (n : Z) (tm : manualTimer) (g : goroutine) (p : place) : Prop := {
  fx_step : Step (settings (gtrack g)) < 2 ^ 62;
  fx_cap : 1 ≤ MaxDebt (settings (gtrack g));
  fx_interval : MinInterval (settings (gtrack g)) = 0;
  fx_pace : pace_ok (gtrack g) (beats g);
  fx_tick : tick (gtrack g) = stepCount (gtrack g);
  fx_count : stepCount (gtrack g) = N.of_nat (length (beats g));
  fx_beats : each_beat (on_deadline (Step (settings (gtrack g)))) (beats g);
  fx_past : Z.of_N (stepCount (gtrack g)) * Step (settings (gtrack g)) ≤ n;
  fx_place : fixed_place n tm g p
}.

Definition variable_place (tm : manualTimer) (g : goroutine) (p : place) : Prop :=
  match p with
  | Waiting | Checking =>
      (channel tm = true ∨ deadlineReached g = true → fired tm = true) ∧
      (deadlineReached g = true → channel tm = false)
  | Publishing _ _ r | Arming _ r | Rearming r =>
      (0 < inFlightCount (gtrack g))%nat ∧ r = true ∧ (channel tm = true → fired tm = true)
  | Ending | Ended => False
  end.

Definition variable_ok (m : nat) (tm : manualTimer) (g : goroutine) (p : place) : Prop :=
  (length (beats g) + (if fired tm then 1 else 0) ≤ m)%nat ∧ tarmed tm = negb (fired tm) ∧ variable_place tm g p.

(** [j] is whether Jump was called. *)
Record track_ok (j : bool) (n : Z) (m : nat) (tm : manualTimer) (g : goroutine) (p : place) : Prop := {
  tr_place : p ≠ Ending ∧ p ≠ Ended;
  tr_running : running (gtrack g) = true;
  tr_step : 0 ≤ Step (settings (gtrack g));
  tr_variable : variable tm = (Step (settings (gtrack g)) =? 0);
  tr_kind : if 0 <? Step (settings (gtrack g)) then j = false → fixed_ok n tm g p else variable_ok m tm g p
}.

(** The track has no beat in flight, and owes none. *)
Definition quiet (n : Z) (tm : manualTimer) (g : goroutine) : Prop :=
  inFlightCount (gtrack g) = 0%nat ∧
  if 0 <? Step (settings (gtrack g)) then n < Track.nextDeadline (gtrack g) else fired tm = false.

Lemma fixed_kind (s : Settings) : 0 ≤ Step s → (0 <? Step s) = negb (Step s =? 0).
Proof. intros H. destruct (Z.ltb_spec 0 (Step s)), (Z.eqb_spec (Step s) 0); lia || done. Qed.

(** ** What a goroutine does *)

(** A step that leaves the track, its timer and its beats as they are. *)
Lemma track_ok_same j n m tm g g' p p' :
  track_ok j n m tm g p → p' ≠ Ending ∧ p' ≠ Ended → pace (gtrack g') = pace (gtrack g) → running (gtrack g') = running (gtrack g) → beats g' = beats g →
  (j = false → fixed_place n tm g p → fixed_place n tm g' p') → (variable_place tm g p → variable_place tm g' p') →
  track_ok j n m tm g' p'.
Proof.
  intros [_ H1 H2 H3 H4] Hp Ep Er Eb Hf Hv. assert (E : pace (gtrack g') = pace (gtrack g)) by done.
  injection E as Es Et Ec Ed El.
  split; rewrite ?Es, ?Er; try done. destruct (0 <? Step _).
  - intros Hj. destruct (H4 Hj) as [F1 F2 Fi F3 F4 F5 F6 F7 F8].
    split; rewrite ?Es, ?Et, ?Ec, ?Eb; try done; [by eapply pace_ok_pace|by apply Hf].
  - destruct H4 as (V1 & V2 & V3). unfold variable_ok. rewrite Eb. split_and!; [done|done|by apply Hv].
Qed.

(** The timer's fire is received. *)
Lemma track_fired j n m tm g :
  track_ok j n m tm g Waiting → deadlineReached g = false → channel tm = true →
  track_ok j n m (mkTimer false (tdeadline tm) (tarmed tm) (variable tm) (fired tm)) (set_reached g true) Checking ∧
  (j = false → quiet n tm g → False).
Proof.
  intros [H0 H1 H2 H3 H4] Hr Hc. split.
  - split; cbn; try done. destruct (0 <? Step _).
    + intros Hj. destruct (H4 Hj) as [F1 F2 Fi F3 F4 F5 F6 F7 F8]. split; try done. cbn in F8 |- *. rewrite Hr in F8.
      destruct F8 as [(_ & ? & _)|(? & _ & ?)]; [congruence|done].
    + destruct H4 as (V1 & V2 & V3). split_and!; [done|done|split; [|done]]. intros _. apply V3. by left.
  - intros Hj [_ Hq]. destruct (0 <? Step _).
    + pose proof (fx_place _ _ _ _ (H4 Hj)) as F8. cbn in F8. rewrite Hr in F8.
      destruct F8 as [(_ & ? & _)|(_ & _ & ?)]; [congruence|lia].
    + destruct H4 as (_ & _ & V3 & _). rewrite V3 in Hq by (by left). done.
Qed.

(** What publishDue makes of the track. *)
Lemma publishDue_spec t n ref made t' b signal :
  publishDue t n ref made = Some (t', b, signal) →
  pace t' = pace (beat_due t n).1 ∧ b = interpolate ref n (beat_due t n).2 ∧
  inFlightCount t' = S (inFlightCount t) ∧ running t' = running t.
Proof.
  unfold publishDue. destruct (beat_due_ring t n) as (_ & _ & E3 & _).
  assert (Er : running (beat_due t n).1 = running t) by (unfold beat_due; by case_match).
  destruct (beat_due t n) as [t1 b1]. cbn [fst snd] in *. intros ([t2 sg] & E & [= -> <- <-])%bind_Some.
  unfold take_signal in E. apply bind_Some in E as (x & _ & [= <- _]). cbn. rewrite <- E3, <- Er.
  by case_decide.
Qed.

Lemma each_beat_interpolate step n deadline ref b l :
  each_beat (on_deadline step) ((n, deadline, b) :: l) →
  each_beat (on_deadline step) ((n, deadline, interpolate ref n b) :: l).
Proof. by destruct ref as [[? [? ?]]|]. Qed.

(** A fixed-step track publishes at its deadline. *)
Lemma fixed_begin n tm g ref made t' b signal m' :
  0 < Step (settings (gtrack g)) → n < 2 ^ 62 →
  fixed_ok n tm g Checking → deadlineReached g = true →
  publishDue (gtrack g) n ref made = Some (t', b, signal) →
  fixed_ok n tm (mkGoroutine t' true (values g) (armed g) m' ((n, Track.nextDeadline (gtrack g), b) :: beats g))
    (Publishing b signal false).
Proof.
  intros Hs Hn [F1 F2 Fi F3 F4 F5 F6 F7 F8] Hr Hp. cbn in F8. rewrite Hr in F8. destruct F8 as (Ha & Hc & Hd).
  destruct (publishDue_spec _ _ _ _ _ _ _ Hp) as (Ep & Eb & Ei & _). set (t := gtrack g) in *.
  assert (Edue : beat_due t n = fixed_due t n) by (unfold beat_due; by rewrite (proj2 (Z.ltb_lt _ _) Hs)).
  rewrite Edue in Ep, Eb.
  assert (Hnow : Track.nextDeadline t ≤ n) by lia. assert (Hrange : n + Step (settings t) < 2 ^ 63) by lia.
  destruct (fixed_due_spec t n (beats g) Hs F2 F3 Hnow Hrange) as (E1 & E2 & E3 & E4 & E5 & E6 & E7).
  pose proof (fixed_pace_ok t n (beats g) Hs F2 Hnow Hrange F3) as Hpace.
  assert (ED : n = (Z.of_N (stepCount t) + 1) * Step (settings t)) by (rewrite Hd; by apply (pa_on_step _ (beats g))).
  assert (Elost : Z.max 0 (n / Step (settings t) - Z.of_N (stepCount t) - MaxDebt (settings t)) = 0).
  { rewrite ED, Z.div_mul by lia. lia. }
  rewrite Elost in E1, E5. rewrite Z.add_0_r in E1.
  assert (Etick : Tick (fixed_due t n).2 = tick (fixed_due t n).1) by done.
  assert (Eset : settings (fixed_due t n).1 = settings t) by done.
  assert (Eq : settings t' = settings t ∧ tick t' = tick (fixed_due t n).1 ∧ stepCount t' = stepCount (fixed_due t n).1 ∧
    Track.nextDeadline t' = Track.nextDeadline (fixed_due t n).1).
  { unfold pace in Ep. injection Ep as -> -> -> -> _. done. }
  destruct Eq as (Q1 & Q2 & Q3 & Q4).
  split; cbn [gtrack beats]; rewrite ?Q1, ?Q2, ?Q3; try done.
  - eapply pace_ok_pace; [exact Ep|]. rewrite Eb. apply pace_ok_interpolate. exact Hpace.
  - apply N2Z.inj. rewrite E1, E2, F4. done.
  - apply N2Z.inj. rewrite E1, F5. cbn [length]. lia.
  - rewrite Eb. apply each_beat_interpolate. split; [|done].
    split_and!; [done|rewrite <- Hd, ED, F5; lia|rewrite E6, E1, <- Hd; lia|lia|rewrite Etick, E2, F4, F5; lia].
  - rewrite E1. lia.
  - cbn. rewrite Q4, E3, E1. split_and!; [done|done|nia|lia|done].
Qed.

Definition rearmed_timer (tm : manualTimer) (at_ : Z) : manualTimer := mkTimer (channel tm) at_ true (variable tm) false.

(** A variable track publishes, and rearms its timer as it reads the time. *)
Lemma variable_begin n m tm g ref made t' b signal m' :
  variable_ok m tm g Checking → deadlineReached g = true → publishDue (gtrack g) n ref made = Some (t', b, signal) →
  variable_ok m (rearmed_timer tm (i64 (n + MinInterval (settings (gtrack g)))))
    (mkGoroutine t' true (values g) (armed g) m' ((n, Track.nextDeadline (gtrack g), b) :: beats g)) (Publishing b signal true).
Proof.
  intros (V1 & V2 & V3 & V4) Hr Hp. destruct (publishDue_spec _ _ _ _ _ _ _ Hp) as (_ & _ & Ei & _).
  rewrite V3 in V1 by (by right). split_and!; [cbn; lia|done|]. cbn. rewrite Ei. split_and!; [lia|done|].
  by rewrite V4.
Qed.

(** A beat is not due before a deadline is reached. *)
Lemma quiet_not_reached j n m tm g p :
  track_ok j n m tm g p → j = false → quiet n tm g → (p = Waiting ∨ p = Checking) ∧ deadlineReached g = false ∧ channel tm = false.
Proof.
  intros [_ H1 H2 H3 H4] Hj [Hq0 Hq]. destruct (0 <? Step _).
  - pose proof (fx_place _ _ _ _ (H4 Hj)) as F8. destruct p; cbn in F8; try done; try lia.
    + destruct (deadlineReached g); [lia|]. destruct F8 as [(_ & ? & _)|(_ & _ & ?)]; [auto|lia].
    + destruct (deadlineReached g); [lia|]. destruct F8 as [(_ & ? & _)|(_ & _ & ?)]; [auto|lia].
  - destruct H4 as (_ & _ & V). destruct p; cbn in V; try done; try lia; destruct V as [V3 V4].
    + split; [auto|]. destruct (deadlineReached g), (channel tm); try done; rewrite V3 in Hq; auto; done.
    + split; [auto|]. destruct (deadlineReached g), (channel tm); try done; rewrite V3 in Hq; auto; done.
Qed.

(** The timer of a fixed-step track is armed for its next deadline. *)
Lemma fixed_rearm n tm g :
  variable tm = false → fixed_ok n tm g (Rearming false) →
  fixed_ok n (timer_reset n tm (Track.nextDeadline (gtrack g))) (set_reached g false) Waiting.
Proof.
  intros Hv [F1 F2 Fi F3 F4 F5 F6 F7 F8]. cbn in F8. destruct F8 as (Ha & Hc & Hlt & _).
  split; cbn [gtrack beats set_reached]; try done. unfold timer_reset. cbn [variable]. rewrite Hv. cbn [negb andb].
  rewrite (proj2 (Z.leb_gt _ _)) by done. cbn. rewrite Hc. left. by split_and!.
Qed.

(** ** What a move of the clock does *)

(** Advance moves to a deadline no later than any, or to a target before all. *)
Lemma fixed_move n n' m tm g p :
  track_ok false n m tm g p → 0 < Step (settings (gtrack g)) → quiet n tm g → n ≤ n' →
  (tarmed tm = true → variable tm = false → n' ≤ tdeadline tm) →
  fixed_ok n' (fire_due false n' tm) g p.
Proof.
  intros H Hs Hq Hn Hle. destruct (quiet_not_reached _ _ _ _ _ _ H eq_refl Hq) as (Hp & Hr & Hc).
  destruct H as [_ H1 H2 H3 H4]. rewrite (proj2 (Z.ltb_lt _ _) Hs) in H4. destruct (H4 eq_refl) as [F1 F2 Fi F3 F4 F5 F6 F7 F8].
  assert (Hpl : tarmed tm = true ∧ channel tm = false ∧ tdeadline tm = Track.nextDeadline (gtrack g) ∧ n < Track.nextDeadline (gtrack g)).
  { destruct Hp as [-> | ->]; cbn in F8; rewrite Hr in F8; destruct F8 as [?|(_ & ? & _)]; (done || congruence). }
  destruct Hpl as (Ha & _ & Hd & Hlt). assert (Hv : variable tm = false) by (rewrite H3; apply Z.eqb_neq; lia).
  specialize (Hle Ha Hv).
  split; try done; [lia|]. unfold fire_due. destruct (is_due false n' tm) eqn:E.
  - apply is_due_spec in E as (_ & _ & E). assert (n' = Track.nextDeadline (gtrack g)) by lia.
    destruct Hp as [-> | ->]; cbn; rewrite Hr; right; by split_and!.
  - assert (n' < tdeadline tm).
    { destruct (Z.leb_spec (tdeadline tm) n') as [Hle'|]; [|done].
      rewrite (proj2 (is_due_spec false n' tm)) in E by (by split_and!). done. }
    destruct Hp as [-> | ->]; cbn; rewrite Hr; left; (split_and!; [done..|lia]).
Qed.

Lemma fire_due_other v n tm : variable tm = negb v → fire_due v n tm = tm.
Proof. intros H. unfold fire_due, is_due. rewrite H. by destruct v. Qed.

(** A variable track's timer fires, if it is due. *)
Lemma variable_move n m tm g p :
  variable_ok m tm g p → variable_ok (S m) (fire_due true n tm) g p.
Proof.
  intros (V1 & V2 & V3). unfold fire_due. destruct (is_due true n tm) eqn:E; [|split_and!; [lia|done|done]].
  apply is_due_spec in E as (_ & Ea & _). rewrite V2 in Ea. apply negb_true_iff in Ea. rewrite Ea in V1.
  split_and!; [cbn; lia|done|]. destruct p; cbn in V3 |- *; try done; try (destruct V3 as (? & ? & ?); by split_and!).
  - split; [done|]. intros Hr. destruct V3 as [V3 _]. rewrite V3 in Ea by (by right). done.
  - split; [done|]. intros Hr. destruct V3 as [V3 _]. rewrite V3 in Ea by (by right). done.
Qed.

(** ** The system *)

(** Nothing is under way between two Advances, nor when one has waited. *)
Definition at_rest (s : system) : Prop :=
  jumped s = false ∧ match advance s with Idle | Move _ => True | _ => False end.

Record inv (s : system) : Prop := {
  iv_length : length (timers (clock s)) = length (tracks s);
  iv_now : now (clock s) < 2 ^ 62;
  iv_target : match advance s with
    | WaitStep target | Move target => target < 2 ^ 62 ∧ (jumped s = false → now (clock s) ≤ target)
    | _ => True
    end;
  iv_tracks : ∀ i g p tm, tracks s !! i = Some (g, p) → timers (clock s) !! i = Some tm →
    track_ok (jumped s) (now (clock s)) (moves s) tm g p;
  iv_quiet : at_rest s → ∀ i g p tm, tracks s !! i = Some (g, p) → timers (clock s) !! i = Some tm →
    quiet (now (clock s)) tm g
}.

Lemma inv_timer s i g p : inv s → tracks s !! i = Some (g, p) → ∃ tm, timers (clock s) !! i = Some tm.
Proof.
  intros H Hi. apply lookup_lt_is_Some. rewrite (iv_length _ H). by apply lookup_lt_Some in Hi.
Qed.

(** One track, and its timer, change. *)
Lemma inv_put s c i g p tm g' p' tm' :
  inv s → tracks s !! i = Some (g, p) → timers (clock s) !! i = Some tm →
  now c = now (clock s) → timers c = <[i := tm']> (timers (clock s)) →
  track_ok (jumped s) (now (clock s)) (moves s) tm' g' p' →
  (at_rest s → quiet (now (clock s)) tm g → quiet (now (clock s)) tm' g') →
  inv (put (with_clock s c) i g' p').
Proof.
  intros [H1 H2 H3 H4 H5] Hi Ht En Et Hok Hq. split; cbn; rewrite ?En, ?Et, ?length_insert; try done.
  - intros k g2 p2 tm2. rewrite !list_lookup_insert_Some.
    intros [(-> & [= <- <-] & _)|[Hne Hk]] [(E & <- & _)|[Hne' Hk']]; try done; by eapply H4.
  - intros Hrest k g2 p2 tm2. rewrite !list_lookup_insert_Some.
    intros [(-> & [= <- <-] & _)|[Hne Hk]] [(E & <- & _)|[Hne' Hk']]; try done; [by eapply Hq, H5|by eapply H5].
Qed.

(** Only the track changes. *)
Lemma inv_put_track s i g p tm g' p' :
  inv s → tracks s !! i = Some (g, p) → timers (clock s) !! i = Some tm →
  track_ok (jumped s) (now (clock s)) (moves s) tm g' p' →
  (at_rest s → quiet (now (clock s)) tm g → quiet (now (clock s)) tm g') →
  inv (put s i g' p').
Proof.
  intros H Hi Ht Hok Hq. apply (inv_put s (clock s) i g p tm g' p' tm); try done. by rewrite list_insert_id.
Qed.

Lemma quiet_pace n tm g g' :
  pace (gtrack g') = pace (gtrack g) → inFlightCount (gtrack g') = inFlightCount (gtrack g) → quiet n tm g → quiet n tm g'.
Proof. intros [= E1 _ _ E4 _] Ei. unfold quiet. by rewrite E1, E4, Ei. Qed.

Lemma inv_checked s i g p' :
  inv s → tracks s !! i = Some (g, Checking) → p' = Waiting → inv (put s i g p').
Proof.
  intros H Hi ->. destruct (inv_timer _ _ _ _ H Hi) as [tm Ht]. pose proof (iv_tracks _ H _ _ _ _ Hi Ht) as Hok.
  eapply (inv_put_track s); [done|exact Hi|exact Ht| |done]. by eapply track_ok_same.
Qed.

Lemma inv_begin s i g s' :
  inv s → tracks s !! i = Some (g, Checking) → deadlineReached g = true → begin_beat s i g = Some s' → inv s'.
Proof.
  intros H Hi Hr E. destruct (inv_timer _ _ _ _ H Hi) as [tm Ht]. pose proof (iv_tracks _ H _ _ _ _ Hi Ht) as Hok.
  assert (Hq : at_rest s → False).
  { intros Hrest. destruct (quiet_not_reached _ _ _ _ _ _ Hok (proj1 Hrest) (iv_quiet _ H Hrest _ _ _ _ Hi Ht)) as (_ & ? & _). congruence. }
  unfold begin_beat in E. apply bind_Some in E as (ref & _ & ([[c n] r] & Et & ([[t' b] sg] & Ep & [= <-])%bind_Some)%bind_Some).
  destruct (publishDue_spec _ _ _ _ _ _ _ Ep) as (Epace & _ & _ & Er). destruct Hok as [R0 R1 R2 R3 R4].
  assert (Es : settings t' = settings (gtrack g)).
  { destruct (beat_due_ring (gtrack g) n) as (_ & _ & _ & E4). rewrite <- E4. by injection Epace. }
  rewrite Hr. unfold read_time in Et. destruct (Z.eqb_spec (Step (settings (gtrack g))) 0) as [E0|E0].
  - apply bind_Some in Et as ([c' n'] & Ec & [= -> -> <-]). unfold rearm in Ec. rewrite Ht in Ec. injection Ec as <- <-.
    eapply (inv_put s _ i g Checking tm); [done|done|done|done|done| |intros Hrest; by destruct (Hq Hrest)].
    split; cbn [gtrack]; rewrite ?Er, ?Es; try done; [by rewrite E0|].
    rewrite E0 in R4 |- *. cbn [Z.ltb] in *. by eapply variable_begin.
  - injection Et as <- <- <-. eapply (inv_put_track s); [done|exact Hi|exact Ht| |intros Hrest; by destruct (Hq Hrest)].
    split; cbn [gtrack]; rewrite ?Er, ?Es; try done; [by rewrite (proj2 (Z.eqb_neq _ _) E0)|].
    rewrite (proj2 (Z.ltb_lt _ _)) in R4 |- * by lia. intros Hj. eapply fixed_begin; [lia|apply H|by apply R4|done|exact Ep].
Qed.

Lemma metronome_exec s i s' : inv s → stopping s = false → exec s i = Some s' → inv s'.
Proof.
  intros H Hstop E. unfold exec in E. apply bind_Some in E as ([g p] & Hi & E).
  destruct (inv_timer _ _ _ _ H Hi) as [tm Ht]. pose proof (iv_tracks _ H _ _ _ _ Hi Ht) as Hok.
  destruct p as [| |b sg r|sg r|r| |]; try done.
  - destruct (deadlineReached g && _) eqn:Eb; [|injection E as <-; by apply inv_checked].
    apply andb_true_iff in Eb as [Hr _]. by eapply inv_begin.
  - injection E as <-. assert (Ef : inFlightCount (share (gtrack g) b) = inFlightCount (gtrack g)) by (unfold share; by case_match).
    assert (En : Track.nextDeadline (share (gtrack g) b) = Track.nextDeadline (gtrack g)) by (unfold share; by case_match).
    eapply (inv_put_track s); [done|exact Hi|exact Ht| |intros _; apply quiet_pace; [apply share_pace|exact Ef]].
    eapply track_ok_same; [exact Hok|done|apply share_pace|unfold share; cbn; by case_match|done|..];
      cbn; rewrite ?Ef, ?En; done.
  - injection E as <-. eapply (inv_put_track s); [done|exact Hi|exact Ht|by eapply track_ok_same|done].
  - apply bind_Some in E as (c & Ec & [= <-]). destruct r.
    + injection Ec as <-. eapply (inv_put_track s); [done|exact Hi|exact Ht| |done]. destruct Hok as [R0 R1 R2 R3 R4].
      split; try done. cbn [gtrack set_reached]. destruct (0 <? Step _).
      * intros Hj. by destruct (fx_place _ _ _ _ (R4 Hj)) as (_ & _ & _ & _ & ?).
      * destruct R4 as (V1 & V2 & V3). split_and!; [done|done|]. destruct V3 as (_ & _ & V3). cbn. split; [|done].
        intros [?|?]; auto; done.
    + unfold Reset in Ec. rewrite Ht in Ec. injection Ec as <-.
      eapply (inv_put s _ i g (Rearming false) tm); [done|done|done|done|done| |].
      * destruct Hok as [R0 R1 R2 R3 R4]. split; cbn [gtrack set_reached]; try done.
        { by rewrite timer_reset_variable. }
        destruct (Z.ltb_spec 0 (Step (settings (gtrack g)))) as [Hs|Hs].
        { intros Hj. apply fixed_rearm; [|by apply R4]. rewrite R3. apply Z.eqb_neq. lia. }
        destruct R4 as (_ & _ & V3). by destruct V3 as (_ & ? & _).
      * intros Hrest Hq. destruct (quiet_not_reached _ _ _ _ _ _ Hok (proj1 Hrest) Hq) as ([?|?] & _); done.
  - destruct Hok as [R0 R1 R2 R3 R4]. by destruct R0.
Qed.

Lemma inv_fired s i g c :
  inv s → tracks s !! i = Some (g, Waiting) → deadlineReached g = false → take_fire (clock s) i = Some c →
  inv (put (with_clock s c) i (set_reached g true) Checking).
Proof.
  intros H Hi Hr E. unfold take_fire in E. apply bind_Some in E as (tm & Ht & E).
  destruct (channel tm) eqn:Ec; [|done]. injection E as <-. pose proof (iv_tracks _ H _ _ _ _ Hi Ht) as Hok.
  destruct (track_fired _ _ _ _ _ Hok Hr Ec) as [Hok' Hno].
  eapply (inv_put s _ i g Waiting tm); try done.
Qed.

Lemma inv_finished s i g signal :
  inv s → tracks s !! i = Some (g, Waiting) → (0 < inFlightCount (gtrack g))%nat → inv (put s i (receive g signal) Checking).
Proof.
  intros H Hi Hc. destruct (inv_timer _ _ _ _ H Hi) as [tm Ht]. pose proof (iv_tracks _ H _ _ _ _ Hi Ht) as Hok.
  eapply (inv_put_track s); [done|exact Hi|exact Ht|by eapply track_ok_same|]. intros _ [Hq _]. lia.
Qed.

Lemma inv_sent s i g p before signal after :
  inv s → tracks s !! i = Some (g, p) →
  inv (put s i (mkGoroutine (gtrack g) (deadlineReached g) (send (values g) signal) (before ++ after) (made g) (beats g)) p).
Proof.
  intros H Hi. destruct (inv_timer _ _ _ _ H Hi) as [tm Ht]. pose proof (iv_tracks _ H _ _ _ _ Hi Ht) as Hok.
  eapply (inv_put_track s); [done|exact Hi|exact Ht| |done]. eapply track_ok_same; [exact Hok|apply Hok|done..| |].
  - by destruct p.
  - by destruct p.
Qed.

(** Where every track is quiet, Advance may rest. *)
Lemma inv_advance s a :
  inv s →
  (match a with WaitStep target | Move target => target < 2 ^ 62 ∧ (jumped s = false → now (clock s) ≤ target) | _ => True end) →
  (match a with
   | Idle | Move _ => jumped s = false → ∀ i g p tm, tracks s !! i = Some (g, p) → timers (clock s) !! i = Some tm →
       quiet (now (clock s)) tm g
   | _ => True end) →
  inv (with_advance s a).
Proof.
  intros [H1 H2 H3 H4 H5] Ha Hq. split; try done. intros [Hj Hrest]. cbn in Hj, Hrest. destruct a; try done; by apply Hq.
Qed.

(** When all have settled, all are quiet. *)
Lemma settled_quiet s :
  inv s → settled s = true → ∀ i g p tm, tracks s !! i = Some (g, p) → timers (clock s) !! i = Some tm →
  quiet (now (clock s)) tm g.
Proof.
  intros H Hs i g p tm Hi Ht. unfold settled in Hs. rewrite forallb_forall in Hs.
  specialize (Hs (i, (g, p))). cbn in Hs. pose proof (iv_tracks _ H _ _ _ _ Hi Ht) as [_ R1 R2 _ _].
  assert (Hin : In (i, (g, p)) (imap pair (tracks s))).
  { apply list_elem_of_In, list_elem_of_lookup. exists i. by rewrite list_lookup_imap, Hi. }
  apply Hs in Hin. unfold track_settled in Hin. rewrite R1 in Hin. cbn [negb orb] in Hin.
  apply negb_true_iff, orb_false_iff in Hin as [Hc Ho]. apply Nat.ltb_ge in Hc. split; [lia|].
  unfold owes, pending in Ho. rewrite Ht in Ho. cbn in Ho. destruct (0 <? Step _); [by apply Z.leb_gt|done].
Qed.

(** The clock moves from rest. *)
Lemma inv_move s target c done :
  inv s → advance s = Move target → next_move (clock s) target = (c, done) →
  inv (mkSystem c (tracks s) (if done : bool then WaitEnd else WaitStep target) (stopping s) (jumped s)
         (if done then S (moves s) else moves s)).
Proof.
  intros H Ea E. pose proof (iv_target _ H) as Ht. rewrite Ea in Ht. destruct Ht as [Ht1 Ht2].
  pose proof (nextDeadline_spec (clock s) target) as Hnext. unfold next_move in E.
  assert (Hrest : jumped s = false → ∀ i g p tm, tracks s !! i = Some (g, p) → timers (clock s) !! i = Some tm →
    quiet (now (clock s)) tm g).
  { intros Hj. apply (iv_quiet _ H). split; [done|by rewrite Ea]. }
  assert (Hmove : ∀ v n' m', (v = false → m' = moves s) → (v = true → m' = S (moves s)) → 
    (jumped s = false → now (clock s) ≤ n') →
    (∀ tm, tm ∈ timers (clock s) → variable tm = false → tarmed tm = true → n' ≤ tdeadline tm ∧ (v = true → n' < tdeadline tm)) →
    ∀ i g p tm, tracks s !! i = Some (g, p) → (fire_due v n' <$> timers (clock s)) !! i = Some tm →
      track_ok (jumped s) n' m' tm g p).
  { intros v n' m' Em1 Em2 Hn Hle i g p tm Hi Htm. rewrite list_lookup_fmap in Htm. apply fmap_Some in Htm as (tm0 & Htm & ->).
    pose proof (iv_tracks _ H _ _ _ _ Hi Htm) as Hok. pose proof Hok as [R0 R1 R2 R3 R4].
    split; try done; [by rewrite fire_due_variable|].
    destruct (Z.ltb_spec 0 (Step (settings (gtrack g)))) as [Hs|Hs].
    - intros Hj. rewrite Hj in Hok. assert (Htv : variable tm0 = false) by (rewrite R3; apply Z.eqb_neq; lia).
      assert (Hfix : fixed_ok n' (fire_due false n' tm0) g p).
      { eapply fixed_move; [exact Hok|done|by eapply Hrest|by apply Hn|]. intros Ha _. eapply Hle; [by eapply list_elem_of_lookup_2|done..]. }
      destruct v; [|done]. rewrite fire_due_other by done. unfold fire_due in Hfix.
      destruct (is_due false n' tm0) eqn:Ed; [|done]. apply is_due_spec in Ed as (_ & Ha & Hd).
      destruct (Hle tm0) as [_ Hlt]; [by eapply list_elem_of_lookup_2|done|done|]. specialize (Hlt eq_refl). lia.
    - assert (Htv : variable tm0 = true) by (rewrite R3; apply Z.eqb_eq; lia).
      destruct v; [rewrite Em2 by done; by apply variable_move|]. rewrite Em1, fire_due_other by done. done. }
  destruct (nextDeadline (clock s) target) as [next|]; injection E as <- <-.
  - destruct Hnext as (Hle & (t & Hin & Hdue & Hd) & Hleast). apply is_due_spec in Hdue as (Hv & Ha & _).
    assert (Hn : jumped s = false → now (clock s) ≤ next).
    { intros Hj. apply list_elem_of_lookup in Hin as [i Hi].
      destruct (lookup_lt_is_Some_2 (tracks s) i) as [[g p] Hg]; [rewrite <- (iv_length _ H); by eapply lookup_lt_Some|].
      destruct (Hrest Hj _ _ _ _ Hg Hi) as [_ Hq]. pose proof (iv_tracks _ H _ _ _ _ Hg Hi) as Hok.
      pose proof (quiet_not_reached _ _ _ _ _ _ Hok Hj (Hrest Hj _ _ _ _ Hg Hi)) as (Hp & Hr & Hc).
      destruct Hok as [_ R1 R2 R3 R4]. rewrite fixed_kind, <- R3, Hv in Hq, R4 by done. cbn [negb] in Hq, R4.
      pose proof (fx_place _ _ _ _ (R4 Hj)) as F8. destruct Hp as [-> | ->]; cbn in F8; rewrite Hr in F8;
        destruct F8 as [(_ & _ & ? & _)|(_ & ? & _)]; (lia || congruence). }
    split; cbn; rewrite ?length_fmap; [apply H|lia|split; [done|]; intros Hj; lia| |by intros [_ []]].
    apply Hmove; [done|done|done|]. intros tm Htm Hvt Hat. split; [by apply Hleast|done].
  - split; cbn; rewrite ?length_fmap; [apply H|done|done| |by intros [_ []]].
    apply Hmove; [done|done|done|]. intros tm Htm Hvt Hat. specialize (Hnext tm Htm Hvt Hat). lia.
Qed.

Lemma inv_jump s d c :
  inv s → 0 ≤ now (clock s) + d < 2 ^ 62 → Jump (clock s) d = Some c →
  inv (mkSystem c (tracks s) (advance s) (stopping s) true (S (moves s))).
Proof.
  intros H Hd E. unfold Jump in E. destruct (Z.ltb_spec d 0); [done|]. injection E as <-.
  pose proof (iv_target _ H) as Ht. split; cbn; rewrite ?length_fmap; [apply H|rewrite i64_small; lia| | |by intros [? _]].
  - destruct (advance s); try done; by destruct Ht.
  - intros i g p tm Hi Htm. rewrite !list_lookup_fmap in Htm. apply fmap_Some in Htm as (tm1 & Htm & ->).
    apply fmap_Some in Htm as (tm0 & Htm & ->). pose proof (iv_tracks _ H _ _ _ _ Hi Htm) as [R0 R1 R2 R3 R4].
    split; try done; [by rewrite !fire_due_variable|].
    destruct (Z.ltb_spec 0 (Step (settings (gtrack g)))) as [Hs|Hs]; [done|].
    assert (Hv : variable tm0 = true) by (rewrite R3; apply Z.eqb_eq; lia).
    rewrite (fire_due_other false) by done. by apply variable_move.
Qed.

(** ** The system as Init and Start leave it *)

(** A fixed-step track has no MinInterval, and a step of at most 146 years. *)
Definition well_paced (d : Track) : Prop :=
  let s := declaredSettings d in
  0 ≤ Step s ∧ 1 ≤ MaxDebt s ∧ (0 < Step s → Step s < 2 ^ 62 ∧ MinInterval s = 0).

(** A goroutine before its track has run. *)
Definition fresh (g : goroutine) : Prop :=
  let t := gtrack g in
  deadlineReached g = false ∧ beats g = [] ∧ inFlightCount t = 0%nat ∧ tick t = 0%N ∧ stepCount t = 0%N ∧
  Track.nextDeadline t = i64 (Step (settings t) + MinInterval (settings t)) ∧ ∃ e, well_paced (mkDeclared e (settings t)).

Lemma Init_fresh l declared l' :
  Init l declared = Some l' → Forall well_paced declared → Forall fresh l → Forall fresh l'.
Proof.
  revert l. induction declared as [|d declared IH]; intros l; cbn [Init]; [by intros [= <-]|].
  intros (l2 & E & Hi)%bind_Some [Hd Hall]%Forall_cons Hl. eapply IH; [exact Hi|done|].
  unfold init_one in E. destruct (existsb _ _); [done|]. injection E as <-. apply Forall_app. split; [done|].
  constructor; [|done]. split_and!; try done. by exists (declaredType d).
Qed.

Lemma resolve_fresh l g g' : resolve_reference l g = Some g' → fresh g → fresh g'.
Proof. unfold resolve_reference. destruct (InterpolateAgainst _); [|by intros [= ->]]. by intros (i & _ & [= <-])%bind_Some. Qed.

Lemma start_track_spec c g c' g' :
  start_track c g = Some (c', g') →
  now c' = now c ∧ g' = with_track g (set_running (gtrack g) true) ∧
  timers c' = timers c ++ [timer_reset (now c) (mkTimer false 0 false (Step (settings (gtrack g)) =? 0) false) (Track.nextDeadline (gtrack g))].
Proof.
  unfold start_track. destruct (Step (settings (gtrack g)) =? 0);
    cbn; unfold Reset; cbn; rewrite lookup_app_r, Nat.sub_diag by done; cbn; intros [= <- <-]; cbn;
    (split_and!; [done|done|]); rewrite insert_app_r_alt, Nat.sub_diag by done; done.
Qed.

Lemma start_tracks_spec l c c' l' :
  start_tracks c l = Some (c', l') → Forall fresh l →
  now c' = now c ∧ ∃ tms, timers c' = timers c ++ tms ∧
    Forall2 (λ g tm, ∃ g0, fresh g0 ∧ g = with_track g0 (set_running (gtrack g0) true) ∧
      tm = timer_reset (now c) (mkTimer false 0 false (Step (settings (gtrack g0)) =? 0) false) (Track.nextDeadline (gtrack g0))) l' tms.
Proof.
  revert c c' l'. induction l as [|g l IH]; intros c c' l'; cbn [start_tracks].
  - intros [= <- <-] _. split; [done|]. exists []. by rewrite app_nil_r.
  - intros ([c1 g1] & E1 & ([c2 l2] & E2 & [= <- <-])%bind_Some)%bind_Some [Hg Hl]%Forall_cons.
    apply start_track_spec in E1 as (N1 & -> & T1). destruct (IH _ _ _ E2 Hl) as (N2 & tms & T2 & Hall).
    split; [congruence|]. eexists (_ :: tms). rewrite T2, T1, <- (assoc_L (++)). split; [done|].
    rewrite N1 in Hall. constructor; [|done]. by exists g.
Qed.

(** A track that starts at zero is quiet. *)
Lemma fresh_ok g :
  fresh g →
  let g' := with_track g (set_running (gtrack g) true) in
  let tm := timer_reset 0 (mkTimer false 0 false (Step (settings (gtrack g)) =? 0) false) (Track.nextDeadline (gtrack g)) in
  track_ok false 0 0 tm g' Waiting ∧ quiet 0 tm g'.
Proof.
  intros (Hr & Hb & Hc & Ht & Hsc & Hd & (e & Hs & Hcap & Hfix)) g' tm. cbn in Hs, Hcap, Hfix.
  assert (Hv : variable tm = (Step (settings (gtrack g)) =? 0)) by apply timer_reset_variable.
  destruct (Z.ltb_spec 0 (Step (settings (gtrack g)))) as [Hpos|Hzero].
  - destruct (Hfix Hpos) as [Hlt Hmin]. rewrite Hmin, Z.add_0_r, i64_small in Hd by lia.
    assert (Etm : tm = mkTimer false (Step (settings (gtrack g))) true false false).
    { unfold tm, timer_reset. cbn [variable]. rewrite (proj2 (Z.eqb_neq _ _)), Hd, (proj2 (Z.leb_gt _ _)) by lia. done. }
    split.
    + split; try done. cbn [gtrack g' with_track settings set_running]. rewrite (proj2 (Z.ltb_lt _ _)) by done. intros _.
      split; cbn [gtrack g' with_track settings set_running beats tick stepCount]; rewrite ?Hb, ?Ht, ?Hsc; try done.
      * split; cbn; rewrite ?Hd, ?Hsc, ?Ht; lia || done.
      * cbn. rewrite Hr, Etm. left. cbn. rewrite Hd. split_and!; done.
    + split; [done|]. cbn. rewrite (proj2 (Z.ltb_lt _ _)), Hd; done.
  - assert (E0 : Step (settings (gtrack g)) = 0) by lia.
    assert (Etm : tm = mkTimer false (Track.nextDeadline (gtrack g)) true true false).
    { unfold tm, timer_reset. cbn [variable]. by rewrite E0. }
    split.
    + split; try done. cbn [gtrack g' with_track settings set_running]. rewrite E0, Etm. cbn [Z.ltb]. cbn.
      unfold variable_ok. cbn. rewrite Hb, Hr. cbn. split_and!; try done. by intros [?|?].
    + split; [done|]. cbn. rewrite E0, Etm. done.
Qed.

Lemma spawn_inv declared s : spawn declared = Some s → Forall well_paced declared → inv s ∧ now (clock s) = 0 ∧ stopping s = false ∧ jumped s = false.
Proof.
  intros (l & E1 & (l2 & E2 & ([c l3] & E3 & [= <-])%bind_Some)%bind_Some)%bind_Some Hw.
  assert (Hf : Forall fresh l) by (by eapply Init_fresh). apply mapM_Some in E2.
  assert (Hf2 : Forall fresh l2).
  { eapply Forall2_Forall_r; [exact E2|]. eapply Forall_impl; [exact Hf|]. intros g Hg g' Er. by eapply resolve_fresh. }
  destruct (start_tracks_spec _ _ _ _ E3 Hf2) as (En & tms & Et & Hall). cbn in En, Et. cbn [clock stopping jumped].
  split; [|split; [done|by split]].
  assert (Hok : ∀ i g p tm, ((λ g, (g, Waiting)) <$> l3) !! i = Some (g, p) → timers c !! i = Some tm →
    p = Waiting ∧ track_ok false 0 0 tm g Waiting ∧ quiet 0 tm g).
  { intros i g p tm Hi Htm. rewrite list_lookup_fmap in Hi. apply fmap_Some in Hi as (g1 & Hi & [= -> ->]).
    rewrite Et in Htm. destruct (Forall2_lookup_lr _ _ _ _ _ _ Hall Hi Htm) as (g0 & Hg0 & -> & ->).
    split; [done|]. by apply fresh_ok. }
  split; cbn; rewrite ?En; try done.
  - rewrite Et, length_fmap. symmetry. by eapply Forall2_length.
  - intros i g p tm Hi Htm. by destruct (Hok i g p tm Hi Htm) as (-> & ? & _).
  - intros _ i g p tm Hi Htm. by destruct (Hok i g p tm Hi Htm) as (_ & _ & ?).
Qed.

Lemma exec_stopping s i s' : exec s i = Some s' → stopping s' = stopping s.
Proof.
  unfold exec. intros ([g p] & _ & E)%bind_Some.
  destruct p; try done; [|by injection E as <-|by injection E as <-|by apply bind_Some in E as (c & _ & [= <-])|by injection E as <-].
  destruct (_ && _); [|by injection E as <-]. unfold begin_beat in E.
  by apply bind_Some in E as (ref & _ & ([[c n] r] & _ & ([[t' b] sg] & _ & [= <-])%bind_Some)%bind_Some).
Qed.

Lemma step_stopping s s' : step s s' → stopping s = true → stopping s' = true.
Proof. intros Hs Hstop. destruct Hs as [s i s' E| | | | | | | | | |]; try done. by rewrite (exec_stopping _ _ _ E). Qed.

Lemma step_keeps_inv s s' : inv s → stopping s' = false → step s s' → inv s'.
Proof.
  intros H Hstop Hs.
  assert (Hstops : stopping s = false).
  { destruct (stopping s) eqn:E; [|done]. by rewrite (step_stopping _ _ Hs E) in Hstop. }
  destruct Hs as [s i s' E|s i g c Hi Hr E|s i g sg Hi Hc _ _|s i g p b sg a Hi _|s i g c Hst _ _| |s d Ea Hd Hb
    |s target Ea Hw|s target c done Ea E|s Ea Hw|s d c Hd E]; try done.
  - by eapply metronome_exec.
  - by apply inv_fired.
  - by eapply inv_finished.
  - by apply inv_sent.
  - congruence.
  - discriminate Hstop.
  - apply inv_advance; [done| |done]. rewrite i64_small by lia. split; [lia|]. intros _. lia.
  - pose proof (iv_target _ H) as Ht. rewrite Ea in Ht. apply inv_advance; [done|done|].
    intros _. apply settled_quiet; [done|]. unfold waited in Hw. by rewrite Hstops in Hw.
  - by apply inv_move with (target := target).
  - apply inv_advance; [done|done|]. intros _. apply settled_quiet; [done|]. unfold waited in Hw. by rewrite Hstops in Hw.
  - by eapply inv_jump.
Qed.

Lemma reachable_inv_metronome declared s :
  reachable declared s → Forall well_paced declared → stopping s = false → inv s.
Proof.
  intros Hr Hw. induction Hr as [s Hs|s s' Hr IH Hs]; intros Hstop; [by eapply spawn_inv|].
  eapply step_keeps_inv; [|done|exact Hs]. apply IH. destruct (stopping s) eqn:E; [|done].
  by rewrite (step_stopping _ _ Hs E) in Hstop.
Qed.

(** C24: where no fixed-step track has a MinInterval and each step is shorter
    than 2^62 nanoseconds, on a ManualClock moved by Advance and never by Jump,
    every fixed-step track publishes every step exactly at its deadline, in
    order, and drops none, whatever the goroutines and however their steps
    interleave, until the clock is stopped; and once Advance has returned, each
    has published as many as the time holds steps, none in flight. *)
Theorem advance_beats_on_time declared s i g p :
  reachable declared s → Forall well_paced declared → jumped s = false → stopping s = false →
  tracks s !! i = Some (g, p) → 0 < Step (settings (gtrack g)) →
  (∀ after n deadline b before, beats g = after ++ (n, deadline, b) :: before →
     n = TimeFromStart b ∧ TimeFromStart b = Z.of_N (Tick b) * Step (settings (gtrack g)) ∧ Lost b = 0 ∧
     Z.of_N (Tick b) = Z.of_nat (S (length before))) ∧
  (advance s = Idle →
     Z.of_nat (length (beats g)) = now (clock s) / Step (settings (gtrack g)) ∧ inFlightCount (gtrack g) = 0%nat).
Proof.
  intros Hr Hw Hj Hstop Hi Hpos. pose proof (reachable_inv_metronome _ _ Hr Hw Hstop) as H.
  destruct (inv_timer _ _ _ _ H Hi) as [tm Ht]. pose proof (iv_tracks _ H _ _ _ _ Hi Ht) as [_ _ _ _ Hk].
  rewrite (proj2 (Z.ltb_lt _ _) Hpos) in Hk. destruct (Hk Hj) as [_ _ Fi F3 _ F5 F6 F7 _]. split.
  - intros after n deadline b before E. rewrite E in F6. apply each_beat_split in F6 as (-> & Hd & -> & Hl & Hn).
    rewrite Hn. split_and!; [done|done|done|lia].
  - intros Ea. destruct (iv_quiet _ H) with (i := i) (g := g) (p := p) (tm := tm) as [Hc Hlt]; [split; [done|by rewrite Ea]|done|done|].
    rewrite (proj2 (Z.ltb_lt _ _) Hpos), (pa_on_step _ _ Fi F3) in Hlt. split; [|done].
    apply (Z.div_unique _ _ _ (now (clock s) - Z.of_N (stepCount (gtrack g)) * Step (settings (gtrack g)))); [left; lia|].
    rewrite F5. lia.
Qed.

(** A variable track on a ManualClock beats at most once for each time
    Advance or Jump brings the clock to its target, whatever else happens. *)
Theorem variable_beats_once_per_move declared s i g p :
  reachable declared s → Forall well_paced declared → stopping s = false →
  tracks s !! i = Some (g, p) → Step (settings (gtrack g)) = 0 →
  (length (beats g) ≤ moves s)%nat.
Proof.
  intros Hr Hw Hstop Hi Hs. pose proof (reachable_inv_metronome _ _ Hr Hw Hstop) as H.
  destruct (inv_timer _ _ _ _ H Hi) as [tm Ht]. pose proof (iv_tracks _ H _ _ _ _ Hi Ht) as [_ _ _ _ Hk].
  rewrite Hs in Hk. destruct Hk as [Hk _]. lia.
Qed.

(** A fixed-step track, and a variable one that interpolates against it,
    while the clock is advanced by two steps and a half. *)
Definition example_declared : list Track :=
  [mkDeclared 1 (mkSettings 10 0 0 1 4 None); mkDeclared 2 (mkSettings 0 0 0 1 4 (Some 1%N))].

Definition example_actions : list action :=
  [Advances 25; Proceeds; Proceeds] ++ whole_beat 0 ++ [Proceeds; Proceeds] ++ whole_beat 0 ++
  [Proceeds; Proceeds] ++ whole_beat 1 ++ [Proceeds].

Definition spawned : system := default (mkSystem NewManualClock [] Idle false false 0) (spawn example_declared).
Definition advanced : system := default spawned (play spawned example_actions).

Lemma advanced_reachable : reachable example_declared advanced.
Proof.
  unfold advanced. destruct (play spawned example_actions) as [s|] eqn:E; [|exfalso; revert E; by vm_compute].
  eapply metronome_play_reachable, E. apply reach_spawn. vm_compute. reflexivity.
Qed.

Lemma example_well_paced : Forall well_paced example_declared.
Proof. unfold well_paced. repeat constructor; cbn; lia. Qed.

(** The [i]th goroutine. *)
Definition nth_track (s : system) (i : nat) : goroutine := default (TrackRun.started (mkDeclared 0 VariableTrack)) (fst <$> tracks s !! i).

Lemma advance_beats_on_time_witness :
  ∃ b before, beats (nth_track advanced 0) = (20, 20, b) :: before ∧
    (20 = TimeFromStart b ∧ TimeFromStart b = Z.of_N (Tick b) * 10 ∧ Lost b = 0 ∧ Z.of_N (Tick b) = Z.of_nat (S (length before))) ∧
    Z.of_nat (length (beats (nth_track advanced 0))) = 25 / 10.
Proof.
  do 2 eexists. split; [vm_compute; reflexivity|].
  destruct (advance_beats_on_time example_declared advanced 0 (nth_track advanced 0) Waiting) as [Hb Hi].
  - apply advanced_reachable.
  - apply example_well_paced.
  - vm_compute. reflexivity.
  - vm_compute. reflexivity.
  - vm_compute. reflexivity.
  - vm_compute. reflexivity.
  - split.
    + apply (Hb [] 20 20). vm_compute. reflexivity.
    + apply Hi. vm_compute. reflexivity.
Defined.

Lemma variable_beats_once_per_move_witness : length (beats (nth_track advanced 1)) = 1%nat ∧ (length (beats (nth_track advanced 1)) ≤ moves advanced)%nat.
Proof.
  split; [vm_compute; reflexivity|]. apply (variable_beats_once_per_move example_declared advanced 1 (nth_track advanced 1) Waiting).
  - apply advanced_reachable.
  - apply example_well_paced.
  - vm_compute. reflexivity.
  - vm_compute. reflexivity.
  - vm_compute. reflexivity.
Defined.
