(* ===== verification/WindowManager.v ===== *)
(** * The windows of platform/windowmanager.go

    What the application wants each window to be, its entry in the request,
    and what it currently is, its state; the values of window.go and
    cursorrequest.go they are made of.  A Window is its id.  A float is a
    [spec_float], the Standard Library's specification of IEEE 754.  [None] is
    a run-time panic. *)

From Stdlib Require Import String SpecFloat.
From S2P Require Import Prelude.

(** ** Values *)

Abbreviation Window := N (only parsing).
Abbreviation CursorShape := N (only parsing).
Abbreviation CursorMode := N (only parsing).

Definition zeroWindow : Window := 0%N.

Definition CursorModeNormal : CursorMode := 0%N.
Definition CursorModeConfined : CursorMode := 1%N.
Definition CursorModeLocked : CursorMode := 2%N.

Record Size := mkSize { Width : Z; Height : Z }.
Record Point := mkPoint { X : spec_float; Y : spec_float }.

Definition zeroFloat : spec_float := S754_zero false.
Definition zeroSize : Size := mkSize 0 0.
Definition zeroPoint : Point := mkPoint zeroFloat zeroFloat.

Record WindowEntry := mkEntry {
  Title : string;
  EntrySize : Size;
  Fullscreen : bool;
  Hidden : bool
}.

Record CursorRequest := mkCursor {
  Shape : CursorShape;
  CursorHidden : bool;
  Mode : CursorMode
}.

Definition zeroCursor : CursorRequest := mkCursor 0 false CursorModeNormal.

#[export] Instance size_eq_dec : EqDecision Size.
Proof. solve_decision. Defined.
#[export] Instance entry_eq_dec : EqDecision WindowEntry.
Proof. solve_decision. Defined.
#[export] Instance cursor_eq_dec : EqDecision CursorRequest.
Proof. solve_decision. Defined.

(** One window's entry in the request. *)
Record requestEntry := mkRequestEntry {
  request_window : Window;
  entry : WindowEntry;
  cursor : CursorRequest;
  cursorPosition : Point;
  cursorPositionPending : bool
}.

(** What one window currently is; a native handle is its two words. *)
Record windowStateEntry := mkState {
  state_window : Window;
  open : bool;
  size : Size;
  framebufferSize : Size;
  scale : spec_float;
  native : N * N;
  focused : bool;
  cursorMode : CursorMode
}.

Definition zeroState : windowStateEntry :=
  mkState zeroWindow false zeroSize zeroSize zeroFloat (0%N, 0%N) false CursorModeNormal.

Record WindowManager := mkManager {
  lastID : N;
  entries : list requestEntry;
  states : list windowStateEntry
}.

Definition emptyManager : WindowManager := mkManager 0 [] [].

Definition set_entries (m : WindowManager) l := mkManager (lastID m) l (states m).
Definition set_states (m : WindowManager) l := mkManager (lastID m) (entries m) l.

(** [slices.IndexFunc] for what a window names; [None] is -1. *)
Definition findWindow {A} (key : A → Window) (l : list A) (w : Window) : option nat :=
  fst <$> list_find (λ a, key a = w) l.

(** ** Operations *)

Definition findEntry (m : WindowManager) (w : Window) : option nat := findWindow request_window (entries m) w.

(** The zero Window is never known. *)
Definition findState (m : WindowManager) (w : Window) : option nat :=
  if decide (w = zeroWindow) then None else findWindow state_window (states m) w.

Definition Open (m : WindowManager) (e : WindowEntry) : WindowManager * Window :=
  let w := u64 (lastID m + 1) in
  (mkManager w (entries m ++ [mkRequestEntry w e zeroCursor zeroPoint false]) (states m), w).

Definition Entry (m : WindowManager) (w : Window) : option WindowEntry :=
  i ← findEntry m w; r ← entries m !! i; Some (entry r).

(** Every operation that replaces part of a window's entry in the request: what
    it leaves, and whether the window named one. *)
Definition edit_request (m : WindowManager) (w : Window) (f : requestEntry → requestEntry) : WindowManager * bool :=
  match findEntry m w with
  | None => (m, false)
  | Some i => (set_entries m (alter f i (entries m)), true)
  end.

Definition Change (m : WindowManager) (w : Window) (e : WindowEntry) :=
  edit_request m w (λ r, mkRequestEntry (request_window r) e (cursor r) (cursorPosition r) (cursorPositionPending r)).

Definition edit (m : WindowManager) (w : Window) (f : WindowEntry → WindowEntry) :=
  edit_request m w (λ r, mkRequestEntry (request_window r) (f (entry r)) (cursor r) (cursorPosition r) (cursorPositionPending r)).

Definition editCursor (m : WindowManager) (w : Window) (f : CursorRequest → CursorRequest) :=
  edit_request m w (λ r, mkRequestEntry (request_window r) (entry r) (f (cursor r)) (cursorPosition r) (cursorPositionPending r)).

Definition SetTitle m w title := edit m w (λ e, mkEntry title (EntrySize e) (Fullscreen e) (Hidden e)).
Definition SetSize m w size := edit m w (λ e, mkEntry (Title e) size (Fullscreen e) (Hidden e)).
Definition SetFullscreen m w fullscreen := edit m w (λ e, mkEntry (Title e) (EntrySize e) fullscreen (Hidden e)).
Definition SetHidden m w hidden := edit m w (λ e, mkEntry (Title e) (EntrySize e) (Fullscreen e) hidden).

Definition SetCursorShape m w shape := editCursor m w (λ c, mkCursor shape (CursorHidden c) (Mode c)).
Definition SetCursorHidden m w hidden := editCursor m w (λ c, mkCursor (Shape c) hidden (Mode c)).
Definition SetCursorMode m w mode := editCursor m w (λ c, mkCursor (Shape c) (CursorHidden c) mode).

Definition SetCursorPosition m w (position : Point) :=
  edit_request m w (λ r, mkRequestEntry (request_window r) (entry r) (cursor r) position true).

Definition Close (m : WindowManager) (w : Window) : WindowManager :=
  match findEntry m w with
  | None => m
  | Some i => set_entries m (delete i (entries m))
  end.

(** What [w] currently is; the zero Window is the only one known, and panics
    unless one is. *)
Definition state (m : WindowManager) (w : Window) : option windowStateEntry :=
  if decide (w = zeroWindow) then match states m with [s] => Some s | _ => None end
  else match findState m w with
       | None => Some zeroState
       | Some i => states m !! i
       end.

Definition IsOpen m w := open <$> state m w.
Definition CurrentSize m w := size <$> state m w.
Definition FramebufferSize m w := framebufferSize <$> state m w.
Definition Scale m w := scale <$> state m w.
Definition Native m w := native <$> state m w.
Definition IsFocused m w := focused <$> state m w.
Definition EffectiveCursorMode m w := cursorMode <$> state m w.

Definition addState (m : WindowManager) (w : Window) : WindowManager :=
  set_states m (states m ++ [mkState w false zeroSize zeroSize zeroFloat (0%N, 0%N) false CursorModeNormal]).

Definition removeState (m : WindowManager) (w : Window) : WindowManager :=
  match findState m w with
  | None => m
  | Some i => set_states m (delete i (states m))
  end.

(** ** Lists by window

    The lists of a window manager, of an input state and of a pump name each
    window once. *)

Definition without (w : Window) (ws : list Window) : list Window := filter (λ v, v ≠ w) ws.

Section find.
Context {A : Type} (key : A → Window).
Implicit Types (l : list A) (w v : Window).

Lemma findWindow_Some l w i : findWindow key l w = Some i → ∃ a, l !! i = Some a ∧ key a = w.
Proof.
  unfold findWindow. intros ([j a] & (Hj & Hk & _)%list_find_Some & ->)%fmap_Some. by exists a.
Qed.

Lemma findWindow_None l w : findWindow key l w = None ↔ w ∉ key <$> l.
Proof.
  unfold findWindow. rewrite fmap_None, list_find_None, Forall_forall, list_elem_of_fmap. split.
  - intros Hall (a & -> & Ha). by apply (Hall a).
  - intros Hn a Ha <-. apply Hn. by exists a.
Qed.

Lemma findWindow_elem l w : w ∈ key <$> l → ∃ i a, findWindow key l w = Some i ∧ l !! i = Some a ∧ key a = w.
Proof.
  intros Hw. destruct (findWindow key l w) as [i|] eqn:E; [|by apply findWindow_None in E].
  destruct (findWindow_Some l w i E) as (a & ? & ?). by exists i, a.
Qed.

Lemma findWindow_is_Some l w : is_Some (findWindow key l w) ↔ w ∈ key <$> l.
Proof.
  split; [|intros (i & a & -> & _)%findWindow_elem; by eexists].
  intros [i (a & Ha & <-)%findWindow_Some]. apply list_elem_of_fmap. exists a. split; [done|by eapply list_elem_of_lookup_2].
Qed.

Lemma without_fresh w ws : w ∉ ws → without w ws = ws.
Proof.
  unfold without. induction ws as [|v ws IH]; [done|]. intros [? ?]%not_elem_of_cons.
  rewrite filter_cons, decide_True by congruence. f_equal. by apply IH.
Qed.

(** Deleting what a window names takes it off the list of windows. *)
Lemma delete_without l w i :
  NoDup (key <$> l) → findWindow key l w = Some i → key <$> delete i l = without w (key <$> l).
Proof.
  intros Hnd Hi. destruct (findWindow_Some l w i Hi) as (a & Ha & Hk).
  rewrite delete_take_drop, fmap_app. rewrite <- (take_drop_middle l i a Ha) in Hnd |- * at 3.
  rewrite fmap_app, fmap_cons, Hk in *. apply NoDup_app in Hnd as (_ & Hd & [Hn _]%NoDup_cons).
  unfold without. rewrite filter_app, filter_cons, decide_False by (intros E; by apply E).
  fold (without w (key <$> take i l)). fold (without w (key <$> drop (S i) l)).
  rewrite !without_fresh; [done|done|]. intros Hin. apply (Hd w Hin). by left.
Qed.

(** What a window names in the middle of a list. *)
Lemma findWindow_middle l1 a l2 :
  NoDup (key <$> l1 ++ a :: l2) → findWindow key (l1 ++ a :: l2) (key a) = Some (length l1).
Proof.
  rewrite fmap_app. intros (_ & Hd & _)%NoDup_app. unfold findWindow.
  rewrite list_find_app_r; [cbn; rewrite decide_True by done; cbn; f_equal; lia|].
  apply list_find_None, Forall_forall. intros b Hb E. apply (Hd (key b)); [|rewrite E; by left].
  apply list_elem_of_fmap. by exists b.
Qed.

Lemma without_middle (ws1 ws2 : list Window) w : NoDup (ws1 ++ w :: ws2) → without w (ws1 ++ w :: ws2) = ws1 ++ ws2.
Proof.
  intros (_ & Hd & [Hn _]%NoDup_cons)%NoDup_app. unfold without.
  rewrite filter_app, filter_cons, decide_False by (intros E; by apply E).
  fold (without w ws1). fold (without w ws2). rewrite !without_fresh; [done|done|]. intros Hin. apply (Hd w Hin). by left.
Qed.

Lemma alter_keys l i f : (∀ a, key (f a) = key a) → key <$> alter f i l = key <$> l.
Proof.
  intros Hf. apply list_eq. intros j. rewrite !list_lookup_fmap, list_lookup_alter. case_decide; [|done].
  subst i. destruct (l !! j) as [a|]; cbn; [by rewrite Hf|done].
Qed.
End find.

Lemma elem_of_without w v ws : v ∈ without w ws ↔ v ≠ w ∧ v ∈ ws.
Proof. unfold without. by rewrite list_elem_of_filter. Qed.

Lemma without_NoDup w ws : NoDup ws → NoDup (without w ws).
Proof. apply NoDup_filter. Qed.

(** ** What the operations change *)

(** The windows requested, and those known. *)
Definition requested (m : WindowManager) : list Window := request_window <$> entries m.
Definition known (m : WindowManager) : list Window := state_window <$> states m.

Lemma edit_request_spec m w f m' b :
  edit_request m w f = (m', b) → (∀ r, request_window (f r) = request_window r) →
  requested m' = requested m ∧ known m' = known m ∧ lastID m' = lastID m ∧ b = bool_decide (w ∈ requested m).
Proof.
  unfold edit_request. intros E Hf. destruct (findEntry m w) as [i|] eqn:Hi; injection E as <- <-.
  - split_and!; [by apply alter_keys|done..|]. symmetry. apply bool_decide_eq_true. apply findWindow_is_Some. by exists i.
  - split_and!; [done..|]. symmetry. apply bool_decide_eq_false. by apply findWindow_None.
Qed.

Lemma close_requested m w :
  NoDup (requested m) →
  requested (Close m w) = without w (requested m) ∧ states (Close m w) = states m ∧ lastID (Close m w) = lastID m.
Proof.
  intros Hnd. unfold Close. destruct (findEntry m w) as [i|] eqn:Hi.
  - split_and!; [by apply delete_without|done..].
  - split_and!; [|done..]. symmetry. apply without_fresh. by apply findWindow_None in Hi.
Qed.

Lemma removeState_known m w :
  NoDup (known m) → zeroWindow ∉ known m →
  known (removeState m w) = without w (known m) ∧ entries (removeState m w) = entries m ∧
  lastID (removeState m w) = lastID m.
Proof.
  intros Hnd Hz. unfold removeState, findState. case_decide as Hw.
  - subst w. split_and!; [|done..]. symmetry. by apply without_fresh.
  - destruct (findWindow _ _ w) as [i|] eqn:Hi.
    + split_and!; [by apply delete_without|done..].
    + split_and!; [|done..]. symmetry. apply without_fresh. by apply findWindow_None in Hi.
Qed.

(** A getter of a window that is not the zero one never panics. *)
Lemma state_total m w : w ≠ zeroWindow → is_Some (state m w).
Proof.
  intros Hw. unfold state. rewrite decide_False by done. destruct (findState m w) as [i|] eqn:Hi; [|by eexists].
  unfold findState in Hi. rewrite decide_False in Hi by done.
  destruct (findWindow_Some _ _ _ _ Hi) as (s & -> & _). by eexists.
Qed.

(** The zero Window reads the only window known. *)
Lemma state_zero m : is_Some (state m zeroWindow) ↔ length (states m) = 1.
Proof.
  unfold state. rewrite decide_True by done. destruct (states m) as [|s [|]]; cbn; split; try done; try by intros [].
Qed.
