(* ===== verification/InputState.v ===== *)
(** * The input levels of platform/inputstate.go, and the keys of platform/key.go

    A Key is the [uint16] its constant has, an index of arrays, so a [nat]; a
    set of keys is its words.  A rune is a [Z].  Each window's pointer is found
    by its window. *)

From Stdlib Require Import String SpecFloat.
From stdpp Require Import strings pretty.
From S2P Require Import Prelude Words WindowManager.

(** ** Keys *)

Abbreviation Key := nat (only parsing).

Definition KeyUnknown : Key := 0.
Definition KeyMouseLeft : Key := 120.
Definition keyCount : nat := 125.

Definition keyNames : list string :=
  [
    "KeyUnknown"; "KeyA"; "KeyB"; "KeyC"; "KeyD"; "KeyE"; "KeyF"; "KeyG"; "KeyH"; "KeyI"; "KeyJ"; "KeyK";
    "KeyL"; "KeyM"; "KeyN"; "KeyO"; "KeyP"; "KeyQ"; "KeyR"; "KeyS"; "KeyT"; "KeyU"; "KeyV"; "KeyW"; "KeyX";
    "KeyY"; "KeyZ"; "Key0"; "Key1"; "Key2"; "Key3"; "Key4"; "Key5"; "Key6"; "Key7"; "Key8"; "Key9"; "KeyF1";
    "KeyF2"; "KeyF3"; "KeyF4"; "KeyF5"; "KeyF6"; "KeyF7"; "KeyF8"; "KeyF9"; "KeyF10"; "KeyF11"; "KeyF12";
    "KeyF13"; "KeyF14"; "KeyF15"; "KeyF16"; "KeyF17"; "KeyF18"; "KeyF19"; "KeyF20"; "KeyF21"; "KeyF22";
    "KeyF23"; "KeyF24"; "KeyEscape"; "KeyTab"; "KeyBackspace"; "KeyEnter"; "KeySpace"; "KeyInsert";
    "KeyDelete"; "KeyHome"; "KeyEnd"; "KeyPageUp"; "KeyPageDown"; "KeyLeft"; "KeyRight"; "KeyUp"; "KeyDown";
    "KeyLeftShift"; "KeyRightShift"; "KeyLeftControl"; "KeyRightControl"; "KeyLeftAlt"; "KeyRightAlt";
    "KeyLeftSuper"; "KeyRightSuper"; "KeyMinus"; "KeyEqual"; "KeyLeftBracket"; "KeyRightBracket";
    "KeyBackslash"; "KeySemicolon"; "KeyApostrophe"; "KeyGrave"; "KeyComma"; "KeyPeriod"; "KeySlash";
    "KeyIntlBackslash"; "KeyIntlYen"; "KeyNumpad0"; "KeyNumpad1"; "KeyNumpad2"; "KeyNumpad3"; "KeyNumpad4";
    "KeyNumpad5"; "KeyNumpad6"; "KeyNumpad7"; "KeyNumpad8"; "KeyNumpad9"; "KeyNumpadDecimal";
    "KeyNumpadDivide"; "KeyNumpadMultiply"; "KeyNumpadSubtract"; "KeyNumpadAdd"; "KeyNumpadEnter";
    "KeyNumpadEqual"; "KeyCapsLock"; "KeyScrollLock"; "KeyNumLock"; "KeyPrintScreen"; "KeyPause";
    "KeyContextMenu"; "KeyMouseLeft"; "KeyMouseRight"; "KeyMouseMiddle"; "KeyMouse4"; "KeyMouse5"
  ]%string.

Definition isValid (k : Key) : bool := k <? keyCount.

Definition IsMouseButton (k : Key) : bool := (KeyMouseLeft <=? k) && (k <? keyCount).

Definition String_ (k : Key) : option string :=
  if isValid k then keyNames !! k else Some (String.append "Key(" (String.append (pretty k) ")")).

(** The map from names to Keys, a later Key of the same name in place of an
    earlier. *)
Definition indexKeyNames : gmap string Key :=
  foldl (λ m p, <[p.2 := p.1]> m) ∅ (imap pair keyNames).

Definition keysByName : gmap string Key := indexKeyNames.

(** [None] is the error. *)
Definition ParseKey (name : string) : option Key := keysByName !! name.

Definition MarshalText (k : Key) : option string := if isValid k then keyNames !! k else None.

Definition UnmarshalText (text : string) : option Key := ParseKey text.

(** ** Sets of keys *)

Abbreviation keySet := (list N) (only parsing).

Definition emptyKeys : keySet := replicate ((keyCount + 63) / 64) 0%N.

Definition key_bit (k : Key) : N := N.shiftl 1 (N.of_nat (k mod 64)).

Definition has (set : keySet) (k : Key) : option bool :=
  if isValid k then w ← set !! (k / 64); Some (negb (N.land w (key_bit k) =? 0)%N) else Some false.

Definition add (set : keySet) (k : Key) : option keySet := list_modify set (k / 64) (λ w, N.lor w (key_bit k)).

Definition remove (set : keySet) (k : Key) : option keySet := list_modify set (k / 64) (λ w, N.ldiff w (key_bit k)).

(** ** The input state *)

Record windowPointer := mkPointer {
  pointer_window : Window;
  position : Point;
  placed : bool;
  inside : bool
}.

Definition zeroPointer : windowPointer := mkPointer zeroWindow zeroPoint false false.

Record InputState := mkInput {
  held : keySet;
  pressed : keySet;
  released : keySet;
  pointers : list windowPointer;
  labels : list Z
}.

Definition emptyInput : InputState := mkInput emptyKeys emptyKeys emptyKeys [] (replicate keyCount 0%Z).

Definition set_pointers (s : InputState) l := mkInput (held s) (pressed s) (released s) l (labels s).

Definition IsHeld (s : InputState) (k : Key) : option bool := has (held s) k.
Definition JustPressed (s : InputState) (k : Key) : option bool := has (pressed s) k.
Definition JustReleased (s : InputState) (k : Key) : option bool := has (released s) k.

Definition Label (s : InputState) (k : Key) : option Z := if isValid k then labels s !! k else Some 0%Z.

Definition findPointer (s : InputState) (w : Window) : option nat := findWindow pointer_window (pointers s) w.

(** The zero Window is the only one known, and panics unless one is. *)
Definition pointer (s : InputState) (w : Window) : option windowPointer :=
  if decide (w = zeroWindow) then match pointers s with [p] => Some p | _ => None end
  else match findPointer s w with
       | None => Some zeroPointer
       | Some i => pointers s !! i
       end.

Definition PointerPosition (s : InputState) (w : Window) : option Point := position <$> pointer s w.
Definition IsPointerInside (s : InputState) (w : Window) : option bool := inside <$> pointer s w.

Definition clearEdges (s : InputState) : InputState := mkInput (held s) emptyKeys emptyKeys (pointers s) (labels s).

Definition press (s : InputState) (k : Key) : option InputState :=
  h ← has (held s) k;
  p ← (if h : bool then Some (pressed s) else add (pressed s) k);
  hd ← add (held s) k;
  Some (mkInput hd p (released s) (pointers s) (labels s)).

Definition release (s : InputState) (k : Key) : option InputState :=
  hd ← remove (held s) k;
  r ← add (released s) k;
  Some (mkInput hd (pressed s) r (pointers s) (labels s)).

(** [source] is the socket's Label. *)
Definition rebuildLabels (s : InputState) (source : Key → Z) : option InputState :=
  ls ← for_from (KeyUnknown + 1) (keyCount - 1)
         (λ k ls, if IsMouseButton k then Some ls else list_set ls k (source k)) (labels s);
  Some (mkInput (held s) (pressed s) (released s) (pointers s) ls).

Definition addPointer (s : InputState) (w : Window) : InputState :=
  set_pointers s (pointers s ++ [mkPointer w zeroPoint false false]).

Definition enterPointer (s : InputState) (w : Window) (p : Point) : InputState :=
  match findPointer s w with
  | None => s
  | Some i => set_pointers s (alter (λ q, mkPointer (pointer_window q) p true true) i (pointers s))
  end.

Definition leavePointer (s : InputState) (w : Window) : InputState :=
  match findPointer s w with
  | None => s
  | Some i => set_pointers s (alter (λ q, mkPointer (pointer_window q) (position q) (placed q) false) i (pointers s))
  end.

(** Coordinates are [float32]s. *)
Definition sub32 (x y : spec_float) : spec_float := SFsub 24 128 x y.
Definition add32 (x y : spec_float) : spec_float := SFadd 24 128 x y.

Definition point_sub (p q : Point) : Point := mkPoint (sub32 (X p) (X q)) (sub32 (Y p) (Y q)).
Definition point_add (p q : Point) : Point := mkPoint (add32 (X p) (X q)) (add32 (Y p) (Y q)).

(** What it leaves, and the motion. *)
Definition movePointer (s : InputState) (w : Window) (p : Point) : InputState * Point :=
  match findPointer s w with
  | None => (s, zeroPoint)
  | Some i =>
      (set_pointers s (alter (λ q, mkPointer (pointer_window q) p true (inside q)) i (pointers s)),
       match pointers s !! i with
       | Some q => if placed q then point_sub p (position q) else zeroPoint
       | None => zeroPoint
       end)
  end.

Definition placePointer (s : InputState) (w : Window) (p : Point) : InputState :=
  match findPointer s w with
  | None => s
  | Some i => set_pointers s (alter (λ q, mkPointer (pointer_window q) p true (inside q)) i (pointers s))
  end.

Definition forgetPointer (s : InputState) (w : Window) : InputState :=
  match findPointer s w with
  | None => s
  | Some i => set_pointers s (delete i (pointers s))
  end.

(** ** Keys and their names *)

Lemma index_names (names : list string) (m : gmap string Key) (off : nat) :
  NoDup names → (∀ n, n ∈ names → m !! n = None) →
  ∀ n k, foldl (λ m p, <[p.2 := p.1]> m) m (imap (λ i n, (off + i, n)) names) !! n = Some k ↔
    m !! n = Some k ∨ ∃ i, k = off + i ∧ names !! i = Some n.
Proof.
  revert m off. induction names as [|x names IH]; intros m off Hnd Hm n k; cbn.
  - split; [by left|]. intros [?|(i & _ & Hi)]; [done|]. by rewrite lookup_nil in Hi.
  - apply NoDup_cons in Hnd as [Hx Hnd].
    rewrite (imap_ext _ (λ i n, (S off + i, n))) by (intros; cbn; f_equal; lia). rewrite IH; [|done|].
    + rewrite Nat.add_0_r. split.
      * intros [Hn|(i & -> & Hi)]; [|right; exists (S i); split; [lia|done]].
        destruct (decide (x = n)) as [->|]; [|left; by rewrite lookup_insert_ne in Hn].
        rewrite lookup_insert_eq in Hn. injection Hn as <-. right. exists 0. split; [lia|done].
      * intros [Hn|([|i] & -> & Hi)].
        -- left. rewrite lookup_insert_ne; [done|]. intros <-. by rewrite Hm in Hn by by left.
        -- left. injection Hi as ->. rewrite lookup_insert_eq. f_equal. lia.
        -- right. exists i. split; [lia|done].
    + intros y Hy. rewrite lookup_insert_ne by (intros <-; done). apply Hm. by right.
Qed.

Lemma keyNames_NoDup : NoDup keyNames.
Proof. apply (bool_decide_unpack _). vm_compute. exact I. Qed.

(** A Key is parsed from its name, and its name only. *)
Lemma parse_key name k : ParseKey name = Some k ↔ isValid k = true ∧ String_ k = Some name.
Proof.
  unfold ParseKey, keysByName, indexKeyNames.
  rewrite (imap_ext _ (λ i n, (0 + i, n))) by done.
  rewrite (index_names _ ∅ 0 keyNames_NoDup) by (intros; apply lookup_empty).
  rewrite lookup_empty. unfold String_. split.
  - intros [?|(i & E & Hi)]; [done|]. cbn in E. subst i. assert (Hv : isValid k = true).
    { apply Nat.ltb_lt. apply lookup_lt_Some in Hi. exact Hi. }
    by rewrite Hv.
  - intros [Hv Hs]. rewrite Hv in Hs. right. by exists k.
Qed.

(** MarshalText and UnmarshalText are inverses: each Key has one name of its
    own, and nothing else is read. *)
Lemma marshal_unmarshal k name : MarshalText k = Some name ↔ UnmarshalText name = Some k.
Proof.
  unfold UnmarshalText. rewrite parse_key. unfold MarshalText, String_. destruct (isValid k); [|by split; [|intros []]].
  split; [by split|by intros [_ ?]].
Qed.

(** ** The keys of a set *)

Definition keys_of (set : keySet) : gset Key := list_to_set (filter (λ k, mask_has set k = true) (seq 0 keyCount)).

Definition keys_wf (set : keySet) : Prop := length set = 2.

Lemma elem_keys_of set k : k ∈ keys_of set ↔ isValid k = true ∧ mask_has set k = true.
Proof.
  unfold keys_of, isValid. rewrite elem_of_list_to_set, list_elem_of_filter, elem_of_seq, Nat.ltb_lt. split; intros []; split; (lia || done).
Qed.

#[global] Opaque keys_of.

Lemma key_bit_test w k : negb (N.land w (key_bit k) =? 0)%N = N.testbit w (N.of_nat (k mod 64)).
Proof. unfold key_bit. by rewrite N.shiftl_1_l, land_bit_test. Qed.

Lemma key_bit_bits k j : N.testbit (key_bit k) j = bool_decide (N.of_nat (k mod 64) = j).
Proof. unfold key_bit. by rewrite N.shiftl_1_l, testbit_pow2. Qed.

Lemma key_word k : isValid k = true → k / 64 < 2.
Proof. intros Hk%Nat.ltb_lt. apply Nat.Div0.div_lt_upper_bound. unfold keyCount in Hk. lia. Qed.

Lemma elem_keys_bit set k w :
  isValid k = true → set !! (k / 64) = Some w → k ∈ keys_of set ↔ N.testbit w (N.of_nat (k mod 64)) = true.
Proof. intros Hk Hw. rewrite elem_keys_of. unfold mask_has. rewrite Hw. tauto. Qed.

Lemma has_spec set k : keys_wf set → has set k = Some (bool_decide (k ∈ keys_of set)).
Proof.
  intros Hwf. unfold has. destruct (isValid k) eqn:Hk.
  - destruct (lookup_lt_is_Some_2 set (k / 64)) as [w Hw]; [rewrite Hwf; by apply key_word|].
    rewrite Hw. cbn. f_equal. rewrite key_bit_test. apply eq_true_iff_eq. by rewrite bool_decide_eq_true, (elem_keys_bit _ _ w).
  - f_equal. symmetry. apply bool_decide_eq_false. rewrite elem_keys_of, Hk. by intros [].
Qed.

(** An operation on the word of a key that keeps its other bits. *)
Lemma keys_modify set k (f : N → N) (b : bool) :
  keys_wf set → isValid k = true →
  (∀ w j, N.testbit (f w) j = if decide (N.of_nat (k mod 64) = j) then b else N.testbit w j) →
  ∃ set', list_modify set (k / 64) f = Some set' ∧ keys_wf set' ∧
    ∀ j, j ∈ keys_of set' ↔ if decide (j = k) then b = true else j ∈ keys_of set.
Proof.
  intros Hwf Hk Hf. destruct (lookup_lt_is_Some_2 set (k / 64)) as [w Hw]; [rewrite Hwf; by apply key_word|].
  exists (<[k / 64 := f w]> set). rewrite (list_modify_Some _ _ _ f Hw). split_and!; [done|by unfold keys_wf; rewrite length_insert|].
  intros j. rewrite !elem_keys_of, mask_has_insert by (rewrite Hwf; by apply key_word). rewrite Hf.
  destruct (decide (j = k)) as [->|Hjk].
  - rewrite !decide_True by done. tauto.
  - rewrite elem_keys_of. destruct (decide (j / 64 = k / 64)) as [E|E]; [|done]. rewrite decide_False.
    + unfold mask_has. by rewrite E, Hw.
    + intros E2%Nat2N.inj. apply Hjk. rewrite (mask_index j), (mask_index k). congruence.
Qed.

Lemma add_spec set k :
  keys_wf set → isValid k = true →
  ∃ set', add set k = Some set' ∧ keys_wf set' ∧ keys_of set' = {[k]} ∪ keys_of set.
Proof.
  intros Hwf Hk. destruct (keys_modify set k (λ w, N.lor w (key_bit k)) true Hwf Hk) as (set' & E & Hwf' & Hj).
  - intros w j. rewrite N.lor_spec, key_bit_bits. case_bool_decide; case_decide; try done; [apply orb_true_r|apply orb_false_r].
  - exists set'. split_and!; [done..|]. apply set_eq. intros j. rewrite Hj, elem_of_union, elem_of_singleton.
    case_decide; tauto.
Qed.

Lemma remove_spec set k :
  keys_wf set → isValid k = true →
  ∃ set', remove set k = Some set' ∧ keys_wf set' ∧ keys_of set' = keys_of set ∖ {[k]}.
Proof.
  intros Hwf Hk. destruct (keys_modify set k (λ w, N.ldiff w (key_bit k)) false Hwf Hk) as (set' & E & Hwf' & Hj).
  - intros w j. rewrite N.ldiff_spec, key_bit_bits. case_bool_decide; case_decide; try done; [apply andb_false_r|apply andb_true_r].
  - exists set'. split_and!; [done..|]. apply set_eq. intros j. rewrite Hj, elem_of_difference, elem_of_singleton.
    case_decide; naive_solver.
Qed.

Lemma emptyKeys_spec : keys_wf emptyKeys ∧ keys_of emptyKeys = ∅.
Proof.
  split; [done|]. apply set_eq. intros k. rewrite elem_keys_of. split; [|by intros ?%elem_of_empty].
  intros [_ Hk]. unfold emptyKeys in Hk. by rewrite mask_has_replicate in Hk.
Qed.

(** ** What the operations change *)

Record input_wf (s : InputState) : Prop := {
  wf_held : keys_wf (held s);
  wf_pressed : keys_wf (pressed s);
  wf_released : keys_wf (released s);
  wf_labels : length (labels s) = keyCount
}.

(** The windows whose pointer is tracked. *)
Definition tracked (s : InputState) : list Window := pointer_window <$> pointers s.

Lemma IsHeld_spec s k : input_wf s → IsHeld s k = Some (bool_decide (k ∈ keys_of (held s))).
Proof. intros Hs. apply has_spec, Hs. Qed.

Lemma press_spec s k :
  input_wf s → isValid k = true →
  ∃ s', press s k = Some s' ∧ input_wf s' ∧ pointers s' = pointers s ∧ labels s' = labels s ∧
    keys_of (held s') = {[k]} ∪ keys_of (held s) ∧ released s' = released s ∧
    keys_of (pressed s') = if decide (k ∈ keys_of (held s)) then keys_of (pressed s) else {[k]} ∪ keys_of (pressed s).
Proof.
  intros [Hh Hp Hr Hl] Hk. unfold press. rewrite has_spec by done. cbn.
  destruct (add_spec (held s) k Hh Hk) as (hd & Ehd & Hhd & Khd).
  destruct (decide (k ∈ keys_of (held s))) as [Hin|Hin].
  - rewrite bool_decide_true by done. cbn. rewrite Ehd. cbn. eexists. split; [done|]. by split_and!.
  - rewrite bool_decide_false by done. destruct (add_spec (pressed s) k Hp Hk) as (p & -> & Hp' & Kp). cbn.
    rewrite Ehd. cbn. eexists. split; [done|]. by split_and!.
Qed.

Lemma release_spec s k :
  input_wf s → isValid k = true →
  ∃ s', release s k = Some s' ∧ input_wf s' ∧ pointers s' = pointers s ∧ labels s' = labels s ∧
    keys_of (held s') = keys_of (held s) ∖ {[k]} ∧ pressed s' = pressed s ∧
    keys_of (released s') = {[k]} ∪ keys_of (released s).
Proof.
  intros [Hh Hp Hr Hl] Hk. unfold release.
  destruct (remove_spec (held s) k Hh Hk) as (hd & -> & Hhd & Khd).
  destruct (add_spec (released s) k Hr Hk) as (r & -> & Hr' & Kr). eexists. split; [done|]. by split_and!.
Qed.

Lemma Label_total s k : input_wf s → is_Some (Label s k).
Proof.
  intros Hs. unfold Label. destruct (isValid k) eqn:Hk; [|by eexists]. apply lookup_lt_is_Some_2. rewrite (wf_labels s Hs).
  by apply Nat.ltb_lt.
Qed.

(** The label of every keyboard key is the source's, and no mouse button has
    one. *)
Lemma rebuildLabels_spec s source :
  input_wf s →
  ∃ s', rebuildLabels s source = Some s' ∧ input_wf s' ∧ held s' = held s ∧ pressed s' = pressed s ∧
    released s' = released s ∧ pointers s' = pointers s ∧
    ∀ k, k < keyCount → labels s' !! k = if decide (k = KeyUnknown ∨ IsMouseButton k = true) then labels s !! k else Some (source k).
Proof.
  intros [Hh Hp Hr Hl]. unfold rebuildLabels.
  destruct (for_from_invariant (λ j ls, length ls = keyCount ∧
    ∀ k, k < keyCount → ls !! k = if decide (k < j ∧ k ≠ KeyUnknown ∧ IsMouseButton k = false) then Some (source k) else labels s !! k)
    (λ k ls, if IsMouseButton k then Some ls else list_set ls k (source k)) (KeyUnknown + 1) (keyCount - 1) (labels s))
    as (ls & -> & Hlen & Hls).
  - split; [done|]. intros k Hk. rewrite decide_False; [done|]. unfold KeyUnknown. lia.
  - intros j ls Hj [Hlen Hls]. destruct (IsMouseButton j) eqn:Em.
    + exists ls. split_and!; [done..|]. intros k Hk. rewrite Hls by done. apply decide_ext. split; intros (? & ? & ?); split_and!; try done; try lia.
      destruct (decide (k = j)) as [->|]; [congruence|lia].
    + assert (Hj2 : j < keyCount) by (unfold keyCount, KeyUnknown in *; lia). rewrite list_set_Some by (by rewrite Hlen). eexists. split; [done|].
      split; [by rewrite length_insert|]. intros k Hk. rewrite lookup_insert_decide by (by rewrite Hlen).
      destruct (decide (j = k)) as [->|Hjk].
      * rewrite decide_True; [done|]. unfold KeyUnknown in *. split_and!; [lia|lia|done].
      * rewrite Hls by done. apply decide_ext. split; intros (? & ? & ?); split_and!; try done; lia.
  - eexists. split; [done|]. split; [by split|]. split_and!; [done..|]. cbn. intros k Hk. rewrite Hls by done.
    destruct (decide (k = KeyUnknown ∨ IsMouseButton k = true)) as [Hd|Hd].
    + rewrite decide_False; [done|]. intros (_ & ? & ?). destruct Hd; congruence.
    + rewrite decide_True; [done|]. destruct (IsMouseButton k) eqn:E; [by destruct Hd; right|]. split_and!; [unfold keyCount, KeyUnknown in *; lia|by intros ->; destruct Hd; left|done].
Qed.

Lemma addPointer_tracked s w : tracked (addPointer s w) = tracked s ++ [w].
Proof. unfold tracked, addPointer. cbn. by rewrite fmap_app. Qed.

Lemma enterPointer_tracked s w p : tracked (enterPointer s w p) = tracked s.
Proof. unfold enterPointer. destruct (findPointer s w); [|done]. by apply alter_keys. Qed.

Lemma leavePointer_tracked s w : tracked (leavePointer s w) = tracked s.
Proof. unfold leavePointer. destruct (findPointer s w); [|done]. by apply alter_keys. Qed.

Lemma movePointer_tracked s w p : tracked (movePointer s w p).1 = tracked s.
Proof. unfold movePointer. destruct (findPointer s w); [|done]. by apply alter_keys. Qed.

Lemma placePointer_tracked s w p : tracked (placePointer s w p) = tracked s.
Proof. unfold placePointer. destruct (findPointer s w); [|done]. by apply alter_keys. Qed.

Lemma forgetPointer_tracked s w : NoDup (tracked s) → tracked (forgetPointer s w) = without w (tracked s).
Proof.
  intros Hnd. unfold forgetPointer. destruct (findPointer s w) as [i|] eqn:Hi; [by apply delete_without|].
  symmetry. apply without_fresh. by apply findWindow_None in Hi.
Qed.

(** A getter of a window that is not the zero one never panics. *)
Lemma pointer_total s w : w ≠ zeroWindow → is_Some (pointer s w).
Proof.
  intros Hw. unfold pointer. rewrite decide_False by done. destruct (findPointer s w) as [i|] eqn:Hi; [|by eexists].
  destruct (findWindow_Some _ _ _ _ Hi) as (p & -> & _). by eexists.
Qed.

(** What changes the pointers alone. *)
Definition same_keys (s s' : InputState) : Prop :=
  held s' = held s ∧ pressed s' = pressed s ∧ released s' = released s ∧ labels s' = labels s.

Lemma same_keys_wf s s' : same_keys s s' → input_wf s → input_wf s'.
Proof. intros (E1 & E2 & E3 & E4) []. split; congruence. Qed.

Lemma same_keys_refl s : same_keys s s.
Proof. done. Qed.

Lemma same_keys_trans s1 s2 s3 : same_keys s1 s2 → same_keys s2 s3 → same_keys s1 s3.
Proof. intros (?&?&?&?) (?&?&?&?). unfold same_keys. split_and!; congruence. Qed.

Lemma same_keys_pointers s l : same_keys s (set_pointers s l).
Proof. done. Qed.
#[export] Hint Resolve same_keys_refl same_keys_pointers : cog.

Lemma forgetPointer_keys s w : same_keys s (forgetPointer s w).
Proof. unfold forgetPointer. destruct (findPointer s w); auto with cog. Qed.

Lemma enterPointer_keys s w p : same_keys s (enterPointer s w p).
Proof. unfold enterPointer. destruct (findPointer s w); auto with cog. Qed.

Lemma leavePointer_keys s w : same_keys s (leavePointer s w).
Proof. unfold leavePointer. destruct (findPointer s w); auto with cog. Qed.

Lemma movePointer_keys s w p : same_keys s (movePointer s w p).1.
Proof. unfold movePointer. destruct (findPointer s w); cbn; auto with cog. Qed.

Lemma placePointer_keys s w p : same_keys s (placePointer s w p).
Proof. unfold placePointer. destruct (findPointer s w); auto with cog. Qed.
