(* ===== verification/EventProcessor.v ===== *)
(** * The pump of platform/eventprocessor.go

    One run of ProcessEvents: the request applied through the window
    implementation, the changes both sockets report folded into the window and
    the input state, and what is published, in order.  The sockets of
    platform/sockets.go are classes: any implementation, with a state of its
    own.  A run holds the write lock of all it touches, so it is one function.
    A task that panics is recovered (kernel/task.go) and what it has written
    stays, so a run that panics on a change answers what it leaves; [None] is a
    panic anywhere else, which Pump.v shows there is none of.  The handlers of what it publishes run after the last
    of its own changes. *)

From Stdlib Require Import String SpecFloat.
From S2P Require Import Prelude Words WindowManager InputState.

(** ** What the sockets report *)

Inductive InputChangeKind :=
  | InputChangeWindowOpened
  | InputChangeWindowClosed
  | InputChangeCloseRequested
  | InputChangeKey
  | InputChangeText
  | InputChangeFocus
  | InputChangePointerMove
  | InputChangeScroll
  | InputChangePointerEnter
  | InputChangePointerLeave
  | InputChangeResize
  | InputChangeLayout
  | InputChangeOther (n : N). (* a value that is none of the constants *)

#[export] Instance kind_eq_dec : EqDecision InputChangeKind.
Proof. solve_decision. Defined.

Record InputChange := mkChange {
  Kind : InputChangeKind;
  ChangeWindow : Window;
  ChangeSize : Size;
  ChangeFramebufferSize : Size;
  ChangeScale : spec_float;
  ChangeNative : N * N;
  ChangeKey : Key;
  Pressed : bool;
  Repeat : bool;
  Modifiers : N;
  Position : Point;
  ScrollDelta : Point;
  ScrollLines : bool;
  PointerDelta : Point;
  motion : Point;
  label : Z;
  Char : Z;
  Focused : bool
}.

Definition ModifierCapsLock : N := 16%N.
Definition ModifierNumLock : N := 32%N.

Definition zeroChange (k : InputChangeKind) (w : Window) : InputChange :=
  mkChange k w zeroSize zeroSize zeroFloat (0%N, 0%N) KeyUnknown false false 0 zeroPoint zeroPoint false
    zeroPoint zeroPoint 0 0 false.

Definition with_label (c : InputChange) (l : Z) : InputChange :=
  mkChange (Kind c) (ChangeWindow c) (ChangeSize c) (ChangeFramebufferSize c) (ChangeScale c) (ChangeNative c)
    (ChangeKey c) (Pressed c) (Repeat c) (Modifiers c) (Position c) (ScrollDelta c) (ScrollLines c)
    (PointerDelta c) (motion c) l (Char c) (Focused c).

Definition with_move (c : InputChange) (position motion : Point) : InputChange :=
  mkChange (Kind c) (ChangeWindow c) (ChangeSize c) (ChangeFramebufferSize c) (ChangeScale c) (ChangeNative c)
    (ChangeKey c) (Pressed c) (Repeat c) (Modifiers c) position (ScrollDelta c) (ScrollLines c)
    (PointerDelta c) motion (label c) (Char c) (Focused c).

(** The release of [k] that the loss of the focus makes. *)
Definition release_change (w : Window) (k : Key) (modifiers : N) (position : Point) (l : Z) : InputChange :=
  mkChange InputChangeKey w zeroSize zeroSize zeroFloat (0%N, 0%N) k false false modifiers position zeroPoint false
    zeroPoint zeroPoint l 0 false.

(** ** The sockets

    A call that may fail answers whether it did. *)

Class WindowsSocket (S : Type) := {
  ws_Open : S → Window → WindowEntry → S * bool;
  ws_Change : S → Window → WindowEntry → WindowEntry → S * bool;
  ws_SetCursor : S → Window → CursorRequest → S * bool;
  ws_EffectiveCursorMode : S → Window → CursorMode;
  ws_SetCursorPosition : S → Window → Point → S * bool;
  ws_Close : S → Window → S * bool;
  ws_Pump : S → S * list InputChange
}.

Class InputSourceSocket (I : Type) := {
  is_AppendChanges : I → I * list InputChange;
  is_Label : I → Key → Z
}.

(** The events published. *)
Inductive event :=
  | WindowOpenedEvent (w : Window)
  | WindowClosedEvent (w : Window)
  | CloseRequestedEvent (w : Window)
  | KeyEvent (w : Window) (k : Key) (pressed repeat : bool) (modifiers : N) (position : Point) (label : Z)
  | TextEvent (w : Window) (char : Z)
  | LayoutChangedEvent
  | FocusEvent (w : Window) (focused : bool)
  | PointerMoveEvent (w : Window) (position delta : Point)
  | ScrollEvent (w : Window) (delta : Point) (lines : bool)
  | PointerEnterEvent (w : Window)
  | PointerLeaveEvent (w : Window)
  | ResizeEvent (w : Window) (size framebufferSize : Size) (scale : spec_float).

(** The calls a window implementation gets, and [Gone]: it closed a window by
    itself, as the pump takes note of it. *)
Inductive call :=
  | CallOpen (w : Window) (e : WindowEntry)
  | CallChange (w : Window) (previous next : WindowEntry)
  | CallSetCursor (w : Window) (c : CursorRequest)
  | CallSetCursorPosition (w : Window) (p : Point)
  | CallClose (w : Window)
  | Gone (w : Window).

(** One window as last applied. *)
Record appliedWindow := mkApplied {
  applied_window : Window;
  applied_entry : WindowEntry;
  applied_cursor : CursorRequest
}.

Section pump.
Context {S I : Type} `{WindowsSocket S, InputSourceSocket I}.

(** The pump and all it writes: the window manager, the input state, the event
    processor with the implementations bound to its sockets.  [calls] is a
    ghost: every call that may fail, with whether it failed and so was
    logged. *)
Record pump := mkPump {
  manager : WindowManager;
  input : InputState;
  applied : list appliedWindow;
  changes : list InputChange;
  events : list InputChange;
  modifiers : N;
  labelled : bool;
  windows : option S;
  inputSource : option I;
  calls : list (call * bool)
}.

Definition set_manager (p : pump) m :=
  mkPump m (input p) (applied p) (changes p) (events p) (modifiers p) (labelled p) (windows p) (inputSource p) (calls p).
Definition set_input (p : pump) i :=
  mkPump (manager p) i (applied p) (changes p) (events p) (modifiers p) (labelled p) (windows p) (inputSource p) (calls p).
Definition set_applied (p : pump) l :=
  mkPump (manager p) (input p) l (changes p) (events p) (modifiers p) (labelled p) (windows p) (inputSource p) (calls p).
Definition set_changes (p : pump) l :=
  mkPump (manager p) (input p) (applied p) l (events p) (modifiers p) (labelled p) (windows p) (inputSource p) (calls p).
Definition set_events (p : pump) l :=
  mkPump (manager p) (input p) (applied p) (changes p) l (modifiers p) (labelled p) (windows p) (inputSource p) (calls p).
Definition set_modifiers (p : pump) n :=
  mkPump (manager p) (input p) (applied p) (changes p) (events p) n (labelled p) (windows p) (inputSource p) (calls p).
Definition set_labelled (p : pump) :=
  mkPump (manager p) (input p) (applied p) (changes p) (events p) (modifiers p) true (windows p) (inputSource p) (calls p).
Definition set_windows (p : pump) w :=
  mkPump (manager p) (input p) (applied p) (changes p) (events p) (modifiers p) (labelled p) w (inputSource p) (calls p).
Definition set_source (p : pump) s :=
  mkPump (manager p) (input p) (applied p) (changes p) (events p) (modifiers p) (labelled p) (windows p) s (calls p).
Definition set_calls (p : pump) l :=
  mkPump (manager p) (input p) (applied p) (changes p) (events p) (modifiers p) (labelled p) (windows p) (inputSource p) l.

Definition newPump (w : option S) (i : option I) : pump :=
  mkPump emptyManager emptyInput [] [] [] 0 false w i [].

(** A call of the window implementation: what it leaves, and whether it
    failed. *)
Definition tell (p : pump) (c : call) (f : S → S * bool) : pump * bool :=
  match windows p with
  | None => (p, false)
  | Some s => let '(s', failed) := f s in (set_calls (set_windows p (Some s')) (calls p ++ [(c, failed)]), failed)
  end.

Definition find (p : pump) (w : Window) : option nat := findWindow applied_window (applied p) w.

Definition setCursor (p : pump) (w : Window) (c : CursorRequest) : pump :=
  (tell p (CallSetCursor w c) (λ s, ws_SetCursor s w c)).1.

(** ** The request *)

(** The first loop of apply: what is kept of what was applied. *)
Fixpoint close_gone (l : list appliedWindow) (p : pump) : list appliedWindow * pump :=
  match l with
  | [] => ([], p)
  | a :: l =>
      match findEntry (manager p) (applied_window a) with
      | Some _ => let '(kept, p') := close_gone l p in (a :: kept, p')
      | None =>
          let w := applied_window a in
          let p1 := (tell p (CallClose w) (λ s, ws_Close s w)).1 in
          let p2 := set_manager p1 (removeState (manager p1) w) in
          let p3 := set_input p2 (forgetPointer (input p2) w) in
          close_gone l (set_events p3 (events p3 ++ [zeroChange InputChangeWindowClosed w]))
      end
  end.

(** A window not applied yet is opened. *)
Definition open_new (p : pump) (r : requestEntry) : pump :=
  let w := request_window r in
  let p1 := set_applied p (applied p ++ [mkApplied w (entry r) (cursor r)]) in
  let p2 := set_manager p1 (addState (manager p1) w) in
  let p3 := set_input p2 (addPointer (input p2) w) in
  let p4 := (tell p3 (CallOpen w (entry r)) (λ s, ws_Open s w (entry r))).1 in
  if decide (cursor r = zeroCursor) then p4 else setCursor p4 w (cursor r).

(** The [i]-th applied, [a], is changed where [r] differs. *)
Definition change_applied (p : pump) (i : nat) (a : appliedWindow) (r : requestEntry) : pump :=
  let w := request_window r in
  let p1 :=
    if decide (applied_entry a = entry r) then p
    else
      let p' := (tell p (CallChange w (applied_entry a) (entry r)) (λ s, ws_Change s w (applied_entry a) (entry r))).1 in
      set_applied p' (alter (λ a, mkApplied (applied_window a) (entry r) (applied_cursor a)) i (applied p')) in
  if decide (applied_cursor a = cursor r) then p1
  else
    let p' := setCursor p1 w (cursor r) in
    set_applied p' (alter (λ a, mkApplied (applied_window a) (applied_entry a) (cursor r)) i (applied p')).

Definition clear_pending (r : requestEntry) : requestEntry :=
  mkRequestEntry (request_window r) (entry r) (cursor r) (cursorPosition r) false.

(** The pending cursor position of the [i]-th entry, [r]. *)
Definition apply_position (p : pump) (i : nat) (r : requestEntry) : pump :=
  if cursorPositionPending r then
    let w := request_window r in
    let p1 := set_manager p (set_entries (manager p) (alter clear_pending i (entries (manager p)))) in
    if decide (Mode (cursor r) = CursorModeLocked) then p1
    else
      let '(p2, failed) := tell p1 (CallSetCursorPosition w (cursorPosition r)) (λ s, ws_SetCursorPosition s w (cursorPosition r)) in
      if failed : bool then p2 else set_input p2 (placePointer (input p2) w (cursorPosition r))
  else p.

(** One turn of the second loop of apply. *)
Definition apply_entry (i : nat) (p : pump) : option pump :=
  r ← entries (manager p) !! i;
  p' ← match find p (request_window r) with
       | None => Some (open_new p r)
       | Some j => a ← applied p !! j; Some (change_applied p j a r)
       end;
  Some (apply_position p' i r).

Definition apply (p : pump) : option pump :=
  let '(kept, p1) := close_gone (applied p) p in
  let p2 := set_applied p1 kept in
  for_range (length (entries (manager p2))) apply_entry p2.

(** ** What the sockets report, folded in *)

(** The change of the [i]-th window state. *)
Definition edit_state (p : pump) (i : nat) (f : windowStateEntry → windowStateEntry) : pump :=
  set_manager p (set_states (manager p) (alter f i (states (manager p)))).

Definition opened_state (c : InputChange) (s : windowStateEntry) : windowStateEntry :=
  mkState (state_window s) true (ChangeSize c) (ChangeFramebufferSize c) (ChangeScale c) (ChangeNative c) (focused s) (cursorMode s).

Definition resized_state (c : InputChange) (s : windowStateEntry) : windowStateEntry :=
  mkState (state_window s) (open s) (ChangeSize c) (ChangeFramebufferSize c) (ChangeScale c) (native s) (focused s) (cursorMode s).

Definition focused_state (b : bool) (s : windowStateEntry) : windowStateEntry :=
  mkState (state_window s) (open s) (size s) (framebufferSize s) (scale s) (native s) b (cursorMode s).

Definition mode_state (m : CursorMode) (s : windowStateEntry) : windowStateEntry :=
  mkState (state_window s) (open s) (size s) (framebufferSize s) (scale s) (native s) (focused s) m.

(** The cursor as last applied to the window of the [i]-th state is applied
    again when another mode is in force. *)
Definition reapplyCursorMode (p : pump) (i : nat) : option pump :=
  s ← states (manager p) !! i;
  match windows p, find p (state_window s) with
  | Some _, Some j =>
      a ← applied p !! j;
      if decide (cursorMode s = Mode (applied_cursor a)) then Some p
      else
        let p1 := setCursor p (state_window s) (applied_cursor a) in
        match windows p1 with
        | Some ws => Some (edit_state p1 i (mode_state (ws_EffectiveCursorMode ws (state_window s))))
        | None => None
        end
  | _, _ => Some p
  end.

Definition emit (p : pump) (c : InputChange) : pump := set_events p (events p ++ [c]).

(** The last move of [w] among [l], and [l] without it. *)
Fixpoint take_last_move (w : Window) (l : list InputChange) : option (InputChange * list InputChange) :=
  match l with
  | [] => None
  | e :: l =>
      match take_last_move w l with
      | Some (m, l') => Some (m, e :: l')
      | None => if decide (Kind e = InputChangePointerMove ∧ ChangeWindow e = w) then Some (e, l) else None
      end
  end.

Definition fold_closed (p : pump) (w : Window) : pump :=
  let p1 := set_manager p (Close (removeState (manager p) w) w) in
  let p2 := set_input p1 (forgetPointer (input p1) w) in
  match find p2 w with
  | None => p2
  | Some j => set_calls (set_applied p2 (delete j (applied p2))) (calls p2 ++ [(Gone w, false)])
  end.

Definition fold_key (p : pump) (c : InputChange) : option pump :=
  let p1 := set_modifiers p (Modifiers c) in
  l ← Label (input p1) (ChangeKey c);
  let c' := with_label c l in
  if Pressed c then i ← press (input p1) (ChangeKey c); Some (emit (set_input p1 i) c')
  else
    b ← IsHeld (input p1) (ChangeKey c);
    if b : bool then i ← release (input p1) (ChangeKey c); Some (emit (set_input p1 i) c')
    else Some p1.

(** One turn of the loop over the keys as the focus is lost. *)
Definition release_held (w : Window) (k : Key) (p : pump) : option pump :=
  b ← IsHeld (input p) k;
  if b : bool then
    i ← release (input p) k;
    l ← Label i k;
    pos ← (if IsMouseButton k then PointerPosition i w else Some zeroPoint);
    Some (emit (set_input p i) (release_change w k (modifiers p) pos l))
  else Some p.

(** The window that gained or lost the focus. *)
Definition note_focus (p : pump) (c : InputChange) : option pump :=
  match findState (manager p) (ChangeWindow c) with
  | None => Some p
  | Some i =>
      let p' := edit_state p i (focused_state (Focused c)) in
      if Focused c then reapplyCursorMode p' i else Some p'
  end.

Definition fold_focus (p : pump) (c : InputChange) : option pump :=
  p1 ← note_focus p c;
  p2 ← (if Focused c then Some p1
        else for_range keyCount (release_held (ChangeWindow c))
               (set_modifiers p1 (N.land (modifiers p1) (N.lor ModifierCapsLock ModifierNumLock))));
  Some (emit p2 c).

(** The pointer moved: the change with its position and its motion. *)
Definition note_move (p : pump) (c : InputChange) : option (pump * InputChange) :=
  mode ← EffectiveCursorMode (manager p) (ChangeWindow c);
  if decide (mode = CursorModeLocked) then
    pos ← PointerPosition (input p) (ChangeWindow c); Some (p, with_move c pos (PointerDelta c))
  else
    let '(i, m) := movePointer (input p) (ChangeWindow c) (Position c) in
    Some (set_input p i, with_move c (Position c) m).

Definition fold_move (p : pump) (c : InputChange) : option pump :=
  '(p1, c1) ← note_move p c;
  match take_last_move (ChangeWindow c) (events p1) with
  | None => Some (emit p1 c1)
  | Some (earlier, es) =>
      Some (emit (set_events p1 es) (with_move c1 (Position c1) (point_add (motion c1) (motion earlier))))
  end.

Definition fold (p : pump) (c : InputChange) : option pump :=
  match Kind c with
  | InputChangeWindowOpened =>
      match findState (manager p) (ChangeWindow c) with
      | None => Some p
      | Some i => Some (emit (edit_state p i (opened_state c)) c)
      end
  | InputChangeWindowClosed => Some (emit (fold_closed p (ChangeWindow c)) c)
  | InputChangeKey => fold_key p c
  | InputChangeFocus => fold_focus p c
  | InputChangePointerMove => fold_move p c
  | InputChangeLayout =>
      p1 ← match inputSource p with
           | None => Some p
           | Some src => i ← rebuildLabels (input p) (is_Label src); Some (set_input p i)
           end;
      Some (emit p1 c)
  | InputChangePointerEnter => Some (emit (set_input p (enterPointer (input p) (ChangeWindow c) (Position c))) c)
  | InputChangePointerLeave => Some (emit (set_input p (leavePointer (input p) (ChangeWindow c))) c)
  | InputChangeResize =>
      match findState (manager p) (ChangeWindow c) with
      | None => Some p
      | Some i => Some (emit (edit_state p i (resized_state c)) c)
      end
  | _ => Some (emit p c)
  end.

(** ** A run *)

(** A change that names no window known, or no key, panics. *)
Definition change_valid (m : WindowManager) (c : InputChange) : bool :=
  bool_decide (Kind c = InputChangeLayout ∨ is_Some (findState m (ChangeWindow c))) &&
  (negb (bool_decide (Kind c = InputChangeKey)) || isValid (ChangeKey c)).

Definition event_of (c : InputChange) : option event :=
  let w := ChangeWindow c in
  match Kind c with
  | InputChangeWindowOpened => Some (WindowOpenedEvent w)
  | InputChangeWindowClosed => Some (WindowClosedEvent w)
  | InputChangeCloseRequested => Some (CloseRequestedEvent w)
  | InputChangeKey => Some (KeyEvent w (ChangeKey c) (Pressed c) (Repeat c) (Modifiers c) (Position c) (label c))
  | InputChangeText => Some (TextEvent w (Char c))
  | InputChangeLayout => Some LayoutChangedEvent
  | InputChangeFocus => Some (FocusEvent w (Focused c))
  | InputChangePointerMove => Some (PointerMoveEvent w (Position c) (motion c))
  | InputChangeScroll => Some (ScrollEvent w (ScrollDelta c) (ScrollLines c))
  | InputChangePointerEnter => Some (PointerEnterEvent w)
  | InputChangePointerLeave => Some (PointerLeaveEvent w)
  | InputChangeResize => Some (ResizeEvent w (ChangeSize c) (ChangeFramebufferSize c) (ChangeScale c))
  | InputChangeOther _ => None
  end.

(** The request applied and the window events pumped. *)
Definition pump_windows (p : pump) : option pump :=
  match windows p with
  | None => Some p
  | Some _ =>
      p1 ← apply p;
      match windows p1 with
      | None => None
      | Some s => let '(s', l) := ws_Pump s in Some (set_changes (set_windows p1 (Some s')) (changes p1 ++ l))
      end
  end.

Definition pump_input (p : pump) : option pump :=
  match inputSource p with
  | None => Some p
  | Some src =>
      let '(src', l) := is_AppendChanges src in
      let p1 := set_changes (set_source p (Some src')) (changes p ++ l) in
      if labelled p1 then Some p1
      else i ← rebuildLabels (input p1) (is_Label src'); Some (set_labelled (set_input p1 i))
  end.

(** The effective mode of every window known is taken anew. *)
Definition take_modes (p : pump) : pump :=
  match windows p with
  | None => p
  | Some s =>
      set_manager p (set_states (manager p)
        ((λ st, mode_state (ws_EffectiveCursorMode s (state_window st)) st) <$> states (manager p)))
  end.

(** What the run starts from: the batches of the run before emptied, the
    request applied, both sockets asked. *)
Definition collect (p : pump) : option pump :=
  p1 ← pump_windows (set_events (set_changes p []) []);
  p2 ← pump_input p1;
  Some (take_modes p2).

(** What a run leaves, and what it publishes: nothing, [None], if it panics on
    a change, the request being applied and the batch dropped. *)
Definition processEvents (p : pump) : option (pump * option (list event)) :=
  p1 ← collect p;
  if forallb (change_valid (manager p1)) (changes p1) then
    p2 ← for_each (changes p1) (λ c p, fold p c) (set_input p1 (clearEdges (input p1)));
    Some (p2, Some (omap event_of (events p2)))
  else Some (p1, None).
End pump.

Arguments pump S I : clear implicits.
