(* ===== verification/PumpSteps.v ===== *)
(** * What a run of the pump keeps

    The windows of the state, of the input state and of what was applied are
    one list, and that list is what the calls made have told the window
    implementation. *)

From Stdlib Require Import String SpecFloat.
From S2P Require Import Prelude Words WindowManager InputState EventProcessor.

(** ** What a window implementation has been told

    The contract of WindowsSocket: a window is opened once, changed from the
    entry it was last told, and gets no call once closed. *)

Definition told_step (l : list appliedWindow) (c : call) : option (list appliedWindow) :=
  match c with
  | CallOpen w e =>
      match findWindow applied_window l w with
      | Some _ => None
      | None => Some (l ++ [mkApplied w e zeroCursor])
      end
  | CallChange w previous next =>
      i ← findWindow applied_window l w; a ← l !! i;
      if decide (applied_entry a = previous ∧ previous ≠ next) then
        Some (alter (λ a, mkApplied (applied_window a) next (applied_cursor a)) i l)
      else None
  | CallSetCursor w c =>
      i ← findWindow applied_window l w;
      Some (alter (λ a, mkApplied (applied_window a) (applied_entry a) c) i l)
  | CallSetCursorPosition w _ =>
      i ← findWindow applied_window l w; a ← l !! i;
      if decide (Mode (applied_cursor a) = CursorModeLocked) then None else Some l
  | CallClose w | Gone w => i ← findWindow applied_window l w; Some (delete i l)
  end.

Definition told (calls : list (call * bool)) : option (list appliedWindow) :=
  foldl (λ o c, l ← o; told_step l c.1) (Some []) calls.

Lemma told_snoc calls c failed : told (calls ++ [(c, failed)]) = l ← told calls; told_step l c.
Proof. unfold told. by rewrite foldl_app. Qed.

(** The windows of [l]. *)
Definition of_applied (l : list appliedWindow) : list Window := applied_window <$> l.
#[global] Arguments of_applied _ : simpl never.

(** The entry of a window as it is applied. *)
Definition applied_of (r : requestEntry) : appliedWindow := mkApplied (request_window r) (entry r) (cursor r).

Lemma applied_of_windows l : of_applied (applied_of <$> l) = request_window <$> l.
Proof. unfold of_applied. by rewrite <- list_fmap_compose. Qed.

Section steps.
Context {S I : Type} `{WindowsSocket S, InputSourceSocket I}.
Implicit Types (p : pump S I) (l : list appliedWindow) (w : Window).

(** [l] is what is known, tracked and told. *)
Record core p l : Prop := {
  core_known : known (manager p) = of_applied l;
  core_tracked : tracked (input p) = of_applied l;
  core_told : told (calls p) = Some l;
  core_nodup : NoDup (of_applied l);
  core_zero : zeroWindow ∉ of_applied l;
  core_wf : input_wf (input p)
}.

(** What a step of applying the request does not touch. *)
Record frame p p' : Prop := {
  frame_changes : changes p' = changes p;
  frame_modifiers : modifiers p' = modifiers p;
  frame_labelled : labelled p' = labelled p;
  frame_source : inputSource p' = inputSource p;
  frame_windows : is_Some (windows p) → is_Some (windows p');
  frame_lastID : lastID (manager p') = lastID (manager p);
  frame_keys : same_keys (input p) (input p')
}.

Lemma frame_refl p : frame p p.
Proof using Type. by split. Qed.

Lemma frame_trans p1 p2 p3 : frame p1 p2 → frame p2 p3 → frame p1 p3.
Proof using Type.
  intros [] []. split; try congruence; [auto|]. by eapply same_keys_trans.
Qed.

(** A call told. *)
Lemma tell_spec p (c : call) (f : S → S * bool) l l' :
  is_Some (windows p) → told (calls p) = Some l → told_step l c = Some l' →
  ∃ s' failed, tell p c f = (set_calls (set_windows p (Some s')) (calls p ++ [(c, failed)]), failed) ∧
    told (calls p ++ [(c, failed)]) = Some l'.
Proof using Type.
  intros [s Hs] Hl Hl'. unfold tell. rewrite Hs. destruct (f s) as [s' failed]. exists s', failed. split; [done|].
  by rewrite told_snoc, Hl.
Qed.

Lemma middle_windows l1 a l2 : of_applied (l1 ++ a :: l2) = of_applied l1 ++ applied_window a :: of_applied l2.
Proof using Type. unfold of_applied. by rewrite fmap_app. Qed.

(** A window taken off the state, the input state and what was told. *)
Lemma core_remove p (p' : pump S I) l1 a l2 :
  core p (l1 ++ a :: l2) →
  known (manager p') = known (removeState (manager p) (applied_window a)) →
  input p' = forgetPointer (input p) (applied_window a) →
  told (calls p') = Some (delete (length l1) (l1 ++ a :: l2)) →
  core p' (l1 ++ l2).
Proof using Type.
  intros [Hk Ht Htold Hnd Hz Hwf] Ek Ei Ec. rewrite middle_windows in *.
  assert (Ew : without (applied_window a) (of_applied l1 ++ applied_window a :: of_applied l2) = of_applied (l1 ++ l2)).
  { rewrite without_middle by done. unfold of_applied. by rewrite fmap_app. }
  split.
  - rewrite Ek. destruct (removeState_known (manager p) (applied_window a)) as (-> & _); [by rewrite Hk|by rewrite Hk|].
    by rewrite Hk.
  - rewrite Ei, forgetPointer_tracked by (by rewrite Ht). by rewrite Ht.
  - by rewrite Ec, delete_middle.
  - rewrite <- Ew. by apply without_NoDup.
  - rewrite <- Ew, elem_of_without. by intros [_ ?].
  - rewrite Ei. eapply same_keys_wf; [apply forgetPointer_keys|done].
Qed.

Lemma close_gone_spec l1 l p :
  core p (l1 ++ l) → is_Some (windows p) →
  ∃ kept p' gone, close_gone l p = (kept, p') ∧ core p' (l1 ++ kept) ∧ frame p p' ∧ is_Some (windows p') ∧
    entries (manager p') = entries (manager p) ∧ applied p' = applied p ∧
    kept = filter (λ a, applied_window a ∈ requested (manager p)) l ∧
    events p' = events p ++ (zeroChange InputChangeWindowClosed <$> gone).
Proof using Type.
  revert l1 p. induction l as [|a l IH]; intros l1 p Hc Hw.
  { exists [], p, []. cbn. rewrite !app_nil_r in *. split_and!; try done. }
  cbn [close_gone]. rewrite filter_cons. destruct (findEntry (manager p) (applied_window a)) as [i|] eqn:Hi.
  - destruct (IH (l1 ++ [a]) p) as (kept & p' & gone & -> & Hc' & Hf & Hw' & He & Ha & -> & Hev).
    { by rewrite <- app_assoc. } { done. }
    eexists _, p', gone. split; [done|]. rewrite decide_True by (apply findWindow_is_Some; by exists i).
    split_and!; try done. by rewrite <- app_assoc in Hc'.
  - set (w := applied_window a).
    assert (Hst : told_step (l1 ++ a :: l) (CallClose w) = Some (delete (length l1) (l1 ++ a :: l))).
    { cbn. by rewrite findWindow_middle by apply (core_nodup _ _ Hc). }
    destruct (tell_spec p (CallClose w) (λ s, ws_Close s w) _ _ Hw (core_told _ _ Hc) Hst) as (s' & failed & -> & Htold).
    cbn [fst]. set (p2 := set_events _ _).
    assert (Hc2 : core p2 (l1 ++ l)) by (by apply (core_remove p p2 l1 a l Hc)).
    destruct (removeState_known (manager p) w) as (_ & Een & Elast); [rewrite (core_known _ _ Hc); apply Hc|rewrite (core_known _ _ Hc); apply Hc|].
    destruct (IH l1 p2 Hc2) as (kept & p' & gone & -> & Hc' & Hf & Hw' & He & Ha & -> & Hev); [by eexists|].
    rewrite decide_False by (by apply findWindow_None).
    eexists _, p', (w :: gone). split; [done|]. split; [done|].
    split; [|split_and!; try done].
    + eapply frame_trans; [|done]. split; first [done|by eexists|apply forgetPointer_keys].
    + rewrite He. exact Een.
    + unfold requested. cbn. by rewrite Een.
    + rewrite Hev. cbn. by rewrite <- app_assoc.
Qed.

(** [p'] is [p] with [l] applied instead. *)
Record applying p p' l : Prop := {
  applying_core : core p' l;
  applying_applied : applied p' = l;
  applying_frame : frame p p';
  applying_windows : is_Some (windows p');
  applying_events : events p' = events p
}.

Lemma applying_trans p1 p2 p3 l2 l3 : applying p1 p2 l2 → applying p2 p3 l3 → applying p1 p3 l3.
Proof using Type. intros [] []. split; try done; [by eapply frame_trans|congruence]. Qed.

(** The same windows, other entries or cursors. *)
Lemma core_same p p' l l' :
  core p l → of_applied l' = of_applied l → known (manager p') = known (manager p) → tracked (input p') = tracked (input p) →
  input_wf (input p') → told (calls p') = Some l' → core p' l'.
Proof using Type. intros [] E1 E2 E3 Hwf Ht. split; [congruence|congruence|done|by rewrite E1|by rewrite E1|done]. Qed.

Lemma of_applied_insert l j a b : l !! j = Some a → applied_window b = applied_window a → of_applied (<[j:=b]> l) = of_applied l.
Proof using Type.
  intros Ha E. unfold of_applied. rewrite list_fmap_insert, E. apply list_insert_id. by rewrite list_lookup_fmap, Ha.
Qed.

Lemma alter_insert {A} (l : list A) j a f : l !! j = Some a → alter f j l = <[j:=f a]> l.
Proof using Type.
  intros Ha. apply list_eq. intros k. rewrite list_lookup_alter.
  rewrite lookup_insert_decide by (by eapply lookup_lt_Some). case_decide; [by rewrite Ha|done].
Qed.

Lemma insert_middle {A} (l1 l2 : list A) x y : <[length l1 := y]> (l1 ++ x :: l2) = l1 ++ y :: l2.
Proof using Type. induction l1 as [|z l1 IH]; [done|]. change (z :: <[length l1 := y]> (l1 ++ x :: l2) = z :: l1 ++ y :: l2). by rewrite IH. Qed.

Lemma told_cursor l w j a c :
  findWindow applied_window l w = Some j → l !! j = Some a →
  told_step l (CallSetCursor w c) = Some (<[j := mkApplied (applied_window a) (applied_entry a) c]> l).
Proof using Type. intros Hj Ha. cbn. rewrite Hj. cbn. by rewrite (alter_insert _ _ a). Qed.

Lemma setCursor_spec p w j a c l :
  core p l → is_Some (windows p) → findWindow applied_window l w = Some j → l !! j = Some a →
  let l' := <[j := mkApplied (applied_window a) (applied_entry a) c]> l in
  core (setCursor p w c) l' ∧ is_Some (windows (setCursor p w c)) ∧ frame p (setCursor p w c) ∧
  manager (setCursor p w c) = manager p ∧ input (setCursor p w c) = input p ∧
  applied (setCursor p w c) = applied p ∧ events (setCursor p w c) = events p.
Proof using Type.
  intros Hc Hw Hj Ha l'. unfold setCursor.
  destruct (tell_spec p (CallSetCursor w c) (λ s, ws_SetCursor s w c) _ _ Hw (core_told _ _ Hc) (told_cursor _ _ _ _ c Hj Ha)) as (s' & failed & -> & Ht).
  cbn. split_and!; try done.
  eapply core_same; [done|by eapply of_applied_insert|done|done|apply Hc|done].
Qed.

Lemma open_new_spec p r :
  core p (applied p) → is_Some (windows p) → request_window r ∉ of_applied (applied p) → request_window r ≠ zeroWindow →
  applying p (open_new p r) (applied p ++ [applied_of r]) ∧ entries (manager (open_new p r)) = entries (manager p).
Proof using Type.
  intros Hc Hw Hfresh Hz. set (w := request_window r) in *. set (l := applied p) in *.
  unfold open_new. fold w l. set (p3 := set_input _ _).
  assert (Hst : told_step l (CallOpen w (entry r)) = Some (l ++ [mkApplied w (entry r) zeroCursor])).
  { cbn. rewrite (proj2 (findWindow_None applied_window l w)); [done|exact Hfresh]. }
  destruct (tell_spec p3 (CallOpen w (entry r)) (λ s, ws_Open s w (entry r)) l _ Hw (core_told _ _ Hc) Hst) as (s' & failed & -> & Ht).
  cbn [fst]. set (p4 := set_calls _ _).
  set (l4 := l ++ [mkApplied w (entry r) zeroCursor]) in *.
  assert (E4 : of_applied l4 = of_applied l ++ [w]) by (unfold of_applied, l4; by rewrite fmap_app).
  assert (Hc4 : core p4 l4).
  { destruct Hc as [Hk Htr Htold Hnd Hzero Hwf]. split.
    - rewrite E4, <- Hk. unfold p4, p3, known. cbn. by rewrite fmap_app.
    - rewrite E4, <- Htr. unfold p4, p3. cbn. apply addPointer_tracked.
    - exact Ht.
    - rewrite E4. apply NoDup_app. split_and!; [done| |apply NoDup_singleton].
      intros v Hv ->%list_elem_of_singleton. by apply Hfresh.
    - rewrite E4, elem_of_app, list_elem_of_singleton. intros [?|?]; [by apply Hzero|by apply Hz].
    - eapply same_keys_wf; [apply same_keys_pointers|done]. }
  assert (Hf4 : frame p p4) by (split; first [done|by eexists]).
  destruct (decide (cursor r = zeroCursor)) as [E|E].
  - split; [|done]. unfold applied_of. fold w. rewrite E. split; try done. cbn. by rewrite E.
  - assert (Hj : findWindow applied_window l4 w = Some (length l)).
    { unfold l4. apply (findWindow_middle applied_window l (mkApplied w (entry r) zeroCursor) []). apply (core_nodup _ _ Hc4). }
    destruct (setCursor_spec p4 w (length l) (mkApplied w (entry r) zeroCursor) (cursor r) l4 Hc4) as (Hc5 & Hw5 & Hf5 & Em & Ei & Eap & Eev);
      [by eexists|done|unfold l4; by rewrite list_lookup_middle|]. cbn in Hc5.
    unfold l4 in Hc5. rewrite insert_middle in Hc5. split; [|by rewrite Em].
    split; [exact Hc5|by rewrite Eap|by eapply frame_trans|done|by rewrite Eev].
Qed.

Lemma change_applied_spec p j a r :
  core p (applied p) → is_Some (windows p) → findWindow applied_window (applied p) (request_window r) = Some j →
  applied p !! j = Some a →
  applying p (change_applied p j a r) (<[j := applied_of r]> (applied p)) ∧
  manager (change_applied p j a r) = manager p ∧ input (change_applied p j a r) = input p.
Proof using Type.
  intros Hc Hw Hj Ha. unfold change_applied. set (w := request_window r) in *. set (l := applied p) in *.
  destruct (findWindow_Some _ _ _ _ Hj) as (a' & Ha' & Hwa). assert (a' = a) as -> by congruence.
  set (p1 := if decide (applied_entry a = entry r) then p else _). set (a1 := mkApplied w (entry r) (applied_cursor a)).
  assert (H1 : applying p p1 (<[j := a1]> l) ∧ manager p1 = manager p ∧ input p1 = input p).
  { unfold p1. destruct (decide (applied_entry a = entry r)) as [E|E].
    - replace (<[j:=a1]> l) with l; [by split; [split|]|]. symmetry. apply list_insert_id. rewrite Ha. f_equal.
      unfold a1. rewrite <- Hwa, <- E. by destruct a.
    - assert (Hst : told_step l (CallChange w (applied_entry a) (entry r)) = Some (<[j := a1]> l)).
      { cbn. rewrite Hj. cbn. rewrite Ha. cbn. rewrite decide_True by done. f_equal.
        rewrite (alter_insert _ _ a) by done. unfold a1. by rewrite Hwa. }
      destruct (tell_spec p _ (λ s, ws_Change s w (applied_entry a) (entry r)) _ _ Hw (core_told _ _ Hc) Hst) as (s' & failed & -> & Ht).
      cbn. split; [|done]. split; cbn; try done.
      + eapply core_same; [done|by eapply of_applied_insert|done|done|apply Hc|done].
      + rewrite (alter_insert _ _ a) by done. unfold a1. by rewrite Hwa. }
  destruct H1 as (Hap & Em & Ei). assert (Hj1 : findWindow applied_window (<[j:=a1]> l) w = Some j).
  { assert (Hlt : j < length l) by (by eapply lookup_lt_Some). pose proof (core_nodup _ _ (applying_core _ _ _ Hap)) as Hnd.
    rewrite insert_take_drop in Hnd |- * by done. rewrite <- (length_take_le l j) at 3 by lia.
    apply (findWindow_middle applied_window (take j l) a1 (drop (Datatypes.S j) l)). exact Hnd. }
  assert (Ha1 : <[j:=a1]> l !! j = Some a1) by (apply list_lookup_insert_eq; by eapply lookup_lt_Some).
  destruct (decide (applied_cursor a = cursor r)) as [E|E].
  - replace (applied_of r) with a1 by (unfold a1, applied_of; by rewrite E). done.
  - destruct (setCursor_spec p1 w j a1 (cursor r) _ (applying_core _ _ _ Hap) (applying_windows _ _ _ Hap) Hj1 Ha1) as (Hc5 & Hw5 & Hf5 & Em5 & Ei5 & Eap & Eev).
    rewrite list_insert_insert_eq in Hc5. split; [|cbn; by rewrite Em5, Ei5].
    split.
    + eapply core_same; [exact Hc5|done|done|done|apply Hc5|apply Hc5].
    + cbn. rewrite Eap, (applying_applied _ _ _ Hap), (alter_insert _ _ a1) by done. by rewrite list_insert_insert_eq.
    + eapply frame_trans; [apply Hap|]. eapply frame_trans; [apply Hf5|]. by split.
    + exact Hw5.
    + cbn. rewrite Eev. apply Hap.
Qed.

Lemma edit_entries_core p l es :
  core p l → core (set_manager p (set_entries (manager p) es)) l.
Proof using Type. intros Hc. eapply core_same; [done|done|done|done|apply Hc|apply Hc]. Qed.

Lemma apply_position_spec p i r j :
  core p (applied p) → is_Some (windows p) → entries (manager p) !! i = Some r →
  findWindow applied_window (applied p) (request_window r) = Some j → applied p !! j = Some (applied_of r) →
  applying p (apply_position p i r) (applied p) ∧
  entries (manager (apply_position p i r)) = <[i := clear_pending r]> (entries (manager p)).
Proof using Type.
  intros Hc Hw Hr Hj Ha. unfold apply_position. destruct (cursorPositionPending r) eqn:Ep.
  - rewrite (alter_insert _ _ r) by done. set (p1 := set_manager _ _).
    assert (Hc1 : core p1 (applied p)) by by apply edit_entries_core.
    assert (H1 : applying p p1 (applied p)) by by split.
    destruct (decide (Mode (cursor r) = CursorModeLocked)) as [El|El]; [done|].
    assert (Hst : told_step (applied p) (CallSetCursorPosition (request_window r) (cursorPosition r)) = Some (applied p)).
    { cbn. rewrite Hj. cbn. rewrite Ha. cbn. by rewrite decide_False. }
    destruct (tell_spec p1 _ (λ s, ws_SetCursorPosition s (request_window r) (cursorPosition r)) _ _ Hw (core_told _ _ Hc1) Hst) as (s' & failed & -> & Ht).
    set (p2 := set_calls _ _).
    assert (H2 : applying p p2 (applied p)).
    { split; try done. eapply core_same; [exact Hc1|done|done|done|apply Hc1|exact Ht]. }
    destruct failed; [done|]. split; [|done]. destruct H2 as [Hc2 Ea [] Hw2 Ee]. split; try done.
    + eapply core_same; [exact Hc2|done|done|apply placePointer_tracked| |apply Hc2].
      eapply same_keys_wf; [apply placePointer_keys|apply Hc2].
    + split; try done. eapply same_keys_trans; [done|]. apply placePointer_keys.
  - assert (clear_pending r = r) as -> by (destruct r; cbn in *; by rewrite Ep).
    rewrite list_insert_id by done. by split; [split|].
Qed.

(** What is left of a list after its first [i] have been replaced. *)
Lemma replaced_lookup {A B} (f : A → B) (l : list A) (k : list B) i : i ≤ length l → ((f <$> take i l) ++ drop i k) !! i = k !! i.
Proof using Type.
  intros Hi. rewrite lookup_app_r by (rewrite length_fmap, length_take; lia).
  rewrite length_fmap, length_take, lookup_drop. f_equal. lia.
Qed.

Lemma replaced_insert {A} (f : A → A) (l : list A) i r :
  l !! i = Some r → <[i := f r]> ((f <$> take i l) ++ drop i l) = (f <$> take (Datatypes.S i) l) ++ drop (Datatypes.S i) l.
Proof using Type.
  intros Hr. assert (Hi : i < length l) by (by eapply lookup_lt_Some). rewrite (drop_S l r i Hr).
  replace i with (length (f <$> take i l)) at 1 by (rewrite length_fmap, length_take; lia).
  rewrite insert_middle, (take_S_r l i r Hr), fmap_app. by rewrite <- app_assoc.
Qed.

Section entries.
Context (p0 : pump S I) (A : list appliedWindow) (L : list requestEntry).
Context (prefix : of_applied A = take (length A) (request_window <$> L)) (HL : NoDup (request_window <$> L)).
Context (nonzero : zeroWindow ∉ request_window <$> L).

(** After the first [i] entries. *)
Record applying_upto (i : nat) (q : pump S I) : Prop := {
  upto_applying : applying p0 q ((applied_of <$> take i L) ++ drop i A);
  upto_entries : entries (manager q) = (clear_pending <$> take i L) ++ drop i L
}.

Lemma apply_entry_spec i q :
  i < length L → applying_upto i q → ∃ q', apply_entry i q = Some q' ∧ applying_upto (Datatypes.S i) q'.
Proof using All.
  intros Hi [Hap He]. destruct (lookup_lt_is_Some_2 L i Hi) as [r Hr]. pose proof (applying_applied _ _ _ Hap) as Ea.
  set (w := request_window r). unfold apply_entry.
  rewrite He, replaced_lookup by lia. rewrite Hr. cbn [mbind option_bind]. unfold find. fold w.
  assert (Hlen : length (applied_of <$> take i L) = i) by (rewrite length_fmap, length_take; lia).
  assert (Hmain : ∃ q', match findWindow applied_window (applied q) w with
      | Some j => a ← applied q !! j; Some (change_applied q j a r)
      | None => Some (open_new q r)
      end = Some q' ∧ applying q q' ((applied_of <$> take i L) ++ applied_of r :: drop (Datatypes.S i) A) ∧
      entries (manager q') = entries (manager q)).
  { pose proof (applying_core _ _ _ Hap) as Hc. rewrite <- Ea in Hc. pose proof (core_nodup _ _ Hc) as Hnd. pose proof (applying_windows _ _ _ Hap) as Hw.
    destruct (decide (i < length A)) as [HiA|HiA].
    - destruct (lookup_lt_is_Some_2 A i HiA) as [a Ha].
      assert (Hwa : applied_window a = w).
      { assert (E : of_applied A !! i = Some (applied_window a)) by (unfold of_applied; by rewrite list_lookup_fmap, Ha).
        rewrite prefix, lookup_take_lt, list_lookup_fmap, Hr in E by lia. by injection E. }
      rewrite Ea, (drop_S A a i Ha) in Hnd. unfold of_applied in Hnd.
      assert (Ef : findWindow applied_window (applied q) w = Some i).
      { rewrite Ea, (drop_S A a i Ha), <- Hwa, findWindow_middle by exact Hnd. by rewrite Hlen. }
      rewrite Ef. assert (Eq : applied q !! i = Some a).
      { rewrite Ea, lookup_app_r, Hlen, lookup_drop by lia. by rewrite Nat.sub_diag, Nat.add_0_r. }
      rewrite Eq. cbn. destruct (change_applied_spec q i a r Hc Hw Ef Eq) as (Hch & Em & Ei).
      eexists. split; [done|]. split; [|by rewrite Em]. rewrite Ea, (drop_S A a i Ha) in Hch.
      rewrite <- Hlen in Hch at 2. by rewrite insert_middle in Hch.
    - rewrite (drop_ge A) in * by lia. rewrite app_nil_r in *.
      assert (Hfresh : w ∉ of_applied (applied q)).
      { rewrite Ea, applied_of_windows, fmap_take. intros Hin. rewrite <- (take_drop_middle (request_window <$> L) i w) in HL by (by rewrite list_lookup_fmap, Hr).
        apply NoDup_app in HL as (_ & Hd & _). apply (Hd w Hin). by left. }
      rewrite (proj2 (findWindow_None applied_window (applied q) w) Hfresh).
      destruct (open_new_spec q r Hc Hw Hfresh) as (Ho & Eo).
      { intros E. apply nonzero. rewrite <- E. apply list_elem_of_fmap. exists r. split; [done|by eapply list_elem_of_lookup_2]. }
      eexists. split; [done|]. rewrite Ea in Ho. done. }
  destruct Hmain as (q1 & -> & Hap1 & Ee1). cbn [mbind option_bind]. eexists. split; [done|].
  pose proof (applying_applied _ _ _ Hap1) as Ea1. pose proof (applying_core _ _ _ Hap1) as Hc1. rewrite <- Ea1 in Hc1.
  assert (Enew : (applied_of <$> take i L) ++ applied_of r :: drop (Datatypes.S i) A = (applied_of <$> take (Datatypes.S i) L) ++ drop (Datatypes.S i) A).
  { rewrite (take_S_r L i r Hr), fmap_app, <- app_assoc. done. }
  destruct (apply_position_spec q1 i r i) as (Hp & Ep); [done|exact (applying_windows _ _ _ Hap1)| | | |].
  - by rewrite Ee1, He, replaced_lookup by lia.
  - pose proof (core_nodup _ _ Hc1) as Hnd. rewrite Ea1 in Hnd |- *. apply findWindow_middle in Hnd. by rewrite Hlen in Hnd.
  - rewrite Ea1, lookup_app_r, Hlen by lia. by rewrite Nat.sub_diag.
  - split.
    + rewrite Ea1, Enew in Hp. by eapply applying_trans; [eapply applying_trans|].
    + rewrite Ep, Ee1, He. by apply replaced_insert.
Qed.
End entries.
End steps.
