(* ===== verification/Pump.v ===== *)
(** * Histories of the pump

    The jobs of a program edit the window request, the implementations change
    state as they like, and ProcessEvents runs, in any order: what holds in
    every state, what a run publishes, and when it panics. *)

From Stdlib Require Import String SpecFloat.
From stdpp Require Import sorting.
From S2P Require Import Prelude Words WindowManager InputState EventProcessor PumpSteps.

(** ** What jobs ask of the window manager *)

Inductive request :=
  | JobOpen (e : WindowEntry)
  | JobChange (w : Window) (e : WindowEntry)
  | JobSetTitle (w : Window) (title : string)
  | JobSetSize (w : Window) (size : Size)
  | JobSetFullscreen (w : Window) (b : bool)
  | JobSetHidden (w : Window) (b : bool)
  | JobSetCursorShape (w : Window) (shape : CursorShape)
  | JobSetCursorHidden (w : Window) (b : bool)
  | JobSetCursorMode (w : Window) (mode : CursorMode)
  | JobSetCursorPosition (w : Window) (p : Point)
  | JobClose (w : Window).

Definition ask (m : WindowManager) (r : request) : WindowManager :=
  match r with
  | JobOpen e => (Open m e).1
  | JobChange w e => (Change m w e).1
  | JobSetTitle w t => (SetTitle m w t).1
  | JobSetSize w s => (SetSize m w s).1
  | JobSetFullscreen w b => (SetFullscreen m w b).1
  | JobSetHidden w b => (SetHidden m w b).1
  | JobSetCursorShape w s => (SetCursorShape m w s).1
  | JobSetCursorHidden w b => (SetCursorHidden m w b).1
  | JobSetCursorMode w mode => (SetCursorMode m w mode).1
  | JobSetCursorPosition w p => (SetCursorPosition m w p).1
  | JobClose w => Close m w
  end.

(** ** A reader of the events

    What a handler knows that folds the KeyEvents of a run: the keys held, and
    those that went down and up. *)

Definition key_levels : Type := gset Key * gset Key * gset Key.

Definition reader_step (l : key_levels) (e : event) : key_levels :=
  let '(h, down, up) := l in
  match e with
  | KeyEvent _ k true _ _ _ _ => ({[k]} ∪ h, if decide (k ∈ h) then down else {[k]} ∪ down, up)
  | KeyEvent _ k false _ _ _ _ => (h ∖ {[k]}, down, {[k]} ∪ up)
  | _ => l
  end.

(** A release is of a key held, and no key is held as the focus is lost. *)
Definition event_ok (l : key_levels) (e : event) : Prop :=
  match e with
  | KeyEvent _ k false _ _ _ _ => k ∈ l.1.1
  | FocusEvent _ false => l.1.1 = ∅
  | _ => True
  end.

Fixpoint events_ok (l : key_levels) (es : list event) : Prop :=
  match es with
  | [] => True
  | e :: es => event_ok l e ∧ events_ok (reader_step l e) es
  end.

Definition levels (i : InputState) : key_levels := (keys_of (held i), keys_of (pressed i), keys_of (released i)).

Lemma events_ok_app l es es' : events_ok l (es ++ es') ↔ events_ok l es ∧ events_ok (foldl reader_step l es) es'.
Proof. revert l. induction es as [|e es IH]; intros l; cbn; [tauto|]. rewrite IH. tauto. Qed.

Lemma same_levels s s' : same_keys s s' → levels s' = levels s.
Proof. intros (E1 & E2 & E3 & _). unfold levels. by rewrite E1, E2, E3. Qed.

(** ** Coalescing *)

Lemma take_last_move_split w l m l' :
  take_last_move w l = Some (m, l') →
  ∃ l1 l2, l = l1 ++ m :: l2 ∧ l' = l1 ++ l2 ∧ Kind m = InputChangePointerMove ∧ ChangeWindow m = w.
Proof.
  revert m l'. induction l as [|e l IH]; intros m l'; cbn; [done|].
  destruct (take_last_move w l) as [[m1 l1]|] eqn:E.
  - intros [= <- <-]. destruct (IH _ _ eq_refl) as (k1 & k2 & -> & -> & ? & ?). by exists (e :: k1), k2.
  - case_decide as Hd; [|done]. intros [= <- <-]. exists [], l. by destruct Hd.
Qed.

Lemma event_of_move m : Kind m = InputChangePointerMove → ∃ w p d, event_of m = Some (PointerMoveEvent w p d).
Proof. intros E. unfold event_of. rewrite E. by do 3 eexists. Qed.

(** The events of a run so far, as a reader of keys that knew [h0] sees
    them. *)
Record read_as (h0 : gset Key) (l : list InputChange) (k : key_levels) : Prop := {
  read_levels : foldl reader_step (h0, ∅, ∅) (omap event_of l) = k;
  read_ok : events_ok (h0, ∅, ∅) (omap event_of l)
}.

Lemma read_snoc h0 l k c e :
  read_as h0 l k → event_of c = Some e → event_ok k e → read_as h0 (l ++ [c]) (reader_step k e).
Proof.
  intros [El Ho] Ee He. split; rewrite omap_app; cbn; rewrite Ee.
  - by rewrite foldl_app, El.
  - apply events_ok_app. rewrite El. by split.
Qed.

(** A change that is neither of a key nor of the focus. *)
Lemma read_quiet h0 l k c :
  read_as h0 l k → (∀ e, event_of c = Some e → reader_step k e = k ∧ event_ok k e) → read_as h0 (l ++ [c]) k.
Proof.
  intros Hr He. destruct (event_of c) as [e|] eqn:E.
  - destruct (He e eq_refl) as [Es Ho]. rewrite <- Es. by eapply read_snoc.
  - destruct Hr as [El Ho]. split; rewrite omap_app; cbn; rewrite E; by rewrite app_nil_r.
Qed.

Lemma read_without_move h0 l w m l' k : take_last_move w l = Some (m, l') → read_as h0 l k → read_as h0 l' k.
Proof.
  intros (l1 & l2 & -> & -> & Hk & _)%take_last_move_split [El Ho].
  destruct (event_of_move m Hk) as (v & pos & d & Ee). rewrite omap_app in *. cbn in *. rewrite Ee in *.
  assert (Es : ∀ x, reader_step x (PointerMoveEvent v pos d) = x) by (by intros [[]]).
  split; rewrite omap_app.
  - rewrite foldl_app in *. cbn in El. by rewrite Es in El.
  - apply events_ok_app in Ho as [Ho1 Ho2]. apply events_ok_app. split; [done|].
    cbn in Ho2. rewrite Es in Ho2. apply Ho2.
Qed.

Section fold.
Context {S I : Type} `{WindowsSocket S, InputSourceSocket I}.
Implicit Types (p q : pump S I) (l : list appliedWindow) (w : Window) (c : InputChange).

Lemma core_edit_state p l i f :
  (∀ s, state_window (f s) = state_window s) → core p l → core (edit_state p i f) l.
Proof using Type.
  intros Hf Hc. eapply core_same; [done|done| |done|apply Hc|apply Hc].
  unfold edit_state, known. cbn. by apply alter_keys.
Qed.

Lemma core_input p l i : tracked i = tracked (input p) → input_wf i → core p l → core (set_input p i) l.
Proof using Type. intros Et Hwf Hc. eapply core_same; [done|done|done|done|done|apply Hc]. Qed.

Lemma core_events p l es : core p l → core (set_events p es) l.
Proof using Type. intros Hc. eapply core_same; [done|done|done|done|apply Hc|apply Hc]. Qed.

Lemma core_modifiers p l n : core p l → core (set_modifiers p n) l.
Proof using Type. intros Hc. eapply core_same; [done|done|done|done|apply Hc|apply Hc]. Qed.

(** What a change other than a close leaves: [p'] reads as [p] read. *)
Record folds (h0 : gset Key) p p' : Prop := {
  folds_core : core p' (applied p');
  folds_read : read_as h0 (events p') (levels (input p'));
  folds_entries : entries (manager p') = entries (manager p);
  folds_lastID : lastID (manager p') = lastID (manager p);
  folds_applied : applied p' = applied p;
  folds_windows : is_Some (windows p) ↔ is_Some (windows p')
}.

Lemma folds_refl h0 p : core p (applied p) → read_as h0 (events p) (levels (input p)) → folds h0 p p.
Proof using Type. by split. Qed.

Lemma folds_trans h0 p1 p2 p3 : folds h0 p1 p2 → folds h0 p2 p3 → folds h0 p1 p3.
Proof using Type. intros [] []. split; try done; try congruence. tauto. Qed.

(** An event no reader of keys looks at. *)
Lemma folds_emit h0 p p' c :
  folds h0 p p' → (∀ k e, event_of c = Some e → reader_step k e = k ∧ event_ok k e) → folds h0 p (emit p' c).
Proof using Type.
  intros [Hc Hr He Hl Ha Hw] Hq. split; try done; [by apply core_events|]. cbn. apply read_quiet; [done|]. intros e. apply Hq.
Qed.

(** A change of the input state that keeps the keys. *)
Lemma folds_input h0 p p' i :
  folds h0 p p' → tracked i = tracked (input p') → same_keys (input p') i → folds h0 p (set_input p' i).
Proof using Type.
  intros [Hc Hr He Hl Ha Hw] Ht Hk. split; try done.
  - apply core_input; [done| |done]. eapply same_keys_wf; [done|apply Hc].
  - cbn. by rewrite (same_levels _ _ Hk).
Qed.

Lemma folds_edit_state h0 p p' i f :
  folds h0 p p' → (∀ s, state_window (f s) = state_window s) → folds h0 p (edit_state p' i f).
Proof using Type. intros [Hc Hr He Hl Ha Hw] Hf. split; try done. by apply core_edit_state. Qed.

Lemma quiet_kind c (kinds : list InputChangeKind) :
  Kind c ∈ kinds → InputChangeKey ∉ kinds → InputChangeFocus ∉ kinds →
  ∀ k e, event_of c = Some e → reader_step k e = k ∧ event_ok k e.
Proof using Type.
  intros Hin Hk Hf [[h d] u] e. unfold event_of. destruct (Kind c) eqn:E; intros [= <-]; try done; by destruct Hk || by destruct Hf.
Qed.

Lemma levels_eq i h d u : keys_of (held i) = h → keys_of (pressed i) = d → keys_of (released i) = u → levels i = (h, d, u).
Proof using Type. by intros <- <- <-. Qed.

Lemma wf_pointers (i i' : InputState) : pointers i' = pointers i → tracked i' = tracked i.
Proof using Type. intros E. unfold tracked. by rewrite E. Qed.

(** A key that goes down or up, and its event. *)
Lemma folds_key_event h0 p p' i c e :
  folds h0 p p' → pointers i = pointers (input p') → input_wf i → event_of c = Some e →
  event_ok (levels (input p')) e → levels i = reader_step (levels (input p')) e →
  folds h0 p (emit (set_input p' i) c).
Proof using Type.
  intros [Hc Hr He Hl Ha Hw] Hp Hwf Ee Ho El. split; try done.
  - apply core_events, core_input; [by apply wf_pointers|done|done].
  - cbn. rewrite El. by apply read_snoc.
Qed.

Lemma fold_key_spec h0 p c :
  folds h0 p p → Kind c = InputChangeKey → isValid (ChangeKey c) = true → ∃ p', fold_key p c = Some p' ∧ folds h0 p p'.
Proof using Type.
  intros Hf Ek Hv. unfold fold_key. set (p1 := set_modifiers p (Modifiers c)).
  assert (H1 : folds h0 p p1).
  { destruct Hf as [Hc Hr]. split; try done. by apply core_modifiers. }
  assert (Hwf : input_wf (input p1)) by apply (folds_core _ _ _ H1).
  destruct (Label_total (input p1) (ChangeKey c) Hwf) as [lb ->]. cbn [mbind option_bind].
  destruct (Pressed c) eqn:Ep.
  - destruct (press_spec (input p1) (ChangeKey c) Hwf Hv) as (i & -> & Hi & Epo & _ & Eh & Er & Epr). cbn [mbind option_bind].
    eexists. split; [done|]. eapply folds_key_event; [done|done|done|unfold event_of; cbn; rewrite Ek; done|by rewrite Ep|].
    rewrite Ep. apply levels_eq; [done|done|by rewrite Er].
  - rewrite IsHeld_spec by done. cbn [mbind option_bind]. case_bool_decide as Hin; [|by eexists].
    destruct (release_spec (input p1) (ChangeKey c) Hwf Hv) as (i & -> & Hi & Epo & _ & Eh & Er & Epr). cbn [mbind option_bind].
    eexists. split; [done|]. eapply folds_key_event; [done|done|done|unfold event_of; cbn; rewrite Ek; done|by rewrite Ep|].
    rewrite Ep. apply levels_eq; [done|by rewrite Er|done].
Qed.

(** As the focus is lost, after the first [n] keys. *)
Lemma release_held_spec h0 p w q n :
  w ≠ zeroWindow → n < keyCount → folds h0 p q → (∀ k, k ∈ keys_of (held (input q)) → n ≤ k) →
  ∃ q', release_held w n q = Some q' ∧ folds h0 p q' ∧ (∀ k, k ∈ keys_of (held (input q')) → Datatypes.S n ≤ k).
Proof using Type.
  intros Hw Hn Hf Hk. unfold release_held. assert (Hwf : input_wf (input q)) by apply (folds_core _ _ _ Hf).
  rewrite IsHeld_spec by done. cbn [mbind option_bind]. case_bool_decide as Hin.
  - assert (Hv : isValid n = true) by by apply Nat.ltb_lt.
    destruct (release_spec (input q) n Hwf Hv) as (i & -> & Hi & Epo & _ & Eh & Er & Epr). cbn [mbind option_bind].
    destruct (Label_total i n Hi) as [lb ->]. cbn [mbind option_bind].
    assert (Hpos : is_Some (if IsMouseButton n then PointerPosition i w else Some zeroPoint)).
    { destruct (IsMouseButton n); [|by eexists]. unfold PointerPosition. destruct (pointer_total i w Hw) as [x ->]. by eexists. }
    destruct Hpos as [pos ->]. cbn [mbind option_bind]. eexists. split; [done|]. split.
    + eapply folds_key_event; [done|done|done|done|done|]. apply levels_eq; [done|by rewrite Er|done].
    + cbn. intros k. rewrite Eh, elem_of_difference, elem_of_singleton. intros [Hin' Hne]. pose proof (Hk k Hin'). lia.
  - eexists. split; [done|]. split; [done|]. intros k Hin'. pose proof (Hk k Hin'). destruct (decide (k = n)) as [->|]; [done|lia].
Qed.

Lemma release_all_spec h0 p w q :
  w ≠ zeroWindow → folds h0 p q →
  ∃ q', for_range keyCount (release_held w) q = Some q' ∧ folds h0 p q' ∧ keys_of (held (input q')) = ∅.
Proof using Type.
  intros Hw Hf.
  destruct (for_range_invariant (λ n q, folds h0 p q ∧ ∀ k, k ∈ keys_of (held (input q)) → n ≤ k) (release_held w) keyCount q)
    as (q' & Hq' & Hf' & Hk).
  - split; [done|]. intros. lia.
  - intros n q1 Hn [Hf1 Hk1]. destruct (release_held_spec h0 p w q1 n Hw Hn Hf1 Hk1) as (q2 & ? & ? & ?). by exists q2.
  - exists q'. split_and!; [done..|]. apply set_eq. intros k. split; [|by intros ?%elem_of_empty].
    intros Hin. pose proof (Hk k Hin) as Hle. apply elem_keys_of in Hin as [Hv%Nat.ltb_lt _]. lia.
Qed.

Lemma reapply_spec h0 p p' i :
  folds h0 p p' → i < length (states (manager p')) → ∃ q, reapplyCursorMode p' i = Some q ∧ folds h0 p q ∧ input q = input p'.
Proof using Type.
  intros Hf Hi. unfold reapplyCursorMode. destruct (lookup_lt_is_Some_2 _ _ Hi) as [s ->]. cbn [mbind option_bind].
  destruct (windows p') as [ws|] eqn:Ews; [|by eexists]. destruct (find p' (state_window s)) as [j|] eqn:Ej; [|by eexists].
  destruct (findWindow_Some _ _ _ _ Ej) as (a & Ha & Ewa). rewrite Ha. cbn [mbind option_bind].
  case_decide; [by eexists|].
  destruct (setCursor_spec p' (state_window s) j a (applied_cursor a) (applied p') (folds_core _ _ _ Hf)) as (Hc & [ws' Hw'] & Hfr & Em & Ei & Ea & Ee); [by eexists|done|done|].
  rewrite Hw'. eexists. split; [done|]. split; [|done]. apply folds_edit_state; [|done].
  eapply folds_trans; [done|]. assert (El : <[j := mkApplied (applied_window a) (applied_entry a) (applied_cursor a)]> (applied p') = applied p').
  { apply list_insert_id. rewrite Ha. by destruct a. }
  rewrite El in Hc. split; rewrite ?Em, ?Ei, ?Ee, ?Ea, ?Ews, ?Hw'; first [done|apply Hf|by split; eexists].
Qed.

Lemma findState_bound (m : WindowManager) w i : findState m w = Some i → i < length (states m).
Proof using Type.
  unfold findState. case_decide; [done|]. intros (s & Hs & _)%findWindow_Some. by eapply lookup_lt_Some.
Qed.

Lemma fold_focus_spec h0 p c :
  folds h0 p p → Kind c = InputChangeFocus → ChangeWindow c ≠ zeroWindow → ∃ p', fold_focus p c = Some p' ∧ folds h0 p p'.
Proof using Type.
  intros Hf Ek Hz. unfold fold_focus.
  assert (H1 : ∃ p1, note_focus p c = Some p1 ∧ folds h0 p p1).
  { unfold note_focus. destruct (findState (manager p) (ChangeWindow c)) as [i|] eqn:Ei; [|by eexists]. cbn zeta.
    assert (Hf' : folds h0 p (edit_state p i (focused_state (Focused c)))) by by apply folds_edit_state.
    destruct (Focused c) eqn:Efo; [|by eexists]. destruct (reapply_spec h0 p _ i Hf') as (q & -> & Hq & _); [|by exists q].
    unfold edit_state. cbn. rewrite length_alter. by eapply findState_bound. }
  destruct H1 as (p1 & -> & H1). cbn [mbind option_bind].
  destruct (Focused c) eqn:Efo; cbn [mbind option_bind].
  - eexists. split; [done|]. apply folds_emit; [done|]. intros [[h d] u] e. unfold event_of. rewrite Ek. intros [= <-].
    by rewrite Efo.
  - set (p2 := set_modifiers p1 _).
    assert (H2 : folds h0 p p2).
    { destruct H1 as [Hc Hr]. split; try done. by apply core_modifiers. }
    destruct (release_all_spec h0 p (ChangeWindow c) p2 Hz H2) as (q & -> & Hq & Eh). cbn [mbind option_bind].
    eexists. split; [done|]. destruct Hq as [Hc Hr He Hl Ha Hw]. split; try done; [by apply core_events|]. cbn.
    apply read_quiet; [done|]. intros e. unfold event_of. rewrite Ek. intros [= <-]. rewrite Efo. by split.
Qed.

Lemma fold_move_spec h0 p c :
  folds h0 p p → Kind c = InputChangePointerMove → ChangeWindow c ≠ zeroWindow → ∃ p', fold_move p c = Some p' ∧ folds h0 p p'.
Proof using Type.
  intros Hf Ek Hz. unfold fold_move.
  assert (H1 : ∃ p1 c1, note_move p c = Some (p1, c1) ∧ folds h0 p p1 ∧ Kind c1 = InputChangePointerMove).
  { unfold note_move, EffectiveCursorMode. destruct (state_total (manager p) _ Hz) as [s ->].
    cbn [fmap option_fmap option_map mbind option_bind]. case_decide.
    - unfold PointerPosition. destruct (pointer_total (input p) _ Hz) as [x ->]. cbn. by do 2 eexists.
    - pose proof (movePointer_tracked (input p) (ChangeWindow c) (Position c)) as Ht.
      pose proof (movePointer_keys (input p) (ChangeWindow c) (Position c)) as Hk.
      destruct (movePointer (input p) (ChangeWindow c) (Position c)) as [i m]. do 2 eexists. split; [done|].
      split; [by apply folds_input|done]. }
  destruct H1 as (p1 & c1 & -> & H1 & Ek1). cbn [mbind option_bind].
  assert (Hq : ∀ c2, Kind c2 = InputChangePointerMove → ∀ k e, event_of c2 = Some e → reader_step k e = k ∧ event_ok k e).
  { intros c2 E2. apply (quiet_kind c2 [InputChangePointerMove]); rewrite ?E2, ?list_elem_of_singleton; by auto. }
  destruct (take_last_move (ChangeWindow c) (events p1)) as [[earlier es]|] eqn:Et.
  - eexists. split; [done|]. apply folds_emit; [|by apply Hq].
    destruct H1 as [Hc Hr He Hl Ha Hw]. split; try done; [by apply core_events|]. cbn. by eapply read_without_move.
  - eexists. split; [done|]. by apply folds_emit; [|apply Hq].
Qed.

(** ** In every state *)

(** The windows requested that are applied come first, and ids only grow. *)
Record pump_inv p : Prop := {
  inv_core : core p (applied p);
  inv_prefix : filter (λ w, w ∈ requested (manager p)) (of_applied (applied p)) `prefix_of` requested (manager p);
  inv_requested : StronglySorted N.lt (requested (manager p));
  inv_applied : StronglySorted N.lt (of_applied (applied p));
  inv_ids : Forall (λ w, 0 < w ≤ lastID (manager p))%N (requested (manager p) ++ of_applied (applied p))
}.

(** What was applied is what is requested, no cursor position pending. *)
Definition synced p : Prop :=
  applied p = applied_of <$> entries (manager p) ∧ Forall (λ r, cursorPositionPending r = false) (entries (manager p)).

Lemma sorted_NoDup (ws : list Window) : StronglySorted N.lt ws → NoDup ws.
Proof using Type.
  induction 1 as [|w ws Hs IH Hw]; constructor; [|done]. intros Hin. rewrite Forall_forall in Hw. specialize (Hw w Hin). lia.
Qed.

Lemma without_sorted w (ws : list Window) : StronglySorted N.lt ws → StronglySorted N.lt (without w ws).
Proof using Type.
  unfold without. induction 1 as [|v ws Hs IH Hv]; [constructor|]. rewrite filter_cons. case_decide; [|done].
  constructor; [done|]. rewrite Forall_forall in *. intros x [_ Hx]%list_elem_of_filter. by apply Hv.
Qed.

Lemma without_Forall (P : Window → Prop) w ws : Forall P ws → Forall P (without w ws).
Proof using Type. rewrite !Forall_forall. intros HP x [_ Hx]%elem_of_without. by apply HP. Qed.

(** A window that leaves the request leaves the ones applied among it. *)
Lemma without_prefix w (ws vs : list Window) :
  filter (λ v, v ∈ vs) ws `prefix_of` vs → filter (λ v, v ∈ without w vs) ws `prefix_of` without w vs.
Proof using Type.
  intros [k E].
  assert (Ef : filter (λ v, v ∈ without w vs) ws = without w (filter (λ v, v ∈ vs) ws)).
  { change (without w (filter (λ v, v ∈ vs) ws)) with (filter (λ v, v ≠ w) (filter (λ v, v ∈ vs) ws)). rewrite list_filter_filter. apply list_filter_iff. intros x. rewrite elem_of_without. tauto. }
  exists (without w k). rewrite Ef. trans (without w (filter (λ v, v ∈ vs) ws ++ k)); [by rewrite <- E|]. unfold without. by rewrite filter_app.
Qed.


Lemma folds_inv h0 p p' : folds h0 p p' → pump_inv p → pump_inv p' ∧ (synced p → synced p').
Proof using Type.
  intros [Hc Hr He Hl Ha Hw] [Hcp Hp Hrs Has Hi].
  assert (Er : requested (manager p') = requested (manager p)) by (unfold requested; by rewrite He).
  split; [split; rewrite ?Er, ?Ha, ?Hl; first [done|by rewrite Ha in Hc]|]. unfold synced. by rewrite He, Ha.
Qed.

Lemma filter_without w (ws vs : list Window) : filter (λ v, v ∈ without w vs) (without w ws) = filter (λ v, v ∈ without w vs) ws.
Proof using Type.
  change (without w ws) with (filter (λ v, v ≠ w) ws). rewrite list_filter_filter. apply list_filter_iff.
  intros x. rewrite elem_of_without. tauto.
Qed.

Lemma findWindow_applied_of (es : list requestEntry) w :
  findWindow applied_window (applied_of <$> es) w = findWindow request_window es w.
Proof using Type. unfold findWindow. rewrite list_find_fmap. by destruct (list_find _ es) as [[]|]. Qed.

Lemma read_closed h0 (es : list InputChange) k w : read_as h0 es k → read_as h0 (es ++ [zeroChange InputChangeWindowClosed w]) k.
Proof using Type. intros Hr. apply read_quiet; [done|]. intros e [= <-]. by destruct k as [[]]. Qed.

(** A window that closed by itself leaves every list. *)
Lemma fold_closed_spec p w :
  pump_inv p →
  let p' := fold_closed p w in
  pump_inv p' ∧ (synced p → synced p') ∧ same_keys (input p) (input p') ∧ events p' = events p ∧
  (is_Some (windows p) ↔ is_Some (windows p')).
Proof using Type.
  intros [Hc Hp Hrs Has Hi]. unfold fold_closed. set (p2 := set_input _ _). cbn zeta.
  destruct (removeState_known (manager p) w) as (Ek & Ee & El); [rewrite (core_known _ _ Hc); apply Hc|rewrite (core_known _ _ Hc); apply Hc|].
  assert (Erm : requested (removeState (manager p) w) = requested (manager p)) by (unfold requested; by rewrite Ee).
  destruct (close_requested (removeState (manager p) w) w) as (Er & Es & El2).
  { rewrite Erm. by apply sorted_NoDup. }
  rewrite Erm in Er. assert (Hkeys : same_keys (input p) (input p2)) by apply forgetPointer_keys.
  assert (Ek2 : known (manager p2) = without w (known (manager p))) by (rewrite <- Ek; unfold known; cbn; by rewrite Es).
  assert (Et2 : tracked (input p2) = without w (tracked (input p))).
  { apply forgetPointer_tracked. rewrite (core_tracked _ _ Hc). apply Hc. }
  assert (Hl2 : lastID (manager p2) = lastID (manager p)) by (cbn; congruence).
  assert (Een : entries (manager p2) = match findEntry (manager p) w with None => entries (manager p) | Some i => delete i (entries (manager p)) end).
  { change (entries (Close (removeState (manager p) w) w) = match findEntry (manager p) w with None => entries (manager p) | Some i => delete i (entries (manager p)) end).
    unfold Close, findEntry. rewrite Ee. destruct (findWindow _ _ w); unfold set_entries; cbn -[removeState]; by rewrite ?Ee. }
  assert (Er2 : requested (manager p2) = without w (requested (manager p))) by exact Er.
  assert (Hwf2 : input_wf (input p2)) by (eapply same_keys_wf; [done|apply Hc]).
  assert (Hids : Forall (λ v, 0 < v ≤ lastID (manager p2))%N (without w (requested (manager p)))).
  { rewrite Hl2. apply without_Forall. by apply Forall_app in Hi as []. }
  apply Forall_app in Hi as [_ Hi].
  unfold find. change (applied p2) with (applied p). destruct (findWindow applied_window (applied p) w) as [j|] eqn:Ej.
  - set (p3 := set_calls _ _). assert (Ea : of_applied (delete j (applied p)) = without w (of_applied (applied p))).
    { apply delete_without; [apply Hc|done]. }
    split_and!; try done.
    + split.
      * split; cbn -[p2]; rewrite ?Ea.
        -- by rewrite Ek2, (core_known _ _ Hc).
        -- by rewrite Et2, (core_tracked _ _ Hc).
        -- rewrite told_snoc. change (calls p2) with (calls p). rewrite (core_told _ _ Hc). cbn. by rewrite Ej.
        -- apply without_NoDup, Hc.
        -- rewrite elem_of_without. intros [_ Hz]. by apply (core_zero _ _ Hc).
        -- done.
      * change (manager p3) with (manager p2). change (applied p3) with (delete j (applied p)). rewrite Er2, Ea, filter_without. by apply without_prefix.
      * change (manager p3) with (manager p2). rewrite Er2. by apply without_sorted.
      * change (applied p3) with (delete j (applied p)). rewrite Ea. by apply without_sorted.
      * change (manager p3) with (manager p2). change (applied p3) with (delete j (applied p)). rewrite Er2, Ea. apply Forall_app. split; [done|].
        rewrite Hl2. by apply without_Forall.
    + intros [Es1 Es2]. unfold synced. change (manager p3) with (manager p2). rewrite Een.
      rewrite Es1, findWindow_applied_of in Ej. unfold findEntry. rewrite Ej. cbn. rewrite Es1. split; [|by apply Forall_delete].
      by rewrite list_fmap_delete.
  - assert (Hn : w ∉ of_applied (applied p)) by by apply findWindow_None.
    split_and!; try done.
    + split; change (applied p2) with (applied p).
      * split; try apply Hc; [| |done].
        -- rewrite Ek2, (core_known _ _ Hc). by apply without_fresh.
        -- rewrite Et2, (core_tracked _ _ Hc). by apply without_fresh.
      * rewrite Er2. by apply without_prefix.
      * rewrite Er2. by apply without_sorted.
      * done.
      * rewrite Er2. apply Forall_app. split; [done|]. by rewrite Hl2.
    + intros [Es1 Es2]. unfold synced. rewrite Een. rewrite Es1, findWindow_applied_of in Ej. unfold findEntry. by rewrite Ej.
Qed.

(** ** A run *)

(** [p'] keeps what holds in every state; [p] may be mid-run. *)
Record folded (h0 : gset Key) p p' : Prop := {
  folded_inv : pump_inv p';
  folded_read : read_as h0 (events p') (levels (input p'));
  folded_synced : synced p → synced p';
  folded_windows : is_Some (windows p) ↔ is_Some (windows p')
}.

Lemma folds_folded h0 p p' : pump_inv p → folds h0 p p' → folded h0 p p'.
Proof using Type. intros Hp Hf. destruct (folds_inv h0 p p' Hf Hp). split; try done; apply Hf. Qed.

Lemma folded_quiet h0 p p' c (kinds : list InputChangeKind) :
  pump_inv p → folds h0 p p' → Kind c ∈ kinds → InputChangeKey ∉ kinds → InputChangeFocus ∉ kinds → folded h0 p (emit p' c).
Proof using Type. intros Hp Hf Hk ??. apply folds_folded; [done|]. apply folds_emit; [done|]. by apply (quiet_kind c kinds). Qed.

Lemma fold_spec h0 p c :
  pump_inv p → read_as h0 (events p) (levels (input p)) →
  Kind c = InputChangeLayout ∨ ChangeWindow c ≠ zeroWindow → (Kind c = InputChangeKey → isValid (ChangeKey c) = true) →
  ∃ p', fold p c = Some p' ∧ folded h0 p p'.
Proof using Type.
  intros Hp Hr Hz Hk. pose proof (folds_refl h0 p (inv_core _ Hp) Hr) as Hf. unfold fold.
  assert (Hquiet : ∀ p', folds h0 p p' → (Kind c ≠ InputChangeKey) → (Kind c ≠ InputChangeFocus) → folded h0 p (emit p' c)).
  { intros p' Hf' Hnk Hnf. apply (folded_quiet h0 p p' c [Kind c]); rewrite ?list_elem_of_singleton; by auto. }
  destruct (Kind c) eqn:Ek; try (eexists; split; [done|]; by apply Hquiet).
  - destruct (findState _ _) as [i|]; eexists; (split; [done|]); [|by apply folds_folded].
    apply Hquiet; [|done..]. by apply folds_edit_state.
  - eexists. split; [done|]. destruct (fold_closed_spec p (ChangeWindow c) Hp) as (Hp' & Hs & Hkeys & Ee & Hw).
    assert (Hf' : folds h0 (fold_closed p (ChangeWindow c)) (fold_closed p (ChangeWindow c))).
    { apply folds_refl; [apply Hp'|]. by rewrite Ee, (same_levels _ _ Hkeys). }
    destruct (folded_quiet h0 _ _ c [Kind c] Hp' Hf') as [Hi Hrd Hsy Hwi]; rewrite ?Ek, ?list_elem_of_singleton; [by auto..|].
    split; [done|done|by intros ?%Hs%Hsy|tauto].
  - destruct (fold_key_spec h0 p c Hf Ek (Hk eq_refl)) as (p' & -> & ?). exists p'. split; [done|]. by apply folds_folded.
  - destruct Hz as [|Hz]; [done|]. destruct (fold_focus_spec h0 p c Hf Ek Hz) as (p' & -> & ?). exists p'. split; [done|]. by apply folds_folded.
  - destruct Hz as [|Hz]; [done|]. destruct (fold_move_spec h0 p c Hf Ek Hz) as (p' & -> & ?). exists p'. split; [done|]. by apply folds_folded.
  - eexists. split; [done|]. apply Hquiet; [|done..]. apply folds_input; [done|apply enterPointer_tracked|apply enterPointer_keys].
  - eexists. split; [done|]. apply Hquiet; [|done..]. apply folds_input; [done|apply leavePointer_tracked|apply leavePointer_keys].
  - destruct (findState _ _) as [i|]; eexists; (split; [done|]); [|by apply folds_folded].
    apply Hquiet; [|done..]. by apply folds_edit_state.
  - destruct (inputSource p) as [src|]; [|eexists; split; [done|]; by apply Hquiet].
    destruct (rebuildLabels_spec (input p) (is_Label src)) as (i & -> & Hi & Eh & Epr & Er & Epo & _); [apply (core_wf _ _ (inv_core _ Hp))|].
    cbn [mbind option_bind]. eexists. split; [done|]. apply Hquiet; [|done..]. destruct Hf as [Hc Hrd He Hl Ha Hw]. split; try done.
    + apply core_input; [by apply wf_pointers|done|done].
    + cbn. unfold levels. by rewrite Eh, Epr, Er.
Qed.

(** A change that names a window known and, if of a key, one of the Keys. *)
Lemma change_valid_spec (m : WindowManager) c :
  change_valid m c = true ↔
  (Kind c = InputChangeLayout ∨ ChangeWindow c ≠ zeroWindow ∧ ChangeWindow c ∈ known m) ∧
  (Kind c = InputChangeKey → isValid (ChangeKey c) = true).
Proof using Type.
  unfold change_valid. rewrite andb_true_iff, bool_decide_eq_true, orb_true_iff, negb_true_iff, bool_decide_eq_false.
  assert (Ef : is_Some (findState m (ChangeWindow c)) ↔ ChangeWindow c ≠ zeroWindow ∧ ChangeWindow c ∈ known m).
  { unfold findState. case_decide as Hz; [by split; [intros []|intros []]|]. rewrite findWindow_is_Some. tauto. }
  rewrite Ef. destruct (decide (Kind c = InputChangeKey)); tauto.
Qed.

Lemma fold_all_spec h0 p (cs : list InputChange) :
  pump_inv p → read_as h0 (events p) (levels (input p)) →
  Forall (λ c, (Kind c = InputChangeLayout ∨ ChangeWindow c ≠ zeroWindow) ∧ (Kind c = InputChangeKey → isValid (ChangeKey c) = true)) cs →
  ∃ p', for_each cs (λ c p, fold p c) p = Some p' ∧ folded h0 p p'.
Proof using Type.
  revert p. induction cs as [|c cs IH]; intros p Hp Hr Hv; cbn; [by exists p|]. apply Forall_cons in Hv as [[Hv1 Hv2] Hv].
  destruct (fold_spec h0 p c Hp Hr Hv1 Hv2) as (p1 & -> & [Hp1 Hr1 Hs1 Hw1]). cbn [mbind option_bind].
  destruct (IH p1 Hp1 Hr1 Hv) as (p2 & E & [Hp2 Hr2 Hs2 Hw2]). exists p2. split; [exact E|]. split; [done|done|by auto|tauto].
Qed.

(** The request applied: every window requested is open, no other, as
    requested. *)
Lemma apply_spec p :
  pump_inv p → is_Some (windows p) →
  ∃ p' gone, apply p = Some p' ∧ core p' (applied p') ∧ frame p p' ∧ is_Some (windows p') ∧ synced p' ∧
    requested (manager p') = requested (manager p) ∧
    events p' = events p ++ (zeroChange InputChangeWindowClosed <$> gone).
Proof using All.
  intros [Hc Hp Hrs Has Hi] Hw. unfold apply.
  destruct (close_gone_spec [] (applied p) p Hc Hw) as (kept & p1 & gone & -> & Hc1 & Hf1 & Hw1 & He1 & Ha1 & Ek & Hev).
  set (p2 := set_applied p1 kept). set (L := entries (manager p)).
  assert (HL : request_window <$> L = requested (manager p)) by done.
  assert (Hpre : of_applied kept = take (length kept) (request_window <$> L)).
  { rewrite HL. assert (Efk : of_applied kept = filter (λ w, w ∈ requested (manager p)) (of_applied (applied p))).
    { rewrite Ek. unfold of_applied. by rewrite filter_of_fmap. }
    rewrite <- Efk in Hp. destruct Hp as [k ->]. rewrite take_app_length'; [done|]. unfold of_applied. by rewrite length_fmap. }
  assert (Hnd : NoDup (request_window <$> L)) by (rewrite HL; by apply sorted_NoDup).
  assert (Hz : zeroWindow ∉ request_window <$> L).
  { rewrite HL. intros Hin. rewrite Forall_app, Forall_forall in Hi. destruct Hi as [Hi _]. specialize (Hi _ Hin). unfold zeroWindow in Hi. lia. }
  assert (Hle : length kept ≤ length L).
  { pose proof (f_equal length Hpre) as El. unfold of_applied in El. rewrite length_take, !length_fmap in El. lia. }
  assert (Hc2 : core p2 kept) by (eapply core_same; [exact Hc1|done|done|done|apply Hc1|apply Hc1]).
  destruct (for_range_invariant (applying_upto p2 kept L) apply_entry (length (entries (manager p2))) p2) as (q & -> & [Hq Heq]).
  - split; [|done]. rewrite take_0, drop_0. by split.
  - intros j s Hj Hs. apply apply_entry_spec; try done. change (manager p2) with (manager p1) in Hj. by rewrite He1 in Hj.
  - change (manager p2) with (manager p1) in *. rewrite He1 in *. fold L in Hq, Heq.
    rewrite take_ge, drop_ge, app_nil_r in Hq by lia. rewrite take_ge, drop_ge, app_nil_r in Heq by lia.
    pose proof (applying_applied _ _ _ Hq) as Ea. exists q, gone. split; [done|]. split_and!.
    + rewrite Ea. exact (applying_core _ _ _ Hq).
    + eapply frame_trans; [exact Hf1|]. eapply frame_trans; [|exact (applying_frame _ _ _ Hq)]. by split.
    + exact (applying_windows _ _ _ Hq).
    + split.
      * rewrite Ea, Heq, <- list_fmap_compose. done.
      * rewrite Heq. apply Forall_fmap, Forall_true. done.
    + unfold requested. rewrite Heq, <- list_fmap_compose. done.
    + rewrite (applying_events _ _ _ Hq). exact Hev.
Qed.

(** What [collect] leaves, from a state between runs. *)
Record collected p p1 : Prop := {
  collected_inv : pump_inv p1;
  collected_synced : is_Some (windows p) → synced p1;
  collected_levels : levels (input p1) = levels (input p);
  collected_events : ∃ gone, events p1 = zeroChange InputChangeWindowClosed <$> gone;
  collected_requested : requested (manager p1) = requested (manager p);
  collected_windows : is_Some (windows p) ↔ is_Some (windows p1)
}.

Lemma filter_own (ws vs : list Window) : ws ⊆ vs → filter (λ w, w ∈ vs) ws = ws.
Proof using Type.
  induction ws as [|w ws IH]; [done|]. intros Hs. rewrite filter_cons, decide_True by (apply Hs; by left).
  f_equal. apply IH. intros x Hx. apply Hs. by right.
Qed.

Lemma synced_inv p :
  core p (applied p) → synced p → StronglySorted N.lt (requested (manager p)) →
  Forall (λ w, 0 < w ≤ lastID (manager p))%N (requested (manager p)) → pump_inv p.
Proof using Type.
  intros Hc [Es _] Hs Hi. assert (E : of_applied (applied p) = requested (manager p)) by (rewrite Es; apply applied_of_windows).
  split; rewrite ?E; try done; [|by apply Forall_app].
  exists []. rewrite app_nil_r. symmetry. by apply filter_own.
Qed.

Lemma pump_windows_spec p :
  pump_inv p → events p = [] →
  ∃ p1, pump_windows p = Some p1 ∧ collected p p1 ∧ inputSource p1 = inputSource p ∧ labelled p1 = labelled p.
Proof using All.
  intros Hp He. unfold pump_windows. destruct (windows p) as [ws|] eqn:Ew.
  - destruct (apply_spec p Hp) as (q & gone & -> & Hc & Hf & [s Hw] & Hs & Er & Hev); [by rewrite Ew|].
    cbn [mbind option_bind]. rewrite Hw. destruct (ws_Pump s) as [s' l]. eexists. split; [done|].
    set (p1 := set_changes _ _). split; [|split; apply Hf].
    assert (Hc1 : core p1 (applied p1)) by (eapply core_same; [exact Hc|done|done|done|apply Hc|apply Hc]).
    assert (Hi1 : pump_inv p1).
    { apply synced_inv; [done|done|change (manager p1) with (manager q); rewrite Er; apply Hp|].
      change (manager p1) with (manager q). rewrite Er, (frame_lastID _ _ Hf).
      by destruct (proj1 (Forall_app _ _ _) (inv_ids _ Hp)). }
    split; try done.
    + apply same_levels, Hf.
    + exists gone. change (events p1) with (events q). by rewrite Hev, He.
  - exists p. split; [done|]. split; [|done]. split; try done; [|by exists []]. rewrite Ew. by intros [].
Qed.

(** A state that differs in nothing the invariant looks at. *)
Lemma collected_step p p1 p2 :
  collected p p1 → known (manager p2) = known (manager p1) → entries (manager p2) = entries (manager p1) →
  lastID (manager p2) = lastID (manager p1) → applied p2 = applied p1 → calls p2 = calls p1 → events p2 = events p1 →
  tracked (input p2) = tracked (input p1) → levels (input p2) = levels (input p1) → input_wf (input p2) →
  (is_Some (windows p1) ↔ is_Some (windows p2)) → collected p p2.
Proof using Type.
  intros [[Hc Hp Hrs Has Hi] Hs Hl [gone He] Hr Hw] Ek Ee El Ea Ec Ev Et Ele Hwf Hw2.
  assert (Er : requested (manager p2) = requested (manager p1)) by (unfold requested; by rewrite Ee).
  split; [split; rewrite ?Er, ?Ea, ?El; try done| | | | |].
  - eapply core_same; [exact Hc|done|done|done|done|]. rewrite Ec. apply Hc.
  - unfold synced. by rewrite Ea, Ee.
  - congruence.
  - exists gone. congruence.
  - congruence.
  - tauto.
Qed.

Lemma collect_spec p :
  pump_inv p → ∃ p1, collect p = Some p1 ∧ collected p p1.
Proof using All.
  intros Hp. unfold collect. set (p0 := set_events (set_changes p []) []).
  assert (Hp0 : pump_inv p0).
  { destruct Hp as [Hc Hpr Hrs Has Hi]. split; try done. eapply core_same; [exact Hc|done|done|done|apply Hc|apply Hc]. }
  destruct (pump_windows_spec p0 Hp0 eq_refl) as (p1 & -> & H1 & Es & El). cbn [mbind option_bind].
  assert (H2 : ∃ p2, pump_input p1 = Some p2 ∧ collected p0 p2).
  { unfold pump_input. destruct (inputSource p1) as [src|] eqn:Esrc; [|by exists p1].
    destruct (is_AppendChanges src) as [src' l]. set (q := set_changes _ _).
    assert (Hq : collected p0 q).
    { eapply collected_step; [exact H1|done..|apply (core_wf _ _ (inv_core _ (collected_inv _ _ H1)))|done]. }
    destruct (labelled q); [by exists q|].
    destruct (rebuildLabels_spec (input q) (is_Label src')) as (i & -> & Hi & Eh & Epr & Er & Epo & _); [apply (core_wf _ _ (inv_core _ (collected_inv _ _ Hq)))|].
    cbn [mbind option_bind]. eexists. split; [done|]. eapply collected_step; [exact Hq|done..| | |done|done].
    - by apply wf_pointers.
    - unfold levels. cbn. by rewrite Eh, Epr, Er. }
  destruct H2 as (p2 & -> & H2). cbn [mbind option_bind]. eexists. split; [done|].
  assert (H3 : collected p0 (take_modes p2)).
  { unfold take_modes. destruct (windows p2) as [ws|] eqn:Ew; [|done].
    eapply collected_step; [exact H2| |done..|apply (core_wf _ _ (inv_core _ (collected_inv _ _ H2)))|cbn; by rewrite Ew].
    unfold known. cbn. rewrite <- list_fmap_compose. by apply list_fmap_ext. }
  destruct H3. by split.
Qed.

(** A run in a state between runs: it panics on a change that is not valid,
    leaving what it collected, and else ends. *)
Lemma run_spec p :
  pump_inv p →
  ∃ p1, collect p = Some p1 ∧ pump_inv p1 ∧ (is_Some (windows p) → synced p1) ∧
    if forallb (change_valid (manager p1)) (changes p1) then
      ∃ p' evs, processEvents p = Some (p', Some evs) ∧ pump_inv p' ∧ (is_Some (windows p) → synced p') ∧
        levels (input p') = foldl reader_step (keys_of (held (input p)), ∅, ∅) evs ∧
        events_ok (keys_of (held (input p)), ∅, ∅) evs
    else processEvents p = Some (p1, None).
Proof using All.
  intros Hp. destruct (collect_spec p Hp) as (p1 & E1 & Hcl). exists p1. split; [done|]. split; [apply Hcl|]. split; [apply Hcl|].
  unfold processEvents. rewrite E1. cbn [mbind option_bind].
  destruct (forallb _ _) eqn:Ev; [|done]. set (h0 := keys_of (held (input p))). set (q := set_input p1 (clearEdges (input p1))).
  destruct emptyKeys_spec as [Hewf Ee].
  assert (Hq : pump_inv q).
  { destruct (collected_inv _ _ Hcl) as [Hc Hpr Hrs Has Hi]. split; try done. apply core_input; [done| |done].
    destruct (core_wf _ _ Hc). by split. }
  assert (Hl : levels (input q) = (h0, ∅, ∅)).
  { unfold levels. cbn. rewrite Ee. pose proof (collected_levels _ _ Hcl) as El. unfold levels in El. by injection El as ->. }
  assert (Hr : read_as h0 (events q) (levels (input q))).
  { destruct (collected_events _ _ Hcl) as [gone Eg]. change (events q) with (events p1). rewrite Hl, Eg.
    clear. induction gone as [|w gone IH] using rev_ind; [by split|]. rewrite fmap_app. by apply read_closed. }
  destruct (fold_all_spec h0 q (changes p1) Hq Hr) as (p2 & -> & [Hi2 [El2 Eo2] Hs2 Hw2]).
  { apply Forall_forall. intros c Hc. rewrite forallb_forall in Ev. apply list_elem_of_In in Hc. specialize (Ev c Hc).
    apply change_valid_spec in Ev as [[?|[? _]] ?]; auto. }
  cbn [mbind option_bind]. do 2 eexists. split; [done|]. split_and!; try done.
  intros Hw. apply Hs2. destruct (collected_synced _ _ Hcl Hw) as [Es1 Es2]. by split.
Qed.

(** ** Histories *)

(** A job asks, with fewer windows opened than a [uint64] counts; the
    implementations change state; or ProcessEvents runs, to its end or to a
    panic. *)
Inductive step p : pump S I → Prop :=
  | step_ask r : (lastID (manager p) < 2 ^ 64 - 1)%N → step p (set_manager p (ask (manager p) r))
  | step_world ws src :
      (is_Some (windows p) ↔ is_Some ws) → (is_Some (inputSource p) ↔ is_Some src) →
      step p (set_source (set_windows p ws) src)
  | step_run p' o : processEvents p = Some (p', o) → step p p'.

Inductive reachable (ws : option S) (src : option I) : pump S I → Prop :=
  | reach_new : reachable ws src (newPump ws src)
  | reach_step p p' : reachable ws src p → step p p' → reachable ws src p'.

Lemma ask_inv p r : (lastID (manager p) < 2 ^ 64 - 1)%N → pump_inv p → pump_inv (set_manager p (ask (manager p) r)).
Proof using Type.
  intros Hlast [Hc Hp Hrs Has Hi]. set (m' := ask (manager p) r).
  assert (Hm : states m' = states (manager p) ∧
    ((requested m' = requested (manager p) ∧ lastID m' = lastID (manager p)) ∨
     (∃ w, requested m' = without w (requested (manager p)) ∧ lastID m' = lastID (manager p)) ∨
     (requested m' = requested (manager p) ++ [lastID m'] ∧ lastID m' = lastID (manager p) + 1)%N)).
  { assert (He : ∀ w f, (∀ r, request_window (f r) = request_window r) →
      states (edit_request (manager p) w f).1 = states (manager p) ∧
      requested (edit_request (manager p) w f).1 = requested (manager p) ∧ lastID (edit_request (manager p) w f).1 = lastID (manager p)).
    { intros w f Hf. destruct (edit_request (manager p) w f) as [m b] eqn:E.
      destruct (edit_request_spec _ _ _ _ _ E Hf) as (? & _ & ? & _). split_and!; try done. revert E. unfold edit_request.
      by destruct (findEntry _ _); intros [= <- _]. }
    destruct r; try (split; [by apply He|left; split; by apply He]).
    - split; [done|]. right. right. cbn. unfold u64. rewrite N.mod_small by lia. split; [|done]. unfold requested. cbn. by rewrite fmap_app.
    - destruct (close_requested (manager p) w) as (? & ? & ?); [by apply sorted_NoDup|]. split; [done|]. right. left. by exists w. }
  destruct Hm as [Es Hm]. set (p' := set_manager p m').
  assert (Hc' : core p' (applied p)).
  { eapply core_same; [exact Hc|done|unfold known; cbn -[ask]; by rewrite Es|done|apply Hc|apply Hc]. }
  apply Forall_app in Hi as [Hi1 Hi2].
  destruct Hm as [[Er El]|[(w & Er & El)|[Er El]]]; split; try done;
    change (manager p') with m'; change (applied p') with (applied p); rewrite ?Er, ?El; try done.
  - by apply Forall_app.
  - by apply without_prefix.
  - by apply without_sorted.
  - apply Forall_app. split; [by apply without_Forall|done].
  - assert (Ef : filter (λ w, w ∈ requested (manager p) ++ [lastID (manager p) + 1]%N) (of_applied (applied p)) =
        filter (λ w, w ∈ requested (manager p)) (of_applied (applied p))).
    { apply filter_ext_in. intros x Hx. rewrite Forall_forall in Hi2. specialize (Hi2 x Hx).
      rewrite elem_of_app, list_elem_of_singleton. split; [intros [?| ->]; [done|lia]|by left]. }
    rewrite Ef. destruct Hp as [k E]. exists (k ++ [lastID (manager p) + 1]%N). by rewrite app_assoc, <- E.
  - apply StronglySorted_app. split_and!; [|done|by repeat constructor].
    intros x y Hx ->%list_elem_of_singleton. rewrite Forall_forall in Hi1. specialize (Hi1 x Hx). lia.
  - rewrite !Forall_app, Forall_singleton. split; [split; [|lia]|]; (eapply Forall_impl; [eassumption|]); cbn; lia.
Qed.

Lemma newPump_inv ws src : pump_inv (newPump ws src).
Proof using Type.
  destruct emptyKeys_spec as [He _]. split; [|by exists []|constructor..].
  split; first [done|exact NoDup_nil_2|exact (not_elem_of_nil _)|by split].
Qed.

Lemma pump_reachable_inv ws src p : reachable ws src p → pump_inv p.
Proof using All.
  induction 1 as [|p p' _ IH Hstep]; [apply newPump_inv|]. destruct Hstep as [r Hlt|ws' src' Hw Hs|p' o E].
  - by apply ask_inv.
  - destruct IH as [Hc Hp Hrs Has Hi]. split; try done. eapply core_same; [exact Hc|done|done|done|apply Hc|apply Hc].
  - destruct (run_spec p IH) as (p1 & _ & Hi1 & _ & Hr). destruct (forallb _ _).
    + destruct Hr as (p2 & evs2 & E2 & Hi & _). rewrite E in E2. by injection E2 as -> _.
    + rewrite E in Hr. by injection Hr as -> _.
Qed.

(** C21: whatever jobs ask for, whatever the window and input implementations
    report or answer, failures included, in every state a program reaches: the
    windows of the window state, of the input state's pointers and of what was
    last applied are the same, each once, in the order they were opened, so a
    getter of the zero Window reads one in both states or panics in both; the
    calls made have told the window implementation exactly what was applied,
    no call naming a window not open, a change giving the entry last told, no
    cursor position while the cursor is locked; and after a run with a window
    implementation, one that panics included, what was applied is what is
    requested, entry and cursor, with no cursor position pending. *)
Theorem pump_windows_agree ws src p :
  reachable ws src p →
  known (manager p) = of_applied (applied p) ∧ tracked (input p) = of_applied (applied p) ∧
  StronglySorted N.lt (of_applied (applied p)) ∧ (zeroWindow ∉ of_applied (applied p)) ∧
  (is_Some (state (manager p) zeroWindow) ↔ is_Some (pointer (input p) zeroWindow)) ∧
  told (calls p) = Some (applied p) ∧
  (∀ p' o, is_Some (windows p) → processEvents p = Some (p', o) →
     applied p' = applied_of <$> entries (manager p') ∧
     Forall (λ r, cursorPositionPending r = false) (entries (manager p'))).
Proof using All.
  intros Hp%pump_reachable_inv. pose proof (inv_core _ Hp) as Hc. split_and!; try apply Hc; try apply Hp.
  - rewrite state_zero. unfold pointer. rewrite decide_True by done.
    assert (El : length (states (manager p)) = length (pointers (input p))).
    { pose proof (f_equal length (core_known _ _ Hc)) as E1. pose proof (f_equal length (core_tracked _ _ Hc)) as E2.
      unfold known, tracked in *. rewrite !length_fmap in *. congruence. }
    rewrite El. destruct (pointers (input p)) as [|x [|y l]]; cbn; split; try done; by intros [].
  - intros p' o Hw E. destruct (run_spec p Hp) as (p1 & _ & _ & Hs1 & Hr). destruct (forallb _ _).
    + destruct Hr as (p2 & evs2 & E2 & _ & Hs & _). rewrite E in E2. injection E2 as -> _. by apply Hs.
    + rewrite E in Hr. injection Hr as -> _. by apply Hs1.
Qed.

(** C22: the events a run publishes are all a reader of keys needs: folded over
    the keys held before the run they give those held, just pressed and just
    released after it, a repeat being no press; a release published is of a key
    held at that point, and none is held as the loss of the focus is published,
    each having had its own release. *)
Theorem pump_publishes_levels ws src p p' evs :
  reachable ws src p → processEvents p = Some (p', Some evs) →
  let start := (keys_of (held (input p)), ∅, ∅) in
  let '(h, down, up) := foldl reader_step start evs in
  events_ok start evs ∧
  ∀ k, IsHeld (input p) k = Some (bool_decide (k ∈ start.1.1)) ∧
    IsHeld (input p') k = Some (bool_decide (k ∈ h)) ∧
    JustPressed (input p') k = Some (bool_decide (k ∈ down)) ∧
    JustReleased (input p') k = Some (bool_decide (k ∈ up)).
Proof using All.
  intros Hp%pump_reachable_inv E start. destruct (run_spec p Hp) as (p1 & _ & _ & _ & Hr). destruct (forallb _ _); [|by rewrite Hr in E].
  destruct Hr as (p2 & evs2 & E2 & Hi & _ & El & Ho). rewrite E in E2. injection E2 as -> <-. fold start in El, Ho.
  rewrite <- El. unfold levels. split; [done|]. intros k. pose proof (core_wf _ _ (inv_core _ Hi)) as [Hh Hd Hu _].
  split; [apply IsHeld_spec, (core_wf _ _ (inv_core _ Hp))|]. split_and!; by apply has_spec.
Qed.

(** C23: a run panics exactly when a change the sockets report names a window
    that is not known once the request is applied, or a key change no Key: no
    other change, and no answer of the implementations, makes it panic.  With a
    window implementation the windows known then are those requested, so,
    against what inputchange.go says, a change of a window that an earlier
    change of the same run reports closed does not panic, and one of a window
    the application has closed does.  A run that panics leaves the request
    applied, the batch dropped and nothing published, and the pump goes on. *)
Theorem pump_panics_exactly ws src p :
  reachable ws src p →
  ∃ p1 p' o, collect p = Some p1 ∧ processEvents p = Some (p', o) ∧
    (is_Some (windows p) → known (manager p1) = requested (manager p)) ∧
    (o = None ↔ ∃ c, c ∈ changes p1 ∧
       (Kind c ≠ InputChangeLayout ∧ ChangeWindow c ∉ known (manager p1) ∨
        Kind c = InputChangeKey ∧ isValid (ChangeKey c) = false)) ∧
    (o = None → p' = p1 ∧ reachable ws src p1).
Proof using All.
  intros Hreach. pose proof (pump_reachable_inv _ _ _ Hreach) as Hp. destruct (collect_spec p Hp) as (p1 & E1 & Hcl).
  destruct (run_spec p Hp) as (p2 & E2 & Hi & _ & Hr). rewrite E1 in E2. injection E2 as <-.
  assert (Hrun : ∃ p' o, processEvents p = Some (p', o) ∧ (o = None → p' = p1) ∧
    (o = None ↔ forallb (change_valid (manager p1)) (changes p1) = false)).
  { destruct (forallb _ _); [destruct Hr as (p3 & evs & E3 & _); by exists p3, (Some evs)|by exists p1, None]. }
  destruct Hrun as (p' & o & E & Ep & Eo). exists p1, p', o. split; [done|]. split; [done|]. split_and!.
  - intros Hw. destruct (collected_synced _ _ Hcl Hw) as [Es _]. rewrite (core_known _ _ (inv_core _ (collected_inv _ _ Hcl))), Es.
    rewrite applied_of_windows. apply (collected_requested _ _ Hcl).
  - rewrite Eo.
    assert (Hv : ∀ c, change_valid (manager p1) c = false ↔
      Kind c ≠ InputChangeLayout ∧ ChangeWindow c ∉ known (manager p1) ∨ Kind c = InputChangeKey ∧ isValid (ChangeKey c) = false).
    { intros c. rewrite <- not_true_iff_false, change_valid_spec.
      pose proof (core_zero _ _ (inv_core _ Hi)) as Hz. rewrite <- (core_known _ _ (inv_core _ Hi)) in Hz.
      destruct (decide (ChangeWindow c ∈ known (manager p1))) as [Hin|Hin]; [assert (ChangeWindow c ≠ zeroWindow) by congruence|];
        destruct (decide (Kind c = InputChangeLayout)), (decide (Kind c = InputChangeKey)), (isValid (ChangeKey c)); intuition congruence. }
    setoid_rewrite <- Hv. apply forallb_false.
  - intros E0. rewrite <- (Ep E0). split; [done|]. eapply reach_step; [done|]. by eapply step_run.
Qed.
End fold.

(** ** Schedules *)

Section schedules.
Context {S I : Type} `{WindowsSocket S, InputSourceSocket I}.

Inductive move :=
  | Ask (r : request)
  | RunPump.

(** What the runs published, so far. *)
Definition make_move (s : pump S I * list (option (list event))) (m : move) : option (pump S I * list (option (list event))) :=
  let '(p, evs) := s in
  match m with
  | Ask r => if decide (lastID (manager p) < 2 ^ 64 - 1)%N then Some (set_manager p (ask (manager p) r), evs) else None
  | RunPump => '(p', e) ← processEvents p; Some (p', evs ++ [e])
  end.

Lemma pump_moves_reachable ws src s ms s' :
  reachable ws src s.1 → run_moves make_move s ms = Some s' → reachable ws src s'.1.
Proof using Type.
  apply (run_moves_invariant (λ s, reachable ws src s.1)). intros [p evs] m [p' evs'] Hp. destruct m as [r|]; cbn.
  - case_decide; [|done]. intros [= <- <-]. eapply reach_step; [done|]. by apply step_ask.
  - destruct (processEvents p) as [[q e]|] eqn:E; [|done]. intros [= <- <-]. eapply reach_step; [done|]. by eapply step_run.
Qed.
End schedules.

Module PumpExample.
(** Implementations that report what a script says: the first opens what it is
    asked to but a window named x, and holds no cursor. *)
#[local] Instance script_windows : WindowsSocket (list (list InputChange)) := {
  ws_Open s w e := (s, bool_decide (Title e = "x"%string));
  ws_Change s _ _ _ := (s, false);
  ws_SetCursor s _ _ := (s, false);
  ws_EffectiveCursorMode _ _ := CursorModeNormal;
  ws_SetCursorPosition s _ _ := (s, false);
  ws_Close s _ := (s, false);
  ws_Pump s := match s with [] => ([], []) | l :: s => (s, l) end
}.

#[local] Instance script_source : InputSourceSocket (list (list InputChange)) := {
  is_AppendChanges s := match s with [] => ([], []) | l :: s => (s, l) end;
  is_Label _ k := Z.of_nat k
}.

Definition key (w : Window) (k : Key) (pressed repeat : bool) : InputChange :=
  mkChange InputChangeKey w zeroSize zeroSize zeroFloat (0%N, 0%N) k pressed repeat ModifierCapsLock zeroPoint zeroPoint false
    zeroPoint zeroPoint 0 0 false.

Definition focus (w : Window) (b : bool) : InputChange :=
  mkChange InputChangeFocus w zeroSize zeroSize zeroFloat (0%N, 0%N) KeyUnknown false false 0 zeroPoint zeroPoint false
    zeroPoint zeroPoint 0 0 b.

Definition moved (w : Window) (x : spec_float) : InputChange :=
  mkChange InputChangePointerMove w zeroSize zeroSize zeroFloat (0%N, 0%N) KeyUnknown false false 0 (mkPoint x zeroFloat) zeroPoint false
    zeroPoint zeroPoint 0 0 false.

Definition game : WindowEntry := mkEntry "game" (mkSize 640 480) false false.
Definition tools : WindowEntry := mkEntry "x" (mkSize 320 200) false true.

(** Two windows, one that fails to open; a cursor locked; two keys pressed, one
    repeated; the focus lost with both held; the first window closes by itself
    and the second's entry is removed. *)
Definition windows_script : list (list InputChange) :=
  [[zeroChange InputChangeWindowOpened 1]; []; [focus 1 true]; [focus 1 false]; [zeroChange InputChangeWindowClosed 1]].

Definition input_script : list (list InputChange) :=
  [[]; [key 1 1 true false; key 1 120 true false; key 1 1 true true; moved 1 zeroFloat; moved 1 zeroFloat; key 1 5 false false]].

Definition schedule : list move :=
  [Ask (JobOpen game); Ask (JobOpen tools); RunPump; Ask (JobSetCursorMode 1 CursorModeLocked);
   Ask (JobSetCursorPosition 1 zeroPoint); Ask (JobSetTitle 2 "tools"); RunPump; RunPump; Ask (JobClose 2); RunPump; RunPump].

Definition script_pump : Type := pump (list (list InputChange)) (list (list InputChange)).

Definition start : script_pump * list (option (list event)) := (newPump (Some windows_script) (Some input_script), []).

(** After the second run both windows are known, the first's cursor locked. *)
Lemma pump_windows_agree_witness :
  ∃ s, run_moves make_move start (take 7 schedule) = Some s ∧ of_applied (applied s.1) = [1; 2]%N ∧
    length (calls s.1) = 4 ∧ told (calls s.1) = Some (applied s.1) ∧ tracked (input s.1) = [1; 2]%N ∧
    ∀ p' evs, processEvents s.1 = Some (p', evs) → applied p' = applied_of <$> entries (manager p').
Proof.
  destruct (run_moves make_move start (take 7 schedule)) as [s|] eqn:E; [|vm_compute in E; discriminate].
  assert (Hs : reachable (Some windows_script) (Some input_script) s.1).
  { eapply (pump_moves_reachable _ _ start); [apply reach_new|exact E]. }
  assert (Hv : of_applied (applied s.1) = [1; 2]%N ∧ length (calls s.1) = 4 ∧ is_Some (windows s.1)).
  { vm_compute in E. injection E as <-. split; [reflexivity|]. split; [reflexivity|by eexists]. }
  destruct Hv as (Ha & Hc & Hw). destruct (pump_windows_agree _ _ s.1 Hs) as (_ & Ht & _ & _ & _ & Htold & Hrun).
  exists s. split; [done|]. split; [exact Ha|]. split; [exact Hc|]. split; [exact Htold|].
  split; [by rewrite Ht|]. intros p' evs Er. apply (Hrun p' evs Hw Er).
Defined.

(** Before the focus is lost two keys are held; the run that loses it publishes
    their releases first. *)
Lemma pump_publishes_levels_witness :
  ∃ s p' evs, run_moves make_move start (take 9 schedule) = Some s ∧ processEvents s.1 = Some (p', Some evs) ∧
    length evs = 4 ∧ events_ok (keys_of (held (input s.1)), ∅, ∅) evs ∧
    IsHeld (input s.1) 1 = Some true ∧ IsHeld (input p') 1 = Some false ∧ JustReleased (input p') 1 = Some true.
Proof.
  destruct (run_moves make_move start (take 9 schedule)) as [s|] eqn:E; [|vm_compute in E; discriminate].
  assert (Hs : reachable (Some windows_script) (Some input_script) s.1).
  { eapply (pump_moves_reachable _ _ start); [apply reach_new|exact E]. }
  destruct (processEvents s.1) as [[p' [evs|]]|] eqn:Er;
    [|vm_compute in E; injection E as <-; vm_compute in Er; discriminate..].
  pose proof (pump_publishes_levels _ _ s.1 p' evs Hs Er) as Hl. cbn zeta in Hl.
  destruct (foldl reader_step _ evs) as [[h down] up]. destruct Hl as [Ho _].
  exists s, p', evs. split; [done|]. split; [done|].
  vm_compute in E. injection E as <-. vm_compute in Er. injection Er as <- <-.
  split; [reflexivity|]. split; [exact Ho|]. split; [reflexivity|]. split; reflexivity.
Defined.

(** The focus reported of a window that the same run reports closed, and, once
    the application has closed it, of a window not reported closed: the first
    does not panic, the second does, and the run after goes on. *)
Definition late_script : list (list InputChange) :=
  [[zeroChange InputChangeWindowClosed 1; focus 1 true]; [focus 2 true]].

Definition late_start : script_pump * list (option (list event)) := (newPump (Some late_script) None, []).

Definition late_schedule : list move :=
  [Ask (JobOpen game); Ask (JobOpen game); RunPump; Ask (JobClose 2); RunPump; Ask (JobOpen tools); RunPump].

Example late_changes :
  snd <$> run_moves make_move late_start late_schedule =
  Some [Some [WindowClosedEvent 1; FocusEvent 1 true]; None; Some []].
Proof. vm_compute. reflexivity. Qed.

Lemma pump_panics_exactly_witness :
  ∃ s p1 p', run_moves make_move late_start (take 4 late_schedule) = Some s ∧ collect s.1 = Some p1 ∧
    focus 2 true ∈ changes p1 ∧ known (manager p1) = [] ∧ processEvents s.1 = Some (p', None) ∧ p' = p1.
Proof.
  destruct (run_moves make_move late_start (take 4 late_schedule)) as [s|] eqn:E; [|vm_compute in E; discriminate].
  assert (Hs : reachable (Some late_script) None s.1).
  { eapply (pump_moves_reachable _ _ late_start); [apply reach_new|exact E]. }
  destruct (pump_panics_exactly _ _ s.1 Hs) as (p1 & p' & o & E1 & E2 & _ & Hp & Hn).
  assert (Hc : focus 2 true ∈ changes p1 ∧ known (manager p1) = []).
  { vm_compute in E. injection E as <-. vm_compute in E1. injection E1 as <-. split; [by left|reflexivity]. }
  destruct Hc as [Hin Hk]. assert (Ho : o = None).
  { apply (proj2 Hp). exists (focus 2 true). split; [exact Hin|]. left. split; [discriminate|]. rewrite Hk. apply not_elem_of_nil. }
  subst o. exists s, p1, p'. split; [reflexivity|]. split; [exact E1|]. split; [exact Hin|]. split; [exact Hk|].
  split; [exact E2|]. apply (Hn eq_refl).
Defined.
End PumpExample.
