(* ===== verification/GfxTable.v ===== *)
(** * The handle tables of gfx/table.go

    The slots a handle type's handles index, each with a generation, and the
    indices free again.  Every operation runs under the table's mutex, so it
    is one step.  [None] is a run-time panic. *)

From stdpp Require Import sorting.
From S2P Require Import Prelude.

Record handle := mkHandle { index : N; handle_generation : N }.

#[export] Instance handle_eq_dec : EqDecision handle.
Proof. solve_decision. Defined.
#[export] Instance handle_countable : Countable handle.
Proof. by refine (inj_countable' (λ h, (index h, handle_generation h)) (λ p, mkHandle p.1 p.2) _); intros []. Defined.

Definition zeroHandle : handle := mkHandle 0 0.

(** The generation after one, skipping 0. *)
Definition nextGeneration (g : N) : N :=
  let g := u32 (g + 1) in if (g =? 0)%N then u32 (g + 1) else g.

Section table.
Context {D : Type} `{Zero D}.

Record slot := mkSlot { generation : N; slot_descriptor : D; held : bool }.

Record table := mkTable { slots : list slot; freeIndices : list N }.

Definition newTable : table := mkTable [] [].

(** Whether [h] names a slot under its current generation. *)
Definition holds (t : table) (h : handle) : option bool :=
  if (index h <? u32 (N.of_nat (length (slots t))))%N then
    s ← slots t !! N.to_nat (index h); Some (generation s =? handle_generation h)%N
  else Some false.

Definition acquire (t : table) (d : D) : option (table * handle) :=
  let '(t1, i) :=
    match last (freeIndices t) with
    | Some i => (mkTable (slots t) (take (length (freeIndices t) - 1) (freeIndices t)), i)
    | None => (mkTable (slots t ++ [mkSlot (nextGeneration 0) zero_value false]) (freeIndices t), u32 (N.of_nat (length (slots t))))
    end in
  s ← slots t1 !! N.to_nat i;
  l ← list_set (slots t1) (N.to_nat i) (mkSlot (generation s) d true);
  Some (mkTable l (freeIndices t1), mkHandle i (generation s)).

(** The error it answers is ErrReleased. *)
Definition retire (t : table) (h : handle) : option (table * bool) :=
  b ← holds t h;
  if b : bool then
    s ← slots t !! N.to_nat (index h);
    l ← list_set (slots t) (N.to_nat (index h)) (mkSlot (nextGeneration (generation s)) zero_value false);
    Some (mkTable l (freeIndices t), false)
  else Some (t, true).

Definition release (t : table) (h : handle) : table := mkTable (slots t) (freeIndices t ++ [index h]).

Definition descriptor (t : table) (h : handle) : option (option D) :=
  b ← holds t h;
  if b : bool then s ← slots t !! N.to_nat (index h); Some (Some (slot_descriptor s)) else Some None.

(** Whether [h] is stale. *)
Definition check (t : table) (h : handle) : option bool := negb <$> holds t h.

Fixpoint held_from (i : nat) (l : list slot) : list (handle * D) :=
  match l with
  | [] => []
  | s :: l =>
      if held s then (mkHandle (u32 (N.of_nat i)) (generation s), slot_descriptor s) :: held_from (S i) l
      else held_from (S i) l
  end.

Definition heldHandles (t : table) : list (handle * D) := held_from 0 (slots t).

(** ** The contract

    What each live handle was acquired with, the handles retired whose index
    is still to be handed out again, and every handle ever handed out. *)

Record tableSpec := mkSpec { live : gmap handle D; retiring : gset handle; given : gset handle }.

Definition newSpec : tableSpec := mkSpec ∅ ∅ ∅.

Inductive op :=
  | Acquire (d : D)
  | Retire (h : handle)
  | Release (h : handle)
  | Descriptor (h : handle)
  | Check (h : handle)
  | HeldHandles.

Inductive answer :=
  | AHandle (h : handle)
  | AErrReleased (b : bool)
  | ADescriptor (d : option D)
  | AHandles (l : list (handle * D))
  | ANone.

Definition exec (t : table) (o : op) : option (table * answer) :=
  match o with
  | Acquire d => '(t', h) ← acquire t d; Some (t', AHandle h)
  | Retire h => '(t', b) ← retire t h; Some (t', AErrReleased b)
  | Release h => Some (release t h, ANone)
  | Descriptor h => d ← descriptor t h; Some (t, ADescriptor d)
  | Check h => b ← check t h; Some (t, AErrReleased b)
  | HeldHandles => Some (t, AHandles (heldHandles t))
  end.

(** A handle is one handed out, or the zero one; it is released once, after
    its retire. *)
Definition op_ok (s : tableSpec) (o : op) : Prop :=
  match o with
  | Retire h | Descriptor h | Check h => h ∈ given s ∨ h = zeroHandle
  | Release h => h ∈ retiring s
  | _ => True
  end.

Inductive spec_step (s : tableSpec) : op → answer → tableSpec → Prop :=
  | spec_acquire d h :
      h ∉ given s → h ≠ zeroHandle →
      spec_step s (Acquire d) (AHandle h) (mkSpec (<[h := d]> (live s)) (retiring s) ({[h]} ∪ given s))
  | spec_retire h :
      is_Some (live s !! h) →
      spec_step s (Retire h) (AErrReleased false) (mkSpec (delete h (live s)) ({[h]} ∪ retiring s) (given s))
  | spec_retire_stale h : live s !! h = None → spec_step s (Retire h) (AErrReleased true) s
  | spec_release h : spec_step s (Release h) ANone (mkSpec (live s) (retiring s ∖ {[h]}) (given s))
  | spec_descriptor h : spec_step s (Descriptor h) (ADescriptor (live s !! h)) s
  | spec_check h : spec_step s (Check h) (AErrReleased (bool_decide (live s !! h = None))) s
  | spec_held l :
      l ≡ₚ map_to_list (live s) → StronglySorted N.lt (index ∘ fst <$> l) →
      spec_step s HeldHandles (AHandles l) s.

(** Fewer operations than a generation or an index counts. *)
Inductive reachable : nat → table → tableSpec → Prop :=
  | reach_new : reachable 0 newTable newSpec
  | reach_step n t s o t' a s' :
      reachable n t s → op_ok s o → (N.of_nat n < 2 ^ 32 - 2)%N →
      exec t o = Some (t', a) → spec_step s o a s' → reachable (S n) t' s'.

(** ** Invariant *)

Definition slot_of (t : table) (i : N) : option slot := slots t !! N.to_nat i.

Record sim (n : nat) (t : table) (s : tableSpec) : Prop := {
  sim_length : length (slots t) ≤ n;
  sim_generation : ∀ i x, slots t !! i = Some x → (1 ≤ generation x ≤ 1 + N.of_nat n)%N;
  sim_live : ∀ h d, live s !! h = Some d ↔
    ∃ x, slot_of t (index h) = Some x ∧ held x = true ∧ generation x = handle_generation h ∧ slot_descriptor x = d;
  sim_given : ∀ h, h ∈ given s → ∃ x, slot_of t (index h) = Some x ∧
    (1 ≤ handle_generation h ≤ generation x)%N ∧ (handle_generation h = generation x → held x = true);
  sim_indices : NoDup (freeIndices t ++ (index <$> elements (retiring s)));
  sim_unheld : ∀ i, i ∈ freeIndices t ++ (index <$> elements (retiring s)) → ∃ x, slot_of t i = Some x ∧ held x = false
}.
End table.

Arguments slot D : clear implicits.
Arguments table D : clear implicits.
Arguments tableSpec D : clear implicits.
Arguments op D : clear implicits.
Arguments answer D : clear implicits.

(** ** Proofs *)

Lemma table_generation_succ g : (g < 2 ^ 32 - 1)%N → nextGeneration g = (g + 1)%N.
Proof. intros Hg. unfold nextGeneration. rewrite u32_small by lia. by destruct (N.eqb_spec (g + 1) 0); [lia|]. Qed.

Section facts.
Context {D : Type} `{Zero D}.
Implicit Types (t : table D) (s : tableSpec D) (h : handle) (d : D) (n : nat).

Lemma slot_of_bound t i x : slot_of t i = Some x → (i < N.of_nat (length (slots t)))%N.
Proof using Type. unfold slot_of. intros Hx%lookup_lt_Some. lia. Qed.

(** A handle is held exactly when its slot has its generation. *)
Lemma holds_spec t h : (N.of_nat (length (slots t)) < 2 ^ 32)%N →
  holds t h = Some (match slot_of t (index h) with Some x => (generation x =? handle_generation h)%N | None => false end).
Proof using Type.
  intros Hl. unfold holds, slot_of. rewrite u32_small by done. destruct (N.ltb_spec (index h) (N.of_nat (length (slots t)))) as [Hi|Hi].
  - destruct (lookup_lt_is_Some_2 (slots t) (N.to_nat (index h))) as [x Hx]; [lia|]. by rewrite Hx.
  - by rewrite (proj2 (lookup_ge_None (slots t) (N.to_nat (index h)))) by lia.
Qed.

(** A handle handed out, or the zero one, is held exactly when it is live. *)
Lemma sim_holds n t s h :
  sim n t s → (N.of_nat n < 2 ^ 32 - 2)%N → h ∈ given s ∨ h = zeroHandle →
  holds t h = Some (bool_decide (is_Some (live s !! h))) ∧
  (∀ d, live s !! h = Some d → ∃ x, slot_of t (index h) = Some x ∧ held x = true ∧ generation x = handle_generation h ∧ slot_descriptor x = d).
Proof using Type.
  intros Hs Hn Hh. split; [|intros d; apply (sim_live _ _ _ Hs)].
  rewrite holds_spec by (pose proof (sim_length _ _ _ Hs); lia). f_equal. apply eq_true_iff_eq. rewrite bool_decide_eq_true. split.
  - intros E. destruct (slot_of t (index h)) as [x|] eqn:Hx; [|done]. apply N.eqb_eq in E. exists (slot_descriptor x).
    apply (sim_live _ _ _ Hs). exists x. split_and!; [done| |done..]. destruct Hh as [Hg| ->].
    + destruct (sim_given _ _ _ Hs h Hg) as (y & Hy & _ & Hheld). assert (y = x) as -> by congruence. by apply Hheld.
    + exfalso. pose proof (sim_generation _ _ _ Hs _ _ Hx) as Hg. cbn in E. lia.
  - intros [d (x & -> & _ & E & _)%(sim_live _ _ _ Hs)]. by apply N.eqb_eq.
Qed.

Lemma slot_of_insert t i x j l : list_set (slots t) (N.to_nat i) x = Some l →
  slot_of (mkTable l (freeIndices t)) j = if decide (j = i) then Some x else slot_of t j.
Proof using Type.
  intros [Hi ->]%list_set_inv. unfold slot_of. cbn. rewrite lookup_insert_decide by done.
  destruct (decide (j = i)) as [->|Hj]; [by rewrite decide_True|]. rewrite decide_False; [done|]. lia.
Qed.

Lemma table_sim_new : sim 0 newTable (newSpec : tableSpec D).
Proof using Type.
  assert (E : freeIndices (newTable (D := D)) ++ (index <$> elements (retiring (newSpec (D := D)))) = []) by (cbn; by rewrite elements_empty).
  split; rewrite ?E; [cbn; lia|done| |by intros h ?%elem_of_empty|constructor|by intros i ?%elem_of_nil].
  intros h d. cbn. rewrite lookup_empty. split; [done|]. by intros (x & Hx & _).
Qed.

Lemma sim_weaken n t s : sim n t s → sim (S n) t s.
Proof using Type.
  intros [Hl Hg Hv Hgi Hnd Hu]. split; try done; [lia|]. intros i x Hx. specialize (Hg i x Hx). lia.
Qed.

(** An unheld slot handed out. *)
Lemma sim_acquire n t s d i x l f :
  sim n t s → slot_of t i = Some x → held x = false →
  list_set (slots t) (N.to_nat i) (mkSlot (generation x) d true) = Some l →
  freeIndices t ≡ₚ i :: f ∨ (i ∉ freeIndices t ++ (index <$> elements (retiring s))) ∧ f = freeIndices t →
  let h := mkHandle i (generation x) in
  (h ∉ given s) ∧ h ≠ zeroHandle ∧
  sim n (mkTable l f) (mkSpec (<[h := d]> (live s)) (retiring s) ({[h]} ∪ given s)).
Proof using Type.
  intros Hs Hx Hheld Hl Hf h. pose proof (sim_generation _ _ _ Hs _ _ Hx) as Hgen.
  assert (Hslot : ∀ j, slot_of (mkTable l f) j = if decide (j = i) then Some (mkSlot (generation x) d true) else slot_of t j).
  { intros j. by apply (slot_of_insert t). }
  assert (Hfresh : h ∉ given s).
  { intros Hin. destruct (sim_given _ _ _ Hs h Hin) as (y & Hy & _ & Hh). cbn in Hy. assert (y = x) as -> by congruence.
    by rewrite Hh in Hheld. }
  split; [done|]. split; [unfold h, zeroHandle; intros [= _ E]; lia|]. destruct Hs as [Hlen Hg Hv Hgi Hnd Hu].
  assert (Hnd' : NoDup (i :: f ++ (index <$> elements (retiring s)))).
  { destruct Hf as [Hp|[Hi ->]]; [by rewrite Hp in Hnd|by constructor]. }
  apply NoDup_cons in Hnd' as [Hi Hnd'].
  split; cbn [slots freeIndices live retiring given].
  - apply list_set_inv in Hl as [_ ->]. by rewrite length_insert.
  - intros j y Hy. apply list_set_inv in Hl as [_ ->]. apply list_lookup_insert_Some in Hy as [(<- & <- & _)|[_ Hy]]; [done|by eapply Hg].
  - intros h' d'. rewrite Hslot. destruct (decide (h' = h)) as [->|Hne].
    + rewrite lookup_insert_eq. cbn. rewrite decide_True by done. split; [intros [= ->]; by eexists|]. intros (y & [= <-] & _ & _ & <-). done.
    + rewrite lookup_insert_ne by done. rewrite Hv. destruct (decide (index h' = i)) as [E|E]; [|done].
      split.
      * intros (y & Hy & Hyh & _). rewrite E in Hy. congruence.
      * intros (y & [= <-] & _ & Eg & _). exfalso. apply Hne. destruct h'. cbn in *. by rewrite E, <- Eg.
  - intros h' [->%elem_of_singleton|Hin]%elem_of_union; rewrite Hslot.
    + cbn. rewrite decide_True by done. eexists. split; [done|]. cbn. split; [lia|done].
    + destruct (Hgi h' Hin) as (y & Hy & Hle & Hh). destruct (decide (index h' = i)) as [E|E]; [|by exists y].
      rewrite E in Hy. assert (y = x) as -> by congruence. eexists. split; [done|]. cbn. by split.
  - done.
  - intros j Hj. rewrite Hslot. rewrite decide_False by (intros ->; done). apply Hu.
    destruct Hf as [Hp|[_ ->]]; [|done]. rewrite Hp. by right.
Qed.

Lemma exec_acquire n t s d :
  sim n t s → (N.of_nat n < 2 ^ 32 - 2)%N →
  ∃ t' h s', exec t (Acquire d) = Some (t', AHandle h) ∧ spec_step s (Acquire d) (AHandle h) s' ∧ sim (S n) t' s'.
Proof using Type.
  intros Hs Hn. cbn [exec]. unfold acquire. destruct (last (freeIndices t)) as [i|] eqn:Ei.
  - apply last_Some in Ei as [f Ef].
    destruct (sim_unheld _ _ _ Hs i) as (x & Hx & Hheld); [rewrite Ef, !elem_of_app, list_elem_of_singleton; tauto|].
    assert (Hl : is_Some (list_set (slots t) (N.to_nat i) (mkSlot (generation x) d true))).
    { rewrite list_set_Some; [by eexists|]. by eapply lookup_lt_Some. }
    destruct Hl as [l Hl]. destruct (sim_acquire n t s d i x l f Hs Hx Hheld Hl) as (Hfr & Hz & Hsim).
    { left. by rewrite Ef, Permutation_app_comm. }
    unfold slot_of in Hx. cbn [slots freeIndices]. rewrite Hx. cbn [mbind option_bind]. rewrite Hl. cbn [mbind option_bind].
    rewrite Ef, length_app, Nat.add_sub, take_app_length. do 3 eexists. split; [done|]. split; [by constructor|]. by apply sim_weaken.
  - apply last_None in Ei. cbn [slots freeIndices]. rewrite u32_small by (pose proof (sim_length _ _ _ Hs); lia).
    set (x := mkSlot (nextGeneration 0) zero_value false). set (i := N.of_nat (length (slots t))). set (t1 := mkTable (slots t ++ [x]) (freeIndices t)).
    assert (Hold : ∀ j y, slot_of t j = Some y → slot_of t1 j = Some y) by (intros j y Hy; unfold slot_of in *; cbn; by apply lookup_app_l_Some).
    assert (Hs1 : sim (S n) t1 s).
    { destruct Hs as [Hl Hg Hv Hgi Hnd Hu]. split; try done.
      - cbn. rewrite length_app. cbn. lia.
      - intros j y Hy. cbn in Hy. apply lookup_snoc_Some in Hy as [[_ Hy]|[_ <-]]; [specialize (Hg j y Hy); lia|]. cbn.
        rewrite table_generation_succ by lia. lia.
      - intros h d'. rewrite Hv. split; [intros (y & Hy & Hr); exists y; by split; [apply Hold|]|].
        intros (y & Hy & Hh & Hr). exists y. split; [|done]. unfold slot_of in *. cbn in Hy.
        apply lookup_snoc_Some in Hy as [[_ Hy]|[_ <-]]; [done|]. by cbn in Hh.
      - intros h Hin. destruct (Hgi h Hin) as (y & Hy & Hr). exists y. by split; [apply Hold|].
      - intros j Hj. destruct (Hu j Hj) as (y & Hy & Hr). exists y. by split; [apply Hold|]. }
    assert (Hx : slot_of t1 i = Some x).
    { unfold slot_of, i, t1. cbn. rewrite Nat2N.id, lookup_app_r, Nat.sub_diag by lia. done. }
    assert (Hl : is_Some (list_set (slots t1) (N.to_nat i) (mkSlot (generation x) d true))).
    { rewrite list_set_Some; [by eexists|]. by eapply lookup_lt_Some. }
    destruct Hl as [l Hl]. destruct (sim_acquire (S n) t1 s d i x l (freeIndices t1) Hs1 Hx eq_refl Hl) as (Hfr & Hz & Hsim).
    { right. split; [|done]. intros Hin. destruct (sim_unheld _ _ _ Hs i Hin) as (y & Hy%slot_of_bound & _). unfold i in Hy. lia. }
    change (slots t ++ [x]) with (slots t1). unfold slot_of in Hx. rewrite Hx. cbn [mbind option_bind]. rewrite Hl. cbn [mbind option_bind].
    do 3 eexists. split; [done|]. split; [by constructor|done].
Qed.

Lemma exec_retire n t s h :
  sim n t s → (N.of_nat n < 2 ^ 32 - 2)%N → h ∈ given s ∨ h = zeroHandle →
  ∃ t' a s', exec t (Retire h) = Some (t', a) ∧ spec_step s (Retire h) a s' ∧ sim (S n) t' s'.
Proof using Type.
  intros Hs Hn Hh. destruct (sim_holds n t s h Hs Hn Hh) as [E Hlive]. cbn [exec]. unfold retire. rewrite E. cbn [mbind option_bind].
  destruct (live s !! h) as [d|] eqn:Ed.
  - rewrite bool_decide_true by (by eexists). destruct (Hlive d eq_refl) as (x & Hx & Hheld & Hgen & _).
    pose proof (sim_generation _ _ _ Hs _ _ Hx) as Hgx. unfold slot_of in Hx. rewrite Hx. cbn [mbind option_bind].
    destruct (list_set (slots t) (N.to_nat (index h)) (mkSlot (nextGeneration (generation x)) zero_value false)) as [l|] eqn:Hl.
    2: { rewrite list_set_Some in Hl; [done|by eapply lookup_lt_Some]. }
    cbn [mbind option_bind]. do 3 eexists. split; [done|]. split; [apply spec_retire; by eexists|].
    rewrite table_generation_succ in Hl by lia. set (t' := mkTable l (freeIndices t)).
    assert (Hslot : ∀ j, slot_of t' j = if decide (j = index h) then Some (mkSlot (generation x + 1) zero_value false) else slot_of t j).
    { intros j. by apply (slot_of_insert t). }
    assert (Hnot : index h ∉ freeIndices t ++ (index <$> elements (retiring s))).
    { intros Hin. destruct (sim_unheld _ _ _ Hs _ Hin) as (y & Hy & Hyh). unfold slot_of in Hy. congruence. }
    assert (Hperm : elements ({[h]} ∪ retiring s) ≡ₚ h :: elements (retiring s)).
    { apply elements_union_singleton. intros Hin. apply Hnot, elem_of_app. right. apply list_elem_of_fmap. exists h. by rewrite elem_of_elements. }
    destruct Hs as [Hlen Hg Hv Hgi Hnd Hu]. split; cbn [slots freeIndices live retiring given t'].
    + apply list_set_inv in Hl as [_ ->]. rewrite length_insert. lia.
    + intros j y Hy. apply list_set_inv in Hl as [_ ->]. apply list_lookup_insert_Some in Hy as [(_ & <- & _)|[_ Hy]]; [cbn; lia|].
      specialize (Hg j y Hy). lia.
    + intros h' d'. rewrite Hslot. destruct (decide (h' = h)) as [->|Hne].
      * rewrite lookup_delete_eq, decide_True by done. split; [done|]. by intros (y & [= <-] & ? & _).
      * rewrite lookup_delete_ne by done. destruct (decide (index h' = index h)) as [Ei|]; [|apply Hv]. split.
        -- intros (y & Hy & _ & Eg & _)%Hv. exfalso. apply Hne. unfold slot_of in Hy. rewrite Ei in Hy. assert (y = x) as -> by congruence.
           destruct h, h'. cbn in *. congruence.
        -- by intros (y & [= <-] & ? & _).
    + intros h' Hin. rewrite Hslot. destruct (Hgi h' Hin) as (y & Hy & Hle & Hyh). destruct (decide (index h' = index h)) as [Ei|]; [|by exists y].
      unfold slot_of in Hy. rewrite Ei in Hy. assert (y = x) as -> by congruence. eexists. split; [done|]. cbn. split; [lia|]. lia.
    + rewrite Hperm. cbn. rewrite <- Permutation_middle. by constructor.
    + intros j. rewrite Hperm. cbn. rewrite <- Permutation_middle. intros [->|Hj]%elem_of_cons; rewrite Hslot.
      * rewrite decide_True by done. by eexists.
      * rewrite decide_False by (intros ->; done). by apply Hu.
  - rewrite bool_decide_false by (by intros []). do 3 eexists. split; [done|]. split; [by apply spec_retire_stale|by apply sim_weaken].
Qed.

Lemma exec_release n t s h :
  sim n t s → h ∈ retiring s → sim (S n) (release t h) (mkSpec (live s) (retiring s ∖ {[h]}) (given s)).
Proof using Type.
  intros Hs%sim_weaken Hh. destruct Hs as [Hlen Hg Hv Hgi Hnd Hu].
  assert (Hperm : (freeIndices t ++ [index h]) ++ (index <$> elements (retiring s ∖ {[h]})) ≡ₚ freeIndices t ++ (index <$> elements (retiring s))).
  { rewrite <- app_assoc. f_equiv. change ([index h] ++ (index <$> elements (retiring s ∖ {[h]}))) with (index <$> (h :: elements (retiring s ∖ {[h]}))).
    apply fmap_Permutation. rewrite <- elements_union_singleton by set_solver. f_equiv. intros x.
    rewrite elem_of_union, elem_of_difference, elem_of_singleton. destruct (decide (x = h)) as [->|]; tauto. }
  split; try done; cbn [slots freeIndices live retiring given release].
  - by rewrite Hperm.
  - intros i. rewrite Hperm. apply Hu.
Qed.

Lemma elem_held_from i (l : list (slot D)) h d :
  (N.of_nat (i + length l) < 2 ^ 32)%N →
  (h, d) ∈ held_from i l ↔
  ∃ j x, l !! j = Some x ∧ held x = true ∧ h = mkHandle (N.of_nat (i + j)) (generation x) ∧ d = slot_descriptor x.
Proof using Type.
  revert i. induction l as [|x l IH]; intros i Hi; cbn [held_from].
  { split; [by intros ?%elem_of_nil|]. by intros (j & x & Hj & _). }
  cbn in Hi. assert (IH' : (h, d) ∈ held_from (S i) l ↔
    ∃ j y, (x :: l) !! S j = Some y ∧ held y = true ∧ h = mkHandle (N.of_nat (i + S j)) (generation y) ∧ d = slot_descriptor y).
  { rewrite IH by lia. by setoid_rewrite Nat.add_succ_r. }
  destruct (held x) eqn:Ex.
  - rewrite u32_small by lia. rewrite elem_of_cons, IH'. split.
    + intros [[= -> ->]|(j & y & ?)]; [exists 0, x|by exists (S j), y]. split_and!; [done..| |done]. do 2 f_equal. lia.
    + intros ([|j] & y & Hy & Hr); [|right; by exists j, y]. injection Hy as <-. left. destruct Hr as (_ & -> & ->). do 3 f_equal. lia.
  - rewrite IH'. split; [intros (j & y & ?); by exists (S j), y|]. intros ([|j] & y & Hy & Hr); [|by exists j, y].
    injection Hy as <-. destruct Hr. congruence.
Qed.

Lemma held_from_sorted i (l : list (slot D)) :
  (N.of_nat (i + length l) < 2 ^ 32)%N → StronglySorted N.lt (index ∘ fst <$> held_from i l).
Proof using Type.
  revert i. induction l as [|x l IH]; intros i Hi; cbn [held_from]; [constructor|]. cbn in Hi.
  specialize (IH (S i) ltac:(lia)). destruct (held x); [|done]. cbn. constructor; [done|]. apply Forall_fmap, Forall_forall.
  intros [h d] Hin. apply elem_held_from in Hin as (j & y & _ & _ & -> & _); [|lia]. cbn. rewrite u32_small by lia. lia.
Qed.

Lemma sorted_fst_NoDup (l : list (handle * D)) : StronglySorted N.lt (index ∘ fst <$> l) → NoDup l.
Proof using Type.
  induction l as [|p l IH]; cbn; [constructor|]. intros [Hl Hs]%StronglySorted_cons. constructor; [|by apply IH].
  intros Hin. rewrite Forall_forall in Hl. specialize (Hl (index p.1)). cbn in Hl.
  enough (index p.1 < index p.1)%N by lia. apply Hl. apply list_elem_of_fmap. by exists p.
Qed.

Lemma sim_held n t s :
  sim n t s → (N.of_nat n < 2 ^ 32 - 2)%N → spec_step s HeldHandles (AHandles (heldHandles t)) s.
Proof using Type.
  intros Hs Hn. assert (Hl : (N.of_nat (0 + length (slots t)) < 2 ^ 32)%N) by (pose proof (sim_length _ _ _ Hs); lia).
  pose proof (held_from_sorted 0 (slots t) Hl) as Hsort. constructor; [|done].
  apply NoDup_Permutation; [by apply sorted_fst_NoDup|apply NoDup_map_to_list|]. intros [h d].
  rewrite elem_of_map_to_list, (sim_live _ _ _ Hs). unfold heldHandles. rewrite elem_held_from by done. unfold slot_of. split.
  - intros (j & x & Hx & Hh & -> & ->). exists x. cbn. by rewrite Nat2N.id.
  - intros (x & Hx & Hh & Eg & <-). exists (N.to_nat (index h)), x. split_and!; [done..| |done]. destruct h. cbn in *. f_equal; [lia|done].
Qed.

Lemma table_exec n t s o :
  sim n t s → op_ok s o → (N.of_nat n < 2 ^ 32 - 2)%N →
  ∃ t' a s', exec t o = Some (t', a) ∧ spec_step s o a s' ∧ sim (S n) t' s'.
Proof using Type.
  intros Hs Ho Hn. destruct o as [d|h|h|h|h|]; cbn in Ho.
  - destruct (exec_acquire n t s d Hs Hn) as (t' & h & s' & ?). by exists t', (AHandle h), s'.
  - by apply (exec_retire n).
  - do 3 eexists. split; [done|]. split; [constructor|]. by apply exec_release.
  - destruct (sim_holds n t s h Hs Hn Ho) as [E Hlive]. cbn [exec]. unfold descriptor. rewrite E. cbn [mbind option_bind].
    exists t, (ADescriptor (live s !! h)), s. split; [|by split; [constructor|apply sim_weaken]].
    destruct (live s !! h) as [d|]; [|by rewrite bool_decide_false by (by intros [])].
    rewrite bool_decide_true by (by eexists). destruct (Hlive d eq_refl) as (x & Hx & _ & _ & Ed). unfold slot_of in Hx.
    rewrite Hx. cbn. by rewrite Ed.
  - destruct (sim_holds n t s h Hs Hn Ho) as [E _]. cbn [exec]. unfold check. rewrite E. cbn.
    exists t, (AErrReleased (bool_decide (live s !! h = None))), s. split; [|by split; [constructor|apply sim_weaken]].
    do 3 f_equal. rewrite <- bool_decide_not. apply bool_decide_ext. by rewrite eq_None_not_Some.
  - do 3 eexists. split; [done|]. split; [by eapply sim_held|by apply sim_weaken].
Qed.

Lemma table_spec_step_det s o (a : answer D) s1 s2 : spec_step s o a s1 → spec_step s o a s2 → s1 = s2.
Proof using Type. destruct 1; inversion 1; congruence. Qed.

Lemma table_reachable_sim n t s : reachable n t s → sim n t s.
Proof using Type.
  induction 1 as [|n t s o t' a s' _ IH Ho Hn E Hstep]; [apply table_sim_new|].
  destruct (table_exec n t s o IH Ho Hn) as (t1 & a1 & s1 & E1 & Hstep1 & Hs1). rewrite E in E1. injection E1 as -> ->.
  by rewrite (table_spec_step_det _ _ _ _ _ Hstep Hstep1).
Qed.

(** C33: from an empty table, after any operations, fewer than 2^32 - 2 so no
    generation comes round, on handles that were handed out or are zero, each
    released once after its retire: the next operation does not panic and
    answers as its contract says.  So acquire hands out a handle that never was
    and is not zero, a handle names what it was acquired with until its retire
    and is stale from then on whatever its index is reused for, and heldHandles
    answers the live handles, each once, in index order. *)
Theorem table_refines n t s o :
  reachable n t s → (N.of_nat n < 2 ^ 32 - 2)%N → op_ok s o →
  ∃ t' a s', exec t o = Some (t', a) ∧ spec_step s o a s' ∧ reachable (S n) t' s'.
Proof using Type.
  intros Hr Hn Ho. destruct (table_exec n t s o (table_reachable_sim n t s Hr) Ho Hn) as (t' & a & s' & E & Hstep & _).
  exists t', a, s'. split_and!; [done..|]. by eapply reach_step.
Qed.
End facts.

Module TableExample.
(** What a first handle's index is reused for does not bring it back. *)
Definition first : handle := mkHandle 0 1.
Definition second : handle := mkHandle 0 2.

Definition reused : table nat := mkTable [mkSlot 2 20 true] [].
Definition reusedSpec : tableSpec nat := mkSpec {[second := 20]} ∅ {[second; first]}.

Lemma reused_reachable : reachable 4 reused reusedSpec.
Proof.
  assert (H1 : reachable 1 (mkTable [mkSlot 1 10 true] []) (mkSpec {[first := 10]} ∅ {[first]} : tableSpec nat)).
  { eapply (reach_step 0 _ _ (Acquire 10)); [apply reach_new|exact I|lia|reflexivity|].
    replace ({[first]} : gset handle) with ({[first]} ∪ ∅ : gset handle) by set_solver. apply spec_acquire; [set_solver|done]. }
  assert (H2 : reachable 2 (mkTable [mkSlot 2 0 false] []) (mkSpec ∅ {[first]} {[first]} : tableSpec nat)).
  { eapply (reach_step 1 _ _ (Retire first)); [exact H1|left; set_solver|lia|reflexivity|].
    replace (∅ : gmap handle nat) with (delete first ({[first := 10]} : gmap handle nat)) by done.
    replace ({[first]} : gset handle) with ({[first]} ∪ ∅ : gset handle) at 4 by set_solver. apply spec_retire. by eexists. }
  assert (H3 : reachable 3 (mkTable [mkSlot 2 0 false] [0%N]) (mkSpec ∅ ∅ {[first]} : tableSpec nat)).
  { eapply (reach_step 2 _ _ (Release first)); [exact H2|cbn; set_solver|lia|reflexivity|].
    replace (∅ : gset handle) with ({[first]} ∖ {[first]} : gset handle) by set_solver. apply spec_release. }
  eapply (reach_step 3 _ _ (Acquire 20)); [exact H3|exact I|lia|reflexivity|].
  exact (spec_acquire (mkSpec ∅ ∅ {[first]}) 20 second ltac:(cbn; set_solver) ltac:(done)).
Qed.

Lemma table_refines_witness :
  ∃ t' a s', exec reused (Check first) = Some (t', a) ∧ a = AErrReleased true ∧ spec_step reusedSpec (Check first) a s'.
Proof.
  destruct (table_refines 4 reused reusedSpec (Check first) reused_reachable) as (t' & a & s' & E & Hstep & _); [lia|left; cbn; set_solver|].
  exists t', a, s'. split; [exact E|]. split; [|exact Hstep]. vm_compute in E. by injection E as _ <-.
Defined.
End TableExample.
